(* ===== verification/_CoqProject ===== *)
-Q . S2P
Prelude.v
GoBytes.v
GoStrings.v
GoNumbers.v
RaftTypes.v
RaftStorage.v
RaftLog.v
RaftLogFacts.v
RaftCore.v
RaftNode.v
RaftElection.v
RaftCluster.v
RaftSafety.v
RaftReads.v
LruCache.v
LruLinks.v
LruCacheFacts.v
LruLevel.v
LruStore.v
LruStoreFacts.v
LruStoreSafety.v
HashRing.v
RingTheorems.v
RpcWire.v
RpcWireFacts.v
RpcWireTheorems.v
RpcFlow.v
RpcBalance.v
RpcBalanceTheorems.v
RpcPending.v
RpcFuture.v
RpcStream.v
RpcPool.v
RpcInvoke.v
RpcServer.v
CachePeers.v
CacheGroup.v
CacheGroupTheorems.v
CacheStore.v
HttpRouter.v
HttpApp.v
HttpAppTheorems.v
HttpWebSocket.v
HttpSse.v
LsmBytes.v
LsmBloom.v
SkipNodes.v
LsmSkiplist.v
LsmWal.v
LsmBlock.v
LsmSst.v
LsmSstFacts.v
LsmSstTheorems.v
LsmNames.v
LsmTree.v
LsmTreeTheorems.v
TimeWheel.v
GoTime.v
CronParser.v
CronTheorems.v
TccComponent.v
TccManager.v
ChRing.v
ChLocal.v
ChLocalFacts.v
ConsistentHash.v
ConsistentHashFacts.v
ConsistentHashTheorems.v
RedisStore.v
ConsistentCache.v
RedisLock.v
ChatModel.v
ChatGroups.v
ChatContacts.v
ChatServer.v
ChatLogic.v
ChatMembers.v
ChatTheorems.v
OrmQuery.v
OrmTheorems.v
