(* ===== verification/Prelude.v ===== *)
(** * A verification library for swifty.go

    The repository holds a family of Go infrastructure modules and a set of
    small applications built the same way. This library models the parts whose
    own logic is a data structure, a protocol or a state machine, and proves
    what makes them correct.

    ** How Go is modelled

    A function that may panic returns an [outcome]; a pair [(T, error)] is a
    [result]. Integers are [Z] with the wrap-around of their width written at
    the operations that can leave it ([u64], [u32], [u16], [i64], ...). A slice
    is a list, a value of its own: that two slices may share an array is not
    modelled. Its accesses go through [index] and [subslice] which panic out
    of range; [subslice] knows the length only, where Go allows a bound up to the
    capacity, so that it panics in more cases than Go does, and a result it
    returns is Go's. A map is a [gmap] or, where it holds values of its own kind, its
    entries. A method with a pointer receiver takes the
    state before and returns the state after. An operation that holds a mutex
    for its whole body is one step. The order in which a Go map is ranged over
    is a typeclass ([MapOrder] for integer keys, [KeyOrder] for strings): theorems hold for
    every order. Time and random draws are arguments. A command to Redis, MySQL
    or MongoDB has a [fault]: it is carried out, lost, or carried out with its
    answer lost. This file holds that
    vocabulary and the generic lemmas; it is required by every other file.
    GoBytes, GoStrings, GoNumbers and GoTime hold what the modules use of Go's
    encoding/binary and unicode/utf8, strings, strconv and time.

    ** Raft: apps/raft_demo/raft

    - RaftTypes: model.go, progress.go, util.go and the records of read.go and
      ready.go.
    - RaftStorage: storage.go, the interface as the class [Storage], its laws
      as [StorageSpec] and [MemoryStorage] as an instance of both. RaftLog:
      log.go. RaftLogFacts: every operation of the log on its [view], the run
      of entries it stands for, proved against [StorageSpec] only.
    - RaftCore: raft.go, follower.go, candidate.go, leader.go, read.go.
      RaftNode: ready.go and the select loop of node.go, one event per case.
    - RaftElection and RaftCluster: nodes joined by a network that delays,
      reorders, duplicates and loses messages; no term has two leaders.
      Restarts are not a step of that cluster.
    - RaftSafety: what a leader commits; committed entries stay, whatever
      messages of 64 bits come, appends having the shape [sendAppend] gives them. RaftReads:
      ReadIndex, what a restart and a pre-vote lose, and the hand-over of a
      Ready and its Advance.

    ** Cache: swifty_cache

    - LruCache: the slots, links and hash map of one level (lru.go, from
      [node] on) with ByteView; LruLinks, LruCacheFacts and LruLevel show that
      it refines a list of entries ordered by use.
    - LruStore: the store of buckets of two levels; LruStoreFacts and
      LruStoreSafety give its operations on that list, its bucket count, and
      the properties of any sequence of calls.
    - HashRing: consistent_hash.go; RingTheorems: who owns a key, which keys
      move, independence of history.
    - CachePeers: peers.go, the members that service discovery puts on the
      ring; all nodes agree on the owner of a key.
    - CacheGroup: cache.go, group.go and single_flight.go; CacheGroupTheorems:
      concurrent misses of a key share one load. CacheStore: the local store of
      LruStore is an instance of the interface the wrapper is written against,
      and satisfies its laws; the table of groups by name.

    ** RPC: swifty_rpc/internal

    - RpcWire: codec, protocol and transport/tcp_connection.go,
      frames and their reassembly; JSON and gzip are the classes [JsonHeader]
      and [Gzip] with their round trips as laws. RpcWireFacts and
      RpcWireTheorems: decoding, encoding, streams of frames.
    - RpcFlow: breaker and limiter. RpcBalance and RpcBalanceTheorems: registry,
      load_balance and the address resolution of the client.
    - RpcPending, RpcFuture, RpcStream, RpcPool: transport/tcp_client.go,
      future.go, stream.go and tcp_connection_pool.go. A goroutine is a program
      counter between two accesses to shared state, a run is any interleaving;
      a [select] takes any of its ready cases.
    - RpcInvoke: the client, any number of calls over the limiter, registry,
      balancer, pools and breakers above. RpcServer: server/server.go,
      handler.go and stream.go, with services as reflection sees them; handlers
      return or panic.

    ** HTTP: swifty_http

    - HttpRouter: trie.go and router.go, and the route a request is dispatched
      to, for patterns and paths in which a star begins the last segment only
      (the code cuts them there).
    - HttpApp: swifty.go, group.go, context.go, response.go, recovery.go and
      logger.go. A middleware is a tree of its effects on the context, with
      [next] among them; net/http's writer ends the chain. HttpAppTheorems: the
      chain as a nesting, panics, responses, groups.
    - HttpWebSocket: websocket.go after the handshake, on the bytes a connection
      delivers; messages survive, loops end.
    - HttpSse: sse.go and a client of the event stream.

    ** LSM tree: apps/lsm_tree

    - LsmBytes: util and the readers over bytes. LsmBloom: filter, the class
      [Filter] with its law and the Bloom filter as an instance.
    - SkipNodes: nodes linked at several levels, shared by the two skip lists of
      the repository. LsmSkiplist: memtable, the class [MemTable] with its law
      and the skip list as an instance.
    - LsmWal: wal, what a log restores, and that a torn one is refused.
    - LsmBlock and LsmSst: block.go, sst_writer.go, sst_reader.go and node.go; LsmSstFacts and LsmSstTheorems: a table opens again as what
      was written, and which keys a lookup finds. LsmNames: names of files.
    - LsmTree: tree.go, tree_compact.go and tree_restore.go over any memtable
      and filter; LsmTreeTheorems: without compaction, and for keys that do not
      end in a zero byte, the tree is a map that survives restarts, also one
      within a flush; and what a late flush or a compaction loses.

    ** Timers: apps/time_wheel and apps/timer_demo/pkg/cron

    - TimeWheel: time_wheel.go, and the schedule of due ticks that it refines.
    - GoTime: instants, locations and [time.Date]. CronParser: parser.go;
      CronTheorems: which strings parse and to which values, what [Next] and [NextsBetween] find,
      and the clock change in which [Next] never ends.

    ** Transactions: apps/tcc_demo

    - TccComponent: example/tcc_component.go, its commands one by one, each of
      which may be lost or its answer be lost.
    - TccManager: txmanager.go with the record of example/txstore.go; the second
      phase and the monitors as threads that interleave.

    ** Data over a ring: apps/consistent_hash

    - ChRing: hash_ring.go, the class [HashRing] with its laws, and
      encryptor.go. ChLocal and ChLocalFacts: local/hash_ring.go, an instance
      that keeps the laws.
    - ConsistentHash: consistent_hash.go and migration.go over any ring;
      ConsistentHashFacts and ConsistentHashTheorems: the index of the data keys
      follows the ring, and the migrations are the keys whose owner changes.

    ** Redis: apps/consistent_cache and apps/redis_lock

    - RedisStore: keys with an expiry, and what the scripts use of them.
    - ConsistentCache: service.go, redis/cache.go and mysql/db.go, every command
      a step; when the cache agrees with the database.
    - RedisLock: lock.go, red_lock.go, lua.go and their options; exclusion, the
      watchdog, and the lock over several nodes, for objects with distinct tokens
      and one clock.

    ** Chat: swifty_chat/internal

    - ChatModel: the documents, the collections with the queries on them, and
      session_service.go. ChatGroups: group_service.go. ChatContacts:
      contact_service.go and user_service.go. ChatServer: chat_server.go,
      call_manager.go, message_service.go and the requests of the router, with
      [serve] as the step of the service. A handler runs to its end before the
      next one starts, so that races between two handlers are not modelled; one
      of them is shown by hand ([removal_races_with_reading]).
    - ChatLogic: triples for the handlers, and what a handler leaves alone.
      ChatMembers: the members of a group are those who have it among their
      contacts. ChatTheorems: senders, calls, the lists of sessions, and what
      the handlers do not hold.

    ** Query builder: swifty_orm

    - OrmQuery: filter.go, query.go, query_group.go and the commands of
      query_exec.go and query_aggregate.go. OrmTheorems: what a chain of calls
      says is what its filter matches, LIKE as in SQL, for any database that
      satisfies the class [MongoLaws]; grouped aggregations.

    ** Theorems

    Safety of Raft comes first, then what a connection, a server, a client and
    a stream of the RPC framework promise whatever interleaves, the log and its
    storage, the ring and the cache, the router and the tree, the chat service
    and the query builder, timers, transactions and locks. Beside them stand the
    theorems and lemmas that state where the
    code falls short of what it promises: a bucket count that wraps, a Set that
    evicts its own entry, reads that never complete in a cluster of two, a vote
    forgotten by a restart, a pre-vote asked in the wrong term, a body whose
    length is cut, instances balanced over a list in random order, a registry
    that misses changes, a breaker that no call will ever close, a slash that
    skips the middleware of a group, a ping that breaks a message in fragments,
    a compaction that brings back old values, a clock change that traps the
    search for the next minute, a monitor that cancels a success, a failure that is
    confirmed, a slow reader that caches an old row, a renewal that comes too
    late, an expiration that overflows the clock, a session that a race keeps in
    a list, a block that the blocked lifts himself, a condition that is overwritten.

    ** Fuel

    Loops that Go bounds by a slice or by an index difference recurse on a
    fuel computed from that bound: the slots of a level, the entries of a
    bucket, the length of a search range, the size of the table of scores in
    [getValidNextNode]. Lemmas beside each loop show that the
    fuel suffices, so that no statement holds by exhaustion. The search of
    [Next] has no bound in the code: [next_is_least] gives it the minutes of six
    years, 3162240, and shows that they are enough in a location with one
    offset; [clock_change_traps_next] shows that no fuel is enough in another.
    [rangeList] makes at most 200 values, more than any field has.

    ** Not modelled

    Network and file input and output, goroutines other than as the events they
    deliver, logging, and the modules listed with that status in the manifest:
    the agents, which are made of calls to queues and language models, the
    clients of Redis streams, the timer service over Redis and MySQL, the
    adapters of etcd and gRPC, the engine of the query builder. Of the modules
    above, the manifest says for each what is left out. *)
From Stdlib Require Export ZArith Lia.
From stdpp Require Export base gmap sets list strings sorting.
Open Scope Z_scope.

(** ** Outcomes and results *)

(** A Go call either returns or panics. *)
Inductive outcome (A : Type) : Type :=
| Ret (a : A)
| Panic (why : string).
Arguments Ret {A} a.
Arguments Panic {A} why.

(** A Go pair [(T, error)] in which exactly one side is meaningful. *)
Inductive result (E A : Type) : Type :=
| Ok (a : A)
| Err (e : E).
Arguments Ok {E A} a.
Arguments Err {E A} e.

Definition obind {A B : Type} (m : outcome A) (k : A -> outcome B) : outcome B :=
  match m with
  | Ret a => k a
  | Panic w => Panic w
  end.

Declare Scope go_scope.
Delimit Scope go_scope with go.
Notation "'let!' x := m 'in' k" := (obind m (fun x => k))
  (at level 10, x pattern at level 0, m at level 100, k at level 200) : go_scope.
Open Scope go_scope.

Definition is_ret {A} (m : outcome A) : Prop := exists a, m = Ret a.

#[export] Instance outcome_eq_dec {A} `{EqDecision A} : EqDecision (outcome A).
Proof. solve_decision. Defined.

Lemma obind_ret_inv {A B} (m : outcome A) (k : A -> outcome B) b :
  obind m k = Ret b -> exists a, m = Ret a /\ k a = Ret b.
Proof. destruct m; simpl; intros H; [eauto | discriminate]. Qed.

(** Splits every hypothesis saying that a sequence of calls returned. *)
Ltac inv_ret :=
  repeat match goal with
  | H : obind ?m ?k = Ret _ |- _ =>
      let a := fresh "v" in let E := fresh "E" in
      apply obind_ret_inv in H; destruct H as (a & E & H)
  | H : Ret _ = Ret _ |- _ => injection H as H; subst
  | H : Panic _ = Ret _ |- _ => discriminate H
  | H : None = Some _ |- _ => discriminate H
  | H : Some _ = None |- _ => discriminate H
  | H : (_, _) = (_, _) |- _ => injection H as ? ?; subst
  end.

(** ** Machine integers *)

Definition max_u64 : Z := 2 ^ 64 - 1.
Definition u64 (z : Z) : Z := z mod 2 ^ 64.
Definition u32 (z : Z) : Z := z mod 2 ^ 32.
Definition u8 (z : Z) : Z := z mod 2 ^ 8.
Definition i64 (z : Z) : Z := (z + 2 ^ 63) mod 2 ^ 64 - 2 ^ 63.
Definition i32 (z : Z) : Z := (z + 2 ^ 31) mod 2 ^ 32 - 2 ^ 31.

Definition is_u64 (z : Z) : Prop := 0 <= z < 2 ^ 64.
Definition is_u32 (z : Z) : Prop := 0 <= z < 2 ^ 32.

Lemma u64_id z : is_u64 z -> u64 z = z.
Proof. intros H. apply Z.mod_small, H. Qed.
Lemma u64_range z : is_u64 (u64 z).
Proof. apply Z.mod_pos_bound. reflexivity. Qed.
Lemma u32_id z : is_u32 z -> u32 z = z.
Proof. intros H. apply Z.mod_small, H. Qed.
Lemma u32_range z : is_u32 (u32 z).
Proof. apply Z.mod_pos_bound. reflexivity. Qed.
Lemma i64_id z : - 2 ^ 63 <= z < 2 ^ 63 -> i64 z = z.
Proof. intros H. unfold i64. rewrite Z.mod_small; lia. Qed.
Lemma i32_id z : - 2 ^ 31 <= z < 2 ^ 31 -> i32 z = z.
Proof. intros H. unfold i32. rewrite Z.mod_small; lia. Qed.

Create HintDb go.
Create Rewrite HintDb go_wrap.
Create Rewrite HintDb zlen.
#[export] Hint Resolve u64_range u32_range : go.
#[export] Hint Rewrite u64_id u32_id i64_id i32_id using (unfold is_u64, is_u32 in *; lia) : go_wrap.

(** Removes the wrap-arounds that the context shows do not happen. *)
Ltac nowrap := autorewrite with go_wrap in *.

(** ** Slices *)

Abbreviation bytes := (list Z).

Definition zlen {A} (l : list A) : Z := Z.of_nat (length l).

(** [l[i]] *)
Definition index {A} (l : list A) (i : Z) : outcome A :=
  if decide (0 <= i) then
    match l !! Z.to_nat i with
    | Some x => Ret x
    | None => Panic "index out of range"
    end
  else Panic "index out of range".

(** [l[lo:hi]]. Go checks the upper bound against the capacity, which a list does
    not have: a bound between the length and the capacity panics here and not
    there, so that whatever is proved to return does so in Go. *)
Definition subslice {A} (l : list A) (lo hi : Z) : outcome (list A) :=
  if decide (0 <= lo /\ lo <= hi /\ hi <= zlen l) then
    Ret (take (Z.to_nat (hi - lo)) (drop (Z.to_nat lo) l))
  else Panic "slice bounds out of range".

Lemma zlen_nonneg {A} (l : list A) : 0 <= zlen l.
Proof. unfold zlen. lia. Qed.
Lemma zlen_app {A} (l k : list A) : zlen (l ++ k) = zlen l + zlen k.
Proof. unfold zlen. rewrite length_app. lia. Qed.
Lemma zlen_cons {A} (x : A) l : zlen (x :: l) = 1 + zlen l.
Proof. unfold zlen. simpl length. lia. Qed.
Lemma zlen_nil {A} : zlen (@nil A) = 0.
Proof. reflexivity. Qed.
Lemma zlen_take {A} (l : list A) n : zlen (take n l) = Z.min (Z.of_nat n) (zlen l).
Proof. unfold zlen. rewrite length_take. lia. Qed.
Lemma zlen_drop {A} (l : list A) n : zlen (drop n l) = Z.max 0 (zlen l - Z.of_nat n).
Proof. unfold zlen. rewrite length_drop. lia. Qed.
Lemma zlen_replicate {A} n (x : A) : zlen (replicate n x) = Z.of_nat n.
Proof. unfold zlen. by rewrite length_replicate. Qed.
Lemma zlen_0 {A} (l : list A) : zlen l = 0 <-> l = [].
Proof. unfold zlen. destruct l; simpl; split; intros H; try lia; done. Qed.
#[export] Hint Rewrite @zlen_app @zlen_cons @zlen_nil @zlen_take @zlen_drop : zlen.

Lemma list_last_cons {A} (b a : A) T : List.last (b :: T) a = List.last T b.
Proof. revert a b. induction T as [| c T IH]; intros a b; [done |]. change (List.last (c :: T) a = List.last (c :: T) b). by rewrite (IH a c), (IH b c). Qed.
Lemma list_last_in {A} (T : list A) a : List.last T a ∈ a :: T.
Proof.
  revert a. induction T as [| c T IH]; intros a; [by left |]. rewrite list_last_cons. right. apply IH.
Qed.
Lemma list_last_split {A} (T : list A) a : exists P, a :: T = P ++ [List.last T a].
Proof.
  revert a. induction T as [| c T IH]; intros a; [by exists [] |]. rewrite list_last_cons. destruct (IH c) as [P HP].
  exists (a :: P). by rewrite HP.
Qed.

Lemma index_ret {A} (l : list A) i x :
  index l i = Ret x <-> 0 <= i /\ l !! Z.to_nat i = Some x.
Proof.
  unfold index. case_decide; [destruct (l !! _) |]; naive_solver.
Qed.

Lemma index_total {A} (l : list A) i :
  0 <= i < zlen l -> exists x, index l i = Ret x /\ l !! Z.to_nat i = Some x.
Proof.
  intros Hi. destruct (lookup_lt_is_Some_2 l (Z.to_nat i)) as [x Hx].
  { unfold zlen in Hi. lia. }
  exists x. split; [apply index_ret |]; auto with lia.
Qed.

Lemma subslice_ret {A} (l k : list A) lo hi :
  subslice l lo hi = Ret k <->
  (0 <= lo /\ lo <= hi /\ hi <= zlen l) /\
  k = take (Z.to_nat (hi - lo)) (drop (Z.to_nat lo) l).
Proof. unfold subslice. case_decide; naive_solver. Qed.

Lemma subslice_total {A} (l : list A) lo hi :
  0 <= lo <= hi -> hi <= zlen l ->
  subslice l lo hi = Ret (take (Z.to_nat (hi - lo)) (drop (Z.to_nat lo) l)).
Proof. intros. apply subslice_ret. auto with lia. Qed.

(** ** Record update
    [r <| f := v |>] for a record whose eta-expansion is declared with [Eta]. *)

Class Eta (R : Type) := eta : R -> R.
Class Setter {R T} (proj : R -> T) := set : (T -> T) -> R -> R.
Arguments set {R T} proj {_} _ _.

Ltac head_of t :=
  match t with
  | ?f _ => head_of f
  | _ => t
  end.

(** Abstracts the projection out of the eta-expansion; fails, rather than
    leaving the record alone, when the projection does not occur in it. *)
Ltac make_setter :=
  match goal with
  | |- @Setter ?R ?T ?p =>
      let e := constr:(@eta R _) in
      let e := eval unfold eta in e in
      let h := head_of e in
      let e := eval unfold h in e in
      let e := eval cbv beta in e in
      lazymatch e with
      | context [p] => idtac
      | _ => fail 1 "not a field of the record"
      end;
      let e := eval pattern p in e in
      match e with
      | ?g _ =>
          let s := constr:(fun (f : T -> T) (r : R) => g (fun x => f (p x)) r) in
          let s := eval cbv beta in s in exact s
      end
  end.
#[export] Hint Extern 1 (Setter _) => make_setter : typeclass_instances.

#[warnings="-postfix-notation-not-level-1"]
Notation "r <| f := v |>" := (set f (fun _ => v) r)
  (at level 12, f at level 11, v at level 200, left associativity) : go_scope.

(** ** Iteration over a Go map
    The runtime enumerates a map in an order of its own choosing; a
    development that ranges over one is stated for every such choice. *)
Class MapOrder := {
  range_keys : forall {A : Type}, gmap Z A -> list Z;
  range_keys_perm : forall {A : Type} (m : gmap Z A),
    range_keys m ≡ₚ (map_to_list m).*1;
}.

(** The order in which [gmap] lists its own keys, for concrete runs. *)
Definition canonical_order : MapOrder :=
  {| range_keys := fun A m => (map_to_list m).*1;
     range_keys_perm := fun A m => Permutation_refl _ |}.

Lemma range_keys_elem `{MapOrder} {A} (m : gmap Z A) k :
  k ∈ range_keys m <-> is_Some (m !! k).
Proof.
  rewrite range_keys_perm, list_elem_of_fmap. split.
  - intros ([k' v] & -> & Hin). apply elem_of_map_to_list in Hin. eauto.
  - intros [v Hv]. exists (k, v). split; [done |]. by apply elem_of_map_to_list.
Qed.

Lemma range_keys_length `{MapOrder} {A} (m : gmap Z A) :
  length (range_keys m) = size m.
Proof. by rewrite range_keys_perm, length_fmap, length_map_to_list. Qed.

Lemma range_keys_NoDup `{MapOrder} {A} (m : gmap Z A) : NoDup (range_keys m).
Proof. rewrite range_keys_perm. apply NoDup_fst_map_to_list. Qed.

(** The same over a Go set, or the keys of a map, of strings. *)
Class KeyOrder := {
  range_set : gset string -> list string;
  range_set_perm : forall s, range_set s ≡ₚ elements s;
}.
Definition canonical_keys : KeyOrder :=
  {| range_set := elements; range_set_perm := fun s => Permutation_refl _ |}.

(** ** Descending sort ([sort.Sort(sort.Reverse(_))] on unsigned integers) *)

Definition sort_desc (l : list Z) : list Z := merge_sort Z.ge l.

#[export] Instance Zge_total : Total Z.ge.
Proof. intros x y. lia. Qed.
#[export] Instance Zge_trans : Transitive Z.ge.
Proof. intros x y z. lia. Qed.

Lemma sort_desc_perm l : sort_desc l ≡ₚ l.
Proof. apply merge_sort_Permutation. Qed.
Lemma sort_desc_sorted l : StronglySorted Z.ge (sort_desc l).
Proof. apply StronglySorted_merge_sort; apply _. Qed.

(** ** Loops whose body may panic *)

Fixpoint ofold {A B} (f : A -> B -> outcome B) (l : list A) (b : B) : outcome B :=
  match l with
  | [] => Ret b
  | a :: l => let! b := f a b in ofold f l b
  end.

(** A relation that every iteration respects holds across the loop. *)
Lemma ofold_rel {A B} (R : B -> B -> Prop) `{!PreOrder R} (f : A -> B -> outcome B) l b b' :
  (forall a b b', a ∈ l -> f a b = Ret b' -> R b b') -> ofold f l b = Ret b' -> R b b'.
Proof.
  revert b. induction l as [| a l IH]; simpl; intros b Hf H; inv_ret; [done |].
  etrans; [eapply Hf; [| eassumption]; set_solver |].
  eapply IH; [| done]. intros. eapply Hf; [| eassumption]. set_solver.
Qed.

(** [rand.Intn(n)] for [n > 0]: the generator is the list of the draws it has
    still to make, so that a statement over every list covers every run. *)
Definition intn (n : Z) (draws : list Z) : Z * list Z :=
  match draws with
  | [] => (0, [])
  | d :: rest => (d mod n, rest)
  end.

Lemma intn_range n draws v rest : 0 < n -> intn n draws = (v, rest) -> 0 <= v < n.
Proof.
  destruct draws; simpl; intros Hn [= <- <-]; [lia |]. by apply Z.mod_pos_bound.
Qed.

Definition nil_deref : string := "invalid memory address or nil pointer dereference".

(** ** Order statistics of a descending list *)

Lemma sorted_desc_count (l : list Z) k x :
  StronglySorted Z.ge l -> l !! k = Some x -> (S k <= length (filter (fun y => (x <= y)%Z) l))%nat.
Proof.
  intros Hs. revert k. induction Hs as [| y l Hs IH Hy]; intros k; [by rewrite lookup_nil |].
  destruct k as [| k]; simpl.
  - intros [= ->]. rewrite filter_cons_True by lia. simpl. lia.
  - intros Hk. rewrite Forall_forall in Hy. specialize (IH k Hk).
    rewrite filter_cons_True; [simpl; lia |]. specialize (Hy x (list_elem_of_lookup_2 _ _ _ Hk)). lia.
Qed.

Lemma filter_none {A} (P : A -> Prop) `{!forall x, Decision (P x)} (l : list A) :
  Forall (fun x => ~ P x) l -> filter P l = [].
Proof. induction 1 as [| x l Hx _ IH]; [done |]. by rewrite filter_cons_False. Qed.

Lemma filter_all {A} (P : A -> Prop) `{!forall x, Decision (P x)} (l : list A) :
  Forall P l -> filter P l = l.
Proof. induction 1 as [| x l Hx _ IH]; [done |]. rewrite filter_cons_True by done. by rewrite IH. Qed.

Lemma filter_map_length {A B} (P : B -> Prop) `{!forall x, Decision (P x)} (f : A -> B) (l : list A) :
  length (filter P (f <$> l)) = length (filter (fun x => P (f x)) l).
Proof.
  induction l as [| x l IH]; [done |]. rewrite fmap_cons, !filter_cons.
  destruct (decide (P (f x))); simpl; by rewrite IH.
Qed.

Lemma sorted_desc_max (l : list Z) k x n :
  StronglySorted Z.ge l -> l !! k = Some x ->
  (S k <= length (filter (fun y => (n <= y)%Z) l))%nat -> n <= x.
Proof.
  intros Hs. revert k. induction Hs as [| y l Hs IH Hy]; intros k; [by rewrite lookup_nil |].
  destruct (decide (n <= y)) as [Hn | Hn].
  - rewrite filter_cons_True by done. destruct k as [| k]; simpl; [by intros [= <-] |].
    intros Hk Hc. apply (IH k); [done | lia].
  - rewrite filter_cons_False by done. intros _ Hc. exfalso.
    assert (Hlt : Forall (fun z => ~ n <= z) l) by (eapply Forall_impl; [exact Hy |]; simpl; lia).
    rewrite filter_none in Hc by done. simpl in Hc. lia.
Qed.

(** The values a range over a map visits. *)
Lemma range_values_perm `{MapOrder} {A B} (f : A -> B) (m : gmap Z A) :
  omap (fun id => f <$> m !! id) (range_keys m) ≡ₚ (fun p => f p.2) <$> map_to_list m.
Proof.
  rewrite range_keys_perm.
  assert (Hall : Forall (fun p => m !! p.1 = Some p.2) (map_to_list m)).
  { apply Forall_forall. intros [k v] Hp. by apply elem_of_map_to_list in Hp. }
  induction Hall as [| [k v] l Hk _ IH]; simpl in *; [done |]. rewrite Hk. simpl. by constructor.
Qed.

(** ** Sums *)

Definition sumZ (l : list Z) : Z := foldr Z.add 0 l.

Lemma sumZ_insert l i x y : l !! i = Some x -> sumZ (<[i := y]> l) = sumZ l - x + y.
Proof.
  revert i. induction l as [| z l IH]; intros [| i] Hi; simpl in *; try done; [injection Hi as ->; lia |].
  rewrite (IH i Hi). lia.
Qed.

(** How a total over a list changes with one element. *)
Lemma sumZ_fmap_insert {A} (w : A -> Z) (l : list A) i x y :
  l !! i = Some x -> sumZ (w <$> <[i := y]> l) = sumZ (w <$> l) - w x + w y.
Proof. intros Hi. rewrite list_fmap_insert. apply sumZ_insert. by rewrite list_lookup_fmap, Hi. Qed.

Lemma sumZ_nonneg l : Forall (fun x => 0 <= x) l -> 0 <= sumZ l.
Proof. induction 1; simpl; lia. Qed.

Lemma sumZ_zero l : Forall (fun x => 0 <= x) l -> sumZ l = 0 -> Forall (fun x => x = 0) l.
Proof.
  induction 1 as [| x l Hx Hl IH]; simpl; [constructor |]. intros Hs.
  pose proof (sumZ_nonneg l Hl). constructor; [lia | apply IH; lia].
Qed.

Lemma sumZ_elem ws x : Forall (fun x => 0 <= x) ws -> x ∈ ws -> x <= sumZ ws.
Proof.
  induction 1 as [| y ws Hy Hw IH]; intros Hx; [by apply not_elem_of_nil in Hx |]. simpl.
  pose proof (sumZ_nonneg ws Hw). apply elem_of_cons in Hx as [-> | Hx]; [lia | specialize (IH Hx); lia].
Qed.

(** ** Strings *)

(** [strings.TrimPrefix] *)
Fixpoint TrimPrefix_go (p s : string) : option string :=
  match p, s with
  | EmptyString, _ => Some s
  | String a p, String b s => if decide (a = b) then TrimPrefix_go p s else None
  | String _ _, EmptyString => None
  end.
Definition TrimPrefix (s p : string) : string := default s (TrimPrefix_go p s).

Lemma TrimPrefix_app p s : TrimPrefix (p ++ s) p = s.
Proof.
  unfold TrimPrefix. assert (Hgo : TrimPrefix_go p (p ++ s) = Some s); [| by rewrite Hgo].
  induction p as [| a p IH]; simpl; [done |]. by rewrite decide_True.
Qed.

(** ** Commands to a store *)

(** A command is carried out and answered, is lost, or is carried out with its
    answer lost. *)
Inductive fault := Fine | Lost | Unanswered.
#[export] Instance fault_eq_dec : EqDecision fault.
Proof. solve_decision. Defined.

Lemma append_inj_l (a b c : string) : (a ++ b = a ++ c)%string -> b = c.
Proof. induction a as [| x a IH]; [done |]. intros [= H]. by apply IH. Qed.
