(* ===== verification/GoBytes.v ===== *)
(** * GoBytes
    Integers as bytes ([encoding/binary], big endian) and text as bytes
    ([unicode/utf8]), shared by the wire formats of the RPC and HTTP modules. *)
From S2P Require Import Prelude.

(** ** [encoding/binary] *)

(** [binary.BigEndian.PutUint16/32]: the [n] bytes of [x], highest first. *)
Fixpoint put_be (n : nat) (x : Z) : bytes :=
  match n with
  | O => []
  | S n => u8 (Z.shiftr x (8 * Z.of_nat n)) :: put_be n x
  end.

(** [binary.BigEndian.Uint16/32] *)
Definition get_be (l : bytes) : Z := fold_left (fun acc b => Z.lor (Z.shiftl acc 8) b) l 0.

Lemma length_put_be n x : length (put_be n x) = n.
Proof. induction n; simpl; congruence. Qed.

Lemma get_be_acc n x a :
  fold_left (fun acc b => Z.lor (Z.shiftl acc 8) b) (put_be n x) a
    = Z.lor (Z.shiftl a (8 * Z.of_nat n)) (x mod 2 ^ (8 * Z.of_nat n)).
Proof.
  revert a. induction n as [| n IH]; intros a; cbn [put_be fold_left].
  - rewrite Z.mod_1_r, Z.lor_0_r. by rewrite Z.shiftl_0_r.
  - rewrite IH. unfold u8. rewrite <- !Z.land_ones by lia.
    replace (8 * Z.of_nat (S n)) with (8 * Z.of_nat n + 8) by lia.
    set (k := 8 * Z.of_nat n). assert (Hk : 0 <= k) by lia. clearbody k. clear IH.
    apply Z.bits_inj'. intros i Hi.
    rewrite !Z.lor_spec, !Z.land_spec, !Z.testbit_ones_nonneg, !Z.shiftl_spec by lia.
    destruct (decide (i < k)) as [Hlt | Hge].
    + rewrite !(Z.testbit_neg_r _ (i - k)), !(Z.testbit_neg_r a) by lia.
      rewrite (proj2 (Z.ltb_lt i k)), (proj2 (Z.ltb_lt i (k + 8))) by lia. simpl. by rewrite !andb_true_r.
    + rewrite (proj2 (Z.ltb_ge i k)) by lia. rewrite andb_false_r, orb_false_r, Z.lor_spec, Z.land_spec.
      rewrite Z.shiftl_spec, Z.shiftr_spec, Z.testbit_ones_nonneg by lia.
      replace (i - k + k) with i by lia. replace (i - k - 8) with (i - (k + 8)) by lia.
      destruct (i <? k + 8) eqn:Hb; [apply Z.ltb_lt in Hb | apply Z.ltb_ge in Hb].
      * rewrite (proj2 (Z.ltb_lt (i - k) 8)) by lia. done.
      * rewrite (proj2 (Z.ltb_ge (i - k) 8)) by lia. by rewrite !andb_false_r.
Qed.

Lemma get_put_be n x : get_be (put_be n x) = x mod 2 ^ (8 * Z.of_nat n).
Proof. unfold get_be. by rewrite get_be_acc, Z.shiftl_0_l. Qed.

Lemma get_put_u32 x : is_u32 x -> get_be (put_be 4 x) = x.
Proof. intros H. rewrite get_put_be. by apply Z.mod_small. Qed.

(** Bytes proper. *)
Definition octets (l : bytes) : Prop := Forall (fun b => 0 <= b < 256) l.

Lemma octets_put_be n x : octets (put_be n x).
Proof. induction n; constructor; [apply Z.mod_pos_bound; lia | done]. Qed.


(** ** Text: [unicode/utf8] *)

Definition byte_of (c : Ascii.ascii) : Z := Z.of_nat (Ascii.nat_of_ascii c).
Definition to_bytes (s : string) : bytes := byte_of <$> String.list_ascii_of_string s.

Definition in_range (lo hi b : Z) : bool := (lo <=? b) && (b <=? hi).
Definition cont (b : Z) : bool := in_range 128 191 b.

Fixpoint utf8_from (fuel : nat) (l : bytes) : bool :=
  match fuel with
  | O => bool_decide (l = [])
  | S fuel =>
      match l with
      | [] => true
      | a :: l1 =>
          if in_range 0 127 a then utf8_from fuel l1 else
          match l1 with
          | [] => false
          | b :: l2 =>
              if in_range 194 223 a then cont b && utf8_from fuel l2 else
              match l2 with
              | [] => false
              | c :: l3 =>
                  if in_range 224 239 a then
                    in_range (if a =? 224 then 160 else 128) (if a =? 237 then 159 else 191) b
                    && cont c && utf8_from fuel l3
                  else
                  match l3 with
                  | [] => false
                  | d :: l4 =>
                      in_range 240 244 a
                      && in_range (if a =? 240 then 144 else 128) (if a =? 244 then 143 else 191) b
                      && cont c && cont d && utf8_from fuel l4
                  end
              end
          end
      end
  end.
(** [utf8.ValidString] *)
Definition utf8_valid (s : string) : bool := utf8_from (String.length s) (to_bytes s).
