(* ===== verification/GoStrings.v ===== *)
(** * GoStrings
    The functions of Go's [strings] package that several components use, on
    strings as lists of bytes, with the lemmas about them that they need; white
    space is Unicode's, decoded from UTF-8. *)
From Stdlib Require Export Ascii.
From S2P Require Import Prelude.

(** [strings.HasPrefix] *)
Fixpoint HasPrefix (s p : string) : bool :=
  match p, s with
  | EmptyString, _ => true
  | String a p, String b s => if decide (a = b) then HasPrefix s p else false
  | String _ _, EmptyString => false
  end.

(** [strings.Split] at one byte: at least one word, empty words included. *)
Fixpoint Split (s : string) (sep : Ascii.ascii) : list string :=
  match s with
  | EmptyString => [EmptyString]
  | String a s =>
      if decide (a = sep) then EmptyString :: Split s sep
      else match Split s sep with
           | w :: ws => String a w :: ws
           | [] => [String a EmptyString]
           end
  end.

(** [strings.Join] *)
Fixpoint Join (ws : list string) (sep : string) : string :=
  match ws with
  | [] => EmptyString
  | [w] => w
  | w :: ws => w ++ sep ++ Join ws sep
  end%string.

(** [s[len(s)-1]], and [s[:len(s)-1]]. *)
Fixpoint last_byte (s : string) : option Ascii.ascii :=
  match s with
  | EmptyString => None
  | String a s => match last_byte s with Some b => Some b | None => Some a end
  end.
Fixpoint drop_last (s : string) : string :=
  match s with
  | EmptyString => EmptyString
  | String a s => match s with EmptyString => EmptyString | _ => String a (drop_last s) end
  end.

(** The byte [a] does not occur in [s]. *)
Fixpoint lacks (a : Ascii.ascii) (s : string) : Prop :=
  match s with EmptyString => True | String b s => b <> a /\ lacks a s end.

#[export] Instance lacks_dec a s : Decision (lacks a s).
Proof. induction s as [| b s IH]; simpl; [left; done | apply and_dec; [apply not_dec |]; exact _]. Defined.

Lemma append_nil s : ("" ++ s)%string = s.
Proof. reflexivity. Qed.
Lemma append_cons a s t : (String a s ++ t)%string = String a (s ++ t)%string.
Proof. reflexivity. Qed.

Lemma string_app_nil (s : string) : (s ++ "")%string = s.
Proof. induction s as [| a s IH]; [done |]. by rewrite append_cons, IH. Qed.

Lemma string_app_assoc (a b c : string) : (a ++ (b ++ c))%string = ((a ++ b) ++ c)%string.
Proof. induction a as [| x a IH]; [done |]. by rewrite !append_cons, IH. Qed.

Lemma HasPrefix_true s p : HasPrefix s p = true <-> exists t, s = (p ++ t)%string.
Proof.
  revert s. induction p as [| a p IH]; intros s.
  - destruct s; split; eauto.
  - destruct s as [| b s]; cbn [HasPrefix].
    + split; [done |]. intros [t Ht]. rewrite append_cons in Ht. done.
    + destruct (decide (a = b)) as [-> | Hne].
      * rewrite IH. split; intros [t Ht]; exists t; rewrite append_cons in *; [by rewrite Ht | by injection Ht].
      * split; [done |]. intros [t Ht]. rewrite append_cons in Ht. injection Ht. congruence.
Qed.

Lemma lacks_app a s t : lacks a (s ++ t) <-> lacks a s /\ lacks a t.
Proof. induction s as [| b s IH]; [rewrite append_nil; simpl; tauto |]. rewrite append_cons. simpl. rewrite IH. tauto. Qed.

Lemma Split_cons s sep : exists w ws, Split s sep = w :: ws.
Proof. destruct s as [| a s]; simpl; [eauto |]. case_decide; [eauto |]. destruct (Split s sep); eauto. Qed.

Lemma Split_lacks s sep : Forall (lacks sep) (Split s sep).
Proof.
  induction s as [| a s IH]; cbn [Split]; [by constructor |]. destruct (decide (a = sep)); [by constructor |].
  destruct (Split_cons s sep) as (w & ws & Hs). rewrite Hs in IH |- *. apply Forall_cons in IH as [Hw Hws]. by constructor.
Qed.

Lemma Split_word w sep s : lacks sep w -> Split (w ++ String sep s) sep = w :: Split s sep.
Proof.
  induction w as [| a w IH]; cbn [lacks]; [intros _; rewrite append_nil; cbn [Split]; by rewrite decide_True |].
  intros [Ha Hw]. rewrite append_cons. cbn [Split]. by rewrite decide_False, IH.
Qed.

Lemma Split_last w sep : lacks sep w -> Split w sep = [w].
Proof.
  induction w as [| a w IH]; cbn [lacks Split]; [done |]. intros [Ha Hw]. by rewrite decide_False, IH.
Qed.

(** Splitting undoes joining words that lack the separator. *)
Lemma Split_Join sep w ws : Forall (lacks sep) (w :: ws) -> Split (Join (w :: ws) (String sep EmptyString)) sep = w :: ws.
Proof.
  revert w. induction ws as [| w' ws IH]; intros w Hws; apply Forall_cons in Hws as [Hw Hws]; [by apply Split_last |].
  change (Join (w :: w' :: ws) (String sep EmptyString)) with (w ++ String sep (Join (w' :: ws) (String sep EmptyString)))%string.
  by rewrite Split_word, IH.
Qed.

(** Joining undoes splitting. *)
Lemma Join_Split s sep : Join (Split s sep) (String sep EmptyString) = s.
Proof.
  induction s as [| a s IH]; [done |]. cbn [Split]. destruct (Split_cons s sep) as (w & ws & Hs). rewrite Hs in IH |- *. destruct (decide (a = sep)) as [-> |].
  - change (Join ("" :: w :: ws) (String sep EmptyString)) with (String sep (Join (w :: ws) (String sep EmptyString))). by rewrite IH.
  - destruct ws as [| w' ws]; cbn [Join] in *; [by rewrite IH |]. by rewrite append_cons, IH.
Qed.

Lemma Join_app ws vs sep : ws <> [] -> vs <> [] -> Join (ws ++ vs) sep = (Join ws sep ++ sep ++ Join vs sep)%string.
Proof.
  intros Hw Hv. induction ws as [| w ws IH]; [done |]. destruct ws as [| w' ws].
  - destruct vs as [| v vs]; [done |]. reflexivity.
  - change (Join ((w :: w' :: ws) ++ vs) sep) with (w ++ sep ++ Join ((w' :: ws) ++ vs) sep)%string. rewrite IH by done.
    change (Join (w :: w' :: ws) sep) with (w ++ sep ++ Join (w' :: ws) sep)%string. by rewrite !string_app_assoc.
Qed.

(** ** White space
    [unicode.IsSpace], by the bytes of its UTF-8: of one, two and three. None of
    them begins with a byte that goes on a character, so that looking for them
    byte by byte finds those that decoding finds. *)
Definition byte_at (a : Ascii.ascii) : N := Ascii.N_of_ascii a.
Definition space1 (a : Ascii.ascii) : bool := let x := byte_at a in ((9 <=? x) && (x <=? 13) || (x =? 32))%N.
Definition space2 (a b : Ascii.ascii) : bool := ((byte_at a =? 194) && ((byte_at b =? 133) || (byte_at b =? 160)))%N.
Definition space3 (a b c : Ascii.ascii) : bool :=
  let x := byte_at a in let y := byte_at b in let z := byte_at c in
  ((x =? 225) && (y =? 154) && (z =? 128) || (x =? 226) && (y =? 128) && ((128 <=? z) && (z <=? 138) || (z =? 168) || (z =? 169) || (z =? 175)) ||
   (x =? 226) && (y =? 129) && (z =? 159) || (x =? 227) && (y =? 128) && (z =? 128))%N.

(** [strings.Fields] *)
Fixpoint fields_from (word : string) (s : string) : list string :=
  let flush := if decide (word = EmptyString) then [] else [word] in
  match s with
  | EmptyString => flush
  | String a s1 =>
      if space1 a then flush ++ fields_from EmptyString s1 else
      let next := fields_from (String.append word (String a EmptyString)) s1 in
      match s1 with
      | String b s2 =>
          if space2 a b then flush ++ fields_from EmptyString s2 else
          match s2 with String c s3 => if space3 a b c then flush ++ fields_from EmptyString s3 else next | EmptyString => next end
      | EmptyString => next
      end
  end.
Definition Fields (s : string) : list string := fields_from EmptyString s.
