(* ===== verification/GoNumbers.v ===== *)
(** * GoNumbers
    Decimal numbers of Go's [strconv] and [fmt], and the functions of [strings]
    that take them apart, with their round trips. *)
From S2P Require Import Prelude GoStrings.

(** ** Writing *)

Definition digit (d : Z) : Ascii.ascii := Ascii.ascii_of_nat (Z.to_nat (48 + d)).
Definition minus : Ascii.ascii := "-"%char.

(** The digits of a number in front of [acc]; twenty are enough for 64 bits. *)
Fixpoint digits (fuel : nat) (n : Z) (acc : string) : string :=
  match fuel with
  | O => acc
  | S fuel =>
      let acc := String (digit (n mod 10)) acc in
      if decide (n < 10) then acc else digits fuel (n / 10) acc
  end.

(** [%d] of an integer. *)
Definition Itoa (n : Z) : string :=
  if decide (n < 0) then String minus (digits 20 (- n) EmptyString) else digits 20 n EmptyString.

(** ** Reading *)

Inductive num_error := ErrSyntax | ErrRange.
#[export] Instance num_error_eq_dec : EqDecision num_error.
Proof. solve_decision. Defined.

Definition digit_of (c : Ascii.ascii) : option Z :=
  let d := Z.of_nat (Ascii.nat_of_ascii c) - 48 in
  if decide (0 <= d <= 9) then Some d else None.

(** The loop of [ParseUint]: an overflow ends it before the rest is looked at. *)
Fixpoint parse_uint (n : Z) (s : string) : result num_error Z :=
  match s with
  | EmptyString => Ok n
  | String c s =>
      match digit_of c with
      | None => Err ErrSyntax
      | Some d => if decide (n * 10 + d < 2 ^ 64) then parse_uint (n * 10 + d) s else Err ErrRange
      end
  end.

(** [strconv.Atoi]: the value is zero for a syntax error, and the nearest
    [int] for one out of range. *)
Definition Atoi (s : string) : Z * option num_error :=
  let '(neg, s) := match s with
    | String c rest => if decide (c = minus) then (true, rest) else if decide (c = "+"%char) then (false, rest) else (false, s)
    | EmptyString => (false, s)
    end in
  if decide (s = EmptyString) then (0, Some ErrSyntax) else
  match parse_uint 0 s with
  | Err ErrSyntax => (0, Some ErrSyntax)
  | Err ErrRange => (if neg : bool then - 2 ^ 63 else 2 ^ 63 - 1, Some ErrRange)
  | Ok n =>
      if neg : bool then (if decide (2 ^ 63 < n) then (- 2 ^ 63, Some ErrRange) else (- n, None))
      else if decide (2 ^ 63 <= n) then (2 ^ 63 - 1, Some ErrRange) else (n, None)
  end.

(** ** Taking strings apart *)

(** [strings.Cut] at one byte. *)
Fixpoint Cut (s : string) (sep : Ascii.ascii) : string * string * bool :=
  match s with
  | EmptyString => (EmptyString, EmptyString, false)
  | String a s =>
      if decide (a = sep) then (EmptyString, s, true)
      else let '(before, after, found) := Cut s sep in (String a before, after, found)
  end.

(** [strings.HasSuffix], [strings.TrimSuffix] *)
Fixpoint HasSuffix (s p : string) : bool :=
  if decide (s = p) then true else match s with EmptyString => false | String _ s => HasSuffix s p end.
Definition TrimSuffix (s p : string) : string :=
  if HasSuffix s p then String.substring 0 (String.length s - String.length p) s else s.

(** [strings.ReplaceAll] of a text by nothing; [skip] bytes of a match are still to go. *)
Fixpoint remove_all (old : string) (skip : nat) (s : string) : string :=
  match s with
  | EmptyString => EmptyString
  | String a s' =>
      match skip with
      | S skip => remove_all old skip s'
      | O => if HasPrefix s old then remove_all old (String.length old - 1) s' else String a (remove_all old 0 s')
      end
  end.

(** ** Round trips *)

Lemma digit_of_digit d : 0 <= d < 10 -> digit_of (digit d) = Some d.
Proof.
  intros Hd. assert (d = 0 \/ d = 1 \/ d = 2 \/ d = 3 \/ d = 4 \/ d = 5 \/ d = 6 \/ d = 7 \/ d = 8 \/ d = 9) as Hc by lia.
  repeat destruct Hc as [-> | Hc]; try done. by rewrite Hc.
Qed.

(** The bytes of a number. *)
Fixpoint all_digits (s : string) : Prop :=
  match s with EmptyString => True | String c s => (exists d, 0 <= d < 10 /\ c = digit d) /\ all_digits s end.

Lemma digits_all fuel n acc : 0 <= n -> all_digits acc -> all_digits (digits fuel n acc).
Proof.
  revert n acc. induction fuel as [| fuel IH]; intros n acc Hn Hacc; [done |]. cbn [digits].
  assert (all_digits (String (digit (n mod 10)) acc)).
  { split; [| done]. exists (n mod 10). split; [apply Z.mod_pos_bound; lia | done]. }
  case_decide; [done |]. apply IH; [apply Z.div_pos; lia | done].
Qed.
Lemma digits_nonempty fuel n acc : digits (S fuel) n acc <> EmptyString.
Proof.
  assert (Hne : forall fuel n acc, acc <> EmptyString -> digits fuel n acc <> EmptyString).
  { induction fuel0 as [| f IH]; intros n' acc' Hacc; [done |]. cbn [digits]. case_decide; [done | by apply IH]. }
  cbn [digits]. case_decide; [done | by apply Hne].
Qed.

Lemma parse_digits fuel n acc : 0 <= n < 10 ^ Z.of_nat (S fuel) -> n < 2 ^ 64 -> parse_uint 0 (digits (S fuel) n acc) = parse_uint n acc.
Proof.
  revert n acc. induction fuel as [| fuel IH]; intros n acc Hn Hmax.
  all: assert (Hstep : forall q, q * 10 + n mod 10 = n -> parse_uint q (String (digit (n mod 10)) acc) = parse_uint n acc)
    by (intros q Hq; cbn [parse_uint]; rewrite digit_of_digit by (apply Z.mod_pos_bound; lia); rewrite Hq; by rewrite decide_True).
  all: pose proof (Z.div_mod n 10 ltac:(lia)) as Hdm.
  - cbn [digits]. rewrite decide_True by (simpl in Hn; lia). apply Hstep. rewrite Z.mod_small by (simpl in Hn; lia). lia.
  - rewrite Nat2Z.inj_succ, Z.pow_succ_r in Hn by lia. remember (S fuel) as f1. cbn [digits]. case_decide as Hlt.
    + apply Hstep. rewrite Z.mod_small by lia. lia.
    + subst f1. rewrite IH; [apply Hstep; lia | |].
      * split; [apply Z.div_pos; lia | apply Z.div_lt_upper_bound; lia].
      * pose proof (Z.div_le_upper_bound n 10 n ltac:(lia) ltac:(lia)). lia.
Qed.

Lemma digit_not_sign d : 0 <= d < 10 -> digit d <> minus /\ digit d <> "+"%char /\ digit d <> "_"%char /\ digit d <> "."%char.
Proof.
  intros Hd. assert (d = 0 \/ d = 1 \/ d = 2 \/ d = 3 \/ d = 4 \/ d = 5 \/ d = 6 \/ d = 7 \/ d = 8 \/ d = 9) as Hc by lia.
  repeat destruct Hc as [-> | Hc]; try done. by rewrite Hc.
Qed.

Lemma Atoi_Itoa n : - 2 ^ 63 <= n < 2 ^ 63 -> Atoi (Itoa n) = (n, None).
Proof.
  intros Hn. unfold Atoi, Itoa. case_decide as Hneg.
  - rewrite decide_True by done. rewrite decide_False by apply digits_nonempty. rewrite parse_digits by (simpl; lia).
    cbn [parse_uint]. rewrite decide_False by lia. f_equal. lia.
  - pose proof (digits_nonempty 19 n EmptyString) as Hne. pose proof (digits_all 20 n EmptyString ltac:(lia) I) as Hall.
    pose proof (parse_digits 19 n EmptyString ltac:(simpl; lia) ltac:(lia)) as Hp.
    destruct (digits 20 n EmptyString) as [| c s]; [done |]. destruct Hall as [(d & Hd & ->) _].
    destruct (digit_not_sign d Hd) as (H1 & H2 & _). rewrite !decide_False by done. rewrite Hp. cbn [parse_uint]. by rewrite decide_False by lia.
Qed.

(** A written number has none of the bytes that names are cut at. *)
Lemma Itoa_lacks c n : (forall d, 0 <= d < 10 -> digit d <> c) -> c <> minus -> lacks c (Itoa n).
Proof.
  intros Hc Hm. unfold Itoa. assert (Hd : forall s, all_digits s -> lacks c s).
  { induction s as [| a s IH]; [done |]. intros [(d & Hd & ->) Hs]. split; [by apply Hc | by apply IH]. }
  case_decide.
  - split; [congruence |]. apply Hd, digits_all; [lia | exact I].
  - apply Hd, digits_all; [lia | exact I].
Qed.

Lemma HasSuffix_app s p : HasSuffix (s ++ p) p = true.
Proof. induction s as [| a s IH]; [rewrite append_nil; destruct p; cbn [HasSuffix]; by rewrite decide_True |]. rewrite append_cons. cbn [HasSuffix]. by case_decide. Qed.

Lemma string_length_app s t : String.length (s ++ t) = (String.length s + String.length t)%nat.
Proof. induction s as [| a s IH]; [done |]. rewrite append_cons. cbn [String.length]. lia. Qed.
Lemma substring_prefix s t : String.substring 0 (String.length s) (s ++ t) = s.
Proof. induction s as [| a s IH]; [rewrite append_nil; by destruct t |]. rewrite append_cons. cbn [String.length String.substring]. by rewrite IH. Qed.
Lemma TrimSuffix_app s p : TrimSuffix (s ++ p) p = s.
Proof. unfold TrimSuffix. rewrite HasSuffix_app, string_length_app, Nat.add_sub. apply substring_prefix. Qed.

(** Removing a text that begins with a byte the rest does not have. *)
Lemma remove_all_end c p s : lacks c s -> remove_all (String c p) 0 (s ++ String c p) = s.
Proof.
  intros Hl. assert (Hskip : forall n t, n = String.length t -> remove_all (String c p) n t = EmptyString).
  { intros n t. revert n. induction t as [| a t IH]; intros n ->; [done |]. cbn [remove_all String.length]. by apply IH. }
  induction s as [| a s IH].
  - rewrite append_nil. cbn [remove_all]. replace (HasPrefix (String c p) (String c p)) with true.
    + apply Hskip. cbn [String.length]. lia.
    + symmetry. apply HasPrefix_true. exists EmptyString. by rewrite string_app_nil.
  - destruct Hl as [Ha Hl]. rewrite append_cons. cbn [remove_all HasPrefix]. rewrite decide_False by done. by rewrite IH.
Qed.
