(* ===== verification/RaftTypes.v ===== *)
(** * RaftTypes
    The data of the Raft core ([apps/raft_demo/raft/model.go], [progress.go],
    [util.go], [read.go], [ready.go]): entries, messages, hard and soft state,
    replication progress of a peer, and the helpers on them.

    A record's field [f] of a Go struct [S] is the projection [sF]: the Go
    field names repeat between structs. A Go composite literal is an update of
    the struct's zero value ([zero_message], [zero_entry], ...). *)
From S2P Require Import Prelude.

(** ** Constants and enumerations *)

(** [None]: no node. *)
Definition NoneID : Z := 0.
Definition noLimit : Z := max_u64.

Inductive EntryType := EntryNormal | EntryConfChange.

Inductive MessageType :=
| MsgHup | MsgBeat | MsgProp | MsgApp | MsgAppResp | MsgVote | MsgVoteResp
| MsgHeartbeat | MsgHeartbeatResp | MsgReadIndex | MsgReadIndexResp
| MsgPreVote | MsgPreVoteResp.

Inductive StateType := StateFollower | StateCandidate | StateLeader | StatePreCandidate.

Inductive CampaignType := campaignPreElection | campaignElection.

Inductive ConfChangeType := ConfChangeAddNode | ConfChangeRemoveNode | ConfChangeUpdateNode.

Inductive ProgressStateType := ProgressStateProbe | ProgressStateReplicate.

#[export] Instance EntryType_eq_dec : EqDecision EntryType.
Proof. solve_decision. Defined.
#[export] Instance MessageType_eq_dec : EqDecision MessageType.
Proof. solve_decision. Defined.
#[export] Instance StateType_eq_dec : EqDecision StateType.
Proof. solve_decision. Defined.
#[export] Instance CampaignType_eq_dec : EqDecision CampaignType.
Proof. solve_decision. Defined.
#[export] Instance ProgressStateType_eq_dec : EqDecision ProgressStateType.
Proof. solve_decision. Defined.

(** ** Structs *)

Record Entry := mkEntry {
  eTerm : Z;
  eIndex : Z;
  eType : EntryType;
  eData : bytes;
}.
#[export] Instance Entry_eta : Eta Entry :=
  fun e => mkEntry (eTerm e) (eIndex e) (eType e) (eData e).
#[export] Instance Entry_eq_dec : EqDecision Entry.
Proof. solve_decision. Defined.
Definition zero_entry : Entry := mkEntry 0 0 EntryNormal [].

Record Message := mkMessage {
  mType : MessageType;
  mTo : Z;
  mFrom : Z;
  mTerm : Z;
  mLogTerm : Z;
  mLogIndex : Z;
  mEntries : list Entry;
  mCommitIndex : Z;
  mReject : bool;
  mRejectHint : Z;
  mContext : bytes;
}.
#[export] Instance Message_eta : Eta Message := fun m =>
  mkMessage (mType m) (mTo m) (mFrom m) (mTerm m) (mLogTerm m) (mLogIndex m)
    (mEntries m) (mCommitIndex m) (mReject m) (mRejectHint m) (mContext m).
#[export] Instance Message_eq_dec : EqDecision Message.
Proof. solve_decision. Defined.
Definition zero_message : Message := mkMessage MsgHup 0 0 0 0 0 [] 0 false 0 [].
(** [Message{Type: t, ...}] *)
Definition message (t : MessageType) : Message := zero_message <| mType := t |>.

Record SoftState := mkSoftState {
  ssLead : Z;
  ssRaftState : StateType;
}.

Definition SoftState_equal (s pre : SoftState) : bool :=
  bool_decide (ssLead s = ssLead pre) && bool_decide (ssRaftState s = ssRaftState pre).

Record HardState := mkHardState {
  hsTerm : Z;
  hsVote : Z;
  hsCommitIndex : Z;
}.

Definition emptyHardState : HardState := mkHardState 0 0 0.

Definition isHardStateEqual (a b : HardState) : bool :=
  bool_decide (hsTerm a = hsTerm b) && bool_decide (hsVote a = hsVote b)
    && bool_decide (hsCommitIndex a = hsCommitIndex b).

Definition IsEmptyHardState (h : HardState) : bool := isHardStateEqual h emptyHardState.

Record ConfState := mkConfState { csNodes : list Z }.

Record ConfChange := mkConfChange {
  ccID : Z;
  ccType : ConfChangeType;
  ccNodeID : Z;
  ccContext : bytes;
}.

Record Peer := mkPeer { peerID : Z; peerContext : bytes }.

(** ** util.go *)

Fixpoint numOfPendingConf (entries : list Entry) : Z :=
  match entries with
  | [] => 0
  | ent :: rest =>
      if decide (eType ent = EntryConfChange) then 1 + numOfPendingConf rest
      else numOfPendingConf rest
  end.

(** ** progress.go *)

Record Progress := mkProgress {
  pMatch : Z;
  pNext : Z;
  pState : ProgressStateType;
}.
#[export] Instance Progress_eta : Eta Progress :=
  fun p => mkProgress (pMatch p) (pNext p) (pState p).
#[export] Instance Progress_eq_dec : EqDecision Progress.
Proof. solve_decision. Defined.
Definition zero_progress : Progress := mkProgress 0 0 ProgressStateProbe.

Definition maybeUpdate (pr : Progress) (n : Z) : bool * Progress :=
  let updated := bool_decide (pMatch pr < n) in
  let pr := if updated then pr <| pMatch := n |> else pr in
  let pr := if bool_decide (pNext pr < u64 (n + 1)) then pr <| pNext := u64 (n + 1) |> else pr in
  (updated, pr).

Definition mayDecreaseTo (pr : Progress) (logIndex rejectHint : Z) : bool * Progress :=
  if bool_decide (u64 (pNext pr - 1) <> logIndex) then (false, pr)
  else
    let pr := pr <| pNext := Z.min logIndex (u64 (rejectHint + 1)) |> in
    (true, if bool_decide (pNext pr < 1) then pr <| pNext := 1 |> else pr).

(** A peer's progress is consistent when everything known to be replicated
    lies below the next index to send. *)
Definition progress_ok (pr : Progress) : Prop :=
  0 <= pMatch pr /\ pMatch pr < pNext pr /\ pNext pr < 2 ^ 64.

Lemma maybeUpdate_ok pr n updated pr' :
  progress_ok pr -> 0 <= n < max_u64 -> maybeUpdate pr n = (updated, pr') ->
  progress_ok pr' /\ pMatch pr' = Z.max (pMatch pr) n /\ pNext pr' = Z.max (pNext pr) (n + 1)
  /\ (updated = true <-> pMatch pr < n).
Proof.
  unfold progress_ok, maybeUpdate, max_u64. intros Hok Hn.
  rewrite u64_id by (unfold is_u64; lia).
  destruct (bool_decide_reflect (pMatch pr < n)); simpl;
    (case_bool_decide; simpl; intros [= <- <-]; simpl; split_and!; intros; try lia; done).
Qed.

Lemma mayDecreaseTo_ok pr logIndex rejectHint pr' :
  0 < pNext pr < 2 ^ 64 -> 0 <= rejectHint < max_u64 ->
  mayDecreaseTo pr logIndex rejectHint = (true, pr') ->
  logIndex = pNext pr - 1 /\ 1 <= pNext pr' <= Z.max 1 (pNext pr - 1)
  /\ pNext pr' = Z.max 1 (Z.min logIndex (rejectHint + 1)) /\ pMatch pr' = pMatch pr.
Proof.
  unfold mayDecreaseTo, max_u64. intros Hn Hr.
  rewrite !u64_id by (unfold is_u64; lia).
  case_bool_decide; [discriminate |].
  case_bool_decide; simpl in *; intros [= <-]; simpl in *; lia.
Qed.

(** ** read.go: the data *)

Record ReadState := mkReadState { rsIndex : Z; rsRequestCtx : bytes }.

Record readIndexStatus := mkReadIndexStatus {
  risReq : Message;
  risIndex : Z;
  risAcks : gset Z;
}.
#[export] Instance readIndexStatus_eta : Eta readIndexStatus :=
  fun s => mkReadIndexStatus (risReq s) (risIndex s) (risAcks s).

Record readOnly := mkReadOnly {
  pendingReadIndex : gmap bytes readIndexStatus;
  readIndexQueue : list bytes;
}.
#[export] Instance readOnly_eta : Eta readOnly :=
  fun r => mkReadOnly (pendingReadIndex r) (readIndexQueue r).

(** ** ready.go: the data *)

Record Ready := mkReady {
  rdSoftState : option SoftState;
  rdHardState : HardState;
  rdReadStates : list ReadState;
  rdEntries : list Entry;
  rdCommittedEntries : list Entry;
  rdMessage : list Message;
}.
#[export] Instance Ready_eta : Eta Ready := fun r =>
  mkReady (rdSoftState r) (rdHardState r) (rdReadStates r) (rdEntries r)
    (rdCommittedEntries r) (rdMessage r).
