(* ===== verification/RaftStorage.v ===== *)
(** * RaftStorage
    [apps/raft_demo/raft/storage.go]: the [Storage] interface as a typeclass,
    the promises the Raft log relies on as a second class, and
    [MemoryStorage] as the instance that keeps them. Every method takes the
    storage's mutex for its whole body, so a call is one atomic step. *)
From S2P Require Import Prelude RaftTypes.

Inductive error :=
| ErrCompacted
| ErrUnavailable
| ErrOther (msg : string).
#[export] Instance error_eq_dec : EqDecision error.
Proof. solve_decision. Defined.

(** ** The interface *)

Class Storage (S : Type) := {
  st_InitialState : S -> outcome (result error (HardState * ConfState));
  st_Entries : S -> Z -> Z -> outcome (result error (list Entry));
  st_Term : S -> Z -> outcome (result error Z);
  st_LastIndex : S -> outcome (result error Z);
  st_FirstIndex : S -> outcome (result error Z);
  st_Append : S -> list Entry -> outcome (S * option error);
  st_SetHardState : S -> HardState -> outcome (S * option error);
}.

(** ** Runs of entries *)

(** The entries of [es] carry the indices [i], [i+1], ... *)
Definition contiguous (i : Z) (es : list Entry) : Prop :=
  forall k e, es !! k = Some e -> eIndex e = i + Z.of_nat k.

Lemma contiguous_nil i : contiguous i [].
Proof. intros k e. by rewrite lookup_nil. Qed.

Lemma contiguous_app i es1 es2 :
  contiguous i (es1 ++ es2) <-> contiguous i es1 /\ contiguous (i + zlen es1) es2.
Proof.
  unfold contiguous, zlen. split.
  - intros H. split; intros k e Hk.
    + apply H, lookup_app_l_Some, Hk.
    + rewrite (H (length es1 + k)%nat e); [lia |].
      by rewrite lookup_app_r, Nat.add_comm, Nat.add_sub by lia.
  - intros [H1 H2] k e [Hk | [Hlt Hk]]%lookup_app_Some; [by apply H1 |].
    apply H2 in Hk. lia.
Qed.

Lemma contiguous_take i n es : contiguous i es -> contiguous i (take n es).
Proof. intros H k e Hk. apply lookup_take_Some in Hk as [Hk _]. by apply H. Qed.

Lemma contiguous_drop i n es : contiguous i es -> contiguous (i + Z.of_nat n) (drop n es).
Proof. intros H k e Hk. rewrite lookup_drop in Hk. apply H in Hk. lia. Qed.

Lemma contiguous_cons i e es :
  contiguous i (e :: es) <-> eIndex e = i /\ contiguous (i + 1) es.
Proof.
  split.
  - intros H. split; [rewrite (H 0%nat e); [lia | done] |].
    intros k x Hk. rewrite (H (S k) x); [lia | done].
  - intros [He H] [| k] x; simpl; [intros [= <-]; lia |]. intros Hk%H. lia.
Qed.

#[export] Hint Resolve contiguous_nil contiguous_take : go.

(** Log indices stay where a slice offset fits a Go [int]. *)
Definition max_index : Z := 2 ^ 63 - 1.

(** ** What a storage promises *)

(** The storage holds a compaction point ([st_base], the index and term of the
    last entry that is gone) and the run of entries after it. *)
Class StorageSpec (S : Type) `{Storage S} := {
  st_ok : S -> Prop;
  st_base : S -> Z;
  st_base_term : S -> Z;
  st_log : S -> list Entry;

  st_log_contiguous s : st_ok s -> contiguous (st_base s + 1) (st_log s);
  st_bounds s : st_ok s -> 0 <= st_base s /\ st_base s + zlen (st_log s) < max_index;
  st_FirstIndex_spec s : st_ok s -> st_FirstIndex s = Ret (Ok (st_base s + 1));
  st_LastIndex_spec s : st_ok s -> st_LastIndex s = Ret (Ok (st_base s + zlen (st_log s)));
  st_Term_base s : st_ok s -> st_Term s (st_base s) = Ret (Ok (st_base_term s));
  st_Term_spec s i e : st_ok s -> st_base s < i ->
    st_log s !! Z.to_nat (i - st_base s - 1) = Some e -> st_Term s i = Ret (Ok (eTerm e));
  st_Term_compacted s i : st_ok s -> 0 <= i < st_base s -> st_Term s i = Ret (Err ErrCompacted);
  st_Entries_spec s l r : st_ok s ->
    st_base s < l -> l < r -> r <= st_base s + zlen (st_log s) + 1 ->
    st_Entries s l r =
      Ret (Ok (take (Z.to_nat (r - l)) (drop (Z.to_nat (l - st_base s - 1)) (st_log s))));
  st_Append_spec s es i : st_ok s -> es <> [] -> contiguous i es ->
    st_base s < i <= st_base s + zlen (st_log s) + 1 -> i + zlen es <= max_index ->
    exists s', st_Append s es = Ret (s', None) /\ st_ok s'
      /\ st_base s' = st_base s /\ st_base_term s' = st_base_term s
      /\ st_log s' = take (Z.to_nat (i - st_base s - 1)) (st_log s) ++ es;
  st_SetHardState_spec s hs : st_ok s ->
    exists s', st_SetHardState s hs = Ret (s', None) /\ st_ok s'
      /\ st_base s' = st_base s /\ st_base_term s' = st_base_term s /\ st_log s' = st_log s;
}.

(** ** MemoryStorage *)

Record MemoryStorage := mkMemoryStorage {
  msHardState : HardState;
  msEntries : list Entry;
}.
#[export] Instance MemoryStorage_eta : Eta MemoryStorage :=
  fun m => mkMemoryStorage (msHardState m) (msEntries m).

Module Mem.

Definition NewMemoryStorage : MemoryStorage := mkMemoryStorage emptyHardState [zero_entry].

Definition InitialState (m : MemoryStorage) : outcome (result error (HardState * ConfState)) :=
  Ret (Ok (msHardState m, mkConfState [])).

Definition lastIndex (m : MemoryStorage) : outcome Z :=
  let! e := index (msEntries m) 0 in
  Ret (u64 (u64 (eIndex e + zlen (msEntries m)) - 1)).

Definition firstIndex (m : MemoryStorage) : outcome Z :=
  let! e := index (msEntries m) 0 in
  Ret (u64 (eIndex e + 1)).

Definition LastIndex (m : MemoryStorage) : outcome (result error Z) :=
  let! i := lastIndex m in Ret (Ok i).

Definition FirstIndex (m : MemoryStorage) : outcome (result error Z) :=
  let! i := firstIndex m in Ret (Ok i).

Definition Entries (m : MemoryStorage) (l r : Z) : outcome (result error (list Entry)) :=
  let! e := index (msEntries m) 0 in
  let offset := eIndex e in
  if decide (l <= offset) then Ret (Err ErrCompacted)
  else
    let! last := lastIndex m in
    if decide (u64 (last + 1) < r) then Ret (Err ErrUnavailable)
    else if decide (zlen (msEntries m) = 1) then Ret (Err ErrUnavailable)
    else
      let! es := subslice (msEntries m) (u64 (l - offset)) (u64 (r - offset)) in
      Ret (Ok es).

Definition Term (m : MemoryStorage) (i : Z) : outcome (result error Z) :=
  let! e := index (msEntries m) 0 in
  let offset := eIndex e in
  if decide (i < offset) then Ret (Err ErrCompacted)
  else if decide (zlen (msEntries m) <= i64 (u64 (i - offset))) then Ret (Err ErrUnavailable)
  else
    let! e := index (msEntries m) (u64 (i - offset)) in
    Ret (Ok (eTerm e)).

Definition Append (m : MemoryStorage) (entries : list Entry) : outcome (MemoryStorage * option error) :=
  match entries with
  | [] => Ret (m, None)
  | e :: _ =>
      let first := eIndex e in
      let! d := index (msEntries m) 0 in
      let offset := eIndex d in
      if decide (first < offset) then Ret (m, None)
      else
        let! last := lastIndex m in
        if decide (u64 (last + 1) < first) then Ret (m, Some ErrUnavailable)
        else
          let! kept := subslice (msEntries m) 0 (u64 (first - offset)) in
          Ret (m <| msEntries := kept ++ entries |>, None)
  end.

Definition SetHardState (m : MemoryStorage) (hs : HardState) : outcome (MemoryStorage * option error) :=
  Ret (m <| msHardState := hs |>, None).

End Mem.

#[export] Instance MemoryStorage_Storage : Storage MemoryStorage := {|
  st_InitialState := Mem.InitialState;
  st_Entries := Mem.Entries;
  st_Term := Mem.Term;
  st_LastIndex := Mem.LastIndex;
  st_FirstIndex := Mem.FirstIndex;
  st_Append := Mem.Append;
  st_SetHardState := Mem.SetHardState;
|}.

(** The stored run is a dummy entry at the compaction point, then the log. *)
Definition mem_ok (m : MemoryStorage) : Prop :=
  exists d es, msEntries m = d :: es /\ contiguous (eIndex d + 1) es
    /\ 0 <= eIndex d /\ eIndex d + zlen es < max_index.

Section mem_facts.
Context (m : MemoryStorage) (d : Entry) (es : list Entry).
Hypothesis Hm : msEntries m = d :: es.
Hypothesis Hd : 0 <= eIndex d.
Hypothesis Hlen : eIndex d + zlen es < max_index.

Lemma mem_index0 : index (msEntries m) 0 = Ret d.
Proof. rewrite Hm. apply index_ret. done. Qed.

Lemma mem_lastIndex : Mem.lastIndex m = Ret (eIndex d + zlen es).
Proof.
  unfold Mem.lastIndex. rewrite mem_index0, Hm. simpl. pose proof (zlen_nonneg es).
  unfold max_index in *. rewrite zlen_cons, !u64_id; unfold is_u64; first f_equal; try lia.
  rewrite u64_id; unfold is_u64; lia.
Qed.

Lemma mem_FirstIndex : Mem.FirstIndex m = Ret (Ok (eIndex d + 1)).
Proof.
  unfold Mem.FirstIndex, Mem.firstIndex. rewrite mem_index0. simpl. pose proof (zlen_nonneg es).
  unfold max_index in *. rewrite u64_id; [done | unfold is_u64; lia].
Qed.

Lemma mem_Term i :
  eIndex d <= i <= eIndex d + zlen es ->
  Mem.Term m i = let! e := index (d :: es) (i - eIndex d) in Ret (Ok (eTerm e)).
Proof.
  intros Hi. unfold Mem.Term. rewrite mem_index0. simpl. unfold max_index in *.
  rewrite decide_False, u64_id, i64_id by (unfold is_u64; lia).
  rewrite Hm, zlen_cons, decide_False by lia. done.
Qed.

Lemma mem_Entries l r :
  eIndex d < l -> l < r -> r <= eIndex d + zlen es + 1 ->
  Mem.Entries m l r = Ret (Ok (take (Z.to_nat (r - l)) (drop (Z.to_nat (l - eIndex d - 1)) es))).
Proof.
  intros Hl Hr Hlast. unfold Mem.Entries. rewrite mem_index0. simpl. unfold max_index in *.
  rewrite decide_False by lia. rewrite mem_lastIndex. simpl.
  rewrite !u64_id by (unfold is_u64; lia).
  rewrite decide_False by lia. rewrite Hm, zlen_cons, decide_False by lia.
  rewrite subslice_total by (rewrite ?zlen_cons; lia). simpl.
  replace (Z.to_nat (l - eIndex d)) with (S (Z.to_nat (l - eIndex d - 1))) by lia.
  simpl. do 4 f_equal. lia.
Qed.

Lemma mem_Append es' i :
  es' <> [] -> contiguous i es' -> eIndex d < i <= eIndex d + zlen es + 1 ->
  Mem.Append m es' =
    Ret (m <| msEntries := d :: take (Z.to_nat (i - eIndex d - 1)) es ++ es' |>, None).
Proof.
  intros Hne Hc Hi. unfold Mem.Append. destruct es' as [| e es']; [done |].
  apply contiguous_cons in Hc as [He _]. rewrite He, mem_index0. simpl. unfold max_index in *.
  rewrite decide_False by lia. rewrite mem_lastIndex. simpl.
  rewrite !u64_id by (unfold is_u64; lia). rewrite decide_False by lia.
  rewrite Hm, subslice_total by (rewrite ?zlen_cons; lia). simpl.
  replace (Z.to_nat (i - eIndex d - 0)) with (S (Z.to_nat (i - eIndex d - 1))) by lia.
  done.
Qed.
End mem_facts.

(** ** The refinement: [MemoryStorage] keeps the promises *)

Definition mem_dummy (m : MemoryStorage) : Entry :=
  match msEntries m with d :: _ => d | [] => zero_entry end.

Lemma mem_ok_inv m :
  mem_ok m -> msEntries m = mem_dummy m :: tail (msEntries m)
  /\ contiguous (eIndex (mem_dummy m) + 1) (tail (msEntries m))
  /\ 0 <= eIndex (mem_dummy m) /\ eIndex (mem_dummy m) + zlen (tail (msEntries m)) < max_index.
Proof. unfold mem_dummy. intros (d & es & Hm & ? & ? & ?). rewrite Hm. done. Qed.

Ltac open_mem H := apply mem_ok_inv in H as (?Hes & ?Hc & ?Hd & ?Hb).

#[export] Instance MemoryStorage_spec : StorageSpec MemoryStorage.
Proof.
  refine {| st_ok := mem_ok;
            st_base := fun m => eIndex (mem_dummy m);
            st_base_term := fun m => eTerm (mem_dummy m);
            st_log := fun m => tail (msEntries m) |}; cbn.
  - intros m H. by open_mem H.
  - intros m H. by open_mem H.
  - intros m H. open_mem H. eauto using mem_FirstIndex.
  - intros m H. open_mem H. unfold Mem.LastIndex. by erewrite mem_lastIndex by eauto.
  - intros m H. open_mem H. pose proof (zlen_nonneg (tail (msEntries m))).
    erewrite mem_Term by eauto with lia. by rewrite Z.sub_diag.
  - intros m i e H Hi He. open_mem H. apply lookup_lt_Some in He as Hlt. fold (zlen (tail (msEntries m))) in Hlt.
    erewrite mem_Term by (eauto; unfold zlen in *; lia).
    unfold index. rewrite decide_True by lia.
    replace (Z.to_nat (i - eIndex (mem_dummy m))) with (S (Z.to_nat (i - eIndex (mem_dummy m) - 1))) by lia.
    simpl. by rewrite He.
  - intros m i H Hi. open_mem H. unfold Mem.Term. rewrite (mem_index0 _ _ _ Hes). simpl.
    by rewrite decide_True by lia.
  - intros m l r H ???. open_mem H. eauto using mem_Entries.
  - intros m es i H Hne Hi Hr Hlen. open_mem H.
    eexists. split; [eapply mem_Append; eauto |]. cbn. split; [| done].
    exists (mem_dummy m). eexists. split; [done |].
    rewrite contiguous_app, zlen_app, zlen_take.
    split_and!; eauto with go; [| lia].
    enough (Heq : eIndex (mem_dummy m) + 1
      + Z.min (Z.of_nat (Z.to_nat (i - eIndex (mem_dummy m) - 1))) (zlen (tail (msEntries m))) = i)
      by (rewrite Heq; exact Hi).
    lia.
  - intros m hs H. eexists. split; [done |]. done.
Defined.

Lemma NewMemoryStorage_ok : st_ok Mem.NewMemoryStorage.
Proof. exists zero_entry, []. split_and!; [done | apply contiguous_nil | done | done]. Qed.

(** What [Append] wrote is what [Entries] reads back, everything below the
    appended run reads as before, and everything above it is gone. *)
Theorem memory_append_read m es i :
  mem_ok m -> es <> [] -> contiguous i es ->
  let base := eIndex (mem_dummy m) in
  base < i <= base + zlen (tail (msEntries m)) + 1 -> i + zlen es <= max_index ->
  exists m', Mem.Append m es = Ret (m', None) /\ mem_ok m'
    /\ Mem.Entries m' i (i + zlen es) = Ret (Ok es)
    /\ (forall l r, base < l < r -> r <= i -> Mem.Entries m' l r = Mem.Entries m l r)
    /\ Mem.LastIndex m' = Ret (Ok (i + zlen es - 1)) /\ Mem.FirstIndex m' = Mem.FirstIndex m.
Proof.
  intros Hok Hne Hc base Hi Hlen. pose proof (zlen_nonneg es).
  assert (Hz : 0 < zlen es) by (destruct es; [done | rewrite zlen_cons; pose proof (zlen_nonneg es); lia]).
  destruct (st_Append_spec m es i) as (m' & Ha & Hok' & Hb & _ & Hlog); try done.
  simpl in Ha, Hok', Hb, Hlog.
  assert (Hlt : zlen (tail (msEntries m')) = i - base - 1 + zlen es).
  { rewrite Hlog, zlen_app, zlen_take. lia. }
  exists m'. change Mem.Entries with (st_Entries (S := MemoryStorage)).
  split_and!; [done | done | | | |].
  - rewrite (st_Entries_spec m') by (simpl; first [done | lia]). simpl. do 2 f_equal. rewrite Hb, Hlog.
    fold base. rewrite drop_app_length', take_ge; unfold zlen in *; rewrite ?length_take; done || lia.
  - intros l r Hl Hr. rewrite (st_Entries_spec m), (st_Entries_spec m') by (simpl; first [done | lia]).
    simpl. rewrite Hb, Hlog. fold base. do 2 f_equal.
    rewrite skipn_app, take_app_le, skipn_firstn_comm, take_take; [f_equal; lia |].
    rewrite length_skipn, length_take. unfold zlen in *. lia.
  - change (st_LastIndex m' = Ret (Ok (i + zlen es - 1))). rewrite st_LastIndex_spec by done. simpl.
    do 2 f_equal. rewrite Hlt, Hb. fold base. lia.
  - change (st_FirstIndex m' = st_FirstIndex m). rewrite !st_FirstIndex_spec by done. simpl. by rewrite Hb.
Qed.

Lemma memory_append_read_witness :
  exists m', Mem.Append Mem.NewMemoryStorage [mkEntry 1 1 EntryNormal [7]] = Ret (m', None)
    /\ Mem.Entries m' 1 2 = Ret (Ok [mkEntry 1 1 EntryNormal [7]]).
Proof.
  destruct (memory_append_read Mem.NewMemoryStorage [mkEntry 1 1 EntryNormal [7]] 1)
    as (m' & Ha & _ & He & _).
  - exact NewMemoryStorage_ok.
  - done.
  - apply contiguous_cons. split; [done | apply contiguous_nil].
  - change (0 < 1 <= 0 + 0 + 1). lia.
  - change (1 + 1 <= 2 ^ 63 - 1). lia.
  - exists m'. split; [exact Ha | exact He].
Defined.
