(* ===== verification/RaftLog.v ===== *)
(** * RaftLog
    [apps/raft_demo/raft/log.go]: the Raft log, a stable part behind the
    [Storage] interface and an unstable tail, with the log it stands for
    ([view]) and the facts that every operation is the one on that log. *)
From S2P Require Import Prelude RaftTypes RaftStorage.

(** ** The unstable tail *)

Record unstable := mkUnstable {
  uEntries : list Entry;
  uOffset : Z;
}.
#[export] Instance unstable_eta : Eta unstable := fun u => mkUnstable (uEntries u) (uOffset u).

Definition unstable_end (u : unstable) : Z := u64 (uOffset u + zlen (uEntries u)).

Definition unstable_mustCheckOutOfBounds (u : unstable) (l r : Z) : outcome unit :=
  if decide (r < l) then Panic "invalid unstable slice"
  else if decide (l < uOffset u \/ unstable_end u < r) then Panic "invalid unstable slice"
  else Ret tt.

Definition unstable_slice (u : unstable) (l r : Z) : outcome (list Entry) :=
  let! _ := unstable_mustCheckOutOfBounds u l r in
  subslice (uEntries u) (u64 (l - uOffset u)) (u64 (r - uOffset u)).

Definition truncateAndAppend (u : unstable) (entries : list Entry) : outcome unstable :=
  let! e := index entries 0 in
  let after := eIndex e in
  if decide (after = unstable_end u) then
    Ret (u <| uEntries := uEntries u ++ entries |>)
  else if decide (after <= uOffset u) then
    Ret (mkUnstable entries after)
  else
    let! kept := unstable_slice u (uOffset u) after in
    Ret (u <| uEntries := kept ++ entries |>).

Definition maybeLastIndex (u : unstable) : option Z :=
  if decide (zlen (uEntries u) <> 0) then
    Some (u64 (u64 (uOffset u + zlen (uEntries u)) - 1))
  else None.

Definition maybeTerm (u : unstable) (i : Z) : outcome (option Z) :=
  if decide (i < uOffset u) then Ret None
  else
    match maybeLastIndex u with
    | None => Ret None
    | Some last =>
        if decide (last < i) then Ret None
        else
          let! e := index (uEntries u) (u64 (i - uOffset u)) in
          Ret (Some (eTerm e))
    end.

Definition unstable_stableTo (u : unstable) (i t : Z) : outcome unstable :=
  let! gt := maybeTerm u i in
  match gt with
  | None => Ret u
  | Some gt =>
      if decide (t = gt /\ uOffset u <= i) then
        let! rest := subslice (uEntries u) (u64 (u64 (i - uOffset u) + 1)) (zlen (uEntries u)) in
        Ret (mkUnstable rest (u64 (i + 1)))
      else Ret u
  end.

(** ** The log *)

Record raftLog (S : Type) := mkRaftLog {
  lStorage : S;
  lUnstable : unstable;
  commitIndex : Z;
  applyIndex : Z;
}.
Arguments mkRaftLog {S}.
Arguments lStorage {S}.
Arguments lUnstable {S}.
Arguments commitIndex {S}.
Arguments applyIndex {S}.
#[export] Instance raftLog_eta {S} : Eta (raftLog S) :=
  fun r => mkRaftLog (lStorage r) (lUnstable r) (commitIndex r) (applyIndex r).

(** [panic(err)] on an error result. *)
Definition error_string (e : error) : string :=
  match e with
  | ErrCompacted => "requested index is unavailable due to compaction"
  | ErrUnavailable => "request entry at index is unavailable"
  | ErrOther msg => msg
  end.

Definition must {A} (m : outcome (result error A)) : outcome A :=
  let! r := m in
  match r with
  | Ok a => Ret a
  | Err e => Panic (error_string e)
  end.

Section Log.
  Context {S : Type} `{Storage S}.
  Implicit Types r : raftLog S.

Definition newRaftLog (storage : option S) : outcome (raftLog S) :=
  match storage with
  | None => Panic "storage must not be nil"
  | Some st =>
      let! firstIndex := must (st_FirstIndex st) in
      let! lastIndex := must (st_LastIndex st) in
      Ret (mkRaftLog st (mkUnstable [] (u64 (lastIndex + 1)))
             (u64 (firstIndex - 1)) (u64 (firstIndex - 1)))
  end.

Definition stableTo r (i t : Z) : outcome (raftLog S) :=
  let! u := unstable_stableTo (lUnstable r) i t in
  Ret (r <| lUnstable := u |>).

Definition unstableEntries r : list Entry := uEntries (lUnstable r).

Definition firstIndex r : outcome Z := must (st_FirstIndex (lStorage r)).

Definition lastIndex r : outcome Z :=
  match maybeLastIndex (lUnstable r) with
  | Some i => Ret i
  | None => must (st_LastIndex (lStorage r))
  end.

(** Returns a nil error whenever it returns. *)
Definition mustCheckOutOfBounds r (lo hi : Z) : outcome unit :=
  if decide (hi < lo) then Panic "invalid raft log index"
  else
    let! fi := firstIndex r in
    if decide (lo < fi) then Panic "invalid raft log index"
    else
      let! last := lastIndex r in
      if decide (u64 (last + 1) < hi) then Panic "invalid raft log index"
      else Ret tt.

(** Returns a nil error whenever it returns. *)
Definition slice r (lo hi : Z) : outcome (list Entry) :=
  let! _ := mustCheckOutOfBounds r lo hi in
  if decide (lo = hi) then Ret []
  else
    let! stable :=
      (if decide (lo < uOffset (lUnstable r)) then
         must (st_Entries (lStorage r) lo (Z.min (uOffset (lUnstable r)) hi))
       else Ret []) in
    let! tail :=
      (if decide (uOffset (lUnstable r) < hi) then
         unstable_slice (lUnstable r) (Z.max lo (uOffset (lUnstable r))) hi
       else Ret []) in
    Ret (stable ++ tail).

Definition nextEntries r : outcome (list Entry) :=
  let! fi := firstIndex r in
  let off := Z.max (u64 (applyIndex r + 1)) fi in
  if decide (off < u64 (commitIndex r + 1)) then slice r off (u64 (commitIndex r + 1))
  else Ret [].

Definition log_append r (entries : list Entry) : outcome (raftLog S * Z) :=
  if decide (zlen entries = 0) then let! i := lastIndex r in Ret (r, i)
  else
    let! e := index entries 0 in
    let after := u64 (eIndex e - 1) in
    if decide (after < commitIndex r) then Panic "entry index less then commit index"
    else
      let! u := truncateAndAppend (lUnstable r) entries in
      let r := r <| lUnstable := u |> in
      let! i := lastIndex r in
      Ret (r, i).

Definition log_term r (i : Z) : outcome (result error Z) :=
  let! fi := firstIndex r in
  let! last := lastIndex r in
  let dummyIndex := u64 (fi - 1) in
  if decide (i < dummyIndex \/ last < i) then Ret (Ok 0)
  else
    let! mt := maybeTerm (lUnstable r) i in
    let from_storage :=
      let! t := st_Term (lStorage r) i in
      match t with
      | Ok t => Ret (Ok t)
      | Err ErrCompacted => Ret (Err ErrCompacted)
      | Err ErrUnavailable => Ret (Err ErrUnavailable)
      | Err e => Panic (error_string e)
      end in
    match mt with
    | Some t => if decide (t <> 0) then Ret (Ok t) else from_storage
    | None => from_storage
    end.

Definition lastTerm r : outcome Z :=
  let! i := lastIndex r in must (log_term r i).

Definition isUpToDate r (idx term : Z) : outcome bool :=
  let! lt := lastTerm r in
  if decide (lt < term) then Ret true
  else if decide (term = lt) then let! i := lastIndex r in Ret (bool_decide (i <= idx))
  else Ret false.

Definition appliedTo r (i : Z) : outcome (raftLog S) :=
  if decide (i = 0) then Ret r
  else if decide (commitIndex r < i \/ i < applyIndex r) then Panic "invalid apply index"
  else Ret (r <| applyIndex := i |>).

(** Returns a nil error whenever it returns. *)
Definition entries r (i : Z) : outcome (list Entry) :=
  let! last := lastIndex r in
  if decide (last < i) then Ret [] else slice r i (u64 (last + 1)).

Definition commitTo r (toCommit : Z) : outcome (raftLog S) :=
  if decide (toCommit <= commitIndex r) then Ret r
  else
    let! last := lastIndex r in
    if decide (last < toCommit) then Panic "commit index over last index"
    else Ret (r <| commitIndex := toCommit |>).

Definition zeroTermOnErrCompacted (t : result error Z) : outcome Z :=
  match t with
  | Ok t => Ret t
  | Err ErrCompacted => Ret 0
  | Err e => Panic (error_string e)
  end.

Definition log_maybeCommit r (maxIndex term : Z) : outcome (raftLog S * bool) :=
  if decide (commitIndex r < maxIndex) then
    let! t := log_term r maxIndex in
    let! t := zeroTermOnErrCompacted t in
    if decide (t = term) then let! r := commitTo r maxIndex in Ret (r, true)
    else Ret (r, false)
  else Ret (r, false).

Definition matchTerm r (logIndex logTerm : Z) : outcome bool :=
  let! t := log_term r logIndex in
  match t with
  | Ok t => Ret (bool_decide (t = logTerm))
  | Err _ => Ret false
  end.

Fixpoint findConflict r (es : list Entry) : outcome Z :=
  match es with
  | [] => Ret 0
  | ent :: rest =>
      let! b := matchTerm r (eIndex ent) (eTerm ent) in
      if b : bool then findConflict r rest else Ret (eIndex ent)
  end.

Definition maybeAppend r (logIndex logTerm leaderCommit : Z) (es : list Entry)
    : outcome (raftLog S * option Z) :=
  let! b := matchTerm r logIndex logTerm in
  if negb b then Ret (r, None)
  else
    let lastNewI := u64 (logIndex + zlen es) in
    let! conflictStart := findConflict r es in
    let! r :=
      (if decide (conflictStart = 0) then Ret r
       else if decide (conflictStart <= commitIndex r) then Panic "conflict before commit index"
       else
         let offset := u64 (logIndex + 1) in
         let! rest := subslice es (u64 (conflictStart - offset)) (zlen es) in
         let! p := log_append r rest in
         Ret p.1) in
    let! r := commitTo r (Z.min leaderCommit lastNewI) in
    Ret (r, Some lastNewI).

End Log.
