(* ===== verification/RaftLogFacts.v ===== *)
(** * RaftLogFacts
    What the Raft log of [RaftLog] stands for: the run of entries [view]
    after the compaction point. Each operation is characterised on the view,
    for every storage that satisfies [StorageSpec]. *)
From S2P Require Import Prelude RaftTypes RaftStorage RaftLog.

Section Facts.
  Context {S : Type} `{HS : StorageSpec S}.
  Implicit Types r : raftLog S.

Definition base r : Z := st_base (lStorage r).

(** The part of the storage that the unstable tail does not supersede. *)
Definition stable_part r : list Entry :=
  take (Z.to_nat (uOffset (lUnstable r) - base r - 1)) (st_log (lStorage r)).

(** The log: the entries with indices [base + 1], [base + 2], ... *)
Definition view r : list Entry := stable_part r ++ uEntries (lUnstable r).

Definition last_index r : Z := base r + zlen (view r).

(** The position of index [i] in the view. *)
Definition pos r (i : Z) : nat := Z.to_nat (i - base r - 1).

Definition entry_at r (i : Z) : option Entry :=
  if decide (base r < i) then view r !! pos r i else None.

Definition term_at r (i : Z) : option Z :=
  if decide (i = base r) then Some (st_base_term (lStorage r)) else eTerm <$> entry_at r i.

(** The representation invariant. *)
Record log_ok r : Prop := {
  ok_storage : st_ok (lStorage r);
  ok_offset : base r < uOffset (lUnstable r) <= base r + zlen (st_log (lStorage r)) + 1;
  ok_contiguous : contiguous (uOffset (lUnstable r)) (uEntries (lUnstable r));
  ok_empty : uEntries (lUnstable r) = [] ->
    uOffset (lUnstable r) = base r + zlen (st_log (lStorage r)) + 1;
  ok_bound : uOffset (lUnstable r) + zlen (uEntries (lUnstable r)) <= max_index;
  ok_terms : Forall (fun e => 0 < eTerm e) (uEntries (lUnstable r));
  ok_commit : base r <= applyIndex r <= commitIndex r /\ commitIndex r <= last_index r;
}.

(** ** Shape of the view *)

Lemma zlen_stable_part r : log_ok r -> zlen (stable_part r) = uOffset (lUnstable r) - base r - 1.
Proof. intros Hok. destruct (ok_offset _ Hok). unfold stable_part. rewrite zlen_take. lia. Qed.

Lemma last_index_unstable r :
  log_ok r -> last_index r = uOffset (lUnstable r) + zlen (uEntries (lUnstable r)) - 1.
Proof. intros Hok. unfold last_index, view. rewrite zlen_app, zlen_stable_part by done. lia. Qed.

Lemma log_bounds r : log_ok r -> 0 <= base r <= last_index r /\ last_index r < max_index.
Proof.
  intros Hok. pose proof (ok_bound _ Hok). pose proof (st_bounds _ (ok_storage _ Hok)) as Hb.
  fold (base r) in Hb. pose proof (zlen_nonneg (uEntries (lUnstable r))).
  rewrite (last_index_unstable r Hok). destruct (ok_offset _ Hok). lia.
Qed.

Lemma view_contiguous r : log_ok r -> contiguous (base r + 1) (view r).
Proof.
  intros Hok. unfold view. apply contiguous_app. split.
  - apply contiguous_take, st_log_contiguous, Hok.
  - rewrite zlen_stable_part by done.
    replace (base r + 1 + (uOffset (lUnstable r) - base r - 1)) with (uOffset (lUnstable r)) by lia.
    apply Hok.
Qed.

Lemma entry_at_index r i e : log_ok r -> entry_at r i = Some e -> eIndex e = i.
Proof.
  intros Hok. unfold entry_at, pos. case_decide; [| done].
  intros ->%(view_contiguous r Hok). lia.
Qed.

Lemma entry_at_Some r i : log_ok r -> is_Some (entry_at r i) <-> base r < i <= last_index r.
Proof.
  intros Hok. unfold entry_at, last_index, pos. case_decide.
  - rewrite lookup_lt_is_Some. unfold zlen. lia.
  - split; [by intros [] | lia].
Qed.

Lemma entry_at_unstable r i :
  log_ok r -> uOffset (lUnstable r) <= i ->
  entry_at r i = uEntries (lUnstable r) !! Z.to_nat (i - uOffset (lUnstable r)).
Proof.
  intros Hok Hi. pose proof (zlen_stable_part r Hok) as Hz. destruct (ok_offset _ Hok).
  unfold entry_at, pos, view. rewrite decide_True by lia.
  rewrite lookup_app_r by (unfold zlen in Hz; lia). f_equal. unfold zlen in Hz. lia.
Qed.

Lemma entry_at_stable r i :
  log_ok r -> base r < i -> i < uOffset (lUnstable r) ->
  entry_at r i = st_log (lStorage r) !! pos r i.
Proof.
  intros Hok Hi Hlt. pose proof (zlen_stable_part r Hok) as Hz.
  unfold entry_at, view. rewrite decide_True by done.
  rewrite lookup_app_l by (unfold pos, zlen in *; lia).
  unfold stable_part, pos. rewrite lookup_take_lt by lia. done.
Qed.

(** ** Index bounds and slices *)

Lemma firstIndex_spec r : log_ok r -> firstIndex r = Ret (base r + 1).
Proof. intros Hok. unfold firstIndex, must. by rewrite st_FirstIndex_spec by apply Hok. Qed.

Lemma maybeLastIndex_spec r :
  log_ok r -> maybeLastIndex (lUnstable r) =
    if decide (uEntries (lUnstable r) = []) then None else Some (last_index r).
Proof.
  intros Hok. unfold maybeLastIndex. pose proof (ok_bound _ Hok).
  pose proof (log_bounds r Hok). destruct (ok_offset _ Hok).
  pose proof (zlen_nonneg (uEntries (lUnstable r))). unfold max_index in *.
  pose proof (zlen_0 (uEntries (lUnstable r))).
  case_decide; case_decide; try (exfalso; tauto); [| done].
  rewrite !u64_id; unfold is_u64; try (rewrite ?u64_id; unfold is_u64; lia).
  f_equal. rewrite last_index_unstable by done. lia.
Qed.

Lemma lastIndex_spec r : log_ok r -> lastIndex r = Ret (last_index r).
Proof.
  intros Hok. unfold lastIndex. rewrite maybeLastIndex_spec by done.
  case_decide as He; [| done]. unfold must. rewrite st_LastIndex_spec by apply Hok. simpl.
  f_equal. rewrite last_index_unstable, (ok_empty _ Hok He), He by done.
  rewrite zlen_nil. unfold base. lia.
Qed.

Lemma mustCheckOutOfBounds_spec r lo hi :
  log_ok r -> base r < lo <= hi -> hi <= last_index r + 1 -> mustCheckOutOfBounds r lo hi = Ret tt.
Proof.
  intros Hok Hlo Hhi. unfold mustCheckOutOfBounds. pose proof (log_bounds r Hok). unfold max_index in *.
  rewrite decide_False, firstIndex_spec by (done || lia). simpl.
  rewrite decide_False, lastIndex_spec by (done || lia). simpl.
  rewrite u64_id by (unfold is_u64; lia). by rewrite decide_False by lia.
Qed.

Lemma unstable_slice_spec r lo hi :
  log_ok r -> uOffset (lUnstable r) <= lo <= hi -> hi <= last_index r + 1 ->
  unstable_slice (lUnstable r) lo hi =
    Ret (take (Z.to_nat (hi - lo)) (drop (Z.to_nat (lo - uOffset (lUnstable r))) (uEntries (lUnstable r)))).
Proof.
  intros Hok Hlo Hhi. pose proof (log_bounds r Hok). destruct (ok_offset _ Hok).
  rewrite last_index_unstable in * by done. unfold max_index in *.
  unfold unstable_slice, unstable_mustCheckOutOfBounds, unstable_end.
  rewrite decide_False by lia. rewrite !u64_id by (unfold is_u64; lia).
  rewrite decide_False by lia. simpl.
  rewrite subslice_total by lia. do 2 f_equal. lia.
Qed.

(** The stable half of a slice. *)
Lemma slice_stable_spec r lo hi :
  log_ok r -> base r < lo -> lo < hi -> hi <= uOffset (lUnstable r) ->
  must (st_Entries (lStorage r) lo hi) =
    Ret (take (Z.to_nat (hi - lo)) (drop (pos r lo) (stable_part r))).
Proof.
  intros Hok Hlo Hlt Hhi. destruct (ok_offset _ Hok). unfold base in *.
  unfold must. rewrite st_Entries_spec by (apply Hok || lia). simpl. f_equal.
  unfold stable_part, pos, base. rewrite skipn_firstn_comm, take_take. f_equal. lia.
Qed.

Lemma slice_spec r lo hi :
  log_ok r -> base r < lo <= hi -> hi <= last_index r + 1 ->
  slice r lo hi = Ret (take (Z.to_nat (hi - lo)) (drop (pos r lo) (view r))).
Proof.
  intros Hok Hlo Hhi. unfold slice. rewrite mustCheckOutOfBounds_spec by done. simpl.
  case_decide as Heq; [by rewrite Heq, Z.sub_diag |].
  pose proof (zlen_stable_part r Hok) as Hz. destruct (ok_offset _ Hok).
  set (off := uOffset (lUnstable r)) in *. unfold view.
  destruct (decide (lo < off)) as [Hs | Hs].
  - rewrite slice_stable_spec by (done || lia). simpl.
    rewrite skipn_app, firstn_app, length_skipn. unfold pos, zlen in *.
    case_decide.
    + rewrite unstable_slice_spec by (done || lia). simpl.
      replace (off `max` lo) with off by lia. fold off.
      rewrite (take_ge _ (Z.to_nat (hi - lo))) by (rewrite length_skipn; lia).
      rewrite take_ge by (rewrite length_skipn; lia).
      do 2 f_equal. replace (Z.to_nat (lo `max` off - off)) with 0%nat by lia.
      replace (Z.to_nat (lo - base r - 1) - length (stable_part r))%nat with 0%nat by lia.
      do 2 f_equal; lia.
    + simpl. rewrite app_nil_r. replace (off `min` hi) with hi by lia.
      replace (Z.to_nat (hi - lo) - _)%nat with 0%nat by lia. by rewrite app_nil_r.
  - simpl. rewrite decide_True by lia. rewrite unstable_slice_spec by (done || lia). simpl.
    rewrite drop_app_ge by (unfold pos, zlen in *; lia).
    f_equal. unfold pos, zlen in *. do 2 f_equal; fold off; lia.
Qed.

(** ** Terms *)

Lemma maybeTerm_spec r i :
  log_ok r -> maybeTerm (lUnstable r) i =
    Ret (if decide (uOffset (lUnstable r) <= i) then eTerm <$> entry_at r i else None).
Proof.
  intros Hok. unfold maybeTerm. pose proof (entry_at_Some r i Hok) as Hsome.
  pose proof (log_bounds r Hok). destruct (ok_offset _ Hok).
  case_decide; case_decide; try lia; [done |].
  rewrite maybeLastIndex_spec by done.
  case_decide as He.
  - assert (Hl : last_index r < i) by (rewrite last_index_unstable, He, zlen_nil by done; lia).
    destruct (entry_at r i); [| done]. destruct Hsome as [Hs _]. destruct Hs; [done | lia].
  - case_decide; [destruct (entry_at r i); [| done]; destruct Hsome as [Hs _]; destruct Hs; [done | lia] |].
    rewrite entry_at_unstable in * by done. unfold max_index in *.
    rewrite u64_id by (unfold is_u64; lia). unfold index. rewrite decide_True by lia.
    destruct (_ !! _); [done |]. destruct Hsome as [_ Hs]. destruct Hs; [lia | done].
Qed.

Lemma entry_term_positive r i e :
  log_ok r -> uOffset (lUnstable r) <= i -> entry_at r i = Some e -> 0 < eTerm e.
Proof.
  intros Hok Hi. rewrite entry_at_unstable by done. intros He.
  apply (Forall_lookup_1 (fun e => 0 < eTerm e) _ _ _ (ok_terms _ Hok) He).
Qed.

(** Outside the log the code answers the term 0. *)
Lemma log_term_spec r i : log_ok r -> 0 <= i -> log_term r i = Ret (Ok (default 0 (term_at r i))).
Proof.
  intros Hok Hi. unfold log_term. pose proof (entry_at_Some r i Hok) as Hsome.
  pose proof (log_bounds r Hok). destruct (ok_offset _ Hok). unfold max_index in *.
  rewrite firstIndex_spec, lastIndex_spec by done. simpl.
  rewrite u64_id by (unfold is_u64; lia).
  replace (base r + 1 - 1) with (base r) by lia.
  unfold term_at. case_decide as Hout.
  - rewrite decide_False by lia.
    destruct (entry_at r i); [| done]. destruct Hsome as [Hs _]. destruct Hs; [eauto | lia].
  - rewrite maybeTerm_spec by done. simpl. case_decide as Ho.
    + rewrite decide_False by lia. destruct Hsome as [_ Hs].
      destruct Hs as [e He]; [lia |]. rewrite He. simpl.
      pose proof (entry_term_positive r i e Hok Ho He). by rewrite decide_True by lia.
    + case_decide as Hb; [subst i; unfold base; rewrite st_Term_base by apply Hok; done |].
      destruct Hsome as [_ Hs]. destruct Hs as [e He]; [lia |]. rewrite He. simpl.
      rewrite entry_at_stable in He by (done || lia).
      erewrite st_Term_spec; [done | apply Hok | unfold base in *; lia | exact He].
Qed.

Lemma matchTerm_spec r i t :
  log_ok r -> 0 <= i -> matchTerm r i t = Ret (bool_decide (default 0 (term_at r i) = t)).
Proof. intros Hok Hi. unfold matchTerm. by rewrite log_term_spec. Qed.

Lemma lastTerm_spec r : log_ok r -> lastTerm r = Ret (default 0 (term_at r (last_index r))).
Proof.
  intros Hok. unfold lastTerm. rewrite lastIndex_spec by done. simpl.
  pose proof (log_bounds r Hok). by rewrite log_term_spec by (done || lia).
Qed.

(** The vote restriction: the candidate's last entry is not older than ours. *)
Lemma isUpToDate_spec r idx term :
  log_ok r ->
  isUpToDate r idx term =
    let lt := default 0 (term_at r (last_index r)) in
    Ret (bool_decide (lt < term \/ (term = lt /\ last_index r <= idx))).
Proof.
  intros Hok. unfold isUpToDate. rewrite lastTerm_spec by done. simpl.
  case_decide; [rewrite bool_decide_true by auto; done |].
  case_decide.
  - rewrite lastIndex_spec by done. simpl. f_equal. apply bool_decide_ext. lia.
  - by rewrite bool_decide_false by lia.
Qed.

Lemma term_at_in r i e : log_ok r -> entry_at r i = Some e -> term_at r i = Some (eTerm e).
Proof.
  intros Hok He. assert (Hi : base r < i) by (unfold entry_at in He; case_decide; done).
  unfold term_at. rewrite decide_False by lia. by rewrite He.
Qed.

Lemma term_at_out r i : log_ok r -> last_index r < i -> term_at r i = None.
Proof.
  intros Hok Hi. pose proof (log_bounds r Hok). unfold term_at. rewrite decide_False by lia.
  pose proof (entry_at_Some r i Hok) as Hs. destruct (entry_at r i); [| done].
  destruct Hs as [Hs _]. destruct Hs; [eauto | lia].
Qed.

(** ** Conflicts *)

(** The number of leading entries of [es] whose term is the one already logged. *)
Fixpoint agree (log es : list Entry) : nat :=
  match log, es with
  | l :: log, e :: es => if decide (eTerm l = eTerm e) then Datatypes.S (agree log es) else 0%nat
  | _, _ => 0%nat
  end.

Lemma agree_le log es : (agree log es <= length es)%nat /\ (agree log es <= length log)%nat.
Proof.
  revert es. induction log as [| l log IH]; intros [| e es]; simpl; try lia.
  case_decide; [| lia]. specialize (IH es). lia.
Qed.

Lemma findConflict_spec r i es :
  log_ok r -> base r < i -> contiguous i es -> Forall (fun e => 0 < eTerm e) es ->
  findConflict r es =
    let n := agree (drop (pos r i) (view r)) es in
    Ret (if decide (n = length es) then 0 else i + Z.of_nat n).
Proof.
  intros Hok. revert i. induction es as [| e es IH]; intros i Hi Hc Hpos.
  { simpl. destruct (drop (pos r i) (view r)); done. }
  apply contiguous_cons in Hc as [He Hc]. inversion Hpos as [| ? ? Hp Hps]; subst.
  pose proof (log_bounds r Hok) as [? ?].
  simpl. rewrite matchTerm_spec by (done || lia). simpl.
  specialize (IH (eIndex e + 1) ltac:(lia) Hc Hps).
  assert (Hpos' : pos r (eIndex e + 1) = Datatypes.S (pos r (eIndex e))) by (unfold pos; lia).
  destruct (entry_at r (eIndex e)) as [l |] eqn:Hl.
  - rewrite (term_at_in _ _ _ Hok Hl). simpl. unfold entry_at in Hl. rewrite decide_True in Hl by done.
    rewrite (drop_S _ _ _ Hl). simpl. case_bool_decide as Ht.
    + rewrite (decide_True _ _ Ht), IH, Hpos'. simpl. f_equal. repeat case_decide; lia.
    + rewrite (decide_False (P := eTerm l = eTerm e)), decide_False by (done || simpl; lia). f_equal. lia.
  - assert (Hout : term_at r (eIndex e) = None).
    { unfold term_at. rewrite decide_False by lia. by rewrite Hl. }
    rewrite Hout. simpl. rewrite bool_decide_false by lia.
    unfold entry_at in Hl. rewrite decide_True in Hl by done.
    rewrite drop_ge by (by apply lookup_ge_None). simpl. f_equal. lia.
Qed.

(** ** The abstract append: keep what agrees, replace the rest *)

Fixpoint merge_entries (log es : list Entry) : list Entry :=
  match log, es with
  | [], es => es
  | log, [] => log
  | l :: log', e :: es' =>
      if decide (eTerm l = eTerm e) then l :: merge_entries log' es' else es
  end.

Lemma merge_entries_agree log es :
  merge_entries log es =
    if decide (agree log es = length es) then log
    else take (agree log es) log ++ drop (agree log es) es.
Proof.
  revert es. induction log as [| l log IH]; intros [| e es]; simpl; [done | done | done |].
  case_decide; [| done]. rewrite IH. simpl.
  case_decide; case_decide; try done; lia.
Qed.

(** ** Appending *)

(** A batch the log may take at index [i]. *)
Record batch_ok r (i : Z) (es : list Entry) : Prop := {
  batch_nonempty : es <> [];
  batch_contiguous : contiguous i es;
  batch_terms : Forall (fun e => 0 < eTerm e) es;
  batch_start : base r < i <= last_index r + 1;
  batch_end : i + zlen es <= max_index;
}.

Lemma batch_head r i es : batch_ok r i es -> exists e, index es 0 = Ret e /\ eIndex e = i.
Proof.
  intros Hb. destruct es as [| e es]; [by destruct (batch_nonempty _ _ _ Hb) |].
  exists e. split; [done |]. rewrite (batch_contiguous _ _ _ Hb 0%nat e eq_refl). lia.
Qed.

Lemma truncateAndAppend_spec r i es :
  log_ok r -> batch_ok r i es ->
  exists u, truncateAndAppend (lUnstable r) es = Ret u
    /\ uOffset u = Z.min (uOffset (lUnstable r)) i
    /\ uEntries u = take (Z.to_nat (i - uOffset (lUnstable r))) (uEntries (lUnstable r)) ++ es.
Proof.
  intros Hok Hb. destruct (batch_head r i es Hb) as (e & He & Hei).
  pose proof (log_bounds r Hok). pose proof (last_index_unstable r Hok).
  destruct (ok_offset _ Hok), (batch_start _ _ _ Hb). unfold max_index in *.
  unfold truncateAndAppend. rewrite He. simpl. rewrite Hei. unfold unstable_end.
  rewrite u64_id by (unfold is_u64; lia).
  case_decide; [| case_decide].
  - eexists. split; [done |]. simpl. split; [pose proof (zlen_nonneg (uEntries (lUnstable r))); lia |].
    rewrite take_ge; [done | unfold zlen in *; lia].
  - eexists. split; [done |]. simpl. split; [lia |].
    replace (Z.to_nat _) with 0%nat by lia. done.
  - rewrite unstable_slice_spec by (done || lia). simpl. eexists. split; [done |]. simpl.
    split; [lia |]. rewrite Z.sub_diag. done.
Qed.

(** Replacing the tail from [i] on is the same operation on the view. *)
Lemma view_truncate r i es u :
  log_ok r -> base r < i <= last_index r + 1 ->
  uOffset u = Z.min (uOffset (lUnstable r)) i ->
  uEntries u = take (Z.to_nat (i - uOffset (lUnstable r))) (uEntries (lUnstable r)) ++ es ->
  view (r <| lUnstable := u |>) = take (pos r i) (view r) ++ es.
Proof.
  intros Hok Hi Hu Hes. pose proof (zlen_stable_part r Hok) as Hz. destruct (ok_offset _ Hok).
  unfold view at 1, stable_part at 1, base at 1. simpl. fold (base r). rewrite Hu, Hes.
  unfold view. rewrite app_assoc. f_equal. rewrite firstn_app. unfold pos, zlen in *.
  f_equal; [| f_equal; lia]. unfold stable_part. rewrite take_take. f_equal. lia.
Qed.

Lemma log_ok_truncate r i es u :
  log_ok r -> batch_ok r i es -> commitIndex r < i ->
  uOffset u = Z.min (uOffset (lUnstable r)) i ->
  uEntries u = take (Z.to_nat (i - uOffset (lUnstable r))) (uEntries (lUnstable r)) ++ es ->
  log_ok (r <| lUnstable := u |>).
Proof.
  intros Hok Hb Hc Hu Hes. pose proof (view_truncate r i es u Hok (batch_start _ _ _ Hb) Hu Hes) as Hv.
  destruct (ok_offset _ Hok), (batch_start _ _ _ Hb). pose proof (last_index_unstable r Hok) as Hl.
  pose proof (batch_end _ _ _ Hb). pose proof (ok_bound _ Hok).
  pose proof (zlen_nonneg (uEntries (lUnstable r))).
  assert (Hzt : uOffset u + zlen (take (Z.to_nat (i - uOffset (lUnstable r))) (uEntries (lUnstable r))) = i)
    by (rewrite zlen_take; lia).
  constructor; simpl.
  - apply Hok.
  - unfold base in *. simpl. lia.
  - rewrite Hes. apply contiguous_app. rewrite Hzt. split; [| apply Hb].
    pose proof (contiguous_take _ (Z.to_nat (i - uOffset (lUnstable r))) _ (ok_contiguous _ Hok)).
    destruct (decide (uOffset (lUnstable r) <= i)).
    + by rewrite Hu, Z.min_l by done.
    + replace (Z.to_nat _) with 0%nat by lia. apply contiguous_nil.
  - rewrite Hes. intros [_ Hnil]%app_eq_nil. by destruct (batch_nonempty _ _ _ Hb).
  - rewrite Hes, zlen_app. lia.
  - rewrite Hes. apply Forall_app. split; [apply Forall_take, Hok | apply Hb].
  - split; [apply Hok |]. unfold last_index. rewrite Hv, zlen_app, zlen_take.
    unfold base at 1. simpl. fold (base r). unfold pos. pose proof (zlen_nonneg es).
    pose proof (ok_commit _ Hok) as [? ?]. unfold last_index in *. lia.
Qed.

(** [append]: the log is cut at the batch's first index and extended by it. *)
Lemma log_append_spec r i es :
  log_ok r -> batch_ok r i es -> commitIndex r < i ->
  exists r', log_append r es = Ret (r', i + zlen es - 1) /\ log_ok r'
    /\ view r' = take (pos r i) (view r) ++ es
    /\ base r' = base r /\ commitIndex r' = commitIndex r /\ applyIndex r' = applyIndex r
    /\ lStorage r' = lStorage r.
Proof.
  intros Hok Hb Hc. destruct (batch_head r i es Hb) as (e & He & Hei).
  destruct (truncateAndAppend_spec r i es Hok Hb) as (u & Ht & Hu & Hes).
  pose proof (log_ok_truncate r i es u Hok Hb Hc Hu Hes) as Hok'.
  pose proof (view_truncate r i es u Hok (batch_start _ _ _ Hb) Hu Hes) as Hv.
  pose proof (log_bounds r Hok). destruct (batch_start _ _ _ Hb). unfold max_index in *.
  exists (r <| lUnstable := u |>). split_and!; try done.
  unfold log_append. rewrite decide_False by (rewrite zlen_0; apply (batch_nonempty _ _ _ Hb)).
  rewrite He. simpl. rewrite Hei, u64_id, decide_False by (unfold is_u64; lia).
  rewrite Ht. simpl. rewrite lastIndex_spec by done. simpl. do 2 f_equal.
  unfold last_index. rewrite Hv, zlen_app, zlen_take. unfold base, pos. simpl. fold (base r).
  unfold last_index in *. lia.
Qed.

(** ** Committing and applying *)

Lemma log_ok_commit r c :
  log_ok r -> commitIndex r <= c <= last_index r -> log_ok (r <| commitIndex := c |>).
Proof.
  intros Hok Hc. destruct (ok_commit _ Hok). constructor; try apply Hok.
  unfold last_index, view, stable_part, base in *. simpl. lia.
Qed.

Lemma commitTo_spec r c :
  log_ok r ->
  commitTo r c =
    if decide (c <= last_index r) then Ret (r <| commitIndex := Z.max (commitIndex r) c |>)
    else Panic "commit index over last index".
Proof.
  intros Hok. unfold commitTo. destruct (ok_commit _ Hok) as [_ Hcl].
  rewrite lastIndex_spec by done. simpl.
  case_decide; case_decide; try case_decide; try lia; try done.
  - rewrite Z.max_l by done. by destruct r.
  - rewrite Z.max_r by lia. done.
Qed.

Lemma log_maybeCommit_spec r m t :
  log_ok r -> 0 <= m -> 0 < t ->
  log_maybeCommit r m t =
    if decide (commitIndex r < m /\ term_at r m = Some t) then Ret (r <| commitIndex := m |>, true)
    else Ret (r, false).
Proof.
  intros Hok Hm Ht. unfold log_maybeCommit.
  destruct (decide (commitIndex r < m)) as [Hc | Hc]; [| by rewrite decide_False by tauto].
  rewrite log_term_spec by done. simpl. destruct (decide (term_at r m = Some t)) as [He | He].
  - rewrite He. simpl. rewrite decide_True, commitTo_spec by done.
    destruct (decide (m <= last_index r)) as [Hl | Hl].
    + simpl. rewrite Z.max_r by lia. by rewrite decide_True by done.
    + rewrite term_at_out in He by (done || lia). done.
  - rewrite (decide_False (P := _ /\ _)) by tauto.
    destruct (term_at r m) as [t' |]; simpl; rewrite decide_False; try done; [congruence | lia].
Qed.

(** What the application is handed: the committed entries it has not seen. *)
Lemma nextEntries_spec r :
  log_ok r ->
  nextEntries r =
    Ret (take (Z.to_nat (commitIndex r - applyIndex r)) (drop (pos r (applyIndex r + 1)) (view r))).
Proof.
  intros Hok. unfold nextEntries. destruct (ok_commit _ Hok). pose proof (log_bounds r Hok).
  unfold max_index in *. rewrite firstIndex_spec by done. simpl.
  rewrite !u64_id by (unfold is_u64; lia). rewrite Z.max_l by lia. case_decide.
  - rewrite slice_spec by (done || lia). do 3 f_equal. lia.
  - replace (Z.to_nat _) with 0%nat by lia. done.
Qed.

Lemma entries_spec r i :
  log_ok r -> base r < i -> entries r i = Ret (drop (pos r i) (view r)).
Proof.
  intros Hok Hi. unfold entries. rewrite lastIndex_spec by done. simpl.
  pose proof (log_bounds r Hok). unfold max_index in *. case_decide.
  - rewrite drop_ge; [done |]. unfold pos, last_index, zlen in *. lia.
  - rewrite u64_id by (unfold is_u64; lia). rewrite slice_spec by (done || lia).
    rewrite take_ge; [done |]. rewrite length_drop. unfold pos, last_index, zlen in *. lia.
Qed.

Lemma appliedTo_ok r i r' : log_ok r -> appliedTo r i = Ret r' -> log_ok r'.
Proof.
  intros Hok. unfold appliedTo. do 2 (case_decide; [by intros [= <-] |]). intros [= <-].
  pose proof (ok_commit _ Hok). constructor; try apply Hok.
  unfold last_index, view, stable_part, base in *. simpl. lia.
Qed.

(** ** The follower's append *)

(** A [MsgApp] payload the log can take after index [logIndex]. *)
Record payload_ok r (logIndex : Z) (es : list Entry) : Prop := {
  payload_contiguous : contiguous (logIndex + 1) es;
  payload_terms : Forall (fun e => 0 < eTerm e) es;
  payload_start : base r <= logIndex;
  payload_end : logIndex + 1 + zlen es <= max_index;
}.

Definition follow r (logIndex : Z) (es : list Entry) : list Entry :=
  take (pos r (logIndex + 1)) (view r) ++ merge_entries (drop (pos r (logIndex + 1)) (view r)) es.

Definition agreement r (logIndex : Z) (es : list Entry) : nat :=
  agree (drop (pos r (logIndex + 1)) (view r)) es.

Lemma agreement_bounds r logIndex es :
  payload_ok r logIndex es -> log_ok r -> logIndex <= last_index r ->
  (agreement r logIndex es <= length es)%nat
  /\ logIndex + Z.of_nat (agreement r logIndex es) <= last_index r.
Proof.
  intros Hp Hok Hl. unfold agreement.
  pose proof (agree_le (drop (pos r (logIndex + 1)) (view r)) es) as [? Hlen].
  rewrite length_drop in Hlen. pose proof (payload_start _ _ _ Hp).
  unfold last_index, pos, zlen in *. lia.
Qed.

Lemma zlen_follow r logIndex es :
  log_ok r -> payload_ok r logIndex es -> logIndex <= last_index r ->
  logIndex + zlen es <= base r + zlen (follow r logIndex es).
Proof.
  intros Hok Hp Hl. unfold follow. rewrite merge_entries_agree.
  pose proof (agreement_bounds _ _ _ Hp Hok Hl) as [? ?]. pose proof (payload_start _ _ _ Hp).
  unfold agreement in *. case_decide.
  - rewrite take_drop. unfold last_index, zlen in *. lia.
  - rewrite !zlen_app, !zlen_take, zlen_drop. unfold last_index, pos, zlen in *.
    rewrite length_drop. lia.
Qed.

(** The append step of [maybeAppend], before the commit index moves. *)
Lemma append_conflict r logIndex es :
  log_ok r -> payload_ok r logIndex es -> logIndex <= last_index r ->
  let n := agreement r logIndex es in
  n <> length es -> commitIndex r < logIndex + 1 + Z.of_nat n ->
  exists r' i, log_append r (drop n es) = Ret (r', i) /\ log_ok r'
    /\ view r' = follow r logIndex es
    /\ base r' = base r /\ commitIndex r' = commitIndex r /\ applyIndex r' = applyIndex r.
Proof.
  intros Hok Hp Hl n Hn Hc.
  pose proof (agreement_bounds _ _ _ Hp Hok Hl) as [Hle Hlast]. fold n in Hle, Hlast.
  pose proof (payload_start _ _ _ Hp). pose proof (payload_end _ _ _ Hp).
  assert (Hb : batch_ok r (logIndex + 1 + Z.of_nat n) (drop n es)).
  { constructor.
    - intros Hd. apply (f_equal length) in Hd. rewrite length_drop in Hd. simpl in Hd. lia.
    - apply contiguous_drop, Hp.
    - apply Forall_drop, Hp.
    - lia.
    - rewrite zlen_drop. unfold zlen in *. lia. }
  destruct (log_append_spec r _ _ Hok Hb Hc) as (r' & Ha & Hok' & Hv & ? & ? & ? & _).
  eexists r', _. split; [exact Ha |]. split_and!; try done.
  rewrite Hv. unfold follow. rewrite merge_entries_agree.
  change (agree _ es) with n. rewrite decide_False by done.
  rewrite app_assoc. f_equal. rewrite <- (take_drop (pos r (logIndex + 1)) (view r)) at 1.
  rewrite firstn_app, take_take. unfold last_index, pos, zlen in *. f_equal; f_equal.
  - lia.
  - rewrite length_take. lia.
Qed.

Lemma log_index_follow r logIndex es :
  log_ok r -> payload_ok r logIndex es -> 0 <= logIndex.
Proof. intros Hok Hp. pose proof (log_bounds r Hok). pose proof (payload_start _ _ _ Hp). lia. Qed.

Lemma maybeAppend_accept r logIndex logTerm leaderCommit es :
  log_ok r -> payload_ok r logIndex es -> logIndex <= last_index r ->
  default 0 (term_at r logIndex) = logTerm ->
  let n := agreement r logIndex es in
  n = length es \/ commitIndex r < logIndex + 1 + Z.of_nat n ->
  exists r', maybeAppend r logIndex logTerm leaderCommit es = Ret (r', Some (logIndex + zlen es))
    /\ log_ok r' /\ view r' = follow r logIndex es
    /\ base r' = base r /\ applyIndex r' = applyIndex r
    /\ commitIndex r' = Z.max (commitIndex r) (Z.min leaderCommit (logIndex + zlen es)).
Proof.
  intros Hok Hp Hl Ht n Hn. pose proof (log_index_follow _ _ _ Hok Hp).
  pose proof (agreement_bounds _ _ _ Hp Hok Hl) as [Hle _]. fold n in Hle.
  pose proof (payload_start _ _ _ Hp). pose proof (payload_end _ _ _ Hp).
  pose proof (zlen_nonneg es). unfold max_index in *.
  enough (Hstep : exists r1, view r1 = follow r logIndex es /\ log_ok r1 /\ base r1 = base r
    /\ applyIndex r1 = applyIndex r /\ commitIndex r1 = commitIndex r
    /\ maybeAppend r logIndex logTerm leaderCommit es =
         let! r2 := commitTo r1 (Z.min leaderCommit (logIndex + zlen es)) in
         Ret (r2, Some (logIndex + zlen es))).
  { destruct Hstep as (r1 & Hv & Hok1 & Hb1 & Ha1 & Hc1 & ->).
    pose proof (zlen_follow _ _ _ Hok Hp Hl) as Hz.
    assert (Hl1 : last_index r1 = base r + zlen (follow r logIndex es))
      by (unfold last_index; rewrite Hv; lia).
    rewrite commitTo_spec, decide_True by (done || lia). simpl.
    eexists. split; [done |]. destruct (ok_commit _ Hok1).
    split; [apply log_ok_commit; [done | lia] |]. simpl. rewrite <- Hc1. done. }
  unfold maybeAppend. rewrite matchTerm_spec, bool_decide_true by done. simpl.
  rewrite (findConflict_spec _ (logIndex + 1)) by (done || apply Hp || lia).
  fold (agreement r logIndex es). fold n. simpl.
  rewrite (u64_id (logIndex + zlen es)), (u64_id (logIndex + 1)) by (unfold is_u64; lia).
  destruct (decide (n = length es)) as [Hfull | Hpart].
  - exists r. rewrite decide_True by done. split_and!; try done.
    unfold follow. rewrite merge_entries_agree, decide_True by done. by rewrite take_drop.
  - destruct Hn as [Hn | Hn]; [done |].
    destruct (append_conflict r logIndex es Hok Hp Hl Hpart Hn)
      as (r1 & i & Happ & Hok1 & Hv & Hb1 & Hc1 & Ha1). fold n in Happ.
    exists r1. split_and!; try done. unfold zlen in *. rewrite !decide_False by lia.
    rewrite u64_id by (unfold is_u64; lia).
    rewrite subslice_total by (unfold zlen; lia). simpl.
    rewrite take_ge by (rewrite length_drop; unfold zlen; lia).
    replace (Z.to_nat (logIndex + 1 + Z.of_nat n - (logIndex + 1))) with n by lia.
    rewrite Happ. done.
Qed.

Lemma maybeAppend_reject r logIndex logTerm leaderCommit es :
  log_ok r -> 0 <= logIndex -> default 0 (term_at r logIndex) <> logTerm ->
  maybeAppend r logIndex logTerm leaderCommit es = Ret (r, None).
Proof.
  intros Hok Hl Ht. unfold maybeAppend. rewrite matchTerm_spec by done.
  by rewrite bool_decide_false by done.
Qed.

Lemma maybeAppend_conflict r logIndex logTerm leaderCommit es :
  log_ok r -> payload_ok r logIndex es -> default 0 (term_at r logIndex) = logTerm ->
  let n := agreement r logIndex es in
  n <> length es -> logIndex + 1 + Z.of_nat n <= commitIndex r ->
  maybeAppend r logIndex logTerm leaderCommit es = Panic "conflict before commit index".
Proof.
  intros Hok Hp Ht n Hn Hc. pose proof (log_index_follow _ _ _ Hok Hp).
  pose proof (payload_start _ _ _ Hp).
  unfold maybeAppend. rewrite matchTerm_spec, bool_decide_true by done. simpl.
  rewrite (findConflict_spec _ (logIndex + 1)) by (done || apply Hp || lia).
  fold (agreement r logIndex es). fold n. simpl.
  by rewrite (decide_False (P := n = _)), decide_False, decide_True by (done || lia).
Qed.

(** ** Persisting the unstable tail *)

(** Handing the delivered entries to the storage does not change the log, even
    when the tail has been cut below them in the meantime. *)
Lemma storage_append_view r i es st :
  log_ok r -> es <> [] -> contiguous i es -> i + zlen es <= max_index ->
  uOffset (lUnstable r) <= i <= base r + zlen (st_log (lStorage r)) + 1 ->
  st_Append (lStorage r) es = Ret (st, None) ->
  view (r <| lStorage := st |>) = view r /\ base (r <| lStorage := st |>) = base r
  /\ st_ok st /\ st_base_term st = st_base_term (lStorage r)
  /\ st_log st = take (pos r i) (st_log (lStorage r)) ++ es.
Proof.
  intros Hok Hne Hc Hlen [Hi Hi2] Happ. destruct (ok_offset _ Hok).
  destruct (st_Append_spec (lStorage r) es i) as (s' & Hs & Hsok & Hb & Ht & Hlog);
    [apply Hok | done | done | unfold base in *; lia | done |].
  rewrite Hs in Happ. injection Happ as ->. unfold base in *. simpl. split_and!; try done.
  unfold view, stable_part, base. simpl. rewrite Hb, Hlog. f_equal.
  rewrite firstn_app, take_take, length_take.
  rewrite (Nat.min_l (Z.to_nat (uOffset _ - _ - _))) by lia.
  replace (Z.to_nat (uOffset (lUnstable r) - st_base (lStorage r) - 1) - _)%nat with 0%nat
    by (unfold zlen in *; lia).
  by rewrite app_nil_r.
Qed.

(** [stableTo] after the storage took the tail: the log is the same, with the
    delivered entries on the stable side. *)
Lemma stableTo_spec r es more e :
  log_ok r -> uEntries (lUnstable r) = es ++ more -> last es = Some e ->
  st_log (lStorage r) = stable_part r ++ es ->
  exists r', stableTo r (eIndex e) (eTerm e) = Ret r' /\ log_ok r'
    /\ view r' = view r /\ uEntries (lUnstable r') = more
    /\ uOffset (lUnstable r') = uOffset (lUnstable r) + zlen es
    /\ commitIndex r' = commitIndex r /\ applyIndex r' = applyIndex r.
Proof.
  intros Hok Hes Hlast Hst. set (off := uOffset (lUnstable r)).
  pose proof (ok_bound _ Hok) as Hb. pose proof (log_bounds r Hok). destruct (ok_offset _ Hok).
  pose proof (ok_contiguous _ Hok) as Hc. rewrite Hes, zlen_app in Hb. rewrite Hes in Hc.
  apply last_Some in Hlast as [es' Hes']. pose proof (zlen_nonneg more). pose proof (zlen_nonneg es').
  assert (Hlen : zlen es = zlen es' + 1) by (rewrite Hes', zlen_app; done).
  assert (Hidx : eIndex e = off + zlen es').
  { apply contiguous_app in Hc as [Hc _]. rewrite Hes' in Hc.
    apply contiguous_app in Hc as [_ Hc]. apply contiguous_cons in Hc as [Hc _]. done. }
  assert (He : entry_at r (eIndex e) = Some e).
  { rewrite entry_at_unstable by (done || fold off; lia). rewrite Hes, Hes', <- app_assoc. fold off.
    rewrite lookup_app_r by (unfold zlen in *; lia).
    replace (_ - _)%nat with 0%nat by (unfold zlen in *; lia). done. }
  unfold stableTo, unstable_stableTo, max_index in *. rewrite maybeTerm_spec by done.
  fold off. rewrite He, decide_True by lia. simpl. rewrite decide_True by lia.
  rewrite !u64_id by (rewrite ?u64_id; unfold is_u64; lia).
  rewrite Hes, subslice_total by (rewrite ?zlen_app; lia). simpl.
  rewrite take_ge by (unfold zlen in *; rewrite length_drop, length_app; lia).
  rewrite drop_app_ge by (unfold zlen in *; lia).
  assert (Hoff' : eIndex e + 1 = off + zlen es) by lia.
  replace (drop (_ - _) more) with more by (replace (_ - _)%nat with 0%nat by (unfold zlen in *; lia); done).
  eexists. split; [done |].
  assert (Hview : forall r', r' = r <| lUnstable := mkUnstable more (eIndex e + 1) |> -> view r' = view r).
  { intros r' ->. unfold view at 1, stable_part at 1, base at 1. simpl. fold (base r).
    unfold view. rewrite Hes, app_assoc, Hst, Hoff'. f_equal.
    apply take_ge. rewrite length_app. pose proof (zlen_stable_part r Hok). unfold zlen, off in *. lia. }
  split_and!; try done; [| by apply Hview].
  pose proof (zlen_stable_part r Hok) as Hz.
  constructor; simpl; try apply Hok.
  - unfold base in *. simpl. rewrite Hst, zlen_app. unfold off in *. lia.
  - apply contiguous_app in Hc as [_ Hc]. by rewrite Hoff'.
  - intros ->. unfold base in *. simpl. rewrite Hst, zlen_app. unfold off in *. lia.
  - unfold max_index. lia.
  - pose proof (ok_terms _ Hok) as Hp. rewrite Hes in Hp. apply Forall_app in Hp. apply Hp.
  - split; [apply Hok |]. unfold last_index. rewrite Hview by done. apply Hok.
Qed.

Lemma log_ok_storage r st :
  log_ok r -> st_ok st -> st_base st = base r -> view (r <| lStorage := st |>) = view r ->
  uOffset (lUnstable r) <= st_base st + zlen (st_log st) + 1 ->
  (uEntries (lUnstable r) = [] -> uOffset (lUnstable r) = st_base st + zlen (st_log st) + 1) ->
  log_ok (r <| lStorage := st |>).
Proof.
  intros Hok Hst Hb Hv Ho He. destruct (ok_offset _ Hok).
  constructor; simpl; try apply Hok; try done.
  - unfold base in *. simpl. lia.
  - unfold last_index. rewrite Hv. pose proof (ok_commit _ Hok).
    unfold last_index, base in *. simpl. rewrite Hb. done.
Qed.

(** One [Advance]: the storage takes the delivered entries, then they are
    marked stable. *)
Definition persist r (es : list Entry) : outcome (raftLog S) :=
  let! p := st_Append (lStorage r) es in
  match p.2, last es with
  | None, Some e => stableTo (r <| lStorage := p.1 |>) (eIndex e) (eTerm e)
  | Some err, _ => Panic (error_string err)
  | None, None => Ret (r <| lStorage := p.1 |>)
  end.

Lemma persist_spec r es more :
  log_ok r -> es <> [] -> uEntries (lUnstable r) = es ++ more ->
  exists r', persist r es = Ret r' /\ log_ok r' /\ view r' = view r /\ base r' = base r
    /\ uEntries (lUnstable r') = more /\ uOffset (lUnstable r') = uOffset (lUnstable r) + zlen es
    /\ commitIndex r' = commitIndex r /\ applyIndex r' = applyIndex r.
Proof.
  intros Hok Hne Hes. destruct (ok_offset _ Hok) as [Ho1 Ho2].
  pose proof (ok_contiguous _ Hok) as Hc. rewrite Hes in Hc. apply contiguous_app in Hc as [Hc _].
  pose proof (ok_bound _ Hok) as Hb. rewrite Hes, zlen_app in Hb. pose proof (zlen_nonneg more).
  destruct (st_Append_spec (lStorage r) es (uOffset (lUnstable r)))
    as (st & Happ & Hst & Hbase & _ & Hlog); [apply Hok | done | done | unfold base in *; lia | lia |].
  destruct (storage_append_view r (uOffset (lUnstable r)) es st)
    as (Hview & Hb' & _ & _ & _); try done; [lia |].
  change (st_log st = stable_part r ++ es) in Hlog.
  destruct (last es) as [e |] eqn:Hlast; [| by apply last_None in Hlast].
  pose proof (zlen_stable_part r Hok) as Hz.
  assert (Hlen : zlen es > 0) by (pose proof (zlen_0 es); pose proof (zlen_nonneg es); destruct es; done || unfold zlen in *; simpl; lia).
  assert (Hok1 : log_ok (r <| lStorage := st |>)).
  { apply log_ok_storage; try done.
    - rewrite Hlog, zlen_app, Hbase. unfold base in *. lia.
    - rewrite Hes. by intros [? _]%app_eq_nil. }
  destruct (stableTo_spec (r <| lStorage := st |>) es more e) as (r' & Hs & Hok' & Hv & ? & ? & ? & ?); try done.
  { simpl. rewrite Hlog at 1. f_equal. symmetry. unfold stable_part at 1. rewrite Hb'. simpl.
    rewrite Hlog, firstn_app. unfold zlen in Hz.
    replace (_ - length _)%nat with 0%nat by lia. rewrite app_nil_r. apply take_ge. lia. }
  exists r'. unfold persist. rewrite Happ. simpl. rewrite Hlast. split_and!; try done.
  - by rewrite Hv.
  - unfold stableTo in Hs. inv_ret. by simpl.
Qed.

Lemma newRaftLog_spec st :
  st_ok st -> exists r, newRaftLog (Some st) = Ret r /\ log_ok r /\ view r = st_log st
    /\ commitIndex r = st_base st /\ applyIndex r = st_base st.
Proof.
  intros Hst. pose proof (st_bounds _ Hst). pose proof (zlen_nonneg (st_log st)). unfold max_index in *.
  unfold newRaftLog, must. rewrite st_FirstIndex_spec, st_LastIndex_spec by done. simpl.
  rewrite !u64_id by (unfold is_u64; lia).
  assert (Hv : forall r, r = mkRaftLog st (mkUnstable [] (st_base st + zlen (st_log st) + 1))
                 (st_base st + 1 - 1) (st_base st + 1 - 1) -> view r = st_log st).
  { intros r ->. unfold view, stable_part, base. simpl. rewrite app_nil_r.
    apply take_ge. unfold zlen. lia. }
  eexists. split; [done |]. split_and!; simpl; [| by apply Hv | lia | lia].
  constructor; simpl; unfold base; simpl; try done;
    [lia | rewrite zlen_nil; unfold max_index; lia |].
  unfold last_index. rewrite Hv by done. unfold base. simpl. lia.
Qed.

Lemma persist_storage r es r' :
  log_ok r -> es <> [] -> es `prefix_of` uEntries (lUnstable r) -> persist r es = Ret r' ->
  st_log (lStorage r') = stable_part r ++ es
  /\ st_base_term (lStorage r') = st_base_term (lStorage r).
Proof.
  intros Hok Hne [more Hes] Hp. destruct (ok_offset _ Hok) as [Ho1 Ho2].
  pose proof (ok_contiguous _ Hok) as Hc. rewrite Hes in Hc. apply contiguous_app in Hc as [Hc _].
  pose proof (ok_bound _ Hok) as Hb. rewrite Hes, zlen_app in Hb. pose proof (zlen_nonneg more).
  destruct (st_Append_spec (lStorage r) es (uOffset (lUnstable r)))
    as (st & Happ & _ & _ & Hbt & Hlog); [apply Hok | done | done | unfold base in *; lia | lia |].
  unfold persist, stableTo in Hp. rewrite Happ in Hp. simpl in Hp.
  destruct (last es) as [e |]; inv_ret; done.
Qed.

(** ** The log as a state machine *)

(** What the node does to its log. *)
Inductive log_step : raftLog S -> raftLog S -> Prop :=
| LAppend r i es r' idx :
    batch_ok r i es -> log_append r es = Ret (r', idx) -> log_step r r'
| LFollow r logIndex logTerm leaderCommit es r' res :
    payload_ok r logIndex es -> logIndex <= last_index r \/ logTerm <> 0 ->
    maybeAppend r logIndex logTerm leaderCommit es = Ret (r', res) -> log_step r r'
| LCommit r c r' : commitTo r c = Ret r' -> log_step r r'
| LApply r i r' : appliedTo r i = Ret r' -> log_step r r'
| LPersist r es more r' :
    es <> [] -> uEntries (lUnstable r) = es ++ more -> persist r es = Ret r' -> log_step r r'.

(** The committed part of the log. *)
Definition committed r : list Entry := take (Z.to_nat (commitIndex r - base r)) (view r).

(** [r'] may differ from [r] only past the commit index. *)
Definition extends r r' : Prop :=
  log_ok r' /\ base r' = base r /\ commitIndex r <= commitIndex r'
  /\ take (Z.to_nat (commitIndex r - base r)) (view r') = committed r.

Lemma extends_same_view r r' :
  log_ok r' -> base r' = base r -> commitIndex r <= commitIndex r' -> view r' = view r -> extends r r'.
Proof. intros. unfold extends, committed. split_and!; try done; congruence. Qed.

Lemma extends_committed r r' : extends r r' -> committed r `prefix_of` committed r'.
Proof.
  intros (_ & Hb & Hc & Htake). unfold committed in *. rewrite <- Htake, Hb.
  exists (drop (Z.to_nat (commitIndex r - base r)) (take (Z.to_nat (commitIndex r' - base r)) (view r'))).
  rewrite <- (take_drop (Z.to_nat (commitIndex r - base r)) (take _ _)) at 1. f_equal.
  rewrite take_take. f_equal. lia.
Qed.

Lemma extends_trans r1 r2 r3 : extends r1 r2 -> extends r2 r3 -> extends r1 r3.
Proof.
  unfold extends, committed. intros (? & Hb & ? & H12) (? & Hb' & ? & H23).
  split_and!; [done | congruence | lia |].
  rewrite <- H12. rewrite Hb in H23.
  apply (f_equal (take (Z.to_nat (commitIndex r1 - base r1)))) in H23.
  rewrite !take_take, !Nat.min_l in H23 by lia. exact H23.
Qed.

Lemma extends_append r i es r' idx :
  log_ok r -> batch_ok r i es -> log_append r es = Ret (r', idx) -> extends r r'.
Proof.
  intros Hok Hb Happ. destruct (decide (commitIndex r < i)) as [Hc | Hc].
  - destruct (log_append_spec r i es Hok Hb Hc) as (r1 & Happ1 & Hok1 & Hv & Hb1 & Hc1 & _).
    rewrite Happ in Happ1. injection Happ1 as -> ->.
    unfold extends, committed. split_and!; [done | done | lia |].
    pose proof (batch_start _ _ _ Hb). rewrite Hv, firstn_app, take_take, length_take.
    unfold pos. unfold last_index, zlen in *.
    replace (Z.to_nat (commitIndex r - base r) - _)%nat with 0%nat by lia. rewrite app_nil_r. f_equal. lia.
  - destruct (batch_head r i es Hb) as (e & He & Hei). pose proof (batch_nonempty _ _ _ Hb).
    pose proof (log_bounds r Hok). pose proof (batch_start _ _ _ Hb). pose proof (ok_commit _ Hok).
    unfold log_append, max_index in *. rewrite decide_False in Happ by (by rewrite zlen_0).
    rewrite He in Happ. simpl in Happ.
    rewrite u64_id, decide_True in Happ by (unfold is_u64; lia). discriminate.
Qed.

Lemma take_follow r logIndex es n :
  log_ok r -> payload_ok r logIndex es -> logIndex <= last_index r ->
  agreement r logIndex es = length es
    \/ n <= logIndex - base r + Z.of_nat (agreement r logIndex es) ->
  take (Z.to_nat n) (follow r logIndex es) = take (Z.to_nat n) (view r).
Proof.
  intros Hok Hp Hl Hn. pose proof (agreement_bounds _ _ _ Hp Hok Hl). pose proof (payload_start _ _ _ Hp).
  unfold follow. rewrite merge_entries_agree. fold (agreement r logIndex es).
  case_decide as Hfull; [by rewrite take_drop |]. destruct Hn as [? | Hn]; [done |].
  rewrite app_assoc. set (k := pos r (logIndex + 1)). unfold last_index, pos, zlen in *.
  assert (Hk : take k (view r) ++ take (agreement r logIndex es) (drop k (view r))
               = take (k + agreement r logIndex es) (view r)).
  { rewrite <- (take_drop k (view r)) at 3. rewrite firstn_app, take_take, length_take.
    unfold k in *. f_equal; f_equal; lia. }
  rewrite Hk, firstn_app, take_take, length_take. unfold k in *.
  replace (Z.to_nat n - _)%nat with 0%nat by lia. rewrite app_nil_r. f_equal. lia.
Qed.

Lemma extends_follow r logIndex logTerm leaderCommit es r' res :
  log_ok r -> payload_ok r logIndex es -> logIndex <= last_index r \/ logTerm <> 0 ->
  maybeAppend r logIndex logTerm leaderCommit es = Ret (r', res) -> extends r r'.
Proof.
  intros Hok Hp Hor Happ. pose proof (log_index_follow _ _ _ Hok Hp).
  destruct (decide (default 0 (term_at r logIndex) = logTerm)) as [Ht | Ht].
  - assert (Hl : logIndex <= last_index r).
    { destruct Hor as [| Hnz]; [done |]. destruct (decide (logIndex <= last_index r)); [done |].
      rewrite term_at_out in Ht by (done || lia). simpl in Ht. lia. }
    destruct (decide (agreement r logIndex es = length es
      \/ commitIndex r < logIndex + 1 + Z.of_nat (agreement r logIndex es))) as [Hn | Hn].
    + destruct (maybeAppend_accept r logIndex logTerm leaderCommit es Hok Hp Hl Ht Hn)
        as (r1 & Happ1 & Hok1 & Hv & Hb & _ & Hc). rewrite Happ in Happ1. injection Happ1 as -> ->.
      unfold extends, committed. split_and!; [done | done | lia |]. rewrite Hv.
      apply take_follow; try done. destruct Hn; [by left | right; lia].
    + rewrite (maybeAppend_conflict r logIndex logTerm leaderCommit es Hok Hp Ht) in Happ; [done | tauto | lia].
  - rewrite maybeAppend_reject in Happ by done. injection Happ as <- <-.
    by apply extends_same_view.
Qed.

Lemma log_step_extends r r' : log_step r r' -> log_ok r -> extends r r'.
Proof.
  intros Hstep Hok. inversion Hstep; subst.
  - by eapply extends_append.
  - by eapply extends_follow.
  - rewrite commitTo_spec in * by done. destruct (decide (c <= last_index r)); [| done].
    inv_ret. pose proof (ok_commit _ Hok). apply extends_same_view; simpl; try done; [| lia].
    apply log_ok_commit; [done | lia].
  - apply extends_same_view; [by eapply appliedTo_ok | | |];
      unfold appliedTo in *; repeat case_decide; inv_ret; done.
  - destruct (persist_spec r es more) as (r1 & Hp & ? & ? & ? & ? & ? & ? & ?); try done.
    assert (r1 = r') as -> by congruence. apply extends_same_view; try done. lia.
Qed.

Lemma extends_steps r r' : rtc log_step r r' -> log_ok r -> extends r r'.
Proof.
  induction 1 as [r | r r1 r' Hstep _ IH]; intros Hok.
  - by apply extends_same_view.
  - pose proof (log_step_extends _ _ Hstep Hok) as He.
    eapply extends_trans; [exact He |]. apply IH, He.
Qed.

Lemma log_term_view r r' i :
  log_ok r -> log_ok r' -> view r' = view r -> base r' = base r ->
  st_base_term (lStorage r') = st_base_term (lStorage r) -> 0 <= i -> log_term r' i = log_term r i.
Proof.
  intros ?? Hv Hb Ht ?. rewrite !log_term_spec by done.
  unfold term_at, entry_at, pos. by rewrite Hv, Hb, Ht.
Qed.

End Facts.

Section Results.
  Context {S : Type} `{HS : StorageSpec S}.
  Implicit Types r : raftLog S.

(** C5: [maybeAppend] on every branch: it rejects when the entry before the
    payload does not match, it refuses to overwrite a committed entry, and
    otherwise the log becomes the old log up to the payload followed by the
    merge of the two, with the commit index advanced by the leader's. *)
Theorem maybeAppend_correct r logIndex logTerm leaderCommit es :
  log_ok r -> payload_ok r logIndex es -> logIndex <= last_index r \/ logTerm <> 0 ->
  let n := Z.of_nat (agreement r logIndex es) in
  let newLast := logIndex + zlen es in
  if decide (default 0 (term_at r logIndex) <> logTerm) then
    maybeAppend r logIndex logTerm leaderCommit es = Ret (r, None)
  else if decide (n < zlen es /\ logIndex + 1 + n <= commitIndex r) then
    maybeAppend r logIndex logTerm leaderCommit es = Panic "conflict before commit index"
  else
    exists r', maybeAppend r logIndex logTerm leaderCommit es = Ret (r', Some newLast)
      /\ log_ok r' /\ base r' = base r /\ applyIndex r' = applyIndex r
      /\ view r' = take (pos r (logIndex + 1)) (view r)
                   ++ merge_entries (drop (pos r (logIndex + 1)) (view r)) es
      /\ commitIndex r' = Z.max (commitIndex r) (Z.min leaderCommit newLast).
Proof.
  intros Hok Hp Hor n newLast. pose proof (log_index_follow _ _ _ Hok Hp).
  destruct (decide (default 0 (term_at r logIndex) <> logTerm)) as [Ht | Ht].
  { by apply maybeAppend_reject. }
  assert (Heq : default 0 (term_at r logIndex) = logTerm) by (destruct (decide (default 0 (term_at r logIndex) = logTerm)); tauto).
  assert (Hin : logIndex <= last_index r).
  { destruct Hor as [|Hne]; [done |]. destruct (decide (logIndex <= last_index r)); [done |].
    rewrite term_at_out in Heq by (done || lia). simpl in Heq. congruence. }
  destruct (agreement_bounds r logIndex es Hp Hok Hin) as [Hle _]. unfold zlen in *.
  destruct (decide (n < Z.of_nat (length es) /\ logIndex + 1 + n <= commitIndex r)) as [[Hn Hc] | Hn].
  { apply maybeAppend_conflict; try done. lia. }
  destruct (maybeAppend_accept r logIndex logTerm leaderCommit es) as (r' & Hr & Hok' & Hv & Hb & Ha & Hc);
    try done; [lia |].
  exists r'. split_and!; done.
Qed.

(** Whatever sequence of successful appends, commits, applications and
    hand-overs to storage a log goes through, it stays well formed, its commit
    index never falls and the entries committed before remain, in place, a
    prefix of the entries committed after. *)
Theorem committed_entries_never_change r r' :
  rtc log_step r r' -> log_ok r ->
  log_ok r' /\ commitIndex r <= commitIndex r' /\ committed r `prefix_of` committed r'.
Proof.
  intros Hsteps Hok. pose proof (extends_steps r r' Hsteps Hok) as He.
  split_and!; [apply He | apply He | by apply extends_committed].
Qed.

(** Moving a prefix of the unstable tail into the storage ([Append], then
    [stableTo]) is invisible: the last index, the entries to apply next, the
    term of every index and every slice are the same, while the storage now
    ends with exactly that run and only the rest of the tail is unstable. *)
Theorem persist_invisible r es more :
  log_ok r -> es <> [] -> uEntries (lUnstable r) = es ++ more ->
  exists r', persist r es = Ret r' /\ log_ok r' /\ unstableEntries r' = more
    /\ st_log (lStorage r') = stable_part r ++ es
    /\ lastIndex r' = lastIndex r /\ nextEntries r' = nextEntries r
    /\ (forall i, 0 <= i -> log_term r' i = log_term r i)
    /\ (forall lo hi, base r < lo <= hi -> hi <= last_index r + 1 -> slice r' lo hi = slice r lo hi).
Proof.
  intros Hok Hne Hes.
  destruct (persist_spec r es more) as (r' & Hp & Hok' & Hv & Hb & Hm & _ & Hc & Ha); try done.
  destruct (persist_storage r es r' Hok Hne) as [Hlog Hbt]; [by rewrite Hes; eexists | done |].
  exists r'. split_and!; try done.
  - rewrite !lastIndex_spec by done. unfold last_index. congruence.
  - rewrite !nextEntries_spec by done. unfold pos. congruence.
  - intros i Hi. by apply log_term_view.
  - intros lo hi Hlo Hhi. rewrite (slice_spec r), (slice_spec r') by (done || rewrite ?Hb; unfold last_index in *; rewrite ?Hv, ?Hb; done).
    unfold pos. congruence.
Qed.

End Results.


(** ** A concrete log: one entry stored, two in memory, one committed. *)
Definition sample_entry (t i : Z) : Entry := mkEntry t i EntryNormal [].
Definition sample_log : raftLog MemoryStorage :=
  mkRaftLog (mkMemoryStorage emptyHardState [zero_entry; sample_entry 1 1])
    (mkUnstable [sample_entry 1 2; sample_entry 2 3] 2) 1 0.

Lemma contiguous_check i es :
  bool_decide (eIndex <$> es = seqZ i (zlen es)) = true -> contiguous i es.
Proof.
  intros H%bool_decide_eq_true_1 k e He.
  assert (Hk : (eIndex <$> es) !! k = Some (eIndex e)) by (by rewrite list_lookup_fmap, He).
  rewrite H in Hk. apply lookup_seqZ in Hk. lia.
Qed.

Lemma sample_log_ok : log_ok sample_log.
Proof.
  constructor.
  - exists zero_entry, [sample_entry 1 1]. split_and!; [done | by apply contiguous_check | done | done].
  - change (0 < 2 <= 0 + 1 + 1). lia.
  - by apply contiguous_check.
  - done.
  - change (2 + 2 <= 2 ^ 63 - 1). lia.
  - by repeat constructor.
  - change (0 <= 0 <= 1 /\ 1 <= 0 + 3). lia.
Qed.

Lemma sample_payload_ok : payload_ok sample_log 2 [sample_entry 3 3].
Proof.
  constructor; [by apply contiguous_check | by repeat constructor | |].
  - change (0 <= 2). lia.
  - change (2 + 1 + 1 <= 2 ^ 63 - 1). lia.
Qed.

Lemma maybeAppend_correct_witness :
  exists r', maybeAppend sample_log 2 1 2 [sample_entry 3 3] = Ret (r', Some 3) /\ commitIndex r' = 2.
Proof.
  assert (Hor : 2 <= last_index sample_log \/ 1 <> 0) by (right; lia).
  destruct (maybeAppend_correct sample_log 2 1 2 [sample_entry 3 3] sample_log_ok sample_payload_ok Hor)
    as (r' & Hr & _ & _ & _ & _ & Hc).
  exists r'. split; [exact Hr | exact Hc].
Defined.

Lemma committed_entries_never_change_witness :
  exists r', maybeAppend sample_log 2 1 2 [sample_entry 3 3] = Ret (r', Some 3)
    /\ committed sample_log `prefix_of` committed r'.
Proof.
  eexists. split; [vm_compute; reflexivity |].
  eapply committed_entries_never_change; [| exact sample_log_ok]. apply rtc_once.
  eapply (LFollow sample_log 2 1 2 [sample_entry 3 3] _ (Some 3));
    [exact sample_payload_ok | right; done | vm_compute; reflexivity].
Defined.

Lemma persist_invisible_witness :
  exists r', persist sample_log [sample_entry 1 2] = Ret r' /\ nextEntries r' = nextEntries sample_log.
Proof.
  destruct (persist_invisible sample_log [sample_entry 1 2] [sample_entry 2 3])
    as (r' & Hp & _ & _ & _ & _ & Hn & _); [exact sample_log_ok | done | done |].
  exists r'. split; [exact Hp | exact Hn].
Defined.
