(* ===== verification/RaftCore.v ===== *)
(** * RaftCore
    The Raft state machine: [apps/raft_demo/raft/raft.go], [follower.go],
    [candidate.go], [leader.go] and [read.go].

    A method with a pointer receiver is a function from the state before to the
    state after. The function values [r.step] and [r.tick] are the names of the
    methods they hold. The iteration order of [r.prs] is the class [MapOrder]
    of the prelude, [rand.Intn] the state's list [rng] of coming draws. *)
From S2P Require Import Prelude RaftTypes RaftStorage RaftLog.

Inductive stepFunc := StepFollower | StepCandidate | StepLeader.
Inductive tickFunc := TickElection | TickHeartbeat.

Record Config (S : Type) := mkConfig {
  cID : Z;
  cPeers : list Z;
  cStorage : option S;
  cApplied : Z;
  cPreVote : bool;
  cElectionTick : Z;
  cHeartbeatTick : Z;
}.
Arguments mkConfig {S}.
Arguments cID {S}.
Arguments cPeers {S}.
Arguments cStorage {S}.
Arguments cApplied {S}.
Arguments cPreVote {S}.
Arguments cElectionTick {S}.
Arguments cHeartbeatTick {S}.

Record raft (S : Type) := mkRaft {
  rId : Z;
  rTerm : Z;
  readStates : list ReadState;
  rLog : raftLog S;
  prs : gmap Z Progress;
  rState : StateType;
  votes : gmap Z bool;
  msgs : list Message;
  lead : Z;
  pendingConf : bool;
  rReadOnly : readOnly;
  preVote : bool;
  rTick : tickFunc;
  rStep : stepFunc;
  rVote : Z;
  checkQuorum : bool;
  electionTimeout : Z;
  randomizedElectionTimeout : Z;
  electionElapsed : Z;
  heartbeatTimeout : Z;
  heartbeatElapsed : Z;
  rng : list Z;
}.
Arguments mkRaft {S}.
Arguments rId {S}.
Arguments rTerm {S}.
Arguments readStates {S}.
Arguments rLog {S}.
Arguments prs {S}.
Arguments rState {S}.
Arguments votes {S}.
Arguments msgs {S}.
Arguments lead {S}.
Arguments pendingConf {S}.
Arguments rReadOnly {S}.
Arguments preVote {S}.
Arguments rTick {S}.
Arguments rStep {S}.
Arguments rVote {S}.
Arguments checkQuorum {S}.
Arguments electionTimeout {S}.
Arguments randomizedElectionTimeout {S}.
Arguments electionElapsed {S}.
Arguments heartbeatTimeout {S}.
Arguments heartbeatElapsed {S}.
Arguments rng {S}.
#[export] Instance raft_eta {S} : Eta (raft S) := fun r =>
  mkRaft (rId r) (rTerm r) (readStates r) (rLog r) (prs r) (rState r) (votes r) (msgs r)
    (lead r) (pendingConf r) (rReadOnly r) (preVote r) (rTick r) (rStep r) (rVote r)
    (checkQuorum r) (electionTimeout r) (randomizedElectionTimeout r) (electionElapsed r)
    (heartbeatTimeout r) (heartbeatElapsed r) (rng r).

(** ** read.go *)

Definition newReadOnly : readOnly := mkReadOnly ∅ [].

Definition addRequest (ro : readOnly) (ctx : bytes) (readIndex : Z) (m : Message) : readOnly * bool :=
  match pendingReadIndex ro !! ctx with
  | Some _ => (ro, false)
  | None =>
      (mkReadOnly (<[ctx := mkReadIndexStatus m readIndex ∅]> (pendingReadIndex ro))
         (readIndexQueue ro ++ [ctx]), true)
  end.

Definition recvAck (ro : readOnly) (ctx : bytes) (from : Z) : readOnly * gset Z :=
  match pendingReadIndex ro !! ctx with
  | None => (ro, ∅)
  | Some rs =>
      let rs := rs <| risAcks := {[ from ]} ∪ risAcks rs |> in
      (ro <| pendingReadIndex := <[ctx := rs]> (pendingReadIndex ro) |>, risAcks rs)
  end.

(** The scan of the queue: the statuses up to and including [ctx], and what
    remains of the queue; [None] when [ctx] is not queued. *)
Fixpoint advance_scan (pending : gmap bytes readIndexStatus) (ctx : bytes) (queue : list bytes)
    : outcome (option (list readIndexStatus * list bytes)) :=
  match queue with
  | [] => Ret None
  | queued :: rest =>
      match pending !! queued with
      | None => Panic "cannot find corresponding read state from pending map"
      | Some rs =>
          if decide (queued = ctx) then Ret (Some ([rs], rest))
          else
            let! found := advance_scan pending ctx rest in
            Ret (match found with
                 | Some (rss, rest) => Some (rs :: rss, rest)
                 | None => None
                 end)
      end
  end.

Definition request_key (rs : readIndexStatus) : outcome bytes :=
  let! e := index (mEntries (risReq rs)) 0 in Ret (eData e).

Definition advance (ro : readOnly) (ctx : bytes) : outcome (readOnly * list readIndexStatus) :=
  let! found := advance_scan (pendingReadIndex ro) ctx (readIndexQueue ro) in
  match found with
  | None => Ret (ro, [])
  | Some (rss, rest) =>
      let! pending :=
        ofold (fun rs pending => let! k := request_key rs in Ret (delete k pending))
          rss (pendingReadIndex ro) in
      Ret (mkReadOnly pending rest, rss)
  end.

Section Core.
  Context {S : Type} `{Storage S} `{MapOrder}.
  Implicit Types r : raft S.

(** ** raft.go: small steps *)

Definition resetRandomizedElectionTimeout r : raft S :=
  let n := if decide (electionTimeout r <= 0) then 1 else electionTimeout r in
  let '(v, rest) := intn n (rng r) in
  r <| randomizedElectionTimeout := i32 (n + i32 v) |> <| rng := rest |>.

Definition reset r (term : Z) : raft S :=
  let r := if decide (rTerm r <> term) then r <| rTerm := term |> <| rVote := NoneID |> else r in
  let r := r <| lead := NoneID |> <| electionElapsed := 0 |> <| heartbeatElapsed := 0 |>
             <| votes := ∅ |> <| pendingConf := false |> in
  resetRandomizedElectionTimeout r.

Definition softState r : SoftState := mkSoftState (lead r) (rState r).

Definition hardState r : HardState := mkHardState (rTerm r) (rVote r) (commitIndex (rLog r)).

Definition quorum r : Z := Z.shiftr (Z.of_nat (size (prs r))) 1 + 1.

Definition promotable r (id : Z) : bool := bool_decide (is_Some (prs r !! id)).

Definition pastElectionTimeout r : bool :=
  bool_decide (randomizedElectionTimeout r <= electionElapsed r).

Definition poll r (id : Z) (v : bool) : raft S * Z :=
  let vs := match votes r !! id with Some _ => votes r | None => <[id := v]> (votes r) end in
  (r <| votes := vs |>, Z.of_nat (size (filter (fun p => p.2 = true) vs))).

Definition send r (m : Message) : raft S :=
  let m := if decide (mFrom m = NoneID) then m <| mFrom := rId r |> else m in
  let m := if decide (mType m <> MsgProp /\ mType m <> MsgReadIndex) then m <| mTerm := rTerm r |> else m in
  r <| msgs := msgs r ++ [m] |>.

Definition nodes r : list Z := merge_sort Z.le (range_keys (prs r)).

(** ** follower.go *)

Definition becomeFollower r (term leader : Z) : raft S :=
  reset r term <| rStep := StepFollower |> <| rTick := TickElection |>
    <| lead := leader |> <| rState := StateFollower |>.

Definition handleAppendEntries r (m : Message) : outcome (raft S) :=
  let! (log, res) := maybeAppend (rLog r) (mLogIndex m) (mLogTerm m) (mCommitIndex m) (mEntries m) in
  let r := r <| rLog := log |> in
  match res with
  | Some mLastIndex =>
      Ret (send r (message MsgAppResp <| mTo := mFrom m |> <| mLogIndex := mLastIndex |>))
  | None =>
      let! last := lastIndex (rLog r) in
      Ret (send r (message MsgAppResp <| mTo := mFrom m |> <| mLogIndex := mLogIndex m |>
                     <| mReject := true |> <| mRejectHint := last |>))
  end.

Definition handleHeartbeat r (m : Message) : outcome (raft S) :=
  let! last := lastIndex (rLog r) in
  let! log := commitTo (rLog r) (Z.min (mCommitIndex m) last) in
  Ret (send (r <| rLog := log |>)
         (message MsgHeartbeatResp <| mTo := mFrom m |> <| mContext := mContext m |>)).

Definition stepFollower r (m : Message) : outcome (raft S) :=
  match mType m with
  | MsgProp | MsgReadIndex =>
      if decide (lead r = NoneID) then Ret r else Ret (send r (m <| mTo := lead r |>))
  | MsgApp =>
      handleAppendEntries (r <| electionElapsed := 0 |> <| lead := mFrom m |>) m
  | MsgHeartbeat =>
      handleHeartbeat (r <| electionElapsed := 0 |> <| lead := mFrom m |>) m
  | MsgReadIndexResp =>
      let! e := index (mEntries m) 0 in
      Ret (r <| readStates := readStates r ++ [mkReadState (mLogIndex m) (eData e)] |>)
  | _ => Ret r
  end.

(** ** raft.go: the log of a leader *)

Definition maybeCommit r : outcome (raft S * bool) :=
  let matches := omap (fun id => pMatch <$> prs r !! id) (range_keys (prs r)) in
  let! mid := index (sort_desc matches) (quorum r - 1) in
  let! (log, b) := log_maybeCommit (rLog r) mid (rTerm r) in
  Ret (r <| rLog := log |>, b).

(** The entries as [appendEntry] stamps them. *)
Fixpoint stamp (term next : Z) (es : list Entry) : list Entry :=
  match es with
  | [] => []
  | e :: rest => e <| eTerm := term |> <| eIndex := next |> :: stamp term (u64 (next + 1)) rest
  end.

Definition appendEntry r (es : list Entry) : outcome (raft S) :=
  let! last := lastIndex (rLog r) in
  let es := stamp (rTerm r) (u64 (last + 1)) es in
  let! (log, _) := log_append (rLog r) es in
  let r := r <| rLog := log |> in
  match prs r !! rId r with
  | None => Panic nil_deref
  | Some pr =>
      let! last := lastIndex (rLog r) in
      let r := r <| prs := <[rId r := (maybeUpdate pr last).2]> (prs r) |> in
      let! (r, _) := maybeCommit r in
      Ret r
  end.

(** ** leader.go: outgoing messages *)

Definition sendHeartbeat (ctx : bytes) (id : Z) r : outcome (raft S) :=
  match prs r !! id with
  | None => Panic nil_deref
  | Some pr =>
      let commit := Z.min (commitIndex (rLog r)) (pMatch pr) in
      Ret (send r (message MsgHeartbeat <| mTo := id |> <| mCommitIndex := commit |> <| mContext := ctx |>))
  end.

Definition broadcastHeartbeatWithCtx r (ctx : bytes) : outcome (raft S) :=
  ofold (fun id r => if decide (id = rId r) then Ret r else sendHeartbeat ctx id r)
    (range_keys (prs r)) r.

Definition broadcastHeartbeat r : outcome (raft S) := broadcastHeartbeatWithCtx r [].

Definition sendAppend (to : Z) r : outcome (raft S) :=
  match prs r !! to with
  | None => Panic nil_deref
  | Some pr =>
      let prev := u64 (pNext pr - 1) in
      let! term := log_term (rLog r) prev in
      let term := match term with Ok t => t | Err _ => 0 end in
      let! es := entries (rLog r) (pNext pr) in
      Ret (send r (message MsgApp <| mTo := to |> <| mLogTerm := term |> <| mLogIndex := prev |>
                     <| mEntries := es |> <| mCommitIndex := commitIndex (rLog r) |>))
  end.

Definition broadcastAppend r : outcome (raft S) :=
  ofold (fun id r => if decide (id = rId r) then Ret r else sendAppend id r)
    (range_keys (prs r)) r.

(** ** leader.go *)

Definition becomeLeader r : outcome (raft S) :=
  if decide (rState r = StateFollower) then Panic "invalid transition [follower -> leader]"
  else
    let r := reset (r <| rStep := StepLeader |>) (rTerm r) in
    let r := r <| rTick := TickHeartbeat |> <| lead := rId r |> <| rState := StateLeader |> in
    let! last := lastIndex (rLog r) in
    let fresh := zero_progress <| pNext := u64 (last + 1) |> in
    let r := r <| prs := map_imap (fun id pr => Some (if decide (id = rId r) then pr else fresh)) (prs r) |> in
    appendEntry r [zero_entry].

(** The proposal's entries after at most one configuration change is kept, and
    whether one is pending. *)
Fixpoint demote (pending : bool) (es : list Entry) : bool * list Entry :=
  match es with
  | [] => (pending, [])
  | e :: rest =>
      if decide (eType e = EntryConfChange) then
        let '(p, rest') := demote true rest in
        (p, (if pending then zero_entry <| eType := EntryNormal |> else e) :: rest')
      else let '(p, rest') := demote pending rest in (p, e :: rest')
  end.

Definition leader_propose r (m : Message) : outcome (raft S) :=
  if decide (zlen (mEntries m) = 0) then Panic "propose entries can not be empty"
  else
    match prs r !! rId r with
    | None => Ret r
    | Some _ =>
        let '(pending, es) := demote (pendingConf r) (mEntries m) in
        let! r := appendEntry (r <| pendingConf := pending |>) es in
        broadcastAppend r
    end.

Definition leader_readIndex r (m : Message) : outcome (raft S) :=
  match prs r !! rId r with
  | None => Ret r
  | Some _ =>
      if decide (1 < Z.of_nat (size (prs r))) then
        let! t := log_term (rLog r) (commitIndex (rLog r)) in
        let! t := zeroTermOnErrCompacted t in
        if decide (t <> rTerm r) then Ret r
        else
          let! e := index (mEntries m) 0 in
          let '(ro, added) := addRequest (rReadOnly r) (eData e) (commitIndex (rLog r)) m in
          let r := r <| rReadOnly := ro |> in
          if added : bool then broadcastHeartbeatWithCtx r (eData e) else Ret r
      else
        let! e := index (mEntries m) 0 in
        Ret (r <| readStates := readStates r ++ [mkReadState (commitIndex (rLog r)) (eData e)] |>)
  end.

Definition leader_appResp r (pr : Progress) (m : Message) : outcome (raft S) :=
  if mReject m then
    let '(ok, pr) := mayDecreaseTo pr (mLogIndex m) (mRejectHint m) in
    let r := r <| prs := <[mFrom m := pr]> (prs r) |> in
    if ok : bool then sendAppend (mFrom m) r else Ret r
  else
    let '(updated, pr) := maybeUpdate pr (mLogIndex m) in
    let r := r <| prs := <[mFrom m := pr]> (prs r) |> in
    if updated : bool then
      let! (r, committed) := maybeCommit r in
      if committed : bool then broadcastAppend r else Ret r
    else Ret r.

(** One confirmed read: to the local client, or back to the node that asked. *)
Definition deliver_read (rs : readIndexStatus) r : outcome (raft S) :=
  let req := risReq rs in
  if decide (mFrom req = NoneID \/ mFrom req = rId r) then
    let! e := index (mEntries req) 0 in
    Ret (r <| readStates := readStates r ++ [mkReadState (risIndex rs) (eData e)] |>)
  else
    Ret (send r (message MsgReadIndexResp <| mTo := mFrom req |> <| mLogIndex := risIndex rs |>
                   <| mEntries := mEntries req |>)).

Definition leader_heartbeatResp r (m : Message) : outcome (raft S) :=
  if decide (zlen (readIndexQueue (rReadOnly r)) = 0) then Ret r
  else
    let '(ro, acks) := recvAck (rReadOnly r) (mContext m) (mFrom m) in
    let r := r <| rReadOnly := ro |> in
    if decide (Z.of_nat (size acks) < quorum r) then Ret r
    else
      let! (ro, rss) := advance (rReadOnly r) (mContext m) in
      ofold deliver_read rss (r <| rReadOnly := ro |>).

Definition stepLeader r (m : Message) : outcome (raft S) :=
  match mType m with
  | MsgBeat => broadcastHeartbeat r
  | MsgProp => leader_propose r m
  | MsgReadIndex => leader_readIndex r m
  | _ =>
      match prs r !! mFrom m with
      | None => Ret r
      | Some pr =>
          match mType m with
          | MsgAppResp => leader_appResp r pr m
          | MsgHeartbeatResp => leader_heartbeatResp r m
          | _ => Ret r
          end
      end
  end.

(** ** candidate.go and the campaign *)

Definition becomePreCandidate r : outcome (raft S) :=
  if decide (rState r = StateLeader) then Panic "invalid transition leader -> pre-candidate"
  else Ret (r <| rStep := StepCandidate |> <| rTick := TickElection |> <| votes := ∅ |>
              <| rState := StatePreCandidate |>).

Definition becomeCandidate r : outcome (raft S) :=
  if decide (rState r = StateLeader) then Panic "invalid transition leader -> candidate"
  else
    let r := reset (r <| rStep := StepCandidate |>) (u64 (rTerm r + 1)) in
    Ret (r <| rTick := TickElection |> <| rVote := rId r |> <| rState := StateCandidate |>).

Definition sendVote (term : Z) (t : MessageType) (id : Z) r : outcome (raft S) :=
  let! lt := lastTerm (rLog r) in
  let! li := lastIndex (rLog r) in
  Ret (send r (message t <| mTerm := term |> <| mTo := id |> <| mLogTerm := lt |> <| mLogIndex := li |>)).

Definition requestVotes (term : Z) (t : MessageType) r : outcome (raft S) :=
  ofold (fun id r => if decide (id = rId r) then Ret r else sendVote term t id r)
    (range_keys (prs r)) r.

(** [campaign] calls itself once at most, for the election after a pre-election
    that is already won: two levels are enough ([campaign_eq]). *)
Definition campaign_body (again : CampaignType -> raft S -> outcome (raft S)) (typ : CampaignType) r
    : outcome (raft S) :=
  let! (r, term, msgType) :=
    match typ with
    | campaignPreElection =>
        let! r := becomePreCandidate r in Ret (r, u64 (rTerm r + 1), MsgPreVote)
    | campaignElection =>
        let! r := becomeCandidate r in Ret (r, rTerm r, MsgVote)
    end in
  let '(r, granted) := poll r (rId r) true in
  if decide (quorum r = granted) then
    match typ with
    | campaignPreElection => again campaignElection r
    | campaignElection => becomeLeader r
    end
  else requestVotes term msgType r.

Fixpoint campaign_fuel (n : nat) (typ : CampaignType) r : outcome (raft S) :=
  match n with
  | O => Panic "out of fuel"
  | Datatypes.S n => campaign_body (campaign_fuel n) typ r
  end.

Definition campaign (typ : CampaignType) r : outcome (raft S) := campaign_fuel 2 typ r.

Lemma campaign_eq typ r : campaign typ r = campaign_body campaign typ r.
Proof. by destruct typ. Qed.

Definition voteRespType r : MessageType :=
  if decide (rState r = StatePreCandidate) then MsgPreVoteResp else MsgVoteResp.

Definition candidate_tally r (m : Message) : outcome (raft S) :=
  let '(r, granted) := poll r (mFrom m) (negb (mReject m)) in
  if decide (quorum r = granted) then
    if decide (rState r = StatePreCandidate) then campaign campaignElection r
    else let! r := becomeLeader r in broadcastAppend r
  else if decide (quorum r = Z.of_nat (size (votes r)) - granted) then
    Ret (becomeFollower r (rTerm r) NoneID)
  else Ret r.

Definition stepCandidate r (m : Message) : outcome (raft S) :=
  if decide (mType m = MsgProp) then Ret r
  else if decide (mType m = MsgApp) then
    handleAppendEntries (becomeFollower r (rTerm r) (mFrom m)) m
  else if decide (mType m = MsgHeartbeat) then
    handleHeartbeat (becomeFollower r (mTerm m) (mFrom m)) m
  else if decide (mType m = voteRespType r) then candidate_tally r m
  else Ret r.

(** ** Step *)

(** The call [r.step(r, m)] of the installed handler. *)
Definition call_step r (m : Message) : outcome (raft S) :=
  match rStep r with
  | StepFollower => stepFollower r m
  | StepCandidate => stepCandidate r m
  | StepLeader => stepLeader r m
  end.

Definition step_hup r : outcome (raft S) :=
  if decide (rState r = StateLeader) then Ret r
  else if negb (promotable r (rId r)) then Ret r
  else
    let! es := slice (rLog r) (u64 (applyIndex (rLog r) + 1)) (u64 (commitIndex (rLog r) + 1)) in
    if decide (0 < numOfPendingConf es) then Ret r
    else if preVote r then campaign campaignPreElection r
    else campaign campaignElection r.

Definition step_vote r (m : Message) : outcome (raft S) :=
  let! up := isUpToDate (rLog r) (mLogIndex m) (mLogTerm m) in
  let granted := up && bool_decide (rVote r = NoneID \/ rTerm r < mTerm m \/ mFrom m = rVote r) in
  if granted : bool then
    if decide (mType m = MsgVote) then
      Ret (send (r <| rVote := mFrom m |>) (message MsgVoteResp <| mTo := mFrom m |>))
    else Ret (send r (message MsgPreVoteResp <| mTo := mFrom m |>))
  else if decide (mType m = MsgVote) then
    Ret (send r (message MsgVoteResp <| mTo := mFrom m |> <| mReject := true |>))
  else Ret (send r (message MsgPreVoteResp <| mTo := mFrom m |> <| mReject := true |>)).

(** The second switch of [Step], on the message type. *)
Definition step_dispatch r (m : Message) : outcome (raft S) :=
  match mType m with
  | MsgHup => step_hup r
  | MsgVote | MsgPreVote => step_vote r m
  | _ => call_step r m
  end.

(** The term comparison that opens [Step]: the state to dispatch on, or the
    state to return when the message is stale. *)
Definition step_term r (m : Message) : raft S + raft S :=
  if decide (mTerm m = 0) then inl r
  else if decide (rTerm r < mTerm m) then
    let leader := if decide (mType m = MsgVote \/ mType m = MsgPreVote) then NoneID else mFrom m in
    if decide (mType m <> MsgPreVote /\ (mType m <> MsgPreVoteResp \/ mReject m = true)) then
      inl (becomeFollower r (mTerm m) leader)
    else inl r
  else if decide (mTerm m < rTerm r) then
    if decide (checkQuorum r = true /\ (mType m = MsgHeartbeat \/ mType m = MsgApp)) then
      inr (send r (message MsgAppResp <| mTo := mFrom m |>))
    else inr r
  else inl r.

Definition Step r (m : Message) : outcome (raft S) :=
  match step_term r m with
  | inr r => Ret r
  | inl r => step_dispatch r m
  end.

(** ** Ticks *)

Definition tickElection r : outcome (raft S) :=
  let r := r <| electionElapsed := i32 (electionElapsed r + 1) |> in
  if promotable r (rId r) && pastElectionTimeout r then
    Step (r <| electionElapsed := 0 |>) (message MsgHup <| mFrom := rId r |>)
  else Ret r.

Definition tickHeartbeat r : outcome (raft S) :=
  if decide (rState r <> StateLeader) then Ret r
  else
    let r := r <| heartbeatElapsed := i32 (heartbeatElapsed r + 1) |> in
    if decide (heartbeatTimeout r <= heartbeatElapsed r) then
      Step (r <| heartbeatElapsed := 0 |>) (message MsgBeat <| mFrom := rId r |>)
    else Ret r.

Definition tick r : outcome (raft S) :=
  match rTick r with
  | TickElection => tickElection r
  | TickHeartbeat => tickHeartbeat r
  end.

(** ** Membership *)

Definition addNode r (id : Z) : outcome (raft S) :=
  match prs r !! id with
  | Some _ => Ret r
  | None =>
      let! last := lastIndex (rLog r) in
      Ret (r <| prs := <[id := zero_progress <| pNext := u64 (last + 1) |>]> (prs r) |>)
  end.

Definition removeNode r (id : Z) : raft S :=
  match prs r !! id with
  | None => r
  | Some _ =>
      let r := r <| prs := delete id (prs r) |> in
      if decide (id = rId r) then becomeFollower r (rTerm r) NoneID else r
  end.

Definition applyConfChange r (cc : ConfChange) : outcome (raft S * ConfState) :=
  let! r :=
    (if decide (ccNodeID cc <> NoneID) then
       match ccType cc with
       | ConfChangeAddNode => addNode r (ccNodeID cc)
       | ConfChangeRemoveNode => Ret (removeNode r (ccNodeID cc))
       | ConfChangeUpdateNode => addNode r (ccNodeID cc)
       end
     else Ret r) in
  let r := r <| pendingConf := false |> in
  Ret (r, mkConfState (nodes r)).

(** ** Construction *)

Definition newRaft (conf : Config S) (draws : list Z) : outcome (raft S) :=
  match cStorage conf with
  | None => Panic nil_deref
  | Some st =>
      let! (hs, cs) := must (st_InitialState st) in
      let peers := match cPeers conf with [] => csNodes cs | ps => ps end in
      let! log := newRaftLog (Some st) in
      let prs := foldl (fun prs peer => <[peer := zero_progress <| pNext := 1 |>]> prs) ∅ peers in
      let! log := appliedTo log (cApplied conf) in
      let log := if decide (commitIndex log < hsCommitIndex hs)
                 then log <| commitIndex := hsCommitIndex hs |> else log in
      let term := if decide (hsTerm hs = 0) then 1 else hsTerm hs in
      let r := mkRaft (cID conf) 0 [] log prs StateFollower ∅ [] NoneID false newReadOnly
                 (cPreVote conf) TickElection StepFollower NoneID false
                 (cElectionTick conf) 0 0 (cHeartbeatTick conf) 0 draws in
      Ret (becomeFollower r term NoneID)
  end.

End Core.
