(* ===== verification/RaftNode.v ===== *)
(** * RaftNode
    The driver around the state machine: [Ready] batches
    ([apps/raft_demo/raft/ready.go]) and the loop of [Node.run]
    ([node.go]) as a step function on events, one per case of its [select]. *)
From S2P Require Import Prelude RaftTypes RaftStorage RaftLog RaftCore.

Section Node.
  Context {S : Type} `{Storage S} `{MapOrder}.
  Implicit Types r : raft S.

(** ** ready.go *)

Definition newReady r (preSoft : SoftState) (preHard : HardState) : outcome Ready :=
  let! next := nextEntries (rLog r) in
  let soft := softState r in
  let hard := hardState r in
  Ret {| rdSoftState := if SoftState_equal soft preSoft then None else Some soft;
         rdHardState := if isHardStateEqual hard preHard then emptyHardState else hard;
         rdReadStates := if decide (zlen (readStates r) <> 0) then readStates r else [];
         rdEntries := unstableEntries (rLog r);
         rdCommittedEntries := next;
         rdMessage := msgs r |}.

Definition containsUpdates (rd : Ready) : bool :=
  match rdSoftState rd with Some _ => true | None => false end
  || negb (IsEmptyHardState (rdHardState rd))
  || bool_decide (0 < zlen (rdEntries rd)) || bool_decide (0 < zlen (rdCommittedEntries rd))
  || bool_decide (0 < zlen (rdMessage rd)) || bool_decide (0 < zlen (rdReadStates rd)).

Definition zero_ready : Ready := mkReady None emptyHardState [] [] [] [].

(** ** node.go: the loop's variables *)

Record nodeLoop := mkNodeLoop {
  nRaft : raft S;
  (** [readyChan != nil] and [advanceChan != nil]. *)
  readyOpen : bool;
  advanceOpen : bool;
  nReady : Ready;
  prevSoft : SoftState;
  prevHard : HardState;
  prevLastUnstableI : Z;
  prevLastUnstableT : Z;
  hasPrevLastUnstableI : bool;
}.
#[export] Instance nodeLoop_eta : Eta nodeLoop := fun n =>
  mkNodeLoop (nRaft n) (readyOpen n) (advanceOpen n) (nReady n) (prevSoft n) (prevHard n)
    (prevLastUnstableI n) (prevLastUnstableT n) (hasPrevLastUnstableI n).

(** The variables [run] starts with. *)
Definition initLoop r : nodeLoop :=
  mkNodeLoop r false false zero_ready (softState r) emptyHardState 0 0 false.

Definition StartNode (conf : Config S) (peers : list Peer) (draws : list Z) : outcome nodeLoop :=
  let! r := newRaft conf draws in
  let! r := ofold (fun peer r => addNode r (peerID peer)) peers r in
  let! last := lastIndex (rLog r) in
  Ret (initLoop (r <| rLog := rLog r <| commitIndex := last |> |>)).

(** What the loop can be woken by, and what it hands out. *)
Inductive event :=
| EvProc (m : Message)
| EvRecv (m : Message)
| EvConf (cc : ConfChange)
| EvTick
| EvReady
| EvAdvance.

Inductive output :=
| OutNone
| OutConfState (cs : ConfState)
| OutReady (rd : Ready).

(** The head of the loop: is there an update to offer? *)
Definition refresh (n : nodeLoop) : outcome nodeLoop :=
  if advanceOpen n then Ret (n <| readyOpen := false |>)
  else
    let! rd := newReady (nRaft n) (prevSoft n) (prevHard n) in
    Ret (n <| nReady := rd |> <| readyOpen := containsUpdates rd |>).

(** The application took the [Ready]. *)
Definition on_ready (n : nodeLoop) : nodeLoop :=
  let rd := nReady n in
  let n := match rdSoftState rd with Some s => n <| prevSoft := s |> | None => n end in
  let n := if IsEmptyHardState (rdHardState rd) then n else n <| prevHard := rdHardState rd |> in
  let n := match last (rdEntries rd) with
           | Some e => n <| prevLastUnstableI := eIndex e |> <| prevLastUnstableT := eTerm e |>
                         <| hasPrevLastUnstableI := true |>
           | None => n
           end in
  n <| nRaft := nRaft n <| msgs := [] |> <| readStates := [] |> |> <| advanceOpen := true |>.

(** [panic(err)] when the storage call failed. *)
Definition stored (p : S * option error) : outcome S :=
  match p.2 with
  | Some e => Panic (error_string e)
  | None => Ret p.1
  end.

(** The application called [Advance]: persist, mark stable and applied. *)
Definition on_advance (n : nodeLoop) : outcome nodeLoop :=
  let log := rLog (nRaft n) in
  let! log :=
    (if IsEmptyHardState (prevHard n) then Ret log
     else
       let! p := st_SetHardState (lStorage log) (prevHard n) in
       let! st := stored p in
       Ret (log <| lStorage := st |>)) in
  let! log :=
    (if decide (hsCommitIndex (prevHard n) <> 0) then appliedTo log (hsCommitIndex (prevHard n))
     else Ret log) in
  let! (log, has) :=
    (if hasPrevLastUnstableI n then
       let! p := st_Append (lStorage log) (rdEntries (nReady n)) in
       let! st := stored p in
       let! log := stableTo (log <| lStorage := st |>) (prevLastUnstableI n) (prevLastUnstableT n) in
       Ret (log, false)
     else Ret (log, false)) in
  Ret (n <| nRaft := nRaft n <| rLog := log |> |> <| hasPrevLastUnstableI := has |>
         <| advanceOpen := false |>).

(** One turn of the loop; [None] when the case of the event is not ready. *)
Definition run_step (n : nodeLoop) (ev : event) : outcome (option (nodeLoop * output)) :=
  let! n := refresh n in
  let r := nRaft n in
  match ev with
  | EvProc m =>
      let! r := Step r (m <| mFrom := rId r |>) in
      Ret (Some (n <| nRaft := r |>, OutNone))
  | EvRecv m =>
      let! r := Step r m in
      Ret (Some (n <| nRaft := r |>, OutNone))
  | EvConf cc =>
      let! (r, cs) := applyConfChange r cc in
      Ret (Some (n <| nRaft := r |>, OutConfState cs))
  | EvTick =>
      let! r := tick r in
      Ret (Some (n <| nRaft := r |>, OutNone))
  | EvReady =>
      if readyOpen n then Ret (Some (on_ready n, OutReady (nReady n))) else Ret None
  | EvAdvance =>
      if advanceOpen n then let! n := on_advance n in Ret (Some (n, OutNone)) else Ret None
  end.

(** ** The public methods: the message each one feeds to the loop *)

Definition node_step (m : Message) : event :=
  if decide (mType m = MsgProp) then EvProc m else EvRecv m.

Definition Campaign : event := node_step (message MsgHup).
Definition Propose (data : bytes) : event :=
  node_step (message MsgProp <| mEntries := [zero_entry <| eData := data |>] |>).
(** [data] is the JSON encoding of the change. *)
Definition ProposeConfChange (data : bytes) : event :=
  node_step (message MsgProp <| mEntries := [zero_entry <| eType := EntryConfChange |> <| eData := data |>] |>).
Definition ReadIndex (rctx : bytes) : event :=
  node_step (message MsgReadIndex <| mEntries := [zero_entry <| eData := rctx |>] |>).
Definition Tick : event := EvTick.
Definition ApplyConfChange (cc : ConfChange) : event := EvConf cc.
Definition Advance : event := EvAdvance.

End Node.
Arguments nodeLoop : clear implicits.
