(* ===== verification/RaftElection.v ===== *)
(** * RaftElection
    Leader election across a cluster: nodes that run the loop of [RaftNode],
    joined by a network that may delay, reorder, duplicate and lose messages.
    What one call of [Step] may do to a node's term, vote, role and vote
    count, and from it election safety. *)
From S2P Require Import Prelude RaftTypes RaftStorage RaftLog RaftCore RaftNode.

(** A granted vote. *)
Definition grants (g : Message) : Prop := mType g = MsgVoteResp /\ mReject g = false.

Section Frame.
  Context {S : Type} `{Storage S} `{MapOrder}.
  Implicit Types r : raft S.

(** ** What leaves the election state alone *)

(** The messages a node passes on as they came. *)
Definition forwarded (g : Message) : Prop := mType g = MsgProp \/ mType g = MsgReadIndex.

(** A message that grants no vote, asks for one only in its sender's name, and
    carries the sender's term unless it is a client's. *)
Definition plain (id t : Z) (g : Message) : Prop :=
  ~ grants g /\ (mType g = MsgVote -> mFrom g = id)
  /\ ((mTerm g = t /\ ~ forwarded g) \/ (mTerm g = 0 /\ forwarded g)).

Record quiet r r' : Prop := {
  q_id : rId r' = rId r;
  q_term : rTerm r' = rTerm r;
  q_vote : rVote r' = rVote r;
  q_state : rState r' = rState r;
  q_step : rStep r' = rStep r;
  q_votes : votes r' = votes r;
  q_members : dom (prs r') = dom (prs r);
  q_msgs : exists out, msgs r' = msgs r ++ out /\ Forall (plain (rId r) (rTerm r)) out;
}.

#[export] Instance quiet_preorder : PreOrder quiet.
Proof.
  split.
  - intros r. constructor; try done. exists []. by rewrite app_nil_r.
  - intros r1 r2 r3 [] [].
    destruct q_msgs0 as (o1 & Ho1 & Hp1), q_msgs1 as (o2 & Ho2 & Hp2).
    constructor; try congruence. exists (o1 ++ o2).
    rewrite Ho2, Ho1, app_assoc. split; [done |]. apply Forall_app. split; [done |].
    by rewrite <- q_id0, <- q_term0.
Qed.

Lemma quiet_fields r r' :
  rId r' = rId r -> rTerm r' = rTerm r -> rVote r' = rVote r -> rState r' = rState r ->
  rStep r' = rStep r -> votes r' = votes r -> dom (prs r') = dom (prs r) -> msgs r' = msgs r ->
  quiet r r'.
Proof. intros. constructor; try done. exists []. by rewrite app_nil_r. Qed.

Lemma send_plain r m :
  (mType m = MsgVote -> mFrom m = NoneID) -> mType m <> MsgVoteResp \/ mReject m = true ->
  (forwarded m -> mTerm m = 0) -> quiet r (send r m).
Proof.
  intros Hf Hg Hfw. constructor; try done. unfold send. eexists. split; [done |].
  apply Forall_singleton. unfold plain, grants, forwarded in *.
  split; [repeat case_decide; simpl; intros [? ?]; destruct Hg; congruence |].
  split; [intros Hv; repeat case_decide; simpl in *; try done; destruct Hf; done |].
  destruct (decide (mType m = MsgProp \/ mType m = MsgReadIndex)) as [Hd | Hd].
  - right. repeat case_decide; simpl in *; try tauto.
  - left. repeat case_decide; simpl in *; try tauto.
Qed.

Lemma set_log_prs_quiet r log id pr :
  is_Some (prs r !! id) -> quiet r (r <| rLog := log |> <| prs := <[id := pr]> (prs r) |>).
Proof.
  intros Hid. apply quiet_fields; try done. simpl. rewrite dom_insert_L.
  apply elem_of_dom in Hid. set_solver.
Qed.

Lemma set_prs_quiet r id pr : is_Some (prs r !! id) -> quiet r (r <| prs := <[id := pr]> (prs r) |>).
Proof.
  intros Hid. apply quiet_fields; try done. simpl. rewrite dom_insert_L.
  apply elem_of_dom in Hid. set_solver.
Qed.

End Frame.

Ltac quiet_set := apply quiet_fields; simpl; done.

Section Handlers.
  Context {S : Type} `{Storage S} `{MapOrder}.
  Implicit Types r : raft S.

Ltac send_quiet := apply send_plain; simpl; [congruence | left; congruence | intros [? | ?]; simpl in *; congruence].

Lemma handleAppendEntries_quiet r m r' : handleAppendEntries r m = Ret r' -> quiet r r'.
Proof.
  unfold handleAppendEntries. intros Hr. inv_ret. destruct v as [log res].
  destruct res; inv_ret; (etrans; [| send_quiet]); quiet_set.
Qed.

Lemma handleHeartbeat_quiet r m r' : handleHeartbeat r m = Ret r' -> quiet r r'.
Proof.
  unfold handleHeartbeat. intros Hr. inv_ret. etrans; [| send_quiet]. quiet_set.
Qed.

Lemma forward_quiet r m to :
  forwarded m -> mTerm m = 0 -> quiet r (send r (m <| mTo := to |>)).
Proof. intros Hm Ht. apply send_plain; simpl; [| left |]; destruct Hm; congruence. Qed.

Lemma stepFollower_quiet r m r' :
  (forwarded m -> mTerm m = 0) -> stepFollower r m = Ret r' -> quiet r r'.
Proof.
  intros Hfw. unfold stepFollower. destruct (mType m) eqn:Ht; intros Hr; inv_ret; try done; try quiet_set.
  - case_decide; inv_ret; [done |]. apply forward_quiet; unfold forwarded in *; auto.
  - etrans; [| by eapply handleAppendEntries_quiet]. quiet_set.
  - etrans; [| by eapply handleHeartbeat_quiet]. quiet_set.
  - case_decide; inv_ret; [done |]. apply forward_quiet; unfold forwarded in *; auto.
Qed.

Lemma maybeCommit_quiet r r' b : maybeCommit r = Ret (r', b) -> quiet r r'.
Proof. unfold maybeCommit. intros Hr. inv_ret. destruct v0. inv_ret. quiet_set. Qed.

Lemma appendEntry_quiet r es r' : appendEntry r es = Ret r' -> quiet r r'.
Proof.
  unfold appendEntry. intros Hr. inv_ret. destruct v0 as [log i]. simpl in *.
  destruct (prs r !! rId r) eqn:Hpr; [| done]. inv_ret. destruct v1. inv_ret.
  etrans; [| by eapply maybeCommit_quiet].
  apply set_log_prs_quiet. eauto.
Qed.

Lemma sendHeartbeat_quiet ctx id r r' : sendHeartbeat ctx id r = Ret r' -> quiet r r'.
Proof. unfold sendHeartbeat. destruct (_ !! _); intros Hr; inv_ret. send_quiet. Qed.

Lemma sendAppend_quiet to r r' : sendAppend to r = Ret r' -> quiet r r'.
Proof. unfold sendAppend. destruct (_ !! _); intros Hr; inv_ret. send_quiet. Qed.

Lemma sendVote_quiet term t id r r' :
  t = MsgVote \/ t = MsgPreVote -> sendVote term t id r = Ret r' -> quiet r r'.
Proof.
  unfold sendVote. intros Ht Hr; inv_ret. apply send_plain; simpl; [done | left |].
  - destruct Ht; congruence.
  - intros [? | ?]; simpl in *; destruct Ht; congruence.
Qed.

Ltac loop_quiet lem :=
  apply ofold_rel; [apply _ |]; intros ? ? ? _; case_decide; intros ?; inv_ret; [done | by eapply lem].

Lemma broadcastHeartbeat_quiet ctx r r' : broadcastHeartbeatWithCtx r ctx = Ret r' -> quiet r r'.
Proof. loop_quiet sendHeartbeat_quiet. Qed.

Lemma broadcastAppend_quiet r r' : broadcastAppend r = Ret r' -> quiet r r'.
Proof. loop_quiet sendAppend_quiet. Qed.

Lemma requestVotes_quiet term t r r' :
  t = MsgVote \/ t = MsgPreVote -> requestVotes term t r = Ret r' -> quiet r r'.
Proof. intros Ht. loop_quiet sendVote_quiet. Qed.

Lemma leader_propose_quiet r m r' : leader_propose r m = Ret r' -> quiet r r'.
Proof.
  unfold leader_propose. case_decide; [done |]. destruct (_ !! _); [| by intros ?; inv_ret].
  destruct (demote _ _) as [pending es]. intros Hr. inv_ret.
  etrans; [| by eapply broadcastAppend_quiet].
  etrans; [| by eapply appendEntry_quiet]. quiet_set.
Qed.

Lemma leader_readIndex_quiet r m r' : leader_readIndex r m = Ret r' -> quiet r r'.
Proof.
  unfold leader_readIndex. destruct (_ !! _); [| by intros ?; inv_ret].
  case_decide; intros Hr; inv_ret; [| quiet_set].
  case_decide; inv_ret; [done |]. destruct (addRequest _ _ _ _) as [ro b].
  destruct b; inv_ret; [| quiet_set].
  etrans; [| by eapply broadcastHeartbeat_quiet]. quiet_set.
Qed.

Lemma leader_appResp_quiet r pr m r' :
  prs r !! mFrom m = Some pr -> leader_appResp r pr m = Ret r' -> quiet r r'.
Proof.
  intros Hpr. unfold leader_appResp. destruct (mReject m).
  - destruct (mayDecreaseTo _ _ _) as [b pr']. destruct b; intros Hr; inv_ret;
      [etrans; [| by eapply sendAppend_quiet] |]; apply set_prs_quiet; eauto.
  - destruct (maybeUpdate _ _) as [b pr']. intros Hr. destruct b; inv_ret; [| apply set_prs_quiet; eauto].
    destruct v as [r1 c]. transitivity r1.
    { etrans; [| by eapply maybeCommit_quiet]. apply set_prs_quiet. eauto. }
    destruct c; inv_ret; [by eapply broadcastAppend_quiet | done].
Qed.

Lemma deliver_read_quiet rs r r' : deliver_read rs r = Ret r' -> quiet r r'.
Proof. unfold deliver_read. case_decide; intros Hr; inv_ret; [quiet_set | send_quiet]. Qed.

Lemma leader_heartbeatResp_quiet r m r' : leader_heartbeatResp r m = Ret r' -> quiet r r'.
Proof.
  unfold leader_heartbeatResp. case_decide; [by intros Hr; inv_ret |].
  destruct (recvAck _ _ _) as [ro acks]. case_decide; intros Hr; inv_ret; [quiet_set |].
  destruct v as [ro' rss]. etrans; [| eapply ofold_rel; [apply _ | | exact Hr]].
  - quiet_set.
  - intros ? ? ? _. apply deliver_read_quiet.
Qed.

Lemma stepLeader_quiet r m r' : stepLeader r m = Ret r' -> quiet r r'.
Proof.
  unfold stepLeader, broadcastHeartbeat.
  destruct (mType m); try (destruct (prs r !! mFrom m) eqn:Hpr); intros Hr; inv_ret; try done;
    eauto using broadcastHeartbeat_quiet, leader_propose_quiet, leader_readIndex_quiet,
      leader_appResp_quiet, leader_heartbeatResp_quiet.
Qed.

End Handlers.

(** ** What one step does to the election state *)

Section Election.
  Context {S : Type} `{Storage S} `{MapOrder}.
  Implicit Types r : raft S.

Definition role_ok r : Prop :=
  match rState r with
  | StateFollower => rStep r = StepFollower
  | StateCandidate | StatePreCandidate => rStep r = StepCandidate
  | StateLeader => rStep r = StepLeader
  end.

Definition node_ok r : Prop :=
  role_ok r /\ (rState r = StateCandidate \/ rState r = StateLeader -> rVote r = rId r).

(** Why [r'] may count [j]'s vote: it is its own, it was counted already, or it
    is in the message [m] being handled. *)
Definition backs (m : option Message) r r' (j : Z) : Prop :=
  j = rId r
  \/ (rState r = StateCandidate /\ rTerm r' = rTerm r /\ votes r !! j = Some true)
  \/ (exists g, m = Some g /\ grants g /\ mFrom g = j /\ (mTerm g = 0 \/ mTerm g = rTerm r')).

(** A message that [r'] may have sent on behalf of [r]. *)
Definition sent_by r r' (g : Message) : Prop :=
  (exists t, rTerm r <= t <= rTerm r' /\ plain (rId r) t g)
  \/ (grants g /\ mFrom g = rId r /\ mTerm g = rTerm r' /\ mTo g = rVote r' /\ rVote r' <> NoneID).

Record election_step (m : option Message) r r' : Prop := {
  es_ok : node_ok r';
  es_id : rId r' = rId r;
  es_members : dom (prs r') = dom (prs r);
  es_term : rTerm r <= rTerm r';
  es_vote : rTerm r' = rTerm r -> rVote r <> NoneID -> rVote r' = rVote r;
  es_msgs : exists out, msgs r' = msgs r ++ out /\ Forall (sent_by r r') out;
  es_candidate : rState r' = StateCandidate ->
    forall j, votes r' !! j = Some true -> backs m r r' j;
  es_leader : rState r' = StateLeader ->
    (rState r = StateLeader /\ rTerm r' = rTerm r)
    \/ (exists Q : gset Z, quorum r <= Z.of_nat (size Q) /\ forall j, j ∈ Q -> backs m r r' j);
}.

Lemma quorum_members r r' : dom (prs r') = dom (prs r) -> quorum r' = quorum r.
Proof. intros Hd. unfold quorum. by rewrite <- (size_dom (prs r')), Hd, size_dom. Qed.

Lemma node_ok_quiet r r' : quiet r r' -> node_ok r -> node_ok r'.
Proof. intros []. unfold node_ok, role_ok. rewrite q_state0, q_step0, q_vote0, q_id0. done. Qed.

Lemma election_quiet m r r' : node_ok r -> quiet r r' -> election_step m r r'.
Proof.
  intros Hok Hq. pose proof (node_ok_quiet _ _ Hq Hok). destruct Hq.
  constructor; try done; try lia.
  - destruct q_msgs0 as (out & ? & Hp). exists out. split; [done |].
    eapply Forall_impl; [exact Hp |]. left. exists (rTerm r). split; [lia | done].
  - rewrite q_state0, q_votes0. intros Hs j Hj. right. left. done.
  - rewrite q_state0. auto.
Qed.

Lemma election_quiet_after m r r1 r2 :
  election_step m r r1 -> quiet r1 r2 -> election_step m r r2.
Proof.
  intros [] Hq. pose proof (node_ok_quiet _ _ Hq es_ok0). destruct Hq.
  constructor; try done; try congruence; try lia.
  - destruct es_msgs0 as (o1 & Hm1 & Hp1), q_msgs0 as (o2 & Hm2 & Hp2).
    exists (o1 ++ o2). rewrite Hm2, Hm1, app_assoc. split; [done |].
    apply Forall_app. split.
    + eapply Forall_impl; [exact Hp1 |]. unfold sent_by. by rewrite q_term0, q_vote0.
    + eapply Forall_impl; [exact Hp2 |]. rewrite es_id0. left. exists (rTerm r1). split; [lia | done].
  - unfold backs in *. rewrite q_state0, q_votes0, q_term0. done.
  - unfold backs in *. rewrite q_state0, q_term0. done.
Qed.

Lemma election_quiet_before m r r1 r2 :
  node_ok r -> quiet r r1 -> election_step m r1 r2 -> election_step m r r2.
Proof.
  intros Hok [] [].
  assert (Hback : forall j, backs m r1 r2 j -> backs m r r2 j).
  { unfold backs. rewrite q_id0, q_term0, q_state0, q_votes0. done. }
  constructor; try done; try congruence; try lia.
  - destruct q_msgs0 as (o1 & Hm1 & Hp1), es_msgs0 as (o2 & Hm2 & Hp2).
    exists (o1 ++ o2). rewrite Hm2, Hm1, app_assoc. split; [done |]. apply Forall_app. split.
    + eapply Forall_impl; [exact Hp1 |]. left. exists (rTerm r). split; [lia | done].
    + eapply Forall_impl; [exact Hp2 |]. unfold sent_by. by rewrite q_id0, q_term0.
  - auto.
  - intros Hs. destruct (es_leader0 Hs) as [[? ?] | (Q & HQ & HQb)]; [left; split; congruence |].
    right. exists Q. rewrite <- (quorum_members r r1) by done. auto.
Qed.

(** [r1] starts a role anew from [r]: no vote counts, none is owed. *)
Record fresh r r1 : Prop := {
  f_ok : node_ok r1;
  f_id : rId r1 = rId r;
  f_members : dom (prs r1) = dom (prs r);
  f_term : rTerm r <= rTerm r1;
  f_vote : rTerm r1 = rTerm r -> rVote r <> NoneID -> rVote r1 = rVote r;
  f_msgs : msgs r1 = msgs r;
  f_state : rState r1 <> StateCandidate /\ rState r1 <> StateLeader;
}.

Lemma election_fresh m r r1 : fresh r r1 -> election_step m r r1.
Proof.
  intros [? ? ? ? ? Hm []]. constructor; try done; try (intros; done).
  exists []. by rewrite app_nil_r.
Qed.

Lemma election_fresh_before m r r1 r2 :
  fresh r r1 -> election_step m r1 r2 -> election_step m r r2.
Proof.
  intros [? Hid Hmem Ht Hv Hmsg [Hc Hl]] [].
  assert (Hback : forall j, backs m r1 r2 j -> backs m r r2 j).
  { unfold backs. rewrite Hid. intros j [| [[? _] |]]; auto; done. }
  constructor; try congruence; try lia.
  - destruct es_msgs0 as (out & Ho & Hp). exists out. rewrite Ho, Hmsg. split; [done |].
    eapply Forall_impl; [exact Hp |]. intros g [(t & ? & Hg) | Hg]; [left | right; by rewrite <- Hid].
    exists t. rewrite <- Hid. split; [lia | done].
  - auto.
  - intros Hs. right. destruct (es_leader0 Hs) as [[? _] | (Q & HQ & HQb)]; [done |].
    exists Q. rewrite <- (quorum_members r r1) by done. auto.
Qed.

(** *** reset, becomeFollower *)

Lemma reset_fields r t :
  rId (reset r t) = rId r /\ rTerm (reset r t) = t /\ prs (reset r t) = prs r
  /\ msgs (reset r t) = msgs r /\ rState (reset r t) = rState r /\ rStep (reset r t) = rStep r
  /\ votes (reset r t) = ∅ /\ rLog (reset r t) = rLog r
  /\ rVote (reset r t) = (if decide (rTerm r = t) then rVote r else NoneID).
Proof.
  unfold reset, resetRandomizedElectionTimeout.
  destruct (decide (rTerm r <> t)); simpl; destruct (intn _ _); simpl; split_and!; try done.
  - by rewrite decide_False.
  - lia.
  - rewrite decide_True by lia. done.
Qed.

#[local] Opaque reset.

Lemma becomeFollower_fresh r t l : rTerm r <= t -> fresh r (becomeFollower r t l).
Proof.
  intros Ht. unfold becomeFollower. destruct (reset_fields r t) as (? & Hterm & Hp & ? & ? & ? & ? & ? & Hv).
  generalize dependent (reset r t). intros r1 **.
  constructor; simpl; try done; try congruence; try lia.
  - split; [done |]. simpl. intros [? | ?]; done.
  - rewrite Hterm, Hv. intros ->. by rewrite decide_True.
Qed.

Lemma becomeFollower_term r t l : rTerm (becomeFollower r t l) = t.
Proof.
  assert (Heq : forall r1 : raft S, rTerm r1 = t ->
    rTerm (r1 <| rStep := StepFollower |> <| rTick := TickElection |>
      <| lead := l |> <| rState := StateFollower |>) = t) by done.
  apply Heq, reset_fields.
Qed.

Lemma becomeFollower_vote r t l : rVote r = NoneID -> rVote (becomeFollower r t l) = NoneID.
Proof.
  intros Hr. assert (Heq : forall r1 : raft S, rVote r1 = NoneID ->
    rVote (r1 <| rStep := StepFollower |> <| rTick := TickElection |>
      <| lead := l |> <| rState := StateFollower |>) = NoneID) by done.
  apply Heq. destruct (reset_fields r t) as (_ & _ & _ & _ & _ & _ & _ & _ & ->). by case_decide.
Qed.

(** *** Winning an election *)

Lemma becomeLeader_shape r r' :
  becomeLeader r = Ret r' ->
  exists r1, quiet r1 r' /\ rId r1 = rId r /\ rTerm r1 = rTerm r /\ rVote r1 = rVote r
    /\ dom (prs r1) = dom (prs r) /\ msgs r1 = msgs r
    /\ rState r1 = StateLeader /\ rStep r1 = StepLeader.
Proof.
  unfold becomeLeader. case_decide; [done |]. intros Hr.
  pose proof (reset_fields (r <| rStep := StepLeader |>) (rTerm r)) as Hf.
  generalize dependent (reset (r <| rStep := StepLeader |>) (rTerm r)). intros r0 Hr Hf. inv_ret.
  apply appendEntry_quiet in Hr. eexists. split; [exact Hr |].
  destruct Hf as (? & ? & Hp & ? & ? & ? & ? & ? & Hv).
  simpl in *. rewrite decide_True in Hv by done. split_and!; try done.
  rewrite Hp. apply set_eq. intros k. rewrite !elem_of_dom, map_lookup_imap.
  destruct (prs r !! k); simpl; split; intros []; done.
Qed.

(** The voters a poll has counted. *)
Definition granted_by r : gset Z := dom (filter (fun p => p.2 = true) (votes r)).

Lemma granted_by_elem r j : j ∈ granted_by r <-> votes r !! j = Some true.
Proof.
  unfold granted_by. rewrite elem_of_dom. split.
  - intros [b Hb]. apply map_lookup_filter_Some in Hb as [Hb Heq]. simpl in Heq. by subst.
  - intros Hj. exists true. by apply map_lookup_filter_Some.
Qed.

Lemma poll_spec r id v r1 granted :
  poll r id v = (r1, granted) ->
  granted = Z.of_nat (size (granted_by r1))
  /\ r1 = r <| votes := votes r1 |>
  /\ votes r1 = (match votes r !! id with Some _ => votes r | None => <[id := v]> (votes r) end).
Proof.
  unfold poll. intros [= <- <-]. split_and!; try done.
  unfold granted_by. by rewrite size_dom.
Qed.

Lemma poll_true r id v r1 granted j :
  poll r id v = (r1, granted) -> votes r1 !! j = Some true ->
  votes r !! j = Some true \/ (j = id /\ v = true).
Proof.
  intros Hp. destruct (poll_spec _ _ _ _ _ Hp) as (_ & _ & ->).
  destruct (votes r !! id) eqn:Hid; [by left |].
  rewrite lookup_insert. case_decide; [| by left]. intros [= ->]. by right.
Qed.

(** A candidate that reached a quorum of votes becomes the leader. *)
Lemma election_won m r r1 granted r' :
  rState r1 = StateCandidate -> rVote r1 = rId r1 ->
  rId r1 = rId r -> dom (prs r1) = dom (prs r) -> msgs r1 = msgs r ->
  rTerm r <= rTerm r1 -> (rTerm r1 = rTerm r -> rVote r <> NoneID -> rVote r1 = rVote r) ->
  (forall r2, rTerm r2 = rTerm r1 -> forall j, votes r1 !! j = Some true -> backs m r r2 j) ->
  granted = Z.of_nat (size (granted_by r1)) -> quorum r1 = granted ->
  becomeLeader r1 = Ret r' -> election_step m r r'.
Proof.
  intros Hst Hv Hid Hmem Hmsg Ht Hvote Hback Hg Hq Hlead.
  destruct (becomeLeader_shape _ _ Hlead) as (r2 & Hquiet & Hid2 & Ht2 & Hv2 & Hm2 & Hmsg2 & Hs2 & Hst2).
  apply (election_quiet_after m r r2); [| done].
  constructor; try congruence; try lia.
  - split; [unfold role_ok; by rewrite Hs2 | congruence].
  - exists []. rewrite app_nil_r. split; [congruence | constructor].
  - intros _. right. exists (granted_by r1).
    rewrite <- (quorum_members r r1) by done. split; [lia |].
    intros j Hj. apply Hback; [done |]. by apply granted_by_elem.
Qed.

(** *** Campaigning *)

Lemma becomeCandidate_spec r r' :
  becomeCandidate r = Ret r' ->
  rId r' = rId r /\ rTerm r' = u64 (rTerm r + 1) /\ rVote r' = rId r /\ prs r' = prs r
  /\ msgs r' = msgs r /\ rState r' = StateCandidate /\ rStep r' = StepCandidate /\ votes r' = ∅.
Proof.
  unfold becomeCandidate. case_decide; [done |]. intros Hr.
  pose proof (reset_fields (r <| rStep := StepCandidate |>) (u64 (rTerm r + 1))) as Hf.
  generalize dependent (reset (r <| rStep := StepCandidate |>) (u64 (rTerm r + 1))). intros r0 Hr Hf.
  inv_ret. naive_solver.
Qed.

Lemma campaign_election m r r' :
  0 <= rTerm r < max_u64 -> campaign campaignElection r = Ret r' -> election_step m r r'.
Proof.
  intros Hterm. rewrite campaign_eq. unfold campaign_body. intros Hr. inv_ret.
  match goal with Hc : becomeCandidate r = Ret ?x |- _ => rename x into rc; rename Hc into E end.
  destruct (becomeCandidate_spec _ _ E) as (Hid & Ht & Hv & Hp & Hm & Hs & Hst & Hvs).
  rewrite u64_id in Ht by (unfold is_u64, max_u64 in *; lia).
  destruct (poll rc (rId rc) true) as [r1 granted] eqn:Hpoll.
  destruct (poll_spec _ _ _ _ _ Hpoll) as (Hg & Hr1 & _).
  assert (Hback : forall r2 j, votes r1 !! j = Some true -> backs m r r2 j).
  { intros r2 j Hj. left. destruct (poll_true _ _ _ _ _ j Hpoll Hj) as [Hj' | [-> _]]; [| done].
    rewrite Hvs in Hj'. done. }
  rewrite Hr1 in Hr. case_decide as Hq.
  - eapply election_won; try exact Hr; try exact Hg; try done; simpl; try congruence; try lia.
    intros; by apply Hback.
  - eapply election_quiet_after; [| eapply requestVotes_quiet; [| exact Hr]; auto].
    constructor; simpl; try congruence; try lia.
    + split; [unfold role_ok; simpl; by rewrite Hs | simpl; congruence].
    + exists []. rewrite app_nil_r. split; [done | constructor].
    + intros _. by apply Hback.
Qed.

Lemma becomePreCandidate_fresh r r' : becomePreCandidate r = Ret r' -> fresh r r'.
Proof.
  unfold becomePreCandidate. case_decide; [done |]. intros Hr. inv_ret.
  constructor; simpl; try done. split; [done | simpl; intros []; done].
Qed.

Lemma poll_fresh r id v r1 granted :
  poll r id v = (r1, granted) -> rState r = StatePreCandidate -> node_ok r -> fresh r r1.
Proof.
  intros Hp Hs Hok. destruct (poll_spec _ _ _ _ _ Hp) as (_ & -> & _).
  constructor; simpl; try done. by rewrite Hs.
Qed.

Lemma fresh_trans r1 r2 r3 : fresh r1 r2 -> fresh r2 r3 -> fresh r1 r3.
Proof.
  intros [] []. constructor; try done; try congruence; try lia.
Qed.

Lemma precampaign_election m r r' :
  0 <= rTerm r < max_u64 -> campaign campaignPreElection r = Ret r' -> election_step m r r'.
Proof.
  intros Hterm. rewrite campaign_eq. unfold campaign_body. intros Hr. inv_ret.
  match goal with Hc : becomePreCandidate r = Ret ?x |- _ => rename x into rc; rename Hc into E end.
  pose proof (becomePreCandidate_fresh _ _ E) as Hf.
  assert (Hs : rState rc = StatePreCandidate /\ rTerm rc = rTerm r).
  { unfold becomePreCandidate in E. case_decide; inv_ret; done. }
  destruct (poll rc (rId rc) true) as [r1 granted] eqn:Hpoll.
  pose proof (poll_fresh _ _ _ _ _ Hpoll (proj1 Hs) (f_ok _ _ Hf)) as Hf1.
  pose proof (fresh_trans _ _ _ Hf Hf1) as Hf'.
  destruct (poll_spec _ _ _ _ _ Hpoll) as (_ & Hr1 & _).
  assert (Ht1 : rTerm r1 = rTerm r) by (rewrite Hr1; simpl; apply Hs).
  case_decide as Hq.
  - eapply election_fresh_before; [exact Hf' |]. apply campaign_election; [lia | done].
  - eapply election_quiet_after; [by apply election_fresh |].
    eapply requestVotes_quiet; [| exact Hr]; auto.
Qed.

Lemma fresh_poll r id v r1 granted r2 :
  poll r id v = (r1, granted) -> fresh r1 r2 -> fresh r r2.
Proof.
  intros Hp []. destruct (poll_spec _ _ _ _ _ Hp) as (_ & Hr1 & _). rewrite Hr1 in *. simpl in *.
  by constructor.
Qed.

(** *** Counting votes *)

Lemma candidate_tally_election m r r' :
  0 <= rTerm r < max_u64 -> node_ok r -> rState r = StateCandidate \/ rState r = StatePreCandidate ->
  mType m = voteRespType r -> mTerm m = 0 \/ mTerm m = rTerm r \/ rState r = StatePreCandidate ->
  candidate_tally r m = Ret r' -> election_step (Some m) r r'.
Proof.
  intros Hterm Hok Hst Htype Hmt. unfold candidate_tally.
  destruct (poll r (mFrom m) (negb (mReject m))) as [r1 granted] eqn:Hpoll.
  destruct (poll_spec _ _ _ _ _ Hpoll) as (Hg & Hr1 & _).
  assert (Hsame : rState r1 = rState r /\ rTerm r1 = rTerm r) by (rewrite Hr1; done).
  destruct Hsame as [Hs1 Ht1]. destruct Hst as [Hc | Hpre].
  - unfold voteRespType in Htype. rewrite decide_False in Htype by congruence.
    assert (Hback : forall r2, rTerm r2 = rTerm r1 -> forall j, votes r1 !! j = Some true -> backs (Some m) r r2 j).
    { intros r2 Ht2 j Hj. destruct (poll_true _ _ _ _ _ j Hpoll Hj) as [Hj' | [-> Hrej]].
      - right. left. by rewrite Ht2, Ht1.
      - right. right. exists m. split_and!; try done.
        + split; [done |]. by destruct (mReject m).
        + destruct Hmt as [| [| ]]; [by left | right; congruence | congruence]. }
    destruct Hok as [Hrole Hv]. specialize (Hv (or_introl Hc)).
    case_decide as Hq; [rewrite decide_False by congruence; intros Hr; inv_ret | case_decide; intros Hr; inv_ret].
    + eapply election_quiet_after; [| by eapply broadcastAppend_quiet].
      eapply election_won; try exact Hback; try done; try (rewrite Hr1; simpl; done); try congruence; try lia.
    + apply election_fresh, (fresh_poll _ _ _ _ _ _ Hpoll), becomeFollower_fresh. lia.
    + constructor; try done; try (rewrite Hr1; simpl; done); try (rewrite Hr1; simpl; lia).
      * exists []. rewrite app_nil_r, Hr1. split; [done | constructor].
      * intros _. by apply Hback.
      * congruence.
  - assert (Hf : fresh r r1) by (by eapply poll_fresh).
    case_decide as Hq; [rewrite decide_True by congruence | case_decide]; intros Hr; inv_ret.
    + eapply election_fresh_before; [exact Hf |]. apply campaign_election; [lia | done].
    + apply election_fresh, (fresh_poll _ _ _ _ _ _ Hpoll), becomeFollower_fresh. lia.
    + by apply election_fresh.
Qed.

(** *** Step *)

Lemma stepCandidate_election r m r' :
  0 <= rTerm r < max_u64 -> node_ok r -> rState r = StateCandidate \/ rState r = StatePreCandidate ->
  mTerm m = rTerm r \/ (mTerm m = 0 /\ mType m <> MsgHeartbeat) \/ mType m = MsgPreVoteResp ->
  stepCandidate r m = Ret r' -> election_step (Some m) r r'.
Proof.
  intros Hterm Hok Hst Hmt. unfold stepCandidate.
  case_decide; [intros Hr; inv_ret; by apply election_quiet |].
  case_decide; [| case_decide; [| case_decide as Hv; [| intros Hr; inv_ret; by apply election_quiet]]]; intros Hr.
  - eapply election_quiet_after; [| by eapply handleAppendEntries_quiet].
    apply election_fresh, becomeFollower_fresh. lia.
  - eapply election_quiet_after; [| by eapply handleHeartbeat_quiet].
    apply election_fresh, becomeFollower_fresh. destruct Hmt as [| [[_ ?] | ?]]; [lia | done | congruence].
  - apply candidate_tally_election; try done. destruct Hmt as [| [[? _] | Hpre]]; auto.
    right. right. destruct Hst as [Hc |]; [| done]. unfold voteRespType in Hv.
    rewrite decide_False in Hv by congruence. congruence.
Qed.

Lemma call_step_election r m r' :
  0 <= rTerm r < max_u64 -> node_ok r ->
  mTerm m = rTerm r \/ (mTerm m = 0 /\ mType m <> MsgHeartbeat) \/ mType m = MsgPreVoteResp ->
  (forwarded m -> mTerm m = 0) -> call_step r m = Ret r' -> election_step (Some m) r r'.
Proof.
  intros Hterm Hok Hmt Hfw. pose proof Hok as [Hrole _]. unfold role_ok in Hrole. unfold call_step.
  destruct (rState r) eqn:Hs; rewrite Hrole; intros Hr.
  - apply election_quiet; [done |]. by eapply stepFollower_quiet.
  - apply stepCandidate_election; auto.
  - apply election_quiet; [done |]. by eapply stepLeader_quiet.
  - apply stepCandidate_election; auto.
Qed.

Lemma step_hup_election m r r' :
  0 <= rTerm r < max_u64 -> node_ok r -> step_hup r = Ret r' -> election_step m r r'.
Proof.
  intros Hterm Hok. unfold step_hup.
  case_decide; [intros Hr; inv_ret; by apply election_quiet |].
  destruct (negb _); [intros Hr; inv_ret; by apply election_quiet |].
  intros Hr. inv_ret. case_decide; [inv_ret; by apply election_quiet |].
  destruct (preVote r); [by apply precampaign_election | by apply campaign_election].
Qed.

(** The vote itself: at most one candidate per term. *)
Lemma step_vote_election m0 r m r' :
  node_ok r -> (mType m = MsgVote \/ mType m = MsgPreVote) ->
  (mType m = MsgVote -> mFrom m <> NoneID /\ (rState r = StateCandidate \/ rState r = StateLeader -> rVote r <> NoneID)) ->
  mType m = MsgPreVote \/ mTerm m <= rTerm r ->
  step_vote r m = Ret r' -> election_step m0 r r'.
Proof.
  intros Hok Htype Hfrom Hmt. unfold step_vote. intros Hr. inv_ret.
  destruct (_ && _) eqn:Hg.
  - case_decide as Hv; inv_ret; [| apply election_quiet; [done |]; apply send_plain; simpl; [congruence | left; congruence | intros [? | ?]; simpl in *; congruence]].
    apply andb_true_iff in Hg as [_ Hg]. apply bool_decide_eq_true in Hg.
    destruct (Hfrom Hv) as [Hnz Hvz].
    assert (Hvote : rVote r <> NoneID -> mFrom m = rVote r).
    { intros ?. destruct Hg as [| [| ]]; [done | | done]. destruct Hmt; [congruence | lia]. }
    constructor; simpl; try done; try lia.
    + split; [apply Hok |]. intros Hcl. simpl in *. rewrite <- (proj2 Hok Hcl). apply Hvote. auto.
    + eexists. split; [done |]. apply Forall_singleton. right. unfold grants. simpl.
      repeat case_decide; simpl; split_and!; try done; naive_solver.
    + intros Hc j Hj. right. left. done.
    + auto.
  - apply election_quiet; [done |]. case_decide; inv_ret; apply send_plain; simpl; auto; intros [? | ?]; simpl in *; congruence.
Qed.

(** A message as it can reach [Step]: from a node of the cluster, or one of the
    local messages of [Node]. *)
Record msg_ok (m : Message) : Prop := {
  mok_term : 0 <= mTerm m < max_u64;
  mok_vote : mType m = MsgVote -> mFrom m <> NoneID;
  mok_heartbeat : mType m = MsgHeartbeat -> mTerm m <> 0;
  mok_forwarded : forwarded m -> mTerm m = 0;
}.

Lemma step_dispatch_election r m r' :
  0 <= rTerm r < max_u64 -> node_ok r -> rId r <> NoneID -> msg_ok m ->
  mTerm m = 0 \/ mTerm m = rTerm r
    \/ (rTerm r < mTerm m /\ (mType m = MsgPreVote \/ mType m = MsgPreVoteResp)) ->
  step_dispatch r m = Ret r' -> election_step (Some m) r r'.
Proof.
  intros Hterm Hok Hid [_ Hvote Hhb Hfw] Hmt. unfold step_dispatch.
  assert (Hcall : mType m <> MsgPreVote -> call_step r m = Ret r' -> election_step (Some m) r r').
  { intros Hp. apply call_step_election; try done.
    destruct Hmt as [H0' | [| [_ [|]]]]; [| by auto | done | by auto].
    right. left. split; [done |]. intros Hh. by apply Hhb. }
  assert (Hv : mType m = MsgVote \/ mType m = MsgPreVote -> step_vote r m = Ret r' -> election_step (Some m) r r').
  { intros Ht. apply step_vote_election; try done.
    - intros Hmv. split; [by apply Hvote |]. intros Hcl. by rewrite (proj2 Hok Hcl).
    - destruct Hmt as [| [| [? [|]]]]; try (right; lia); [by left | destruct Ht; [congruence | by left]]. }
  destruct (mType m) eqn:Ht; try (by apply Hcall); try (by apply Hv; auto).
  by apply step_hup_election.
Qed.

Lemma Step_election r m r' :
  0 <= rTerm r < max_u64 -> node_ok r -> rId r <> NoneID -> msg_ok m ->
  Step r m = Ret r' -> election_step (Some m) r r'.
Proof.
  intros Hterm Hok Hid Hm. unfold Step, step_term. pose proof (mok_term _ Hm).
  case_decide; [apply step_dispatch_election; auto |].
  case_decide as Hgt.
  - case_decide as Hp.
    + match goal with |- step_dispatch (becomeFollower r ?t ?l) m = _ -> _ =>
        pose proof (becomeFollower_fresh r t l ltac:(lia)) as Hf;
        pose proof (becomeFollower_term r t l) as Ht;
        generalize dependent (becomeFollower r t l) end.
      intros r1 Hf Ht Hr. eapply election_fresh_before; [exact Hf |].
      apply step_dispatch_election; [lia | apply Hf | by rewrite (f_id _ _ Hf) | done | auto | done].
    + apply step_dispatch_election; try done. right. right. split; [done |].
      destruct (decide (mType m = MsgPreVote)); [by left |].
      destruct (decide (mType m = MsgPreVoteResp)); [by right |]. tauto.
  - case_decide as Hlt.
    + intros Hr. apply election_quiet; [done |]. case_decide; inv_ret; [| done].
      apply send_plain; simpl; [congruence | left; congruence | intros [? | ?]; simpl in *; congruence].
    + apply step_dispatch_election; try done. right. left. lia.
Qed.

(** A tick is a local message, if it is anything. *)
Lemma tick_election r r' :
  0 <= rTerm r < max_u64 -> node_ok r -> rId r <> NoneID -> tick r = Ret r' ->
  exists m, election_step (Some m) r r' /\ ~ grants m.
Proof.
  intros Hterm Hok Hid.
  assert (Hstep : forall r1 t, t = MsgHup \/ t = MsgBeat -> quiet r r1 ->
    Step r1 (message t <| mFrom := rId r |>) = Ret r' -> rState r1 = rState r -> votes r1 = votes r ->
    exists m, election_step (Some m) r r' /\ ~ grants m).
  { intros r1 t Ht Hq Hr Hs Hv. exists (message t <| mFrom := rId r |>).
    split; [| intros [Hg _]; simpl in Hg; destruct Ht; congruence].
    eapply election_quiet_before; [exact Hok | exact Hq |].
    eapply Step_election; [by rewrite (q_term _ _ Hq) | by eapply node_ok_quiet | by rewrite (q_id _ _ Hq) | | exact Hr].
    constructor; simpl; [unfold max_u64; lia | | |]; intros; done || (destruct Ht; congruence). }
  unfold tick, tickElection, tickHeartbeat.
  destruct (rTick r).
  - destruct (_ && _); intros Hr; inv_ret.
    + eapply Hstep; [| | exact Hr | |]; auto. quiet_set.
    + exists (message MsgHup). split; [apply election_quiet; [done | quiet_set] | by intros [? _]].
  - case_decide; [intros Hr; inv_ret; exists (message MsgHup); split; [by apply election_quiet | by intros [? _]] |].
    case_decide; intros Hr; inv_ret.
    + eapply Hstep; [| | exact Hr | |]; auto. quiet_set.
    + exists (message MsgHup). split; [apply election_quiet; [done | quiet_set] | by intros [? _]].
Qed.

End Election.
