(* ===== verification/RaftCluster.v ===== *)
(** * RaftCluster
    A cluster of nodes over an unreliable network, and election safety: no
    term ever has two leaders. *)
From S2P Require Import Prelude RaftTypes RaftStorage RaftLog RaftCore RaftNode RaftElection.

Section Cluster.
  Context {S : Type} `{Storage S} `{MapOrder}.

(** The network holds every message that was ever sent: a delivery picks any of
    them, any number of times, or never. *)
Record cluster := mkCluster {
  cNodes : gmap Z (nodeLoop S);
  cNet : list Message;
}.
#[export] Instance cluster_eta : Eta cluster := fun c => mkCluster (cNodes c) (cNet c).

(** What a node's own application may do. *)
Inductive local_call :=
| LCampaign
| LPropose (data : bytes)
| LProposeConf (data : bytes)
| LReadIndex (rctx : bytes)
| LTick
| LAdvance.

Definition local_event (l : local_call) : event :=
  match l with
  | LCampaign => Campaign
  | LPropose data => Propose data
  | LProposeConf data => ProposeConfChange data
  | LReadIndex rctx => ReadIndex rctx
  | LTick => Tick
  | LAdvance => Advance
  end.

Inductive action :=
| Deliver (k : nat)
| Local (i : Z) (l : local_call)
| TakeReady (i : Z).

(** One turn of node [i]. A turn that panics, or that would bring a term to the
    last 64-bit value, is not a step. *)
Definition turn (c : cluster) (i : Z) (ev : event) : option (cluster * output) :=
  match cNodes c !! i with
  | None => None
  | Some n =>
      match run_step n ev with
      | Ret (Some (n', out)) =>
          if decide (rTerm (nRaft n') < max_u64) then
            Some (c <| cNodes := <[i := n']> (cNodes c) |>, out)
          else None
      | _ => None
      end
  end.

Definition cexec (c : cluster) (a : action) : option cluster :=
  match a with
  | Deliver k =>
      match cNet c !! k with
      | None => None
      | Some m => fst <$> turn c (mTo m) (node_step m)
      end
  | Local i l => fst <$> turn c i (local_event l)
  | TakeReady i =>
      match turn c i EvReady with
      | Some (c', OutReady rd) => Some (c' <| cNet := cNet c' ++ rdMessage rd |>)
      | _ => None
      end
  end.

Fixpoint crun (c : cluster) (acts : list action) : option cluster :=
  match acts with
  | [] => Some c
  | a :: acts => match cexec c a with Some c => crun c acts | None => None end
  end.

(** Node [i] as [StartNode] makes it over an empty storage, in a cluster whose
    configuration names [members]. *)
Definition booted (members : gset Z) (i : Z) (n : nodeLoop S) : Prop :=
  exists conf peers draws st,
    cID conf = i /\ cStorage conf = Some st
    /\ st_InitialState st = Ret (Ok (emptyHardState, mkConfState []))
    /\ list_to_set (cPeers conf ++ map peerID peers) = members
    /\ StartNode conf peers draws = Ret n.

Record cluster_init (members : gset Z) (c : cluster) : Prop := {
  init_net : cNet c = [];
  init_nodes : forall i n, cNodes c !! i = Some n -> i ∈ members /\ booted members i n;
}.

Definition is_leader (c : cluster) (i t : Z) : Prop :=
  exists n, cNodes c !! i = Some n /\ rState (nRaft n) = StateLeader /\ rTerm (nRaft n) = t.

(** ** The invariant *)

(** Every message that was sent or is about to be. *)
Definition soup (c : cluster) (g : Message) : Prop :=
  g ∈ cNet c \/ exists i n, cNodes c !! i = Some n /\ g ∈ msgs (nRaft n).

(** The votes ever cast: [(voter, term)] to candidate. *)
Abbreviation ballot := (gmap (Z * Z) Z).

Record node_inv (members : gset Z) (h : ballot) (i : Z) (r : raft S) : Prop := {
  ni_id : rId r = i;
  ni_member : i ∈ members;
  ni_members : dom (prs r) = members;
  ni_term : 1 <= rTerm r < max_u64;
  ni_ok : node_ok r;
  ni_vote : rVote r <> NoneID -> h !! (i, rTerm r) = Some (rVote r);
  ni_past : forall t v, h !! (i, t) = Some v -> t < rTerm r \/ (t = rTerm r /\ rVote r = v);
  ni_candidate : rState r = StateCandidate ->
    forall j, votes r !! j = Some true -> h !! (j, rTerm r) = Some i;
  ni_leader : rState r = StateLeader ->
    exists Q : gset Z, quorum r <= Z.of_nat (size Q) /\ forall j, j ∈ Q -> h !! (j, rTerm r) = Some i;
}.

Record soup_inv (members : gset Z) (h : ballot) (g : Message) : Prop := {
  si_term : 0 <= mTerm g < max_u64;
  si_forwarded : forwarded g <-> mTerm g = 0;
  si_vote : mType g = MsgVote -> mFrom g ∈ members;
  si_grant : grants g -> h !! (mFrom g, mTerm g) = Some (mTo g);
}.

Record cluster_inv (members : gset Z) (h : ballot) (c : cluster) : Prop := {
  ci_nodes : forall i n, cNodes c !! i = Some n -> node_inv members h i (nRaft n);
  ci_soup : forall g, soup c g -> soup_inv members h g;
  ci_ballot : forall j t v, h !! (j, t) = Some v -> j ∈ members /\ v <> NoneID;
}.

Lemma node_inv_mono members h h' i r :
  h ⊆ h' -> (forall t, h' !! (i, t) = h !! (i, t)) -> node_inv members h i r -> node_inv members h' i r.
Proof.
  intros Hsub Hsame []. constructor; try done.
  - intros Hv. rewrite Hsame. auto.
  - intros t v. rewrite Hsame. auto.
  - intros Hs j Hj. eapply lookup_weaken; eauto.
  - intros Hs. destruct (ni_leader0 Hs) as (Q & HQ & HQh). exists Q. split; [done |].
    intros j Hj. eapply lookup_weaken; eauto.
Qed.

Lemma soup_inv_mono members h h' g : h ⊆ h' -> soup_inv members h g -> soup_inv members h' g.
Proof. intros Hsub []. constructor; try done. intros Hg. eapply lookup_weaken; eauto. Qed.

(** The ballot after a step of node [i] to state [r']. *)
Definition cast (h : ballot) (i : Z) (r' : raft S) : ballot :=
  if decide (rVote r' = NoneID) then h else <[(i, rTerm r') := rVote r']> h.

Lemma cast_sub members h i r r' m :
  node_inv members h i r -> (forall t v, h !! (i, t) = Some v -> v <> NoneID) ->
  election_step m r r' -> h ⊆ cast h i r'.
Proof.
  intros Hi Hnz He. unfold cast. case_decide as Hv; [done |].
  destruct (h !! (i, rTerm r')) as [v |] eqn:Hh; [| by apply insert_subseteq].
  pose proof (es_term _ _ _ He). destruct (ni_past _ _ _ _ Hi _ _ Hh) as [| [Ht Hrv]]; [lia |].
  rewrite (es_vote _ _ _ He Ht) by (rewrite Hrv; by eapply Hnz).
  rewrite Hrv, insert_id by done. done.
Qed.

Lemma cast_other h i r' j t : j <> i -> cast h i r' !! (j, t) = h !! (j, t).
Proof. intros Hne. unfold cast. case_decide; [done |]. apply lookup_insert_ne. congruence. Qed.

Lemma cast_self h i r' t :
  cast h i r' !! (i, t) =
    if decide (t = rTerm r' /\ rVote r' <> NoneID) then Some (rVote r') else h !! (i, t).
Proof.
  unfold cast. case_decide; case_decide as Ht; try tauto.
  - destruct Ht as [-> _]. by rewrite lookup_insert_eq.
  - apply lookup_insert_ne. intros [=]. apply Ht. split; congruence.
Qed.

(** The vote a step counts is on the ballot. *)
Lemma backs_cast members h i r r' m j :
  node_inv members h i r -> election_step (Some m) r r' -> h ⊆ cast h i r' ->
  (grants m -> h !! (mFrom m, mTerm m) = Some i /\ mTerm m <> 0) ->
  rState r' = StateCandidate \/ rState r' = StateLeader -> i <> NoneID ->
  backs (Some m) r r' j -> cast h i r' !! (j, rTerm r') = Some i.
Proof.
  intros Hi He Hsub Hm Hs Hnz. pose proof (ni_id _ _ _ _ Hi) as Hid. intros [-> | [(Hc & Ht & Hj) | (g & [= <-] & Hg & Hf & Ht)]].
  - rewrite Hid, cast_self. pose proof (proj2 (es_ok _ _ _ He) Hs) as Hv.
    rewrite (es_id _ _ _ He), Hid in Hv. rewrite decide_True by (split; congruence). congruence.
  - rewrite Ht. eapply lookup_weaken; [| exact Hsub]. by apply (ni_candidate _ _ _ _ Hi).
  - destruct (Hm Hg) as [Hh Hmt]. destruct Ht as [| Ht]; [done |]. rewrite <- Ht, <- Hf.
    by eapply lookup_weaken.
Qed.

Lemma node_inv_step members h i r r' m :
  node_inv members h i r -> (forall j t v, h !! (j, t) = Some v -> v <> NoneID) -> i <> NoneID ->
  election_step (Some m) r r' -> rTerm r' < max_u64 ->
  (grants m -> h !! (mFrom m, mTerm m) = Some i /\ mTerm m <> 0) ->
  node_inv members (cast h i r') i r'.
Proof.
  intros Hi Hnz Hi0 He Hmax Hm.
  assert (Hsub : h ⊆ cast h i r') by (eapply cast_sub; eauto).
  pose proof (es_term _ _ _ He). pose proof (ni_term _ _ _ _ Hi). pose proof (ni_id _ _ _ _ Hi).
  constructor.
  - rewrite (es_id _ _ _ He). done.
  - apply Hi.
  - rewrite (es_members _ _ _ He). apply Hi.
  - lia.
  - apply He.
  - intros Hv. rewrite cast_self. by rewrite decide_True.
  - intros t v. rewrite cast_self. case_decide as Ht; [intros [= <-]; right; tauto |].
    intros Hh. destruct (ni_past _ _ _ _ Hi _ _ Hh) as [| [-> Hv]]; [left; lia |].
    destruct (decide (rTerm r' = rTerm r)) as [Heq |]; [| left; lia]. right. split; [done |].
    rewrite (es_vote _ _ _ He Heq); [done |]. rewrite Hv. by eapply Hnz.
  - intros Hs j Hj. eapply backs_cast; eauto. by apply (es_candidate _ _ _ He).
  - intros Hs. destruct (es_leader _ _ _ He Hs) as [[Hl Ht] | (Q & HQ & HQb)].
    + destruct (ni_leader _ _ _ _ Hi Hl) as (Q & HQ & HQh). exists Q.
      rewrite (quorum_members r r') by apply He. split; [done |].
      intros j Hj. rewrite Ht. eapply lookup_weaken; [| exact Hsub]. auto.
    + exists Q. rewrite (quorum_members r r') by apply He. split; [done |].
      intros j Hj. eapply backs_cast; eauto.
Qed.

Lemma sent_inv_step members h i r r' m g :
  node_inv members h i r -> election_step (Some m) r r' -> rTerm r' < max_u64 ->
  sent_by r r' g -> soup_inv members (cast h i r') g.
Proof.
  intros Hi He Hmax. pose proof (es_term _ _ _ He). pose proof (ni_term _ _ _ _ Hi). pose proof (ni_id _ _ _ _ Hi) as Hid.
  intros [(t & Ht & Hng & Hv & Hgt) | (Hg & Hf & Hgt & Hto & Hnz)].
  - constructor; try done.
    + destruct Hgt as [[Hgt _] | [Hgt _]]; unfold max_u64 in *; lia.
    + destruct Hgt as [[Hgt Hfw] | [Hgt ?]]; [| done]. split; [done | lia].
    + intros Hmv. rewrite (Hv Hmv), Hid. apply Hi.
  - constructor.
    + lia.
    + split; [intros [Hp | Hp]; destruct Hg; congruence | lia].
    + intros Hmv. destruct Hg; congruence.
    + intros _. rewrite Hf, Hgt, Hto, Hid, cast_self. by rewrite decide_True.
Qed.

Lemma cluster_inv_step members h c i n n' m :
  NoneID ∉ members -> cluster_inv members h c -> cNodes c !! i = Some n ->
  election_step (Some m) (nRaft n) (nRaft n') -> rTerm (nRaft n') < max_u64 ->
  (grants m -> soup c m /\ mTo m = i) ->
  h ⊆ cast h i (nRaft n')
  /\ cluster_inv members (cast h i (nRaft n')) (c <| cNodes := <[i := n']> (cNodes c) |>).
Proof.
  intros H0' Hc Hn He Hmax Hm. pose proof (ci_nodes _ _ _ Hc _ _ Hn) as Hi.
  assert (Hi0 : i <> NoneID) by (intros ->; by apply H0', Hi).
  assert (Hnz : forall j t v, h !! (j, t) = Some v -> v <> NoneID) by (intros ??? Hh; apply (ci_ballot _ _ _ Hc _ _ _ Hh)).
  assert (Hsub : h ⊆ cast h i (nRaft n')) by (eapply cast_sub; eauto).
  assert (Hgm : grants m -> h !! (mFrom m, mTerm m) = Some i /\ mTerm m <> 0).
  { intros Hg. destruct (Hm Hg) as [Hs Hto]. pose proof (ci_soup _ _ _ Hc _ Hs) as [_ Hf _ Hgr].
    split; [rewrite <- Hto; by apply Hgr |]. intros Hz%Hf. destruct Hg, Hz; congruence. }
  split; [done |]. constructor.
  - intros j nj. simpl. rewrite lookup_insert. case_decide as Hij; [intros [= <-]; subst j; by eapply node_inv_step |].
    intros Hj. eapply node_inv_mono; [exact Hsub | | by apply (ci_nodes _ _ _ Hc)].
    intros t. apply cast_other. congruence.
  - intros g [Hg | (j & nj & Hj & Hg)]; simpl in *.
    + eapply soup_inv_mono; [exact Hsub |]. apply (ci_soup _ _ _ Hc). by left.
    + rewrite lookup_insert in Hj. case_decide as Hij.
      * injection Hj as <-. destruct (es_msgs _ _ _ He) as (out & Hout & Hsent).
        rewrite Hout in Hg. apply elem_of_app in Hg as [Hg | Hg].
        -- eapply soup_inv_mono; [exact Hsub |]. apply (ci_soup _ _ _ Hc). right. eauto.
        -- rewrite Forall_forall in Hsent. eapply sent_inv_step; eauto.
      * eapply soup_inv_mono; [exact Hsub |]. apply (ci_soup _ _ _ Hc). right. eauto.
  - intros j t v. destruct (decide (j = i)) as [-> | Hij].
    + rewrite cast_self. case_decide as Hv; [| by apply (ci_ballot _ _ _ Hc)].
      intros [= <-]. split; [apply Hi | tauto].
    + rewrite cast_other by done. apply (ci_ballot _ _ _ Hc).
Qed.

(** ** One turn of the loop *)

Lemma refresh_raft n n1 :
  refresh n = Ret n1 -> nRaft n1 = nRaft n /\ advanceOpen n1 = advanceOpen n
    /\ (readyOpen n1 = true -> rdMessage (nReady n1) = msgs (nRaft n)).
Proof.
  unfold refresh, newReady. destruct (advanceOpen n) eqn:Ha; intros Hr; inv_ret; done.
Qed.

Lemma on_advance_quiet n n' : on_advance n = Ret n' -> quiet (nRaft n) (nRaft n').
Proof. unfold on_advance. intros Hr. inv_ret. destruct v1. inv_ret. quiet_set. Qed.

Definition local_ok (ev : event) : Prop :=
  match ev with
  | EvProc m | EvRecv m => msg_ok m
  | EvTick | EvAdvance => True
  | _ => False
  end.

Definition event_msg (i : Z) (ev : event) : option Message :=
  match ev with
  | EvProc m => Some (m <| mFrom := i |>)
  | EvRecv m => Some m
  | _ => None
  end.

Lemma run_step_election n ev n' out :
  0 <= rTerm (nRaft n) < max_u64 -> node_ok (nRaft n) -> rId (nRaft n) <> NoneID -> local_ok ev ->
  run_step n ev = Ret (Some (n', out)) ->
  exists m, election_step (Some m) (nRaft n) (nRaft n')
    /\ (grants m -> event_msg (rId (nRaft n)) ev = Some m).
Proof.
  intros Hterm Hok Hid Hl Hr. unfold run_step in Hr. inv_ret.
  match goal with Hf : refresh n = Ret ?x |- _ => destruct (refresh_raft _ _ Hf) as (Hn & Ha & _); rename x into n1 end.
  rewrite Hn in Hr. destruct ev; simpl in Hl; try done; inv_ret; simpl.
  - exists (m <| mFrom := rId (nRaft n) |>). split; [| done].
    eapply Step_election; try done. destruct Hl. constructor; done.
  - exists m. split; [| done]. by eapply Step_election.
  - destruct (tick_election _ _ Hterm Hok Hid E0) as (m & He & Hg). exists m. split; [done |]. by intros ?.
  - destruct (advanceOpen n1); inv_ret. exists (message MsgHup).
    split; [| by intros [? _]]. apply election_quiet; [done |]. rewrite <- Hn. by apply on_advance_quiet.
Qed.

Lemma run_step_ready n n' out :
  run_step n EvReady = Ret (Some (n', out)) ->
  exists rd, out = OutReady rd /\ rdMessage rd = msgs (nRaft n)
    /\ nRaft n' = nRaft n <| msgs := [] |> <| readStates := [] |>.
Proof.
  intros Hr. unfold run_step in Hr. inv_ret.
  match goal with Hf : refresh n = Ret ?x |- _ => destruct (refresh_raft _ _ Hf) as (Hn & Ha & Hrd); rename x into n1 end.
  destruct (readyOpen n1) eqn:Ho; inv_ret. exists (nReady n1). split_and!; [done | auto |].
  unfold on_ready. rewrite <- Hn.
  destruct (rdSoftState _), (IsEmptyHardState _), (last _); done.
Qed.

Lemma msg_ok_local l : local_ok (local_event l).
Proof.
  destruct l; simpl; try done; unfold node_step; simpl;
    (constructor; simpl; [unfold max_u64; lia | done | done | done]).
Qed.

Lemma soup_msg_ok members h m : NoneID ∉ members -> soup_inv members h m -> msg_ok m.
Proof.
  intros Hn []. constructor; try done.
  - intros Hv Hf. apply Hn. rewrite <- Hf. auto.
  - intros Hh Hz%si_forwarded0. destruct Hz; congruence.
  - by apply si_forwarded0.
Qed.

Lemma turn_inv members h c i ev c' out :
  NoneID ∉ members -> cluster_inv members h c -> local_ok ev ->
  (forall m, event_msg i ev = Some m -> grants m -> soup c m /\ mTo m = i) ->
  turn c i ev = Some (c', out) ->
  exists h', h ⊆ h' /\ cluster_inv members h' c'.
Proof.
  intros Hn0 Hc Hl Hm. unfold turn. destruct (cNodes c !! i) as [n |] eqn:Hn; [| done].
  pose proof (ci_nodes _ _ _ Hc _ _ Hn) as Hi. pose proof (ni_id _ _ _ _ Hi) as Hid.
  destruct (run_step n ev) as [[[n' out'] |] |] eqn:Hr; try done.
  case_decide as Hmax; [| done]. intros [= <- <-].
  pose proof (ni_term _ _ _ _ Hi).
  destruct (run_step_election n ev n' out') as (m & He & Hg); try done; [lia | apply Hi | |].
  { rewrite Hid. intros ->. by apply Hn0, Hi. }
  eexists. apply (cluster_inv_step members h c i n n' m); try done.
  intros Hgm. rewrite Hid in Hg. auto.
Qed.

Lemma cexec_inv members h c a c' :
  NoneID ∉ members -> cluster_inv members h c -> cexec c a = Some c' ->
  exists h', h ⊆ h' /\ cluster_inv members h' c'.
Proof.
  intros Hn0 Hc. destruct a as [k | i l | i]; simpl.
  - destruct (cNet c !! k) as [m |] eqn:Hk; [| done].
    assert (Hs : soup c m) by (left; by eapply list_elem_of_lookup_2).
    pose proof (soup_msg_ok _ _ _ Hn0 (ci_soup _ _ _ Hc _ Hs)) as Hok.
    destruct (turn c (mTo m) (node_step m)) as [[c1 out] |] eqn:Ht; simpl; [| done].
    intros [= <-]. eapply (turn_inv _ _ _ _ _ _ _ Hn0 Hc); [| | exact Ht].
    + unfold node_step. by case_decide.
    + intros m'. unfold node_step. case_decide as Hp; simpl; intros [= <-] Hg.
      * destruct Hg as [Hg _]. simpl in Hg. congruence.
      * done.
  - destruct (turn c i (local_event l)) as [[c1 out] |] eqn:Ht; simpl; [| done].
    intros [= <-]. eapply (turn_inv _ _ _ _ _ _ _ Hn0 Hc); [apply msg_ok_local | | exact Ht].
    intros m'. destruct l; simpl; try done; unfold node_step; simpl; intros [= <-] [Hg _]; done.
  - destruct (turn c i EvReady) as [[c1 out] |] eqn:Ht; [| done].
    unfold turn in Ht. destruct (cNodes c !! i) as [n |] eqn:Hn; [| done].
    destruct (run_step n EvReady) as [[[n' out'] |] |] eqn:Hr; try done.
    case_decide as Hmax; [| done]. injection Ht as <- <-.
    destruct (run_step_ready _ _ _ Hr) as (rd & -> & Hmsg & Hn'). intros [= <-].
    exists h. split; [done |]. pose proof (ci_nodes _ _ _ Hc _ _ Hn) as Hi. constructor; simpl.
    + intros j nj. rewrite lookup_insert. case_decide as Hij; [| by apply (ci_nodes _ _ _ Hc)].
      intros [= <-]. subst j. rewrite Hn'. destruct Hi. by constructor.
    + intros g [Hg | (j & nj & Hj & Hg)]; simpl in *.
      * apply (ci_soup _ _ _ Hc). apply elem_of_app in Hg as [Hg | Hg]; [by left |].
        right. exists i, n. by rewrite <- Hmsg.
      * apply (ci_soup _ _ _ Hc). rewrite lookup_insert in Hj. case_decide; [| right; eauto].
        injection Hj as <-. rewrite Hn' in Hg. simpl in Hg. set_solver.
    + apply Hc.
Qed.

Lemma crun_inv members h c acts c' :
  NoneID ∉ members -> cluster_inv members h c -> crun c acts = Some c' ->
  exists h', h ⊆ h' /\ cluster_inv members h' c'.
Proof.
  intros Hn0. revert h c. induction acts as [| a acts IH]; simpl; intros h c Hc Hr.
  - injection Hr as <-. eauto.
  - destruct (cexec c a) as [c1 |] eqn:Ha; [| done].
    destruct (cexec_inv _ _ _ _ _ Hn0 Hc Ha) as (h1 & ? & Hc1).
    destruct (IH h1 c1 Hc1 Hr) as (h' & ? & ?). exists h'. split; [by etrans | done].
Qed.

(** ** Booting *)

Lemma foldl_members (peers : list Z) (m : gmap Z Progress) :
  dom (foldl (fun prs peer => <[peer := zero_progress <| pNext := 1 |>]> prs) m peers)
    = list_to_set peers ∪ dom m.
Proof.
  revert m. induction peers as [| p peers IH]; intros m; simpl; [set_solver |].
  rewrite IH, dom_insert_L. set_solver.
Qed.

Record blank (i : Z) (r : raft S) : Prop := {
  bl_id : rId r = i;
  bl_term : rTerm r = 1;
  bl_vote : rVote r = NoneID;
  bl_state : rState r = StateFollower;
  bl_step : rStep r = StepFollower;
  bl_msgs : msgs r = [];
}.

Lemma newRaft_blank conf draws st r :
  cStorage conf = Some st -> st_InitialState st = Ret (Ok (emptyHardState, mkConfState [])) ->
  newRaft conf draws = Ret r -> blank (cID conf) r /\ dom (prs r) = list_to_set (cPeers conf).
Proof.
  intros Hst His. unfold newRaft, must. rewrite Hst, His. cbn [obind]. cbn -[becomeFollower]. intros Hr.
  inv_ret. cbn -[becomeFollower].
  match goal with |- context [becomeFollower ?r0 1 NoneID] =>
    pose proof (becomeFollower_fresh r0 1 NoneID ltac:(done)) as Hf;
    pose proof (becomeFollower_term r0 1 NoneID) as Ht;
    assert (Hv : rVote (becomeFollower r0 1 NoneID) = NoneID) by (apply becomeFollower_vote; done);
    assert (Hs : rState (becomeFollower r0 1 NoneID) = StateFollower) by done;
    assert (Hp : rStep (becomeFollower r0 1 NoneID) = StepFollower) by done;
    generalize dependent (becomeFollower r0 1 NoneID) end.
  intros r1 Hf Ht Hv Hs Hp. split.
  - constructor; try done; [apply (f_id _ _ Hf) | apply (f_msgs _ _ Hf)].
  - rewrite (f_members _ _ Hf). cbn. rewrite foldl_members, dom_empty_L.
    destruct (cPeers conf); set_solver.
Qed.

Lemma addNode_blank i r id r' :
  blank i r -> addNode r id = Ret r' -> blank i r' /\ dom (prs r') = {[ id ]} ∪ dom (prs r).
Proof.
  intros Hb. unfold addNode. destruct (prs r !! id) eqn:Hid; intros Hr; inv_ret.
  - split; [done |]. apply elem_of_dom_2 in Hid. set_solver.
  - simpl. split; [destruct Hb; by constructor | apply dom_insert_L].
Qed.

Lemma addNodes_blank i (peers : list Peer) r r' :
  blank i r -> ofold (fun peer r => addNode r (peerID peer)) peers r = Ret r' ->
  blank i r' /\ dom (prs r') = list_to_set (map peerID peers) ∪ dom (prs r).
Proof.
  revert r. induction peers as [| p peers IH]; simpl; intros r Hb Hr; inv_ret; [split; [done | set_solver] |].
  destruct (addNode_blank _ _ _ _ Hb E) as [Hb1 Hd1]. destruct (IH _ Hb1 Hr) as [Hb' ->].
  split; [done |]. rewrite Hd1. set_solver.
Qed.

Lemma booted_inv members i n :
  i ∈ members -> booted members i n -> node_inv members ∅ i (nRaft n) /\ msgs (nRaft n) = [].
Proof.
  intros Hi (conf & peers & draws & st & Hid & Hst & His & Hmem & Hn).
  unfold StartNode in Hn. inv_ret.
  match goal with Hr : newRaft _ _ = Ret _ |- _ => destruct (newRaft_blank _ _ _ _ Hst His Hr) as [Hb Hd] end.
  match goal with Hr : ofold _ _ _ = Ret _ |- _ => destruct (addNodes_blank _ _ _ _ Hb Hr) as [[] Hd'] end.
  simpl. split; [| done]. constructor; simpl; try done.
  - rewrite Hd', Hd, list_to_set_app_L. set_solver.
  - rewrite bl_term0. unfold max_u64. lia.
  - split; [unfold role_ok; simpl; by rewrite bl_state0 | simpl; rewrite bl_state0; by intros []].
  - by rewrite bl_state0.
  - by rewrite bl_state0.
Qed.

Lemma init_inv members c : cluster_init members c -> cluster_inv members ∅ c.
Proof.
  intros [Hnet Hnodes]. constructor.
  - intros i n Hn. destruct (Hnodes i n Hn). by apply booted_inv.
  - intros g [Hg | (i & n & Hn & Hg)].
    + rewrite Hnet in Hg. set_solver.
    + destruct (Hnodes i n Hn). destruct (booted_inv members i n) as [_ Hm]; [done.. |].
      rewrite Hm in Hg. set_solver.
  - intros j t v Hh. by rewrite lookup_empty in Hh.
Qed.

(** ** Quorums *)

Lemma quorum_intersect (members Q1 Q2 : gset Z) (r1 r2 : raft S) :
  Q1 ⊆ members -> Q2 ⊆ members -> dom (prs r1) = members -> dom (prs r2) = members ->
  quorum r1 <= Z.of_nat (size Q1) -> quorum r2 <= Z.of_nat (size Q2) ->
  exists j, j ∈ Q1 /\ j ∈ Q2.
Proof.
  intros H1 H2 Hd1 Hd2 Hq1 Hq2. unfold quorum in *.
  rewrite <- size_dom in Hq1, Hq2. rewrite Hd1 in Hq1. rewrite Hd2 in Hq2.
  rewrite !Z.shiftr_div_pow2 in * by lia. change (2 ^ 1) with 2 in *.
  pose proof (Z.div_mod (Z.of_nat (size members)) 2 ltac:(lia)).
  pose proof (Z.mod_pos_bound (Z.of_nat (size members)) 2 ltac:(lia)).
  destruct (decide (Q1 ∩ Q2 = ∅)) as [He | He].
  - exfalso. assert (Hsz : (size (Q1 ∪ Q2) <= size members)%nat) by (apply subseteq_size; set_solver).
    rewrite size_union in Hsz by set_solver. lia.
  - apply set_choose_L in He as [j Hj]. exists j. set_solver.
Qed.

(** ** Election safety *)

(** C1: election safety: a cluster booted by [StartNode], over a network that
    delays, reorders, duplicates and loses messages, never has two different
    leaders of the same term, not even at different moments of a run. *)
Theorem election_safety members c0 acts1 c1 acts2 c2 i j t :
  NoneID ∉ members -> cluster_init members c0 ->
  crun c0 acts1 = Some c1 -> crun c1 acts2 = Some c2 ->
  is_leader c1 i t -> is_leader c2 j t -> i = j.
Proof.
  intros Hn0 Hinit Hr1 Hr2 (n1 & Hn1 & Hl1 & Ht1) (n2 & Hn2 & Hl2 & Ht2).
  destruct (crun_inv _ _ _ _ _ Hn0 (init_inv _ _ Hinit) Hr1) as (h1 & _ & Hc1).
  destruct (crun_inv _ _ _ _ _ Hn0 Hc1 Hr2) as (h2 & Hsub & Hc2).
  pose proof (ci_nodes _ _ _ Hc1 _ _ Hn1) as Hi1. pose proof (ci_nodes _ _ _ Hc2 _ _ Hn2) as Hi2.
  destruct (ni_leader _ _ _ _ Hi1 Hl1) as (Q1 & HQ1 & Hv1).
  destruct (ni_leader _ _ _ _ Hi2 Hl2) as (Q2 & HQ2 & Hv2).
  rewrite Ht1 in Hv1. rewrite Ht2 in Hv2.
  destruct (quorum_intersect members Q1 Q2 (nRaft n1) (nRaft n2)) as (k & Hk1 & Hk2); try done.
  - intros k Hk. by apply (ci_ballot _ _ _ Hc1 k t i), Hv1.
  - intros k Hk. by apply (ci_ballot _ _ _ Hc2 k t j), Hv2.
  - apply Hi1.
  - apply Hi2.
  - specialize (Hv1 k Hk1). specialize (Hv2 k Hk2).
    eapply lookup_weaken in Hv1; [| exact Hsub]. congruence.
Qed.

End Cluster.


(** ** A concrete cluster: three nodes over empty storages, one election. *)

#[local] Existing Instance canonical_order.

Definition sample_config (id : Z) : Config MemoryStorage :=
  mkConfig id [1; 2; 3] (Some Mem.NewMemoryStorage) 0 false 10 1.
Definition sample_boot (id : Z) : option (nodeLoop MemoryStorage) :=
  match StartNode (sample_config id) [] [] with Ret n => Some n | Panic _ => None end.
Definition sample_cluster : cluster (S := MemoryStorage) :=
  mkCluster (omap sample_boot (list_to_map [(1, 1); (2, 2); (3, 3)] : gmap Z Z)) [].
Definition sample_election : list action :=
  [Local 1 LCampaign; TakeReady 1; Deliver 0; TakeReady 3; Deliver 2].

Lemma sample_booted id n :
  StartNode (sample_config id) [] [] = Ret n -> booted {[1; 2; 3]} id n.
Proof.
  intros Hs. exists (sample_config id), [], [], Mem.NewMemoryStorage.
  split; [reflexivity |]. split; [reflexivity |]. split; [reflexivity |]. split; [| exact Hs].
  apply set_eq. intros k. cbn [cPeers sample_config map app list_to_set]. set_solver.
Qed.

Lemma sample_boot_booted id n : sample_boot id = Some n -> booted {[1; 2; 3]} id n.
Proof.
  unfold sample_boot. intros Hb. apply sample_booted. revert Hb.
  generalize (StartNode (sample_config id) [] []). intros [n' |] Hb; [| discriminate Hb].
  injection Hb as <-. reflexivity.
Qed.

Lemma sample_nodes (f : Z -> option (nodeLoop MemoryStorage)) i n :
  omap f (list_to_map [(1, 1); (2, 2); (3, 3)] : gmap Z Z) !! i = Some n ->
  f i = Some n /\ i ∈ ({[1; 2; 3]} : gset Z).
Proof.
  rewrite lookup_omap_Some. intros (id & Hb & Hid). simpl in Hid.
  repeat (apply lookup_insert_Some in Hid as [[<- <-] | [_ Hid]]; [split; [done | set_solver] |]).
  by rewrite lookup_empty in Hid.
Qed.

Lemma sample_cluster_init : cluster_init {[1; 2; 3]} sample_cluster.
Proof.
  split; [reflexivity |]. intros i n Hi. apply (sample_nodes sample_boot) in Hi as [Hb Hi].
  split; [exact Hi |]. by apply sample_boot_booted.
Qed.

Definition role_of (c : cluster (S := MemoryStorage)) (i : Z) : option (StateType * Z) :=
  (fun n => (rState (nRaft n), rTerm (nRaft n))) <$> cNodes c !! i.

Lemma is_leader_check c i t : role_of c i = Some (StateLeader, t) -> is_leader c i t.
Proof.
  unfold role_of, is_leader. destruct (cNodes c !! i) as [n |]; [| done].
  intros [= Hl Ht]. by exists n.
Qed.

Lemma sample_members_ok : NoneID ∉ ({[1; 2; 3]} : gset Z).
Proof. unfold NoneID. set_solver. Qed.

Lemma election_safety_witness :
  match crun sample_cluster sample_election with
  | Some c1 =>
      role_of c1 1 = Some (StateLeader, 2) /\
      match crun c1 [Local 1 (LPropose [5]); Local 3 LTick] with
      | Some c2 => forall j, is_leader c2 j 2 -> 1 = j
      | None => False
      end
  | None => False
  end.
Proof.
  destruct (crun sample_cluster sample_election) as [c1 |] eqn:H1.
  2: { vm_compute in H1. discriminate H1. }
  assert (Hc : Some c1 = crun sample_cluster sample_election) by (by symmetry).
  assert (Hl : role_of c1 1 = Some (StateLeader, 2)).
  { change (role_of c1 1) with (match Some c1 with Some c => role_of c 1 | None => None end).
    rewrite Hc. vm_compute. reflexivity. }
  split; [exact Hl |].
  destruct (crun c1 [Local 1 (LPropose [5]); Local 3 LTick]) as [c2 |] eqn:H2.
  - intros j Hj.
    apply (election_safety {[1; 2; 3]} sample_cluster sample_election c1 [Local 1 (LPropose [5]); Local 3 LTick] c2 1 j 2).
    + exact sample_members_ok.
    + exact sample_cluster_init.
    + exact H1.
    + exact H2.
    + exact (is_leader_check c1 1 2 Hl).
    + exact Hj.
  - change (crun c1 [Local 1 (LPropose [5]); Local 3 LTick]) with
      (match Some c1 with Some c => crun c [Local 1 (LPropose [5]); Local 3 LTick] | None => None end) in H2.
    rewrite Hc in H2. vm_compute in H2. discriminate H2.
Defined.
