(* ===== verification/RaftSafety.v ===== *)
(** * RaftSafety
    Commitment, reads and configuration of the Raft core, one node at a time:
    what a leader may commit, what no step may change, and where the code
    falls short of the protocol. *)
From S2P Require Import Prelude RaftTypes RaftStorage RaftLog RaftLogFacts RaftCore RaftNode RaftElection.

Section Safety.
  Context {S : Type} `{HS : StorageSpec S} `{MapOrder}.
  Implicit Types r : raft S.

(** ** Commitment *)

(** Replication progress is never negative. *)
Definition prs_ok r : Prop := forall j pr, prs r !! j = Some pr -> 0 <= pMatch pr.

(** The members [Q] are known to hold the log up to index [n]. *)
Definition replicated r (n : Z) (Q : gset Z) : Prop :=
  forall j, j ∈ Q -> exists pr, prs r !! j = Some pr /\ n <= pMatch pr.

Lemma replicated_count r n :
  let l := filter (fun p : Z * Progress => n <= pMatch p.2) (map_to_list (prs r)) in
  replicated r n (list_to_set l.*1) /\ size (list_to_set l.*1 : gset Z) = length l.
Proof.
  intros l. split.
  - intros j Hj. apply elem_of_list_to_set, list_elem_of_fmap in Hj as ([k pr] & -> & Hl).
    apply list_elem_of_filter in Hl as [Hn Hl]. apply elem_of_map_to_list in Hl. eauto.
  - rewrite size_list_to_set, length_fmap; [done |].
    eapply sublist_NoDup; [apply (NoDup_fst_map_to_list (prs r)) |]. apply fmap_sublist, sublist_filter.
Qed.

Lemma replicated_bound r n Q :
  replicated r n Q -> (size Q <= length (filter (fun p : Z * Progress => (n <= pMatch p.2)%Z) (map_to_list (prs r))))%nat.
Proof.
  intros HQ. rewrite <- (proj2 (replicated_count r n)). apply subseteq_size.
  intros j Hj. destruct (HQ j Hj) as (pr & Hpr & Hn).
  apply elem_of_list_to_set, list_elem_of_fmap. exists (j, pr). split; [done |].
  apply list_elem_of_filter. split; [done |]. by apply elem_of_map_to_list.
Qed.

Lemma filter_matches r n :
  length (filter (fun y => n <= y) (sort_desc (omap (fun id => pMatch <$> prs r !! id) (range_keys (prs r)))))
    = length (filter (fun p : Z * Progress => n <= pMatch p.2) (map_to_list (prs r))).
Proof.
  rewrite sort_desc_perm, range_values_perm. apply filter_map_length.
Qed.

(** The order statistic that [maybeCommit] picks. *)
Lemma commit_candidate r mid :
  index (sort_desc (omap (fun id => pMatch <$> prs r !! id) (range_keys (prs r)))) (quorum r - 1) = Ret mid ->
  (exists Q, replicated r mid Q /\ quorum r <= Z.of_nat (size Q))
  /\ (forall n Q, mid < n -> replicated r n Q -> Z.of_nat (size Q) < quorum r).
Proof.
  intros Hi. apply index_ret in Hi as [Hq Hi].
  pose proof (sorted_desc_count _ _ _ (sort_desc_sorted _) Hi) as Hc. rewrite filter_matches in Hc.
  split.
  - destruct (replicated_count r mid) as [HQ HQs]. eexists. split; [exact HQ |]. rewrite HQs. lia.
  - intros n Q Hn HQ%replicated_bound. destruct (decide (Z.of_nat (size Q) < quorum r)); [done |].
    assert (n <= mid); [| lia]. eapply sorted_desc_max; [apply sort_desc_sorted | exact Hi |].
    rewrite filter_matches. lia.
Qed.

Lemma candidate_nonneg r mid :
  prs_ok r ->
  index (sort_desc (omap (fun id => pMatch <$> prs r !! id) (range_keys (prs r)))) (quorum r - 1) = Ret mid ->
  0 <= mid.
Proof.
  intros Hpos E. apply index_ret in E as [_ E]. apply list_elem_of_lookup_2 in E.
  rewrite sort_desc_perm in E. apply list_elem_of_omap in E as (j & _ & Hj).
  destruct (prs r !! j) as [pr |] eqn:Hpr; [| done]. injection Hj as <-. by eapply Hpos.
Qed.

(** More than half of the members. *)
Definition majority r (Q : gset Z) : Prop := Z.of_nat (size (prs r)) < 2 * Z.of_nat (size Q).

Lemma quorum_majority r Q : quorum r <= Z.of_nat (size Q) <-> majority r Q.
Proof. unfold quorum, majority. rewrite Z.shiftr_div_pow2 by lia. change (2 ^ 1) with 2. pose proof (Z.div_mod (Z.of_nat (size (prs r))) 2). pose proof (Z.mod_pos_bound (Z.of_nat (size (prs r))) 2). lia. Qed.

Lemma quorum_fits r : prs r <> ∅ -> 0 <= quorum r - 1 < Z.of_nat (size (prs r)).
Proof.
  intros Hne. assert (size (prs r) <> 0)%nat by by rewrite map_size_non_empty_iff.
  unfold quorum. rewrite Z.shiftr_div_pow2 by lia. change (2 ^ 1) with 2. pose proof (Z.div_mod (Z.of_nat (size (prs r))) 2). pose proof (Z.mod_pos_bound (Z.of_nat (size (prs r))) 2). lia.
Qed.

(** C3: let [n] be the highest index that more than half of the members have
    replicated. [maybeCommit] never panics; when [n] is beyond the commit index
    and its entry is of the leader's own term it commits [n] and says so, and
    otherwise it says no and changes nothing. *)
Theorem maybeCommit_needs_quorum r :
  log_ok (rLog r) -> 0 < rTerm r -> prs_ok r -> prs r <> ∅ ->
  exists n, (exists Q, replicated r n Q /\ majority r Q)
  /\ (forall n' Q, n < n' -> replicated r n' Q -> ~ majority r Q)
  /\ maybeCommit r =
       if decide (commitIndex (rLog r) < n /\ term_at (rLog r) n = Some (rTerm r))
       then Ret (r <| rLog := rLog r <| commitIndex := n |> |>, true) else Ret (r, false).
Proof.
  intros Hok Ht Hpos Hne.
  assert (exists n, index (sort_desc (omap (fun id => pMatch <$> prs r !! id) (range_keys (prs r)))) (quorum r - 1) = Ret n) as [n Hn].
  { destruct (index_total (sort_desc (omap (fun id => pMatch <$> prs r !! id) (range_keys (prs r)))) (quorum r - 1)) as (n & Hn & _); [| by exists n]. unfold zlen. rewrite sort_desc_perm, range_values_perm, length_fmap, length_map_to_list.
    by apply quorum_fits. }
  exists n. destruct (commit_candidate r n Hn) as [(Q & HQ & HQs) Hmax]. split; [| split].
  - exists Q. split; [done |]. by apply quorum_majority.
  - intros n' Q' Hlt HQ' Hm%quorum_majority. specialize (Hmax n' Q' Hlt HQ'). lia.
  - unfold maybeCommit. rewrite Hn. cbn [obind]. rewrite log_maybeCommit_spec by eauto using candidate_nonneg.
    case_decide; cbn [obind]; [done |]. by destruct r.
Qed.

(** ** Which calls leave the log alone *)

Definition same_log r r' : Prop := rLog r' = rLog r /\ prs r' = prs r.

#[local] Instance same_log_preorder : PreOrder same_log.
Proof.
  split; [done |]. intros x y z [Hl Hp] [Hl' Hp']. split; congruence.
Qed.

#[local] Opaque reset.

Lemma reset_log r t : same_log r (reset r t).
Proof. destruct (reset_fields r t) as (_ & _ & Hp & _ & _ & _ & _ & Hl & _). split; [exact Hl | exact Hp]. Qed.

Lemma becomeFollower_log r t l : same_log r (becomeFollower r t l).
Proof.
  assert (Heq : forall r1 : raft S, same_log r r1 ->
    same_log r (r1 <| rStep := StepFollower |> <| rTick := TickElection |>
      <| lead := l |> <| rState := StateFollower |>)) by done.
  apply Heq, reset_log.
Qed.

Lemma sendHeartbeat_log ctx id r r' : sendHeartbeat ctx id r = Ret r' -> same_log r r'.
Proof. unfold sendHeartbeat. destruct (prs r !! id); intros; by inv_ret. Qed.

Lemma sendAppend_log to r r' : sendAppend to r = Ret r' -> same_log r r'.
Proof. unfold sendAppend. destruct (prs r !! to); intros; by inv_ret. Qed.

Lemma sendVote_log term t id r r' : sendVote term t id r = Ret r' -> same_log r r'.
Proof. unfold sendVote. intros; by inv_ret. Qed.

Ltac loop_log lem :=
  apply ofold_rel; [apply _ |]; intros ? ? ? _; case_decide; intros ?; inv_ret; [done | by eapply lem].

Lemma broadcastHeartbeat_log ctx r r' : broadcastHeartbeatWithCtx r ctx = Ret r' -> same_log r r'.
Proof. loop_log sendHeartbeat_log. Qed.

Lemma broadcastAppend_log r r' : broadcastAppend r = Ret r' -> same_log r r'.
Proof. loop_log sendAppend_log. Qed.

Lemma requestVotes_log term t r r' : requestVotes term t r = Ret r' -> same_log r r'.
Proof. loop_log sendVote_log. Qed.

Lemma deliver_read_log rs r r' : deliver_read rs r = Ret r' -> same_log r r'.
Proof. unfold deliver_read. case_decide; intros; by inv_ret. Qed.

Lemma leader_readIndex_log r m r' : leader_readIndex r m = Ret r' -> same_log r r'.
Proof.
  unfold leader_readIndex. destruct (prs r !! rId r); [| intros; by inv_ret].
  case_decide; [| intros; by inv_ret]. intros Hr. inv_ret. case_decide; inv_ret; [done |].
  destruct (addRequest _ _ _ _) as [ro []]; inv_ret; [| done].
  apply broadcastHeartbeat_log in Hr. done.
Qed.

Lemma leader_heartbeatResp_log r m r' : leader_heartbeatResp r m = Ret r' -> same_log r r'.
Proof.
  unfold leader_heartbeatResp. case_decide; [intros; by inv_ret |].
  destruct (recvAck _ _ _) as [ro acks]. case_decide; intros Hr; inv_ret; [done |].
  destruct v as [ro' rss]. apply (ofold_rel same_log) in Hr; [done |].
  intros. by eapply deliver_read_log.
Qed.

(** ** Which calls extend the log *)

(** The entries of a call fit below the last index. *)
Definition room r (k : Z) : Prop := last_index (rLog r) + 1 + k <= max_index.

Definition grows r r' : Prop := extends (rLog r) (rLog r') /\ (prs_ok r -> prs_ok r').

Lemma grows_same r r' : log_ok (rLog r) -> same_log r r' -> grows r r'.
Proof.
  intros Hok [Hl Hp]. unfold grows, prs_ok. rewrite Hl, Hp. split; [by apply extends_same_view | done].
Qed.

Lemma grows_refl r : log_ok (rLog r) -> grows r r.
Proof. intros. by apply grows_same. Qed.

Lemma grows_trans r1 r2 r3 : grows r1 r2 -> grows r2 r3 -> grows r1 r3.
Proof. intros [He1 Hp1] [He2 Hp2]. split; [by eapply extends_trans | auto]. Qed.

Lemma grows_ok r r' : grows r r' -> log_ok (rLog r').
Proof. by intros [[] _]. Qed.

Lemma grows_same_after r r1 r2 : grows r r1 -> same_log r1 r2 -> grows r r2.
Proof. intros Hg Hs. eapply grows_trans; [done |]. apply grows_same; [by eapply grows_ok | done]. Qed.

Lemma grows_same_before r r1 r2 : log_ok (rLog r) -> same_log r r1 -> grows r1 r2 -> grows r r2.
Proof. intros. eapply grows_trans; [by apply grows_same | done]. Qed.

Lemma grows_log r log : extends (rLog r) log -> grows r (r <| rLog := log |>).
Proof. intros. by split. Qed.

Lemma grows_prs r id pr :
  log_ok (rLog r) -> (prs_ok r -> 0 <= pMatch pr) -> grows r (r <| prs := <[id := pr]> (prs r) |>).
Proof.
  intros Hok Hpr. split; [by apply extends_same_view |]. intros Hp j pr'. simpl.
  intros [[_ <-] | [_ Hj]]%lookup_insert_Some; [auto | by eapply Hp].
Qed.

Lemma maybeUpdate_match pr n : 0 <= pMatch pr -> 0 <= pMatch (maybeUpdate pr n).2.
Proof.
  unfold maybeUpdate. intros. destruct (bool_decide_reflect (pMatch pr < n)); simpl;
    destruct (bool_decide _); simpl; lia.
Qed.

#[local] Opaque maybeUpdate.

Lemma maybeCommit_grows r r' b :
  log_ok (rLog r) -> 0 < rTerm r -> prs_ok r -> maybeCommit r = Ret (r', b) -> grows r r'.
Proof.
  intros Hok Ht Hpos Hr. unfold maybeCommit in Hr. inv_ret. destruct v0 as [log b'].
  inv_ret. apply grows_log.
  rewrite log_maybeCommit_spec in E0 by (done || eauto using candidate_nonneg).
  case_decide as Hc; inv_ret; [| by apply extends_same_view].
  apply extends_same_view; simpl; [| done | lia | done].
  apply log_ok_commit; [done |]. destruct Hc as [Hc Hterm]. split; [lia |].
  destruct (decide (v <= last_index (rLog r))); [done |].
  rewrite term_at_out in Hterm by (done || lia). done.
Qed.

Lemma stamp_facts t es i :
  0 < t -> 0 <= i -> i + zlen es < 2 ^ 64 ->
  contiguous i (stamp t i es) /\ zlen (stamp t i es) = zlen es
  /\ Forall (fun e => 0 < eTerm e) (stamp t i es).
Proof.
  intros Ht. revert i. induction es as [| e es IH]; intros i Hi Hle; simpl; [by auto using contiguous_nil |].
  rewrite zlen_cons in *. pose proof (zlen_nonneg es). rewrite u64_id by (unfold is_u64; lia).
  destruct (IH (i + 1)) as (Hc & Hz & Hf); [lia | lia |].
  rewrite contiguous_cons, zlen_cons, Hz. split_and!; try done. by constructor.
Qed.

Lemma stamp_nonempty t i es : es <> [] -> stamp t i es <> [].
Proof. by destruct es. Qed.

Lemma appendEntry_grows r es r' :
  log_ok (rLog r) -> 0 < rTerm r -> prs_ok r -> es <> [] -> room r (zlen es) ->
  appendEntry r es = Ret r' -> grows r r'.
Proof.
  intros Hok Ht Hp Hne Hroom Hr. unfold appendEntry, room, max_index in *. inv_ret.
  rewrite lastIndex_spec in E by done. injection E as <-.
  pose proof (log_bounds _ Hok) as [Hb _]. unfold max_index in *. pose proof (zlen_nonneg es).
  rewrite u64_id in E0 by (unfold is_u64; lia).
  destruct (stamp_facts (rTerm r) es (last_index (rLog r) + 1)) as (Hc & Hz & Hf); [lia | lia | lia |].
  destruct v0 as [log i]. eapply extends_append in E0 as Hext; [| done |].
  2: { constructor; [by apply stamp_nonempty | exact Hc | exact Hf | lia | unfold max_index; lia]. }
  simpl in Hr. destruct (prs r !! rId r) as [pr |] eqn:Hpr; [| done]. inv_ret. simpl in *.
  rewrite lastIndex_spec in E by apply Hext. injection E as <-. destruct v0 as [r1 b]. injection Hr as <-.
  eapply grows_trans; [| eapply maybeCommit_grows in E1; [exact E1 | apply Hext | done |]].
  - eapply (grows_trans _ (r <| rLog := log |>)); [by apply grows_log |].
    exact (grows_prs (r <| rLog := log |>) (rId r) _ (proj1 Hext) (fun _ => maybeUpdate_match _ _ (Hp (rId r) pr Hpr))).
  - intros j pr'. simpl. intros [[_ <-] | [_ Hj]]%lookup_insert_Some; [by apply maybeUpdate_match, (Hp (rId r)) | by eapply Hp].
Qed.

Lemma becomeLeader_grows r r' :
  log_ok (rLog r) -> 0 < rTerm r -> prs_ok r -> room r 1 -> becomeLeader r = Ret r' -> grows r r'.
Proof.
  intros Hok Ht Hp Hroom. unfold becomeLeader. case_decide; [done |]. intros Hr.
  pose proof (reset_fields (r <| rStep := StepLeader |>) (rTerm r)) as Hf.
  pose proof (reset_log (r <| rStep := StepLeader |>) (rTerm r)) as Hs.
  generalize dependent (reset (r <| rStep := StepLeader |>) (rTerm r)). intros r0 Hr Hf Hs. inv_ret.
  destruct Hs as [Hl Hprs]. destruct Hf as (_ & Hterm & _). simpl in *.
  match type of Hr with appendEntry ?x _ = _ => assert (Hg : grows r x /\ prs_ok x) end.
  { assert (Hpx : forall id fresh, 0 <= pMatch fresh ->
      forall j pr, map_imap (fun i pr => Some (if decide (i = id) then pr else fresh)) (prs r) !! j = Some pr ->
      0 <= pMatch pr).
    { intros id fr Hfr j pr. rewrite map_lookup_imap. destruct (prs r !! j) as [p |] eqn:Hj; [| done].
      simpl. intros [= <-]. case_decide; [by eapply Hp | done]. }
    rewrite Hprs. unfold grows, prs_ok. simpl. rewrite Hl.
    split; [split; [by apply extends_same_view |] |]; [intros _ |]; intros j pr Hj; apply (fun H => Hpx _ _ H j pr Hj); done. }
  destruct Hg as [Hg Hpx]. eapply grows_trans; [exact Hg |].
  eapply appendEntry_grows in Hr; try done; simpl; rewrite ?Hl, ?Hterm; try done.
  unfold room in *. simpl. by rewrite Hl.
Qed.

Lemma becomeCandidate_log r r' : becomeCandidate r = Ret r' -> same_log r r'.
Proof.
  unfold becomeCandidate. case_decide; [done |]. intros Hr.
  pose proof (reset_log (r <| rStep := StepCandidate |>) (u64 (rTerm r + 1))) as Hs.
  generalize dependent (reset (r <| rStep := StepCandidate |>) (u64 (rTerm r + 1))). intros. by inv_ret.
Qed.

Lemma poll_log r id v r' n : poll r id v = (r', n) -> same_log r r' /\ rTerm r' = rTerm r.
Proof. unfold poll. intros [= <- _]. done. Qed.

Lemma same_log_room r r' k : same_log r r' -> room r k -> room r' k.
Proof. unfold room. by intros [-> _]. Qed.

Lemma same_log_prs r r' : same_log r r' -> prs_ok r -> prs_ok r'.
Proof. unfold prs_ok. by intros [_ ->]. Qed.

Lemma campaignElection_grows r r' :
  log_ok (rLog r) -> 0 < rTerm r < max_u64 -> prs_ok r -> room r 1 ->
  campaign campaignElection r = Ret r' -> grows r r'.
Proof.
  intros Hok Ht Hp Hroom. rewrite campaign_eq. unfold campaign_body. intros Hr. inv_ret.
  rename v0 into r1.
  apply becomeCandidate_log in E0 as Hs. apply becomeCandidate_spec in E0 as (_ & Hterm & _).
  destruct (poll r1 (rId r1) true) as [r2 n] eqn:Hpoll. apply poll_log in Hpoll as [Hs2 Hterm2].
  assert (Hs' : same_log r r2) by (by etrans).
  case_decide.
  - eapply grows_same_before; [done | exact Hs' |].
    apply becomeLeader_grows in Hr; [done | | | |]; eauto using same_log_room, same_log_prs.
    + by rewrite (proj1 Hs').
    + rewrite Hterm2, Hterm. unfold max_u64 in *. rewrite u64_id by (unfold is_u64; lia). lia.
  - apply grows_same; [done |]. etrans; [done |]. by eapply requestVotes_log.
Qed.

Lemma campaign_grows typ r r' :
  log_ok (rLog r) -> 0 < rTerm r < max_u64 -> prs_ok r -> room r 1 ->
  campaign typ r = Ret r' -> grows r r'.
Proof.
  intros Hok Ht Hp Hroom. destruct typ; [| by apply campaignElection_grows].
  rewrite campaign_eq. unfold campaign_body. intros Hr. inv_ret.
  rename v0 into r1.
  unfold becomePreCandidate in E0. case_decide; inv_ret.
  destruct (poll _ _ true) as [r2 n] eqn:Hpoll. apply poll_log in Hpoll as [Hs2 Hterm2].
  assert (Hs' : same_log r r2) by done.
  case_decide.
  - eapply grows_same_before; [done | exact Hs' |].
    eapply campaignElection_grows in Hr; [done | | | |]; eauto using same_log_room, same_log_prs.
    + by rewrite (proj1 Hs').
    + by rewrite Hterm2.
  - apply grows_same; [done |]. etrans; [done |]. by eapply requestVotes_log.
Qed.

Lemma candidate_tally_grows r m r' :
  log_ok (rLog r) -> 0 < rTerm r < max_u64 -> prs_ok r -> room r 1 ->
  candidate_tally r m = Ret r' -> grows r r'.
Proof.
  intros Hok Ht Hp Hroom. unfold candidate_tally.
  destruct (poll r (mFrom m) _) as [r1 n] eqn:Hpoll. apply poll_log in Hpoll as [Hs Hterm].
  assert (log_ok (rLog r1)) by (by rewrite (proj1 Hs)).
  assert (prs_ok r1) by eauto using same_log_prs. assert (room r1 1) by eauto using same_log_room.
  intros Hr. eapply grows_same_before; [done | exact Hs |]. rewrite <- Hterm in Ht.
  repeat case_decide.
  - by eapply campaignElection_grows.
  - inv_ret. apply broadcastAppend_log in Hr. eapply grows_same_after; [| exact Hr].
    apply becomeLeader_grows in E; try done. lia.
  - injection Hr as <-. apply grows_same; [done | apply becomeFollower_log].
  - injection Hr as <-. by apply grows_refl.
Qed.

(** ** Messages a node may receive *)

(** An append carries a run of entries that follows [mLogIndex], and a probe
    beyond the end of the log names a real term; a proposal fits. *)
Record inbound r (m : Message) : Prop := {
  in_term : 0 <= mTerm m < max_u64;
  in_append : mType m = MsgApp -> payload_ok (rLog r) (mLogIndex m) (mEntries m)
    /\ (mLogIndex m <= last_index (rLog r) \/ mLogTerm m <> 0);
  in_room : room r (Z.max 1 (zlen (mEntries m)));
}.

Lemma inbound_same r r' m : same_log r r' -> inbound r m -> inbound r' m.
Proof. unfold same_log. intros [Hl _] []. split; unfold room in *; by rewrite ?Hl. Qed.

Lemma room_le r k k' : k' <= k -> room r k -> room r k'.
Proof. unfold room. lia. Qed.

Lemma handleAppendEntries_grows r m r' :
  log_ok (rLog r) -> inbound r m -> mType m = MsgApp -> handleAppendEntries r m = Ret r' -> grows r r'.
Proof.
  intros Hok Hin Hm. unfold handleAppendEntries. intros Hr. inv_ret. destruct v as [log res].
  destruct (in_append _ _ Hin Hm) as [Hp Hor].
  eapply extends_follow in E as Hext; [| done..]. apply grows_log in Hext.
  destruct res; inv_ret; (eapply grows_same_after; [exact Hext | done]).
Qed.

Lemma handleHeartbeat_grows r m r' :
  log_ok (rLog r) -> handleHeartbeat r m = Ret r' -> grows r r'.
Proof.
  intros Hok. unfold handleHeartbeat. intros Hr. inv_ret.
  eapply grows_same_after; [| done]. apply grows_log.
  apply (log_step_extends (rLog r)); [by eapply LCommit | done].
Qed.

Lemma stepFollower_grows r m r' :
  log_ok (rLog r) -> inbound r m -> stepFollower r m = Ret r' -> grows r r'.
Proof.
  intros Hok Hin. unfold stepFollower. destruct (mType m) eqn:Hm; intros Hr; inv_ret;
    try by apply grows_refl.
  - case_decide; injection Hr as <-; by apply grows_same.
  - eapply grows_same_before; [done | | eapply handleAppendEntries_grows; [| | done | exact Hr]]; try done.
    by apply (inbound_same r).
  - eapply grows_same_before; [done | | eapply handleHeartbeat_grows; [| exact Hr]]; done.
  - case_decide; injection Hr as <-; by apply grows_same.
  - by apply grows_same.
Qed.

Lemma stepCandidate_grows r m r' :
  log_ok (rLog r) -> 0 < rTerm r < max_u64 -> prs_ok r -> inbound r m ->
  stepCandidate r m = Ret r' -> grows r r'.
Proof.
  intros Hok Ht Hp Hin. unfold stepCandidate. repeat case_decide; intros Hr; inv_ret;
    try by apply grows_refl.
  - pose proof (becomeFollower_log r (rTerm r) (mFrom m)) as Hs.
    generalize dependent (becomeFollower r (rTerm r) (mFrom m)). intros r1 Hr Hs.
    eapply grows_same_before; [done | exact Hs |].
    apply handleAppendEntries_grows in Hr; try done; [by rewrite (proj1 Hs) | by eapply inbound_same].
  - pose proof (becomeFollower_log r (mTerm m) (mFrom m)) as Hs.
    generalize dependent (becomeFollower r (mTerm m) (mFrom m)). intros r1 Hr Hs.
    eapply grows_same_before; [done | exact Hs |].
    apply handleHeartbeat_grows in Hr; try done. by rewrite (proj1 Hs).
  - eapply candidate_tally_grows; try done. eapply room_le; [| apply Hin]. lia.
Qed.

Lemma demote_length pending es : length (demote pending es).2 = length es.
Proof.
  revert pending. induction es as [| e es IH]; intros pending; simpl; [done |].
  case_decide; [specialize (IH true) | specialize (IH pending)];
    destruct (demote _ es); simpl in *; congruence.
Qed.

Lemma leader_propose_grows r m r' :
  log_ok (rLog r) -> 0 < rTerm r < max_u64 -> prs_ok r -> inbound r m ->
  leader_propose r m = Ret r' -> grows r r'.
Proof.
  intros Hok Ht Hp Hin. unfold leader_propose. case_decide as Hne; [done |].
  destruct (prs r !! rId r); [| intros; inv_ret; by apply grows_refl].
  pose proof (demote_length (pendingConf r) (mEntries m)) as Hlen.
  destruct (demote _ _) as [pending es]. simpl in Hlen. intros Hr. inv_ret.
  apply broadcastAppend_log in Hr. eapply grows_same_after; [| exact Hr].
  assert (Hz : zlen es = zlen (mEntries m)) by (unfold zlen; lia).
  apply appendEntry_grows in E; simpl; try done; [lia | intros ->; rewrite zlen_nil in Hz; lia |].
  rewrite Hz. eapply room_le; [| apply Hin]. lia.
Qed.

Lemma leader_appResp_grows r pr m r' :
  log_ok (rLog r) -> 0 < rTerm r < max_u64 -> prs_ok r -> prs r !! mFrom m = Some pr ->
  leader_appResp r pr m = Ret r' -> grows r r'.
Proof.
  intros Hok Ht Hp Hpr. unfold leader_appResp. destruct (mReject m).
  - unfold mayDecreaseTo. intros Hr.
    assert (Hg : forall pr', pMatch pr' = pMatch pr -> grows r (r <| prs := <[mFrom m := pr']> (prs r) |>)).
    { intros pr' Heq. apply grows_prs; [done |]. intros _. rewrite Heq. by eapply Hp. }
    destruct (bool_decide (u64 _ <> _)); [injection Hr as <-; by apply Hg |].
    apply sendAppend_log in Hr. eapply grows_same_after; [| exact Hr]. apply Hg.
    by destruct (bool_decide _).
  - pose proof (maybeUpdate_match pr (mLogIndex m) (Hp _ _ Hpr)) as Hm.
    destruct (maybeUpdate pr (mLogIndex m)) as [updated pr']. simpl in Hm. intros Hr.
    pose proof (grows_prs r (mFrom m) pr' Hok (fun _ => Hm)) as Hg.
    destruct updated; [| by injection Hr as <-]. inv_ret. destruct v as [r1 b].
    apply maybeCommit_grows in E; [| done | simpl; lia | apply Hg, Hp].
    eapply grows_trans; [exact Hg |]. destruct b; [| by injection Hr as <-].
    eapply grows_same_after; [exact E | by apply broadcastAppend_log].
Qed.

Lemma stepLeader_grows r m r' :
  log_ok (rLog r) -> 0 < rTerm r < max_u64 -> prs_ok r -> inbound r m ->
  stepLeader r m = Ret r' -> grows r r'.
Proof.
  intros Hok Ht Hp Hin. unfold stepLeader.
  destruct (mType m) eqn:Hm;
    try (destruct (prs r !! mFrom m) as [pr |] eqn:Hpr; intros; inv_ret; by apply grows_refl).
  - intros Hr. apply grows_same; [done |]. by eapply broadcastHeartbeat_log.
  - by apply leader_propose_grows.
  - destruct (prs r !! mFrom m) as [pr |] eqn:Hpr; intros; [by eapply leader_appResp_grows |].
    inv_ret; by apply grows_refl.
  - destruct (prs r !! mFrom m) as [pr |] eqn:Hpr; intros; [| inv_ret; by apply grows_refl].
    apply grows_same; [done |]. by eapply leader_heartbeatResp_log.
  - intros Hr. apply grows_same; [done |]. by eapply leader_readIndex_log.
Qed.

Lemma call_step_grows r m r' :
  log_ok (rLog r) -> 0 < rTerm r < max_u64 -> prs_ok r -> inbound r m ->
  call_step r m = Ret r' -> grows r r'.
Proof.
  unfold call_step. destruct (rStep r); intros;
    [by eapply stepFollower_grows | by eapply stepCandidate_grows | by eapply stepLeader_grows].
Qed.

Lemma step_dispatch_grows r m r' :
  log_ok (rLog r) -> 0 < rTerm r < max_u64 -> prs_ok r -> inbound r m ->
  step_dispatch r m = Ret r' -> grows r r'.
Proof.
  intros Hok Ht Hp Hin.
  assert (Hhup : step_hup r = Ret r' -> grows r r').
  { unfold step_hup. intros Hr. case_decide; inv_ret; [by apply grows_refl |].
    destruct (negb _); inv_ret; [by apply grows_refl |]. case_decide; inv_ret; [by apply grows_refl |].
    assert (room r 1) by (eapply room_le; [| apply Hin]; lia).
    by destruct (preVote r); eapply campaign_grows. }
  assert (Hvote : step_vote r m = Ret r' -> grows r r').
  { unfold step_vote. intros Hr. inv_ret.
    destruct (_ && _); case_decide; inv_ret; by apply grows_same. }
  unfold step_dispatch. destruct (mType m); auto; by apply call_step_grows.
Qed.

(** The state [Step] dispatches on or returns: the same log, at the term of the message. *)
Lemma step_term_facts r m :
  0 < rTerm r < max_u64 -> 0 <= mTerm m < max_u64 ->
  (exists r1, step_term r m = inl r1 /\ same_log r r1 /\ 0 < rTerm r1 < max_u64)
  \/ (exists r1, step_term r m = inr r1 /\ same_log r r1 /\ rTerm r1 = rTerm r).
Proof.
  intros Ht Hm. assert (Hsame : same_log r r) by done.
  pose proof (becomeFollower_log r (mTerm m)) as Hf.
  pose proof (becomeFollower_term r (mTerm m)) as Hft.
  unfold step_term. revert Hf Hft. generalize (becomeFollower r (mTerm m)). intros f Hf Hft.
  repeat case_decide; eauto 10; left; eexists; (split; [done |]); (split; [apply Hf |]); rewrite Hft; lia.
Qed.

Lemma Step_grows r m r' :
  log_ok (rLog r) -> 0 < rTerm r < max_u64 -> prs_ok r -> inbound r m ->
  Step r m = Ret r' -> grows r r'.
Proof.
  intros Hok Ht Hp Hin. unfold Step.
  destruct (step_term_facts r m Ht (in_term _ _ Hin)) as [(r1 & -> & Hs & Ht1) | (r1 & -> & Hs & Ht1)].
  - intros Hr. eapply grows_same_before; [done | exact Hs |].
    apply step_dispatch_grows in Hr; try done; [by rewrite (proj1 Hs) | by eapply same_log_prs | by eapply inbound_same].
  - intros [= <-]. by apply grows_same.
Qed.

Lemma tick_grows r r' :
  log_ok (rLog r) -> 0 < rTerm r < max_u64 -> prs_ok r -> room r 1 -> tick r = Ret r' -> grows r r'.
Proof.
  intros Hok Ht Hp Hroom.
  assert (Hin : forall t, t <> MsgApp -> inbound r (message t <| mFrom := rId r |>)).
  { intros t Hne. split; simpl; [unfold max_u64; lia | done | done]. }
  unfold tick, tickElection, tickHeartbeat. destruct (rTick r).
  - destruct (_ && _); intros Hr; [| inv_ret; by apply grows_same].
    eapply grows_same_before; [done | | eapply Step_grows; [.. | exact Hr]]; try done; by apply (inbound_same r), Hin.
  - case_decide; [intros; inv_ret; by apply grows_refl |].
    case_decide; intros Hr; [| inv_ret; by apply grows_same].
    eapply grows_same_before; [done | | eapply Step_grows; [.. | exact Hr]]; try done; by apply (inbound_same r), Hin.
Qed.

(** ** Safety of committed entries *)

(** What drives a node: a message or the clock. *)
Inductive input := InMessage (m : Message) | InTick.

Definition react r (i : input) : outcome (raft S) :=
  match i with InMessage m => Step r m | InTick => tick r end.

Record node_safe r : Prop := {
  ns_log : log_ok (rLog r);
  ns_prs : prs_ok r;
  ns_node : node_ok r;
  ns_id : rId r <> NoneID;
  ns_term : 0 < rTerm r;
}.

Definition input_ok r (i : input) : Prop :=
  rTerm r < max_u64
  /\ match i with InMessage m => inbound r m /\ msg_ok m | InTick => room r 1 end.

Definition reaction r r' : Prop := exists i, input_ok r i /\ react r i = Ret r'.

Lemma reaction_safe r r' : node_safe r -> reaction r r' -> grows r r' /\ node_safe r'.
Proof.
  intros [Hok Hp Hn Hid Ht] (i & [Hm Hi] & Hr).
  assert (Hg : grows r r') by (destruct i; [eapply Step_grows | eapply tick_grows]; naive_solver).
  assert (exists m, election_step m r r') as [m []].
  { destruct i as [m |]; simpl in Hr; [eexists; eapply Step_election in Hr; [exact Hr | lia | naive_solver..] |].
    apply tick_election in Hr as (m & Hs & _); [by exists (Some m) | lia | done | done]. }
  split; [done |]. constructor; [by eapply grows_ok | by apply Hg | done | congruence | lia].
Qed.

(** What a leader sends is a run of entries that follows the index it names, up
    to the end of its log: the kind of append that [inbound] asks for. *)
Lemma sent_append_is_a_run r to pr r' :
  log_ok (rLog r) -> prs r !! to = Some pr -> base (rLog r) < pNext pr <= last_index (rLog r) + 1 -> sendAppend to r = Ret r' ->
  exists m, msgs r' = msgs r ++ [m] /\ mType m = MsgApp /\ contiguous (mLogIndex m + 1) (mEntries m)
    /\ mLogIndex m + zlen (mEntries m) = last_index (rLog r).
Proof.
  intros Hok Hpr [Hn Hl]. pose proof (log_bounds _ Hok). unfold sendAppend. rewrite Hpr, entries_spec by done. intros Hs. inv_ret.
  unfold send. rewrite !decide_True by done.
  eexists. split; [done |]. unfold max_index in *. cbn. rewrite u64_id by (unfold is_u64; lia). split; [done |]. split.
  - replace (pNext pr - 1 + 1) with (base (rLog r) + 1 + Z.of_nat (pos (rLog r) (pNext pr))) by (unfold pos; lia).
    by apply contiguous_drop, view_contiguous.
  - rewrite zlen_drop. unfold last_index, zlen, pos in *. lia.
Qed.

(** C2: driven by any sequence of ticks and of messages, in whatever order and
    from whomever, a node keeps its committed entries as a prefix of what is
    committed later, and its commit index never falls. The messages have terms
    and indexes within 64 bits; an append carries entries numbered one after
    the other from the index it follows, not below the node's compaction point,
    with positive terms, which is how [sendAppend] makes them. *)
Theorem node_never_uncommits r r' :
  node_safe r -> rtc reaction r r' ->
  node_safe r' /\ commitIndex (rLog r) <= commitIndex (rLog r')
  /\ committed (rLog r) `prefix_of` committed (rLog r').
Proof.
  intros Hs Hd. enough (grows r r' /\ node_safe r') as [Hg Hs'].
  { split_and!; [done | apply Hg | by apply extends_committed, Hg]. }
  induction Hd as [r | r1 r2 r3 Hr Hd IH]; [split; [apply grows_refl, Hs | done] |].
  destruct (reaction_safe r1 r2 Hs Hr) as [Hg Hs2]. destruct (IH Hs2) as [Hg' Hs3].
  split; [by eapply grows_trans | done].
Qed.

End Safety.

(** ** A concrete leader of three members, its last entry not yet replicated. *)

#[local] Existing Instance canonical_order.

Definition sample_leader (acked : Z) : raft MemoryStorage :=
  mkRaft 1 2 [] sample_log
    (<[1 := mkProgress 3 4 ProgressStateProbe]> (<[2 := mkProgress acked 4 ProgressStateProbe]>
      (<[3 := mkProgress 0 4 ProgressStateProbe]> ∅)))
    StateLeader ∅ [] 1 false newReadOnly false TickHeartbeat StepLeader 1 false 10 10 0 1 0 [].

Lemma sample_leader_prs acked : 0 <= acked -> prs_ok (sample_leader acked).
Proof.
  intros Ha j pr. unfold sample_leader. cbn [prs].
  rewrite !lookup_insert_Some, lookup_empty. naive_solver lia.
Qed.

Lemma sample_leader_safe acked : 0 <= acked -> node_safe (sample_leader acked).
Proof.
  intros Ha. constructor; [exact sample_log_ok | by apply sample_leader_prs | | |].
  - split; [reflexivity |]. intros _. reflexivity.
  - unfold NoneID. cbn. lia.
  - cbn. lia.
Qed.

Lemma maybeCommit_needs_quorum_witness :
  exists n, (exists Q, replicated (sample_leader 3) n Q /\ majority (sample_leader 3) Q)
  /\ (forall n' Q, n < n' -> replicated (sample_leader 3) n' Q -> ~ majority (sample_leader 3) Q)
  /\ maybeCommit (sample_leader 3) =
       if decide (commitIndex (rLog (sample_leader 3)) < n /\ term_at (rLog (sample_leader 3)) n = Some (rTerm (sample_leader 3)))
       then Ret (sample_leader 3 <| rLog := rLog (sample_leader 3) <| commitIndex := n |> |>, true) else Ret (sample_leader 3, false).
Proof.
  apply (maybeCommit_needs_quorum (sample_leader 3)); [exact sample_log_ok | cbn; lia | apply sample_leader_prs; lia | done].
Defined.
(** The entry at 3 is held by two of three, and is committed. *)
Example sample_commits : (let! p := maybeCommit (sample_leader 3) in Ret (commitIndex (rLog p.1), p.2)) = Ret (3, true).
Proof. by vm_compute. Qed.

Lemma node_never_uncommits_witness :
  exists r', Step (sample_leader 0) (message MsgAppResp <| mFrom := 2 |> <| mLogIndex := 3 |> <| mTerm := 2 |>) = Ret r'
    /\ commitIndex (rLog r') = 3
    /\ committed (rLog (sample_leader 0)) `prefix_of` committed (rLog r').
Proof.
  set (m := message MsgAppResp <| mFrom := 2 |> <| mLogIndex := 3 |> <| mTerm := 2 |>).
  destruct (Step (sample_leader 0) m) as [r' |] eqn:Hr.
  2: { exfalso. vm_compute in Hr. discriminate Hr. }
  exists r'. split; [reflexivity |]. split.
  - assert (E : (let! r := Step (sample_leader 0) m in Ret (commitIndex (rLog r))) = Ret 3)
      by (vm_compute; reflexivity).
    rewrite Hr in E. by injection E.
  - apply (node_never_uncommits (sample_leader 0) r'); [apply sample_leader_safe; lia |].
    apply rtc_once. exists (InMessage m). split; [| exact Hr]. split; [reflexivity |]. split.
    + split; [change (0 <= 2 < 2 ^ 64 - 1); lia | discriminate | change (3 + 1 + 1 <= 2 ^ 63 - 1); lia].
    + split; [change (0 <= 2 < 2 ^ 64 - 1); lia | discriminate | discriminate | intros [Hm | Hm]; discriminate Hm].
Defined.
