(* ===== verification/RaftReads.v ===== *)
(** * RaftReads
    Linearizable reads ([apps/raft_demo/raft/read.go] and its callers in
    [leader.go]): the queue of pending reads is served in order and never
    panics, and how many acknowledgements a read waits for. What a restart and
    a pre-vote lose, and the hand-over of a Ready, follow. *)
From S2P Require Import Prelude RaftTypes RaftStorage RaftLog RaftLogFacts RaftCore RaftNode RaftElection RaftSafety.
(** ** The queue of pending reads *)

(** The queue lists the pending reads once each, and every pending read is
    filed under the context its request carries. *)
Record ro_ok (ro : readOnly) : Prop := {
  ro_nodup : NoDup (readIndexQueue ro);
  ro_dom : forall ctx, is_Some (pendingReadIndex ro !! ctx) <-> ctx ∈ readIndexQueue ro;
  ro_key : forall ctx rs, pendingReadIndex ro !! ctx = Some rs -> request_key rs = Ret ctx;
}.

Lemma newReadOnly_ok : ro_ok newReadOnly.
Proof.
  split; [apply NoDup_nil_2 | |].
  - intros ctx. simpl. rewrite lookup_empty, elem_of_nil. split; [by intros [] | done].
  - intros ctx rs. simpl. by rewrite lookup_empty.
Qed.

Lemma addRequest_ok ro ctx i m e :
  ro_ok ro -> index (mEntries m) 0 = Ret e -> eData e = ctx -> ro_ok (addRequest ro ctx i m).1.
Proof.
  intros [Hn Hd Hk] He Hctx. unfold addRequest.
  destruct (pendingReadIndex ro !! ctx) as [rs |] eqn:Hp; simpl; [done |].
  assert (Hq : ctx ∉ readIndexQueue ro) by (rewrite <- Hd, Hp; by intros []).
  split; simpl.
  - apply NoDup_app. split_and!; [done | set_solver | apply NoDup_singleton].
  - intros c. rewrite lookup_insert_is_Some, elem_of_app, list_elem_of_singleton, Hd.
    destruct (decide (ctx = c)); naive_solver.
  - intros c rs. intros [[<- <-] | [_ Hc]]%lookup_insert_Some; [| by eapply Hk].
    unfold request_key. simpl. rewrite He. simpl. by rewrite Hctx.
Qed.

Lemma recvAck_ok ro ctx from : ro_ok ro -> ro_ok (recvAck ro ctx from).1.
Proof.
  intros [Hn Hd Hk]. unfold recvAck.
  destruct (pendingReadIndex ro !! ctx) as [rs |] eqn:Hp; simpl; [| done].
  split; simpl; [done | |].
  - intros c. rewrite lookup_insert_is_Some, <- Hd.
    destruct (decide (ctx = c)) as [<- |]; naive_solver.
  - intros c rs'. intros [[<- <-] | [_ Hc]]%lookup_insert_Some; [| by eapply Hk].
    apply Hk in Hp. done.
Qed.

Lemma advance_scan_found pending ctx pre post :
  (forall c, c ∈ pre ++ [ctx] -> is_Some (pending !! c)) -> ctx ∉ pre ->
  exists rss, advance_scan pending ctx (pre ++ ctx :: post) = Ret (Some (rss, post))
    /\ Forall2 (fun c rs => pending !! c = Some rs) (pre ++ [ctx]) rss.
Proof.
  induction pre as [| c pre IH]; simpl; intros Hall Hnot.
  - destruct (Hall ctx) as [rs Hrs]; [set_solver |]. rewrite Hrs, decide_True by done.
    exists [rs]. split; [done |]. by repeat constructor.
  - destruct (Hall c) as [rs Hrs]; [set_solver |].
    destruct IH as (rss & -> & Hf); [set_solver | set_solver |].
    rewrite Hrs, decide_False by set_solver. simpl. exists (rs :: rss). split; [done |]. by constructor.
Qed.

Lemma advance_scan_missing pending ctx queue :
  (forall c, c ∈ queue -> is_Some (pending !! c)) -> ctx ∉ queue ->
  advance_scan pending ctx queue = Ret None.
Proof.
  induction queue as [| c queue IH]; simpl; intros Hall Hnot; [done |].
  destruct (Hall c) as [rs ->]; [set_solver |].
  rewrite decide_False by set_solver. rewrite IH; [done | set_solver | set_solver].
Qed.

Lemma delete_reads (cs : list bytes) (rss : list readIndexStatus) (pending : gmap bytes readIndexStatus) :
  Forall2 (fun c rs => request_key rs = Ret c) cs rss ->
  exists pending',
    ofold (fun rs p => let! k := request_key rs in Ret (delete k p)) rss pending = Ret pending'
    /\ forall c, pending' !! c = if decide (c ∈ cs) then None else pending !! c.
Proof.
  intros Hf. revert pending. induction Hf as [| c rs cs rss Hc _ IH]; intros pending; cbn [ofold].
  - exists pending. split; [done |]. intros c. by rewrite decide_False by apply not_elem_of_nil.
  - rewrite Hc. cbn [obind]. destruct (IH (delete c pending)) as (p' & Hp & Hl). exists p'. split; [done |].
    intros c'. rewrite Hl. destruct (decide (c' ∈ cs)) as [Hin | Hin].
    + by rewrite decide_True by set_solver.
    + destruct (decide (c' = c)) as [-> | Hne].
      * rewrite lookup_delete_eq. by rewrite decide_True by set_solver.
      * rewrite lookup_delete_ne by done. by rewrite decide_False by set_solver.
Qed.

(** Confirming a queued read completes it and every read queued before it,
    in queue order, leaves the later ones pending, and never panics; a context
    that is not queued completes nothing. *)
Theorem advance_serves_in_order ro ctx :
  ro_ok ro ->
  (ctx ∉ readIndexQueue ro -> advance ro ctx = Ret (ro, []))
  /\ (forall pre post, readIndexQueue ro = pre ++ ctx :: post ->
      exists ro' rss, advance ro ctx = Ret (ro', rss) /\ ro_ok ro' /\ readIndexQueue ro' = post
        /\ Forall2 (fun c rs => pendingReadIndex ro !! c = Some rs) (pre ++ [ctx]) rss
        /\ forall c, pendingReadIndex ro' !! c = if decide (c ∈ post) then pendingReadIndex ro !! c else None).
Proof.
  intros [Hn Hd Hk]. unfold advance. split.
  - intros Hnot. rewrite advance_scan_missing; [done | | done]. intros c. apply Hd.
  - intros pre post Hq. rewrite Hq in *. apply NoDup_app in Hn as (Hn1 & Hdis & Hn2).
    apply NoDup_cons in Hn2 as [Hctx Hn2].
    destruct (advance_scan_found (pendingReadIndex ro) ctx pre post) as (rss & -> & Hf).
    { intros c Hc. apply Hd. set_solver. }
    { set_solver. }
    simpl. destruct (delete_reads (pre ++ [ctx]) rss (pendingReadIndex ro)) as (p' & -> & Hl).
    { eapply Forall2_impl; [exact Hf |]. intros. by apply Hk. }
    simpl. assert (Hp' : forall c, p' !! c = if decide (c ∈ post) then pendingReadIndex ro !! c else None).
    { intros c. rewrite Hl. destruct (decide (c ∈ post)).
      - rewrite decide_False; [done |]. set_solver.
      - case_decide as Hin; [done |]. apply eq_None_not_Some. rewrite Hd. set_solver. }
    eexists _, rss. split; [done |]. split; [| done]. split; simpl; [done | |].
    + intros c. rewrite Hp'. case_decide as Hc; [rewrite Hd; set_solver | split; [by intros [] | done]].
    + intros c rs. rewrite Hp'. case_decide; [apply Hk | done].
Qed.

Definition sample_read (data : bytes) : readIndexStatus :=
  mkReadIndexStatus (message MsgReadIndex <| mEntries := [zero_entry <| eData := data |>] |>) 4 ∅.
Definition sample_reads : readOnly :=
  mkReadOnly (<[[1] := sample_read [1]]> (<[[2] := sample_read [2]]> (<[[3] := sample_read [3]]> ∅)))
    [[1]; [2]; [3]].

Lemma sample_reads_ok : ro_ok sample_reads.
Proof.
  split; simpl.
  - apply (bool_decide_unpack _). reflexivity.
  - intros ctx. rewrite !lookup_insert_is_Some, lookup_empty, !elem_of_cons, elem_of_nil.
    split; [| destruct (decide (ctx = [1])), (decide (ctx = [2])), (decide (ctx = [3]))]; try naive_solver.
  - intros ctx rs. rewrite !lookup_insert_Some, lookup_empty. naive_solver.
Qed.

Lemma advance_serves_in_order_witness :
  exists ro', advance sample_reads [2] = Ret (ro', [sample_read [1]; sample_read [2]])
    /\ readIndexQueue ro' = [[3]].
Proof.
  destruct (advance_serves_in_order sample_reads [2] sample_reads_ok) as [_ H].
  destruct (H [[1]] [[3]]) as (ro' & rss & Ha & _ & Hq & Hf & _); [reflexivity |].
  exists ro'. split; [| exact Hq]. rewrite Ha. do 2 f_equal. clear -Hf.
  apply Forall2_cons_inv_l in Hf as (r1 & l1 & H1 & Hf & ->).
  apply Forall2_cons_inv_l in Hf as (r2 & l2 & H2 & Hf & ->).
  apply Forall2_nil_inv_l in Hf as ->. vm_compute in H1, H2.
  injection H1 as <-. injection H2 as <-. reflexivity.
Defined.

Section Reads.
  Context {S : Type} `{HS : StorageSpec S} `{MapOrder}.
  Implicit Types r : raft S.

(** ** How many acknowledgements a read waits for *)

(** Every acknowledgement so far came from a member of [W]. *)
Definition acked_by r (W : gset Z) : Prop :=
  forall ctx rs, pendingReadIndex (rReadOnly r) !! ctx = Some rs -> risAcks rs ⊆ W.

Lemma recvAck_within r W ctx from :
  acked_by r W -> from ∈ W ->
  let res := recvAck (rReadOnly r) ctx from in
  res.2 ⊆ W /\ forall c rs, pendingReadIndex res.1 !! c = Some rs -> risAcks rs ⊆ W.
Proof.
  intros Hw Hf. unfold recvAck. destruct (pendingReadIndex (rReadOnly r) !! ctx) as [rs |] eqn:Hp; simpl.
  - apply Hw in Hp. split; [set_solver |]. intros c rs'. intros [[_ <-] | [_ Hc]]%lookup_insert_Some; simpl; [set_solver |].
    by eapply Hw.
  - split; [set_solver | done].
Qed.

(** A response from one of too few members confirms nothing. *)
Lemma heartbeatResp_unconfirmed r W m :
  acked_by r W -> mFrom m ∈ W -> Z.of_nat (size W) < quorum r ->
  exists ro, leader_heartbeatResp r m = Ret (r <| rReadOnly := ro |>)
    /\ acked_by (r <| rReadOnly := ro |>) W.
Proof.
  intros Hw Hf Hq. unfold leader_heartbeatResp. case_decide.
  - exists (rReadOnly r). split; [by destruct r | done].
  - pose proof (recvAck_within r W (mContext m) (mFrom m) Hw Hf) as [Ha Hp].
    destruct (recvAck _ _ _) as [ro acks]. simpl in Ha, Hp. apply subseteq_size in Ha.
    rewrite decide_True by (change (quorum (r <| rReadOnly := ro |>)) with (quorum r); lia).
    exists ro. by split.
Qed.

(** The leader's own acknowledgement is not counted, so in a cluster of
    two no heartbeat response of the other member ever completes a read. *)
Theorem two_member_reads_never_complete r m :
  let others := dom (prs r) ∖ {[rId r]} in
  rId r ∈ dom (prs r) -> size (prs r) = 2%nat -> acked_by r others ->
  mType m = MsgHeartbeatResp -> mFrom m <> rId r ->
  exists r', stepLeader r m = Ret r' /\ readStates r' = readStates r /\ msgs r' = msgs r
    /\ rId r' = rId r /\ prs r' = prs r /\ acked_by r' others.
Proof.
  intros others Hin Hsize Hw Hm Hne. unfold stepLeader. rewrite Hm.
  destruct (prs r !! mFrom m) as [pr |] eqn:Hpr; [| by exists r].
  destruct (heartbeatResp_unconfirmed r others m) as (ro & Hr & Hw'); try done.
  - apply elem_of_difference. split; [by eapply elem_of_dom_2 | set_solver].
  - subst others. rewrite size_difference, size_dom, Hsize, size_singleton by set_solver.
    unfold quorum. rewrite Hsize. done.
  - eexists. split; [exact Hr | done].
Qed.

End Reads.

#[local] Existing Instance canonical_order.

Lemma two_member_reads_never_complete_witness :
  let r := sample_leader 0 <| prs := <[1 := mkProgress 3 4 ProgressStateProbe]>
             (<[2 := mkProgress 3 4 ProgressStateProbe]> ∅) |> <| rReadOnly := sample_reads |> in
  exists r', stepLeader r (message MsgHeartbeatResp <| mFrom := 2 |> <| mContext := [3] |>) = Ret r'
    /\ readStates r' = [].
Proof.
  intros r.
  destruct (two_member_reads_never_complete r
    (message MsgHeartbeatResp <| mFrom := 2 |> <| mContext := [3] |>)) as (r' & Hr & Hs & _).
  - apply elem_of_dom. by eexists.
  - reflexivity.
  - intros ctx rs. subst r. simpl. rewrite !lookup_insert_Some, lookup_empty.
    intros [[_ <-] | [_ [[_ <-] | [_ [[_ <-] | [_ Hf]]]]]]; [set_solver.. | done].
  - reflexivity.
  - discriminate.
  - exists r'. split; [exact Hr | exact Hs].
Defined.

(** ** Restarts
    Elections across a restart and in the pre-vote phase: what [newRaft]
    restores, and the term a pre-vote request carries. *)
Section Restart.
  Context {S : Type} `{HS : StorageSpec S} `{MapOrder}.
  Implicit Types r : raft S.

#[local] Opaque reset.

Lemma becomeFollower_resets r t l :
  rTerm r <> t ->
  rTerm (becomeFollower r t l) = t /\ rVote (becomeFollower r t l) = NoneID
  /\ msgs (becomeFollower r t l) = msgs r.
Proof.
  intros Hne. destruct (reset_fields r t) as (_ & Ht & _ & Hm & _ & _ & _ & _ & Hv).
  rewrite decide_False in Hv by done.
  assert (Heq : forall r1 : raft S, rTerm r1 = t -> rVote r1 = NoneID -> msgs r1 = msgs r ->
    let f := r1 <| rStep := StepFollower |> <| rTick := TickElection |> <| lead := l |> <| rState := StateFollower |> in
    rTerm f = t /\ rVote f = NoneID /\ msgs f = msgs r) by done.
  by apply Heq.
Qed.

(** A vote request at the node's own term, from a candidate it may vote for. *)
Lemma Step_grants_vote r m :
  rVote r = NoneID -> mType m = MsgVote -> mTerm m = rTerm r -> mTerm m <> 0 ->
  isUpToDate (rLog r) (mLogIndex m) (mLogTerm m) = Ret true ->
  Step r m = Ret (send (r <| rVote := mFrom m |>) (message MsgVoteResp <| mTo := mFrom m |>)).
Proof.
  intros Hv Hm Ht Hne Hup. unfold Step, step_term.
  rewrite decide_False, decide_False, decide_False by lia.
  unfold step_dispatch, step_vote. rewrite Hm, Hup. simpl.
  by rewrite bool_decide_true by tauto.
Qed.

(** A node restarted over a storage that recorded its vote comes back in
    the same term with no vote, and grants that term's vote to whoever asks
    next with an up-to-date log. *)
Theorem restart_forgets_vote conf draws st hs cs r :
  cStorage conf = Some st -> st_InitialState st = Ret (Ok (hs, cs)) -> hsTerm hs <> 0 ->
  newRaft conf draws = Ret r ->
  rTerm r = hsTerm hs /\ rVote r = NoneID
  /\ forall m, mType m = MsgVote -> mTerm m = hsTerm hs ->
       isUpToDate (rLog r) (mLogIndex m) (mLogTerm m) = Ret true ->
       exists r' g, Step r m = Ret r' /\ rVote r' = mFrom m /\ msgs r' = msgs r ++ [g]
         /\ grants g /\ mTo g = mFrom m /\ mTerm g = hsTerm hs.
Proof.
  intros Hst Hinit Hne Hr. unfold newRaft in Hr. rewrite Hst in Hr. inv_ret. destruct v as [hs' cs'].
  rewrite Hinit in E. simpl in E. injection E as <- <-. inv_ret.
  rewrite (decide_False (P := hsTerm hs = 0)) by done.
  match goal with |- context [becomeFollower ?x _ _] => generalize (becomeFollower_resets x (hsTerm hs) NoneID) end.
  match goal with |- context [becomeFollower ?x ?t ?l] => generalize (becomeFollower x t l) end.
  intros r Hf. destruct Hf as (Ht & Hv & _); [simpl; congruence |]. split_and!; [done | done |].
  intros m Hm Hmt Hup. eexists _, _. split; [apply Step_grants_vote; congruence |].
  split; [done |]. split; [done |]. split_and!; [done | done | exact Ht].
Qed.

(** ** Pre-votes *)

Lemma sendVote_msgs term t id r r' :
  t <> MsgProp -> t <> MsgReadIndex -> rId r <> NoneID -> sendVote term t id r = Ret r' ->
  exists g, r' = r <| msgs := msgs r ++ [g] |> /\ mType g = t /\ mTerm g = rTerm r /\ mFrom g = rId r.
Proof.
  intros Ht1 Ht2 Hid. unfold sendVote. intros Hr. inv_ret. unfold send. simpl.
  rewrite decide_True by done. eexists. done.
Qed.

(** Whatever term [requestVotes] is given, its requests carry the node's own. *)
Lemma requestVotes_msgs term t r r' :
  t <> MsgProp -> t <> MsgReadIndex -> rId r <> NoneID -> requestVotes term t r = Ret r' ->
  exists out, msgs r' = msgs r ++ out
    /\ Forall (fun g => mType g = t /\ mTerm g = rTerm r /\ mFrom g = rId r) out
    /\ rTerm r' = rTerm r /\ rId r' = rId r.
Proof.
  intros Ht1 Ht2. unfold requestVotes. generalize (range_keys (prs r)). intros ids.
  revert r. induction ids as [| id ids IH]; cbn [ofold]; intros r Hid Hr.
  - inv_ret. exists []. by rewrite app_nil_r.
  - inv_ret. case_decide; [injection E as <-; by apply IH |].
    apply sendVote_msgs in E as (g & -> & Hg); [| done..].
    apply IH in Hr as (out & Hm & Hf & Ht & Hi); [| done]. exists (g :: out).
    simpl in *. rewrite Hm, <- app_assoc. split_and!; [done | | done | done]. constructor; [done | exact Hf].
Qed.

Lemma Step_refuses_prevote r m :
  log_ok (rLog r) -> mType m = MsgPreVote -> mTerm m = rTerm r -> mTerm m <> 0 ->
  rVote r <> NoneID -> rVote r <> mFrom m ->
  Step r m = Ret (send r (message MsgPreVoteResp <| mTo := mFrom m |> <| mReject := true |>)).
Proof.
  intros Hok Hm Ht Hne Hv Hf. unfold Step, step_term.
  rewrite decide_False, decide_False, decide_False by lia.
  unfold step_dispatch, step_vote. rewrite Hm, isUpToDate_spec by done. simpl.
  rewrite (bool_decide_false (rVote r = NoneID \/ _)) by (intros [? | [? | ?]]; [done | lia | congruence]).
  by rewrite andb_false_r.
Qed.

(** A pre-vote request asks for the candidate's current term instead of the
    next one, so every node that voted for somebody else in this term, however
    old its log, refuses it. *)
Theorem prevote_refused_by_voters r r' g voter :
  rId r <> NoneID -> rTerm r <> 0 -> msgs r = [] ->
  campaign campaignPreElection r = Ret r' -> rState r' = StatePreCandidate ->
  g ∈ msgs r' ->
  log_ok (rLog voter) -> rTerm voter = rTerm r -> rVote voter <> NoneID -> rVote voter <> rId r ->
  mTerm g = rTerm r
  /\ Step voter g = Ret (send voter (message MsgPreVoteResp <| mTo := rId r |> <| mReject := true |>)).
Proof.
  intros Hid Ht Hm Hr Hs Hg Hok Hvt Hv Hvn.
  enough (Hsent : mType g = MsgPreVote /\ mTerm g = rTerm r /\ mFrom g = rId r).
  { destruct Hsent as (Hty & Htm & Hf). split; [done |]. rewrite <- Hf.
    apply Step_refuses_prevote; congruence. }
  rewrite campaign_eq in Hr. unfold campaign_body in Hr. inv_ret. rename v0 into r1.
  unfold becomePreCandidate in E0. case_decide; inv_ret.
  destruct (poll _ _ true) as [r2 n] eqn:Hpoll.
  unfold poll in Hpoll. injection Hpoll as <- <-. case_decide.
  - exfalso. rewrite campaign_eq in Hr. unfold campaign_body in Hr. inv_ret.
    destruct (poll v0 (rId v0) true) as [r2 n] eqn:Hpoll.
    assert (Hst : rState r2 = StateCandidate).
    { apply becomeCandidate_spec in E0 as (_ & _ & _ & _ & _ & Hst & _).
      unfold poll in Hpoll. injection Hpoll as <- _. done. }
    case_decide.
    + apply becomeLeader_shape in Hr as (r3 & Hq & _ & _ & _ & _ & _ & Hl & _).
      rewrite (q_state _ _ Hq), Hl in Hs. done.
    + apply requestVotes_quiet in Hr; [| by left]. rewrite (q_state _ _ Hr) in Hs. congruence.
  - apply requestVotes_msgs in Hr as (out & Hout & Hf & _); [| done | done | done].
    simpl in Hout. rewrite Hm in Hout. rewrite Hout, app_nil_l in Hg.
    rewrite Forall_forall in Hf. by apply Hf.
Qed.

End Restart.

#[local] Existing Instance canonical_order.

(** A storage that recorded a vote for node 2 in term 3. *)
Definition voted_storage : MemoryStorage := mkMemoryStorage (mkHardState 3 2 0) [zero_entry].

Lemma restart_forgets_vote_witness :
  exists r, newRaft (mkConfig 1 [1; 2; 3] (Some voted_storage) 0 false 10 1) [] = Ret r
    /\ rTerm r = 3 /\ rVote r = NoneID.
Proof.
  destruct (newRaft (mkConfig 1 [1; 2; 3] (Some voted_storage) 0 false 10 1) []) as [r |] eqn:Hr.
  2: { exfalso. vm_compute in Hr. discriminate Hr. }
  exists r. split; [reflexivity |].
  destruct (restart_forgets_vote (mkConfig 1 [1; 2; 3] (Some voted_storage) 0 false 10 1) []
    voted_storage (mkHardState 3 2 0) (mkConfState []) r) as (Ht & Hv & _);
    [reflexivity | reflexivity | discriminate | exact Hr | split; [exact Ht | exact Hv]].
Defined.

Definition sample_follower (id vote : Z) : raft MemoryStorage :=
  sample_leader 0 <| rId := id |> <| rVote := vote |> <| rState := StateFollower |> <| rStep := StepFollower |>.

Lemma prevote_refused_by_voters_witness :
  exists r', campaign campaignPreElection (sample_follower 2 1) = Ret r'
    /\ forall g, g ∈ msgs r' ->
       Step (sample_follower 3 1) g
         = Ret (send (sample_follower 3 1) (message MsgPreVoteResp <| mTo := 2 |> <| mReject := true |>)).
Proof.
  destruct (campaign campaignPreElection (sample_follower 2 1)) as [r' |] eqn:Hr.
  2: { exfalso. vm_compute in Hr. discriminate Hr. }
  assert (Hs : rState r' = StatePreCandidate).
  { assert (E : (let! r := campaign campaignPreElection (sample_follower 2 1) in Ret (rState r)) = Ret StatePreCandidate)
      by (vm_compute; reflexivity).
    rewrite Hr in E. by injection E. }
  exists r'. split; [reflexivity |]. intros g Hg.
  apply (prevote_refused_by_voters (sample_follower 2 1) r' g (sample_follower 3 1));
    [discriminate | discriminate | reflexivity | exact Hr | exact Hs | exact Hg | exact sample_log_ok
    | reflexivity | discriminate | discriminate].
Defined.

(** ** Delivery
    The hand-over between the node's loop and its application: between a
    [Ready] and the next one, [Advance] persists what was handed out and the
    committed entries are delivered exactly once, in order. *)
Section Delivery.
  Context {S : Type} `{HS : StorageSpec S} `{MapOrder}.
  Implicit Types n : nodeLoop S.

Abbreviation nLog n := (rLog (nRaft n)).

(** What holds of the loop whenever no [Ready] is with the application. *)
Record between n : Prop := {
  bt_log : log_ok (nLog n);
  bt_closed : advanceOpen n = false;
  bt_entries : hasPrevLastUnstableI n = false;
  bt_term : 0 < rTerm (nRaft n);
}.

Lemma refresh_ready n n0 :
  between n -> refresh n = Ret n0 ->
  exists rd, newReady (nRaft n) (prevSoft n) (prevHard n) = Ret rd
    /\ n0 = n <| nReady := rd |> <| readyOpen := containsUpdates rd |>.
Proof. intros Hb. unfold refresh. rewrite (bt_closed _ Hb). intros. inv_ret. eauto. Qed.

Lemma isHardStateEqual_true a b : isHardStateEqual a b = true <-> a = b.
Proof.
  unfold isHardStateEqual. rewrite !andb_true_iff, !bool_decide_eq_true. destruct a, b; simpl.
  split; [intros [[-> ->] ->]; done | intros [= -> -> ->]; done].
Qed.

(** After the hand-over [prevHard] is the hard state at the hand-over. *)
Lemma on_ready_spec n rd n1 :
  between n -> newReady (nRaft n) (prevSoft n) (prevHard n) = Ret rd ->
  n1 = on_ready (n <| nReady := rd |> <| readyOpen := containsUpdates rd |>) ->
  rLog (nRaft n1) = nLog n /\ nReady n1 = rd /\ prevHard n1 = hardState (nRaft n)
  /\ advanceOpen n1 = true
  /\ rdEntries rd = uEntries (lUnstable (nLog n))
  /\ nextEntries (nLog n) = Ret (rdCommittedEntries rd)
  /\ match last (rdEntries rd) with
     | Some e => hasPrevLastUnstableI n1 = true /\ prevLastUnstableI n1 = eIndex e /\ prevLastUnstableT n1 = eTerm e
     | None => hasPrevLastUnstableI n1 = false
     end.
Proof.
  intros [Hok Hc He Ht] Hrd ->. unfold newReady in Hrd. inv_ret. unfold on_ready. simpl.
  assert (Hne : hardState (nRaft n) <> emptyHardState) by (intros [= Hz]; lia).
  assert (Hnot : IsEmptyHardState (hardState (nRaft n)) = false).
  { apply not_true_is_false. intros Hemp. by apply isHardStateEqual_true in Hemp. }
  destruct (SoftState_equal _ _), (isHardStateEqual (hardState (nRaft n)) (prevHard n)) eqn:Heq; simpl;
    rewrite ?Hnot; simpl; unfold unstableEntries;
    try apply isHardStateEqual_true in Heq;
    destruct (last (uEntries (lUnstable (nLog n)))); simpl; by rewrite ?He, ?Heq.
Qed.

Lemma set_hard_state_spec (r : raftLog S) hs st :
  log_ok r -> st_SetHardState (lStorage r) hs = Ret (st, None) ->
  let r' := r <| lStorage := st |> in
  log_ok r' /\ view r' = view r /\ base r' = base r.
Proof.
  intros Hok Hst. destruct (st_SetHardState_spec (lStorage r) hs (ok_storage _ Hok)) as (s' & Hs & Hok' & Hb & _ & Hl).
  rewrite Hs in Hst. injection Hst as ->. simpl.
  assert (Hv : view (r <| lStorage := st |>) = view r).
  { unfold view, stable_part, base. simpl. by rewrite Hl, Hb. }
  split_and!; [| done | done]. apply log_ok_storage; try done.
  - rewrite Hl, Hb. apply Hok.
  - rewrite Hl, Hb. apply Hok.
Qed.

Lemma appliedTo_spec (r : raftLog S) i :
  log_ok r -> applyIndex r <= i <= commitIndex r ->
  appliedTo r i = Ret (r <| applyIndex := i |>).
Proof.
  intros Hok Hi. unfold appliedTo. pose proof (ok_commit _ Hok). pose proof (log_bounds r Hok).
  case_decide as Hz; [| by rewrite decide_False by lia].
  subst i. assert (Ha : applyIndex r = 0) by lia. destruct r as [st un c a]. simpl in *. by rewrite Ha.
Qed.

(** The log after [Advance]: the delivered run persisted, the commit index of
    the hand-over applied, the contents unchanged. *)
Lemma on_advance_spec n es more :
  log_ok (nLog n) -> applyIndex (nLog n) <= hsCommitIndex (prevHard n) <= commitIndex (nLog n) ->
  rdEntries (nReady n) = es -> uEntries (lUnstable (nLog n)) = es ++ more ->
  match last es with
  | Some e => hasPrevLastUnstableI n = true /\ prevLastUnstableI n = eIndex e /\ prevLastUnstableT n = eTerm e
  | None => hasPrevLastUnstableI n = false
  end ->
  exists n', on_advance n = Ret n' /\ log_ok (nLog n') /\ view (nLog n') = view (nLog n)
    /\ base (nLog n') = base (nLog n) /\ commitIndex (nLog n') = commitIndex (nLog n)
    /\ applyIndex (nLog n') = hsCommitIndex (prevHard n)
    /\ uEntries (lUnstable (nLog n')) = more
    /\ advanceOpen n' = false /\ hasPrevLastUnstableI n' = false /\ rTerm (nRaft n') = rTerm (nRaft n).
Proof.
  intros Hok Hi Hes Hun Hlast. unfold on_advance. set (c := hsCommitIndex (prevHard n)) in *.
  set (log0 := nLog n) in *.
  assert (Hhard : exists log1,
    (if IsEmptyHardState (prevHard n) then Ret log0
     else let! p := st_SetHardState (lStorage log0) (prevHard n) in
          let! st := stored p in Ret (log0 <| lStorage := st |>)) = Ret log1
    /\ log_ok log1 /\ view log1 = view log0 /\ base log1 = base log0 /\ commitIndex log1 = commitIndex log0
    /\ applyIndex log1 = applyIndex log0 /\ lUnstable log1 = lUnstable log0).
  { destruct (IsEmptyHardState _); [by exists log0 |].
    destruct (st_SetHardState_spec (lStorage log0) (prevHard n) (ok_storage _ Hok)) as (st & Hst & _).
    rewrite Hst. simpl. destruct (set_hard_state_spec log0 (prevHard n) st Hok Hst) as (Hok' & Hv & Hb).
    eexists. split; [done |]. done. }
  destruct Hhard as (log1 & -> & Hok1 & Hv1 & Hb1 & Hc1 & Ha1 & Hu1). cbn [obind].
  assert (Happ : exists log2,
    (if decide (c <> 0) then appliedTo log1 c else Ret log1) = Ret log2
    /\ log_ok log2 /\ view log2 = view log0 /\ base log2 = base log0 /\ commitIndex log2 = commitIndex log0
    /\ applyIndex log2 = c /\ lUnstable log2 = lUnstable log0).
  { pose proof (ok_commit _ Hok). pose proof (log_bounds _ Hok).
    assert (Hspec : appliedTo log1 c = Ret (log1 <| applyIndex := c |>)) by (apply appliedTo_spec; [done | lia]).
    case_decide; [| exists log1; split_and!; done || lia].
    exists (log1 <| applyIndex := c |>). split; [done |].
    split; [by eapply appliedTo_ok | done]. }
  destruct Happ as (log2 & -> & Hok2 & Hv2 & Hb2 & Hc2 & Ha2 & Hu2). cbn [obind].
  rewrite Hes. destruct (last es) as [e |] eqn:Hl.
  - destruct Hlast as (-> & -> & ->).
    assert (Hne : es <> []) by (intros ->; done).
    destruct (persist_spec log2 es more) as (log3 & Hp & Hok3 & Hv3 & Hb3 & Hm3 & _ & Hc3 & Ha3);
      [done | done | congruence |].
    unfold persist in Hp. inv_ret. destruct v as [st oe]. cbn [fst snd] in Hp. rewrite Hl in Hp.
    destruct oe; [done |]. rewrite E. cbn [obind stored snd fst]. rewrite Hp. cbn [obind].
    eexists. split; [done |]. simpl. split_and!; done || congruence.
  - rewrite Hlast. apply last_None in Hl as ->. cbn [obind]. eexists. split; [done |]. simpl.
    simpl in Hun. split_and!; try done; congruence.
Qed.

(** C8: between the hand-over of a [Ready] and its [Advance] the node may
    handle any calls that extend the log without cutting into the run being
    persisted. Afterwards the loop is ready for the next hand-over, the run is
    no longer unstable, and the entries the next [Ready] will deliver are those
    committed since: together the two deliver the committed entries once each,
    in order. *)
Theorem delivered_exactly_once n n1 rd log2 more :
  between n -> run_step n EvReady = Ret (Some (n1, OutReady rd)) ->
  extends (nLog n) log2 -> applyIndex log2 = applyIndex (nLog n) ->
  uEntries (lUnstable log2) = rdEntries rd ++ more ->
  let n2 := n1 <| nRaft := nRaft n1 <| rLog := log2 |> |> in
  exists n3 next, on_advance n2 = Ret n3 /\ between n3
    /\ uEntries (lUnstable (nLog n3)) = more
    /\ nextEntries (nLog n3) = Ret next
    /\ applyIndex (nLog n3) = commitIndex (nLog n)
    /\ rdCommittedEntries rd ++ next
         = take (Z.to_nat (commitIndex log2 - applyIndex (nLog n)))
             (drop (pos log2 (applyIndex (nLog n) + 1)) (view log2)).
Proof.
  intros Hb Hrun Hext Happ Hun n2. unfold run_step in Hrun. inv_ret.
  destruct (refresh_ready n v Hb E) as (rd' & Hrd & Hv).
  destruct (readyOpen v); [| done]. injection Hrun as Hn1 Hout. symmetry in Hn1.
  assert (Hrd' : nReady v = rd') by (by rewrite Hv). rewrite Hrd' in Hout. subst rd'.
  rewrite Hv in Hn1.
  destruct (on_ready_spec n rd n1 Hb Hrd Hn1) as (Hl1 & Hr1 & Hh1 & Ho1 & He1 & Hnext & Hlast).
  pose proof Hext as (Hok2 & Hbase & Hcommit & Htake).
  pose proof (ok_commit _ (bt_log _ Hb)) as Hc. pose proof (log_bounds _ (bt_log _ Hb)).
  destruct (on_advance_spec n2 (rdEntries rd) more) as (n3 & Hadv & Hok3 & Hv3 & Hb3 & Hc3 & Ha3 & Hm3 & Hcl & He3 & Ht3).
  - done.
  - simpl. rewrite Hh1. simpl. lia.
  - simpl. by rewrite Hr1.
  - done.
  - done.
  - simpl in *. rewrite Hh1 in Ha3. simpl in Ha3.
    assert (Hbt : 0 < rTerm (nRaft n3)).
    { rewrite Ht3. subst n2. rewrite Hn1. pose proof (bt_term _ Hb) as Hpos.
      unfold on_ready. simpl. destruct (rdSoftState rd), (IsEmptyHardState _), (last _); exact Hpos. }
    exists n3. rewrite nextEntries_spec by done. eexists. split_and!; try done.
    rewrite nextEntries_spec in Hnext by apply Hb. injection Hnext as <-.
    rewrite Hv3, Hc3, Ha3. unfold pos. rewrite Hb3, Hbase.
    set (b := base (nLog n)) in *. set (a := applyIndex (nLog n)) in *. set (c := commitIndex (nLog n)) in *.
    assert (Hsame : take (Z.to_nat (c - a)) (drop (Z.to_nat (a + 1 - b - 1)) (view (nLog n)))
                    = take (Z.to_nat (c - a)) (drop (Z.to_nat (a + 1 - b - 1)) (view log2))).
    { unfold committed in Htake. fold b c in Htake. apply (f_equal (drop (Z.to_nat (a + 1 - b - 1)))) in Htake.
      rewrite !skipn_firstn_comm in Htake.
      replace (Z.to_nat (c - b) - Z.to_nat (a + 1 - b - 1))%nat with (Z.to_nat (c - a)) in Htake by lia. by symmetry. }
    rewrite Hsame. replace (Z.to_nat (c + 1 - b - 1)) with (Z.to_nat (a + 1 - b - 1) + Z.to_nat (c - a))%nat by lia.
    rewrite <- drop_drop.
    replace (Z.to_nat (commitIndex log2 - a)) with (Z.to_nat (c - a) + Z.to_nat (commitIndex log2 - c))%nat by lia.
    apply take_take_drop.
Qed.

End Delivery.

#[local] Existing Instance canonical_order.

(** The loop of the concrete leader, with nothing handed out. *)
Definition sample_loop : nodeLoop MemoryStorage := initLoop (sample_leader 3).

Lemma sample_loop_between : between sample_loop.
Proof. split; [exact sample_log_ok | reflexivity | reflexivity | cbn; lia]. Qed.

Lemma delivered_exactly_once_witness :
  exists n1 rd n3, run_step sample_loop EvReady = Ret (Some (n1, OutReady rd))
    /\ on_advance n1 = Ret n3 /\ rdCommittedEntries rd = [sample_entry 1 1]
    /\ nextEntries (rLog (nRaft n3)) = Ret [].
Proof.
  destruct (run_step sample_loop EvReady) as [[[n1 [| |rd]] |] |] eqn:Hr;
    try (exfalso; vm_compute in Hr; discriminate Hr).
  exists n1, rd. assert (Hrd : rdCommittedEntries rd = [sample_entry 1 1] /\ rdEntries rd = [sample_entry 1 2; sample_entry 2 3]
    /\ n1 <| nRaft := nRaft n1 <| rLog := rLog (nRaft sample_loop) |> |> = n1).
  { vm_compute in Hr. injection Hr as <- <-. split_and!; vm_compute; reflexivity. }
  destruct Hrd as (Hc & He & Hsame).
  destruct (delivered_exactly_once sample_loop n1 rd (rLog (nRaft sample_loop)) [])
    as (n3 & next & Ha & _ & _ & Hn & _ & Hall).
  - exact sample_loop_between.
  - exact Hr.
  - apply extends_same_view; [exact sample_log_ok | reflexivity | lia | reflexivity].
  - reflexivity.
  - rewrite He. reflexivity.
  - rewrite Hsame in Ha. exists n3. split; [reflexivity |]. split; [exact Ha |]. split; [exact Hc |].
    rewrite Hn. f_equal. rewrite Hc in Hall. vm_compute in Hall. by injection Hall.
Defined.
