(* ===== verification/LruCache.v ===== *)
(** * LruCache
    One level of the local cache store ([swifty_cache/lru.go]: [node], [cache]
    and its methods): a recency list threaded through two arrays, with slots
    that are recycled and deletions that leave a tombstone behind.

    A [Value] is the Go interface value: [None] is [nil]. The eviction callback
    is an event: an operation returns the list of the calls it made. *)
From S2P Require Import Prelude.

Definition u16 (z : Z) : Z := z mod 2 ^ 16.

Lemma u16_id z : 0 <= z < 2 ^ 16 -> u16 z = z.
Proof. apply Z.mod_small. Qed.

(** What the cache asks of a value: its size ([Len]). *)
Class Sized (V : Type) := vlen : V -> Z.

(** [byte_view.go]: the value type of the cache group. A view never hands out
    the bytes it holds, so a list is all there is to it. *)
Record ByteView := mkByteView { bv : bytes }.
#[export] Instance ByteView_Len : Sized ByteView := fun v => zlen (bv v).
Definition ByteSlice (v : ByteView) : bytes := bv v.

(** The two sides of a link pair: the Go indices [p] = 0 and [n] = 1. *)
Inductive dir := p | n.

Definition side (d : dir) (l : Z * Z) : Z := match d with p => l.1 | n => l.2 end.
Definition set_side (d : dir) (v : Z) (l : Z * Z) : Z * Z :=
  match d with p => (v, l.2) | n => (l.1, v) end.

Section Cache.
  Context {V : Type} `{Sized V}.

Abbreviation Value := (option V).
Abbreviation eviction := (string * option V)%type.

Record node := mkNode {
  nk : string;
  nv : Value;
  nexpireAt : Z;
}.
#[export] Instance node_eta : Eta node := fun x => mkNode (nk x) (nv x) (nexpireAt x).
Definition zero_node : node := mkNode EmptyString None 0.

Record cache := mkCache {
  doubleLink : list (Z * Z);
  slots : list node;
  hashMap : gmap string Z;
  cbytes : Z;
  nevict : Z;
  clast : Z;
}.
#[export] Instance cache_eta : Eta cache := fun c =>
  mkCache (doubleLink c) (slots c) (hashMap c) (cbytes c) (nevict c) (clast c).

Definition Create (cap : Z) : cache :=
  mkCache (replicate (Z.to_nat (u16 (cap + 1))) (0, 0)) (replicate (Z.to_nat cap) zero_node) ∅ 0 0 0.

Definition entryBytes (key : string) (val : Value) : Z :=
  match val with
  | None => Z.of_nat (String.length key)
  | Some v => Z.of_nat (String.length key) + vlen v
  end.

(** [c.doubleLink[i][d]], read and written. *)
Definition link (c : cache) (i : Z) (d : dir) : outcome Z :=
  let! l := index (doubleLink c) i in Ret (side d l).
Definition set_link (c : cache) (i : Z) (d : dir) (v : Z) : outcome cache :=
  let! l := index (doubleLink c) i in
  Ret (c <| doubleLink := <[Z.to_nat i := set_side d v l]> (doubleLink c) |>).

(** [c.m[idx-1]], read and written. *)
Definition slot (c : cache) (idx : Z) : outcome node := index (slots c) (u16 (idx - 1)).
Definition set_slot (c : cache) (idx : Z) (nd : node) : outcome cache :=
  let! _ := slot c idx in
  Ret (c <| slots := <[Z.to_nat (u16 (idx - 1)) := nd]> (slots c) |>).

Definition adjust (c : cache) (idx : Z) (f t : dir) : outcome cache :=
  let! x := link c idx f in
  if decide (x = 0) then Ret c
  else
    let! a := link c idx t in
    let! c := set_link c a f x in
    let! a := link c idx f in
    let! b := link c idx t in
    let! c := set_link c a t b in
    let! c := set_link c idx f 0 in
    let! h := link c 0 t in
    let! c := set_link c idx t h in
    let! h := link c 0 t in
    let! c := set_link c h f idx in
    set_link c 0 t idx.

Definition put (c : cache) (key : string) (val : Value) (expireAt : Z)
    : outcome (cache * Z * list eviction) :=
  match hashMap c !! key with
  | Some idx =>
      let! nd := slot c idx in
      let delta := if decide (0 < nexpireAt nd)
                   then entryBytes key val - entryBytes (nk nd) (nv nd)
                   else entryBytes key val in
      let c := c <| cbytes := i64 (cbytes c + delta) |> in
      let! c := set_slot c idx (nd <| nv := val |> <| nexpireAt := expireAt |>) in
      let! c := adjust c idx p n in
      Ret (c, 0, [])
  | None =>
      if decide (clast c = u16 (zlen (slots c))) then
        let! t := link c 0 p in
        let! tail := slot c t in
        let '(c, evs) :=
          (if decide (0 < nexpireAt tail) then
             (c <| cbytes := i64 (cbytes c - entryBytes (nk tail) (nv tail)) |>
                <| nevict := i64 (nevict c + 1) |>, [(nk tail, nv tail)])
           else (c, [])) in
        let c := c <| hashMap := delete (nk tail) (hashMap c) |>
                   <| cbytes := i64 (cbytes c + entryBytes key val) |> in
        let! t := link c 0 p in
        let c := c <| hashMap := <[key := t]> (hashMap c) |> in
        let! c := set_slot c t (mkNode key val expireAt) in
        let! t := link c 0 p in
        let! c := adjust c t p n in
        Ret (c, 1, evs)
      else
        let c := c <| clast := u16 (clast c + 1) |> in
        let! c :=
          (if decide (Z.of_nat (size (hashMap c)) <= 0) then set_link c 0 p (clast c)
           else let! h := link c 0 n in set_link c h p (clast c)) in
        let! c := set_slot c (clast c) (mkNode key val expireAt) in
        let! h := link c 0 n in
        let! c := set_link c (clast c) p 0 in
        let! c := set_link c (clast c) n h in
        let c := c <| hashMap := <[key := clast c]> (hashMap c) |> in
        let! c := set_link c 0 n (clast c) in
        Ret (c <| cbytes := i64 (cbytes c + entryBytes key val) |>, 1, [])
  end.

(** [nil, 0] when the key has no slot. *)
Definition peek (c : cache) (key : string) : outcome (option (node * Z)) :=
  match hashMap c !! key with
  | Some idx => let! nd := slot c idx in Ret (Some (nd, idx))
  | None => Ret None
  end.

(** The slot of the deleted entry and its expiry; the entry's value stays in
    the slot until the caller clears it. *)
Definition del (c : cache) (key : string) : outcome (cache * option (Z * Z)) :=
  match hashMap c !! key with
  | None => Ret (c, None)
  | Some idx =>
      let! nd := slot c idx in
      if decide (0 < nexpireAt nd) then
        let e := nexpireAt nd in
        let c := c <| cbytes := i64 (cbytes c - entryBytes (nk nd) (nv nd)) |> in
        let! c := set_slot c idx (nd <| nexpireAt := 0 |>) in
        let! c := adjust c idx n p in
        Ret (c, Some (idx, e))
      else Ret (c, None)
  end.

(** [nd.v = nil] through the pointer that [del] returned. *)
Definition clear_value (c : cache) (idx : Z) : outcome cache :=
  let! nd := slot c idx in set_slot c idx (nd <| nv := None |>).

Definition drop_key (c : cache) (key : string) : outcome cache :=
  let! (c, found) := del c key in
  match found with
  | Some (idx, _) => clear_value c idx
  | None => Ret c
  end.

(** The scan follows the list from its old end; a list of [clast] slots is
    walked in at most that many steps. *)
Fixpoint evict_scan (fuel : nat) (c : cache) (idx : Z) : outcome (cache * bool * list eviction) :=
  match fuel with
  | O => Panic "out of fuel"
  | S fuel =>
      if decide (idx = 0) then Ret (c, false, [])
      else
        let! nd := slot c idx in
        if decide (nexpireAt nd <= 0) then
          let! next := link c idx p in evict_scan fuel c next
        else
          let c := c <| cbytes := i64 (cbytes c - entryBytes (nk nd) (nv nd)) |>
                     <| nevict := i64 (nevict c + 1) |> in
          let! c := set_slot c idx (nd <| nexpireAt := 0 |> <| nv := None |>) in
          let! c := adjust c idx n p in
          Ret (c, true, [(nk nd, nv nd)])
  end.

Definition evictOldest (c : cache) : outcome (cache * bool * list eviction) :=
  let! idx := link c 0 p in evict_scan (S (length (slots c))) c idx.

(** The live entries, most recent first, handed to a walker that answers
    whether to go on; the state [acc] is what the walker's closure captures. *)
Fixpoint walk_scan {A} (fuel : nat) (c : cache) (walker : string -> Value -> Z -> A -> outcome (A * bool))
    (idx : Z) (acc : A) : outcome A :=
  match fuel with
  | O => Panic "out of fuel"
  | S fuel =>
      if decide (idx = 0) then Ret acc
      else
        let! nd := slot c idx in
        let! (acc, go_on) :=
          (if decide (0 < nexpireAt nd) then walker (nk nd) (nv nd) (nexpireAt nd) acc else Ret (acc, true)) in
        if go_on : bool then let! next := link c idx n in walk_scan fuel c walker next acc
        else Ret acc
  end.

Definition walk {A} (c : cache) (walker : string -> Value -> Z -> A -> outcome (A * bool)) (acc : A) : outcome A :=
  let! idx := link c 0 n in walk_scan (S (length (slots c))) c walker idx acc.

End Cache.
Arguments node : clear implicits.
Arguments cache : clear implicits.
