(* ===== verification/LruLinks.v ===== *)
(** * LruLinks
    The doubly linked list that [LruCache] threads through its index array:
    [adjust] moves a slot to one end and keeps the links consistent. *)
From S2P Require Import Prelude LruCache.

(** ** Doubly linked chains
    [T] follows the list, [F] follows it backwards, from [x] to [y]. *)

Fixpoint chain (T F : Z -> Z) (x : Z) (l : list Z) (y : Z) : Prop :=
  match l with
  | [] => T x = y /\ F y = x
  | z :: l => (T x = z /\ F z = x) /\ chain T F z l y
  end.

Lemma chain_app T F x l1 z l2 y :
  chain T F x (l1 ++ z :: l2) y <-> chain T F x l1 z /\ chain T F z l2 y.
Proof. revert x. induction l1 as [| w l1 IH]; intros x; simpl; [tauto |]. rewrite IH. tauto. Qed.

Lemma chain_rev T F x l y : chain T F x l y <-> chain F T y (rev l) x.
Proof.
  revert x. induction l as [| z l IH]; intros x; simpl; [tauto |].
  rewrite chain_app, IH. simpl. tauto.
Qed.

Lemma chain_frame T F T' F' x l y :
  (forall z, z ∈ x :: l -> T' z = T z) -> (forall z, z ∈ l ++ [y] -> F' z = F z) ->
  chain T F x l y -> chain T' F' x l y.
Proof.
  revert x. induction l as [| w l IH]; intros x HT HF; simpl.
  - intros [? ?]. rewrite HT, HF by set_solver. done.
  - intros [[? ?] ?]. rewrite HT, HF by set_solver. split; [done |].
    apply IH; [| | done]; set_solver.
Qed.

(** Moving [i] to the front of the list, in terms of the two updated link
    functions: [a] precedes [i], [b] follows it, [h] is the old front. *)
Definition move_T (i a b h : Z) (T : Z -> Z) (j : Z) : Z :=
  if decide (j = 0) then i else if decide (j = i) then h else if decide (j = a) then b else T j.
Definition move_F (i a b h : Z) (F : Z -> Z) (j : Z) : Z :=
  if decide (j = h) then i else if decide (j = i) then 0 else if decide (j = b) then a else F j.

Ltac move_eq := unfold move_T, move_F; repeat case_decide; congruence.

Lemma chain_move_front T F i a b h pre :
  i <> 0 -> a <> 0 -> a <> i -> a ∉ pre -> h <> b -> h = default 0 (head (pre ++ [a])) ->
  Forall (fun z => z <> 0 /\ z <> i /\ z <> b) pre -> a <> b -> NoDup pre ->
  chain T F 0 (pre ++ [a]) i ->
  chain (move_T i a b h T) (move_F i a b h F) i pre a.
Proof.
  intros Hi Ha Hai Hap Hhb Hh Hpre Hab Hnd Hch. destruct pre as [| h' q]; simpl in *; subst h.
  - split; move_eq.
  - apply Forall_cons in Hpre as [(? & ? & ?) Hq]. apply NoDup_cons in Hnd as [Hh' Hnd].
    apply not_elem_of_cons in Hap as [? Hap].
    destruct Hch as [_ Hch]. apply chain_app in Hch as [Hch _]. split; [split; move_eq |].
    rewrite Forall_forall in Hq. eapply chain_frame; [| | exact Hch].
    + intros z [-> | Hz]%elem_of_cons; [move_eq |]. specialize (Hq z Hz) as (? & ? & ?).
      assert (z <> a) by (by intros ->). move_eq.
    + intros z [Hz | ->%list_elem_of_singleton]%elem_of_app; [| move_eq].
      specialize (Hq z Hz) as (? & ? & ?). assert (z <> h') by (by intros ->). move_eq.
Qed.

Lemma chain_move_back T F i a b h post :
  i <> 0 -> a <> 0 -> a <> i -> h <> b -> h <> 0 -> b = default 0 (head post) ->
  Forall (fun z => z <> 0 /\ z <> i /\ z <> a /\ z <> h) post -> NoDup post ->
  chain T F i post 0 ->
  chain (move_T i a b h T) (move_F i a b h F) a post 0.
Proof.
  intros Hi Ha Hai Hhb Hh0 Hb Hpost Hnd Hch. destruct post as [| b' q]; simpl in *; subst b.
  - split; move_eq.
  - apply Forall_cons in Hpost as [(? & ? & ? & ?) Hq]. apply NoDup_cons in Hnd as [Hb' Hnd].
    destruct Hch as [_ Hch]. split; [split; move_eq |].
    rewrite Forall_forall in Hq. eapply chain_frame; [| | exact Hch].
    + intros z [-> | Hz]%elem_of_cons; [move_eq |]. specialize (Hq z Hz) as (? & ? & ? & ?). move_eq.
    + intros z [Hz | ->%list_elem_of_singleton]%elem_of_app; [| move_eq].
      specialize (Hq z Hz) as (? & ? & ? & ?). assert (z <> b') by (by intros ->). move_eq.
Qed.

Lemma chain_move T F pre a i post :
  NoDup (0 :: (pre ++ [a]) ++ i :: post) ->
  let b := default 0 (head post) in
  let h := default 0 (head (pre ++ [a])) in
  chain T F 0 ((pre ++ [a]) ++ i :: post) 0 ->
  chain (move_T i a b h T) (move_F i a b h F) 0 (i :: (pre ++ [a]) ++ post) 0.
Proof.
  intros Hnd b h Hch. apply chain_app in Hch as [Hpre Hpost].
  apply NoDup_cons in Hnd as [H0 Hnd]. rewrite <- app_assoc in Hnd, H0. simpl in Hnd, H0.
  apply NoDup_app in Hnd as (Hnpre & Hdis & Hnd).
  apply NoDup_cons in Hnd as [Ha Hnd]. apply NoDup_cons in Hnd as [Hi Hnpost].
  apply not_elem_of_app in H0 as [H0pre H0]. apply not_elem_of_cons in H0 as [H0a H0].
  apply not_elem_of_cons in H0 as [H0i H0post]. apply not_elem_of_cons in Ha as [Hai Hapost].
  assert (Hdis' : forall z, z ∈ pre -> z <> a /\ z <> i /\ z ∉ post).
  { intros z Hz. specialize (Hdis z Hz). rewrite !not_elem_of_cons in Hdis. tauto. }
  assert (Hh : h = a \/ h ∈ pre) by (subst h; destruct pre; simpl; [by left | right; left]).
  assert (Hb : b = 0 \/ b ∈ post) by (subst b; destruct post; simpl; [by left | right; left]).
  assert (h <> 0) by (destruct Hh as [-> | Hh]; [done | by intros Hz; rewrite Hz in Hh]).
  assert (h <> i) by (destruct Hh as [-> | Hh]; [done | by apply Hdis']).
  assert (Hhp : h ∉ post) by (destruct Hh as [-> | Hh]; [done | by apply Hdis']).
  assert (h <> b) by (destruct Hb as [-> | Hb]; [done | by intros Hz; rewrite Hz in Hhp]).
  assert (a <> b) by (destruct Hb as [-> | Hb]; [done | by intros Hz; rewrite Hz in Hapost]).
  simpl. split; [split; move_eq |]. rewrite <- app_assoc. simpl. apply chain_app. split.
  - apply chain_move_front; try done; [by intros Hz; destruct (Hdis' a Hz) |].
    apply Forall_forall. intros z Hz. destruct (Hdis' z Hz) as (? & ? & ?).
    split_and!; [by intros -> | done |]. destruct Hb as [-> | Hb]; [by intros -> | by intros ->].
  - apply chain_move_back; try done. apply Forall_forall. intros z Hz.
    split_and!; by intros ->.
Qed.

(** ** The link array *)

Definition lk (dl : list (Z * Z)) (d : dir) (i : Z) : Z :=
  match dl !! Z.to_nat i with Some l => side d l | None => 0 end.

#[export] Instance dir_eq_dec : EqDecision dir.
Proof. solve_decision. Defined.

Section Links.
  Context {V : Type} `{Sized V}.
  Implicit Types c : cache V.

Lemma link_spec c i d : 0 <= i < zlen (doubleLink c) -> link c i d = Ret (lk (doubleLink c) d i).
Proof.
  intros Hi. destruct (index_total _ _ Hi) as (l & Hl & Hlk). unfold link, lk. by rewrite Hl, Hlk.
Qed.

Lemma set_link_spec c i d v :
  0 <= i < zlen (doubleLink c) ->
  exists dl, set_link c i d v = Ret (c <| doubleLink := dl |>) /\ zlen dl = zlen (doubleLink c)
    /\ forall d' j, 0 <= j -> lk dl d' j = if decide (d' = d /\ j = i) then v else lk (doubleLink c) d' j.
Proof.
  intros Hi. destruct (index_total _ _ Hi) as (l & Hl & Hlk). unfold set_link. rewrite Hl. simpl.
  eexists. split; [done |]. split; [unfold zlen; by rewrite length_insert |].
  intros d' j Hj. unfold lk. destruct (decide (j = i)) as [-> | Hne].
  - rewrite list_lookup_insert_eq by (apply lookup_lt_Some in Hlk; lia). rewrite Hlk.
    destruct (decide (d' = d /\ i = i)) as [[-> _] | Hn]; destruct d; try destruct d'; simpl; try done; by destruct Hn.
  - rewrite list_lookup_insert_ne by lia. rewrite decide_False by naive_solver. done.
Qed.

Lemma chain_link T F x l y : chain T F x l y -> T x = default y (head l).
Proof. destruct l; simpl; tauto. Qed.

Lemma chain_back T F x l y : chain T F x l y -> F y = default x (last l).
Proof.
  revert x. induction l as [| z l IH]; intros x; [simpl; tauto |].
  intros [_ Hl]. rewrite (IH _ Hl). rewrite last_cons. by destruct (last l).
Qed.

(** [adjust] moves a slot to the front of the list seen in direction [t]. *)
Lemma adjust_spec c f t pre idx post :
  f <> t -> let order := pre ++ idx :: post in
  chain (lk (doubleLink c) t) (lk (doubleLink c) f) 0 order 0 ->
  NoDup (0 :: order) -> Forall (fun i => 0 < i < zlen (doubleLink c)) order ->
  exists dl, adjust c idx f t = Ret (c <| doubleLink := dl |>) /\ zlen dl = zlen (doubleLink c)
    /\ chain (lk dl t) (lk dl f) 0 (idx :: pre ++ post) 0.
Proof.
  intros Hft order Hch Hnd Hall. set (T := lk (doubleLink c) t) in *. set (F := lk (doubleLink c) f) in *.
  assert (Hidx : 0 < idx < zlen (doubleLink c)) by (rewrite Forall_forall in Hall; apply Hall; set_solver).
  unfold adjust. rewrite link_spec by lia. cbn [obind]. fold (F idx).
  pose proof (proj1 (chain_app _ _ _ _ _ _ _) Hch) as [Hpre Hpost].
  assert (Hlen : 0 < zlen (doubleLink c)) by lia.
  induction pre as [| a pre _] using rev_ind.
  - simpl in Hpre. destruct Hpre as [_ ->]. rewrite decide_True by done. exists (doubleLink c).
    by destruct c.
  - assert (Ha : F idx = a) by (apply chain_back in Hpre as ->; by rewrite last_snoc).
    set (b := default 0 (head post)) in *. set (h := default 0 (head (pre ++ [a]))) in *.
    assert (Hb : T idx = b) by (by apply chain_link in Hpost).
    assert (Hh : T 0 = h).
    { apply chain_link in Hch. rewrite Hch. subst order h. by destruct pre. }
    rewrite Forall_forall in Hall.
    assert (Hain : 0 < a < zlen (doubleLink c)) by (apply Hall; set_solver).
    assert (Hbin : 0 <= b < zlen (doubleLink c)).
    { subst b. destruct post as [| b' q]; simpl; [lia |]. assert (0 < b' < zlen (doubleLink c)) by (apply Hall; set_solver). lia. }
    assert (Hhin : 0 < h < zlen (doubleLink c)) by (apply Hall; subst h order; destruct pre; simpl; set_solver).
    assert (Hib : idx <> b).
    { subst b. apply NoDup_cons in Hnd as [H0 Hnd]. apply NoDup_app in Hnd as (_ & _ & Hnd).
      apply NoDup_cons in Hnd as [Hni _]. destruct post; simpl; [lia | set_solver]. }
    assert (Hia : idx <> a).
    { apply NoDup_cons in Hnd as [H0 Hnd]. apply NoDup_app in Hnd as (_ & Hdis & _).
      intros ->. apply (Hdis a); set_solver. }
    rewrite Ha. rewrite decide_False by lia. rewrite link_spec by lia. cbn [obind]. fold (T idx). rewrite Hb.
    destruct (set_link_spec c b f a) as (d1 & -> & Hz1 & Hl1); [lia |]. cbn [obind].
    rewrite !link_spec by (simpl; lia). cbn [obind doubleLink]. simpl.
    rewrite !Hl1 by lia. rewrite !decide_False by naive_solver. fold (F idx) (T idx). rewrite Ha, Hb.
    destruct (set_link_spec (c <| doubleLink := d1 |>) a t b) as (d2 & -> & Hz2 & Hl2); [simpl; lia |]. cbn [obind].
    destruct (set_link_spec (c <| doubleLink := d1 |> <| doubleLink := d2 |>) idx f 0) as (d3 & -> & Hz3 & Hl3); [simpl in *; lia |].
    cbn [obind]. simpl in *. rewrite link_spec by (simpl; lia). cbn [obind]. simpl.
    rewrite Hl3, Hl2, Hl1 by lia. rewrite !decide_False by naive_solver lia. fold (T 0). rewrite Hh.
    match goal with |- context [set_link ?x idx t h] => destruct (set_link_spec x idx t h) as (d4 & -> & Hz4 & Hl4); [simpl; lia |] end.
    cbn [obind]. simpl in *. rewrite link_spec by (simpl; lia). cbn [obind]. simpl.
    rewrite Hl4, Hl3, Hl2, Hl1 by lia. rewrite !decide_False by naive_solver lia. fold (T 0). rewrite Hh.
    match goal with |- context [set_link ?x h f idx] => destruct (set_link_spec x h f idx) as (d5 & -> & Hz5 & Hl5); [simpl; lia |] end.
    cbn [obind]. simpl in *.
    match goal with |- context [set_link ?x 0 t idx] => destruct (set_link_spec x 0 t idx) as (d6 & -> & Hz6 & Hl6); [simpl; lia |] end.
    simpl in *. exists d6. split; [done |]. split; [lia |].
    eapply (chain_frame _ _ _ _ 0 (idx :: (pre ++ [a]) ++ post) 0);
      [| | exact (chain_move T F pre a idx post Hnd Hch)]; intros z Hz.
    + assert (0 <= z). { apply elem_of_cons in Hz as [-> | Hz]; [lia |]. assert (0 < z < zlen (doubleLink c)) by (apply Hall; subst order; set_solver). lia. }
      rewrite Hl6, Hl5, Hl4, Hl3, Hl2, Hl1 by lia. unfold move_T. subst T. simpl.
      repeat case_decide; naive_solver.
    + assert (0 <= z). { apply elem_of_app in Hz as [Hz | ->%list_elem_of_singleton]; [| lia]. assert (0 < z < zlen (doubleLink c)) by (apply Hall; subst order; set_solver). lia. }
      rewrite Hl6, Hl5, Hl4, Hl3, Hl2, Hl1 by lia. unfold move_F. subst F. simpl.
      repeat case_decide; naive_solver.
Qed.

End Links.

