(* ===== verification/LruCacheFacts.v ===== *)
(** * LruCacheFacts
    One cache level against its abstract specification: a bounded list of
    entries, most recent first. *)
From S2P Require Import Prelude LruCache LruLinks.

(** ** Representation *)

Section Repr.
  Context {V : Type} `{Sized V}.
  Implicit Types c : cache V.

Definition node_at c (i : Z) : option (node V) := slots c !! Z.to_nat (i - 1).

Definition node_size (nd : node V) : Z := entryBytes (nk nd) (nv nd).

Fixpoint total (l : list (node V)) : Z :=
  match l with [] => 0 | nd :: l => node_size nd + total l end.

(** The slots in use, in list order, and the arrays they live in. *)
Record frame_ok c (cap : Z) (order : list Z) : Prop := {
  fr_slots : zlen (slots c) = cap;
  fr_cap : 1 <= cap < 2 ^ 16 - 1;
  fr_links : zlen (doubleLink c) = cap + 1;
  fr_last : clast c = zlen order;
  fr_le : clast c <= cap;
  fr_perm : order ≡ₚ seqZ 1 (clast c);
  fr_chain : chain (lk (doubleLink c) n) (lk (doubleLink c) p) 0 order 0;
}.

(** The live slots hold the entries [l]; the tombstones come after them. *)
Record data_ok c (live dead : list Z) (l : list (node V)) : Prop := {
  da_live : Forall2 (fun i nd => node_at c i = Some nd /\ 0 < nexpireAt nd) live l;
  da_dead : Forall (fun i => exists nd, node_at c i = Some nd /\ nexpireAt nd = 0) dead;
  da_map : forall k i, hashMap c !! k = Some i <-> i ∈ live ++ dead /\ nk <$> node_at c i = Some k;
  da_bytes : cbytes c = i64 (total l);
}.

(** The cache [c] of [cap] slots holds the live entries [l], most recent first. *)
Definition cache_ok c (cap : Z) (l : list (node V)) : Prop :=
  exists live dead, frame_ok c cap (live ++ dead) /\ data_ok c live dead l.

Lemma frame_elem c cap order i : frame_ok c cap order -> i ∈ order <-> 1 <= i <= clast c.
Proof. intros Hf. rewrite (fr_perm _ _ _ Hf), elem_of_seqZ. lia. Qed.

Lemma frame_NoDup c cap order : frame_ok c cap order -> NoDup (0 :: order).
Proof.
  intros Hf. apply NoDup_cons. split.
  - rewrite (frame_elem _ _ _ _ Hf). lia.
  - rewrite (fr_perm _ _ _ Hf). apply NoDup_seqZ.
Qed.

Lemma frame_bound c cap order :
  frame_ok c cap order -> Forall (fun i => 0 < i < zlen (doubleLink c)) order.
Proof.
  intros Hf. apply Forall_forall. intros i Hi. apply (frame_elem _ _ _ _ Hf) in Hi.
  pose proof (fr_links _ _ _ Hf). pose proof (fr_le _ _ _ Hf). lia.
Qed.

Lemma frame_slot c cap order i :
  frame_ok c cap order -> i ∈ order -> exists nd, node_at c i = Some nd /\ slot c i = Ret nd.
Proof.
  intros Hf Hi. apply (frame_elem _ _ _ _ Hf) in Hi.
  pose proof (fr_le _ _ _ Hf). pose proof (fr_cap _ _ _ Hf). pose proof (fr_slots _ _ _ Hf).
  destruct (index_total (slots c) (i - 1)) as (nd & Hnd & Hl); [lia |].
  exists nd. unfold slot. rewrite u16_id by lia. done.
Qed.

Lemma slot_node c cap order i nd :
  frame_ok c cap order -> i ∈ order -> node_at c i = Some nd -> slot c i = Ret nd.
Proof. intros Hf Hi Hn. destruct (frame_slot _ _ _ _ Hf Hi) as (nd' & Hn' & Hs). congruence. Qed.

Lemma set_slot_spec c cap order i nd :
  frame_ok c cap order -> i ∈ order ->
  exists sl, set_slot c i nd = Ret (c <| slots := sl |>) /\ zlen sl = zlen (slots c)
    /\ forall j, 1 <= j -> node_at (c <| slots := sl |>) j = if decide (j = i) then Some nd else node_at c j.
Proof.
  intros Hf Hi. destruct (frame_slot _ _ _ _ Hf Hi) as (old & Hn & Hs). unfold set_slot. rewrite Hs.
  cbn [obind]. eexists. split; [done |]. split; [unfold zlen; by rewrite length_insert |].
  apply (frame_elem _ _ _ _ Hf) in Hi. pose proof (fr_le _ _ _ Hf). pose proof (fr_cap _ _ _ Hf).
  intros j Hj. unfold node_at in *. simpl. rewrite u16_id by lia.
  case_decide as Hji; [subst j |].
  - apply list_lookup_insert_eq. by apply lookup_lt_Some in Hn.
  - apply list_lookup_insert_ne. lia.
Qed.

(** Fields other than the arrays do not matter to the frame. *)
Lemma frame_ext c c' cap order :
  frame_ok c cap order -> zlen (slots c') = zlen (slots c) -> doubleLink c' = doubleLink c ->
  clast c' = clast c -> frame_ok c' cap order.
Proof. intros [] Hs Hd Hl. constructor; rewrite ?Hs, ?Hd, ?Hl; done. Qed.

Lemma to_front c cap pre idx post :
  frame_ok c cap (pre ++ idx :: post) ->
  exists dl, adjust c idx p n = Ret (c <| doubleLink := dl |>)
    /\ frame_ok (c <| doubleLink := dl |>) cap (idx :: pre ++ post).
Proof.
  intros Hf. destruct (adjust_spec c p n pre idx post) as (dl & Ha & Hz & Hch);
    [done | apply Hf | by eapply frame_NoDup | by eapply frame_bound |].
  exists dl. split; [done |]. destruct Hf. constructor; simpl; try done; [lia | |].
  - rewrite fr_last0. unfold zlen. simpl. rewrite !length_app. simpl. lia.
  - rewrite <- fr_perm0. apply Permutation_middle.
Qed.

Lemma rev_split {A} (pre : list A) x post : rev (pre ++ x :: post) = rev post ++ x :: rev pre.
Proof. rewrite rev_app_distr. simpl. by rewrite <- app_assoc. Qed.

Lemma to_back c cap pre idx post :
  frame_ok c cap (pre ++ idx :: post) ->
  exists dl, adjust c idx n p = Ret (c <| doubleLink := dl |>)
    /\ frame_ok (c <| doubleLink := dl |>) cap (pre ++ post ++ [idx]).
Proof.
  intros Hf. pose proof (frame_NoDup _ _ _ Hf) as Hnd. pose proof (frame_bound _ _ _ Hf) as Hb.
  assert (Hperm : rev post ++ idx :: rev pre ≡ₚ pre ++ idx :: post).
  { rewrite <- rev_split. symmetry. apply Permutation_rev. }
  destruct (adjust_spec c n p (rev post) idx (rev pre)) as (dl & Ha & Hz & Hch).
  - done.
  - rewrite <- rev_split. apply chain_rev. rewrite rev_involutive. apply Hf.
  - by rewrite Hperm.
  - by rewrite Hperm.
  - exists dl. split; [done |]. apply chain_rev in Hch. simpl in Hch.
    rewrite rev_app_distr, !rev_involutive, <- app_assoc in Hch.
    destruct Hf. constructor; simpl; try done; [lia | |].
    + rewrite fr_last0. unfold zlen. rewrite !length_app. simpl. lia.
    + rewrite <- fr_perm0. apply Permutation_app_head. symmetry. apply Permutation_cons_append.
Qed.

(** ** Contents *)

Definition remove (k : string) (l : list (node V)) : list (node V) := filter (fun nd => nk nd <> k) l.

Lemma remove_fresh k l : k ∉ nk <$> l -> remove k l = l.
Proof.
  unfold remove. induction l as [| nd l IH]; [done |]. rewrite fmap_cons, not_elem_of_cons. intros [? ?].
  rewrite filter_cons_True by done. by rewrite IH.
Qed.

Lemma remove_split k l1 nd l2 :
  NoDup (nk <$> (l1 ++ nd :: l2)) -> nk nd = k -> remove k (l1 ++ nd :: l2) = l1 ++ l2.
Proof.
  rewrite fmap_app, fmap_cons. intros (_ & Hd & [Hn _]%NoDup_cons)%NoDup_app <-. unfold remove.
  rewrite filter_app, filter_cons_False by (intros Hf; by apply Hf).
  f_equal; apply remove_fresh; [| done]. intros Hin. apply (Hd _ Hin). set_solver.
Qed.

Lemma total_app l1 l2 : total (l1 ++ l2) = total l1 + total l2.
Proof. induction l1 as [| nd l1 IH]; simpl; lia. Qed.

Lemma i64_add_l a b : i64 (i64 a + b) = i64 (a + b).
Proof.
  unfold i64. f_equal.
  replace ((a + 2 ^ 63) mod 2 ^ 64 - 2 ^ 63 + b + 2 ^ 63) with ((a + 2 ^ 63) mod 2 ^ 64 + b) by lia.
  rewrite Zplus_mod_idemp_l. f_equal. lia.
Qed.

Lemma i64_sub_l a b : i64 (i64 a - b) = i64 (a - b).
Proof. unfold Z.sub. apply i64_add_l. Qed.

Lemma data_elem c live dead l k idx cap :
  frame_ok c cap (live ++ dead) -> data_ok c live dead l -> hashMap c !! k = Some idx ->
  idx ∈ live ++ dead /\ exists nd, node_at c idx = Some nd /\ nk nd = k /\ slot c idx = Ret nd.
Proof.
  intros Hf Hd [Hi Hk]%(da_map _ _ _ _ Hd). split; [done |].
  destruct (frame_slot _ _ _ _ Hf Hi) as (nd & Hn & Hs). exists nd. rewrite Hn in Hk. by injection Hk.
Qed.

(** Distinct slots carry distinct keys. *)
Lemma data_inj c live dead l i j nd nd' :
  data_ok c live dead l -> i ∈ live ++ dead -> j ∈ live ++ dead ->
  node_at c i = Some nd -> node_at c j = Some nd' -> nk nd = nk nd' -> i = j.
Proof.
  intros Hd Hi Hj Hni Hnj Hk.
  assert (Hi' : hashMap c !! nk nd = Some i) by (apply (da_map _ _ _ _ Hd); by rewrite Hni).
  assert (Hj' : hashMap c !! nk nd = Some j) by (apply (da_map _ _ _ _ Hd); rewrite Hnj, Hk; done).
  congruence.
Qed.

Lemma data_keys c live dead l :
  NoDup (live ++ dead) -> data_ok c live dead l -> NoDup (nk <$> l).
Proof.
  intros Hnd Hd. apply NoDup_fmap_2_strong.
  - intros x y [i Hi]%list_elem_of_lookup_1 [j Hj]%list_elem_of_lookup_1 Hk.
    destruct (Forall2_lookup_r _ _ _ _ _ (da_live _ _ _ _ Hd) Hi) as (a & Ha & Hna & _).
    destruct (Forall2_lookup_r _ _ _ _ _ (da_live _ _ _ _ Hd) Hj) as (b & Hb & Hnb & _).
    assert (a = b) as ->.
    { eapply data_inj; try done; apply elem_of_app; left; by eapply list_elem_of_lookup_2. }
    congruence.
  - apply NoDup_app in Hnd as [Hnd _]. apply NoDup_alt. intros i j x Hi Hj.
    destruct (Forall2_lookup_r _ _ _ _ _ (da_live _ _ _ _ Hd) Hi) as (a & Ha & Hna & _).
    destruct (Forall2_lookup_r _ _ _ _ _ (da_live _ _ _ _ Hd) Hj) as (b & Hb & Hnb & _).
    assert (a = b) as ->.
    { eapply data_inj; try done; apply elem_of_app; left; by eapply list_elem_of_lookup_2. }
    by eapply NoDup_lookup.
Qed.

(** A key is live exactly when it is among the contents. *)
Lemma data_live_key c live dead l k idx nd cap :
  frame_ok c cap (live ++ dead) -> data_ok c live dead l ->
  hashMap c !! k = Some idx -> node_at c idx = Some nd ->
  (0 < nexpireAt nd <-> idx ∈ live) /\ (idx ∈ live <-> k ∈ nk <$> l).
Proof.
  intros Hf Hd Hk Hn. destruct (data_elem _ _ _ _ _ _ _ Hf Hd Hk) as (Hi & nd' & Hn' & Hk' & _).
  assert (nd' = nd) as -> by congruence. pose proof (da_live _ _ _ _ Hd) as Hl. split; split.
  - intros Hpos. apply elem_of_app in Hi as [| Hi]; [done |].
    pose proof (da_dead _ _ _ _ Hd) as Hdd. rewrite Forall_forall in Hdd.
    destruct (Hdd idx Hi) as (nd' & ? & ?). assert (nd' = nd) as -> by congruence. lia.
  - intros [j Hj]%list_elem_of_lookup_1.
    destruct (Forall2_lookup_l _ _ _ _ _ Hl Hj) as (nd' & _ & ? & ?). by assert (nd' = nd) as -> by congruence.
  - intros [j Hj]%list_elem_of_lookup_1.
    destruct (Forall2_lookup_l _ _ _ _ _ Hl Hj) as (nd' & Hlj & ? & ?). assert (nd' = nd) as -> by congruence.
    apply list_elem_of_fmap. exists nd. split; [done |]. by eapply list_elem_of_lookup_2.
  - intros (nd' & Hkn & [j Hj]%list_elem_of_lookup_1)%list_elem_of_fmap.
    destruct (Forall2_lookup_r _ _ _ _ _ Hl Hj) as (i & Hlj & Hni & _).
    assert (i = idx) as ->.
    { eapply data_inj; try done; [apply elem_of_app; left; by eapply list_elem_of_lookup_2 | congruence]. }
    by eapply list_elem_of_lookup_2.
Qed.

Lemma data_missing_key c live dead l k :
  data_ok c live dead l -> hashMap c !! k = None -> k ∉ nk <$> l.
Proof.
  intros Hd Hk (nd & Hkn & [j Hj]%list_elem_of_lookup_1)%list_elem_of_fmap.
  destruct (Forall2_lookup_r _ _ _ _ _ (da_live _ _ _ _ Hd) Hj) as (i & Hlj & Hni & _).
  assert (Hi : hashMap c !! k = Some i).
  { apply (da_map _ _ _ _ Hd). rewrite Hni. simpl. split; [| by f_equal].
    apply elem_of_app. left. by eapply list_elem_of_lookup_2. }
  congruence.
Qed.

(** The live list split at a live slot. *)
Lemma data_split c live dead l idx nd :
  NoDup (live ++ dead) -> data_ok c live dead l -> idx ∈ live -> node_at c idx = Some nd ->
  exists pre post l1 l2, live = pre ++ idx :: post /\ l = l1 ++ nd :: l2
    /\ length pre = length l1 /\ remove (nk nd) l = l1 ++ l2.
Proof.
  intros Hnd Hd (pre & post & ->)%list_elem_of_split Hn. pose proof (data_keys _ _ _ _ Hnd Hd) as Hkeys.
  destruct (proj1 (Forall2_app_inv_l _ _ _ _) (da_live _ _ _ _ Hd)) as (l1 & l2' & Hl1 & Hl2 & ->).
  inversion Hl2 as [| ? nd' ? l2 [Hn' Hp] Hl2']; subst. assert (nd' = nd) as -> by congruence.
  exists pre, post, l1, l2. split_and!; [done | done | by eapply Forall2_length | by apply remove_split].
Qed.

Lemma nodes_agree c c' idx (live : list Z) l :
  (forall j, 1 <= j -> j <> idx -> node_at c' j = node_at c j) ->
  idx ∉ live -> Forall (fun i => 1 <= i) live ->
  Forall2 (fun i nd => node_at c i = Some nd /\ 0 < nexpireAt nd) live l ->
  Forall2 (fun i nd => node_at c' i = Some nd /\ 0 < nexpireAt nd) live l.
Proof.
  intros Hn Hi Hb Hf. induction Hf as [| i nd live l Hx Hf IH]; [constructor |].
  apply Forall_cons in Hb as [? ?]. apply not_elem_of_cons in Hi as [? ?].
  constructor; [| by apply IH]. by rewrite Hn.
Qed.

Lemma dead_agree c c' idx (dead : list Z) :
  (forall j, 1 <= j -> j <> idx -> node_at c' j = node_at c j) ->
  idx ∉ dead -> Forall (fun i => 1 <= i) dead ->
  Forall (fun i => exists nd, node_at c i = Some nd /\ nexpireAt nd = 0) dead ->
  Forall (fun i => exists nd, node_at c' i = Some nd /\ nexpireAt nd = 0) dead.
Proof.
  intros Hn Hi Hb. rewrite !Forall_forall. intros Hd i Hid. rewrite Forall_forall in Hb.
  rewrite Hn; [by apply Hd | by apply Hb | by intros ->].
Qed.

(** Changes to one slot that keep its key. *)
Lemma map_same c c' order order' :
  (forall k i, hashMap c !! k = Some i <-> i ∈ order /\ nk <$> node_at c i = Some k) ->
  hashMap c' = hashMap c -> order' ≡ₚ order ->
  (forall i, i ∈ order -> nk <$> node_at c' i = nk <$> node_at c i) ->
  forall k i, hashMap c' !! k = Some i <-> i ∈ order' /\ nk <$> node_at c' i = Some k.
Proof.
  intros Hm -> Hp Hn k i. rewrite Hm, Hp. split; intros [Hi Hk]; (split; [done |]); [by rewrite Hn |].
  by rewrite <- Hn.
Qed.

Lemma order_pos c cap order : frame_ok c cap order -> Forall (fun i => 1 <= i) order.
Proof. intros Hf. apply Forall_forall. intros i Hi. apply (frame_elem _ _ _ _ Hf) in Hi. lia. Qed.

(** One slot is rewritten: what the lists of live and dead slots become. *)
Record rewrites c c' (idx : Z) (nd nd' : node V) : Prop := {
  rw_old : node_at c idx = Some nd;
  rw_new : node_at c' idx = Some nd';
  rw_key : nk nd' = nk nd;
  rw_other : forall j, 1 <= j -> j <> idx -> node_at c' j = node_at c j;
  rw_map : hashMap c' = hashMap c;
}.

Lemma rewrites_keys c c' idx nd nd' order :
  rewrites c c' idx nd nd' -> Forall (fun i => 1 <= i) order ->
  forall i, i ∈ order -> nk <$> node_at c' i = nk <$> node_at c i.
Proof.
  intros Hw Hpos i Hi. rewrite Forall_forall in Hpos. destruct (decide (i = idx)) as [-> | Hne].
  - rewrite (rw_old _ _ _ _ _ Hw), (rw_new _ _ _ _ _ Hw). simpl. by rewrite (rw_key _ _ _ _ _ Hw).
  - by rewrite (rw_other _ _ _ _ _ Hw) by auto.
Qed.

Lemma data_refresh c c' cap pre idx post dead l1 nd nd' l2 :
  frame_ok c cap ((pre ++ idx :: post) ++ dead) ->
  data_ok c (pre ++ idx :: post) dead (l1 ++ nd :: l2) -> length pre = length l1 ->
  rewrites c c' idx nd nd' -> 0 < nexpireAt nd' ->
  cbytes c' = i64 (total (nd' :: l1 ++ l2)) ->
  data_ok c' (idx :: pre ++ post) dead (nd' :: l1 ++ l2).
Proof.
  intros Hf Hd Hlen Hw Hp Hb. pose proof (frame_NoDup _ _ _ Hf) as [_ Hnd]%NoDup_cons.
  pose proof (order_pos _ _ _ Hf) as Hpos. rewrite Forall_app in Hpos. destruct Hpos as [Hpl Hpd].
  assert (Hperm : (idx :: pre ++ post) ++ dead ≡ₚ (pre ++ idx :: post) ++ dead) by (by rewrite Permutation_middle).
  apply NoDup_app in Hnd as (Hndl & Hdis & _).
  apply NoDup_app in Hndl as (_ & Hdp & [Hip _]%NoDup_cons).
  destruct (Forall2_app_inv _ _ _ _ _ Hlen (da_live _ _ _ _ Hd)) as [Hl1 Hl2].
  inversion Hl2 as [| ? ? ? ? _ Hl2']; subst. apply Forall_app in Hpl as [Hp1 [_ Hp2]%Forall_cons].
  assert (Hni : idx ∉ pre) by (intros Hin; apply (Hdp _ Hin); set_solver).
  constructor; [| | | done].
  - constructor; [split; [apply Hw | done] |].
    apply Forall2_app; apply (nodes_agree c c' idx); try done; by apply Hw.
  - apply (dead_agree c c' idx); try done; [by apply Hw | | apply Hd].
    intros Hin. apply (Hdis idx); set_solver.
  - eapply map_same; [apply Hd | apply Hw | done |].
    eapply rewrites_keys; [done |]. eapply order_pos; done.
Qed.

Lemma data_kill c c' cap pre idx post dead l1 nd nd' l2 :
  frame_ok c cap ((pre ++ idx :: post) ++ dead) ->
  data_ok c (pre ++ idx :: post) dead (l1 ++ nd :: l2) -> length pre = length l1 ->
  rewrites c c' idx nd nd' -> nexpireAt nd' = 0 ->
  cbytes c' = i64 (total (l1 ++ l2)) ->
  data_ok c' (pre ++ post) (dead ++ [idx]) (l1 ++ l2).
Proof.
  intros Hf Hd Hlen Hw Hp Hb. pose proof (frame_NoDup _ _ _ Hf) as [_ Hnd]%NoDup_cons.
  pose proof (order_pos _ _ _ Hf) as Hpos. rewrite Forall_app in Hpos. destruct Hpos as [Hpl Hpd].
  assert (Hperm : (pre ++ post) ++ dead ++ [idx] ≡ₚ (pre ++ idx :: post) ++ dead).
  { rewrite <- (Permutation_middle pre), app_assoc. simpl. symmetry. apply Permutation_cons_append. }
  apply NoDup_app in Hnd as (Hndl & Hdis & _).
  apply NoDup_app in Hndl as (_ & Hdp & [Hip _]%NoDup_cons).
  destruct (Forall2_app_inv _ _ _ _ _ Hlen (da_live _ _ _ _ Hd)) as [Hl1 Hl2].
  inversion Hl2 as [| ? ? ? ? _ Hl2']; subst. apply Forall_app in Hpl as [Hp1 [_ Hp2]%Forall_cons].
  assert (Hni : idx ∉ pre) by (intros Hin; apply (Hdp _ Hin); set_solver).
  constructor; [| | | done].
  - apply Forall2_app; apply (nodes_agree c c' idx); try done; by apply Hw.
  - apply Forall_app. split; [| apply Forall_singleton; exists nd'; split; [apply Hw | done]].
    apply (dead_agree c c' idx); try done; [by apply Hw | | apply Hd].
    intros Hin. apply (Hdis idx); set_solver.
  - eapply map_same; [apply Hd | apply Hw | done |].
    eapply rewrites_keys; [done |]. eapply order_pos; done.
Qed.

Lemma data_revive c c' cap live pre idx post l nd nd' :
  frame_ok c cap (live ++ pre ++ idx :: post) ->
  data_ok c live (pre ++ idx :: post) l ->
  rewrites c c' idx nd nd' -> 0 < nexpireAt nd' ->
  cbytes c' = i64 (total (nd' :: l)) ->
  data_ok c' (idx :: live) (pre ++ post) (nd' :: l).
Proof.
  intros Hf Hd Hw Hp Hb. pose proof (frame_NoDup _ _ _ Hf) as [_ Hnd]%NoDup_cons.
  pose proof (order_pos _ _ _ Hf) as Hpos. rewrite Forall_app in Hpos. destruct Hpos as [Hpl Hpd].
  assert (Hperm : (idx :: live) ++ pre ++ post ≡ₚ live ++ pre ++ idx :: post).
  { simpl. by rewrite <- Permutation_middle, <- Permutation_middle. }
  apply NoDup_app in Hnd as (_ & Hdis & Hndd).
  apply NoDup_app in Hndd as (_ & Hdp & [Hip _]%NoDup_cons).
  pose proof (da_dead _ _ _ _ Hd) as [Hd1 [_ Hd2]%Forall_cons]%Forall_app.
  apply Forall_app in Hpd as [Hp1 [_ Hp2]%Forall_cons].
  assert (Hni : idx ∉ pre) by (intros Hin; apply (Hdp _ Hin); set_solver).
  constructor; [| | | done].
  - constructor; [split; [apply Hw | done] |]. apply (nodes_agree c c' idx); try done; [by apply Hw | | apply Hd].
    intros Hin. apply (Hdis idx); set_solver.
  - apply Forall_app. split; apply (dead_agree c c' idx); try done; by apply Hw.
  - eapply map_same; [apply Hd | apply Hw | done |].
    eapply rewrites_keys; [done |]. eapply order_pos; done.
Qed.

(** ** Writing a slot and moving it *)

Record written c c' (idx : Z) (nd : node V) : Prop := {
  wr_map : hashMap c' = hashMap c;
  wr_bytes : cbytes c' = cbytes c;
  wr_evict : nevict c' = nevict c;
  wr_new : node_at c' idx = Some nd;
  wr_other : forall j, 1 <= j -> j <> idx -> node_at c' j = node_at c j;
}.

Lemma write_front c cap pre idx post nd :
  frame_ok c cap (pre ++ idx :: post) ->
  exists c1 c2, set_slot c idx nd = Ret c1 /\ adjust c1 idx p n = Ret c2
    /\ frame_ok c2 cap (idx :: pre ++ post) /\ written c c2 idx nd.
Proof.
  intros Hf. assert (Hi : idx ∈ pre ++ idx :: post) by set_solver.
  destruct (set_slot_spec c cap _ idx nd Hf Hi) as (sl & Hs & Hz & Hn).
  assert (Hf1 : frame_ok (c <| slots := sl |>) cap (pre ++ idx :: post)) by (by eapply frame_ext).
  destruct (to_front _ _ _ _ _ Hf1) as (dl & Ha & Hf2). apply (frame_elem _ _ _ _ Hf) in Hi.
  eexists _, _. split; [done |]. split; [done |]. split; [done |]. constructor; try done.
  - change (node_at (c <| slots := sl |>) idx = Some nd). rewrite Hn by lia. by rewrite decide_True.
  - intros j Hj Hne. change (node_at (c <| slots := sl |>) j = node_at c j). rewrite Hn by lia. by rewrite decide_False.
Qed.

Lemma write_back c cap pre idx post nd :
  frame_ok c cap (pre ++ idx :: post) ->
  exists c1 c2, set_slot c idx nd = Ret c1 /\ adjust c1 idx n p = Ret c2
    /\ frame_ok c2 cap (pre ++ post ++ [idx]) /\ written c c2 idx nd.
Proof.
  intros Hf. assert (Hi : idx ∈ pre ++ idx :: post) by set_solver.
  destruct (set_slot_spec c cap _ idx nd Hf Hi) as (sl & Hs & Hz & Hn).
  assert (Hf1 : frame_ok (c <| slots := sl |>) cap (pre ++ idx :: post)) by (by eapply frame_ext).
  destruct (to_back _ _ _ _ _ Hf1) as (dl & Ha & Hf2). apply (frame_elem _ _ _ _ Hf) in Hi.
  eexists _, _. split; [done |]. split; [done |]. split; [done |]. constructor; try done.
  - change (node_at (c <| slots := sl |>) idx = Some nd). rewrite Hn by lia. by rewrite decide_True.
  - intros j Hj Hne. change (node_at (c <| slots := sl |>) j = node_at c j). rewrite Hn by lia. by rewrite decide_False.
Qed.

(** ** The abstract level *)

(** [put]: a new or refreshed key goes to the front; the last entry leaves when
    the level is full of live entries. *)
Definition lru_put (cap : Z) (k : string) (v : option V) (e : Z) (l : list (node V))
    : list (node V) * list (string * option V) :=
  if decide (k ∈ nk <$> l) then (mkNode k v e :: remove k l, [])
  else if decide (zlen l = cap) then
    (mkNode k v e :: removelast l, match last l with Some nd => [(nk nd, nv nd)] | None => [] end)
  else (mkNode k v e :: l, []).

(** Slots in use and live entries. *)
Lemma data_count c cap live dead l :
  frame_ok c cap (live ++ dead) -> data_ok c live dead l -> clast c = zlen l + zlen dead.
Proof.
  intros Hf Hd. rewrite (fr_last _ _ _ Hf), zlen_app. unfold zlen.
  by rewrite (Forall2_length _ _ _ (da_live _ _ _ _ Hd)).
Qed.

Lemma frame_bytes c cap order b : frame_ok c cap order -> frame_ok (c <| cbytes := b |>) cap order.
Proof. intros. by eapply frame_ext. Qed.

Lemma total_middle (l1 l2 : list (node V)) nd : total (l1 ++ nd :: l2) = node_size nd + total (l1 ++ l2).
Proof. rewrite !total_app. simpl. lia. Qed.

(** [put] of a key that has a slot. *)
Lemma put_known c cap l k v e idx :
  cache_ok c cap l -> 0 < e -> hashMap c !! k = Some idx ->
  exists c', put c k v e = Ret (c', 0, []) /\ cache_ok c' cap (mkNode k v e :: remove k l).
Proof.
  intros (live & dead & Hf & Hd) He Hk.
  destruct (data_elem _ _ _ _ _ _ _ Hf Hd Hk) as (Hi & nd & Hn & Hkn & Hs).
  destruct (data_live_key _ _ _ _ _ _ _ _ Hf Hd Hk Hn) as [Hlive Hkey].
  pose proof (frame_NoDup _ _ _ Hf) as [_ Hnd]%NoDup_cons.
  set (nd' := mkNode k v e).
  assert (Hnd' : nd <| nv := v |> <| nexpireAt := e |> = nd') by (subst nd'; destruct nd; simpl in *; by rewrite Hkn).
  unfold put. rewrite Hk, Hs. cbn [obind]. rewrite Hnd'.
  set (b := i64 _). destruct (decide (idx ∈ live)) as [Hin | Hin].
  - destruct (data_split _ _ _ _ _ _ Hnd Hd Hin Hn) as (pre & post & l1 & l2 & -> & -> & Hlen & Hrem).
    rewrite Hkn in Hrem. rewrite Hrem.
    destruct (write_front (c <| cbytes := b |>) cap pre idx (post ++ dead) nd') as (c1 & c2 & -> & Ha & Hf2 & Hw).
    { apply frame_bytes. by rewrite <- app_assoc in Hf. }
    cbn [obind]. rewrite Ha. cbn [obind]. eexists. split; [done |].
    exists (idx :: pre ++ post), dead. split; [simpl; by rewrite <- app_assoc |].
    assert (Hrw : rewrites c c2 idx nd nd') by (destruct Hw; by constructor).
    eapply data_refresh; [exact Hf | exact Hd | exact Hlen | exact Hrw | exact He |].
    rewrite (wr_bytes _ _ _ _ Hw). simpl. subst b. rewrite (da_bytes _ _ _ _ Hd), i64_add_l.
    rewrite decide_True by tauto. rewrite total_middle. unfold node_size, nd'. simpl. f_equal. lia.
  - assert (Hdead : idx ∈ dead) by (apply elem_of_app in Hi; tauto).
    apply list_elem_of_split in Hdead as (pre & post & ->).
    rewrite remove_fresh by tauto.
    destruct (write_front (c <| cbytes := b |>) cap (live ++ pre) idx post nd') as (c1 & c2 & -> & Ha & Hf2 & Hw).
    { apply frame_bytes. by rewrite <- app_assoc. }
    cbn [obind]. rewrite Ha. cbn [obind]. eexists. split; [done |].
    exists (idx :: live), (pre ++ post). split; [simpl; by rewrite app_assoc |].
    assert (Hrw : rewrites c c2 idx nd nd') by (destruct Hw; by constructor).
    eapply data_revive; [exact Hf | exact Hd | exact Hrw | exact He |].
    rewrite (wr_bytes _ _ _ _ Hw). simpl. subst b. rewrite (da_bytes _ _ _ _ Hd), i64_add_l.
    rewrite decide_False by tauto. unfold node_size, nd'. simpl. f_equal. lia.
Qed.

(** ** [put] of a key without a slot *)

(** The slot [t] changes hands: its old key leaves the index. *)
Lemma map_recycle c c' k t nd (order order' : list Z) :
  (forall k i, hashMap c !! k = Some i <-> i ∈ order /\ nk <$> node_at c i = Some k) ->
  order' ≡ₚ order -> Forall (fun i => 1 <= i) order -> t ∈ order -> hashMap c !! k = None ->
  node_at c t = Some nd -> (nk <$> node_at c' t) = Some k ->
  (forall j, 1 <= j -> j <> t -> node_at c' j = node_at c j) ->
  hashMap c' = <[k := t]> (delete (nk nd) (hashMap c)) ->
  forall k' i, hashMap c' !! k' = Some i <-> i ∈ order' /\ nk <$> node_at c' i = Some k'.
Proof.
  intros Hm Hp Hpos Ht Hk Hn Hn' Ho -> k' i. rewrite Hp. rewrite Forall_forall in Hpos.
  destruct (decide (k' = k)) as [-> | Hne].
  - rewrite lookup_insert_eq. split; [intros [= <-]; done |]. intros [Hi Hki].
    destruct (decide (i = t)) as [-> | Hit]; [done |]. rewrite Ho in Hki by auto.
    assert (Hbad : hashMap c !! k = Some i) by (by apply Hm). congruence.
  - rewrite lookup_insert_ne by done. split.
    + intros [Hd Hl]%lookup_delete_Some. apply Hm in Hl as [Hi Hki]. split; [done |].
      rewrite Ho; [done | auto |]. intros ->. rewrite Hn in Hki. simpl in Hki. congruence.
    + intros [Hi Hki]. destruct (decide (i = t)) as [-> | Hit]; [congruence |]. rewrite Ho in Hki by auto.
      apply lookup_delete_Some. split; [| by apply Hm].
      intros <-. assert (Hti : hashMap c !! nk nd = Some t) by (apply Hm; by rewrite Hn).
      assert (Hii : hashMap c !! nk nd = Some i) by (by apply Hm). congruence.
Qed.

Lemma oldest_link c cap order t :
  frame_ok c cap (order ++ [t]) -> link c 0 p = Ret t.
Proof.
  intros Hf. rewrite link_spec by (rewrite (fr_links _ _ _ Hf); pose proof (fr_cap _ _ _ Hf); lia).
  f_equal. pose proof (chain_back _ _ _ _ _ (fr_chain _ _ _ Hf)) as ->. by rewrite last_snoc.
Qed.

Lemma newest_link c cap order : frame_ok c cap order -> link c 0 n = Ret (default 0 (head order)).
Proof.
  intros Hf. rewrite link_spec by (rewrite (fr_links _ _ _ Hf); pose proof (fr_cap _ _ _ Hf); lia).
  f_equal. exact (chain_link _ _ _ _ _ (fr_chain _ _ _ Hf)).
Qed.

Lemma put_full c cap live dead l k v e order t nd :
  frame_ok c cap (live ++ dead) -> data_ok c live dead l -> hashMap c !! k = None ->
  clast c = cap -> live ++ dead = order ++ [t] -> node_at c t = Some nd ->
  exists c', put c k v e = Ret (c', 1, if decide (0 < nexpireAt nd) then [(nk nd, nv nd)] else [])
    /\ frame_ok c' cap (t :: order)
    /\ node_at c' t = Some (mkNode k v e)
    /\ (forall j, 1 <= j -> j <> t -> node_at c' j = node_at c j)
    /\ hashMap c' = <[k := t]> (delete (nk nd) (hashMap c))
    /\ cbytes c' = i64 (total l - (if decide (0 < nexpireAt nd) then node_size nd else 0)
                         + entryBytes k v).
Proof.
  intros Hf Hd Hk Hlast Ho Hn. rewrite Ho in Hf.
  assert (Ht : t ∈ order ++ [t]) by set_solver.
  pose proof (fr_cap _ _ _ Hf) as Hcap. pose proof (fr_slots _ _ _ Hf) as Hsl.
  unfold put. rewrite Hk. rewrite decide_True by (rewrite Hsl, u16_id; lia).
  rewrite (oldest_link c cap order t Hf). cbn [obind]. rewrite (slot_node _ _ _ _ _ Hf Ht Hn). cbn [obind].
  match goal with |- context [if decide (0 < nexpireAt nd) then (?x, ?y) else (?z, ?w)] =>
    replace (if decide (0 < nexpireAt nd) then (x, y) else (z, w))
      with (if decide (0 < nexpireAt nd) then x else z, if decide (0 < nexpireAt nd) then y else w) by (by case_decide) end.
  cbv iota beta zeta.
  set (ca := if decide (0 < nexpireAt nd) then _ else c).
  assert (Hca : slots ca = slots c /\ doubleLink ca = doubleLink c /\ clast ca = clast c /\ hashMap ca = hashMap c
    /\ i64 (cbytes ca + entryBytes k v)
       = i64 (total l - (if decide (0 < nexpireAt nd) then node_size nd else 0) + entryBytes k v)).
  { subst ca. pose proof (da_bytes _ _ _ _ Hd) as Hb.
    case_decide; simpl; rewrite Hb; (split_and!; [done.. |]).
    - by rewrite i64_sub_l, i64_add_l.
    - by rewrite i64_add_l, Z.sub_0_r. }
  destruct Hca as (Hs & Hdl & Hl & Hm & Hb).
  set (cb := ca <| hashMap := delete (nk nd) (hashMap ca) |> <| cbytes := i64 (cbytes ca + entryBytes k v) |>).
  assert (Hfb : frame_ok cb cap (order ++ [t])) by (eapply frame_ext; [exact Hf | by rewrite <- Hs | by rewrite <- Hdl | by rewrite <- Hl]).
  rewrite (oldest_link cb cap order t Hfb). cbn [obind].
  set (cc := cb <| hashMap := <[k := t]> (hashMap cb) |>).
  assert (Hfc : frame_ok cc cap (order ++ t :: [])) by (by eapply frame_ext).
  destruct (write_front cc cap order t [] (mkNode k v e) Hfc) as (c1 & c2 & Hset & Ha & Hf2 & Hw).
  rewrite Hset. cbn [obind].
  assert (Hlink : link c1 0 p = Ret t).
  { assert (Hf1 : frame_ok c1 cap (order ++ [t])).
    { destruct (set_slot_spec cc cap _ t (mkNode k v e) Hfc Ht) as (sl & Hs' & Hz & _).
      rewrite Hs' in Hset. injection Hset as <-. by eapply frame_ext. }
    by apply (oldest_link c1 cap order). }
  rewrite Hlink. cbn [obind]. rewrite Ha. cbn [obind]. exists c2. split; [done |].
  rewrite app_nil_r in Hf2. split_and!; [done | apply Hw | | |].
  - intros j Hj Hne. rewrite (wr_other _ _ _ _ Hw j Hj Hne). unfold node_at. simpl. by rewrite Hs.
  - rewrite (wr_map _ _ _ _ Hw). simpl. by rewrite Hm.
  - rewrite (wr_bytes _ _ _ _ Hw). simpl. exact Hb.
Qed.

Lemma index_used c cap live dead l :
  frame_ok c cap (live ++ dead) -> data_ok c live dead l ->
  (Z.of_nat (size (hashMap c)) <= 0 <-> live ++ dead = []).
Proof.
  intros Hf Hd. split.
  - intros Hs. destruct (live ++ dead) as [| i order] eqn:Ho; [done |]. exfalso.
    destruct (frame_slot c cap (i :: order) i Hf) as (nd & Hn & _); [set_solver |].
    assert (Hk : hashMap c !! nk nd = Some i).
    { apply (da_map _ _ _ _ Hd). rewrite Ho, Hn. split; [set_solver | done]. }
    assert (Hz : size (hashMap c) = 0%nat) by lia. apply map_size_empty_inv in Hz.
    rewrite Hz, lookup_empty in Hk. done.
  - intros Ho. assert (He : hashMap c = ∅).
    { apply map_empty. intros k. apply eq_None_not_Some. intros [i [Hi _]%(da_map _ _ _ _ Hd)].
      rewrite Ho in Hi. set_solver. }
    rewrite He, map_size_empty. lia.
Qed.

(** Linking a fresh slot in at the front. *)
Lemma chain_push T F T' F' m order :
  NoDup (0 :: m :: order) -> chain T F 0 order 0 ->
  let h := default 0 (head order) in
  (forall j, T' j = if decide (j = 0) then m else if decide (j = m) then h else T j) ->
  (forall j, F' j = if decide (j = m) then 0 else if decide (j = h) then m else F j) ->
  chain T' F' 0 (m :: order) 0.
Proof.
  intros Hnd Hch h HT HF. apply NoDup_cons in Hnd as [H0 Hnd]. apply NoDup_cons in Hnd as [Hm Hnd].
  apply not_elem_of_cons in H0 as [H0m H0]. simpl. split.
  { rewrite HT, HF. split; by rewrite decide_True. }
  destruct order as [| z q]; simpl in *; subst h.
  - rewrite HT, HF. repeat case_decide; split; congruence.
  - apply not_elem_of_cons in Hm as [Hmz Hmq]. apply not_elem_of_cons in H0 as [H0z H0q].
    apply NoDup_cons in Hnd as [Hzq Hnd]. destruct Hch as [_ Hch]. split.
    + rewrite HT, HF. repeat case_decide; split; congruence.
    + eapply chain_frame; [| | exact Hch].
      * intros w Hw. rewrite HT. assert (w <> m /\ w <> 0).
        { apply elem_of_cons in Hw as [-> | Hw]; [done |]. split; by intros ->. }
        repeat case_decide; naive_solver.
      * intros w Hw. rewrite HF. assert (w <> m /\ w <> z).
        { apply elem_of_app in Hw as [Hw | ->%list_elem_of_singleton]; [split; by intros -> | done]. }
        repeat case_decide; naive_solver.
Qed.

Lemma data_fresh c c' live dead l m nd :
  data_ok c live dead l -> m ∉ live ++ dead -> Forall (fun i => 1 <= i) (live ++ dead) ->
  node_at c' m = Some nd -> (forall j, 1 <= j -> j <> m -> node_at c' j = node_at c j) ->
  hashMap c !! nk nd = None -> hashMap c' = <[nk nd := m]> (hashMap c) -> 0 < nexpireAt nd ->
  cbytes c' = i64 (total (nd :: l)) -> data_ok c' (m :: live) dead (nd :: l).
Proof.
  intros Hd Hm Hpos Hn Ho Hk Hmap He Hb. rewrite Forall_app in Hpos. destruct Hpos as [Hp1 Hp2].
  apply not_elem_of_app in Hm as [Hml Hmd]. constructor; [| | | done].
  - constructor; [done |]. apply (nodes_agree c c' m); try done. apply Hd.
  - apply (dead_agree c c' m); try done. apply Hd.
  - intros k' i. rewrite Hmap. simpl. rewrite elem_of_cons. rewrite Forall_forall in Hp1, Hp2.
    assert (Hin : i ∈ live ++ dead -> node_at c' i = node_at c i).
    { intros Hi. apply Ho; [apply elem_of_app in Hi as [Hi | Hi]; auto |].
      intros ->. apply elem_of_app in Hi as [Hi | Hi]; done. }
    destruct (decide (k' = nk nd)) as [-> | Hne].
    + rewrite lookup_insert_eq. split.
      * intros [= <-]. split; [by left |]. by rewrite Hn.
      * intros [[-> | Hi] Hki]; [done |]. rewrite (Hin Hi) in Hki.
        assert (hashMap c !! nk nd = Some i) by (by apply (da_map _ _ _ _ Hd)). congruence.
    + rewrite lookup_insert_ne by done. rewrite (da_map _ _ _ _ Hd). split.
      * intros [Hi Hki]. rewrite (Hin Hi). auto.
      * intros [[-> | Hi] Hki]; [rewrite Hn in Hki; simpl in Hki; congruence |]. by rewrite <- (Hin Hi).
Qed.

(** The links after a fresh slot [m] was pushed. *)
Lemma frame_fresh c c' cap order m d :
  frame_ok c cap order -> m = clast c + 1 -> clast c < cap ->
  let h := default 0 (head order) in
  doubleLink c' = d -> zlen d = zlen (doubleLink c) -> zlen (slots c') = zlen (slots c) -> clast c' = m ->
  (forall j, 0 <= j -> lk d n j = if decide (j = 0) then m else if decide (j = m) then h else lk (doubleLink c) n j) ->
  (forall j, 0 <= j -> lk d p j = if decide (j = m) then 0 else if decide (j = h) then m else lk (doubleLink c) p j) ->
  frame_ok c' cap (m :: order).
Proof.
  intros Hf Hm Hlt h Hd Hz Hs Hl HT HF. pose proof (fr_last _ _ _ Hf) as Hlast.
  pose proof (zlen_nonneg order) as Hpos.
  assert (Hndm : NoDup (0 :: m :: order)).
  { pose proof (frame_NoDup _ _ _ Hf) as [? ?]%NoDup_cons. repeat apply NoDup_cons_2; try done.
    - apply not_elem_of_cons. split; [lia | done].
    - rewrite (frame_elem _ _ _ _ Hf). lia. }
  assert (Hbnd : forall w, w ∈ 0 :: m :: order -> 0 <= w).
  { intros w Hw. apply elem_of_cons in Hw as [-> | Hw]; [lia |]. apply elem_of_cons in Hw as [-> | Hw]; [lia |].
    apply (frame_elem _ _ _ _ Hf) in Hw. lia. }
  constructor; rewrite ?Hd, ?Hz, ?Hs, ?Hl; try apply Hf; try lia.
  - rewrite zlen_cons. lia.
  - rewrite (fr_perm _ _ _ Hf). replace m with (Z.of_nat (Datatypes.S (Z.to_nat (clast c)))) by lia.
    rewrite seqZ_S, Z2Nat.id by lia. replace (1 + clast c) with (Z.of_nat (Datatypes.S (Z.to_nat (clast c)))) by lia.
    apply Permutation_cons_append.
  - eapply (chain_frame (fun j => if decide (j = 0) then m else if decide (j = m) then h else lk (doubleLink c) n j)
                        (fun j => if decide (j = m) then 0 else if decide (j = h) then m else lk (doubleLink c) p j)).
    + intros w Hw. by rewrite HT by (apply Hbnd; exact Hw).
    + intros w Hw. by rewrite HF by (apply Hbnd; set_solver).
    + eapply (chain_push (lk (doubleLink c) n) (lk (doubleLink c) p)); [exact Hndm | apply Hf | done | done].
Qed.

Lemma put_fresh c cap live dead l k v e :
  frame_ok c cap (live ++ dead) -> data_ok c live dead l -> hashMap c !! k = None ->
  clast c < cap -> 0 < e ->
  exists c', put c k v e = Ret (c', 1, []) /\ cache_ok c' cap (mkNode k v e :: l).
Proof.
  intros Hf Hd Hk Hlt He. pose proof (fr_cap _ _ _ Hf) as Hcap. pose proof (fr_slots _ _ _ Hf) as Hsl.
  pose proof (fr_links _ _ _ Hf) as Hdl. pose proof (fr_last _ _ _ Hf) as Hlast.
  pose proof (zlen_nonneg (live ++ dead)) as Hpos. set (order := live ++ dead) in *.
  set (m := clast c + 1). assert (Hmu : u16 (clast c + 1) = m) by (apply u16_id; lia).
  set (h := default 0 (head order)).
  assert (Hh : 0 <= h < m).
  { subst h m. destruct order as [| z q] eqn:Ho; simpl; [lia |].
    assert (Hz : z ∈ z :: q) by set_solver. apply (frame_elem _ _ _ _ Hf) in Hz. lia. }
  unfold put. rewrite Hk. rewrite decide_False by (rewrite Hsl, u16_id; lia). rewrite Hmu.
  set (c0 := c <| clast := m |>).
  assert (Hfirst : (if decide (Z.of_nat (size (hashMap c0)) <= 0) then set_link c0 0 p (clast c0)
      else let! h := link c0 0 n in set_link c0 h p (clast c0)) = set_link c0 h p m).
  { change (hashMap c0) with (hashMap c). change (clast c0) with m.
    case_decide as Hs; [apply (index_used _ _ _ _ _ Hf Hd) in Hs |].
    - fold order in Hs. subst h. by rewrite Hs.
    - change (link c0 0 n) with (link c 0 n). by rewrite (newest_link _ _ _ Hf). }
  rewrite Hfirst. destruct (set_link_spec c0 h p m) as (d1 & -> & Hz1 & Hl1); [simpl; lia |]. cbn [obind].
  set (c1 := c0 <| doubleLink := d1 |>). change (clast c1) with m.
  destruct (index_total (slots c) (m - 1)) as (old & Hold & Hol); [lia |].
  set (sl := <[Z.to_nat (m - 1) := mkNode k v e]> (slots c)).
  assert (Hset : set_slot c1 m (mkNode k v e) = Ret (c1 <| slots := sl |>)).
  { unfold set_slot, slot. rewrite u16_id by lia. change (slots c1) with (slots c). by rewrite Hold. }
  rewrite Hset. cbn [obind]. set (c2 := c1 <| slots := sl |>). rewrite link_spec by (simpl in *; lia). cbn [obind].
  assert (Hln : lk (doubleLink c2) n 0 = h).
  { change (doubleLink c2) with d1. rewrite Hl1 by lia. rewrite decide_False by (by intros [? _]).
    apply (chain_link _ _ _ _ _ (fr_chain _ _ _ Hf)). }
  rewrite Hln. change (clast c2) with m.
  destruct (set_link_spec c2 m p 0) as (d2 & -> & Hz2 & Hl2); [simpl in *; lia |]. cbn [obind].
  change (clast (c2 <| doubleLink := d2 |>)) with m.
  destruct (set_link_spec (c2 <| doubleLink := d2 |>) m n h) as (d3 & -> & Hz3 & Hl3); [simpl in *; lia |].
  cbn [obind]. simpl in Hz1, Hz2, Hz3, Hl1, Hl2, Hl3.
  set (c3 := c2 <| doubleLink := d2 |> <| doubleLink := d3 |>).
  change (clast (c3 <| hashMap := <[k := clast c3]> (hashMap c3) |>)) with m. change (clast c3) with m.
  destruct (set_link_spec (c3 <| hashMap := <[k := m]> (hashMap c3) |>) 0 n m) as (d4 & E4 & Hz4 & Hl4); [simpl; lia |].
  simpl in Hz4, Hl4. rewrite E4. cbn [obind]. eexists. split; [done |]. exists (m :: live), dead.
  assert (Hmo : m ∉ order) by (rewrite (frame_elem _ _ _ _ Hf); lia).
  split.
  - eapply (frame_fresh c _ cap order m d4); try done; [lia | simpl; subst sl; unfold zlen; by rewrite length_insert | |];
      intros j Hj; rewrite Hl4, Hl3, Hl2, Hl1 by done; fold h; repeat case_decide; naive_solver lia.
  - apply (data_fresh c _ live dead l m (mkNode k v e)); try done; [by eapply order_pos | | | ].
    + unfold node_at. simpl. apply list_lookup_insert_eq. by apply lookup_lt_Some in Hol.
    + intros j Hj Hne. unfold node_at. simpl. apply list_lookup_insert_ne. lia.
    + simpl. rewrite (da_bytes _ _ _ _ Hd), i64_add_l. unfold node_size. simpl. f_equal. lia.
Qed.

Lemma cache_keys c cap l : cache_ok c cap l -> NoDup (nk <$> l).
Proof. intros (live & dead & Hf & Hd). eapply data_keys; [| done]. by apply frame_NoDup, NoDup_cons in Hf as [_ ?]. Qed.

Lemma cache_fits c cap l : cache_ok c cap l -> zlen l <= cap.
Proof.
  intros (live & dead & Hf & Hd). pose proof (data_count _ _ _ _ _ Hf Hd). pose proof (fr_le _ _ _ Hf).
  pose proof (zlen_nonneg dead). lia.
Qed.

Lemma removelast_snoc {A} (l : list A) x : removelast (l ++ [x]) = l.
Proof. apply removelast_last. Qed.

(** The recycled slot [t] becomes the front entry. *)
Lemma put_recycle c cap live dead l k v e order t nd live' dead' l' :
  frame_ok c cap (live ++ dead) -> data_ok c live dead l -> hashMap c !! k = None ->
  clast c = cap -> 0 < e -> live ++ dead = order ++ [t] -> node_at c t = Some nd ->
  Forall2 (fun i nd => node_at c i = Some nd /\ 0 < nexpireAt nd) live' l' ->
  Forall (fun i => exists nd, node_at c i = Some nd /\ nexpireAt nd = 0) dead' ->
  live' ++ dead' = order -> total l' = total l - (if decide (0 < nexpireAt nd) then node_size nd else 0) ->
  exists c', put c k v e = Ret (c', 1, if decide (0 < nexpireAt nd) then [(nk nd, nv nd)] else [])
    /\ cache_ok c' cap (mkNode k v e :: l').
Proof.
  intros Hf Hd Hk Hfull He Ho Hn Hl' Hd' Hor Htot.
  pose proof (frame_NoDup _ _ _ Hf) as [_ Hnd]%NoDup_cons. pose proof (order_pos _ _ _ Hf) as Hop.
  destruct (put_full c cap live dead l k v e order t nd Hf Hd Hk Hfull Ho Hn) as (c' & Hp & Hf' & Hn' & Hot & Hm & Hb).
  exists c'. split; [done |]. exists (t :: live'), dead'. split; [by rewrite <- Hor in Hf' |].
  assert (Hmap := map_recycle c c' k t nd (live ++ dead) ((t :: live') ++ dead') (da_map _ _ _ _ Hd)).
  rewrite Ho in Hop, Hnd, Hmap. subst order. apply Forall_app in Hop as [Hop _]. pose proof Hop as [Hop1 Hop2]%Forall_app.
  apply NoDup_app in Hnd as (_ & Hdis & _).
  assert (Htn : t ∉ live' ++ dead') by (intros Hin; apply (Hdis t Hin); set_solver).
  apply not_elem_of_app in Htn as [Ht1 Ht2]. constructor.
  - constructor; [done |]. by apply (nodes_agree c c' t).
  - by apply (dead_agree c c' t).
  - apply Hmap; try done; [simpl; apply Permutation_cons_append | | set_solver | by rewrite Hn'].
    apply Forall_app. split; [done |]. apply Forall_singleton.
    assert (Ht : t ∈ live ++ dead) by (rewrite Ho; set_solver). apply (frame_elem _ _ _ _ Hf) in Ht. lia.
  - rewrite Hb. simpl. unfold node_size at 2. simpl. f_equal. lia.
Qed.

Lemma put_spec c cap l k v e :
  cache_ok c cap l -> 0 < e ->
  exists c' r, put c k v e = Ret (c', r, (lru_put cap k v e l).2) /\ cache_ok c' cap (lru_put cap k v e l).1.
Proof.
  intros Hc He. pose proof Hc as (live & dead & Hf & Hd). unfold lru_put.
  pose proof (data_count _ _ _ _ _ Hf Hd) as Hcount. pose proof (zlen_nonneg dead).
  pose proof (fr_le _ _ _ Hf) as Hle. pose proof (fr_cap _ _ _ Hf) as Hcap.
  destruct (hashMap c !! k) as [idx |] eqn:Hk.
  - destruct (put_known c cap l k v e idx Hc He Hk) as (c' & Hp & Hc'). exists c', 0.
    destruct (decide (k ∈ nk <$> l)) as [Hin | Hin]; [done |]. rewrite remove_fresh in Hc' by done.
    rewrite decide_False; [done |].
    destruct (data_elem _ _ _ _ _ _ _ Hf Hd Hk) as (Hi & nd & Hn & _).
    destruct (data_live_key _ _ _ _ _ _ _ _ Hf Hd Hk Hn) as [_ Hkey].
    apply elem_of_app in Hi as [Hi | Hi]; [tauto |].
    destruct dead as [| d dead]; [set_solver |]. rewrite zlen_cons in *. pose proof (zlen_nonneg dead). lia.
  - rewrite decide_False by (by eapply data_missing_key).
    destruct (decide (clast c = cap)) as [Hfull | Hfull].
    2: { rewrite decide_False by lia. destruct (put_fresh c cap live dead l k v e) as (c' & Hp & Hc'); try done; [lia |].
         by exists c', 1. }
    destruct dead as [| t dead0 _] using rev_ind.
    + rewrite zlen_nil in *. rewrite decide_True by lia.
      destruct l as [| nd l0 _] using rev_ind; [exfalso; unfold zlen in *; simpl in *; lia |].
      rewrite removelast_last, last_snoc.
      destruct (proj1 (Forall2_app_inv_r _ _ _ _) (da_live _ _ _ _ Hd)) as (live0 & lt & Hl0 & Hlt & ->).
      inversion Hlt as [| t ? ? ? [Hnt Hpt] Hnil]; subst. inversion Hnil; subst.
      destruct (put_recycle c (clast c) (live0 ++ [t]) [] (l0 ++ [nd]) k v e live0 t nd live0 [] l0)
        as (c' & Hp & Hc'); try done; [by rewrite app_nil_r | by rewrite app_nil_r | |].
      { rewrite decide_True by done. rewrite total_app. simpl. lia. }
      rewrite decide_True in Hp by done. by exists c', 1.
    + rewrite zlen_app in *. change (zlen [t]) with 1 in *. pose proof (zlen_nonneg dead0).
      rewrite decide_False by lia.
      pose proof (da_dead _ _ _ _ Hd) as [Hd0 Hdt]%Forall_app. apply Forall_singleton in Hdt as (nd & Hnt & Hpt).
      destruct (put_recycle c cap live (dead0 ++ [t]) l k v e (live ++ dead0) t nd live dead0 l)
        as (c' & Hp & Hc'); try done; [by rewrite app_assoc | apply Hd | |].
      { rewrite decide_False by lia. lia. }
      rewrite decide_False in Hp by lia. by exists c', 1.
Qed.

End Repr.
