(* ===== verification/LruLevel.v ===== *)
(** * LruLevel
    The remaining operations of one cache level against the abstract list of
    live entries: deletion, eviction, traversal and promotion. *)
From S2P Require Import Prelude LruCache LruLinks LruCacheFacts.

Section Level.
  Context {V : Type} `{Sized V}.
  Implicit Types c : cache V.
  Implicit Types l : list (node V).

(** The live entry of a key. *)
Fixpoint find_key (k : string) l : option (node V) :=
  match l with
  | [] => None
  | nd :: l => if decide (nk nd = k) then Some nd else find_key k l
  end.

Lemma find_key_none k l : find_key k l = None <-> k ∉ nk <$> l.
Proof.
  induction l as [| nd l IH]; simpl; [split; [intros _; apply not_elem_of_nil | done] |].
  rewrite not_elem_of_cons. case_decide; [split; [done | intros [? _]; congruence] |].
  rewrite IH. split; [intros ?; split; [congruence | done] | tauto].
Qed.

Lemma find_key_some k l nd : find_key k l = Some nd -> nk nd = k /\ nd ∈ l.
Proof.
  induction l as [| x l IH]; simpl; [done |]. case_decide.
  - intros [= ->]. split; [done | set_solver].
  - intros Hf. destruct (IH Hf). split; [done | set_solver].
Qed.

Lemma cache_find c cap live dead l k :
  frame_ok c cap (live ++ dead) -> data_ok c live dead l ->
  match find_key k l with
  | Some nd => exists idx, hashMap c !! k = Some idx /\ idx ∈ live /\ node_at c idx = Some nd /\ 0 < nexpireAt nd
  | None => forall idx nd, hashMap c !! k = Some idx -> node_at c idx = Some nd -> ~ 0 < nexpireAt nd
  end.
Proof.
  intros Hf Hd. destruct (find_key k l) as [nd |] eqn:Hk.
  - apply find_key_some in Hk as [Hnk [j Hj]%list_elem_of_lookup_1].
    destruct (Forall2_lookup_r _ _ _ _ _ (da_live _ _ _ _ Hd) Hj) as (idx & Hlj & Hn & Hp).
    assert (Hin : idx ∈ live) by (by eapply list_elem_of_lookup_2).
    exists idx. split_and!; try done. apply (da_map _ _ _ _ Hd). rewrite Hn. simpl. split; [set_solver | by f_equal].
  - apply find_key_none in Hk. intros idx nd Hm Hn.
    destruct (data_live_key _ _ _ _ _ _ _ _ Hf Hd Hm Hn) as [-> ->]. done.
Qed.

(** ** Deletion *)

Lemma del_missing c cap l k : cache_ok c cap l -> find_key k l = None -> del c k = Ret (c, None).
Proof.
  intros (live & dead & Hf & Hd) Hk. pose proof (cache_find c cap live dead l k Hf Hd) as Hfind.
  rewrite Hk in Hfind. unfold del. destruct (hashMap c !! k) as [idx |] eqn:Hm; [| done].
  destruct (data_elem _ _ _ _ _ _ _ Hf Hd Hm) as (_ & nd & Hn & _ & Hs). rewrite Hs. cbn [obind].
  by rewrite decide_False by (by eapply Hfind).
Qed.

(** A slot of the tombstones may lose its value. *)
Lemma clear_dead c cap live dead l idx nd :
  frame_ok c cap (live ++ dead) -> data_ok c live dead l -> idx ∈ dead -> node_at c idx = Some nd ->
  exists c', clear_value c idx = Ret c' /\ cache_ok c' cap l.
Proof.
  intros Hf Hd Hin Hn. assert (Hi : idx ∈ live ++ dead) by set_solver.
  unfold clear_value. rewrite (slot_node _ _ _ _ _ Hf Hi Hn). cbn [obind].
  destruct (set_slot_spec c cap _ idx (nd <| nv := None |>) Hf Hi) as (sl & -> & Hz & Hnode).
  eexists. split; [done |]. exists live, dead. split; [by eapply frame_ext |].
  pose proof (order_pos _ _ _ Hf) as Hop. rewrite Forall_app in Hop. destruct Hop as [Hp1 Hp2].
  pose proof (frame_NoDup _ _ _ Hf) as [_ (_ & Hdis & _)%NoDup_app]%NoDup_cons.
  assert (Hnl : idx ∉ live) by (intros Hl; by apply (Hdis idx)).
  rewrite Forall_forall in Hp2. constructor.
  - apply (nodes_agree c _ idx); try done; [| apply Hd].
    intros j Hj Hne. rewrite Hnode by done. by rewrite decide_False.
  - apply Forall_forall. intros i Hid. rewrite Hnode by auto. pose proof (da_dead _ _ _ _ Hd) as Hdead.
    rewrite Forall_forall in Hdead. case_decide; [subst i | by apply Hdead].
    destruct (Hdead idx Hin) as (nd' & Hn' & He). eexists. split; [done |]. simpl. congruence.
  - eapply (map_same c); [apply Hd | done | done |]. intros i Hi'.
    assert (1 <= i) by (apply (frame_elem _ _ _ _ Hf) in Hi'; lia).
    rewrite Hnode by done. case_decide; [subst i; by rewrite Hn | done].
  - apply Hd.
Qed.

(** [del] of a live key: the entry leaves the contents, its slot keeps the
    value until [clear_value]. *)
Lemma del_live c cap l k nd :
  cache_ok c cap l -> find_key k l = Some nd ->
  exists c' idx c'', del c k = Ret (c', Some (idx, nexpireAt nd))
    /\ cache_ok c' cap (remove k l) /\ slot c' idx = Ret (nd <| nexpireAt := 0 |>)
    /\ clear_value c' idx = Ret c'' /\ cache_ok c'' cap (remove k l).
Proof.
  intros (live & dead & Hf & Hd) Hk. pose proof (cache_find c cap live dead l k Hf Hd) as Hfind.
  rewrite Hk in Hfind. destruct Hfind as (idx & Hm & Hin & Hn & Hp).
  destruct (find_key_some _ _ _ Hk) as [Hkn _].
  pose proof (frame_NoDup _ _ _ Hf) as [_ Hnd]%NoDup_cons.
  destruct (data_split _ _ _ _ _ _ Hnd Hd Hin Hn) as (pre & post & l1 & l2 & -> & -> & Hlen & Hrem).
  rewrite Hkn in Hrem. rewrite Hrem.
  unfold del. rewrite Hm. rewrite (slot_node c cap _ idx nd Hf) by (done || set_solver). cbn [obind].
  rewrite decide_True by done. set (b := i64 _). set (nd' := nd <| nexpireAt := 0 |>).
  destruct (write_back (c <| cbytes := b |>) cap pre idx (post ++ dead) nd') as (c1 & c2 & -> & Ha & Hf2 & Hw).
  { apply frame_bytes. by rewrite <- app_assoc in Hf. }
  cbn [obind]. rewrite Ha. cbn [obind].
  assert (Hrw : rewrites c c2 idx nd nd') by (destruct Hw; by constructor).
  assert (Hd2 : data_ok c2 (pre ++ post) (dead ++ [idx]) (l1 ++ l2)).
  { eapply data_kill; [exact Hf | exact Hd | exact Hlen | exact Hrw | done |].
    rewrite (wr_bytes _ _ _ _ Hw). simpl. subst b. rewrite (da_bytes _ _ _ _ Hd), i64_sub_l.
    rewrite total_middle. unfold node_size. f_equal. lia. }
  assert (Hf2' : frame_ok c2 cap ((pre ++ post) ++ dead ++ [idx])) by (by rewrite <- !app_assoc in Hf2 |- *).
  destruct (clear_dead c2 cap (pre ++ post) (dead ++ [idx]) (l1 ++ l2) idx nd') as (c3 & Hc3 & Hok3);
    [done | done | set_solver | apply Hw |].
  exists c2, idx, c3. split_and!; try done; [by eexists _, _ |].
  eapply slot_node; [exact Hf2' | set_solver | apply Hw].
Qed.

Lemma drop_spec c cap l k :
  cache_ok c cap l -> exists c', drop_key c k = Ret c' /\ cache_ok c' cap (remove k l).
Proof.
  intros Hc. unfold drop_key. destruct (find_key k l) as [nd |] eqn:Hk.
  - destruct (del_live c cap l k nd Hc Hk) as (c' & idx & c'' & -> & _ & _ & Hcl & Hok). cbn [obind]. eauto.
  - rewrite (del_missing c cap l k Hc Hk). cbn [obind]. exists c. split; [done |].
    rewrite remove_fresh; [done |]. by apply find_key_none.
Qed.

(** ** The oldest entry *)

Lemma prev_link c cap pre t rest :
  frame_ok c cap (pre ++ t :: rest) -> link c t p = Ret (default 0 (last pre)).
Proof.
  intros Hf. assert (Ht : t ∈ pre ++ t :: rest) by set_solver.
  apply (frame_elem _ _ _ _ Hf) in Ht. pose proof (fr_le _ _ _ Hf). pose proof (fr_links _ _ _ Hf).
  rewrite link_spec by lia. f_equal.
  pose proof (proj1 (chain_app _ _ _ _ _ _ _) (fr_chain _ _ _ Hf)) as [Hc _]. by apply chain_back in Hc.
Qed.

Lemma next_link c cap pre t rest :
  frame_ok c cap (pre ++ t :: rest) -> link c t n = Ret (default 0 (head rest)).
Proof.
  intros Hf. assert (Ht : t ∈ pre ++ t :: rest) by set_solver.
  apply (frame_elem _ _ _ _ Hf) in Ht. pose proof (fr_le _ _ _ Hf). pose proof (fr_links _ _ _ Hf).
  rewrite link_spec by lia. f_equal.
  pose proof (proj1 (chain_app _ _ _ _ _ _ _) (fr_chain _ _ _ Hf)) as [_ Hc]. by apply chain_link in Hc.
Qed.

Lemma evict_scan_spec c cap live dead l fuel done_slots pre :
  frame_ok c cap (live ++ dead) -> data_ok c live dead l ->
  dead = pre ++ done_slots -> (length (live ++ pre) < fuel)%nat ->
  evict_scan fuel c (default 0 (last (live ++ pre))) = evict_scan (fuel - length pre) c (default 0 (last live)).
Proof.
  intros Hf Hd. revert fuel done_slots. induction pre as [| t pre IH] using rev_ind; intros fuel done_slots Hdead Hfuel.
  - by rewrite app_nil_r, Nat.sub_0_r.
  - rewrite app_assoc, last_snoc. cbn [default].
    assert (Hord : live ++ dead = (live ++ pre) ++ t :: done_slots) by (rewrite Hdead, <- !app_assoc; done).
    rewrite Hord in Hf.
    assert (Ht : t ∈ (live ++ pre) ++ t :: done_slots) by set_solver.
    pose proof (da_dead _ _ _ _ Hd) as Hdd. rewrite Forall_forall in Hdd.
    destruct (Hdd t) as (nd & Hn & He); [rewrite Hdead; set_solver |].
    assert (Ht0 : t <> 0) by (apply (frame_elem _ _ _ _ Hf) in Ht; lia).
    rewrite !length_app in *. simpl in *. destruct fuel as [| fuel]; [lia |]. simpl.
    rewrite decide_False by done. rewrite (slot_node _ _ _ _ _ Hf Ht Hn). cbn [obind].
    rewrite decide_True by lia. rewrite (prev_link _ _ _ _ _ Hf). cbn [obind].
    rewrite (IH fuel (t :: done_slots)).
    + f_equal. lia.
    + rewrite Hdead, <- app_assoc. done.
    + lia.
Qed.

Lemma evictOldest_spec c cap l :
  cache_ok c cap l ->
  exists c', evictOldest c = Ret (c', bool_decide (l <> []), match last l with Some nd => [(nk nd, nv nd)] | None => [] end)
    /\ cache_ok c' cap (removelast l).
Proof.
  intros Hc. pose proof Hc as (live & dead & Hf & Hd). pose proof (fr_slots _ _ _ Hf) as Hsl.
  pose proof (fr_last _ _ _ Hf) as Hlast. pose proof (fr_le _ _ _ Hf) as Hle. unfold zlen in Hsl, Hlast.
  pose proof (Forall2_length _ _ _ (da_live _ _ _ _ Hd)) as Hlen.
  unfold evictOldest. rewrite link_spec by (rewrite (fr_links _ _ _ Hf); pose proof (fr_cap _ _ _ Hf); lia).
  cbn [obind]. rewrite (chain_back _ _ _ _ _ (fr_chain _ _ _ Hf)).
  rewrite length_app in Hlast.
  rewrite (evict_scan_spec c cap live dead l _ [] dead) by (first [done | by rewrite app_nil_r | rewrite length_app; lia]).
  destruct l as [| nd l0 _] using rev_ind.
  - destruct live as [| x live]; [| simpl in Hlen; lia]. simpl in *. exists c. split; [| done].
    destruct (Datatypes.S (length (slots c)) - length dead)%nat eqn:E; [lia |]. done.
  - destruct (proj1 (Forall2_app_inv_r _ _ _ _) (da_live _ _ _ _ Hd)) as (live0 & lt & Hl0 & Hlt & ->).
    apply Forall2_cons_inv_r in Hlt as (t & lt' & [Hnt Hpt] & Hnil & ->). apply Forall2_nil_inv_r in Hnil as ->.
    rewrite removelast_last, !last_snoc. cbn [default].
    rewrite !length_app in *. simpl in *.
    destruct (Datatypes.S (length (slots c)) - length dead)%nat as [| fuel] eqn:E; [lia |]. simpl.
    assert (Ht : t ∈ (live0 ++ [t]) ++ dead) by set_solver.
    assert (Ht0 : t <> 0) by (apply (frame_elem _ _ _ _ Hf) in Ht; lia).
    rewrite decide_False by done. rewrite (slot_node _ _ _ _ _ Hf Ht Hnt). cbn [obind].
    rewrite decide_False by lia.
    match goal with |- context [set_slot ?x t ?y] => set (c0 := x); set (nd' := y) end.
    destruct (write_back c0 cap live0 t dead nd') as (c1 & c2 & -> & Ha & Hf2 & Hw).
    { rewrite <- app_assoc in Hf. by eapply frame_ext. }
    cbn [obind]. rewrite Ha. cbn [obind]. exists c2.
    rewrite bool_decide_true by (by destruct l0). split; [done |].
    exists live0, (dead ++ [t]). split; [done |].
    assert (Hrw : rewrites c c2 t nd nd') by (destruct Hw; by constructor).
    rewrite <- (app_nil_r live0), <- (app_nil_r l0).
    eapply (data_kill c c2 cap live0 t [] dead l0 nd nd' []);
      [exact Hf | exact Hd | by eapply Forall2_length | exact Hrw | done |].
    rewrite (wr_bytes _ _ _ _ Hw). simpl. rewrite (da_bytes _ _ _ _ Hd), i64_sub_l.
    rewrite total_middle. unfold node_size. f_equal. lia.
Qed.

(** ** Traversal *)

Fixpoint walk_list {A} (walker : string -> option V -> Z -> A -> outcome (A * bool)) l (acc : A) : outcome A :=
  match l with
  | [] => Ret acc
  | nd :: l =>
      let! (acc, go_on) := walker (nk nd) (nv nd) (nexpireAt nd) acc in
      if go_on : bool then walk_list walker l acc else Ret acc
  end.

Lemma walk_dead {A} c cap order pre rest fuel (walker : string -> option V -> Z -> A -> outcome (A * bool)) acc :
  frame_ok c cap order -> order = pre ++ rest ->
  Forall (fun i => exists nd, node_at c i = Some nd /\ nexpireAt nd = 0) rest ->
  (length rest < fuel)%nat -> walk_scan fuel c walker (default 0 (head rest)) acc = Ret acc.
Proof.
  intros Hf. revert pre fuel. induction rest as [| t rest IH]; intros pre fuel Hord Hdead Hfuel; simpl in *;
    (destruct fuel as [| fuel]; [lia |]); simpl; [done |].
  apply Forall_cons in Hdead as [(nd & Hn & He) Hdead].
  assert (Ht : t ∈ order) by (rewrite Hord; set_solver).
  rewrite decide_False by (apply (frame_elem _ _ _ _ Hf) in Ht; lia).
  rewrite (slot_node _ _ _ _ _ Hf Ht Hn). cbn [obind]. rewrite decide_False by lia.
  subst order. rewrite (next_link _ _ _ _ _ Hf). cbn [obind].
  apply (IH (pre ++ [t])); [by rewrite <- app_assoc | done | lia].
Qed.

Lemma walk_scan_spec {A} c cap live dead l0 fuel (walker : string -> option V -> Z -> A -> outcome (A * bool)) pre live' l acc :
  frame_ok c cap (live ++ dead) -> data_ok c live dead l0 -> live = pre ++ live' ->
  Forall2 (fun i nd => node_at c i = Some nd /\ 0 < nexpireAt nd) live' l ->
  (length (live' ++ dead) < fuel)%nat ->
  walk_scan fuel c walker (default 0 (head (live' ++ dead))) acc = walk_list walker l acc.
Proof.
  intros Hf Hd Hlive Hl. revert pre fuel acc Hlive.
  induction Hl as [| t nd live' l [Hn Hp] Hl IH]; intros pre fuel acc Hlive Hfuel; simpl in *.
  - eapply (walk_dead c cap (live ++ dead) live); try done. apply Hd.
  - destruct fuel as [| fuel]; [lia |]. simpl.
    assert (Ht : t ∈ live ++ dead) by (rewrite Hlive; set_solver).
    rewrite decide_False by (apply (frame_elem _ _ _ _ Hf) in Ht; lia).
    rewrite (slot_node _ _ _ _ _ Hf Ht Hn). cbn [obind]. rewrite decide_True by done.
    destruct (walker (nk nd) (nv nd) (nexpireAt nd) acc) as [[acc' [|]] |]; [| done..]. cbn [obind].
    assert (Hord : live ++ dead = pre ++ t :: (live' ++ dead)) by (rewrite Hlive, <- app_assoc; done).
    rewrite Hord in Hf. rewrite (next_link _ _ _ _ _ Hf). cbn [obind]. apply (IH (pre ++ [t])); [by rewrite <- app_assoc | lia].
Qed.

Lemma walk_spec {A} c cap l (walker : string -> option V -> Z -> A -> outcome (A * bool)) acc :
  cache_ok c cap l -> walk c walker acc = walk_list walker l acc.
Proof.
  intros (live & dead & Hf & Hd). unfold walk. rewrite (newest_link _ _ _ Hf). cbn [obind].
  eapply (walk_scan_spec c cap live dead l _ walker [] live l); try done; [apply Hd |].
  pose proof (fr_slots _ _ _ Hf). pose proof (fr_last _ _ _ Hf). pose proof (fr_le _ _ _ Hf).
  unfold zlen in *. lia.
Qed.

(** ** Promotion of a live entry *)

Lemma touch_spec c cap l k nd idx :
  cache_ok c cap l -> find_key k l = Some nd -> hashMap c !! k = Some idx ->
  exists c', adjust c idx p n = Ret c' /\ cache_ok c' cap (nd :: remove k l).
Proof.
  intros (live & dead & Hf & Hd) Hk Hm. pose proof (cache_find c cap live dead l k Hf Hd) as Hfind.
  rewrite Hk in Hfind. destruct Hfind as (idx' & Hm' & Hin & Hn & Hp).
  assert (idx' = idx) as -> by congruence. destruct (find_key_some _ _ _ Hk) as [Hkn _].
  pose proof (frame_NoDup _ _ _ Hf) as [_ Hnd]%NoDup_cons.
  destruct (data_split _ _ _ _ _ _ Hnd Hd Hin Hn) as (pre & post & l1 & l2 & -> & -> & Hlen & Hrem).
  rewrite Hkn in Hrem. rewrite Hrem.
  destruct (to_front c cap pre idx (post ++ dead)) as (dl & Ha & Hf2); [by rewrite <- app_assoc in Hf |].
  eexists. split; [exact Ha |]. exists (idx :: pre ++ post), dead.
  split; [simpl; by rewrite <- app_assoc |].
  eapply (data_refresh c _ cap pre idx post dead l1 nd nd l2); try done.
  simpl. rewrite (da_bytes _ _ _ _ Hd), total_middle. done.
Qed.

(** [Create] makes an empty level. *)
Lemma Create_spec cap : 1 <= cap < 2 ^ 16 - 1 -> cache_ok (V := V) (Create cap) cap [].
Proof.
  intros Hc. exists [], []. split.
  - assert (Hu : u16 (cap + 1) = cap + 1) by (apply u16_id; lia).
    constructor; simpl; try done; try lia.
    + unfold zlen. rewrite length_replicate. lia.
    + unfold zlen. rewrite length_replicate, Hu. lia.
    + unfold lk. rewrite Hu. replace (Z.to_nat (cap + 1)) with (Datatypes.S (Z.to_nat cap)) by lia. done.
  - constructor; simpl; [constructor | constructor | | done].
    intros k i. rewrite lookup_empty. split; [done | intros [Hi _]; by apply elem_of_nil in Hi].
Qed.

End Level.
