(* ===== verification/LruStore.v ===== *)
(** * LruStore
    The bucket-sharded two-level store ([swifty_cache/lru.go]: [lruStore]):
    entries are written to the first level of their bucket and promoted to the
    second level when read.

    Every method holds the bucket's lock for its whole body, so a call is one
    step on the bucket. The coarse clock is an argument. The calls of the
    eviction callback are returned as a list, in order; a store without a
    callback drops it. *)
From S2P Require Import Prelude LruCache.

Definition maxExpireAt : Z := 2 ^ 63 - 1.

Record StoreOptions := mkStoreOptions {
  MaxBytes : Z;
  BucketCount : Z;
  CapPerBucket : Z;
  Level2Cap : Z;
}.

(** [strings] are lists of bytes: the characters of a key as [int32]. *)
Fixpoint HashBKRD_from (hash : Z) (s : string) : Z :=
  match s with
  | EmptyString => hash
  | String ch s => HashBKRD_from (i32 (i32 (hash * 131) + Z.of_nat (Ascii.nat_of_ascii ch))) s
  end.
Definition HashBKRD (s : string) : Z := HashBKRD_from 0 s.

Definition MaskOfNextPowOf2 (cap : Z) : Z :=
  if decide (0 < cap /\ Z.land cap (u16 (cap - 1)) = 0) then u16 (cap - 1)
  else
    let cap := Z.lor cap (Z.shiftr cap 1) in
    let cap := Z.lor cap (Z.shiftr cap 2) in
    let cap := Z.lor cap (Z.shiftr cap 4) in
    Z.lor cap (Z.shiftr cap 8).

Section Store.
  Context {V : Type} `{Sized V} `{KeyOrder}.

Abbreviation Value := (option V).
Abbreviation bucket := (cache V * cache V)%type.
Abbreviation events := (list (string * Value)).

Record lruStore := mkLruStore {
  caches : list bucket;
  maxBucketBytes : Z;
  smask : Z;
}.
#[export] Instance lruStore_eta : Eta lruStore := fun s => mkLruStore (caches s) (maxBucketBytes s) (smask s).

(** [mask+1] is computed in 16 bits. *)
Definition NewStore (opts : StoreOptions) : outcome lruStore :=
  let bc := if decide (BucketCount opts = 0) then 16 else BucketCount opts in
  let cap1 := if decide (CapPerBucket opts = 0) then 512 else CapPerBucket opts in
  let cap2 := if decide (Level2Cap opts = 0) then 256 else Level2Cap opts in
  let mask := MaskOfNextPowOf2 bc in
  let! max :=
    (if decide (0 < MaxBytes opts) then
       if decide (u16 (mask + 1) = 0) then Panic "integer divide by zero"
       else
         let m := Z.quot (MaxBytes opts) (u16 (mask + 1)) in
         Ret (if decide (m <= 0) then 1 else m)
     else Ret 0) in
  Ret (mkLruStore (replicate (Z.to_nat (u16 (mask + 1))) (Create cap1, Create cap2)) max mask).

(** ** One bucket *)

Definition bucket_get (now : Z) (key : string) (b : bucket) : outcome (bucket * option Value * events) :=
  let '(c0, c1) := b in
  let! (c0, found) := del c0 key in
  match found with
  | Some (idx, expireAt) =>
      let! n1 := slot c0 idx in
      let v := nv n1 in
      let! c0 := clear_value c0 idx in
      if decide (expireAt <= now) then
        let! c1 := drop_key c1 key in
        Ret ((c0, c1), None, [(key, v)])
      else
        let! (c1, _, evs) := put c1 key v expireAt in
        Ret ((c0, c1), Some v, evs)
  | None =>
      let! pk := peek c1 key in
      match pk with
      | Some (n2, idx2) =>
          if decide (0 < nexpireAt n2) then
            if decide (nexpireAt n2 <= now) then
              let v := nv n2 in
              let! c1 := drop_key c1 key in
              Ret ((c0, c1), None, [(key, v)])
            else
              let! c1 := adjust c1 idx2 p n in
              Ret ((c0, c1), Some (nv n2), [])
          else Ret ((c0, c1), None, [])
      | None => Ret ((c0, c1), None, [])
      end
  end.

Definition evictFromBucket (b : bucket) : outcome (bucket * bool * events) :=
  let '(c0, c1) := b in
  let! (c0, ok, evs) := evictOldest c0 in
  if ok : bool then Ret ((c0, c1), true, evs)
  else let! (c1, ok, evs') := evictOldest c1 in Ret ((c0, c1), ok, evs ++ evs').

(** Every round but the last evicts a slot, so the slots bound the rounds. *)
Fixpoint shrink (fuel : nat) (max : Z) (b : bucket) : outcome (bucket * events) :=
  match fuel with
  | O => Panic "out of fuel"
  | S fuel =>
      if decide (max < i64 (cbytes b.1 + cbytes b.2)) then
        let! (b, ok, evs) := evictFromBucket b in
        if ok : bool then let! (b, evs') := shrink fuel max b in Ret (b, evs ++ evs')
        else Ret (b, evs)
      else Ret (b, [])
  end.

Definition bucket_set (max : Z) (key : string) (value : Value) (expireAt : Z) (b : bucket)
    : outcome (bucket * events) :=
  let '(c0, c1) := b in
  let! (c0, _, evs) := put c0 key value expireAt in
  let! c1 := drop_key c1 key in
  if decide (0 < max) then
    let! (b, evs') := shrink (S (S (length (slots c0) + length (slots c1)))) max (c0, c1) in
    Ret (b, evs ++ evs')
  else Ret ((c0, c1), evs).

(** [lruStore.delete] *)
Definition bucket_delete (key : string) (b : bucket) : outcome (bucket * bool * events) :=
  let '(c0, c1) := b in
  let! (c0, f1) := del c0 key in
  let! (c1, f2) := del c1 key in
  let! n1 := match f1 with Some (i, _) => let! nd := slot c0 i in Ret (Some nd) | None => Ret None end in
  let! n2 := match f2 with Some (i, _) => let! nd := slot c1 i in Ret (Some nd) | None => Ret None end in
  let v1 := nd ← n1; nv nd in
  let v2 := nd ← n2; nv nd in
  let evs := match v1, v2 with
             | Some v, _ => [(key, Some v)]
             | None, Some v => [(key, Some v)]
             | None, None => []
             end in
  let! c0 := match f1 with Some (i, _) => clear_value c0 i | None => Ret c0 end in
  let! c1 := match f2 with Some (i, _) => clear_value c1 i | None => Ret c1 end in
  Ret ((c0, c1), bool_decide (is_Some f1 \/ is_Some f2), evs).

(** The walkers' closures: the keys seen so far. *)
Definition collect_keys (c : cache V) (keys : gset string) : outcome (gset string) :=
  walk c (fun key _ _ keys => Ret ({[key]} ∪ keys, true)) keys.

Definition collect_expired (now : Z) (c : cache V) (keys : gset string) : outcome (gset string) :=
  walk c (fun key _ expireAt keys =>
    Ret (if decide (expireAt <= now) then {[key]} ∪ keys else keys, true)) keys.

Fixpoint delete_all (keys : list string) (b : bucket) : outcome (bucket * events) :=
  match keys with
  | [] => Ret (b, [])
  | key :: keys =>
      let! (b, _, evs) := bucket_delete key b in
      let! (b, evs') := delete_all keys b in
      Ret (b, evs ++ evs')
  end.

Definition bucket_clear (b : bucket) : outcome (bucket * events) :=
  let! keys := collect_keys b.1 ∅ in
  let! keys := collect_keys b.2 keys in
  delete_all (range_set keys) b.

Definition bucket_len (b : bucket) : outcome Z :=
  let! seen := collect_keys b.1 ∅ in
  let! seen := collect_keys b.2 seen in
  Ret (Z.of_nat (size seen)).

Definition bucket_sweep (now : Z) (b : bucket) : outcome (bucket * events) :=
  let! keys := collect_expired now b.1 ∅ in
  let! keys := collect_expired now b.2 keys in
  delete_all (range_set keys) b.

(** [value.Len()] on a nil interface panics. *)
Record Entry := mkStoreEntry { seKey : string; seSize : Z; seExpireAt : Z; seLevel : Z }.

Definition store_entry (key : string) (value : Value) (expireAt level : Z) : outcome Entry :=
  match value with
  | Some v => Ret (mkStoreEntry key (vlen v) expireAt level)
  | None => Panic nil_deref
  end.

(** [Walk]: the second level first; a [false] answer ends one level only. *)
Definition bucket_walk {A} (fn : Entry -> A -> A * bool) (b : bucket) (acc : A) : outcome A :=
  let! (seen, acc) :=
    walk b.2 (fun key value expireAt '(seen, acc) =>
      let! e := store_entry key value expireAt 1 in
      let '(acc, go_on) := fn e acc in Ret (({[key]} ∪ seen, acc), go_on)) (∅ : gset string, acc) in
  walk b.1 (fun key value expireAt acc =>
    if decide (key ∈ seen) then Ret (acc, true)
    else let! e := store_entry key value expireAt 0 in Ret (fn e acc)) acc.

(** ** The store *)

Definition bucket_index (s : lruStore) (key : string) : Z := Z.land (HashBKRD key) (smask s).

(** Runs a bucket operation under the bucket's lock. *)
Definition with_bucket {A} (s : lruStore) (i : Z) (f : bucket -> outcome (bucket * A)) : outcome (lruStore * A) :=
  let! b := index (caches s) i in
  let! (b, a) := f b in
  Ret (s <| caches := <[Z.to_nat i := b]> (caches s) |>, a).

Definition Get (now : Z) (s : lruStore) (key : string) : outcome (lruStore * (option Value * events)) :=
  with_bucket s (bucket_index s key) (fun b =>
    let! (b, v, evs) := bucket_get now key b in Ret (b, (v, evs))).

Definition expiry (now expiration : Z) : Z :=
  if decide (0 < expiration) then i64 (now + expiration) else maxExpireAt.

Definition SetWithExpiration (now : Z) (s : lruStore) (key : string) (value : Value) (expiration : Z)
    : outcome (lruStore * events) :=
  with_bucket s (bucket_index s key) (bucket_set (maxBucketBytes s) key value (expiry now expiration)).

Definition Set_ (now : Z) (s : lruStore) (key : string) (value : Value) : outcome (lruStore * events) :=
  SetWithExpiration now s key value 0.

Definition Delete (s : lruStore) (key : string) : outcome (lruStore * (bool * events)) :=
  with_bucket s (bucket_index s key) (fun b =>
    let! (b, ok, evs) := bucket_delete key b in Ret (b, (ok, evs))).

(** A pass over every bucket, one lock at a time. *)
Fixpoint all_buckets (f : bucket -> outcome (bucket * events)) (bs : list bucket) : outcome (list bucket * events) :=
  match bs with
  | [] => Ret ([], [])
  | b :: bs =>
      let! (b, evs) := f b in
      let! (bs, evs') := all_buckets f bs in
      Ret (b :: bs, evs ++ evs')
  end.

Definition Clear (s : lruStore) : outcome (lruStore * events) :=
  let! (bs, evs) := all_buckets bucket_clear (caches s) in Ret (s <| caches := bs |>, evs).

(** One tick of the cleanup loop. *)
Definition cleanup_tick (now : Z) (s : lruStore) : outcome (lruStore * events) :=
  let! (bs, evs) := all_buckets (bucket_sweep now) (caches s) in Ret (s <| caches := bs |>, evs).

Definition Len (s : lruStore) : outcome Z :=
  ofold (fun b count => let! k := bucket_len b in Ret (count + k)) (caches s) 0.

Definition Walk {A} (fn : Entry -> A -> A * bool) (s : lruStore) (acc : A) : outcome A :=
  ofold (bucket_walk fn) (caches s) acc.

Definition Bytes (s : lruStore) : Z :=
  foldl (fun t b => i64 (t + i64 (cbytes b.1 + cbytes b.2))) 0 (caches s).
Definition Evictions (s : lruStore) : Z :=
  foldl (fun t b => i64 (t + i64 (nevict b.1 + nevict b.2))) 0 (caches s).

End Store.
Arguments lruStore : clear implicits.
