(* ===== verification/LruStoreFacts.v ===== *)
(** * LruStoreFacts
    The two-level store against its abstract bucket: two disjoint recency
    lists, the written entries and the promoted ones. *)
From S2P Require Import Prelude LruCache LruLinks LruCacheFacts LruLevel LruStore.

Section Bucket.
  Context {V : Type} {HV : Sized V} {HK : KeyOrder}.
  Hypothesis vlen_nonneg : forall v : V, 0 <= vlen v.

Abbreviation entries := (list (node V)).
Abbreviation keys l := (nk <$> l).
Implicit Types l : entries.

(** The bucket holds [l0] on its first level and [l1] on its second. *)
Record bucket_ok (cap0 cap1 : Z) (b : cache V * cache V) (l0 l1 : entries) : Prop := {
  bk_first : cache_ok b.1 cap0 l0;
  bk_second : cache_ok b.2 cap1 l1;
  bk_disjoint : forall k, k ∈ keys l0 -> k ∉ keys l1;
}.

Lemma keys_remove k l : forall x, x ∈ keys (remove k l) <-> x ∈ keys l /\ x <> k.
Proof.
  intros x. unfold remove. rewrite !list_elem_of_fmap. setoid_rewrite list_elem_of_filter. naive_solver.
Qed.

Lemma keys_removelast l x : x ∈ keys (removelast l) -> x ∈ keys l.
Proof.
  destruct l as [| nd l _] using rev_ind; [done |]. rewrite removelast_last, fmap_app. set_solver.
Qed.

Lemma keys_put cap k v e l x : x ∈ keys (lru_put cap k v e l).1 -> x = k \/ x ∈ keys l.
Proof.
  unfold lru_put. repeat case_decide; cbn [fst]; rewrite fmap_cons, elem_of_cons; cbn [nk]; intros [? | Hx]; auto.
  - apply keys_remove in Hx. tauto.
  - apply keys_removelast in Hx. tauto.
Qed.

(** ** Reading *)

(** A read takes the entry from the first level and promotes it, or moves it
    to the front of the second; an expired entry is removed. *)
Definition spec_get (cap1 now : Z) (k : string) l0 l1
    : entries * entries * option (option V) * list (string * option V) :=
  match find_key k l0 with
  | Some nd =>
      if decide (nexpireAt nd <= now) then (remove k l0, remove k l1, None, [(k, nv nd)])
      else (remove k l0, (lru_put cap1 k (nv nd) (nexpireAt nd) l1).1, Some (nv nd),
            (lru_put cap1 k (nv nd) (nexpireAt nd) l1).2)
  | None =>
      match find_key k l1 with
      | Some nd =>
          if decide (nexpireAt nd <= now) then (l0, remove k l1, None, [(k, nv nd)])
          else (l0, nd :: remove k l1, Some (nv nd), [])
      | None => (l0, l1, None, [])
      end
  end.

Lemma cache_expiry c cap l nd : cache_ok c cap l -> nd ∈ l -> 0 < nexpireAt nd.
Proof.
  intros (live & dead & Hf & Hd) [j Hj]%list_elem_of_lookup_1.
  by destruct (Forall2_lookup_r _ _ _ _ _ (da_live _ _ _ _ Hd) Hj) as (i & _ & _ & ?).
Qed.

Lemma peek_spec c cap l k :
  cache_ok c cap l ->
  match find_key k l with
  | Some nd => exists idx, peek c k = Ret (Some (nd, idx)) /\ hashMap c !! k = Some idx
  | None => peek c k = Ret None \/ exists nd idx, peek c k = Ret (Some (nd, idx)) /\ ~ 0 < nexpireAt nd
  end.
Proof.
  intros (live & dead & Hf & Hd). pose proof (cache_find c cap live dead l k Hf Hd) as Hfind.
  unfold peek. destruct (find_key k l) as [nd |].
  - destruct Hfind as (idx & Hm & Hin & Hn & _). exists idx. rewrite Hm.
    rewrite (slot_node _ _ _ _ _ Hf) by (done || set_solver). done.
  - destruct (hashMap c !! k) as [idx |] eqn:Hm; [| by left]. right.
    destruct (data_elem _ _ _ _ _ _ _ Hf Hd Hm) as (_ & nd & Hn & _ & ->). exists nd, idx. split; [done |].
    by eapply Hfind.
Qed.

Lemma bucket_get_spec cap0 cap1 b l0 l1 now k :
  bucket_ok cap0 cap1 b l0 l1 ->
  let '(l0', l1', v, evs) := spec_get cap1 now k l0 l1 in
  exists b', bucket_get now k b = Ret (b', v, evs) /\ bucket_ok cap0 cap1 b' l0' l1'.
Proof.
  intros [H0 H1 Hdis]. destruct b as [c0 c1]. simpl in H0, H1. unfold bucket_get, spec_get.
  destruct (find_key k l0) as [nd |] eqn:Hk.
  - destruct (del_live c0 cap0 l0 k nd H0 Hk) as (c0' & idx & c0'' & -> & _ & Hs & Hcl & Hok). cbn [obind].
    rewrite Hs. cbn [obind]. rewrite Hcl. cbn [obind nv]. destruct (find_key_some _ _ _ Hk) as [Hnk Hin].
    case_decide as He.
    + destruct (drop_spec c1 cap1 l1 k H1) as (c1' & -> & Hok1). cbn [obind].
      eexists. split; [by destruct nd |]. split; [done | done |].
      intros x [Hx _]%keys_remove Hx1%keys_remove. apply (Hdis x); tauto.
    + assert (Hpos : 0 < nexpireAt nd) by (first [exact (cache_expiry _ _ _ _ H0 Hin) | exact (cache_expiry _ _ _ _ H1 Hin)]).
      destruct (put_spec c1 cap1 l1 k (nv nd) (nexpireAt nd) H1 Hpos) as (c1' & r & Hp & Hok1).
      change (nv (nd <| nexpireAt := 0 |>)) with (nv nd). rewrite Hp. cbn [obind].
      eexists. split; [done |]. split; [done | done |].
      intros x [Hx Hne]%keys_remove [? | Hx1]%keys_put; [done |]. by apply (Hdis x).
  - rewrite (del_missing c0 cap0 l0 k H0 Hk). cbn [obind]. pose proof (peek_spec c1 cap1 l1 k H1) as Hpeek.
    destruct (find_key k l1) as [nd |] eqn:Hk1.
    + destruct Hpeek as (idx & -> & Hm). cbn [obind]. destruct (find_key_some _ _ _ Hk1) as [Hnk Hin].
      assert (Hpos : 0 < nexpireAt nd) by (first [exact (cache_expiry _ _ _ _ H0 Hin) | exact (cache_expiry _ _ _ _ H1 Hin)]). rewrite (decide_True (P := 0 < nexpireAt nd)) by done.
      case_decide.
      * destruct (drop_spec c1 cap1 l1 k H1) as (c1' & -> & Hok1). cbn [obind].
        eexists. split; [done |]. split; [done | done |]. intros x Hx Hx1%keys_remove. apply (Hdis x); tauto.
      * destruct (touch_spec c1 cap1 l1 k nd idx H1 Hk1 Hm) as (c1' & -> & Hok1). cbn [obind].
        eexists. split; [done |]. split; [done | done |]. intros x Hx. rewrite fmap_cons, elem_of_cons.
        intros [-> | Hx1%keys_remove]; [| apply (Hdis x); tauto]. apply find_key_none in Hk. rewrite Hnk in Hx. done.
    + exists (c0, c1). split; [| done]. destruct Hpeek as [-> | (nd & idx & -> & Hn)]; cbn [obind]; [done |].
      by rewrite decide_False.
Qed.

(** ** Writing *)

Fixpoint cut (fuel : nat) (max : Z) l0 l1 : entries * entries :=
  match fuel with
  | O => (l0, l1)
  | S fuel =>
      if decide (max < total l0 + total l1) then
        match l0, l1 with
        | [], [] => ([], [])
        | [], _ => cut fuel max [] (removelast l1)
        | _, _ => cut fuel max (removelast l0) l1
        end
      else (l0, l1)
  end.

(** The byte budget: the oldest written entries go first, then the oldest
    promoted ones, until the rest fits. *)
Definition spec_fit (max : Z) l0 l1 : entries * entries :=
  if decide (0 < max) then cut (length l0 + length l1) max l0 l1 else (l0, l1).

Definition spec_set (cap0 max : Z) (k : string) (v : option V) (e : Z) l0 l1 : entries * entries :=
  spec_fit max (lru_put cap0 k v e l0).1 (remove k l1).

Lemma node_size_nonneg (nd : node V) : 0 <= node_size nd.
Proof. unfold node_size, entryBytes. destruct (nv nd) as [v |]; [pose proof (vlen_nonneg v) |]; lia. Qed.

Lemma total_nonneg l : 0 <= total l.
Proof. induction l as [| nd l IH]; simpl; [lia |]. pose proof (node_size_nonneg nd). lia. Qed.

Lemma removelast_length {A} (x : A) (l : list A) : length (removelast (x :: l)) = length l.
Proof. revert x. induction l as [| y l IH]; intros x; [done |]. simpl in *. by rewrite IH. Qed.

Lemma total_removelast l : total (removelast l) <= total l.
Proof.
  destruct l as [| nd l _] using rev_ind; [done |]. rewrite removelast_last, total_app. simpl.
  pose proof (node_size_nonneg nd). lia.
Qed.

(** Byte totals of a process fit an [int64]. *)
Definition small l0 l1 : Prop := total l0 + total l1 < 2 ^ 63.

Lemma level_bytes c cap l : cache_ok c cap l -> cbytes c = i64 (total l).
Proof. intros (live & dead & _ & Hd). apply Hd. Qed.

Lemma bucket_bytes cap0 cap1 b l0 l1 :
  bucket_ok cap0 cap1 b l0 l1 -> small l0 l1 -> i64 (cbytes b.1 + cbytes b.2) = total l0 + total l1.
Proof.
  intros [H0 H1 _] Hs. rewrite (level_bytes _ _ _ H0), (level_bytes _ _ _ H1). unfold small in Hs.
  pose proof (total_nonneg l0). pose proof (total_nonneg l1). rewrite (i64_id (total l0)), (i64_id (total l1)), i64_id by lia. done.
Qed.

Lemma evict_ok cap0 cap1 b l0 l1 :
  bucket_ok cap0 cap1 b l0 l1 ->
  exists b' evs, evictFromBucket b = Ret (b', bool_decide (l0 <> [] \/ l1 <> []), evs)
    /\ bucket_ok cap0 cap1 b' (if decide (l0 = []) then [] else removelast l0)
         (if decide (l0 = []) then removelast l1 else l1).
Proof.
  intros [H0 H1 Hdis]. destruct b as [c0 c1]. simpl in H0, H1. unfold evictFromBucket.
  destruct (evictOldest_spec c0 cap0 l0 H0) as (c0' & -> & Hok0). cbn [obind].
  case_decide as He.
  - subst l0. rewrite bool_decide_false by auto. destruct (evictOldest_spec c1 cap1 l1 H1) as (c1' & -> & Hok1). cbn [obind].
    rewrite (bool_decide_ext _ (@nil (node V) <> [] \/ l1 <> [])) by naive_solver.
    eexists _, _. split; [done |]. split; [done | done |]. intros k Hk. by apply not_elem_of_nil in Hk.
  - rewrite bool_decide_true by done. rewrite bool_decide_true by tauto. eexists _, _. split; [done |].
    split; [done | done |]. intros k Hk%keys_removelast. by apply Hdis.
Qed.

Lemma shrink_spec cap0 cap1 max fuel b l0 l1 :
  bucket_ok cap0 cap1 b l0 l1 -> small l0 l1 -> (length l0 + length l1 < fuel)%nat -> 0 <= max ->
  exists b' evs, shrink fuel max b = Ret (b', evs)
    /\ bucket_ok cap0 cap1 b' (cut (length l0 + length l1) max l0 l1).1 (cut (length l0 + length l1) max l0 l1).2.
Proof.
  revert b l0 l1. induction fuel as [| fuel IH]; intros b l0 l1 Hb Hs Hf Hm; [lia |].
  cbn [shrink]. rewrite (bucket_bytes _ _ _ _ _ Hb Hs).
  case_decide as Hmax.
  - destruct (evict_ok cap0 cap1 b l0 l1 Hb) as (b' & evs & Hev & Hb').
    rewrite Hev. cbn [obind]. destruct l0 as [| nd0 l0].
    + rewrite !decide_True in Hb' by done.
      destruct l1 as [| nd1 l1]; [simpl in Hmax; lia |]. rewrite bool_decide_true by auto.
      destruct (IH b' [] (removelast (nd1 :: l1))) as (b2 & evs2 & -> & Hb2); [done | | | done |].
      * unfold small in *. pose proof (total_removelast (nd1 :: l1)). lia.
      * rewrite removelast_length. simpl in *. lia.
      * cbn [obind]. eexists _, _. split; [done |]. rewrite removelast_length in Hb2.
        cbn [length Nat.add cut]. by rewrite decide_True by done.
    + rewrite !decide_False in Hb' by done. rewrite bool_decide_true by auto.
      destruct (IH b' (removelast (nd0 :: l0)) l1) as (b2 & evs2 & -> & Hb2); [done | | | done |].
      * unfold small in *. pose proof (total_removelast (nd0 :: l0)). lia.
      * rewrite removelast_length. simpl in *. lia.
      * cbn [obind]. eexists _, _. split; [done |]. rewrite removelast_length in Hb2.
        cbn [length Nat.add cut]. by rewrite decide_True by done.
  - eexists _, _. split; [done |].
    assert (Hcut : forall f, cut f max l0 l1 = (l0, l1)) by (intros [|]; simpl; [done | by rewrite decide_False]).
    by rewrite Hcut.
Qed.

Lemma bucket_set_spec cap0 cap1 max b l0 l1 k v e :
  bucket_ok cap0 cap1 b l0 l1 -> 0 < e -> 0 <= max ->
  (0 < max -> small (lru_put cap0 k v e l0).1 (remove k l1)) ->
  exists b' evs, bucket_set max k v e b = Ret (b', evs)
    /\ bucket_ok cap0 cap1 b' (spec_set cap0 max k v e l0 l1).1 (spec_set cap0 max k v e l0 l1).2.
Proof.
  intros [H0 H1 Hdis] He Hm Hs. destruct b as [c0 c1]. simpl in H0, H1. unfold bucket_set, spec_set, spec_fit.
  destruct (put_spec c0 cap0 l0 k v e H0 He) as (c0' & r & -> & Hok0). cbn [obind].
  destruct (drop_spec c1 cap1 l1 k H1) as (c1' & -> & Hok1). cbn [obind].
  assert (Hb : bucket_ok cap0 cap1 (c0', c1') (lru_put cap0 k v e l0).1 (remove k l1)).
  { split; [done | done |]. intros x Hx [Hx1 Hne]%keys_remove. apply keys_put in Hx as [? | Hx]; [done |]. by apply (Hdis x). }
  case_decide as Hpos; [specialize (Hs Hpos) | by eexists _, _].
  destruct (shrink_spec cap0 cap1 max (Datatypes.S (Datatypes.S (length (slots c0') + length (slots c1')))) _ _ _ Hb Hs)
    as (b' & evs' & -> & Hb'); [| done |].
  - pose proof (cache_fits _ _ _ Hok0). pose proof (cache_fits _ _ _ Hok1).
    destruct Hok0 as (? & ? & Hf0 & _). destruct Hok1 as (? & ? & Hf1 & _).
    pose proof (fr_slots _ _ _ Hf0). pose proof (fr_slots _ _ _ Hf1). unfold zlen in *. lia.
  - cbn [obind]. by eexists _, _.
Qed.

(** ** The byte budget *)

Lemma removelast_cons {A} (x : A) (l : list A) :
  removelast (x :: l) = if decide (l = []) then [] else x :: removelast l.
Proof. by destruct l. Qed.

(** The front entry survives the cut exactly when it fits beside the second
    level, which loses entries only after the first is empty. *)
Lemma cut_front fuel max nd l0 l1 :
  0 <= max -> (length (nd :: l0) + length l1 <= fuel)%nat ->
  if decide (node_size nd + total l1 <= max) then exists rest, cut fuel max (nd :: l0) l1 = (nd :: rest, l1)
  else exists l1', cut fuel max (nd :: l0) l1 = ([], l1') /\ forall x, x ∈ keys l1' -> x ∈ keys l1.
Proof.
  intros Hm. revert fuel. induction l0 as [| x l0 IH] using rev_ind; intros fuel Hf;
    (destruct fuel as [| fuel]; [simpl in Hf; lia |]).
  - simpl in Hf. cbn [cut total]. rewrite Z.add_0_r. case_decide as Hfit.
    + rewrite decide_False by lia. by exists [].
    + rewrite decide_True by lia. assert (Hlen : (length l1 <= fuel)%nat) by lia. clear Hf Hfit.
      revert fuel Hlen. induction l1 as [| y l1 IH1] using rev_ind; intros fuel Hlen; simpl.
      * exists []. split; [by destruct fuel as [|]; simpl; [| rewrite decide_False by lia] | done].
      * destruct fuel as [| fuel]; [rewrite length_app in Hlen; simpl in Hlen; lia |].
        rewrite length_app in Hlen. simpl in Hlen.
        cbn [cut]. case_decide; [| by exists (l1 ++ [y])].
        destruct (l1 ++ [y]) as [| z l] eqn:E; [by destruct l1 |]. rewrite <- E, removelast_last.
        destruct (IH1 fuel) as (l1' & Hc & Hk); [lia |]. exists l1'. split; [done |].
        intros w Hw. apply Hk in Hw. rewrite fmap_app. set_solver.
  - simpl in Hf. rewrite length_app in Hf. simpl in Hf.
    assert (Hlen : (length (nd :: l0) + length l1 <= fuel)%nat) by (simpl in *; lia). specialize (IH fuel Hlen).
    cbn [cut]. destruct (decide (max < total (nd :: l0 ++ [x]) + total l1)) as [Hover | Hover].
    + rewrite removelast_cons, (decide_False (P := l0 ++ [x] = [])), removelast_last by (by destruct l0). exact IH.
    + assert (Hfit : node_size nd + total l1 <= max).
      { cbn [total] in Hover. pose proof (total_nonneg (l0 ++ [x])). lia. }
      rewrite decide_True by done. by exists (l0 ++ [x]).
Qed.

Lemma cut_fits fuel max l0 l1 :
  0 <= max -> (length l0 + length l1 <= fuel)%nat -> let r := cut fuel max l0 l1 in total r.1 + total r.2 <= max.
Proof.
  intros Hm. revert l0 l1. induction fuel as [| fuel IH]; intros l0 l1 Hf; cbn [cut].
  - destruct l0; [| simpl in Hf; lia]. destruct l1; [simpl; lia | simpl in Hf; lia].
  - case_decide; [| simpl; lia]. destruct l0 as [| x l0], l1 as [| y l1]; try (simpl; lia);
      apply IH; rewrite ?removelast_length; simpl in *; lia.
Qed.

Lemma total_remove k l : total (remove k l) <= total l.
Proof.
  unfold remove. induction l as [| nd l IH]; [done |]. pose proof (node_size_nonneg nd). rewrite filter_cons.
  case_decide; simpl; lia.
Qed.

Lemma total_put cap k v e l : total (lru_put cap k v e l).1 <= node_size (mkNode k v e) + total l.
Proof.
  unfold lru_put. repeat case_decide; cbn [fst total]; [pose proof (total_remove k l) | pose proof (total_removelast l) |]; lia.
Qed.

Lemma total_find k l nd :
  NoDup (keys l) -> find_key k l = Some nd -> total l = node_size nd + total (remove k l).
Proof.
  intros Hnd Hk. destruct (find_key_some _ _ _ Hk) as [Hnk (l1 & l2 & ->)%list_elem_of_split].
  rewrite (remove_split k l1 nd l2 Hnd Hnk). apply total_middle.
Qed.

(** A read never grows the bucket. *)
Lemma spec_get_total cap1 now k l0 l1 :
  NoDup (keys l0) -> NoDup (keys l1) ->
  let '(l0', l1', _, _) := spec_get cap1 now k l0 l1 in total l0' + total l1' <= total l0 + total l1.
Proof.
  intros Hn0 Hn1. unfold spec_get. pose proof (total_remove k l0). pose proof (total_remove k l1).
  destruct (find_key k l0) as [nd |] eqn:Hk.
  - pose proof (total_find k l0 nd Hn0 Hk) as Ht. destruct (decide _); [lia |].
    pose proof (total_put cap1 k (nv nd) (nexpireAt nd) l1).
    assert (Hs : node_size (mkNode k (nv nd) (nexpireAt nd)) = node_size nd).
    { destruct (find_key_some _ _ _ Hk) as [Hnk _]. unfold node_size. simpl. by rewrite Hnk. }
    lia.
  - destruct (find_key k l1) as [nd |] eqn:Hk1; [| lia]. destruct (decide _); [lia |].
    pose proof (total_find k l1 nd Hn1 Hk1). simpl. lia.
Qed.

End Bucket.
