(* ===== verification/LruStoreSafety.v ===== *)
(** * LruStoreSafety
    The store as a whole: construction, deletion, the background sweep, and
    what any sequence of calls preserves. *)
From S2P Require Import Prelude LruCache LruLinks LruCacheFacts LruLevel LruStore LruStoreFacts.
Section Store.
  Context {V : Type} {HV : Sized V} {HK : KeyOrder}.
  Hypothesis vlen_nonneg : forall v : V, 0 <= vlen v.

Abbreviation entries := (list (node V)).
Abbreviation keys l := (nk <$> l).
Implicit Types l : entries.

(** ** Deletion *)

Lemma disjoint_sub l0 l1 (l0' l1' : entries) :
  (forall k, k ∈ keys l0 -> k ∉ keys l1) ->
  (forall k, k ∈ keys l0' -> k ∈ keys l0) -> (forall k, k ∈ keys l1' -> k ∈ keys l1) ->
  forall k, k ∈ keys l0' -> k ∉ keys l1'.
Proof. intros Hd H0 H1 k Hk0 Hk1. apply (Hd k); auto. Qed.

Lemma remove_sub k l x : x ∈ keys (remove k l) -> x ∈ keys l.
Proof. rewrite keys_remove. tauto. Qed.

(** What [del] and the later clearing of its slot do, live key or not. *)
Lemma del_cases c cap l k :
  cache_ok c cap l ->
  exists c' f c'', del c k = Ret (c', f) /\ bool_decide (is_Some f) = bool_decide (k ∈ keys l)
    /\ (exists n, match f with Some (i, _) => let! nd := slot c' i in Ret (Some nd) | None => Ret None end = Ret n)
    /\ match f with Some (i, _) => clear_value c' i | None => Ret c' end = Ret c''
    /\ cache_ok c'' cap (remove k l).
Proof.
  intros Hc. destruct (find_key k l) as [nd |] eqn:Hk.
  - destruct (del_live c cap l k nd Hc Hk) as (c' & idx & c'' & Hd & _ & Hs & Hcl & Hok).
    exists c', (Some (idx, nexpireAt nd)), c''. split_and!; try done.
    + apply find_key_some in Hk as [<- Hin]. rewrite !bool_decide_true; [done | | done].
      apply list_elem_of_fmap. by exists nd.
    + rewrite Hs. by eexists.
  - exists c, None, c. split_and!; try done; [by eapply del_missing | | by eexists |].
    + apply find_key_none in Hk. rewrite !bool_decide_false; [done | done | by intros []].
    + rewrite remove_fresh; [done |]. by apply find_key_none.
Qed.

Lemma bucket_delete_spec cap0 cap1 b l0 l1 k :
  bucket_ok cap0 cap1 b l0 l1 ->
  exists b' evs, bucket_delete k b = Ret (b', bool_decide (k ∈ keys l0 \/ k ∈ keys l1), evs)
    /\ bucket_ok cap0 cap1 b' (remove k l0) (remove k l1).
Proof.
  intros [H0 H1 Hdis]. destruct b as [c0 c1]. simpl in H0, H1. unfold bucket_delete.
  destruct (del_cases c0 cap0 l0 k H0) as (c0' & f0 & c0'' & -> & Hf0 & (n0 & Hn0) & Hcl0 & Hok0).
  cbn [obind]. destruct (del_cases c1 cap1 l1 k H1) as (c1' & f1 & c1'' & -> & Hf1 & (n1 & Hn1) & Hcl1 & Hok1).
  cbn [obind]. rewrite Hn0. cbn [obind]. rewrite Hn1. cbn [obind]. rewrite Hcl0. cbn [obind]. rewrite Hcl1. cbn [obind].
  assert (Hdel : bool_decide (is_Some f0 \/ is_Some f1) = bool_decide (k ∈ keys l0 \/ k ∈ keys l1))
    by (rewrite !bool_decide_or; congruence).
  rewrite Hdel. eexists _, _. split; [done |]. split; [done | done |].
  - eapply disjoint_sub; [exact Hdis | |]; intros x; apply remove_sub.
Qed.

Definition without (ks : list string) l : entries := filter (fun nd => nk nd ∉ ks) l.

Lemma without_cons k ks l : without (k :: ks) l = without ks (remove k l).
Proof.
  unfold without, remove. induction l as [| nd l IH]; [done |]. rewrite !filter_cons.
  destruct (decide (nk nd = k)) as [-> | Hne].
  - rewrite decide_False by set_solver. rewrite decide_False by (intros Hf; by apply Hf). exact IH.
  - rewrite (decide_True (P := nk nd <> k)) by done. rewrite filter_cons.
    destruct (decide (nk nd ∈ ks)).
    + rewrite decide_False by set_solver. rewrite decide_False by tauto. exact IH.
    + rewrite decide_True by set_solver. rewrite decide_True by done. by rewrite IH.
Qed.

Lemma delete_all_spec cap0 cap1 ks b l0 l1 :
  bucket_ok cap0 cap1 b l0 l1 ->
  exists b' evs, delete_all ks b = Ret (b', evs) /\ bucket_ok cap0 cap1 b' (without ks l0) (without ks l1).
Proof.
  revert b l0 l1. induction ks as [| k ks IH]; intros b l0 l1 Hb; cbn [delete_all].
  - exists b, []. split; [done |]. unfold without. rewrite !filter_all; [done | |];
      apply Forall_forall; intros; apply not_elem_of_nil.
  - destruct (bucket_delete_spec _ _ _ _ _ k Hb) as (b1 & evs1 & -> & Hb1). cbn [obind].
    destruct (IH _ _ _ Hb1) as (b2 & evs2 & -> & Hb2). cbn [obind]. eexists _, _. split; [done |].
    by rewrite !without_cons.
Qed.

(** ** Traversals *)

Lemma collect_spec (upd : node V -> gset string -> gset string) (f : node V -> bool) l acc :
  (forall nd ks, upd nd ks = if f nd then {[nk nd]} ∪ ks else ks) ->
  walk_list (fun key v e ks => Ret (upd (mkNode key v e) ks, true)) l acc
    = Ret (acc ∪ list_to_set (keys (filter (fun nd => f nd = true) l))).
Proof.
  intros Hu. revert acc. induction l as [| nd l IH]; intros acc; cbn [walk_list obind].
  - f_equal. simpl. set_solver.
  - rewrite IH, Hu. f_equal. rewrite filter_cons. replace (mkNode (nk nd) (nv nd) (nexpireAt nd)) with nd by (by destruct nd).
    destruct (f nd); simpl; set_solver.
Qed.

Lemma collect_keys_spec c cap l acc :
  cache_ok c cap l -> collect_keys c acc = Ret (acc ∪ list_to_set (keys l)).
Proof.
  intros Hc. unfold collect_keys. rewrite (walk_spec _ _ _ _ _ Hc).
  rewrite (collect_spec (fun nd ks => {[nk nd]} ∪ ks) (fun _ => true) l acc) by done.
  do 4 f_equal. apply filter_all, Forall_forall. done.
Qed.

Definition expired (now : Z) (nd : node V) : bool := bool_decide (nexpireAt nd <= now).

Lemma collect_expired_spec c cap l now acc :
  cache_ok c cap l ->
  collect_expired now c acc = Ret (acc ∪ list_to_set (keys (filter (fun nd => expired now nd = true) l))).
Proof.
  intros Hc. unfold collect_expired. rewrite (walk_spec _ _ _ _ _ Hc).
  pose proof (collect_spec (fun nd ks => if decide (nexpireAt nd <= now) then {[nk nd]} ∪ ks else ks) (expired now) l acc) as Hs.
  apply Hs. intros nd ks. unfold expired.
  destruct (decide (nexpireAt nd <= now)); [rewrite bool_decide_true | rewrite bool_decide_false]; done.
Qed.

(** [Clear] leaves nothing. *)
Lemma bucket_clear_spec cap0 cap1 b l0 l1 :
  bucket_ok cap0 cap1 b l0 l1 ->
  exists b' evs, bucket_clear b = Ret (b', evs) /\ bucket_ok cap0 cap1 b' [] [].
Proof.
  intros Hb. unfold bucket_clear. rewrite (collect_keys_spec _ _ _ _ (bk_first _ _ _ _ _ Hb)). cbn [obind].
  rewrite (collect_keys_spec _ _ _ _ (bk_second _ _ _ _ _ Hb)). cbn [obind].
  set (ks := _ ∪ list_to_set (keys l1)). destruct (delete_all_spec cap0 cap1 (range_set ks) b l0 l1 Hb) as (b' & evs & -> & Hb').
  eexists _, _. split; [done |].
  assert (Hnone : forall l, (forall k, k ∈ keys l -> k ∈ ks) -> without (range_set ks) l = []).
  { intros l Hl. apply filter_none, Forall_forall. intros nd Hnd Hn. apply Hn.
    rewrite range_set_perm, elem_of_elements. apply Hl, list_elem_of_fmap. by exists nd. }
  rewrite !Hnone in Hb'; [done | |]; subst ks; set_solver.
Qed.

(** The sweep removes exactly the expired entries. *)
Lemma bucket_sweep_spec cap0 cap1 b l0 l1 now :
  bucket_ok cap0 cap1 b l0 l1 ->
  exists b' evs, bucket_sweep now b = Ret (b', evs)
    /\ bucket_ok cap0 cap1 b' (filter (fun nd => now < nexpireAt nd) l0) (filter (fun nd => now < nexpireAt nd) l1).
Proof.
  intros Hb. pose proof Hb as [H0 H1 Hdis]. unfold bucket_sweep.
  rewrite (collect_expired_spec _ _ _ _ _ H0). cbn [obind].
  rewrite (collect_expired_spec _ _ _ _ _ H1). cbn [obind].
  set (ks := _ ∪ _). destruct (delete_all_spec cap0 cap1 (range_set ks) b l0 l1 Hb) as (b' & evs & -> & Hb').
  eexists _, _. split; [done |].
  assert (Hks : forall k, k ∈ ks <-> exists nd, (nd ∈ l0 \/ nd ∈ l1) /\ nexpireAt nd <= now /\ nk nd = k).
  { intros k. subst ks. rewrite !elem_of_union, !elem_of_list_to_set, !list_elem_of_fmap.
    setoid_rewrite list_elem_of_filter. unfold expired. setoid_rewrite bool_decide_eq_true. set_solver. }
  assert (Hkeep : forall l nd, (l = l0 \/ l = l1) -> nd ∈ l -> nk nd ∉ range_set ks <-> now < nexpireAt nd).
  { intros l nd Hl Hin. rewrite range_set_perm, elem_of_elements, Hks. split.
    - intros Hn. destruct (decide (now < nexpireAt nd)); [done |]. exfalso. apply Hn. exists nd.
      split; [naive_solver | split; [lia | done]].
    - intros Hlt (nd' & Hin' & He & Hk). enough (nd' = nd) as -> by lia.
      assert (Hkin : forall (x : node V) (l : entries), x ∈ l -> nk x ∈ keys l) by (intros; apply list_elem_of_fmap; eauto).
      assert (Hinj : forall l x y, NoDup (keys l) -> x ∈ l -> y ∈ l -> nk x = nk y -> x = y).
      { intros l' x y Hnd [i Hi]%list_elem_of_lookup_1 [j Hj]%list_elem_of_lookup_1 Hxy.
        assert (i = j) as ->; [| congruence]. apply (NoDup_lookup (keys l') i j (nk x)); [done | |].
        - by rewrite list_lookup_fmap, Hi.
        - rewrite list_lookup_fmap, Hj, Hxy. done. }
      pose proof (cache_keys _ _ _ H0). pose proof (cache_keys _ _ _ H1).
      destruct Hl as [-> | ->], Hin' as [Hin' | Hin']; [by eapply (Hinj l0) | | | by eapply (Hinj l1)]; exfalso.
      + apply (Hdis (nk nd)); [by apply Hkin | rewrite <- Hk; by apply Hkin].
      + apply (Hdis (nk nd)); [rewrite <- Hk; by apply Hkin | by apply Hkin]. }
  assert (Heq : forall l, (l = l0 \/ l = l1) -> without (range_set ks) l = filter (fun nd => now < nexpireAt nd) l).
  { intros l Hl. unfold without.
    assert (Hall : Forall (fun nd => nk nd ∉ range_set ks <-> now < nexpireAt nd) l)
      by (apply Forall_forall; intros nd Hnd; by apply (Hkeep l)).
    clear -Hall. induction Hall as [| nd l Hx _ IH]; [done |]. rewrite !filter_cons, IH.
    destruct (decide (nk nd ∉ range_set ks)), (decide (now < nexpireAt nd)); tauto. }
  by rewrite !Heq in Hb' by auto.
Qed.

Lemma bucket_len_spec cap0 cap1 b l0 l1 :
  bucket_ok cap0 cap1 b l0 l1 -> bucket_len b = Ret (zlen l0 + zlen l1).
Proof.
  intros [H0 H1 Hdis]. unfold bucket_len. rewrite (collect_keys_spec _ _ _ _ H0). cbn [obind].
  rewrite (collect_keys_spec _ _ _ _ H1). cbn [obind]. f_equal.
  rewrite size_union, union_empty_l_L, !size_list_to_set by (apply (cache_keys _ _ _ H0) || apply (cache_keys _ _ _ H1) || set_solver).
  rewrite !length_fmap. unfold zlen. lia.
Qed.

(** ** The whole store *)

(** The byte budget of a bucket; 0 means none. *)
Definition within (max : Z) l0 l1 : Prop := 0 < max -> total l0 + total l1 <= max.

Definition shard_ok (cap0 cap1 max : Z) (b : cache V * cache V) (ls : entries * entries) : Prop :=
  bucket_ok cap0 cap1 b ls.1 ls.2 /\ within max ls.1 ls.2.

(** The buckets hold the contents [cs], within the budget; the mask selects one. *)
Record store_ok (s : lruStore V) (cap0 cap1 : Z) (cs : list (entries * entries)) : Prop := {
  sk_buckets : Forall2 (shard_ok cap0 cap1 (maxBucketBytes s)) (caches s) cs;
  sk_max : 0 <= maxBucketBytes s < 2 ^ 63;
  sk_mask : exists k, 0 <= k <= 15 /\ smask s = 2 ^ k - 1 /\ zlen (caches s) = 2 ^ k;
}.

(** Where a key lives. *)
Definition home (s : lruStore V) (cs : list (entries * entries)) (k : string) : entries * entries :=
  default ([], []) (cs !! Z.to_nat (bucket_index s k)).

Lemma bucket_index_range s cap0 cap1 cs k :
  store_ok s cap0 cap1 cs -> 0 <= bucket_index s k < zlen (caches s).
Proof.
  intros [_ _ (j & Hj & Hm & Hz)]. unfold bucket_index. rewrite Hm, Hz.
  replace (2 ^ j - 1) with (Z.ones j) by (rewrite Z.ones_equiv; lia).
  rewrite Z.land_ones by lia. apply Z.mod_pos_bound. lia.
Qed.

(** Running an operation on the bucket of a key. *)
Lemma with_bucket_spec {A} s cap0 cap1 cs k (f : cache V * cache V -> outcome ((cache V * cache V) * A)) (Q : A -> Prop) ls' :
  store_ok s cap0 cap1 cs ->
  (forall b, shard_ok cap0 cap1 (maxBucketBytes s) b (home s cs k) ->
     exists b' a, f b = Ret (b', a) /\ shard_ok cap0 cap1 (maxBucketBytes s) b' ls' /\ Q a) ->
  exists s' a, with_bucket s (bucket_index s k) f = Ret (s', a) /\ Q a
    /\ maxBucketBytes s' = maxBucketBytes s /\ smask s' = smask s
    /\ store_ok s' cap0 cap1 (<[Z.to_nat (bucket_index s k) := ls']> cs).
Proof.
  intros Hok Hf. pose proof (bucket_index_range s cap0 cap1 cs k Hok) as Hi. destruct Hok as [Hb Hm Hk].
  unfold with_bucket. destruct (index_total _ _ Hi) as (b & -> & Hlb). cbn [obind].
  destruct (Forall2_lookup_l _ _ _ _ _ Hb Hlb) as (ls & Hls & Hsh).
  destruct (Hf b) as (b' & a & -> & Hsh' & HQ); [unfold home; by rewrite Hls |]. cbn [obind].
  eexists _, a. split; [done |]. split; [done |]. split; [done |]. split; [done |]. constructor; simpl.
  - by apply Forall2_insert.
  - done.
  - destruct Hk as (j & Hj & Hmk & Hz). exists j. unfold zlen in *. by rewrite length_insert.
Qed.

Lemma home_shard s cap0 cap1 cs k :
  store_ok s cap0 cap1 cs -> exists b, shard_ok cap0 cap1 (maxBucketBytes s) b (home s cs k).
Proof.
  intros Hok. pose proof (bucket_index_range s cap0 cap1 cs k Hok) as Hi.
  destruct (index_total _ _ Hi) as (b & _ & Hlb). exists b.
  destruct (Forall2_lookup_l _ _ _ _ _ (sk_buckets _ _ _ _ Hok) Hlb) as (ls & Hls & Hsh).
  unfold home. by rewrite Hls.
Qed.

Lemma get_step s cap0 cap1 cs now k :
  store_ok s cap0 cap1 cs ->
  let '(l0, l1) := home s cs k in
  let '(l0', l1', v, evs) := spec_get cap1 now k l0 l1 in
  exists s', Get now s k = Ret (s', (v, evs)) /\ maxBucketBytes s' = maxBucketBytes s /\ smask s' = smask s
    /\ store_ok s' cap0 cap1 (<[Z.to_nat (bucket_index s k) := (l0', l1')]> cs).
Proof.
  intros Hok. destruct (home s cs k) as [l0 l1] eqn:Hhome.
  destruct (spec_get cap1 now k l0 l1) as [[[l0' l1'] v] evs] eqn:Hspec.
  destruct (with_bucket_spec s cap0 cap1 cs k (fun b => let! (b, v, evs) := bucket_get now k b in Ret (b, (v, evs)))
    (fun a => a = (v, evs)) (l0', l1') Hok) as (s' & a & Hw & -> & Hm & Hk & Hok').
  - intros b [Hb Hwithin]. rewrite Hhome in *. simpl in *.
    pose proof (bucket_get_spec vlen_nonneg cap0 cap1 b l0 l1 now k Hb) as Hget. rewrite Hspec in Hget.
    destruct Hget as (b' & -> & Hb'). cbn [obind]. eexists _, _. split; [done |]. split; [| done].
    split; [done |]. intros Hpos. specialize (Hwithin Hpos). simpl.
    pose proof (spec_get_total vlen_nonneg cap1 now k l0 l1 (cache_keys _ _ _ (bk_first _ _ _ _ _ Hb)) (cache_keys _ _ _ (bk_second _ _ _ _ _ Hb))) as Ht.
    rewrite Hspec in Ht. lia.
  - by exists s'.
Qed.

(** A set whose expiry does not overflow and whose size an [int64] can hold
    beside a full bucket. *)
Definition settable (s : lruStore V) (now : Z) (k : string) (v : option V) (expiration : Z) : Prop :=
  0 < expiry now expiration /\ entryBytes k v + maxBucketBytes s < 2 ^ 63.

Lemma set_step s cap0 cap1 cs now k v expiration :
  store_ok s cap0 cap1 cs -> settable s now k v expiration ->
  let '(l0, l1) := home s cs k in
  let r := spec_set cap0 (maxBucketBytes s) k v (expiry now expiration) l0 l1 in
  exists s' evs, SetWithExpiration now s k v expiration = Ret (s', evs)
    /\ maxBucketBytes s' = maxBucketBytes s /\ smask s' = smask s
    /\ store_ok s' cap0 cap1 (<[Z.to_nat (bucket_index s k) := r]> cs).
Proof.
  intros Hok [He Hsize]. destruct (home s cs k) as [l0 l1] eqn:Hhome. intros r.
  destruct (with_bucket_spec s cap0 cap1 cs k (bucket_set (maxBucketBytes s) k v (expiry now expiration))
    (fun _ => True) r Hok) as (s' & a & Hw & _ & Hm & Hk & Hok').
  - intros b [Hb Hwithin]. rewrite Hhome in *. simpl in *. pose proof (sk_max _ _ _ _ Hok).
    destruct (bucket_set_spec vlen_nonneg cap0 cap1 (maxBucketBytes s) b l0 l1 k v (expiry now expiration))
      as (b' & evs & Hset & Hb'); [done | done | lia | |].
    + intros Hpos. specialize (Hwithin Hpos). unfold small.
      pose proof (total_put vlen_nonneg cap0 k v (expiry now expiration) l0) as Hp.
      change (node_size (mkNode k v (expiry now expiration))) with (entryBytes k v) in Hp.
      pose proof (total_remove vlen_nonneg k l1). lia.
    + eexists _, _. split; [exact Hset |]. split; [| done]. split; [exact Hb' |]. intros Hpos.
      subst r. unfold spec_set, spec_fit. rewrite decide_True by done. apply cut_fits; first [exact vlen_nonneg | lia | done].
  - by exists s', a.
Qed.

(** ** Any sequence of calls *)

Inductive call :=
| CGet (now : Z) (k : string)
| CSet (now : Z) (k : string) (v : option V) (expiration : Z)
| CDelete (k : string)
| CClear
| CSweep (now : Z).

Definition apply_call (s : lruStore V) (o : call) : outcome (lruStore V) :=
  match o with
  | CGet now k => let! r := Get now s k in Ret r.1
  | CSet now k v expiration => let! r := SetWithExpiration now s k v expiration in Ret r.1
  | CDelete k => let! r := Delete s k in Ret r.1
  | CClear => let! r := Clear s in Ret r.1
  | CSweep now => let! r := cleanup_tick now s in Ret r.1
  end.

Fixpoint apply_calls (s : lruStore V) (os : list call) : outcome (lruStore V) :=
  match os with [] => Ret s | o :: os => let! s := apply_call s o in apply_calls s os end.

Definition call_ok (s : lruStore V) (o : call) : Prop :=
  match o with CSet now k v expiration => settable s now k v expiration | _ => True end.

Lemma all_buckets_spec cap0 cap1 max f bs cs (g : entries * entries -> entries * entries) :
  (forall b ls, shard_ok cap0 cap1 max b ls ->
     exists b' evs, f b = Ret (b', evs) /\ shard_ok cap0 cap1 max b' (g ls)) ->
  Forall2 (shard_ok cap0 cap1 max) bs cs ->
  exists bs' evs, all_buckets f bs = Ret (bs', evs) /\ Forall2 (shard_ok cap0 cap1 max) bs' (g <$> cs).
Proof.
  intros Hf Hb. induction Hb as [| b ls bs cs Hx Hb IH]; cbn [all_buckets]; [by exists [], [] |].
  destruct (Hf b ls Hx) as (b' & evs & -> & Hb'). cbn [obind].
  destruct IH as (bs' & evs' & -> & Hbs). cbn [obind]. eexists _, _. split; [done |]. by constructor.
Qed.

Lemma store_ok_all s cap0 cap1 cs bs' cs' :
  store_ok s cap0 cap1 cs -> Forall2 (shard_ok cap0 cap1 (maxBucketBytes s)) bs' cs' -> length cs' = length cs ->
  store_ok (s <| caches := bs' |>) cap0 cap1 cs'.
Proof.
  intros [Hb Hm (k & Hk & Hmk & Hz)] Hb' Hl. constructor; simpl; [done | done |].
  exists k. split; [done |]. split; [done |]. rewrite <- Hz. unfold zlen.
  rewrite (Forall2_length _ _ _ Hb), (Forall2_length _ _ _ Hb'). by rewrite Hl.
Qed.

Lemma total_filter P `{!forall x, Decision (P x)} l : total (filter P l) <= total l.
Proof.
  induction l as [| nd l IH]; [done |]. pose proof (node_size_nonneg vlen_nonneg nd). rewrite filter_cons.
  case_decide; simpl; lia.
Qed.

Lemma delete_step s cap0 cap1 cs k :
  store_ok s cap0 cap1 cs ->
  exists s' a, Delete s k = Ret (s', a) /\ maxBucketBytes s' = maxBucketBytes s
    /\ store_ok s' cap0 cap1 (<[Z.to_nat (bucket_index s k) := (remove k (home s cs k).1, remove k (home s cs k).2)]> cs).
Proof.
  intros Hok. destruct (with_bucket_spec s cap0 cap1 cs k (fun b => let! (b, ok, evs) := bucket_delete k b in Ret (b, (ok, evs)))
    (fun _ => True) (remove k (home s cs k).1, remove k (home s cs k).2) Hok) as (s' & a & Hw & _ & Hm & _ & Hok'); [| by exists s', a].
  intros b [Hb Hwithin]. destruct (bucket_delete_spec cap0 cap1 b _ _ k Hb) as (b' & evs & -> & Hb'). cbn [obind].
  eexists _, _. split; [done |]. split; [| done]. split; [exact Hb' |]. intros Hpos. specialize (Hwithin Hpos). simpl.
  pose proof (total_remove vlen_nonneg k (home s cs k).1). pose proof (total_remove vlen_nonneg k (home s cs k).2). lia.
Qed.

Lemma clear_step s cap0 cap1 cs :
  store_ok s cap0 cap1 cs ->
  exists s' evs, Clear s = Ret (s', evs) /\ maxBucketBytes s' = maxBucketBytes s
    /\ store_ok s' cap0 cap1 ((fun _ => ([], [])) <$> cs).
Proof.
  intros Hok. unfold Clear.
  destruct (all_buckets_spec cap0 cap1 (maxBucketBytes s) bucket_clear (caches s) cs (fun _ => ([], [])))
    as (bs' & evs & -> & Hbs); [| apply Hok |].
  - intros b ls [Hb _]. destruct (bucket_clear_spec cap0 cap1 b _ _ Hb) as (b' & evs & -> & Hb').
    eexists _, _. split; [done |]. split; [exact Hb' |]. intros Hpos. simpl. lia.
  - cbn [obind]. eexists _, _. split; [done |]. split; [done |].
    eapply store_ok_all; [done | exact Hbs | by rewrite length_fmap].
Qed.

Lemma Len_spec s cap0 cap1 cs :
  store_ok s cap0 cap1 cs -> Len s = Ret (foldr (fun ls n => zlen ls.1 + zlen ls.2 + n) 0 cs).
Proof.
  intros Hok. unfold Len.
  enough (Hgen : forall bs cs acc, Forall2 (shard_ok cap0 cap1 (maxBucketBytes s)) bs cs ->
    ofold (fun b count => let! k := bucket_len b in Ret (count + k)) bs acc
      = Ret (acc + foldr (fun ls n => zlen ls.1 + zlen ls.2 + n) 0 cs)) by (rewrite (Hgen _ cs); [done | apply Hok]).
  clear -HK vlen_nonneg. intros bs cs acc Hb. revert acc. induction Hb as [| b ls bs cs [Hb _] _ IH]; intros acc; cbn [ofold foldr].
  - by rewrite Z.add_0_r.
  - rewrite (bucket_len_spec _ _ _ _ _ Hb). cbn [obind]. rewrite IH. f_equal. lia.
Qed.

Lemma call_step s cap0 cap1 cs o :
  store_ok s cap0 cap1 cs -> call_ok s o ->
  exists s' cs', apply_call s o = Ret s' /\ store_ok s' cap0 cap1 cs'
    /\ maxBucketBytes s' = maxBucketBytes s.
Proof.
  intros Hok Ho. destruct o as [now k | now k v ex | k | | now]; simpl in *.
  - pose proof (get_step s cap0 cap1 cs now k Hok) as Hg. destruct (home s cs k) as [l0 l1].
    destruct (spec_get cap1 now k l0 l1) as [[[l0' l1'] v] evs].
    destruct Hg as (s' & -> & Hm & _ & Hok'). cbn [obind]. eauto.
  - pose proof (set_step s cap0 cap1 cs now k v ex Hok Ho) as Hs. destruct (home s cs k) as [l0 l1].
    destruct Hs as (s' & evs & -> & Hm & _ & Hok'). cbn [obind]. eauto.
  - destruct (delete_step s cap0 cap1 cs k Hok) as (s' & a & -> & Hm & Hok'). cbn [obind]. eauto.
  - destruct (clear_step s cap0 cap1 cs Hok) as (s' & evs & -> & Hm & Hok'). cbn [obind]. eauto.
  - unfold cleanup_tick.
    set (g := fun ls : entries * entries => (filter (fun nd => now < nexpireAt nd) ls.1, filter (fun nd => now < nexpireAt nd) ls.2)).
    destruct (all_buckets_spec cap0 cap1 (maxBucketBytes s) (bucket_sweep now) (caches s) cs g)
      as (bs' & evs & -> & Hbs); [| apply Hok |].
    + intros b ls [Hb Hwithin]. destruct (bucket_sweep_spec cap0 cap1 b _ _ now Hb) as (b' & evs & -> & Hb').
      eexists _, _. split; [done |]. split; [exact Hb' |]. intros Hpos. specialize (Hwithin Hpos). simpl.
      pose proof (total_filter (fun nd => now < nexpireAt nd) ls.1).
      pose proof (total_filter (fun nd => now < nexpireAt nd) ls.2). lia.
    + cbn [obind]. eexists _, _. split; [done |]. split; [| done].
      eapply store_ok_all; [done | exact Hbs | by rewrite length_fmap].
Qed.

(** ** Walk *)

(** What [Walk] hands over: the live entries, the second level first. A value
    that is nil has no length. *)
Definition entry_of (level : Z) (nd : node V) : option Entry :=
  (fun v => mkStoreEntry (nk nd) (vlen v) (nexpireAt nd) level) <$> nv nd.
Definition bucket_entries (ls : entries * entries) : list Entry := omap (entry_of 1) ls.2 ++ omap (entry_of 0) ls.1.
Definition valued (cs : list (entries * entries)) : Prop := Forall (fun ls => Forall (fun nd => is_Some (nv nd)) (ls.1 ++ ls.2)) cs.

Lemma walk_list_total {A} (walker : string -> option V -> Z -> A -> outcome (A * bool)) l acc :
  Forall (fun nd => forall a, exists r, walker (nk nd) (nv nd) (nexpireAt nd) a = Ret r) l -> exists a, walk_list walker l acc = Ret a.
Proof.
  intros Hl. revert acc. induction Hl as [| nd l Hnd _ IH]; intros acc; cbn [walk_list]; [eauto |].
  destruct (Hnd acc) as [[a go] ->]. cbn [obind]. destruct go; [apply IH | eauto].
Qed.

Lemma walk_list_listing {A} (g : Entry -> A -> A) level l acc :
  Forall (fun nd => is_Some (nv nd)) l ->
  walk_list (fun key value e acc => let! e := store_entry key value e level in Ret (g e acc, true)) l acc
    = Ret (foldl (fun a e => g e a) acc (omap (entry_of level) l)).
Proof.
  intros Hl. revert acc. induction Hl as [| nd l [v Hv] _ IH]; intros acc; cbn [walk_list]; [done |].
  unfold store_entry at 1. rewrite Hv. cbn [obind]. rewrite IH. simpl. unfold entry_of at 2. by rewrite Hv.
Qed.

Lemma bucket_walk_total {A} cap0 cap1 (fn : Entry -> A -> A * bool) b l0 l1 acc :
  bucket_ok cap0 cap1 b l0 l1 -> Forall (fun nd => is_Some (nv nd)) (l0 ++ l1) -> exists a, bucket_walk fn b acc = Ret a.
Proof.
  intros [H0 H1 _] [Hv0 Hv1]%Forall_app. unfold bucket_walk. rewrite (walk_spec _ _ _ _ _ H1).
  match goal with |- context [walk_list ?w l1 ?x] => destruct (walk_list_total w l1 x) as [[seen a] ->] end.
  { eapply Forall_impl; [exact Hv1 |]. intros nd [v Hv] [seen a]. unfold store_entry. rewrite Hv. cbn [obind]. destruct (fn _ a). eauto. }
  cbn [obind]. rewrite (walk_spec _ _ _ _ _ H0). apply walk_list_total. eapply Forall_impl; [exact Hv0 |].
  intros nd [v Hv] a'. case_decide; [eauto |]. unfold store_entry. rewrite Hv. cbn [obind]. eauto.
Qed.

(** Keys of the first level that the second has not shown are all of them. *)
Lemma walk_list_unseen {A} (w : string -> option V -> Z -> A -> outcome (A * bool)) (seen : gset string) l acc :
  (forall nd, nd ∈ l -> nk nd ∉ seen) ->
  walk_list (fun key value e acc => if decide (key ∈ seen) then Ret (acc, true) else w key value e acc) l acc = walk_list w l acc.
Proof.
  revert acc. induction l as [| nd l IH]; intros acc Hl; cbn [walk_list]; [done |]. rewrite decide_False by (apply Hl; left).
  destruct (w _ _ _ acc) as [[a []] |]; cbn [obind]; try done. apply IH. intros nd' Hnd'. apply Hl. by right.
Qed.

Lemma walk_list_pair {A B} (f : string -> B -> B) (w : string -> option V -> Z -> A -> outcome (A * bool)) l (b : B) acc a :
  Forall (fun nd => forall a r, w (nk nd) (nv nd) (nexpireAt nd) a = Ret r -> r.2 = true) l ->
  walk_list w l acc = Ret a ->
  walk_list (fun key value e '(b, acc) => let! r := w key value e acc in Ret ((f key b, r.1), r.2)) l (b, acc)
    = Ret (foldl (fun b nd => f (nk nd) b) b l, a).
Proof.
  intros Hl. revert b acc. induction Hl as [| nd l Hnd _ IH]; intros b acc; cbn [walk_list]; [by intros [= ->] |].
  destruct (w _ _ _ acc) as [r |] eqn:Hr; [| done]. specialize (Hnd acc r Hr). destruct r as [a' go]. simpl in Hnd. subst go.
  cbn [obind fst snd foldl]. apply IH.
Qed.

Lemma seen_keys l (b : gset string) x : x ∈ foldl (fun b nd => {[nk nd]} ∪ b) b l -> x ∈ b \/ x ∈ keys l.
Proof.
  revert b. induction l as [| nd l IH]; intros b; simpl; [tauto |]. intros [Hx | Hx]%IH; set_solver.
Qed.

Lemma bucket_walk_listing {A} cap0 cap1 (g : Entry -> A -> A) b l0 l1 acc :
  bucket_ok cap0 cap1 b l0 l1 -> Forall (fun nd => is_Some (nv nd)) (l0 ++ l1) ->
  bucket_walk (fun e acc => (g e acc, true)) b acc = Ret (foldl (fun a e => g e a) acc (bucket_entries (l0, l1))).
Proof.
  intros [H0 H1 Hdis] [Hv0 Hv1]%Forall_app. unfold bucket_walk, bucket_entries. cbn [fst snd]. rewrite foldl_app, (walk_spec _ _ _ _ _ H1).
  pose proof (walk_list_pair (fun key (seen : gset string) => {[key]} ∪ seen)
    (fun key value e acc => let! e := store_entry key value e 1 in Ret (g e acc, true)) l1 ∅ acc _
    ltac:(apply Forall_forall; intros nd _ a r; unfold store_entry; destruct (nv nd); [by intros [= <-] | done])
    (walk_list_listing g 1 l1 acc Hv1)) as Hp.
  match type of Hp with walk_list ?w _ _ = _ => match goal with |- context [walk_list ?w' l1 _] =>
    assert (Hw : forall l x, walk_list w' l x = walk_list w l x) end end.
  { induction l as [| nd l IH]; intros [seen a]; cbn [walk_list]; [done |]. unfold store_entry. destruct (nv nd); [apply IH | done]. }
  rewrite Hw, Hp. cbn [obind]. rewrite (walk_spec _ _ _ _ _ H0), walk_list_unseen; [by apply walk_list_listing |].
  intros nd Hnd [Hx | Hx]%seen_keys; [set_solver |]. apply (Hdis (nk nd)); [apply list_elem_of_fmap; eauto | done].
Qed.

Lemma Walk_total {A} s cap0 cap1 cs (fn : Entry -> A -> A * bool) acc :
  store_ok s cap0 cap1 cs -> valued cs -> exists a, Walk fn s acc = Ret a.
Proof.
  intros [Hb _ _] Hv. unfold Walk. clear -vlen_nonneg Hb Hv. revert acc. induction Hb as [| b ls bs cs [Hx _] _ IH]; intros acc; cbn [ofold]; [eauto |].
  apply Forall_cons in Hv as [Hls Hv]. destruct (bucket_walk_total _ _ fn b ls.1 ls.2 acc Hx Hls) as [a ->]. cbn [obind]. by apply IH.
Qed.
Lemma Walk_listing {A} s cap0 cap1 cs (g : Entry -> A -> A) acc :
  store_ok s cap0 cap1 cs -> valued cs ->
  Walk (fun e acc => (g e acc, true)) s acc = Ret (foldl (fun a e => g e a) acc (concat (bucket_entries <$> cs))).
Proof.
  intros [Hb _ _] Hv. unfold Walk. clear -vlen_nonneg Hb Hv. revert acc. induction Hb as [| b ls bs cs [Hx _] _ IH]; intros acc; cbn [ofold]; [done |].
  apply Forall_cons in Hv as [Hls Hv]. rewrite (bucket_walk_listing _ _ g b ls.1 ls.2 acc Hx Hls). cbn [obind fmap list_fmap concat].
  rewrite foldl_app. destruct ls. by apply IH.
Qed.

End Store.

(** ** The number of buckets
    The number of buckets of the local store: [maskOfNextPowOf2] of
    [swifty_cache/lru.go] on every 16-bit count. *)
Lemma pow2_of_land m : 0 <= m -> Z.land (m + 1) m = 0 -> exists k, 0 <= k /\ m + 1 = 2 ^ k.
Proof.
  intros Hm Hl. exists (Z.log2 (m + 1)). split; [apply Z.log2_nonneg |].
  destruct (Z.log2_spec (m + 1)) as [Hlo Hhi]; [lia |]. set (k := Z.log2 (m + 1)) in *.
  assert (Hk : 0 <= k) by apply Z.log2_nonneg.
  destruct (decide (m + 1 = 2 ^ k)) as [| Hne]; [done |]. exfalso.
  assert (Hb1 : Z.testbit (m + 1) k = true) by (apply Z.bit_log2; lia).
  assert (Hb2 : Z.testbit m k = true).
  { replace k with (Z.log2 m); [apply Z.bit_log2; pose proof (Z.pow_pos_nonneg 2 k); lia |].
    apply Z.log2_unique; lia. }
  assert (Hb : Z.testbit (Z.land (m + 1) m) k = true) by (by rewrite Z.land_spec, Hb1, Hb2).
  by rewrite Hl, Z.bits_0 in Hb.
Qed.

(** [m] is [c] with every bit copied to the [w - 1] positions below it. *)
Definition smeared (w c m : Z) : Prop :=
  forall i, 0 <= i -> Z.testbit m i = true <-> exists d, 0 <= d < w /\ Z.testbit c (i + d) = true.

Lemma smeared_1 c : smeared 1 c c.
Proof.
  intros i Hi. split.
  - intros Hb. exists 0. by rewrite Z.add_0_r.
  - intros (d & Hd & Hb). by replace (i + d) with i in Hb by lia.
Qed.

Lemma smeared_double w c m : 0 < w -> smeared w c m -> smeared (2 * w) c (Z.lor m (Z.shiftr m w)).
Proof.
  intros Hw Hm i Hi. rewrite Z.lor_spec, Z.shiftr_spec, orb_true_iff, (Hm i), (Hm (i + w)) by lia. split.
  - intros [(d & Hd & Hb) | (d & Hd & Hb)]; [exists d | exists (w + d)]; (split; [lia |]); [done |].
    by rewrite Z.add_assoc.
  - intros (d & Hd & Hb). destruct (decide (d < w)); [left; exists d | right; exists (d - w)]; (split; [lia |]); [done |].
    by replace (i + w + (d - w)) with (i + d) by lia.
Qed.

Lemma smeared_16 c m : 0 < c < 2 ^ 16 -> smeared 16 c m -> m = 2 ^ (Z.log2 c + 1) - 1.
Proof.
  intros Hc Hm. pose proof (Z.log2_nonneg c) as H0.
  assert (H1 : Z.log2 c <= 15).
  { destruct (Z.log2_lt_pow2 c 16) as [Hlt _]; [lia |]. specialize (Hlt ltac:(lia)). lia. }
  rewrite Z.sub_1_r, <- Z.ones_equiv. apply Z.bits_inj'. intros i Hi.
  rewrite Z.testbit_ones_nonneg by lia. apply eq_true_iff_eq. rewrite (Hm i Hi), Z.ltb_lt. split.
  - intros (d & Hd & Hb). destruct (decide (i < Z.log2 c + 1)); [done |]. by rewrite Z.bits_above_log2 in Hb by lia.
  - intros Hlt. exists (Z.log2 c - i). split; [lia |]. replace (i + (Z.log2 c - i)) with (Z.log2 c) by lia.
    apply Z.bit_log2. lia.
Qed.

Lemma mask_cases c :
  0 < c < 2 ^ 16 ->
  (exists k, 0 <= k /\ c = 2 ^ k /\ MaskOfNextPowOf2 c = c - 1)
  \/ ((forall k, 0 <= k -> c <> 2 ^ k) /\ MaskOfNextPowOf2 c = 2 ^ (Z.log2 c + 1) - 1).
Proof.
  intros Hc. unfold MaskOfNextPowOf2. rewrite u16_id by lia. destruct (decide _) as [[_ Hl] | Hn].
  - left. destruct (pow2_of_land (c - 1)) as (k & Hk & He); [lia | by rewrite Z.sub_add |]. exists k. lia.
  - right. split.
    + intros k Hk ->. apply Hn. split; [lia |]. rewrite Z.sub_1_r, <- Z.ones_equiv, Z.land_ones by done.
      by apply Z.mod_same, Z.pow_nonzero.
    + apply smeared_16; [done |].
      apply (smeared_double 8), (smeared_double 4), (smeared_double 2), (smeared_double 1), smeared_1; lia.
Qed.

Lemma mask_spec c :
  1 <= c <= 2 ^ 15 ->
  exists k, 0 <= k <= 15 /\ MaskOfNextPowOf2 c = 2 ^ k - 1 /\ c <= 2 ^ k < 2 * c + 1.
Proof.
  intros Hc. destruct (mask_cases c) as [(k & Hk & -> & ->) | [Hne ->]]; [lia | |].
  - exists k. assert (k <= 15) by (apply (Z.pow_le_mono_r_iff 2); lia). lia.
  - pose proof (Z.log2_nonneg c). destruct (Z.log2_spec c) as [Hlo Hhi]; [lia |].
    pose proof (Hne 15 ltac:(done)). pose proof (Z.log2_lt_pow2 c 15 ltac:(lia)).
    exists (Z.log2 c + 1). rewrite Z.pow_succ_r in Hhi by done. rewrite Z.pow_add_r by lia. lia.
Qed.

Lemma mask_overflow c : 2 ^ 15 < c < 2 ^ 16 -> MaskOfNextPowOf2 c = 2 ^ 16 - 1.
Proof.
  intros Hc. assert (Hl : Z.log2 c = 15) by (apply Z.log2_unique; lia).
  destruct (mask_cases c) as [(k & Hk & -> & _) | [_ ->]]; [lia | | by rewrite Hl].
  rewrite Z.log2_pow2 in Hl by done. subst k. lia.
Qed.

(** Construction: empty, well formed, with the next power of two buckets. *)
Lemma NewStore_ok {V} {HV : Sized V} (opts : StoreOptions) :
  0 < BucketCount opts <= 2 ^ 15 -> 0 < CapPerBucket opts < 2 ^ 16 - 1 -> 0 < Level2Cap opts < 2 ^ 16 - 1 ->
  MaxBytes opts < 2 ^ 63 ->
  exists s cs, NewStore (V := V) opts = Ret s /\ store_ok s (CapPerBucket opts) (Level2Cap opts) cs
    /\ Forall (fun ls => ls = ([], [])) cs /\ BucketCount opts <= zlen (caches s) < 2 * BucketCount opts + 1
    /\ maxBucketBytes s <= Z.max 1 (MaxBytes opts).
Proof.
  intros Hbc H0 H1 Hmax. unfold NewStore.
  rewrite (decide_False (P := BucketCount opts = 0)), (decide_False (P := CapPerBucket opts = 0)),
    (decide_False (P := Level2Cap opts = 0)) by lia.
  destruct (mask_spec (BucketCount opts)) as (k & Hk & -> & Hb); [lia |].
  assert (Hpow : 2 ^ k <= 2 ^ 15) by (apply Z.pow_le_mono_r; lia).
  assert (Hpos : 0 < 2 ^ k) by lia.
  assert (Hu : u16 (2 ^ k - 1 + 1) = 2 ^ k) by (rewrite u16_id; lia). rewrite Hu.
  set (m := if decide (0 < MaxBytes opts) then if decide (Z.quot (MaxBytes opts) (2 ^ k) <= 0) then 1 else Z.quot (MaxBytes opts) (2 ^ k) else 0).
  assert (Hm : (if decide (0 < MaxBytes opts) then
    if decide (2 ^ k = 0) then Panic "integer divide by zero"
    else Ret (if decide (Z.quot (MaxBytes opts) (2 ^ k) <= 0) then 1 else Z.quot (MaxBytes opts) (2 ^ k))
    else Ret 0) = Ret m).
  { subst m. case_decide; [| done]. by rewrite decide_False by lia. }
  rewrite Hm. cbn [obind].
  assert (Hmr : 0 <= m <= Z.max 1 (MaxBytes opts)).
  { clear Hm. subst m. destruct (decide (0 < MaxBytes opts)) as [Hp |]; [| lia].
    assert (Hq : Z.quot (MaxBytes opts) (2 ^ k) <= MaxBytes opts) by (apply Z.quot_le_upper_bound; nia).
    destruct (decide (Z.quot (MaxBytes opts) (2 ^ k) <= 0)); lia. }
  eexists _, (replicate (Z.to_nat (2 ^ k)) ([], [])). split; [done |]. split_and!.
  - constructor; simpl; [| lia |].
    + apply Forall2_replicate. split; [| intros _; simpl; lia]. split; simpl; try (apply Create_spec; lia).
      intros x Hx. by apply not_elem_of_nil in Hx.
    + exists k. unfold zlen. rewrite length_replicate. lia.
  - by apply Forall_replicate.
  - simpl. unfold zlen. rewrite length_replicate. lia.
  - simpl. unfold zlen. rewrite length_replicate. lia.
  - simpl. lia.
Qed.

(** ** Theorems
    What the local store guarantees to its users: the properties of
    [swifty_cache/lru.go], on top of [LruStoreSafety]. *)
Section Theorems.
  Context {V : Type} {HV : Sized V} {HK : KeyOrder}.
  Hypothesis vlen_nonneg : forall v : V, 0 <= vlen v.

(** ** Construction *)

(** A store of up to 32768 buckets starts empty and well formed, with the
    next power of two buckets; above that the 16-bit [mask+1] wraps to zero:
    with a byte budget the constructor divides by it, and without one the
    store has no bucket and every [Get] is out of range. *)
Theorem NewStore_bucket_counts (opts : StoreOptions) :
  0 < BucketCount opts < 2 ^ 16 -> 0 < CapPerBucket opts < 2 ^ 16 - 1 -> 0 < Level2Cap opts < 2 ^ 16 - 1 ->
  MaxBytes opts < 2 ^ 63 ->
  (BucketCount opts <= 2 ^ 15 ->
     exists s cs, NewStore (V := V) opts = Ret s /\ store_ok s (CapPerBucket opts) (Level2Cap opts) cs
       /\ Forall (fun ls => ls = ([], [])) cs /\ BucketCount opts <= zlen (caches s) < 2 * BucketCount opts + 1)
  /\ (2 ^ 15 < BucketCount opts ->
     if decide (0 < MaxBytes opts) then NewStore (V := V) opts = Panic "integer divide by zero"
     else exists s, NewStore (V := V) opts = Ret s
       /\ forall now k, Get now s k = Panic "index out of range").
Proof.
  intros Hbc H0 H1 Hmax. split.
  - intros Hle. destruct (NewStore_ok (V := V) opts) as (s & cs & Hs & Hok & He & Hb & _); [lia.. |]. by exists s, cs.
  - intros Hgt. unfold NewStore.
    rewrite (decide_False (P := BucketCount opts = 0)), (decide_False (P := CapPerBucket opts = 0)),
      (decide_False (P := Level2Cap opts = 0)), mask_overflow by lia.
    change (u16 (2 ^ 16 - 1 + 1)) with 0. case_decide; [done |]. cbn [obind].
    eexists. split; [done |]. intros now k. unfold Get, with_bucket, index. simpl. by case_decide.
Qed.

(** ** Writing and reading back *)

(** A key just set is read back, until it expires, exactly when it fits in
    the bucket's budget beside the promoted entries; when the second level
    alone leaves no room for it, [SetWithExpiration] evicts the entry it has
    just written. *)
Theorem set_then_get s cap0 cap1 cs now now' k v expiration :
  store_ok s cap0 cap1 cs -> settable s now k v expiration -> now' < expiry now expiration ->
  let promoted := remove k (home s cs k).2 in
  exists s1 evs1 s2 evs2,
    SetWithExpiration now s k v expiration = Ret (s1, evs1)
    /\ Get now' s1 k = Ret (s2, (if decide (maxBucketBytes s = 0 \/ entryBytes k v + total promoted <= maxBucketBytes s)
                                 then Some v else None, evs2)).
Proof.
  intros Hok Hset Hnow promoted. pose proof (set_step vlen_nonneg s cap0 cap1 cs now k v expiration Hok Hset) as Hs.
  subst promoted. destruct (home_shard s cap0 cap1 cs k Hok) as (b & [Hb _]).
  destruct (home s cs k) as [l0 l1] eqn:Hhome. simpl in Hs, Hb. cbn [snd].
  destruct Hs as (s1 & evs1 & Hset1 & Hm & Hmask & Hok1).
  pose proof (get_step vlen_nonneg s1 cap0 cap1 _ now' k Hok1) as Hg.
  set (r := spec_set cap0 (maxBucketBytes s) k v (expiry now expiration) l0 l1) in *.
  set (nd := mkNode k v (expiry now expiration)) in *.
  assert (Hhome1 : home s1 (<[Z.to_nat (bucket_index s k) := r]> cs) k = r).
  { unfold home, bucket_index. rewrite Hmask. rewrite list_lookup_insert_eq; [done |].
    pose proof (bucket_index_range s cap0 cap1 cs k Hok). pose proof (Forall2_length _ _ _ (sk_buckets _ _ _ _ Hok)).
    unfold bucket_index, zlen in *. lia. }
  rewrite Hhome1 in Hg.
  assert (Hput : exists l0', (lru_put cap0 k v (expiry now expiration) l0).1 = nd :: l0').
  { unfold lru_put. repeat case_decide; eauto. }
  destruct Hput as (l0' & Hput).
  assert (Hr : if decide (maxBucketBytes s = 0 \/ entryBytes k v + total (remove k l1) <= maxBucketBytes s)
    then exists rest l1', r = (nd :: rest, l1') else exists l1', r = ([], l1') /\ k ∉ nk <$> l1').
  { subst r. unfold spec_set, spec_fit. rewrite Hput. pose proof (sk_max _ _ _ _ Hok) as Hmx.
    destruct (decide (0 < maxBucketBytes s)) as [Hpos | Hpos].
    - pose proof (cut_front vlen_nonneg (length (nd :: l0') + length (remove k l1)) (maxBucketBytes s) nd l0' (remove k l1)) as Hc.
      change (node_size nd) with (entryBytes k v) in Hc.
      destruct (decide (entryBytes k v + total (remove k l1) <= maxBucketBytes s)) as [Hfit | Hfit].
      + rewrite decide_True by auto. destruct Hc as (rest & ->); [lia | lia |]. eauto.
      + rewrite decide_False by lia. destruct Hc as (l1' & -> & Hk); [lia | lia |]. exists l1'. split; [done |].
        intros Hin%Hk%keys_remove. tauto.
    - rewrite decide_True by lia. eauto. }
  destruct r as [m0 m1]. exists s1, evs1.
  destruct (decide (maxBucketBytes s = 0 \/ entryBytes k v + total (remove k l1) <= maxBucketBytes s)).
  - destruct Hr as (rest & l1' & [= -> ->]). unfold spec_get in Hg. cbn [find_key nd nk] in Hg.
    rewrite decide_True in Hg by done. change (nexpireAt nd) with (expiry now expiration) in Hg.
    rewrite decide_False in Hg by lia. change (nv nd) with v in Hg.
    destruct Hg as (s2 & Hg & _). exists s2. eexists. split; [done | exact Hg].
  - destruct Hr as (l1' & [= -> ->] & Hk). unfold spec_get in Hg. cbn [find_key] in Hg.
    apply find_key_none in Hk. rewrite Hk in Hg. destruct Hg as (s2 & Hg & _). exists s2. eexists. split; [done | exact Hg].
Qed.

Lemma foldl_snoc_all {A} (es acc : list A) : foldl (fun a e => a ++ [e]) acc es = acc ++ es.
Proof. revert acc. induction es as [| e es IH]; intros acc; simpl; [by rewrite app_nil_r |]. by rewrite IH, <- (assoc app). Qed.

(** ** Any sequence of calls *)

(** C23: from a well-formed store no sequence of [Get], [Set],
    [SetWithExpiration], [Delete], [Clear] and cleanup ticks panics, if no
    expiration overflows the clock and no entry is so large that the count of
    bytes would overflow. Each time the two levels are well formed and disjoint
    and every bucket is within its byte budget; [Len] counts the live entries;
    and [Walk] never panics, whatever its function answers, and shows a function
    that always goes on each live entry once, unless a nil value is stored. *)
Theorem store_calls_safe s cap0 cap1 cs os :
  store_ok s cap0 cap1 cs -> Forall (call_ok s) os ->
  exists s' cs', apply_calls s os = Ret s' /\ store_ok s' cap0 cap1 cs'
    /\ Len s' = Ret (foldr (fun ls n => zlen ls.1 + zlen ls.2 + n) 0 cs')
    /\ (valued cs' -> Walk (fun e es => (es ++ [e], true)) s' [] = Ret (concat (bucket_entries <$> cs'))
          /\ forall A (fn : Entry -> A -> A * bool) acc, exists a, Walk fn s' acc = Ret a).
Proof.
  intros Hok Hos. revert s cs Hok Hos. induction os as [| o os IH]; intros s cs Hok Hos; cbn [apply_calls].
  - exists s, cs. split; [done |]. split; [done |]. split; [by apply (Len_spec vlen_nonneg s cap0 cap1) |]. intros Hv.
    split; [| intros A fn acc; by apply (Walk_total s cap0 cap1 cs)]. rewrite (Walk_listing vlen_nonneg s cap0 cap1 cs (fun e es => es ++ [e])) by done.
    by rewrite foldl_snoc_all.
  - apply Forall_cons in Hos as [Ho Hos].
    destruct (call_step vlen_nonneg s cap0 cap1 cs o Hok Ho) as (s1 & cs1 & -> & Hok1 & Hm). cbn [obind].
    apply (IH s1 cs1 Hok1). eapply Forall_impl; [exact Hos |]. intros o' Ho'. destruct o'; [done | | done..].
    unfold call_ok, settable in *. by rewrite Hm.
Qed.

(** ** One level *)

(** C10: the slot machinery of a level is a least-recently-used list: [put]
    inserts at the front and, when every slot is live, evicts exactly the last
    entry; [evictOldest] removes the last entry; [drop] removes the key; all
    keep the representation. *)
Theorem level_is_lru (c : cache V) cap l k v e :
  cache_ok c cap l -> 0 < e ->
  (exists c' r, put c k v e = Ret (c', r, (lru_put cap k v e l).2) /\ cache_ok c' cap (lru_put cap k v e l).1)
  /\ (exists c', evictOldest c = Ret (c', bool_decide (l <> []), match last l with Some nd => [(nk nd, nv nd)] | None => [] end)
        /\ cache_ok c' cap (removelast l))
  /\ (exists c', drop_key c k = Ret c' /\ cache_ok c' cap (remove k l))
  /\ NoDup (nk <$> l) /\ zlen l <= cap.
Proof.
  intros Hc He. split_and!.
  - by apply put_spec.
  - by apply evictOldest_spec.
  - by apply drop_spec.
  - by eapply cache_keys.
  - by eapply cache_fits.
Qed.

End Theorems.

(** ** Witnesses *)

Lemma ByteView_Len_nonneg (v : ByteView) : 0 <= vlen v.
Proof. apply zlen_nonneg. Qed.

(** A store of one bucket with two slots in each level and 8 bytes. *)
Definition sample_store : lruStore ByteView :=
  mkLruStore [(Create 2, Create 2)] 8 0.

Lemma sample_store_ok : store_ok sample_store 2 2 [([], [])].
Proof.
  constructor; simpl.
  - constructor; [| constructor]. split; [| intros _; simpl; lia].
    split; simpl; try (apply Create_spec; lia). intros x Hx. by apply not_elem_of_nil in Hx.
  - lia.
  - exists 0. split_and!; reflexivity || lia.
Qed.

Definition sample_value : option ByteView := Some (mkByteView [1; 2]).

Lemma sample_settable : settable sample_store 100 "k" sample_value 10.
Proof. split; reflexivity. Qed.

Lemma NewStore_bucket_counts_witness :
  exists s cs, @NewStore ByteView (mkStoreOptions 4096 5 2 2) = Ret s
    /\ @store_ok ByteView ByteView_Len s 2 2 cs
    /\ Forall (fun ls => ls = ([], [])) cs /\ 5 <= zlen (caches s) < 11.
Proof.
  apply (@NewStore_bucket_counts ByteView ByteView_Len (mkStoreOptions 4096 5 2 2)); simpl; lia.
Defined.

Lemma set_then_get_witness :
  exists s1 evs1 s2 evs2,
    @SetWithExpiration ByteView ByteView_Len 100 sample_store "k" sample_value 10 = Ret (s1, evs1)
    /\ @Get ByteView ByteView_Len 105 s1 "k" = Ret (s2, (Some sample_value, evs2)).
Proof.
  apply (@set_then_get ByteView ByteView_Len ByteView_Len_nonneg sample_store 2 2 [([], [])]
    100 105 "k" sample_value 10); [exact sample_store_ok | exact sample_settable | reflexivity].
Defined.

Lemma store_calls_safe_witness :
  exists s' cs', @apply_calls ByteView ByteView_Len canonical_keys sample_store
      [CSet 100 "k" sample_value 10; CGet 105 "k"; CDelete "k"; CSweep 200; CClear] = Ret s'
    /\ @store_ok ByteView ByteView_Len s' 2 2 cs'
    /\ Len s' = Ret (foldr (fun ls n => zlen ls.1 + zlen ls.2 + n) 0 cs')
    /\ (valued cs' -> Walk (fun e es => (es ++ [e], true)) s' [] = Ret (concat (bucket_entries <$> cs'))
          /\ forall A (fn : Entry -> A -> A * bool) acc, exists a, Walk fn s' acc = Ret a).
Proof.
  apply (@store_calls_safe ByteView ByteView_Len canonical_keys ByteView_Len_nonneg sample_store 2 2 [([], [])]);
    [exact sample_store_ok | repeat constructor].
Defined.

(** ** Outside those conditions *)

#[local] Existing Instance canonical_keys.

(** An expiration that overflows the clock makes a slot that is dead from the
    start and counted again by every later [Set] of its key: with a budget of
    eight bytes three calls leave nine, and then nothing new is kept. *)
Lemma overflowing_expiration_fills_budget :
  let forever := CSet 100 "k" sample_value (2 ^ 63 - 1) in
  match apply_calls sample_store [forever; forever; forever] with
  | Ret s => Len s = Ret 0 /\ Bytes s = 9 /\ match apply_call s (CSet 100 "a" sample_value 10) with Ret s => Len s = Ret 0 | Panic _ => False end
  | Panic _ => False
  end.
Proof. vm_compute. tauto. Qed.

(** [Walk] asks a stored value for its length without looking whether it is nil. *)
Lemma walk_panics_on_nil_value :
  match apply_calls sample_store [CSet 100 "k" None 0] with
  | Ret s => exists why, Walk (fun e es => (es ++ [e], true)) s [] = Panic why
  | Panic _ => False
  end.
Proof. vm_compute. eauto. Qed.

Lemma level_is_lru_witness :
  exists c' r, put (Create 2) "k" sample_value 110 = Ret (c', r, []) /\ cache_ok c' 2 [mkNode "k" sample_value 110].
Proof.
  apply (@level_is_lru ByteView ByteView_Len (Create 2) 2 [] "k" sample_value 110);
    [apply Create_spec; lia | lia].
Defined.
