(* ===== verification/HashRing.v ===== *)
(** * HashRing
    The consistent hash ring of [swifty_cache/consistent_hash.go] and
    [config.go]: members own the arcs that end at their virtual nodes.

    [HashFunc] is a field of the configuration, so every statement is about an
    arbitrary hash. The lock is not modelled: each exported operation holds it
    from start to end. [GetStats] only divides two counters as floats and the
    deprecated fields of the configuration are never read; both are left out. *)
From stdpp Require Import pretty.
From S2P Require Import Prelude.

(** ** [sort.Search] *)

Fixpoint search_loop (fuel : nat) (f : Z -> outcome bool) (i j : Z) : outcome Z :=
  match fuel with
  | O => Ret i
  | S fuel =>
      if decide (i < j) then
        let h := (i + j) / 2 in
        let! b := f h in
        if b then search_loop fuel f i h else search_loop fuel f (h + 1) j
      else Ret i
  end.
Definition Search (n : Z) (f : Z -> outcome bool) : outcome Z := search_loop (Z.to_nat n) f 0 n.

(** Every round at least halves the range: fuel [j - i] is enough. *)
Lemma search_loop_spec fuel (f : Z -> outcome bool) (q : Z -> bool) i j :
  0 <= i <= j -> (Z.to_nat (j - i) <= fuel)%nat -> (forall h, i <= h < j -> f h = Ret (q h)) ->
  (forall a b, i <= a <= b -> b < j -> q a = true -> q b = true) ->
  exists k, search_loop fuel f i j = Ret k /\ i <= k <= j
    /\ (forall h, i <= h < k -> q h = false) /\ (forall h, k <= h < j -> q h = true).
Proof.
  revert i j. induction fuel as [| fuel IH]; intros i j Hij Hfuel Hf Hmono; simpl.
  - exists i. split_and!; [done | lia | lia | intros; lia | intros; lia].
  - destruct (decide (i < j)) as [Hlt |]; [| exists i; split_and!; [done | lia | lia | intros; lia | intros; lia]].
    set (h := (i + j) / 2). assert (Hh : i <= h < j) by (subst h; split; [apply Z.div_le_lower_bound | apply Z.div_lt_upper_bound]; lia).
    rewrite (Hf h Hh). simpl. destruct (q h) eqn:Hq.
    + destruct (IH i h) as (k & Hk & Hr & Hlo & Hhi); [lia | lia | intros; apply Hf; lia | intros a b ? ?; apply Hmono; lia |].
      exists k. split_and!; [done | lia | lia | done |]. intros x Hx. destruct (decide (x < h)); [apply Hhi; lia |].
      apply (Hmono h x); [lia | lia | done].
    + destruct (IH (h + 1) j) as (k & Hk & Hr & Hlo & Hhi); [lia | lia | intros; apply Hf; lia | intros a b ? ?; apply Hmono; lia |].
      exists k. split_and!; [done | lia | lia | | done]. intros x Hx. destruct (decide (h < x)); [apply Hlo; lia |].
      destruct (q x) eqn:Hx'; [| done]. rewrite <- Hq. symmetry. apply (Hmono x h); [lia | lia | done].
Qed.

Lemma Search_spec n (f : Z -> outcome bool) (q : Z -> bool) :
  0 <= n -> (forall h, 0 <= h < n -> f h = Ret (q h)) ->
  (forall a b, 0 <= a <= b -> b < n -> q a = true -> q b = true) ->
  exists k, Search n f = Ret k /\ 0 <= k <= n
    /\ (forall h, 0 <= h < k -> q h = false) /\ (forall h, k <= h < n -> q h = true).
Proof. intros. apply search_loop_spec; auto with lia. Qed.

(** ** State *)

Record ConHashConfig := mkConHashConfig {
  DefaultReplicas : Z;
  HashFunc : string -> Z;
}.

Record ConsistentHashMap := mkRing {
  config : ConHashConfig;
  keys : list Z;
  hashMap : gmap Z string;
  nodeHashes : gmap string (list Z);
  nodeCounts : gmap string Z;
  totalRequests : Z;
}.
#[export] Instance ring_eta : Eta ConsistentHashMap := fun m =>
  mkRing (config m) (keys m) (hashMap m) (nodeHashes m) (nodeCounts m) (totalRequests m).

Definition NewConsistentHash (c : ConHashConfig) : ConsistentHashMap := mkRing c [] ∅ ∅ ∅ 0.

(** ** Operations *)

(** [fmt.Appendf(nil, "%s-%d", node, i)] *)
Definition vnode (node : string) (i : Z) : string := (node ++ "-" ++ pretty i)%string.

Definition addVnode (node : string) (st : ConsistentHashMap * list Z) (i : Z) : ConsistentHashMap * list Z :=
  let '(m, hashes) := st in
  let hash := HashFunc (config m) (vnode node i) in
  match hashMap m !! hash with
  | Some _ => (m, hashes)
  | None => (m <| keys := keys m ++ [hash] |> <| hashMap := <[hash := node]> (hashMap m) |>, hashes ++ [hash])
  end.

Definition addNodeLocked (m : ConsistentHashMap) (node : string) (replicas : Z) : outcome ConsistentHashMap :=
  match nodeHashes m !! node with
  | Some _ => Ret m
  | None =>
      if decide (replicas < 0) then Panic "makeslice: cap out of range" else
      let '(m, hashes) := fold_left (addVnode node) (seqZ 0 replicas) (m, []) in
      let m := m <| nodeHashes := <[node := hashes]> (nodeHashes m) |> in
      match nodeCounts m !! node with
      | Some _ => Ret m
      | None => Ret (m <| nodeCounts := <[node := 0]> (nodeCounts m) |>)
      end
  end.

Definition Add (m : ConsistentHashMap) (nodes : list string) : outcome (ConsistentHashMap * result string unit) :=
  if decide (nodes = []) then Ret (m, Err "no nodes provided"%string) else
  let! m := ofold (fun node m => if decide (node = EmptyString) then Ret m
                                 else addNodeLocked m node (DefaultReplicas (config m))) nodes m in
  Ret (m <| keys := merge_sort Z.le (keys m) |>, Ok tt).

Definition removeNodeLocked (m : ConsistentHashMap) (node : string) : ConsistentHashMap * result string unit :=
  match nodeHashes m !! node with
  | None => (m, Err ("node " ++ node ++ " not found")%string)
  | Some hashes =>
      (m <| hashMap := foldr delete (hashMap m) hashes |>
         <| keys := filter (fun k => k ∉ hashes) (keys m) |>
         <| nodeHashes := delete node (nodeHashes m) |>
         <| nodeCounts := delete node (nodeCounts m) |>, Ok tt)
  end.

Definition Remove (m : ConsistentHashMap) (node : string) : ConsistentHashMap * result string unit :=
  if decide (node = EmptyString) then (m, Err "invalid node"%string) else removeNodeLocked m node.

Definition Get (m : ConsistentHashMap) (key : string) : outcome (ConsistentHashMap * string) :=
  if decide (key = EmptyString) then Ret (m, EmptyString) else
  if decide (zlen (keys m) = 0) then Ret (m, EmptyString) else
  let hash := HashFunc (config m) key in
  let! idx := Search (zlen (keys m)) (fun i => let! k := index (keys m) i in Ret (bool_decide (hash <= k))) in
  let idx := if decide (idx = zlen (keys m)) then 0 else idx in
  let! k := index (keys m) idx in
  let node := default EmptyString (hashMap m !! k) in
  let m := match nodeCounts m !! node with
           | Some counter => m <| nodeCounts := <[node := i64 (counter + 1)]> (nodeCounts m) |>
           | None => m
           end in
  Ret (m <| totalRequests := i64 (totalRequests m + 1) |>, node).

(** ** Well-formed rings *)

Record ring_wf (m : ConsistentHashMap) : Prop := {
  wf_nodup : NoDup (keys m);
  wf_keys : forall h, h ∈ keys m <-> is_Some (hashMap m !! h);
  wf_owner : forall h nd, hashMap m !! h = Some nd <-> exists hs, nodeHashes m !! nd = Some hs /\ h ∈ hs;
  wf_counts : forall nd, is_Some (nodeCounts m !! nd) <-> is_Some (nodeHashes m !! nd);
  wf_named : nodeHashes m !! EmptyString = None;
}.

Definition ring_ok (m : ConsistentHashMap) : Prop := ring_wf m /\ StronglySorted Z.le (keys m).

(** The ring with [new] as the virtual nodes of a new member. *)
Definition extend (m : ConsistentHashMap) (node : string) (new : list Z) : ConsistentHashMap :=
  mkRing (config m) (keys m ++ new) (foldr (fun h => <[h := node]>) (hashMap m) new)
    (<[node := new]> (nodeHashes m)) (<[node := 0]> (nodeCounts m)) (totalRequests m).

Definition sorted (m : ConsistentHashMap) : ConsistentHashMap := m <| keys := merge_sort Z.le (keys m) |>.

Lemma lookup_foldr_insert (m : gmap Z string) node new h :
  foldr (fun h => <[h := node]>) m new !! h = if decide (h ∈ new) then Some node else m !! h.
Proof.
  induction new as [| x new IH]; simpl; [done |].
  destruct (decide (x = h)) as [-> | Hne].
  - rewrite lookup_insert_eq, decide_True by set_solver. done.
  - rewrite lookup_insert_ne, IH by done. destruct (decide (h ∈ new)).
    + by rewrite decide_True by set_solver.
    + by rewrite decide_False by set_solver.
Qed.

Lemma lookup_foldr_delete (m : gmap Z string) hs h :
  foldr delete m hs !! h = if decide (h ∈ hs) then None else m !! h.
Proof.
  induction hs as [| x hs IH]; simpl; [done |].
  destruct (decide (x = h)) as [-> | Hne].
  - rewrite lookup_delete_eq, decide_True by set_solver. done.
  - rewrite lookup_delete_ne, IH by done. destruct (decide (h ∈ hs)).
    + by rewrite decide_True by set_solver.
    + by rewrite decide_False by set_solver.
Qed.

Lemma addVnodes_spec node l m hs :
  exists new, fold_left (addVnode node) l (m, hs)
      = (mkRing (config m) (keys m ++ new) (foldr (fun h => <[h := node]>) (hashMap m) new)
           (nodeHashes m) (nodeCounts m) (totalRequests m), hs ++ new)
    /\ NoDup new
    /\ forall h, h ∈ new <-> hashMap m !! h = None /\ exists i, i ∈ l /\ h = HashFunc (config m) (vnode node i).
Proof.
  revert m hs. induction l as [| i l IH]; intros m hs; simpl.
  - exists []. rewrite !app_nil_r. split_and!; [by destruct m | constructor |]. intros h. set_solver.
  - set (hash := HashFunc (config m) (vnode node i)). destruct (hashMap m !! hash) as [nd |] eqn:Ht.
    + destruct (IH m hs) as (new & -> & Hnd & Hnew). exists new. split_and!; [done | done |].
      intros h. rewrite Hnew. split; intros [Hn (j & Hj & ->)]; (split; [done |]); exists j; [set_solver |].
      split; [| done]. apply elem_of_cons in Hj as [-> |]; [| done]. subst hash. congruence.
    + match goal with |- context [fold_left _ l (?m1, _)] => destruct (IH m1 (hs ++ [hash])) as (new & -> & Hnd & Hnew) end.
      cbn [config hashMap] in Hnew. exists (hash :: new).
      assert (Hin : forall h, h ∈ new <-> h <> hash /\ hashMap m !! h = None
          /\ exists i, i ∈ l /\ h = HashFunc (config m) (vnode node i)).
      { intros h. rewrite Hnew. simpl. destruct (decide (h = hash)) as [-> |].
        - rewrite lookup_insert_eq. naive_solver.
        - rewrite lookup_insert_ne by done. naive_solver. }
      split_and!.
      * simpl. rewrite <- !app_assoc. simpl. f_equal. f_equal. apply map_eq. intros h.
        rewrite lookup_foldr_insert. destruct (decide (h = hash)) as [-> |].
        -- rewrite !lookup_insert_eq. by case_decide.
        -- rewrite !lookup_insert_ne by done. by rewrite lookup_foldr_insert.
      * constructor; [| done]. rewrite Hin. naive_solver.
      * intros h. rewrite elem_of_cons, Hin. split.
        -- intros [-> | (_ & Hn & j & Hj & ->)]; (split; [done |]); [exists i | exists j]; set_solver.
        -- intros (Hn & j & Hj & ->). destruct (decide (HashFunc (config m) (vnode node j) = hash)); [by left |].
           right. split_and!; [done.. |]. exists j. apply elem_of_cons in Hj as [-> |]; [done | done].
Qed.

Definition new_vnodes (m : ConsistentHashMap) (node : string) (new : list Z) : Prop :=
  NoDup new /\ forall h, h ∈ new <->
    hashMap m !! h = None /\ exists i, 0 <= i < DefaultReplicas (config m) /\ h = HashFunc (config m) (vnode node i).

Lemma addNode_spec m node :
  (forall nd, is_Some (nodeCounts m !! nd) <-> is_Some (nodeHashes m !! nd)) ->
  nodeHashes m !! node = None -> 0 <= DefaultReplicas (config m) ->
  exists new, addNodeLocked m node (DefaultReplicas (config m)) = Ret (extend m node new) /\ new_vnodes m node new.
Proof.
  intros Hc Hn Hr. unfold addNodeLocked. rewrite Hn, decide_False by lia.
  destruct (addVnodes_spec node (seqZ 0 (DefaultReplicas (config m))) m []) as (new & -> & Hnd & Hnew).
  exists new. split.
  - cbn. destruct (nodeCounts m !! node) eqn:E; [| done].
    destruct (Hc node) as [Hx _]. rewrite E, Hn in Hx. destruct (Hx ltac:(eauto)); done.
  - split; [done |]. intros h. rewrite Hnew. setoid_rewrite elem_of_seqZ. naive_solver lia.
Qed.

Lemma extend_wf m node new :
  ring_wf m -> node <> EmptyString -> nodeHashes m !! node = None -> new_vnodes m node new -> ring_wf (extend m node new).
Proof.
  intros [Hnd Hk Ho Hc Hnm] Hne Hn [Hnd' Hnew]. constructor; simpl.
  - apply NoDup_app. split_and!; [done | | done]. intros h Hh Hin. apply Hnew in Hin as [Hin _].
    apply Hk in Hh. rewrite Hin in Hh. by destruct Hh.
  - intros h. rewrite elem_of_app, Hk, lookup_foldr_insert. case_decide; [| tauto].
    split; [intros _ | by right]. eauto.
  - intros h nd. rewrite lookup_foldr_insert. case_decide as Hh.
    + split.
      * intros [= <-]. exists new. by rewrite lookup_insert_eq.
      * intros (hs & Hhs & Hin). destruct (decide (node = nd)) as [-> | Hnn]; [done |].
        rewrite lookup_insert_ne in Hhs by done. apply Hnew in Hh as [Hh _].
        assert (Hx : hashMap m !! h = Some nd) by (apply Ho; eauto). congruence.
    + rewrite Ho. destruct (decide (node = nd)) as [-> | Hnn].
      * rewrite lookup_insert_eq. split; [intros (? & ? & _) | intros (hs & [= <-] & ?)]; congruence.
      * by rewrite lookup_insert_ne.
  - intros nd. destruct (decide (node = nd)) as [-> | Hnn]; [rewrite !lookup_insert_eq; split; eauto |].
    by rewrite !lookup_insert_ne.
  - by rewrite lookup_insert_ne.
Qed.

Lemma sorted_ok m : ring_wf m -> ring_ok (sorted m).
Proof.
  intros [Hnd Hk Ho Hc Hnm]. split; [constructor |]; simpl; try done.
  - by rewrite (merge_sort_Permutation Z.le).
  - intros h. by rewrite (merge_sort_Permutation Z.le).
  - apply (StronglySorted_merge_sort Z.le).
Qed.

Lemma StronglySorted_filter {A} (R : relation A) (P : A -> Prop) `{!forall x, Decision (P x)} (l : list A) :
  StronglySorted R l -> StronglySorted R (filter P l).
Proof.
  induction 1 as [| x l _ IH Hx]; [constructor |]. rewrite filter_cons. case_decide; [| done].
  constructor; [done |]. rewrite Forall_forall in Hx |- *. intros y Hy%list_elem_of_filter. naive_solver.
Qed.

Lemma removeNode_ok m node hs :
  ring_ok m -> nodeHashes m !! node = Some hs ->
  exists m', removeNodeLocked m node = (m', Ok tt) /\ ring_ok m'
    /\ config m' = config m /\ nodeHashes m' = delete node (nodeHashes m)
    /\ (forall h, hashMap m' !! h = if decide (h ∈ hs) then None else hashMap m !! h).
Proof.
  intros [[Hnd Hk Ho Hc Hnm] Hs] Hn. unfold removeNodeLocked. rewrite Hn. eexists. split; [done |].
  simpl. split; [| split_and!; [done | done | intros h; apply lookup_foldr_delete]].
  split; [constructor |]; simpl.
  - by apply NoDup_filter.
  - intros h. rewrite list_elem_of_filter, Hk, lookup_foldr_delete.
    case_decide; [| tauto]. split; [tauto | intros [? [=]]].
  - intros h nd. rewrite lookup_foldr_delete. case_decide as Hh.
    + split; [done |]. intros (hs' & Hhs' & Hin). destruct (decide (node = nd)) as [-> | Hnn].
      * by rewrite lookup_delete_eq in Hhs'.
      * rewrite lookup_delete_ne in Hhs' by done.
        assert (H1 : hashMap m !! h = Some nd) by (apply Ho; eauto).
        assert (H2 : hashMap m !! h = Some node) by (apply Ho; eauto). congruence.
    + rewrite Ho. destruct (decide (node = nd)) as [-> | Hnn].
      * rewrite lookup_delete_eq, Hn. split; [intros (? & [= <-] & ?) | intros (? & ? & ?)]; congruence.
      * by rewrite lookup_delete_ne.
  - intros nd. destruct (decide (node = nd)) as [-> | Hnn].
    + rewrite !lookup_delete_eq. split; intros [? [=]].
    + by rewrite !lookup_delete_ne.
  - destruct (decide (node = EmptyString)) as [-> |]; [by rewrite lookup_delete_eq | by rewrite lookup_delete_ne].
  - by apply StronglySorted_filter.
Qed.

(** ** Lookup *)

(** [k] is the first virtual node at or after [h], around the ring. *)
Definition clockwise (m : ConsistentHashMap) (h k : Z) : Prop :=
  is_Some (hashMap m !! k)
  /\ ((h <= k /\ forall k', is_Some (hashMap m !! k') -> h <= k' -> k <= k')
      \/ (forall k', is_Some (hashMap m !! k') -> k' < h /\ k <= k')).

Lemma clockwise_unique m h k k' : clockwise m h k -> clockwise m h k' -> k = k'.
Proof.
  intros [Hk [[H1 H2] | H]] [Hk' [[H1' H2'] | H']].
  - specialize (H2 k'). specialize (H2' k). specialize (H2 Hk' H1'). specialize (H2' Hk H1). lia.
  - specialize (H' k Hk). lia.
  - specialize (H k' Hk'). lia.
  - pose proof (H k' Hk'). pose proof (H' k Hk). lia.
Qed.

(** The counters of a served lookup. *)
Definition bump (m : ConsistentHashMap) (node : string) : ConsistentHashMap :=
  m <| nodeCounts := alter (fun c => i64 (c + 1)) node (nodeCounts m) |>
    <| totalRequests := i64 (totalRequests m + 1) |>.

Lemma count_bump m nd :
  (match nodeCounts m !! nd with
   | Some counter => m <| nodeCounts := <[nd := i64 (counter + 1)]> (nodeCounts m) |>
   | None => m
   end) = m <| nodeCounts := alter (fun c => i64 (c + 1)) nd (nodeCounts m) |>.
Proof.
  destruct m as [c ks hm nh nc tr]. unfold set; simpl. destruct (nc !! nd) as [k |] eqn:Hk; simpl; f_equal; apply map_eq; intros x;
    rewrite lookup_alter; case_decide as Hx; subst.
  - by rewrite Hk, lookup_insert_eq.
  - by rewrite lookup_insert_ne.
  - by rewrite Hk.
  - done.
Qed.

Lemma sorted_lookup_le (l : list Z) (i j : nat) x y :
  StronglySorted Z.le l -> l !! i = Some x -> l !! j = Some y -> (i <= j)%nat -> x <= y.
Proof.
  intros Hs. revert i j. induction Hs as [| z l Hs IH Hz]; intros i j Hx Hy Hij; [by rewrite lookup_nil in Hx |].
  destruct i as [| i], j as [| j]; simpl in *; [| | lia | apply (IH i j); auto with lia].
  - injection Hx as ->. injection Hy as ->. lia.
  - injection Hx as ->. rewrite Forall_forall in Hz. apply Hz. by eapply list_elem_of_lookup_2.
Qed.

Lemma Get_some m key :
  ring_ok m -> key <> EmptyString -> keys m <> [] ->
  exists k nd, clockwise m (HashFunc (config m) key) k /\ hashMap m !! k = Some nd /\ Get m key = Ret (bump m nd, nd).
Proof.
  intros [Hwf Hs] Hkey Hne. unfold Get. rewrite (decide_False (P := key = EmptyString)) by done.
  rewrite (decide_False (P := zlen (keys m) = 0)) by (by rewrite zlen_0).
  set (h := HashFunc (config m) key). pose proof (zlen_nonneg (keys m)) as Hlen.
  assert (Hpos : 0 < zlen (keys m)) by (pose proof (zlen_0 (keys m)); destruct (decide (zlen (keys m) = 0)); [tauto | lia]).
  set (q := fun i : Z => bool_decide (h <= default 0 (keys m !! Z.to_nat i))).
  destruct (Search_spec (zlen (keys m)) (fun i => let! k := index (keys m) i in Ret (bool_decide (h <= k))) q)
    as (idx & -> & Hidx & Hlo & Hhi); [done | | |].
  { intros i Hi. destruct (index_total (keys m) i Hi) as (x & -> & Hx). subst q. simpl. by rewrite Hx. }
  { intros a b Hab Hb. subst q. rewrite !bool_decide_eq_true. intros Ha.
    destruct (index_total (keys m) a) as (x & _ & Hx); [lia |]. destruct (index_total (keys m) b) as (y & _ & Hy); [lia |].
    rewrite Hx in Ha. rewrite Hy. simpl in *. pose proof (sorted_lookup_le _ _ _ _ _ Hs Hx Hy). lia. }
  cbn [obind]. set (at' := if decide (idx = zlen (keys m)) then 0 else idx).
  assert (Hat : 0 <= at' < zlen (keys m)) by (subst at'; destruct (decide (idx = zlen (keys m))); lia).
  destruct (index_total (keys m) at' Hat) as (k & -> & Hk). cbn [obind].
  assert (Hin : is_Some (hashMap m !! k)) by (eapply wf_keys, list_elem_of_lookup_2; done).
  assert (Hpos_of : forall k', is_Some (hashMap m !! k') -> exists j, 0 <= j < zlen (keys m) /\ keys m !! Z.to_nat j = Some k').
  { intros k' Hk'. apply wf_keys in Hk'; [| done]. apply list_elem_of_lookup_1 in Hk' as [j Hj]. exists (Z.of_nat j).
    rewrite Nat2Z.id. split; [| done]. pose proof (lookup_lt_Some _ _ _ Hj). unfold zlen. lia. }
  destruct Hin as [nd Hnd]. exists k, nd. rewrite Hnd. cbn [default]. split_and!; [| done |].
  - split; [eauto |]. subst at'. destruct (decide (idx = zlen (keys m))) as [He | He].
    + right. intros k' (j & Hj & Hj')%Hpos_of. split; [| eapply sorted_lookup_le; [done | exact Hk | exact Hj' | lia]].
      specialize (Hlo j ltac:(lia)). subst q. cbn beta in Hlo. rewrite Hj' in Hlo. apply bool_decide_eq_false in Hlo. simpl in Hlo. lia.
    + left. split.
      * specialize (Hhi idx ltac:(lia)). subst q. cbn beta in Hhi. rewrite Hk in Hhi. by apply bool_decide_eq_true in Hhi.
      * intros k' (j & Hj & Hj')%Hpos_of Hle. eapply sorted_lookup_le; [done | exact Hk | exact Hj' |].
        destruct (decide (j < idx)); [| lia]. specialize (Hlo j ltac:(lia)). subst q. cbn beta in Hlo. rewrite Hj' in Hlo.
        apply bool_decide_eq_false in Hlo. simpl in Hlo. lia.
  - by rewrite count_bump.
Qed.

(** ** Adding members *)

Definition add_nodes (nodes : list string) (m : ConsistentHashMap) : outcome ConsistentHashMap :=
  ofold (fun node m => if decide (node = EmptyString) then Ret m
                       else addNodeLocked m node (DefaultReplicas (config m))) nodes m.

Definition members (m : ConsistentHashMap) : gset string := dom (nodeHashes m).

Record grown (nodes : list string) (m m' : ConsistentHashMap) : Prop := {
  gr_wf : ring_wf m';
  gr_config : config m' = config m;
  gr_members : members m' = members m ∪ (list_to_set nodes ∖ {[EmptyString]});
  gr_old : forall h nd, hashMap m !! h = Some nd -> hashMap m' !! h = Some nd;
  gr_new : forall h nd, hashMap m' !! h = Some nd -> hashMap m !! h = Some nd \/ nd ∈ nodes;
}.

Lemma grown_refl m : ring_wf m -> grown [] m m.
Proof. intros H. constructor; [done | done | set_solver | done | auto]. Qed.

Lemma grown_trans node nodes m m1 m2 : grown [node] m m1 -> grown nodes m1 m2 -> grown (node :: nodes) m m2.
Proof.
  intros [W1 C1 M1 O1 N1] [W2 C2 M2 O2 N2]. constructor.
  - done.
  - congruence.
  - rewrite M2, M1. simpl. set_solver.
  - eauto.
  - intros h nd [[? | ?]%N1 | ?]%N2; set_solver.
Qed.

(** One member of a list given to [Add]. *)
Lemma add_one m node :
  ring_wf m -> 0 <= DefaultReplicas (config m) ->
  exists m', (if decide (node = EmptyString) then Ret m else addNodeLocked m node (DefaultReplicas (config m))) = Ret m'
    /\ grown [node] m m'
    /\ (m' = m \/ (node <> EmptyString /\ (node ∉ members m) /\ exists new, m' = extend m node new /\ new_vnodes m node new)).
Proof.
  intros Hwf Hr. destruct (decide (node = EmptyString)) as [-> | Hne].
  { exists m. split_and!; [done | | by left]. constructor; [done | done | set_solver | done | auto]. }
  destruct (nodeHashes m !! node) as [hs |] eqn:Hn.
  - exists m. unfold addNodeLocked. rewrite Hn. split_and!; [done | | by left].
    apply elem_of_dom_2 in Hn. constructor; [done | done | unfold members; set_solver | done | auto].
  - destruct (addNode_spec m node (wf_counts m Hwf) Hn Hr) as (new & -> & Hnew).
    exists (extend m node new). split; [done |]. pose proof Hn as Hn'%not_elem_of_dom. split.
    + constructor; [by apply extend_wf | done | | |]; unfold members; simpl.
      * rewrite dom_insert_L. set_solver.
      * intros h nd Hh. rewrite lookup_foldr_insert, decide_False; [done |].
        intros [Hx _]%(proj2 Hnew). congruence.
      * intros h nd. rewrite lookup_foldr_insert. case_decide; [intros [= <-]; set_solver | auto].
    + right. eauto.
Qed.

Lemma add_nodes_spec nodes m :
  ring_wf m -> 0 <= DefaultReplicas (config m) -> exists m', add_nodes nodes m = Ret m' /\ grown nodes m m'.
Proof.
  revert m. induction nodes as [| node nodes IH]; intros m Hwf Hr; unfold add_nodes; cbn [ofold].
  - exists m. auto using grown_refl.
  - destruct (add_one m node Hwf Hr) as (m1 & -> & Hg & _). cbn [obind].
    destruct (IH m1) as (m2 & Hm2 & Hg2); [apply Hg | by rewrite (gr_config _ _ _ Hg) |].
    exists m2. split; [done | by eapply grown_trans].
Qed.

Lemma Add_spec m nodes :
  ring_ok m -> 0 <= DefaultReplicas (config m) -> nodes <> [] ->
  exists m', Add m nodes = Ret (sorted m', Ok tt) /\ add_nodes nodes m = Ret m' /\ grown nodes m m'.
Proof.
  intros [Hwf _] Hr Hne. destruct (add_nodes_spec nodes m Hwf Hr) as (m' & Hm' & Hg).
  exists m'. unfold Add. rewrite decide_False by done. unfold add_nodes in Hm'. by rewrite Hm'.
Qed.

(** ** Rings without collisions *)

(** No two members of [N] share a virtual node. *)
Definition collision_free (c : ConHashConfig) (N : gset string) : Prop :=
  forall a b i j, a ∈ N -> b ∈ N -> 0 <= i < DefaultReplicas c -> 0 <= j < DefaultReplicas c ->
    HashFunc c (vnode a i) = HashFunc c (vnode b j) -> a = b.

(** Every member owns all its virtual nodes. *)
Definition full (m : ConsistentHashMap) : Prop :=
  forall nd h, nd ∈ members m ->
    hashMap m !! h = Some nd <-> exists i, 0 <= i < DefaultReplicas (config m) /\ h = HashFunc (config m) (vnode nd i).

Lemma hash_owner_member m h nd : ring_wf m -> hashMap m !! h = Some nd -> nd ∈ members m.
Proof. intros Hwf (hs & Hhs & _)%(wf_owner m Hwf). by apply elem_of_dom_2 in Hhs. Qed.

Lemma extend_full m node new N :
  ring_wf m -> full m -> new_vnodes m node new -> node ∉ members m ->
  collision_free (config m) N -> members m ⊆ N -> node ∈ N -> full (extend m node new).
Proof.
  intros Hwf Hf [_ Hnew] Hn Hc HN HnN nd h Hnd. unfold members in Hnd. simpl in *.
  rewrite lookup_foldr_insert. rewrite dom_insert_L in Hnd.
  assert (Hsplit : nd = node \/ nd ∈ members m /\ nd <> node) by (unfold members; destruct (decide (nd = node)); set_solver).
  destruct Hsplit as [-> | [Hmem Hne]]; case_decide as Hh.
  - split; [intros _ | done]. apply Hnew in Hh as [_ Hi]. done.
  - split; [intros Hx; by eapply hash_owner_member in Hx |]. intros Hi. exfalso. apply Hh, Hnew. split; [| done].
    destruct (hashMap m !! h) as [nd |] eqn:Hx; [| done]. pose proof (hash_owner_member _ _ _ Hwf Hx) as Hnd'.
    apply (Hf _ _ Hnd') in Hx as (j & Hj & ->). destruct Hi as (i & Hi & He).
    destruct Hn. rewrite (Hc node nd i j); auto.
  - apply Hnew in Hh as (Hx & i & Hi & ->). split; [congruence |]. intros (j & Hj & He).
    destruct Hne. symmetry. apply (Hc node nd i j); auto.
  - by apply Hf.
Qed.

Lemma add_nodes_full nodes m m' N :
  ring_wf m -> 0 <= DefaultReplicas (config m) -> full m -> collision_free (config m) N ->
  members m ∪ list_to_set nodes ⊆ N -> add_nodes nodes m = Ret m' -> full m'.
Proof.
  revert m. induction nodes as [| node nodes IH]; intros m Hwf Hr Hf Hc HN; unfold add_nodes; cbn [ofold].
  - by intros [= <-].
  - destruct (add_one m node Hwf Hr) as (m1 & -> & Hg & Hcase). cbn [obind]. simpl in HN. intros Hm'.
    apply (IH m1); [apply Hg | by rewrite (gr_config _ _ _ Hg) | | by rewrite (gr_config _ _ _ Hg) | | done].
    + destruct Hcase as [-> | (Hne & Hmem & new & -> & Hnew)]; [done |]. eapply extend_full; try done; set_solver.
    + rewrite (gr_members _ _ _ Hg). set_solver.
Qed.

Lemma removeNode_full m node hs m' :
  ring_ok m -> full m -> nodeHashes m !! node = Some hs -> removeNodeLocked m node = (m', Ok tt) -> full m'.
Proof.
  intros Hok Hf Hn Hm'. destruct (removeNode_ok m node hs Hok Hn) as (m'' & Hm'' & _ & Hcfg & Hnh & Hh).
  rewrite Hm'' in Hm'. injection Hm' as ->. intros nd h Hnd. unfold members in Hnd. rewrite Hnh, dom_delete_L in Hnd.
  rewrite Hh, Hcfg, <- (Hf nd h) by (unfold members; set_solver). case_decide as Hin; [| done]. split; [done |].
  intros Hx. destruct Hok as [Hwf _]. assert (Hy : hashMap m !! h = Some node) by (apply wf_owner; eauto). set_solver.
Qed.
