(* ===== verification/RingTheorems.v ===== *)
(** * RingTheorems
    What the consistent hash ring guarantees to the cache group: who owns a
    key, which keys move when the membership changes, and that the mapping
    depends on the membership alone. *)
From S2P Require Import Prelude HashRing.

(** ** Histories of calls *)

Inductive ring_call :=
| RAdd (nodes : list string)
| RRemove (node : string)
| RGet (key : string).

Definition ring_step (m : ConsistentHashMap) (o : ring_call) : outcome ConsistentHashMap :=
  match o with
  | RAdd nodes => let! r := Add m nodes in Ret r.1
  | RRemove node => Ret (Remove m node).1
  | RGet key => let! r := Get m key in Ret r.1
  end.

Definition ring_run (os : list ring_call) (m : ConsistentHashMap) : outcome ConsistentHashMap :=
  ofold (fun o m => ring_step m o) os m.

Definition mentioned (o : ring_call) : gset string :=
  match o with RAdd nodes => list_to_set nodes | _ => ∅ end.

Lemma elem_of_members m nd : nd ∈ members m <-> is_Some (nodeHashes m !! nd).
Proof. apply elem_of_dom. Qed.

Lemma bump_ok m nd : ring_ok m -> ring_ok (bump m nd).
Proof.
  intros [[Hnd Hk Ho Hc Hnm] Hs]. split; [constructor |]; simpl; try done.
  intros x. rewrite lookup_alter. case_decide as Hx; [subst x | apply Hc]. rewrite fmap_is_Some. apply Hc.
Qed.

Lemma bump_full m nd : full m -> full (bump m nd).
Proof. done. Qed.

Lemma Get_cases m key :
  ring_ok m ->
  (Get m key = Ret (m, EmptyString) /\ (key = EmptyString \/ keys m = []))
  \/ (key <> EmptyString /\ keys m <> [] /\ exists k nd, clockwise m (HashFunc (config m) key) k
        /\ hashMap m !! k = Some nd /\ Get m key = Ret (bump m nd, nd)).
Proof.
  intros Hok. destruct (decide (key = EmptyString)) as [-> | Hkey]; [left; auto |].
  destruct (decide (keys m = [])) as [He | Hne].
  - left. split; [| by right]. unfold Get. rewrite decide_False by done. by rewrite He.
  - right. auto using Get_some.
Qed.

Lemma sorted_full m : full m -> full (sorted m).
Proof. done. Qed.

Lemma Remove_cases m node :
  (exists e, Remove m node = (m, Err e))
  \/ exists hs, nodeHashes m !! node = Some hs /\ node <> EmptyString /\ Remove m node = removeNodeLocked m node.
Proof.
  unfold Remove. destruct (decide (node = EmptyString)); [left; eauto |].
  destruct (nodeHashes m !! node) as [hs |] eqn:Hn; [right; eauto |].
  left. unfold removeNodeLocked. rewrite Hn. eauto.
Qed.

(** One call keeps the ring well formed, and full when nothing collides. *)
Lemma ring_step_ok m o :
  ring_ok m -> 0 <= DefaultReplicas (config m) ->
  exists m', ring_step m o = Ret m' /\ ring_ok m' /\ config m' = config m
    /\ (forall N, collision_free (config m) N -> members m ∪ mentioned o ⊆ N -> full m -> full m' /\ members m' ⊆ N).
Proof.
  intros Hok Hr. destruct o as [nodes | node | key]; simpl.
  - destruct (decide (nodes = [])) as [-> | Hne].
    { exists m. split_and!; [done.. |]. intros. split; [done | set_solver]. }
    destruct (Add_spec m nodes Hok Hr Hne) as (m' & -> & Hadd & Hg). exists (sorted m'). cbn [obind fst].
    split; [done |]. split; [apply sorted_ok, Hg |]. split; [apply Hg |]. intros N HN Hsub Hf. split.
    + apply sorted_full. apply (add_nodes_full nodes m m' N); try done; apply Hok.
    + change (members (sorted m')) with (members m'). rewrite (gr_members _ _ _ Hg). set_solver.
  - destruct (Remove_cases m node) as [(e & ->) | (hs & Hn & Hne & ->)].
    { exists m. split_and!; [done.. |]. intros. split; [done | set_solver]. }
    destruct (removeNode_ok m node hs Hok Hn) as (m' & Hm' & Hok' & Hcfg & Hnh & _). rewrite Hm'.
    exists m'. split_and!; [done.. |]. intros N HN Hsub Hf. split; [by apply (removeNode_full m node hs m') |].
    unfold members. rewrite Hnh, dom_delete_L. unfold members in Hsub. set_solver.
  - destruct (Get_cases m key Hok) as [[-> _] | (_ & _ & k & nd & _ & _ & ->)]; cbn [obind fst].
    + exists m. split_and!; [done.. |]. intros. split; [done | set_solver].
    + exists (bump m nd). split; [done |]. split; [by apply bump_ok |]. split; [done |].
      intros. split; [by apply bump_full | unfold members in *; simpl; set_solver].
Qed.

Lemma ring_run_ok os m :
  ring_ok m -> 0 <= DefaultReplicas (config m) ->
  exists m', ring_run os m = Ret m' /\ ring_ok m' /\ config m' = config m
    /\ (forall N, collision_free (config m) N -> members m ∪ ⋃ (mentioned <$> os) ⊆ N -> full m -> full m').
Proof.
  unfold ring_run. revert m. induction os as [| o os IH]; intros m Hok Hr; cbn [ofold].
  - exists m. auto.
  - destruct (ring_step_ok m o Hok Hr) as (m1 & -> & Hok1 & Hc1 & Hf1). cbn [obind].
    destruct (IH m1 Hok1) as (m2 & -> & Hok2 & Hc2 & Hf2); [by rewrite Hc1 |].
    exists m2. split_and!; [done | done | congruence |]. rewrite Hc1 in Hf2. intros N HN Hsub Hf. simpl in Hsub.
    destruct (Hf1 N) as [Hfm1 Hm1]; [done | set_solver | done |]. apply (Hf2 N); [done | set_solver | done].
Qed.

Lemma NewConsistentHash_ok c : ring_ok (NewConsistentHash c) /\ full (NewConsistentHash c).
Proof.
  split; [split; [constructor |] |]; simpl.
  - constructor.
  - intros h. rewrite lookup_empty. split; [intros Hx; by apply not_elem_of_nil in Hx | intros [? [=]]].
  - intros h nd. rewrite lookup_empty. split; [done |]. intros (? & Hx & _). by rewrite lookup_empty in Hx.
  - intros nd. by rewrite !lookup_empty.
  - done.
  - constructor.
  - intros nd h Hnd. unfold members in Hnd. simpl in Hnd. set_solver.
Qed.

(** [key] is served by [nd]. *)
Definition owns (m : ConsistentHashMap) (key nd : string) : Prop := exists m', Get m key = Ret (m', nd).

(** From an empty ring no sequence of [Add], [Remove] and [Get] panics,
    and [Get], a binary search, then returns the member that owns the first
    virtual node at or after the hash of the key, going round; it returns the
    empty string exactly for an empty key or a ring without virtual nodes. *)
Theorem ring_lookup_correct c os key :
  0 <= DefaultReplicas c ->
  exists m m' nd, ring_run os (NewConsistentHash c) = Ret m /\ Get m key = Ret (m', nd)
    /\ if decide (key = EmptyString \/ hashMap m = ∅) then nd = EmptyString /\ m' = m
       else nd ∈ members m /\ hashMap m' = hashMap m
            /\ exists k, clockwise m (HashFunc c key) k /\ hashMap m !! k = Some nd.
Proof.
  intros Hr. destruct (NewConsistentHash_ok c) as [Hok _].
  destruct (ring_run_ok os _ Hok Hr) as (m & Hm & Hok' & Hc & _). exists m.
  assert (Hempty : keys m = [] <-> hashMap m = ∅).
  { rewrite map_empty. split.
    - intros He h. apply eq_None_not_Some. rewrite <- (wf_keys m (proj1 Hok')), He. set_solver.
    - intros He. destruct (keys m) as [| h l] eqn:Hks; [done |].
      assert (Hin : is_Some (hashMap m !! h)) by (apply (wf_keys m (proj1 Hok')); rewrite Hks; set_solver).
      rewrite He in Hin. by destruct Hin. }
  destruct (Get_cases m key Hok') as [[Hg Hd] | (Hkey & Hks & k & nd & Hcw & Hnd & Hg)]; rewrite Hg; eexists _, _.
  - split; [exact Hm |]. split; [done |]. rewrite decide_True; [done |]. by rewrite <- Hempty.
  - split; [exact Hm |]. split; [done |]. rewrite decide_False by (rewrite <- Hempty; tauto).
    rewrite Hc in Hcw. split_and!; [by eapply hash_owner_member; [apply Hok' |] | done | eauto].
Qed.

Lemma owns_clockwise m key nd :
  ring_ok m -> nd <> EmptyString -> owns m key nd ->
  key <> EmptyString /\ exists k, clockwise m (HashFunc (config m) key) k /\ hashMap m !! k = Some nd.
Proof.
  intros Hok Hnd [m' Hg]. destruct (Get_cases m key Hok) as [[Hg' _] | (Hkey & _ & k & nd' & Hcw & Hk & Hg')];
    rewrite Hg' in Hg; injection Hg as <- <-; [done | eauto].
Qed.

Lemma owns_intro m key k nd :
  ring_ok m -> key <> EmptyString -> clockwise m (HashFunc (config m) key) k -> hashMap m !! k = Some nd -> owns m key nd.
Proof.
  intros Hok Hkey Hcw Hk. destruct (Get_cases m key Hok) as [[_ [? | He]] | (_ & _ & k' & nd' & Hcw' & Hk' & Hg)]; [done | |].
  - assert (Hin : k ∈ keys m) by (apply (wf_keys m (proj1 Hok)); eauto). rewrite He in Hin. by apply not_elem_of_nil in Hin.
  - rewrite <- (clockwise_unique _ _ _ _ Hcw Hcw') in Hk'. rewrite Hk in Hk'. injection Hk' as <-. by exists (bump m nd).
Qed.

Lemma owns_total m key : ring_ok m -> key <> EmptyString -> keys m <> [] -> exists nd, owns m key nd /\ nd ∈ members m.
Proof.
  intros Hok Hkey Hne. destruct (Get_some m key Hok Hkey Hne) as (k & nd & _ & Hk & Hg).
  exists nd. split; [by exists (bump m nd) |]. by eapply hash_owner_member; [apply Hok |].
Qed.

Lemma member_named m nd : ring_ok m -> nd ∈ members m -> nd <> EmptyString.
Proof. intros Hok Hnd ->. apply elem_of_members in Hnd as [? Hx]. by rewrite (wf_named m (proj1 Hok)) in Hx. Qed.

(** A ring with more virtual nodes serves a key from where it was, unless one
    of the additional ones comes first. *)
Lemma clockwise_mono m m' h k k' :
  (forall x, is_Some (hashMap m !! x) -> is_Some (hashMap m' !! x)) ->
  clockwise m h k -> clockwise m' h k' -> is_Some (hashMap m !! k') -> k' = k.
Proof.
  intros Hsub Hk [Hin' Hc'] Hin. apply (clockwise_unique m h); [| done]. split; [done |].
  destruct Hc' as [[Hle Hmin] | Hmin]; [left; split; [done |] | right]; auto.
Qed.

(** Membership changes move only the keys they must: after [Add], a key
    keeps its owner or moves to an added member; after [Remove], exactly the
    keys of the removed member move, to members that remain. *)
Theorem ring_moves_only_affected m key nd :
  ring_ok m -> 0 <= DefaultReplicas (config m) -> nd <> EmptyString -> owns m key nd ->
  (forall nodes, nodes <> [] -> exists m' nd', Add m nodes = Ret (m', Ok tt) /\ ring_ok m'
     /\ owns m' key nd' /\ (nd' = nd \/ nd' ∈ nodes))
  /\ (forall node, node ∈ members m -> exists m', Remove m node = (m', Ok tt) /\ ring_ok m'
     /\ members m' = members m ∖ {[node]}
     /\ (nd <> node -> owns m' key nd) /\ (forall nd', owns m' key nd' -> nd' <> node)).
Proof.
  intros Hok Hr Hnd Hown. destruct (owns_clockwise m key nd Hok Hnd Hown) as (Hkey & k & Hcw & Hk). split.
  - intros nodes Hne. destruct (Add_spec m nodes Hok Hr Hne) as (m' & -> & _ & Hg).
    pose proof (sorted_ok m' (gr_wf _ _ _ Hg)) as Hok'.
    assert (Hne' : keys (sorted m') <> []).
    { intros He. assert (Hin : k ∈ keys (sorted m')) by (apply (wf_keys _ (proj1 Hok')); eexists; exact (gr_old _ _ _ Hg _ _ Hk)).
      rewrite He in Hin. by apply not_elem_of_nil in Hin. }
    destruct (Get_some _ key Hok' Hkey Hne') as (k' & nd' & Hcw' & Hk' & Hget).
    exists (sorted m'), nd'. split_and!; [done | done | by eexists |].
    destruct (gr_new _ _ _ Hg k' nd' Hk') as [Hold | Hnew]; [left | by right].
    assert (He : k' = k).
    { eapply (clockwise_mono m (sorted m')); [| exact Hcw | | eauto].
      - intros x [y Hy]. eexists. exact (gr_old _ _ _ Hg _ _ Hy).
      - replace (config m) with (config (sorted m')); [done | apply Hg]. }
    subst k'. congruence.
  - intros node Hmem. pose proof (member_named m node Hok Hmem) as Hnode. apply elem_of_members in Hmem as [hs Hhs].
    destruct (removeNode_ok m node hs Hok Hhs) as (m' & Hm' & Hok' & Hcfg & Hnh & Hh).
    exists m'. unfold Remove. rewrite decide_False by done. split_and!; [done | done | | |].
    + unfold members. by rewrite Hnh, dom_delete_L.
    + intros Hdiff. assert (Hkeep : forall x y, hashMap m !! x = Some y -> y <> node -> hashMap m' !! x = Some y).
      { intros x y Hx Hy. rewrite Hh, decide_False; [done |]. intros Hin.
        assert (Hx' : hashMap m !! x = Some node) by (apply (wf_owner m (proj1 Hok)); eauto). congruence. }
      apply (owns_intro m' key k); [done | done | | by apply Hkeep]. rewrite Hcfg. split; [eexists; by eapply Hkeep |].
      assert (Hsub : forall x, is_Some (hashMap m' !! x) -> is_Some (hashMap m !! x)).
      { intros x [y Hy]. rewrite Hh in Hy. case_decide; [done | eauto]. }
      destruct Hcw as [_ [[Hle Hmin] | Hmin]]; [left; split; [done |] | right]; auto.
    + intros nd' Hown' ->. destruct (owns_clockwise m' key node Hok' Hnode Hown') as (_ & k' & _ & Hk').
      apply (hash_owner_member _ _ _ (proj1 Hok')) in Hk'. unfold members in Hk'. rewrite Hnh, dom_delete_L in Hk'. set_solver.
Qed.

(** ** The mapping is a function of the membership *)

Lemma full_same_map m1 m2 :
  ring_ok m1 -> ring_ok m2 -> full m1 -> full m2 -> config m1 = config m2 -> members m1 = members m2 ->
  hashMap m1 = hashMap m2.
Proof.
  assert (Hle : forall m1 m2 h nd, ring_ok m1 -> full m1 -> full m2 -> config m1 = config m2 ->
    members m1 = members m2 -> hashMap m1 !! h = Some nd -> hashMap m2 !! h = Some nd).
  { intros a b h nd [Hwf _] Ha Hb Hc Hm Hh. pose proof (hash_owner_member _ _ _ Hwf Hh) as Hnd.
    apply (Ha nd h Hnd) in Hh. apply (Hb nd h); [by rewrite <- Hm | by rewrite <- Hc]. }
  intros Hok1 Hok2 Hf1 Hf2 Hc Hm. apply map_eq. intros h. apply option_eq. intros nd.
  split; apply Hle; auto.
Qed.

Lemma same_map_same_keys m1 m2 : ring_ok m1 -> ring_ok m2 -> hashMap m1 = hashMap m2 -> keys m1 = keys m2.
Proof.
  intros [Hwf1 Hs1] [Hwf2 Hs2] Hm. apply (StronglySorted_unique Z.le); [done | done |].
  apply NoDup_Permutation; [apply Hwf1 | apply Hwf2 |]. intros h.
  by rewrite (wf_keys m1 Hwf1), (wf_keys m2 Hwf2), Hm.
Qed.

Lemma same_map_owns m1 m2 key nd :
  ring_ok m1 -> ring_ok m2 -> config m1 = config m2 -> hashMap m1 = hashMap m2 -> owns m1 key nd -> owns m2 key nd.
Proof.
  intros Hok1 Hok2 Hc Hm [m' Hg]. pose proof (same_map_same_keys _ _ Hok1 Hok2 Hm) as Hks.
  destruct (Get_cases m1 key Hok1) as [[Hg1 Hd] | (Hkey & Hne & k & nd1 & Hcw & Hk & Hg1)]; rewrite Hg1 in Hg; injection Hg as <- <-.
  - destruct (Get_cases m2 key Hok2) as [[Hg2 _] | (Hkey & Hne & _)]; [by eexists |]. rewrite Hks in Hd. tauto.
  - apply (owns_intro m2 key k); [done | done | | by rewrite <- Hm]. unfold clockwise in *. by rewrite <- Hc, <- Hm.
Qed.

(** C9: when no two members share a virtual node, the owner of every key
    depends on the set of members only, not on the order in which they were
    added, removed or added again: two peers that know the same members
    agree on every key. *)
Theorem ring_history_independent c os1 os2 m1 m2 N :
  0 <= DefaultReplicas c -> collision_free c N -> ⋃ (mentioned <$> (os1 ++ os2)) ⊆ N ->
  ring_run os1 (NewConsistentHash c) = Ret m1 -> ring_run os2 (NewConsistentHash c) = Ret m2 ->
  members m1 = members m2 ->
  keys m1 = keys m2 /\ hashMap m1 = hashMap m2 /\ forall key nd, owns m1 key nd <-> owns m2 key nd.
Proof.
  intros Hr HN Hsub H1 H2 Hm. destruct (NewConsistentHash_ok c) as [Hok Hf].
  rewrite fmap_app, union_list_app in Hsub.
  destruct (ring_run_ok os1 _ Hok Hr) as (x & Hx & Hok1 & Hc1 & Hf1). rewrite H1 in Hx. injection Hx as <-.
  destruct (ring_run_ok os2 _ Hok Hr) as (x & Hx & Hok2 & Hc2 & Hf2). rewrite H2 in Hx. injection Hx as <-.
  specialize (Hf1 N HN ltac:(set_solver) Hf). specialize (Hf2 N HN ltac:(set_solver) Hf).
  assert (Hc : config m1 = config m2) by congruence.
  pose proof (full_same_map m1 m2 Hok1 Hok2 Hf1 Hf2 Hc Hm) as Hmap.
  split_and!; [by apply same_map_same_keys | done |].
  intros key nd. split; apply same_map_owns; done.
Qed.

(** Adding a member and removing it again restores the ring exactly,
    counters included, whatever collides. *)
Theorem ring_add_remove m node :
  ring_ok m -> 0 <= DefaultReplicas (config m) -> node <> EmptyString -> node ∉ members m ->
  exists m', Add m [node] = Ret (m', Ok tt) /\ Remove m' node = (m, Ok tt).
Proof.
  intros Hok Hr Hne Hmem. destruct Hok as [Hwf Hs].
  assert (Hn : nodeHashes m !! node = None) by (by apply not_elem_of_dom).
  destruct (addNode_spec m node (wf_counts m Hwf) Hn Hr) as (new & Hadd & Hnd & Hnew).
  pose proof (extend_wf m node new Hwf Hne Hn (conj Hnd Hnew)) as Hwf'.
  exists (sorted (extend m node new)). split.
  - unfold Add. rewrite decide_False by done. cbn [ofold]. rewrite decide_False by done. by rewrite Hadd.
  - unfold Remove. rewrite decide_False by done. unfold removeNodeLocked. simpl. rewrite lookup_insert_eq. f_equal.
    assert (Hc : nodeCounts m !! node = None).
    { apply eq_None_not_Some. rewrite (wf_counts m Hwf), Hn. by intros [? [=]]. }
    assert (Hks : filter (fun k => k ∉ new) (merge_sort Z.le (keys m ++ new)) = keys m).
    { apply (StronglySorted_unique Z.le); [apply StronglySorted_filter, StronglySorted_merge_sort; apply _ | done |].
      rewrite (merge_sort_Permutation Z.le), filter_app, (filter_all _ (keys m)), (filter_none _ new); [by rewrite app_nil_r | |].
      - apply Forall_forall. intros h Hh. tauto.
      - apply Forall_forall. intros h Hh Hin. apply Hnew in Hin as [Hx _].
        apply (wf_keys m Hwf) in Hh as [y Hy]. congruence. }
    assert (Hmap : foldr delete (foldr (fun h => <[h := node]>) (hashMap m) new) new = hashMap m).
    { apply map_eq. intros h. rewrite lookup_foldr_delete, lookup_foldr_insert. case_decide as Hh; [| done].
      by apply Hnew in Hh as [-> _]. }
    unfold set; simpl. rewrite Hks, Hmap, !delete_insert_id by done. by destruct m.
Qed.

(** ** Witnesses *)

(** A small hash: one virtual node per member, at the length of its name. *)
Definition sample_config : ConHashConfig := mkConHashConfig 1 (fun s => Z.of_nat (String.length s)).

Definition sample_ring : ConsistentHashMap :=
  mkRing sample_config [3; 4] (<[3 := "a"]> {[4 := "bb"]})%string (<["a" := [3]]> {["bb" := [4]]})%string
    (<["a" := 0]> {["bb" := 0]})%string 0.

Lemma sample_ring_run : ring_run [RAdd ["bb"; "a"]] (NewConsistentHash sample_config) = Ret sample_ring.
Proof. vm_compute. reflexivity. Qed.

Lemma sample_ring_ok : ring_ok sample_ring.
Proof.
  destruct (NewConsistentHash_ok sample_config) as [Hok _].
  destruct (ring_run_ok [RAdd ["bb"; "a"]] _ Hok) as (m & Hm & Hok' & _); [simpl; lia |].
  rewrite sample_ring_run in Hm. by injection Hm as <-.
Qed.

Lemma sample_owner : owns sample_ring "key!" "bb".
Proof. eexists. vm_compute. reflexivity. Qed.

Lemma ring_lookup_correct_witness :
  exists m m' nd, ring_run [RAdd ["bb"; "a"]; RRemove "a"] (NewConsistentHash sample_config) = Ret m
    /\ Get m "key!" = Ret (m', nd)
    /\ if decide ("key!" = EmptyString \/ hashMap m = ∅) then nd = EmptyString /\ m' = m
       else nd ∈ members m /\ hashMap m' = hashMap m
            /\ exists k, clockwise m (HashFunc sample_config "key!") k /\ hashMap m !! k = Some nd.
Proof. apply (ring_lookup_correct sample_config [RAdd ["bb"; "a"]; RRemove "a"] "key!"). simpl. lia. Defined.

Lemma ring_moves_only_affected_witness :
  (exists m' nd', Add sample_ring ["ccccc"] = Ret (m', Ok tt) /\ ring_ok m'
     /\ owns m' "key!" nd' /\ (nd' = "bb" \/ nd' ∈ ["ccccc"]))
  /\ (exists m', Remove sample_ring "a" = (m', Ok tt) /\ owns m' "key!" "bb").
Proof.
  destruct (ring_moves_only_affected sample_ring "key!" "bb" sample_ring_ok ltac:(simpl; lia) ltac:(discriminate) sample_owner)
    as [Hadd Hrem]. split.
  - apply Hadd. discriminate.
  - destruct (Hrem "a") as (m' & Hm' & _ & _ & Hkeep & _); [apply elem_of_members; eexists; reflexivity |].
    exists m'. split; [exact Hm' |]. apply Hkeep. discriminate.
Defined.

Lemma ring_history_independent_witness :
  keys sample_ring = [3; 4]
  /\ (ring_run [RAdd ["a"]; RAdd ["bb"]] (NewConsistentHash sample_config) = Ret sample_ring)
  /\ forall key nd, owns sample_ring key nd <-> owns sample_ring key nd.
Proof.
  split; [reflexivity |]. split; [vm_compute; reflexivity |].
  apply (ring_history_independent sample_config [RAdd ["bb"; "a"]] [RAdd ["a"]; RAdd ["bb"]] sample_ring sample_ring {["a"; "bb"]}%string).
  - simpl. lia.
  - intros a b i j Ha Hb Hi Hj. simpl in Hi, Hj. assert (i = 0) as -> by lia. assert (j = 0) as -> by lia.
    apply elem_of_union in Ha as [->%elem_of_singleton | ->%elem_of_singleton], Hb as [->%elem_of_singleton | ->%elem_of_singleton];
      vm_compute; congruence.
  - apply (bool_decide_unpack _). vm_compute. exact I.
  - exact sample_ring_run.
  - vm_compute. reflexivity.
  - reflexivity.
Defined.

Lemma ring_add_remove_witness :
  exists m', Add sample_ring ["ccccc"] = Ret (m', Ok tt) /\ Remove m' "ccccc" = (sample_ring, Ok tt).
Proof.
  apply ring_add_remove; [exact sample_ring_ok | simpl; lia | discriminate |].
  intros Hx%elem_of_members. vm_compute in Hx. destruct Hx as [? [=]].
Defined.
