(* ===== verification/RpcWire.v ===== *)
(** * RpcWire
    The wire format of [swifty_rpc]: [protocol/message.go] and the framing of
    [transport/tcp_connection.go], with the reassembly of messages from a
    stream that arrives in arbitrary pieces. *)
From stdpp Require Import countable.
From S2P Require Import Prelude GoBytes.
(** ** Headers *)

Definition CompressionNone : Z := 0.
Definition CompressionGzip : Z := 1.
Definition StreamNone : Z := 0.
Definition StreamData : Z := 1.
Definition StreamEnd : Z := 2.
Definition StreamError : Z := 3.

Record Header := mkHeader {
  hRequestID : Z;
  hServiceName : string;
  hMethodName : string;
  hError : string;
  hCodecType : Z;
  hCompression : Z;
  hStreamFlag : Z;
}.
#[export] Instance Header_eta : Eta Header := fun h =>
  mkHeader (hRequestID h) (hServiceName h) (hMethodName h) (hError h) (hCodecType h) (hCompression h) (hStreamFlag h).
#[export] Instance Header_eq_dec : EqDecision Header.
Proof. solve_decision. Defined.

(** The values a Go [Header] can have, with text that is UTF-8. *)
Record header_ok (h : Header) : Prop := {
  ho_id : is_u64 (hRequestID h);
  ho_service : utf8_valid (hServiceName h) = true;
  ho_method : utf8_valid (hMethodName h) = true;
  ho_error : utf8_valid (hError h) = true;
  ho_codec : 0 <= hCodecType h < 256;
  ho_compression : 0 <= hCompression h < 256;
  ho_flag : 0 <= hStreamFlag h < 256;
}.

(** ** JSON and gzip *)

Class JsonHeader := {
  json_marshal : Header -> bytes;
  json_unmarshal : bytes -> result string Header;
}.

Class JsonHeaderLaws `{JsonHeader} :=
  json_round_trip : forall h, header_ok h -> json_unmarshal (json_marshal h) = Ok h.

Class Gzip := {
  gzip : bytes -> bytes;
  gunzip : bytes -> result string bytes;
}.

Class GzipLaws `{Gzip} := gzip_round_trip : forall d, gunzip (gzip d) = Ok d.

(** ** The compressor registry: [init] registers gzip and nothing else *)

Record compressor := mkCompressor {
  compress : bytes -> bytes;
  decompress : bytes -> result string bytes;
}.

Section Compressors.
  Context `{Gzip}.

Definition GzipCompressor : compressor := mkCompressor gzip gunzip.
Definition RegisterCompressor (t : Z) (c : compressor) (cs : gmap Z compressor) : gmap Z compressor := <[t := c]> cs.
Definition compressors : gmap Z compressor := RegisterCompressor CompressionGzip GzipCompressor ∅.
Definition GetCompressor (t : Z) : option compressor := compressors !! t.

Definition Compress (data : bytes) (t : Z) : result string bytes :=
  match GetCompressor t with
  | None => Err "compressor not found"%string
  | Some c => Ok (compress c data)
  end.

Definition Decompress (data : bytes) (t : Z) : result string bytes :=
  match GetCompressor t with
  | None => Err "compressor not found"%string
  | Some c => decompress c data
  end.

Lemma GetCompressor_gzip t : GetCompressor t = if decide (t = CompressionGzip) then Some GzipCompressor else None.
Proof.
  unfold GetCompressor, compressors, RegisterCompressor. destruct (decide (t = CompressionGzip)) as [-> |].
  - apply lookup_insert_eq.
  - by rewrite lookup_insert_ne.
Qed.

Lemma Compress_round_trip `{!GzipLaws} data t z : Compress data t = Ok z -> Decompress z t = Ok data.
Proof.
  unfold Compress, Decompress. rewrite GetCompressor_gzip. case_decide; [| done].
  intros [= <-]. apply gzip_round_trip.
Qed.

End Compressors.

(** ** The codec registry *)

Section Codecs.
  Context {Codec : Type}.

(** [Register]: a nil factory and a type already taken panic. *)
Definition Register (t : Z) (f : option (unit -> Codec)) (factories : gmap Z (unit -> Codec))
    : outcome (gmap Z (unit -> Codec)) :=
  match f with
  | None => Panic "codec: factory is nil"
  | Some f =>
      match factories !! t with
      | Some _ => Panic "codec: type already registered"
      | None => Ret (<[t := f]> factories)
      end
  end.

Definition New (factories : gmap Z (unit -> Codec)) (t : Z) : result string Codec :=
  match factories !! t with
  | None => Err "codec: type not registered"%string
  | Some f => Ok (f tt)
  end.

End Codecs.

(** ** Concrete instances, to run the definitions *)

Definition header_tuple (h : Header) : Z * (string * (string * (string * (Z * (Z * Z))))) :=
  (hRequestID h, (hServiceName h, (hMethodName h, (hError h, (hCodecType h, (hCompression h, hStreamFlag h)))))).
Definition tuple_header (t : Z * (string * (string * (string * (Z * (Z * Z)))))) : Header :=
  let '(a, (b, (c, (d, (e, (f, g)))))) := t in mkHeader a b c d e f g.

Fixpoint bits_of (p : positive) : bytes :=
  match p with xH => [] | xO p => 0 :: bits_of p | xI p => 1 :: bits_of p end.
Fixpoint of_bits (l : bytes) : positive :=
  match l with [] => xH | b :: l => if b =? 0 then xO (of_bits l) else xI (of_bits l) end.

Lemma of_bits_of p : of_bits (bits_of p) = p.
Proof. induction p; simpl; congruence. Qed.

Definition bits_json : JsonHeader := {|
  json_marshal := fun h => bits_of (encode (header_tuple h));
  json_unmarshal := fun l => match decode (of_bits l) with Some t => Ok (tuple_header t) | None => Err "syntax"%string end;
|}.

Lemma bits_json_laws : @JsonHeaderLaws bits_json.
Proof. intros h _. simpl. rewrite of_bits_of, decode_encode. by destruct h. Qed.

(** A compressor that puts a mark in front. *)
Definition marked_gzip : Gzip := {|
  gzip := fun d => 31 :: d;
  gunzip := fun d => match d with 31 :: d => Ok d | _ => Err "gzip: invalid header"%string end;
|}.

Lemma marked_gzip_laws : @GzipLaws marked_gzip.
Proof. done. Qed.


(** ** Writing into a buffer *)

(** [copy(buf[off:], src)]; with [whole], [PutUintN] into [buf[off:]]. *)
Definition copy_at (buf : bytes) (off : Z) (src : bytes) : outcome bytes :=
  if decide (0 <= off <= zlen buf) then
    let k := take (length buf - Z.to_nat off) src in
    Ret (take (Z.to_nat off) buf ++ k ++ drop (Z.to_nat off + length k) buf)
  else Panic "slice bounds out of range".

Definition put_at (buf : bytes) (off : Z) (src : bytes) : outcome bytes :=
  if decide (0 <= off /\ off + zlen src <= zlen buf) then copy_at buf off src
  else Panic "slice bounds out of range".

(** ** message.go *)

Definition Magic : Z := 0x1234.

Record Message := mkMessage {
  mHeader : option Header;
  mBody : bytes;
}.

Section Wire.
  Context `{JsonHeader} `{Gzip}.

Definition Encode (msg : Message) : outcome (result string bytes) :=
  match mHeader msg with
  | None => Ret (Err "header is nil"%string)
  | Some h =>
      match (if decide (hCompression h = CompressionNone) then Ok (mBody msg)
             else Compress (mBody msg) (hCompression h)) with
      | Err e => Ret (Err e)
      | Ok bodyBytes =>
          let headerBytes := json_marshal h in
          let headerLen := u32 (zlen headerBytes) in
          let bodyLen := u32 (zlen bodyBytes) in
          let total := u32 (u32 (2 + 4 + 4 + headerLen) + bodyLen) in
          let buf := replicate (Z.to_nat total) 0 in
          let! buf := put_at buf 0 (put_be 2 Magic) in
          let! buf := put_at buf 2 (put_be 4 headerLen) in
          let! buf := put_at buf 6 (put_be 4 bodyLen) in
          let! buf := copy_at buf 10 headerBytes in
          let! buf := copy_at buf (u32 (10 + headerLen)) bodyBytes in
          Ret (Ok buf)
      end
  end.

Definition DecodeHeaderLen (data : bytes) : Z := if decide (zlen data < 4) then 0 else get_be (take 4 data).
Definition DecodeBodyLen (data : bytes) : Z := if decide (zlen data < 4) then 0 else get_be (take 4 data).

Definition max_int : Z := 2 ^ 63 - 1.

Definition Decode (data : bytes) : outcome (result string Message) :=
  if decide (zlen data < 10) then Ret (Err "data too short"%string) else
  let! magic := subslice data 0 2 in
  if decide (get_be magic <> Magic) then Ret (Err "invalid magic number"%string) else
  let! hl := subslice data 2 6 in
  let! bl := subslice data 6 10 in
  let headerLen := get_be hl in
  let bodyLen := get_be bl in
  let totalLen := u64 (u64 (10 + headerLen) + bodyLen) in
  if decide (max_int < totalLen) then Ret (Err "packet too large"%string) else
  if decide (zlen data < totalLen) then Ret (Err "incomplete packet"%string) else
  let! headerBytes := subslice data 10 (u32 (10 + headerLen)) in
  match json_unmarshal headerBytes with
  | Err e => Ret (Err e)
  | Ok header =>
      let! bodyBytes := subslice data (u32 (10 + headerLen)) (u32 (u32 (10 + headerLen) + bodyLen)) in
      if decide (hCompression header = CompressionNone) then Ret (Ok (mkMessage (Some header) bodyBytes))
      else match Decompress bodyBytes (hCompression header) with
           | Err e => Ret (Err e)
           | Ok body => Ret (Ok (mkMessage (Some header) body))
           end
  end.

(** ** tcp_connection.go *)

(** The resync loop of [PacketBuffer.Read]. *)
Fixpoint resync (buf : bytes) : bytes :=
  match buf with
  | a :: rest =>
      match rest with
      | b :: _ => if decide (get_be [a; b] <> Magic) then resync rest else buf
      | [] => buf
      end
  | [] => []
  end.

Definition PacketBuffer_Write (buf data : bytes) : bytes := buf ++ data.

(** The packet, if a whole one has arrived, and the buffer left. *)
Definition PacketBuffer_Read (buf : bytes) : outcome (option bytes * bytes) :=
  let buf := resync buf in
  if decide (zlen buf < 10) then Ret (None, buf) else
  let! hl := subslice buf 2 6 in
  let! bl := subslice buf 6 10 in
  let totalLen := 10 + DecodeHeaderLen hl + DecodeBodyLen bl in
  if decide (zlen buf < totalLen) then Ret (None, buf) else
  let! packet := subslice buf 0 totalLen in
  let! buf := subslice buf totalLen (zlen buf) in
  Ret (Some packet, buf).

(** What the connection still holds: the buffer, and the pieces the socket will
    return before it fails with [connErr]. *)
Record TCPConnection := mkTCPConnection {
  tBuffer : bytes;
  tPieces : list bytes;
  tErr : string;
}.

Fixpoint read_loop (buf : bytes) (pieces : list bytes) (err : string)
    : outcome (result string Message * (bytes * list bytes)) :=
  let! r := PacketBuffer_Read buf in
  match r with
  | (Some packet, buf) => let! m := Decode packet in Ret (m, (buf, pieces))
  | (None, buf) =>
      match pieces with
      | [] => Ret (Err err, (buf, []))
      | piece :: pieces =>
          read_loop (if decide (0 < zlen piece) then PacketBuffer_Write buf piece else buf) pieces err
      end
  end.

Definition TCPConnection_Read (tc : TCPConnection) : outcome (result string Message * TCPConnection) :=
  let! r := read_loop (tBuffer tc) (tPieces tc) (tErr tc) in
  Ret (r.1, mkTCPConnection r.2.1 r.2.2 (tErr tc)).

(** [conn.Write] accepts [n] bytes and may report an error; the socket is the
    list of its answers. The result is what was sent, and the error. *)
Fixpoint write_loop (answers : list (Z * option string)) (data : bytes) : bytes * option string :=
  if decide (data = []) then ([], None) else
  match answers with
  | [] => ([], Some "connection reset"%string)
  | (k, e) :: answers =>
      let k := Z.to_nat (Z.min (Z.max 0 k) (zlen data)) in
      match e with
      | Some e => (take k data, Some e)
      | None => let '(sent, err) := write_loop answers (drop k data) in (take k data ++ sent, err)
      end
  end.

Definition TCPConnection_Write (answers : list (Z * option string)) (msg : Message)
    : outcome (bytes * option string) :=
  let! r := Encode msg in
  match r with
  | Err e => Ret ([], Some e)
  | Ok data => Ret (write_loop answers data)
  end.

End Wire.
