(* ===== verification/RpcWireFacts.v ===== *)
(** * RpcWireFacts
    Round trips of the RPC wire format and reassembly of messages from a
    stream of arbitrary pieces with garbage between them. *)
From S2P Require Import Prelude GoBytes RpcWire.

(** ** Buffers *)

Lemma copy_at_fill pre fill src :
  copy_at (pre ++ fill) (zlen pre) src
    = Ret (pre ++ take (length fill) src ++ drop (length (take (length fill) src)) fill).
Proof.
  unfold copy_at. rewrite decide_True by (rewrite zlen_app; pose proof (zlen_nonneg pre); pose proof (zlen_nonneg fill); lia).
  unfold zlen. rewrite Nat2Z.id, length_app.
  replace (length pre + length fill - length pre)%nat with (length fill) by lia.
  rewrite take_app_length, drop_app_add'; [done | done].
Qed.

Lemma put_at_fill pre fill src :
  zlen src <= zlen fill -> put_at (pre ++ fill) (zlen pre) src = Ret (pre ++ src ++ drop (length src) fill).
Proof.
  intros Hs. unfold put_at. pose proof (zlen_nonneg pre).
  rewrite decide_True by (rewrite zlen_app; lia). rewrite copy_at_fill.
  rewrite take_ge by (unfold zlen in Hs; lia). done.
Qed.

Lemma zlen_fill {A} n (x : A) : 0 <= n -> zlen (replicate (Z.to_nat n) x) = n.
Proof. intros. unfold zlen. rewrite length_replicate. lia. Qed.

Lemma subslice_mid {A} (pre mid post : list A) lo hi :
  zlen pre = lo -> lo + zlen mid = hi -> subslice (pre ++ mid ++ post) lo hi = Ret mid.
Proof.
  intros <- <-. pose proof (zlen_nonneg pre). pose proof (zlen_nonneg mid). pose proof (zlen_nonneg post).
  rewrite subslice_total by (rewrite ?zlen_app; lia). unfold zlen.
  rewrite Nat2Z.id, drop_app_length. replace (Z.to_nat (Z.of_nat (length pre) + Z.of_nat (length mid) - Z.of_nat (length pre))) with (length mid) by lia.
  by rewrite take_app_length.
Qed.

(** ** Frames *)

Definition frame (header body : bytes) : bytes :=
  put_be 2 Magic ++ put_be 4 (zlen header) ++ put_be 4 (zlen body) ++ header ++ body.

Definition small (header body : bytes) : Prop := 10 + zlen header + zlen body < 2 ^ 32.

Lemma zlen_put_be n x : zlen (put_be n x) = Z.of_nat n.
Proof. unfold zlen. by rewrite length_put_be. Qed.

Lemma zlen_frame h b : zlen (frame h b) = 10 + zlen h + zlen b.
Proof. unfold frame. rewrite !zlen_app, !zlen_put_be. lia. Qed.

(** The lengths on the wire are those of the parts, so a frame delimits itself. *)
Lemma frame_parts h b extra :
  small h b ->
  subslice (frame h b ++ extra) 0 2 = Ret (put_be 2 Magic)
  /\ subslice (frame h b ++ extra) 2 6 = Ret (put_be 4 (zlen h))
  /\ subslice (frame h b ++ extra) 6 10 = Ret (put_be 4 (zlen b))
  /\ subslice (frame h b ++ extra) 10 (10 + zlen h) = Ret h
  /\ subslice (frame h b ++ extra) (10 + zlen h) (10 + zlen h + zlen b) = Ret b
  /\ get_be (put_be 4 (zlen h)) = zlen h /\ get_be (put_be 4 (zlen b)) = zlen b.
Proof.
  intros Hs. pose proof (zlen_nonneg h). pose proof (zlen_nonneg b). unfold small in Hs.
  unfold frame. rewrite <- !app_assoc. split_and!.
  - apply (subslice_mid []); [done |]. by rewrite zlen_put_be.
  - apply subslice_mid; by rewrite ?zlen_put_be.
  - rewrite (app_assoc (put_be 2 Magic)). apply subslice_mid; by rewrite ?zlen_app, ?zlen_put_be.
  - rewrite (app_assoc (put_be 2 Magic)), (app_assoc (_ ++ _)). apply subslice_mid; rewrite ?zlen_app, ?zlen_put_be; lia.
  - rewrite (app_assoc (put_be 2 Magic)), (app_assoc (_ ++ _)), (app_assoc ((_ ++ _) ++ _)).
    apply subslice_mid; rewrite ?zlen_app, ?zlen_put_be; lia.
  - apply get_put_u32. unfold is_u32. lia.
  - apply get_put_u32. unfold is_u32. lia.
Qed.

Lemma get_magic : get_be (put_be 2 Magic) = Magic.
Proof. reflexivity. Qed.

Section Messages.
  Context `{HJ : JsonHeaderLaws} `{HG : GzipLaws}.

(** The body as it travels. *)
Definition wire_body (msg : Message) (h : Header) : result string bytes :=
  if decide (hCompression h = CompressionNone) then Ok (mBody msg) else Compress (mBody msg) (hCompression h).

(** [Encode] on any body: the lengths, and with them the copy, are cut at
    32 bits. *)
Lemma Encode_cut msg h body :
  mHeader msg = Some h -> wire_body msg h = Ok body -> 10 + zlen (json_marshal h) + u32 (zlen body) < 2 ^ 32 ->
  Encode msg = Ret (Ok (frame (json_marshal h) (take (Z.to_nat (u32 (zlen body))) body))).
Proof.
  intros Hh Hb Hs. unfold Encode. rewrite Hh. unfold wire_body in Hb. rewrite Hb.
  set (hb := json_marshal h) in *. pose proof (zlen_nonneg hb) as Hhb. pose proof (u32_range (zlen body)) as Hbr.
  unfold is_u32 in Hbr. set (bl := u32 (zlen body)) in *.
  assert (Hbl : bl <= zlen body) by (apply Z.mod_le; [apply zlen_nonneg | done]).
  rewrite !(u32_id (zlen hb)) by (unfold is_u32; lia).
  rewrite (u32_id (2 + 4 + 4 + zlen hb)) by (unfold is_u32; lia).
  rewrite (u32_id (2 + 4 + 4 + zlen hb + bl)), (u32_id (10 + zlen hb)) by (unfold is_u32; lia).
  set (fill := replicate (Z.to_nat (2 + 4 + 4 + zlen hb + bl)) 0).
  assert (Hfill : zlen fill = 10 + zlen hb + bl) by (unfold fill; rewrite zlen_fill; lia).
  rewrite (put_at_fill [] fill) by (rewrite zlen_put_be; lia). cbn [obind app].
  rewrite (put_at_fill (put_be 2 Magic)) by (rewrite zlen_drop, zlen_put_be, length_put_be; lia). cbn [obind].
  rewrite drop_drop, !length_put_be, app_assoc.
  rewrite (put_at_fill (put_be 2 Magic ++ put_be 4 (zlen hb))) by (rewrite zlen_drop, zlen_put_be; lia). cbn [obind].
  rewrite drop_drop, !length_put_be, app_assoc.
  replace 10 with (zlen ((put_be 2 Magic ++ put_be 4 (zlen hb)) ++ put_be 4 bl)) at 1 by (rewrite !zlen_app, !zlen_put_be; lia).
  assert (Hl : length (drop (2 + 4 + 4) fill) = (length hb + Z.to_nat bl)%nat) by (rewrite length_drop; unfold zlen in *; lia).
  rewrite copy_at_fill. cbn [obind]. rewrite (take_ge hb) by lia. rewrite drop_drop, app_assoc.
  replace (10 + zlen hb) with (zlen (((put_be 2 Magic ++ put_be 4 (zlen hb)) ++ put_be 4 bl) ++ hb))
    by (rewrite !zlen_app, !zlen_put_be; lia).
  rewrite copy_at_fill. cbn [obind]. unfold frame.
  replace (length (drop (2 + 4 + 4 + length hb) fill)) with (Z.to_nat bl) by (rewrite length_drop in *; lia).
  rewrite (drop_ge (drop _ fill)) by (rewrite length_take, !length_drop in *; unfold zlen in *; lia).
  rewrite app_nil_r. rewrite zlen_take. replace (Z.min (Z.of_nat (Z.to_nat bl)) (zlen body)) with bl by lia.
  by rewrite <- !app_assoc.
Qed.

Lemma Encode_frame msg h body :
  mHeader msg = Some h -> wire_body msg h = Ok body -> small (json_marshal h) body ->
  Encode msg = Ret (Ok (frame (json_marshal h) body)).
Proof.
  unfold small. intros Hh Hb Hs. pose proof (zlen_nonneg body). pose proof (zlen_nonneg (json_marshal h)).
  assert (Hu : u32 (zlen body) = zlen body) by (apply u32_id; unfold is_u32; lia).
  rewrite (Encode_cut msg h body) by (done || lia). rewrite Hu, take_ge by (unfold zlen; lia). done.
Qed.

Lemma Decode_frame hb body extra :
  small hb body ->
  Decode (frame hb body ++ extra) =
    match json_unmarshal hb with
    | Err e => Ret (Err e)
    | Ok h => if decide (hCompression h = CompressionNone) then Ret (Ok (mkMessage (Some h) body))
              else match Decompress body (hCompression h) with
                   | Err e => Ret (Err e)
                   | Ok b => Ret (Ok (mkMessage (Some h) b))
                   end
    end.
Proof.
  intros Hs. destruct (frame_parts hb body extra Hs) as (E1 & E2 & E3 & E4 & E5 & G1 & G2).
  pose proof (zlen_nonneg hb). pose proof (zlen_nonneg body). pose proof (zlen_nonneg extra). unfold small in Hs.
  unfold Decode. rewrite decide_False by (rewrite zlen_app, zlen_frame; lia). rewrite E1. cbn [obind].
  rewrite (decide_False (P := get_be (put_be 2 Magic) <> Magic)) by (rewrite get_magic; tauto).
  rewrite E2. cbn [obind]. rewrite E3. cbn [obind]. rewrite G1, G2.
  rewrite (u64_id (10 + zlen hb)) by (unfold is_u64; lia). rewrite (u64_id (10 + zlen hb + zlen body)) by (unfold is_u64; lia).
  unfold max_int. rewrite (decide_False (P := 2 ^ 63 - 1 < _)) by lia.
  rewrite decide_False by (rewrite zlen_app, zlen_frame; lia).
  rewrite (u32_id (10 + zlen hb)) by (unfold is_u32; lia). rewrite E4. cbn [obind].
  destruct (json_unmarshal hb) as [h | e]; [| done].
  rewrite (u32_id (10 + zlen hb + zlen body)) by (unfold is_u32; lia). rewrite E5. done.
Qed.

Record fits (msg : Message) (f : bytes) : Prop := {
  fits_frame : exists h body, mHeader msg = Some h /\ header_ok h /\ wire_body msg h = Ok body
    /\ small (json_marshal h) body /\ f = frame (json_marshal h) body;
}.

Lemma fits_encode msg f : fits msg f -> Encode msg = Ret (Ok f).
Proof. intros [(h & body & Hh & _ & Hb & Hs & ->)]. by apply Encode_frame. Qed.

Lemma fits_decode msg f extra : fits msg f -> Decode (f ++ extra) = Ret (Ok msg).
Proof.
  intros [(h & body & Hh & Hok & Hb & Hs & ->)]. rewrite Decode_frame, json_round_trip by done.
  unfold wire_body in Hb. destruct msg as [mh mb]. simpl in *. subst mh.
  destruct (decide (hCompression h = CompressionNone)); [by injection Hb as -> |].
  by rewrite (Compress_round_trip _ _ _ Hb).
Qed.

(** ** Framing *)

(** Bytes between two messages that cannot be taken for the start of one. *)
Definition garbage (g : bytes) : Prop := Forall (fun b => b <> 18) g.

Lemma magic_bytes : put_be 2 Magic = [18; 52].
Proof. reflexivity. Qed.

Lemma magic_head a b : 0 <= b < 256 -> a <> 18 -> get_be [a; b] <> Magic.
Proof.
  intros Hb Ha He. unfold get_be, Magic in He. cbn [fold_left] in He. rewrite Z.shiftl_0_l, Z.lor_0_l in He.
  assert (Hs : Z.shiftr (Z.lor (Z.shiftl a 8) b) 8 = Z.shiftr 0x1234 8) by (by rewrite He).
  rewrite Z.shiftr_lor, Z.shiftr_shiftl_l, Z.sub_diag, Z.shiftl_0_r in Hs by lia.
  rewrite (Z.shiftr_div_pow2 b) in Hs by lia. rewrite (Z.div_small b) in Hs by lia. rewrite Z.lor_0_r in Hs.
  by change (Z.shiftr 0x1234 8) with 18 in Hs.
Qed.

Lemma resync_magic l : resync (18 :: 52 :: l) = 18 :: 52 :: l.
Proof. reflexivity. Qed.

(** Skipping garbage keeps at most its last byte, when nothing follows it. *)
Lemma resync_garbage g l :
  garbage g -> octets g -> octets l ->
  (l = [] /\ exists g', resync g = g' /\ (length g' <= 1)%nat /\ garbage g' /\ octets g')
  \/ (l <> [] /\ resync (g ++ l) = resync l).
Proof.
  intros Hg Ho Hol. destruct l as [| x l]; [left; split; [done |] | right; split; [done |]].
  - exists (resync g). split; [done |]. induction Hg as [| a g Ha Hg IH]; simpl; [split_and!; [lia | constructor..] |].
    apply Forall_cons in Ho as [Hoa Ho]. destruct g as [| b g].
    + split_and!; [simpl; lia | by apply list.Forall_singleton | by apply list.Forall_singleton].
    + apply Forall_cons in Ho as Hob. rewrite decide_True by (apply magic_head; [apply Hob | done]). by apply IH.
  - induction Hg as [| a g Ha Hg IH]; [done |]. apply Forall_cons in Ho as [Hoa Ho]. simpl. specialize (IH Ho).
    destruct (g ++ x :: l) as [| b t] eqn:E; [by destruct g |].
    rewrite decide_True; [done |]. apply magic_head; [| done].
    assert (Hall : octets (b :: t)) by (rewrite <- E; by apply Forall_app). by apply Forall_cons in Hall as [? _].
Qed.

Lemma read_garbage g :
  garbage g -> octets g -> exists g', PacketBuffer_Read g = Ret (None, g') /\ garbage g' /\ octets g'.
Proof.
  intros Hg Ho. destruct (resync_garbage g [] Hg Ho) as [(_ & g' & Hr & Hl & Hg' & Ho') | [? _]]; [constructor | | done].
  exists g'. unfold PacketBuffer_Read. rewrite Hr. rewrite decide_True by (unfold zlen; lia). done.
Qed.

Lemma frame_head h b : exists t, frame h b = 18 :: 52 :: t.
Proof. unfold frame. rewrite magic_bytes. by eexists. Qed.

Lemma take_frame_resync h b extra k : resync (take k (frame h b ++ extra)) = take k (frame h b ++ extra).
Proof.
  destruct (frame_head h b) as (t & ->). destruct k as [| [| k]]; [done | done |]. simpl. done.
Qed.

Lemma DecodeHeaderLen_put x : DecodeHeaderLen (put_be 4 x) = get_be (put_be 4 x).
Proof. unfold DecodeHeaderLen. by rewrite decide_False by (rewrite zlen_put_be; lia). Qed.

(** A whole frame at the front of the buffer is cut out. *)
Lemma read_whole h b extra :
  small h b -> PacketBuffer_Read (frame h b ++ extra) = Ret (Some (frame h b), extra).
Proof.
  intros Hs. destruct (frame_parts h b extra Hs) as (_ & E2 & E3 & _ & _ & G1 & G2).
  pose proof (zlen_nonneg h). pose proof (zlen_nonneg b). pose proof (zlen_nonneg extra).
  assert (Hr : resync (frame h b ++ extra) = frame h b ++ extra).
  { pose proof (take_frame_resync h b extra (length (frame h b ++ extra))) as Ht. by rewrite firstn_all in Ht. }
  unfold PacketBuffer_Read. rewrite Hr. rewrite decide_False by (rewrite zlen_app, zlen_frame; lia).
  rewrite E2. cbn [obind]. rewrite E3. cbn [obind]. change DecodeBodyLen with DecodeHeaderLen.
  rewrite !DecodeHeaderLen_put, G1, G2.
  rewrite decide_False by (rewrite zlen_app, zlen_frame; lia).
  rewrite (subslice_mid [] (frame h b) extra) by (rewrite ?zlen_frame; done || lia). cbn [obind].
  rewrite <- (app_nil_r extra) at 1. rewrite (subslice_mid (frame h b) extra []) by (rewrite ?app_nil_r, ?zlen_app, ?zlen_frame; lia).
  done.
Qed.

Lemma subslice_take {A} (l : list A) k lo hi :
  hi <= Z.of_nat k -> hi <= zlen (take k l) -> subslice (take k l) lo hi = subslice l lo hi.
Proof.
  intros Hk Hl. unfold subslice. rewrite zlen_take in *.
  destruct (decide (0 <= lo /\ lo <= hi /\ hi <= zlen l)) as [Hd | Hd].
  - rewrite decide_True by lia. f_equal. rewrite skipn_firstn_comm, firstn_firstn. f_equal. lia.
  - rewrite decide_False by lia. done.
Qed.

(** A part of a frame waits for the rest. *)
Lemma read_partial h b k :
  small h b -> (k < length (frame h b))%nat ->
  PacketBuffer_Read (take k (frame h b)) = Ret (None, take k (frame h b)).
Proof.
  intros Hs Hk. destruct (frame_parts h b [] Hs) as (_ & E2 & E3 & _ & _ & G1 & G2). rewrite app_nil_r in *.
  pose proof (take_frame_resync h b [] k) as Hr. rewrite app_nil_r in Hr.
  assert (Hlen : zlen (take k (frame h b)) = Z.of_nat k) by (rewrite zlen_take; unfold zlen; lia).
  unfold PacketBuffer_Read. rewrite Hr, Hlen. destruct (decide (Z.of_nat k < 10)) as [| Hk10]; [done |].
  rewrite !subslice_take by lia. rewrite E2. cbn [obind]. rewrite E3. cbn [obind]. change DecodeBodyLen with DecodeHeaderLen.
  rewrite !DecodeHeaderLen_put, G1, G2.
  rewrite decide_True; [done |]. pose proof (zlen_frame h b). unfold zlen in *. lia.
Qed.

(** ** One message out of a stream *)

(** [l] is in front of, or inside, [g ++ x]. *)
Lemma app_split_at (buf pieces g x : bytes) :
  buf ++ pieces = g ++ x ->
  (exists g2, g = buf ++ g2 /\ pieces = g2 ++ x) \/ (exists l, l <> [] /\ buf = g ++ l /\ x = l ++ pieces).
Proof.
  intros He. apply app_eq_app in He as (l & [[-> ->] | [-> ->]]).
  - destruct l as [| y l]; [left; exists []; by rewrite !app_nil_r | right; by exists (y :: l)].
  - left. by exists l.
Qed.

(** What the buffer may hold before the next frame is complete. *)
Lemma read_before h b g buf pieces rest :
  small h b -> octets (frame h b) -> octets rest -> garbage g -> octets g -> buf ++ pieces = g ++ frame h b ++ rest ->
  (exists g' k, PacketBuffer_Read buf = Ret (None, g') /\ garbage k /\ octets k
     /\ g' ++ pieces = k ++ frame h b ++ rest /\ pieces <> [])
  \/ exists buf', PacketBuffer_Read buf = Ret (Some (frame h b), buf') /\ buf' ++ pieces = rest.
Proof.
  intros Hs Hof Hor Hg Ho He. destruct (app_split_at _ _ _ _ He) as [(g2 & -> & Hp) | (l & Hne & -> & Hx)].
  - apply Forall_app in Hg as [Hg Hg2]. apply Forall_app in Ho as [Ho Ho2].
    destruct (read_garbage buf Hg Ho) as (g' & Hr & Hg' & Ho'). left. exists g', (g' ++ g2).
    split_and!; [done | by apply Forall_app | by apply Forall_app | by rewrite Hp, <- app_assoc |].
    intros ->. destruct (frame_head h b) as (t & Ht). rewrite Ht in Hp. by destruct g2.
  - assert (Hol : octets l).
    { assert (Hall : octets (frame h b ++ rest)) by (by apply Forall_app). rewrite Hx in Hall. by apply Forall_app in Hall as [? _]. }
    destruct (resync_garbage g l Hg Ho Hol) as [[? _] | [_ Hr]]; [done |].
    assert (Hrl : resync l = l /\ ((exists k, (k < length (frame h b))%nat /\ l = take k (frame h b) /\ pieces <> []
                                      /\ l ++ pieces = frame h b ++ rest)
                                   \/ exists r, l = frame h b ++ r /\ r ++ pieces = rest)).
    { destruct (decide (length l < length (frame h b))%nat) as [Hlt | Hge].
      - assert (Hl : l = take (length l) (frame h b)).
        { transitivity (take (length l) (frame h b ++ rest)); [by rewrite Hx, take_app_length | by rewrite take_app_le by lia]. }
        split; [rewrite Hl, <- (app_nil_r (frame h b)); apply take_frame_resync |]. left. exists (length l).
        split_and!; [done | done | | done]. intros ->. rewrite app_nil_r in Hx. subst l. rewrite length_app in Hlt. lia.
      - assert (Hl : l = frame h b ++ drop (length (frame h b)) l).
        { rewrite <- (take_drop (length (frame h b)) l) at 1. f_equal.
          transitivity (take (length (frame h b)) (l ++ pieces)); [by rewrite take_app_le by lia | by rewrite <- Hx, take_app_length]. }
        split; [| right; exists (drop (length (frame h b)) l); split; [done |]].
        + rewrite Hl, <- (firstn_all (frame h b ++ _)). apply take_frame_resync.
        + rewrite Hl in Hx. rewrite <- app_assoc in Hx. by apply app_inv_head in Hx. }
    destruct Hrl as [Hrl Hcase]. rewrite Hrl in Hr.
    assert (Hread : PacketBuffer_Read (g ++ l) = PacketBuffer_Read l).
    { unfold PacketBuffer_Read. by rewrite Hr, Hrl. }
    rewrite Hread. destruct Hcase as [(k & Hk & Hl & Hpn & Hsum) | (r & -> & Hsum)].
    + left. exists l, []. split_and!; [| constructor | constructor | done | done]. rewrite Hl. by apply read_partial.
    + right. exists r. split; [by apply read_whole | done].
Qed.

Lemma read_loop_one h b rest pieces err g buf :
  small h b -> octets (frame h b) -> octets rest -> garbage g -> octets g ->
  buf ++ concat pieces = g ++ frame h b ++ rest ->
  exists buf' pieces', read_loop buf pieces err = (let! m := Decode (frame h b) in Ret (m, (buf', pieces')))
    /\ buf' ++ concat pieces' = rest.
Proof.
  intros Hs Hof Hor. revert g buf. induction pieces as [| piece pieces IH]; intros g buf Hg Ho He; cbn [concat] in He;
    (destruct (read_before h b g buf _ rest Hs Hof Hor Hg Ho He) as [(g' & k & Hr & Hgk & Hok & Hsum & Hne) | (buf' & Hr & Hsum)];
     cbn [read_loop]; rewrite Hr; cbn [obind]).
  - done.
  - exists buf', []. done.
  - apply (IH k); [done | done |]. case_decide as Hp.
    + unfold PacketBuffer_Write. by rewrite <- app_assoc.
    + pose proof (zlen_nonneg piece). assert (Hz : zlen piece = 0) by lia. apply zlen_0 in Hz as ->. done.
  - exists buf', (piece :: pieces). done.
Qed.

(** The end of the stream: nothing is left but garbage. *)
Lemma read_loop_end pieces err g buf :
  garbage g -> octets g -> buf ++ concat pieces = g ->
  exists rest, read_loop buf pieces err = Ret (Err err, rest).
Proof.
  revert g buf. induction pieces as [| piece pieces IH]; intros g buf Hg Ho He; cbn [concat] in He; cbn [read_loop];
    rewrite <- He in Hg, Ho; apply Forall_app in Hg as [Hg1 Hg2]; apply Forall_app in Ho as [Ho1 Ho2];
    destruct (read_garbage buf Hg1 Ho1) as (g' & -> & Hg' & Ho'); cbn [obind].
  - by eexists.
  - apply (IH (g' ++ piece ++ concat pieces)); [by apply Forall_app | by apply Forall_app |]. case_decide as Hp.
    + unfold PacketBuffer_Write. by rewrite <- app_assoc.
    + pose proof (zlen_nonneg piece). assert (Hz : zlen piece = 0) by lia. by apply zlen_0 in Hz as ->.
Qed.

End Messages.
