(* ===== verification/RpcWireTheorems.v ===== *)
(** * RpcWireTheorems
    The wire format of [swifty_rpc]: messages survive encoding, chopping into
    pieces and interleaved garbage; no input makes the receiver panic; and what
    becomes of a body that does not fit the 32-bit lengths. *)
From S2P Require Import Prelude GoBytes RpcWire RpcWireFacts.

(** ** Totality *)

Lemma get_be_bound l : octets l -> 0 <= get_be l < 2 ^ (8 * zlen l).
Proof.
  enough (Hgen : forall acc k, octets l -> 0 <= k -> 0 <= acc < 2 ^ k ->
    0 <= fold_left (fun acc b => Z.lor (Z.shiftl acc 8) b) l acc < 2 ^ (k + 8 * zlen l)).
  { intros Hl. exact (Hgen 0 0 Hl ltac:(lia) ltac:(simpl; lia)). }
  induction l as [| b l IH]; intros acc k Hl Hk Ha; cbn [fold_left].
  - replace (k + 8 * zlen []) with k by (unfold zlen; simpl; lia). done.
  - apply Forall_cons in Hl as [Hb Hl]. rewrite zlen_cons. replace (k + 8 * (1 + zlen l)) with (k + 8 + 8 * zlen l) by lia.
    apply IH; [done | lia |]. split.
    + apply Z.lor_nonneg. split; [apply Z.shiftl_nonneg |]; lia.
    + assert (Hs : Z.shiftr (Z.lor (Z.shiftl acc 8) b) (k + 8) = 0).
      { rewrite Z.shiftr_lor, Z.shiftr_shiftl_r, !Z.shiftr_div_pow2 by lia.
        replace (k + 8 - 8) with k by lia. rewrite Z.div_small by done. rewrite Z.div_small; [done |].
        split; [lia |]. apply Z.lt_le_trans with (2 ^ 8); [lia | apply Z.pow_le_mono_r; lia]. }
      apply Z.shiftr_eq_0_iff in Hs as [-> | [? Hlog]]; [lia |]. apply Z.log2_lt_pow2; lia.
Qed.

Lemma octets_subslice l lo hi k : octets l -> subslice l lo hi = Ret k -> octets k /\ zlen k = hi - lo.
Proof.
  intros Hl [Hb ->]%subslice_ret. split; [by apply Forall_take, Forall_drop |].
  rewrite zlen_take, zlen_drop. lia.
Qed.

Section Theorems.
  Context `{HJ : JsonHeaderLaws} `{HG : GzipLaws}.

(** Whatever octets arrive, [Decode] returns a message or an error, never a
    panic, on any input shorter than 4 GiB: malformed lengths, a bad magic
    number and undecodable headers or bodies are all errors. *)
Theorem decode_never_panics data :
  octets data -> zlen data < 2 ^ 32 -> is_ret (Decode data).
Proof.
  intros Ho Hlen. unfold Decode. destruct (decide (zlen data < 10)); [by eexists |].
  destruct (subslice data 0 2) as [m |] eqn:E1; [| by rewrite subslice_total in E1 by lia].
  cbn [obind]. destruct (decide (get_be m <> Magic)); [by eexists |].
  destruct (subslice data 2 6) as [hl |] eqn:E2; [| by rewrite subslice_total in E2 by lia].
  destruct (subslice data 6 10) as [bl |] eqn:E3; [| by rewrite subslice_total in E3 by lia]. cbn [obind].
  destruct (octets_subslice _ _ _ _ Ho E2) as [Hhl Hz2]. destruct (octets_subslice _ _ _ _ Ho E3) as [Hbl Hz3].
  pose proof (get_be_bound hl Hhl) as B2. pose proof (get_be_bound bl Hbl) as B3. rewrite Hz2 in B2. rewrite Hz3 in B3.
  change (2 ^ (8 * (6 - 2))) with (2 ^ 32) in B2. change (2 ^ (8 * (10 - 6))) with (2 ^ 32) in B3.
  rewrite (u64_id (10 + get_be hl)) by (unfold is_u64; lia). rewrite (u64_id (_ + _)) by (unfold is_u64; lia).
  destruct (decide (max_int < _)); [by eexists |]. destruct (decide (zlen data < _)) as [| Hfits]; [by eexists |].
  rewrite (u32_id (10 + get_be hl)) by (unfold is_u32; lia). rewrite subslice_total by lia. cbn [obind].
  destruct (json_unmarshal _) as [h |]; [| by eexists].
  rewrite (u32_id (_ + _)) by (unfold is_u32; lia). rewrite subslice_total by lia. cbn [obind].
  destruct (decide _); [by eexists |]. destruct (Decompress _ _); by eexists.
Qed.

(** ** Round trips *)

(** A message that fits the 32-bit lengths is encoded to magic, lengths,
    header and body, and decoded to the same message, compressed or not, even
    with more data behind it; a compression type nobody registered is an
    error of [Encode]. *)
Theorem encode_decode msg h :
  mHeader msg = Some h -> header_ok h ->
  match wire_body msg h with
  | Err e => Encode msg = Ret (Err e) /\ hCompression h <> CompressionNone /\ hCompression h <> CompressionGzip
  | Ok body => small (json_marshal h) body -> exists data, Encode msg = Ret (Ok data)
      /\ zlen data = 10 + zlen (json_marshal h) + zlen body
      /\ forall extra, Decode (data ++ extra) = Ret (Ok msg)
  end.
Proof.
  intros Hh Hok. destruct (wire_body msg h) as [body | e] eqn:Hb.
  - intros Hs. exists (frame (json_marshal h) body).
    assert (Hf : fits msg (frame (json_marshal h) body)) by (constructor; eauto 10).
    split_and!; [by apply fits_encode | apply zlen_frame | intros extra; by apply fits_decode].
  - unfold Encode. unfold wire_body in Hb. rewrite Hh, Hb. split; [done |].
    destruct (decide (hCompression h = CompressionNone)); [done |]. split; [done |].
    unfold Compress in Hb. rewrite GetCompressor_gzip in Hb. by destruct (decide (hCompression h = CompressionGzip)).
Qed.

(** A body of 4 GiB or more is cut: the lengths wrap at 32 bits, so the
    frame carries only the length modulo 2^32 of it, [Encode] reports success
    and the receiver decodes the shortened body. *)
Theorem encode_cuts_large_body msg h :
  mHeader msg = Some h -> header_ok h -> hCompression h = CompressionNone ->
  2 ^ 32 <= zlen (mBody msg) -> 10 + zlen (json_marshal h) + u32 (zlen (mBody msg)) < 2 ^ 32 ->
  exists data, Encode msg = Ret (Ok data)
    /\ Decode data = Ret (Ok (mkMessage (Some h) (take (Z.to_nat (u32 (zlen (mBody msg)))) (mBody msg))))
    /\ Decode data <> Ret (Ok msg).
Proof.
  intros Hh Hok Hc Hlarge Hs. pose proof (u32_range (zlen (mBody msg))) as Hu. unfold is_u32 in Hu.
  assert (Hb : wire_body msg h = Ok (mBody msg)) by (unfold wire_body; by rewrite decide_True).
  eexists. split; [by eapply Encode_cut |].
  assert (Hlen : zlen (take (Z.to_nat (u32 (zlen (mBody msg)))) (mBody msg)) = u32 (zlen (mBody msg))) by (rewrite zlen_take; lia).
  enough (Hd : Decode (frame (json_marshal h) (take (Z.to_nat (u32 (zlen (mBody msg)))) (mBody msg)))
    = Ret (Ok (mkMessage (Some h) (take (Z.to_nat (u32 (zlen (mBody msg)))) (mBody msg))))).
  { split; [done |]. rewrite Hd. intros [= He]. destruct msg as [mh mb]. injection He as _ He. simpl in *.
    rewrite He in Hlen. lia. }
  rewrite <- (app_nil_r (frame _ _)), Decode_frame by (unfold small; rewrite Hlen; lia).
  rewrite json_round_trip by done. by rewrite decide_True.
Qed.

(** ** The stream *)

(** [k] calls of [Read] in a row. *)
Fixpoint reads (k : nat) (tc : TCPConnection) : outcome (list (result string Message) * TCPConnection) :=
  match k with
  | O => Ret ([], tc)
  | S k => let! r := TCPConnection_Read tc in let! rs := reads k r.2 in Ret (r.1 :: rs.1, rs.2)
  end.

(** What a peer sends: garbage, then a message. *)
Definition sent (ms : list (bytes * Message)) (l : bytes) : Prop :=
  exists fs, Forall2 (fun gm f => fits gm.2 f /\ octets f /\ garbage gm.1 /\ octets gm.1) ms fs
    /\ l = concat (zip_with (fun gm f => gm.1 ++ f) ms fs).

Lemma sent_cons g m ms l :
  sent ((g, m) :: ms) l -> exists f rest, l = g ++ f ++ rest /\ fits m f /\ octets f /\ garbage g /\ octets g /\ sent ms rest.
Proof.
  intros (fs & Hf & ->). apply Forall2_cons_inv_l in Hf as (f & fs' & (Hm & Hof & Hg & Hog) & Hf & ->).
  exists f, (concat (zip_with (fun gm f => gm.1 ++ f) ms fs')). split; [simpl; by rewrite <- app_assoc |].
  split_and!; [done.. |]. by exists fs'.
Qed.

Lemma sent_octets ms l : sent ms l -> octets l.
Proof.
  intros (fs & Hf & ->). induction Hf as [| [g m] f ms fs (_ & Hof & _ & Hog) _ IH]; simpl; [constructor |].
  apply Forall_app. split; [by apply Forall_app | done].
Qed.

(** C6: however the stream is chopped into pieces, and whatever garbage without
    a magic byte stands between the messages, [Read] returns exactly the
    messages that were sent, in order, and then the error of the socket. *)
Theorem stream_reassembly ms l tail pieces err :
  sent ms l -> garbage tail -> octets tail -> concat pieces = l ++ tail ->
  exists tc tc', reads (length ms) (mkTCPConnection [] pieces err) = Ret ((fun gm => Ok gm.2) <$> ms, tc)
    /\ TCPConnection_Read tc = Ret (Err err, tc').
Proof.
  intros Hs Hg Ho He.
  enough (Hgen : forall buf pieces, buf ++ concat pieces = l ++ tail ->
    exists tc tc', reads (length ms) (mkTCPConnection buf pieces err) = Ret ((fun gm => Ok gm.2) <$> ms, tc)
      /\ TCPConnection_Read tc = Ret (Err err, tc')) by (by apply Hgen).
  clear pieces He. revert l Hs. induction ms as [| [g m] ms IH]; intros l Hs buf pieces He.
  - destruct Hs as (fs & Hf & ->). apply Forall2_nil_inv_l in Hf as ->. simpl in He.
    destruct (read_loop_end pieces err tail buf Hg Ho He) as (rest & Hr). eexists _, _. split; [done |].
    unfold TCPConnection_Read. simpl. by rewrite Hr.
  - destruct (sent_cons _ _ _ _ Hs) as (f & rest & -> & Hf & Hof & Hgg & Hgo & Hs').
    pose proof Hf as [(h & body & _ & _ & _ & Hsm & Hfr)]. rewrite Hfr in Hof, He.
    rewrite <- !app_assoc in He.
    destruct (read_loop_one (json_marshal h) body (rest ++ tail) pieces err g buf Hsm Hof) as (buf' & pieces' & Hr & He'); try done.
    { apply Forall_app. split; [by eapply sent_octets | done]. }
    destruct (IH rest Hs' buf' pieces' He') as (tc & tc' & Hrs & Hend). exists tc, tc'. split; [| done].
    cbn [length reads fmap list_fmap]. unfold TCPConnection_Read at 1. cbn [tBuffer tPieces tErr]. rewrite Hr.
    rewrite <- Hfr, <- (app_nil_r f), (fits_decode m f [] Hf). cbn [obind fst snd].
    unfold fmap in Hrs. by rewrite Hrs.
Qed.

(** C32: [Write] never leaves a message half sent in silence: what reaches the
    socket is a prefix of the frame, and all of it when no error is returned. *)
Theorem write_all_or_error answers msg f bs err :
  fits msg f -> TCPConnection_Write answers msg = Ret (bs, err) ->
  bs `prefix_of` f /\ (err = None -> bs = f).
Proof.
  intros Hf. unfold TCPConnection_Write. rewrite (fits_encode msg f Hf). cbn [obind]. intros [= Hw].
  clear Hf. revert f bs Hw. induction answers as [| [k e] answers IH]; intros f bs; simpl; destruct (decide (f = [])) as [-> | Hne].
  - intros [= <- <-]. done.
  - intros [= <- <-]. split; [apply prefix_nil | done].
  - intros [= <- <-]. done.
  - destruct e as [e |]; [intros [= <- <-]; split; [by exists (drop (Z.to_nat (Z.min (Z.max 0 k) (zlen f))) f); rewrite take_drop | done] |].
    set (j := Z.to_nat (Z.min (Z.max 0 k) (zlen f))). destruct (write_loop answers (drop j f)) as [bs' err'] eqn:Hw.
    intros [= <- <-]. destruct (IH _ _ Hw) as [[t Ht] Hall]. split.
    + exists t. by rewrite <- app_assoc, <- Ht, take_drop.
    + intros He. rewrite (Hall He). apply take_drop.
Qed.

End Theorems.

(** ** Witnesses *)

Definition sample_header : Header := mkHeader 7 "Arith" "Add" EmptyString 1 1 0.
Definition sample_message : Message := mkMessage (Some sample_header) [1; 2; 3].
Definition plain_header : Header := sample_header <| hCompression := CompressionNone |>.

#[local] Existing Instance bits_json.
#[local] Existing Instance bits_json_laws.
#[local] Existing Instance marked_gzip.
#[local] Existing Instance marked_gzip_laws.

Lemma sample_header_ok : header_ok sample_header /\ header_ok plain_header.
Proof. split; constructor; vm_compute; repeat split; discriminate. Qed.

Definition sample_frame : bytes := frame (json_marshal sample_header) [31; 1; 2; 3].

Lemma sample_fits : fits sample_message sample_frame.
Proof.
  constructor. exists sample_header, [31; 1; 2; 3].
  split; [done |]. split; [apply sample_header_ok |]. split; [done |]. split; [vm_compute; reflexivity | done].
Qed.

Lemma sample_frame_octets : octets sample_frame.
Proof.
  apply Forall_forall. intros b Hb. assert (Hall : forallb (fun b => (0 <=? b) && (b <? 256)) sample_frame = true) by (vm_compute; reflexivity).
  rewrite forallb_forall in Hall. apply list_elem_of_In in Hb. specialize (Hall b Hb). lia.
Qed.

Lemma decode_never_panics_witness : is_ret (Decode [18; 52; 255; 255; 255; 255; 0; 0; 0; 0; 1]).
Proof.
  apply decode_never_panics; [repeat constructor; discriminate | reflexivity].
Defined.

Lemma encode_decode_witness :
  exists data, Encode sample_message = Ret (Ok data)
    /\ zlen data = 10 + zlen (json_marshal sample_header) + zlen [31; 1; 2; 3]
    /\ forall extra, Decode (data ++ extra) = Ret (Ok sample_message).
Proof.
  pose proof (encode_decode sample_message sample_header eq_refl (proj1 sample_header_ok)) as Hx.
  change (wire_body sample_message sample_header) with (@Ok string bytes [31; 1; 2; 3]) in Hx. cbv beta iota in Hx.
  apply Hx. vm_compute. reflexivity.
Defined.

Lemma encode_cuts_large_body_witness :
  exists data, Encode (mkMessage (Some plain_header) (replicate (Z.to_nat (2 ^ 32 + 1)) 7)) = Ret (Ok data)
    /\ Decode data <> Ret (Ok (mkMessage (Some plain_header) (replicate (Z.to_nat (2 ^ 32 + 1)) 7))).
Proof.
  destruct (encode_cuts_large_body (mkMessage (Some plain_header) (replicate (Z.to_nat (2 ^ 32 + 1)) 7)) plain_header
    eq_refl (proj2 sample_header_ok) eq_refl) as (data & He & _ & Hd).
  - cbn [mBody]. rewrite zlen_fill; lia.
  - cbn [mBody]. rewrite zlen_fill by lia. vm_compute. reflexivity.
  - exists data. split; [exact He | exact Hd].
Defined.

Lemma sample_sent : sent [([0; 52], sample_message); ([], sample_message)] ([0; 52] ++ sample_frame ++ sample_frame).
Proof.
  exists [sample_frame; sample_frame]. split; [| vm_compute; reflexivity].
  repeat constructor; try apply sample_fits; try apply sample_frame_octets; discriminate.
Qed.

Lemma stream_reassembly_witness :
  exists tc tc', reads 2 (mkTCPConnection [] [[0]; take 5 (52 :: sample_frame); drop 5 (52 :: sample_frame) ++ sample_frame; [9]] "EOF")
      = Ret ([Ok sample_message; Ok sample_message], tc)
    /\ TCPConnection_Read tc = Ret (Err "EOF"%string, tc').
Proof.
  apply (stream_reassembly [([0; 52], sample_message); ([], sample_message)] ([0; 52] ++ sample_frame ++ sample_frame) [9]).
  - exact sample_sent.
  - repeat constructor. discriminate.
  - repeat constructor; discriminate.
  - vm_compute. reflexivity.
Defined.

Lemma write_all_or_error_witness :
  let w := write_loop [(5, None); (3, Some "broken pipe"%string)] sample_frame in
  w.1 `prefix_of` sample_frame /\ (w.2 = None -> w.1 = sample_frame).
Proof.
  apply (write_all_or_error [(5, None); (3, Some "broken pipe"%string)] sample_message sample_frame);
    [exact sample_fits | vm_compute; reflexivity].
Defined.
