(* ===== verification/RpcFlow.v ===== *)
(** * RpcFlow
    Flow control of [swifty_rpc]: the circuit breaker
    ([breaker/breaker.go]) and the token bucket ([limiter/token_bucket.go]).

    Both hold a mutex for every method, so a method is one step; [time.Now] is
    the argument [now], in nanoseconds. [float64] is the standard's [spec_float]
    with 53 bits of precision. *)
From Stdlib Require Import SpecFloat.
From S2P Require Import Prelude.
(** ** [float64] *)

Definition float64 : Type := spec_float.
Definition float64_of (z : Z) : float64 := binary_normalize 53 1024 z 0 false.
Definition fdiv (x y : float64) : float64 := SFdiv 53 1024 x y.
Definition fge (x y : float64) : bool :=
  match SFcompare x y with Some Gt | Some Eq => true | _ => false end.

(** ** The circuit breaker *)

Inductive State := Closed | Open | HalfOpen.
#[export] Instance State_eq_dec : EqDecision State.
Proof. solve_decision. Defined.

Record CircuitBreaker := mkBreaker {
  state : State;
  failureCount : Z;
  successCount : Z;
  windowSize : Z;
  failureThreshold : float64;
  openTimeout : Z;
  lastStateChange : Z;
  halfOpenProbe : bool;
}.
#[export] Instance breaker_eta : Eta CircuitBreaker := fun cb =>
  mkBreaker (state cb) (failureCount cb) (successCount cb) (windowSize cb) (failureThreshold cb)
    (openTimeout cb) (lastStateChange cb) (halfOpenProbe cb).

Definition NewCircuitBreaker (now windowSize : Z) (failureThreshold : float64) (openTimeout : Z) : CircuitBreaker :=
  mkBreaker Closed 0 0 windowSize failureThreshold openTimeout now false.

Definition resetCounts (cb : CircuitBreaker) : CircuitBreaker := cb <| failureCount := 0 |> <| successCount := 0 |>.

Definition toOpen (now : Z) (cb : CircuitBreaker) : CircuitBreaker :=
  resetCounts (cb <| state := Open |> <| lastStateChange := now |>) <| halfOpenProbe := false |>.

Definition toClosed (now : Z) (cb : CircuitBreaker) : CircuitBreaker :=
  resetCounts (cb <| state := Closed |> <| lastStateChange := now |>) <| halfOpenProbe := false |>.

Definition Allow (now : Z) (cb : CircuitBreaker) : CircuitBreaker * bool :=
  match state cb with
  | Closed => (cb, true)
  | Open =>
      if decide (openTimeout cb < now - lastStateChange cb) then
        (cb <| state := HalfOpen |> <| halfOpenProbe := true |>, true)
      else (cb, false)
  | HalfOpen => if halfOpenProbe cb then (cb, false) else (cb <| halfOpenProbe := true |>, true)
  end.

(** [float64(failureCount) / float64(total) >= failureThreshold] *)
Definition rate_reached (failures total : Z) (threshold : float64) : bool :=
  fge (fdiv (float64_of failures) (float64_of total)) threshold.

Definition resetClosedWindowIfReady (now : Z) (cb : CircuitBreaker) : CircuitBreaker :=
  let total := i64 (failureCount cb + successCount cb) in
  if decide (total < windowSize cb) then cb
  else if rate_reached (failureCount cb) total (failureThreshold cb) then toOpen now cb
  else resetCounts cb.

Definition RecordSuccess (now : Z) (cb : CircuitBreaker) : CircuitBreaker :=
  match state cb with
  | Closed => resetClosedWindowIfReady now (cb <| successCount := i64 (successCount cb + 1) |>)
  | HalfOpen => toClosed now cb
  | Open => cb
  end.

Definition RecordFailure (now : Z) (cb : CircuitBreaker) : CircuitBreaker :=
  match state cb with
  | Closed =>
      let cb := cb <| failureCount := i64 (failureCount cb + 1) |> in
      let total := i64 (failureCount cb + successCount cb) in
      if decide (total < windowSize cb) then cb
      else if rate_reached (failureCount cb) total (failureThreshold cb) then toOpen now cb
      else resetCounts cb
  | HalfOpen => toOpen now cb
  | Open => cb
  end.

(** ** The token bucket
    The goroutine of [NewTokenBucket] selects between its ticker and the [stop]
    channel: [TTick] and [TExit] are its two cases. *)

Record TokenBucket := mkTokenBucket {
  tokens : Z;
  rate : Z;
  stopped : bool;
  ticking : bool;
}.
#[export] Instance bucket_eta : Eta TokenBucket := fun tb => mkTokenBucket (tokens tb) (rate tb) (stopped tb) (ticking tb).

Definition NewTokenBucket (rate : Z) : TokenBucket :=
  let rate := if decide (rate < 0) then 0 else rate in
  mkTokenBucket rate rate false true.

Definition TokenBucket_Allow (tb : TokenBucket) : TokenBucket * bool :=
  if decide (0 < tokens tb) then (tb <| tokens := tokens tb - 1 |>, true) else (tb, false).

Definition TokenBucket_Stop (tb : TokenBucket) : TokenBucket := tb <| stopped := true |>.

Inductive bucket_event := TAllow | TTick | TStop | TExit.
#[export] Instance bucket_event_eq_dec : EqDecision bucket_event.
Proof. solve_decision. Defined.

(** [None]: the goroutine cannot take that case now. *)
Definition bucket_step (tb : TokenBucket) (e : bucket_event) : option (TokenBucket * bool) :=
  match e with
  | TAllow => Some (TokenBucket_Allow tb)
  | TTick => if ticking tb then Some (tb <| tokens := rate tb |>, false) else None
  | TStop => Some (TokenBucket_Stop tb, false)
  | TExit => if ticking tb && stopped tb then Some (tb <| ticking := false |>, false) else None
  end.

Fixpoint bucket_run (tb : TokenBucket) (es : list bucket_event) : option (TokenBucket * list bool) :=
  match es with
  | [] => Some (tb, [])
  | e :: es =>
      match bucket_step tb e with
      | None => None
      | Some (tb, b) => match bucket_run tb es with Some (tb, bs) => Some (tb, b :: bs) | None => None end
      end
  end.

(** ** Theorems
    What the circuit breaker and the token bucket of [swifty_rpc] guarantee. *)
(** ** Circuit breaker *)

Record breaker_ok (cb : CircuitBreaker) : Prop := {
  bo_probe : halfOpenProbe cb = bool_decide (state cb = HalfOpen);
  bo_failures : 0 <= failureCount cb;
  bo_successes : 0 <= successCount cb;
  bo_idle : state cb <> Closed -> failureCount cb = 0 /\ successCount cb = 0;
  bo_window : failureCount cb + successCount cb < Z.max 1 (windowSize cb);
}.

Inductive breaker_call := BAllow | BSuccess | BFailure.

Definition breaker_step (now : Z) (o : breaker_call) (cb : CircuitBreaker) : CircuitBreaker :=
  match o with
  | BAllow => (Allow now cb).1
  | BSuccess => RecordSuccess now cb
  | BFailure => RecordFailure now cb
  end.

Definition breaker_run (os : list (Z * breaker_call)) (cb : CircuitBreaker) : CircuitBreaker :=
  fold_left (fun cb o => breaker_step o.1 o.2 cb) os cb.

Lemma toOpen_ok now cb : breaker_ok (toOpen now cb).
Proof. constructor; simpl; try done; lia. Qed.
Lemma toClosed_ok now cb : breaker_ok (toClosed now cb).
Proof. constructor; simpl; try done; lia. Qed.

Lemma settle_ok cb b now failures :
  breaker_ok cb -> state cb = Closed ->
  (failures = failureCount cb + 1 \/ failures = failureCount cb) ->
  breaker_ok (if b : bool then toOpen now (cb <| failureCount := failures |>) else resetCounts (cb <| failureCount := failures |>)).
Proof.
  intros [Hp Hf Hs Hi Hw] Hst Hfail. destruct b; [apply toOpen_ok |].
  constructor; simpl; try done; lia.
Qed.

(** Recording in the closed state: one more result in the window. *)
Definition recorded (now : Z) (ok : bool) (cb : CircuitBreaker) : CircuitBreaker :=
  let f := if ok then failureCount cb else failureCount cb + 1 in
  let s := if ok then successCount cb + 1 else successCount cb in
  if decide (f + s < windowSize cb) then cb <| failureCount := f |> <| successCount := s |>
  else if rate_reached f (f + s) (failureThreshold cb) then toOpen now cb
  else resetCounts cb.

Lemma record_closed now ok cb :
  breaker_ok cb -> state cb = Closed -> windowSize cb < 2 ^ 62 ->
  (if ok : bool then RecordSuccess now cb else RecordFailure now cb) = recorded now ok cb.
Proof.
  intros [Hp Hf Hs Hi Hw] Hst Hn. unfold RecordSuccess, RecordFailure, resetClosedWindowIfReady, recorded.
  destruct cb as [st f s w thr ot lc pr]. simpl in *. subst st. destruct ok; simpl.
  - rewrite (i64_id (s + 1)), (i64_id (f + (s + 1))) by lia. destruct (decide _); [done |].
    by destruct (rate_reached _ _ _).
  - rewrite (i64_id (f + 1)), (i64_id (f + 1 + s)) by lia. destruct (decide _); [done |].
    by destruct (rate_reached _ _ _).
Qed.

Lemma recorded_ok now ok cb : breaker_ok cb -> state cb = Closed -> breaker_ok (recorded now ok cb).
Proof.
  intros [Hp Hf Hs Hi Hw] Hst. unfold recorded. set (f := if ok then _ else _). set (s := if ok then _ else _).
  assert (0 <= f /\ 0 <= s) as [? ?] by (subst f s; destruct ok; lia).
  destruct (decide (f + s < windowSize cb)); [constructor; simpl; first [done | lia | congruence] |].
  destruct (rate_reached _ _ _); [apply toOpen_ok |]. constructor; simpl; try done; lia.
Qed.

Lemma breaker_step_ok now o cb : breaker_ok cb -> windowSize cb < 2 ^ 62 ->
  breaker_ok (breaker_step now o cb) /\ windowSize (breaker_step now o cb) = windowSize cb.
Proof.
  intros Hok Hn. destruct o; simpl.
  - unfold Allow. destruct (state cb) eqn:Hst; [done | |]; pose proof Hok as [Hp Hf Hs Hi Hw].
    + destruct (decide (openTimeout cb < now - lastStateChange cb)); [| done]. split; [| done].
      assert (Hz : failureCount cb = 0 /\ successCount cb = 0) by (apply Hi; congruence).
      constructor; simpl; first [done | lia | (intros _; exact Hz)].
    + rewrite Hp, bool_decide_true by done. done.
  - destruct (state cb) eqn:Hst.
    + rewrite (record_closed now true) by done. split; [by apply recorded_ok |].
      unfold recorded. destruct (decide _); [done |]. by destruct (rate_reached _ _ _).
    + unfold RecordSuccess. by rewrite Hst.
    + unfold RecordSuccess. rewrite Hst. split; [apply toClosed_ok | done].
  - destruct (state cb) eqn:Hst.
    + rewrite (record_closed now false) by done. split; [by apply recorded_ok |].
      unfold recorded. destruct (decide _); [done |]. by destruct (rate_reached _ _ _).
    + unfold RecordFailure. by rewrite Hst.
    + unfold RecordFailure. rewrite Hst. split; [apply toOpen_ok | done].
Qed.

Lemma breaker_run_ok os cb : breaker_ok cb -> windowSize cb < 2 ^ 62 -> breaker_ok (breaker_run os cb).
Proof.
  revert cb. unfold breaker_run. induction os as [| [now o] os IH]; intros cb Hok Hn; simpl; [done |].
  destruct (breaker_step_ok now o cb Hok Hn) as [Hok' Hn']. apply IH; [done | by rewrite Hn'].
Qed.

Fixpoint allows (ts : list Z) (cb : CircuitBreaker) : CircuitBreaker * list bool :=
  match ts with
  | [] => (cb, [])
  | t :: ts => let '(cb, b) := Allow t cb in let '(cb, bs) := allows ts cb in (cb, b :: bs)
  end.

Lemma allows_half_open ts cb :
  state cb = HalfOpen -> halfOpenProbe cb = true -> allows ts cb = (cb, replicate (length ts) false).
Proof.
  intros Hs Hp. induction ts as [| t ts IH]; [done |]. simpl. unfold Allow. rewrite Hs, Hp, IH. done.
Qed.

(** After any history of calls, an open breaker lets nothing through before
    its timeout; of all the calls asked after it, whatever their number and
    times, exactly the first is let through, as the probe; and the result of
    the probe alone decides: success closes the breaker with an empty window,
    failure opens it again from that moment. *)
Theorem open_admits_one_probe now windowSize threshold timeout os ts :
  windowSize < 2 ^ 62 ->
  let cb := breaker_run os (NewCircuitBreaker now windowSize threshold timeout) in
  state cb = Open ->
  let late := fun t => bool_decide (openTimeout cb < t - lastStateChange cb) in
  let '(cb', bs) := allows ts cb in
  bs = (fix go ts := match ts with
                     | [] => []
                     | t :: ts => if late t then true :: replicate (length ts) false else false :: go ts
                     end) ts
  /\ (if existsb late ts then
        state cb' = HalfOpen /\ halfOpenProbe cb' = true
        /\ forall t, (RecordSuccess t cb' = toClosed t cb' /\ state (toClosed t cb') = Closed /\ breaker_ok (toClosed t cb'))
               /\ (RecordFailure t cb' = toOpen t cb' /\ lastStateChange (toOpen t cb') = t)
      else cb' = cb).
Proof.
  intros Hn cb Hs late.
  assert (Hcb : openTimeout cb = openTimeout cb /\ lastStateChange cb = lastStateChange cb) by done.
  subst late. clearbody cb. clear Hn Hcb. induction ts as [| t ts IH]; [done |]. simpl allows. unfold Allow. rewrite Hs.
  destruct (decide (openTimeout cb < t - lastStateChange cb)) as [Hl | Hl].
  - rewrite allows_half_open by done. cbn [existsb]. rewrite !bool_decide_true by done. simpl.
    split; [done |]. split; [done |]. split; [done |]. intros t'. split_and!; try done. apply toClosed_ok.
  - destruct (allows ts cb) as [cb' bs]. destruct IH as [-> Hrest]. cbn [existsb]. rewrite (bool_decide_false _ Hl). split; [done | exact Hrest].
Qed.

Definition failures (rs : list bool) : Z := zlen (filter (fun r => r = false) rs).

Fixpoint records (now : Z) (rs : list bool) (cb : CircuitBreaker) : CircuitBreaker :=
  match rs with
  | [] => cb
  | r :: rs => records now rs (if r then RecordSuccess now cb else RecordFailure now cb)
  end.

Lemma records_closed now rs cb :
  breaker_ok cb -> state cb = Closed -> 1 <= windowSize cb < 2 ^ 62 ->
  failureCount cb + successCount cb + zlen rs <= windowSize cb ->
  let f := failureCount cb + failures rs in
  let total := failureCount cb + successCount cb + zlen rs in
  records now rs cb =
    if decide (total < windowSize cb) then cb <| failureCount := f |> <| successCount := total - f |>
    else if rate_reached f total (failureThreshold cb) then toOpen now cb else resetCounts cb.
Proof.
  revert cb. induction rs as [| r rs IH]; intros cb Hok Hst Hn Hle f total.
  - assert (Hf : f = failureCount cb) by (subst f; unfold failures, zlen; simpl; lia).
    assert (Ht : total = failureCount cb + successCount cb) by (subst total; unfold zlen; simpl; lia).
    pose proof (bo_window _ Hok). rewrite Hf, Ht, decide_True by lia.
    replace (failureCount cb + successCount cb - failureCount cb) with (successCount cb) by lia. by destruct cb.
  - simpl records. rewrite record_closed by (done || lia). unfold failures in f. rewrite zlen_cons in *.
    set (f1 := if r then failureCount cb else failureCount cb + 1). set (s1 := if r then successCount cb + 1 else successCount cb).
    pose proof (bo_failures _ Hok). pose proof (bo_successes _ Hok). pose proof (zlen_nonneg rs).
    assert (Hsum : f1 + s1 = failureCount cb + successCount cb + 1) by (subst f1 s1; destruct r; lia).
    assert (Hf : f = f1 + failures rs).
    { subst f f1. unfold failures. rewrite filter_cons. destruct r; [by rewrite decide_False by done |].
      rewrite decide_True by done. rewrite zlen_cons. lia. }
    unfold recorded. fold f1 s1. destruct (decide (f1 + s1 < windowSize cb)) as [Hlt | Hge].
    + rewrite IH; simpl; [| | done | done | lia].
      * subst total. rewrite Hf, zlen_cons. replace (f1 + s1 + zlen rs) with (failureCount cb + successCount cb + (1 + zlen rs)) by lia.
        destruct (decide _); [by destruct cb |]. by destruct (rate_reached _ _ _).
      * destruct Hok as [Hp _ _ Hi Hw].
        assert (0 <= f1 /\ 0 <= s1) as [? ?] by (subst f1 s1; destruct r; lia).
        constructor; simpl; first [done | lia | congruence].
    + assert (rs = []) as -> by (apply zlen_0; lia). cbn [records]. subst total. change (zlen [r]) with 1. change (zlen (@nil bool)) with 0 in *.
      rewrite decide_False by lia. replace (failureCount cb + successCount cb + 1) with (f1 + s1) by lia.
      change (failures []) with 0 in Hf. rewrite Z.add_0_r in Hf. by rewrite Hf.
Qed.

(** A closed breaker judges its results in windows of exactly
    [windowSize]: fewer results only count; the result that fills the window
    opens the breaker when the failure rate, as a [float64] quotient, reaches
    the threshold, and otherwise starts an empty window. *)
Theorem breaker_trips_per_window now0 now windowSize threshold timeout rs :
  1 <= windowSize < 2 ^ 62 -> zlen rs <= windowSize ->
  let cb := NewCircuitBreaker now0 windowSize threshold timeout in
  records now rs cb =
    if decide (zlen rs < windowSize) then cb <| failureCount := failures rs |> <| successCount := zlen rs - failures rs |>
    else if rate_reached (failures rs) (zlen rs) threshold then toOpen now cb
    else cb.
Proof.
  intros Hn Hle cb. assert (Hok : breaker_ok cb) by (constructor; simpl; done || lia).
  rewrite (records_closed now rs cb Hok); [| done | done | simpl; lia]. simpl.
  rewrite !Z.add_0_l. by destruct (decide (zlen rs < windowSize)).
Qed.

(** ** Token bucket *)

Definition admitted (bs : list bool) : Z := zlen (filter (fun b => b = true) bs).
Definition ticks (es : list bucket_event) : Z :=
  zlen (filter (fun e => e = TTick) es).

Lemma admitted_cons b bs : admitted (b :: bs) = (if b then 1 else 0) + admitted bs.
Proof.
  unfold admitted. rewrite filter_cons. destruct b; [rewrite decide_True by done; by rewrite zlen_cons |].
  by rewrite decide_False by done.
Qed.

Lemma bucket_run_bound tb es tb' bs :
  0 <= tokens tb <= rate tb -> bucket_run tb es = Some (tb', bs) ->
  admitted bs <= tokens tb + rate tb * ticks es /\ 0 <= tokens tb' <= rate tb' /\ rate tb' = rate tb.
Proof.
  revert tb bs. induction es as [| e es IH]; intros tb bs Hb; simpl.
  - intros [= <- <-]. change (admitted []) with 0. change (ticks []) with 0. lia.
  - destruct (bucket_step tb e) as [[tb1 b] |] eqn:Hs; [| done].
    destruct (bucket_run tb1 es) as [[tb2 bs'] |] eqn:Hr; [| done]. intros [= <- <-]. rewrite admitted_cons.
    unfold ticks. rewrite filter_cons. destruct e; simpl in Hs.
    + rewrite decide_False by done. unfold TokenBucket_Allow in Hs. destruct (decide (0 < tokens tb)); injection Hs as <- <-.
      * apply IH in Hr as (H1 & H2 & H3); [| simpl; lia]. simpl in *. unfold ticks in *. split_and!; lia.
      * apply IH in Hr as (H1 & H2 & H3); [| exact Hb]. unfold ticks in *. split_and!; lia.
    + rewrite decide_True by done. rewrite zlen_cons. destruct (ticking tb); [| done]. injection Hs as <- <-.
      apply IH in Hr as (H1 & H2 & H3); [| simpl; lia]. simpl in *. unfold ticks in *. split_and!; lia.
    + rewrite decide_False by done. injection Hs as <- <-. apply IH in Hr as (H1 & H2 & H3); [| exact Hb]. simpl in *. unfold ticks in *. split_and!; lia.
    + rewrite decide_False by done. destruct (ticking tb && stopped tb); [| done]. injection Hs as <- <-.
      apply IH in Hr as (H1 & H2 & H3); [| exact Hb]. simpl in *. unfold ticks in *. split_and!; lia.
Qed.

Lemma bucket_run_allows tb k :
  0 <= tokens tb ->
  bucket_run tb (replicate k TAllow)
    = Some (tb <| tokens := Z.max 0 (tokens tb - Z.of_nat k) |>,
            replicate (Nat.min k (Z.to_nat (tokens tb))) true ++ replicate (k - Z.to_nat (tokens tb)) false).
Proof.
  revert tb. induction k as [| k IH]; intros tb Ht; cbn [replicate bucket_run bucket_step].
  - simpl. rewrite Z.sub_0_r, Z.max_r by lia. by destruct tb.
  - unfold TokenBucket_Allow. destruct (decide (0 < tokens tb)) as [Hp | Hp].
    + rewrite IH by (simpl; lia). simpl. destruct (Z.to_nat (tokens tb)) as [| j] eqn:Hj; [lia |].
      replace (Z.to_nat (tokens tb - 1)) with j by lia.
      by replace (Z.max 0 (tokens tb - 1 - Z.of_nat k)) with (Z.max 0 (tokens tb - Z.pos (Pos.of_succ_nat k))) by lia.
    + rewrite IH by lia. assert (Hz : tokens tb = 0) by lia. rewrite Hz. change (Z.to_nat 0) with 0%nat.
      rewrite !Nat.min_0_r, !Nat.sub_0_r. cbn [replicate app].
      replace (Z.max 0 (0 - Z.of_nat k)) with 0 by lia. by replace (Z.max 0 (0 - Z.of_nat (S k))) with 0 by lia.
Qed.

(** The limiter admits at most [rate] calls per second: over any
    interleaving of calls, ticks and shutdown the admitted calls number at
    most [rate] times one plus the ticks; a negative rate admits nothing; and
    of the calls made between two ticks exactly the first [rate] are
    admitted. *)
Theorem limiter_bounds_calls r es tb bs :
  bucket_run (NewTokenBucket r) es = Some (tb, bs) ->
  admitted bs <= Z.max 0 r * (1 + ticks es)
  /\ (forall tb1 k, bucket_step tb TTick = Some (tb1, false) ->
        exists tb2, bucket_run tb1 (replicate k TAllow)
          = Some (tb2, replicate (Nat.min k (Z.to_nat r)) true ++ replicate (k - Z.to_nat r) false)).
Proof.
  intros Hr. assert (Hrate : rate (NewTokenBucket r) = Z.max 0 r /\ tokens (NewTokenBucket r) = Z.max 0 r).
  { unfold NewTokenBucket. destruct (decide (r < 0)); simpl; lia. }
  destruct Hrate as [Hrate Htok].
  apply bucket_run_bound in Hr as (H1 & H2 & H3); [| lia]. split; [lia |].
  intros tb1 k. simpl. destruct (ticking tb); [| done]. intros [= <-]. eexists.
  rewrite bucket_run_allows by (simpl; lia). simpl. rewrite H3, Hrate. replace (Z.to_nat (Z.max 0 r)) with (Z.to_nat r) by lia. done.
Qed.

(** ** Witnesses *)

(** The breaker the client builds: ten results, 60 percent, five seconds. *)
Definition client_threshold : float64 := fdiv (float64_of 6) (float64_of 10).

Definition ten_failures : list (Z * breaker_call) := replicate 10 (3, BFailure).

Lemma open_admits_one_probe_witness :
  (allows [4; 5000000004; 5000000005] (breaker_run ten_failures (NewCircuitBreaker 0 10 client_threshold 5000000000))).2
    = [false; true; false].
Proof.
  pose proof (open_admits_one_probe 0 10 client_threshold 5000000000 ten_failures [4; 5000000004; 5000000005]
    ltac:(lia) ltac:(vm_compute; reflexivity)) as Hx. revert Hx. vm_compute. intros [Hx _]. exact Hx.
Defined.

Lemma breaker_trips_per_window_witness :
  state (records 3 [true; false; false; false; true; false; true; false; true; false] (NewCircuitBreaker 0 10 client_threshold 5000000000)) = Open.
Proof.
  rewrite (breaker_trips_per_window 0 3 10 client_threshold 5000000000
    [true; false; false; false; true; false; true; false; true; false] ltac:(lia) ltac:(vm_compute; discriminate)).
  vm_compute. reflexivity.
Defined.

Lemma limiter_bounds_calls_witness :
  admitted [true; true; false; false; true] <= Z.max 0 2 * (1 + ticks [TAllow; TAllow; TAllow; TTick; TAllow]).
Proof.
  destruct (limiter_bounds_calls 2 [TAllow; TAllow; TAllow; TTick; TAllow] (mkTokenBucket 1 2 false true)
    [true; true; false; false; true] eq_refl) as [Hx _]. exact Hx.
Defined.
