(* ===== verification/RpcBalance.v ===== *)
(** * RpcBalance
    Service discovery and load balancing of [swifty_rpc]:
    [registry/registry.go] and [load_balance].

    The etcd server is outside the repository. What the registry is told by it
    are the arguments of its steps: the pairs of a [Get], and the events of a
    [Watch]. The range over the map of instances in [copyInstances] has an order
    of the runtime's choosing, different at every call; it is the argument
    [order], of which [Discover] asks only that it enumerates the addresses. *)
From S2P Require Import Prelude.

Record Instance_ := mkInstance { Addr : string }.
#[export] Instance Instance_eq_dec : EqDecision Instance_.
Proof. solve_decision. Defined.
Definition no_instance : Instance_ := mkInstance EmptyString.

(** ** Registry *)

Record Registry := mkRegistry {
  prefix : string;
  services : gmap string (gmap string Instance_);
}.
#[export] Instance registry_eta : Eta Registry := fun r => mkRegistry (prefix r) (services r).

Definition NewRegistry : Registry :=
  mkRegistry "/github.com/hangtiancheng/swifty.go/swifty_rpc/services/" ∅.

(** [fmt.Sprintf("%s%s/", r.prefix, service)] *)
Definition service_key (r : Registry) (service : string) : string := (prefix r ++ service ++ "/")%string.

(** What [Register] puts. *)
Definition register_key (r : Registry) (service : string) (ins : Instance_) : string * string :=
  ((service_key r service ++ Addr ins)%string, Addr ins).

(** [r.services[service][addr] = ins]: writing into the nil map of a service
    that was never initialised panics. *)
Definition store_instance (r : Registry) (service addr : string) : outcome Registry :=
  match services r !! service with
  | None => Panic "assignment to entry in nil map"
  | Some m => Ret (r <| services := <[service := <[addr := mkInstance addr]> m]> (services r) |>)
  end.

(** [initService]; [resp] is the answer to the prefix read, pairs of key and value. *)
Definition initService (r : Registry) (service : string) (resp : result string (list (string * string)))
    : outcome (Registry * result string unit) :=
  match services r !! service with
  | Some _ => Ret (r, Ok tt)
  | None =>
      match resp with
      | Err e => Ret (r, Err e)
      | Ok kvs =>
          let r := r <| services := <[service := ∅]> (services r) |> in
          let! r := ofold (fun kv r => store_instance r service kv.2) kvs r in
          Ret (r, Ok tt)
      end
  end.

Inductive event := EventPut (key value : string) | EventDelete (key : string).

(** One event of the watch loop. *)
Definition watch_event (r : Registry) (service : string) (e : event) : outcome Registry :=
  match e with
  | EventPut _ value => store_instance r service value
  | EventDelete key =>
      let addr := TrimPrefix key (service_key r service) in
      Ret (r <| services := alter (delete addr) service (services r) |>)
  end.

Definition watch (r : Registry) (service : string) (es : list event) : outcome Registry :=
  ofold (fun e r => watch_event r service e) es r.

(** [copyInstances] *)
Definition copyInstances (r : Registry) (service : string) (order : list string) : list Instance_ :=
  omap (fun addr => default ∅ (services r !! service) !! addr) order.

(** [order] visits the instances of the service once each. *)
Definition enumerates (r : Registry) (service : string) (order : list string) : Prop :=
  order ≡ₚ elements (dom (default ∅ (services r !! service))).

Definition Discover (r : Registry) (service : string) (order : Registry -> list string)
    (resp : result string (list (string * string))) : outcome (Registry * result string (list Instance_)) :=
  match services r !! service with
  | Some _ => Ret (r, Ok (copyInstances r service (order r)))
  | None =>
      let! ri := initService r service resp in
      match ri with
      | (r, Err e) => Ret (r, Err e)
      | (r, Ok _) => Ret (r, Ok (copyInstances r service (order r)))
      end
  end.

(** ** Balancers *)

(** [RoundRobin]: an atomic counter. *)
Definition RoundRobin_Select (idx : Z) (insts : list Instance_) : outcome (Z * Instance_) :=
  if decide (zlen insts = 0) then Ret (idx, no_instance) else
  let i := u64 (idx + 1) in
  let! ins := index insts (u64 (i - 1) mod zlen insts) in
  Ret (i, ins).

(** [Random]: the draws still to come. *)
Definition Random_Select (draws : list Z) (insts : list Instance_) : outcome (list Z * Instance_) :=
  if decide (zlen insts = 0) then Ret (draws, no_instance) else
  let '(i, draws) := intn (zlen insts) draws in
  let! ins := index insts i in
  Ret (draws, ins).

Record WeightedRR := mkWeightedRR {
  weights : list Z;
  currentWeight : list Z;
  totalWeight : Z;
}.
#[export] Instance weighted_eta : Eta WeightedRR := fun w => mkWeightedRR (weights w) (currentWeight w) (totalWeight w).

Definition clamp (wt : Z) : Z := if decide (wt < 0) then 0 else wt.

Definition NewWeightedRR (ws : list Z) : WeightedRR :=
  mkWeightedRR (clamp <$> ws) (replicate (length ws) 0) (fold_left (fun total wt => i64 (total + clamp wt)) ws 0).

(** The loop of [Select]: position, heaviest position so far and its weight,
    the remaining and the updated weights. *)
Fixpoint pick (i : Z) (best : option (Z * Z)) (ws cw : list Z) : option (Z * Z) * list Z :=
  match ws, cw with
  | w :: ws, c :: cw =>
      let c := i64 (c + w) in
      let best := match best with
                  | None => Some (i, c)
                  | Some (m, cm) => if decide (cm < c) then Some (i, c) else best
                  end in
      let '(best, cw) := pick (i + 1) best ws cw in
      (best, c :: cw)
  | _, _ => (best, [])
  end.

Definition WeightedRR_Select (w : WeightedRR) (insts : list Instance_) : outcome (WeightedRR * Instance_) :=
  if decide (zlen insts = 0) then Ret (w, no_instance) else
  if decide (zlen insts <> zlen (weights w)) then Ret (w, no_instance) else
  if decide (totalWeight w <= 0) then Ret (w, no_instance) else
  let '(best, cw) := pick 0 None (weights w) (currentWeight w) in
  match best with
  | None => Panic "index out of range"
  | Some (maxIdx, c) =>
      let cw := <[Z.to_nat maxIdx := i64 (c - totalWeight w)]> cw in
      let! ins := index insts maxIdx in
      Ret (w <| currentWeight := cw |>, ins)
  end.

(** ** Resolving an address ([client/resolver.go]) *)

Inductive LoadBalancer :=
| LbRoundRobin (idx : Z)
| LbRandom (draws : list Z)
| LbWeighted (w : WeightedRR).

Definition Select (lb : LoadBalancer) (insts : list Instance_) : outcome (LoadBalancer * Instance_) :=
  match lb with
  | LbRoundRobin idx => let! r := RoundRobin_Select idx insts in Ret (LbRoundRobin r.1, r.2)
  | LbRandom draws => let! r := Random_Select draws insts in Ret (LbRandom r.1, r.2)
  | LbWeighted w => let! r := WeightedRR_Select w insts in Ret (LbWeighted r.1, r.2)
  end.

Definition getAddr (reg : option Registry) (lb : LoadBalancer) (service : string) (order : Registry -> list string)
    (resp : result string (list (string * string))) : outcome (option Registry * LoadBalancer * result string string) :=
  match reg with
  | None => Ret (None, lb, Err "registry not configured"%string)
  | Some r =>
      let! d := Discover r service order resp in
      let '(r, found) := d in
      match found with
      | Err e => Ret (Some r, lb, Err e)
      | Ok instances =>
          if decide (zlen instances = 0) then Ret (Some r, lb, Err "no instance available"%string) else
          let! s := Select lb instances in
          if decide (Addr s.2 = EmptyString) then Ret (Some r, s.1, Err "load balancer returned empty address"%string)
          else Ret (Some r, s.1, Ok (Addr s.2))
      end
  end.
