(* ===== verification/RpcBalanceTheorems.v ===== *)
(** * RpcBalanceTheorems
    Fairness of the load balancers over a fixed list of instances, and what the
    registry hands them instead. *)
From S2P Require Import Prelude RpcBalance.

(** ** Sums *)

Lemma sumZ_zip_add cw ws : length cw = length ws -> sumZ (zip_with Z.add cw ws) = sumZ cw + sumZ ws.
Proof. revert ws. induction cw as [| c cw IH]; intros [| w ws] Hl; simpl in *; try lia. rewrite IH; lia. Qed.

Lemma sumZ_le l c : Forall (fun x => x <= c) l -> sumZ l <= c * zlen l.
Proof. induction 1 as [| x l Hx _ IH]; simpl; rewrite ?zlen_cons; unfold zlen in *; simpl in *; lia. Qed.

(** Summands above a bound are bounded by the others. *)
Lemma sumZ_above l b x : Forall (fun x => - b < x) l -> x ∈ l -> 0 <= b -> x <= sumZ l + b * (zlen l - 1).
Proof.
  intros Hl Hx Hb. assert (Hlow : forall l, Forall (fun x => - b < x) l -> - b * zlen l <= sumZ l).
  { clear. induction 1 as [| y l Hy _ IH]; simpl; rewrite ?zlen_cons; unfold zlen in *; simpl in *; lia. }
  induction Hl as [| y l Hy Hl IH]; [by apply not_elem_of_nil in Hx |]. rewrite zlen_cons. simpl.
  apply elem_of_cons in Hx as [-> | Hx]; [specialize (Hlow l Hl); lia |]. specialize (IH Hx). lia.
Qed.

(** ** The selection loop *)

Lemma pick_spec ws cw i best :
  length cw = length ws -> Forall (fun x => - 2 ^ 63 <= x < 2 ^ 63) (zip_with Z.add cw ws) ->
  exists best', pick i best ws cw = (best', zip_with Z.add cw ws)
    /\ match best' with
       | None => best = None /\ ws = []
       | Some (m, c) =>
           (best = Some (m, c) \/ (i <= m /\ zip_with Z.add cw ws !! Z.to_nat (m - i) = Some c))
           /\ Forall (fun x => x <= c) (zip_with Z.add cw ws)
           /\ (forall mb cb, best = Some (mb, cb) -> cb <= c)
       end.
Proof.
  revert cw i best. induction ws as [| w ws IH]; intros [| c cw] i best Hl Hb; try done.
  - exists best. split; [done |]. destruct best as [[m cm] |]; [| done]. split_and!; [by left | constructor | intros ? ? [= <- <-]; lia].
  - simpl in Hl, Hb. apply Forall_cons in Hb as [Hc Hb]. simpl. rewrite i64_id by done.
    set (best1 := match best with None => Some (i, c + w) | Some (m, cm) => if decide (cm < c + w) then Some (i, c + w) else best end).
    assert (Hbest1 : exists m1 c1, best1 = Some (m1, c1) /\ c + w <= c1
      /\ (best = Some (m1, c1) \/ (m1 = i /\ c1 = c + w)) /\ (forall mb cb, best = Some (mb, cb) -> cb <= c1)).
    { subst best1. destruct best as [[m cm] |].
      - destruct (decide (cm < c + w)); eexists _, _; (split; [done |]); (split; [lia |]); (split; [auto |]); intros ? ? [= <- <-]; lia.
      - eexists _, _. split; [done |]. split; [lia |]. split; [auto |]. done. }
    destruct Hbest1 as (m1 & c1 & Hb1 & Hge & Hfrom & Hmono). rewrite Hb1. clearbody best1.
    destruct (IH cw (i + 1) (Some (m1, c1)) ltac:(lia) Hb) as (best' & -> & Hbest').
    exists best'. split; [done |]. destruct best' as [[m cm] |]; [| by destruct Hbest'].
    destruct Hbest' as (Hsrc & Hall & Hup). pose proof (Hup m1 c1 eq_refl). split_and!.
    + destruct Hsrc as [[= -> ->] | [Hi Hlk]].
      * destruct Hfrom as [| [-> ->]]; [by left | right]. split; [lia |]. by rewrite Z.sub_diag.
      * right. split; [lia |]. replace (Z.to_nat (m - i)) with (S (Z.to_nat (m - (i + 1)))) by lia. done.
    + constructor; [lia | done].
    + intros mb cb Hbb. specialize (Hmono mb cb Hbb). lia.
Qed.

(** ** Weighted round robin *)

Record weighted_ok (w : WeightedRR) : Prop := {
  wo_weights : Forall (fun x => 0 <= x) (weights w);
  wo_total : totalWeight w = sumZ (weights w);
  wo_pos : 0 < totalWeight w;
  wo_small : totalWeight w * (zlen (weights w) + 1) < 2 ^ 62;
  wo_len : length (currentWeight w) = length (weights w);
  wo_sum : sumZ (currentWeight w) = 0;
  wo_low : Forall (fun x => - totalWeight w < x) (currentWeight w);
}.

Definition served (w : WeightedRR) (m : nat) (wm cm : Z) : WeightedRR :=
  w <| currentWeight := <[m := cm + wm - totalWeight w]> (zip_with Z.add (currentWeight w) (weights w)) |>.

(** A selection is a position, whatever stands there. *)
Lemma Select_spec w :
  weighted_ok w ->
  exists m wm cm, weights w !! m = Some wm /\ currentWeight w !! m = Some cm /\ weighted_ok (served w m wm cm)
    /\ forall insts ins, length insts = length (weights w) -> insts !! m = Some ins ->
         WeightedRR_Select w insts = Ret (served w m wm cm, ins).
Proof.
  intros [Hw Ht Hp Hsm Hl Hs Hlow].
  assert (Hne : weights w <> []) by (intros He; rewrite He in Ht; simpl in Ht; lia).
  assert (Hz : zlen (weights w) <> 0) by (by rewrite zlen_0). pose proof (zlen_nonneg (weights w)).
  set (cw := zip_with Z.add (currentWeight w) (weights w)).
  assert (Hcw : forall j x, cw !! j = Some x -> exists c v, currentWeight w !! j = Some c /\ weights w !! j = Some v
     /\ x = c + v /\ - totalWeight w < c < 2 ^ 62 /\ 0 <= v <= totalWeight w).
  { intros j x Hx. apply lookup_zip_with_Some in Hx as (c & v & -> & Hc & Hv). exists c, v. split_and!; try done.
    - by apply (Forall_lookup_1 _ _ _ _ Hlow Hc).
    - pose proof (sumZ_above (currentWeight w) (totalWeight w) c Hlow (list_elem_of_lookup_2 _ _ _ Hc) ltac:(lia)) as Hup.
      assert (Hzc : zlen (currentWeight w) = zlen (weights w)) by (unfold zlen; lia). rewrite Hs, Hzc in Hup. nia.
    - by apply (Forall_lookup_1 _ _ _ _ Hw Hv).
    - rewrite Ht. apply sumZ_elem; [done | by eapply list_elem_of_lookup_2]. }
  assert (Htot : totalWeight w < 2 ^ 62) by nia.
  destruct (pick_spec (weights w) (currentWeight w) 0 None Hl) as (best & Hpick & Hbest).
  { apply Forall_lookup. intros j x Hx. destruct (Hcw j x Hx) as (c & v & _ & _ & -> & ? & ?). lia. }
  destruct best as [[m c] |]; [| by destruct Hbest].
  destruct Hbest as ([| [Hm Hlk]] & Hmax & _); [done |]. rewrite Z.sub_0_r in Hlk. fold cw in Hlk, Hmax.
  destruct (Hcw _ _ Hlk) as (cm & wm & Hcm & Hwm & -> & Hcr & Hwr).
  assert (Hpos : 1 <= cm + wm).
  { pose proof (sumZ_le _ _ Hmax) as Hle. unfold cw in Hle. rewrite sumZ_zip_add in Hle by done. rewrite Hs, <- Ht in Hle.
    pose proof (zlen_nonneg (zip_with Z.add (currentWeight w) (weights w))). nia. }
  exists (Z.to_nat m), wm, cm. split; [done |]. split; [done |]. split.
  - constructor; simpl; try done.
    + rewrite length_insert. unfold cw. rewrite length_zip_with. lia.
    + rewrite (sumZ_insert _ _ _ _ Hlk). unfold cw. rewrite sumZ_zip_add by done. lia.
    + apply Forall_lookup. intros j x Hx. destruct (decide (Z.to_nat m = j)) as [<- | Hj].
      * rewrite list_lookup_insert_eq in Hx by (by apply lookup_lt_Some in Hlk). injection Hx as <-. lia.
      * rewrite list_lookup_insert_ne in Hx by done. destruct (Hcw _ _ Hx) as (c & v & _ & _ & -> & ? & ?). lia.
  - intros insts ins Hi Hins. unfold WeightedRR_Select. assert (Hzi : zlen insts = zlen (weights w)) by (unfold zlen; lia).
    rewrite (decide_False (P := zlen insts = 0)) by lia. rewrite (decide_False (P := zlen insts <> _)) by tauto.
    rewrite (decide_False (P := totalWeight w <= 0)) by lia.
    rewrite Hpick. rewrite i64_id by lia. rewrite (proj2 (index_ret insts m ins)) by done. done.
Qed.

(** [k] selections in a row. *)
Fixpoint selects (k : nat) (w : WeightedRR) (insts : list Instance_) : outcome (WeightedRR * list Instance_) :=
  match k with
  | O => Ret (w, [])
  | S k => let! r := selects k w insts in let! s := WeightedRR_Select r.1 insts in Ret (s.1, r.2 ++ [s.2])
  end.

Definition times (ins : Instance_) (l : list Instance_) : Z := zlen (filter (fun x => x = ins) l).

Lemma times_snoc ins l x : times ins (l ++ [x]) = times ins l + (if decide (x = ins) then 1 else 0).
Proof. unfold times. rewrite filter_app, zlen_app, filter_cons. by destruct (decide (x = ins)). Qed.

(** The current weight of an instance is what it is still owed. *)
Lemma selects_spec k w insts :
  weighted_ok w -> length insts = length (weights w) -> NoDup insts -> currentWeight w = replicate (length (weights w)) 0 ->
  exists cw l, selects k w insts = Ret (w <| currentWeight := cw |>, l) /\ weighted_ok (w <| currentWeight := cw |>)
    /\ forall j v ins, weights w !! j = Some v -> insts !! j = Some ins ->
         cw !! j = Some (Z.of_nat k * v - totalWeight w * times ins l).
Proof.
  intros Hok Hl Hnd H0. induction k as [| k IH]; cbn [selects].
  - exists (currentWeight w), []. split; [by destruct w |]. split; [by destruct w |].
    intros j v ins Hv _. rewrite H0. rewrite lookup_replicate_2 by (by apply lookup_lt_Some in Hv).
    unfold times. simpl. f_equal. unfold zlen. simpl. lia.
  - destruct IH as (cw & l & -> & Hok' & Hcw). cbn [obind fst snd].
    destruct (Select_spec (w <| currentWeight := cw |>) Hok') as (m & wm & cm & Hwm & Hcm & Hok'' & Hsel).
    destruct (lookup_lt_is_Some_2 insts m) as [ins Hins]; [rewrite Hl; by apply lookup_lt_Some in Hwm |].
    rewrite (Hsel insts ins Hl Hins). cbn [obind fst snd]. unfold served in *. simpl in *. eexists _, _.
    split; [done |]. split; [exact Hok'' |].
    intros j v ins' Hv Hins'. pose proof (Hcw j v ins' Hv Hins') as Hj. rewrite times_snoc.
    assert (Hlk : zip_with Z.add cw (weights w) !! j = Some (Z.of_nat k * v - totalWeight w * times ins' l + v)).
    { apply lookup_zip_with_Some. eauto. }
    destruct (decide (m = j)) as [<- | Hne].
    + rewrite list_lookup_insert_eq by (by apply lookup_lt_Some in Hlk). rewrite Hins in Hins'. injection Hins' as <-.
      rewrite Hwm in Hv. injection Hv as <-. rewrite Hj in Hcm. injection Hcm as <-.
      rewrite decide_True by done. f_equal. lia.
    + rewrite list_lookup_insert_ne by done. rewrite Hlk. rewrite decide_False; [f_equal; lia |].
      intros <-. apply Hne. by eapply NoDup_lookup.
Qed.

(** C24: smooth weighted round robin is exactly fair: over [totalWeight]
    selections from the same list every instance is returned exactly as often
    as its weight says, none with weight zero, and the balancer is back in its
    initial state. *)
Theorem weighted_round_robin_fair ws insts :
  let w := NewWeightedRR ws in
  sumZ (clamp <$> ws) * (zlen ws + 1) < 2 ^ 62 -> 0 < sumZ (clamp <$> ws) ->
  length insts = length ws -> NoDup insts ->
  totalWeight w = sumZ (clamp <$> ws)
  /\ exists l, selects (Z.to_nat (totalWeight w)) w insts = Ret (w, l)
       /\ forall j v ins, ws !! j = Some v -> insts !! j = Some ins -> times ins l = clamp v.
Proof.
  intros w Hsm Hpos Hl Hnd.
  assert (Hnn : Forall (fun x => 0 <= x) (clamp <$> ws)).
  { apply Forall_fmap, Forall_forall. intros x _. simpl. unfold clamp. destruct (decide (x < 0)); lia. }
  assert (Htot : totalWeight w = sumZ (clamp <$> ws)).
  { unfold w, NewWeightedRR. simpl. pose proof (zlen_nonneg ws).
    assert (Hgen : forall l acc, Forall (fun x => 0 <= x) (clamp <$> l) -> 0 <= acc -> acc + sumZ (clamp <$> l) < 2 ^ 62 ->
      fold_left (fun total wt => i64 (total + clamp wt)) l acc = acc + sumZ (clamp <$> l)).
    { induction l as [| x l IH]; intros acc Hf Ha Hb; [simpl; lia |]; rewrite fmap_cons in *; unfold sumZ in *; cbn [foldr fold_left] in *; fold (sumZ (clamp <$> l)) in *. 
      apply Forall_cons in Hf as [Hx Hf]. pose proof (sumZ_nonneg _ Hf). rewrite i64_id by lia. rewrite IH by (done || lia). lia. }
    rewrite Hgen; [lia | done | lia | nia]. }
  assert (Hws : weights w = clamp <$> ws) by done. assert (Hc0 : currentWeight w = replicate (length ws) 0) by done.
  clearbody w. assert (Hz : zlen (clamp <$> ws) = zlen ws) by (unfold zlen; by rewrite length_fmap).
  assert (Hok : weighted_ok w).
  { constructor; rewrite ?Hws, ?Hc0, ?Htot, ?Hz; try done.
    - by rewrite length_replicate, length_fmap.
    - clear. induction (length ws); simpl; lia.
    - apply Forall_replicate. lia. }
  split; [done |]. assert (Hl' : length insts = length (weights w)) by (by rewrite Hws, length_fmap).
  assert (H0 : currentWeight w = replicate (length (weights w)) 0) by (by rewrite Hws, length_fmap).
  destruct (selects_spec (Z.to_nat (totalWeight w)) w insts Hok Hl' Hnd H0) as (cw & l & Hsel & Hok' & Hcw).
  rewrite Z2Nat.id in Hcw by lia.
  assert (Hzero : Forall (fun x => x = 0) cw).
  { apply sumZ_zero; [| apply Hok']. apply Forall_lookup. intros j x Hx.
    pose proof (wo_len _ Hok') as Hlen. simpl in Hlen. pose proof (lookup_lt_Some _ _ _ Hx) as Hj.
    destruct (lookup_lt_is_Some_2 (weights w) j) as [v Hv]; [simpl; lia |].
    destruct (lookup_lt_is_Some_2 insts j) as [ins Hins]; [simpl in *; lia |].
    rewrite (Hcw j v ins Hv Hins) in Hx. injection Hx as <-.
    assert (Hlow : - totalWeight w < totalWeight w * v - totalWeight w * times ins l)
      by exact (Forall_lookup_1 _ _ _ _ (wo_low _ Hok') (Hcw j v ins Hv Hins)).
    assert (Hw0 : 0 < totalWeight w) by lia. rewrite <- Z.mul_sub_distr_l in *.
    assert (0 <= v - times ins l); nia. }
  exists l. split.
  - rewrite Hsel. f_equal. f_equal. pose proof (wo_len _ Hok') as Hlen. simpl in Hlen.
    assert (Hcw0 : cw = currentWeight w).
    { rewrite H0. symmetry. apply replicate_as_Forall. split; [done |]. eapply Forall_impl; [exact Hzero |]. by intros x ->. }
    rewrite Hcw0. by destruct w.
  - intros j v ins Hv Hins. assert (Hv' : weights w !! j = Some (clamp v)) by (by rewrite Hws, list_lookup_fmap, Hv).
    pose proof (Hcw j _ ins Hv' Hins) as Hx. pose proof (Forall_lookup_1 _ _ _ _ Hzero Hx) as Hx0. cbv beta in Hx0. nia.
Qed.

(** ** Round robin *)

Fixpoint rr_selects (k : nat) (idx : Z) (insts : list Instance_) : outcome (Z * list Instance_) :=
  match k with
  | O => Ret (idx, [])
  | S k => let! r := rr_selects k idx insts in let! s := RoundRobin_Select r.1 insts in Ret (s.1, r.2 ++ [s.2])
  end.

Lemma RoundRobin_step idx insts :
  insts <> [] -> 0 <= idx -> idx + 1 < 2 ^ 64 ->
  exists ins, RoundRobin_Select idx insts = Ret (idx + 1, ins) /\ insts !! Z.to_nat (idx mod zlen insts) = Some ins.
Proof.
  intros Hne H0 H1. unfold RoundRobin_Select. pose proof (zlen_0 insts). pose proof (zlen_nonneg insts).
  assert (Hz : 0 < zlen insts) by (destruct (decide (zlen insts = 0)); [tauto | lia]).
  rewrite decide_False by lia. rewrite (u64_id (idx + 1)) by (unfold is_u64; lia).
  rewrite u64_id by (unfold is_u64; lia). replace (idx + 1 - 1) with idx by lia.
  destruct (index_total insts (idx mod zlen insts)) as (ins & -> & Hins); [by apply Z.mod_pos_bound |]. eauto.
Qed.

(** Round robin over a fixed list returns the instances in turn: until the
    64-bit counter wraps, the selection number [j] is the instance at position
    [j] modulo the length, so any [length insts] selections in a row are the
    list rotated. *)
Theorem round_robin_rotates idx insts :
  insts <> [] -> 0 <= idx -> idx + zlen insts < 2 ^ 64 ->
  rr_selects (length insts) idx insts = Ret (idx + zlen insts, rotate (Z.to_nat (idx mod zlen insts)) insts).
Proof.
  intros Hne H0 H1. pose proof (zlen_0 insts) as Hz0. pose proof (zlen_nonneg insts).
  assert (Hz : 0 < zlen insts) by (destruct (decide (zlen insts = 0)); [tauto | lia]).
  set (s := Z.to_nat (idx mod zlen insts)). pose proof (Z.mod_pos_bound idx (zlen insts) Hz) as Hs.
  assert (Hgen : forall k, (k <= length insts)%nat -> rr_selects k idx insts = Ret (idx + Z.of_nat k, take k (rotate s insts))).
  { induction k as [| k IH]; intros Hk; cbn [rr_selects]; [by rewrite Z.add_0_r |].
    rewrite IH by lia. cbn [obind fst snd].
    destruct (RoundRobin_step (idx + Z.of_nat k) insts) as (ins & -> & Hins); [done | lia | unfold zlen in *; lia |].
    cbn [obind fst snd]. f_equal. f_equal; [lia |]. symmetry. apply take_S_r.
    rewrite lookup_rotate_r by lia. rewrite <- Hins. f_equal. unfold rotate_nat_add, zlen in *. subst s.
    rewrite Z2Nat.id by (apply Z.mod_pos_bound; lia). rewrite Zplus_mod_idemp_l. done. }
  rewrite (Hgen (length insts)) by lia. f_equal. f_equal. rewrite take_ge; [done |]. by rewrite length_rotate.
Qed.

(** ** Balancing over a range *)

(** A balancer that can serve [n] instances. *)
Definition lb_ok (n : nat) (lb : LoadBalancer) : Prop :=
  match lb with
  | LbRoundRobin idx => 0 <= idx < 2 ^ 64
  | LbRandom _ => True
  | LbWeighted w => weighted_ok w /\ length (weights w) = n
  end.

(** A balancer picks a position, whatever stands there. *)
Lemma Select_position n lb :
  (0 < n)%nat -> Z.of_nat n < 2 ^ 62 -> lb_ok n lb ->
  exists p lb', (p < n)%nat /\ lb_ok n lb'
    /\ forall l x, length l = n -> l !! p = Some x -> Select lb l = Ret (lb', x).
Proof.
  intros Hn Hsmall Hok. destruct lb as [idx | draws | w]; simpl in Hok.
  - pose proof (u64_range (idx + 1)) as Hu. pose proof (u64_range (u64 (idx + 1) - 1)) as Hu'. unfold is_u64 in *.
    exists (Z.to_nat (u64 (u64 (idx + 1) - 1) mod Z.of_nat n)), (LbRoundRobin (u64 (idx + 1))).
    pose proof (Z.mod_pos_bound (u64 (u64 (idx + 1) - 1)) (Z.of_nat n) ltac:(lia)) as Hm.
    split; [lia |]. split; [done |]. intros l x Hl Hx. simpl. unfold RoundRobin_Select.
    assert (Hz : zlen l = Z.of_nat n) by (unfold zlen; lia). rewrite Hz, decide_False by lia.
    rewrite (proj2 (index_ret l _ x)) by (split; [lia | done]). done.
  - destruct (intn (Z.of_nat n) draws) as [v rest] eqn:Hv. assert (Hr : 0 <= v < Z.of_nat n) by (eapply intn_range; [| exact Hv]; lia).
    exists (Z.to_nat v), (LbRandom rest). split; [lia |]. split; [done |]. intros l x Hl Hx. simpl. unfold Random_Select.
    assert (Hz : zlen l = Z.of_nat n) by (unfold zlen; lia). rewrite Hz, decide_False, Hv by lia.
    rewrite (proj2 (index_ret l _ x)) by (split; [lia | done]). done.
  - destruct Hok as [Hok Hlen].
    destruct (Select_spec w Hok) as (m & wm & cm & Hwm & _ & Hok' & Hsel).
    exists m, (LbWeighted (served w m wm cm)). split; [rewrite <- Hlen; by apply lookup_lt_Some in Hwm |].
    split; [by split |]. intros l x Hl Hx. simpl. by rewrite (Hsel l x) by congruence.
Qed.

(** ** What the registry knows *)

(** The instances of a service are filed under their own address. *)
Definition known (r : Registry) (service : string) (addrs : gset string) : Prop :=
  exists m, services r !! service = Some m /\ dom m = addrs /\ forall a i, m !! a = Some i -> i = mkInstance a.

Lemma copyInstances_known r service addrs order :
  known r service addrs -> Forall (fun a => a ∈ addrs) order -> copyInstances r service order = mkInstance <$> order.
Proof.
  intros (m & Hm & Hd & Ha) Ho. unfold copyInstances. rewrite Hm. cbn [default from_option id].
  induction Ho as [| a order Hin _ IH]; [done |]. rewrite <- Hd, elem_of_dom in Hin. destruct Hin as [i Hi].
  simpl. rewrite Hi. rewrite (Ha a i Hi) at 1. f_equal. exact IH.
Qed.

Lemma enumerates_known r service addrs order :
  known r service addrs -> enumerates r service order <-> order ≡ₚ elements addrs.
Proof. intros (m & Hm & Hd & _). unfold enumerates. rewrite Hm. simpl. by rewrite Hd. Qed.

(** Calls resolved one after the other, each with the order its range took. *)
Fixpoint getAddrs (orders : list (list string)) (r : Registry) (lb : LoadBalancer) (service : string)
    : outcome (list (result string string)) :=
  match orders with
  | [] => Ret []
  | order :: orders =>
      let! a := getAddr (Some r) lb service (fun _ => order) (Err "unreachable"%string) in
      let '(reg, lb, addr) := a in
      match reg with
      | None => Ret [addr]
      | Some r => let! rest := getAddrs orders r lb service in Ret (addr :: rest)
      end
  end.

(** The registry returns the instances in the order of a range over a map,
    drawn afresh at every call, so no balancer balances: whichever of the three
    is configured, with whatever weights, and however many calls are made,
    there are orders of the runtime under which every call resolves to the
    same instance. *)
Theorem range_order_defeats_balancing r service addrs lb a k :
  known r service addrs -> a ∈ addrs -> a <> EmptyString -> lb_ok (size addrs) lb -> Z.of_nat (size addrs) < 2 ^ 62 ->
  exists orders, length orders = k /\ Forall (enumerates r service) orders
    /\ getAddrs orders r lb service = Ret (replicate k (Ok a)).
Proof.
  intros Hk Ha Hne Hlb Hsmall. revert lb Hlb. induction k as [| k IH]; intros lb Hlb; [by exists [] |].
  assert (Hpos : (0 < size addrs)%nat).
  { assert (size addrs <> 0%nat); [| lia]. intros He%size_empty_inv. set_solver. }
  destruct (Select_position (size addrs) lb Hpos Hsmall Hlb) as (p & lb' & Hp & Hlb' & Hsel).
  destruct (IH lb' Hlb') as (orders & Hlen & Hall & Hrun).
  assert (Hel : a ∈ elements addrs) by (by apply elem_of_elements). apply elem_of_Permutation in Hel as [rest Hrest].
  set (order := take p rest ++ a :: drop p rest).
  assert (Hsz : length rest = (size addrs - 1)%nat).
  { pose proof (Permutation_length Hrest) as Hl. simpl in Hl. assert (Hs : size addrs = length (elements addrs)) by done. lia. }
  assert (Hperm : order ≡ₚ elements addrs).
  { unfold order. rewrite <- Permutation_middle, take_drop. by symmetry. }
  assert (Hlk : order !! p = Some a).
  { unfold order. rewrite lookup_app_r by (rewrite length_take; lia). rewrite length_take. by replace (p - p `min` length rest)%nat with 0%nat by lia. }
  exists (order :: orders). split; [simpl; congruence |]. split.
  { constructor; [| done]. by rewrite enumerates_known. }
  assert (Hcopy : copyInstances r service order = mkInstance <$> order).
  { apply (copyInstances_known _ _ addrs); [done |]. apply Forall_forall. intros x. by rewrite Hperm, elem_of_elements. }
  assert (Hord : length (mkInstance <$> order) = size addrs).
  { rewrite length_fmap, (Permutation_length Hperm). done. }
  cbn [getAddrs]. unfold getAddr, Discover. destruct Hk as (m & Hm & _). rewrite Hm. cbn [obind]. rewrite Hcopy.
  rewrite decide_False by (unfold zlen; lia).
  rewrite (Hsel (mkInstance <$> order) (mkInstance a) Hord) by (by rewrite list_lookup_fmap, Hlk).
  cbn [obind snd fst Addr]. rewrite decide_False by done. cbn [obind]. by rewrite Hrun.
Qed.

(** ** The registry and etcd *)

(** The addresses registered for a service, and how an event changes them. *)
Inductive change := Up (a : string) | Down (a : string).
Definition apply_change (addrs : gset string) (c : change) : gset string :=
  match c with Up a => addrs ∪ {[a]} | Down a => addrs ∖ {[a]} end.

(** The events etcd sends for a change: [Register] puts the address under a key
    that ends with it. *)
Definition event_of (r : Registry) (service : string) (c : change) : event :=
  match c with
  | Up a => EventPut (register_key r service (mkInstance a)).1 (register_key r service (mkInstance a)).2
  | Down a => EventDelete (register_key r service (mkInstance a)).1
  end.

Lemma store_known r service addrs a :
  known r service addrs -> exists r', store_instance r service a = Ret r' /\ known r' service (addrs ∪ {[a]}) /\ prefix r' = prefix r.
Proof.
  intros (m & Hm & Hd & Ha). unfold store_instance. rewrite Hm. eexists. split; [done |]. split; [| done].
  exists (<[a := mkInstance a]> m). simpl. rewrite lookup_insert_eq. split; [done |]. split; [rewrite dom_insert_L, Hd; set_solver |].
  intros x i Hx. destruct (decide (a = x)) as [-> |]; [by rewrite lookup_insert_eq in Hx; injection Hx as <- |].
  rewrite lookup_insert_ne in Hx by done. by apply Ha.
Qed.

Lemma watch_event_known r service addrs c :
  known r service addrs ->
  exists r', watch_event r service (event_of r service c) = Ret r' /\ known r' service (apply_change addrs c) /\ prefix r' = prefix r.
Proof.
  intros Hk. destruct c as [a | a]; simpl; [by apply store_known |].
  eexists. split; [done |]. split; [| done]. rewrite TrimPrefix_app. destruct Hk as (m & Hm & Hd & Ha).
  exists (delete a m). simpl. rewrite lookup_alter_eq, Hm. split; [done |]. split; [rewrite dom_delete_L, Hd; done |].
  intros x i Hx. apply lookup_delete_Some in Hx as [_ Hx]. by apply Ha.
Qed.

Lemma event_of_prefix r r' service c : prefix r' = prefix r -> event_of r' service c = event_of r service c.
Proof. intros Hp. unfold event_of, register_key, service_key. by rewrite Hp. Qed.

Lemma watch_known cs r service addrs :
  known r service addrs ->
  exists r', watch r service (event_of r service <$> cs) = Ret r' /\ known r' service (fold_left apply_change cs addrs).
Proof.
  unfold watch. revert r addrs. induction cs as [| c cs IH]; intros r addrs Hk; [by exists r |]. cbn [fmap list_fmap ofold fold_left].
  destruct (watch_event_known r service addrs c Hk) as (r1 & -> & Hk1 & Hp). cbn [obind].
  destruct (IH r1 _ Hk1) as (r2 & Hr2 & Hk2). exists r2. split; [| done]. rewrite <- Hr2. f_equal.
  apply list_fmap_ext. intros _ c' _. by rewrite (event_of_prefix r r1).
Qed.

Lemma initService_known r service l :
  services r !! service = None ->
  exists r', initService r service (Ok ((fun a => register_key r service (mkInstance a)) <$> l)) = Ret (r', Ok tt)
    /\ known r' service (list_to_set l) /\ prefix r' = prefix r.
Proof.
  intros Hn. unfold initService. rewrite Hn.
  assert (Hgen : forall l r1 addrs, known r1 service addrs -> prefix r1 = prefix r ->
    exists r', ofold (fun kv r => store_instance r service kv.2) ((fun a => register_key r service (mkInstance a)) <$> l) r1 = Ret r'
      /\ known r' service (addrs ∪ list_to_set l) /\ prefix r' = prefix r).
  { clear l. induction l as [| a l IH]; intros r1 addrs Hk Hp; cbn [fmap list_fmap ofold].
    - exists r1. split; [done |]. split; [| done]. replace (addrs ∪ list_to_set []) with addrs by (simpl; set_solver). done.
    - cbn [snd register_key Addr]. destruct (store_known r1 service addrs a Hk) as (r2 & -> & Hk2 & Hp2). cbn [obind].
      destruct (IH r2 _ Hk2) as (r3 & -> & Hk3 & Hp3); [congruence |]. exists r3. split; [done |]. split; [| done].
      replace (addrs ∪ list_to_set (a :: l)) with (addrs ∪ {[a]} ∪ list_to_set l) by (simpl; set_solver). done. }
  destruct (Hgen l (r <| services := <[service := ∅]> (services r) |>) ∅) as (r' & Hr' & Hk & Hp); [| done |].
  - exists ∅. simpl. rewrite lookup_insert_eq. split; [done |]. split; [apply dom_empty_L |]. intros a i Hi. by rewrite lookup_empty in Hi.
  - exists r'. rewrite Hr'. split; [done |]. split; [| done]. replace (list_to_set l) with (∅ ∪ list_to_set l : gset string) by set_solver. done.
Qed.

(** The registry follows the events its watch delivers, and only those: the
    watch starts at the revision of its own request instead of the one the
    snapshot was read at, so the changes in between are lost, and an instance
    that went down then stays in the list for as long as no later event names
    it. *)
Theorem registry_misses_the_gap r service l gap cs :
  services r !! service = None ->
  exists r1 r2, initService r service (Ok ((fun a => register_key r service (mkInstance a)) <$> l)) = Ret (r1, Ok tt)
    /\ watch r1 service (event_of r1 service <$> cs) = Ret r2
    /\ known r2 service (fold_left apply_change cs (list_to_set l))
    /\ (forall a, a ∈ l -> a ∉ fold_left apply_change gap (list_to_set l) -> Up a ∉ cs -> Down a ∉ cs ->
          a ∈ fold_left apply_change cs (list_to_set l)
          /\ a ∉ fold_left apply_change (gap ++ cs) (list_to_set l)).
Proof.
  intros Hn. destruct (initService_known r service l Hn) as (r1 & -> & Hk1 & _).
  destruct (watch_known cs r1 service _ Hk1) as (r2 & Hr2 & Hk2). exists r1, r2. split_and!; [done.. |].
  intros a Ha Hgap Hup Hdown. rewrite fold_left_app.
  assert (Hsame : forall S : gset string, a ∈ fold_left apply_change cs S <-> a ∈ S).
  { clear -Hup Hdown. induction cs as [| c cs IH]; intros S; [done |]. simpl. rewrite IH by set_solver.
    destruct c as [x | x]; simpl; assert (x <> a) by set_solver; set_solver. }
  rewrite !Hsame. split; [set_solver | done].
Qed.

(** ** Witnesses *)

Definition three : list Instance_ := [mkInstance "a"; mkInstance "b"; mkInstance "c"].

Lemma three_NoDup : NoDup three.
Proof. apply (bool_decide_unpack _). vm_compute. exact I. Qed.

Lemma weighted_round_robin_fair_witness :
  totalWeight (NewWeightedRR [5; -2; 1]) = 6
  /\ exists l, selects 6 (NewWeightedRR [5; -2; 1]) three = Ret (NewWeightedRR [5; -2; 1], l)
       /\ times (mkInstance "a") l = 5 /\ times (mkInstance "b") l = 0.
Proof.
  destruct (weighted_round_robin_fair [5; -2; 1] three ltac:(vm_compute; reflexivity) ltac:(vm_compute; reflexivity) eq_refl three_NoDup)
    as (Ht & l & Hl & Hc).
  split; [exact Ht |]. exists l. split; [exact Hl |].
  split; [exact (Hc 0%nat 5 (mkInstance "a") eq_refl eq_refl) | exact (Hc 1%nat (-2) (mkInstance "b") eq_refl eq_refl)].
Defined.

Lemma round_robin_rotates_witness :
  rr_selects 3 7 three = Ret (10, [mkInstance "b"; mkInstance "c"; mkInstance "a"]).
Proof.
  exact (round_robin_rotates 7 three ltac:(discriminate) ltac:(lia) ltac:(vm_compute; reflexivity)).
Defined.

Definition sample_registry : Registry :=
  mkRegistry "/p/" {["s" := {["x" := mkInstance "x"]} ∪ {["y" := mkInstance "y"]}]}%string.

Lemma sample_known : known sample_registry "s" {["x"; "y"]}%string.
Proof.
  exists ({["x" := mkInstance "x"]} ∪ {["y" := mkInstance "y"]})%string. split; [vm_compute; reflexivity |].
  split; [apply set_eq; intros a; rewrite dom_union_L, !dom_singleton_L; done |].
  intros a i Hi. apply lookup_union_Some_raw in Hi as [Hi | [_ Hi]]; apply lookup_singleton_Some in Hi as [<- <-]; done.
Qed.

Lemma range_order_defeats_balancing_witness :
  exists orders, length orders = 100%nat /\ Forall (enumerates sample_registry "s") orders
    /\ getAddrs orders sample_registry (LbRoundRobin 0) "s" = Ret (replicate 100 (Ok "y"%string)).
Proof.
  apply (range_order_defeats_balancing sample_registry "s" {["x"; "y"]}%string (LbRoundRobin 0) "y" 100);
    [exact sample_known | set_solver | discriminate | simpl; lia | vm_compute; reflexivity].
Defined.

Lemma registry_misses_the_gap_witness :
  exists r1 r2, initService NewRegistry "s" (Ok ((fun a => register_key NewRegistry "s" (mkInstance a)) <$> ["x"; "y"])) = Ret (r1, Ok tt)
    /\ watch r1 "s" (event_of r1 "s" <$> [Up "z"]) = Ret r2
    /\ known r2 "s" (fold_left apply_change [Up "z"] (list_to_set ["x"; "y"]))
    /\ ("x" ∈ fold_left apply_change [Up "z"] (list_to_set ["x"; "y"] : gset string)
        /\ "x" ∉ fold_left apply_change ([Down "x"] ++ [Up "z"]) (list_to_set ["x"; "y"] : gset string)).
Proof.
  destruct (registry_misses_the_gap NewRegistry "s" ["x"; "y"] [Down "x"] [Up "z"] eq_refl) as (r1 & r2 & H1 & H2 & H3 & H4).
  exists r1, r2. split; [exact H1 |]. split; [exact H2 |]. split; [exact H3 |]. apply H4.
  - set_solver.
  - simpl. set_solver.
  - intros Hin%list_elem_of_singleton. discriminate.
  - intros Hin%list_elem_of_singleton. discriminate.
Defined.
