(* ===== verification/RpcPending.v ===== *)
(** * RpcPending
    The client side of one connection ([transport/tcp_client.go]): requests in
    flight, the reader that completes them and the shutdown that fails them, as
    threads that interleave at every access to the shared tables.

    A request is a key: its kind (a call or a stream) and its sequence number.
    The two [sync.Map]s are one set of keys. A thread is a program counter
    between two such accesses. [Range] visits every key that was there when it
    started and is not deleted meanwhile; it may or may not visit the others,
    and it may act on a value that has just been deleted. Completing a request
    is [Future.Done], or [End] and [Error] of its stream, of which only the
    first call counts (RpcFuture, RpcStream). *)
From S2P Require Import Prelude.

Abbreviation key := (bool * Z)%type.

Inductive thread :=
| SStart (kind : bool)
| SSeq (kind : bool)
| SStore (k : key)
| SRecheck (k : key)
| SWrite (k : key)
| SDelete (k : key)
| SReturned (k : option key)
| HCas
| HClose
| HRange (kind : bool) (todo : gset key)
| HDone
| RIdle
| RMsg (k : key)
| RComplete (k : key).

Record TCPClient := mkTCPClient {
  closed : bool;
  seq : Z;
  table : gset key;
  completed : gset key;
  threads : list thread;
}.
#[export] Instance client_eta : Eta TCPClient := fun c => mkTCPClient (closed c) (seq c) (table c) (completed c) (threads c).

(** What the environment decides at a step. *)
Inductive choice :=
| Go
| WriteOk
| WriteErr
| Visit (k : key)
| Skip (k : key)
| Finish
| Response (k : key)
| ReadErr.

Definition of_kind (kind : bool) (t : gset key) : gset key := filter (fun k => k.1 = kind) t.

(** One step of a thread: the shared state after it and where the thread is. *)
Definition thread_step (c : TCPClient) (t : thread) (ch : choice) : option (TCPClient * thread) :=
  match t, ch with
  (* SendAsyncWithCodec and SendStream *)
  | SStart kind, Go => Some (c, if closed c then SReturned None else SSeq kind)
  | SSeq kind, Go => let q := u64 (seq c + 1) in Some (c <| seq := q |>, SStore (kind, q))
  | SStore k, Go => Some (c <| table := table c ∪ {[k]} |>, SRecheck k)
  | SRecheck k, Go =>
      if closed c then
        if decide (k ∈ table c) then Some (c <| table := table c ∖ {[k]} |>, SReturned None)
        else Some (c, SWrite k)
      else Some (c, SWrite k)
  | SWrite k, WriteOk => Some (c, SReturned (Some k))
  | SWrite k, WriteErr => Some (c, SDelete k)
  | SDelete k, Go => Some (c <| table := table c ∖ {[k]} |>, HCas)
  (* shutdown *)
  | HCas, Go => if closed c then Some (c, HDone) else Some (c <| closed := true |>, HClose)
  | HClose, Go => Some (c, HRange false (of_kind false (table c)))
  | HRange kind todo, Visit k =>
      if decide (k.1 = kind /\ (k ∈ todo \/ k ∈ table c)) then
        Some (c <| completed := completed c ∪ {[k]} |> <| table := table c ∖ {[k]} |>, HRange kind (todo ∖ {[k]}))
      else None
  | HRange kind todo, Skip k =>
      if decide (k ∈ todo /\ k ∉ table c) then Some (c, HRange kind (todo ∖ {[k]})) else None
  | HRange kind todo, Finish =>
      if decide (todo = ∅) then
        Some (c, if kind then HDone else HRange true (of_kind true (table c)))
      else None
  (* readLoop *)
  | RIdle, Response k => Some (c, RMsg k)
  | RIdle, ReadErr => Some (c, HCas)
  | RMsg k, Go =>
      if decide (k ∈ table c) then Some (c <| table := table c ∖ {[k]} |>, RComplete k) else Some (c, RIdle)
  | RComplete k, Go => Some (c <| completed := completed c ∪ {[k]} |>, RIdle)
  | _, _ => None
  end.

Definition client_step (c : TCPClient) (e : nat * choice) : option TCPClient :=
  match threads c !! e.1 with
  | None => None
  | Some t =>
      match thread_step c t e.2 with
      | None => None
      | Some (c', t') => Some (c' <| threads := <[e.1 := t']> (threads c) |>)
      end
  end.

Fixpoint client_run (c : TCPClient) (es : list (nat * choice)) : option TCPClient :=
  match es with
  | [] => Some c
  | e :: es => match client_step c e with Some c => client_run c es | None => None end
  end.

(** A fresh connection with its reader, any number of requests to be sent and
    any number of calls of [Close]. *)
Definition fresh (kinds : list bool) (closes : nat) : TCPClient :=
  mkTCPClient false 0 ∅ ∅ (RIdle :: (SStart <$> kinds) ++ replicate closes HCas).

(** Every thread is done, or waits for the server. *)
Definition quiet (t : thread) : Prop :=
  match t with SReturned _ | HDone | RIdle => True | _ => False end.

(** ** The invariant *)

(** The request a caller works on. *)
Definition owned (t : thread) : option key :=
  match t with
  | SStore k | SRecheck k | SWrite k | SDelete k => Some k
  | SReturned k => k
  | _ => None
  end.

(** The caller of [k] has passed the second look at [closed]. *)
Definition sent (t : thread) : option key :=
  match t with SWrite k => Some k | SReturned k => k | _ => None end.

(** A thread that will still complete [k], if it stays in the table. *)
Definition will_range (t : thread) (k : key) : Prop :=
  match t with
  | HClose => True
  | HRange kind todo => if decide (kind = k.1) then k ∈ todo else kind = false
  | _ => False
  end.

Definition at_work (c : TCPClient) (P : thread -> Prop) : Prop := exists j t, threads c !! j = Some t /\ P t.

Definition tracked (c : TCPClient) (k : key) : Prop :=
  k ∈ table c \/ k ∈ completed c \/ at_work c (fun t => t = RComplete k).

Record client_inv (c : TCPClient) : Prop := {
  ci_tracked : forall i t k, threads c !! i = Some t -> sent t = Some k \/ t = SRecheck k -> tracked c k;
  ci_ranged : forall i t k, threads c !! i = Some t -> sent t = Some k -> k ∈ table c ->
    closed c = false \/ at_work c (fun t => will_range t k);
  ci_seq : forall i t k, threads c !! i = Some t -> owned t = Some k -> 0 < k.2 <= seq c;
  ci_owner : forall i j t t' k, threads c !! i = Some t -> threads c !! j = Some t' ->
    owned t = Some k -> owned t' = Some k -> i = j;
  ci_nonneg : 0 <= seq c;
}.

(** What one step of a thread may do. *)
Record step_facts (c : TCPClient) (t : thread) (c' : TCPClient) (t' : thread) : Prop := {
  sf_owned : owned t' = None \/ (owned t' = owned t /\ seq c' = seq c)
             \/ (exists kind, owned t' = Some (kind, seq c + 1) /\ seq c' = seq c + 1);
  sf_seq : seq c <= seq c' <= seq c + 1;
  sf_table : forall k, k ∈ table c -> k ∈ table c' \/ k ∈ completed c' \/ t' = RComplete k
             \/ (owned t = Some k /\ owned t' = None);
  sf_new : forall k, k ∈ table c' -> k ∈ table c \/ t' = SRecheck k;
  sf_completed : completed c ⊆ completed c';
  sf_reader : forall k, t = RComplete k -> k ∈ completed c';
  sf_closed : closed c' = closed c \/ (closed c' = true /\ t' = HClose);
  sf_range : forall k, will_range t k -> k ∈ table c' -> will_range t' k;
  sf_sent : forall k, sent t' = Some k -> sent t = Some k \/ (t = SRecheck k /\ (closed c' = false \/ k ∉ table c'));
  sf_stored : forall k, t' = SRecheck k -> k ∈ table c';
}.

Lemma elem_of_of_kind kind t k : k ∈ of_kind kind t <-> k.1 = kind /\ k ∈ t.
Proof. unfold of_kind. by rewrite elem_of_filter. Qed.

Lemma range_start kind k t :
  k ∈ t -> (kind = false \/ k.1 = true) -> will_range (HRange kind (of_kind kind t)) k.
Proof.
  intros Hk Hc. simpl. destruct (decide (kind = k.1)) as [-> |]; [by apply elem_of_of_kind |].
  destruct kind; [| done]. destruct Hc; congruence.
Qed.

Ltac step_facts_tac :=
  constructor; simpl; intros;
  repeat match goal with
         | Hk : context [decide (?a = ?b)] |- _ => destruct (decide (a = b))
         | |- context [decide (?a = ?b)] => destruct (decide (a = b))
         end;
  rewrite ?elem_of_of_kind in *; auto; try discriminate; try lia; try set_solver; try naive_solver;
  try (match goal with |- ?x ∈ _ ∖ {[?y]} \/ _ => destruct (decide (x = y)); [subst; auto | left; set_solver] end; set_solver).

Lemma thread_step_facts c t ch c' t' :
  0 <= seq c -> seq c + 1 < 2 ^ 64 -> thread_step c t ch = Some (c', t') -> threads c' = threads c /\ step_facts c t c' t'.
Proof.
  intros H0 H1 Hs. destruct t, ch; simpl in Hs; try done.
  all: rewrite ?(u64_id (seq c + 1)) in Hs by (unfold is_u64; lia).
  all: repeat match type of Hs with context [if ?b then _ else _] => destruct b eqn:? end; try done; injection Hs as <- <-; (split; [done |]); step_facts_tac.
  destruct k as [[] ?]; done.
Qed.

Section Step.
  Context (c c' c1 : TCPClient) (i : nat) (t t' : thread).
  Hypothesis Hi : threads c !! i = Some t.
  Hypothesis Hf : step_facts c t c1 t'.
  Hypothesis Ht1 : threads c1 = threads c.
  Hypothesis Hc' : c' = c1 <| threads := <[i := t']> (threads c) |>.

Lemma step_self : threads c' !! i = Some t'.
Proof. rewrite Hc'. simpl. apply list_lookup_insert_eq. by apply lookup_lt_Some in Hi. Qed.

Lemma step_other j : j <> i -> threads c' !! j = threads c !! j.
Proof. intros Hj. rewrite Hc'. simpl. by apply list_lookup_insert_ne. Qed.

Lemma at_work_step (P : thread -> Prop) : (P t -> P t') -> at_work c P -> at_work c' P.
Proof.
  intros Hp (j & u & Hj & Hu). destruct (decide (j = i)) as [Hji | Hne].
  - exists i, t'. split; [apply step_self |]. rewrite Hji, Hi in Hj. injection Hj as Htu. apply Hp. by rewrite Htu.
  - exists j, u. by rewrite step_other.
Qed.

Lemma step_cases j u : threads c' !! j = Some u -> (j = i /\ u = t') \/ (j <> i /\ threads c !! j = Some u).
Proof.
  intros Hj. destruct (decide (j = i)) as [Hji | Hne]; [left | right; by rewrite step_other in Hj].
  rewrite Hji, step_self in Hj. by injection Hj as Htu.
Qed.

Lemma tracked_step k : owned t <> Some k \/ owned t' <> None -> tracked c k -> tracked c' k.
Proof.
  intros Ho [Hk | [Hk | Hk]].
  - destruct (sf_table _ _ _ _ Hf k Hk) as [Hx | [Hx | [Hrc | [Hx Hy]]]].
    + left. by rewrite Hc'.
    + right; left. by rewrite Hc'.
    + right; right. exists i, t'. split; [apply step_self | done].
    + destruct Ho; congruence.
  - right; left. rewrite Hc'. by apply (sf_completed _ _ _ _ Hf).
  - destruct Hk as (j & u & Hj & Hu). destruct (decide (j = i)) as [Hji | Hne].
    + right; left. rewrite Hc'. apply (sf_reader _ _ _ _ Hf). rewrite Hji, Hi in Hj. congruence.
    + right; right. exists j, u. by rewrite step_other.
Qed.

Lemma sent_owned u k : sent u = Some k -> owned u = Some k.
Proof. destruct u; simpl; congruence. Qed.

Lemma inv_step : client_inv c -> client_inv c'.
Proof.
  intros [Htr Hra Hsq How Hnn]. pose proof (sf_seq _ _ _ _ Hf) as Hseq.
  assert (Hs' : seq c' = seq c1) by (by rewrite Hc').
  assert (Hown : forall k, owned t' = Some k -> owned t = Some k \/ k.2 = seq c + 1 /\ seq c' = seq c + 1).
  { intros k Hk. destruct (sf_owned _ _ _ _ Hf) as [Hx | [[Hx _] | (kd & Hx & Hy)]]; [congruence | left; congruence | right].
    rewrite Hx in Hk. injection Hk as <-. rewrite Hs'. done. }
  constructor.
  - intros j u k Hj Hu. destruct (step_cases j u Hj) as [[Hji Htu] | [Hne Hj']].
    + rewrite Htu in Hu. destruct Hu as [Hu | Hu].
      * destruct (sf_sent _ _ _ _ Hf k Hu) as [Hx | [Hx _]]; (apply tracked_step; [right; by rewrite (sent_owned _ _ Hu) |]); eapply Htr; eauto.
      * left. rewrite Hc'. by apply (sf_stored _ _ _ _ Hf).
    + apply tracked_step; [| by eapply Htr]. left. intros Hx.
      assert (Hu' : owned u = Some k) by (destruct Hu as [Hu | ->]; [by apply sent_owned | done]).
      apply Hne. by eapply How.
  - intros j u k Hj Hu Hk. assert (Hk1 : k ∈ table c1) by (by rewrite Hc' in Hk).
    assert (Hold : closed c = false \/ at_work c (fun t => will_range t k) -> closed c' = false \/ at_work c' (fun t => will_range t k)).
    { intros Hx. destruct (sf_closed _ _ _ _ Hf) as [Hcl | [_ Hcl]]; [| right; exists i, t'; split; [apply step_self | by rewrite Hcl]].
      destruct Hx as [Hx | Hx]; [left; rewrite Hc'; simpl; congruence | right].
      eapply at_work_step; [| exact Hx]. intros Hw. by apply (sf_range _ _ _ _ Hf). }
    assert (Hnew : k ∈ table c \/ t' = SRecheck k) by (by apply (sf_new _ _ _ _ Hf)).
    destruct (step_cases j u Hj) as [[Hji Htu] | [Hne Hj']].
    + rewrite Htu in Hu. destruct (sf_sent _ _ _ _ Hf k Hu) as [Hx | [Hx [Hcl | Hcl]]]; [| left; by rewrite Hc' | done].
      destruct Hnew as [Hnew | Hrc]; [| by rewrite Hrc in Hu]. apply Hold. by eapply Hra.
    + apply Hold. destruct Hnew as [Hnew | Hrc]; [by eapply Hra |]. exfalso.
      destruct (Hown k) as [Hx | [Hx _]]; [by rewrite Hrc | apply Hne; by eapply How, Hx; [apply Hj' | exact Hi | by apply sent_owned] |].
      pose proof (Hsq _ _ _ Hj' (sent_owned _ _ Hu)). lia.
  - intros j u k Hj Hu. destruct (step_cases j u Hj) as [[Hji Htu] | [Hne Hj']].
    + rewrite Htu in Hu. destruct (Hown k Hu) as [Hx | [Hx Hy]]; [pose proof (Hsq _ _ _ Hi Hx) |]; lia.
    + pose proof (Hsq _ _ _ Hj' Hu). lia.
  - intros j j' u u' k Hj Hj' Hu Hu'.
    destruct (step_cases j u Hj) as [[Hji Htu] | [Hne Hjo]], (step_cases j' u' Hj') as [[Hji' Htu'] | [Hne' Hjo']]; [congruence | | |].
    + rewrite Htu in Hu. rewrite Hji. destruct (Hown k Hu) as [Hx | [Hx _]]; [by eapply How | pose proof (Hsq _ _ _ Hjo' Hu'); lia].
    + rewrite Htu' in Hu'. rewrite Hji'. destruct (Hown k Hu') as [Hx | [Hx _]]; [by eapply How | pose proof (Hsq _ _ _ Hjo Hu); lia].
    + by eapply How.
  - lia.
Qed.

End Step.

Lemma client_step_inv c e c' :
  client_inv c -> seq c + 1 < 2 ^ 64 -> client_step c e = Some c' -> client_inv c' /\ seq c' <= seq c + 1.
Proof.
  intros Hinv Hs. unfold client_step. destruct e as [i ch]. simpl. destruct (threads c !! i) as [t |] eqn:Hi; [| done].
  destruct (thread_step c t ch) as [[c1 t'] |] eqn:Ht; [| done]. intros [= <-].
  destruct (thread_step_facts c t ch c1 t' (ci_nonneg c Hinv) Hs Ht) as [Hth Hf].
  split; [by eapply inv_step | apply (sf_seq _ _ _ _ Hf)].
Qed.

Lemma fresh_thread kinds closes i t : threads (fresh kinds closes) !! i = Some t -> owned t = None /\ sent t = None /\ forall k, t <> SRecheck k.
Proof.
  intros Ht. apply list_elem_of_lookup_2 in Ht. unfold fresh in Ht. simpl in Ht.
  apply elem_of_cons in Ht as [-> | Ht]; [done |]. apply elem_of_app in Ht as [Ht | Ht].
  - apply list_elem_of_fmap in Ht as (kd & -> & _). done.
  - by apply elem_of_replicate in Ht as [-> _].
Qed.

Lemma fresh_inv kinds closes : client_inv (fresh kinds closes).
Proof.
  constructor.
  - intros i t k Hi [Hs | Hs]; destruct (fresh_thread _ _ _ _ Hi) as (_ & H1 & H2); [congruence | by destruct (H2 k)].
  - intros i t k Hi Hs. destruct (fresh_thread _ _ _ _ Hi) as (_ & H1 & _). congruence.
  - intros i t k Hi Hs. destruct (fresh_thread _ _ _ _ Hi) as (H1 & _). congruence.
  - intros i j t t' k Hi _ Hs. destruct (fresh_thread _ _ _ _ Hi) as (H1 & _). congruence.
  - done.
Qed.

Lemma client_run_inv es c c' :
  client_inv c -> seq c + zlen es < 2 ^ 64 -> client_run c es = Some c' -> client_inv c'.
Proof.
  revert c. induction es as [| e es IH]; intros c Hinv Hs; simpl; [by intros [= <-] |].
  rewrite zlen_cons in Hs. pose proof (zlen_nonneg es).
  assert (Hroom : seq c + 1 < 2 ^ 64) by lia.
  destruct (client_step c e) as [c1 |] eqn:Hst; [| done].
  destruct (client_step_inv c e c1 Hinv Hroom Hst) as [Hinv1 Hs1]. intros Hr.
  apply (IH c1); [done | lia | done].
Qed.

(** C4: no request is lost between the sender, the reader and the shutdown of a
    connection: in every interleaving, a call that returned a future or stream
    is still in the table, waiting for its response, or has been completed, or
    is being completed; and once the connection is closed and every thread has
    come to rest, it has been completed, so that nobody waits forever. *)
Theorem no_request_is_lost kinds closes es c i k :
  zlen es < 2 ^ 64 -> client_run (fresh kinds closes) es = Some c ->
  threads c !! i = Some (SReturned (Some k)) ->
  tracked c k /\ (closed c = true -> Forall quiet (threads c) -> k ∈ completed c).
Proof.
  intros Hes Hrun Hi. assert (Hinv : client_inv c) by (by apply (client_run_inv es (fresh kinds closes)); [apply fresh_inv | simpl |]).
  pose proof (ci_tracked _ Hinv i _ k Hi (or_introl eq_refl)) as Htr. split; [done |]. intros Hcl Hq.
  assert (Hidle : forall P : thread -> Prop, (forall t, quiet t -> ~ P t) -> ~ at_work c P).
  { intros P HP (j & t & Hj & Ht). apply (HP t); [| done]. by eapply Forall_lookup_1. }
  destruct Htr as [Ht | [Ht | Ht]]; [| done | exfalso; revert Ht; apply Hidle; by intros t Hqt ->].
  exfalso. destruct (ci_ranged _ Hinv i _ k Hi eq_refl Ht) as [Hx | Hx]; [congruence |].
  revert Hx. apply Hidle. intros t Hqt Hw. by destruct t.
Qed.

(** ** Witness: two calls, a response to the first, then [Close] *)

Definition sample_schedule : list (nat * choice) :=
  [(1%nat, Go); (1%nat, Go); (1%nat, Go); (2%nat, Go); (1%nat, Go); (1%nat, WriteOk); (2%nat, Go); (2%nat, Go);
   (0%nat, Response (false, 1)); (3%nat, Go); (2%nat, Go); (0%nat, Go); (0%nat, Go); (3%nat, Go); (3%nat, Finish);
   (3%nat, Finish); (0%nat, ReadErr); (0%nat, Go)].

Definition sample_end : TCPClient :=
  match client_run (fresh [false; true] 1) sample_schedule with Some c => c | None => fresh [] 0 end.

Lemma sample_end_run : client_run (fresh [false; true] 1) sample_schedule = Some sample_end.
Proof.
  assert (Hb : match client_run (fresh [false; true] 1) sample_schedule with Some _ => true | None => false end = true)
    by (vm_compute; reflexivity).
  unfold sample_end. by destruct (client_run (fresh [false; true] 1) sample_schedule).
Qed.

Lemma sample_end_rest :
  threads sample_end = [HDone; SReturned (Some (false, 1)); SReturned None; HDone] /\ closed sample_end = true.
Proof. split; vm_compute; reflexivity. Qed.

Lemma no_request_is_lost_witness : (false, 1) ∈ completed sample_end.
Proof.
  destruct (no_request_is_lost [false; true] 1 sample_schedule sample_end 1 (false, 1)) as [_ Hdone].
  - vm_compute. reflexivity.
  - exact sample_end_run.
  - rewrite (proj1 sample_end_rest). reflexivity.
  - apply Hdone; [exact (proj2 sample_end_rest) |]. rewrite (proj1 sample_end_rest). repeat constructor.
Defined.
