(* ===== verification/RpcFuture.v ===== *)
(** * RpcFuture
    [transport/future.go]: a result that any number of callers may try to set,
    with a callback that must run once, under every interleaving.

    The critical section of a method is one step; the callback and the [close]
    of the channel are steps of their own. A second [close] would panic. *)
From S2P Require Import Prelude.

(** The Go values are opaque here: a result is a name, and so is a callback. *)
Record Future := mkFuture {
  fRes : bytes;
  fErr : option string;
  fComplete : bool;
  fOnComplete : option Z;
  fDone : bool;
}.
#[export] Instance future_eta : Eta Future := fun f => mkFuture (fRes f) (fErr f) (fComplete f) (fOnComplete f) (fDone f).

Definition NewFuture : Future := mkFuture [] None false None false.

(** A call in progress. *)
Inductive pending_call :=
| CDone (res : bytes) (err : option string)
| CDoneNotify (callback : option Z) (err : option string)
| CDoneClose
| COnComplete (fn : option Z)
| COnNotify (fn : option Z) (err : option string)
| CReturned.

(** Callbacks run so far, with the error each was given. *)
Abbreviation callbacks := (list (Z * option string)).

Definition run_callback (fn : option Z) (err : option string) (log : callbacks) : callbacks :=
  match fn with Some f => log ++ [(f, err)] | None => log end.

Definition call_step (f : Future) (log : callbacks) (c : pending_call) : outcome (Future * callbacks * pending_call) :=
  match c with
  | CDone res err =>
      if fComplete f then Ret (f, log, CReturned)
      else Ret (f <| fRes := res |> <| fErr := err |> <| fComplete := true |>, log, CDoneNotify (fOnComplete f) err)
  | CDoneNotify fn err => Ret (f, run_callback fn err log, CDoneClose)
  | CDoneClose => if fDone f then Panic "close of closed channel" else Ret (f <| fDone := true |>, log, CReturned)
  | COnComplete fn =>
      if fComplete f then Ret (f, log, COnNotify fn (fErr f))
      else Ret (f <| fOnComplete := fn |>, log, CReturned)
  | COnNotify fn err => Ret (f, run_callback fn err log, CReturned)
  | CReturned => Ret (f, log, CReturned)
  end.

(** [Wait], [DoneChan] and [IsDone] only look at the channel; [Wait] then reads
    the result. *)
Definition IsDone (f : Future) : bool := fDone f.
Definition Wait (f : Future) : option (bytes * option string) := if fDone f then Some (fRes f, fErr f) else None.

(** [WaitWithContext]: when both are ready the runtime picks; [None] blocks. *)
Definition WaitWithContext (f : Future) (ctxErr : option string) (pickDone : bool) : option (bytes * option string) :=
  match Wait f, ctxErr with
  | Some r, None => Some r
  | None, Some e => Some ([], Some e)
  | Some r, Some e => Some (if pickDone then r else ([], Some e))
  | None, None => None
  end.

Record system := mkSystem {
  sFuture : Future;
  sLog : callbacks;
  sCalls : list pending_call;
}.

(** A schedule names the call that moves next. *)
Fixpoint run (s : system) (schedule : list nat) : outcome system :=
  match schedule with
  | [] => Ret s
  | i :: schedule =>
      match sCalls s !! i with
      | None => run s schedule
      | Some c =>
          let! r := call_step (sFuture s) (sLog s) c in
          let '(f, log, c) := r in
          run (mkSystem f log (<[i := c]> (sCalls s))) schedule
      end
  end.

(** ** The invariant *)

Definition closer (c : pending_call) : Z :=
  match c with CDoneNotify _ _ | CDoneClose => 1 | _ => 0 end.

(** A call that will run the callback, if it is registered or the future is done. *)
Definition owes (c : pending_call) : Z :=
  match c with CDoneNotify (Some _) _ | COnComplete _ | COnNotify _ _ => 1 | _ => 0 end.

(** A call of [Done] that has not started. *)
Definition waiting (c : pending_call) : Z := match c with CDone _ _ => 1 | _ => 0 end.

Section Invariant.
  Context (fn : Z) (args : list (bytes * option string)).

(** What the calls carry. *)
Definition call_ok (f : Future) (c : pending_call) : Prop :=
  match c with
  | CDone res err => (res, err) ∈ args
  | CDoneNotify cb err => fComplete f = true /\ err = fErr f /\ (cb = None \/ cb = Some fn)
  | CDoneClose => fComplete f = true
  | COnComplete cb => cb = Some fn
  | COnNotify cb err => fComplete f = true /\ cb = Some fn /\ err = fErr f
  | CReturned => True
  end.

Record future_inv (s : system) : Prop := {
  fi_calls : Forall (call_ok (sFuture s)) (sCalls s);
  fi_log : Forall (fun l => l = (fn, fErr (sFuture s))) (sLog s);
  fi_registered : fOnComplete (sFuture s) = None \/ fOnComplete (sFuture s) = Some fn;
  fi_args : fComplete (sFuture s) = true -> (fRes (sFuture s), fErr (sFuture s)) ∈ args;
  fi_open : fComplete (sFuture s) = false -> fDone (sFuture s) = false /\ sLog s = [] /\ sumZ (closer <$> sCalls s) = 0
    /\ sumZ (waiting <$> sCalls s) = zlen args;
  fi_closers : fComplete (sFuture s) = true -> sumZ (closer <$> sCalls s) + (if fDone (sFuture s) then 1 else 0) = 1;
  fi_owed : sumZ (owes <$> sCalls s) + zlen (sLog s)
            + (if fComplete (sFuture s) then 0 else match fOnComplete (sFuture s) with Some _ => 1 | None => 0 end) = 1;
}.

Lemma closer_nonneg cs : Forall (fun x => 0 <= x) (closer <$> cs).
Proof. apply Forall_fmap, Forall_forall. intros [] _; simpl; lia. Qed.
Lemma owes_nonneg cs : Forall (fun x => 0 <= x) (owes <$> cs).
Proof. apply Forall_fmap, Forall_forall. intros [| [] | | | |] _; simpl; lia. Qed.

Lemma weight_le (w : pending_call -> Z) cs i c :
  Forall (fun x => 0 <= x) (w <$> cs) -> cs !! i = Some c -> w c <= sumZ (w <$> cs).
Proof.
  intros Hw Hi. apply sumZ_elem; [done |]. apply list_elem_of_fmap. exists c. split; [done |]. by eapply list_elem_of_lookup_2.
Qed.

Lemma calls_insert f f' cs i c' :
  Forall (call_ok f) cs -> call_ok f' c' -> (forall c, call_ok f c -> call_ok f' c) -> Forall (call_ok f') (<[i := c']> cs).
Proof. intros Hc Hc' Hf. apply Forall_insert; [| done]. by eapply Forall_impl. Qed.

Lemma future_step s i c :
  future_inv s -> sCalls s !! i = Some c ->
  exists f log c', call_step (sFuture s) (sLog s) c = Ret (f, log, c')
    /\ future_inv (mkSystem f log (<[i := c']> (sCalls s))).
Proof.
  intros [Hcalls Hlog Hreg Hargs Hopen Hclos Howed] Hi. pose proof (Forall_lookup_1 _ _ _ _ Hcalls Hi) as Hok.
  pose proof (weight_le closer _ i c (closer_nonneg _) Hi) as Hc1. pose proof (weight_le owes _ i c (owes_nonneg _) Hi) as Ho1.
  destruct s as [[res err cpl cb dn] lg cs]. simpl in *.
  assert (Hsum : forall w c', sumZ (w <$> <[i := c']> cs) = sumZ (w <$> cs) - w c + w c') by (intros; by apply sumZ_fmap_insert).
  destruct c as [r e | cb' e | | cb' | cb' e |]; simpl in Hok.
  - simpl. destruct cpl; (eexists _, _, _; split; [done |]); constructor; simpl; rewrite ?Hsum; simpl; try done; try lia.
    + by apply (calls_insert (mkFuture res err true cb dn)).
    + apply (calls_insert (mkFuture res err false cb dn)); [done | by destruct Hreg as [-> | ->]; simpl; auto |].
      intros c' Hc'. destruct c'; simpl in *; naive_solver.
    + destruct (Hopen eq_refl) as (_ & -> & _ & _). constructor.
    + destruct (Hopen eq_refl) as (-> & _ & -> & _). lia.
  - destruct Hok as (-> & -> & Hcb). simpl. eexists _, _, _; split; [done |]. constructor; simpl; rewrite ?Hsum; simpl; try done; try lia.
    + by apply (calls_insert (mkFuture res err true cb dn)).
    + destruct Hcb as [-> | ->]; simpl; [done |]. apply Forall_app. split; [done | by repeat constructor].
    + destruct Hcb as [-> | ->]; simpl in *; rewrite ?zlen_app, ?zlen_cons in *; change (zlen (@nil (Z * option string))) with 0; lia.
  - simpl in *. subst cpl. specialize (Hclos eq_refl). destruct dn; [lia |]. eexists _, _, _; split; [done |].
    constructor; simpl; rewrite ?Hsum; simpl; try done; try lia.
    apply (calls_insert (mkFuture res err true cb false)); [done | done |]. intros c' Hc'. by destruct c'.
  - subst cb'. simpl in *. destruct cpl; (eexists _, _, _; split; [done |]); constructor; simpl; rewrite ?Hsum; simpl; try done; try lia.
    + by apply (calls_insert (mkFuture res err true cb dn)).
    + by apply (calls_insert (mkFuture res err false cb dn)).
    + by right.
    + intros _. destruct (Hopen eq_refl) as (-> & -> & -> & ->). repeat split; lia.
    + pose proof (zlen_nonneg lg). destruct cb; lia.
  - destruct Hok as (-> & -> & ->). simpl in *. eexists _, _, _; split; [done |].
    constructor; simpl; rewrite ?Hsum; simpl; try done; try lia.
    + by apply (calls_insert (mkFuture res err true cb dn)).
    + apply Forall_app. split; [done | by repeat constructor].
    + rewrite zlen_app, zlen_cons. change (zlen (@nil (Z * option string))) with 0. lia.
  - simpl. eexists _, _, _; split; [done |]. rewrite list_insert_id by done. by constructor.
Qed.

Lemma run_inv schedule s : future_inv s -> exists s', run s schedule = Ret s' /\ future_inv s'.
Proof.
  revert s. induction schedule as [| i schedule IH]; intros s Hinv; simpl; [eauto |].
  destruct (sCalls s !! i) as [c |] eqn:Hi; [| by apply IH].
  destruct (future_step s i c Hinv Hi) as (f & log & c' & -> & Hinv'). cbn [obind]. by apply IH.
Qed.

End Invariant.

(** A future whose result several callers race to set, and one caller that
    registers a callback. *)
Definition racing (fn : Z) (args : list (bytes * option string)) : system :=
  mkSystem NewFuture [] (COnComplete (Some fn) :: ((fun a => CDone a.1 a.2) <$> args)).

Lemma racing_inv fn args : future_inv fn args (racing fn args).
Proof.
  assert (Hz : forall w, (forall r e, w (CDone r e) = 0) -> sumZ (w <$> ((fun a => CDone a.1 a.2) <$> args)) = 0).
  { intros w Hw. induction args as [| a args IH]; [done |]. rewrite !fmap_cons. unfold sumZ in *. cbn [foldr]. rewrite IH, Hw. done. }
  assert (Hw : sumZ (waiting <$> ((fun a => CDone a.1 a.2) <$> args)) = zlen args).
  { clear Hz. induction args as [| a args IH]; [done |]. rewrite zlen_cons, !fmap_cons. unfold sumZ in *. cbn [foldr waiting]. rewrite IH. lia. }
  pose proof (Hz closer ltac:(done)) as Hc. pose proof (Hz owes ltac:(done)) as Ho.
  unfold racing. constructor; cbn [sCalls sFuture sLog NewFuture fComplete fDone fOnComplete fErr fRes]; try done; auto;
    rewrite ?fmap_cons; unfold sumZ in *; cbn [foldr closer waiting owes].
  - constructor; [done |]. apply Forall_fmap, Forall_forall. intros [r e] Hin. done.
  - rewrite Ho. done.
Qed.

(** C19: however the calls of [Done] and the registration of the callback
    interleave, nothing panics, so that the channel is closed at most once; the
    callback runs at most once, and with the error the future has; once every call
    has returned, and there was one of [Done], it has run exactly once, and every
    [Wait] sees the result of one of the calls, the one whose error the callback
    got. *)
Theorem callback_runs_once fn args schedule :
  exists s, run (racing fn args) schedule = Ret s
    /\ zlen (sLog s) <= 1 /\ Forall (fun l => l = (fn, fErr (sFuture s))) (sLog s)
    /\ (args <> [] -> Forall (fun c => c = CReturned) (sCalls s) ->
          exists res err, (res, err) ∈ args /\ sLog s = [(fn, err)] /\ Wait (sFuture s) = Some (res, err)).
Proof.
  destruct (run_inv fn args schedule _ (racing_inv fn args)) as (s & Hs & Hinv). exists s. split; [done |].
  pose proof (sumZ_nonneg _ (owes_nonneg (sCalls s))) as Hn. destruct Hinv as [Hcalls Hlog Hreg Hargs Hopen Hclos Howed].
  split; [destruct (fComplete _), (fOnComplete _); lia |]. split; [done |]. intros Hne Hall.
  assert (Hzero : forall w, w CReturned = 0 -> sumZ (w <$> sCalls s) = 0).
  { intros w Hw. clear -Hall Hw. induction Hall as [| c cs Hc _ IH]; [done |]. rewrite fmap_cons. unfold sumZ in *. cbn [foldr]. rewrite IH, Hc, Hw. done. }
  assert (Hcpl : fComplete (sFuture s) = true).
  { destruct (fComplete (sFuture s)) eqn:Hc; [done |]. destruct (Hopen eq_refl) as (_ & _ & _ & Hw).
    rewrite (Hzero waiting eq_refl) in Hw. destruct args; [done |]. rewrite zlen_cons in Hw. pose proof (zlen_nonneg args). lia. }
  specialize (Hclos Hcpl). rewrite (Hzero closer eq_refl) in Hclos. rewrite (Hzero owes eq_refl), Hcpl in Howed.
  exists (fRes (sFuture s)), (fErr (sFuture s)). split; [by apply Hargs |]. split.
  - destruct (sLog s) as [| l [| l' log]]; [done | | rewrite !zlen_cons in Howed; pose proof (zlen_nonneg log); lia].
    by apply Forall_cons in Hlog as [-> _].
  - unfold Wait. by destruct (fDone (sFuture s)).
Qed.

(** ** Witness: the reader and the shutdown race, the callback registers between *)

Definition sample_race : list nat := [2; 0; 1; 2; 1; 2; 0]%nat.
Definition sample_args : list (bytes * option string) := [([1; 2], None); ([], Some "connection closed"%string)].

Lemma callback_runs_once_witness :
  exists s, run (racing 7 sample_args) sample_race = Ret s /\ sLog s = [(7, Some "connection closed"%string)].
Proof.
  destruct (callback_runs_once 7 sample_args sample_race) as (s & Hs & _ & _ & Hall). exists s. split; [done |].
  vm_compute in Hs. injection Hs as <-. destruct Hall as (res & err & _ & Hlog & Hw); [done | repeat constructor |].
  vm_compute in Hw. injection Hw as <- <-. exact Hlog.
Defined.
