(* ===== verification/RpcStream.v ===== *)
(** * RpcStream
    The receiving end of a server stream ([transport/stream.go]) with its feeder,
    the [readLoop] and the [shutdown] of the connection ([transport/tcp_client.go]).

    A [select] is one step whose argument is the case the runtime takes among
    the ready ones. [sync.Once] makes [terminate] one step: [termErr] is [Some]
    when [termCh] is closed. The stream's context is done when [ctxErr] is [Some]. *)
From S2P Require Import Prelude.

(** ** The stream *)

Record ClientStreamConn := mkStream {
  ch : list bytes;
  ctxErr : option string;
  termErr : option string;
}.
#[export] Instance stream_eta : Eta ClientStreamConn := fun s => mkStream (ch s) (ctxErr s) (termErr s).

Definition stream_buffer : Z := 64.
Definition NewClientStreamConn : ClientStreamConn := mkStream [] None None.
Definition EOF : string := "EOF".

Inductive select_case := CaseFrame | CaseTerm | CaseCtx | CaseDefault.

(** [None]: that case is not ready. *)
Definition Push (s : ClientStreamConn) (body : bytes) (c : select_case) : option ClientStreamConn :=
  match c with
  | CaseFrame => if decide (zlen (ch s) < stream_buffer) then Some (s <| ch := ch s ++ [body] |>) else None
  | CaseCtx => match ctxErr s with Some _ => Some s | None => None end
  | CaseTerm => match termErr s with Some _ => Some s | None => None end
  | CaseDefault => None
  end.

Definition terminate (s : ClientStreamConn) (err : string) : ClientStreamConn :=
  match termErr s with Some _ => s | None => s <| termErr := Some err |> end.
Definition End_ (s : ClientStreamConn) : ClientStreamConn := terminate s EOF.
Definition Error_ (s : ClientStreamConn) (err : string) : ClientStreamConn := terminate s err.
Definition Cancel (s : ClientStreamConn) (err : string) : ClientStreamConn :=
  match ctxErr s with Some _ => s | None => s <| ctxErr := Some err |> end.

(** What [Recv] returns: a frame to unmarshal, the terminal error, or the
    error of the context. *)
Inductive recv_result := RFrame (body : bytes) | RTerm (err : string) | RCtx (err : string).
Inductive recv_pc := RecvDrain | RecvWait | RecvLast.

Definition take_frame (s : ClientStreamConn) : option (ClientStreamConn * (recv_pc + recv_result)) :=
  match ch s with b :: ch' => Some (s <| ch := ch' |>, inr (RFrame b)) | [] => None end.

Definition recv_step (s : ClientStreamConn) (pc : recv_pc) (c : select_case) : option (ClientStreamConn * (recv_pc + recv_result)) :=
  match pc, c with
  | RecvDrain, CaseFrame => take_frame s
  | RecvDrain, CaseDefault => match ch s with [] => Some (s, inl RecvWait) | _ => None end
  | RecvWait, CaseFrame => take_frame s
  | RecvWait, CaseTerm => match termErr s with Some _ => Some (s, inl RecvLast) | None => None end
  | RecvWait, CaseCtx => match ctxErr s with Some e => Some (s, inr (RCtx e)) | None => None end
  | RecvLast, CaseFrame => take_frame s
  | RecvLast, CaseDefault =>
      match ch s, termErr s with [], Some e => Some (s, inr (RTerm e)) | _, _ => None end
  | _, _ => None
  end.

(** ** The connection around it *)

(** A message for this stream's sequence number. *)
Inductive message := StreamDataMsg (body : bytes) | StreamEndMsg | StreamErrorMsg (err : string).

Record session := mkSession {
  sStream : ClientStreamConn;
  sRegistered : bool;
  sClosed : bool;
  sWire : list message;
  sRecv : option recv_pc;
  sResults : list recv_result;
}.
#[export] Instance session_eta : Eta session := fun x =>
  mkSession (sStream x) (sRegistered x) (sClosed x) (sWire x) (sRecv x) (sResults x).

Inductive event :=
| EMessage (c : select_case)
| ELost (err : string)
| EClose
| EDelete
| ECancel (err : string)
| ERecv
| ERecvStep (c : select_case).

(** [readLoop] on a message: the cases of its [switch]. *)
Definition dispatch (x : session) (m : message) (c : select_case) : option session :=
  if sRegistered x then
    match m with
    | StreamDataMsg b => match Push (sStream x) b c with Some s => Some (x <| sStream := s |>) | None => None end
    | StreamEndMsg => Some (x <| sRegistered := false |> <| sStream := End_ (sStream x) |>)
    | StreamErrorMsg e => Some (x <| sRegistered := false |> <| sStream := Error_ (sStream x) e |>)
    end
  else Some x.

(** [shutdown], up to the deletion, which is [EDelete]. *)
Definition shutdown (x : session) (err : string) : session :=
  if sClosed x then x
  else let x := x <| sClosed := true |> in
       if sRegistered x then x <| sStream := Error_ (sStream x) err |> else x.

Definition session_step (x : session) (e : event) : option session :=
  match e with
  | EMessage c =>
      match sWire x with
      | [] => None
      | m :: w => match dispatch x m c with Some x => Some (x <| sWire := w |>) | None => None end
      end
  | ELost err => Some (shutdown (x <| sWire := [] |>) err)
  | EClose => Some (shutdown x "connection closed")
  | EDelete => if sClosed x then Some (x <| sRegistered := false |>) else None
  | ECancel err => Some (x <| sStream := Cancel (sStream x) err |>)
  | ERecv => match sRecv x with None => Some (x <| sRecv := Some RecvDrain |>) | Some _ => None end
  | ERecvStep c =>
      match sRecv x with
      | None => None
      | Some pc =>
          match recv_step (sStream x) pc c with
          | None => None
          | Some (s, inl pc) => Some (x <| sStream := s |> <| sRecv := Some pc |>)
          | Some (s, inr r) => Some (x <| sStream := s |> <| sRecv := None |> <| sResults := sResults x ++ [r] |>)
          end
      end
  end.

Fixpoint session_run (x : session) (es : list event) : option session :=
  match es with
  | [] => Some x
  | e :: es => match session_step x e with Some x => session_run x es | None => None end
  end.

Definition opened (wire : list message) : session := mkSession NewClientStreamConn true false wire None [].

(** ** What a stream carries *)

(** The data the server sent before it ended the stream. *)
Fixpoint bodies (wire : list message) : list bytes :=
  match wire with StreamDataMsg b :: wire => b :: bodies wire | _ => [] end.

Fixpoint ending (wire : list message) : option string :=
  match wire with
  | [] => None
  | StreamDataMsg _ :: wire => ending wire
  | StreamEndMsg :: _ => Some EOF
  | StreamErrorMsg e :: _ => Some e
  end.

Definition frames (rs : list recv_result) : list bytes := omap (fun r => match r with RFrame b => Some b | _ => None end) rs.

(** ** The invariant *)

Definition in_flight (x : session) : list bytes :=
  frames (sResults x) ++ ch (sStream x) ++ (if sRegistered x then bodies (sWire x) else []).

Definition undisturbed (x : session) : Prop := ctxErr (sStream x) = None /\ sClosed x = false.

Record session_inv (w0 : list message) (x : session) : Prop := {
  si_order : in_flight x `sublist_of` bodies w0;
  si_all : undisturbed x -> in_flight x = bodies w0;
  si_term : undisturbed x ->
    match termErr (sStream x) with
    | None => sRegistered x = true /\ ending (sWire x) = ending w0
    | Some e => sRegistered x = false /\ ending w0 = Some e
    end;
  si_last : undisturbed x -> forall e, RTerm e ∈ sResults x -> termErr (sStream x) = Some e /\ ch (sStream x) = [];
}.

Lemma frames_snoc rs r : frames (rs ++ [r]) = frames rs ++ match r with RFrame b => [b] | _ => [] end.
Proof. unfold frames. rewrite omap_app. by destruct r. Qed.

Lemma push_inv x b w c s w0 :
  sRegistered x = true -> sWire x = StreamDataMsg b :: w -> Push (sStream x) b c = Some s ->
  session_inv w0 x -> session_inv w0 (x <| sStream := s |> <| sWire := w |>).
Proof.
  destruct x as [[q cx te] rg cl wr rc rs]. simpl. intros -> -> Hp [Hord Hall Hterm Hlast].
  unfold in_flight, undisturbed in *. simpl in *.
  assert (Hs : (exists q', s = mkStream q' cx te /\ q' = q ++ [b]) \/ (s = mkStream q cx te /\ ~ (cx = None /\ te = None))).
  { destruct c; simpl in Hp; [destruct (decide _) | destruct te | destruct cx |]; try done; injection Hp as <-; eauto; right; split; naive_solver. }
  destruct Hs as [(q' & -> & ->) | [-> Hd]]; constructor; unfold in_flight, undisturbed; simpl.
  - by rewrite <- (assoc app q [b]).
  - intros Hu. rewrite <- (assoc app q [b]). exact (Hall Hu).
  - done.
  - intros Hu e He. destruct (Hlast Hu e He) as [-> _]. destruct (Hterm Hu). done.
  - etrans; [| exact Hord]. do 2 (apply sublist_app; [done |]). by constructor.
  - intros Hu. destruct te as [e |]; [| destruct Hu; naive_solver]. by destruct (Hterm Hu).
  - intros Hu. destruct te as [e |]; [| destruct Hu; naive_solver]. by destruct (Hterm Hu).
  - done.
Qed.

Lemma recv_inv w0 x pc s r c :
  recv_step (sStream x) pc c = Some (s, r) -> session_inv w0 x ->
  session_inv w0 (match r with inl pc => x <| sStream := s |> <| sRecv := Some pc |>
                  | inr r => x <| sStream := s |> <| sRecv := None |> <| sResults := sResults x ++ [r] |> end).
Proof.
  destruct x as [[q cx te] rg cl wr rc rs]. simpl. intros Hr [Hord Hall Hterm Hlast].
  unfold in_flight, undisturbed in *. simpl in *.
  assert (Hs : (s = mkStream q cx te /\ exists pc', r = inl pc') \/ (exists b q', q = b :: q' /\ s = mkStream q' cx te /\ r = inr (RFrame b))
    \/ (s = mkStream q cx te /\ q = [] /\ exists e, te = Some e /\ r = inr (RTerm e))
    \/ (s = mkStream q cx te /\ exists e, cx = Some e /\ r = inr (RCtx e))).
  { unfold recv_step, take_frame in Hr. simpl in Hr. destruct pc, c, q as [| b q'], te, cx; try done; injection Hr as <- <-; eauto 10. }
  destruct Hs as [(-> & pc' & ->) | [(b & q' & -> & -> & ->) | [(-> & -> & e & -> & ->) | (-> & e & -> & ->)]]];
    constructor; unfold in_flight, undisturbed; simpl; rewrite ?frames_snoc, ?app_nil_r; try done.
  - by rewrite <- (assoc app _ [b]).
  - intros Hu. rewrite <- (assoc app _ [b]). exact (Hall Hu).
  - intros Hu e He. apply elem_of_app in He as [He | He]; [by destruct (Hlast Hu e He) | by apply list_elem_of_singleton in He].
  - intros Hu e' He. apply elem_of_app in He as [He | He]; [by apply Hlast | apply list_elem_of_singleton in He; by injection He as ->].
  - by intros [? _].
Qed.

(** Nothing but the order is promised of a disturbed stream. *)
Lemma disturbed_inv w0 x : in_flight x `sublist_of` bodies w0 -> ~ undisturbed x -> session_inv w0 x.
Proof. intros Ho Hd. by constructor. Qed.

Lemma shutdown_disturbs x err : ~ undisturbed (shutdown x err).
Proof. destruct x as [s rg cl wr rc rs]. unfold shutdown, undisturbed. simpl. destruct cl, rg; simpl; intros [? ?]; congruence. Qed.

Lemma shutdown_in_flight x err : in_flight (shutdown x err) = in_flight x.
Proof.
  destruct x as [[q cx te] rg cl wr rc rs]. unfold shutdown, in_flight. destruct cl; [done |]. simpl. destruct rg, te; done.
Qed.

Lemma in_flight_less (x y : session) :
  sResults y = sResults x -> ch (sStream y) = ch (sStream x) ->
  (sRegistered y = sRegistered x /\ sWire y = sWire x) \/ sRegistered y = false \/ sWire y = [] -> in_flight y `sublist_of` in_flight x.
Proof.
  intros Hr Hc Hw. unfold in_flight. rewrite Hr, Hc. do 2 (apply sublist_app; [done |]).
  destruct Hw as [[-> ->] | [-> | ->]]; [done | apply sublist_nil_l |]. destruct (sRegistered y); apply sublist_nil_l.
Qed.

Lemma ended_inv w0 x m w err :
  sRegistered x = true -> sWire x = m :: w -> bodies (m :: w) = [] -> ending (m :: w) = Some err ->
  session_inv w0 x -> session_inv w0 (x <| sRegistered := false |> <| sStream := terminate (sStream x) err |> <| sWire := w |>).
Proof.
  destruct x as [[q cx te] rg cl wr rc rs]. cbn [sRegistered sWire sStream]. intros -> -> Hb He [Hord Hall Hterm Hlast].
  unfold in_flight, undisturbed in *. cbn [sStream sResults sRegistered sWire sClosed ch ctxErr termErr] in *. cbn beta iota in Hord, Hall. rewrite Hb in Hord, Hall.
  constructor; unfold in_flight, undisturbed, terminate; simpl; destruct te as [e |]; simpl; try done.
  - intros Hu. by destruct (Hterm Hu).
  - intros Hu. destruct (Hterm Hu) as [_ Ht]. split; [done | congruence].
  - intros Hu e He'. by destruct (Hlast Hu e He').
Qed.

Lemma session_step_inv w0 x e x' : session_step x e = Some x' -> session_inv w0 x -> session_inv w0 x'.
Proof.
  intros Hst Hinv. pose proof (si_order _ _ Hinv) as Hord. destruct e as [c | err | | | err | | c]; simpl in Hst.
  - destruct (sWire x) as [| m w] eqn:Hw; [done |]. unfold dispatch in Hst. destruct (sRegistered x) eqn:Hr.
    + destruct m as [b | | e].
      * destruct (Push (sStream x) b c) as [s |] eqn:Hp; [| done]. injection Hst as <-. by apply (push_inv x b w c).
      * injection Hst as <-. by eapply ended_inv.
      * injection Hst as <-. by eapply ended_inv.
    + injection Hst as <-. destruct Hinv as [H1 H2 H3 H4]. destruct x as [[q cx te] rg cl wr rc rs].
      unfold in_flight, undisturbed in *. simpl in *. subst rg. constructor; unfold in_flight, undisturbed; simpl; try done.
      intros Hu. specialize (H3 Hu). destruct te; [done | by destruct H3].
  - injection Hst as <-. apply disturbed_inv; [| apply shutdown_disturbs]. rewrite shutdown_in_flight.
    etrans; [| exact Hord]. apply in_flight_less; auto.
  - injection Hst as <-. apply disturbed_inv; [| apply shutdown_disturbs]. by rewrite shutdown_in_flight.
  - destruct (sClosed x) eqn:Hc; [| done]. injection Hst as <-. apply disturbed_inv; [| unfold undisturbed; simpl; intros [_ ?]; congruence].
    etrans; [| exact Hord]. apply in_flight_less; auto.
  - injection Hst as <-. destruct x as [[q cx te] rg cl wr rc rs]. unfold Cancel. simpl in *. destruct cx as [e |]; [exact Hinv |].
    apply disturbed_inv; [exact Hord |]. by intros [? _].
  - destruct (sRecv x); [done |]. injection Hst as <-. by destruct Hinv.
  - destruct (sRecv x) as [pc |]; [| done]. destruct (recv_step (sStream x) pc c) as [[s r] |] eqn:Hr; [| done].
    pose proof (recv_inv w0 x pc s r c Hr Hinv) as Hinv'. destruct r; injection Hst as <-; done.
Qed.

Lemma session_run_inv w0 es x x' : session_run x es = Some x' -> session_inv w0 x -> session_inv w0 x'.
Proof.
  revert x. induction es as [| e es IH]; intros x; simpl; [by intros [= <-] |].
  destruct (session_step x e) as [y |] eqn:Hst; [| done]. intros Hr Hinv. eapply IH; [done |]. by eapply session_step_inv.
Qed.

Lemma opened_inv wire : session_inv wire (opened wire).
Proof. constructor; unfold in_flight; simpl; try done. intros _ e He. by apply elem_of_nil in He. Qed.

Lemma bodies_map bs w : bodies (map StreamDataMsg bs ++ w) = bs ++ bodies w.
Proof. induction bs as [| b bs IH]; simpl; [done |]. by rewrite IH. Qed.

(** C22: whatever the reader, the receiver, the shutdown and a cancellation do,
    and whichever ready case each [select] takes, the frames that [Recv] returns
    are frames the server sent, in their order and none twice. While the
    connection is up and the context is not done, it skips none, and returns a
    terminal error only after every frame, the one the server ended the stream
    with; the reader, when it ends a stream, never waits for the receiver. (A
    lost connection or a done context can end the stream before its frames, see
    [lost_connection_reads_as_end].) *)
Theorem stream_delivers_in_order wire es x :
  session_run (opened wire) es = Some x ->
  frames (sResults x) `sublist_of` bodies wire
  /\ (undisturbed x -> frames (sResults x) `prefix_of` bodies wire)
  /\ (undisturbed x -> forall e, RTerm e ∈ sResults x -> frames (sResults x) = bodies wire /\ ending wire = Some e)
  /\ (forall m w, sWire x = m :: w -> bodies [m] = [] -> is_Some (session_step x (EMessage CaseDefault))).
Proof.
  intros Hrun. destruct (session_run_inv wire es _ _ Hrun (opened_inv wire)) as [Hord Hall Hterm Hlast]. unfold in_flight in *.
  split; [etrans; [by apply sublist_inserts_r | exact Hord] |]. split; [| split].
  - intros Hu. rewrite <- (Hall Hu). by apply prefix_app_r.
  - intros Hu e He. destruct (Hlast Hu e He) as [Ht Hc]. specialize (Hterm Hu). rewrite Ht in Hterm. destruct Hterm as [Hr Hen].
    split; [| done]. rewrite <- (Hall Hu), Hc, Hr. by rewrite !app_nil_r.
  - intros m w Hw Hb. simpl. rewrite Hw. unfold dispatch. destruct (sRegistered x), m; done.
Qed.

(** ** What a lost connection looks like *)

Lemma run_app es es' x : session_run x (es ++ es') = match session_run x es with Some y => session_run y es' | None => None end.
Proof. revert x. induction es as [| e es IH]; intros x; simpl; [done |]. destruct (session_step x e); [apply IH | done]. Qed.

Definition recv_one : list event := [ERecv; ERecvStep CaseFrame].

(** The reader takes a frame and [Recv] returns it, for each frame. *)
Lemma relay bs w rs :
  session_run (mkSession NewClientStreamConn true false (map StreamDataMsg bs ++ w) None rs)
    (concat (map (fun _ => [EMessage CaseFrame; ERecv; ERecvStep CaseFrame]) bs))
  = Some (mkSession NewClientStreamConn true false w None (rs ++ map RFrame bs)).
Proof.
  revert rs. induction bs as [| b bs IH]; intros rs; simpl; [by rewrite app_nil_r |].
  etrans; [exact (IH (rs ++ [RFrame b])) |]. by rewrite <- (assoc app rs [RFrame b]).
Qed.

(** A connection that the server closes in the middle of a stream reads as
    the end of the stream: [conn.Read] returns [io.EOF], [shutdown] hands that
    error to the stream, and [Recv] returns [io.EOF] after any part of the data,
    the same that a finished stream returns. *)
Theorem lost_connection_reads_as_end bs missing :
  exists es es' x y,
    session_run (opened (map StreamDataMsg (bs ++ missing))) es = Some x /\ ELost EOF ∈ es
    /\ session_run (opened (map StreamDataMsg bs ++ [StreamEndMsg])) es' = Some y
    /\ sResults x = map RFrame bs ++ [RTerm EOF] /\ sResults x = sResults y.
Proof.
  set (relay_all := concat (map (fun _ => [EMessage CaseFrame; ERecv; ERecvStep CaseFrame]) bs)).
  set (finish := [ERecv; ERecvStep CaseDefault; ERecvStep CaseTerm; ERecvStep CaseDefault]).
  eexists (relay_all ++ ELost EOF :: finish), (relay_all ++ EMessage CaseDefault :: finish), _, _.
  unfold opened. rewrite map_app, !run_app. unfold relay_all. rewrite !relay. simpl.
  split; [done |]. split; [apply elem_of_app; right; constructor |]. done.
Qed.

(** ** Witness: two frames, the second buffered while the stream ends *)

Definition sample_wire : list message := [StreamDataMsg [1; 2]; StreamDataMsg [3]; StreamEndMsg].
Definition sample_events : list event :=
  [ERecv; EMessage CaseFrame; EMessage CaseFrame; ERecvStep CaseFrame; EMessage CaseDefault; ERecv; ERecvStep CaseFrame;
   ERecv; ERecvStep CaseDefault; ERecvStep CaseTerm; ERecvStep CaseDefault].

Definition sample_final : session :=
  mkSession (mkStream [] None (Some EOF)) false false [] None [RFrame [1; 2]; RFrame [3]; RTerm EOF].
Lemma sample_run : session_run (opened sample_wire) sample_events = Some sample_final.
Proof. reflexivity. Qed.

Lemma stream_delivers_in_order_witness : frames (sResults sample_final) = bodies sample_wire.
Proof.
  destruct (stream_delivers_in_order sample_wire sample_events sample_final sample_run) as (_ & _ & Hend & _).
  destruct (Hend (conj eq_refl eq_refl) EOF) as [Hf _]; [| exact Hf].
  do 2 apply list_elem_of_further. apply list_elem_of_here.
Defined.
