(* ===== verification/RpcPool.v ===== *)
(** * RpcPool
    The connections to one address ([transport/tcp_connection_pool.go]).

    A connection is a number and [dead] the connections whose [closed] flag is
    set; dialling is the network's business and its outcome an argument. Every
    method holds the pool's mutex, so it is one step. *)
From S2P Require Import Prelude.

Record ConnectionPool := mkPool {
  maxActive : Z;
  conns : list Z;
  pclosed : bool;
  next : Z;
}.
#[export] Instance pool_eta : Eta ConnectionPool := fun p => mkPool (maxActive p) (conns p) (pclosed p) (next p).

Definition NewConnectionPool (maxActive : Z) : ConnectionPool := mkPool maxActive [] false 0.
Definition ErrPoolClosed : string := "connection pool closed".

Section Acquire.
  Context (dead : gset Z).

(** The loop over [p.conns]; [Ok conn] when it found an open one. A closed one
    is cut out and the same position looked at again. *)
Fixpoint scan (fuel : nat) (p : ConnectionPool) (n i : Z) : outcome (ConnectionPool * option Z) :=
  match fuel with
  | O => Ret (p, None)
  | S fuel =>
      if decide (n <= i) then Ret (p, None) else
      let idx := (next p + i) mod zlen (conns p) in
      let! conn := index (conns p) idx in
      if decide (conn ∈ dead) then
        let! front := subslice (conns p) 0 idx in
        let! back := subslice (conns p) (idx + 1) (zlen (conns p)) in
        let p := p <| conns := front ++ back |> in
        if decide (zlen (conns p) = 0) then Ret (p, None) else scan fuel p (n - 1) i
      else Ret (p <| next := (idx + 1) mod zlen (conns p) |>, Some conn)
  end.

(** [append(p.conns, conn)] after [newTCPClient]. *)
Definition dial_new (p : ConnectionPool) (dial : result string Z) : ConnectionPool * result string Z :=
  match dial with
  | Err e => (p, Err e)
  | Ok conn => (p <| conns := conns p ++ [conn] |>, Ok conn)
  end.

Definition Acquire (p : ConnectionPool) (ctx : option string) (dial : result string Z)
    : outcome (ConnectionPool * result string Z) :=
  if pclosed p then Ret (p, Err ErrPoolClosed) else
  match ctx with
  | Some e => Ret (p, Err e)
  | None =>
      if decide (zlen (conns p) < maxActive p) then Ret (dial_new p dial) else
      let n := zlen (conns p) in
      let! r := scan (length (conns p)) p n 0 in
      match r with
      | (p, Some conn) => Ret (p, Ok conn)
      | (p, None) => Ret (dial_new p dial)
      end
  end.

End Acquire.

(** [Close]: the connections it closes, with the pool. *)
Definition Pool_Close (p : ConnectionPool) : ConnectionPool * list Z :=
  if pclosed p then (p, []) else (p <| pclosed := true |>, conns p).

(** ** What [Acquire] promises *)

Record pool_ok (p : ConnectionPool) : Prop := {
  po_next : 0 <= next p;
  po_nodup : NoDup (conns p);
  po_max : zlen (conns p) <= maxActive p;
  po_room : 1 <= maxActive p;
}.

Lemma NewConnectionPool_ok m : 1 <= m -> pool_ok (NewConnectionPool m).
Proof. intros Hm. constructor; simpl; [done | apply NoDup_nil_2 | rewrite zlen_nil; lia | done]. Qed.

(** Cutting one position out. *)
Lemma cut_at {A} (l : list A) i x :
  index l i = Ret x -> exists front back,
    subslice l 0 i = Ret front /\ subslice l (i + 1) (zlen l) = Ret back /\ l = front ++ x :: back.
Proof.
  intros Hi. apply index_ret in Hi as [H0 Hx]. pose proof (lookup_lt_Some _ _ _ Hx) as Hlt.
  assert (Hlt' : i < zlen l) by (unfold zlen; lia). eexists _, _.
  split; [apply subslice_total; lia |]. split; [apply subslice_total; lia |].
  rewrite <- (take_drop_middle l (Z.to_nat i) x Hx) at 1. rewrite drop_0. f_equal; [f_equal; lia |]. f_equal.
  rewrite take_ge; [f_equal; lia |]. rewrite length_drop. unfold zlen. lia.
Qed.

(** With [n] the number of connections, the loop runs out of none: it either
    found an open one or cut them all. *)
Lemma scan_spec dead fuel p :
  length (conns p) = fuel -> pool_ok p ->
  exists p' r, scan dead fuel p (zlen (conns p)) 0 = Ret (p', r) /\ pool_ok p' /\ maxActive p' = maxActive p /\ pclosed p' = pclosed p
    /\ match r with
       | Some conn => conn ∈ conns p' /\ conn ∉ dead
       | None => conns p' = [] /\ Forall (fun conn => conn ∈ dead) (conns p)
       end
    /\ conns p' `sublist_of` conns p /\ forall conn, conn ∈ conns p -> conn ∉ dead -> conn ∈ conns p'.
Proof.
  revert p. induction fuel as [| fuel IH]; intros p Hlen [Hn Hnd Hm Hroom]; cbn [scan].
  - destruct (conns p) as [| ? ?] eqn:Hc; [| done]. exists p, None. split; [done |]. split; [constructor; congruence |]. rewrite Hc. done.
  - assert (Hz : zlen (conns p) = Z.of_nat (S fuel)) by (unfold zlen; lia).
    rewrite decide_False by lia. pose proof (Z.mod_pos_bound (next p + 0) (zlen (conns p))) as Hidx.
    set (idx := (next p + 0) mod zlen (conns p)) in *. destruct (index_total (conns p) idx) as (conn & Hi & Hlk); [lia |].
    rewrite Hi. cbn [obind]. destruct (decide (conn ∈ dead)) as [Hdead | Hopen].
    + destruct (cut_at _ _ _ Hi) as (front & back & -> & -> & Hcut). cbn [obind].
      set (q := p <| conns := front ++ back |>).
      assert (Hq : conns q = front ++ back) by done.
      assert (Hsub : conns q `sublist_of` conns p) by (rewrite Hq, Hcut; apply sublist_app; [done | by constructor]).
      assert (Hlq : length (conns q) = fuel) by (rewrite Hq; rewrite Hcut, length_app in Hlen; simpl in Hlen; rewrite length_app; lia).
      assert (Hqok : pool_ok q).
      { constructor; [exact Hn | | | exact Hroom]; [by eapply sublist_NoDup | unfold zlen in *; change (maxActive q) with (maxActive p); lia]. }
      assert (Hkeep : forall k, k ∈ conns p -> k ∉ dead -> k ∈ conns q).
      { intros k. rewrite Hq, Hcut, !elem_of_app, elem_of_cons. naive_solver. }
      replace (zlen (conns p) - 1) with (zlen (conns q)) by (unfold zlen in *; lia).
      destruct (decide (zlen (conns q) = 0)) as [Hnil | Hne].
      * apply zlen_0 in Hnil. exists q, None. split; [done |]. split; [done |]. split; [done |]. split; [done |]. split; [| done].
        split; [done |]. apply Forall_forall. intros k Hk. destruct (decide (k ∈ dead)); [done |]. specialize (Hkeep k Hk).
        rewrite Hnil in Hkeep. apply elem_of_nil in Hkeep; done.
      * destruct (IH q Hlq Hqok) as (p' & r & -> & Hok & Hmx & Hcl & Hr & Hsub' & Hkeep'). exists p', r.
        split; [done |]. split; [done |]. split; [done |]. split; [done |]. split; [| split; [by etrans | eauto]].
        destruct r as [k |]; [done |]. destruct Hr as [Hnil Hall]. split; [done |]. rewrite Hcut. rewrite Hq in Hall.
        apply Forall_app in Hall as [? ?]. apply Forall_app. split; [done | by constructor].
    + eexists _, _. split; [done |]. split; [| split; [done |]; split; [done |]; split; [| done]].
      * constructor; simpl; [apply Z.mod_pos_bound; lia | done | done | done].
      * split; [by eapply list_elem_of_lookup_2 | done].
Qed.

(** The pool hands out an open connection of its own, closed ones are dropped
    and open ones kept, and it never holds more than [maxActive]. *)
Lemma Acquire_spec dead p ctx dial :
  pool_ok p -> (forall conn, dial = Ok conn -> conn ∉ conns p /\ conn ∉ dead) ->
  exists p' r, Acquire dead p ctx dial = Ret (p', r) /\ pool_ok p' /\ pclosed p' = pclosed p
    /\ (forall conn, conn ∈ conns p -> conn ∉ dead -> conn ∈ conns p')
    /\ (forall conn, conn ∈ conns p' -> conn ∈ conns p \/ dial = Ok conn)
    /\ match r with
       | Ok conn => conn ∈ conns p' /\ conn ∉ dead /\ pclosed p = false
       | Err e => pclosed p = true /\ e = ErrPoolClosed \/ ctx = Some e \/ dial = Err e
       end.
Proof.
  intros Hok Hdial. unfold Acquire. destruct (pclosed p) eqn:Hcl; [exists p, (Err ErrPoolClosed); naive_solver |].
  destruct ctx as [e |]; [exists p, (Err e); naive_solver |].
  assert (Hnew : forall q, pool_ok q -> pclosed q = false -> zlen (conns q) < maxActive q -> conns q `sublist_of` conns p ->
    exists r, Ret (dial_new q dial) = Ret (fst (dial_new q dial), r) /\ pool_ok (fst (dial_new q dial)) /\ pclosed (fst (dial_new q dial)) = false
    /\ (forall conn, conn ∈ conns q -> conn ∈ conns (fst (dial_new q dial)))
    /\ (forall conn, conn ∈ conns (fst (dial_new q dial)) -> conn ∈ conns p \/ dial = Ok conn)
    /\ match r with
       | Ok conn => conn ∈ conns (fst (dial_new q dial)) /\ conn ∉ dead /\ false = false
       | Err e => false = true /\ e = ErrPoolClosed \/ None = Some e \/ dial = Err e
       end).
  { intros q [Hn Hnd Hm Hr] Hq Hlt Hsub. destruct dial as [conn | e]; simpl.
    - destruct (Hdial conn eq_refl) as [Hfresh Halive]. exists (Ok conn). split; [done |]. split.
      + constructor; simpl; [done | | rewrite zlen_app, zlen_cons, zlen_nil; lia | done].
        apply NoDup_app. split; [done |]. split; [| apply NoDup_singleton].
        intros k Hk [= <-]%list_elem_of_singleton. apply Hfresh. by eapply elem_of_sublist.
      + split; [done |]. split; [intros k Hk; apply elem_of_app; auto |]. split.
        * intros k [Hk | [= <-]%list_elem_of_singleton]%elem_of_app; [left; by eapply elem_of_sublist | by right].
        * split; [apply elem_of_app; right; by apply list_elem_of_singleton | done].
    - exists (Err e). split; [done |]. split; [by constructor |]. split; [done |]. split; [done |]. split; [| auto].
      intros k Hk. left. by eapply elem_of_sublist. }
  destruct (decide (zlen (conns p) < maxActive p)) as [Hlt | Hge].
  - destruct (Hnew p Hok Hcl Hlt (reflexivity _)) as (r & Heq & H1 & H2 & H3 & H4 & H5). rewrite Heq. eexists _, r. eauto 10.
  - destruct (scan_spec dead _ p eq_refl Hok) as (q & r & -> & Hqok & Hmx & Hqc & Hr & Hsub & Hkeep). cbn [obind].
    destruct r as [conn |].
    + destruct Hr as [Hin Hal]. eexists q, (Ok conn). split; [done |]. split; [done |]. split; [congruence |]. split; [done |].
      split; [intros k Hk; left; by eapply elem_of_sublist | done].
    + destruct Hr as [Hnil _]. destruct (Hnew q Hqok ltac:(congruence)) as (r & Heq & H1 & H2 & H3 & H4 & H5);
        [rewrite Hnil, zlen_nil; pose proof (po_room _ Hqok); lia | done |].
      rewrite Heq. eexists _, r. eauto 10.
Qed.
