(* ===== verification/RpcInvoke.v ===== *)
(** * RpcInvoke
    The client ([client/invoke.go], [client/resolver.go], [client/client.go]):
    calls and streams that share a rate limiter, a registry, a balancer, one
    connection pool per address and one circuit breaker per service and address.

    A call is a program counter between two calls into those parts, each of
    which holds a mutex, and any number of calls interleave. What the network,
    etcd, the codec and the server answer is the [answer] of a step; an answer
    that a step does not ask for leaves it where it is. That the callback of a
    future runs once, whoever resolves it, is proved in RpcFuture; here it is
    the step that leaves [CFuture]. *)
From S2P Require Import Prelude RpcFlow RpcBalance RpcPool.
(** The program counters, in the order of [invokeAsync] and [InvokeStream].
    [key] is the breaker's. *)
Inductive pc :=
| CLimit
| CAddr
| CBreaker (addr : string)
| CAllow (addr key : string)
| CAcquire (addr key : string)
| CMarshal (key : string) (conn : Z)
| CSend (key : string) (conn : Z)
| CFailed (key err : string)
| CFuture (key : string)
| CStream (key : string) (once : bool)
| CReturned (err : option string)
| CUnmarshalable (key err : string).

Record call := mkCall { service : string; streaming : bool; at_pc : pc }.

Record Client := mkClient {
  limiter : TokenBucket;
  reg : option Registry;
  lb : LoadBalancer;
  breakers : gmap string CircuitBreaker;
  pools : gmap string ConnectionPool;
  dead : gset Z;
  dialled : Z;
  calls : list call;
}.
#[export] Instance client_eta : Eta Client := fun c =>
  mkClient (limiter c) (reg c) (lb c) (breakers c) (pools c) (dead c) (dialled c) (calls c).

Definition second : Z := 1000000000.

Definition NewClient (r : option Registry) (b : LoadBalancer) : Client :=
  mkClient (NewTokenBucket 10000) r b ∅ ∅ ∅ 0 [].

(** [service + "|" + addr] *)
Definition breaker_key (service addr : string) : string := (service ++ "|" ++ addr)%string.

(** [getBreaker]: ten calls to a window, 60% failures, five seconds open. *)
Definition client_breaker (now : Z) : CircuitBreaker :=
  NewCircuitBreaker now 10 (fdiv (float64_of 6) (float64_of 10)) (5 * second).

Definition getBreaker (now : Z) (service addr : string) (c : Client) : Client * string :=
  let key := breaker_key service addr in
  match breakers c !! key with
  | Some _ => (c, key)
  | None => (c <| breakers := <[key := client_breaker now]> (breakers c) |>, key)
  end.

(** [getPool]: one connection to an address. *)
Definition getPool (addr : string) (c : Client) : ConnectionPool := default (NewConnectionPool 1) (pools c !! addr).

(** The methods of the breaker behind [key], a pointer the call keeps. *)
Definition record_success (now : Z) (key : string) (c : Client) : Client :=
  c <| breakers := alter (RecordSuccess now) key (breakers c) |>.
Definition record_failure (now : Z) (key : string) (c : Client) : Client :=
  c <| breakers := alter (RecordFailure now) key (breakers c) |>.

Inductive answer :=
| AGo
| AErr (err : string)
| ALookup (order : Registry -> list string) (resp : result string (list (string * string)))
| ADial (ctx : option string) (dialErr : option string)
| ACanceled
| AFrame.

(** One step of a call. *)
Definition call_step (now : Z) (c : Client) (k : call) (a : answer) : outcome (Client * pc) :=
  match at_pc k, a with
  | CLimit, AGo =>
      let '(tb, ok) := TokenBucket_Allow (limiter c) in
      Ret (c <| limiter := tb |>, if ok then CAddr else CReturned (Some "rate limit exceeded"%string))
  | CAddr, ALookup order resp =>
      let! r := getAddr (reg c) (lb c) (service k) order resp in
      let '(rg, b, found) := r in
      Ret (c <| reg := rg |> <| lb := b |>, match found with Ok addr => CBreaker addr | Err e => CReturned (Some e) end)
  | CBreaker addr, AGo => let '(c, key) := getBreaker now (service k) addr c in Ret (c, CAllow addr key)
  | CAllow addr key, AGo =>
      match breakers c !! key with
      | None => Panic nil_deref
      | Some br =>
          let '(br, ok) := Allow now br in
          Ret (c <| breakers := <[key := br]> (breakers c) |>,
               if ok then CAcquire addr key else CReturned (Some "circuit breaker open"%string))
      end
  | CAcquire addr key, ADial ctx dialErr =>
      let conn := dialled c + 1 in
      let dial := match dialErr with Some e => Err e | None => Ok conn end in
      let! r := Acquire (dead c) (getPool addr c) ctx dial in
      let '(p, got) := r in
      let c := c <| pools := <[addr := p]> (pools c) |> <| dialled := conn |> in
      Ret (c, match got with Ok conn => CMarshal key conn | Err e => CFailed key e end)
  | CMarshal key conn, AGo => Ret (c, CSend key conn)
  | CMarshal key conn, AErr e => Ret (c, CUnmarshalable key e)
  | CSend key conn, AGo => Ret (c, if streaming k then CStream key false else CFuture key)
  | CSend key conn, AErr e => Ret (c, CFailed key e)
  | CFailed key e, AGo => Ret (record_failure now key c, CReturned (Some e))
  (* the callback *)
  | CFuture key, AGo => Ret (record_success now key c, CReturned None)
  | CFuture key, AErr e => Ret (record_failure now key c, CReturned (Some e))
  (* observedStream.Recv: a frame, io.EOF, a cancellation, another error *)
  | CStream key once, AFrame => Ret (c, CStream key once)
  | CStream key once, ACanceled => Ret (c, CStream key once)
  | CStream key once, AGo => Ret (if once then c else record_success now key c, CStream key true)
  | CStream key once, AErr _ => Ret (if once then c else record_failure now key c, CStream key true)
  | p, _ => Ret (c, p)
  end.

Inductive event :=
| EInvoke (service : string) (streaming : bool)
| EStep (i : nat) (now : Z) (a : answer)
| ETick
| EConnDies (conn : Z)
| EClose.

(** [Close]: the limiter stops and every pool closes its connections. *)
Definition Client_Close (c : Client) : Client :=
  c <| limiter := TokenBucket_Stop (limiter c) |>
    <| dead := map_fold (fun _ p s => list_to_set (Pool_Close p).2 ∪ s) (dead c) (pools c) |>
    <| pools := (fun p => (Pool_Close p).1) <$> pools c |>.

Definition client_step (c : Client) (e : event) : outcome Client :=
  match e with
  | EInvoke s st => Ret (c <| calls := calls c ++ [mkCall s st CLimit] |>)
  | EStep i now a =>
      match calls c !! i with
      | None => Ret c
      | Some k =>
          let! r := call_step now c k a in
          Ret (r.1 <| calls := <[i := mkCall (service k) (streaming k) r.2]> (calls r.1) |>)
      end
  | ETick => Ret (match bucket_step (limiter c) TTick with Some (tb, _) => c <| limiter := tb |> | None => c end)
  | EConnDies conn => Ret (if decide (conn <= dialled c) then c <| dead := {[conn]} ∪ dead c |> else c)
  | EClose => Ret (Client_Close c)
  end.

Fixpoint client_run (c : Client) (es : list event) : outcome Client :=
  match es with
  | [] => Ret c
  | e :: es => let! c := client_step c e in client_run c es
  end.

(** ** Theorems
    The client's calls against its circuit breakers: who settles a probe, and
    the one path that leaves it unsettled. *)
(** ** Resolving an address never panics *)

Definition lb_sized (lb : LoadBalancer) : Prop :=
  match lb with LbWeighted w => length (currentWeight w) = length (weights w) | _ => True end.

Lemma pick_sized ws cw i best :
  length cw = length ws -> (best = None -> ws <> []) ->
  exists m c cw', pick i best ws cw = (Some (m, c), cw') /\ length cw' = length ws
    /\ (i <= m < i + zlen ws \/ exists c0, best = Some (m, c0)).
Proof.
  revert cw i best. induction ws as [| w ws IH]; intros [| c cw] i best Hl Hb; try done; cbn [pick].
  - destruct best as [[m cm] |]; [| by destruct Hb]. exists m, cm, []. naive_solver.
  - simpl in Hl. set (best1 := match best with None => _ | Some _ => _ end).
    destruct (IH cw (i + 1) best1) as (m & cm & cw' & -> & Hl' & Hm); [lia | | ].
    { subst best1. destruct best as [[m cm] |]; [by destruct (decide _) | done]. }
    exists m, cm, (i64 (c + w) :: cw'). split; [done |]. split; [simpl; lia |]. rewrite zlen_cons. pose proof (zlen_nonneg ws).
    destruct Hm as [Hm | [c0 Hm]]; [left; lia |]. subst best1. destruct best as [[m0 cm0] |].
    + destruct (decide (cm0 < i64 (c + w))); injection Hm as <- <-; [left; lia | eauto].
    + injection Hm as <- <-. left. lia.
Qed.

Lemma Select_total lb insts :
  lb_sized lb -> insts <> [] -> exists lb' ins, Select lb insts = Ret (lb', ins) /\ lb_sized lb'.
Proof.
  intros Hlb Hne. assert (Hpos : 0 < zlen insts) by (destruct insts; [done | rewrite zlen_cons; pose proof (zlen_nonneg insts); lia]).
  destruct lb as [idx | draws | w]; simpl.
  - unfold RoundRobin_Select. rewrite decide_False by lia.
    destruct (index_total insts (u64 (u64 (idx + 1) - 1) mod zlen insts)) as (ins & -> & _); [by apply Z.mod_pos_bound | simpl; eauto].
  - unfold Random_Select. rewrite decide_False by lia. destruct (intn (zlen insts) draws) as [i rest] eqn:Hi.
    pose proof (intn_range _ _ _ _ Hpos Hi). destruct (index_total insts i) as (ins & -> & _); [done | simpl; eauto].
  - unfold WeightedRR_Select. rewrite decide_False by lia. destruct (decide (zlen insts <> zlen (weights w))) as [| Hl]; [simpl; eauto |].
    destruct (decide (totalWeight w <= 0)); [simpl; eauto |]. assert (Hl' : zlen insts = zlen (weights w)) by lia.
    destruct (pick_sized (weights w) (currentWeight w) 0 None) as (m & c & cw & -> & Hcw & [Hm | [? ?]]);
      [done | intros _ Hz; rewrite Hz, zlen_nil in Hl'; lia | | done].
    destruct (index_total insts m) as (ins & -> & _); [lia |]. simpl. eexists _, _. split; [done |]. simpl. by rewrite length_insert.
Qed.

Lemma initService_total r service resp : exists r' x, initService r service resp = Ret (r', x).
Proof.
  unfold initService. destruct (services r !! service) as [m |]; [eauto |]. destruct resp as [kvs | e]; [| eauto].
  assert (Hgen : forall l r1, is_Some (services r1 !! service) -> exists r2, ofold (fun (kv : string * string) r => store_instance r service kv.2) l r1 = Ret r2).
  { induction l as [| kv l IH]; intros r1 Hr1; cbn [ofold]; [eauto |]. destruct Hr1 as [m Hm]. unfold store_instance at 1. rewrite Hm. cbn [obind].
    apply IH. simpl. rewrite lookup_insert_eq. eauto. }
  destruct (Hgen kvs (r <| services := <[service := ∅]> (services r) |>)) as [r2 ->]; [simpl; rewrite lookup_insert_eq; eauto |]. simpl. eauto.
Qed.

Lemma getAddr_total rg lb service order resp :
  lb_sized lb -> exists rg' lb' found, getAddr rg lb service order resp = Ret (rg', lb', found) /\ lb_sized lb'.
Proof.
  intros Hlb. destruct rg as [r |]; [| simpl; eauto 10]. unfold getAddr.
  assert (Hd : exists r' x, Discover r service order resp = Ret (r', x)).
  { unfold Discover. destruct (services r !! service); [eauto |].
    destruct (initService_total r service resp) as (r1 & x & ->). simpl. destruct x; eauto. }
  destruct Hd as (r' & [insts | e] & ->); cbn [obind]; [| eauto 10]. destruct (decide (zlen insts = 0)) as [| Hne]; [eauto 10 |].
  destruct (Select_total lb insts Hlb) as (lb' & ins & -> & Hlb'); [intros ->; rewrite zlen_nil in Hne; lia |]. cbn [obind].
  destruct (decide _); simpl; eauto 10.
Qed.

(** ** The invariant *)

(** The breaker a call was admitted by and has not reported to, whether or not
    it ever will: one that failed to marshal has returned without a report. *)
Definition holds (p : pc) : option string :=
  match p with
  | CAcquire _ key | CMarshal key _ | CSend key _ | CFailed key _ | CFuture key | CStream key false | CUnmarshalable key _ => Some key
  | _ => None
  end.

(** The breaker a call will report to: it runs, or is a stream that has not ended. *)
Definition owes (p : pc) : option string :=
  match p with CUnmarshalable _ _ => None | _ => holds p end.

Definition half_open (bs : gmap string CircuitBreaker) (key : string) : Prop :=
  exists b, bs !! key = Some b /\ state b = HalfOpen.

Record shared_ok (c : Client) : Prop := {
  so_pools : map_Forall (fun _ p => pool_ok p /\ maxActive p = 1 /\ forall conn, conn ∈ conns p -> conn <= dialled c) (pools c);
  so_dead : forall conn, conn ∈ dead c -> conn <= dialled c;
  so_breakers : map_Forall (fun _ b => breaker_ok b /\ windowSize b = 10) (breakers c);
  so_lb : lb_sized (lb c);
}.

Record client_inv (c : Client) : Prop := {
  ci_shared : shared_ok c;
  ci_known : forall i k addr key, calls c !! i = Some k -> at_pc k = CAllow addr key -> is_Some (breakers c !! key);
  ci_probe : forall key, half_open (breakers c) key -> exists i k, calls c !! i = Some k /\ holds (at_pc k) = Some key;
}.

Lemma windowSize_step now o b : windowSize (breaker_step now o b) = windowSize b.
Proof.
  destruct o; simpl; unfold Allow, RecordSuccess, RecordFailure, resetClosedWindowIfReady, resetCounts; destruct (state b); simpl;
    repeat case_match; done.
Qed.

Lemma breaker_step_kept now o b : breaker_ok b /\ windowSize b = 10 -> breaker_ok (breaker_step now o b) /\ windowSize (breaker_step now o b) = 10.
Proof. intros [Hok Hw]. split; [apply breaker_step_ok; [done | lia] | by rewrite windowSize_step]. Qed.

(** An outcome, reported to a breaker, ends its half-open state. *)
Lemma reported_not_half_open now o b : o <> BAllow -> state (breaker_step now o b) <> HalfOpen.
Proof.
  destruct o; simpl; [done | |]; intros _; unfold RecordSuccess, RecordFailure, resetClosedWindowIfReady, resetCounts;
    destruct (state b) eqn:Hs; simpl; repeat case_match; simpl; congruence.
Qed.

(** What a step of a call does to the breakers and to its hold on one. *)
Definition settles (c c' : Client) (p p' : pc) : Prop :=
  forall key, half_open (breakers c') key -> holds p' = Some key \/ (half_open (breakers c) key /\ holds p <> Some key).

Lemma settles_same c c' p p' :
  breakers c' = breakers c -> holds p' = holds p \/ holds p = None -> settles c c' p p'.
Proof.
  intros Hb Hh key Ho. rewrite Hb in Ho. destruct (decide (holds p = Some key)) as [Hk | Hk]; [| by right].
  destruct Hh as [Hh | Hh]; [left; congruence | congruence].
Qed.

Lemma settles_report now o c c' p p' key :
  o <> BAllow -> breakers c' = alter (breaker_step now o) key (breakers c) -> holds p = Some key -> settles c c' p p'.
Proof.
  intros Ho Hb Hp key' (b & Hlk & Hst). rewrite Hb in Hlk. destruct (decide (key = key')) as [<- | Hne].
  - rewrite lookup_alter_eq in Hlk. destruct (breakers c !! key) as [b0 |]; [| done]. injection Hlk as <-.
    by destruct (reported_not_half_open now o b0 Ho).
  - rewrite lookup_alter_ne in Hlk by done. right. split; [by exists b | congruence].
Qed.

Lemma shared_breakers c bs :
  shared_ok c -> map_Forall (fun _ b => breaker_ok b /\ windowSize b = 10) bs -> shared_ok (c <| breakers := bs |>).
Proof. intros [H1 H2 H3 H4] Hbs. by constructor. Qed.

Lemma shared_report now o key c : shared_ok c -> shared_ok (c <| breakers := alter (breaker_step now o) key (breakers c) |>).
Proof.
  intros Hok. apply shared_breakers; [done |]. apply map_Forall_lookup. intros key' b Hb. apply lookup_alter_Some in Hb as [(<- & b0 & Hb0 & ->) | [_ Hb]].
  - apply breaker_step_kept. by apply (so_breakers _ Hok key).
  - by apply (so_breakers _ Hok key').
Qed.

(** The one fact about each step that the rest of the file uses. *)
Record step_ok (c : Client) (p : pc) (c' : Client) (p' : pc) : Prop := {
  st_shared : shared_ok c';
  st_calls : calls c' = calls c;
  st_known : forall key, is_Some (breakers c !! key) -> is_Some (breakers c' !! key);
  st_next : forall addr key, p' = CAllow addr key -> p = p' \/ is_Some (breakers c' !! key);
  st_settles : settles c c' p p';
}.

Lemma step_ok_same c p c' p' :
  shared_ok c' -> calls c' = calls c -> breakers c' = breakers c -> holds p' = holds p \/ holds p = None ->
  (forall addr key, p' = CAllow addr key -> p = p') -> step_ok c p c' p'.
Proof.
  intros Hs Hc Hb Hh Hn. constructor; [done | done | by rewrite Hb | intros; left; eauto | by apply settles_same].
Qed.

Lemma step_ok_report now o c p p' key :
  shared_ok c -> o <> BAllow -> holds p = Some key -> (forall addr key, p' <> CAllow addr key) ->
  step_ok c p (c <| breakers := alter (breaker_step now o) key (breakers c) |>) p'.
Proof.
  intros Hs Ho Hp Hn. constructor; [by apply shared_report | done | | intros addr key' Hx; by destruct (Hn addr key') | by eapply settles_report].
  intros key' Hk. simpl. apply lookup_alter_is_Some. done.
Qed.

Lemma getPool_ok c addr : shared_ok c -> pool_ok (getPool addr c) /\ maxActive (getPool addr c) = 1 /\ forall conn, conn ∈ conns (getPool addr c) -> conn <= dialled c.
Proof.
  intros Hs. unfold getPool. destruct (pools c !! addr) as [p |] eqn:Hp; [by apply (so_pools _ Hs addr) |]. simpl.
  split; [by apply NewConnectionPool_ok |]. split; [done |]. intros conn Hc. by apply elem_of_nil in Hc.
Qed.

Lemma acquire_ok c addr ctx dialErr :
  shared_ok c -> let dial := match dialErr with Some e => Err e | None => Ok (dialled c + 1) end in
  exists p got, Acquire (dead c) (getPool addr c) ctx dial = Ret (p, got)
    /\ shared_ok (c <| pools := <[addr := p]> (pools c) |> <| dialled := dialled c + 1 |>)
    /\ (forall conn, got = Ok conn -> conn ∈ conns p /\ conn ∉ dead c).
Proof.
  intros Hs dial. destruct (getPool_ok c addr Hs) as (Hpool & Hmx & Hle).
  destruct (Acquire_spec (dead c) (getPool addr c) ctx dial Hpool) as (p & got & Heq & Hp & _ & _ & Hin & Hgot).
  { intros conn Hd. subst dial. destruct dialErr; [done |]. injection Hd as <-.
    split; intros Hx; [specialize (Hle _ Hx) | pose proof (so_dead _ Hs _ Hx)]; lia. }
  exists p, got. split; [done |]. split; [| intros conn ->; naive_solver].
  assert (Hmp : maxActive p = 1).
  { revert Heq. unfold Acquire. destruct (pclosed _); [by intros [= <- _] |]. destruct ctx; [by intros [= <- _] |].
    assert (Hd : forall q, Ret (dial_new q dial) = Ret (p, got) -> maxActive p = maxActive q) by (intros q; destruct dial; by intros [= <- _]).
    destruct (decide _); [intros Hr; rewrite (Hd _ Hr); done |].
    destruct (scan_spec (dead c) _ _ eq_refl Hpool) as (q & r & -> & _ & Hq & _). cbn [obind].
    destruct r; intros Hr; [by injection Hr as <- _; congruence | rewrite (Hd _ Hr); congruence]. }
  destruct Hs as [H1 H2 H3 H4]. constructor; simpl; [| | done | done].
  - apply map_Forall_insert_2.
    + split; [done |]. split; [done |]. intros conn Hc. destruct (Hin conn Hc) as [Hx | Hx]; [specialize (Hle conn Hx); lia |].
      subst dial. destruct dialErr; [done |]. injection Hx as <-. lia.
    + intros a q Hq. destruct (H1 a q Hq) as (? & ? & Hx). split; [done |]. split; [done |]. intros conn Hc. specialize (Hx conn Hc). lia.
  - intros conn Hc. specialize (H2 conn Hc). lia.
Qed.

Lemma getBreaker_ok now c service addr :
  shared_ok c -> exists c', getBreaker now service addr c = (c', breaker_key service addr)
    /\ step_ok c (CBreaker addr) c' (CAllow addr (breaker_key service addr)).
Proof.
  intros Hs. unfold getBreaker. set (key := breaker_key service addr). destruct (breakers c !! key) as [b |] eqn:Hb.
  - exists c. split; [done |]. constructor; [done | done | done | intros ? ? [= <- <-]; right; eauto | by apply settles_same; [| right]].
  - eexists. split; [done |]. constructor; [| done | | intros ? ? [= <- <-]; right; simpl; rewrite lookup_insert_eq; eauto |].
    + apply shared_breakers; [done |]. apply map_Forall_insert_2; [| apply (so_breakers _ Hs)]. split; [by constructor | done].
    + intros key' Hk. simpl. destruct (decide (key = key')) as [<- | Hne]; [rewrite lookup_insert_eq; eauto | by rewrite lookup_insert_ne].
    + intros key' (b & Hlk & Hst). simpl in Hlk. destruct (decide (key = key')) as [<- | Hne].
      * rewrite lookup_insert_eq in Hlk. injection Hlk as <-. done.
      * rewrite lookup_insert_ne in Hlk by done. right. split; [by exists b | done].
Qed.

Lemma allow_ok now c addr key br :
  shared_ok c -> breakers c !! key = Some br ->
  step_ok c (CAllow addr key) (c <| breakers := <[key := (Allow now br).1]> (breakers c) |>)
    (if (Allow now br).2 then CAcquire addr key else CReturned (Some "circuit breaker open"%string)).
Proof.
  intros Hs Hb. constructor; [| done | | intros ? ? Hx; by destruct (Allow now br).2 |].
  - apply shared_breakers; [done |]. apply map_Forall_insert_2; [| apply (so_breakers _ Hs)].
    apply (breaker_step_kept now BAllow). by apply (so_breakers _ Hs key).
  - intros key' Hk. simpl. destruct (decide (key = key')) as [<- | Hne]; [rewrite lookup_insert_eq; eauto | by rewrite lookup_insert_ne].
  - intros key' (b & Hlk & Hst). simpl in Hlk. destruct (decide (key = key')) as [<- | Hne].
    + rewrite lookup_insert_eq in Hlk. injection Hlk as <-. unfold Allow in *. destruct (state br) eqn:Hbr; simpl in *; try congruence.
      * destruct (decide _); simpl in *; [by left | congruence].
      * right. split; [by exists br | done].
    + rewrite lookup_insert_ne in Hlk by done. right. split; [by exists b | done].
Qed.

Lemma call_step_ok now c i k a :
  client_inv c -> calls c !! i = Some k ->
  exists c' p', call_step now c k a = Ret (c', p') /\ step_ok c (at_pc k) c' p'.
Proof.
  intros Hinv Hi. pose proof (ci_shared _ Hinv) as Hs. pose proof (ci_known _ Hinv i k) as Hkn. unfold call_step.
  assert (Hsame : forall p', holds p' = holds (at_pc k) \/ holds (at_pc k) = None ->
    (forall addr key, p' = CAllow addr key -> at_pc k = p') -> step_ok c (at_pc k) c p') by (intros; by apply step_ok_same).
  assert (Hstay : step_ok c (at_pc k) c (at_pc k)) by (apply Hsame; auto).
  destruct (at_pc k) as [| | addr | addr key | addr key | key conn | key conn | key e | key | key once | e | key e] eqn:Hpc; destruct a; eauto.
  - destruct (TokenBucket_Allow (limiter c)) as [tb ok] eqn:Htb. eexists _, _. split; [done |].
    apply step_ok_same; [by destruct Hs; constructor | done | done | by right | intros ? ? Hx; by destruct ok].
  - destruct (getAddr_total (reg c) (lb c) (service k) order resp (so_lb _ Hs)) as (rg & b & found & -> & Hlb). cbn [obind].
    eexists _, _. split; [done |]. apply step_ok_same; [by destruct Hs; constructor | done | done | by right | intros ? ? Hx; by destruct found].
  - destruct (getBreaker_ok now c (service k) addr Hs) as (c' & -> & Hok). eauto.
  - destruct (Hkn addr key Hi eq_refl) as [br Hb]. rewrite Hb. pose proof (allow_ok now c addr key br Hs Hb) as Hok.
    destruct (Allow now br) as [br' ok]. eauto.
  - destruct (acquire_ok c addr ctx dialErr Hs) as (p & got & -> & Hs' & _). cbn [obind]. eexists _, _. split; [done |].
    apply step_ok_same; [done | done | done | left; by destruct got | intros ? ? Hx; by destruct got].
  - eexists _, _. split; [done |]. by apply Hsame; [left |].
  - eexists _, _. split; [done |]. by apply Hsame; [left |].
  - eexists _, _. split; [done |]. apply Hsame; [left; by destruct (streaming k) | intros ? ? Hx; by destruct (streaming k)].
  - eexists _, _. split; [done |]. by apply Hsame; [left |].
  - eexists _, _. split; [done |]. by apply (step_ok_report now BFailure c _ _ key).
  - eexists _, _. split; [done |]. by apply (step_ok_report now BSuccess c _ _ key).
  - eexists _, _. split; [done |]. by apply (step_ok_report now BFailure c _ _ key).
  - eexists _, _. split; [done |]. destruct once; [by apply Hsame; [left |] | by apply (step_ok_report now BSuccess c _ _ key)].
  - eexists _, _. split; [done |]. destruct once; [by apply Hsame; [left |] | by apply (step_ok_report now BFailure c _ _ key)].
Qed.

Lemma call_moves (cs : list call) i k k' key :
  cs !! i = Some k -> (exists j u, cs !! j = Some u /\ holds (at_pc u) = Some key) -> holds (at_pc k) <> Some key ->
  exists j u, <[i := k']> cs !! j = Some u /\ holds (at_pc u) = Some key.
Proof.
  intros Hi (j & u & Hj & Hu) Hk. exists j, u. split; [| done]. rewrite list_lookup_insert_ne; [done |]. intros ->. congruence.
Qed.

Lemma calls_step_inv c e : client_inv c -> exists c', client_step c e = Ret c' /\ client_inv c'.
Proof.
  intros Hinv. destruct Hinv as [Hs Hkn Hpr] eqn:Hdef. clear Hdef. destruct e as [s st | i now a | | conn |]; simpl.
  - eexists. split; [done |]. constructor; simpl; [by destruct Hs; constructor | |].
    + intros i k addr key Hi Hk. apply lookup_app_Some in Hi as [Hi | [_ Hi]]; [by eapply Hkn |].
      apply list_lookup_singleton_Some in Hi as [_ <-]. done.
    + intros key Ho. destruct (Hpr key Ho) as (i & k & Hi & Hk). exists i, k. split; [by apply lookup_app_l_Some | done].
  - destruct (calls c !! i) as [k |] eqn:Hi; [| eauto].
    destruct (call_step_ok now c i k a ltac:(by constructor) Hi) as (c' & p' & -> & [Hs' Hc Hk Hn Hse]). cbn [obind fst snd].
    eexists. split; [done |]. pose proof (lookup_lt_Some _ _ _ Hi) as Hlt. constructor; simpl; rewrite ?Hc.
    + by destruct Hs'; constructor.
    + intros j u addr key Hj Hu. destruct (decide (i = j)) as [<- | Hne].
      * rewrite list_lookup_insert_eq in Hj by done. injection Hj as <-. simpl in Hu.
        destruct (Hn addr key Hu) as [Hx | Hx]; [| done]. apply Hk. apply (Hkn i k addr key Hi). congruence.
      * rewrite list_lookup_insert_ne in Hj by done. apply Hk. by eapply Hkn.
    + intros key Ho. destruct (Hse key Ho) as [Hx | [Hx Hy]].
      * eexists i, _. by rewrite list_lookup_insert_eq.
      * eapply call_moves; eauto.
  - destruct (ticking (limiter c)); (eexists; split; [done |]); [| by constructor]. constructor; [by destruct Hs; constructor | done | done].
  - destruct (decide (conn <= dialled c)); (eexists; split; [done |]); [| by constructor]. constructor; [| done | done].
    destruct Hs as [H1 H2 H3 H4]. constructor; simpl; [done | set_solver | done | done].
  - eexists. split; [done |]. constructor; simpl; [| done | done]. destruct Hs as [H1 H2 H3 H4]. constructor; simpl; [| | done | done].
    + intros a p Hp. apply lookup_fmap_Some in Hp as (q & <- & Hq). destruct (H1 a q Hq) as ([] & Hmx & Hle).
      unfold Pool_Close. destruct (pclosed q); simpl; (split; [by constructor |]); done.
    + apply (map_fold_weak_ind (fun s m => map_Forall (fun _ p => forall conn, conn ∈ conns p -> conn <= dialled c) m -> forall conn, conn ∈ s -> conn <= dialled c)).
      * intros _. done.
      * intros a p m s Hm IH Hall conn Hc. apply map_Forall_insert in Hall as [Hp Hall]; [| done].
        apply elem_of_union in Hc as [Hc | Hc]; [| by apply IH]. apply Hp. apply elem_of_list_to_set in Hc.
        unfold Pool_Close in Hc. destruct (pclosed p); [by apply elem_of_nil in Hc | done].
      * intros a p Hp. apply (H1 a p Hp).
Qed.

Lemma calls_run_inv es c : client_inv c -> exists c', client_run c es = Ret c' /\ client_inv c'.
Proof.
  revert c. induction es as [| e es IH]; intros c Hinv; simpl; [eauto |].
  destruct (calls_step_inv c e Hinv) as (c' & -> & Hinv'). by apply IH.
Qed.

Lemma NewClient_inv r b : lb_sized b -> client_inv (NewClient r b).
Proof.
  intros Hb. constructor; simpl.
  - constructor; simpl; [apply map_Forall_empty | set_solver | apply map_Forall_empty | done].
  - intros i k addr key Hi. by rewrite lookup_nil in Hi.
  - intros key (b' & Hl & _). by rewrite lookup_empty in Hl.
Qed.

(** ** The call that never reports *)

(** The breaker waits for a probe, and no call will report to it. *)
Definition wedged (c : Client) (key : string) : Prop :=
  (exists b, breakers c !! key = Some b /\ state b = HalfOpen /\ halfOpenProbe b = true)
  /\ forall i k, calls c !! i = Some k -> holds (at_pc k) = Some key -> exists e, at_pc k = CUnmarshalable key e.

(** No step changes a wedged breaker, and nobody gets past it. *)
Lemma step_wedged now c i k a c' p' key :
  wedged c key -> calls c !! i = Some k -> call_step now c k a = Ret (c', p') ->
  breakers c' !! key = breakers c !! key /\ (holds p' = Some key -> exists e, p' = CUnmarshalable key e).
Proof.
  intros [(b & Hb & Hst & Hpr) Hh] Hi Hs. specialize (Hh i k Hi). unfold call_step in Hs.
  assert (Hrep : forall f key0, at_pc k = CFailed key0 f \/ at_pc k = CFuture key0 \/ at_pc k = CStream key0 false ->
    forall g : CircuitBreaker -> CircuitBreaker, alter g key0 (breakers c) !! key = breakers c !! key).
  { intros f key0 Hp g. apply lookup_alter_ne. intros ->. destruct Hp as [Hp | [Hp | Hp]]; rewrite Hp in Hh; by destruct (Hh eq_refl). }
  assert (Hstay : c' = c -> p' = at_pc k -> breakers c' !! key = breakers c !! key /\ (holds p' = Some key -> exists e, p' = CUnmarshalable key e)) by (intros -> ->; auto).
  destruct (at_pc k) as [| | addr | addr key0 | addr key0 | key0 conn | key0 conn | key0 e | key0 | key0 once | e | key0 e] eqn:Hpc;
    destruct a; try (injection Hs as <- <-; by apply Hstay).
  - destruct (TokenBucket_Allow (limiter c)) as [tb []]; injection Hs as <- <-; done.
  - destruct (getAddr _ _ _ _ _) as [[[rg lb'] found] |]; [| done]. cbn [obind] in Hs. injection Hs as <- <-. by destruct found.
  - unfold getBreaker in Hs. destruct (breakers c !! breaker_key (service k) addr) as [b0 |] eqn:Hb0; injection Hs as <- <-; [done |].
    split; [| done]. simpl. apply lookup_insert_ne. congruence.
  - destruct (breakers c !! key0) as [b0 |] eqn:Hb0; [| done]. destruct (decide (key0 = key)) as [-> | Hne].
    + rewrite Hb in Hb0. injection Hb0 as <-. unfold Allow in Hs. rewrite Hst, Hpr in Hs. injection Hs as <- <-. simpl.
      by rewrite lookup_insert_eq.
    + destruct (Allow now b0) as [b1 ok]. injection Hs as <- <-. split; [by apply lookup_insert_ne |].
      destruct ok; simpl; [congruence | done].
  - destruct (Acquire _ _ _ _) as [[p got] |]; [| done]. cbn [obind] in Hs. injection Hs as <- <-. split; [done |].
    destruct got; simpl; intros Hx; by destruct (Hh Hx).
  - injection Hs as <- <-. split; [done |]. intros Hx. by destruct (Hh Hx).
  - injection Hs as <- <-. split; [done |]. simpl. intros [= ->]. eauto.
  - injection Hs as <- <-. split; [done |]. intros Hx. destruct (streaming k); by destruct (Hh Hx).
  - injection Hs as <- <-. split; [done |]. intros Hx. by destruct (Hh Hx).
  - injection Hs as <- <-. split; [| done]. simpl. apply (Hrep e). auto.
  - injection Hs as <- <-. split; [| done]. simpl. apply (Hrep EmptyString). auto.
  - injection Hs as <- <-. split; [| done]. simpl. apply (Hrep EmptyString). auto.
  - injection Hs as <- <-. destruct once; (split; [| done]); [done |]. simpl. apply (Hrep EmptyString). auto.
  - injection Hs as <- <-. destruct once; (split; [| done]); [done |]. simpl. apply (Hrep EmptyString). auto.
Qed.

Lemma call_step_calls now c k a c' p' : call_step now c k a = Ret (c', p') -> calls c' = calls c.
Proof.
  unfold call_step, getBreaker. destruct (at_pc k) as [| | | | | | | | | ? [] | |], a;
    repeat (case_match || (progress simpl)); intros Hs; inv_ret; simpl in *; repeat case_match; inv_ret; try done; by simplify_eq.
Qed.

Lemma wedged_step c e c' key : wedged c key -> client_step c e = Ret c' -> wedged c' key.
Proof.
  intros Hw Hs. destruct Hw as [Hb Hh] eqn:Hdef. clear Hdef. destruct e as [s st | i now a | | conn |]; simpl in Hs.
  - injection Hs as <-. split; [done |]. intros i k Hi Hk. apply lookup_app_Some in Hi as [Hi | [_ Hi]]; [by eapply Hh |].
    apply list_lookup_singleton_Some in Hi as [_ <-]. done.
  - destruct (calls c !! i) as [k |] eqn:Hi; [| by injection Hs as <-].
    destruct (call_step now c k a) as [[c1 p1] |] eqn:Hcs; [| done]. cbn [obind fst snd] in Hs. injection Hs as <-.
    pose proof (call_step_calls _ _ _ _ _ _ Hcs) as Hcl. destruct (step_wedged _ _ _ _ _ _ _ _ Hw Hi Hcs) as [Hbr Hp].
    split; simpl; [by rewrite Hbr |]. rewrite Hcl. intros j u Hj Hu. destruct (decide (i = j)) as [<- | Hne].
    + rewrite list_lookup_insert_eq in Hj by (by eapply lookup_lt_Some). injection Hj as <-. by apply Hp.
    + rewrite list_lookup_insert_ne in Hj by done. by eapply Hh.
  - injection Hs as <-. by destruct (ticking (limiter c)).
  - injection Hs as <-. by destruct (decide (conn <= dialled c)).
  - injection Hs as <-. done.
Qed.

Lemma wedged_run es c c' key : wedged c key -> client_run c es = Ret c' -> wedged c' key.
Proof.
  revert c. induction es as [| e es IH]; intros c Hw; simpl; [by intros [= <-] |].
  destruct (client_step c e) as [c1 |] eqn:Hs; [| done]. cbn [obind]. apply IH. by eapply wedged_step.
Qed.

(** What a wedged breaker means for its callers: after anything that may happen
    it is half open still, and refuses whoever asks. *)
Definition refuses_for_good (c : Client) (key : string) : Prop :=
  forall es c', client_run c es = Ret c' ->
    half_open (breakers c') key
    /\ forall now j u addr, calls c' !! j = Some u -> at_pc u = CAllow addr key ->
         exists c'', call_step now c' u AGo = Ret (c'', CReturned (Some "circuit breaker open"%string)).

Lemma wedged_refuses c key : wedged c key -> refuses_for_good c key.
Proof.
  intros Hw es c' Hrun. destruct (wedged_run _ _ _ _ Hw Hrun) as [(b & Hb & Hst & Hpr) _]. split; [by exists b |].
  intros now j u addr _ Hu. unfold call_step. rewrite Hu, Hb. unfold Allow. rewrite Hst, Hpr. eauto.
Qed.

(** Among the calls that hold a breaker some owe it a report, or none ever will. *)
Lemma owed_or_unmarshalable (cs : list call) key :
  (exists i k, cs !! i = Some k /\ owes (at_pc k) = Some key)
  \/ (forall i k, cs !! i = Some k -> holds (at_pc k) = Some key -> exists e, at_pc k = CUnmarshalable key e).
Proof.
  induction cs as [| k cs IH]; [right; intros i k Hi; by rewrite lookup_nil in Hi |].
  destruct (decide (owes (at_pc k) = Some key)) as [Ho | Hn]; [left; by exists 0%nat, k |].
  destruct IH as [(i & u & Hi & Hu) | Hall]; [left; by exists (S i), u | right].
  intros [| i] u Hi Hu; [| by eapply Hall]. injection Hi as <-. destruct (at_pc k); simpl in *; try done. injection Hu as ->. eauto.
Qed.

(** C11: however calls, streams, timeouts, failing connections and the ticks of
    the limiter interleave, the client never panics, and a pool never holds more
    than its one connection. A circuit breaker is half open, refusing every
    other call, only while a call it admitted is to report to it (it is running,
    or is a stream whose end nobody has read), with one exception: when the
    arguments of the calls it waits for failed to marshal. Then no report comes,
    and the breaker refuses every call for good. *)
Theorem breaker_waits_only_for_a_call r b es :
  lb_sized b ->
  exists c, client_run (NewClient r b) es = Ret c
    /\ (forall key, half_open (breakers c) key ->
         (exists i k, calls c !! i = Some k /\ owes (at_pc k) = Some key)
         \/ ((exists i k e, calls c !! i = Some k /\ at_pc k = CUnmarshalable key e) /\ refuses_for_good c key))
    /\ map_Forall (fun _ p => zlen (conns p) <= 1) (pools c).
Proof.
  intros Hb. destruct (calls_run_inv es _ (NewClient_inv r b Hb)) as (c & Hrun & [Hs _ Hpr]). exists c. split; [done |]. split.
  - intros key Ho. destruct (owed_or_unmarshalable (calls c) key) as [How | Hun]; [by left | right].
    destruct (Hpr key Ho) as (i & k & Hi & Hk). destruct (Hun i k Hi Hk) as [e He]. split; [by exists i, k, e |].
    destruct Ho as (br & Hbr & Hst). destruct (so_breakers _ Hs key br Hbr) as [Hok _]. apply wedged_refuses.
    split; [| done]. exists br. split_and!; [done | done |]. by rewrite (bo_probe _ Hok), bool_decide_true.
  - intros a p Hp. destruct (so_pools _ Hs a p Hp) as (Hok & Hmx & _). rewrite <- Hmx. apply Hok.
Qed.

(** Arguments that do not marshal, in the call that a half-open breaker let
    through as its probe, wedge the breaker: [invokeAsync] and [InvokeStream]
    return the codec's error without reporting to it, so that from then on,
    whatever happens and however long it takes, every call to that instance of
    that service is refused. *)
Theorem marshal_error_wedges_breaker c i k key conn b now e :
  calls c !! i = Some k -> at_pc k = CMarshal key conn ->
  breakers c !! key = Some b -> state b = HalfOpen -> halfOpenProbe b = true ->
  (forall j u, calls c !! j = Some u -> holds (at_pc u) = Some key -> j = i) ->
  exists c1, client_step c (EStep i now (AErr e)) = Ret c1
    /\ forall es c2, client_run c1 es = Ret c2 ->
         forall now' j u addr, calls c2 !! j = Some u -> at_pc u = CAllow addr key ->
           exists c3, call_step now' c2 u AGo = Ret (c3, CReturned (Some "circuit breaker open"%string)).
Proof.
  intros Hi Hk Hb Hst Hpr Honly. simpl. rewrite Hi. unfold call_step. rewrite Hk. cbn [obind fst snd]. eexists. split; [done |].
  intros es c2 Hrun now' j u addr Hj Hu. match type of Hrun with client_run ?x _ = _ => assert (Hw : wedged x key) end.
  { split; [by exists b |]. simpl. intros j' u' Hj' Hu'. destruct (decide (i = j')) as [<- | Hne].
    - rewrite list_lookup_insert_eq in Hj' by (by eapply lookup_lt_Some). injection Hj' as <-. simpl. eauto.
    - rewrite list_lookup_insert_ne in Hj' by done. by destruct (Hne (eq_sym (Honly j' u' Hj' Hu'))). }
  destruct (wedged_run _ _ _ _ Hw Hrun) as [(b2 & Hb2 & Hst2 & Hpr2) _]. rewrite Hu, Hb2. unfold Allow. rewrite Hst2, Hpr2. eauto.
Qed.

(** ** Witness: ten refused connections, then a probe whose arguments do not marshal *)

Definition found_a : answer := ALookup (fun _ => ["a"%string]) (Ok [("k", "a")]%string).
Definition admitted_call (i : nat) (now : Z) : list event :=
  [EInvoke "s" false; EStep i now AGo; EStep i now found_a; EStep i now AGo; EStep i now AGo].
Definition refused_call (i : nat) : list event :=
  admitted_call i 0 ++ [EStep i 0 (ADial None (Some "refused"%string)); EStep i 0 AGo].
Definition sample_calls : list event :=
  concat (map refused_call (seq 0 10)) ++ admitted_call 10 (6 * second) ++ [EStep 10 0 (ADial None None)].
Definition sample_start : Client := NewClient (Some NewRegistry) (LbRoundRobin 0).
Definition sample_client : Client := match client_run sample_start sample_calls with Ret c => c | Panic _ => sample_start end.

Lemma sample_client_calls :
  calls sample_client = replicate 10 (mkCall "s" false (CReturned (Some "refused"%string))) ++ [mkCall "s" false (CMarshal "s|a" 11)].
Proof. vm_compute. reflexivity. Qed.

Lemma sample_client_breaker :
  exists b, breakers sample_client !! "s|a"%string = Some b /\ state b = HalfOpen /\ halfOpenProbe b = true.
Proof.
  assert (Hb : match breakers sample_client !! "s|a"%string with
    Some b => bool_decide (state b = HalfOpen) && halfOpenProbe b | None => false end = true) by (vm_compute; reflexivity).
  destruct (breakers sample_client !! "s|a"%string) as [b |]; [| done]. apply andb_true_iff in Hb as [H1 H2].
  apply bool_decide_eq_true in H1. eauto.
Qed.

Lemma breaker_waits_only_for_a_call_witness :
  exists c, client_run sample_start sample_calls = Ret c /\ half_open (breakers c) "s|a"
    /\ ((exists i k, calls c !! i = Some k /\ owes (at_pc k) = Some "s|a"%string)
        \/ ((exists i k e, calls c !! i = Some k /\ at_pc k = CUnmarshalable "s|a" e) /\ refuses_for_good c "s|a"))
    /\ map_Forall (fun _ p => zlen (conns p) <= 1) (pools c).
Proof.
  destruct (breaker_waits_only_for_a_call (Some NewRegistry) (LbRoundRobin 0) sample_calls I) as (c & Hrun & Ho & Hp).
  assert (Hc : c = sample_client) by (unfold sample_client; unfold sample_start at 1; by rewrite Hrun).
  assert (Hh : half_open (breakers c) "s|a").
  { destruct sample_client_breaker as (b & Hb & Hst & _). exists b. rewrite Hc. exact (conj Hb Hst). }
  exists c. exact (conj Hrun (conj Hh (conj (Ho _ Hh) Hp))).
Defined.

Lemma marshal_error_wedges_breaker_witness :
  exists c1, client_step sample_client (EStep 10 (6 * second) (AErr "json: unsupported type"%string)) = Ret c1
    /\ forall es c2, client_run c1 es = Ret c2 -> forall now' j u addr, calls c2 !! j = Some u -> at_pc u = CAllow addr "s|a" ->
         exists c3, call_step now' c2 u AGo = Ret (c3, CReturned (Some "circuit breaker open"%string)).
Proof.
  destruct sample_client_breaker as (b & Hb & Hst & Hpr).
  apply (marshal_error_wedges_breaker sample_client 10 (mkCall "s" false (CMarshal "s|a" 11)) "s|a" 11 b); [| done | done | done | done |].
  - rewrite sample_client_calls. reflexivity.
  - rewrite sample_client_calls. intros j u Hj Hu. do 10 (destruct j as [| j]; [injection Hj as <-; discriminate Hu |]).
    destruct j as [| j]; [reflexivity | discriminate Hj].
Defined.
