(* ===== verification/RpcServer.v ===== *)
(** * RpcServer
    The server side of one connection ([server/server.go], [server/handler.go],
    [server/stream.go]): the read loop, the dispatch by reflection, unary and
    streaming methods.

    The read loop serves one request at a time; a streaming method runs in a
    goroutine of its own, which is a program whose steps interleave with the
    loop. A service is what [reflect] sees of it: for each method the types of
    its parameters and results, and what calling it does. [codec.Codec] is an
    interface; its methods are those of the record [Codec]. A handler returns or
    panics; one that never returns holds up its connection (a unary one) or its
    stream, and is not modelled. Writing a message to
    the connection is RpcWire's concern: here the messages written are listed. *)
From S2P Require Import Prelude GoBytes RpcWire.
(** ** What reflection sees *)

(** A parameter or result type: its kind and the interfaces of [handler.go] it
    implements. [ofServerStream]: a [*serverStream] converts to it. *)
Record gotype := mkType {
  tName : string;
  isPointer : bool;
  isContext : bool;
  isError : bool;
  isServerStream : bool;
  ofServerStream : bool;
}.

Section Server.
  Context {value : Type}.

Record Codec := mkCodec {
  Marshal : value -> result string bytes;
  Unmarshal : string -> bytes -> result string value;
}.

(** A call through reflection panics or returns. *)
Inductive called (A : Type) := Panicked (why : string) | Returned (a : A).
Arguments Panicked {A} why.
Arguments Returned {A} a.

(** A streaming method: it sends values, looking at what [Send] returned. *)
Inductive stream_prog :=
| SSend (v : value) (k : option string -> stream_prog)
| SReturn (err : option string)
| SPanic (why : string).

(** [callGrpc] is [(ctx, req) (resp, error)], [callRpc] is [(req, reply) error]
    and [callStream] [(req, stream) error]; only the one of the method's own
    type is ever called. *)
Record method := mkMethod {
  ins : list gotype;
  outs : list gotype;
  callGrpc : value -> called (option value * option string);
  callRpc : value -> called (value * option string);
  callStream : value -> stream_prog;
}.

Abbreviation service := (gmap string method).

(** [safeCall] *)
Definition safeCall {A} (c : called A) : result string A :=
  match c with
  | Panicked why => Err ("handler panic: " ++ why)%string
  | Returned a => Ok a
  end.

(** ** invoke *)

(** What [invoke] returns: a result, an error, or a stream that runs. *)
Inductive invoked :=
| IResult (v : option value)
| IError (err : string)
| IStream (prog : stream_prog).

(** The new request of the parameter's element type, filled from the body. *)
Definition read_request (cc : Codec) (zero : string -> value) (t : gotype) (body : bytes) : result string value :=
  if decide (0 < zlen body) then Unmarshal cc (tName t) body else Ok (zero (tName t)).

Definition method_name (serviceName methodName : string) : string := (serviceName ++ "." ++ methodName)%string.
Definition unsupported (serviceName methodName : string) : invoked :=
  IError ("unsupported method signature: " ++ method_name serviceName methodName)%string.

Definition invoke (zero : string -> value) (svc : option service) (serviceName methodName : string) (body : bytes) (cc : Codec) : outcome invoked :=
  match svc with
  | None => Ret (IError ("service not found: " ++ serviceName)%string)
  | Some s =>
      match s !! methodName with
      | None => Ret (IError ("method not found: " ++ method_name serviceName methodName)%string)
      | Some m =>
          match ins m, outs m with
          | [t0; t1], [o0; o1] =>
              if isContext t0 && isPointer t1 && isPointer o0 && isError o1 then
                match read_request cc zero t1 body with
                | Err e => Ret (IError e)
                | Ok req =>
                    match safeCall (callGrpc m req) with
                    | Err e => Ret (IError e)
                    | Ok (_, Some e) => Ret (IError e)
                    | Ok (r, None) => Ret (IResult r)
                    end
                end
              else Ret (unsupported serviceName methodName)
          | [t0; t1], [o0] =>
              if isError o0 then
                if isPointer t0 then
                  match read_request cc zero t0 body with
                  | Err e => Ret (IError e)
                  | Ok req =>
                      if isServerStream t1 then
                        if ofServerStream t1 then Ret (IStream (callStream m req))
                        else Panic "reflect.Value.Convert: value of type *server.serverStream cannot be converted"
                      else if isPointer t1 then
                        match safeCall (callRpc m req) with
                        | Err e => Ret (IError e)
                        | Ok (_, Some e) => Ret (IError e)
                        | Ok (reply, None) => Ret (IResult (Some reply))
                        end
                      else Ret (unsupported serviceName methodName)
                  end
                else Ret (unsupported serviceName methodName)
              else Ret (unsupported serviceName methodName)
          | _, _ => Ret (unsupported serviceName methodName)
          end
      end
  end.

(** ** Responses *)

Definition response (id flag : Z) (err : string) (body : bytes) : Message :=
  mkMessage (Some (mkHeader id EmptyString EmptyString err 0 CompressionGzip flag)) body.

Definition writeError (id : Z) (err : string) : Message := response id StreamNone err [].
Definition stream_data (id : Z) (body : bytes) : Message := response id StreamData EmptyString body.
Definition stream_end (id : Z) : Message := response id StreamEnd EmptyString [].
Definition sendError (id : Z) (err : string) : Message := response id StreamError err [].

(** The goroutine of a stream: its request, its codec and what is left to run. *)
Record stream_run := mkRun { sr_id : Z; sr_codec : Codec; sr_prog : option stream_prog }.

Section Process.
  Context (zero : string -> value) (factories : gmap Z (unit -> Codec)) (default_codec : Codec).

(** [Process]: what it writes and the stream it starts. *)
Definition Process (h : Header) (body : bytes) (svc : option service) : outcome (list Message * option stream_run) :=
  let chosen := if decide (hCodecType h <> 0) then New factories (hCodecType h) else Ok default_codec in
  match chosen with
  | Err e => Ret ([writeError (hRequestID h) e], None)
  | Ok cc =>
      let! r := invoke zero svc (hServiceName h) (hMethodName h) body cc in
      match r with
      | IStream prog => Ret ([], Some (mkRun (hRequestID h) cc (Some prog)))
      | IError e => Ret ([writeError (hRequestID h) e], None)
      | IResult None => Ret ([response (hRequestID h) StreamNone EmptyString []], None)
      | IResult (Some v) =>
          match Marshal cc v with
          | Err e => Ret ([writeError (hRequestID h) e], None)
          | Ok b => Ret ([response (hRequestID h) StreamNone EmptyString b], None)
          end
      end
  end.

(** ** Handle *)

Record server_conn := mkConn {
  services : gmap string service;
  input : list Message;
  running : list stream_run;
  output : list Message;
}.

(** [HRead]: the loop serves the next message, with the answer of the limiter,
    which all connections share. [HStream]: a goroutine moves, [err] being what
    writing to the connection returns. *)
Inductive conn_event :=
| HRead (allowed : bool)
| HStream (j : nat) (err : option string)
| HRegister (name : string) (s : service).

(** One move of a stream: the messages it writes and what is left of it. *)
Definition stream_move (r : stream_run) (prog : stream_prog) (err : option string) : list Message * option stream_prog :=
  match prog with
  | SSend v k =>
      match Marshal (sr_codec r) v with
      | Err e => ([], Some (k (Some e)))
      | Ok body => ([stream_data (sr_id r) body], Some (k err))
      end
  | SReturn None => ([stream_end (sr_id r)], None)
  | SReturn (Some e) => ([sendError (sr_id r) e], None)
  | SPanic why => ([sendError (sr_id r) ("handler panic: " ++ why)%string], None)
  end.

Definition conn_step (c : server_conn) (e : conn_event) : outcome server_conn :=
  match e with
  | HRead allowed =>
      match input c with
      | [] => Ret c
      | msg :: rest =>
          match mHeader msg with
          | None => Panic nil_deref
          | Some h =>
              if allowed then
                let! r := Process h (mBody msg) (services c !! hServiceName h) in
                Ret (mkConn (services c) rest (running c ++ match r.2 with Some s => [s] | None => [] end) (output c ++ r.1))
              else Ret (mkConn (services c) rest (running c) (output c ++ [writeError (hRequestID h) "rate limit exceeded"]))
          end
      end
  | HStream j err =>
      match running c !! j with
      | Some r =>
          match sr_prog r with
          | Some prog =>
              let '(out, rest) := stream_move r prog err in
              Ret (mkConn (services c) (input c) (<[j := mkRun (sr_id r) (sr_codec r) rest]> (running c)) (output c ++ out))
          | None => Ret c
          end
      | None => Ret c
      end
  | HRegister name s => Ret (mkConn (<[name := s]> (services c)) (input c) (running c) (output c))
  end.

Fixpoint conn_run (c : server_conn) (es : list conn_event) : outcome server_conn :=
  match es with
  | [] => Ret c
  | e :: es => let! c := conn_step c e in conn_run c es
  end.

End Process.

(** [Handle] returns when the peer is gone and [streamWg] is down to zero. *)
Definition drained (c : server_conn) : Prop := input c = [] /\ Forall (fun r => sr_prog r = None) (running c).

Definition accepted (svcs : gmap string service) (reqs : list (Header * bytes)) : server_conn :=
  mkConn svcs ((fun r => mkMessage (Some r.1) r.2) <$> reqs) [] [].

End Server.
Arguments Codec : clear implicits.
Arguments called : clear implicits.
Arguments method : clear implicits.
Arguments stream_prog : clear implicits.
Arguments stream_run : clear implicits.
Arguments server_conn : clear implicits.
Arguments conn_event : clear implicits.
Arguments Panicked {A} why.
Arguments Returned {A} a.

(** ** Theorems
    Every request that a server reads is answered, once and to the end. *)
Definition id_of (m : Message) : Z := match mHeader m with Some h => hRequestID h | None => -1 end.
Definition flag_of (m : Message) : Z := match mHeader m with Some h => hStreamFlag h | None => -1 end.

(** The messages written in answer to a request. *)
Definition answers (id : Z) (out : list Message) : list Message := filter (fun m => id_of m = id) out.

Definition is_data (m : Message) : Prop := flag_of m = StreamData.

(** One response, or the frames of a stream and then its end. *)
Definition complete (out : list Message) : Prop :=
  (exists m, out = [m] /\ flag_of m = StreamNone)
  \/ (exists data m, out = data ++ [m] /\ Forall is_data data /\ (flag_of m = StreamEnd \/ flag_of m = StreamError)).

Lemma answers_app id out out' : answers id (out ++ out') = answers id out ++ answers id out'.
Proof. apply filter_app. Qed.

Lemma answers_own id out : Forall (fun m => id_of m = id) out -> answers id out = out.
Proof. intros Hall. by apply filter_all. Qed.

Lemma answers_other id id' out : Forall (fun m => id_of m = id') out -> id <> id' -> answers id out = [].
Proof. intros Hall Hne. apply filter_none. eapply Forall_impl; [exact Hall |]. simpl. intros m <-. auto. Qed.

Section Theorems.
  Context {value : Type} (zero : string -> value) (factories : gmap Z (unit -> Codec value)) (default_codec : Codec value).

(** The stream parameter of a streaming method can hold the server's stream. *)
Definition method_ok (m : method value) : Prop :=
  match ins m, outs m with [_; t1], [_] => isServerStream t1 = true -> ofServerStream t1 = true | _, _ => True end.
Definition service_ok (s : gmap string (method value)) : Prop := map_Forall (fun _ m => method_ok m) s.
Definition services_ok (svcs : gmap string (gmap string (method value))) : Prop := map_Forall (fun _ s => service_ok s) svcs.
Definition event_ok (e : conn_event value) : Prop := match e with HRegister _ s => service_ok s | _ => True end.

Lemma invoke_total svc sn mn body cc :
  (forall s, svc = Some s -> service_ok s) -> exists r, invoke zero svc sn mn body cc = Ret r.
Proof.
  intros Hok. unfold invoke, unsupported. destruct svc as [s |]; [| eauto]. destruct (s !! mn) as [m |] eqn:Hm; [| eauto].
  pose proof (Hok s eq_refl mn m Hm) as Hmk. unfold method_ok in Hmk.
  destruct (ins m) as [| t0 [| t1 [|]]], (outs m) as [| o0 [| o1 [|]]]; eauto.
  - destruct (isError o0), (isPointer t0); eauto. destruct (read_request _ _ _ _); [| eauto].
    destruct (isServerStream t1); [rewrite Hmk by done; eauto |]. destruct (isPointer t1); [| eauto].
    destruct (safeCall _) as [[? []] |]; eauto.
  - destruct (isContext t0 && isPointer t1 && isPointer o0 && isError o1); [| eauto]. destruct (read_request _ _ _ _); [| eauto].
    destruct (safeCall _) as [[? []] |]; eauto.
Qed.

(** A request is answered at once, or a stream starts for it. *)
Lemma Process_spec h body svc :
  (forall s, svc = Some s -> service_ok s) ->
  exists out s, Process zero factories default_codec h body svc = Ret (out, s)
    /\ ((s = None /\ exists m, out = [m] /\ id_of m = hRequestID h /\ flag_of m = StreamNone)
        \/ (exists cc prog, out = [] /\ s = Some (mkRun (hRequestID h) cc (Some prog)))).
Proof.
  intros Hok. unfold Process. destruct (if decide (hCodecType h <> 0) then _ else _) as [cc | e]; [| eexists _, _; split; [done |]; left; eauto].
  destruct (invoke_total svc (hServiceName h) (hMethodName h) body cc Hok) as [r ->]. cbn [obind].
  destruct r as [[v |] | e | prog]; [destruct (Marshal cc v) | | |]; eexists _, _; (split; [done |]); eauto 10.
Qed.

Lemma stream_move_spec (r : stream_run value) prog err :
  let '(out, rest) := stream_move r prog err in
  Forall (fun m => id_of m = sr_id r) out
  /\ ((Forall is_data out /\ rest <> None) \/ (exists m, out = [m] /\ (flag_of m = StreamEnd \/ flag_of m = StreamError) /\ rest = None)).
Proof.
  destruct prog as [v k | [e |] | why]; simpl; [destruct (Marshal _ _) | | |]; (split; [repeat constructor |]);
    first [left; split; [by repeat constructor | done] | right; eexists; split; [done |]; split; [auto | done]].
Qed.

(** ** The invariant *)

Record conn_inv (reqs : list (Header * bytes)) (served : list Z) (c : server_conn value) : Prop := {
  ki_services : services_ok (services c);
  ki_ids : hRequestID <$> reqs.*1 = served ++ (id_of <$> input c);
  ki_input : Forall (fun m => mHeader m <> None) (input c);
  ki_runs : NoDup (sr_id <$> running c);
  ki_run_ids : forall r, r ∈ running c -> sr_id r ∈ served;
  ki_out_ids : forall m, m ∈ output c -> id_of m ∈ served;
  ki_open : forall r, r ∈ running c -> sr_prog r <> None -> Forall is_data (answers (sr_id r) (output c));
  ki_done : forall id, id ∈ served -> (exists r, r ∈ running c /\ sr_id r = id /\ sr_prog r <> None) \/ complete (answers id (output c));
}.

Lemma unserved_answers reqs served c id : conn_inv reqs served c -> id ∉ served -> answers id (output c) = [].
Proof.
  intros Hinv Hid. apply filter_none, Forall_forall. intros m Hm <-. apply Hid. by apply (ki_out_ids _ _ _ Hinv).
Qed.

(** Serving a request outright. *)
Lemma read_reply reqs served c m rest h reply :
  NoDup (hRequestID <$> reqs.*1) -> conn_inv reqs served c -> input c = m :: rest -> mHeader m = Some h ->
  id_of reply = hRequestID h -> flag_of reply = StreamNone ->
  conn_inv reqs (served ++ [hRequestID h]) (mkConn (services c) rest (running c) (output c ++ [reply])).
Proof.
  intros Hnd Hinv Hin Hh Hid Hflag. pose proof (unserved_answers reqs served c (hRequestID h) Hinv) as Hun.
  destruct Hinv as [H1 H2 H3 H4 H5 H6 H7 H8]. rewrite Hin in H2, H3.
  assert (Hm : id_of m = hRequestID h) by (unfold id_of; by rewrite Hh). rewrite fmap_cons, Hm in H2.
  assert (Hfresh : hRequestID h ∉ served) by (rewrite H2 in Hnd; apply NoDup_app in Hnd as (_ & Hd & _); intros Hx; apply (Hd _ Hx); constructor).
  assert (Hoth : forall id, id <> hRequestID h -> answers id (output c ++ [reply]) = answers id (output c)).
  { intros id Hne. rewrite answers_app, (answers_other id (hRequestID h) [reply]), app_nil_r; [done | by repeat constructor | done]. }
  constructor; simpl; [done | by rewrite <- (assoc app served) | by apply Forall_cons in H3 as [_ ?] | done | | | |].
  - intros r Hr. apply elem_of_app. left. by apply H5.
  - intros m' [Hm' | ->%list_elem_of_singleton]%elem_of_app; apply elem_of_app; [left; by apply H6 | right; rewrite Hid; by apply list_elem_of_singleton].
  - intros r Hr Hp. rewrite Hoth; [by apply H7 |]. intros Hx. apply Hfresh. rewrite <- Hx. by apply H5.
  - intros id [Hd | ->%list_elem_of_singleton]%elem_of_app.
    + rewrite Hoth; [by apply H8 |]. intros ->. done.
    + right. left. exists reply. rewrite answers_app, Hun, answers_own by (done || by repeat constructor). done.
Qed.

(** Starting a stream. *)
Lemma read_stream reqs served c m rest h cc prog :
  NoDup (hRequestID <$> reqs.*1) -> conn_inv reqs served c -> input c = m :: rest -> mHeader m = Some h ->
  conn_inv reqs (served ++ [hRequestID h])
    (mkConn (services c) rest (running c ++ [mkRun (hRequestID h) cc (Some prog)]) (output c ++ [])).
Proof.
  intros Hnd Hinv Hin Hh. pose proof (unserved_answers reqs served c (hRequestID h) Hinv) as Hun.
  destruct Hinv as [H1 H2 H3 H4 H5 H6 H7 H8]. rewrite Hin in H2, H3. rewrite app_nil_r.
  assert (Hm : id_of m = hRequestID h) by (unfold id_of; by rewrite Hh). rewrite fmap_cons, Hm in H2.
  assert (Hfresh : hRequestID h ∉ served) by (rewrite H2 in Hnd; apply NoDup_app in Hnd as (_ & Hd & _); intros Hx; apply (Hd _ Hx); constructor).
  constructor; simpl; [done | by rewrite <- (assoc app served) | by apply Forall_cons in H3 as [_ ?] | | | | |].
  - rewrite fmap_app. apply NoDup_app. split; [done |]. split; [| apply NoDup_singleton].
    intros id (r & -> & Hr)%list_elem_of_fmap Hx. apply list_elem_of_singleton in Hx. simpl in Hx. apply Hfresh. rewrite <- Hx. by apply H5.
  - intros r [Hr | ->%list_elem_of_singleton]%elem_of_app; apply elem_of_app; [left; by apply H5 | right; by apply list_elem_of_singleton].
  - intros m' Hm'. apply elem_of_app. left. by apply H6.
  - intros r [Hr | ->%list_elem_of_singleton]%elem_of_app Hp; [by apply H7 |]. simpl. rewrite Hun by done. constructor.
  - intros id [Hd | ->%list_elem_of_singleton]%elem_of_app.
    + destruct (H8 id Hd) as [(r & Hr & Hx) | Hx]; [left; exists r; split; [apply elem_of_app; by left | done] | by right].
    + left. eexists. split; [apply elem_of_app; right; by apply list_elem_of_singleton | done].
Qed.

(** A move of a stream. *)
Lemma stream_step reqs served c j r prog err :
  conn_inv reqs served c -> running c !! j = Some r -> sr_prog r = Some prog ->
  conn_inv reqs served (mkConn (services c) (input c)
    (<[j := mkRun (sr_id r) (sr_codec r) (stream_move r prog err).2]> (running c)) (output c ++ (stream_move r prog err).1)).
Proof.
  intros [H1 H2 H3 H4 H5 H6 H7 H8] Hj Hp. pose proof (stream_move_spec r prog err) as Hmove.
  destruct (stream_move r prog err) as [out rest]. simpl. destruct Hmove as [Hids Hkind].
  pose proof (lookup_lt_Some _ _ _ Hj) as Hlt. assert (Hin : r ∈ running c) by (by eapply list_elem_of_lookup_2).
  set (r' := mkRun (sr_id r) (sr_codec r) rest).
  assert (Hrun : forall u, u ∈ <[j := r']> (running c) -> u = r' \/ (u ∈ running c /\ sr_id u <> sr_id r)).
  { intros u Hu. apply list_elem_of_lookup in Hu as [i Hi]. destruct (decide (j = i)) as [<- | Hne].
    - rewrite list_lookup_insert_eq in Hi by done. left. congruence.
    - rewrite list_lookup_insert_ne in Hi by done. right. split; [by eapply list_elem_of_lookup_2 |]. intros Hx. apply Hne.
      symmetry. apply (NoDup_lookup _ i j (sr_id r) H4); rewrite list_lookup_fmap; [rewrite Hi | rewrite Hj]; simpl; congruence. }
  assert (Hoth : forall id, id <> sr_id r -> answers id (output c ++ out) = answers id (output c)).
  { intros id Hne. by rewrite answers_app, (answers_other id (sr_id r) out), app_nil_r. }
  assert (Hdata : Forall is_data (answers (sr_id r) (output c))) by (apply H7; [done | congruence]).
  constructor; simpl; [done | done | done | | | | |].
  - rewrite list_fmap_insert. simpl. rewrite list_insert_id; [done |]. by rewrite list_lookup_fmap, Hj.
  - intros u Hu. destruct (Hrun u Hu) as [-> | [Hu' _]]; [by apply (H5 r) | by apply H5].
  - intros m [Hm | Hm]%elem_of_app; [by apply H6 |]. rewrite Forall_forall in Hids. rewrite (Hids m Hm). by apply H5.
  - intros u Hu Hup. destruct (Hrun u Hu) as [-> | [Hu' Hne]]; [| rewrite Hoth by done; by apply H7]. simpl in *.
    rewrite answers_app, (answers_own _ out) by done. apply Forall_app. split; [done |].
    destruct Hkind as [[Hd _] | (m & _ & _ & Hnone)]; [done | congruence].
  - intros id Hid. destruct (decide (id = sr_id r)) as [-> | Hne].
    + destruct Hkind as [[_ Hsome] | (m & Hout & Hfl & _)].
      * left. exists r'. split; [| done]. eapply list_elem_of_lookup_2. by apply list_lookup_insert_eq.
      * right. right. exists (answers (sr_id r) (output c)), m. rewrite answers_app, (answers_own _ out) by done. by rewrite Hout.
    + rewrite Hoth by done. destruct (H8 id Hid) as [(u & Hu & Hui & Hup) | Hx]; [left | by right].
      exists u. split; [| done]. apply list_elem_of_lookup in Hu as [i Hi]. eapply (list_elem_of_lookup_2 _ i).
      rewrite list_lookup_insert_ne; [done |]. intros ->. congruence.
Qed.

Abbreviation conn_step := (RpcServer.conn_step zero factories default_codec).
Abbreviation conn_run := (RpcServer.conn_run zero factories default_codec).

Lemma conn_step_inv reqs served c e :
  NoDup (hRequestID <$> reqs.*1) -> event_ok e -> conn_inv reqs served c ->
  exists c' served', conn_step c e = Ret c' /\ conn_inv reqs served' c'.
Proof.
  intros Hnd He Hinv. destruct e as [allowed | j err | name s]; simpl.
  - destruct (input c) as [| m rest] eqn:Hin; [eauto |].
    pose proof (ki_input _ _ _ Hinv) as Hhd. rewrite Hin in Hhd. apply Forall_cons in Hhd as [Hhd _].
    destruct (mHeader m) as [h |] eqn:Hh; [| done]. destruct allowed.
    + destruct (Process_spec h (mBody m) (services c !! hServiceName h)) as (out & s & -> & Hs);
        [intros s Hs; by apply (ki_services _ _ _ Hinv (hServiceName h)) |].
      cbn [obind fst snd]. eexists _, (served ++ [hRequestID h]). split; [done |].
      destruct Hs as [(-> & reply & -> & Hid & Hflag) | (cc & prog & -> & ->)].
      * rewrite app_nil_r. by apply (read_reply reqs served c m).
      * by apply (read_stream reqs served c m).
    + eexists _, (served ++ [hRequestID h]). split; [done |]. by apply (read_reply reqs served c m).
  - destruct (running c !! j) as [r |] eqn:Hj; [| eauto]. destruct (sr_prog r) as [prog |] eqn:Hp; [| eauto].
    pose proof (stream_step reqs served c j r prog err Hinv Hj Hp) as Hinv'.
    destruct (stream_move r prog err) as [out rest]. eauto.
  - eexists _, served. split; [done |]. destruct Hinv. constructor; simpl; try done. by apply map_Forall_insert_2.
Qed.

Lemma conn_run_inv reqs es served c :
  NoDup (hRequestID <$> reqs.*1) -> Forall event_ok es -> conn_inv reqs served c ->
  exists c' served', conn_run c es = Ret c' /\ conn_inv reqs served' c'.
Proof.
  intros Hnd. revert served c. induction es as [| e es IH]; intros served c He Hinv; simpl; [eauto |].
  apply Forall_cons in He as [He1 He]. destruct (conn_step_inv reqs served c e Hnd He1 Hinv) as (c' & served' & -> & Hinv'). by eapply IH.
Qed.

Lemma accepted_inv svcs reqs : services_ok svcs -> conn_inv reqs [] (accepted svcs reqs).
Proof.
  intros Hs. constructor; simpl; [done | | | constructor | set_solver | set_solver | set_solver | set_solver].
  - rewrite <- !list_fmap_compose. by apply list_fmap_ext.
  - apply Forall_fmap, Forall_forall. intros r _. done.
Qed.

(** ** Nothing keeps a request from being answered *)

Lemma conn_run_app c es es' : conn_run c (es ++ es') = let! c := conn_run c es in conn_run c es'.
Proof. revert c. induction es as [| e es IH]; intros c; simpl; [done |]. destruct (conn_step c e); simpl; [apply IH | done]. Qed.

(** A stream runs to its end. *)
Lemma finish_stream prog svcs inp rs j id cc out :
  rs !! j = Some (mkRun id cc (Some prog)) ->
  exists n out', conn_run (mkConn svcs inp rs out) (replicate n (HStream j None)) = Ret (mkConn svcs inp (<[j := mkRun id cc None]> rs) out').
Proof.
  revert rs out. induction prog as [v k IH | err | why]; intros rs out Hj.
  - assert (Hnext : forall x o, exists n out', conn_run (mkConn svcs inp (<[j := mkRun id cc (Some (k x))]> rs) o) (replicate n (HStream j None))
      = Ret (mkConn svcs inp (<[j := mkRun id cc None]> rs) out')).
    { intros x o. destruct (IH x (<[j := mkRun id cc (Some (k x))]> rs) o) as (n & out' & Hrun).
      - apply list_lookup_insert_eq. by eapply lookup_lt_Some.
      - exists n, out'. by rewrite list_insert_insert_eq in Hrun. }
    destruct (Marshal cc v) as [body | e] eqn:Hm.
    + destruct (Hnext None (out ++ [stream_data id body])) as (n & out' & Hrun). exists (S n), out'. simpl. rewrite Hj. simpl. by rewrite Hm.
    + destruct (Hnext (Some e) (out ++ [])) as (n & out' & Hrun). exists (S n), out'. simpl. rewrite Hj. simpl. by rewrite Hm.
  - destruct err; eexists 1%nat, _; simpl; rewrite Hj; reflexivity.
  - eexists 1%nat, _. simpl. rewrite Hj. reflexivity.
Qed.

Lemma finish_streams svcs inp todo done_ out :
  Forall (fun r => sr_prog r = None) done_ ->
  exists es rs out', Forall event_ok es /\ conn_run (mkConn svcs inp (done_ ++ todo) out) es = Ret (mkConn svcs inp rs out')
    /\ Forall (fun r => sr_prog r = None) rs.
Proof.
  revert done_ out. induction todo as [| [id cc prog] todo IH]; intros done_ out Hd.
  - exists [], done_, out. rewrite app_nil_r. done.
  - assert (Hrest : forall o, exists es rs out', Forall event_ok es
      /\ conn_run (mkConn svcs inp (done_ ++ mkRun id cc None :: todo) o) es = Ret (mkConn svcs inp rs out') /\ Forall (fun r => sr_prog r = None) rs).
    { intros o. destruct (IH (done_ ++ [mkRun id cc None]) o) as (es & rs & out' & Hes & Hrun & Hrs); [apply Forall_app; split; [done | by constructor] |].
      exists es, rs, out'. rewrite <- (assoc app done_) in Hrun. done. }
    destruct prog as [prog |]; [| apply Hrest].
    destruct (finish_stream prog svcs inp (done_ ++ mkRun id cc (Some prog) :: todo) (length done_) id cc out) as (n & o & Hrun);
      [by apply list_lookup_middle |].
    rewrite insert_app_r_alt, Nat.sub_diag in Hrun by lia. simpl in Hrun. destruct (Hrest o) as (es & rs & out' & Hes & Hrun' & Hrs).
    exists (replicate n (HStream (length done_) None) ++ es), rs, out'. split.
    + apply Forall_app. split; [by apply Forall_replicate | done].
    + rewrite conn_run_app, Hrun. done.
Qed.

Lemma read_all reqs served c :
  NoDup (hRequestID <$> reqs.*1) -> conn_inv reqs served c ->
  exists es c' served', Forall event_ok es /\ conn_run c es = Ret c' /\ conn_inv reqs served' c' /\ input c' = [].
Proof.
  intros Hnd. remember (length (input c)) as n eqn:Hn. revert served c Hn. induction n as [| n IH]; intros served c Hn Hinv.
  - exists [], c, served. split; [constructor |]. split; [done |]. split; [done |]. by destruct (input c).
  - destruct (conn_step_inv reqs served c (HRead false) Hnd I Hinv) as (c1 & served1 & Hst & Hinv1).
    assert (Hlen : n = length (input c1)).
    { simpl in Hst. destruct (input c) as [| m rest]; [done |]. destruct (mHeader m); [| done]. injection Hst as <-. simpl in *. lia. }
    destruct (IH served1 c1 Hlen Hinv1) as (es & c' & served' & Hes & Hrun & Hinv' & Hin). exists (HRead false :: es), c', served'.
    split; [by constructor |]. split; [| done]. cbn [RpcServer.conn_run]. rewrite Hst. done.
Qed.

(** C7: on services whose streaming methods take the framework's own stream type
    ([services_ok]), and with handlers that return or panic, every request that a
    server reads is answered once, to the end, and under its own number (the
    numbers of a connection are distinct): one response (the result, the
    handler's error, its panic, a codec or lookup error, or the limiter's
    refusal), or the frames of its stream followed by one end or error frame,
    however the goroutines of the streams interleave with the read loop. The
    server does not panic, whichever handlers do, and from any point it can go on
    to answer everything. *)
Theorem every_request_is_answered svcs reqs es :
  services_ok svcs -> Forall event_ok es -> NoDup (hRequestID <$> reqs.*1) ->
  exists c, conn_run (accepted svcs reqs) es = Ret c
    /\ (forall r, r ∈ reqs -> let out := answers (hRequestID r.1) (output c) in Forall is_data out \/ complete out)
    /\ (drained c -> forall r, r ∈ reqs -> complete (answers (hRequestID r.1) (output c)))
    /\ exists es' c', conn_run c es' = Ret c' /\ drained c' /\ forall r, r ∈ reqs -> complete (answers (hRequestID r.1) (output c')).
Proof.
  intros Hs He Hnd. destruct (conn_run_inv reqs es [] (accepted svcs reqs) Hnd He (accepted_inv svcs reqs Hs)) as (c & served & Hrun & Hinv).
  assert (Hdr : forall served c, conn_inv reqs served c -> drained c -> forall r, r ∈ reqs -> complete (answers (hRequestID r.1) (output c))).
  { intros sv d Hd [Hin Hrs] r Hr. destruct (ki_done _ _ _ Hd (hRequestID r.1)) as [(u & Hu & _ & Hp) | Hx]; [| | done].
    - pose proof (ki_ids _ _ _ Hd) as Hids. rewrite Hin in Hids. simpl in Hids. rewrite app_nil_r in Hids. rewrite <- Hids.
      apply list_elem_of_fmap. exists r.1. split; [done |]. apply list_elem_of_fmap. by exists r.
    - rewrite Forall_forall in Hrs. by destruct Hp; apply Hrs. }
  exists c. split; [done |]. split; [| split; [by apply (Hdr served) |]].
  - intros r Hr. simpl. destruct (decide (hRequestID r.1 ∈ served)) as [Hsv | Hun].
    + destruct (ki_done _ _ _ Hinv _ Hsv) as [(u & Hu & <- & Hp) | Hx]; [left; by apply (ki_open _ _ _ Hinv) | by right].
    + left. rewrite (unserved_answers _ _ _ _ Hinv Hun). constructor.
  - destruct (read_all reqs served c Hnd Hinv) as (es1 & c1 & served1 & Hes1 & Hrun1 & Hinv1 & Hin).
    destruct c1 as [sv inp rs out]. simpl in Hin. subst inp.
    destruct (finish_streams sv [] rs [] out) as (es2 & rs' & out' & Hes2 & Hrun2 & Hrs); [constructor |].
    exists (es1 ++ es2), (mkConn sv [] rs' out'). rewrite conn_run_app, Hrun1. cbn [obind]. split; [exact Hrun2 |]. split; [done |].
    destruct (conn_run_inv reqs es2 served1 _ Hnd Hes2 Hinv1) as (c2 & served2 & Hrun2' & Hinv2).
    simpl in Hrun2. rewrite Hrun2 in Hrun2'. injection Hrun2' as <-. by apply (Hdr served2).
Qed.

(** A streaming method whose stream parameter is another type that implements
    [ServerStream] takes the process down: the conversion is outside [safeCall]. *)
Lemma foreign_stream_parameter_panics h body m t0 t1 o0 s :
  hCodecType h = 0 -> body = [] -> s !! hMethodName h = Some m -> ins m = [t0; t1] -> outs m = [o0] ->
  isError o0 = true -> isPointer t0 = true -> isServerStream t1 = true -> ofServerStream t1 = false ->
  exists why, Process zero factories default_codec h body (Some s) = Panic why.
Proof.
  intros Hct -> Hm Hi Ho He Hp Hs Hc. unfold Process. rewrite decide_False by (rewrite Hct; lia). unfold invoke.
  rewrite Hm, Hi, Ho, He, Hp. unfold read_request. cbn. rewrite Hs, Hc. cbn. eauto.
Qed.

End Theorems.

(** ** Witness: an addition, a stream of two numbers and a handler that panics *)

Definition byte_codec : Codec Z :=
  mkCodec (fun v => if decide (0 <= v < 256) then Ok [v] else Err "too big"%string) (fun _ b => Ok (default 0 (head b))).
Definition no_method : Z -> called (Z * option string) := fun _ => Panicked "unused".
Definition req_type : gotype := mkType "int" true false false false false.
Definition stream_type : gotype := mkType "ServerStream" false false false true true.
Definition error_type : gotype := mkType "error" false false true false false.

Definition plus_one : method Z :=
  mkMethod [req_type; req_type] [error_type] (fun _ => Panicked "unused") (fun v => Returned (v + 1, None)) (fun _ => SPanic "unused").
Definition count_two : method Z :=
  mkMethod [req_type; stream_type] [error_type] (fun _ => Panicked "unused") no_method
    (fun v => SSend v (fun _ => SSend (v + 1) (fun err => SReturn err))).
Definition crash : method Z :=
  mkMethod [req_type; req_type] [error_type] (fun _ => Panicked "unused") no_method (fun _ => SPanic "unused").

Definition sample_service : gmap string (method Z) := <["Inc" := plus_one]> (<["Count" := count_two]> (<["Crash" := crash]> ∅)).
Definition sample_services : gmap string (gmap string (method Z)) := <["Arith" := sample_service]> ∅.

Lemma sample_services_ok : services_ok sample_services.
Proof.
  apply map_Forall_insert_2; [| apply map_Forall_empty].
  do 3 (apply map_Forall_insert_2; [done |]). apply map_Forall_empty.
Qed.

Definition request (id : Z) (name : string) (body : bytes) : Header * bytes :=
  (mkHeader id "Arith" name EmptyString 0 CompressionGzip StreamNone, body).
Definition sample_requests : list (Header * bytes) := [request 1 "Count" [5]; request 2 "Inc" [7]; request 3 "Crash" []; request 4 "Missing" []].
Definition sample_events : list (conn_event Z) :=
  [HRead true; HStream 0 None; HRead true; HRead true; HStream 0 None; HRead true; HStream 0 None].

Lemma every_request_is_answered_witness :
  exists c, conn_run (fun _ => 0) ∅ byte_codec (accepted sample_services sample_requests) sample_events = Ret c
    /\ forall r, r ∈ sample_requests -> Forall is_data (answers (hRequestID r.1) (output c)) \/ complete (answers (hRequestID r.1) (output c)).
Proof.
  destruct (every_request_is_answered (fun _ => 0) ∅ byte_codec sample_services sample_requests sample_events) as (c & Hrun & Hall & _).
  - exact sample_services_ok.
  - repeat constructor.
  - apply (bool_decide_unpack _). vm_compute. exact I.
  - exists c. exact (conj Hrun Hall).
Defined.

Example sample_output :
  match conn_run (fun _ => 0) ∅ byte_codec (accepted sample_services sample_requests) sample_events with
  | Ret c => map (fun m => (id_of m, flag_of m, mBody m)) (output c)
  | Panic _ => []
  end = [(1, StreamData, [5]); (2, StreamNone, [8]); (3, StreamNone, []); (1, StreamData, [6]); (4, StreamNone, []); (1, StreamEnd, [])].
Proof. vm_compute. reflexivity. Qed.
