(* ===== verification/CachePeers.v ===== *)
(** * CachePeers
    The picker of [swifty_cache/peers.go]: the members that service discovery
    finds, each with a client, and the ring that assigns keys to them.

    etcd and the gRPC dial of [NewClient] are outside the repository: the pairs
    a [Get] returns and the events of a [Watch] are arguments, each with what
    dialling its address would give. A client is a number; [closedClients] are
    those whose [Close] was called. Every method holds the picker's mutex while
    it touches the state, so it is one step. *)
From S2P Require Import Prelude HashRing RingTheorems.
Record ClientPicker := mkPicker {
  selfAddr : string;
  svcName : string;
  consHash : ConsistentHashMap;
  clients : gmap string Z;
  closedClients : gset Z;
  nextClient : Z;
}.
#[export] Instance picker_eta : Eta ClientPicker := fun p =>
  mkPicker (selfAddr p) (svcName p) (consHash p) (clients p) (closedClients p) (nextClient p).

Definition servicePrefix (p : ClientPicker) : string := ("/services/" ++ svcName p ++ "/")%string.
Definition addrFromEventKey (p : ClientPicker) (key : string) : string := TrimPrefix key (servicePrefix p).

(** [NewClientPicker] up to its first discovery; [addr] is already normalised. *)
Definition NewClientPicker (cfg : ConHashConfig) (svc addr : string) : outcome ClientPicker :=
  let! r := Add (NewConsistentHash cfg) [addr] in
  Ret (mkPicker addr svc r.1 ∅ ∅ 0).

(** [set]; [dial] says whether [NewClient] returns a client. *)
Definition set_peer (p : ClientPicker) (addr : string) (dial : bool) : outcome ClientPicker :=
  if dial then
    let! r := Add (consHash p) [addr] in
    Ret (p <| consHash := r.1 |> <| clients := <[addr := nextClient p]> (clients p) |> <| nextClient := nextClient p + 1 |>)
  else Ret p.

Definition remove (p : ClientPicker) (addr : string) : ClientPicker :=
  p <| consHash := (Remove (consHash p) addr).1 |> <| clients := delete addr (clients p) |>.

(** [client.Close()] and then [remove]. *)
Definition drop_peer (p : ClientPicker) (addr : string) (client : Z) : ClientPicker :=
  remove (p <| closedClients := {[client]} ∪ closedClients p |>) addr.

(** What discovery says of one key, with the outcome of dialling it. *)
Inductive watch_event := EventPut (key : string) (dial : bool) | EventDelete (key : string).
Definition event_key (e : watch_event) : string := match e with EventPut key _ | EventDelete key => key end.

Definition discovered (p : ClientPicker) (addr : string) (dial : bool) : outcome ClientPicker :=
  match clients p !! addr with Some _ => Ret p | None => set_peer p addr dial end.

Definition handle_event (e : watch_event) (p : ClientPicker) : outcome ClientPicker :=
  let addr := addrFromEventKey p (event_key e) in
  if decide (addr = EmptyString \/ addr = selfAddr p) then Ret p else
  match e with
  | EventPut _ dial => discovered p addr dial
  | EventDelete _ => Ret (match clients p !! addr with Some client => drop_peer p addr client | None => p end)
  end.

Definition handleWatchEvents (p : ClientPicker) (events : list watch_event) : outcome ClientPicker :=
  ofold handle_event events p.

(** [fetchAllServices] on the pairs it read. *)
Definition fetch_one (kv : string * bool) (st : ClientPicker * gset string) : outcome (ClientPicker * gset string) :=
  let '(p, current) := st in
  let addr := addrFromEventKey p kv.1 in
  if decide (addr = EmptyString \/ addr = selfAddr p) then Ret (p, current) else
  let! p := discovered p addr kv.2 in
  Ret (p, {[addr]} ∪ current).

Definition reconcile_one (current : gset string) (p : ClientPicker) (addr : string) : ClientPicker :=
  match clients p !! addr with
  | Some client => if decide (addr ∈ current) then p else drop_peer p addr client
  | None => p
  end.

Definition fetchAllServices `{KeyOrder} (p : ClientPicker) (resp : result string (list (string * bool)))
    : outcome (ClientPicker * result string unit) :=
  match resp with
  | Err e => Ret (p, Err ("failed to get all services: " ++ e)%string)
  | Ok kvs =>
      let! r := ofold fetch_one kvs (p, ∅) in
      let '(p, current) := r in
      Ret (fold_left (reconcile_one current) (range_set (dom (clients p))) p, Ok tt)
  end.

(** [PickPeer]: the client, whether there is an owner, whether it is this node. *)
Definition PickPeer (p : ClientPicker) (key : string) : outcome (ClientPicker * (option Z * bool * bool)) :=
  let! r := Get (consHash p) key in
  let '(m, addr) := r in
  let p := p <| consHash := m |> in
  if decide (addr = EmptyString) then Ret (p, (None, false, false)) else
  if decide (addr = selfAddr p) then Ret (p, (None, true, true)) else
  match clients p !! addr with
  | Some client => Ret (p, (Some client, true, false))
  | None => Ret (p, (None, false, false))
  end.

(** [Close], before the client of etcd. *)
Definition Picker_Close (p : ClientPicker) : ClientPicker :=
  p <| closedClients := list_to_set (map_to_list (clients p)).*2 ∪ closedClients p |>.

(** ** Runs *)

Inductive picker_call :=
| PWatch (events : list watch_event)
| PFetch (resp : result string (list (string * bool)))
| PPick (key : string).

Definition picker_step `{KeyOrder} (c : picker_call) (p : ClientPicker) : outcome ClientPicker :=
  match c with
  | PWatch events => handleWatchEvents p events
  | PFetch resp => let! r := fetchAllServices p resp in Ret r.1
  | PPick key => let! r := PickPeer p key in Ret r.1
  end.

Definition picker_run `{KeyOrder} (calls : list picker_call) (p : ClientPicker) : outcome ClientPicker :=
  ofold picker_step calls p.

(** ** Theorems
    The nodes of a cache cluster agree on who owns a key. *)
(** ** The invariant *)

Record picker_inv (N : gset string) (p : ClientPicker) : Prop := {
  pi_ring : ring_ok (consHash p);
  pi_replicas : 1 <= DefaultReplicas (config (consHash p));
  pi_free : collision_free (config (consHash p)) N;
  pi_full : full (consHash p);
  pi_members : members (consHash p) = {[selfAddr p]} ∪ dom (clients p);
  pi_within : members (consHash p) ⊆ N;
  pi_named : selfAddr p <> EmptyString;
  pi_self : selfAddr p ∉ dom (clients p);
  pi_open : forall a c, clients p !! a = Some c -> c < nextClient p /\ c ∉ closedClients p;
  pi_own : forall a b c, clients p !! a = Some c -> clients p !! b = Some c -> a = b;
  pi_closed : forall c, c ∈ closedClients p -> c < nextClient p;
}.

(** What no discovery changes. *)
Definition same_node (p q : ClientPicker) : Prop :=
  selfAddr q = selfAddr p /\ svcName q = svcName p /\ config (consHash q) = config (consHash p).

#[export] Instance same_node_preorder : PreOrder same_node.
Proof. split; [by intros p | intros p q r (A1 & A2 & A3) (B1 & B2 & B3); repeat split; congruence]. Qed.

Lemma same_node_addr p q key : same_node p q -> addrFromEventKey q key = addrFromEventKey p key.
Proof. intros (_ & Hs & _). unfold addrFromEventKey, servicePrefix. by rewrite Hs. Qed.

Lemma Add_one_spec m N addr :
  ring_ok m -> 0 <= DefaultReplicas (config m) -> full m -> collision_free (config m) N -> members m ⊆ N -> addr ∈ N -> addr <> EmptyString ->
  exists m', Add m [addr] = Ret (m', Ok tt) /\ ring_ok m' /\ full m' /\ config m' = config m /\ members m' = members m ∪ {[addr]}.
Proof.
  intros Hok Hr Hf Hc Hm Ha Hne. destruct (Add_spec m [addr] Hok Hr) as (m' & Hadd & Hn & Hg); [done |].
  exists (sorted m'). split; [done |]. split; [apply sorted_ok, Hg |]. split.
  - apply sorted_full. apply (add_nodes_full [addr] m m' N); try done; [apply Hok | set_solver].
  - split; [apply Hg |]. change (members (sorted m')) with (members m'). rewrite (gr_members _ _ _ Hg). set_solver.
Qed.

Lemma Remove_spec m addr :
  ring_ok m -> full m -> addr <> EmptyString -> addr ∈ members m ->
  ring_ok (Remove m addr).1 /\ full (Remove m addr).1 /\ config (Remove m addr).1 = config m
  /\ members (Remove m addr).1 = members m ∖ {[addr]}.
Proof.
  intros Hok Hf Hne Hm. destruct (Remove_cases m addr) as [(e & Hx) | (hs & Hn & _ & ->)].
  - unfold Remove, removeNodeLocked in Hx. rewrite decide_False in Hx by done. apply elem_of_members in Hm as [hs Hhs]. by rewrite Hhs in Hx.
  - destruct (removeNode_ok m addr hs Hok Hn) as (m' & Hm' & Hok' & Hcfg & Hnh & _). rewrite Hm'. simpl.
    split; [done |]. split; [by apply (removeNode_full m addr hs m') |]. split; [done |].
    unfold members. by rewrite Hnh, dom_delete_L.
Qed.

Lemma set_peer_ok N p addr :
  picker_inv N p -> addr ∈ N -> addr <> EmptyString -> addr <> selfAddr p -> clients p !! addr = None ->
  exists p', set_peer p addr true = Ret p' /\ picker_inv N p' /\ same_node p p' /\ dom (clients p') = {[addr]} ∪ dom (clients p).
Proof.
  intros [Hok Hr Hc Hf Hm Hw Hn Hs Ho Hi Hcl] Ha Hne Hns Hnone.
  destruct (Add_one_spec (consHash p) N addr Hok ltac:(lia) Hf Hc Hw Ha Hne) as (m' & Hadd & Hok' & Hf' & Hcfg & Hm').
  unfold set_peer. rewrite Hadd. cbn [obind fst]. eexists. split; [done |]. split; [| split; [done | simpl; by rewrite dom_insert_L]].
  constructor; simpl; rewrite ?Hcfg, ?dom_insert_L; try done.
  - rewrite Hm', Hm. set_solver.
  - rewrite Hm'. set_solver.
  - set_solver.
  - intros a c Hlk. destruct (decide (addr = a)) as [<- | Hna].
    + rewrite lookup_insert_eq in Hlk. injection Hlk as <-. split; [lia |]. intros Hx. specialize (Hcl _ Hx). lia.
    + rewrite lookup_insert_ne in Hlk by done. destruct (Ho a c Hlk). split; [lia | done].
  - intros a b c Hx Hy. destruct (decide (addr = a)) as [<- | Hna], (decide (addr = b)) as [<- | Hnb]; [done | | |].
    + rewrite lookup_insert_eq in Hx. injection Hx as <-. rewrite lookup_insert_ne in Hy by done. destruct (Ho b _ Hy). lia.
    + rewrite lookup_insert_eq in Hy. injection Hy as <-. rewrite lookup_insert_ne in Hx by done. destruct (Ho a _ Hx). lia.
    + rewrite lookup_insert_ne in Hx, Hy by done. by eapply Hi.
  - intros c Hx. specialize (Hcl c Hx). lia.
Qed.

Lemma drop_peer_ok N p addr client :
  picker_inv N p -> clients p !! addr = Some client ->
  picker_inv N (drop_peer p addr client) /\ same_node p (drop_peer p addr client)
  /\ dom (clients (drop_peer p addr client)) = dom (clients p) ∖ {[addr]}.
Proof.
  intros [Hok Hr Hc Hf Hm Hw Hn Hs Ho Hi Hcl] Hlk. assert (Hin : addr ∈ dom (clients p)) by (by eapply elem_of_dom_2).
  assert (Hmem : addr ∈ members (consHash p)) by (rewrite Hm; set_solver).
  pose proof (member_named _ _ Hok Hmem) as Hne.
  destruct (Remove_spec (consHash p) addr Hok Hf Hne Hmem) as (Hok' & Hf' & Hcfg & Hm').
  unfold drop_peer, remove. simpl. split; [| split; [by repeat split | by rewrite dom_delete_L]].
  constructor; simpl; rewrite ?Hcfg, ?dom_delete_L; try done.
  - rewrite Hm', Hm. set_solver.
  - rewrite Hm'. set_solver.
  - set_solver.
  - intros a c Hx. apply lookup_delete_Some in Hx as [Hna Hx]. destruct (Ho a c Hx) as [? Hnc]. split; [done |].
    intros [->%elem_of_singleton | Hy]%elem_of_union; [| done]. apply Hna. by eapply Hi.
  - intros a b c Hx Hy. apply lookup_delete_Some in Hx as [_ Hx]. apply lookup_delete_Some in Hy as [_ Hy]. by eapply Hi.
  - intros c [->%elem_of_singleton | Hx]%elem_of_union; [by destruct (Ho _ _ Hlk) | by apply Hcl].
Qed.

Lemma discovered_ok N p addr dial :
  picker_inv N p -> addr ∈ N -> addr <> EmptyString -> addr <> selfAddr p ->
  exists p', discovered p addr dial = Ret p' /\ picker_inv N p' /\ same_node p p'
    /\ dom (clients p) ⊆ dom (clients p') /\ dom (clients p') ⊆ {[addr]} ∪ dom (clients p) /\ (dial = true -> addr ∈ dom (clients p')).
Proof.
  intros Hinv Ha Hne Hns. unfold discovered. destruct (clients p !! addr) as [c |] eqn:Hc.
  - exists p. apply elem_of_dom_2 in Hc. repeat (split; [done |]). split; [set_solver | done].
  - destruct dial.
    + destruct (set_peer_ok N p addr Hinv Ha Hne Hns Hc) as (p' & -> & Hinv' & Hsame & Hd). exists p'. rewrite Hd.
      split; [done |]. split; [done |]. split; [done |]. set_solver.
    + exists p. repeat (split; [done |]). split; [set_solver | done].
Qed.

(** ** Discovery *)

(** The addresses a key may name. *)
Definition addr_of (svc key : string) : string := TrimPrefix key ("/services/" ++ svc ++ "/").
Definition key_within (svc : string) (N : gset string) (key : string) : Prop := addr_of svc key = EmptyString \/ addr_of svc key ∈ N.

Lemma handle_event_ok N p e :
  picker_inv N p -> key_within (svcName p) N (event_key e) -> exists p', handle_event e p = Ret p' /\ picker_inv N p' /\ same_node p p'.
Proof.
  intros Hinv Hk. unfold handle_event. change (addrFromEventKey p (event_key e)) with (addr_of (svcName p) (event_key e)).
  destruct (decide _) as [| Hne]; [exists p; done |]. assert (Ha : addr_of (svcName p) (event_key e) ∈ N) by (destruct Hk; [tauto | done]).
  destruct e as [key dial | key]; simpl in *.
  - destruct (discovered_ok N p _ dial Hinv Ha) as (p' & -> & Hinv' & Hs & _); [tauto | tauto | eauto].
  - eexists. split; [done |]. destruct (clients p !! _) as [c |] eqn:Hc; [| done].
    by destruct (drop_peer_ok N p _ c Hinv Hc) as (? & ? & _).
Qed.

Lemma handleWatchEvents_ok N es p :
  picker_inv N p -> Forall (fun e => key_within (svcName p) N (event_key e)) es ->
  exists p', handleWatchEvents p es = Ret p' /\ picker_inv N p' /\ same_node p p'.
Proof.
  unfold handleWatchEvents. revert p. induction es as [| e es IH]; intros p Hinv Hes; cbn [ofold]; [exists p; done |].
  apply Forall_cons in Hes as [He Hes]. destruct (handle_event_ok N p e Hinv He) as (p1 & -> & Hinv1 & Hs1). cbn [obind].
  destruct (IH p1 Hinv1) as (p2 & -> & Hinv2 & Hs2); [by rewrite (proj1 (proj2 Hs1)) |]. exists p2. split; [done |]. split; [done | by etrans].
Qed.

(** The remote members of a snapshot. *)
Definition remote (p : ClientPicker) (kvs : list (string * bool)) : gset string :=
  list_to_set (addr_of (svcName p) <$> kvs.*1) ∖ {[EmptyString; selfAddr p]}.

Lemma remote_same p q kvs : same_node p q -> remote q kvs = remote p kvs.
Proof. intros (H1 & H2 & _). unfold remote. by rewrite H1, H2. Qed.

Lemma fetch_loop_ok N kvs p current :
  picker_inv N p -> Forall (fun kv => key_within (svcName p) N kv.1) kvs ->
  exists p', ofold fetch_one kvs (p, current) = Ret (p', current ∪ remote p kvs) /\ picker_inv N p' /\ same_node p p'
    /\ (Forall (fun kv => kv.2 = true) kvs -> remote p kvs ⊆ dom (clients p')) /\ dom (clients p) ⊆ dom (clients p').
Proof.
  revert p current. induction kvs as [| [key dial] kvs IH]; intros p current Hinv Hk; cbn [ofold].
  - exists p. unfold remote. simpl. replace (current ∪ (∅ ∖ _)) with current by set_solver. repeat (split; [done |]). split; set_solver.
  - apply Forall_cons in Hk as [Hk Hks]. simpl in Hk. unfold fetch_one at 1. cbn [fst snd].
    change (addrFromEventKey p key) with (addr_of (svcName p) key). set (addr := addr_of (svcName p) key) in *.
    assert (Hcons : remote p ((key, dial) :: kvs) = ({[addr]} ∖ {[EmptyString; selfAddr p]}) ∪ remote p kvs) by (unfold remote; set_solver).
    destruct (decide (addr = EmptyString \/ addr = selfAddr p)) as [Hskip | Hne].
    + cbn [obind]. destruct (IH p current Hinv Hks) as (p' & -> & Hinv' & Hs & Hall & Hsub). exists p'.
      assert (Heq : remote p ((key, dial) :: kvs) = remote p kvs) by (rewrite Hcons; set_solver). rewrite Heq.
      repeat (split; [done |]). split; [| done]. intros [_ Hd]%Forall_cons. by apply Hall.
    + assert (Ha : addr ∈ N) by (destruct Hk; [tauto | done]).
      destruct (discovered_ok N p addr dial Hinv Ha) as (p1 & -> & Hinv1 & Hs1 & Hsub1 & _ & Hin1); [tauto | tauto |]. cbn [obind].
      destruct (IH p1 ({[addr]} ∪ current) Hinv1) as (p2 & -> & Hinv2 & Hs2 & Hall2 & Hsub2); [by rewrite (proj1 (proj2 Hs1)) |].
      exists p2. rewrite (remote_same p p1 kvs Hs1) in *. rewrite Hcons. replace ({[addr]} ∖ {[EmptyString; selfAddr p]}) with ({[addr]} : gset string) by set_solver.
      split; [f_equal; f_equal; set_solver |]. split; [done |]. split; [by etrans |]. split; [| set_solver].
      intros [Hd Hds]%Forall_cons. specialize (Hall2 Hds). specialize (Hin1 Hd). set_solver.
Qed.

Lemma reconcile_ok N current l p :
  picker_inv N p ->
  let p' := fold_left (reconcile_one current) l p in
  picker_inv N p' /\ same_node p p' /\ dom (clients p') = dom (clients p) ∖ (list_to_set l ∖ current).
Proof.
  revert p. induction l as [| addr l IH]; intros p Hinv; cbn [fold_left].
  - split; [done |]. split; [done |]. simpl. set_solver.
  - assert (Hone : picker_inv N (reconcile_one current p addr) /\ same_node p (reconcile_one current p addr)
      /\ dom (clients (reconcile_one current p addr)) = dom (clients p) ∖ ({[addr]} ∖ current)).
    { unfold reconcile_one. destruct (clients p !! addr) as [c |] eqn:Hc.
      - destruct (decide (addr ∈ current)) as [Hin | Hout]; [split; [done |]; split; [done | set_solver] |].
        destruct (drop_peer_ok N p addr c Hinv Hc) as (H1 & H2 & H3). split; [done |]. split; [done |]. rewrite H3. set_solver.
      - apply not_elem_of_dom in Hc. split; [done |]. split; [done |]. set_solver. }
    destruct Hone as (H1 & H2 & H3). destruct (IH _ H1) as (H4 & H5 & H6). split; [done |]. split; [by etrans |]. rewrite H6, H3. simpl. set_solver.
Qed.

(** A resync leaves exactly the members of the snapshot, when all can be dialled. *)
Lemma fetch_ok `{KeyOrder} N p resp :
  picker_inv N p -> (forall kvs, resp = Ok kvs -> Forall (fun kv => key_within (svcName p) N kv.1) kvs) ->
  exists p' x, fetchAllServices p resp = Ret (p', x) /\ picker_inv N p' /\ same_node p p'
    /\ forall kvs, resp = Ok kvs -> Forall (fun kv => kv.2 = true) kvs -> dom (clients p') = remote p kvs.
Proof.
  intros Hinv Hk. destruct resp as [kvs | e]; simpl; [| eexists _, _; split; [done |]; split; [done |]; split; done].
  destruct (fetch_loop_ok N kvs p ∅ Hinv (Hk kvs eq_refl)) as (p1 & -> & Hinv1 & Hs1 & Hall & _). cbn [obind].
  destruct (reconcile_ok N (∅ ∪ remote p kvs) (range_set (dom (clients p1))) p1 Hinv1) as (H1 & H2 & H3).
  eexists _, _. split; [done |]. split; [done |]. split; [by etrans |]. intros kvs' [= <-] Hd. rewrite H3. specialize (Hall Hd).
  assert (Hr : list_to_set (range_set (dom (clients p1))) = dom (clients p1)).
  { apply set_eq. intros x. by rewrite elem_of_list_to_set, range_set_perm, elem_of_elements. }
  rewrite Hr. clear -Hall. revert Hall. generalize (dom (clients p1)) (remote p kvs). intros d r Hall.
  apply set_eq. intros x. rewrite !elem_of_difference, elem_of_union. specialize (Hall x). destruct (decide (x ∈ r)); naive_solver set_solver.
Qed.

(** ** Picking *)

(** Where [PickPeer] sends [key] when [owner] owns it. *)
Definition routes (p : ClientPicker) (key owner : string) : Prop :=
  exists p', PickPeer p key = Ret (p', if decide (owner = selfAddr p) then (None, true, true) else (clients p !! owner, true, false))
    /\ (owner <> selfAddr p -> exists c, clients p !! owner = Some c /\ c ∉ closedClients p).

Lemma ring_not_empty N p : picker_inv N p -> keys (consHash p) <> [].
Proof.
  intros Hinv He. assert (Hs : selfAddr p ∈ members (consHash p)) by (rewrite (pi_members _ _ Hinv); set_solver).
  pose proof (pi_full _ _ Hinv (selfAddr p) (HashFunc (config (consHash p)) (vnode (selfAddr p) 0)) Hs) as [_ Hx].
  assert (Hin : HashFunc (config (consHash p)) (vnode (selfAddr p) 0) ∈ keys (consHash p)).
  { apply (wf_keys _ (proj1 (pi_ring _ _ Hinv))). exists (selfAddr p). apply Hx. exists 0. pose proof (pi_replicas _ _ Hinv). split; [lia | done]. }
  rewrite He in Hin. by apply not_elem_of_nil in Hin.
Qed.

Lemma PickPeer_routes N p key owner :
  picker_inv N p -> owns (consHash p) key owner -> owner ∈ members (consHash p) -> routes p key owner.
Proof.
  intros Hinv [m' Hg] Hm. unfold routes, PickPeer. rewrite Hg. cbn [obind]. pose proof (member_named _ _ (pi_ring _ _ Hinv) Hm) as Hne.
  rewrite (decide_False (P := owner = EmptyString)) by done. simpl. destruct (decide (owner = selfAddr p)) as [Hself | Hns].
  - eexists. split; [done |]. done.
  - rewrite (pi_members _ _ Hinv) in Hm. assert (Hd : owner ∈ dom (clients p)) by set_solver. apply elem_of_dom in Hd as [c Hc]. rewrite Hc.
    eexists. split; [done |]. intros _. exists c. split; [done |]. by apply (pi_open _ _ Hinv owner).
Qed.

Lemma pick_ok N p key : picker_inv N p -> exists p' r, PickPeer p key = Ret (p', r) /\ picker_inv N p' /\ same_node p p'.
Proof.
  intros Hinv. unfold PickPeer. destruct (Get_cases (consHash p) key (pi_ring _ _ Hinv)) as [[-> _] | (_ & _ & k & nd & _ & _ & ->)]; cbn [obind].
  - rewrite decide_True by done. eexists _, _. split; [done |]. destruct Hinv. split; [by constructor | done].
  - assert (Hb : picker_inv N (p <| consHash := bump (consHash p) nd |>)).
    { destruct Hinv. constructor; simpl; try done. by apply bump_ok. }
    simpl. destruct (decide (nd = EmptyString)); [| destruct (decide (nd = selfAddr p)); [| destruct (clients p !! nd)]];
      eexists _, _; (split; [done |]); (split; [done |]); by repeat split.
Qed.

(** ** Runs *)

Definition call_within (svc : string) (N : gset string) (c : picker_call) : Prop :=
  match c with
  | PWatch es => Forall (fun e => key_within svc N (event_key e)) es
  | PFetch (Ok kvs) => Forall (fun kv => key_within svc N kv.1) kvs
  | _ => True
  end.

Lemma picker_step_ok `{KeyOrder} N p c :
  picker_inv N p -> call_within (svcName p) N c -> exists p', picker_step c p = Ret p' /\ picker_inv N p' /\ same_node p p'.
Proof.
  intros Hinv Hc. destruct c as [es | resp | key]; simpl.
  - by apply handleWatchEvents_ok.
  - destruct (fetch_ok N p resp Hinv) as (p' & x & -> & Hinv' & Hs & _); [intros kvs ->; done |]. simpl. eauto.
  - destruct (pick_ok N p key Hinv) as (p' & r & -> & Hinv' & Hs). simpl. eauto.
Qed.

Lemma picker_run_ok `{KeyOrder} N cs p :
  picker_inv N p -> Forall (call_within (svcName p) N) cs -> exists p', picker_run cs p = Ret p' /\ picker_inv N p' /\ same_node p p'.
Proof.
  unfold picker_run. revert p. induction cs as [| c cs IH]; intros p Hinv Hcs; cbn [ofold]; [exists p; done |].
  apply Forall_cons in Hcs as [Hc Hcs]. destruct (picker_step_ok N p c Hinv Hc) as (p1 & -> & Hinv1 & Hs1). cbn [obind].
  destruct (IH p1 Hinv1) as (p2 & -> & Hinv2 & Hs2); [by rewrite (proj1 (proj2 Hs1)) |]. exists p2. split; [done |]. split; [done | by etrans].
Qed.

Lemma NewClientPicker_ok cfg svc addr N :
  1 <= DefaultReplicas cfg -> collision_free cfg N -> addr ∈ N -> addr <> EmptyString ->
  exists p, NewClientPicker cfg svc addr = Ret p /\ picker_inv N p /\ selfAddr p = addr /\ svcName p = svc /\ config (consHash p) = cfg.
Proof.
  intros Hr Hc Ha Hne. destruct (NewConsistentHash_ok cfg) as [Hok Hf].
  assert (Hm0 : members (NewConsistentHash cfg) = ∅) by (unfold members; simpl; apply dom_empty_L).
  destruct (Add_one_spec (NewConsistentHash cfg) N addr Hok) as (m' & Hadd & Hok' & Hf' & Hcfg & Hm); [simpl; lia | done | done | set_solver | done | done |].
  unfold NewClientPicker. rewrite Hadd. cbn [obind fst]. eexists. split; [done |]. split; [| by repeat split].
  constructor; simpl; rewrite ?Hcfg, ?dom_empty_L; try done; try set_solver.
Qed.

(** A node's life: started, any calls, then a resync in which it reaches
    everyone. *)
Definition node_life (o : KeyOrder) (cfg : ConHashConfig) (svc addr : string) (cs : list picker_call) (registered : list string) : outcome ClientPicker :=
  let! p := NewClientPicker cfg svc addr in
  let! p := picker_run cs p in
  picker_step (PFetch (Ok ((fun key => (key, true)) <$> registered))) p.

(** The members that keys in the registry name. *)
Definition registered_members (svc : string) (registered : list string) : gset string :=
  list_to_set (addr_of svc <$> registered) ∖ {[EmptyString]}.

Lemma node_life_ok o cfg svc addr cs registered N :
  1 <= DefaultReplicas cfg -> collision_free cfg N -> registered_members svc registered ⊆ N -> Forall (call_within svc N) cs ->
  addr ∈ registered_members svc registered ->
  exists p, node_life o cfg svc addr cs registered = Ret p /\ picker_inv N p /\ selfAddr p = addr
    /\ config (consHash p) = cfg /\ members (consHash p) = registered_members svc registered.
Proof.
  intros Hr Hc Hsub Hcs Ha. assert (Hne : addr <> EmptyString) by (unfold registered_members in Ha; set_solver).
  destruct (NewClientPicker_ok cfg svc addr N Hr Hc ltac:(set_solver) Hne) as (p0 & H0 & Hinv0 & Hself & Hsvc & Hcfg).
  unfold node_life. rewrite H0. cbn [obind]. destruct (picker_run_ok N cs p0 Hinv0) as (p1 & -> & Hinv1 & Hs1); [by rewrite Hsvc |]. cbn [obind].
  destruct Hs1 as (E1 & E2 & E3). cbn [picker_step].
  destruct (fetch_ok N p1 (Ok ((fun key => (key, true)) <$> registered)) Hinv1) as (p2 & x & -> & Hinv2 & (F1 & F2 & F3) & Hdom).
  { intros kvs [= <-]. apply Forall_fmap, Forall_forall. intros key Hkey. simpl. unfold key_within. rewrite E2, Hsvc.
    destruct (decide (addr_of svc key = EmptyString)); [by left | right]. apply Hsub. unfold registered_members.
    apply elem_of_difference. split; [| set_solver]. apply elem_of_list_to_set, list_elem_of_fmap. eauto. }
  cbn [obind fst]. exists p2. split; [done |]. split; [done |]. split; [congruence |]. split; [congruence |].
  rewrite (pi_members _ _ Hinv2), (Hdom _ eq_refl) by (apply Forall_fmap, Forall_forall; done).
  assert (Hfst : ((fun key => (key, true)) <$> registered).*1 = registered) by (clear; induction registered as [| k l IH]; [done | rewrite !fmap_cons, IH; done]).
  unfold remote. rewrite Hfst, F1, E1, E2, Hsvc, Hself.
  unfold registered_members in *. apply set_eq. intros z. destruct (decide (z = addr)); set_solver.
Qed.

(** Nodes agree on who owns a key. Whatever each of two nodes saw before
    (events, failed dials, resyncs, lookups, in any order), once both have read
    the same registrations and reached everyone, there is one member that owns
    the key: each node answers it itself if it is that member, and otherwise
    has an open client to it. *)
Theorem nodes_agree_on_owner (o1 o2 : KeyOrder) cfg svc N registered a1 a2 cs1 cs2 key :
  1 <= DefaultReplicas cfg -> collision_free cfg N -> registered_members svc registered ⊆ N ->
  Forall (call_within svc N) (cs1 ++ cs2) ->
  a1 ∈ registered_members svc registered -> a2 ∈ registered_members svc registered -> key <> EmptyString ->
  exists p1 p2 owner, node_life o1 cfg svc a1 cs1 registered = Ret p1 /\ node_life o2 cfg svc a2 cs2 registered = Ret p2
    /\ owner ∈ registered_members svc registered /\ selfAddr p1 = a1 /\ selfAddr p2 = a2
    /\ routes p1 key owner /\ routes p2 key owner.
Proof.
  intros Hr Hc Hsub [Hcs1 Hcs2]%Forall_app Ha1 Ha2 Hkey.
  destruct (node_life_ok o1 cfg svc a1 cs1 registered N Hr Hc Hsub Hcs1 Ha1) as (p1 & Hp1 & Hinv1 & Hself1 & Hcfg1 & Hm1).
  destruct (node_life_ok o2 cfg svc a2 cs2 registered N Hr Hc Hsub Hcs2 Ha2) as (p2 & Hp2 & Hinv2 & Hself2 & Hcfg2 & Hm2).
  destruct (owns_total (consHash p1) key (pi_ring _ _ Hinv1) Hkey (ring_not_empty _ _ Hinv1)) as (owner & Hown & Hmem).
  exists p1, p2, owner. split; [done |]. split; [done |]. split; [by rewrite <- Hm1 |]. split; [done |]. split; [done |].
  split; [by apply (PickPeer_routes N) |]. apply (PickPeer_routes N); [done | | by rewrite Hm2, <- Hm1].
  apply (same_map_owns (consHash p1) (consHash p2)); [apply Hinv1 | apply Hinv2 | congruence | | done].
  apply full_same_map; [apply Hinv1 | apply Hinv2 | apply Hinv1 | apply Hinv2 | congruence | congruence].
Qed.

(** ** Witness: two nodes, one of which had first failed to reach the other *)

Definition sample_registered : list string := ["/services/s/a"; "/services/s/bb"]%string.

Lemma sample_free : collision_free sample_config {["a"; "bb"]}%string.
Proof.
  intros a b i j Ha Hb Hi Hj. simpl in Hi, Hj. assert (i = 0) as -> by lia. assert (j = 0) as -> by lia.
  assert (Ha' : a = "a"%string \/ a = "bb"%string) by set_solver. assert (Hb' : b = "a"%string \/ b = "bb"%string) by set_solver.
  destruct Ha' as [-> | ->], Hb' as [-> | ->]; vm_compute; congruence.
Qed.

Lemma sample_registered_members : registered_members "s" sample_registered = {["a"; "bb"]}%string.
Proof. unfold registered_members, sample_registered. simpl. unfold addr_of. simpl. set_solver. Qed.

Lemma nodes_agree_on_owner_witness :
  exists p1 p2 owner,
    node_life canonical_keys sample_config "s" "a" [PWatch [EventPut "/services/s/bb" false]; PPick "key!"] sample_registered = Ret p1
    /\ node_life canonical_keys sample_config "s" "bb" [] sample_registered = Ret p2
    /\ routes p1 "key!" owner /\ routes p2 "key!" owner.
Proof.
  destruct (nodes_agree_on_owner canonical_keys canonical_keys sample_config "s" {["a"; "bb"]}%string sample_registered "a" "bb"
    [PWatch [EventPut "/services/s/bb" false]; PPick "key!"] [] "key!") as (p1 & p2 & owner & H1 & H2 & _ & _ & _ & H3 & H4).
  - simpl. lia.
  - exact sample_free.
  - rewrite sample_registered_members. set_solver.
  - constructor; [constructor; [right | constructor] | constructor; [exact I | constructor]]. change (addr_of "s" (event_key (EventPut "/services/s/bb" false))) with "bb"%string. set_solver.
  - rewrite sample_registered_members. set_solver.
  - rewrite sample_registered_members. set_solver.
  - discriminate.
  - exists p1, p2, owner. exact (conj H1 (conj H2 (conj H3 H4))).
Defined.
