(* ===== verification/CacheGroup.v ===== *)
(** * CacheGroup
    The cache wrapper ([swifty_cache/cache.go]), the suppression of duplicate
    loads ([single_flight.go]) and the group ([group.go]) above them.

    The store is the interface of [store.go]: a class of operations, with the
    laws the wrapper relies on. Each method of the wrapper takes its lock once
    and is one step. A call of [Group.Get] is a program counter between its
    accesses to the cache, the flights, the peers and the getter; any number of
    calls interleave. What peers and the getter answer, and what [PickPeer]
    picks, are the answers of the steps. *)
From S2P Require Import Prelude LruCache.

(** ** Store *)

Record CacheOptions := mkCacheOptions {
  oMaxBytes : Z;
  oBucketCount : Z;
  oCapPerBucket : Z;
  oLevel2Cap : Z;
}.

Definition DefaultCacheOptions : CacheOptions := mkCacheOptions (8 * 1024 * 1024) 16 512 256.

Class Store (S : Type) := {
  st_new : CacheOptions -> outcome S;
  st_Get : Z -> S -> string -> outcome (S * option ByteView);
  st_Set : Z -> S -> string -> ByteView -> outcome S;
  st_SetWithExpiration : Z -> S -> string -> ByteView -> Z -> outcome S;
  st_Delete : S -> string -> outcome (S * bool);
  st_Clear : S -> outcome S;
  st_Len : S -> outcome Z;
}.

(** [keeps P s]: the store is well formed and holds only pairs that satisfy
    [P]; [fits] says what it can take. No operation panics, and nothing is read
    that was not written under that key. *)
Class StoreSpec (S : Type) `{Store S} := {
  keeps : (string -> ByteView -> Prop) -> S -> Prop;
  fits : Z -> string -> ByteView -> Z -> Prop;
  options_ok : CacheOptions -> Prop;
  weaken_law (P Q : string -> ByteView -> Prop) s : (forall k v, P k v -> Q k v) -> keeps P s -> keeps Q s;
  new_law opts : options_ok opts -> exists s, st_new opts = Ret s /\ keeps (fun _ _ => False) s;
  get_law P now s k : keeps P s -> exists s' r, st_Get now s k = Ret (s', r) /\ keeps P s' /\ forall v, r = Some v -> P k v;
  set_law (P : string -> ByteView -> Prop) now s k v : keeps P s -> fits now k v 0 -> P k v ->
    exists s', st_Set now s k v = Ret s' /\ keeps P s';
  set_exp_law (P : string -> ByteView -> Prop) now s k v e : keeps P s -> fits now k v e -> P k v ->
    exists s', st_SetWithExpiration now s k v e = Ret s' /\ keeps P s';
  delete_law P s k : keeps P s -> exists s' b, st_Delete s k = Ret (s', b) /\ keeps P s';
  clear_law P s : keeps P s -> exists s', st_Clear s = Ret s' /\ keeps P s';
  len_law P s : keeps P s -> exists n, st_Len s = Ret n;
}.

Section Group.
Context {S : Type} `{Store S}.

(** ** cache.go *)

Record Cache := mkCache {
  cStore : option S;
  cOpts : CacheOptions;
  cHits : Z;
  cMisses : Z;
  cInitialized : bool;
  cClosed : bool;
}.
#[export] Instance Cache_eta : Eta Cache := fun c => mkCache (cStore c) (cOpts c) (cHits c) (cMisses c) (cInitialized c) (cClosed c).

Definition NewCache (opts : CacheOptions) : Cache := mkCache None opts 0 0 false false.

Definition ensureInitialized (c : Cache) : outcome Cache :=
  if cInitialized c then Ret c
  else if cClosed c then Ret c
  else let! s := st_new (cOpts c) in Ret (c <| cStore := Some s |> <| cInitialized := true |>).

Definition Cache_Add (now : Z) (c : Cache) (key : string) (v : ByteView) : outcome Cache :=
  if cClosed c then Ret c else
  let! c := ensureInitialized c in
  match cStore c with
  | None => Ret c
  | Some s => let! s := st_Set now s key v in Ret (c <| cStore := Some s |>)
  end.

(** [ttl] is the time left until the expiration, [time.Until]. *)
Definition Cache_AddWithExpiration (now : Z) (c : Cache) (key : string) (v : ByteView) (ttl : Z) : outcome Cache :=
  if cClosed c then Ret c else
  if decide (ttl <= 0) then Ret c else
  let! c := ensureInitialized c in
  match cStore c with
  | None => Ret c
  | Some s => let! s := st_SetWithExpiration now s key v ttl in Ret (c <| cStore := Some s |>)
  end.

Definition Cache_Get (now : Z) (c : Cache) (key : string) : outcome (Cache * option ByteView) :=
  if cClosed c then Ret (c, None) else
  let miss := c <| cMisses := i64 (cMisses c + 1) |> in
  if negb (cInitialized c) then Ret (miss, None) else
  match cStore c with
  | None => Ret (miss, None)
  | Some s =>
      let! r := st_Get now s key in
      match r with
      | (s, None) => Ret (miss <| cStore := Some s |>, None)
      | (s, Some v) => Ret (c <| cHits := i64 (cHits c + 1) |> <| cStore := Some s |>, Some v)
      end
  end.

Definition Cache_Delete (c : Cache) (key : string) : outcome (Cache * bool) :=
  if cClosed c || negb (cInitialized c) then Ret (c, false) else
  match cStore c with
  | None => Ret (c, false)
  | Some s => let! r := st_Delete s key in Ret (c <| cStore := Some r.1 |>, r.2)
  end.

Definition Cache_Clear (c : Cache) : outcome Cache :=
  if cClosed c || negb (cInitialized c) then Ret c else
  match cStore c with
  | None => Ret c
  | Some s => let! s := st_Clear s in Ret (c <| cStore := Some s |> <| cHits := 0 |> <| cMisses := 0 |>)
  end.

Definition Cache_Len (c : Cache) : outcome Z :=
  if cClosed c || negb (cInitialized c) then Ret 0 else
  match cStore c with None => Ret 0 | Some s => st_Len s end.

Definition Cache_Close (c : Cache) : Cache :=
  if cClosed c then c else c <| cClosed := true |> <| cStore := None |> <| cInitialized := false |>.

(** ** group.go and single_flight.go *)

Record groupStats := mkStats {
  gets : Z; loads : Z; loadsDeduped : Z; localHits : Z; localMisses : Z;
  peerHits : Z; peerMisses : Z; loaderHits : Z; loaderErrors : Z;
}.
#[export] Instance stats_eta : Eta groupStats := fun s =>
  mkStats (gets s) (loads s) (loadsDeduped s) (localHits s) (localMisses s) (peerHits s) (peerMisses s) (loaderHits s) (loaderErrors s).

(** [flights] is the [sync.Map] of [SingleFlightGroup], [results] the [call]
    objects that are done. *)
Record Group := mkGroup {
  mainCache : Cache;
  peers : bool;
  expiration : Z;
  gClosed : bool;
  flights : gmap string Z;
  results : gmap Z (result string ByteView);
  nextCall : Z;
  stats : groupStats;
}.
#[export] Instance Group_eta : Eta Group := fun g =>
  mkGroup (mainCache g) (peers g) (expiration g) (gClosed g) (flights g) (results g) (nextCall g) (stats g).

Definition NewGroup (opts : CacheOptions) (expiration : Z) (peers : bool) : Group :=
  mkGroup (NewCache opts) peers expiration false ∅ ∅ 0 (mkStats 0 0 0 0 0 0 0 0 0).

Definition ErrKeyRequired : string := "key is required".
Definition ErrValueRequired : string := "value is required".
Definition ErrGroupClosed : string := "cache group is closed".

(** [if g.expiration > 0 { AddWithExpiration } else { Add }] *)
Definition store_value (now : Z) (g : Group) (key : string) (v : ByteView) : outcome Group :=
  let! c := (if decide (0 < expiration g) then Cache_AddWithExpiration now (mainCache g) key v (expiration g)
             else Cache_Add now (mainCache g) key v) in
  Ret (g <| mainCache := c |>).

(** Requests to keep a peer in step: [syncToPeers] runs in its own goroutine. *)
Definition wants_sync (g : Group) (from_peer : bool) : bool := negb from_peer && peers g.

Inductive sync_op := SyncSet (value : bytes) | SyncDelete.

(** The request that [syncToPeers] sends, given what [PickPeer] picked. *)
Definition syncToPeers (pick : option Z * bool * bool) (op : sync_op) (key : string) : option (Z * string * sync_op) :=
  let '(peer, ok, isSelf) := pick in
  if negb ok || isSelf then None else client ← peer; Some (client, key, op).

Definition Group_Set (now : Z) (g : Group) (from_peer : bool) (key : string) (value : bytes) : outcome (Group * option string * bool) :=
  if gClosed g then Ret (g, Some ErrGroupClosed, false) else
  if decide (key = EmptyString) then Ret (g, Some ErrKeyRequired, false) else
  if decide (zlen value = 0) then Ret (g, Some ErrValueRequired, false) else
  let! g := store_value now g key (mkByteView value) in
  Ret (g, None, wants_sync g from_peer).

Definition Group_Delete (g : Group) (from_peer : bool) (key : string) : outcome (Group * option string * bool) :=
  if gClosed g then Ret (g, Some ErrGroupClosed, false) else
  if decide (key = EmptyString) then Ret (g, Some ErrKeyRequired, false) else
  let! r := Cache_Delete (mainCache g) key in
  Ret (g <| mainCache := r.1 |>, None, wants_sync g from_peer).

Definition Group_Clear (g : Group) : outcome Group :=
  if gClosed g then Ret g else
  let! c := Cache_Clear (mainCache g) in Ret (g <| mainCache := c |>).

Definition Group_Close (g : Group) : Group :=
  if gClosed g then g else g <| gClosed := true |> <| mainCache := Cache_Close (mainCache g) |>.

(** [RegisterPeers] may be called once. *)
Definition RegisterPeers (g : Group) : outcome Group :=
  if peers g then Panic "RegisterPeers called more than once" else Ret (g <| peers := true |>).

(** A call of [Get]: where it is, for which key, and whether a peer sent it. *)
Inductive pc :=
| GStart
| GCache
| GFlight
| GWait (id : Z)
| GRecheck (id : Z)
| GPick (id : Z)
| GPeer (id : Z)
| GGetter (id : Z)
| GAdd (id : Z) (v : ByteView)
| GFinish (id : Z) (r : result string ByteView)
| GForget (id : Z) (r : result string ByteView)
| GReturn (r : result string ByteView)
| GDone (r : result string ByteView).

Record caller := mkCaller { key : string; from_peer : bool; at_pc : pc }.

Inductive answer :=
| AGo
| ARemote
| AValue (b : bytes)
| AErr (e : string)
| APanic (e : string).

Definition bump (f : groupStats -> groupStats) (g : Group) : Group := g <| stats := f (stats g) |>.

Definition call_panic (e : string) : result string ByteView := Err ("singleflight: panic during call: " ++ e)%string.

(** [Get], up to its look into the cache and from there to [load]. *)
Definition Get_enter (g : Group) (key : string) : Group * pc :=
  if gClosed g then (g, GDone (Err ErrGroupClosed)) else
  if decide (key = EmptyString) then (g, GDone (Err ErrKeyRequired)) else
  (bump (fun s => s <| gets := i64 (gets s + 1) |>) g, GCache).

Definition Get_cached (now : Z) (g : Group) (key : string) : outcome (Group * pc) :=
  let! r := Cache_Get now (mainCache g) key in
  let g := g <| mainCache := r.1 |> in
  match r.2 with
  | Some v => Ret (bump (fun s => s <| localHits := i64 (localHits s + 1) |>) g, GDone (Ok v))
  | None => Ret (bump (fun s => s <| localMisses := i64 (localMisses s + 1) |>) g, GFlight)
  end.

(** [Do]: [LoadOrStore], and the two deferred calls, [wg.Done] and [Delete]. *)
Definition Do_enter (g : Group) (key : string) : Group * pc :=
  match flights g !! key with
  | Some id => (g, GWait id)
  | None =>
      let id := nextCall g in
      (g <| flights := <[key := id]> (flights g) |> <| nextCall := id + 1 |>, GRecheck id)
  end.
Definition Do_done (g : Group) (id : Z) (r : result string ByteView) : Group := g <| results := <[id := r]> (results g) |>.
Definition Do_forget (g : Group) (key : string) : Group := g <| flights := delete key (flights g) |>.

(** [load] after [Do]. *)
Definition load_end (g : Group) (r : result string ByteView) : Group :=
  let g := bump (fun s => s <| loads := i64 (loads s + 1) |>) g in
  match r with Err _ => bump (fun s => s <| loaderErrors := i64 (loaderErrors s + 1) |>) g | Ok _ => g end.

(** The rest is the function [load] hands to [Do], with [loadData] and
    [getFromPeer]. *)
Definition get_step (now : Z) (g : Group) (t : caller) (a : answer) : outcome (Group * pc) :=
  match at_pc t, a with
  | GStart, _ => Ret (Get_enter g (key t))
  | GCache, _ => Get_cached now g (key t)
  | GFlight, _ => Ret (Do_enter g (key t))
  | GWait id, _ =>
      match results g !! id with Some r => Ret (g, GReturn r) | None => Ret (g, GWait id) end
  | GRecheck id, _ =>
      let! r := Cache_Get now (mainCache g) (key t) in
      let g := g <| mainCache := r.1 |> in
      match r.2 with
      | Some v => Ret (g, GFinish id (Ok v))
      | None =>
          Ret (bump (fun s => s <| loadsDeduped := i64 (loadsDeduped s + 1) |>) g,
               if peers g && negb (from_peer t) then GPick id else GGetter id)
      end
  | GPick id, ARemote => Ret (g, GPeer id)
  | GPick id, AGo => Ret (g, GGetter id)
  | GPick id, APanic e => Ret (g, GFinish id (call_panic e))
  | GPeer id, AValue b => Ret (bump (fun s => s <| peerHits := i64 (peerHits s + 1) |>) g, GAdd id (mkByteView b))
  | GPeer id, AErr _ => Ret (bump (fun s => s <| peerMisses := i64 (peerMisses s + 1) |>) g, GGetter id)
  | GPeer id, APanic e => Ret (g, GFinish id (call_panic e))
  | GGetter id, AValue b => Ret (bump (fun s => s <| loaderHits := i64 (loaderHits s + 1) |>) g, GAdd id (mkByteView b))
  | GGetter id, AErr e => Ret (g, GFinish id (Err ("failed to get data: " ++ e)%string))
  | GGetter id, APanic e => Ret (g, GFinish id (call_panic e))
  | GAdd id v, _ => let! g := store_value now g (key t) v in Ret (g, GFinish id (Ok v))
  | GFinish id r, _ => Ret (Do_done g id r, GForget id r)
  | GForget id r, _ => Ret (Do_forget g (key t), GReturn r)
  | GReturn r, _ => Ret (load_end g r, GDone r)
  | at_, _ => Ret (g, at_)
  end.

(** ** Runs
    [supplied] lists what callers of [Set], peers and the getter provided. *)

Record system := mkSystem {
  sGroup : Group;
  sCallers : list caller;
  supplied : list (string * ByteView);
}.

Inductive event :=
| EGet (key : string) (from_peer : bool)
| EStep (i : nat) (now : Z) (a : answer)
| ESet (now : Z) (from_peer : bool) (key : string) (value : bytes)
| EDelete (from_peer : bool) (key : string)
| EClear
| EClose.

Definition provided (t : caller) (a : answer) : list (string * ByteView) :=
  match at_pc t, a with
  | GPeer _, AValue b | GGetter _, AValue b => [(key t, mkByteView b)]
  | _, _ => []
  end.

Definition sys_step (x : system) (e : event) : outcome system :=
  match e with
  | EGet k fp => Ret (mkSystem (sGroup x) (sCallers x ++ [mkCaller k fp GStart]) (supplied x))
  | EStep i now a =>
      match sCallers x !! i with
      | None => Ret x
      | Some t =>
          let! r := get_step now (sGroup x) t a in
          Ret (mkSystem r.1 (<[i := mkCaller (key t) (from_peer t) r.2]> (sCallers x)) (provided t a ++ supplied x))
      end
  | ESet now fp k value =>
      let! r := Group_Set now (sGroup x) fp k value in
      let '(g, _, _) := r in
      Ret (mkSystem g (sCallers x) ((k, mkByteView value) :: supplied x))
  | EDelete fp k =>
      let! r := Group_Delete (sGroup x) fp k in
      let '(g, _, _) := r in Ret (mkSystem g (sCallers x) (supplied x))
  | EClear => let! g := Group_Clear (sGroup x) in Ret (mkSystem g (sCallers x) (supplied x))
  | EClose => Ret (mkSystem (Group_Close (sGroup x)) (sCallers x) (supplied x))
  end.

Definition sys_run (x : system) (es : list event) : outcome system := ofold (fun e x => sys_step x e) es x.

End Group.
Arguments Cache : clear implicits.
Arguments Group : clear implicits.
Arguments system : clear implicits.
