(* ===== verification/CacheGroupTheorems.v ===== *)
(** * CacheGroupTheorems
    Concurrent misses of a key share one load, and nothing is returned for a
    key that was not supplied for it. *)
From S2P Require Import Prelude LruCache CacheGroup.

Section Theorems.
Context {S : Type} `{HS : Store S} `{!StoreSpec S}.

(** ** The cache wrapper *)

Abbreviation among supply := (fun k v => (k, v) ∈ supply).

Record cache_inv (supply : list (string * ByteView)) (c : Cache S) : Prop := {
  ch_store : forall s, cStore c = Some s -> keeps (among supply) s;
  ch_options : options_ok (cOpts c);
}.

Lemma cache_inv_more supply supply' c : (forall pr, pr ∈ supply -> pr ∈ supply') -> cache_inv supply c -> cache_inv supply' c.
Proof. intros Hsub [Hs Ho]. constructor; [| done]. intros s Hc. eapply weaken_law; [| by apply Hs]. simpl. auto. Qed.

Lemma cache_inv_cons supply pr c : cache_inv supply c -> cache_inv (pr :: supply) c.
Proof. apply cache_inv_more. intros q Hq. by right. Qed.

Lemma ensure_ok supply c : cache_inv supply c -> exists c', ensureInitialized c = Ret c' /\ cache_inv supply c'.
Proof.
  intros Hinv. unfold ensureInitialized. destruct (cInitialized c); [eauto |]. destruct (cClosed c); [eauto |].
  destruct (new_law (cOpts c) (ch_options _ _ Hinv)) as (s & -> & Hg). cbn [obind]. eexists. split; [done |].
  constructor; simpl; [| apply Hinv]. intros s' [= <-]. eapply weaken_law; [| exact Hg]. done.
Qed.

Lemma with_store supply c s : cache_inv supply c -> keeps (among supply) s -> cache_inv supply (c <| cStore := Some s |>).
Proof. intros Hinv Hg. constructor; simpl; [| apply Hinv]. by intros s' [= <-]. Qed.

Lemma Cache_Add_ok supply now c k v :
  cache_inv supply c -> fits now k v 0 -> exists c', Cache_Add now c k v = Ret c' /\ cache_inv ((k, v) :: supply) c'.
Proof.
  intros Hinv%(cache_inv_cons _ (k, v)) Hf. unfold Cache_Add. destruct (cClosed c); [eauto |].
  destruct (ensure_ok _ c Hinv) as (c1 & -> & Hinv1). cbn [obind]. destruct (cStore c1) as [s |] eqn:Hs; [| eauto].
  destruct (set_law _ now s k v (ch_store _ _ Hinv1 s Hs) Hf) as (s' & -> & Hg'); [by left |]. cbn [obind].
  eexists. split; [done |]. by apply with_store.
Qed.

Lemma Cache_AddWithExpiration_ok supply now c k v ttl :
  cache_inv supply c -> fits now k v ttl -> exists c', Cache_AddWithExpiration now c k v ttl = Ret c' /\ cache_inv ((k, v) :: supply) c'.
Proof.
  intros Hinv%(cache_inv_cons _ (k, v)) Hf. unfold Cache_AddWithExpiration. destruct (cClosed c); [eauto |]. destruct (decide (ttl <= 0)); [eauto |].
  destruct (ensure_ok _ c Hinv) as (c1 & -> & Hinv1). cbn [obind]. destruct (cStore c1) as [s |] eqn:Hs; [| eauto].
  destruct (set_exp_law _ now s k v ttl (ch_store _ _ Hinv1 s Hs) Hf) as (s' & -> & Hg'); [by left |]. cbn [obind].
  eexists. split; [done |]. by apply with_store.
Qed.

Lemma Cache_Get_ok supply now c k :
  cache_inv supply c -> exists c' r, Cache_Get now c k = Ret (c', r) /\ cache_inv supply c' /\ forall v, r = Some v -> (k, v) ∈ supply.
Proof.
  intros Hinv. unfold Cache_Get. destruct (cClosed c); [eexists _, _; split; [done |]; done |].
  destruct (cInitialized c); simpl; [| eexists _, _; split; [done |]; split; [by destruct Hinv; constructor | done]].
  destruct (cStore c) as [s |] eqn:Hs; [| eexists _, _; split; [done |]; split; [destruct Hinv as [Hx Ho]; constructor; [exact Hx | exact Ho] | done]].
  destruct (get_law _ now s k (ch_store _ _ Hinv s Hs)) as (s' & r & -> & Hg' & Hr). cbn [obind].
  destruct r as [v |]; eexists _, _; (split; [done |]); (split; [| by auto]); (constructor; simpl; [by intros s1 [= <-] | apply Hinv]).
Qed.

Lemma Cache_Delete_ok supply c k : cache_inv supply c -> exists c' b, Cache_Delete c k = Ret (c', b) /\ cache_inv supply c'.
Proof.
  intros Hinv. unfold Cache_Delete. destruct (cClosed c || negb (cInitialized c)); [eauto |]. destruct (cStore c) as [s |] eqn:Hs; [| eauto].
  destruct (delete_law _ s k (ch_store _ _ Hinv s Hs)) as (s' & b & -> & Hg'). cbn [obind]. eexists _, _. split; [done |]. by apply with_store.
Qed.

Lemma Cache_Clear_ok supply c : cache_inv supply c -> exists c', Cache_Clear c = Ret c' /\ cache_inv supply c'.
Proof.
  intros Hinv. unfold Cache_Clear. destruct (cClosed c || negb (cInitialized c)); [eauto |]. destruct (cStore c) as [s |] eqn:Hs; [| eauto].
  destruct (clear_law _ s (ch_store _ _ Hinv s Hs)) as (s' & -> & Hg'). cbn [obind]. eexists. split; [done |].
  constructor; simpl; [by intros s1 [= <-] | apply Hinv].
Qed.

Lemma Cache_Close_ok supply c : cache_inv supply c -> cache_inv supply (Cache_Close c).
Proof. intros Hinv. unfold Cache_Close. destruct (cClosed c); [done |]. constructor; simpl; [done | apply Hinv]. Qed.

Lemma store_value_ok supply now g k v :
  cache_inv supply (mainCache g) -> fits now k v (Z.max 0 (expiration g)) ->
  exists c, store_value now g k v = Ret (g <| mainCache := c |>) /\ cache_inv ((k, v) :: supply) c.
Proof.
  intros Hinv Hf. unfold store_value. destruct (decide (0 < expiration g)).
  - rewrite Z.max_r in Hf by lia. destruct (Cache_AddWithExpiration_ok supply now _ k v _ Hinv Hf) as (c & -> & Hc). cbn [obind]. eauto.
  - rewrite Z.max_l in Hf by lia. destruct (Cache_Add_ok supply now _ k v Hinv Hf) as (c & -> & Hc). cbn [obind]. eauto.
Qed.
(** ** The flights *)

(** The flight a caller runs, and the one it has yet to finish. *)
Definition owns (q : pc) : option Z :=
  match q with
  | GRecheck id | GPick id | GPeer id | GGetter id | GAdd id _ | GFinish id _ | GForget id _ => Some id
  | _ => None
  end.
Definition unfinished (q : pc) : option Z := match q with GForget _ _ => None | _ => owns q end.

(** The value a caller is about to return. *)
Definition carries (q : pc) : option ByteView :=
  match q with
  | GAdd _ v | GFinish _ (Ok v) | GForget _ (Ok v) | GReturn (Ok v) | GDone (Ok v) => Some v
  | _ => None
  end.

Definition from_supply (supply : list (string * ByteView)) (k : string) (r : result string ByteView) : Prop :=
  forall v, r = Ok v -> (k, v) ∈ supply.

Context (time_ok : Z -> Prop) (pair_ok : string -> ByteView -> Prop) (ttl : Z).

Record sys_inv (x : system S) : Prop := {
  v_cache : cache_inv (supplied x) (mainCache (sGroup x));
  v_ttl : expiration (sGroup x) = ttl;
  v_pairs : forall k v, (k, v) ∈ supplied x -> pair_ok k v;
  v_values : forall i t v, sCallers x !! i = Some t -> carries (at_pc t) = Some v -> (key t, v) ∈ supplied x;
  v_owner : forall i t id, sCallers x !! i = Some t -> owns (at_pc t) = Some id -> flights (sGroup x) !! key t = Some id;
  v_owned : forall k id, flights (sGroup x) !! k = Some id ->
    id < nextCall (sGroup x) /\ exists i t, sCallers x !! i = Some t /\ owns (at_pc t) = Some id /\ key t = k;
  v_unique : forall i j t u id, sCallers x !! i = Some t -> sCallers x !! j = Some u ->
    owns (at_pc t) = Some id -> owns (at_pc u) = Some id -> i = j;
  v_waiter : forall i t id, sCallers x !! i = Some t -> at_pc t = GWait id ->
    (exists r, results (sGroup x) !! id = Some r /\ from_supply (supplied x) (key t) r) \/ flights (sGroup x) !! key t = Some id;
  v_open : forall i t id, sCallers x !! i = Some t -> unfinished (at_pc t) = Some id -> results (sGroup x) !! id = None;
  v_forget : forall i t id r, sCallers x !! i = Some t -> at_pc t = GForget id r -> results (sGroup x) !! id = Some r;
  v_results : forall id r, results (sGroup x) !! id = Some r -> id < nextCall (sGroup x);
}.

Lemma flights_inj x k k' id : sys_inv x -> flights (sGroup x) !! k = Some id -> flights (sGroup x) !! k' = Some id -> k = k'.
Proof.
  intros Hinv Hk Hk'. destruct (v_owned _ Hinv k id Hk) as (_ & i & t & Hi & Ho & <-).
  destruct (v_owned _ Hinv k' id Hk') as (_ & j & u & Hj & Ho' & <-). pose proof (v_unique _ Hinv i j t u id Hi Hj Ho Ho') as <-. congruence.
Qed.

(** The system after caller [i] moved to [q]. *)
Definition moved (x : system S) (i : nat) (t : caller) (g : Group S) (q : pc) (more : list (string * ByteView)) : system S :=
  mkSystem g (<[i := mkCaller (key t) (from_peer t) q]> (sCallers x)) (more ++ supplied x).

Lemma moved_cases (cs : list caller) i (t c : caller) j u :
  cs !! i = Some t -> <[i := c]> cs !! j = Some u -> (j = i /\ u = c) \/ (j <> i /\ cs !! j = Some u).
Proof.
  intros Hi Hj. destruct (decide (j = i)) as [-> | Hne].
  - rewrite list_lookup_insert_eq in Hj by (by eapply lookup_lt_Some). injection Hj as <-. auto.
  - rewrite list_lookup_insert_ne in Hj by done. auto.
Qed.

Lemma moved_self x i t g q more : sCallers x !! i = Some t -> sCallers (moved x i t g q more) !! i = Some (mkCaller (key t) (from_peer t) q).
Proof. intros Hi. apply list_lookup_insert_eq. by eapply lookup_lt_Some. Qed.

Lemma moved_other x i t g q more j : j <> i -> sCallers (moved x i t g q more) !! j = sCallers x !! j.
Proof. intros Hne. by apply list_lookup_insert_ne. Qed.

(** What is the same for every move. *)
Record move_ok (x : system S) (i : nat) (t : caller) (g : Group S) (q : pc) (more : list (string * ByteView)) : Prop := {
  mo_at : sCallers x !! i = Some t;
  mo_cache : cache_inv (more ++ supplied x) (mainCache g);
  mo_ttl : expiration g = ttl;
  mo_pairs : forall k v, (k, v) ∈ more -> pair_ok k v;
  mo_value : forall v, carries q = Some v -> (key t, v) ∈ more ++ supplied x;
}.

Ltac more_right := apply elem_of_app; right.

Lemma move_values x i t g q more :
  sys_inv x -> move_ok x i t g q more ->
  (forall k v, (k, v) ∈ more ++ supplied x -> pair_ok k v)
  /\ forall j u v, sCallers (moved x i t g q more) !! j = Some u -> carries (at_pc u) = Some v -> (key u, v) ∈ more ++ supplied x.
Proof.
  intros Hinv [Hat _ _ Hp Hv]. split.
  - intros k v [Hx | Hx]%elem_of_app; [by apply Hp | by apply (v_pairs _ Hinv)].
  - intros j u v Hj Hu. destruct (moved_cases _ _ _ _ _ _ Hat Hj) as [[-> ->] | [_ Hj']]; [by apply Hv |].
    more_right. by apply (v_values _ Hinv j).
Qed.

(** A move that leaves the flights alone. *)
Lemma local_move x i t g q more :
  sys_inv x -> move_ok x i t g q more ->
  flights g = flights (sGroup x) -> results g = results (sGroup x) -> nextCall g = nextCall (sGroup x) ->
  owns q = owns (at_pc t) -> unfinished q = unfinished (at_pc t) ->
  (forall id, q = GWait id -> flights (sGroup x) !! key t = Some id \/ at_pc t = GWait id) ->
  (forall id r, q = GForget id r -> at_pc t = q) ->
  sys_inv (moved x i t g q more).
Proof.
  intros Hinv Hmo Hf Hr Hn Ho Hu Hw Hg. destruct (move_values _ _ _ _ _ _ Hinv Hmo) as [Hpairs Hvals]. pose proof (mo_at _ _ _ _ _ _ Hmo) as Hat.
  assert (Hsame : forall j u, sCallers (moved x i t g q more) !! j = Some u ->
    exists u0, sCallers x !! j = Some u0 /\ key u0 = key u /\ owns (at_pc u) = owns (at_pc u0) /\ unfinished (at_pc u) = unfinished (at_pc u0)).
  { intros j u Hj. destruct (moved_cases _ _ _ _ _ _ Hat Hj) as [[-> ->] | [_ Hj']]; [exists t | exists u]; done. }
  constructor; cbn [sGroup supplied moved]; rewrite ?Hf, ?Hr, ?Hn; try done; try apply Hmo.
  - intros j u id Hj Hid. destruct (Hsame j u Hj) as (u0 & Hj0 & <- & Hou & _). rewrite Hou in Hid. by apply (v_owner _ Hinv j).
  - intros k id Hk. destruct (v_owned _ Hinv k id Hk) as (Hlt & j & u & Hj & Hid & Hku). split; [done |].
    destruct (decide (j = i)) as [-> | Hne].
    + eexists i, _. split; [by apply moved_self |]. simpl. rewrite Ho. rewrite Hat in Hj. injection Hj as ->. done.
    + exists j, u. by rewrite moved_other.
  - intros j j' u u' id Hj Hj' Hid Hid'. destruct (Hsame j u Hj) as (u0 & Hj0 & _ & Hou & _). destruct (Hsame j' u' Hj') as (u0' & Hj0' & _ & Hou' & _).
    rewrite Hou in Hid. rewrite Hou' in Hid'. by apply (v_unique _ Hinv j j' u0 u0' id).
  - intros j u id Hj Hid. destruct (moved_cases _ _ _ _ _ _ Hat Hj) as [[-> ->] | [_ Hj']].
    + simpl in *. destruct (Hw id Hid) as [Hx | Hx]; [by right |].
      destruct (v_waiter _ Hinv i t id Hat Hx) as [(r & Hres & Hsup) | Hfl]; [left | by right]. exists r. split; [done |]. intros v Hv. more_right. by apply Hsup.
    + destruct (v_waiter _ Hinv j u id Hj' Hid) as [(r & Hres & Hsup) | Hfl]; [left | by right]. exists r. split; [done |]. intros v Hv. more_right. by apply Hsup.
  - intros j u id Hj Hid. destruct (Hsame j u Hj) as (u0 & Hj0 & _ & _ & Hou). rewrite Hou in Hid. by apply (v_open _ Hinv j u0).
  - intros j u id r Hj Hid. destruct (moved_cases _ _ _ _ _ _ Hat Hj) as [[-> ->] | [_ Hj']]; simpl in *.
    + apply (v_forget _ Hinv i t id); [done |]. by rewrite (Hg id r Hid).
    + by apply (v_forget _ Hinv j u).
  - apply Hinv.
Qed.

(** A caller that finds no flight for its key starts one. *)
Lemma start_move x i t :
  sys_inv x -> sCallers x !! i = Some t -> at_pc t = GFlight -> flights (sGroup x) !! key t = None ->
  let id := nextCall (sGroup x) in
  sys_inv (moved x i t (sGroup x <| flights := <[key t := id]> (flights (sGroup x)) |> <| nextCall := id + 1 |>) (GRecheck id) []).
Proof.
  intros Hinv Hat Hpc Hnone id. set (g := sGroup x <| flights := _ |> <| nextCall := _ |>).
  assert (Hold : forall j u, sCallers x !! j = Some u -> forall id', owns (at_pc u) = Some id' -> id' < id).
  { intros j u Hj id' Hid. by apply (v_owned _ Hinv (key u) id'), (v_owner _ Hinv j). }
  assert (Hres : results (sGroup x) !! id = None).
  { destruct (results (sGroup x) !! id) as [r |] eqn:Hr; [| done]. pose proof (v_results _ Hinv id r Hr). subst id. lia. }
  constructor; cbn [sGroup supplied moved app]; subst g; simpl; try apply Hinv.
  - intros j u v Hj Hv. destruct (moved_cases _ _ _ _ _ _ Hat Hj) as [[-> ->] | [_ Hj']]; [done | by apply (v_values _ Hinv j)].
  - intros j u id' Hj Hid. destruct (moved_cases _ _ _ _ _ _ Hat Hj) as [[-> ->] | [_ Hj']]; simpl in *.
    + injection Hid as <-. by rewrite lookup_insert_eq.
    + pose proof (v_owner _ Hinv j u id' Hj' Hid) as Hx. rewrite lookup_insert_ne; [done |]. congruence.
  - intros k id' Hk. destruct (decide (k = key t)) as [-> | Hne].
    + rewrite lookup_insert_eq in Hk. injection Hk as <-. split; [lia |]. eexists i, _. split; [by apply (moved_self x i t (sGroup x) _ []) | done].
    + rewrite lookup_insert_ne in Hk by done. destruct (v_owned _ Hinv k id' Hk) as (Hlt & j & u & Hj & Hid & Hku). split; [subst id; lia |].
      exists j, u. split; [| done]. rewrite list_lookup_insert_ne; [done |]. intros <-. rewrite Hat in Hj. injection Hj as <-. by rewrite Hpc in Hid.
  - intros j j' u u' id' Hj Hj' Hid Hid'.
    destruct (moved_cases _ _ _ _ _ _ Hat Hj) as [[-> ->] | [_ Hjo]], (moved_cases _ _ _ _ _ _ Hat Hj') as [[-> ->] | [_ Hjo']]; simpl in *.
    + done.
    + injection Hid as <-. specialize (Hold _ _ Hjo' _ Hid'). lia.
    + injection Hid' as <-. specialize (Hold _ _ Hjo _ Hid). lia.
    + by apply (v_unique _ Hinv j j' u u' id').
  - intros j u id' Hj Hid. destruct (moved_cases _ _ _ _ _ _ Hat Hj) as [[-> ->] | [_ Hj']]; [done |].
    destruct (v_waiter _ Hinv j u id' Hj' Hid) as [Hx | Hx]; [by left | right]. rewrite lookup_insert_ne; [done |]. congruence.
  - intros j u id' Hj Hid. destruct (moved_cases _ _ _ _ _ _ Hat Hj) as [[-> ->] | [_ Hj']]; simpl in *; [congruence | by apply (v_open _ Hinv j u)].
  - intros j u id' r Hj Hid. destruct (moved_cases _ _ _ _ _ _ Hat Hj) as [[-> ->] | [_ Hj']]; simpl in *; [done | by apply (v_forget _ Hinv j u)].
  - intros id' r Hr. pose proof (v_results _ Hinv id' r Hr). subst id. lia.
Qed.

(** [wg.Done]: the result is there for everyone who waits. *)
Lemma finish_move x i t id r :
  sys_inv x -> sCallers x !! i = Some t -> at_pc t = GFinish id r ->
  sys_inv (moved x i t (sGroup x <| results := <[id := r]> (results (sGroup x)) |>) (GForget id r) []).
Proof.
  intros Hinv Hat Hpc. assert (Hown : owns (at_pc t) = Some id) by (by rewrite Hpc).
  pose proof (v_owner _ Hinv i t id Hat Hown) as Hfl.
  assert (Hsup : from_supply (supplied x) (key t) r) by (intros v ->; by apply (v_values _ Hinv i t v Hat); rewrite Hpc).
  assert (Hopen : results (sGroup x) !! id = None) by (apply (v_open _ Hinv i t); [done | by rewrite Hpc]).
  constructor; cbn [sGroup supplied moved app]; simpl; try apply Hinv.
  - intros j u v Hj Hv. destruct (moved_cases _ _ _ _ _ _ Hat Hj) as [[-> ->] | [_ Hj']]; [| by apply (v_values _ Hinv j)].
    simpl in *. apply (v_values _ Hinv i t v Hat). by rewrite Hpc.
  - intros j u id' Hj Hid. destruct (moved_cases _ _ _ _ _ _ Hat Hj) as [[-> ->] | [_ Hj']]; simpl in *; [congruence | by apply (v_owner _ Hinv j)].
  - intros k id' Hk. destruct (v_owned _ Hinv k id' Hk) as (Hlt & j & u & Hj & Hid & Hku). split; [done |].
    destruct (decide (j = i)) as [-> | Hne].
    + eexists i, _. split; [by apply (moved_self x i t (sGroup x) _ []) |]. simpl. rewrite Hat in Hj. injection Hj as ->. split; [congruence | done].
    + exists j, u. by rewrite list_lookup_insert_ne.
  - intros j j' u u' id' Hj Hj' Hid Hid'.
    destruct (moved_cases _ _ _ _ _ _ Hat Hj) as [[-> ->] | [_ Hjo]], (moved_cases _ _ _ _ _ _ Hat Hj') as [[-> ->] | [_ Hjo']]; simpl in *.
    + done.
    + apply (v_unique _ Hinv i j' t u' id'); congruence.
    + apply (v_unique _ Hinv j i u t id'); congruence.
    + by apply (v_unique _ Hinv j j' u u' id').
  - intros j u id' Hj Hid. destruct (moved_cases _ _ _ _ _ _ Hat Hj) as [[-> ->] | [_ Hj']]; [done |].
    destruct (v_waiter _ Hinv j u id' Hj' Hid) as [(r' & Hr' & Hs') | Hx]; [left | by right].
    exists r'. rewrite lookup_insert_ne; [done | congruence].
  - intros j u id' Hj Hid. destruct (moved_cases _ _ _ _ _ _ Hat Hj) as [[-> ->] | [Hne Hj']]; simpl in *; [done |].
    rewrite lookup_insert_ne; [by apply (v_open _ Hinv j u) |]. intros ->. apply Hne. apply (v_unique _ Hinv j i u t id' Hj' Hat); [| done].
    destruct (at_pc u); simpl in *; congruence.
  - intros j u id' r' Hj Hid. destruct (moved_cases _ _ _ _ _ _ Hat Hj) as [[-> ->] | [Hne Hj']]; simpl in *.
    + injection Hid as <- <-. by rewrite lookup_insert_eq.
    + rewrite lookup_insert_ne; [by apply (v_forget _ Hinv j u) |]. intros ->. apply Hne. apply (v_unique _ Hinv j i u t id' Hj' Hat); [| done]. by rewrite Hid.
  - intros id' r' Hr. destruct (decide (id' = id)) as [-> | Hne]; [by apply (v_owned _ Hinv (key t)) |].
    rewrite lookup_insert_ne in Hr by done. by apply (v_results _ Hinv id' r').
Qed.

(** [g.m.Delete(key)]: who already waits has the result. *)
Lemma forget_move x i t id r :
  sys_inv x -> sCallers x !! i = Some t -> at_pc t = GForget id r ->
  sys_inv (moved x i t (sGroup x <| flights := delete (key t) (flights (sGroup x)) |>) (GReturn r) []).
Proof.
  intros Hinv Hat Hpc. assert (Hown : owns (at_pc t) = Some id) by (by rewrite Hpc).
  pose proof (v_owner _ Hinv i t id Hat Hown) as Hfl. pose proof (v_forget _ Hinv i t id r Hat Hpc) as Hres.
  assert (Hsup : from_supply (supplied x) (key t) r) by (intros v ->; by apply (v_values _ Hinv i t v Hat); rewrite Hpc).
  constructor; cbn [sGroup supplied moved app]; simpl; try apply Hinv.
  - intros j u v Hj Hv. destruct (moved_cases _ _ _ _ _ _ Hat Hj) as [[-> ->] | [_ Hj']]; [| by apply (v_values _ Hinv j)].
    simpl in *. apply (v_values _ Hinv i t v Hat). by rewrite Hpc.
  - intros j u id' Hj Hid. destruct (moved_cases _ _ _ _ _ _ Hat Hj) as [[-> ->] | [Hne Hj']]; simpl in *; [done |].
    pose proof (v_owner _ Hinv j u id' Hj' Hid) as Hx. rewrite lookup_delete_ne; [done |]. intros Hk. apply Hne.
    assert (id' = id) as -> by congruence. by apply (v_unique _ Hinv j i u t id).
  - intros k id' Hk. apply lookup_delete_Some in Hk as [Hkt Hk]. destruct (v_owned _ Hinv k id' Hk) as (Hlt & j & u & Hj & Hid & Hku). split; [done |].
    exists j, u. split; [| done]. rewrite list_lookup_insert_ne; [done |]. intros <-. congruence.
  - intros j j' u u' id' Hj Hj' Hid Hid'.
    destruct (moved_cases _ _ _ _ _ _ Hat Hj) as [[-> ->] | [_ Hjo]], (moved_cases _ _ _ _ _ _ Hat Hj') as [[-> ->] | [_ Hjo']]; simpl in *; try done.
    by apply (v_unique _ Hinv j j' u u' id').
  - intros j u id' Hj Hid. destruct (moved_cases _ _ _ _ _ _ Hat Hj) as [[-> ->] | [_ Hj']]; [done |].
    destruct (v_waiter _ Hinv j u id' Hj' Hid) as [Hx | Hx]; [by left |]. destruct (decide (key u = key t)) as [He | He].
    + left. exists r. rewrite He in *. assert (id' = id) as -> by congruence. done.
    + right. by rewrite lookup_delete_ne.
  - intros j u id' Hj Hid. destruct (moved_cases _ _ _ _ _ _ Hat Hj) as [[-> ->] | [_ Hj']]; simpl in *; [done | by apply (v_open _ Hinv j u)].
  - intros j u id' r' Hj Hid. destruct (moved_cases _ _ _ _ _ _ Hat Hj) as [[-> ->] | [_ Hj']]; simpl in *; [done | by apply (v_forget _ Hinv j u)].
Qed.

(** ** Any step *)

Hypothesis Hfits : forall now k v, time_ok now -> pair_ok k v -> fits now k v (Z.max 0 ttl).

(** The times and values of an event are ones the store can take. *)
Definition event_ok (x : system S) (e : event) : Prop :=
  match e with
  | EStep i now a => time_ok now /\ forall t, sCallers x !! i = Some t -> forall b, a = AValue b -> pair_ok (key t) (mkByteView b)
  | ESet now _ k b => time_ok now /\ pair_ok k (mkByteView b)
  | _ => True
  end.

Lemma quiet_move x i t g q more :
  sys_inv x -> sCallers x !! i = Some t -> mainCache g = mainCache (sGroup x) -> expiration g = expiration (sGroup x) ->
  flights g = flights (sGroup x) -> results g = results (sGroup x) -> nextCall g = nextCall (sGroup x) ->
  (forall k v, (k, v) ∈ more -> pair_ok k v) -> (forall v, carries q = Some v -> (key t, v) ∈ more ++ supplied x) ->
  owns q = owns (at_pc t) -> unfinished q = unfinished (at_pc t) ->
  (forall id, q = GWait id -> flights (sGroup x) !! key t = Some id \/ at_pc t = GWait id) ->
  (forall id r, q = GForget id r -> at_pc t = q) ->
  sys_inv (moved x i t g q more).
Proof.
  intros Hinv Hat Hc He Hf Hr Hn Hp Hv Ho Hu Hw Hg. apply local_move; try done. constructor; [done | | | done | done].
  - rewrite Hc. eapply cache_inv_more; [| apply Hinv]. intros pr Hpr. by more_right.
  - rewrite He. apply Hinv.
Qed.

Ltac quiet Hpc := apply quiet_move; rewrite ?Hpc; try done; try (intros ? ? Hnil; by apply elem_of_nil in Hnil).

Lemma get_step_ok x i t now a :
  sys_inv x -> sCallers x !! i = Some t -> event_ok x (EStep i now a) ->
  exists g q, get_step now (sGroup x) t a = Ret (g, q) /\ sys_inv (moved x i t g q (provided t a)).
Proof.
  intros Hinv Hat [Htime Hpair]. specialize (Hpair t Hat).
  pose proof (fun v Hv => v_values _ Hinv i t v Hat Hv) as Hcarry. unfold get_step, Get_enter, Get_cached, Do_enter, Do_done, Do_forget, load_end, provided.
  destruct (at_pc t) as [| | | id | id | id | id | id | id v | id r | id r | r | r] eqn:Hpc.
  - destruct (gClosed (sGroup x)); [| destruct (decide (key t = EmptyString))]; eexists _, _; (split; [done |]); quiet Hpc.
  - destruct (Cache_Get_ok (supplied x) now (mainCache (sGroup x)) (key t) (v_cache _ Hinv)) as (c & r & -> & Hc & Hr). cbn [obind fst snd].
    destruct r as [v |]; eexists _, _; (split; [done |]); apply local_move; rewrite ?Hpc; try done;
      (constructor; [done | exact Hc | apply Hinv | intros ? ? Hx; by apply elem_of_nil in Hx |]); [intros v' [= <-]; by apply Hr | done].
  - destruct (flights (sGroup x) !! key t) as [id |] eqn:Hfl.
    + eexists _, _. split; [done |]. quiet Hpc. intros id' [= <-]. by left.
    + eexists _, _. split; [done |]. by apply start_move.
  - destruct (results (sGroup x) !! id) as [r |] eqn:Hr; eexists _, _; (split; [done |]); quiet Hpc; [| intros id' [= <-]; by right].
    intros v Hv. simpl. destruct (v_waiter _ Hinv i t id Hat Hpc) as [(r' & Hr' & Hs) | Hx].
    + apply Hs. rewrite Hr in Hr'. injection Hr' as <-. destruct r; simpl in Hv; congruence.
    + destruct (v_owned _ Hinv _ _ Hx) as (_ & j & u & Hj & Hou & Hku). destruct (at_pc u) as [| | | | | | | | | | id' r' | |] eqn:Hpu; simpl in Hou; try done; injection Hou as ->;
        try (assert (Hn : results (sGroup x) !! id = None) by (apply (v_open _ Hinv j u); [done | by rewrite Hpu]); congruence).
      pose proof (v_forget _ Hinv j u id r' Hj Hpu) as Hr'. rewrite Hr in Hr'. injection Hr' as <-.
      rewrite <- Hku. apply (v_values _ Hinv j u v Hj). by rewrite Hpu.
  - destruct (Cache_Get_ok (supplied x) now (mainCache (sGroup x)) (key t) (v_cache _ Hinv)) as (c & r & -> & Hc & Hr). cbn [obind fst snd].
    destruct r as [v |]; eexists _, _; (split; [done |]); [| destruct (peers _ && negb (from_peer t))]; apply local_move; rewrite ?Hpc; try done;
      (constructor; [done | exact Hc | apply Hinv | intros ? ? Hx; by apply elem_of_nil in Hx |]); [intros v' [= <-]; by apply Hr | done | done].
  - destruct a; eexists _, _; (split; [done |]); quiet Hpc.
  - destruct a as [| | b | e | e]; eexists _, _; (split; [done |]); quiet Hpc.
    + intros k v [= -> ->]%list_elem_of_singleton. by apply Hpair.
    + intros v [= <-]. apply elem_of_cons. by left.
  - destruct a as [| | b | e | e]; eexists _, _; (split; [done |]); quiet Hpc.
    + intros k v [= -> ->]%list_elem_of_singleton. by apply Hpair.
    + intros v [= <-]. apply elem_of_cons. by left.
  - assert (Hin : (key t, v) ∈ supplied x) by (by apply Hcarry).
    destruct (store_value_ok (supplied x) now (sGroup x) (key t) v (v_cache _ Hinv)) as (c & -> & Hc).
    { rewrite (v_ttl _ Hinv). apply Hfits; [done | by apply (v_pairs _ Hinv)]. }
    cbn [obind]. eexists _, _. split; [done |]. apply local_move; rewrite ?Hpc; try done.
    constructor; [done | | apply Hinv | intros ? ? Hx; by apply elem_of_nil in Hx | by intros v' [= <-]].
    eapply cache_inv_more; [| exact Hc]. intros pr [-> | Hpr]%elem_of_cons; done.
  - eexists _, _. split; [done |]. exact (finish_move x i t id r Hinv Hat Hpc).
  - eexists _, _. split; [done |]. exact (forget_move x i t id r Hinv Hat Hpc).
  - destruct r as [v | e]; eexists _, _; (split; [done |]); quiet Hpc.
  - eexists _, _. split; [done |]. quiet Hpc.
Qed.

(** A change of the cache alone. *)
Lemma cache_change x g more :
  sys_inv x -> cache_inv (more ++ supplied x) (mainCache g) -> expiration g = ttl ->
  flights g = flights (sGroup x) -> results g = results (sGroup x) -> nextCall g = nextCall (sGroup x) ->
  (forall k v, (k, v) ∈ more -> pair_ok k v) -> sys_inv (mkSystem g (sCallers x) (more ++ supplied x)).
Proof.
  intros Hinv Hc He Hf Hr Hn Hp. constructor; cbn [sGroup sCallers supplied]; rewrite ?Hf, ?Hr, ?Hn; try done; try apply Hinv.
  - intros k v [Hx | Hx]%elem_of_app; [by apply Hp | by apply (v_pairs _ Hinv)].
  - intros i t v Hi Hv. more_right. by apply (v_values _ Hinv i).
  - intros i t id Hi Hpc. destruct (v_waiter _ Hinv i t id Hi Hpc) as [(r & Hr' & Hs) | Hx]; [left | by right].
    exists r. split; [done |]. intros v Hv. more_right. by apply Hs.
Qed.

Lemma spawn_ok x k fp : sys_inv x -> sys_inv (mkSystem (sGroup x) (sCallers x ++ [mkCaller k fp GStart]) (supplied x)).
Proof.
  intros Hinv. assert (Hcases : forall j u, (sCallers x ++ [mkCaller k fp GStart]) !! j = Some u -> sCallers x !! j = Some u \/ u = mkCaller k fp GStart).
  { intros j u [Hj | [_ Hj]]%lookup_app_Some; [by left | right]. by apply list_lookup_singleton_Some in Hj as [_ <-]. }
  constructor; cbn [sGroup sCallers supplied]; try apply Hinv.
  - intros j u v Hj Hv. destruct (Hcases j u Hj) as [Hj' | ->]; [by apply (v_values _ Hinv j) | done].
  - intros j u id Hj Hid. destruct (Hcases j u Hj) as [Hj' | ->]; [by apply (v_owner _ Hinv j) | done].
  - intros k' id Hk. destruct (v_owned _ Hinv k' id Hk) as (Hlt & j & u & Hj & Hx). split; [done |]. exists j, u. split; [by apply lookup_app_l_Some | done].
  - intros j j' u u' id Hj Hj' Hid Hid'. destruct (Hcases j u Hj) as [Hjo | ->]; [| done]. destruct (Hcases j' u' Hj') as [Hjo' | ->]; [| done].
    by apply (v_unique _ Hinv j j' u u' id).
  - intros j u id Hj Hid. destruct (Hcases j u Hj) as [Hj' | ->]; [by apply (v_waiter _ Hinv j) | done].
  - intros j u id Hj Hid. destruct (Hcases j u Hj) as [Hj' | ->]; [by apply (v_open _ Hinv j u) | done].
  - intros j u id r Hj Hid. destruct (Hcases j u Hj) as [Hj' | ->]; [by apply (v_forget _ Hinv j u) | done].
Qed.

Lemma sys_step_ok x e : sys_inv x -> event_ok x e -> exists x', sys_step x e = Ret x' /\ sys_inv x'.
Proof.
  intros Hinv He. destruct e as [k fp | i now a | now fp k b | fp k | |]; cbn [sys_step].
  - eexists. split; [done |]. by apply spawn_ok.
  - destruct (sCallers x !! i) as [t |] eqn:Hi; [| eauto]. destruct (get_step_ok x i t now a Hinv Hi He) as (g & q & -> & Hinv'). cbn [obind fst snd]. eauto.
  - destruct He as [Ht Hp]. unfold Group_Set. assert (Hstay : sys_inv (mkSystem (sGroup x) (sCallers x) ((k, mkByteView b) :: supplied x))).
    { apply (cache_change x (sGroup x) [(k, mkByteView b)] Hinv); try done; [| apply Hinv | by intros k' v' [= -> ->]%list_elem_of_singleton].
      eapply cache_inv_more; [| apply Hinv]. intros pr Hpr. by more_right. }
    destruct (gClosed (sGroup x)); [eauto |]. destruct (decide (k = EmptyString)); [eauto |]. destruct (decide (zlen b = 0)); [eauto |].
    destruct (store_value_ok (supplied x) now (sGroup x) k (mkByteView b) (v_cache _ Hinv)) as (c & -> & Hc); [rewrite (v_ttl _ Hinv); by apply Hfits |].
    cbn [obind]. eexists. split; [done |]. apply (cache_change x _ [(k, mkByteView b)] Hinv); try done; [apply Hinv | by intros k' v' [= -> ->]%list_elem_of_singleton].
  - unfold Group_Delete. destruct (gClosed (sGroup x)); [| destruct (decide (k = EmptyString))]; [destruct x; eauto | destruct x; eauto |].
    destruct (Cache_Delete_ok (supplied x) (mainCache (sGroup x)) k (v_cache _ Hinv)) as (c & d & -> & Hc). cbn [obind fst]. eexists. split; [done |].
    apply (cache_change x _ [] Hinv); try done; [apply Hinv | intros ? ? Hx; by apply elem_of_nil in Hx].
  - unfold Group_Clear. destruct (gClosed (sGroup x)); [destruct x; eauto |].
    destruct (Cache_Clear_ok (supplied x) (mainCache (sGroup x)) (v_cache _ Hinv)) as (c & -> & Hc). cbn [obind]. eexists. split; [done |].
    apply (cache_change x _ [] Hinv); try done; [apply Hinv | intros ? ? Hx; by apply elem_of_nil in Hx].
  - eexists. split; [done |]. unfold Group_Close. destruct (gClosed (sGroup x)); [by destruct x |].
    apply (cache_change x _ [] Hinv); try done; [by apply Cache_Close_ok, Hinv | apply Hinv | intros ? ? Hx; by apply elem_of_nil in Hx].
Qed.

Lemma NewGroup_inv opts with_peers : options_ok opts -> sys_inv (mkSystem (NewGroup opts ttl with_peers) [] []).
Proof.
  intros Ho. constructor; simpl; try done.
  - intros k v Hx. by apply elem_of_nil in Hx.
Qed.

(** A caller that waits has its result, or its flight is still in the air. *)
Lemma waiter_served x i t id :
  sys_inv x -> sCallers x !! i = Some t -> at_pc t = GWait id ->
  results (sGroup x) !! id <> None \/ exists j u, sCallers x !! j = Some u /\ unfinished (at_pc u) = Some id /\ key u = key t.
Proof.
  intros Hinv Hi Hpc. destruct (v_waiter _ Hinv i t id Hi Hpc) as [(r & Hr & _) | Hx]; [left; congruence |].
  destruct (v_owned _ Hinv _ _ Hx) as (_ & j & u & Hj & Hou & Hku). destruct (unfinished (at_pc u)) as [id' |] eqn:Hu.
  - right. exists j, u. split; [done |]. split; [| done]. destruct (at_pc u); simpl in *; congruence.
  - left. destruct (at_pc u) as [| | | | | | | | | | id' r | |] eqn:Hpu; simpl in *; try congruence. injection Hou as ->.
    rewrite (v_forget _ Hinv j u id r Hj Hpu). done.
Qed.

End Theorems.

(** ** Runs *)

Section Runs.
Context {S : Type} `{HS : Store S} `{!StoreSpec S}.
Context (time_ok : Z -> Prop) (key_ok : string -> Prop) (value_ok : ByteView -> Prop) (ttl : Z).

(** Times, keys and values that the store can take. *)
Definition event_good (e : event) : Prop :=
  match e with
  | EGet k _ => key_ok k
  | EStep _ now a => time_ok now /\ forall b, a = AValue b -> value_ok (mkByteView b)
  | ESet now _ k b => time_ok now /\ key_ok k /\ value_ok (mkByteView b)
  | _ => True
  end.

Abbreviation inv := (sys_inv (fun k v => key_ok k /\ value_ok v) ttl).

Lemma keys_step x e x' : Forall (fun t => key_ok (key t)) (sCallers x) -> event_good e -> sys_step x e = Ret x' -> Forall (fun t => key_ok (key t)) (sCallers x').
Proof.
  intros Hk He Hs. destruct e as [k fp | i now a | now fp k b | fp k | |]; cbn [sys_step] in Hs.
  - injection Hs as <-. apply Forall_app. split; [done | by constructor].
  - destruct (sCallers x !! i) as [t |] eqn:Hi; [| by injection Hs as <-]. destruct (get_step _ _ _ _) as [[g q] |]; [| done].
    cbn [obind] in Hs. injection Hs as <-. apply Forall_insert; [done |]. simpl. by eapply (Forall_lookup_1 (fun t => key_ok (key t))) in Hi.
  - destruct (Group_Set _ _ _ _ _) as [[[g o] d] |]; [| done]. by injection Hs as <-.
  - destruct (Group_Delete _ _ _) as [[[g o] d] |]; [| done]. by injection Hs as <-.
  - destruct (Group_Clear _) as [g |]; [| done]. by injection Hs as <-.
  - by injection Hs as <-.
Qed.

Lemma sys_run_ok es x :
  (forall now k v, time_ok now -> key_ok k -> value_ok v -> fits now k v (Z.max 0 ttl)) ->
  inv x -> Forall (fun t => key_ok (key t)) (sCallers x) -> Forall event_good es -> exists x', sys_run x es = Ret x' /\ inv x'.
Proof.
  intros Hf. unfold sys_run. revert x. induction es as [| e es IH]; intros x Hinv Hk Hes; cbn [ofold]; [eauto |].
  apply Forall_cons in Hes as [He Hes].
  assert (Hev : event_ok time_ok (fun k v => key_ok k /\ value_ok v) x e).
  { destruct e as [k fp | i now a | now fp k b | fp k | |]; simpl in *; try done. destruct He as [Ht Hv]. split; [done |].
    intros t Hi b ->. split; [| by apply Hv]. by eapply (Forall_lookup_1 (fun t => key_ok (key t))) in Hi. }
  destruct (sys_step_ok time_ok (fun k v => key_ok k /\ value_ok v) ttl) with (x := x) (e := e) as (x1 & Hs & Hinv1); [naive_solver | done | done |].
  rewrite Hs. cbn [obind]. apply IH; [done | by eapply keys_step | done].
Qed.

End Runs.

(** C12: calls that miss the same key at the same time share one load. However
    [Get], [Set], [Delete], [Clear] and [Close] interleave, and whatever peers
    and the getter answer, a panic included, nothing panics; at most one caller
    of a key is past the flight table, loading for all; whoever waits for a
    flight finds its result, or the caller that runs it is still at work; and a
    value is returned for a key only if it was supplied for that key, by a
    [Set], a peer or the getter. *)
Theorem concurrent_misses_share_one_load {S} `{HS : Store S} `{!StoreSpec S} time_ok key_ok value_ok ttl opts with_peers es :
  options_ok opts -> (forall now k v, time_ok now -> key_ok k -> value_ok v -> fits now k v (Z.max 0 ttl)) ->
  Forall (event_good time_ok key_ok value_ok) es ->
  exists x, sys_run (mkSystem (NewGroup opts ttl with_peers) [] []) es = Ret x
    /\ (forall i j t u, sCallers x !! i = Some t -> sCallers x !! j = Some u -> key t = key u ->
          is_Some (owns (at_pc t)) -> is_Some (owns (at_pc u)) -> i = j)
    /\ (forall i t id, sCallers x !! i = Some t -> at_pc t = GWait id ->
          results (sGroup x) !! id <> None \/ exists j u, sCallers x !! j = Some u /\ unfinished (at_pc u) = Some id /\ key u = key t)
    /\ (forall i t v, sCallers x !! i = Some t -> at_pc t = GDone (Ok v) -> (key t, v) ∈ supplied x).
Proof.
  intros Ho Hf Hes. pose proof (NewGroup_inv (fun k v => key_ok k /\ value_ok v) ttl opts with_peers Ho) as H0.
  destruct (sys_run_ok time_ok key_ok value_ok ttl es _ Hf H0 (Forall_nil_2 _) Hes) as (x & Hrun & Hinv). exists x. split; [done |]. split; [| split].
  - intros i j t u Hi Hj Hk [id Hid] [id' Hid']. pose proof (v_owner _ _ _ Hinv i t id Hi Hid) as Hx. pose proof (v_owner _ _ _ Hinv j u id' Hj Hid') as Hy.
    apply (v_unique _ _ _ Hinv i j t u id Hi Hj Hid). congruence.
  - intros i t id. by apply (waiter_served _ _ x i t id Hinv).
  - intros i t v Hi Hpc. apply (v_values _ _ _ Hinv i t v Hi). by rewrite Hpc.
Qed.

(** ** Forwarded requests

    A request that a peer forwarded is answered from the flight that is already
    in the air, even when that flight waits for a peer itself. Two nodes that
    take each other for the owner of a key can then each hold the other's
    request in its own flight, until a deadline breaks the circle. *)

Section Forwarded.
Context {S : Type} `{HS : Store S}.

Lemma run_cons (x : system S) e es : sys_run x (e :: es) = let! x := sys_step x e in sys_run x es.
Proof. reflexivity. Qed.

Lemma run_step (x : system S) i t now a g q es :
  sCallers x !! i = Some t -> get_step now (sGroup x) t a = Ret (g, q) ->
  sys_run x (EStep i now a :: es)
  = sys_run (mkSystem g (<[i := mkCaller (key t) (from_peer t) q]> (sCallers x)) (provided t a ++ supplied x)) es.
Proof. intros Hi Hs. rewrite run_cons. cbn [sys_step]. by rewrite Hi, Hs. Qed.

Lemma step_start now (g : Group S) t a :
  at_pc t = GStart -> gClosed g = false -> key t <> EmptyString -> exists g', get_step now g t a = Ret (g', GCache)
    /\ mainCache g' = mainCache g /\ flights g' = flights g /\ nextCall g' = nextCall g /\ peers g' = peers g /\ results g' = results g /\ gClosed g' = false.
Proof. intros Hp Hc Hk. unfold get_step, Get_enter, Get_cached, Do_enter, Do_done, Do_forget, load_end. rewrite Hp, Hc, decide_False by done. by eexists. Qed.

(** A cache that nothing was added to misses. *)
Lemma fresh_miss now (c : Cache S) k :
  cClosed c = false -> cInitialized c = false -> exists c', Cache_Get now c k = Ret (c', None) /\ cClosed c' = false /\ cInitialized c' = false.
Proof. intros Hc Hi. unfold Cache_Get. rewrite Hc, Hi. by eexists. Qed.

Definition untouched (g : Group S) : Prop :=
  cClosed (mainCache g) = false /\ cInitialized (mainCache g) = false /\ peers g = true /\ results g = ∅ /\ gClosed g = false.

Lemma step_to_flight now (g : Group S) k fp :
  k <> EmptyString -> untouched g -> exists g1 g2, get_step now g (mkCaller k fp GStart) AGo = Ret (g1, GCache)
    /\ get_step now g1 (mkCaller k fp GCache) AGo = Ret (g2, GFlight) /\ untouched g2 /\ flights g2 = flights g /\ nextCall g2 = nextCall g.
Proof.
  intros Hk (Hc & Hi & Hp & Hr & Hcl). destruct (step_start now g (mkCaller k fp GStart) AGo eq_refl Hcl Hk) as (g1 & -> & Hm & Hf & Hn & Hp1 & Hr1 & Hc1).
  destruct (fresh_miss now (mainCache g1) k) as (c' & Hg & Hc' & Hi'); [congruence | congruence |].
  eexists g1, _. split; [done |]. split; [unfold get_step, Get_enter, Get_cached, Do_enter, Do_done, Do_forget, load_end; cbn [at_pc key]; by rewrite Hg |].
  unfold untouched. simpl. repeat split; congruence.
Qed.

Lemma forwarded_request_joins_flight opts ttl k :
  k <> EmptyString ->
  exists es x, sys_run (mkSystem (NewGroup opts ttl true) [] []) es = Ret x
    /\ sCallers x = [mkCaller k false (GPeer 0); mkCaller k true (GWait 0)]
    /\ forall now a, get_step now (sGroup x) (mkCaller k true (GWait 0)) a = Ret (sGroup x, GWait 0).
Proof.
  intros Hk. set (g := NewGroup opts ttl true : Group S).
  destruct (step_to_flight 0 g k false Hk) as (g1 & g2 & H1 & H2 & Hu2 & Hf2 & Hn2); [done |].
  set (g3 := g2 <| flights := <[k := 0]> (flights g2) |> <| nextCall := 0 + 1 |>).
  assert (H3 : get_step 0 g2 (mkCaller k false GFlight) AGo = Ret (g3, GRecheck 0)).
  { unfold get_step, Get_enter, Get_cached, Do_enter, Do_done, Do_forget, load_end. cbn [at_pc key]. rewrite Hf2. change (flights g) with (∅ : gmap string Z). rewrite lookup_empty, Hn2. unfold g3. by rewrite Hf2. }
  destruct Hu2 as (Hc2 & Hi2 & Hp2 & Hr2 & Hcl2). destruct (fresh_miss 0 (mainCache g3) k Hc2 Hi2) as (c' & Hg & Hc' & Hi').
  set (g4 := bump (fun s => s <| loadsDeduped := i64 (loadsDeduped s + 1) |>) (g3 <| mainCache := c' |>)).
  assert (H4 : get_step 0 g3 (mkCaller k false (GRecheck 0)) AGo = Ret (g4, GPick 0)).
  { unfold get_step, Get_enter, Get_cached, Do_enter, Do_done, Do_forget, load_end. cbn [at_pc key from_peer]. rewrite Hg. cbn [obind fst snd]. simpl. rewrite Hp2. done. }
  destruct (step_to_flight 0 g4 k true Hk) as (g5 & g6 & H5 & H6 & Hu6 & Hf6 & Hn6); [by unfold untouched |].
  assert (Hfl : flights g6 !! k = Some 0) by (rewrite Hf6; apply lookup_insert_eq).
  exists [EGet k false; EStep 0 0 AGo; EStep 0 0 AGo; EStep 0 0 AGo; EStep 0 0 AGo; EStep 0 0 ARemote;
     EGet k true; EStep 1 0 AGo; EStep 1 0 AGo; EStep 1 0 AGo].
  exists (mkSystem g6 [mkCaller k false (GPeer 0); mkCaller k true (GWait 0)] []). split; [| split; [done |]].
  - rewrite run_cons. cbn [sys_step obind sGroup sCallers supplied app].
    erewrite run_step; [| reflexivity | exact H1]. erewrite run_step; [| reflexivity | exact H2].
    erewrite run_step; [| reflexivity | exact H3]. erewrite run_step; [| reflexivity | exact H4].
    erewrite run_step; [| reflexivity | reflexivity].
    rewrite run_cons. cbn [sys_step obind sGroup sCallers supplied app].
    erewrite run_step; [| reflexivity | exact H5]. erewrite run_step; [| reflexivity | exact H6].
    assert (H7 : get_step 0 g6 (mkCaller k true GFlight) AGo = Ret (g6, GWait 0)) by (unfold get_step, Get_enter, Get_cached, Do_enter, Do_done, Do_forget, load_end; cbn [at_pc key]; by rewrite Hfl).
    erewrite run_step; [| reflexivity | exact H7]. reflexivity.
  - intros now a. unfold get_step, Get_enter, Get_cached, Do_enter, Do_done, Do_forget, load_end. cbn [at_pc sGroup]. destruct Hu6 as (_ & _ & _ & Hr6 & _). rewrite Hr6, lookup_empty. done.
Qed.

End Forwarded.
