(* ===== verification/CacheStore.v ===== *)
(** * CacheStore
    The local store ([lru.go]) behind the cache wrapper: it implements the
    [Store] interface of [CacheGroup] and satisfies its laws, so what is proved
    of a group holds over the store the program builds. *)
From S2P Require Import Prelude LruCache LruLinks LruCacheFacts LruLevel LruStore LruStoreFacts LruStoreSafety CacheGroup CacheGroupTheorems.
Section Store.
Context `{HK : KeyOrder}.

Abbreviation entries := (list (node ByteView)).
Implicit Types l : entries.

Lemma view_nonneg (v : ByteView) : 0 <= vlen v.
Proof. apply zlen_nonneg. Qed.

Definition store_options (o : CacheOptions) : StoreOptions :=
  mkStoreOptions (oMaxBytes o) (oBucketCount o) (oCapPerBucket o) (oLevel2Cap o).

(** A value that is not a [ByteView] fails the type assertion of [Cache.Get]. *)
#[export] Instance lru_store : Store (lruStore ByteView) := {
  st_new o := NewStore (store_options o);
  st_Get now s k := let! r := Get now s k in Ret (r.1, mjoin r.2.1);
  st_Set now s k v := let! r := Set_ now s k (Some v) in Ret r.1;
  st_SetWithExpiration now s k v e := let! r := SetWithExpiration now s k (Some v) e in Ret r.1;
  st_Delete s k := let! r := Delete s k in Ret (r.1, r.2.1);
  st_Clear s := let! r := Clear s in Ret r.1;
  st_Len s := Len s;
}.

(** ** What a store holds *)

Section Among.
Context (P : string -> ByteView -> Prop).

Definition holds (nd : node ByteView) : Prop := forall v, nv nd = Some v -> P (nk nd) v.
Abbreviation all_in := (Forall holds).

Lemma remove_in k l : all_in l -> all_in (remove k l).
Proof. rewrite !Forall_forall. intros Hl x [_ Hx]%list_elem_of_filter. auto. Qed.

Lemma removelast_in l : all_in l -> all_in (removelast l).
Proof. destruct l as [| nd l _] using rev_ind; [done |]. rewrite removelast_last, Forall_app. tauto. Qed.

Lemma put_in cap k v e l : all_in l -> (forall x, v = Some x -> P k x) -> all_in (lru_put cap k v e l).1.
Proof.
  intros Hl Hv. unfold lru_put. repeat case_decide; cbn [fst]; (apply Forall_cons; split; [exact Hv |]); [by apply remove_in | by apply removelast_in | done].
Qed.

Lemma cut_in fuel max l0 l1 : all_in l0 -> all_in l1 -> all_in (cut fuel max l0 l1).1 /\ all_in (cut fuel max l0 l1).2.
Proof.
  revert l0 l1. induction fuel as [| fuel IH]; intros l0 l1 H0 H1; [done |]. cbn [cut]. case_decide; [| done].
  destruct l0 as [| x0 l0]; [destruct l1 as [| x1 l1]; [done |] |]; apply IH; try done; by apply removelast_in.
Qed.

Lemma find_in k l nd v : all_in l -> find_key k l = Some nd -> nv nd = Some v -> P k v.
Proof. intros Hl [<- Hin]%find_key_some Hv. rewrite Forall_forall in Hl. by apply (Hl nd Hin). Qed.

Definition both_in (ls : entries * entries) : Prop := all_in ls.1 /\ all_in ls.2.

Lemma spec_get_in cap1 now k l0 l1 :
  both_in (l0, l1) ->
  let '(l0', l1', r, _) := spec_get cap1 now k l0 l1 in both_in (l0', l1') /\ forall v, mjoin r = Some v -> P k v.
Proof.
  intros [H0 H1]. simpl in H0, H1. unfold spec_get. destruct (find_key k l0) as [nd |] eqn:Hf0; [| destruct (find_key k l1) as [nd |] eqn:Hf1; [| done]];
    case_decide; cbn [mjoin].
  - split; [split; by apply remove_in | done].
  - split; [split; [by apply remove_in |] |].
    + cbn [snd]. apply put_in; [done |]. intros v Hv. by eapply (find_in k l0).
    + intros v Hv. by eapply (find_in k l0).
  - split; [split; [done | by apply remove_in] | done].
  - split; [split; [done |] |].
    + pose proof (find_key_some _ _ _ Hf1) as [_ Hin]. apply Forall_cons. split; [| by apply remove_in].
      rewrite Forall_forall in H1. by apply H1.
    + intros v Hv. by eapply (find_in k l1).
Qed.

Lemma spec_set_in cap0 max k v e l0 l1 :
  both_in (l0, l1) -> P k v -> both_in (spec_set cap0 max k (Some v) e l0 l1).
Proof.
  intros [H0 H1] Hv. simpl in H0, H1. unfold spec_set, spec_fit.
  assert (Hp : all_in (lru_put cap0 k (Some v) e l0).1) by (apply put_in; [done | by intros x [= <-]]).
  case_decide; [apply cut_in; [done | by apply remove_in] | by split; [| apply remove_in]].
Qed.

Lemma home_in s cs k : Forall both_in cs -> both_in (home s cs k).
Proof.
  intros Hcs. unfold home. destruct (cs !! _) as [ls |] eqn:Hl; simpl; [| done]. by eapply Forall_lookup_1 in Hl.
Qed.

Definition lru_keeps (s : lruStore ByteView) : Prop :=
  maxBucketBytes s < 2 ^ 62 /\ exists cap0 cap1 cs, store_ok s cap0 cap1 cs /\ Forall both_in cs.

Lemma lru_get now s k :
  lru_keeps s -> exists s' r, st_Get now s k = Ret (s', r) /\ lru_keeps s' /\ forall v, r = Some v -> P k v.
Proof.
  intros (Hmax & cap0 & cap1 & cs & Hok & Hcs). pose proof (LruStoreSafety.get_step view_nonneg s cap0 cap1 cs now k Hok) as Hg.
  pose proof (home_in s cs k Hcs) as Hh. destruct (home s cs k) as [l0 l1]. pose proof (spec_get_in cap1 now k l0 l1 Hh) as Hin.
  destruct (spec_get cap1 now k l0 l1) as [[[l0' l1'] r] evs]. destruct Hg as (s' & Hg & Hm & _ & Hok'). destruct Hin as [Hin Hr].
  exists s', (mjoin r). split; [| split; [| done]].
  - cbn [st_Get lru_store]. by rewrite Hg.
  - split; [by rewrite Hm |]. eexists _, _, _. split; [exact Hok' | by apply Forall_insert].
Qed.

Lemma lru_set_exp now s k v e :
  lru_keeps s -> 0 < expiry now e -> entryBytes k (Some v) < 2 ^ 62 -> P k v ->
  exists s' evs, SetWithExpiration now s k (Some v) e = Ret (s', evs) /\ lru_keeps s'.
Proof.
  intros (Hmax & cap0 & cap1 & cs & Hok & Hcs) He Hb Hp.
  pose proof (LruStoreSafety.set_step view_nonneg s cap0 cap1 cs now k (Some v) e Hok) as Hs. pose proof (home_in s cs k Hcs) as Hh.
  destruct (home s cs k) as [l0 l1]. destruct Hs as (s' & evs & -> & Hm & _ & Hok'); [split; [done | lia] |].
  exists s', evs. split; [done |]. split; [by rewrite Hm |]. eexists _, _, _. split; [exact Hok' |].
  apply Forall_insert; [done | by apply spec_set_in].
Qed.

Lemma lru_delete s k : lru_keeps s -> exists s' b, st_Delete s k = Ret (s', b) /\ lru_keeps s'.
Proof.
  intros (Hmax & cap0 & cap1 & cs & Hok & Hcs).
  destruct (delete_step view_nonneg s cap0 cap1 cs k Hok) as (s' & a & Hd & Hm & Hok').
  exists s', a.1. split; [cbn [st_Delete lru_store]; by rewrite Hd |]. split; [by rewrite Hm |]. eexists _, _, _. split; [exact Hok' |].
  apply Forall_insert; [done |]. destruct (home_in s cs k Hcs). split; by apply remove_in.
Qed.

Lemma lru_clear s : lru_keeps s -> exists s', st_Clear s = Ret s' /\ lru_keeps s'.
Proof.
  intros (Hmax & cap0 & cap1 & cs & Hok & _). destruct (clear_step view_nonneg s cap0 cap1 cs Hok) as (s' & evs & Hc & Hm & Hok').
  exists s'. split; [cbn [st_Clear lru_store]; by rewrite Hc |]. split; [by rewrite Hm |]. eexists _, _, _. split; [exact Hok' |].
  apply Forall_fmap, Forall_forall. done.
Qed.

End Among.

Lemma lru_new o :
  0 < oBucketCount o <= 2 ^ 15 -> 0 < oCapPerBucket o < 2 ^ 16 - 1 -> 0 < oLevel2Cap o < 2 ^ 16 - 1 -> oMaxBytes o < 2 ^ 62 ->
  exists s, st_new o = Ret s /\ lru_keeps (fun _ _ => False) s.
Proof.
  intros Hb H0 H1 Hm. destruct (NewStore_ok (V := ByteView) (store_options o)) as (s & cs & Hs & Hok & He & _ & Hmax); simpl in *; [lia.. |].
  exists s. split; [done |]. split; [lia |]. eexists _, _, cs. split; [exact Hok |].
  eapply Forall_impl; [exact He |]. by intros ? ->.
Qed.

(** Counts and capacities of 16 bits, short of the last; entries and budgets of
    at most 62 bits; a clock whose sum with the time to live is positive. *)
#[export, program] Instance lru_store_spec : StoreSpec (lruStore ByteView) := {
  keeps := lru_keeps;
  fits now k v e := 0 < expiry now e /\ entryBytes k (Some v) < 2 ^ 62;
  options_ok o := 0 < oBucketCount o <= 2 ^ 15 /\ 0 < oCapPerBucket o < 2 ^ 16 - 1 /\ 0 < oLevel2Cap o < 2 ^ 16 - 1 /\ oMaxBytes o < 2 ^ 62;
}.
Next Obligation. intros P Q s HPQ (Hm & cap0 & cap1 & cs & Hok & Hcs). split; [done |]. exists cap0, cap1, cs. split; [done |].
  eapply Forall_impl; [exact Hcs |]. intros ls [H0 H1]. split; (eapply Forall_impl; [eassumption |]); intros nd Hx v Hv; by apply HPQ, Hx.
Qed.
Next Obligation. intros o (Hb & H0 & H1 & Hm). by apply lru_new. Qed.
Next Obligation. intros P now s k. apply lru_get. Qed.
Next Obligation.
  intros P now s k v Hs [He Hb] Hp. destruct (lru_set_exp P now s k v 0 Hs He Hb Hp) as (s' & evs & Hr & Hk).
  exists s'. split; [| done]. cbn [st_Set lru_store]. unfold Set_. by rewrite Hr.
Qed.
Next Obligation.
  intros P now s k v e Hs [He Hb] Hp. destruct (lru_set_exp P now s k v e Hs He Hb Hp) as (s' & evs & Hr & Hk).
  exists s'. split; [| done]. cbn [st_SetWithExpiration lru_store]. by rewrite Hr.
Qed.
Next Obligation. intros P s k. apply lru_delete. Qed.
Next Obligation. intros P s. apply lru_clear. Qed.
Next Obligation. intros P s (_ & cap0 & cap1 & cs & Hok & _). eexists. exact (Len_spec view_nonneg s cap0 cap1 cs Hok). Qed.

End Store.

(** ** A run over the store

    Two callers miss the same key; the second waits for the first, whose getter
    answers, and both return what it supplied. *)

Definition two_readers : list event :=
  [EGet "k" false; EGet "k" true;
   EStep 0 1000 AGo; EStep 1 1000 AGo; EStep 0 1000 AGo; EStep 1 1000 AGo; EStep 0 1000 AGo; EStep 1 1000 AGo;
   EStep 0 1000 AGo; EStep 1 1001 AGo; EStep 0 1002 (AValue [97]); EStep 0 1003 AGo; EStep 0 1003 AGo;
   EStep 1 1004 AGo; EStep 0 1004 AGo; EStep 1 1004 AGo; EStep 0 1004 AGo].

Definition small_cache : CacheOptions := mkCacheOptions 4096 2 4 2.

Lemma concurrent_misses_share_one_load_witness :
  (exists x, @sys_run _ (@lru_store canonical_keys) (mkSystem (NewGroup small_cache 500 false) [] []) two_readers = Ret x
    /\ (at_pc <$> sCallers x) = [GDone (Ok (mkByteView [97])); GDone (Ok (mkByteView [97]))]
    /\ loaderHits (stats (sGroup x)) = 1)
  /\ exists x, @sys_run _ (@lru_store canonical_keys) (mkSystem (NewGroup small_cache 500 false) [] []) two_readers = Ret x
    /\ (forall i j t u, sCallers x !! i = Some t -> sCallers x !! j = Some u -> key t = key u ->
          is_Some (owns (at_pc t)) -> is_Some (owns (at_pc u)) -> i = j)
    /\ (forall i t id, sCallers x !! i = Some t -> at_pc t = GWait id ->
          results (sGroup x) !! id <> None \/ exists j u, sCallers x !! j = Some u /\ unfinished (at_pc u) = Some id /\ key u = key t)
    /\ (forall i t v, sCallers x !! i = Some t -> at_pc t = GDone (Ok v) -> (key t, v) ∈ supplied x).
Proof.
  split; [eexists; split; [vm_compute; reflexivity | split; reflexivity] |].
  apply (@concurrent_misses_share_one_load (lruStore ByteView) (@lru_store canonical_keys) (@lru_store_spec canonical_keys)
    (fun now => 0 <= now <= 2000) (fun k => k = "k") (fun v => zlen (bv v) < 100) 500 small_cache false two_readers).
  - cbn. lia.
  - intros now k v Hn -> Hv. cbn [fits lru_store_spec]. split.
    + unfold expiry. rewrite decide_True by lia. rewrite i64_id; lia.
    + unfold entryBytes, vlen, ByteView_Len. simpl String.length. lia.
  - repeat constructor; simpl; try lia; by intros ? [= <-].
Defined.

(** ** The table of groups
    The table of groups by name ([group.go]: [groups], [NewGroup], [GetGroup],
    [Close], [DestroyGroup], [DestroyAllGroups], [ListGroups]).

    A group is a number here. [groupsMu] is held for each access of the table,
    not across them: closing a group marks it, closes its cache and then takes
    the lock to delete its name, so these are steps that others may come
    between. *)
Record registry := mkRegistry {
  groups : gmap string Z;
  gname : gmap Z string;
  closedGroups : gset Z;
  nextGroup : Z;
}.
#[export] Instance registry_eta : Eta registry := fun r => mkRegistry (groups r) (gname r) (closedGroups r) (nextGroup r).

Definition empty_registry : registry := mkRegistry ∅ ∅ ∅ 0.

Definition register (nil_getter : bool) (name : string) (r : registry) : outcome (registry * Z) :=
  if nil_getter then Panic "nil Getter" else
  match groups r !! name with
  | Some _ => Panic ("duplicate registration of group " ++ name)%string
  | None =>
      let id := nextGroup r in
      Ret (r <| groups := <[name := id]> (groups r) |> <| gname := <[id := name]> (gname r) |> <| nextGroup := id + 1 |>, id)
  end.

Definition GetGroup (name : string) (r : registry) : option Z := groups r !! name.
Definition ListGroups `{KeyOrder} (r : registry) : list string := range_set (dom (groups r)).

(** A call that closes groups: [DestroyGroup name] starts at [XTake name],
    [Close] at [XClose [id]], [DestroyAllGroups] at [XTakeAll]. *)
Inductive closer :=
| XTake (name : string)
| XTakeAll
| XClose (ids : list Z)
| XDelete (id : Z) (ids : list Z).

Definition closer_step (r : registry) (x : closer) : registry * closer :=
  match x with
  | XTake name =>
      match groups r !! name with
      | Some id => (r <| groups := delete name (groups r) |>, XClose [id])
      | None => (r, XClose [])
      end
  | XTakeAll => (r <| groups := ∅ |>, XClose (map_to_list (groups r)).*2)
  | XClose (id :: ids) =>
      if decide (id ∈ closedGroups r) then (r, XClose ids)
      else (r <| closedGroups := {[id]} ∪ closedGroups r |>, XDelete id ids)
  | XDelete id ids => (r <| groups := match gname r !! id with Some name => delete name (groups r) | None => groups r end |>, XClose ids)
  | XClose [] => (r, x)
  end.

(** ** Interleavings *)

Inductive registry_step : registry * list closer -> registry * list closer -> Prop :=
| rs_register r xs name r' id : register false name r = Ret (r', id) -> registry_step (r, xs) (r', xs)
| rs_call r xs x : (forall id ids, x <> XDelete id ids) -> registry_step (r, xs) (r, xs ++ [x])
| rs_step r xs i x r' x' : xs !! i = Some x -> closer_step r x = (r', x') -> registry_step (r, xs) (r', <[i := x']> xs).

Definition registry_reachable : registry * list closer -> Prop := rtc registry_step (empty_registry, []).

(** A group is registered under its own name, at most once, and whoever deletes
    a name has closed the group. *)
Record registry_inv (st : registry * list closer) : Prop := {
  ri_name : forall name id, groups st.1 !! name = Some id -> gname st.1 !! id = Some name;
  ri_new : forall id, is_Some (gname st.1 !! id) -> id < nextGroup st.1;
  ri_closed : forall x id ids, x ∈ st.2 -> x = XDelete id ids -> id ∈ closedGroups st.1;
}.

Lemma register_inv nil_getter name r r' id xs : registry_inv (r, xs) -> register nil_getter name r = Ret (r', id) -> registry_inv (r', xs) /\ GetGroup name r' = Some id.
Proof.
  intros [Hn Hl Hc] Hr. simpl in *. unfold register in Hr. destruct nil_getter; [done |]. destruct (groups r !! name) eqn:Hg; [done |].
  injection Hr as <- <-. split; [constructor; simpl | unfold GetGroup; simpl; apply lookup_insert_eq].
  - intros name' id'. rewrite !lookup_insert_Some. intros [[<- <-] | [Hne Hg']]; [by left | right]. pose proof (Hn _ _ Hg') as Hid.
    split; [| done]. pose proof (Hl id' (mk_is_Some _ _ Hid)). lia.
  - intros id' [nm Hid]. apply lookup_insert_Some in Hid as [[<- _] | [_ Hid]]; [lia |]. pose proof (Hl id' (mk_is_Some _ _ Hid)). lia.
  - done.
Qed.

Lemma closer_step_inv r xs i x r' x' :
  registry_inv (r, xs) -> xs !! i = Some x -> closer_step r x = (r', x') -> registry_inv (r', <[i := x']> xs).
Proof.
  intros [Hn Hl Hc] Hi Hs. simpl in *.
  assert (Hfields : gname r' = gname r /\ nextGroup r' = nextGroup r /\ closedGroups r ⊆ closedGroups r'
    /\ (forall name id, groups r' !! name = Some id -> groups r !! name = Some id)
    /\ (forall id ids, x' = XDelete id ids -> id ∈ closedGroups r')).
  { destruct x as [name | | [| id ids] | id ids]; simpl in Hs.
    - destruct (groups r !! name) eqn:Hg; injection Hs as <- <-; simpl; split_and!; try done. by intros nm id [_ ?]%lookup_delete_Some.
    - injection Hs as <- <-. simpl. split_and!; try done.
    - injection Hs as <- <-. done.
    - destruct (decide (id ∈ closedGroups r)); injection Hs as <- <-; simpl; split_and!; try done; [set_solver |]. intros id' ids' [= -> _]. set_solver.
    - injection Hs as <- <-. simpl. split_and!; try done. intros nm id'. destruct (gname r !! id); [by intros [_ ?]%lookup_delete_Some | done]. }
  destruct Hfields as (Hg1 & Hn1 & Hc1 & Hsub & Hx'). constructor; simpl; rewrite ?Hg1, ?Hn1.
  - auto.
  - auto.
  - intros y id ids Hy ->. apply list_elem_of_lookup in Hy as [j Hj]. apply list_lookup_insert_Some in Hj as [(-> & -> & _) | [_ Hj]].
    + by eapply Hx'.
    + apply Hc1. eapply Hc; [by eapply list_elem_of_lookup_2 | done].
Qed.

Lemma reachable_inv st : registry_reachable st -> registry_inv st.
Proof.
  apply (rtc_ind_r registry_inv (empty_registry, [])).
  - constructor; simpl; [by intros ? ?; rewrite lookup_empty | intros ? [? Hx]; by rewrite lookup_empty in Hx | intros ? ? ? Hx; by apply elem_of_nil in Hx].
  - intros st1 st2 _ Hs IH. destruct Hs as [r xs nm r' i Hreg | r xs x Hx | r xs i x r' x' Hi Hstep].
    + by eapply register_inv.
    + destruct IH as [Hn Hl Hc]. constructor; simpl in *; [done | done |].
      intros y i ids [Hy | ->%list_elem_of_singleton]%elem_of_app ->; [by eapply Hc | by destruct (Hx i ids)].
    + by eapply closer_step_inv.
Qed.

(** In every interleaving a name leads to a group of that name, so a group is
    registered at most once. *)
Lemma registered_under_own_name st name name' id :
  registry_reachable st -> GetGroup name st.1 = Some id -> gname st.1 !! id = Some name /\ (GetGroup name' st.1 = Some id -> name' = name).
Proof.
  intros Hr%reachable_inv Hg. pose proof (ri_name _ Hr _ _ Hg) as Hn. split; [done |].
  intros Hg'. pose proof (ri_name _ Hr _ _ Hg'). congruence.
Qed.

(** [DestroyGroup] takes a name out of the table before it closes the group, and
    [Close] deletes the name again: a group registered under that name in
    between loses its place, though it is open. *)
Lemma destroy_drops_a_namesake r xs name old :
  registry_inv (r, xs) -> GetGroup name r = Some old -> old ∉ closedGroups r ->
  exists r1 r2 r3 r4 new,
    closer_step r (XTake name) = (r1, XClose [old]) /\ register false name r1 = Ret (r2, new)
    /\ closer_step r2 (XClose [old]) = (r3, XDelete old []) /\ closer_step r3 (XDelete old []) = (r4, XClose [])
    /\ GetGroup name r2 = Some new /\ GetGroup name r4 = None /\ (new ∉ closedGroups r -> new ∉ closedGroups r4).
Proof.
  intros Hinv Hg Hold. pose proof (ri_name _ Hinv _ _ Hg) as Hn. pose proof (ri_new _ Hinv _ (mk_is_Some _ _ Hn)) as Hlt. simpl in *.
  eexists _, _, _, _, (nextGroup r). split; [simpl; unfold GetGroup in Hg; by rewrite Hg |].
  split; [unfold register; simpl; by rewrite lookup_delete_eq |]. split; [simpl; by rewrite decide_False |].
  split; [reflexivity |]. unfold GetGroup. simpl. rewrite (lookup_insert_ne (gname r)) by lia. rewrite Hn. split; [apply lookup_insert_eq |]. split; [apply lookup_delete_eq |].
  intros Hnew. rewrite elem_of_union, elem_of_singleton. intros [Heq | ?]; [lia | done].
Qed.
