(* ===== verification/HttpRouter.v ===== *)
(** * HttpRouter
    The route table of the HTTP framework ([swifty_http/trie.go] and
    [router.go]): a trie of path segments per method, with [:name] segments and
    a closing [*name], and the map from method and pattern to the handler.

    A pointer to a trie node is the node: the trie is a tree, nothing else
    points into it. A path with its [height] is the list of the segments from
    that height on. *)
From S2P Require Import Prelude GoStrings.
(** ** trie.go *)

#[warnings="-register-all"]
Inductive node := mkNode (pattern part : string) (children : list node) (isWild : bool).

Definition pattern (n : node) : string := let 'mkNode x _ _ _ := n in x.
Definition part (n : node) : string := let 'mkNode _ x _ _ := n in x.
Definition children (n : node) : list node := let 'mkNode _ _ x _ := n in x.
Definition isWild (n : node) : bool := let 'mkNode _ _ _ x := n in x.

Definition set_pattern (n : node) (p : string) : node := mkNode p (part n) (children n) (isWild n).
Definition set_children (n : node) (cs : list node) : node := mkNode (pattern n) (part n) cs (isWild n).

(** [part[0]] *)
Definition byte0 (s : string) : outcome Ascii.ascii :=
  match s with String c _ => Ret c | EmptyString => Panic "index out of range" end.
(** [part[1:]] *)
Definition after0 (s : string) : string := match s with String _ s => s | EmptyString => EmptyString end.

(** The first child with that part, between its siblings. *)
Fixpoint matchChild (seg : string) (cs : list node) : option (list node * node * list node) :=
  match cs with
  | [] => None
  | c :: cs =>
      if decide (part c = seg) then Some ([], c, cs)
      else match matchChild seg cs with Some (before, child, rest) => Some (c :: before, child, rest) | None => None end
  end.

Fixpoint insert (pat : string) (parts : list string) (n : node) : outcome node :=
  match parts with
  | [] => Ret (set_pattern n pat)
  | seg :: parts =>
      match matchChild seg (children n) with
      | Some (before, child, rest) =>
          let! child := insert pat parts child in Ret (set_children n (before ++ child :: rest))
      | None =>
          let! c := byte0 seg in
          let! child := insert pat parts (mkNode EmptyString seg [] (bool_decide (c = ":"%char \/ c = "*"%char))) in
          Ret (set_children n (children n ++ [child]))
      end
  end.

(** Exact children first, then the wild ones. *)
Definition matchChildren (seg : string) (cs : list node) : list node :=
  filter (fun c => part c = seg) cs ++ filter (fun c => part c <> seg /\ isWild c = true) cs.

(** The first result of a search that is not [nil]. *)
Fixpoint first_some {A B} (f : A -> option B) (l : list A) : option B :=
  match l with [] => None | x :: l => match f x with Some y => Some y | None => first_some f l end end.

Definition leaf (n : node) : option node := if decide (pattern n = EmptyString) then None else Some n.

Fixpoint search (parts : list string) (n : node) : option node :=
  match parts with
  | [] => leaf n
  | seg :: rest =>
      if HasPrefix (part n) "*" then leaf n
      else first_some (search rest) (matchChildren seg (children n))
  end.

Fixpoint travel (n : node) : list node :=
  let '(mkNode pat _ cs _) := n in
  let below := flat_map travel cs in
  if decide (pat = EmptyString) then below else n :: below.

(** ** router.go *)

(** The words of a split path, without empty ones, up to one that begins with a
    star. *)
Fixpoint keep_parts (vs : list string) : list string :=
  match vs with
  | [] => []
  | item :: vs =>
      match item with
      | EmptyString => keep_parts vs
      | String c _ => if decide (c = "*"%char) then [item] else item :: keep_parts vs
      end
  end.

Definition parsePattern (pat : string) : list string := keep_parts (Split pat "/").

(** The loop of [getRoute] over the parts of the pattern, from [i] on. *)
Fixpoint bind_params (searchParts : list string) (parts : list string) (i : Z) (params : gmap string string)
    : outcome (gmap string string) :=
  match parts with
  | [] => Ret params
  | seg :: parts =>
      let! c := byte0 seg in
      let! params :=
        (if decide (c = ":"%char) then let! v := index searchParts i in Ret (<[after0 seg := v]> params) else Ret params) in
      if decide (c = "*"%char /\ after0 seg <> EmptyString) then
        let! rest := subslice searchParts i (zlen searchParts) in
        Ret (<[after0 seg := Join rest "/"]> params)
      else bind_params searchParts parts (i + 1) params
  end.

Section Router.
Context {H : Type}.

Record router := mkRouter {
  roots : gmap string node;
  handlers : gmap string H;
}.

Definition newRouter : router := mkRouter ∅ ∅.

Definition handler_key (method pat : string) : string := (method ++ "-" ++ pat)%string.

Definition empty_node : node := mkNode EmptyString EmptyString [] false.

Definition addRoute (r : router) (method pat : string) (handler : H) : outcome router :=
  let parts := parsePattern pat in
  let pat := ("/" ++ Join parts "/")%string in
  let! root := insert pat parts (default empty_node (roots r !! method)) in
  Ret (mkRouter (<[method := root]> (roots r)) (<[handler_key method pat := handler]> (handlers r))).

Definition getRoute (r : router) (method path : string) : outcome (option (node * gmap string string)) :=
  let searchParts := parsePattern path in
  match roots r !! method with
  | None => Ret None
  | Some root =>
      match search searchParts root with
      | None => Ret None
      | Some n =>
          let! params := bind_params searchParts (parsePattern (pattern n)) 0 ∅ in
          Ret (Some (n, params))
      end
  end.

Definition getRoutes (r : router) (method : string) : list node :=
  match roots r !! method with None => [] | Some root => travel root end.

(** Routes registered one after the other. *)
Definition addRoutes (r : router) (rs : list (string * string * H)) : outcome router :=
  ofold (fun '(method, pat, h) r => addRoute r method pat h) rs r.

End Router.
Arguments router : clear implicits.

(** ** Theorems
    A request is dispatched to a registered route that matches its path, the
    most exact one, if there is any. *)
(** ** Patterns *)

Definition is_star (p : string) : bool := HasPrefix p "*".
Definition is_colon (p : string) : bool := HasPrefix p ":".

(** The segments of a route against those of a path. *)
Fixpoint matches (ps parts : list string) : Prop :=
  match ps, parts with
  | [], [] => True
  | p :: ps, s :: parts => if is_star p then True else (p = s \/ is_colon p = true) /\ matches ps parts
  | _, _ => False
  end.

(** [qs] is exact at the first segment where [ps] differs from it, and [ps] is
    not. *)
Fixpoint more_exact (qs ps parts : list string) : Prop :=
  match qs, ps, parts with
  | q :: qs, p :: ps, s :: parts => (q = s /\ p <> s) \/ (q = p /\ more_exact qs ps parts)
  | _, _, _ => False
  end.

(** Segments are not empty and hold no slash; a star closes the pattern. *)
Fixpoint valid (ps : list string) : Prop :=
  match ps with
  | [] => True
  | p :: ps => p <> EmptyString /\ lacks "/" p /\ (is_star p = true -> ps = []) /\ valid ps
  end.

Definition canonical (ps : list string) : string := ("/" ++ Join ps "/")%string.

Lemma star_cons c s : is_star (String c s) = bool_decide (c = "*"%char).
Proof. unfold is_star. cbn [HasPrefix]. destruct (decide ("*"%char = c)) as [<- |]; [by destruct s |]. symmetry. apply bool_decide_false. congruence. Qed.

Lemma colon_cons c s : is_colon (String c s) = bool_decide (c = ":"%char).
Proof. unfold is_colon. cbn [HasPrefix]. destruct (decide (":"%char = c)) as [<- |]; [by destruct s |]. symmetry. apply bool_decide_false. congruence. Qed.

Lemma keep_parts_valid vs : Forall (lacks "/") vs -> valid (keep_parts vs).
Proof.
  induction vs as [| v vs IH]; [done |]. intros [Hv Hvs]%Forall_cons. cbn [keep_parts]. destruct v as [| c v]; [auto |].
  destruct (decide (c = "*"%char)) as [-> | Hc]; cbn [valid]; rewrite star_cons.
  - done.
  - rewrite bool_decide_false by done. split_and!; try done. auto.
Qed.

Lemma parsePattern_valid pat : valid (parsePattern pat).
Proof. apply keep_parts_valid, Split_lacks. Qed.

Lemma keep_parts_id ps : valid ps -> keep_parts ps = ps.
Proof.
  induction ps as [| p ps IH]; [done |]. intros (Hne & _ & Hs & Hv). cbn [keep_parts]. destruct p as [| c p]; [done |].
  rewrite star_cons in Hs. destruct (decide (c = "*"%char)) as [-> |]; [by rewrite Hs | by rewrite IH].
Qed.

Lemma valid_lacks ps : valid ps -> Forall (lacks "/") ps.
Proof. induction ps as [| p ps IH]; [by constructor |]. intros (_ & Hl & _ & Hv). constructor; auto. Qed.

(** Parsing the canonical pattern gives its segments back. *)
Lemma parse_canonical ps : valid ps -> parsePattern (canonical ps) = ps.
Proof.
  intros Hv. unfold parsePattern, canonical. change ("/" ++ Join ps "/")%string with ("" ++ String "/" (Join ps "/"))%string.
  rewrite Split_word by done. cbn [keep_parts]. destruct ps as [| p ps]; [done |].
  change "/" with (String "/" EmptyString). rewrite Split_Join by (by apply valid_lacks). by apply keep_parts_id.
Qed.

Lemma canonical_ne ps : canonical ps <> EmptyString.
Proof. by unfold canonical. Qed.

(** ** The trie *)

(** A route of the trie below a node. *)
Fixpoint has (ps : list string) (pat : string) (n : node) : Prop :=
  match ps with
  | [] => pattern n = pat /\ pat <> EmptyString
  | p :: ps => exists c, c ∈ children n /\ part c = p /\ has ps pat c
  end.

Definition child_ok (c : node) : Prop :=
  part c <> EmptyString /\ isWild c = is_colon (part c) || is_star (part c)
  /\ (is_star (part c) = true -> children c = [] /\ pattern c <> EmptyString).

Inductive trie_ok : node -> Prop :=
| trie_ok_node n : NoDup (part <$> children n) -> (forall c, c ∈ children n -> child_ok c) ->
    (forall c, c ∈ children n -> trie_ok c) -> trie_ok n.

Lemma ok_children n : trie_ok n -> NoDup (part <$> children n) /\ (forall c, c ∈ children n -> child_ok c /\ trie_ok c).
Proof. intros [n' Hnd Hc Ht]. auto. Qed.

(** Siblings are told apart by their parts. *)
Lemma same_child n c d : trie_ok n -> c ∈ children n -> d ∈ children n -> part c = part d -> c = d.
Proof.
  intros [Hnd _]%ok_children [i Hi]%list_elem_of_lookup_1 [j Hj]%list_elem_of_lookup_1 Hp.
  assert (i = j) as ->; [| congruence]. apply (NoDup_lookup _ i j (part c) Hnd); rewrite list_lookup_fmap; [by rewrite Hi | by rewrite Hj, Hp].
Qed.

Lemma matchChild_spec seg cs :
  match matchChild seg cs with
  | Some (before, c, rest) => cs = before ++ c :: rest /\ part c = seg
  | None => seg ∉ part <$> cs
  end.
Proof.
  induction cs as [| c cs IH]; [apply not_elem_of_nil |]. cbn [matchChild]. destruct (decide (part c = seg)) as [<- | Hne]; [done |].
  destruct (matchChild seg cs) as [[[before x] rest] |].
  - destruct IH as [-> <-]. done.
  - rewrite fmap_cons, not_elem_of_cons. auto.
Qed.

Lemma byte0_ok seg : seg <> EmptyString -> exists c, byte0 seg = Ret c
  /\ bool_decide (c = ":"%char \/ c = "*"%char) = is_colon seg || is_star seg.
Proof. destruct seg as [| c seg]; [done |]. intros _. exists c. split; [done |]. rewrite colon_cons, star_cons. apply bool_decide_or. Qed.

(** Replacing a child, or adding one. *)
Lemma put_child n before c c' rest :
  trie_ok n -> children n = before ++ c :: rest -> part c' = part c -> child_ok c' -> trie_ok c' -> trie_ok (set_children n (before ++ c' :: rest)).
Proof.
  intros [Hnd Hcs]%ok_children Heq Hp Hok Ht. rewrite Heq in Hnd, Hcs. constructor; simpl.
  - rewrite fmap_app, fmap_cons in *. by rewrite Hp.
  - intros d Hd. apply elem_of_app in Hd as [Hd | [-> | Hd]%elem_of_cons]; [| done |]; apply Hcs; apply elem_of_app; [by left | right; by right].
  - intros d Hd. apply elem_of_app in Hd as [Hd | [-> | Hd]%elem_of_cons]; [| done |]; apply Hcs; apply elem_of_app; [by left | right; by right].
Qed.

Lemma add_child n c' :
  trie_ok n -> part c' ∉ part <$> children n -> child_ok c' -> trie_ok c' -> trie_ok (set_children n (children n ++ [c'])).
Proof.
  intros [Hnd Hcs]%ok_children Hp Hok Ht. constructor; simpl.
  - rewrite fmap_app. apply NoDup_app. split; [done |]. split; [| apply NoDup_singleton].
    intros x Hx ->%list_elem_of_singleton. done.
  - intros d [Hd | ->%list_elem_of_singleton]%elem_of_app; [by apply Hcs | done].
  - intros d [Hd | ->%list_elem_of_singleton]%elem_of_app; [by apply Hcs | done].
Qed.

(** A leaf just made or just found can be overwritten. *)
Lemma set_pattern_ok n pat : trie_ok n -> trie_ok (set_pattern n pat).
Proof. intros [Hnd Hcs]%ok_children. constructor; simpl; [done | |]; intros c Hc; by apply Hcs. Qed.

(** The routes below a node whose child [c] was replaced, or that got a child. *)
Lemma has_put n before c c' rest p qs q :
  trie_ok n -> children n = before ++ c :: rest -> part c' = part c ->
  has (p :: qs) q (set_children n (before ++ c' :: rest)) <-> (p = part c /\ has qs q c') \/ (p <> part c /\ has (p :: qs) q n).
Proof.
  intros [Hnd _]%ok_children Heq Hp. rewrite Heq, fmap_app, fmap_cons in Hnd. apply NoDup_app in Hnd as (_ & Hd1 & [Hd2 _]%NoDup_cons).
  assert (Hsib : forall d, d ∈ before \/ d ∈ rest -> part d <> part c).
  { intros d [Hd | Hd] He; [apply (Hd1 (part d)); [| rewrite He; by left] | apply Hd2; rewrite <- He]; apply list_elem_of_fmap; eauto. }
  cbn [has]. simpl. rewrite Heq. split.
  - intros (d & [Hd | [-> | Hd]%elem_of_cons]%elem_of_app & <- & Hq); [right | left; by rewrite Hp | right]; (split; [apply Hsib; auto |]); exists d; set_solver.
  - intros [[-> Hq] | [Hne (d & [Hd | [-> | Hd]%elem_of_cons]%elem_of_app & <- & Hq)]]; [| | done |]; [exists c' | exists d | exists d]; set_solver.
Qed.

Lemma has_add n c' p qs q :
  part c' ∉ part <$> children n ->
  has (p :: qs) q (set_children n (children n ++ [c'])) <-> (p = part c' /\ has qs q c') \/ (p <> part c' /\ has (p :: qs) q n).
Proof.
  intros Hno. cbn [has]. simpl. split.
  - intros (d & [Hd | ->%list_elem_of_singleton]%elem_of_app & <- & Hq); [right | by left].
    split; [| by exists d]. intros He. apply Hno. rewrite <- He. apply list_elem_of_fmap. eauto.
  - intros [[-> Hq] | [Hne (d & Hd & <- & Hq)]]; [exists c' | exists d]; set_solver.
Qed.

Lemma has_child n c qs q : trie_ok n -> c ∈ children n -> has (part c :: qs) q n <-> has qs q c.
Proof.
  intros Hn Hc. cbn [has]. split; [| by eauto]. intros (d & Hd & Hp & Hq). by rewrite <- (same_child n d c).
Qed.

Lemma cons_eq {A} (x y : A) l k : x :: l = y :: k <-> x = y /\ l = k.
Proof. split; [by intros [= -> ->] | by intros [-> ->]]. Qed.

Lemma has_fresh seg w qs q : ~ has qs q (mkNode EmptyString seg [] w).
Proof. destruct qs as [| p qs]; simpl; [by intros [<- ?] | intros (d & Hd & _); by apply elem_of_nil in Hd]. Qed.

(** [insert] adds the route and leaves the others as they were. *)
Lemma insert_spec pat parts n :
  trie_ok n -> valid parts -> pat <> EmptyString ->
  exists n', insert pat parts n = Ret n' /\ trie_ok n' /\ part n' = part n /\ isWild n' = isWild n
    /\ (parts = [] -> children n' = children n /\ pattern n' = pat)
    /\ forall qs q, has qs q n' <-> (qs = parts /\ q = pat) \/ (qs <> parts /\ has qs q n).
Proof.
  intros Hn Hv Hpat. revert n Hn Hv. induction parts as [| seg parts IH]; intros n Hn Hv.
  - eexists. split; [done |]. split; [by apply set_pattern_ok |]. do 2 (split; [done |]). split; [done |].
    intros qs q. destruct qs as [| q' qs]; simpl; naive_solver.
  - destruct Hv as (Hne & _ & Hstar & Hv). cbn [insert]. pose proof (matchChild_spec seg (children n)) as Hm.
    destruct (matchChild seg (children n)) as [[[before c] rest] |].
    + destruct Hm as [Heq <-]. destruct (ok_children _ Hn) as [_ Hcs]. destruct (Hcs c) as [(Hc1 & Hc2 & Hc3) Hct]; [rewrite Heq; set_solver |].
      destruct (IH c Hct Hv) as (c' & -> & Hct' & Hpc & Hwc & Hleaf & Hhas). cbn [obind].
      assert (Hok' : child_ok c').
      { split; [congruence |]. split; [congruence |]. rewrite Hpc. intros Hs. destruct Hleaf as [-> ->]; [auto |]. split; [by apply Hc3 | done]. }
      eexists. split; [done |]. split; [by eapply put_child |]. do 2 (split; [done |]). split; [done |].
      intros [| p qs] q; [simpl; naive_solver |]. rewrite (has_put n before c c' rest), Hhas, cons_eq by done.
      destruct (decide (p = part c)) as [-> | Hpc']; [rewrite (has_child n c) by (done || (rewrite Heq; set_solver)); clear | clear -Hpc']; destruct (decide (qs = parts)); tauto.
    + destruct (byte0_ok seg Hne) as (b & -> & Hb). cbn [obind]. set (fresh := mkNode _ seg [] _).
      assert (Hfresh : trie_ok fresh) by (constructor; simpl; [by apply NoDup_nil | |]; intros ? Hx; by apply elem_of_nil in Hx).
      destruct (IH fresh Hfresh Hv) as (c' & -> & Hct' & Hpc & Hwc & Hleaf & Hhas). cbn [obind]. simpl in Hpc, Hwc.
      assert (Hok' : child_ok c').
      { split; [congruence |]. split; [congruence |]. rewrite Hpc. intros Hs. by destruct Hleaf as [-> ->]; [apply Hstar |]. }
      eexists. split; [done |]. split; [by apply add_child; [| rewrite Hpc | |] |]. do 2 (split; [done |]). split; [done |].
      assert (Hno : forall qs q, ~ has qs q fresh) by apply has_fresh.
      intros [| p qs] q; [simpl; naive_solver |]. rewrite has_add, Hhas by (by rewrite Hpc). rewrite Hpc.
      assert (Hnot : forall p' qs', has (p' :: qs') q n -> p' <> seg) by (intros p' qs' (d & Hd & <- & _) He; apply Hm; rewrite <- He; apply list_elem_of_fmap; eauto).
      rewrite cons_eq. specialize (Hno qs q). specialize (Hnot p qs). revert Hno Hnot. clear. destruct (decide (p = seg)), (decide (qs = parts)); tauto.
Qed.

(** ** Search *)

Lemma first_some_spec {A B} (f : A -> option B) l :
  match first_some f l with
  | Some y => exists l1 x l2, l = l1 ++ x :: l2 /\ f x = Some y /\ forall z, z ∈ l1 -> f z = None
  | None => forall z, z ∈ l -> f z = None
  end.
Proof.
  induction l as [| x l IH]; simpl; [intros z Hz; by apply elem_of_nil in Hz |]. destruct (f x) as [y |] eqn:Hf.
  - exists [], x, l. split; [done |]. split; [done |]. intros z Hz. by apply elem_of_nil in Hz.
  - destruct (first_some f l) as [y |].
    + destruct IH as (l1 & z & l2 & -> & Hz & Hl1). exists (x :: l1), z, l2. split; [done |]. split; [done |].
      intros w [-> | Hw]%elem_of_cons; auto.
    + intros w [-> | Hw]%elem_of_cons; auto.
Qed.

Lemma leaf_spec n : leaf n = if decide (pattern n = EmptyString) then None else Some n.
Proof. done. Qed.

(** A child that may take the segment. *)
Lemma candidates n seg c :
  trie_ok n -> c ∈ matchChildren seg (children n) -> c ∈ children n /\ child_ok c /\ trie_ok c /\ (part c = seg \/ is_colon (part c) = true \/ is_star (part c) = true).
Proof.
  intros [_ Hcs]%ok_children [[Hp Hc]%list_elem_of_filter | [[Hp Hw] Hc]%list_elem_of_filter]%elem_of_app; destruct (Hcs c Hc) as [Hok Ht]; split_and!; auto.
  right. destruct Hok as (_ & Hw' & _). rewrite Hw' in Hw. by apply orb_true_iff in Hw.
Qed.

Lemma candidate n seg c ps parts pat :
  trie_ok n -> c ∈ children n -> has ps pat c -> matches (part c :: ps) (seg :: parts) -> c ∈ matchChildren seg (children n).
Proof.
  intros [_ Hcs]%ok_children Hc _ Hm. destruct (Hcs c Hc) as [(_ & Hw & _) _]. apply elem_of_app.
  destruct (decide (part c = seg)); [left | right]; apply list_elem_of_filter; [done |]. split; [| done]. split; [done |].
  rewrite Hw, orb_true_iff. cbn [matches] in Hm. destruct (is_star (part c)); [by right | left]. tauto.
Qed.

(** Exact candidates come before the others. *)
Lemma exact_first n seg l1 c l2 d :
  matchChildren seg (children n) = l1 ++ c :: l2 -> part c <> seg -> d ∈ children n -> part d = seg -> d ∈ l1.
Proof.
  unfold matchChildren. intros Heq Hc Hd Hp. assert (Hin : d ∈ filter (fun c => part c = seg) (children n)) by (by apply list_elem_of_filter).
  apply app_eq_inv in Heq as [(k & Hk & Hr) | (k & -> & _)]; [| set_solver].
  destruct k as [| x k]; [rewrite app_nil_r in Hk; by rewrite <- Hk |]. exfalso. injection Hr as <- _.
  assert (Hx : c ∈ filter (fun c => part c = seg) (children n)) by (rewrite Hk; set_solver). by apply list_elem_of_filter in Hx as [? _].
Qed.

(** [search] finds a matching route if there is one, and no other matching route
    is more exact at the first segment where they differ. *)
Lemma search_spec parts n :
  trie_ok n -> is_star (part n) = false ->
  match search parts n with
  | Some m => exists ps, has ps (pattern m) n /\ matches ps parts
      /\ forall qs q, has qs q n -> matches qs parts -> ~ more_exact qs ps parts
  | None => forall qs q, has qs q n -> ~ matches qs parts
  end.
Proof.
  revert n. induction parts as [| seg parts IH]; intros n Hn Hns.
  - cbn [search]. unfold leaf. case_decide as He.
    + intros [| p qs] q; simpl; [intros [<- ?]; done | tauto].
    + exists []. split; [done |]. split; [done |]. intros [| q' qs] q; simpl; tauto.
  - cbn [search]. fold (is_star (part n)). rewrite Hns.
    (* what the search of one child gives *)
    assert (Hchild : forall c, c ∈ children n -> child_ok c -> trie_ok c ->
      match search parts c with
      | Some m => exists ps, has ps (pattern m) c /\ (is_star (part c) = true -> ps = []) /\ (is_star (part c) = false -> matches ps parts)
          /\ forall qs q, has qs q c -> matches (part c :: qs) (seg :: parts) -> ~ more_exact qs ps parts
      | None => forall qs q, has qs q c -> ~ matches (part c :: qs) (seg :: parts)
      end).
    { intros c Hc (_ & _ & Hstar) Ht. destruct (is_star (part c)) eqn:Hs.
      - destruct Hstar as [Hch Hpat]; [done |]. assert (Hse : search parts c = Some c).
        { destruct parts as [| s parts]; cbn [search]; unfold leaf; [by rewrite decide_False |]. fold (is_star (part c)). by rewrite Hs, decide_False. }
        rewrite Hse. exists []. split; [done |]. split; [done |]. split; [done |]. intros [| ? ?] q _ _; simpl; tauto.
      - specialize (IH c Ht Hs). destruct (search parts c) as [m |].
        + destruct IH as (ps & Hps & Hm & Hx). exists ps. split; [done |]. split; [done |]. split; [done |].
          intros qs q Hq Hmq. apply (Hx qs q Hq). cbn [matches] in Hmq. rewrite Hs in Hmq. tauto.
        + intros qs q Hq. cbn [matches]. rewrite Hs. intros [_ Hmq]. by apply (IH qs q Hq). }
    pose proof (first_some_spec (search parts) (matchChildren seg (children n))) as Hf.
    destruct (first_some (search parts) (matchChildren seg (children n))) as [m |].
    + destruct Hf as (l1 & c & l2 & Heq & Hsc & Hl1).
      destruct (candidates n seg c Hn) as (Hc & Hok & Ht & Hp); [rewrite Heq; set_solver |].
      pose proof (Hchild c Hc Hok Ht) as Hcc. rewrite Hsc in Hcc. destruct Hcc as (ps & Hps & Hst & Hm & Hx).
      exists (part c :: ps). split; [by apply has_child |]. split.
      * cbn [matches]. destruct (is_star (part c)) eqn:Hs; [done |]. split; [| by apply Hm]. destruct Hp as [? | [? | ?]]; [by left | by right | done].
      * intros [| p qs] q Hq Hmq; [done |]. destruct Hq as (d & Hd & <- & Hq). cbn [more_exact]. intros [[Hds Hcs] | [Hdc Hmore]].
        -- assert (Hdl : d ∈ l1) by (by eapply exact_first). destruct (ok_children _ Hn) as [_ Hcs']. destruct (Hcs' d Hd) as [Hokd Htd].
           pose proof (Hchild d Hd Hokd Htd) as Hdd. rewrite (Hl1 d Hdl) in Hdd. by apply (Hdd qs q Hq).
        -- assert (d = c) as -> by (by apply (same_child n)). by apply (Hx qs q Hq).
    + intros [| p qs] q Hq Hmq; [done |]. destruct Hq as (d & Hd & <- & Hq). destruct (ok_children _ Hn) as [_ Hcs]. destruct (Hcs d Hd) as [Hokd Htd].
      pose proof (Hchild d Hd Hokd Htd) as Hdd. rewrite (Hf d) in Hdd by (by eapply candidate). by apply (Hdd qs q Hq).
Qed.

(** ** Parameters *)

(** The name a segment binds, and what it stands for in a path. *)
Definition param_name (p : string) : option string :=
  if is_colon p then Some (after0 p)
  else if is_star p then (if decide (after0 p = EmptyString) then None else Some (after0 p)) else None.
Definition param_value (p : string) (i : nat) (parts : list string) : option string :=
  if is_colon p then parts !! i else Some (Join (drop i parts) "/").
Definition names (ps : list string) : list string := omap param_name ps.

Lemma drop_cons {A} i (l : list A) x k : drop i l = x :: k -> l !! i = Some x /\ drop (S i) l = k.
Proof.
  revert l. induction i as [| i IH]; intros [| y l]; cbn [drop]; [done | by intros [= -> ->] | done |]. intros Hd. apply (IH l Hd).
Qed.

(** No index is out of range when the path matches the pattern. *)
Lemma bind_params_spec sp ps i params :
  valid ps -> matches ps (drop i sp) ->
  exists out, bind_params sp ps (Z.of_nat i) params = Ret out
    /\ (forall x, x ∉ names ps -> out !! x = params !! x)
    /\ (NoDup (names ps) -> forall j p x, ps !! j = Some p -> param_name p = Some x -> out !! x = param_value p (i + j) sp).
Proof.
  revert i params. induction ps as [| p ps IH]; intros i params Hv Hm; [by eexists |].
  destruct Hv as (Hne & _ & Hstar & Hv). destruct (drop i sp) as [| s rest] eqn:Hd; [done |]. cbn [matches] in Hm. cbn [bind_params].
  apply drop_cons in Hd as [Hi Hrest]. destruct p as [| c p]; [done |]. cbn [byte0 obind after0].
  rewrite star_cons in Hm, Hstar. rewrite colon_cons in Hm.
  assert (Hnm : param_name (String c p) = if decide (c = ":"%char) then Some p else if decide (c = "*"%char /\ p <> EmptyString) then Some p else None).
  { unfold param_name. rewrite colon_cons, star_cons. cbn [after0]. repeat (case_decide || case_bool_decide); tauto. }
  assert (Hlen : (i < length sp)%nat) by (by eapply lookup_lt_Some).
  destruct (decide (c = "*"%char)) as [-> | Hcs].
  - rewrite Hstar in * by done. cbn [obind]. rewrite decide_False in * by done. destruct (decide (_ /\ p <> EmptyString)) as [[_ Hp] | Hp].
    + rewrite subslice_total by (unfold zlen; lia). cbn [obind]. eexists. split; [done |].
      assert (Htake : take (Z.to_nat (zlen sp - Z.of_nat i)) (drop (Z.to_nat (Z.of_nat i)) sp) = drop i sp).
      { rewrite Nat2Z.id. apply take_ge. rewrite length_drop. unfold zlen. lia. }
      rewrite Htake. unfold names. cbn [omap list_omap]. rewrite Hnm. split.
      * intros x Hx. rewrite lookup_insert_ne; [done |]. set_solver.
      * intros _ [| j] q x; [| done]. intros [= <-] Hx. rewrite Hnm in Hx. injection Hx as ->. rewrite Nat.add_0_r. apply lookup_insert_eq.
    + cbn [bind_params]. eexists. split; [done |]. split; [done |]. intros _ [| j] q x; [| done]. intros [= <-]. by rewrite Hnm.
  - rewrite bool_decide_false in Hm by done. destruct Hm as [_ Hm]. rewrite <- Hrest in Hm.
    rewrite (decide_False (P := c = "*"%char /\ p <> EmptyString)) in * by tauto.
    replace (Z.of_nat i + 1) with (Z.of_nat (S i)) by lia.
    set (params1 := if decide (c = ":"%char) then <[p := s]> params else params).
    assert (Hif : (if decide (c = ":"%char) then let! v := index sp (Z.of_nat i) in Ret (<[p := v]> params) else Ret params) = Ret params1).
    { unfold params1. destruct (decide (c = ":"%char)); [| done]. destruct (index_total sp (Z.of_nat i)) as (v & -> & Hv'); [unfold zlen; lia |].
      rewrite Nat2Z.id, Hi in Hv'. by injection Hv' as ->. }
    rewrite Hif. cbn [obind]. destruct (IH (S i) params1 Hv Hm) as (out & -> & Hout & Hval). rewrite decide_False by tauto. exists out. split; [done |].
    unfold names in *. cbn [omap list_omap]. rewrite Hnm. split.
    + intros x Hx. destruct (decide (c = ":"%char)); [| by rewrite Hout]. rewrite Hout by set_solver. unfold params1. apply lookup_insert_ne. set_solver.
    + intros Hnd [| j] q x; cbn [lookup list_lookup].
      * intros [= <-] Hx. rewrite Hnm in Hx. destruct (decide (c = ":"%char)) as [-> |]; [| done]. injection Hx as ->.
        apply NoDup_cons in Hnd as [Hnin _]. rewrite Hout by done. unfold params1, param_value. rewrite colon_cons, bool_decide_true, Nat.add_0_r by done.
        rewrite Hi. apply lookup_insert_eq.
      * intros Hq Hx. rewrite Nat.add_succ_r. apply Hval; [| done | done]. destruct (decide (c = ":"%char)); [by apply NoDup_cons in Hnd as [_ ?] | done].
Qed.

(** ** The table *)

Lemma append_inj_1 a b c : (a ++ String c EmptyString)%string = (b ++ String c EmptyString)%string -> a = b.
Proof.
  revert b. induction a as [| x a IH]; intros [| y b]; rewrite ?append_nil, ?append_cons; [done | | |].
  - intros [= _ He]. by destruct b.
  - intros [= _ He]. by destruct a.
  - intros [= -> He]. f_equal. by apply IH.
Qed.

(** Methods have no slash, so a key tells method and pattern. *)
Lemma handler_key_inj m m' ps ps' :
  lacks "/" m -> lacks "/" m' -> valid ps -> valid ps' ->
  handler_key m (canonical ps) = handler_key m' (canonical ps') -> m = m' /\ ps = ps'.
Proof.
  intros Hm Hm' Hp Hp' He.
  assert (Hkey : forall m ps, handler_key m (canonical ps) = ((m ++ "-") ++ String "/" (Join ps "/"))%string) by (intros; unfold handler_key, canonical; by rewrite <- string_app_assoc).
  rewrite !Hkey in He. apply (f_equal (fun s => Split s "/")) in He. rewrite !Split_word in He by (rewrite lacks_app; done).
  injection He as Hmm Hs. split; [by eapply append_inj_1 |].
  rewrite <- (parse_canonical ps), <- (parse_canonical ps') by done. unfold canonical. f_equal. f_equal.
  rewrite <- (Join_Split (Join ps "/") "/"), <- (Join_Split (Join ps' "/") "/"). by rewrite Hs.
Qed.

Section Table.
Context {H : Type}.
Implicit Types rs : list (string * string * H).

(** The handler registered last for a method and the segments of a pattern. *)
Definition registers (method : string) (ps : list string) (r : string * string * H) : option H :=
  let '(m, pat, h) := r in if decide (m = method /\ parsePattern pat = ps) then Some h else None.
Definition last_for rs (method : string) (ps : list string) : option H := last (omap (registers method ps) rs).

Lemma last_for_snoc rs r method ps :
  last_for (rs ++ [r]) method ps = match registers method ps r with Some h => Some h | None => last_for rs method ps end.
Proof.
  unfold last_for. rewrite omap_app. cbn [omap list_omap]. destruct (registers method ps r); [by rewrite last_snoc | by rewrite app_nil_r].
Qed.

Lemma last_for_valid rs method ps : is_Some (last_for rs method ps) -> valid ps.
Proof.
  induction rs as [| r rs IH] using rev_ind; [by intros [? ?] |]. rewrite last_for_snoc. destruct r as [[m pat] h]. simpl.
  case_decide as Hd; [| auto]. destruct Hd as [_ <-]. intros _. apply parsePattern_valid.
Qed.

Record table_ok rs (R : router H) : Prop := {
  tb_roots : forall method root, roots R !! method = Some root ->
    trie_ok root /\ part root = EmptyString
    /\ forall ps pat, has ps pat root <-> pat = canonical ps /\ is_Some (last_for rs method ps);
  tb_none : forall method, roots R !! method = None -> forall ps, last_for rs method ps = None;
  tb_handlers : forall method ps, lacks "/" method -> valid ps -> handlers R !! handler_key method (canonical ps) = last_for rs method ps;
}.

Lemma newRouter_ok : table_ok [] newRouter.
Proof. constructor; [done | done |]. intros method ps _ _. apply (lookup_empty (handler_key method (canonical ps))). Qed.

Lemma empty_node_ok : trie_ok empty_node.
Proof. constructor; simpl; [by apply NoDup_nil | |]; intros c Hc; by apply elem_of_nil in Hc. Qed.

Lemma addRoute_ok rs R m pat h :
  table_ok rs R -> Forall (fun r => lacks "/" r.1.1) rs -> lacks "/" m ->
  exists R', addRoute R m pat h = Ret R' /\ table_ok (rs ++ [(m, pat, h)]) R'.
Proof.
  intros [Hr Hnone Hh] Hms Hm. unfold addRoute. fold (canonical (parsePattern pat)). set (ps := parsePattern pat).
  assert (Hv : valid ps) by apply parsePattern_valid. set (root := default empty_node (roots R !! m)).
  assert (Hroot : trie_ok root /\ part root = EmptyString /\ forall qs q, has qs q root <-> q = canonical qs /\ is_Some (last_for rs m qs)).
  { unfold root. destruct (roots R !! m) as [x |] eqn:Hx; [by apply Hr |]. simpl. split; [apply empty_node_ok |]. split; [done |].
    intros qs q. rewrite (Hnone m Hx). split; [| by intros [_ [? ?]]]. intros Hq. destruct qs as [| p qs]; simpl in Hq; [naive_solver |]. destruct Hq as (d & Hd & _). by apply elem_of_nil in Hd. }
  destruct Hroot as (Ht & Hp & Hhas). destruct (insert_spec (canonical ps) ps root Ht Hv (canonical_ne ps)) as (root' & -> & Ht' & Hp' & _ & _ & Hhas').
  cbn [obind]. eexists. split; [done |]. constructor; simpl.
  - intros method x. rewrite lookup_insert_Some. intros [[<- <-] | [Hne Hx]].
    + split; [done |]. split; [congruence |]. intros qs q. rewrite Hhas', Hhas, last_for_snoc. simpl. fold ps.
      destruct (decide (qs = ps)) as [-> | Hqs]; [rewrite decide_True by done | rewrite decide_False by naive_solver]; naive_solver.
    + destruct (Hr method x Hx) as (H1 & H2 & H3). split; [done |]. split; [done |]. intros qs q. rewrite H3, last_for_snoc. simpl.
      by rewrite decide_False by naive_solver.
  - intros method. rewrite lookup_insert_None. intros [Hx Hne] qs. rewrite last_for_snoc. simpl. rewrite decide_False by naive_solver. by apply Hnone.
  - intros method qs Hmm Hq. rewrite last_for_snoc. simpl. fold ps. destruct (decide (m = method /\ ps = qs)) as [[-> ->] | Hne]; [apply lookup_insert_eq |].
    rewrite lookup_insert_ne; [by apply Hh |]. intros He. apply Hne. by apply handler_key_inj.
Qed.

Lemma addRoutes_ok rs0 R rs :
  table_ok rs0 R -> Forall (fun r => lacks "/" r.1.1) rs0 -> Forall (fun r => lacks "/" r.1.1) rs ->
  exists R', addRoutes R rs = Ret R' /\ table_ok (rs0 ++ rs) R'.
Proof.
  unfold addRoutes. revert rs0 R. induction rs as [| [[m pat] h] rs IH]; intros rs0 R Hok H0 Hrs; cbn [ofold].
  - exists R. by rewrite app_nil_r.
  - apply Forall_cons in Hrs as [Hm Hrs]. simpl in Hm. destruct (addRoute_ok rs0 R m pat h Hok H0 Hm) as (R1 & -> & Hok1). cbn [obind].
    destruct (IH (rs0 ++ [(m, pat, h)]) R1 Hok1) as (R2 & -> & Hok2); [apply Forall_app; split; [done | by constructor] | done |].
    exists R2. split; [done |]. by rewrite <- app_assoc in Hok2.
Qed.

End Table.

(** The table and the search against the segments that [parsePattern] keeps. *)
Lemma routes_by_parts {H} (rs : list (string * string * H)) :
  Forall (fun r => lacks "/" r.1.1) rs ->
  exists R, addRoutes newRouter rs = Ret R /\ forall method path, lacks "/" method ->
    (getRoute R method path = Ret None /\ forall ps, is_Some (last_for rs method ps) -> ~ matches ps (parsePattern path))
    \/ exists n params ps h, getRoute R method path = Ret (Some (n, params)) /\ pattern n = canonical ps
         /\ matches ps (parsePattern path)
         /\ handlers R !! handler_key method (pattern n) = Some h /\ last_for rs method ps = Some h
         /\ (forall qs, is_Some (last_for rs method qs) -> matches qs (parsePattern path) -> ~ more_exact qs ps (parsePattern path))
         /\ (NoDup (names ps) -> forall i p x, ps !! i = Some p -> param_name p = Some x -> params !! x = param_value p i (parsePattern path)).
Proof.
  intros Hrs. destruct (addRoutes_ok [] newRouter rs newRouter_ok (Forall_nil_2 _) Hrs) as (R & HR & [Hroots Hnone Hh]). exists R. split; [done |].
  intros method path Hm. unfold getRoute. destruct (roots R !! method) as [root |] eqn:Hroot.
  - destruct (Hroots method root Hroot) as (Ht & Hp & Hhas). pose proof (search_spec (parsePattern path) root Ht) as Hs. rewrite Hp in Hs. specialize (Hs eq_refl).
    destruct (search (parsePattern path) root) as [n |].
    + destruct Hs as (ps & Hps & Hmatch & Hbest). right. apply Hhas in Hps as [Hpat Hreg]. pose proof (last_for_valid rs method ps Hreg) as Hv.
      destruct Hreg as [h Hreg]. rewrite Hpat, (parse_canonical ps Hv).
      destruct (bind_params_spec (parsePattern path) ps 0 ∅ Hv Hmatch) as (params & Hb & _ & Hval). change (Z.of_nat 0) with 0 in Hb. rewrite Hb. cbn [obind].
      exists n, params, ps, h. rewrite Hpat. split_and!; try done; [by rewrite Hh |].
      intros qs Hq Hmq. apply (Hbest qs (canonical qs)); [by apply Hhas | done].
    + left. split; [done |]. intros ps Hreg. apply (Hs ps (canonical ps)). by apply Hhas.
  - left. split; [done |]. intros ps. rewrite (Hnone method Hroot). by intros [? ?].
Qed.

(** ** Paths read whole

    What a path says, without regard to how the router reads it: its words
    between slashes, and that a word that begins with a star, if there is one, is
    the last. *)
Definition segments (path : string) : list string := filter (fun w => w <> EmptyString) (Split path "/").

Fixpoint star_last (ps : list string) : Prop :=
  match ps with [] => True | p :: ps => (is_star p = true -> ps = []) /\ star_last ps end.

Lemma keep_parts_whole vs : star_last (filter (fun w => w <> EmptyString) vs) -> keep_parts vs = filter (fun w => w <> EmptyString) vs.
Proof.
  induction vs as [| [| c v] vs IH]; [done | exact IH |]. change (filter _ (String c v :: vs)) with (String c v :: filter (fun w => w <> EmptyString) vs). intros [Hs Hl]. simpl.
  rewrite IH by done. case_decide as Hc; [| done]. rewrite Hs; [done |]. subst c. by destruct v.
Qed.

Lemma parsePattern_whole path : star_last (segments path) -> parsePattern path = segments path.
Proof. apply keep_parts_whole. Qed.

(** The handler registered last for a method and the segments of a pattern. *)
Definition registered {H} (rs : list (string * string * H)) (method : string) (ps : list string) : option H :=
  last (omap (fun '(m, pat, h) => if decide (m = method /\ segments pat = ps) then Some h else None) rs).

Lemma registered_last_for {H} (rs : list (string * string * H)) method ps :
  Forall (fun r => star_last (segments r.1.2)) rs -> last_for rs method ps = registered rs method ps.
Proof.
  intros Hrs. unfold last_for, registered. f_equal. induction Hrs as [| [[m pat] h] rs Hp _ IH]; [done |]. simpl in *.
  rewrite (parsePattern_whole pat Hp). destruct (decide _); [f_equal |]; exact IH.
Qed.

(** C13: after any registrations of patterns in which a star, if there is one,
    begins the last segment, a request whose path has no segment with a star
    before its last is dispatched to a route whose segments match those of the
    path, if and only if one was registered for its method. The chosen route has
    a handler, the one registered last for its segments, whatever extra slashes
    its pattern had; no other matching route is exact where the chosen one first
    differs from it; every parameter is bound to what it stands for in the path;
    and nothing is out of range. *)
Theorem router_dispatches {H} (rs : list (string * string * H)) :
  Forall (fun r => lacks "/" r.1.1 /\ star_last (segments r.1.2)) rs ->
  exists R, addRoutes newRouter rs = Ret R /\ forall method path, lacks "/" method -> star_last (segments path) ->
    let parts := segments path in
    (getRoute R method path = Ret None /\ forall ps, is_Some (registered rs method ps) -> ~ matches ps parts)
    \/ exists n params ps h, getRoute R method path = Ret (Some (n, params)) /\ pattern n = canonical ps
         /\ matches ps parts
         /\ handlers R !! handler_key method (pattern n) = Some h /\ registered rs method ps = Some h
         /\ (forall qs, is_Some (registered rs method qs) -> matches qs parts -> ~ more_exact qs ps parts)
         /\ (NoDup (names ps) -> forall i p x, ps !! i = Some p -> param_name p = Some x -> params !! x = param_value p i parts).
Proof.
  intros Hrs. apply Forall_and in Hrs as [Hm Hp]. destruct (routes_by_parts rs Hm) as (R & HR & Hall). exists R. split; [done |].
  intros method path Hl Hw. specialize (Hall method path Hl). rewrite (parsePattern_whole path Hw) in Hall.
  pose proof (fun ps => registered_last_for rs method ps Hp) as Heq. simpl.
  destruct Hall as [[Hg Hno] | (n & params & ps & h & H1 & H2 & H3 & H4 & H5 & H6 & H7)].
  - left. split; [done |]. intros ps. rewrite <- Heq. apply Hno.
  - right. exists n, params, ps, h. rewrite <- Heq. split_and!; try done. intros qs. rewrite <- Heq. apply H6.
Qed.

Definition sample_routes : list (string * string * nat) :=
  [("GET", "/users/:id", 1%nat); ("GET", "users/me/", 2%nat); ("GET", "/files/*path", 3%nat);
   ("GET", "//users//:id", 4%nat); ("POST", "/users", 5%nat)].

Lemma router_dispatches_witness :
  (exists R n params, addRoutes newRouter sample_routes = Ret R /\ getRoute R "GET" "/users/7" = Ret (Some (n, params))
     /\ pattern n = "/users/:id" /\ params !! "id" = Some "7" /\ handlers R !! handler_key "GET" "/users/:id" = Some 4%nat)
  /\ exists R, addRoutes newRouter sample_routes = Ret R /\ forall method path, lacks "/" method -> star_last (segments path) ->
    let parts := segments path in
    (getRoute R method path = Ret None /\ forall ps, is_Some (registered sample_routes method ps) -> ~ matches ps parts)
    \/ exists n params ps h, getRoute R method path = Ret (Some (n, params)) /\ pattern n = canonical ps
         /\ matches ps parts
         /\ handlers R !! handler_key method (pattern n) = Some h /\ registered sample_routes method ps = Some h
         /\ (forall qs, is_Some (registered sample_routes method qs) -> matches qs parts -> ~ more_exact qs ps parts)
         /\ (NoDup (names ps) -> forall i p x, ps !! i = Some p -> param_name p = Some x -> params !! x = param_value p i parts).
Proof.
  split.
  - eexists _, _, _. split; [vm_compute; reflexivity |]. split; [vm_compute; reflexivity |]. split_and!; reflexivity.
  - apply (router_dispatches sample_routes). repeat constructor; discriminate.
Defined.

(** [getRoute] splits the path of a request as if it were a pattern: a segment
    that begins with a star ends it, and the request goes to the route of a
    shorter path. *)
Lemma star_segment_ends_the_path :
  exists R n params, addRoutes newRouter sample_routes = Ret R /\ getRoute R "GET" "/users/*/orders/9" = Ret (Some (n, params))
    /\ pattern n = "/users/:id" /\ params !! "id" = Some "*".
Proof. eexists _, _, _. split; [vm_compute; reflexivity |]. split; [vm_compute; reflexivity |]. split; reflexivity. Qed.
