(* ===== verification/HttpApp.v ===== *)
(** * HttpApp
    Requests through the HTTP framework ([swifty_http]: swifty.go, group.go,
    context.go, response.go, recovery.go, logger.go and [handle] of router.go):
    the groups of routes, the chain of middleware and the deferred response.

    A middleware is a tree of what it does: it changes the context, looks at
    it, calls [next], with or without a recover around the call, or panics.
    [net/http] is the response writer at the end of the chain: the first final
    status wins, and a status outside 100..999 panics. JSON encoding and
    templates are functions of the interface [Render]. *)
From S2P Require Import Prelude GoStrings HttpRouter.

(** ** context.go *)

Class Render := {
  any : Type;
  jobject : list (string * any) -> any;
  jstring : string -> any;
  jnil : any;
  marshal : any -> result string string;
  (** What [ExecuteTemplate] writes. *)
  template : string -> any -> string;
}.

(** What a panic carries: [http.ErrAbortHandler], or a value with its text. *)
Inductive panic := PAbort | PValue (message : string).

Record writer := mkWriter {
  wHeader : gmap string string;
  wSent : option (Z * gmap string string);
  wBody : string;
}.
#[export] Instance writer_eta : Eta writer := fun w => mkWriter (wHeader w) (wSent w) (wBody w).

Definition StatusOK : Z := 200.
Definition StatusNotFound : Z := 404.
Definition StatusInternalServerError : Z := 500.

(** [http.CanonicalHeaderKey]: a capital at the start and after each dash, if
    every byte is one of a token. *)
Definition token_byte (c : Ascii.ascii) : bool :=
  let x := Z.of_nat (Ascii.nat_of_ascii c) in
  bool_decide (48 <= x <= 57 \/ 65 <= x <= 90 \/ 97 <= x <= 122 \/ x ∈ [33; 35; 36; 37; 38; 39; 42; 43; 45; 46; 94; 95; 96; 124; 126]).
Definition upper (c : Ascii.ascii) : Ascii.ascii :=
  let x := Ascii.nat_of_ascii c in if decide (97 <= x <= 122)%nat then Ascii.ascii_of_nat (x - 32) else c.
Definition lower (c : Ascii.ascii) : Ascii.ascii :=
  let x := Ascii.nat_of_ascii c in if decide (65 <= x <= 90)%nat then Ascii.ascii_of_nat (x + 32) else c.
Fixpoint canonical_from (start : bool) (s : string) : string :=
  match s with
  | EmptyString => EmptyString
  | String c s => String (if start then upper c else lower c) (canonical_from (bool_decide (c = "-"%char)) s)
  end.
Definition CanonicalHeaderKey (key : string) : string :=
  if forallb token_byte (String.list_ascii_of_string key) then canonical_from true key else key.

Section Http.
Context `{Render}.

Inductive body :=
| BHtml (name : string) (data : any)
| BBytes (b : string)
| BString (s : string)
| BReader (content : string)
| BAny (v : any).

Record Context := mkContext {
  Path : string;
  Method : string;
  Status : Z;
  Body : option body;
  Type_ : string;
  Params : gmap string string;
  headers : gmap string string;
  flushed : bool;
  statusSet : bool;
  Writer : writer;
}.
#[export] Instance Context_eta : Eta Context := fun c =>
  mkContext (Path c) (Method c) (Status c) (Body c) (Type_ c) (Params c) (headers c) (flushed c) (statusSet c) (Writer c).

Definition newContext (w : writer) (method path : string) : Context :=
  mkContext path method StatusNotFound None EmptyString ∅ ∅ false false w.

Definition Throw (status : Z) (msg : string) (c : Context) : Context :=
  c <| Status := status |> <| statusSet := true |>
    <| Body := Some (BAny (jobject [("message", jstring msg); ("data", jnil)])) |>.
Definition SetStatus (status : Z) (c : Context) : Context := c <| Status := status |> <| statusSet := true |>.
Definition Set_ (key value : string) (c : Context) : Context := c <| headers := <[CanonicalHeaderKey key := value]> (headers c) |>.
Definition Param (key : string) (c : Context) : string := default EmptyString (Params c !! key).

(** ** response.go *)

Definition promoteStatus (c : Context) : Context :=
  if negb (statusSet c) && bool_decide (Status c = StatusNotFound) then c <| Status := StatusOK |> else c.

Definition JSON (obj : any) (c : Context) : Context := promoteStatus (c <| Type_ := "application/json" |> <| Body := Some (BAny obj) |>).
(** [String] of the text that [fmt.Sprintf] makes. *)
Definition String_ (text : string) (c : Context) : Context := promoteStatus (c <| Type_ := "text/plain" |> <| Body := Some (BString text) |>).
Definition Data (data : string) (c : Context) : Context := promoteStatus (c <| Body := Some (BBytes data) |>).
Definition HTML (name : string) (data : any) (c : Context) : Context := promoteStatus (c <| Type_ := "text/html" |> <| Body := Some (BHtml name data) |>).

Definition Redirect (url : string) (c : Context) : Context :=
  let c := if bool_decide (Status c ∈ [300; 301; 302; 303; 305; 307; 308]) then c else c <| Status := 302 |> in
  let c := c <| statusSet := true |> <| headers := <["Location" := url]> (headers c) |> in
  match Body c with
  | None => c <| Type_ := "text/plain" |> <| Body := Some (BString ("Redirecting to " ++ url)%string) |>
  | Some _ => c
  end.

Definition emptyStatus (code : Z) : bool := bool_decide (code = 204 \/ code = 205 \/ code = 304).

(** [net/http]: informational statuses, other than 101, are not final. *)
Definition WriteHeader (code : Z) (w : writer) : outcome writer :=
  if decide (100 <= code <= 999) then
    match wSent w with
    | Some _ => Ret w
    | None => if decide (code < 200 /\ code <> 101) then Ret w else Ret (w <| wSent := Some (code, wHeader w) |>)
    end
  else Panic "invalid WriteHeader code".

Definition bodyAllowed (code : Z) : bool := negb (bool_decide (100 <= code <= 199 \/ code = 204 \/ code = 304)).

Definition Write (s : string) (w : writer) : outcome writer :=
  let! w := match wSent w with Some _ => Ret w | None => WriteHeader StatusOK w end in
  match wSent w with
  | Some (code, _) => Ret (if bodyAllowed code then w <| wBody := (wBody w ++ s)%string |> else w)
  | None => Ret w
  end.

Definition setContentType (value : string) (w : writer) : writer :=
  if decide (value = EmptyString) then w
  else if decide (default EmptyString (wHeader w !! "Content-Type") = EmptyString) then w <| wHeader := <["Content-Type" := value]> (wHeader w) |>
  else w.

Definition set_type (value : string) (w : writer) : writer := w <| wHeader := <["Content-Type" := value]> (wHeader w) |>.

Definition send (type : string) (code : Z) (s : string) (w : writer) : outcome writer :=
  let! w := WriteHeader code (setContentType type w) in Write s w.

Definition or_type (t default_ : string) : string := if decide (t = EmptyString) then default_ else t.

(** The bytes of the fixed error bodies. *)
Definition quoted (s : string) : string := (String "034" EmptyString ++ s ++ String "034" EmptyString)%string.
Definition message_object (s : string) : string := ("{" ++ quoted "message" ++ ":" ++ quoted s ++ "}")%string.

Definition respondJSON (c : Context) (obj : any) : outcome Context :=
  match marshal obj with
  | Err _ =>
      let! w := WriteHeader StatusInternalServerError (set_type "application/json" (Writer c)) in
      let! w := Write (message_object "Internal Server Error") w in Ret (c <| Writer := w |>)
  | Ok data =>
      let c := c <| Type_ := or_type (Type_ c) "application/json" |> in
      let! w := send (Type_ c) (Status c) data (Writer c) in Ret (c <| Writer := w |>)
  end.

Definition respondString (c : Context) (s : string) : outcome Context :=
  let c := c <| Type_ := or_type (Type_ c) "text/plain" |> in
  let! w := send (Type_ c) (Status c) s (Writer c) in Ret (c <| Writer := w |>).

(** Bytes, and a reader copied to its end. *)
Definition respondBytes (c : Context) (data : string) : outcome Context :=
  let! w := send (Type_ c) (Status c) data (Writer c) in Ret (c <| Writer := w |>).

Definition respondHTML (loaded : bool) (c : Context) (name : string) (data : any) : outcome Context :=
  if loaded then
    let! w := send "text/html" (Status c) (template name data) (Writer c) in Ret (c <| Writer := w |>)
  else
    let! w := WriteHeader StatusInternalServerError (Writer c) in
    let! w := Write (message_object "HTML templates are not loaded") w in Ret (c <| Writer := w |>).

(** [respond] after its first check. *)
Definition settle (c : Context) : Context :=
  let c := if bool_decide (Body c <> None) && negb (statusSet c) && bool_decide (Status c = StatusNotFound) then c <| Status := StatusOK |> else c in
  if emptyStatus (Status c) then
    c <| Body := None |> <| headers := delete "Content-Type" (delete "Content-Length" (delete "Transfer-Encoding" (headers c))) |>
  else c.

Definition respond (loaded : bool) (c : Context) : outcome Context :=
  if flushed c then Ret c else
  let c := settle c in
  let c := c <| Writer := (Writer c) <| wHeader := headers c ∪ wHeader (Writer c) |> |> in
  match Body c with
  | None => let! w := WriteHeader (Status c) (Writer c) in Ret (c <| Writer := w |>)
  | Some (BHtml name data) => respondHTML loaded c name data
  | Some (BBytes b) => respondBytes c b
  | Some (BString s) => respondString c s
  | Some (BReader content) => respondBytes c content
  | Some (BAny v) => respondJSON c v
  end.

(** ** swifty.go: the chain *)

Inductive Middleware :=
| MReturn
| MPanic (why : panic)
| MDo (f : Context -> Context) (k : Middleware)
| MLook (k : Context -> Middleware)
| MNext (k : Middleware)
| MTryNext (k : option panic -> Middleware).

(** A context and what a call of the chain ended with, if it panicked. *)
Abbreviation ended := (Context * option panic)%type.

(** A middleware run with a given [next]; [I] is what [next] keeps. *)
Fixpoint exec {I} (next : I * Context -> I * Context * option panic) (m : Middleware) (st : I * Context) : I * Context * option panic :=
  match m with
  | MReturn => (st, None)
  | MPanic why => (st, Some why)
  | MDo f k => exec next k (st.1, f st.2)
  | MLook k => exec next (k st.2) st
  | MNext k => match next st with (st, None) => exec next k st | (st, Some why) => (st, Some why) end
  | MTryNext k => let '(st, why) := next st in exec next (k why) st
  end.

Definition next_twice : panic := PValue "swifty_http: next() called multiple times".

(** [dispatch i]; [ms] are the middlewares from [i] on, the state is [index]. *)
Fixpoint dispatch (final : option Middleware) (ms : list Middleware) (i : Z) (st : Z * Context) : Z * Context * option panic :=
  if decide (i <= st.1) then (st, Some next_twice) else
  let st := (i, st.2) in
  match ms with
  | [] => match final with Some m => exec (fun st => (st, None)) m st | None => (st, None) end
  | m :: ms => exec (dispatch final ms (i + 1)) m st
  end.

Definition compose (middlewares : list Middleware) (final : option Middleware) (c : Context) : ended :=
  let '(_, c, why) := dispatch final middlewares 0 (-1, c) in (c, why).

(** ** recovery.go and logger.go *)

Definition internal_error (c : Context) : Context :=
  c <| Status := StatusInternalServerError |> <| statusSet := true |> <| Type_ := EmptyString |> <| headers := ∅ |>
    <| Body := Some (BAny (jobject [("message", jstring "Internal Server Error")])) |>.

Definition Recovery : Middleware :=
  MTryNext (fun why =>
    match why with
    | None => MReturn
    | Some PAbort => MPanic PAbort
    | Some (PValue _) => MDo internal_error MReturn
    end).

Definition Logger : Middleware := MNext MReturn.

(** ** group.go *)

Fixpoint trim_slashes (fuel : nat) (prefix : string) : string :=
  match fuel with
  | O => prefix
  | S fuel =>
      if decide (1 < Z.of_nat (String.length prefix)) then
        match last_byte prefix with
        | Some c => if decide (c = "/"%char) then trim_slashes fuel (drop_last prefix) else prefix
        | None => prefix
        end
      else prefix
  end.

Definition normalizePrefix (prefix : string) : string :=
  if decide (prefix = EmptyString) then EmptyString else
  let prefix := if HasPrefix prefix "/" then prefix else ("/" ++ prefix)%string in
  let prefix := trim_slashes (String.length prefix) prefix in
  if decide (prefix = "/") then EmptyString else prefix.

Definition matchRouterPath (requestPath routerPrefix : string) : bool :=
  if decide (routerPrefix = EmptyString \/ routerPrefix = "/") then true
  else if negb (HasPrefix requestPath routerPrefix) then false
  else match TrimPrefix requestPath routerPrefix with EmptyString => true | String c _ => bool_decide (c = "/"%char) end.

(** The groups in the order of their creation; a group is known by its place. *)
Record Router := mkGroup { prefix : string; middlewares : list Middleware }.

Record Application := mkApplication {
  table : router Middleware;
  routers : list Router;
  htmlLoaded : bool;
}.
#[export] Instance Application_eta : Eta Application := fun a => mkApplication (table a) (routers a) (htmlLoaded a).

Definition New : Application := mkApplication newRouter [mkGroup EmptyString []] false.

(** [r.Router(prefix)] of group [i]; the new group is the last one. *)
Definition app_Router (a : Application) (i : nat) (pre : string) : outcome (Application * nat) :=
  let! r := index (routers a) (Z.of_nat i) in
  Ret (a <| routers := routers a ++ [mkGroup (prefix r ++ normalizePrefix pre)%string []] |>, length (routers a)).

Definition app_Use (a : Application) (i : nat) (ms : list Middleware) : outcome Application :=
  let! r := index (routers a) (Z.of_nat i) in
  Ret (a <| routers := <[i := mkGroup (prefix r) (middlewares r ++ ms)]> (routers a) |>).

Definition app_addRoute (a : Application) (i : nat) (method comp : string) (handler : Middleware) : outcome Application :=
  let! r := index (routers a) (Z.of_nat i) in
  let! t := addRoute (table a) method (prefix r ++ comp)%string handler in
  Ret (a <| table := t |>).

Definition all_methods : list string := ["GET"; "POST"; "PUT"; "DELETE"; "PATCH"; "HEAD"; "OPTIONS"].

Definition app_All (a : Application) (i : nat) (pattern : string) (handler : Middleware) : outcome Application :=
  ofold (fun m a => app_addRoute a i m pattern handler) all_methods a.

Definition Default : outcome Application := app_Use New 0 [Logger; Recovery].

(** The middlewares of [ServeHTTP]. *)
Definition chain (a : Application) (path : string) : list Middleware :=
  flat_map (fun r => if matchRouterPath path (prefix r) then middlewares r else []) (routers a).

Definition not_found (c : Context) : Context :=
  c <| Status := StatusNotFound |> <| statusSet := true |> <| Body := Some (BString ("404 NOT FOUND: " ++ Path c ++ String "010" EmptyString)%string) |>.

Definition handle (a : Application) (c : Context) (ms : list Middleware) : outcome ended :=
  let! r := getRoute (table a) (Method c) (Path c) in
  let '(c, why) :=
    match r with
    | Some (n, params) => compose ms (handlers (table a) !! handler_key (Method c) (pattern n)) (c <| Params := params |>)
    | None => compose ms (Some (MDo not_found MReturn)) c
    end in
  match why with
  | Some why => Ret (c, Some why)
  | None => let! c := respond (htmlLoaded a) c in Ret (c, None)
  end.

(** A panic here ends the connection. *)
Definition ServeHTTP (a : Application) (w : writer) (method path : string) : outcome ended :=
  handle a (newContext w method path) (chain a path).

End Http.
Arguments Context {_}.
Arguments body {_}.
