(* ===== verification/HttpAppTheorems.v ===== *)
(** * HttpAppTheorems
    What a request through the HTTP framework guarantees: the chain calls every
    middleware at most once and in order, a panic is answered with 500, the
    response is the one the context asks for, and which group's middleware a
    request passes. *)
From S2P Require Import Prelude GoStrings HttpRouter HttpApp.

Section Chain.
Context `{Render}.

(** ** The chain *)

(** [next] as each middleware would have it if it could be called once. *)
Definition once (next : Context -> Context * option panic) (st : bool * Context) : bool * Context * option panic :=
  if st.1 then (st, Some next_twice) else let '(c, why) := next st.2 in ((true, c), why).

(** Middlewares nested in each other, with nothing shared between them. *)
Fixpoint nest (final : option Middleware) (ms : list Middleware) (c : Context) : Context * option panic :=
  match ms with
  | [] =>
      match final with
      | Some m => let '(_, c, why) := exec (fun st => (st, None)) m (tt, c) in (c, why)
      | None => (c, None)
      end
  | m :: ms => let '(_, c, why) := exec (once (nest final ms)) m (false, c) in (c, why)
  end.

(** A middleware run with two kinds of [next] that stay related. *)
Lemma exec_rel {I J} (R : I -> J -> Prop) (next : I * Context -> I * Context * option panic) (next' : J * Context -> J * Context * option panic) m i j c :
  (forall i j c, R i j -> R (next (i, c)).1.1 (next' (j, c)).1.1 /\ (next (i, c)).1.2 = (next' (j, c)).1.2 /\ (next (i, c)).2 = (next' (j, c)).2) ->
  R i j -> R (exec next m (i, c)).1.1 (exec next' m (j, c)).1.1
    /\ (exec next m (i, c)).1.2 = (exec next' m (j, c)).1.2 /\ (exec next m (i, c)).2 = (exec next' m (j, c)).2.
Proof.
  intros Hn. revert i j c. induction m as [| why | f k IH | k IH | k IH | k IH]; intros i j c Hr; cbn [exec]; try done.
  - by apply IH.
  - by apply IH.
  - destruct (Hn i j c Hr) as (H1 & H2 & H3). destruct (next (i, c)) as [[i' c'] w], (next' (j, c)) as [[j' d'] w']. simpl in *. subst.
    destruct w'; [done |]. by apply IH.
  - destruct (Hn i j c Hr) as (H1 & H2 & H3). destruct (next (i, c)) as [[i' c'] w], (next' (j, c)) as [[j' d'] w']. simpl in *. subst. by apply IH.
Qed.

Lemma dispatch_nest final ms i j c :
  j < i -> i <= (dispatch final ms i (j, c)).1.1
    /\ (dispatch final ms i (j, c)).1.2 = (nest final ms c).1 /\ (dispatch final ms i (j, c)).2 = (nest final ms c).2.
Proof.
  revert i j c. induction ms as [| m ms IH]; intros i j c Hj; cbn [dispatch nest]; rewrite decide_False by (simpl; lia); cbn [fst snd].
  - destruct final as [m |]; [| simpl; auto with lia].
    pose proof (exec_rel (fun x (_ : unit) => i <= x) (fun st => (st, None)) (fun st => (st, None)) m i tt c) as Hx.
    destruct Hx as (H1 & H2 & H3); [done | simpl; lia |].
    destruct (exec _ m (tt, c)) as [[u d] w]. done.
  - pose proof (exec_rel (fun x (called : bool) => i <= x /\ (called = false -> x = i) /\ (called = true -> i < x))
      (dispatch final ms (i + 1)) (once (nest final ms)) m i false c) as Hx.
    destruct Hx as ((H1 & _) & H2 & H3); [| split; [lia | done] |].
    + intros x called d (Hx & Hf & Ht). unfold once. cbn [fst snd]. destruct called.
      * specialize (Ht eq_refl). destruct ms; cbn [dispatch]; (rewrite decide_True by (simpl; lia)); done.
      * rewrite (Hf eq_refl). destruct (IH (i + 1) i d) as (G1 & G2 & G3); [lia |].
        destruct (nest final ms d) as [e w]. simpl in *. split; [| done]. split; [lia |]. split; [done | intros _; lia].
    + destruct (exec _ m (false, c)) as [[u d] w]. done.
Qed.

Lemma compose_nest (ms : list Middleware) (final : option Middleware) (c : Context) :
  compose ms final c = nest final ms c.
Proof.
  unfold compose. destruct (dispatch_nest final ms 0 (-1) c) as (_ & H2 & H3); [lia |].
  destruct (dispatch final ms 0 (-1, c)) as [[x d] w], (nest final ms c) as [e v]. simpl in *. by subst.
Qed.

(** What wraps around [next]: the first one in is the last one out. *)
Definition around (pre post : Context -> Context) : Middleware := MDo pre (MNext (MDo post MReturn)).

(** C21: the chain is the nesting of its middlewares. The index that [compose]
    shares between all of them, and that any of them can advance, has the effect
    of a [next] for each that works once: everything below a middleware runs
    inside its first call of [next], in order and at most once, whoever panics
    and whoever recovers; a second call panics without running anything; and
    the handler is called with a [next] that does nothing. In particular,
    middlewares that wrap around [next] run as an onion around the handler. *)
Theorem compose_is_nesting :
  (forall (ms : list Middleware) (final : option Middleware) (c : Context), compose ms final c = nest final ms c)
  /\ (forall (fs : list ((Context -> Context) * (Context -> Context))) (h : Context -> Context) (c : Context),
        compose ((fun f => around f.1 f.2) <$> fs) (Some (MDo h MReturn)) c
        = (foldr (fun f d => f.2 d) (h (foldl (fun d f => f.1 d) c fs)) fs, None)).
Proof.
  split; [exact compose_nest |]. intros fs h c. rewrite compose_nest. revert c. induction fs as [| [pre post] fs IH]; intros c; [done |].
  cbn [fmap list_fmap nest]. unfold around. cbn [exec once fst snd]. by rewrite IH.
Qed.

(** ** The response *)

(** A body that is set turns the status nobody chose from 404 to 200. *)
Definition final_status (c : Context) : Z :=
  if decide (Body c <> None /\ statusSet c = false /\ Status c = StatusNotFound) then StatusOK else Status c.

(** What a body is sent as; the error bodies have a status of their own. *)
Definition rendered (loaded : bool) (code : Z) (b : option body) : Z * string :=
  match b with
  | None => (code, EmptyString)
  | Some (BHtml name data) =>
      if loaded then (code, template name data)
      else (StatusInternalServerError, message_object "HTML templates are not loaded")
  | Some (BBytes b) => (code, b)
  | Some (BString s) => (code, s)
  | Some (BReader content) => (code, content)
  | Some (BAny v) =>
      match marshal v with
      | Ok data => (code, data)
      | Err _ => (StatusInternalServerError, message_object "Internal Server Error")
      end
  end.

Definition answered (w : writer) (code : Z) (text : string) : Prop :=
  exists hdr, wSent w = Some (code, hdr) /\ wBody w = text.

Lemma WriteHeader_first code w : 200 <= code <= 999 -> wSent w = None -> WriteHeader code w = Ret (w <| wSent := Some (code, wHeader w) |>).
Proof. intros Hc Hw. unfold WriteHeader. rewrite decide_True by lia. rewrite Hw. by rewrite decide_False by lia. Qed.

Lemma Write_sent s w code hdr : wSent w = Some (code, hdr) -> bodyAllowed code = true -> Write s w = Ret (w <| wBody := (wBody w ++ s)%string |>).
Proof. intros Hw Ha. unfold Write. rewrite Hw. cbn [obind]. by rewrite Hw, Ha. Qed.

Lemma allowed code : 200 <= code -> emptyStatus code = false -> bodyAllowed code = true.
Proof. unfold emptyStatus, bodyAllowed. intros Hc He%bool_decide_eq_false. apply negb_true_iff, bool_decide_false. lia. Qed.

(** A status and a text on a writer that has sent nothing. *)
Lemma answer_fresh code s w :
  200 <= code <= 999 -> bodyAllowed code = true -> wSent w = None -> wBody w = EmptyString ->
  exists w', (let! w := WriteHeader code w in Write s w) = Ret w' /\ wSent w' = Some (code, wHeader w) /\ wBody w' = s.
Proof.
  intros Hc Ha Hs Hb. rewrite WriteHeader_first by done. cbn [obind]. erewrite Write_sent; [| reflexivity | done].
  eexists. split; [done |]. simpl. by rewrite Hb, append_nil.
Qed.

(** [setContentType] and [set_type] touch the headers alone. *)
Lemma setContentType_rest t w : wSent (setContentType t w) = wSent w /\ wBody (setContentType t w) = wBody w.
Proof. unfold setContentType. repeat case_decide; done. Qed.

Lemma send_fresh t code s w :
  200 <= code <= 999 -> bodyAllowed code = true -> wSent w = None -> wBody w = EmptyString ->
  exists w', send t code s w = Ret w' /\ answered w' code s.
Proof.
  intros Hc Ha Hs Hb. destruct (setContentType_rest t w) as [H1 H2]. unfold send.
  destruct (answer_fresh code s (setContentType t w)) as (w' & -> & Hw & Hb'); [done | done | congruence | congruence |]. unfold answered. eauto.
Qed.

Lemma settle_status c : Status (settle c) = final_status c.
Proof.
  unfold settle, final_status.
  assert (Hb : bool_decide (Body c <> None) && negb (statusSet c) && bool_decide (Status c = StatusNotFound)
    = bool_decide (Body c <> None /\ statusSet c = false /\ Status c = StatusNotFound)).
  { apply eq_true_iff_eq. rewrite !andb_true_iff, negb_true_iff, !bool_decide_eq_true. tauto. }
  rewrite Hb. destruct (decide (_ /\ _ /\ _)); [rewrite bool_decide_true by done | rewrite bool_decide_false by done]; destruct (emptyStatus _); done.
Qed.

Lemma settle_rest c : flushed (settle c) = flushed c /\ Writer (settle c) = Writer c
  /\ Body (settle c) = (if emptyStatus (final_status c) then None else Body c).
Proof.
  pose proof (settle_status c) as Hs. unfold settle in *. destruct (bool_decide (Body c <> None) && _ && _); destruct (emptyStatus _) eqn:He;
    simpl in Hs; rewrite <- Hs; simpl; rewrite ?He; done.
Qed.

(** A response that nobody sent by hand is sent once, from the context as
    the chain left it: the status is the one chosen, or 200 in place of the
    default 404 when there is a body; the body is rendered by its kind, and left
    out for a status that has none; a body that cannot be rendered is answered
    with 500; and a flushed context is left alone. *)
Theorem respond_sends_the_context (loaded : bool) (c : Context) :
  wSent (Writer c) = None -> wBody (Writer c) = EmptyString -> 200 <= final_status c <= 999 ->
  exists c', respond loaded c = Ret c' /\
    if flushed c then c' = c
    else if emptyStatus (final_status c) then answered (Writer c') (final_status c) EmptyString
    else let '(code, text) := rendered loaded (final_status c) (Body c) in answered (Writer c') code text.
Proof.
  intros Hs Hb Hc. unfold respond. destruct (flushed c); [eauto |]. destruct (settle_rest c) as (_ & Hw & Hbody). pose proof (settle_status c) as Hst.
  cbn [set]. simpl. rewrite Hbody. destruct (emptyStatus (final_status c)) eqn:He.
  - rewrite Hst, WriteHeader_first by (simpl; by rewrite ?Hw). cbn [obind]. eexists. split; [done |]. eexists. simpl. split; [done |]. by rewrite Hw.
  - pose proof (allowed _ (proj1 Hc) He) as Ha. set (c0 := settle c) in *. set (w := (Writer c0) <| wHeader := headers c0 ∪ wHeader (Writer c0) |>).
    assert (Hws : wSent w = None) by (unfold w; simpl; by rewrite Hw). assert (Hwb : wBody w = EmptyString) by (unfold w; simpl; by rewrite Hw).
    assert (Hsend : forall t s, exists w', send t (Status c0) s w = Ret w' /\ answered w' (final_status c) s) by (intros; rewrite Hst; by apply send_fresh).
    destruct (Body c) as [[name data | b | s | content | v] |]; cbn [rendered].
    + unfold respondHTML. simpl. fold w. destruct loaded.
      * destruct (Hsend "text/html" (template name data)) as (w' & -> & Hw'). cbn [obind]. eauto.
      * destruct (answer_fresh StatusInternalServerError (message_object "HTML templates are not loaded") w) as (w' & Ho & H1 & H2); [done.. |].
        destruct (WriteHeader _ w) as [w1 |]; [| done]. cbn [obind] in *. rewrite Ho. cbn [obind]. eexists. split; [done |]. unfold answered. simpl. eauto.
    + unfold respondBytes. simpl. fold w. destruct (Hsend (Type_ c0) b) as (w' & -> & Hw'). cbn [obind]. eauto.
    + unfold respondString. simpl. fold w. destruct (Hsend (or_type (Type_ c0) "text/plain") s) as (w' & -> & Hw'). cbn [obind]. eauto.
    + unfold respondBytes. simpl. fold w. destruct (Hsend (Type_ c0) content) as (w' & -> & Hw'). cbn [obind]. eauto.
    + unfold respondJSON. destruct (marshal v) as [data | e].
      * simpl. fold w. destruct (Hsend (or_type (Type_ c0) "application/json") data) as (w' & -> & Hw'). cbn [obind]. eauto.
      * simpl. fold w. destruct (answer_fresh StatusInternalServerError (message_object "Internal Server Error") (set_type "application/json" w)) as (w' & Ho & H1 & H2); [done.. |].
        destruct (WriteHeader _ _) as [w1 |]; [| done]. cbn [obind] in *. rewrite Ho. cbn [obind]. eexists. split; [done |]. unfold answered. simpl. eauto.
    + simpl. fold w. rewrite Hst, WriteHeader_first by done. cbn [obind]. eexists. split; [done |]. eexists. split; [done |]. done.
Qed.

(** ** Panics *)

(** Behind [Recovery] a handler cannot take a request down: when anything
    after it in the chain panics, the answer is the JSON error with status 500
    and none of the headers set so far, unless the response was already sent by
    hand; only [http.ErrAbortHandler] goes through, and a chain that does not
    panic is answered from its context. *)
Theorem recovery_answers_500 (a : Application) (c : Context) (rest : list Middleware) (final : option Middleware) :
  let '(c1, why) := nest final rest c in
  compose (Logger :: Recovery :: rest) final c =
    match why with
    | None => (c1, None)
    | Some PAbort => (c1, Some PAbort)
    | Some (PValue _) => (internal_error c1, None)
    end
  /\ (wSent (Writer c1) = None -> wBody (Writer c1) = EmptyString -> flushed c1 = false -> forall m, why = Some (PValue m) ->
      exists c2, respond (htmlLoaded a) (internal_error c1) = Ret c2
        /\ answered (Writer c2) StatusInternalServerError
             (match marshal (jobject [("message", jstring "Internal Server Error")]) with
              | Ok text => text
              | Err _ => message_object "Internal Server Error"
              end)).
Proof.
  destruct (nest final rest c) as [c1 why] eqn:Hn. split.
  - rewrite compose_nest. cbn [nest Logger exec once fst snd Recovery]. rewrite Hn. cbn [exec]. destruct why as [[| m] |]; done.
  - intros Hs Hb Hf m _. destruct (respond_sends_the_context (htmlLoaded a) (internal_error c1)) as (c2 & Hr & Ha); [done | done | done |].
    simpl in Ha. rewrite Hf in Ha. exists c2. split; [done |]. unfold final_status in Ha. simpl in Ha.
    destruct (marshal (jobject [("message", jstring "Internal Server Error")])); exact Ha.
Qed.

(** ** Groups *)

(** A segment that matches itself alone. *)
Definition static (p : string) : Prop := is_star p = false /\ is_colon p = false.

Lemma TrimPrefix_prefix s p : HasPrefix s p = true -> exists t, s = (p ++ t)%string /\ TrimPrefix s p = t.
Proof. intros [t ->]%HasPrefix_true. exists t. by rewrite TrimPrefix_app. Qed.

(** A prefix covers itself and what continues it with a slash. *)
Lemma matchRouterPath_spec path pre :
  matchRouterPath path pre = true <->
  pre = EmptyString \/ pre = "/" \/ path = pre \/ exists t, path = (pre ++ String "/" t)%string.
Proof.
  unfold matchRouterPath. destruct (decide (pre = EmptyString \/ pre = "/")) as [Hd | Hd]; [tauto |].
  destruct (HasPrefix path pre) eqn:Hp; cbn [negb].
  - destruct (TrimPrefix_prefix path pre Hp) as (t & -> & ->). split.
    + destruct t as [| c t]; [rewrite string_app_nil; auto |]. intros ->%bool_decide_eq_true. eauto.
    + destruct t as [| c t]; [done |]. intros [? | [? | [He | [u He]]]]; [tauto | tauto | |]; apply bool_decide_eq_true.
      * exfalso. clear -He. induction pre as [| x pre IH]; [by rewrite append_nil in He |]. rewrite append_cons in He. injection He. auto.
      * clear -He. induction pre as [| x pre IH]; rewrite ?append_nil, ?append_cons in He; [by injection He |]. injection He. auto.
  - split; [done |]. intros [? | [? | [-> | [u ->]]]]; [tauto | tauto | |]; exfalso.
    + assert (Ht : HasPrefix pre pre = true) by (apply HasPrefix_true; exists EmptyString; by rewrite string_app_nil). congruence.
    + assert (Ht : HasPrefix (pre ++ String "/" u) pre = true) by (apply HasPrefix_true; eauto). congruence.
Qed.

(** A path of segments between single slashes. *)
Definition clean (path : string) : Prop :=
  exists words, words <> [] /\ Forall (fun w => w <> EmptyString /\ lacks "/" w) words /\ path = canonical words.

Lemma keep_parts_app qs vs : valid qs -> Forall static qs -> keep_parts (qs ++ vs) = qs ++ keep_parts vs.
Proof.
  induction qs as [| q qs IH]; [done |]. intros (Hne & _ & _ & Hv) [[Hs _] Hst]%Forall_cons. cbn [app keep_parts]. destruct q as [| c q]; [done |].
  rewrite star_cons in Hs. apply bool_decide_eq_false in Hs. by rewrite decide_False, IH.
Qed.

Lemma Split_canonical words rest : Forall (lacks "/") words -> words <> [] -> Split (canonical words ++ String "/" rest) "/" = EmptyString :: words ++ Split rest "/".
Proof.
  intros Hw Hne. unfold canonical. rewrite <- string_app_assoc. change ("/" ++ (Join words "/" ++ String "/" rest))%string with ("" ++ String "/" (Join words "/" ++ String "/" rest))%string.
  rewrite Split_word by done. f_equal. induction words as [| w words IH]; [done |]. apply Forall_cons in Hw as [Hw Hws]. destruct words as [| w' words].
  - by rewrite Split_word.
  - change (Join (w :: w' :: words) "/") with (w ++ String "/" (Join (w' :: words) "/"))%string. rewrite <- string_app_assoc, append_cons, Split_word by done.
    rewrite IH by done. done.
Qed.

(** A static prefix is a prefix of the segments. *)
Lemma parse_prefix qs comp : valid qs -> Forall static qs -> qs <> [] -> comp = EmptyString \/ HasPrefix comp "/" = true ->
  exists ps, parsePattern (canonical qs ++ comp) = qs ++ ps.
Proof.
  intros Hv Hst Hne [-> | Hc].
  - exists []. rewrite string_app_nil, app_nil_r. by apply parse_canonical.
  - apply HasPrefix_true in Hc as [t ->]. change ("/" ++ t)%string with (String "/" t). unfold parsePattern.
    rewrite Split_canonical by (done || by apply valid_lacks). cbn [keep_parts]. rewrite keep_parts_app by done. eauto.
Qed.

Lemma matches_static qs ps parts : Forall static qs -> matches (qs ++ ps) parts -> exists rest, parts = qs ++ rest.
Proof.
  intros Hst. revert parts. induction Hst as [| q qs [Hs Hc] _ IH]; intros parts Hm; [by exists parts |].
  destruct parts as [| s parts]; [done |]. cbn [app matches] in Hm. rewrite Hs, Hc in Hm. destruct Hm as [[-> | ?] Hm]; [| done].
  destruct (IH parts Hm) as [rest ->]. by exists rest.
Qed.

Lemma keep_parts_prefix words qs rest : Forall (fun w => w <> EmptyString /\ lacks "/" w) words -> Forall static qs -> keep_parts words = qs ++ rest -> exists more, words = qs ++ more.
Proof.
  intros Hw Hst. revert words Hw. induction Hst as [| q qs [Hs _] _ IH]; intros words Hw Hk; [by exists words |].
  destruct Hw as [| w words [Hne _] Hws]; [done |]. cbn [keep_parts] in Hk. destruct w as [| c w]; [done |].
  destruct (decide (c = "*"%char)) as [-> |]; injection Hk as <- Hk.
  - by rewrite star_cons in Hs.
  - destruct (IH words Hws Hk) as [more ->]. by exists more.
Qed.

(** The middleware of a group guards its routes. When the prefix of a group
    has no parameters, a request for a clean path that is dispatched to a route
    registered through the group passes all of the group's middleware, in the
    order given, whatever other groups there are. *)
Theorem group_middleware_guards (a : Application) (i : nat) (r : Router) (qs : list string) (comp path : string) :
  routers a !! i = Some r -> prefix r = canonical qs -> valid qs -> qs <> [] -> Forall static qs ->
  (comp = EmptyString \/ HasPrefix comp "/" = true) -> clean path ->
  matches (parsePattern (prefix r ++ comp)) (parsePattern path) ->
  exists before rest, chain a path = before ++ middlewares r ++ rest.
Proof.
  intros Hr Hpre Hv Hne Hst Hcomp (words & Hwne & Hw & Hpath) Hm. rewrite Hpre in Hm. destruct (parse_prefix qs comp Hv Hst Hne Hcomp) as [ps Hps].
  rewrite Hps in Hm. destruct (matches_static qs ps _ Hst Hm) as [rest Hrest].
  assert (Hlw : Forall (lacks "/") words) by (eapply Forall_impl; [exact Hw | by intros ? [_ ?]]).
  assert (Hkeep : parsePattern path = keep_parts words).
  { rewrite Hpath. unfold parsePattern, canonical. change ("/" ++ Join words "/")%string with ("" ++ String "/" (Join words "/"))%string.
    rewrite Split_word by done. destruct words as [| w words]; [done |]. change "/" with (String "/" EmptyString). by rewrite Split_Join. }
  rewrite Hkeep in Hrest. destruct (keep_parts_prefix words qs rest Hw Hst Hrest) as [more Hmore].
  assert (Hmatch : matchRouterPath path (prefix r) = true).
  { apply matchRouterPath_spec. right. right. rewrite Hpath, Hpre, Hmore. destruct more as [| w more]; [left; by rewrite app_nil_r | right].
    exists (Join (w :: more) "/"). unfold canonical. rewrite Join_app by done. change (String "/" (Join (w :: more) "/")) with ("/" ++ Join (w :: more) "/")%string. by rewrite !string_app_assoc. }
  apply list_elem_of_split_length in Hr as (l1 & l2 & Heq & _). unfold chain. rewrite Heq, flat_map_app. cbn [flat_map]. rewrite Hmatch. eauto.
Qed.

(** One more slash in front of a path skips the middleware of the groups.
    Routing drops empty segments, so the request is dispatched to the same route
    with the same parameters; the prefixes of the groups are compared with the
    path as it came, so that only the middleware of the root runs. *)
Theorem extra_slash_skips_groups (a : Application) (method path : string) :
  HasPrefix path "/" = true ->
  (forall r, r ∈ routers a -> prefix r = EmptyString \/ exists c p, prefix r = String "/" (String c p) /\ c <> "/"%char) ->
  getRoute (table a) method ("/" ++ path) = getRoute (table a) method path
  /\ chain a ("/" ++ path) = flat_map (fun r => if decide (prefix r = EmptyString) then middlewares r else []) (routers a).
Proof.
  intros [t ->]%HasPrefix_true Hpre. split.
  - unfold getRoute. assert (Hp : parsePattern ("/" ++ "/" ++ t) = parsePattern ("/" ++ t)); [| by rewrite Hp].
    unfold parsePattern. change ("/" ++ "/" ++ t)%string with ("" ++ String "/" ("/" ++ t))%string. by rewrite Split_word.
  - unfold chain. induction (routers a) as [| r rs IH]; [done |]. cbn [flat_map]. rewrite IH by (intros; apply Hpre; by right). f_equal.
    destruct (Hpre r) as [He | (c & p & He & Hc)]; [by left | by rewrite He |]. rewrite He, decide_False by done.
    assert (Hm : matchRouterPath ("/" ++ ("/" ++ t)) (String "/" (String c p)) = false); [| by rewrite Hm].
    apply not_true_iff_false. rewrite matchRouterPath_spec. change ("/" ++ ("/" ++ t))%string with (String "/" (String "/" t)).
    intros [? | [? | [[= ? _] | [u Hu]]]]; try congruence. rewrite !append_cons in Hu. injection Hu. congruence.
Qed.
End Chain.

(** ** Concrete requests *)

(** Text for JSON, enough to run the framework on. *)
Definition text_render : Render :=
  {| any := string; jobject fs := ("{" ++ Join ((fun f => quoted f.1 ++ ":" ++ f.2) <$> fs) "," ++ "}")%string;
     jstring := quoted; jnil := "null"; marshal v := Ok v; template name v := v |}.
#[local] Existing Instance text_render.

Definition fresh_writer : writer := mkWriter ∅ None EmptyString.

(** A group /admin with a guard that refuses, and one route in it. *)
Definition guard : Middleware := MDo (Throw 401 "no") MReturn.
Definition admin_app : outcome Application :=
  let! a := Default in
  let! r := app_Router a 0 "admin/" in
  let! a := app_Use r.1 r.2 [guard] in
  app_addRoute a r.2 "GET" "/users/:id" (MLook (fun c => MDo (String_ ("user " ++ Param "id" c)) MReturn)).

Definition status_of (r : outcome (Context * option panic)) : option (Z * string) :=
  match r with Ret (c, None) => pr ← wSent (Writer c); Some (pr.1, wBody (Writer c)) | _ => None end.
Definition request (path : string) : option (Z * string) :=
  match admin_app with Ret a => status_of (ServeHTTP a fresh_writer "GET" path) | Panic _ => None end.

Lemma respond_sends_the_context_witness :
  exists c', respond false (String_ "hello" (newContext fresh_writer "GET" "/")) = Ret c' /\ answered (Writer c') 200 "hello".
Proof. apply (respond_sends_the_context false (String_ "hello" (newContext fresh_writer "GET" "/"))); by cbn. Defined.

Lemma recovery_answers_500_witness :
  let bad := MDo (Set_ "X-Trace" "1") (MPanic (PValue "boom")) in
  let c := newContext fresh_writer "GET" "/" in
  exists c2, respond false (internal_error (Set_ "X-Trace" "1" c)) = Ret c2
    /\ compose [Logger; Recovery; bad] None c = (internal_error (Set_ "X-Trace" "1" c), None)
    /\ answered (Writer c2) 500 (message_object "Internal Server Error").
Proof.
  intros bad c. destruct (recovery_answers_500 New c [bad] None) as [Hc Hr]. destruct (Hr eq_refl eq_refl eq_refl "boom" eq_refl) as (c2 & H2 & Ha).
  exists c2. split; [exact H2 |]. split; [exact Hc | exact Ha].
Defined.

Definition admin : Application := match admin_app with Ret a => a | Panic _ => New end.

Lemma group_middleware_guards_witness :
  request "/admin/users/7" = Some (401, ("{" ++ quoted "message" ++ ":" ++ quoted "no" ++ "," ++ quoted "data" ++ ":null}")%string)
  /\ exists before rest, chain admin "/admin/users/7" = before ++ [guard] ++ rest.
Proof.
  split; [vm_compute; reflexivity |].
  apply (group_middleware_guards admin 1 (mkGroup "/admin" [guard]) ["admin"] "/users/:id" "/admin/users/7"); try done.
  - constructor; [by split | constructor].
  - by right.
  - exists ["admin"; "users"; "7"]. split; [done |]. split; [| done]. repeat (constructor; [by cbn; split_and! |]). constructor.
  - vm_compute. split_and!; auto.
Defined.

Lemma extra_slash_skips_groups_witness :
  request "//admin/users/7" = Some (200, "user 7")
  /\ (getRoute (table admin) "GET" "//admin/users/7" = getRoute (table admin) "GET" "/admin/users/7"
      /\ chain admin "//admin/users/7" = flat_map (fun r => if decide (prefix r = EmptyString) then middlewares r else []) (routers admin)).
Proof.
  split; [vm_compute; reflexivity |].
  apply (extra_slash_skips_groups admin "GET" "/admin/users/7"); [done |].
  intros r [-> | [-> | Hr]%elem_of_cons]%elem_of_cons; [by left | right | by apply elem_of_nil in Hr].
  by exists "a"%char, "dmin".
Defined.

(** The prefix of a group is compared as text: with a parameter in it, it never
    covers the routes below it. *)
Lemma parameter_prefix_never_covers : matchRouterPath "/users/7/posts" "/users/:id" = false.
Proof. reflexivity. Qed.
