(* ===== verification/HttpWebSocket.v ===== *)
(** * HttpWebSocket
    The WebSocket connection of [swifty_http/websocket.go] after the handshake:
    frames, the reassembly of fragmented messages, and the loops that answer
    control frames.

    What the connection delivers is a list of bytes and the error that follows
    it. Writes, callbacks and the closing of the connection are events, in the
    order in which the code causes them; errors of writes are ignored by the
    code and here. The locks only order whole calls. *)
From S2P Require Import Prelude GoBytes.
Definition TextMessage : Z := 1.
Definition BinaryMessage : Z := 2.
Definition CloseMessage : Z := 8.
Definition PingMessage : Z := 9.
Definition PongMessage : Z := 10.
Definition continuationFrame : Z := 0.
Definition maxFrameSize : Z := 65536.
Definition closeNormal : Z := 1000.
Definition ErrWSClosed : string := "websocket: connection closed".
Definition ErrWSInvalidFrame : string := "websocket: invalid frame".

(** ** Reading *)

Record source := mkSource { input : bytes; readErr : string }.

(** A read returns a value or an error, and what is left. *)
Definition reader (A : Type) : Type := source -> result string A * source.
Definition rret {A} (a : A) : reader A := fun s => (Ok a, s).
Definition rfail {A} (e : string) : reader A := fun s => (Err e, s).
Definition rbind {A B} (m : reader A) (k : A -> reader B) : reader B :=
  fun s => match m s with (Ok a, s) => k a s | (Err e, s) => (Err e, s) end.
Notation "'let?' x := m 'in' k" := (rbind m (fun x => k))
  (at level 10, x pattern at level 0, m at level 100, k at level 200) : go_scope.

(** [io.ReadFull] *)
Definition ReadFull (n : Z) : reader bytes := fun s =>
  if decide (n <= zlen (input s)) then (Ok (take (Z.to_nat n) (input s)), mkSource (drop (Z.to_nat n) (input s)) (readErr s))
  else (Err (if decide (readErr s = "EOF" /\ input s <> []) then "unexpected EOF" else readErr s), mkSource [] (readErr s)).

Definition at_ (l : bytes) (i : nat) : Z := default 0 (l !! i).

(** [payload[i] ^= maskKey[i%4]] *)
Definition mask (key payload : bytes) : bytes := imap (fun i b => Z.lxor b (at_ key (i mod 4))) payload.

Definition is_data (opcode : Z) : bool := bool_decide (opcode = continuationFrame \/ opcode = TextMessage \/ opcode = BinaryMessage).
Definition is_control (opcode : Z) : bool := bool_decide (opcode = CloseMessage \/ opcode = PingMessage \/ opcode = PongMessage).

Definition readFrame (limit : Z) : reader (Z * bool * bytes) :=
  let? header := ReadFull 2 in
  let h0 := at_ header 0 in
  let h1 := at_ header 1 in
  let fin := negb (bool_decide (Z.land h0 128 = 0)) in
  if negb (bool_decide (Z.land h0 112 = 0)) then rfail ErrWSInvalidFrame else
  let opcode := Z.land h0 15 in
  let masked := negb (bool_decide (Z.land h1 128 = 0)) in
  let length := Z.land h1 127 in
  if negb (is_data opcode || is_control opcode && fin && bool_decide (length <= 125)) then rfail ErrWSInvalidFrame else
  if negb masked then rfail ErrWSInvalidFrame else
  let? length :=
    (if decide (length = 126) then let? ext := ReadFull 2 in rret (get_be ext)
     else if decide (length = 127) then let? ext := ReadFull 8 in rret (get_be ext)
     else rret length) in
  if decide (limit < length) then rfail ErrWSInvalidFrame else
  let? maskKey := ReadFull 4 in
  let? payload := ReadFull length in
  rret (opcode, fin, mask maskKey payload).

(** Every frame takes at least two bytes of the input, which bounds the rounds. *)
Fixpoint message_loop (fuel : nat) (limit msgType : Z) (buf : bytes) : reader (Z * bytes) :=
  match fuel with
  | O => rfail "out of fuel"
  | S fuel =>
      let? (opcode, fin, data) := readFrame limit in
      if is_control opcode then rret (opcode, data)
      else if decide (opcode = continuationFrame) then
        if decide (msgType = 0) then rfail ErrWSInvalidFrame
        else if decide (limit < zlen buf + zlen data) then rfail ErrWSInvalidFrame
        else if fin : bool then rret (msgType, buf ++ data)
        else message_loop fuel limit msgType (buf ++ data)
      else
        if decide (msgType <> 0) then rfail ErrWSInvalidFrame
        else if fin : bool then rret (opcode, data)
        else message_loop fuel limit opcode (buf ++ data)
  end.

Definition readMessage (limit : Z) : reader (Z * bytes) := fun s => message_loop (S (length (input s))) limit 0 [] s.

(** ** Writing *)

Definition writeFrame (opcode : Z) (payload : bytes) : bytes :=
  let length := zlen payload in
  let first := u8 (Z.lor 128 opcode) in
  (if decide (length <= 125) then [first; u8 length]
   else if decide (length <= 65535) then first :: 126 :: put_be 2 length
   else first :: 127 :: put_be 8 length) ++ payload.

Definition formatClosePayload (code : Z) (text : bytes) : bytes := put_be 2 code ++ text.

Definition parseClosePayload (payload : bytes) : Z * bytes :=
  if decide (zlen payload < 2) then (closeNormal, [])
  else
    let text := drop 2 payload in
    (get_be (take 2 payload), if utf8_from (length text) text then text else []).

(** ** The connection *)

Inductive ws_event :=
| EWrite (b : bytes)
| EMessage (messageType : Z) (data : bytes)
| ECloseCall (code : Z) (text : bytes)
| EErrorCall (e : string)
| EPingCall (data : bytes)
| EPongCall (data : bytes)
| EConnClose.

(** Which callbacks are registered. *)
Record callbacks := mkCallbacks { onMessage : bool; onClose : bool; onError : bool; onPing : bool; onPong : bool }.

Record WSConn := mkWSConn {
  br : source;
  maxMessageSize : Z;
  handlers : callbacks;
  closed : bool;
  events : list ws_event;
}.
#[export] Instance WSConn_eta : Eta WSConn := fun c => mkWSConn (br c) (maxMessageSize c) (handlers c) (closed c) (events c).

Definition messageLimit (ws : WSConn) : Z := if decide (0 < maxMessageSize ws) then maxMessageSize ws else maxFrameSize.

Definition emit (es : list ws_event) (ws : WSConn) : WSConn := ws <| events := events ws ++ es |>.
Definition emit_if (b : bool) (e : ws_event) (ws : WSConn) : WSConn := if b then emit [e] ws else ws.

Definition WriteMessage (messageType : Z) (data : bytes) (ws : WSConn) : WSConn := emit [EWrite (writeFrame messageType data)] ws.
Definition Ping (ws : WSConn) : WSConn := emit [EWrite (writeFrame PingMessage [])] ws.
Definition writeCloseFrame (code : Z) (ws : WSConn) : WSConn := emit [EWrite (writeFrame CloseMessage (formatClosePayload code []))] ws.

Definition CloseWithMessage (code : Z) (text : bytes) (ws : WSConn) : WSConn :=
  emit [EWrite (writeFrame CloseMessage (formatClosePayload code text)); EConnClose] (ws <| closed := true |>).
Definition Close (ws : WSConn) : WSConn := CloseWithMessage closeNormal [] ws.

Definition handleError (e : string) (ws : WSConn) : WSConn :=
  let ws := if closed ws then ws else emit_if (onError (handlers ws)) (EErrorCall e) ws in
  ws <| closed := true |>.

(** The answer to a close frame. *)
Definition on_close (payload : bytes) (ws : WSConn) : WSConn :=
  let '(code, text) := parseClosePayload payload in
  emit_if (onClose (handlers ws)) (ECloseCall code text) ((writeCloseFrame code ws) <| closed := true |>).

Fixpoint ReadMessage_loop (fuel : nat) (ws : WSConn) : result string (Z * bytes) * WSConn :=
  match fuel with
  | O => (Err "out of fuel", ws)
  | S fuel =>
      let '(r, s) := readMessage (messageLimit ws) (br ws) in
      let ws := ws <| br := s |> in
      match r with
      | Err e => (Err e, handleError e ws)
      | Ok (opcode, payload) =>
          if decide (opcode = PingMessage) then ReadMessage_loop fuel (WriteMessage PongMessage payload ws)
          else if decide (opcode = PongMessage) then ReadMessage_loop fuel ws
          else if decide (opcode = CloseMessage) then (Err ErrWSClosed, on_close payload ws)
          else if decide (opcode = TextMessage \/ opcode = BinaryMessage) then (Ok (opcode, payload), ws)
          else (Err ErrWSInvalidFrame, ws)
      end
  end.

Definition ReadMessage (ws : WSConn) : result string (Z * bytes) * WSConn := ReadMessage_loop (S (length (input (br ws)))) ws.

Fixpoint Listen_loop (fuel : nat) (ws : WSConn) : outcome WSConn :=
  match fuel with
  | O => Panic "out of fuel"
  | S fuel =>
      let '(r, s) := readMessage (messageLimit ws) (br ws) in
      let ws := ws <| br := s |> in
      match r with
      | Err e => Ret (handleError e ws)
      | Ok (opcode, payload) =>
          if decide (opcode = PingMessage) then
            Listen_loop fuel (WriteMessage PongMessage payload (emit_if (onPing (handlers ws)) (EPingCall payload) ws))
          else if decide (opcode = PongMessage) then Listen_loop fuel (emit_if (onPong (handlers ws)) (EPongCall payload) ws)
          else if decide (opcode = CloseMessage) then Ret (on_close payload ws)
          else if decide (opcode = TextMessage \/ opcode = BinaryMessage) then
            Listen_loop fuel (emit_if (onMessage (handlers ws)) (EMessage opcode payload) ws)
          else Listen_loop fuel ws
      end
  end.

Definition Listen (ws : WSConn) : outcome WSConn := Listen_loop (S (length (input (br ws)))) ws.

(** ** Theorems
    Messages survive framing, masking and fragmentation; the loops always end;
    and a control frame inside a fragmented message breaks it. *)
(** ** What a client sends (RFC 6455, 5.2) *)

Definition client_frame (fin : bool) (opcode : Z) (key payload : bytes) : bytes :=
  let length := zlen payload in
  ((if fin then 128 else 0) + opcode)
  :: (if decide (length <= 125) then [128 + length]
      else if decide (length <= 65535) then (128 + 126) :: put_be 2 length
      else (128 + 127) :: put_be 8 length) ++ key ++ mask key payload.

(** The fragments of a message, each with its key; the first carries the type. *)
Fixpoint fragments (opcode : Z) (first : bytes * bytes) (more : list (bytes * bytes)) : bytes :=
  match more with
  | [] => client_frame true opcode first.1 first.2
  | next :: more => client_frame false opcode first.1 first.2 ++ fragments continuationFrame next more
  end.

Definition fragment_ok (f : bytes * bytes) : Prop := length f.1 = 4%nat /\ zlen f.2 < 2 ^ 63.

Definition opcodes : list Z := [continuationFrame; TextMessage; BinaryMessage; CloseMessage; PingMessage; PongMessage].

(** ** Bytes *)

(** A property of every byte, by trying them. *)
Lemma all_bytes (P : Z -> bool) : forallb P (Z.of_nat <$> seq 0 256) = true -> forall b, 0 <= b < 256 -> P b = true.
Proof.
  intros Hall b Hb. rewrite forallb_forall in Hall. apply Hall, list_elem_of_In, list_elem_of_fmap. exists (Z.to_nat b).
  split; [lia |]. apply elem_of_seq. lia.
Qed.

Lemma second_byte l : 0 <= l < 128 -> Z.land (128 + l) 128 = 128 /\ Z.land (128 + l) 127 = l.
Proof.
  intros Hl. pose proof (all_bytes (fun b => (128 <=? b) || ((Z.land (128 + b) 128 =? 128) && (Z.land (128 + b) 127 =? b))) eq_refl l) as Hb.
  cbn beta in Hb. lia.
Qed.

Lemma first_byte fin opcode : opcode ∈ opcodes ->
  let b := (if fin : bool then 128 else 0) + opcode in
  negb (bool_decide (Z.land b 128 = 0)) = fin /\ Z.land b 112 = 0 /\ Z.land b 15 = opcode.
Proof.
  intros Ho. unfold opcodes, continuationFrame, TextMessage, BinaryMessage, CloseMessage, PingMessage, PongMessage in Ho.
  repeat (apply elem_of_cons in Ho as [-> | Ho]; [destruct fin; done |]). by apply elem_of_nil in Ho.
Qed.

(** Masking twice is no masking. *)
Lemma mask_mask key payload : mask key (mask key payload) = payload.
Proof.
  unfold mask. apply list_eq. intros i. rewrite !list_lookup_imap. destruct (payload !! i) as [b |]; [| done]. simpl.
  by rewrite Z.lxor_assoc, Z.lxor_nilpotent, Z.lxor_0_r.
Qed.

(** ** One frame *)

Lemma ReadFull_app n a b e : zlen a = n -> ReadFull n (mkSource (a ++ b) e) = (Ok a, mkSource b e).
Proof.
  intros <-. unfold ReadFull. simpl. rewrite decide_True by (rewrite zlen_app; pose proof (zlen_nonneg b); lia).
  unfold zlen. by rewrite Nat2Z.id, take_app_length, drop_app_length.
Qed.

Lemma rbind_ok {A B} (m : reader A) (k : A -> reader B) s a s' : m s = (Ok a, s') -> rbind m k s = k a s'.
Proof. unfold rbind. by intros ->. Qed.

(** What an opcode and a length need of a frame. *)
Definition frame_ok (limit : Z) (fin : bool) (opcode : Z) (key payload : bytes) : Prop :=
  opcode ∈ opcodes /\ length key = 4%nat /\ zlen payload <= limit /\ zlen payload < 2 ^ 63
  /\ (is_control opcode = true -> fin = true /\ zlen payload <= 125).

(** The length as the second byte and its extension give it. *)
Lemma read_length m len rest e :
  0 <= len < 2 ^ 63 ->
  exists l7 ext, 0 <= l7 < 128 /\ (len <= 125 -> l7 = len) /\
    (if decide (len <= 125) then [m + len]
     else if decide (len <= 65535) then (m + 126) :: put_be 2 len
     else (m + 127) :: put_be 8 len) = (m + l7) :: ext
    /\ (if decide (l7 = 126) then let? ext := ReadFull 2 in rret (get_be ext)
        else if decide (l7 = 127) then let? ext := ReadFull 8 in rret (get_be ext)
        else rret l7) (mkSource (ext ++ rest) e) = (Ok len, mkSource rest e).
Proof.
  intros Hl. assert (Hbe : forall n, zlen (put_be n len) = Z.of_nat n) by (intros; unfold zlen; by rewrite length_put_be).
  destruct (decide (len <= 125)); [| destruct (decide (len <= 65535))].
  - exists len, []. rewrite !decide_False by lia. split_and!; try done; lia.
  - exists 126, (put_be 2 len). split; [lia |]. split; [lia |]. split; [done |]. rewrite decide_True by done.
    erewrite rbind_ok by (apply ReadFull_app, Hbe). unfold rret. rewrite get_put_be, Z.mod_small by (simpl; lia). done.
  - exists 127, (put_be 8 len). split; [lia |]. split; [lia |]. split; [done |]. rewrite decide_False, decide_True by done.
    erewrite rbind_ok by (apply ReadFull_app, Hbe). unfold rret. rewrite get_put_be, Z.mod_small by (simpl; lia). done.
Qed.

Lemma kind_known opcode : opcode ∈ opcodes -> is_data opcode || is_control opcode = true.
Proof.
  intros Ho. unfold opcodes, continuationFrame, TextMessage, BinaryMessage, CloseMessage, PingMessage, PongMessage in Ho.
  repeat (apply elem_of_cons in Ho as [-> | Ho]; [done |]). by apply elem_of_nil in Ho.
Qed.

(** The server reads back any frame a client may send. *)
Lemma readFrame_client limit fin opcode key payload rest e :
  frame_ok limit fin opcode key payload ->
  readFrame limit (mkSource (client_frame fin opcode key payload ++ rest) e) = (Ok (opcode, fin, payload), mkSource rest e).
Proof.
  intros (Ho & Hk & Hlim & Hmax & Hc). pose proof (zlen_nonneg payload) as H0.
  destruct (read_length 128 (zlen payload) (key ++ mask key payload ++ rest) e) as (l7 & ext & Hl7 & Hsmall & Hhead & Hlen); [lia |].
  unfold client_frame. rewrite Hhead. destruct (first_byte fin opcode Ho) as (Hfin & Hrsv & Hop). destruct (second_byte l7 Hl7) as (Hm & Hl).
  set (b0 := (if fin then 128 else 0) + opcode) in *.
  replace ((b0 :: ((128 + l7) :: ext) ++ key ++ mask key payload) ++ rest) with ([b0; 128 + l7] ++ ext ++ key ++ mask key payload ++ rest) by (cbn [app]; by rewrite <- !app_assoc).
  unfold readFrame. erewrite rbind_ok by (by apply ReadFull_app). cbv beta zeta.
  change (at_ [b0; 128 + l7] 0) with b0. change (at_ [b0; 128 + l7] 1) with (128 + l7).
  rewrite Hfin, Hrsv, Hop, Hm, Hl. cbn [negb bool_decide decide]. rewrite bool_decide_true by done. cbn [negb].
  assert (Hkind : negb (is_data opcode || is_control opcode && fin && bool_decide (l7 <= 125)) = false).
  { apply negb_false_iff. pose proof (kind_known opcode Ho) as Hkn. destruct (is_data opcode); [done |]. simpl in Hkn |- *. destruct (Hc Hkn) as [-> Hs].
    rewrite Hkn, bool_decide_true by (rewrite Hsmall; lia). done. }
  rewrite Hkind. rewrite bool_decide_false by done. cbn [negb].
  erewrite rbind_ok by exact Hlen. rewrite decide_False by lia.
  erewrite rbind_ok by (apply ReadFull_app; unfold zlen; lia).
  erewrite rbind_ok by (apply ReadFull_app; unfold mask, zlen; by rewrite length_imap).
  unfold rret. by rewrite mask_mask.
Qed.

(** ** One message *)

Definition data_of (first : bytes * bytes) (more : list (bytes * bytes)) : bytes := first.2 ++ concat more.*2.

Lemma data_frame_ok limit fin opcode f :
  opcode = continuationFrame \/ opcode = TextMessage \/ opcode = BinaryMessage -> fragment_ok f -> zlen f.2 <= limit -> frame_ok limit fin opcode f.1 f.2.
Proof. intros Ho [Hk Hm] Hl. unfold frame_ok. split_and!; try done; [destruct Ho as [-> | [-> | ->]]; unfold opcodes; set_solver | by destruct Ho as [-> | [-> | ->]]]. Qed.

Lemma client_frame_length fin opcode key payload : (1 <= length (client_frame fin opcode key payload))%nat.
Proof. unfold client_frame. simpl. lia. Qed.

Lemma fragments_length opcode first more : (length more < length (fragments opcode first more))%nat.
Proof.
  revert opcode first. induction more as [| next more IH]; intros opcode first; cbn [fragments]; [apply client_frame_length |].
  rewrite length_app. pose proof (client_frame_length false opcode first.1 first.2). specialize (IH continuationFrame next). simpl. lia.
Qed.

Lemma continue_message fuel limit msgType buf first more rest e :
  msgType <> 0 -> (length more < fuel)%nat -> Forall fragment_ok (first :: more) -> zlen (buf ++ data_of first more) <= limit ->
  message_loop fuel limit msgType buf (mkSource (fragments continuationFrame first more ++ rest) e)
  = (Ok (msgType, buf ++ data_of first more), mkSource rest e).
Proof.
  intros Ht. revert fuel buf first. induction more as [| next more IH]; intros fuel buf first Hf Hok Hlim; (destruct fuel as [| fuel]; [lia |]); cbn [message_loop fragments];
    apply Forall_cons in Hok as [Hfirst Hmore]; unfold data_of in *; cbn [fmap list_fmap concat] in *; rewrite !zlen_app in Hlim;
    pose proof (zlen_nonneg buf); pose proof (zlen_nonneg first.2).
  - rewrite zlen_nil in Hlim. erewrite rbind_ok by (apply readFrame_client, data_frame_ok; [by left | done | lia]).
    cbv beta iota zeta. change (is_control continuationFrame) with false. cbv iota. rewrite decide_True, decide_False, decide_False by (done || lia). by rewrite app_nil_r.
  - pose proof (zlen_nonneg next.2). pose proof (zlen_nonneg (concat more.*2)). rewrite <- app_assoc.
    erewrite rbind_ok by (apply readFrame_client, data_frame_ok; [by left | done | lia]).
    cbv beta iota zeta. change (is_control continuationFrame) with false. cbv iota. rewrite decide_True, decide_False, decide_False by (done || lia). rewrite IH; [| simpl in Hf; lia | done | rewrite !zlen_app; lia].
    by rewrite <- !app_assoc.
Qed.

Lemma whole_message limit opcode first more rest e :
  opcode = TextMessage \/ opcode = BinaryMessage -> Forall fragment_ok (first :: more) -> zlen (data_of first more) <= limit ->
  readMessage limit (mkSource (fragments opcode first more ++ rest) e) = (Ok (opcode, data_of first more), mkSource rest e).
Proof.
  intros Ho Hok Hlim. unfold readMessage. cbn [input]. set (fuel := length (fragments opcode first more ++ rest)).
  assert (Hf : (length more < fuel)%nat) by (unfold fuel; rewrite length_app; pose proof (fragments_length opcode first more); lia).
  clearbody fuel. cbn [message_loop]. apply Forall_cons in Hok as [Hfirst Hmore].
  assert (Hne : opcode <> continuationFrame /\ opcode <> 0 /\ is_control opcode = false) by (by destruct Ho as [-> | ->]). destruct Hne as (Hc & H0 & Hic).
  destruct more as [| next more]; cbn [fragments]; unfold data_of in *; cbn [fmap list_fmap concat] in *; rewrite !zlen_app in Hlim; pose proof (zlen_nonneg first.2).
  - rewrite zlen_nil in Hlim. erewrite rbind_ok by (apply readFrame_client, data_frame_ok; [tauto | done | lia]).
    cbv beta iota zeta. rewrite Hic, decide_False, decide_False by (done || tauto). by rewrite app_nil_r.
  - pose proof (zlen_nonneg next.2). pose proof (zlen_nonneg (concat more.*2)). rewrite <- app_assoc.
    erewrite rbind_ok by (apply readFrame_client, data_frame_ok; [tauto | done | lia]).
    cbv beta iota zeta. rewrite Hic, decide_False, decide_False by (done || tauto). rewrite continue_message; [done | done | simpl in Hf; lia | done |].
    unfold data_of. rewrite !zlen_app. rewrite zlen_nil. lia.
Qed.

Lemma control_frame_ok limit opcode key payload :
  opcode = CloseMessage \/ opcode = PingMessage \/ opcode = PongMessage -> length key = 4%nat -> zlen payload <= 125 -> 125 <= limit ->
  frame_ok limit true opcode key payload.
Proof.
  intros Ho Hk Hp Hl. unfold frame_ok. split_and!; try done; [destruct Ho as [-> | [-> | ->]]; unfold opcodes; set_solver | lia | lia].
Qed.

(** A control frame at a message boundary is returned by itself. *)
Lemma control_message limit opcode key payload rest e :
  opcode = CloseMessage \/ opcode = PingMessage \/ opcode = PongMessage -> length key = 4%nat -> zlen payload <= 125 -> 125 <= limit ->
  readMessage limit (mkSource (client_frame true opcode key payload ++ rest) e) = (Ok (opcode, payload), mkSource rest e).
Proof.
  intros Ho Hk Hp Hl. unfold readMessage. cbn [message_loop]. erewrite rbind_ok by (by apply readFrame_client, control_frame_ok).
  by destruct Ho as [-> | [-> | ->]].
Qed.

(** ** A conversation *)

(** What a client sends between two messages: pings and pongs. *)
Inductive between := BPing (key payload : bytes) | BPong (key payload : bytes).
Definition between_ok (b : between) : Prop :=
  match b with BPing key payload | BPong key payload => length key = 4%nat /\ zlen payload <= 125 end.
Definition between_frame (b : between) : bytes :=
  match b with BPing key payload => client_frame true PingMessage key payload | BPong key payload => client_frame true PongMessage key payload end.
Definition pong_for (b : between) : list ws_event :=
  match b with BPing _ payload => [EWrite (writeFrame PongMessage payload)] | BPong _ _ => [] end.

Lemma ReadMessage_controls fuel bs ws tail e :
  Forall between_ok bs -> 125 <= messageLimit ws -> (length bs < fuel)%nat ->
  br ws = mkSource (flat_map between_frame bs ++ tail) e ->
  ReadMessage_loop fuel ws = ReadMessage_loop (fuel - length bs) (emit (flat_map pong_for bs) (ws <| br := mkSource tail e |>)).
Proof.
  intros Hbs. revert fuel ws. induction Hbs as [| b bs Hb _ IH]; intros fuel ws Hl Hf Hbr.
  - cbn [flat_map app length] in *. rewrite Nat.sub_0_r. f_equal. destruct ws as [s mx hs cl es]. simpl in *. subst s. unfold emit. simpl. by rewrite app_nil_r.
  - simpl in Hf. destruct fuel as [| fuel]; [lia |]. cbn [ReadMessage_loop flat_map length Nat.sub] in *. rewrite Hbr, <- app_assoc.
    destruct b as [key payload | key payload]; destruct Hb as [Hk Hp]; cbn [between_frame]; rewrite control_message by (tauto || lia).
    + rewrite decide_True by done. rewrite (IH fuel) by (done || lia). f_equal. destruct ws as [s mx hs cl es]. unfold WriteMessage, emit. simpl. by rewrite <- app_assoc.
    + rewrite decide_False, decide_True by done. rewrite (IH fuel) by (done || lia). f_equal.
Qed.

(** A message with what comes before it. *)
Record exchange := mkExchange { before : list between; kind : Z; first_part : bytes * bytes; other_parts : list (bytes * bytes) }.
Definition exchange_ok (limit : Z) (x : exchange) : Prop :=
  Forall between_ok (before x) /\ (kind x = TextMessage \/ kind x = BinaryMessage)
  /\ Forall fragment_ok (first_part x :: other_parts x) /\ zlen (data_of (first_part x) (other_parts x)) <= limit.
Definition on_wire (x : exchange) : bytes := flat_map between_frame (before x) ++ fragments (kind x) (first_part x) (other_parts x).
Definition message_of (x : exchange) : Z * bytes := (kind x, data_of (first_part x) (other_parts x)).

(** Calls of [ReadMessage] until one fails. *)
Fixpoint read_all (n : nat) (ws : WSConn) : result string (list (Z * bytes)) * WSConn :=
  match n with
  | O => (Ok [], ws)
  | S n =>
      match ReadMessage ws with
      | (Err e, ws) => (Err e, ws)
      | (Ok m, ws) => match read_all n ws with (Ok ms, ws) => (Ok (m :: ms), ws) | (Err e, ws) => (Err e, ws) end
      end
  end.

Lemma between_length bs : (length bs <= length (flat_map between_frame bs))%nat.
Proof.
  induction bs as [| b bs IH]; [done |]. cbn [flat_map length]. rewrite length_app.
  assert (1 <= length (between_frame b))%nat by (destruct b; apply client_frame_length). lia.
Qed.

Lemma ReadMessage_exchange x ws rest e :
  exchange_ok (messageLimit ws) x -> 125 <= messageLimit ws -> br ws = mkSource (on_wire x ++ rest) e ->
  ReadMessage ws = (Ok (message_of x), emit (flat_map pong_for (before x)) (ws <| br := mkSource rest e |>)).
Proof.
  intros (Hb & Hk & Hf & Hl) Hlim Hbr. unfold on_wire in Hbr. rewrite <- app_assoc in Hbr. unfold ReadMessage. rewrite Hbr. cbn [input].
  pose proof (between_length (before x)). pose proof (fragments_length (kind x) (first_part x) (other_parts x)).
  rewrite (ReadMessage_controls _ (before x) ws _ e Hb Hlim) by (rewrite ?length_app; done || lia).
  rewrite !length_app. destruct (S _ - length (before x))%nat as [| fuel] eqn:Ef; [lia |].
  cbn [ReadMessage_loop]. change (messageLimit (emit _ _)) with (messageLimit ws). change (br (emit (flat_map pong_for (before x)) ?y)) with (br y). cbn [br set].
  change (br (ws <| br := ?s |>)) with s. rewrite whole_message by done. cbv beta iota.
  assert (Hne : kind x <> PingMessage /\ kind x <> PongMessage /\ kind x <> CloseMessage) by (by destruct Hk as [-> | ->]). destruct Hne as (H1 & H2 & H3).
  rewrite !decide_False, decide_True by done. by destruct ws.
Qed.

(** C20: messages survive the wire. Whatever a client cuts its messages into and
    whatever keys it masks the fragments with, [ReadMessage] returns each of
    them whole, in order, as long as it is no longer than the limit; pings
    between the messages are answered with their own payload, in order, and
    nothing else is written. *)
Theorem messages_survive_the_wire (ws : WSConn) (xs : list exchange) (rest : bytes) (e : string) :
  Forall (exchange_ok (messageLimit ws)) xs -> 125 <= messageLimit ws ->
  br ws = mkSource (flat_map on_wire xs ++ rest) e ->
  read_all (length xs) ws = (Ok (message_of <$> xs), emit (flat_map (fun x => flat_map pong_for (before x)) xs) (ws <| br := mkSource rest e |>)).
Proof.
  intros Hxs Hlim. revert ws Hxs Hlim. induction xs as [| x xs IH]; intros ws Hxs Hlim Hbr.
  - cbn [length read_all flat_map app] in *. destruct ws as [s mx hs cl es]. simpl in *. subst s. unfold emit. simpl. by rewrite app_nil_r.
  - apply Forall_cons in Hxs as [Hx Hxs]. cbn [length read_all flat_map] in *. rewrite <- app_assoc in Hbr.
    rewrite (ReadMessage_exchange x ws _ e Hx Hlim Hbr). rewrite IH by done.
    destruct ws as [s mx hs cl es]. unfold emit. simpl. by rewrite <- app_assoc.
Qed.

(** A ping inside a fragmented message breaks it. [readMessage] promises to
    let control frames through between fragments, but it returns with the
    fragments read so far in its local variables: the ping is answered, and the
    continuation of the message is then refused as an invalid frame. *)
Theorem interleaved_ping_breaks_message (ws : WSConn) (opcode : Z) (f g : bytes * bytes) (key payload : bytes) (fin : bool) (rest : bytes) (e : string) :
  opcode = TextMessage \/ opcode = BinaryMessage -> fragment_ok f -> fragment_ok g -> length key = 4%nat -> zlen payload <= 125 ->
  zlen f.2 + zlen g.2 <= messageLimit ws -> 125 <= messageLimit ws -> closed ws = false ->
  br ws = mkSource (client_frame false opcode f.1 f.2 ++ client_frame true PingMessage key payload
                    ++ client_frame fin continuationFrame g.1 g.2 ++ rest) e ->
  exists ws', ReadMessage ws = (Err ErrWSInvalidFrame, ws') /\ closed ws' = true
    /\ events ws' = events ws ++ [EWrite (writeFrame PongMessage payload)] ++ (if onError (handlers ws) then [EErrorCall ErrWSInvalidFrame] else []).
Proof.
  intros Ho Hf Hg Hk Hp Hl Hlim Hc Hbr. pose proof (zlen_nonneg f.2). pose proof (zlen_nonneg g.2).
  assert (Hkinds : opcode <> continuationFrame /\ opcode <> 0 /\ is_control opcode = false) by (by destruct Ho as [-> | ->]). destruct Hkinds as (Hoc & Ho0 & Hic).
  (* the ping comes out of the message in progress *)
  assert (H1 : forall fuel tail, (1 < fuel)%nat -> message_loop fuel (messageLimit ws) 0 [] (mkSource (client_frame false opcode f.1 f.2 ++ client_frame true PingMessage key payload ++ tail) e)
    = (Ok (PingMessage, payload), mkSource tail e)).
  { intros [| [| fuel]] tail Hfuel; [lia | lia |]. cbn [message_loop]. erewrite rbind_ok by (apply readFrame_client, data_frame_ok; [tauto | done | lia]).
    cbv beta iota zeta. rewrite Hic, decide_False, decide_False by (done || tauto). erewrite rbind_ok by (apply readFrame_client, control_frame_ok; tauto || lia). done. }
  (* and the continuation has no message to continue *)
  assert (H2 : forall fuel, (0 < fuel)%nat -> message_loop fuel (messageLimit ws) 0 [] (mkSource (client_frame fin continuationFrame g.1 g.2 ++ rest) e)
    = (Err ErrWSInvalidFrame, mkSource rest e)).
  { intros [| fuel] Hfuel; [lia |]. cbn [message_loop]. erewrite rbind_ok by (apply readFrame_client, data_frame_ok; [tauto | done | lia]). done. }
  unfold ReadMessage. rewrite Hbr. cbn [input]. pose proof (client_frame_length false opcode f.1 f.2). pose proof (client_frame_length true PingMessage key payload).
  match goal with |- context [ReadMessage_loop (S (length ?x)) ws] => destruct (length x) as [| n] eqn:En; [rewrite !length_app in En; lia |] end. cbn [ReadMessage_loop]. rewrite Hbr. unfold readMessage at 1. cbn [input].
  rewrite H1 by (rewrite !length_app; lia). cbv beta iota zeta. rewrite decide_True by done.
  set (ws1 := WriteMessage PongMessage payload _). change (messageLimit ws1) with (messageLimit ws). change (br ws1) with (mkSource (client_frame fin continuationFrame g.1 g.2 ++ rest) e).
  unfold readMessage. rewrite H2 by lia. eexists. split; [done |]. unfold handleError. simpl. rewrite Hc. destruct (onError (handlers ws)); simpl; [by rewrite <- app_assoc |]. done.
Qed.

(** ** The other direction *)

(** A client reading a frame of the server, which is not masked. *)
Definition client_read : reader (Z * bytes) :=
  let? header := ReadFull 2 in
  let l7 := at_ header 1 in
  let? length :=
    (if decide (l7 = 126) then let? ext := ReadFull 2 in rret (get_be ext)
     else if decide (l7 = 127) then let? ext := ReadFull 8 in rret (get_be ext)
     else rret l7) in
  let? payload := ReadFull length in
  rret (Z.land (at_ header 0) 15, payload).

Lemma writeFrame_read opcode payload rest e :
  opcode ∈ opcodes -> zlen payload < 2 ^ 63 ->
  client_read (mkSource (writeFrame opcode payload ++ rest) e) = (Ok (opcode, payload), mkSource rest e).
Proof.
  intros Ho Hl. pose proof (zlen_nonneg payload). destruct (read_length 0 (zlen payload) (payload ++ rest) e) as (l7 & ext & Hl7 & _ & Hhead & Hlen); [lia |].
  assert (Hw : writeFrame opcode payload = u8 (Z.lor 128 opcode) :: (l7 :: ext) ++ payload).
  { unfold writeFrame. rewrite !Z.add_0_l in Hhead. rewrite <- Hhead. destruct (decide (zlen payload <= 125)).
    - unfold u8. rewrite (Z.mod_small (zlen payload)) by lia. done.
    - by destruct (decide (zlen payload <= 65535)). }
  assert (Hop : Z.land (u8 (Z.lor 128 opcode)) 15 = opcode).
  { unfold opcodes, continuationFrame, TextMessage, BinaryMessage, CloseMessage, PingMessage, PongMessage in Ho.
    repeat (apply elem_of_cons in Ho as [-> | Ho]; [done |]). by apply elem_of_nil in Ho. }
  rewrite Hw. set (b0 := u8 _) in *. replace ((b0 :: (l7 :: ext) ++ payload) ++ rest) with ([b0; l7] ++ ext ++ payload ++ rest) by (cbn [app]; by rewrite <- !app_assoc).
  unfold client_read. erewrite rbind_ok by (by apply ReadFull_app). cbv beta zeta. change (at_ [b0; l7] 0) with b0. change (at_ [b0; l7] 1) with l7.
  rewrite Hop. erewrite rbind_ok by exact Hlen. erewrite rbind_ok by (by apply ReadFull_app). done.
Qed.

(** The code and the text of a close frame come back, if the text is text. *)
Lemma close_payload_back code text :
  0 <= code < 2 ^ 16 -> utf8_from (length text) text = true -> parseClosePayload (formatClosePayload code text) = (code, text).
Proof.
  intros Hc Ht. unfold parseClosePayload, formatClosePayload. rewrite zlen_app, decide_False by (pose proof (zlen_nonneg text); unfold zlen; rewrite length_put_be; lia).
  rewrite take_app_length', drop_app_length' by (by rewrite length_put_be). rewrite get_put_be, Z.mod_small by (simpl; lia). by rewrite Ht.
Qed.

(** ** The loops end *)

Lemma ReadFull_shorter n s a s' : 0 <= n -> ReadFull n s = (Ok a, s') -> length (input s) = (Z.to_nat n + length (input s'))%nat.
Proof.
  unfold ReadFull, zlen. intros Hn. case_decide; [| done]. intros [= <- <-]. simpl. rewrite length_drop. lia.
Qed.

Lemma ReadFull_le n s a s' : ReadFull n s = (Ok a, s') -> (length (input s') <= length (input s))%nat.
Proof. unfold ReadFull. case_decide; [| done]. intros [= <- <-]. simpl. rewrite length_drop. lia. Qed.

Lemma rbind_inv {A B} (m : reader A) (k : A -> reader B) s b s' :
  rbind m k s = (Ok b, s') -> exists a s1, m s = (Ok a, s1) /\ k a s1 = (Ok b, s').
Proof. unfold rbind. destruct (m s) as [[a | e] s1]; [eauto | done]. Qed.

(** A frame takes its two bytes at least. *)
Lemma readFrame_shorter limit s r s' : readFrame limit s = (Ok r, s') -> (length (input s') + 2 <= length (input s))%nat.
Proof.
  intros Hr. unfold readFrame in Hr. apply rbind_inv in Hr as (header & s1 & H1 & Hr). apply ReadFull_shorter in H1; [| done].
  cbv zeta in Hr. destruct (negb _); [done |]. destruct (negb _); [done |]. destruct (negb _); [done |].
  apply rbind_inv in Hr as (len & s2 & H2 & Hr).
  assert (Hs2 : (length (input s2) <= length (input s1))%nat).
  { destruct (decide (_ = 126)); [| destruct (decide (_ = 127))]; [| | by injection H2 as _ <-];
      apply rbind_inv in H2 as (ext & s3 & H3 & H2); injection H2 as _ <-; by apply ReadFull_le in H3. }
  destruct (decide (limit < len)); [done |]. apply rbind_inv in Hr as (key & s3 & H3 & Hr). apply rbind_inv in Hr as (payload & s4 & H4 & Hr).
  injection Hr as _ <-. apply ReadFull_le in H3, H4. lia.
Qed.

Lemma message_loop_shorter fuel limit t buf s r s' : message_loop fuel limit t buf s = (Ok r, s') -> (length (input s') + 2 <= length (input s))%nat.
Proof.
  revert t buf s. induction fuel as [| fuel IH]; intros t buf s Hr; [done |]. cbn [message_loop] in Hr.
  apply rbind_inv in Hr as ([[opcode fin] data] & s1 & H1 & Hr). apply readFrame_shorter in H1.
  destruct (is_control opcode); [by injection Hr as _ <- |]. destruct (decide (opcode = continuationFrame)).
  - destruct (decide (t = 0)); [done |]. destruct (decide (limit < _)); [done |]. destruct fin; [by injection Hr as _ <- |]. apply IH in Hr. lia.
  - destruct (decide (t <> 0)); [done |]. destruct fin; [by injection Hr as _ <- |]. apply IH in Hr. lia.
Qed.

(** The errors of a reader: its own, or those of the connection. *)
Definition honest {A} (m : reader A) : Prop :=
  forall s, readErr (m s).2 = readErr s /\ forall e, (m s).1 = Err e -> e = ErrWSInvalidFrame \/ e = "unexpected EOF" \/ e = readErr s.

Lemma ReadFull_honest n : honest (ReadFull n).
Proof. intros s. unfold ReadFull. case_decide; [done |]. split; [done |]. intros e [= <-]. case_decide; auto. Qed.

Lemma rret_honest {A} (a : A) : honest (rret a).
Proof. done. Qed.

Lemma rfail_honest {A} : honest (rfail (A := A) ErrWSInvalidFrame).
Proof. intros s. split; [done |]. intros e [= <-]. by left. Qed.

Lemma rbind_honest {A B} (m : reader A) (k : A -> reader B) : honest m -> (forall a, honest (k a)) -> honest (rbind m k).
Proof.
  intros Hm Hk s. unfold rbind. destruct (Hm s) as [H1 H2]. destruct (m s) as [[a | e] s1]; simpl in *; [| split; [done | intros ? [= <-]; by apply H2]].
  destruct (Hk a s1) as [H3 H4]. rewrite H1 in *. split; [done | exact H4].
Qed.

Lemma readFrame_honest limit : honest (readFrame limit).
Proof.
  unfold readFrame. repeat (first [apply rbind_honest; [| intros ?] | apply ReadFull_honest | apply rret_honest | apply rfail_honest | case_match]).
Qed.

(** The rounds of [readMessage] are enough: every error it returns is one of the
    code's or of the connection. *)
Lemma message_loop_honest fuel limit t buf s :
  (length (input s) < fuel)%nat ->
  readErr (message_loop fuel limit t buf s).2 = readErr s
  /\ forall e, (message_loop fuel limit t buf s).1 = Err e -> e = ErrWSInvalidFrame \/ e = "unexpected EOF" \/ e = readErr s.
Proof.
  revert t buf s. induction fuel as [| fuel IH]; intros t buf s Hf; [lia |]. cbn [message_loop].
  pose proof (readFrame_honest limit s) as [H1 H2]. unfold rbind. destruct (readFrame limit s) as [[[[opcode fin] data] | e] s1] eqn:Hr; simpl in H1.
  - apply readFrame_shorter in Hr. rewrite <- H1.
    assert (Hnext : forall t buf, readErr (message_loop fuel limit t buf s1).2 = readErr s1
      /\ forall e, (message_loop fuel limit t buf s1).1 = Err e -> e = ErrWSInvalidFrame \/ e = "unexpected EOF" \/ e = readErr s1) by (intros; apply IH; lia).
    destruct (is_control opcode); [done |]. destruct (decide (opcode = continuationFrame)).
    + destruct (decide (t = 0)); [apply rfail_honest |]. destruct (decide (limit < _)); [apply rfail_honest |]. destruct fin; [done | apply Hnext].
    + destruct (decide (t <> 0)); [apply rfail_honest |]. destruct fin; [done | apply Hnext].
  - split; [done |]. intros e' [= <-]. by apply H2.
Qed.

(** [Listen] ends, with the connection marked closed: it returns from every
    sequence of bytes. *)
Lemma Listen_ends ws : exists ws', Listen ws = Ret ws' /\ closed ws' = true.
Proof.
  unfold Listen. assert (Hf : (length (input (br ws)) < S (length (input (br ws))))%nat) by lia. revert Hf. generalize (S (length (input (br ws)))) as fuel.
  intros fuel. revert ws. induction fuel as [| fuel IH]; intros ws Hf; [lia |]. cbn [Listen_loop].
  destruct (readMessage (messageLimit ws) (br ws)) as [[[opcode payload] | e] s] eqn:Hr; [| by eexists].
  unfold readMessage in Hr. apply message_loop_shorter in Hr.
  assert (Hnext : forall ws', br ws' = s -> exists ws'', Listen_loop fuel ws' = Ret ws'' /\ closed ws'' = true) by (intros ws' <-; apply IH; lia).
  destruct (decide (opcode = PingMessage)); [apply Hnext; by destruct (onPing _) |].
  destruct (decide (opcode = PongMessage)); [apply Hnext; by destruct (onPong _) |].
  destruct (decide (opcode = CloseMessage)).
  - eexists. split; [done |]. unfold on_close. destruct (parseClosePayload payload). by destruct (onClose _).
  - destruct (decide (_ \/ _)); apply Hnext; [by destruct (onMessage _) | done].
Qed.

(** ** Concrete conversations *)

Definition key_a : bytes := [1; 2; 3; 4].
Definition sample_exchange : exchange := mkExchange [BPing key_a [80]] TextMessage ([5; 6; 7; 8], [104; 101]) [(key_a, [108]); (key_a, [108; 111])].
Definition listening (input : bytes) : WSConn := mkWSConn (mkSource input "EOF") 0 (mkCallbacks true true true true true) false [].

Lemma messages_survive_the_wire_witness :
  read_all 1 (listening (on_wire sample_exchange ++ []))
    = (Ok [(TextMessage, [104; 101; 108; 108; 111])], emit [EWrite [138; 1; 80]] (listening [])).
Proof.
  refine (messages_survive_the_wire (listening (on_wire sample_exchange ++ [])) [sample_exchange] [] "EOF" _ _ _).
  - constructor; [| constructor]. split; [by repeat constructor | split; [by left | split; [by repeat constructor | done]]].
  - done.
  - reflexivity.
Defined.

Lemma interleaved_ping_breaks_message_witness :
  exists ws', ReadMessage (listening (client_frame false TextMessage key_a [104] ++ client_frame true PingMessage key_a [80] ++ client_frame true 0 key_a [105] ++ []))
      = (Err ErrWSInvalidFrame, ws') /\ closed ws' = true
    /\ events ws' = [EWrite [138; 1; 80]; EErrorCall ErrWSInvalidFrame].
Proof.
  apply (interleaved_ping_breaks_message (listening (client_frame false TextMessage key_a [104] ++ client_frame true PingMessage key_a [80] ++ client_frame true 0 key_a [105] ++ []))
    TextMessage (key_a, [104]) (key_a, [105]) key_a [80] true [] "EOF"); try done. by left.
Defined.
