(* ===== verification/HttpSse.v ===== *)
(** * HttpSse
    Server-sent events ([swifty_http/sse.go]): what the writer puts into the
    response, and that a client reads back what was written.

    Each call holds the writer's lock and appends to the response; the text of
    the response is the state. The heartbeat is a comment. *)
From S2P Require Import Prelude GoStrings.

Definition newline : string := String "010" EmptyString.

Fixpoint concat_lines (pre : string) (ls : list string) : string :=
  match ls with [] => EmptyString | l :: ls => (pre ++ l ++ newline ++ concat_lines pre ls)%string end.

Definition writeData (data w : string) : string := (w ++ concat_lines "data: " (Split data "010") ++ newline)%string.
Definition Data (data w : string) : string := writeData data w.
Definition Event (event data w : string) : string := writeData data (w ++ "event: " ++ event ++ newline)%string.
(** [JSON] of an object already marshalled. *)
Definition JSON (event text w : string) : string :=
  ((if decide (event = EmptyString) then w else w ++ "event: " ++ event ++ newline) ++ "data: " ++ text ++ newline ++ newline)%string.
Definition ID (id w : string) : string := (w ++ "id: " ++ id ++ newline)%string.
Definition Comment (text w : string) : string := (w ++ concat_lines ": " (Split text "010") ++ newline)%string.
Definition keepalive (w : string) : string := (w ++ ": keepalive" ++ newline ++ newline)%string.
Definition Done (w : string) : string := Data "[DONE]" w.

(** ** A client (the event stream format) *)

(** A line ends at a carriage return, a newline, or both together. *)
Fixpoint lines_of (s : string) : list string :=
  match s with
  | EmptyString => [EmptyString]
  | String a rest =>
      let more := match lines_of rest with l :: ls => String a l :: ls | [] => [String a EmptyString] end in
      if decide (a = "010"%char) then EmptyString :: lines_of rest
      else if decide (a = "013"%char) then
        match rest with
        | String b rest' => if decide (b = "010"%char) then EmptyString :: lines_of rest' else EmptyString :: lines_of rest
        | EmptyString => [EmptyString; EmptyString]
        end
      else more
  end.

Fixpoint cut_colon (s : string) : string * string :=
  match s with
  | EmptyString => (EmptyString, EmptyString)
  | String a s => if decide (a = ":"%char) then (EmptyString, s) else let '(f, v) := cut_colon s in (String a f, v)
  end.

(** One space after the colon is not part of the value. *)
Definition field (line : string) : string * string := let '(f, v) := cut_colon line in (f, TrimPrefix v " ").

Record client := mkClient { eventType : string; buffer : list string; received : list (string * string) }.

Definition read_line (c : client) (line : string) : client :=
  if decide (line = EmptyString) then
    mkClient EmptyString [] (received c ++ match buffer c with [] => [] | ls => [(eventType c, Join ls newline)] end)
  else
    let '(f, v) := field line in
    if decide (f = "data") then mkClient (eventType c) (buffer c ++ [v]) (received c)
    else if decide (f = "event") then mkClient v (buffer c) (received c)
    else c.

Definition read_stream (s : string) : list (string * string) := received (foldl read_line (mkClient EmptyString [] []) (lines_of s)).

(** ** What is written is read *)

Inductive sse_call := SEvent (event data : string) | SData (data : string) | SComment (text : string) | SKeepalive.
Definition sse_write (w : string) (c : sse_call) : string :=
  match c with SEvent event data => Event event data w | SData data => Data data w | SComment text => Comment text w | SKeepalive => keepalive w end.
Definition sse_message (c : sse_call) : list (string * string) :=
  match c with SEvent event data => [(event, data)] | SData data => [(EmptyString, data)] | _ => [] end.
Definition sse_ok (c : sse_call) : Prop :=
  match c with
  | SEvent event data => lacks "010" event /\ lacks "013" event /\ lacks "013" data
  | SData data => lacks "013" data
  | SComment text => lacks "013" text
  | SKeepalive => True
  end.

(** The lines that a call writes. *)
Definition sse_lines (c : sse_call) : list string :=
  match c with
  | SEvent event data => ("event: " ++ event)%string :: ((fun l => "data: " ++ l)%string <$> Split data "010") ++ [EmptyString]
  | SData data => ((fun l => "data: " ++ l)%string <$> Split data "010") ++ [EmptyString]
  | SComment text => ((fun l => ": " ++ l)%string <$> Split text "010") ++ [EmptyString]
  | SKeepalive => [": keepalive"; EmptyString]
  end.

Fixpoint unlines (ls : list string) : string :=
  match ls with [] => EmptyString | l :: ls => (l ++ newline ++ unlines ls)%string end.

Lemma unlines_app ls ks : unlines (ls ++ ks) = (unlines ls ++ unlines ks)%string.
Proof. induction ls as [| l ls IH]; [done |]. cbn [app unlines]. by rewrite IH, !string_app_assoc. Qed.

Lemma concat_lines_unlines pre ls : concat_lines pre ls = unlines ((fun l => pre ++ l)%string <$> ls).
Proof. induction ls as [| l ls IH]; [done |]. cbn [concat_lines fmap list_fmap unlines]. by rewrite IH, !string_app_assoc. Qed.

Lemma sse_write_lines w c : sse_write w c = (w ++ unlines (sse_lines c))%string.
Proof.
  destruct c as [event data | data | text |]; cbn [sse_write sse_lines]; unfold Event, Data, Comment, writeData, keepalive; rewrite ?concat_lines_unlines; cbn [unlines];
    rewrite ?unlines_app; cbn [unlines]; by rewrite ?string_app_nil, ?append_nil, !string_app_assoc.
Qed.

Lemma lines_of_unlines ls : Forall (fun l => lacks "010" l /\ lacks "013" l) ls -> lines_of (unlines ls) = ls ++ [EmptyString].
Proof.
  induction 1 as [| l ls [Hn Hr] _ IH]; [done |]. cbn [unlines app]. rewrite <- IH. clear IH. revert Hn Hr. generalize (unlines ls) as s. intros s. clear ls.
  induction l as [| a l IH]; cbn [lacks]; intros Hn Hr.
  - rewrite append_nil. unfold newline. rewrite append_cons, append_nil. cbn [lines_of]. by rewrite decide_True.
  - destruct Hn as [Ha Hn], Hr as [Hb Hr]. rewrite append_cons. cbn [lines_of]. rewrite IH by done. by rewrite !decide_False.
Qed.

(** Reading the lines of a value. *)
Lemma read_data c ls : foldl read_line c ((fun l => "data: " ++ l)%string <$> ls) = mkClient (eventType c) (buffer c ++ ls) (received c).
Proof.
  revert c. induction ls as [| l ls IH]; intros c; cbn [fmap list_fmap foldl]; [rewrite app_nil_r; by destruct c |].
  assert (Hf : read_line c ("data: " ++ l) = mkClient (eventType c) (buffer c ++ [l]) (received c)).
  { unfold read_line. rewrite decide_False by done. assert (Hfield : field ("data: " ++ l) = ("data", l)).
    { unfold field. change ("data: " ++ l)%string with (String "d" (String "a" (String "t" (String "a" (String ":" (" " ++ l)%string))))). cbn [cut_colon decide]. simpl. by rewrite TrimPrefix_app. }
    rewrite Hfield. by rewrite decide_True. }
  rewrite Hf, IH. simpl. by rewrite <- app_assoc.
Qed.

Lemma read_comment c ls : foldl read_line c ((fun l => ": " ++ l)%string <$> ls) = c.
Proof. induction ls as [| l ls IH]; [done |]. cbn [fmap list_fmap foldl]. exact IH. Qed.

Lemma read_event c event : read_line c ("event: " ++ event) = mkClient event (buffer c) (received c).
Proof.
  unfold read_line. rewrite decide_False by done. assert (Hfield : field ("event: " ++ event) = ("event", event)).
  { unfold field. change ("event: " ++ event)%string with (String "e" (String "v" (String "e" (String "n" (String "t" (String ":" (" " ++ event)%string)))))). simpl. by rewrite TrimPrefix_app. }
  rewrite Hfield. by rewrite decide_False, decide_True.
Qed.

Lemma dispatched (e data : string) : match Split data "010" with [] => [] | ls => [(e, Join ls newline)] end = [(e, data)].
Proof. pose proof (Join_Split data "010") as Hj. destruct (Split_cons data "010") as (w & ws & Hs). rewrite Hs in *. unfold newline. by rewrite Hj. Qed.

(** A call starts and ends with nothing pending. *)
Lemma read_call c got : foldl read_line (mkClient EmptyString [] got) (sse_lines c) = mkClient EmptyString [] (got ++ sse_message c).
Proof.
  destruct c as [event data | data | text |]; cbn [sse_lines foldl sse_message].
  - rewrite foldl_app, read_event, read_data. simpl. unfold read_line. rewrite decide_True by done. simpl.
    by rewrite dispatched.
  - rewrite foldl_app, read_data. simpl. unfold read_line. rewrite decide_True by done. simpl.
    by rewrite dispatched.
  - rewrite foldl_app, read_comment. simpl. unfold read_line. by rewrite decide_True.
  - reflexivity.
Qed.

Lemma Split_lacks_other s a b : lacks a s -> Forall (lacks a) (Split s b).
Proof.
  induction s as [| x s IH]; cbn [lacks Split]; [by constructor |]. intros [Hx Hs]. specialize (IH Hs). case_decide; [by constructor |].
  destruct (Split_cons s b) as (w & ws & Hw). rewrite Hw in *. apply Forall_cons in IH as [H1 H2]. by constructor.
Qed.

Lemma sse_lines_ok c : sse_ok c -> Forall (fun l => lacks "010" l /\ lacks "013" l) (sse_lines c).
Proof.
  assert (Hmap : forall pre s, lacks "010" pre -> lacks "013" pre -> lacks "013" s ->
    Forall (fun l => lacks "010" l /\ lacks "013" l) ((fun l => pre ++ l)%string <$> Split s "010")).
  { intros pre s H1 H2 H3. apply Forall_fmap, Forall_forall. intros l Hl. pose proof (Split_lacks s "010") as Ha. pose proof (Split_lacks_other s "013" "010" H3) as Hb.
    rewrite Forall_forall in Ha, Hb. simpl. rewrite !lacks_app. auto. }
  destruct c as [event data | data | text |]; cbn [sse_ok sse_lines].
  - intros (H1 & H2 & H3). constructor; [by rewrite !lacks_app |]. apply Forall_app. split; [by apply Hmap | by repeat constructor].
  - intros H1. apply Forall_app. split; [by apply Hmap | by repeat constructor].
  - intros H1. apply Forall_app. split; [by apply Hmap | by repeat constructor].
  - intros _. repeat constructor; discriminate.
Qed.

(** An event stream carries its messages. Whatever events, data, comments
    and heartbeats are written, a client reads the messages back in order, data
    of several lines and empty lines included, as long as names hold no line
    break and no value holds a carriage return. *)
Theorem sse_messages_survive (calls : list sse_call) :
  Forall sse_ok calls -> read_stream (foldl sse_write EmptyString calls) = flat_map sse_message calls.
Proof.
  intros Hok. assert (Hw : forall w, foldl sse_write w calls = (w ++ unlines (flat_map sse_lines calls))%string).
  { clear Hok. induction calls as [| c calls IH]; intros w; cbn [foldl flat_map unlines]; [by rewrite string_app_nil |].
    by rewrite IH, sse_write_lines, unlines_app, string_app_assoc. }
  rewrite Hw, append_nil. unfold read_stream. rewrite lines_of_unlines, foldl_app.
  - assert (Hr : forall got, foldl read_line (mkClient EmptyString [] got) (flat_map sse_lines calls) = mkClient EmptyString [] (got ++ flat_map sse_message calls)).
    { clear Hok Hw. induction calls as [| c calls IH]; intros got; cbn [flat_map foldl]; [by rewrite app_nil_r |].
      rewrite foldl_app, read_call, IH. by rewrite <- app_assoc. }
    rewrite Hr. simpl. by rewrite app_nil_r.
  - clear Hw. induction Hok as [| c calls Hc _ IH]; [constructor |]. cbn [flat_map]. apply Forall_app. split; [by apply sse_lines_ok | done].
Qed.

Lemma sse_messages_survive_witness :
  let calls := [SComment "hello"; SEvent "tick" ("1" ++ newline ++ newline ++ "2"); SKeepalive; SData "[DONE]"] in
  Forall sse_ok calls /\ read_stream (foldl sse_write EmptyString calls) = [("tick", ("1" ++ newline ++ newline ++ "2")%string); (EmptyString, "[DONE]")].
Proof.
  intros calls. assert (Hok : Forall sse_ok calls) by (repeat (apply Forall_cons_2; [vm_compute; repeat split; done |]); by apply Forall_nil_2).
  split; [exact Hok | exact (sse_messages_survive calls Hok)].
Defined.

(** A carriage return in the data starts a line of its own at the client: text
    from outside can end the message and forge another. *)
Lemma carriage_return_forges_a_message :
  let cr := String "013" EmptyString in
  read_stream (Data ("hi" ++ cr ++ cr ++ "event: admin" ++ cr ++ "data: forged") EmptyString) = [(EmptyString, "hi"); ("admin", "forged")].
Proof. reflexivity. Qed.
