(* ===== verification/LsmBytes.v ===== *)
(** * LsmBytes
    What the LSM tree does with bytes: [util/string.go], [bytes.Compare], the
    variable-length integers of [encoding/binary] and the readers over a byte
    buffer. A read answers a value and what is left, an [io] error, or panics. *)
From S2P Require Import Prelude GoBytes.

(** ** [bytes.Compare] *)

Fixpoint Compare (a b : bytes) : comparison :=
  match a, b with
  | [], [] => Eq
  | [], _ :: _ => Lt
  | _ :: _, [] => Gt
  | x :: a, y :: b => match x ?= y with Eq => Compare a b | c => c end
  end.

Definition blt (a b : bytes) : Prop := Compare a b = Lt.
Definition ble (a b : bytes) : Prop := Compare a b <> Gt.
#[export] Instance blt_dec a b : Decision (blt a b) := decide (Compare a b = Lt).
#[export] Instance ble_dec a b : Decision (ble a b) := decide (~ Compare a b = Gt).

Lemma Compare_eq a b : Compare a b = Eq <-> a = b.
Proof.
  revert b. induction a as [| x a IH]; intros [| y b]; simpl; try (split; congruence).
  destruct (Z.compare_spec x y) as [-> | Hlt | Hgt]; [rewrite IH; split; congruence | |]; split; try congruence;
    intros [= -> ->]; lia.
Qed.

Lemma Compare_refl a : Compare a a = Eq.
Proof. by apply Compare_eq. Qed.

Lemma Compare_antisym a b : Compare b a = CompOpp (Compare a b).
Proof.
  revert b. induction a as [| x a IH]; intros [| y b]; simpl; try done.
  rewrite Z.compare_antisym. by destruct (x ?= y); simpl.
Qed.

Lemma blt_irrefl a : ~ blt a a.
Proof. unfold blt. by rewrite Compare_refl. Qed.

Lemma blt_trans a b c : blt a b -> blt b c -> blt a c.
Proof.
  unfold blt. revert b c. induction a as [| x a IH]; intros [| y b] [| z c]; simpl; try done.
  destruct (Z.compare_spec x y) as [-> | Hlt | Hgt]; [| | done].
  - destruct (y ?= z) eqn:Hyz; [apply IH | done | done].
  - intros _. destruct (Z.compare_spec y z) as [-> | Hyz | Hyz]; [| | done].
    + intros _. by rewrite (proj2 (Z.compare_lt_iff x z)).
    + intros _. rewrite (proj2 (Z.compare_lt_iff x z)); [done | lia].
Qed.

Lemma not_blt a b : ~ blt a b <-> ble b a.
Proof. unfold blt, ble. rewrite (Compare_antisym a b). by destruct (Compare a b). Qed.
Lemma not_ble a b : ~ ble a b <-> blt b a.
Proof. unfold blt, ble. rewrite (Compare_antisym a b). destruct (Compare a b); simpl; intuition congruence. Qed.
Lemma ble_refl a : ble a a.
Proof. unfold ble. by rewrite Compare_refl. Qed.
Lemma blt_ble a b : blt a b -> ble a b.
Proof. unfold blt, ble. intros ->. done. Qed.
Lemma ble_cases a b : ble a b -> blt a b \/ a = b.
Proof. unfold ble, blt. destruct (Compare a b) eqn:Hc; [| auto | done]. right. by apply Compare_eq. Qed.
Lemma ble_blt_trans a b c : ble a b -> blt b c -> blt a c.
Proof. intros [H | ->]%ble_cases; [apply blt_trans, H | done]. Qed.
Lemma blt_ble_trans a b c : blt a b -> ble b c -> blt a c.
Proof. intros H [H' | <-]%ble_cases; [by eapply blt_trans | done]. Qed.
Lemma ble_trans a b c : ble a b -> ble b c -> ble a c.
Proof. intros [H | ->]%ble_cases; [intros H'; by eapply blt_ble, blt_ble_trans | done]. Qed.
Lemma blt_neq a b : blt a b -> a <> b.
Proof. intros H ->. by apply blt_irrefl in H. Qed.
Lemma ble_antisym a b : ble a b -> ble b a -> a = b.
Proof. intros [H | ->]%ble_cases H'; [by apply not_blt in H' | done]. Qed.
Lemma ble_nil a : ble [] a.
Proof. by destruct a. Qed.

#[export] Instance ble_preorder : PreOrder ble.
Proof. split; [exact ble_refl | exact ble_trans]. Qed.
#[export] Hint Resolve blt_ble ble_refl : go.

(** ** [util/string.go] *)

Fixpoint SharedPrefixLen (a b : bytes) : Z :=
  match a, b with
  | x :: a, y :: b => if decide (x <> y) then 0 else 1 + SharedPrefixLen a b
  | _, _ => 0
  end.

Lemma SharedPrefixLen_range a b : 0 <= SharedPrefixLen a b <= zlen b.
Proof.
  revert b. induction a as [| x a IH]; intros [| y b]; simpl; autorewrite with zlen; try lia.
  - pose proof (zlen_nonneg b). lia.
  - pose proof (zlen_nonneg b). case_decide; [lia |]. specialize (IH b). lia.
Qed.

Lemma SharedPrefixLen_left a b : SharedPrefixLen a b <= zlen a.
Proof.
  revert b. induction a as [| x a IH]; intros [| y b]; simpl; autorewrite with zlen; try lia.
  - pose proof (zlen_nonneg a). lia.
  - pose proof (zlen_nonneg a). case_decide; [lia |]. specialize (IH b). lia.
Qed.

Lemma SharedPrefixLen_take a b :
  take (Z.to_nat (SharedPrefixLen a b)) a ++ drop (Z.to_nat (SharedPrefixLen a b)) b = b.
Proof.
  revert b. induction a as [| x a IH]; intros [| y b]; simpl; try done.
  case_decide as Hxy; [done |]. subst y.
  pose proof (SharedPrefixLen_range a b). replace (Z.to_nat (1 + SharedPrefixLen a b)) with (S (Z.to_nat (SharedPrefixLen a b))) by lia.
  simpl. by rewrite IH.
Qed.

(** [GetSeparatorBetween]: the last byte of [b] minus one, in a byte. *)
Definition GetSeparatorBetween (a b : bytes) : bytes :=
  match b with
  | [] => b
  | _ :: _ =>
      match a with
      | [] => removelast b ++ [u8 (List.last b 0 - 1)]
      | _ :: _ => a
      end
  end.

(** ** [encoding/binary]: variable-length integers *)

Fixpoint put_uvarint (fuel : nat) (x : Z) : bytes :=
  match fuel with
  | O => []
  | S fuel => if decide (128 <= x) then Z.lor (u8 x) 128 :: put_uvarint fuel (Z.shiftr x 7) else [u8 x]
  end.
(** [binary.PutUvarint]: what it writes; ten bytes hold any [uint64]. *)
Definition PutUvarint (x : Z) : bytes := put_uvarint 10 x.

(** [EINVAL] is what seeking before the start of a file answers. *)
Inductive io_error := EOF | ErrUnexpectedEOF | errOverflow | EINVAL.
#[export] Instance io_error_eq_dec : EqDecision io_error.
Proof. solve_decision. Defined.

Fixpoint read_uvarint (fuel : nat) (i x : Z) (l : bytes) : result io_error (Z * bytes) :=
  match fuel with
  | O => Err errOverflow
  | S fuel =>
      match l with
      | [] => Err (if decide (0 < i) then ErrUnexpectedEOF else EOF)
      | b :: l =>
          if decide (b < 128) then
            if decide (i = 9 /\ 1 < b) then Err errOverflow else Ok (Z.lor x (u64 (Z.shiftl b (7 * i))), l)
          else read_uvarint fuel (i + 1) (Z.lor x (u64 (Z.shiftl (Z.land b 127) (7 * i)))) l
      end
  end.
(** [binary.ReadUvarint] *)
Definition ReadUvarint (l : bytes) : result io_error (Z * bytes) := read_uvarint 10 0 0 l.

Fixpoint uvarint_from (fuel : nat) (i x : Z) (l : bytes) : Z * Z :=
  match l with
  | [] => (0, 0)
  | b :: l =>
      match fuel with
      | O => (0, - (i + 1))
      | S fuel =>
          if decide (b < 128) then
            if decide (i = 9 /\ 1 < b) then (0, - (i + 1)) else (Z.lor x (u64 (Z.shiftl b (7 * i))), i + 1)
          else uvarint_from fuel (i + 1) (Z.lor x (u64 (Z.shiftl (Z.land b 127) (7 * i)))) l
      end
  end.
(** [binary.Uvarint]: the value and the number of bytes, 0 or negative on failure. *)
Definition Uvarint (l : bytes) : Z * Z := uvarint_from 10 0 0 l.

(** [make([]byte, n)] and [io.ReadFull] into it. The run-time refuses lengths
    beyond the address space. *)
Definition maxAlloc : Z := 2 ^ 48.
Definition ReadFull (n : Z) (l : bytes) : outcome (result io_error (bytes * bytes)) :=
  if decide (maxAlloc < n) then Panic "makeslice: len out of range" else
  Ret (if decide (n <= zlen l) then Ok (take (Z.to_nat n) l, drop (Z.to_nat n) l)
       else if decide (l = []) then Err EOF else Err ErrUnexpectedEOF).

Lemma lor_add x y k : 0 <= k -> 0 <= x < 2 ^ k -> 0 <= y -> Z.lor x (Z.shiftl y k) = x + y * 2 ^ k.
Proof.
  intros Hk Hx Hy. rewrite <- Z.shiftl_mul_pow2, <- Z.add_lor_land by lia.
  cut (Z.land x (Z.shiftl y k) = 0); [lia |].
  apply Z.bits_inj'. intros i Hi. rewrite Z.land_spec, Z.shiftl_spec, Z.bits_0 by lia.
  destruct (decide (i < k)); [rewrite (Z.testbit_neg_r y) by lia; apply andb_false_r |].
  destruct (decide (x = 0)) as [-> | Hne]; [by rewrite Z.testbit_0_l |].
  rewrite Z.bits_above_log2; [done | lia |].
  apply Z.lt_le_trans with k; [| lia]. apply Z.log2_lt_pow2; lia.
Qed.

Lemma more_byte u : 0 <= u < 256 -> 128 <= Z.lor u 128 < 256 /\ Z.land (Z.lor u 128) 127 = u mod 128.
Proof.
  intros Hu. set (P := fun u => (128 <=? Z.lor u 128) && (Z.lor u 128 <? 256) && (Z.land (Z.lor u 128) 127 =? u mod 128)).
  assert (Hall : forallb (fun n => P (Z.of_nat n)) (seq 0 256) = true) by (vm_compute; reflexivity).
  rewrite forallb_forall in Hall. specialize (Hall (Z.to_nat u)). rewrite in_seq, Z2Nat.id in Hall by lia.
  specialize (Hall ltac:(lia)). unfold P in Hall. apply andb_prop in Hall as [[H1 H2]%andb_prop H3].
  apply Z.leb_le in H1. apply Z.ltb_lt in H2. apply Z.eqb_eq in H3. lia.
Qed.

Lemma u8_mod y : u8 y mod 128 = y mod 128.
Proof. unfold u8. change (2 ^ 8) with (128 * 2). rewrite Z.rem_mul_r by lia. rewrite Z.mul_comm, Z_mod_plus_full, Z.mod_mod; lia. Qed.

(** How far a number written in [f] more bytes reaches when [i] are read. *)
Lemma pow_step f : 0 <= f -> 2 ^ (7 * (f + 1)) = 128 * 2 ^ (7 * f).
Proof. intros Hf. replace (7 * (f + 1)) with (7 + 7 * f) by lia. rewrite Z.pow_add_r by lia. done. Qed.

Lemma read_put_uvarint f i x y rest :
  0 <= i -> Z.of_nat f = 10 - i -> (0 < f)%nat -> 0 <= x < 2 ^ (7 * i) -> 0 <= y -> y * 2 ^ (7 * i) < 2 ^ 64 ->
  read_uvarint f i x (put_uvarint f y ++ rest) = Ok (x + y * 2 ^ (7 * i), rest).
Proof.
  revert i x y. induction f as [| f IH]; intros i x y Hi Hf Hpos Hx Hy Hfit; [lia |]. cbn [put_uvarint].
  assert (0 < 2 ^ (7 * i)) by (apply Z.pow_pos_nonneg; lia).
  destruct (decide (128 <= y)) as [Hbig | Hsmall]; cbn [app read_uvarint].
  - destruct (more_byte (u8 y)) as [Hr Hl]; [apply Z.mod_pos_bound; lia |].
    rewrite decide_False by lia. rewrite Hl, u8_mod.
    pose proof (Z.div_mod y 128 ltac:(lia)) as Hdm. pose proof (Z.mod_pos_bound y 128 ltac:(lia)).
    assert (0 <= y / 128) by (apply Z.div_pos; lia).
    rewrite u64_id; [| rewrite Z.shiftl_mul_pow2 by lia; split; nia].
    rewrite lor_add by lia.
    assert (i < 9).
    { destruct (decide (i < 9)); [done |]. assert (i = 9) as -> by lia.
      change (2 ^ 64) with (2 * 2 ^ (7 * 9)) in Hfit. nia. }
    rewrite Z.shiftr_div_pow2 by lia. change (2 ^ 7) with 128.
    rewrite IH; rewrite ?pow_step by lia; try lia; [| nia..]. do 2 f_equal. nia.
  - assert (Hu : u8 y = y) by (apply Z.mod_small; lia). rewrite Hu.
    rewrite decide_True by lia. rewrite decide_False.
    + rewrite u64_id; [by rewrite lor_add by lia |]. rewrite Z.shiftl_mul_pow2 by lia. split; nia.
    + intros [-> Hgt]. change (2 ^ 64) with (2 * 2 ^ (7 * 9)) in Hfit. nia.
Qed.

Lemma ReadUvarint_Put x rest : is_u64 x -> ReadUvarint (PutUvarint x ++ rest) = Ok (x, rest).
Proof.
  intros Hx. unfold ReadUvarint, PutUvarint. rewrite read_put_uvarint; unfold is_u64 in *; try lia.
  change (2 ^ (7 * 0)) with 1. do 2 f_equal. lia.
Qed.

Lemma uvarint_read f i x l y rest :
  read_uvarint f i x l = Ok (y, rest) -> uvarint_from f i x l = (y, i + (zlen l - zlen rest)).
Proof.
  revert i x l. induction f as [| f IH]; intros i x l; [done |]. destruct l as [| b l]; simpl; [done |].
  case_decide; [case_decide; [done |]; intros [= <- <-]; autorewrite with zlen; f_equal; lia |].
  intros Hr. rewrite (IH _ _ _ Hr). autorewrite with zlen. f_equal. lia.
Qed.

Lemma Uvarint_Put x rest : is_u64 x -> Uvarint (PutUvarint x ++ rest) = (x, zlen (PutUvarint x)).
Proof.
  intros Hx. unfold Uvarint. erewrite uvarint_read; [| by apply ReadUvarint_Put].
  autorewrite with zlen. f_equal. lia.
Qed.

Lemma length_put_uvarint f x : (length (put_uvarint f x) <= f)%nat.
Proof. revert x. induction f as [| f IH]; intros x; simpl; [lia |]. case_decide; simpl; [specialize (IH (Z.shiftr x 7)); lia | lia]. Qed.
Lemma zlen_PutUvarint x : 1 <= zlen (PutUvarint x) <= 10.
Proof.
  unfold PutUvarint. pose proof (length_put_uvarint 10 x). split; [| unfold zlen; lia].
  generalize 9%nat. intros f. simpl. case_decide; autorewrite with zlen; pose proof (zlen_nonneg (put_uvarint f (Z.shiftr x 7))); lia.
Qed.

(** A number below [2^(7 n)] takes at most [n] bytes. *)
Lemma put_uvarint_short n f x :
  (0 < n)%nat -> 0 <= x < 2 ^ (7 * Z.of_nat n) -> (length (put_uvarint f x) <= n)%nat.
Proof.
  revert f x. induction n as [| n IH]; intros f x Hn Hx; [lia |]. destruct f as [| f]; simpl; [lia |].
  case_decide; simpl; [| lia]. destruct n as [| n]; [change (7 * Z.of_nat 1) with 7 in Hx; lia |].
  apply le_n_S, IH; [lia |]. rewrite Nat2Z.inj_succ, <- Z.add_1_r, pow_step in Hx by lia.
  rewrite Z.shiftr_div_pow2 by lia. change (2 ^ 7) with 128. split; [apply Z.div_pos; lia |].
  apply Z.div_lt_upper_bound; lia.
Qed.
Lemma zlen_PutUvarint_short n x : 0 < n -> 0 <= x < 2 ^ (7 * n) -> zlen (PutUvarint x) <= n.
Proof.
  intros Hn Hx. pose proof (put_uvarint_short (Z.to_nat n) 10 x ltac:(lia)) as Hs. rewrite Z2Nat.id in Hs by lia.
  unfold zlen, PutUvarint. specialize (Hs Hx). lia.
Qed.

Lemma read_full_app a rest : zlen a <= maxAlloc -> ReadFull (zlen a) (a ++ rest) = Ret (Ok (a, rest)).
Proof.
  intros Ha. unfold ReadFull. rewrite decide_False by lia. rewrite decide_True by (autorewrite with zlen; pose proof (zlen_nonneg rest); lia).
  unfold zlen. rewrite Nat2Z.id. by rewrite take_app_length, drop_app_length.
Qed.
