(* ===== verification/LsmBloom.v ===== *)
(** * LsmBloom
    The filter of the LSM tree: [filter/filter.go] as a class with the law the
    rest of the tree relies on, no false negatives, and
    [filter/bloom_filter.go], its bit map filled by double hashing, as an
    instance of both. *)
From S2P Require Import Prelude GoBytes LsmBytes.

(** ** The interface *)

(** The [Filter] interface of [filter.go]. [Exist] takes the bit map as a Go
    slice that may be nil. *)
Class Filter (F : Type) := {
  f_Add : bytes -> F -> F;
  f_Exist : F -> option bytes -> bytes -> outcome bool;
  f_Hash : F -> outcome bytes;
  f_Reset : F -> F;
  f_KeyLen : F -> Z
}.

(** [holds f ks]: the keys added since the last reset. [like]: filters of one
    configuration, since a bit map outlives the filter state it was built from.
    Bit maps are at most a megabyte long. *)
Class FilterSpec (F : Type) `{Filter F} := {
  holds : F -> list bytes -> Prop;
  like : F -> F -> Prop;
  like_equiv :: Equivalence like;
  like_add f k : like f (f_Add k f);
  like_reset f : like f (f_Reset f);
  holds_add f ks k : holds f ks -> holds (f_Add k f) (ks ++ [k]);
  holds_reset f ks : holds f ks -> holds (f_Reset f) [];
  holds_len f ks : holds f ks -> f_KeyLen f = zlen ks;
  hash_exists f ks : holds f ks -> ks <> [] ->
    exists bm, f_Hash f = Ret bm /\ zlen bm <= 2 ^ 20
      /\ forall f', like f f' -> forall k, (exists b, f_Exist f' (Some bm) k = Ret b) /\ (k ∈ ks -> f_Exist f' (Some bm) k = Ret true)
}.

(** ** [bloom_filter.go] *)

(** [fnv.New32a], [Write], [Sum32] *)
Definition hashKey (key : bytes) : Z := fold_left (fun h b => u32 (Z.lxor h b * 16777619)) key 2166136261.

Record BloomFilter := mkBloomFilter { m : Z; hashedKeys : list Z }.

Definition NewBloomFilter (m : Z) : result string BloomFilter :=
  if decide (m <= 0) then Err "m must be positive"%string else Ok (mkBloomFilter m []).

Definition Add (key : bytes) (bf : BloomFilter) : BloomFilter :=
  mkBloomFilter (m bf) (hashedKeys bf ++ [hashKey key]).
Definition Reset (bf : BloomFilter) : BloomFilter := mkBloomFilter (m bf) [].
Definition KeyLen (bf : BloomFilter) : Z := zlen (hashedKeys bf).

(** The integer division panics on an empty filter; the conversion to a byte
    comes before the bounds. *)
Definition bestK (bf : BloomFilter) : outcome Z :=
  if decide (zlen (hashedKeys bf) = 0) then Panic "integer divide by zero" else
  Ret (Z.min (Z.max (u8 (Z.quot (Z.quot (i64 (69 * m bf)) 100) (zlen (hashedKeys bf)))) 1) 30).

Definition bitmap (bf : BloomFilter) (k : Z) : bytes :=
  replicate (Z.to_nat (Z.shiftr (m bf + 7) 3)) 0 ++ [k].

(** The second hash [h2], and the bit of the [i]-th function. *)
Definition delta (h : Z) : Z := Z.lor (Z.shiftr h 17) (u32 (Z.shiftl h 15)).
Definition targetBit (bf : BloomFilter) (h i : Z) : outcome Z :=
  if decide (u32 (m bf) = 0) then Panic "integer divide by zero" else
  Ret (u32 (h + u32 (i * delta h)) mod u32 (m bf)).

(** [bitmap[targetBit>>3] |= 1 << (targetBit & 7)] *)
Definition set_bit (bm : bytes) (t : Z) : outcome bytes :=
  let! b := index bm (Z.shiftr t 3) in
  Ret (<[Z.to_nat (Z.shiftr t 3) := Z.lor b (u8 (Z.shiftl 1 (Z.land t 7)))]> bm).
Definition test_bit (bm : bytes) (t : Z) : outcome bool :=
  let! b := index bm (Z.shiftr t 3) in
  Ret (negb (Z.land b (u8 (Z.shiftl 1 (Z.land t 7))) =? 0)).

(** The loop of [Hash] for one key: [n] more functions from the [i]-th on. *)
Fixpoint set_bits (bf : BloomFilter) (h : Z) (n : nat) (i : Z) (bm : bytes) : outcome bytes :=
  match n with
  | O => Ret bm
  | S n => let! t := targetBit bf h i in let! bm := set_bit bm t in set_bits bf h n (i + 1) bm
  end.

Definition Hash (bf : BloomFilter) : outcome bytes :=
  let! k := bestK bf in
  ofold (fun h bm => set_bits bf h (Z.to_nat k) 0 bm) (hashedKeys bf) (bitmap bf k).

Fixpoint test_bits (bf : BloomFilter) (h : Z) (n : nat) (i : Z) (bm : bytes) : outcome bool :=
  match n with
  | O => Ret true
  | S n =>
      let! t := targetBit bf h i in
      let! b := test_bit bm t in
      if b then test_bits bf h n (i + 1) bm else Ret false
  end.

Definition Exist (bf : BloomFilter) (bm : option bytes) (key : bytes) : outcome bool :=
  let! bm := match bm with None => Hash bf | Some bm => Ret bm end in
  let! k := index bm (zlen bm - 1) in
  test_bits bf (hashKey key) (Z.to_nat k) 0 bm.

#[export] Instance bloom_filter : Filter BloomFilter := {
  f_Add := Add; f_Exist := Exist; f_Hash := Hash; f_Reset := Reset; f_KeyLen := KeyLen }.

(** ** No false negatives *)

(** The bit map lengths that the constructor lets through and [uint32] can count. *)
Definition sized (bf : BloomFilter) : Prop := 0 < m bf < 2 ^ 32.
Definition full (bf : BloomFilter) (bm : bytes) : Prop := zlen bm = Z.shiftr (m bf + 7) 3 + 1.

(** What filling the bit map preserves: its length, its last byte, the bits that are set. *)
Record grows (bf : BloomFilter) (bm bm' : bytes) : Prop := {
  grows_len : zlen bm' = zlen bm;
  grows_last : bm' !! Z.to_nat (Z.shiftr (m bf + 7) 3) = bm !! Z.to_nat (Z.shiftr (m bf + 7) 3);
  grows_bits t : test_bit bm t = Ret true -> test_bit bm' t = Ret true
}.

#[export] Instance grows_preorder bf : PreOrder (grows bf).
Proof.
  split; [by split |]. intros a b c [l1 k1 b1] [l2 k2 b2]. split; [congruence | congruence | auto].
Qed.

Lemma mask_nonzero t : Z.land (u8 (Z.shiftl 1 (Z.land t 7))) (u8 (Z.shiftl 1 (Z.land t 7))) <> 0.
Proof.
  rewrite Z.land_diag. change 7 with (Z.ones 3). rewrite Z.land_ones by lia.
  pose proof (Z.mod_pos_bound t (2 ^ 3) ltac:(lia)) as Hb. revert Hb. generalize (t mod 2 ^ 3). intros k Hk.
  change (2 ^ 3) with 8 in Hk. rewrite Z.shiftl_1_l. unfold u8. rewrite Z.mod_small.
  - apply Z.pow_nonzero; lia.
  - split; [apply Z.pow_nonneg; lia | apply Z.pow_lt_mono_r; lia].
Qed.

Lemma slot_range bf t : sized bf -> 0 <= t < m bf -> 0 <= Z.shiftr t 3 < Z.shiftr (m bf + 7) 3.
Proof.
  intros Hm Ht. rewrite !Z.shiftr_div_pow2 by lia. change (2 ^ 3) with 8.
  split; [apply Z.div_pos; lia |]. replace (m bf + 7) with (m bf - 1 + 1 * 8) by lia.
  rewrite Z_div_plus_full by lia. pose proof (Z.div_le_mono t (m bf - 1) 8 ltac:(lia) ltac:(lia)). lia.
Qed.

Lemma targetBit_total bf h i : sized bf -> exists t, targetBit bf h i = Ret t /\ 0 <= t < m bf.
Proof.
  intros Hm. unfold targetBit. rewrite (u32_id (m bf)) by (unfold is_u32, sized in *; lia).
  rewrite decide_False by (unfold sized in Hm; lia). eexists. split; [done |]. apply Z.mod_pos_bound, Hm.
Qed.

Lemma set_bit_grows bf bm t : sized bf -> full bf bm -> 0 <= t < m bf ->
  exists bm', set_bit bm t = Ret bm' /\ grows bf bm bm' /\ test_bit bm' t = Ret true.
Proof.
  intros Hm Hf Ht. pose proof (slot_range bf t Hm Ht) as Hs. unfold set_bit.
  destruct (index_total bm (Z.shiftr t 3)) as (b & Hb & Hlk); [unfold full in Hf; lia |].
  rewrite Hb. cbn [obind]. set (b' := Z.lor b _). eexists. split; [done |].
  assert (Hself : test_bit (<[Z.to_nat (Z.shiftr t 3) := b']> bm) t = Ret true).
  { unfold test_bit. rewrite (proj2 (index_ret _ _ b')); [| split; [lia |]].
    - cbn [obind]. unfold b'. rewrite Z.land_lor_distr_l. pose proof (mask_nonzero t) as Hmk.
      do 2 f_equal. destruct (_ =? 0) eqn:Hz; [| done]. apply Z.eqb_eq, Z.lor_eq_0_iff in Hz. tauto.
    - apply list_lookup_insert_eq. by eapply lookup_lt_Some. }
  split; [| done]. split.
  - unfold zlen. by rewrite length_insert.
  - apply list_lookup_insert_ne. lia.
  - intros u. unfold test_bit, index. case_decide as Hu; [| done].
    destruct (decide (Z.to_nat (Z.shiftr u 3) = Z.to_nat (Z.shiftr t 3))) as [Heq | Hne].
    + rewrite Heq, Hlk, list_lookup_insert_eq by (by eapply lookup_lt_Some). cbn [obind]. unfold b'.
      rewrite Z.land_lor_distr_l. destruct (Z.land b _ =? 0) eqn:Hz; [done |]. intros _.
      destruct (Z.lor _ _ =? 0) eqn:Hz'; [| done]. apply Z.eqb_eq, Z.lor_eq_0_iff in Hz' as [Hz' _].
      apply Z.eqb_neq in Hz. congruence.
    + by rewrite list_lookup_insert_ne by done.
Qed.

(** After the loop for a key its bits are set, and no bit is lost. *)
Lemma set_bits_sets bf h n i bm : sized bf -> full bf bm ->
  exists bm', set_bits bf h n i bm = Ret bm' /\ grows bf bm bm'
    /\ forall bm2, grows bf bm' bm2 -> test_bits bf h n i bm2 = Ret true.
Proof.
  intros Hm. revert i bm. induction n as [| n IH]; intros i bm Hf; simpl; [by eexists |].
  destruct (targetBit_total bf h i Hm) as (t & -> & Ht). cbn [obind].
  destruct (set_bit_grows bf bm t Hm Hf Ht) as (bm1 & -> & Hg & Hb). cbn [obind].
  destruct (IH (i + 1) bm1) as (bm' & Hs & Hg' & Hall); [unfold full; rewrite (grows_len _ _ _ Hg); done |].
  exists bm'. split; [done |]. split; [by etransitivity |]. intros bm2 Hg2.
  rewrite (grows_bits _ _ _ Hg2) by (by apply (grows_bits _ _ _ Hg')). cbn [obind]. by apply Hall.
Qed.

Lemma test_bits_total bf h n i bm : sized bf -> full bf bm -> exists b, test_bits bf h n i bm = Ret b.
Proof.
  intros Hm Hf. revert i. induction n as [| n IH]; intros i; simpl; [by eexists |].
  destruct (targetBit_total bf h i Hm) as (t & -> & Ht). cbn [obind]. pose proof (slot_range bf t Hm Ht).
  unfold test_bit. destruct (index_total bm (Z.shiftr t 3)) as (b & -> & _); [unfold full in Hf; lia |].
  cbn [obind]. destruct (negb _); [apply IH | by eexists].
Qed.

Lemma fill_bits bf n hs bm : sized bf -> full bf bm ->
  exists bm', ofold (fun h bm => set_bits bf h n 0 bm) hs bm = Ret bm' /\ grows bf bm bm'
    /\ forall h, h ∈ hs -> test_bits bf h n 0 bm' = Ret true.
Proof.
  intros Hm. revert bm. induction hs as [| h hs IH]; intros bm Hf; simpl.
  - exists bm. split; [done |]. split; [done |]. intros h Hh. by apply not_elem_of_nil in Hh.
  - destruct (set_bits_sets bf h n 0 bm Hm Hf) as (bm1 & -> & Hg & Hall). cbn [obind].
    destruct (IH bm1) as (bm' & Hs & Hg' & Hin); [unfold full; rewrite (grows_len _ _ _ Hg); done |].
    exists bm'. split; [done |]. split; [by etransitivity |]. intros h' [-> | Hh]%elem_of_cons; auto.
Qed.

Lemma bestK_range bf : hashedKeys bf <> [] -> exists k, bestK bf = Ret k /\ 1 <= k <= 30.
Proof.
  intros Hne. unfold bestK. rewrite decide_False by (by rewrite zlen_0). eexists. split; [done | lia].
Qed.

Lemma bitmap_full bf k : sized bf -> full bf (bitmap bf k).
Proof.
  intros Hm. unfold full, bitmap. autorewrite with zlen. unfold zlen. rewrite length_replicate.
  assert (0 <= Z.shiftr (m bf + 7) 3) by (apply Z.shiftr_nonneg; unfold sized in Hm; lia). lia.
Qed.

(** The bit map of a filter: its last byte is the number of functions, and every
    added key passes the test of any filter of the same size. *)
Lemma Hash_finds bf : sized bf -> hashedKeys bf <> [] ->
  exists bm k, Hash bf = Ret bm /\ full bf bm /\ 1 <= k <= 30 /\ bm !! Z.to_nat (Z.shiftr (m bf + 7) 3) = Some k
    /\ forall h, h ∈ hashedKeys bf -> test_bits bf h (Z.to_nat k) 0 bm = Ret true.
Proof.
  intros Hm Hne. unfold Hash. destruct (bestK_range bf Hne) as (k & -> & Hk). cbn [obind].
  destruct (fill_bits bf (Z.to_nat k) (hashedKeys bf) (bitmap bf k) Hm (bitmap_full bf k Hm)) as (bm & Hb & Hg & Hin).
  exists bm, k. split; [done |]. split; [unfold full; rewrite (grows_len _ _ _ Hg); by apply bitmap_full |].
  split; [done |]. split; [| done]. rewrite (grows_last _ _ _ Hg). unfold bitmap. rewrite lookup_app_r; rewrite length_replicate; [| done].
  by rewrite Nat.sub_diag.
Qed.

Lemma same_size_bits bf bf' h n i bm : m bf = m bf' -> test_bits bf h n i bm = test_bits bf' h n i bm.
Proof. intros Hm. revert i. induction n as [| n IH]; intros i; simpl; [done |]. unfold targetBit. rewrite Hm. repeat (destruct (decide _) || destruct (test_bit _ _)); simpl; try done. by rewrite IH. Qed.

Lemma Exist_eval bf bm key k : bm !! Z.to_nat (Z.shiftr (m bf + 7) 3) = Some k -> sized bf -> full bf bm ->
  Exist bf (Some bm) key = test_bits bf (hashKey key) (Z.to_nat k) 0 bm.
Proof.
  intros Hk Hm Hf. unfold Exist. cbn [obind]. rewrite (proj2 (index_ret _ _ k)); [done |].
  replace (zlen bm - 1) with (Z.shiftr (m bf + 7) 3) by (unfold full in Hf; lia). split; [| done].
  apply Z.shiftr_nonneg. unfold sized in Hm. lia.
Qed.

Record bloom_holds (bf : BloomFilter) (ks : list bytes) : Prop := {
  bloom_sized : sized bf;
  bloom_keys : hashedKeys bf = hashKey <$> ks
}.

#[export] Instance bloom_filter_spec : FilterSpec BloomFilter.
Proof.
  refine {| holds := fun f ks => bloom_holds f ks /\ m f < 2 ^ 22; like := fun a b => m a = m b |}.
  - split; [done | by intros ?? -> | by intros ??? -> ->].
  - done.
  - done.
  - intros f ks k [[Hs Hk] Hm]. split; [| done]. split; [done |]. simpl. by rewrite Hk, fmap_app.
  - intros f ks [[Hs Hk] Hm]. split; [| done]. by split.
  - intros f ks [[Hs Hk] Hm]. simpl. unfold KeyLen, zlen. by rewrite Hk, length_fmap.
  - intros f ks [[Hs Hk] Hm] Hne. destruct (Hash_finds f Hs) as (bm & k & Hh & Hf & Hkr & Hlast & Hin).
    { rewrite Hk. by destruct ks. }
    exists bm. split; [done |]. split.
    { rewrite Hf, Z.shiftr_div_pow2 by lia. unfold sized in *.
      pose proof (Z.div_lt_upper_bound (m f + 7) (2 ^ 3) (2 ^ 20 - 1) ltac:(lia) ltac:(lia)). lia. }
    intros f' Hl key. simpl in *. unfold like in Hl.
    assert (Hev : Exist f' (Some bm) key = test_bits f (hashKey key) (Z.to_nat k) 0 bm).
    { rewrite (Exist_eval f' bm key k); unfold sized, full in *; rewrite <- ?Hl; try done. by apply same_size_bits. }
    rewrite Hev. split; [by apply test_bits_total |]. intros Hkey. apply Hin. rewrite Hk. apply list_elem_of_fmap. by exists key.
Defined.

Lemma bloom_adds g l ks : bloom_holds g l ->
  bloom_holds (foldl (fun f k => Add k f) g ks) (l ++ ks) /\ m (foldl (fun f k => Add k f) g ks) = m g.
Proof.
  revert g l. induction ks as [| k ks IH]; intros g l [Hs Hk]; simpl; [by rewrite app_nil_r |].
  destruct (IH (Add k g) (l ++ [k])) as [H1 H2]; [split; [done | simpl; by rewrite Hk, fmap_app] |].
  by rewrite <- app_assoc in H1.
Qed.

(** A key that was added to the bloom filter is always reported by the bit
    map built from it, whatever other keys were added and whatever the state of
    the filter that reads it; filling and testing never leave the bit map. The
    bit map ends with a number of functions between 1 and 30. *)
Theorem bloom_no_false_negatives n ks :
  0 < n < 2 ^ 32 -> ks <> [] ->
  exists bm, Hash (foldl (fun f k => Add k f) (mkBloomFilter n []) ks) = Ret bm
    /\ zlen bm = (n + 7) / 8 + 1
    /\ (exists k, last bm = Some k /\ 1 <= k <= 30)
    /\ forall hs key, (exists b, Exist (mkBloomFilter n hs) (Some bm) key = Ret b)
         /\ (key ∈ ks -> Exist (mkBloomFilter n hs) (Some bm) key = Ret true).
Proof.
  intros Hn Hne. set (f := foldl _ _ ks).
  destruct (bloom_adds (mkBloomFilter n []) [] ks) as [Hf Hm]; [by split |]. fold f in Hf, Hm. simpl in Hf, Hm.
  destruct Hf as [Hs Hk]. destruct (Hash_finds f Hs) as (bm & k & Hh & Hf & Hkr & Hlast & Hin); [rewrite Hk; by destruct ks |].
  exists bm. split; [done |]. split; [by rewrite Hf, Z.shiftr_div_pow2, Hm by lia |]. split.
  - exists k. split; [| done]. rewrite last_lookup. unfold full, zlen in Hf.
    by replace (pred (length bm)) with (Z.to_nat (Z.shiftr (m f + 7) 3)) by lia.
  - intros hs key. assert (Hev : Exist (mkBloomFilter n hs) (Some bm) key = test_bits f (hashKey key) (Z.to_nat k) 0 bm).
    { rewrite (Exist_eval _ bm key k); unfold sized, full in *; simpl; rewrite <- ?Hm; try done. by apply same_size_bits. }
    rewrite Hev. split; [by apply test_bits_total |]. intros Hkey. apply Hin. rewrite Hk. apply list_elem_of_fmap. by exists key.
Qed.

Lemma bloom_no_false_negatives_witness :
  exists bm, Hash (foldl (fun f k => Add k f) (mkBloomFilter 64 []) [[1; 2]; [3]]) = Ret bm
    /\ Exist (mkBloomFilter 64 []) (Some bm) [3] = Ret true.
Proof.
  destruct (bloom_no_false_negatives 64 [[1; 2]; [3]] ltac:(lia) ltac:(done)) as (bm & Hh & _ & _ & Hall).
  exists bm. split; [exact Hh |]. apply (Hall [] [3]). by apply elem_of_cons; right; apply list_elem_of_singleton.
Defined.

(** The conversion to a byte comes before the bounds: with a bit map of 37200
    bits and 100 keys the formula asks for 256 functions, and one is used, not 30. *)
Lemma bestK_wraps : bestK (mkBloomFilter 37200 (replicate 100 0)) = Ret 1
  /\ bestK (mkBloomFilter 37000 (replicate 100 0)) = Ret 30.
Proof. by vm_compute. Qed.
