(* ===== verification/SkipNodes.v ===== *)
(** * SkipNodes
    Nodes that point to each other at several levels, which the skip lists of
    this library share: searching and splicing, and what they do to the runs of
    the levels. Nodes live in a heap and a pointer is a position in it; position
    0 is the head. *)
From S2P Require Import Prelude.

(** ** Keys *)

Class SkipKey (K : Type) := {
  klt : relation K;
  klt_decision :: RelDecision klt;
  key_eq_decision : EqDecision K;
  key_inhabited : Inhabited K
}.
#[export] Existing Instance key_eq_decision | 100.
#[export] Existing Instance key_inhabited | 100.
Class SkipKeySpec (K : Type) `{SkipKey K} := {
  klt_irrefl x : ~ klt x x;
  klt_trans x y z : klt x y -> klt y z -> klt x z;
  klt_total x y : ~ klt x y -> klt y x \/ x = y
}.

(** ** The nodes *)

Record node (K V : Type) := mkNode { nexts : list (option nat); key : K; value : V }.
Arguments mkNode {K V} nexts key value.
Arguments nexts {K V} n : rename.
Arguments key {K V} n : rename.
Arguments value {K V} n : rename.
#[export] Instance eta_node {K V} : Eta (node K V) := fun n => mkNode (nexts n) (key n) (value n).

Section Skip.
Context {K V : Type} {KS : SkipKey K}.

Definition deref (h : list (node K V)) (a : nat) : outcome (node K V) :=
  match h !! a with Some n => Ret n | None => Panic nil_deref end.

(** The loop [for move.nexts[level] != nil && move.nexts[level].key < key]: where
    it stops. *)
Fixpoint walk (fuel : nat) (h : list (node K V)) (level : nat) (k : K) (move : nat) : outcome nat :=
  let! n := deref h move in
  let! nx := index (nexts n) (Z.of_nat level) in
  match nx with
  | None => Ret move
  | Some b =>
      let! nb := deref h b in
      if decide (klt (key nb) k) then
        match fuel with O => Panic "walk: out of fuel" | S fuel => walk fuel h level k b end
      else Ret move
  end.

(** The levels of [getNode], from the top; [n] are left. *)
Fixpoint search_levels (h : list (node K V)) (k : K) (n : nat) (move : nat) : outcome (option nat) :=
  match n with
  | O => Ret None
  | S level =>
      let! move := walk (length h) h level k move in
      let! mv := deref h move in
      let! nx := index (nexts mv) (Z.of_nat level) in
      match nx with
      | Some b =>
          let! nb := deref h b in
          if decide (key nb = k) then Ret (Some b) else search_levels h k level move
      | None => search_levels h k level move
      end
  end.
Definition find (h : list (node K V)) (k : K) : outcome (option nat) :=
  let! head := deref h 0 in
  search_levels h k (length (nexts head)) 0.

Definition set_value (h : list (node K V)) (a : nat) (v : V) : list (node K V) := alter (fun n => n <| value := v |>) a h.
Definition set_next (h : list (node K V)) (a level : nat) (x : option nat) : list (node K V) :=
  alter (fun n => n <| nexts := <[level := x]> (nexts n) |>) a h.

(** The insertion loop of [Put], from the top level of the new node [a]. *)
Fixpoint splice (h : list (node K V)) (k : K) (a : nat) (n : nat) (move : nat) : outcome (list (node K V)) :=
  match n with
  | O => Ret h
  | S level =>
      let! move := walk (length h) h level k move in
      let! mv := deref h move in
      let! nx := index (nexts mv) (Z.of_nat level) in
      splice (set_next (set_next h a level nx) move level (Some a)) k a level move
  end.

(** The removal of the node of [k], from the top level. *)
Fixpoint unlink (h : list (node K V)) (k : K) (n : nat) (move : nat) : outcome (list (node K V)) :=
  match n with
  | O => Ret h
  | S level =>
      let! move := walk (length h) h level k move in
      let! mv := deref h move in
      let! nx := index (nexts mv) (Z.of_nat level) in
      match nx with
      | None => unlink h k level move
      | Some b =>
          let! nb := deref h b in
          if decide (klt k (key nb)) then unlink h k level move else
          let! nx := index (nexts nb) (Z.of_nat level) in
          unlink (set_next h move level nx) k level move
      end
  end.

(** All levels of a search for [k], whatever is found: where it ends. *)
Fixpoint descend (h : list (node K V)) (k : K) (n : nat) (move : nat) : outcome nat :=
  match n with
  | O => Ret move
  | S level => let! move := walk (length h) h level k move in descend h k level move
  end.
End Skip.

Section Facts.
Context {K V : Type} {KS : SkipKey K} {KL : SkipKeySpec K} {IV : Inhabited V}.
Implicit Types (h : list (node K V)) (k : K).

(** ** What the heap says *)

Definition tower (h : list (node K V)) (a : nat) : nat := length (default [] (nexts <$> h !! a)).
Definition key_at (h : list (node K V)) (a : nat) : K := default inhabitant (key <$> h !! a).
Definition value_at (h : list (node K V)) (a : nat) : V := default inhabitant (value <$> h !! a).
Definition next_at (h : list (node K V)) (a l : nat) : option (option nat) := h !! a ≫= fun n => nexts n !! l.

(** The run of a level: each node points to the one after it. *)
Fixpoint linked (h : list (node K V)) (l : nat) (S : list nat) : Prop :=
  match S with
  | [] => True
  | a :: T => next_at h a l = Some (head T) /\ linked h l T
  end.

Lemma linked_app h l S a T : linked h l (S ++ a :: T) -> linked h l (a :: T).
Proof. induction S as [| b S IH]; [done |]. intros [_ Hl]. apply IH, Hl. Qed.

Lemma linked_ext h h' l S : (forall a, a ∈ S -> next_at h' a l = next_at h a l) -> linked h l S -> linked h' l S.
Proof.
  induction S as [| a S IH]; intros Heq; [done |]. intros [Hn Hl]. split.
  - rewrite Heq; [done | by left].
  - apply IH; [| done]. intros b Hb. apply Heq. by right.
Qed.

Lemma next_deref h a l x : next_at h a l = Some x ->
  exists n, deref h a = Ret n /\ index (nexts n) (Z.of_nat l) = Ret x /\ h !! a = Some n.
Proof.
  unfold next_at, deref. destruct (h !! a) as [n |] eqn:Ha; simpl; [| done]. intros Hn.
  exists n. split; [done |]. split; [| done]. apply index_ret. split; [lia |]. by rewrite Nat2Z.id.
Qed.

Lemma deref_ret h a n : deref h a = Ret n <-> h !! a = Some n.
Proof. unfold deref. destruct (h !! a); split; congruence. Qed.

(** ** Walking a level *)

(** From a node of a run the walk stops before the first key that is not smaller. *)
Lemma walk_run h l k fuel a T :
  linked h l (a :: T) -> (forall b, b ∈ T -> is_Some (h !! b)) -> (length T <= fuel)%nat ->
  exists T1 T2, T = T1 ++ T2 /\ walk fuel h l k a = Ret (List.last T1 a)
    /\ (forall b, b ∈ T1 -> klt (key_at h b) k) /\ (forall b, head T2 = Some b -> ~ klt (key_at h b) k).
Proof.
  revert a T. induction fuel as [| fuel IH]; intros a T [Hn Hl] Hv Hf.
  - destruct T; [| simpl in Hf; lia]. exists [], []. split; [done |]. split; [| split; [intros b Hb; by apply not_elem_of_nil in Hb | done]].
    apply next_deref in Hn as (n & Hd & Hi & _). simpl. by rewrite Hd; cbn [obind]; rewrite Hi.
  - apply next_deref in Hn as (n & Hd & Hi & _). destruct T as [| b T].
    + exists [], []. split; [done |]. split; [| split; [intros b Hb; by apply not_elem_of_nil in Hb | done]].
      simpl. by rewrite Hd; cbn [obind]; rewrite Hi.
    + destruct (Hv b) as [nb Hnb]; [by left |]. cbn [walk]. rewrite Hd. cbn [obind]. rewrite Hi. cbn [obind head].
      rewrite (proj2 (deref_ret _ _ _) Hnb). cbn [obind].
      assert (Hk : key_at h b = key nb) by (unfold key_at; by rewrite Hnb).
      case_decide as Hlt.
      * destruct (IH b T Hl) as (T1 & T2 & -> & Hw & H1 & H2); [intros c Hc; apply Hv; by right | simpl in Hf; lia |].
        exists (b :: T1), T2. split; [done |]. split; [| split; [| done]].
        -- by rewrite Hw, list_last_cons.
        -- intros c [-> | Hc]%elem_of_cons; [by rewrite Hk | by apply H1].
      * exists [], (b :: T). split; [done |]. split; [done |]. split; [intros c Hc; by apply not_elem_of_nil in Hc |].
        intros c [= <-]. by rewrite Hk.
Qed.

(** ** The representation *)

Definition level_run (h : list (node K V)) (ord : list nat) (l : nat) : list nat := filter (fun a => (l < tower h a)%nat) ord.

Record skip_wf (h : list (node K V)) (ord : list nat) : Prop := {
  wf_head : is_Some (h !! 0%nat);
  wf_nodup : NoDup (0%nat :: ord);
  wf_nodes a : a ∈ ord -> is_Some (h !! a);
  wf_tall a : a ∈ ord -> (1 <= tower h a <= tower h 0)%nat;
  wf_links l : (l < tower h 0)%nat -> linked h l (0%nat :: level_run h ord l);
  wf_sorted : StronglySorted klt (key_at h <$> ord)
}.

Definition entries_of (h : list (node K V)) (ord : list nat) : list (K * V) := (fun a => (key_at h a, value_at h a)) <$> ord.

(** In a list sorted by key the keys below [k] are a prefix. *)
Lemma StronglySorted_klt_split {A} (f : A -> K) (l1 l2 : list A) x :
  StronglySorted klt (f <$> l1 ++ x :: l2) ->
  (forall y, y ∈ l1 -> klt (f y) (f x)) /\ (forall y, y ∈ l2 -> klt (f x) (f y)).
Proof.
  induction l1 as [| z l1 IH]; simpl; intros [Hs Hall]%StronglySorted_inv.
  - split; [intros y Hy; by apply not_elem_of_nil in Hy |]. intros y Hy. rewrite Forall_fmap, Forall_forall in Hall. by apply Hall.
  - destruct (IH Hs) as [H1 H2]. split; [| done]. intros y [-> | Hy]%elem_of_cons; [| by apply H1].
    rewrite Forall_fmap, Forall_forall in Hall. apply Hall, elem_of_app. right. by left.
Qed.

Lemma sorted_fmap_filter {A} (f : A -> K) (P : A -> Prop) `{!forall x, Decision (P x)} l :
  StronglySorted klt (f <$> l) -> StronglySorted klt (f <$> filter P l).
Proof.
  induction l as [| x l IH]; [done |]. simpl. intros [Hs Hall]%StronglySorted_inv. rewrite filter_cons.
  case_decide; [| by apply IH]. simpl. constructor; [by apply IH |].
  rewrite Forall_fmap, Forall_forall in *. intros y [_ Hy]%list_elem_of_filter. by apply Hall.
Qed.

Lemma sorted_tail_not_klt {A} (f : A -> K) (l : list A) k :
  StronglySorted klt (f <$> l) -> (forall x, head l = Some x -> ~ klt (f x) k) -> forall y, y ∈ l -> ~ klt (f y) k.
Proof.
  destruct l as [| x l]; intros Hs Hh y Hy; [by apply not_elem_of_nil in Hy |].
  specialize (Hh x eq_refl). simpl in Hs. apply StronglySorted_inv in Hs as [_ Hall]. rewrite Forall_fmap, Forall_forall in Hall.
  apply elem_of_cons in Hy as [-> | Hy]; [done |]. intros Hlt. apply Hh. eapply klt_trans; [| exact Hlt]. by apply Hall.
Qed.

(** ** Searching *)

(** Everything of [skip_wf] but the links. *)
Record skip_base (h : list (node K V)) (ord : list nat) : Prop := {
  sb_head : is_Some (h !! 0%nat);
  sb_nodup : NoDup (0%nat :: ord);
  sb_nodes a : a ∈ ord -> is_Some (h !! a);
  sb_tall a : a ∈ ord -> (1 <= tower h a <= tower h 0)%nat;
  sb_sorted : StronglySorted klt (key_at h <$> ord)
}.

Lemma wf_base h ord : skip_wf h ord -> skip_base h ord.
Proof. intros [H1 H2 H3 H4 H5 H6]. by split. Qed.

(** The keys a search for [k] may stand on: the head, or a smaller key. *)
Definition below (h : list (node K V)) (k : K) (a : nat) : Prop := a <> 0%nat -> klt (key_at h a) k.

Lemma run_length h ord l : skip_base h ord -> (length (level_run h ord l) <= length h)%nat.
Proof.
  intros [_ Hnd Hn _ _]. etransitivity; [apply length_filter|].
  rewrite <- (length_seq (length h) 0). apply submseteq_length, NoDup_submseteq; [by apply NoDup_cons in Hnd as [_ ?] |].
  intros a Ha. apply elem_of_seq. destruct (Hn a Ha) as [n Hl]. apply lookup_lt_Some in Hl. lia.
Qed.

Lemma run_in h ord l a : a ∈ level_run h ord l <-> a ∈ ord /\ (l < tower h a)%nat.
Proof. unfold level_run. rewrite list_elem_of_filter. tauto. Qed.

(** One level of a search: the run is cut at the place of [k]. *)
Lemma walk_level h ord l k a :
  skip_base h ord -> linked h l (0%nat :: level_run h ord l) -> (l < tower h a)%nat -> a ∈ 0%nat :: ord -> below h k a ->
  exists b P T, walk (length h) h l k a = Ret b /\ 0%nat :: level_run h ord l = P ++ b :: T /\ b ∈ 0%nat :: ord
    /\ (l < tower h b)%nat /\ (forall x, x ∈ P ++ [b] -> below h k x) /\ (forall x, x ∈ T -> ~ klt (key_at h x) k)
    /\ next_at h b l = Some (head T).
Proof.
  intros Hb Hl Ht Ha Hk.
  assert (Hin : a ∈ 0%nat :: level_run h ord l).
  { apply elem_of_cons in Ha as [-> | Ha]; [by left |]. right. by apply run_in. }
  apply list_elem_of_split in Hin as (P & T & Hsplit). rewrite Hsplit in Hl.
  assert (HT : forall x, x ∈ T -> x ∈ level_run h ord l).
  { intros x Hx. destruct P as [| p P]; simpl in Hsplit; injection Hsplit as _ ->; [done | apply elem_of_app; right; by right]. }
  assert (Hsort : StronglySorted klt (key_at h <$> level_run h ord l)) by apply sorted_fmap_filter, Hb.
  pose proof (linked_app _ _ _ _ _ Hl) as Hl'.
  destruct (walk_run h l k (length h) a T Hl') as (T1 & T2 & -> & Hw & H1 & H2).
  { intros x Hx. apply HT, run_in in Hx as [Hx _]. by apply Hb. }
  { pose proof (run_length h ord l Hb) as Hlen. apply (f_equal length) in Hsplit. rewrite length_app in Hsplit. simpl in Hsplit. lia. }
  destruct (list_last_split T1 a) as [P1 HP1].
  exists (List.last T1 a), (P ++ P1), T2. split; [done |].
  assert (Heq : 0%nat :: level_run h ord l = (P ++ P1) ++ List.last T1 a :: T2).
  { rewrite Hsplit, <- app_assoc. f_equal. change (a :: T1 ++ T2) with ((a :: T1) ++ T2). rewrite HP1. by rewrite <- app_assoc. }
  split; [done |].
  assert (Hpre : forall x, x ∈ P ++ a :: T1 -> below h k x).
  { intros x Hx. apply elem_of_app in Hx as [Hx | [-> | Hx]%elem_of_cons]; [| done | intros _; by apply H1].
    intros Hx0. destruct P as [| p P]; [by apply not_elem_of_nil in Hx |]. simpl in Hsplit. injection Hsplit as <- Hrun.
    apply elem_of_cons in Hx as [-> | Hx]; [done |]. rewrite Hrun in Hsort.
    destruct (StronglySorted_klt_split _ _ _ _ Hsort) as [Hlow _].
    eapply klt_trans; [by apply Hlow |]. apply Hk. intros ->.
    pose proof (sb_nodup _ _ Hb) as [Hno _]%NoDup_cons. apply Hno.
    eapply (proj1 (run_in h ord l 0%nat)). rewrite Hrun. apply elem_of_app. right. by left. }
  assert (Hlast : List.last T1 a ∈ 0%nat :: level_run h ord l) by (rewrite Heq; apply elem_of_app; right; by left).
  split; [apply elem_of_cons in Hlast as [-> | [? _]%run_in]; [by left | by right] |].
  split.
  { destruct (proj1 (elem_of_cons _ _ _) (list_last_in T1 a)) as [-> | Hx]; [done |].
    eapply run_in, HT, elem_of_app. by left. }
  split; [intros x Hx; apply Hpre; rewrite HP1; by rewrite <- app_assoc in Hx |].
  split.
  - apply sorted_tail_not_klt; [| done].
    destruct (P ++ P1) as [| p Q]; simpl in Heq; injection Heq as Hz Hrun; rewrite Hrun in Hsort.
    + done.
    + rewrite fmap_app in Hsort. simpl in Hsort. clear -Hsort. induction Q as [| q Q IH]; simpl in Hsort;
      apply StronglySorted_inv in Hsort as [Hsort _]; [done | by apply IH].
  - rewrite <- app_assoc in Heq. rewrite <- Hsplit in Hl. rewrite Heq, app_assoc in Hl. apply linked_app in Hl. by destruct Hl.
Qed.

Lemma level_0 h ord : skip_base h ord -> level_run h ord 0 = ord.
Proof.
  intros Hb. unfold level_run. apply filter_all, Forall_forall. intros a Ha. destruct (sb_tall _ _ Hb a Ha). lia.
Qed.

Lemma search_levels_spec h ord k n a : skip_wf h ord -> (n <= tower h a)%nat -> a ∈ 0%nat :: ord -> below h k a ->
  (exists b, search_levels h k n a = Ret (Some b) /\ b ∈ ord /\ key_at h b = k)
  \/ (search_levels h k n a = Ret None /\ ((1 <= n)%nat -> forall x, x ∈ ord -> key_at h x <> k)).
Proof.
  intros Hwf. pose proof (wf_base _ _ Hwf) as Hb. revert a. induction n as [| n IH]; intros a Hn Ha Hk; simpl.
  - right. split; [done | lia].
  - assert (Hrange : (n < tower h 0)%nat).
    { apply elem_of_cons in Ha as [-> | Ha]; [lia |]. destruct (sb_tall _ _ Hb a Ha). lia. }
    destruct (walk_level h ord n k a Hb (wf_links _ _ Hwf n Hrange)) as (b & P & T & -> & Hsp & Hin & Htb & Hlow & Hhigh & Hnx); [lia | done | done |].
    cbn [obind]. apply next_deref in Hnx as (nb & Hd & Hi & _). rewrite Hd. cbn [obind]. rewrite Hi. cbn [obind].
    assert (Hkb : below h k b) by (apply Hlow, elem_of_app; right; by left).
    assert (HTin : forall x, x ∈ T -> x ∈ ord).
    { intros x Hx. destruct P as [| p P]; simpl in Hsp; injection Hsp as _ Hrun; eapply (proj1 (run_in h ord n x)); rewrite Hrun;
      [done | apply elem_of_app; right; by right]. }
    assert (Hrest : (forall x, head T = Some x -> key_at h x <> k) ->
      (exists c, search_levels h k n b = Ret (Some c) /\ c ∈ ord /\ key_at h c = k)
      \/ (search_levels h k n b = Ret None /\ ((1 <= S n)%nat -> forall x, x ∈ ord -> key_at h x <> k))).
    { intros Hne. destruct (IH b ltac:(lia) Hin Hkb) as [Hf | [Hnone Hall]]; [by left | right]. split; [done |].
      intros _. destruct n as [| n]; [| apply Hall; lia]. rewrite (level_0 h ord Hb) in Hsp. intros x Hx Hkx.
      assert (Hx' : x ∈ P ++ b :: T) by (rewrite <- Hsp; by right). rewrite cons_middle, app_assoc in Hx'.
      apply elem_of_app in Hx' as [Hx' | Hx'].
      - apply (klt_irrefl k). rewrite <- Hkx at 1. apply (Hlow x Hx'). intros ->.
        pose proof (sb_nodup _ _ Hb) as [Hno _]%NoDup_cons. done.
      - destruct T as [| c T]; [by apply not_elem_of_nil in Hx' |]. apply elem_of_cons in Hx' as [-> | Hx']; [by apply (Hne c) |].
        assert (Hs : StronglySorted klt (key_at h <$> ord)) by apply Hb.
        assert (Hlt : klt (key_at h c) (key_at h x)).
        { destruct P as [| p P]; simpl in Hsp; injection Hsp as _ Hrun; rewrite Hrun in Hs.
          - by apply (StronglySorted_klt_split (key_at h) [] T c).
          - rewrite cons_middle, app_assoc in Hs. by apply (StronglySorted_klt_split (key_at h) (P ++ [b]) T c). }
        rewrite Hkx in Hlt. by apply (Hhigh c); [left |]. }
    destruct (head T) as [c |] eqn:HT.
    + assert (Hc : c ∈ ord) by (apply HTin; destruct T; [done | injection HT as ->; by left]).
      destruct (sb_nodes _ _ Hb c Hc) as [nc Hnc]. rewrite (proj2 (deref_ret _ _ _) Hnc). cbn [obind].
      assert (Hkc : key_at h c = key nc) by (unfold key_at; by rewrite Hnc).
      case_decide as Heq; [left; exists c; by rewrite Hkc |]. apply Hrest. intros x [= <-]. by rewrite Hkc.
    + by apply Hrest.
Qed.

Lemma find_spec h ord k : skip_wf h ord ->
  (exists b, find h k = Ret (Some b) /\ b ∈ ord /\ key_at h b = k)
  \/ (find h k = Ret None /\ forall x, x ∈ ord -> key_at h x <> k).
Proof.
  intros Hwf. pose proof (wf_base _ _ Hwf) as Hb. unfold find. destruct (sb_head _ _ Hb) as [hd Hhd].
  rewrite (proj2 (deref_ret _ _ _) Hhd). cbn [obind].
  assert (Htw : tower h 0 = length (nexts hd)) by (unfold tower; by rewrite Hhd). rewrite <- Htw.
  destruct (search_levels_spec h ord k (tower h 0) 0 Hwf) as [? | [Hn Hall]]; [done | by left | by intros ? | by left |].
  right. split; [done |]. destruct ord as [| a ord]; [intros x Hx; by apply not_elem_of_nil in Hx |].
  apply Hall. destruct (sb_tall _ _ Hb a); [by left | lia].
Qed.

(** ** Writing pointers *)

Lemma set_next_lookup h a l x b :
  set_next h a l x !! b = (fun n => if decide (b = a) then n <| nexts := <[l := x]> (nexts n) |> else n) <$> h !! b.
Proof.
  unfold set_next. destruct (decide (b = a)) as [-> | Hne]; [by rewrite list_lookup_alter_eq |].
  rewrite list_lookup_alter_ne by done. by destruct (h !! b).
Qed.
Lemma set_next_is_Some h a l x b : is_Some (set_next h a l x !! b) <-> is_Some (h !! b).
Proof. rewrite set_next_lookup. apply fmap_is_Some. Qed.
Lemma set_next_tower h a l x b : tower (set_next h a l x) b = tower h b.
Proof. unfold tower. rewrite set_next_lookup. destruct (h !! b); simpl; [case_decide; simpl; [apply length_insert | done] | done]. Qed.
Lemma set_next_key h a l x b : key_at (set_next h a l x) b = key_at h b.
Proof. unfold key_at. rewrite set_next_lookup. destruct (h !! b); simpl; [by case_decide | done]. Qed.
Lemma set_next_value h a l x b : value_at (set_next h a l x) b = value_at h b.
Proof. unfold value_at. rewrite set_next_lookup. destruct (h !! b); simpl; [by case_decide | done]. Qed.
Lemma set_next_length h a l x : length (set_next h a l x) = length h.
Proof. apply length_alter. Qed.

Lemma set_next_self h a l x : (l < tower h a)%nat -> next_at (set_next h a l x) a l = Some x.
Proof.
  intros Hl. unfold next_at, tower in *. rewrite set_next_lookup. destruct (h !! a) as [n |]; simpl in *; [| lia].
  rewrite decide_True by done. simpl. by apply list_lookup_insert_eq.
Qed.
Lemma set_next_other h a l x b l' : b <> a \/ l' <> l -> next_at (set_next h a l x) b l' = next_at h b l'.
Proof.
  intros Hne. unfold next_at. rewrite set_next_lookup. destruct (h !! b) as [n |]; simpl; [| done].
  case_decide as Hb; [| done]. simpl. apply list_lookup_insert_ne. destruct Hne; congruence.
Qed.

(** Two heaps that differ in pointers only. *)
Record same_nodes (h h' : list (node K V)) : Prop := {
  sn_len : length h' = length h;
  sn_tower a : tower h' a = tower h a;
  sn_key a : key_at h' a = key_at h a;
  sn_value a : value_at h' a = value_at h a;
  sn_some a : is_Some (h' !! a) <-> is_Some (h !! a)
}.
#[export] Instance same_nodes_preorder : PreOrder same_nodes.
Proof.
  split; [by split |]. intros a b c [l1 t1 k1 v1 s1] [l2 t2 k2 v2 s2].
  split; [congruence | congruence | congruence | congruence | intros x; by rewrite s2].
Qed.
Lemma set_next_same h a l x : same_nodes h (set_next h a l x).
Proof.
  split; [apply set_next_length | apply set_next_tower | apply set_next_key | apply set_next_value | apply set_next_is_Some].
Qed.

Lemma same_base h h' ord : same_nodes h h' -> skip_base h ord -> skip_base h' ord.
Proof.
  intros [_ Ht Hk _ Hs] [H1 H2 H3 H4 H5]. split.
  - by apply Hs.
  - done.
  - intros a Ha. by apply Hs, H3.
  - intros a Ha. rewrite !Ht. by apply H4.
  - rewrite (list_fmap_ext (key_at h') (key_at h) ord); [done |]. intros i a _. by apply Hk.
Qed.

Lemma same_run h h' ord l : same_nodes h h' -> level_run h' ord l = level_run h ord l.
Proof. intros Hs. unfold level_run. apply list_filter_iff. intros a. by rewrite (sn_tower _ _ Hs). Qed.

Lemma same_entries h h' ord : same_nodes h h' -> entries_of h' ord = entries_of h ord.
Proof. intros Hs. unfold entries_of. apply list_fmap_ext. intros i a _. by rewrite (sn_key _ _ Hs), (sn_value _ _ Hs). Qed.

(** Splicing a node into a run. *)
Lemma linked_splice h l P b T a :
  linked h l (P ++ b :: T) -> NoDup (P ++ b :: T) -> a ∉ P ++ b :: T -> (l < tower h a)%nat -> (l < tower h b)%nat ->
  linked (set_next (set_next h a l (head T)) b l (Some a)) l (P ++ b :: a :: T).
Proof.
  set (h' := set_next _ b l _). intros Hl Hnd Ha Hta Htb.
  assert (Hoth : forall x, x ∈ P ++ T -> next_at h' x l = next_at h x l).
  { intros x Hx. assert (x <> a) by (intros ->; apply Ha; apply elem_of_app in Hx as [?|?]; apply elem_of_app; [by left | right; by right]).
    assert (x <> b). { intros ->. clear -Hnd Hx. rewrite NoDup_app in Hnd. destruct Hnd as (_ & Hd & [Hb _]%NoDup_cons).
      apply elem_of_app in Hx as [Hx | Hx]; [| done]. apply (Hd b Hx). by left. }
    unfold h'. by rewrite !set_next_other by auto. }
  assert (Hab : a <> b) by (intros ->; apply Ha, elem_of_app; right; by left).
  assert (Hba : next_at h' b l = Some (Some a)) by (apply set_next_self; by rewrite set_next_tower).
  assert (Han : next_at h' a l = Some (head T)) by (unfold h'; rewrite set_next_other by auto; by apply set_next_self).
  clear Hnd Ha. clearbody h'. induction P as [| p P IH].
  - simpl in *. destruct Hl as [_ Hl]. split; [done |]. split; [done |]. apply (linked_ext h); [done | done].
  - destruct Hl as [Hn Hl]. change ((p :: P) ++ b :: a :: T) with (p :: (P ++ b :: a :: T)). split.
    + rewrite Hoth by (by left). rewrite Hn. by destruct P.
    + apply IH; [done |]. intros x Hx. apply Hoth. by right.
Qed.

(** A list has one cut between what satisfies a property and what does not. *)
Lemma cut_unique {A} (Q : A -> Prop) (a1 b1 a2 b2 : list A) :
  (forall x, x ∈ a1 -> Q x) -> (forall x, x ∈ b1 -> ~ Q x) -> (forall x, x ∈ a2 -> Q x) -> (forall x, x ∈ b2 -> ~ Q x) ->
  a1 ++ b1 = a2 ++ b2 -> a1 = a2 /\ b1 = b2.
Proof.
  revert a2. induction a1 as [| x a1 IH]; intros [| y a2] Ha1 Hb1 Ha2 Hb2 Heq; simpl in *.
  - done.
  - subst b1. destruct (Hb1 y); [by left |]. apply Ha2. by left.
  - subst b2. destruct (Hb2 x); [by left |]. apply Ha1. by left.
  - injection Heq as -> Heq. destruct (IH a2) as [-> ->]; try done; intros z Hz; [apply Ha1 | apply Ha2]; by right.
Qed.

Lemma sorted_cut {A} (f : A -> K) (l : list A) k :
  StronglySorted klt (f <$> l) -> (forall x, x ∈ l -> f x <> k) ->
  exists L R, l = L ++ R /\ (forall x, x ∈ L -> klt (f x) k) /\ (forall x, x ∈ R -> klt k (f x)).
Proof.
  induction l as [| x l IH]; simpl; intros Hs Hne.
  - exists [], []. split; [done |]. split; intros x Hx; by apply not_elem_of_nil in Hx.
  - apply StronglySorted_inv in Hs as [Hs Hall]. rewrite Forall_fmap, Forall_forall in Hall.
    destruct (decide (klt (f x) k)) as [Hlt | Hge].
    + destruct IH as (L & R & -> & HL & HR); [done | intros y Hy; apply Hne; by right |].
      exists (x :: L), R. split; [done |]. split; [| done]. intros y [-> | Hy]%elem_of_cons; auto.
    + exists [], (x :: l). split; [done |]. split; [intros y Hy; by apply not_elem_of_nil in Hy |].
      assert (Hkx : klt k (f x)). { apply klt_total in Hge as [? | Heq]; [done |]. exfalso. by apply (Hne x); [left |]. }
      intros y [-> | Hy]%elem_of_cons; [done |]. eapply klt_trans; [exact Hkx | by apply Hall].
Qed.

(** ** Inserting *)

Section Splice.
Context (h0 : list (node K V)) (L R : list nat) (a : nat) (k : K).
(** The new node is allocated, and its place is between [L] and [R]. *)
Hypothesis Hbase : skip_base h0 (L ++ R).
Hypothesis Ha0 : a <> 0%nat.
Hypothesis Hanew : a ∉ L ++ R.
Hypothesis HL : forall x, x ∈ L -> klt (key_at h0 x) k.
Hypothesis HR : forall x, x ∈ R -> klt k (key_at h0 x).
Hypothesis Htall : (1 <= tower h0 a <= tower h0 0)%nat.

(** Levels from [n] up are spliced. *)
Definition spliced (n : nat) (h : list (node K V)) : Prop :=
  same_nodes h0 h /\ forall l, (l < tower h0 0)%nat ->
    linked h l (0%nat :: level_run h (if decide (n <= l)%nat then L ++ a :: R else L ++ R) l).

Lemma run_split l h : same_nodes h0 h ->
  level_run h (L ++ a :: R) l = level_run h L l ++ (if decide (l < tower h0 a)%nat then [a] else []) ++ level_run h R l.
Proof.
  intros Hs. unfold level_run. rewrite filter_app, filter_cons, (sn_tower _ _ Hs). by case_decide.
Qed.

Lemma splice_level n h b P T :
  spliced (S n) h -> (n < tower h0 a)%nat -> (n < tower h b)%nat ->
  0%nat :: level_run h (L ++ R) n = P ++ b :: T ->
  (forall x, x ∈ P ++ [b] -> below h k x) -> (forall x, x ∈ T -> ~ klt (key_at h x) k) ->
  spliced n (set_next (set_next h a n (head T)) b n (Some a)).
Proof.
  intros [Hs Hl] Hta Htb Hsp Hlow Hhigh.
  set (h' := set_next (set_next h a n (head T)) b n (Some a)).
  assert (Hs' : same_nodes h h') by (etransitivity; apply set_next_same).
  assert (Hs0 : same_nodes h0 h') by (etransitivity; eassumption).
  assert (H0 : forall x, x ∈ L ++ R -> x <> 0%nat).
  { intros x Hx ->. pose proof (sb_nodup _ _ Hbase) as [Hno _]%NoDup_cons. done. }
  assert (Hcut : 0%nat :: level_run h L n = P ++ [b] /\ level_run h R n = T).
  { apply (cut_unique (below h k)); unfold below.
    - intros x [-> | [Hx _]%run_in]%elem_of_cons; [done |]. intros _. rewrite (sn_key _ _ Hs). by apply HL.
    - intros x [Hx _]%run_in Hb. apply (klt_irrefl k). eapply klt_trans; [by apply HR | rewrite <- (sn_key _ _ Hs); apply Hb].
      apply H0, elem_of_app. by right.
    - exact Hlow.
    - intros x Hx Hb. apply (Hhigh x Hx), Hb. apply H0. eapply (proj1 (run_in h (L ++ R) n x)).
      assert (Hx' : x ∈ 0%nat :: level_run h (L ++ R) n) by (rewrite Hsp; apply elem_of_app; right; by right).
      apply elem_of_cons in Hx' as [-> | Hx']; [| done]. exfalso.
      assert (Hnd : NoDup (P ++ b :: T)).
      { rewrite <- Hsp. apply NoDup_cons. pose proof (sb_nodup _ _ Hbase) as [Hno Hnd]%NoDup_cons.
        split; [intros [? _]%run_in; done | by apply NoDup_filter]. }
      destruct P as [| p P]; simpl in Hsp; injection Hsp as <- _.
      + apply NoDup_cons in Hnd as [Hno _]. done.
      + simpl in Hnd. apply NoDup_cons in Hnd as [Hno _]. apply Hno, elem_of_app. right. by right.
    - rewrite <- app_assoc. simpl. rewrite <- Hsp. unfold level_run. by rewrite filter_app. }
  destruct Hcut as [HcL HcR]. split; [done |]. intros l Hrange. destruct (decide (l = n)) as [-> | Hne].
  - rewrite decide_True by lia. rewrite (same_run h h') by done. rewrite (run_split n h Hs), decide_True by done.
    rewrite app_comm_cons, HcL, HcR, <- app_assoc. simpl. apply linked_splice.
    + rewrite <- Hsp. specialize (Hl n Hrange). by rewrite decide_False in Hl by lia.
    + rewrite <- Hsp. apply NoDup_cons. pose proof (sb_nodup _ _ Hbase) as [Hno Hnd]%NoDup_cons.
      split; [intros [? _]%run_in; done | by apply NoDup_filter].
    + rewrite <- Hsp. intros [? | [? _]%run_in]%elem_of_cons; done.
    + by rewrite (sn_tower _ _ Hs).
    + done.
  - specialize (Hl l Hrange).
    replace (if decide (n <= l)%nat then L ++ a :: R else L ++ R) with (if decide (S n <= l)%nat then L ++ a :: R else L ++ R)
      by (do 2 case_decide; try done; lia).
    rewrite (same_run h h') by done. eapply linked_ext; [| exact Hl]. intros x _. unfold h'. by rewrite !set_next_other by auto.
Qed.

Lemma splice_spec n h move : spliced n h -> (n <= tower h0 a)%nat -> (n <= tower h move)%nat ->
  move ∈ 0%nat :: L ++ R -> below h k move ->
  exists h', splice h k a n move = Ret h' /\ spliced 0 h'.
Proof.
  revert h move. induction n as [| n IH]; intros h move Hsp Hna Hnm Hin Hk; simpl; [by exists h |].
  destruct Hsp as [Hs Hl]. pose proof (same_base _ _ _ Hs Hbase) as Hb.
  assert (Hln : linked h n (0%nat :: level_run h (L ++ R) n)) by (specialize (Hl n ltac:(lia)); by rewrite decide_False in Hl by lia).
  destruct (walk_level h (L ++ R) n k move Hb Hln) as (b & P & T & -> & Hsp & Hin' & Htb & Hlow & Hhigh & Hnx); [lia | done | done |].
  cbn [obind]. apply next_deref in Hnx as (nb & Hd & Hi & _). rewrite Hd. cbn [obind]. rewrite Hi. cbn [obind].
  apply IH.
  - by apply splice_level with P.
  - lia.
  - rewrite !set_next_tower. lia.
  - done.
  - intros Hb0. rewrite !set_next_key. apply Hlow; [apply elem_of_app; right; by left | done].
Qed.

Lemma spliced_wf h : spliced 0 h -> key_at h0 a = k -> is_Some (h0 !! a) -> skip_wf h (L ++ a :: R).
Proof.
  intros [Hs Hl] Hk Hsome. assert (Hperm : L ++ a :: R ≡ₚ a :: L ++ R) by (symmetry; apply Permutation_middle).
  assert (Hnodes : forall x, x ∈ L ++ a :: R -> x = a \/ x ∈ L ++ R).
  { intros x Hx. rewrite Hperm in Hx. by apply elem_of_cons in Hx. }
  split.
  - apply (sn_some _ _ Hs), Hbase.
  - rewrite Hperm. pose proof (sb_nodup _ _ Hbase) as [Hno Hnd]%NoDup_cons. apply NoDup_cons.
    split; [intros [? | ?]%elem_of_cons; done |]. by apply NoDup_cons.
  - intros x Hx. apply (sn_some _ _ Hs). apply Hnodes in Hx as [-> | Hx]; [done | by apply Hbase].
  - intros x Hx. rewrite !(sn_tower _ _ Hs). apply Hnodes in Hx as [-> | Hx]; [done | by apply Hbase].
  - intros l Hrange. rewrite (sn_tower _ _ Hs) in Hrange. specialize (Hl l Hrange). by rewrite decide_True in Hl by lia.
  - rewrite (list_fmap_ext (key_at h) (key_at h0)) by (intros i x _; apply (sn_key _ _ Hs)).
    pose proof (sb_sorted _ _ Hbase) as Hsort. rewrite fmap_app in *. simpl. rewrite Hk. clear -Hsort HL HR.
    induction L as [| x L' IH]; simpl in *.
    + constructor; [done |]. rewrite Forall_fmap, Forall_forall. exact HR.
    + apply StronglySorted_inv in Hsort as [Hsort Hall]. constructor; [apply IH; [intros y Hy; apply HL; by right | done] |].
      rewrite Forall_app in *. destruct Hall as [Hall1 Hall2]. split; [done |]. constructor; [apply HL; by left | done].
Qed.
End Splice.

(** ** The operations *)

Lemma skip_base_wf h ord : skip_base h ord ->
  (forall l, (l < tower h 0)%nat -> linked h l (0%nat :: level_run h ord l)) -> skip_wf h ord.
Proof. intros [H1 H2 H3 H4 H5] Hl. by split. Qed.

(** The head grows by empty levels. *)
Definition grow_head (h : list (node K V)) (H N : nat) : list (node K V) :=
  if decide (tower h 0 < H)%nat
  then alter (fun n => n <| nexts := nexts n ++ replicate (N - length (nexts n)) None |>) 0%nat h
  else h.

Lemma grow_head_facts h ord H N : skip_wf h ord -> (H <= N)%nat ->
  length (grow_head h H N) = length h /\ skip_wf (grow_head h H N) ord /\ (H <= tower (grow_head h H N) 0)%nat
  /\ entries_of (grow_head h H N) ord = entries_of h ord /\ (forall x, key_at (grow_head h H N) x = key_at h x).
Proof.
  intros Hwf HN. unfold grow_head. case_decide as Hlt; [| split; [done |]; split; [done |]; split; [lia | done]].
  set (h' := alter _ 0%nat h). destruct (wf_head _ _ Hwf) as [hd Hhd].
  assert (Hlk : forall x, h' !! x = (fun n => if decide (x = 0%nat) then n <| nexts := nexts n ++ replicate (N - length (nexts n)) None |> else n) <$> h !! x).
  { intros x. unfold h'. destruct (decide (x = 0%nat)) as [-> | Hne]; [by rewrite list_lookup_alter_eq |].
    rewrite list_lookup_alter_ne by done. by destruct (h !! x). }
  assert (Hkey : forall x, key_at h' x = key_at h x) by (intros x; unfold key_at; rewrite Hlk; destruct (h !! x); simpl; [by case_decide | done]).
  assert (Hval : forall x, value_at h' x = value_at h x) by (intros x; unfold value_at; rewrite Hlk; destruct (h !! x); simpl; [by case_decide | done]).
  assert (Htow : forall x, x <> 0%nat -> tower h' x = tower h x) by (intros x Hx; unfold tower; rewrite Hlk; destruct (h !! x); simpl; [by rewrite decide_False | done]).
  assert (Ht0 : tower h 0 = length (nexts hd)) by (unfold tower; by rewrite Hhd).
  assert (Htow0 : tower h' 0 = N).
  { unfold tower. rewrite Hlk, Hhd. simpl. rewrite length_app, length_replicate. lia. }
  assert (Hsome : forall x, is_Some (h' !! x) <-> is_Some (h !! x)) by (intros x; rewrite Hlk; apply fmap_is_Some).
  assert (Hord0 : forall x, x ∈ ord -> x <> 0%nat).
  { intros x Hx ->. pose proof (wf_nodup _ _ Hwf) as [Hno _]%NoDup_cons. done. }
  split; [apply length_alter |]. split; [| split; [lia |]; split; [| done]].
  2: { unfold entries_of. apply list_fmap_ext. intros i x _. by rewrite Hkey, Hval. }
  split.
  - by apply Hsome, Hwf.
  - apply Hwf.
  - intros x Hx. by apply Hsome, Hwf.
  - intros x Hx. rewrite Htow0, Htow by auto. pose proof (wf_tall _ _ Hwf x Hx). lia.
  - intros l Hl. assert (Hrun : level_run h' ord l = level_run h ord l).
    { unfold level_run. clear -Htow Hord0. induction ord as [| x o IH]; [done |]. rewrite !filter_cons, Htow by (apply Hord0; by left).
      rewrite IH; [done |]. intros y Hy. apply Hord0. by right. }
    rewrite Hrun. destruct (decide (l < tower h 0)%nat) as [Hold | Hnew].
    + pose proof (wf_links _ _ Hwf l Hold) as [Hn Hrest]. split.
      * rewrite <- Hn. unfold next_at. rewrite Hlk, Hhd. simpl. apply lookup_app_l. lia.
      * eapply linked_ext; [| exact Hrest]. intros x [Hx _]%run_in. unfold next_at. rewrite Hlk. destruct (h !! x); simpl; [| done].
        by rewrite decide_False by auto.
    + assert (Hnil : level_run h ord l = []).
      { apply filter_none, Forall_forall. intros x Hx. pose proof (wf_tall _ _ Hwf x Hx). lia. }
      rewrite Hnil. split; [| done]. unfold next_at. rewrite Hlk, Hhd. simpl.
      rewrite lookup_app_r by lia. apply lookup_replicate. split; [done | lia].
  - rewrite (list_fmap_ext (key_at h') (key_at h)) by (intros i x _; apply Hkey). apply Hwf.
Qed.

(** A node allocated at the end of the heap is not reached yet. *)
Lemma alloc_facts h ord H k v : skip_wf h ord -> (1 <= H <= tower h 0)%nat ->
  let h0 := h ++ [mkNode (replicate H None) k v] in
  skip_base h0 ord /\ (forall l, (l < tower h0 0)%nat -> linked h0 l (0%nat :: level_run h0 ord l))
  /\ tower h0 0 = tower h 0 /\ tower h0 (length h) = H /\ key_at h0 (length h) = k /\ value_at h0 (length h) = v
  /\ is_Some (h0 !! length h) /\ (length h ∉ 0%nat :: ord)
  /\ (forall x, x ∈ ord -> key_at h0 x = key_at h x) /\ entries_of h0 ord = entries_of h ord.
Proof.
  intros Hwf HH h0. assert (Hold : forall x, x ∈ 0%nat :: ord -> h0 !! x = h !! x).
  { intros x Hx. unfold h0. apply lookup_app_l. apply elem_of_cons in Hx as [-> | Hx].
    - destruct (wf_head _ _ Hwf) as [n Hn]. by eapply lookup_lt_Some.
    - destruct (wf_nodes _ _ Hwf x Hx) as [n Hn]. by eapply lookup_lt_Some. }
  assert (Hnew : h0 !! length h = Some (mkNode (replicate H None) k v)) by (unfold h0; by rewrite lookup_app_r, Nat.sub_diag by done).
  assert (Hin0 : (0%nat) ∈ 0%nat :: ord) by (by left). assert (Hin : forall x, x ∈ ord -> x ∈ 0%nat :: ord) by (by right).
  assert (Htow : forall x, x ∈ 0%nat :: ord -> tower h0 x = tower h x) by (intros x Hx; unfold tower; by rewrite Hold).
  assert (Hkey : forall x, x ∈ ord -> key_at h0 x = key_at h x) by (intros x Hx; unfold key_at; by rewrite Hold by auto).
  assert (Hval : forall x, x ∈ ord -> value_at h0 x = value_at h x) by (intros x Hx; unfold value_at; by rewrite Hold by auto).
  assert (Hfresh : length h ∉ 0%nat :: ord).
  { intros Hx. pose proof (Hold _ Hx) as He. rewrite Hnew in He. symmetry in He. apply lookup_lt_Some in He. lia. }
  assert (Hent : entries_of h0 ord = entries_of h ord).
  { unfold entries_of. apply list_fmap_ext. intros i x Hx. apply list_elem_of_lookup_2 in Hx. by rewrite Hkey, Hval. }
  assert (Hrun : forall l, level_run h0 ord l = level_run h ord l).
  { intros l. unfold level_run. clear -Htow. induction ord as [| x o IH]; [done |]. rewrite !filter_cons, Htow by (right; by left).
    rewrite IH; [done |]. intros y Hy. apply Htow. apply elem_of_cons in Hy as [-> | Hy]; [by left | right; by right]. }
  split_and!; try done.
  - split.
    + rewrite Hold by done. apply Hwf.
    + apply Hwf.
    + intros x Hx. rewrite Hold by auto. by apply Hwf.
    + intros x Hx. rewrite !Htow by auto. by apply Hwf.
    + rewrite (list_fmap_ext (key_at h0) (key_at h)); [apply Hwf |]. intros i x Hx. apply list_elem_of_lookup_2 in Hx. by apply Hkey.
  - intros l Hl. rewrite Hrun. rewrite Htow in Hl by done. eapply linked_ext; [| by apply Hwf].
    intros x Hx. unfold next_at. rewrite Hold; [done |]. apply elem_of_cons in Hx as [-> | [Hx _]%run_in]; auto.
  - by apply Htow.
  - unfold tower. rewrite Hnew. simpl. apply length_replicate.
  - unfold key_at. by rewrite Hnew.
  - unfold value_at. by rewrite Hnew.
Qed.

Lemma spliced_start h0 L R a : (forall l, (l < tower h0 0)%nat -> linked h0 l (0%nat :: level_run h0 (L ++ R) l)) ->
  (tower h0 a <= tower h0 0)%nat -> spliced h0 L R a (tower h0 a) h0.
Proof.
  intros Hl Ht. split; [done |]. intros l Hrange. case_decide as Hle; [| by apply Hl].
  rewrite (run_split h0 L R a l h0) by done. rewrite decide_False by lia. simpl.
  unfold level_run. rewrite <- filter_app. by apply Hl.
Qed.

Lemma entries_keys h ord : (entries_of h ord).*1 = key_at h <$> ord.
Proof. unfold entries_of. rewrite <- list_fmap_compose. by apply list_fmap_ext. Qed.

Lemma sorted_klt_NoDup (l : list K) : StronglySorted klt l -> NoDup l.
Proof.
  induction 1 as [| x l Hs IH Hall]; constructor; [| done]. intros Hx. rewrite Forall_forall in Hall.
  by apply (klt_irrefl x), Hall.
Qed.

Lemma wf_keys_NoDup h ord : skip_wf h ord -> NoDup (entries_of h ord).*1.
Proof. intros Hwf. rewrite entries_keys. apply sorted_klt_NoDup, Hwf. Qed.

(** ** Entries as a map *)

Lemma list_to_map_middle {EK : EqDecision K} {CK : Countable K} (l1 l2 : list (K * V)) k v : k ∉ l1.*1 ->
  (list_to_map (l1 ++ (k, v) :: l2) : gmap K V) = <[k := v]> (list_to_map (l1 ++ l2)).
Proof. intros Hk. rewrite !list_to_map_app. simpl. rewrite insert_union_r; [done |]. by apply not_elem_of_list_to_map. Qed.

Lemma middle_keys (l1 l2 : list (K * V)) k v : NoDup (l1 ++ (k, v) :: l2).*1 -> k ∉ l1.*1 /\ k ∉ (l1 ++ l2).*1.
Proof.
  rewrite !fmap_app. simpl. intros (_ & Hd & [Hk _]%NoDup_cons)%NoDup_app. assert (k ∉ l1.*1) by (intros Hin; apply (Hd k Hin); by left).
  split; [done |]. by intros [? | ?]%elem_of_app.
Qed.

Lemma entries_in {EK : EqDecision K} {CK : Countable K} h ord k v : skip_wf h ord ->
  (list_to_map (entries_of h ord) : gmap K V) !! k = Some v <-> exists a, a ∈ ord /\ key_at h a = k /\ value_at h a = v.
Proof.
  intros Hwf. rewrite <- elem_of_list_to_map by (by apply wf_keys_NoDup).
  unfold entries_of. rewrite list_elem_of_fmap. split.
  - intros (a & [= -> ->] & Ha). by exists a.
  - intros (a & Ha & <- & <-). by exists a.
Qed.

(** ** Overwriting a value *)

Lemma set_value_spec h ord a v n : skip_wf h ord -> a ∈ ord -> h !! a = Some n ->
  skip_wf (set_value h a v) ord
  /\ exists l1 l2, entries_of h ord = l1 ++ (key n, value n) :: l2 /\ entries_of (set_value h a v) ord = l1 ++ (key n, v) :: l2.
Proof.
  intros Hwf Ha Hn. set (h' := set_value h a v).
  assert (Hlk : forall x, h' !! x = (fun n => if decide (x = a) then n <| value := v |> else n) <$> h !! x).
  { intros x. unfold h', set_value. destruct (decide (x = a)) as [-> | Hne]; [by rewrite list_lookup_alter_eq |].
    rewrite list_lookup_alter_ne by done. by destruct (h !! x). }
  assert (Hkey : forall x, key_at h' x = key_at h x) by (intros x; unfold key_at; rewrite Hlk; destruct (h !! x); simpl; [by case_decide | done]).
  assert (Htow : forall x, tower h' x = tower h x) by (intros x; unfold tower; rewrite Hlk; destruct (h !! x); simpl; [by case_decide | done]).
  assert (Hnext : forall x l, next_at h' x l = next_at h x l) by (intros x l; unfold next_at; rewrite Hlk; destruct (h !! x); simpl; [by case_decide | done]).
  assert (Hsome : forall x, is_Some (h' !! x) <-> is_Some (h !! x)) by (intros x; rewrite Hlk; apply fmap_is_Some).
  assert (Hval : forall x, x <> a -> value_at h' x = value_at h x).
  { intros x Hx. unfold value_at. rewrite Hlk. destruct (h !! x); simpl; [by rewrite decide_False | done]. }
  assert (Hva : value_at h' a = v) by (unfold value_at; rewrite Hlk, Hn; simpl; by rewrite decide_True).
  assert (Hvo : value_at h a = value n /\ key_at h a = key n) by (unfold value_at, key_at; by rewrite Hn). destruct Hvo as [Hvo Hko].
  split.
  - split.
    + apply Hsome, Hwf.
    + apply Hwf.
    + intros x Hx. by apply Hsome, Hwf.
    + intros x Hx. rewrite !Htow. by apply Hwf.
    + intros l Hl. rewrite Htow in Hl. eapply linked_ext; [intros x _; apply Hnext |].
      replace (level_run h' ord l) with (level_run h ord l); [by apply Hwf |].
      unfold level_run. apply list_filter_iff. intros x. by rewrite Htow.
    + rewrite (list_fmap_ext (key_at h') (key_at h)) by (intros i x _; apply Hkey). apply Hwf.
  - pose proof (wf_nodup _ _ Hwf) as [_ Hnd]%NoDup_cons. apply list_elem_of_split in Ha as (P & T & ->).
    assert (Hoth : forall x, x ∈ P ++ T -> x <> a).
    { intros x Hx ->. apply NoDup_app in Hnd as (_ & Hd & [Hno _]%NoDup_cons). apply elem_of_app in Hx as [Hx | Hx]; [| done].
      apply (Hd a Hx). by left. }
    assert (Hsame : forall Q, (forall x, x ∈ Q -> x <> a) -> entries_of h' Q = entries_of h Q).
    { intros Q HQ. unfold entries_of. apply list_fmap_ext. intros i x Hx. apply list_elem_of_lookup_2 in Hx. by rewrite Hkey, Hval by auto. }
    exists (entries_of h P), (entries_of h T). rewrite <- (Hsame P), <- (Hsame T) by (intros x Hx; apply Hoth, elem_of_app; auto).
    unfold entries_of. rewrite !fmap_app, !fmap_cons, Hkey, Hko, Hva, Hvo. split; [| done].
    f_equal; [| f_equal]; symmetry; apply Hsame; intros x Hx; apply Hoth, elem_of_app; auto.
Qed.

(** ** Inserting a node *)

Lemma skip_insert_spec h ord H k v : skip_wf h ord -> (1 <= H <= tower h 0)%nat -> (forall x, x ∈ ord -> key_at h x <> k) ->
  exists h' ord', splice (h ++ [mkNode (replicate H None) k v]) k (length h) H 0 = Ret h' /\ skip_wf h' ord'
    /\ exists l1 l2, entries_of h ord = l1 ++ l2 /\ entries_of h' ord' = l1 ++ (k, v) :: l2.
Proof.
  intros Hwf HH Hne. destruct (alloc_facts h ord H k v Hwf HH) as (Hb & Hl & Ht0 & Hta & Hka & Hva & Hsa & Hfresh & Hk0 & Hent0).
  set (h0 := h ++ _) in *. set (a := length h) in *. clearbody h0 a.
  assert (Hne0 : forall x, x ∈ ord -> key_at h0 x <> k) by (intros x Hx; rewrite Hk0 by done; by apply Hne).
  destruct (sorted_cut (key_at h0) ord k (sb_sorted _ _ Hb) Hne0) as (L & R & -> & HL & HR).
  apply not_elem_of_cons in Hfresh as [Ha0 Hanew].
  destruct (splice_spec h0 L R a k Hb Ha0 Hanew HL HR ltac:(lia) H h0 0) as (h' & Hsp & Hsp').
  { rewrite <- Hta. apply spliced_start; [done | lia]. }
  { lia. }
  { lia. }
  { by left. }
  { by intros ?. }
  pose proof Hsp' as [Hsame _]. exists h', (L ++ a :: R). split; [done |].
  split; [by apply (spliced_wf h0 L R a k Hb Ha0 Hanew HL HR ltac:(lia)) |].
  exists (entries_of h0 L), (entries_of h0 R). split.
  - rewrite <- Hent0. apply fmap_app.
  - rewrite (same_entries h0 h') by done. unfold entries_of. by rewrite fmap_app, fmap_cons, Hka, Hva.
Qed.

(** ** Removing a node *)

Lemma linked_unlink h l P b a T : linked h l (P ++ b :: a :: T) -> NoDup (P ++ b :: a :: T) -> (l < tower h b)%nat ->
  linked (set_next h b l (head T)) l (P ++ b :: T).
Proof.
  intros Hl Hnd Htb. assert (Hoth : forall x, x ∈ P ++ T -> next_at (set_next h b l (head T)) x l = next_at h x l).
  { intros x Hx. apply set_next_other. left. intros ->. apply NoDup_app in Hnd as (_ & Hd & Hnd). apply elem_of_app in Hx as [Hx | Hx].
    - apply (Hd b Hx). by left.
    - apply NoDup_cons in Hnd as [Hno _]. apply Hno. by right. }
  assert (Hb : next_at (set_next h b l (head T)) b l = Some (head T)) by (by apply set_next_self).
  clear Hnd. induction P as [| p P IH].
  - destruct Hl as [_ [_ Hl]]. split; [done |]. by apply (linked_ext h).
  - destruct Hl as [Hn Hl]. split.
    + change ((p :: P) ++ T) with (p :: (P ++ T)) in Hoth. rewrite Hoth by (by left). rewrite Hn. by destruct P.
    + apply IH; [done |]. intros x Hx. apply Hoth. by right.
Qed.

(** Where a search for a key ends, in the bottom run. *)
Lemma descend_spec h ord k n a : skip_wf h ord -> (1 <= n)%nat -> (n <= tower h a)%nat -> a ∈ 0%nat :: ord -> below h k a ->
  exists b P T, descend h k n a = Ret b /\ 0%nat :: ord = P ++ b :: T /\ (forall x, x ∈ P ++ [b] -> below h k x)
    /\ (forall x, x ∈ T -> ~ klt (key_at h x) k) /\ next_at h b 0 = Some (head T).
Proof.
  intros Hwf. pose proof (wf_base _ _ Hwf) as Hb. revert a. induction n as [| n IH]; intros a H1 Hn Ha Hk; [lia |]. cbn [descend].
  assert (Hrange : (n < tower h 0)%nat).
  { apply elem_of_cons in Ha as [-> | Ha]; [lia |]. destruct (sb_tall _ _ Hb a Ha). lia. }
  destruct (walk_level h ord n k a Hb (wf_links _ _ Hwf n Hrange)) as (b & P & T & -> & Hsp & Hin & Htb & Hlow & Hhigh & Hnx); [lia | done | done |].
  cbn [obind]. destruct n as [| n].
  - exists b, P, T. rewrite (level_0 h ord Hb) in Hsp. by split_and!.
  - apply IH; [lia | lia | done |]. apply Hlow, elem_of_app. right. by left.
Qed.

Section Unlink.
Context (h0 : list (node K V)) (L R : list nat) (a : nat).
Hypothesis Hwf : skip_wf h0 (L ++ a :: R).

Lemma around_key x : (x ∈ L -> klt (key_at h0 x) (key_at h0 a)) /\ (x ∈ R -> klt (key_at h0 a) (key_at h0 x)).
Proof. destruct (StronglySorted_klt_split (key_at h0) L R a (wf_sorted _ _ Hwf)). auto. Qed.

(** Levels from [n] up go past [a]. *)
Definition unlinked (n : nat) (h : list (node K V)) : Prop :=
  same_nodes h0 h /\ forall l, (l < tower h0 0)%nat ->
    linked h l (0%nat :: level_run h (if decide (n <= l)%nat then L ++ R else L ++ a :: R) l).

Lemma unlink_level n h b P T :
  unlinked (S n) h -> (n < tower h0 0)%nat -> (n < tower h b)%nat -> 0%nat :: level_run h (L ++ a :: R) n = P ++ b :: T ->
  (forall x, x ∈ P ++ [b] -> below h (key_at h0 a) x) -> (forall x, x ∈ T -> ~ klt (key_at h x) (key_at h0 a)) ->
  T = (if decide (n < tower h0 a)%nat then [a] else []) ++ level_run h R n
  /\ unlinked n (if decide (n < tower h0 a)%nat then set_next h b n (head (level_run h R n)) else h).
Proof.
  intros [Hs Hl] Hr Htb Hsp Hlow Hhigh. pose proof (wf_nodup _ _ Hwf) as Hnd.
  assert (Hrs := run_split h0 L R a n h Hs).
  assert (Hnz : forall x, x ∈ level_run h (L ++ a :: R) n -> x <> 0%nat).
  { intros x [Hx _]%run_in ->. by apply NoDup_cons in Hnd as [Hno _]. }
  assert (Hcut : 0%nat :: level_run h L n = P ++ [b] /\ (if decide (n < tower h0 a)%nat then [a] else []) ++ level_run h R n = T).
  { apply (cut_unique (below h (key_at h0 a))); unfold below.
    - intros x [-> | [Hx _]%run_in]%elem_of_cons; [done |]. intros _. rewrite (sn_key _ _ Hs). by apply around_key.
    - intros x Hx Hb.
      assert (Hx' : x ∈ level_run h (L ++ a :: R) n) by (rewrite Hrs; apply elem_of_app; by right).
      specialize (Hb (Hnz _ Hx')). rewrite (sn_key _ _ Hs) in Hb. apply elem_of_app in Hx as [Hx | [Hx _]%run_in].
      + case_decide; [| by apply not_elem_of_nil in Hx]. apply list_elem_of_singleton in Hx as ->. by apply klt_irrefl in Hb.
      + apply (klt_irrefl (key_at h0 a)). eapply klt_trans; [by apply around_key | exact Hb].
    - exact Hlow.
    - intros x Hx Hb. apply (Hhigh x Hx), Hb. apply Hnz.
      assert (Hx' : x ∈ 0%nat :: level_run h (L ++ a :: R) n) by (rewrite Hsp; apply elem_of_app; right; by right).
      apply elem_of_cons in Hx' as [-> | Hx']; [| done]. exfalso.
      assert (Hnd' : NoDup (P ++ b :: T)).
      { rewrite <- Hsp. apply NoDup_cons. apply NoDup_cons in Hnd as [Hno Hnd]. split; [intros [? _]%run_in; done | by apply NoDup_filter]. }
      destruct P as [| p P]; simpl in Hsp; injection Hsp as <- _; simpl in Hnd'; apply NoDup_cons in Hnd' as [Hno _];
        apply Hno; [done | apply elem_of_app; right; by right].
    - rewrite <- app_assoc. simpl. rewrite <- Hsp, Hrs. done. }
  destruct Hcut as [HcL HcT]. split; [done |]. subst T.
  assert (Hgoal : forall h', same_nodes h h' -> (forall x l, l <> n -> next_at h' x l = next_at h x l) ->
    linked h' n (0%nat :: level_run h (L ++ R) n) -> unlinked n h').
  { intros h' Hs' Hother Hn. split; [by etransitivity |]. intros l Hrange. rewrite (same_run h h') by done.
    destruct (decide (l = n)) as [-> | Hne]; [by rewrite decide_True by lia |].
    specialize (Hl l Hrange).
    assert (Heq : (if decide (n <= l)%nat then L ++ R else L ++ a :: R) = (if decide (S n <= l)%nat then L ++ R else L ++ a :: R))
      by (clear -Hne; do 2 case_decide; try done; lia).
    rewrite Heq. eapply linked_ext; [| exact Hl]. intros x _. by apply Hother. }
  assert (Happ : 0%nat :: level_run h (L ++ R) n = P ++ b :: level_run h R n).
  { unfold level_run at 1. rewrite filter_app, app_comm_cons. change (filter (fun a0 => (n < tower h a0)%nat) L) with (level_run h L n).
    rewrite HcL, <- app_assoc. done. }
  specialize (Hl n Hr). rewrite decide_False in Hl by lia. rewrite Hsp in Hl.
  case_decide as Hta; simpl in Hsp, Hl.
  - apply Hgoal; [apply set_next_same | intros x l Hx; apply set_next_other; by right |]. rewrite Happ. apply (linked_unlink h n P b a); [done | | done].
    rewrite <- Hsp. apply NoDup_cons in Hnd as [Hno Hnd]. apply NoDup_cons. split; [intros [? _]%run_in; done | by apply NoDup_filter].
  - apply Hgoal; [done | done |]. by rewrite Happ.
Qed.

Lemma unlink_spec n h move : unlinked n h -> (n <= tower h0 0)%nat -> (n <= tower h move)%nat ->
  move ∈ 0%nat :: L ++ a :: R -> below h (key_at h0 a) move ->
  exists h', unlink h (key_at h0 a) n move = Ret h' /\ unlinked 0 h'.
Proof.
  revert h move. induction n as [| n IH]; intros h move Hu Hn0 Hnm Hin Hk; simpl; [by exists h |].
  pose proof Hu as [Hs Hl]. pose proof (same_base _ _ _ Hs (wf_base _ _ Hwf)) as Hb.
  assert (Hln : linked h n (0%nat :: level_run h (L ++ a :: R) n)) by (specialize (Hl n ltac:(lia)); by rewrite decide_False in Hl by lia).
  destruct (walk_level h (L ++ a :: R) n (key_at h0 a) move Hb Hln) as (b & P & T & -> & Hsp & Hin' & Htb & Hlow & Hhigh & Hnx); [lia | done | done |].
  cbn [obind]. destruct (unlink_level n h b P T Hu ltac:(lia) Htb Hsp Hlow Hhigh) as [HT Hu']. subst T.
  apply next_deref in Hnx as (nb & Hd & Hi & _). rewrite Hd. cbn [obind]. rewrite Hi. cbn [obind].
  assert (Hkb : below h (key_at h0 a) b) by (apply Hlow, elem_of_app; right; by left).
  assert (Hsome : forall x, x ∈ L ++ a :: R -> exists nx, deref h x = Ret nx /\ key nx = key_at h0 x).
  { intros x Hx. destruct (sb_nodes _ _ Hb x Hx) as [nx Hx']. exists nx. split; [by apply deref_ret |]. rewrite <- (sn_key _ _ Hs). unfold key_at. by rewrite Hx'. }
  case_decide as Hta; cbn [head app] in *.
  - destruct (Hsome a) as (na & Hna & Hka); [apply elem_of_app; right; by left |]. rewrite Hna. cbn [obind]. rewrite Hka.
    rewrite decide_False by apply klt_irrefl.
    assert (Hnext : next_at h a n = Some (head (level_run h R n))).
    { rewrite Hsp, cons_middle, app_assoc in Hln. apply linked_app in Hln. by destruct Hln. }
    apply next_deref in Hnext as (na' & Hd' & Hi' & _). rewrite Hna in Hd'. injection Hd' as <-. rewrite Hi'. cbn [obind].
    apply IH; [done | lia | rewrite set_next_tower; lia | done |]. intros Hb0. rewrite set_next_key. by apply Hkb.
  - destruct (level_run h R n) as [| c Rn] eqn:HRn; cbn [head].
    + apply IH; [done | lia | lia | done | done].
    + assert (Hc : c ∈ R) by (eapply (proj1 (run_in h R n c)); rewrite HRn; by left).
      destruct (Hsome c) as (nc & Hnc & Hkc); [apply elem_of_app; right; by right |]. rewrite Hnc. cbn [obind]. rewrite Hkc.
      rewrite decide_True by (by apply around_key). apply IH; [done | lia | lia | done | done].
Qed.

Lemma unlinked_wf h : unlinked 0 h -> skip_wf h (L ++ R).
Proof.
  intros [Hs Hl]. pose proof (wf_base _ _ Hwf) as Hb. assert (Hsub : forall x, x ∈ L ++ R -> x ∈ L ++ a :: R).
  { intros x [? | ?]%elem_of_app; apply elem_of_app; [by left | right; by right]. }
  split.
  - apply (sn_some _ _ Hs), Hwf.
  - pose proof (wf_nodup _ _ Hwf) as Hnd. rewrite <- Permutation_middle in Hnd. apply NoDup_cons in Hnd as [Hno [_ Hnd]%NoDup_cons].
    apply NoDup_cons. split; [| done]. intros Hx. apply Hno. by right.
  - intros x Hx. apply (sn_some _ _ Hs), Hwf. auto.
  - intros x Hx. rewrite !(sn_tower _ _ Hs). apply Hwf. auto.
  - intros l Hr. rewrite (sn_tower _ _ Hs) in Hr. specialize (Hl l Hr). by rewrite decide_True in Hl by lia.
  - rewrite (list_fmap_ext (key_at h) (key_at h0)) by (intros i x _; apply (sn_key _ _ Hs)).
    pose proof (wf_sorted _ _ Hwf) as Hsort. rewrite fmap_app in *. simpl in Hsort. clear -Hsort.
    induction (key_at h0 <$> L) as [| x l IH]; simpl in *; apply StronglySorted_inv in Hsort as [Hsort Hall]; [done |].
    constructor; [by apply IH |]. rewrite Forall_app in *. destruct Hall as [? [_ ?]%Forall_cons]. done.
Qed.
End Unlink.

Lemma remove_spec h ord a k : skip_wf h ord -> a ∈ ord -> key_at h a = k ->
  exists h' ord', unlink h k (tower h 0) 0 = Ret h' /\ skip_wf h' ord' /\ tower h' 0 = tower h 0
    /\ exists l1 l2, entries_of h ord = l1 ++ (k, value_at h a) :: l2 /\ entries_of h' ord' = l1 ++ l2.
Proof.
  intros Hwf Ha <-. apply list_elem_of_split in Ha as (L & R & ->).
  destruct (unlink_spec h L R a Hwf (tower h 0) h 0) as (h' & Hu & Hu').
  - split; [done |]. intros l Hr. rewrite decide_False by lia. by apply Hwf.
  - done.
  - done.
  - by left.
  - by intros ?.
  - exists h', (L ++ R). split; [done |]. split; [by apply (unlinked_wf h L R a) |]. destruct Hu' as [Hs _]. split; [apply (sn_tower _ _ Hs) |].
    exists (entries_of h L), (entries_of h R). rewrite (same_entries h h') by done. unfold entries_of. by rewrite !fmap_app, fmap_cons.
Qed.

(** ** Dropping the empty levels of the head *)

(** The pointers in front of the first that is nil. *)
Fixpoint used (l : list (option nat)) : list (option nat) :=
  match l with Some a :: l => Some a :: used l | _ => [] end.

Lemma used_prefix l : exists r, l = used l ++ r /\ forall x, head r = Some x -> x = None.
Proof.
  induction l as [| [a |] l (r & IH & Hr)]; simpl.
  - by exists [].
  - exists r. by rewrite IH at 1.
  - exists (None :: l). split; [done |]. by intros ? [= <-].
Qed.

Definition trim_head (h : list (node K V)) : list (node K V) := alter (fun n => n <| nexts := used (nexts n) |>) 0%nat h.

Lemma trim_head_wf h ord : skip_wf h ord -> skip_wf (trim_head h) ord /\ entries_of (trim_head h) ord = entries_of h ord.
Proof.
  intros Hwf. destruct (wf_head _ _ Hwf) as [hd Hhd]. destruct (used_prefix (nexts hd)) as (r & Hr & Hrh). set (h' := trim_head h).
  assert (Hord0 : forall x, x ∈ ord -> x <> 0%nat) by (intros x Hx ->; pose proof (wf_nodup _ _ Hwf) as [Hno _]%NoDup_cons; done).
  assert (Hlk0 : h' !! 0%nat = Some (hd <| nexts := used (nexts hd) |>)) by (unfold h', trim_head; by rewrite list_lookup_alter_eq, Hhd).
  assert (Hlk : forall x, x <> 0%nat -> h' !! x = h !! x) by (intros x Hx; unfold h', trim_head; by apply list_lookup_alter_ne).
  assert (Hkey : forall x, key_at h' x = key_at h x).
  { intros x. unfold key_at. destruct (decide (x = 0%nat)) as [-> | Hx]; [by rewrite Hlk0, Hhd | by rewrite Hlk]. }
  assert (Hval : forall x, value_at h' x = value_at h x).
  { intros x. unfold value_at. destruct (decide (x = 0%nat)) as [-> | Hx]; [by rewrite Hlk0, Hhd | by rewrite Hlk]. }
  assert (Htow : forall x, x <> 0%nat -> tower h' x = tower h x) by (intros x Hx; unfold tower; by rewrite Hlk).
  assert (Ht : tower h 0 = (tower h' 0 + length r)%nat) by (unfold tower; rewrite Hlk0, Hhd; simpl; rewrite Hr at 1; by rewrite length_app).
  assert (Hlow : forall x, x ∈ ord -> (tower h x <= tower h' 0)%nat).
  { intros x Hx. destruct (decide (length r = 0%nat)) as [Hz | Hz]; [pose proof (wf_tall _ _ Hwf x Hx); lia |].
    destruct (decide (tower h x <= tower h' 0)%nat) as [| Hgt]; [done | exfalso].
    destruct (wf_links _ _ Hwf (tower h' 0) ltac:(lia)) as [Hn _].
    assert (Hin : x ∈ level_run h ord (tower h' 0)) by (apply run_in; split; [done | lia]).
    destruct (level_run h ord (tower h' 0)) as [| y l]; [by apply not_elem_of_nil in Hin |].
    unfold next_at in Hn. rewrite Hhd in Hn. simpl in Hn. rewrite Hr in Hn. unfold tower in Hn. rewrite Hlk0 in Hn. simpl in Hn.
    rewrite lookup_app_r, Nat.sub_diag in Hn by lia. destruct r as [| o r]; [done |]. simpl in Hn. injection Hn as ->. by specialize (Hrh _ eq_refl). }
  split; [split |].
  - rewrite Hlk0. by eexists.
  - apply Hwf.
  - intros x Hx. rewrite Hlk by auto. by apply Hwf.
  - intros x Hx. rewrite Htow by auto. split; [by apply Hwf | auto].
  - intros l Hl. assert (Hrun : level_run h' ord l = level_run h ord l).
    { unfold level_run. clear -Htow Hord0. induction ord as [| x o IH]; [done |]. rewrite !filter_cons, Htow by (apply Hord0; by left).
      rewrite IH; [done |]. intros y Hy. apply Hord0. by right. }
    rewrite Hrun. destruct (wf_links _ _ Hwf l ltac:(lia)) as [Hn Hrest]. split.
    + rewrite <- Hn. unfold next_at. rewrite Hlk0, Hhd. simpl. rewrite Hr at 2. symmetry. apply lookup_app_l.
      unfold tower in Hl. rewrite Hlk0 in Hl. done.
    + eapply linked_ext; [| exact Hrest]. intros x [Hx _]%run_in. unfold next_at. by rewrite Hlk by auto.
  - rewrite (list_fmap_ext (key_at h') (key_at h)) by (intros i x _; apply Hkey). apply Hwf.
  - unfold entries_of. apply list_fmap_ext. intros i x _. by rewrite Hkey, Hval.
Qed.
End Facts.
