(* ===== verification/LsmSkiplist.v ===== *)
(** * LsmSkiplist
    The memtable of the LSM tree: [memtable/memtable.go] as a class with its
    law, a sorted map of keys to values, and [memtable/skiplist.go] on the nodes
    of SkipNodes. A new node's height is drawn at random: the draws are an
    argument of [Put]. *)
From S2P Require Import Prelude GoBytes LsmBytes SkipNodes.
(** ** The interface *)

(** [memtable.KV] *)
Abbreviation KV := (bytes * bytes)%type.

Class MemTable (M : Type) := {
  mt_New : M;
  mt_Put : list Z -> bytes -> bytes -> M -> outcome M;
  mt_Get : M -> bytes -> outcome (option bytes);
  mt_All : M -> outcome (list KV);
  mt_Size : M -> Z;
  mt_EntriesCnt : M -> Z
}.

(** Keys in ascending order, none twice. *)
Definition ascending (l : list KV) : Prop := StronglySorted blt l.*1.
Definition entry_size (e : KV) : Z := zlen e.1 + zlen e.2.

(** A memtable stands for a map. *)
Class MemTableSpec (M : Type) `{MemTable M} := {
  reps : M -> gmap bytes bytes -> Prop;
  reps_new : reps mt_New ∅;
  reps_put d k v t g : reps t g -> exists t', mt_Put d k v t = Ret t' /\ reps t' (<[k := v]> g);
  reps_get t g k : reps t g -> mt_Get t k = Ret (g !! k);
  reps_all t g : reps t g -> exists l, mt_All t = Ret l /\ ascending l /\ list_to_map l = g
    /\ mt_Size t = sumZ (entry_size <$> l) /\ mt_EntriesCnt t = zlen l
}.

(** ** [skiplist.go] *)

#[export] Instance bytes_key : SkipKey bytes := { klt := blt; klt_decision := blt_dec }.
#[export] Instance bytes_key_spec : SkipKeySpec bytes.
Proof.
  split; [exact blt_irrefl | exact blt_trans |]. intros x y Hxy. by apply not_blt, ble_cases in Hxy as [? | ->]; [left | right].
Qed.

Abbreviation skipNode := (node bytes bytes).
Record Skiplist := mkSkiplist { heap : list skipNode; entriesCnt : Z; size : Z }.
#[export] Instance eta_Skiplist : Eta Skiplist := fun s => mkSkiplist (heap s) (entriesCnt s) (size s).

Definition NewSkiplist : Skiplist := mkSkiplist [mkNode [] [] []] 0 0.

Definition getNode (s : Skiplist) (k : bytes) : outcome (option nat) := find (heap s) k.

Definition Get (s : Skiplist) (k : bytes) : outcome (option bytes) :=
  let! a := getNode s k in
  match a with
  | Some a => let! n := deref (heap s) a in Ret (Some (value n))
  | None => Ret None
  end.

(** [roll]: one level more for every draw of 1. *)
Fixpoint roll_from (draws : list Z) (level : nat) : nat :=
  match draws with
  | d :: draws => if decide (d = 1) then roll_from draws (S level) else S level
  | [] => S level
  end.
Definition roll (draws : list Z) : nat := roll_from draws 0.

Definition Put (draws : list Z) (k v : bytes) (s : Skiplist) : outcome Skiplist :=
  let! found := getNode s k in
  match found with
  | Some a =>
      let! n := deref (heap s) a in
      Ret (s <| size := size s + (zlen v - zlen (value n)) |>
             <| heap := set_value (heap s) a v |>)
  | None =>
      let newNodeHeight := roll draws in
      let! head := deref (heap s) 0 in
      let h := if decide (length (nexts head) < newNodeHeight)%nat
               then alter (fun n => n <| nexts := nexts n ++ replicate (newNodeHeight + 1 - length (nexts n)) None |>) 0%nat (heap s)
               else heap s in
      let newNode := mkNode (replicate newNodeHeight None) k v in
      let! h := splice (h ++ [newNode]) k (length h) newNodeHeight 0 in
      Ret (mkSkiplist h (entriesCnt s + 1) (size s + (zlen k + zlen v)))
  end.

(** The walk of [All] along the bottom level. *)
Fixpoint all_from (fuel : nat) (h : list skipNode) (move : nat) : outcome (list KV) :=
  let! mv := deref h move in
  let! nx := index (nexts mv) 0 in
  match nx with
  | None => Ret []
  | Some b =>
      let! nb := deref h b in
      match fuel with
      | O => Panic "All: out of fuel"
      | S fuel => let! rest := all_from fuel h b in Ret ((key nb, value nb) :: rest)
      end
  end.
Definition All (s : Skiplist) : outcome (list KV) :=
  let! head := deref (heap s) 0 in
  if decide (nexts head = []) then Ret [] else all_from (length (heap s)) (heap s) 0.

Definition Size (s : Skiplist) : Z := size s.
Definition EntriesCnt (s : Skiplist) : Z := entriesCnt s.

#[export] Instance skiplist : MemTable Skiplist := {
  mt_New := NewSkiplist; mt_Put := Put; mt_Get := Get; mt_All := All; mt_Size := Size; mt_EntriesCnt := EntriesCnt }.

Example put_get : obind (Put [0] [2] [20] NewSkiplist) (fun s => obind (Put [1;1;0] [1] [10] s) (fun s =>
  obind (Put [] [3] [30] s) (fun s => obind (Put [1;0] [2] [22] s) (fun s => obind (All s) (fun l => Ret (l, size s))))))
  = Ret ([([1], [10]); ([2], [22]); ([3], [30])], 6).
Proof. by vm_compute. Qed.

(** ** Facts
    The skip list of the memtable refines a sorted map. *)
Record skip_reps (s : Skiplist) (g : gmap bytes bytes) (ord : list nat) : Prop := {
  sr_wf : skip_wf (heap s) ord;
  sr_map : list_to_map (entries_of (heap s) ord) = g;
  sr_size : size s = sumZ (entry_size <$> entries_of (heap s) ord);
  sr_count : entriesCnt s = zlen ord
}.

Lemma getNode_spec s ord k : skip_wf (heap s) ord ->
  (exists b, getNode s k = Ret (Some b) /\ b ∈ ord /\ key_at (heap s) b = k)
  \/ (getNode s k = Ret None /\ forall x, x ∈ ord -> key_at (heap s) x <> k).
Proof. apply find_spec. Qed.

Lemma roll_from_pos draws n : (n < roll_from draws n)%nat.
Proof. revert n. induction draws as [| d ds IH]; intros n; simpl; [lia |]. case_decide; [specialize (IH (S n)); lia | lia]. Qed.

Lemma sumZ_app l1 l2 : sumZ (l1 ++ l2) = sumZ l1 + sumZ l2.
Proof. unfold sumZ. induction l1 as [| x l1 IH]; simpl; lia. Qed.

Lemma sumZ_cons x l : sumZ (x :: l) = x + sumZ l.
Proof. done. Qed.

Lemma sorted_blt_NoDup (l : list bytes) : StronglySorted blt l -> NoDup l.
Proof. exact (sorted_klt_NoDup (KS := bytes_key) l). Qed.

Lemma Get_spec s g ord k : skip_reps s g ord -> Get s k = Ret (g !! k).
Proof.
  intros [Hwf Hmap _ _]. unfold Get. destruct (getNode_spec s ord k Hwf) as [(a & -> & Ha & Hk) | [-> Hne]]; cbn [obind].
  - destruct (wf_nodes _ _ Hwf a Ha) as [n Hn]. rewrite (proj2 (deref_ret _ _ _) Hn). cbn [obind]. f_equal. symmetry.
    rewrite <- Hmap. apply entries_in; [done |]. exists a. split; [done |]. split; [done |]. unfold value_at. by rewrite Hn.
  - f_equal. symmetry. apply eq_None_not_Some. intros [v Hv]. rewrite <- Hmap in Hv.
    apply entries_in in Hv as (a & Ha & Hk & _); [| done]. by apply (Hne a).
Qed.

Lemma Put_spec draws k v s g ord : skip_reps s g ord ->
  exists s' ord', Put draws k v s = Ret s' /\ skip_reps s' (<[k := v]> g) ord'.
Proof.
  intros [Hwf Hmap Hsize Hcount]. unfold Put.
  destruct (getNode_spec s ord k Hwf) as [(a & -> & Ha & Hk) | [-> Hne]]; cbn [obind].
  - destruct (wf_nodes _ _ Hwf a Ha) as [n Hn]. rewrite (proj2 (deref_ret _ _ _) Hn). cbn [obind].
    assert (Hkn : key n = k) by (rewrite <- Hk; unfold key_at; by rewrite Hn).
    destruct (set_value_spec _ ord a v n Hwf Ha Hn) as (Hwf' & l1 & l2 & He & He'). rewrite Hkn in He, He'.
    assert (Hmid : k ∉ l1.*1) by (eapply (middle_keys l1 l2 k (value n)); rewrite <- He; by apply wf_keys_NoDup).
    eexists _, ord. split; [done |]. split; simpl.
    + done.
    + by rewrite He', <- Hmap, He, !list_to_map_middle, insert_insert_eq.
    + rewrite Hsize, He, He', !fmap_app, !sumZ_app. unfold entry_size. simpl. lia.
    + done.
  - destruct (wf_head _ _ Hwf) as [hd Hhd]. rewrite (proj2 (deref_ret _ _ _) Hhd). cbn [obind].
    set (H := roll draws). assert (HH : (1 <= H)%nat) by (pose proof (roll_from_pos draws 0); unfold H, roll; lia).
    replace (length (nexts hd)) with (tower (heap s) 0) by (unfold tower; by rewrite Hhd).
    fold (grow_head (heap s) H (H + 1)). destruct (grow_head_facts (heap s) ord H (H + 1) Hwf) as (Hlen & Hwf1 & Htow1 & Hent1 & Hkey1); [lia |].
    set (h := grow_head (heap s) H (H + 1)) in *. clearbody h.
    destruct (skip_insert_spec h ord H k v Hwf1) as (h' & ord' & -> & Hwf' & l1 & l2 & He & He'); [lia | intros x Hx; rewrite Hkey1; by apply Hne |].
    cbn [obind]. assert (Hmid : k ∉ l1.*1) by (eapply (middle_keys l1 l2 k v); rewrite <- He'; by apply wf_keys_NoDup).
    rewrite Hent1 in He. eexists _, ord'. split; [done |]. split; simpl.
    + done.
    + by rewrite He', <- Hmap, He, list_to_map_middle.
    + rewrite Hsize, He, He', !fmap_app, fmap_cons, !sumZ_app, sumZ_cons. unfold entry_size. simpl. lia.
    + apply (f_equal zlen) in He, He'. unfold entries_of in He, He'. unfold zlen in *. rewrite !length_fmap, ?length_app in *. simpl in *. lia.
Qed.

Lemma all_from_spec h ord fuel a T : skip_wf h ord -> linked h 0 (a :: T) -> (forall x, x ∈ T -> is_Some (h !! x)) ->
  (length T <= fuel)%nat -> all_from fuel h a = Ret (entries_of h T).
Proof.
  intros Hwf. revert a T. induction fuel as [| fuel IH]; intros a T [Hn Hl] Hv Hf;
    apply next_deref in Hn as (n & Hd & Hi & _); cbn [all_from]; rewrite Hd; cbn [obind]; change 0 with (Z.of_nat 0); rewrite Hi; cbn [obind].
  - destruct T; [done | simpl in Hf; lia].
  - destruct T as [| b T]; [done |]. cbn [head]. destruct (Hv b) as [nb Hnb]; [by left |].
    rewrite (proj2 (deref_ret _ _ _) Hnb). cbn [obind].
    rewrite (IH b T Hl); [| intros x Hx; apply Hv; by right | simpl in Hf; lia]. cbn [obind].
    unfold entries_of. cbn [fmap list_fmap]. unfold key_at, value_at. by rewrite Hnb.
Qed.

Lemma All_spec s g ord : skip_reps s g ord -> All s = Ret (entries_of (heap s) ord).
Proof.
  intros [Hwf _ _ _]. pose proof (wf_base _ _ Hwf) as Hb. unfold All. destruct (wf_head _ _ Hwf) as [hd Hhd].
  rewrite (proj2 (deref_ret _ _ _) Hhd). cbn [obind].
  assert (Ht0 : tower (heap s) 0 = length (nexts hd)) by (unfold tower; by rewrite Hhd).
  case_decide as Hnil.
  - destruct ord as [| a ord]; [done |]. pose proof (wf_tall _ _ Hwf a ltac:(by left)). rewrite Ht0, Hnil in H. simpl in H. lia.
  - assert (Hpos : (0 < tower (heap s) 0)%nat) by (rewrite Ht0; destruct (nexts hd); [done | simpl; lia]).
    pose proof (wf_links _ _ Hwf 0%nat Hpos) as Hl. rewrite (level_0 _ _ Hb) in Hl.
    apply (all_from_spec _ ord); [done | done | apply Hb |].
    pose proof (run_length _ _ 0 Hb) as Hlen. by rewrite (level_0 _ _ Hb) in Hlen.
Qed.

Lemma New_reps : skip_reps NewSkiplist ∅ [].
Proof.
  split; [split | done | done | done].
  - by eexists.
  - apply NoDup_singleton.
  - intros a Ha. by apply not_elem_of_nil in Ha.
  - intros a Ha. by apply not_elem_of_nil in Ha.
  - intros l Hl. cbv in Hl. lia.
  - constructor.
Qed.

#[export] Instance skiplist_spec : MemTableSpec Skiplist.
Proof.
  refine {| reps := fun s g => exists ord, skip_reps s g ord |}.
  - exists []. apply New_reps.
  - intros d k v s g [ord Hr]. destruct (Put_spec d k v s g ord Hr) as (s' & ord' & Hp & Hr'). exists s'. split; [done |]. by exists ord'.
  - intros s g k [ord Hr]. by apply (Get_spec s g ord).
  - intros s g [ord Hr]. exists (entries_of (heap s) ord). split; [by apply (All_spec s g) |]. destruct Hr as [Hwf Hm Hs Hc].
    split; [unfold ascending; rewrite entries_keys; apply Hwf |]. split; [done |]. split; [done |].
    simpl. unfold EntriesCnt. rewrite Hc. unfold zlen, entries_of. by rewrite length_fmap.
Defined.

(** What a sequence of writes, each with its draws, does to a map and to a skip list. *)
Definition puts (ps : list (list Z * KV)) (s : Skiplist) : outcome Skiplist :=
  ofold (fun '(d, (k, v)) s => Put d k v s) ps s.

(** C25: After any writes, with any random heights, a skip list is a sorted map:
    no search or insertion runs off a level or loops, a lookup returns the value
    written last for its key, the listing has every key once in ascending order,
    and the size and the count are those of that listing. *)
Theorem skiplist_is_sorted_map ps :
  let written := foldl (fun (g : gmap bytes bytes) p => <[p.2.1 := p.2.2]> g) ∅ ps in
  exists s l, puts ps NewSkiplist = Ret s /\ (forall k, Get s k = Ret (written !! k))
    /\ All s = Ret l /\ StronglySorted blt l.*1 /\ (forall k v, (k, v) ∈ l <-> written !! k = Some v)
    /\ Size s = sumZ (entry_size <$> l) /\ EntriesCnt s = zlen l.
Proof.
  intros written. cut (exists s, puts ps NewSkiplist = Ret s /\ reps s written).
  - intros (s & Hp & Hr). destruct (reps_all s written Hr) as (l & Ha & Hs & Hm & Hsz & Hc). exists s, l.
    split; [done |]. split; [intros k; exact (reps_get s written k Hr) |]. split; [done |]. split; [done |].
    split; [| done]. intros k v. rewrite <- Hm. apply elem_of_list_to_map, sorted_blt_NoDup, Hs.
  - unfold written, puts. clear written. generalize (reps_new (M := Skiplist)). change mt_New with NewSkiplist.
    generalize NewSkiplist (∅ : gmap bytes bytes). induction ps as [| [d [k v]] ps IH]; intros s g Hr; simpl; [by exists s |].
    destruct (reps_put d k v s g Hr) as (s' & Hp & Hr'). simpl in Hp. rewrite Hp. cbn [obind]. by apply IH.
Qed.
