(* ===== verification/LsmWal.v ===== *)
(** * LsmWal
    The write-ahead log of the LSM tree, [wal/writer.go] and [wal/reader.go]: a
    file is the bytes appended to it so far. Records written one after the other
    are read back; a record cut by a crash makes the whole file unreadable. *)
From S2P Require Import Prelude GoBytes LsmBytes LsmSkiplist.

(** ** [writer.go] *)

(** What [os.File.Write] does: everything, or some bytes with an error or not. *)
Inductive write_io :=
| Whole
| Partial (n : nat) (err : option string).

(** key length | value length | key | value *)
Definition record (key value : bytes) : bytes :=
  PutUvarint (zlen key) ++ PutUvarint (zlen value) ++ key ++ value.

(** [WALWriter.Write]: the file after it, and the error it returns. *)
Definition Write (io : write_io) (key value : bytes) (file : bytes) : bytes * option string :=
  let buf := record key value in
  match io with
  | Whole => (file ++ buf, None)
  | Partial n err =>
      let file := file ++ take n buf in
      match err with
      | Some e => (file, Some e)
      | None => (file, if decide (length (take n buf) <> length buf) then Some "short write"%string else None)
      end
  end.

(** ** [reader.go] *)

(** [readAll]: a file ends cleanly between two records only. *)
Fixpoint readAll (fuel : nat) (l : bytes) : outcome (result io_error (list KV)) :=
  match ReadUvarint l with
  | Err e => if decide (e = EOF) then Ret (Ok []) else Ret (Err e)
  | Ok (keyLen, l) =>
      match ReadUvarint l with
      | Err e => Ret (Err e)
      | Ok (valLen, l) =>
          let! r := ReadFull keyLen l in
          match r with
          | Err e => Ret (Err e)
          | Ok (key, l) =>
              let! r := ReadFull valLen l in
              match r with
              | Err e => Ret (Err e)
              | Ok (value, l) =>
                  match fuel with
                  | O => Panic "readAll: out of fuel"
                  | S fuel =>
                      let! r := readAll fuel l in
                      Ret (match r with Ok kvs => Ok ((key, value) :: kvs) | Err e => Err e end)
                  end
              end
          end
      end
  end.

(** [RestoreToMemtable]: nothing is replayed unless the whole file parses. The
    draws of the [i]-th write are [draws i]. *)
Fixpoint replay {M} `{MemTable M} (draws : nat -> list Z) (kvs : list KV) (t : M) : outcome M :=
  match kvs with
  | [] => Ret t
  | (k, v) :: kvs => let! t := mt_Put (draws O) k v t in replay (fun i => draws (S i)) kvs t
  end.
Definition RestoreToMemtable {M} `{MemTable M} (draws : nat -> list Z) (body : bytes) (t : M) : outcome (result io_error M) :=
  let! r := readAll (length body) body in
  match r with
  | Err e => Ret (Err e)
  | Ok kvs => let! t := replay draws kvs t in Ret (Ok t)
  end.

(** ** Reading back *)

(** What fits into memory at all. *)
Definition fits (e : KV) : Prop := zlen e.1 <= maxAlloc /\ zlen e.2 <= maxAlloc.
#[export] Instance fits_dec e : Decision (fits e).
Proof. unfold fits. apply _. Defined.

Lemma zlen_u64 {A} (l : list A) : zlen l <= maxAlloc -> is_u64 (zlen l).
Proof. intros Hl. pose proof (zlen_nonneg l). unfold is_u64, maxAlloc in *. lia. Qed.

Definition log (kvs : list KV) : bytes := kvs ≫= fun e => record e.1 e.2.

Lemma log_cons k v kvs rest :
  log ((k, v) :: kvs) ++ rest = PutUvarint (zlen k) ++ PutUvarint (zlen v) ++ k ++ v ++ log kvs ++ rest.
Proof. unfold log, record. cbn [mbind list_bind fst snd]. by rewrite <- !app_assoc. Qed.

Lemma PutUvarint_pos x : (1 <= length (PutUvarint x))%nat.
Proof. pose proof (zlen_PutUvarint x). unfold zlen in *. lia. Qed.

(** Whole records are read off the front of a file. *)
Lemma readAll_log kvs rest fuel : Forall fits kvs -> (length (log kvs ++ rest) <= fuel)%nat ->
  exists fuel', (length rest <= fuel')%nat /\
    readAll fuel (log kvs ++ rest) = let! r := readAll fuel' rest in Ret (match r with Ok l => Ok (kvs ++ l) | Err e => Err e end).
Proof.
  intros Hfit. revert fuel. induction Hfit as [| [k v] kvs [Hk Hv] _ IH]; intros fuel Hfuel.
  - exists fuel. split; [done |]. simpl. by destruct (readAll fuel rest) as [[] |].
  - cbn [fst snd] in Hk, Hv. rewrite log_cons in *.
    assert (Hlen : (length (log kvs ++ rest) < fuel)%nat).
    { pose proof (PutUvarint_pos (zlen k)). rewrite 4!length_app in Hfuel. lia. }
    destruct fuel as [| fuel]; [lia |]. cbn [readAll]. rewrite ReadUvarint_Put by (by apply zlen_u64).
    rewrite ReadUvarint_Put by (by apply zlen_u64). rewrite read_full_app by done. cbn [obind].
    rewrite read_full_app by done. cbn [obind].
    destruct (IH fuel) as (fuel' & Hf' & Heq); [lia |]. exists fuel'. split; [done |].
    rewrite Heq. by destruct (readAll fuel' rest) as [[] |].
Qed.

Lemma readAll_nil fuel : readAll fuel [] = Ret (Ok []).
Proof. by destruct fuel. Qed.

Lemma readAll_whole kvs : Forall fits kvs -> readAll (length (log kvs)) (log kvs) = Ret (Ok kvs).
Proof.
  intros Hf. destruct (readAll_log kvs [] (length (log kvs)) Hf) as (fuel & _ & Heq); [by rewrite app_nil_r |].
  rewrite app_nil_r, readAll_nil in Heq. rewrite Heq. simpl. by rewrite app_nil_r.
Qed.

Lemma log_app kvs kvs' : log (kvs ++ kvs') = log kvs ++ log kvs'.
Proof. apply bind_app. Qed.

(** ** A torn record *)

Lemma read_uvarint_cut f i x y n : 0 <= i -> (n < length (put_uvarint f y))%nat ->
  read_uvarint f i x (take n (put_uvarint f y)) = Err (if decide (0 < i + Z.of_nat n) then ErrUnexpectedEOF else EOF).
Proof.
  revert i x y n. induction f as [| f IH]; intros i x y n Hi Hn; cbn [put_uvarint] in *; [simpl in Hn; lia |].
  destruct n as [| n]; simpl; [by rewrite Z.add_0_r |].
  destruct (decide (128 <= y)) as [Hbig | Hsmall]; simpl in *; [| lia].
  destruct (more_byte (u8 y)) as [Hr _]; [apply Z.mod_pos_bound; lia |]. rewrite decide_False by lia.
  rewrite IH by lia. by rewrite !decide_True by lia.
Qed.

Lemma ReadUvarint_cut x n : (n < length (PutUvarint x))%nat ->
  ReadUvarint (take n (PutUvarint x)) = Err (if decide (0 < n)%nat then ErrUnexpectedEOF else EOF).
Proof.
  intros Hn. unfold ReadUvarint, PutUvarint. rewrite read_uvarint_cut by done. f_equal. do 2 case_decide; try done; lia.
Qed.

Lemma ReadFull_cut n l : zlen l < n -> n <= maxAlloc -> exists e, ReadFull n l = Ret (Err e).
Proof.
  intros Hl Hn. unfold ReadFull. rewrite !decide_False by lia. case_decide; by eexists.
Qed.

(** A record cut anywhere but at its ends. *)
Lemma readAll_torn fuel k v n : fits (k, v) -> (0 < n < length (record k v))%nat ->
  exists e, readAll fuel (take n (record k v)) = Ret (Err e).
Proof.
  intros [Hk Hv] Hn. cbn [fst snd] in *. unfold record in *.
  set (a := PutUvarint (zlen k)) in *. set (b := PutUvarint (zlen v)) in *. rewrite !length_app in Hn.
  destruct (decide (n < length a)%nat) as [Ha | Ha].
  { rewrite take_app_le by lia. pose proof (ReadUvarint_cut (zlen k) n Ha) as Hc. fold a in Hc. rewrite decide_True in Hc by lia.
    destruct fuel; cbn [readAll]; rewrite Hc; by exists ErrUnexpectedEOF. }
  rewrite take_app_ge by lia. assert (Hra : forall r, ReadUvarint (a ++ r) = Ok (zlen k, r)) by (intros r; by apply ReadUvarint_Put, zlen_u64).
  destruct (decide (n - length a < length b)%nat) as [Hb | Hb].
  { rewrite take_app_le by lia. pose proof (ReadUvarint_cut (zlen v) _ Hb) as Hc. fold b in Hc.
    destruct fuel; cbn [readAll]; rewrite Hra, Hc; by eexists. }
  rewrite take_app_ge by lia. assert (Hrb : forall r, ReadUvarint (b ++ r) = Ok (zlen v, r)) by (intros r; by apply ReadUvarint_Put, zlen_u64).
  destruct (decide (n - length a - length b < length k)%nat) as [Hck | Hck].
  { rewrite take_app_le by lia. destruct (ReadFull_cut (zlen k) (take (n - length a - length b) k)) as [e He]; [unfold zlen; rewrite length_take; lia | done |].
    exists e. destruct fuel; cbn [readAll]; rewrite Hra, Hrb, He; done. }
  rewrite take_app_ge by lia.
  destruct (ReadFull_cut (zlen v) (take (n - length a - length b - length k) v)) as [e He]; [unfold zlen; rewrite length_take; lia | done |].
  exists e. destruct fuel; cbn [readAll]; rewrite Hra, Hrb, read_full_app by done; cbn [obind]; rewrite He; done.
Qed.

(** ** Theorems *)

Lemma replay_reps {M} `{MemTableSpec M} draws kvs (t : M) g : reps t g ->
  exists t', replay draws kvs t = Ret t' /\ reps t' (foldl (fun (g : gmap bytes bytes) e => <[e.1 := e.2]> g) g kvs).
Proof.
  revert draws t g. induction kvs as [| [k v] kvs IH]; intros draws t g Hr; simpl; [by exists t |].
  destruct (reps_put (draws O) k v t g Hr) as (t' & -> & Hr'). cbn [obind]. by apply IH.
Qed.

(** The file after some calls of [Write], each with what the file system did. *)
Definition writes (ws : list (write_io * KV)) : bytes := foldl (fun file w => (Write w.1 w.2.1 w.2.2 file).1) [] ws.

(** The pairs whose [Write] returned no error. *)
Definition acknowledged (ws : list (write_io * KV)) : list KV :=
  omap (fun w => match (Write w.1 w.2.1 w.2.2 []).2 with None => Some w.2 | Some _ => None end) ws.

(** No write stops within a record: it writes all of it, or fails before its first byte. *)
Definition untorn (w : write_io * KV) : Prop :=
  match w.1 with Whole => True | Partial n _ => (n = 0 \/ length (record w.2.1 w.2.2) <= n)%nat end.

Lemma acknowledged_cons io k v ws :
  acknowledged ((io, (k, v)) :: ws) = match (Write io k v []).2 with None => (k, v) :: acknowledged ws | Some _ => acknowledged ws end.
Proof. unfold acknowledged. simpl. by destruct (Write io k v []).2. Qed.

Lemma record_some k v : (0 < length (record k v))%nat.
Proof. unfold record. rewrite length_app. pose proof (PutUvarint_pos (zlen k)). lia. Qed.

(** A write that fails although all its bytes are in the file is the one that is
    restored without having been acknowledged. *)
Definition honest (w : write_io * KV) : Prop :=
  match w.1 with Partial n (Some _) => (n < length (record w.2.1 w.2.2))%nat | _ => True end.

Lemma writes_log ws : Forall untorn ws -> Forall honest ws -> writes ws = log (acknowledged ws).
Proof.
  intros Hu Hh. unfold writes. enough (forall file, foldl (fun file w => (Write w.1 w.2.1 w.2.2 file).1) file ws = file ++ log (acknowledged ws)) by (by rewrite H).
  induction Hu as [| [io [k v]] ws Hw _ IH]; intros file; [by rewrite app_nil_r |].
  apply Forall_cons in Hh as [Hw' Hh]. rewrite acknowledged_cons. simpl. rewrite IH by done. unfold untorn, honest in *. simpl in Hw, Hw'. pose proof (record_some k v) as Hpos.
  destruct io as [| n [e |]]; simpl.
  - by rewrite <- app_assoc.
  - replace n with 0%nat by lia. rewrite take_0, app_nil_r. done.
  - rewrite length_take. destruct (decide (Nat.min n (length (record k v)) <> length (record k v))) as [Hs | Hs]; simpl.
    + replace n with 0%nat by lia. rewrite take_0, app_nil_r. done.
    + rewrite take_ge by lia. by rewrite <- app_assoc.
Qed.

Lemma restore_log {M} `{MemTableSpec M} kvs draws : Forall fits kvs ->
  exists t, RestoreToMemtable draws (log kvs) (mt_New (M := M)) = Ret (Ok t)
    /\ reps t (foldl (fun (g : gmap bytes bytes) e => <[e.1 := e.2]> g) ∅ kvs).
Proof.
  intros Hfit. unfold RestoreToMemtable. rewrite readAll_whole by done. cbn [obind].
  destruct (replay_reps draws kvs mt_New ∅ reps_new) as (t & -> & Hr). by exists t.
Qed.

(** C26: a log restores, into any kind of memtable, exactly the map of the
    acknowledged writes, the last one for a key winning, if no write stopped
    within its record or failed after all of it was in the file. (A log that ends
    within a record is refused, [torn_log_is_refused].) *)
Theorem wal_restores_acknowledged {M} `{MemTableSpec M} ws draws :
  Forall untorn ws -> Forall honest ws -> Forall (fun w => fits w.2) ws ->
  exists t, RestoreToMemtable draws (writes ws) (mt_New (M := M)) = Ret (Ok t)
    /\ reps t (foldl (fun (g : gmap bytes bytes) e => <[e.1 := e.2]> g) ∅ (acknowledged ws)).
Proof.
  intros Hu Hh Hfit. rewrite writes_log by done. apply restore_log. apply Forall_forall. intros e (w & Hw & He)%list_elem_of_omap.
  destruct (Write _ _ _ _).2; [done |]. injection He as <-. rewrite Forall_forall in Hfit. by apply Hfit.
Qed.

(** If the last append is cut anywhere inside its record, by a crash or a failing
    write, restoring reports an error and replays nothing, not even the records
    before it that were acknowledged. *)
Theorem torn_log_is_refused {M} `{MemTableSpec M} ws k v n err draws :
  Forall untorn ws -> Forall honest ws -> Forall (fun w => fits w.2) ws -> fits (k, v) -> (0 < n < length (record k v))%nat ->
  exists e, RestoreToMemtable draws (writes (ws ++ [(Partial n err, (k, v))])) (mt_New (M := M)) = Ret (Err e).
Proof.
  intros Hu Hh Hfit Hkv Hn. assert (Hw : writes (ws ++ [(Partial n err, (k, v))]) = log (acknowledged ws) ++ take n (record k v)).
  { unfold writes. rewrite foldl_app. fold (writes ws). rewrite writes_log by done. by destruct err. }
  rewrite Hw. unfold RestoreToMemtable.
  assert (Hfit' : Forall fits (acknowledged ws)).
  { apply Forall_forall. intros e (w & Hw' & He)%list_elem_of_omap. destruct (Write _ _ _ _).2; [done |]. injection He as <-.
    rewrite Forall_forall in Hfit. by apply Hfit. }
  destruct (readAll_log (acknowledged ws) (take n (record k v)) _ Hfit' (le_n _)) as (fuel & _ & ->).
  destruct (readAll_torn fuel k v n Hkv Hn) as [e ->]. cbn [obind]. by exists e.
Qed.

Lemma wal_restores_acknowledged_witness :
  exists t : Skiplist, RestoreToMemtable (fun _ => [1; 0])
      (writes [(Whole, ([1], [10])); (Partial 0 (Some "disk full"%string), ([2], [20])); (Whole, ([1], [11]))]) NewSkiplist = Ret (Ok t)
    /\ reps t ({[ [1] := [11] ]} : gmap bytes bytes).
Proof.
  destruct (wal_restores_acknowledged (M := Skiplist)
    [(Whole, ([1], [10])); (Partial 0 (Some "disk full"%string), ([2], [20])); (Whole, ([1], [11]))] (fun _ => [1; 0])) as (t & Hr & Hm).
  - repeat constructor.
  - repeat constructor; vm_compute; lia.
  - repeat constructor; vm_compute; intros [=].
  - exists t. split; [exact Hr |].
    replace ({[ [1] := [11] ]} : gmap bytes bytes) with (<[ [1] := [11] ]> (<[ [1] := [10] ]> (∅ : gmap bytes bytes))) by (by rewrite insert_insert_eq).
    exact Hm.
Defined.
