(* ===== verification/LsmBlock.v ===== *)
(** * LsmBlock
    The blocks of an sst file: [block.go], which writes records that share a
    prefix with the key before them, and the record loops of [sst_reader.go],
    which read them back. *)
From S2P Require Import Prelude GoBytes LsmBytes LsmSkiplist LsmWal.

(** ** [block.go] *)

Record Block := mkBlock { blkRecord : bytes; blkEntriesCnt : Z; blkPrevKey : bytes }.
Definition NewBlock : Block := mkBlock [] 0 [].

(** shared-key length | remaining-key length | value length | rest of key | value;
    the scratch buffer of thirty bytes holds the three lengths whatever they are. *)
Definition encode_record (prevKey key value : bytes) : bytes :=
  let sharedPrefixLen := SharedPrefixLen prevKey key in
  PutUvarint sharedPrefixLen ++ PutUvarint (zlen key - sharedPrefixLen) ++ PutUvarint (zlen value)
    ++ drop (Z.to_nat sharedPrefixLen) key ++ value.

Definition block_Append (key value : bytes) (b : Block) : Block :=
  mkBlock (blkRecord b ++ encode_record (blkPrevKey b) key value) (blkEntriesCnt b + 1) key.

Definition block_Size (b : Block) : Z := zlen (blkRecord b).

(** [FlushTo]: the buffer after it, the bytes written, the cleared block. *)
Definition FlushTo (b : Block) (dest : bytes) : bytes * Z * Block :=
  (dest ++ blkRecord b, zlen (blkRecord b), NewBlock).

(** ** The records of [sst_reader.go] *)

(** [ReadRecord]: the record and what is left. Slices are taken to have no
    capacity past their length, so a shared length beyond the previous key panics. *)
Definition ReadRecord (prevKey buf : bytes) : outcome (result io_error (KV * bytes)) :=
  match ReadUvarint buf with
  | Err e => Ret (Err e)
  | Ok (sharedPrefixLen, buf) =>
      match ReadUvarint buf with
      | Err e => Ret (Err e)
      | Ok (keyLen, buf) =>
          match ReadUvarint buf with
          | Err e => Ret (Err e)
          | Ok (valLen, buf) =>
              let! r := ReadFull keyLen buf in
              match r with
              | Err e => Ret (Err e)
              | Ok (key, buf) =>
                  let! r := ReadFull valLen buf in
                  match r with
                  | Err e => Ret (Err e)
                  | Ok (value, buf) =>
                      let! sharedPrefix := subslice prevKey 0 sharedPrefixLen in
                      Ret (Ok ((sharedPrefix ++ key, value), buf))
                  end
              end
          end
      end
  end.

(** The loop that [readFilter], [readIndex] and [ReadBlockData] share: [io.EOF],
    even inside a record, ends it. *)
Fixpoint read_loop {A} (f : KV -> outcome A) (fuel : nat) (prevKey buf : bytes) : outcome (result io_error (list A)) :=
  let! r := ReadRecord prevKey buf in
  match r with
  | Err e => if decide (e = EOF) then Ret (Ok []) else Ret (Err e)
  | Ok ((key, value), buf) =>
      let! a := f (key, value) in
      match fuel with
      | O => Panic "read_loop: out of fuel"
      | S fuel =>
          let! r := read_loop f fuel key buf in
          Ret (match r with Ok l => Ok (a :: l) | Err e => Err e end)
      end
  end.

Definition ReadBlockData (block : bytes) : outcome (result io_error (list KV)) :=
  read_loop Ret (length block) [] block.

(** [blockOffset, _ := binary.Uvarint(key)]; a later record of the same offset wins. *)
Definition readFilter (block : bytes) : outcome (result io_error (gmap Z bytes)) :=
  let! r := read_loop (fun e => Ret ((Uvarint e.1).1, e.2)) (length block) [] block in
  Ret (match r with Ok l => Ok (foldl (fun m e => <[e.1 := e.2]> m) ∅ l) | Err e => Err e end).

Record Index := mkIndex { ixKey : bytes; PrevBlockOffset : Z; PrevBlockSize : Z }.

(** [value[n:]] panics when [Uvarint] fails with an overflow. *)
Definition index_entry (e : KV) : outcome Index :=
  let '(blockOffset, n) := Uvarint e.2 in
  let! rest := subslice e.2 n (zlen e.2) in
  Ret (mkIndex e.1 blockOffset (Uvarint rest).1).
Definition readIndex (block : bytes) : outcome (result io_error (list Index)) :=
  read_loop index_entry (length block) [] block.

(** ** Records read back *)

(** The bytes of a block's records, the first of which follows the key [p]. *)
Fixpoint encode_from (p : bytes) (kvs : list KV) : bytes :=
  match kvs with
  | [] => []
  | (k, v) :: kvs => encode_record p k v ++ encode_from k kvs
  end.
Definition last_key (p : bytes) (kvs : list KV) : bytes := List.last (kvs.*1) p.

Definition fits_all (kvs : list KV) : Prop := Forall fits kvs.

(** A record can be read after the key it was written after, or after any key
    when it shares nothing. *)
Definition follows (p q : bytes) : Prop := p = q \/ q = [].

Lemma ReadRecord_encode p q k v rest : follows p q -> fits (k, v) ->
  ReadRecord p (encode_record q k v ++ rest) = Ret (Ok ((k, v), rest)).
Proof.
  intros Hpq [Hk Hv]. cbn [fst snd] in *. unfold ReadRecord, encode_record. rewrite <- !app_assoc.
  pose proof (SharedPrefixLen_range q k) as Hr. pose proof (SharedPrefixLen_left q k) as Hl.
  set (n := SharedPrefixLen q k) in *.
  assert (Hn : is_u64 n) by (unfold is_u64, maxAlloc in *; lia).
  assert (Hd : zlen (drop (Z.to_nat n) k) = zlen k - n) by (autorewrite with zlen; lia).
  rewrite !ReadUvarint_Put; [| by apply zlen_u64 | unfold is_u64, maxAlloc in *; lia | done].
  rewrite <- Hd, read_full_app by lia. cbn [obind]. rewrite read_full_app by done. cbn [obind].
  assert (Htk : subslice p 0 n = Ret (take (Z.to_nat n) q)).
  { destruct Hpq as [-> | ->].
    - rewrite subslice_total by lia. by rewrite Z.sub_0_r.
    - assert (n = 0) as -> by (unfold n; by destruct k). rewrite subslice_total by (pose proof (zlen_nonneg p); lia). done. }
  rewrite Htk. cbn [obind]. unfold n. by rewrite SharedPrefixLen_take.
Qed.

Lemma encode_record_pos p k v : (3 <= length (encode_record p k v))%nat.
Proof. unfold encode_record. rewrite !length_app. pose proof PutUvarint_pos as H. pose proof (H (SharedPrefixLen p k)). pose proof (H (zlen k - SharedPrefixLen p k)). pose proof (H (zlen v)). lia. Qed.

Lemma last_key_cons p k v kvs : last_key p ((k, v) :: kvs) = last_key k kvs.
Proof. apply list_last_cons. Qed.

Lemma read_loop_encode {A} (f : KV -> outcome A) (g : KV -> A) kvs p q rest fuel :
  follows p q -> fits_all kvs -> (forall e, e ∈ kvs -> f e = Ret (g e)) ->
  (length (encode_from q kvs ++ rest) <= fuel)%nat ->
  exists fuel', (length rest <= fuel')%nat /\ read_loop f fuel p (encode_from q kvs ++ rest)
    = let! r := read_loop f fuel' (last_key p kvs) rest in Ret (match r with Ok l => Ok ((g <$> kvs) ++ l) | Err e => Err e end).
Proof.
  revert p q fuel. induction kvs as [| [k v] kvs IH]; intros p q fuel Hpq Hfit Hf Hfuel.
  - exists fuel. split; [done |]. change (last_key p []) with p. cbn [encode_from app fmap list_fmap]. by destruct (read_loop f fuel p rest) as [[] |].
  - apply Forall_cons in Hfit as [Hkv Hfit]. cbn [encode_from] in *. rewrite <- app_assoc in *.
    pose proof (encode_record_pos q k v) as Hpos. rewrite length_app in Hfuel.
    destruct fuel as [| fuel]; [lia |]. cbn [read_loop]. rewrite ReadRecord_encode by done. cbn [obind].
    rewrite Hf by (by left). cbn [obind].
    destruct (IH k k fuel) as (fuel' & Hf' & Heq); [by left | done | intros e He; apply Hf; by right | lia |].
    exists fuel'. split; [done |]. rewrite Heq, last_key_cons. by destruct (read_loop f fuel' _ rest) as [[] |].
Qed.

Lemma read_loop_nil {A} (f : KV -> outcome A) fuel p : read_loop f fuel p [] = Ret (Ok []).
Proof. by destruct fuel. Qed.

Lemma read_loop_whole {A} (f : KV -> outcome A) (g : KV -> A) kvs :
  fits_all kvs -> (forall e, e ∈ kvs -> f e = Ret (g e)) ->
  read_loop f (length (encode_from [] kvs)) [] (encode_from [] kvs) = Ret (Ok (g <$> kvs)).
Proof.
  intros Hfit Hf. destruct (read_loop_encode f g kvs [] [] [] (length (encode_from [] kvs))) as (fuel & _ & Heq);
    [by left | done | done | by rewrite app_nil_r |].
  rewrite app_nil_r, read_loop_nil in Heq. rewrite Heq. simpl. by rewrite app_nil_r.
Qed.

Lemma ReadBlockData_encode kvs : fits_all kvs -> ReadBlockData (encode_from [] kvs) = Ret (Ok kvs).
Proof. intros Hf. unfold ReadBlockData. rewrite (read_loop_whole Ret id) by done. by rewrite list_fmap_id. Qed.

(** The records of consecutive blocks read as one sequence, since each block
    starts afresh. *)
Lemma ReadBlockData_blocks bs : Forall fits_all bs ->
  ReadBlockData (bs ≫= encode_from []) = Ret (Ok (concat bs)).
Proof.
  intros Hf. unfold ReadBlockData. set (all := bs ≫= encode_from []). assert (Hfuel : (length all <= length all)%nat) by done.
  revert Hfuel. generalize (length all) at 2 3. generalize (@nil Z) at 1. unfold all. clear all.
  induction Hf as [| b bs Hb _ IH]; intros p fuel Hfuel; [by rewrite read_loop_nil |]. cbn [mbind list_bind concat] in *.
  destruct (read_loop_encode Ret id b p [] (bs ≫= encode_from []) fuel) as (fuel' & Hf' & Heq); [by right | done | done | done |].
  rewrite Heq, IH by done. cbn [obind]. by rewrite list_fmap_id.
Qed.

(** ** Blocks *)

Lemma encode_from_snoc p kvs k v : encode_from p (kvs ++ [(k, v)]) = encode_from p kvs ++ encode_record (last_key p kvs) k v.
Proof.
  revert p. induction kvs as [| [k' v'] kvs IH]; intros p; [cbn; by rewrite app_nil_r |].
  cbn [app encode_from]. by rewrite IH, last_key_cons, app_assoc.
Qed.
Lemma last_key_snoc p kvs k v : last_key p (kvs ++ [(k, v)]) = k.
Proof. unfold last_key. rewrite fmap_app. apply last_last. Qed.

(** A block that holds [kvs]. *)
Definition block_of (kvs : list KV) : Block := mkBlock (encode_from [] kvs) (zlen kvs) (last_key [] kvs).

Lemma block_Append_of kvs k v : block_Append k v (block_of kvs) = block_of (kvs ++ [(k, v)]).
Proof.
  unfold block_Append, block_of. simpl. rewrite encode_from_snoc, last_key_snoc. f_equal. autorewrite with zlen. lia.
Qed.

(** The records of a block read back as the pairs that were appended, in
    order, whatever prefixes they share; so do the records of consecutive blocks
    in one go. *)
Theorem block_round_trip bss : Forall fits_all bss ->
  ReadBlockData (bss ≫= fun kvs => (FlushTo (foldl (fun b e => block_Append e.1 e.2 b) NewBlock kvs) []).1.1) = Ret (Ok (concat bss)).
Proof.
  intros Hf. rewrite <- (ReadBlockData_blocks bss Hf). f_equal. apply list_bind_ext; [| done]. intros kvs. unfold FlushTo. cbn [fst app].
  change NewBlock with (block_of []). rewrite <- (app_nil_l kvs) at 2. generalize (@nil KV).
  induction kvs as [| [k v] kvs IH]; intros l; cbn [foldl fst snd]; [by rewrite app_nil_r |].
  rewrite block_Append_of, IH. by rewrite <- app_assoc.
Qed.

Lemma block_round_trip_witness :
  ReadBlockData (foldl (fun b e => block_Append e.1 e.2 b) NewBlock [([1; 2], [5]); ([1; 3], []); ([2], [6; 7])]).(blkRecord)
    = Ret (Ok [([1; 2], [5]); ([1; 3], []); ([2], [6; 7])]).
Proof.
  pose proof (block_round_trip [[([1; 2], [5]); ([1; 3], []); ([2], [6; 7])]]) as H.
  apply H. apply (bool_decide_unpack _). vm_compute. exact I.
Defined.
