(* ===== verification/LsmSst.v ===== *)
(** * LsmSst
    An sst file of the LSM tree: [sst_writer.go], which writes it from pairs in
    key order, [sst_reader.go], which opens it again, and [node.go], a file in
    the tree with its index and its filters in memory. The filter is the one of
    the configuration, shared by all writers: its state is passed along. *)
From S2P Require Import Prelude GoBytes LsmBytes LsmBloom LsmSkiplist LsmWal LsmBlock.

(** The numbers of [Config]; the filter and the memtables are types. *)
Record Config := mkConfig {
  MaxLevel : Z;
  SSTSize : Z;
  SSTNumPerLevel : Z;
  SSTDataBlockSize : Z;
  SSTFooterSize : Z
}.
#[export] Instance eta_Config : Eta Config := fun c =>
  mkConfig (MaxLevel c) (SSTSize c) (SSTNumPerLevel c) (SSTDataBlockSize c) (SSTFooterSize c).

(** [NewConfig] before the options, and [repair] after them, without the
    directories it makes. A ConfigOption sets one field. *)
Definition repair (c : Config) : Config :=
  let c := if decide (MaxLevel c <= 1) then c <| MaxLevel := 7 |> else c in
  let c := if decide (SSTSize c <= 0) then c <| SSTSize := 1024 * 1024 |> else c in
  let c := if decide (SSTDataBlockSize c <= 0) then c <| SSTDataBlockSize := 16 * 1024 |> else c in
  if decide (SSTNumPerLevel c <= 0) then c <| SSTNumPerLevel := 10 |> else c.
Definition NewConfig (opts : list (Config -> Config)) : Config :=
  repair (foldl (fun c opt => opt c) (mkConfig 0 0 0 0 32) opts).

(** ** [sst_writer.go] *)

Section Writer.
Context {F : Type} `{Filter F} (conf : Config).

Record SSTWriter := mkSSTWriter {
  dataBuf : bytes;
  filterBuf : bytes;
  indexBuf : bytes;
  blockToFilter : gmap Z bytes;
  index_ : list Index;
  dataBlock : Block;
  filterBlock : Block;
  indexBlock : Block;
  prevKey : bytes;
  prevBlockOffset : Z;
  prevBlockSize : Z;
  confFilter : F
}.
#[export] Instance eta_SSTWriter : Eta SSTWriter := fun s =>
  mkSSTWriter (dataBuf s) (filterBuf s) (indexBuf s) (blockToFilter s) (index_ s) (dataBlock s) (filterBlock s)
    (indexBlock s) (prevKey s) (prevBlockOffset s) (prevBlockSize s) (confFilter s).

(** [NewSSTWriter], once the file is open. *)
Definition NewSSTWriter (f : F) : SSTWriter :=
  mkSSTWriter [] [] [] ∅ [] NewBlock NewBlock NewBlock [] 0 0 f.

Definition insertIndex (key : bytes) (s : SSTWriter) : SSTWriter :=
  let indexKey := GetSeparatorBetween (prevKey s) key in
  s <| indexBlock := block_Append indexKey (PutUvarint (prevBlockOffset s) ++ PutUvarint (prevBlockSize s)) (indexBlock s) |>
    <| index_ := index_ s ++ [mkIndex indexKey (prevBlockOffset s) (prevBlockSize s)] |>.

Definition refreshBlock (s : SSTWriter) : outcome SSTWriter :=
  if decide (f_KeyLen (confFilter s) = 0) then Ret s else
  let s := s <| prevBlockOffset := zlen (dataBuf s) |> in
  let! filterBitmap := f_Hash (confFilter s) in
  let s := s <| blockToFilter := <[prevBlockOffset s := filterBitmap]> (blockToFilter s) |> in
  let s := s <| filterBlock := block_Append (PutUvarint (prevBlockOffset s)) filterBitmap (filterBlock s) |> in
  let s := s <| confFilter := f_Reset (confFilter s) |> in
  let '(buf, n, b) := FlushTo (dataBlock s) (dataBuf s) in
  Ret (s <| dataBuf := buf |> <| prevBlockSize := n |> <| dataBlock := b |>).

Definition Append (key value : bytes) (s : SSTWriter) : outcome SSTWriter :=
  let s := if decide (blkEntriesCnt (dataBlock s) = 0) then insertIndex key s else s in
  let s := s <| dataBlock := block_Append key value (dataBlock s) |>
             <| confFilter := f_Add key (confFilter s) |> <| prevKey := key |> in
  if decide (SSTDataBlockSize conf <= block_Size (dataBlock s)) then refreshBlock s else Ret s.

Definition writer_Size (s : SSTWriter) : Z := zlen (dataBuf s).

(** The footer: four numbers in a buffer of fixed size, which [PutUvarint]
    would overrun if they did not fit. *)
Definition footer (numbers : list Z) : outcome bytes :=
  let b := numbers ≫= PutUvarint in
  if decide (SSTFooterSize conf < zlen b) then Panic "index out of range" else
  Ret (b ++ replicate (Z.to_nat (SSTFooterSize conf - zlen b)) 0).

(** What [Finish] writes to the file, and what it returns to the tree. *)
Record Finished := mkFinished {
  fin_file : bytes;
  fin_size : Z;
  fin_blockToFilter : gmap Z bytes;
  fin_index : list Index;
  fin_filter : F
}.

Definition Finish (s : SSTWriter) : outcome Finished :=
  let! s := refreshBlock s in
  let s := insertIndex (prevKey s) s in
  let '(fbuf, _, _) := FlushTo (filterBlock s) (filterBuf s) in
  let '(ibuf, _, _) := FlushTo (indexBlock s) (indexBuf s) in
  let filterOffset := zlen (dataBuf s) in
  let indexOffset := filterOffset + zlen fbuf in
  let! foot := footer [filterOffset; zlen fbuf; indexOffset; zlen ibuf] in
  Ret (mkFinished (dataBuf s ++ fbuf ++ ibuf ++ foot) (indexOffset + zlen ibuf) (blockToFilter s) (index_ s) (confFilter s)).
End Writer.
Arguments SSTWriter F : clear implicits.
Arguments Finished F : clear implicits.

(** The file is opened without truncation: what was there before stays behind
    what is written. *)
Definition overwrite (written old : bytes) : bytes := written ++ drop (length written) old.

(** ** [sst_reader.go] *)

Record SSTReader := mkSSTReader {
  src : bytes;
  filterOffset : Z;
  filterSize : Z;
  indexOffset : Z;
  indexSize : Z
}.
Definition NewSSTReader (file : bytes) : SSTReader := mkSSTReader file 0 0 0 0.

Definition rmap {E A B} (r : result E A) (k : A -> outcome (result E B)) : outcome (result E B) :=
  match r with Err e => Ret (Err e) | Ok a => k a end.

Definition readFooterLocked (conf : Config) (s : SSTReader) : result io_error SSTReader :=
  if decide (zlen (src s) < SSTFooterSize conf) then Err EINVAL else
  let foot := drop (Z.to_nat (zlen (src s) - SSTFooterSize conf)) (src s) in
  match ReadUvarint foot with
  | Err e => Err e
  | Ok (fo, l) =>
      match ReadUvarint l with
      | Err e => Err e
      | Ok (fs, l) =>
          match ReadUvarint l with
          | Err e => Err e
          | Ok (io, l) =>
              match ReadUvarint l with
              | Err e => Err e
              | Ok (isz, _) => Ok (mkSSTReader (src s) fo fs io isz)
              end
          end
      end
  end.

(** [Seek] takes an [int64]. *)
Definition readBlockLocked (offset size : Z) (s : SSTReader) : outcome (result io_error bytes) :=
  if decide (i64 offset < 0) then Ret (Err EINVAL) else
  let! r := ReadFull size (drop (Z.to_nat offset) (src s)) in
  Ret (match r with Ok (b, _) => Ok b | Err e => Err e end).

Definition reader_Size (conf : Config) (s : SSTReader) : result io_error (Z * SSTReader) :=
  match (if decide (indexOffset s = 0) then readFooterLocked conf s else Ok s) with
  | Err e => Err e
  | Ok s => Ok (u64 (indexOffset s + indexSize s), s)
  end.

Definition ReadFilter (conf : Config) (s : SSTReader) : outcome (result io_error (gmap Z bytes * SSTReader)) :=
  rmap (if decide (filterOffset s = 0 \/ filterSize s = 0) then readFooterLocked conf s else Ok s) (fun s =>
  let! r := readBlockLocked (filterOffset s) (filterSize s) s in
  rmap r (fun b => let! r := readFilter b in rmap r (fun m => Ret (Ok (m, s))))).

Definition ReadIndex (conf : Config) (s : SSTReader) : outcome (result io_error (list Index * SSTReader)) :=
  rmap (if decide (indexOffset s = 0 \/ indexSize s = 0) then readFooterLocked conf s else Ok s) (fun s =>
  let! r := readBlockLocked (indexOffset s) (indexSize s) s in
  rmap r (fun b => let! r := readIndex b in rmap r (fun l => Ret (Ok (l, s))))).

Definition ReadData (conf : Config) (s : SSTReader) : outcome (result io_error (list KV * SSTReader)) :=
  rmap (if decide (indexOffset s = 0 \/ indexSize s = 0 \/ filterOffset s = 0 \/ filterSize s = 0) then readFooterLocked conf s else Ok s) (fun s =>
  let! r := readBlockLocked 0 (filterOffset s) s in
  rmap r (fun b => let! r := ReadBlockData b in rmap r (fun l => Ret (Ok (l, s))))).

(** ** [node.go] *)

Record Node := mkNode {
  n_level : Z;
  n_seq : Z;
  n_size : Z;
  n_blockToFilter : gmap Z bytes;
  n_index : list Index;
  startKey : bytes;
  endKey : bytes;
  sstReader : SSTReader
}.

(** [NewNode] reads the first and the last index entry. *)
Definition NewNode (r : SSTReader) (level seq size : Z) (filters : gmap Z bytes) (ix : list Index) : outcome Node :=
  let! first := index ix 0 in
  let! last := index ix (zlen ix - 1) in
  Ret (mkNode level seq size filters ix (ixKey first) (ixKey last) r).

Definition GetAll (conf : Config) (n : Node) : outcome (result io_error (list KV)) :=
  let! r := ReadData conf (sstReader n) in
  Ret (match r with Ok (l, _) => Ok l | Err e => Err e end).

(** [binarySearchIndex], the recursion bounded by the length of the range. *)
Fixpoint binarySearchIndex (fuel : nat) (ix : list Index) (key : bytes) (start end_ : Z) : outcome (Index * bool) :=
  if decide (start = end_) then
    let! e := index ix start in
    Ret (e, bool_decide (ble key (ixKey e)))
  else
    let mid := start + Z.shiftr (end_ - start) 1 in
    let! e := index ix mid in
    match fuel with
    | O => Panic "binarySearchIndex: out of fuel"
    | S fuel =>
        if decide (blt (ixKey e) key) then binarySearchIndex fuel ix key (mid + 1) end_
        else binarySearchIndex fuel ix key start mid
    end.

(** The first value of the key in a block. *)
Fixpoint find_value (key : bytes) (kvs : list KV) : option bytes :=
  match kvs with
  | [] => None
  | (k, v) :: kvs => if decide (k = key) then Some v else find_value key kvs
  end.

Definition node_Get {F} `{Filter F} (f : F) (n : Node) (key : bytes) : outcome (result io_error (option bytes)) :=
  if decide (zlen (n_index n) = 0) then Ret (Ok None) else
  let! r := binarySearchIndex (length (n_index n)) (n_index n) key 0 (zlen (n_index n) - 1) in
  let '(ix, ok) := r in
  if negb ok then Ret (Ok None) else
  match n_blockToFilter n !! PrevBlockOffset ix with
  | None => Ret (Ok None)
  | Some bitmap =>
      let! ok := f_Exist f (Some bitmap) key in
      if negb ok then Ret (Ok None) else
      let! r := readBlockLocked (PrevBlockOffset ix) (PrevBlockSize ix) (sstReader n) in
      rmap r (fun block =>
      let! r := ReadBlockData block in
      rmap r (fun kvs => Ret (Ok (find_value key kvs))))
  end.
