(* ===== verification/LsmSstFacts.v ===== *)
(** * LsmSstFacts
    What an sst file holds: the layout the writer gives it, that it opens again
    as the same node, and what a lookup in the node finds. *)
From S2P Require Import Prelude GoBytes LsmBytes LsmBloom LsmSkiplist LsmWal LsmBlock LsmSst.

(** ** The layout *)

(** A block that was flushed: its pairs, its offset and its filter. *)
Record flushed := mkFlushed { fb_kvs : list KV; fb_off : Z; fb_bm : bytes }.
Definition enc (b : flushed) : bytes := encode_from [] (fb_kvs b).

Fixpoint laid (off : Z) (fbs : list flushed) : Prop :=
  match fbs with
  | [] => True
  | b :: fbs => fb_off b = off /\ fb_kvs b <> [] /\ laid (off + zlen (enc b)) fbs
  end.
Definition data_of (fbs : list flushed) : bytes := fbs ≫= enc.
Definition kvs_of (fbs : list flushed) : list KV := fbs ≫= fb_kvs.
Definition entry_of (b : flushed) : Index := mkIndex (last_key [] (fb_kvs b)) (fb_off b) (zlen (enc b)).
Definition index_of (sep : bytes) (fbs : list flushed) : list Index := mkIndex sep 0 0 :: (entry_of <$> fbs).
Definition filters_of (fbs : list flushed) : gmap Z bytes := foldl (fun m b => <[fb_off b := fb_bm b]> m) ∅ fbs.
Definition filter_record (b : flushed) : KV := (PutUvarint (fb_off b), fb_bm b).
Definition index_record (e : Index) : KV := (ixKey e, PutUvarint (PrevBlockOffset e) ++ PutUvarint (PrevBlockSize e)).

Lemma data_of_cons b fbs : data_of (b :: fbs) = enc b ++ data_of fbs.
Proof. done. Qed.
Lemma kvs_of_cons b fbs : kvs_of (b :: fbs) = fb_kvs b ++ kvs_of fbs.
Proof. done. Qed.
Lemma data_of_snoc fbs b : data_of (fbs ++ [b]) = data_of fbs ++ enc b.
Proof. unfold data_of. rewrite bind_app. simpl. by rewrite app_nil_r. Qed.
Lemma kvs_of_snoc fbs b : kvs_of (fbs ++ [b]) = kvs_of fbs ++ fb_kvs b.
Proof. unfold kvs_of. rewrite bind_app. simpl. by rewrite app_nil_r. Qed.

Lemma index_of_snoc sep fbs b : index_of sep (fbs ++ [b]) = index_of sep fbs ++ [entry_of b].
Proof. unfold index_of. by rewrite fmap_app. Qed.
Lemma index_of_nil sep : index_of sep [] = [mkIndex sep 0 0].
Proof. done. Qed.
Lemma index_of_cons sep fbs : index_of sep fbs = mkIndex sep 0 0 :: (entry_of <$> fbs).
Proof. done. Qed.
Lemma index_of_ne sep fbs : index_of sep fbs <> [].
Proof. done. Qed.
#[local] Opaque index_of.

Lemma laid_snoc off fbs b : laid off fbs -> fb_off b = off + zlen (data_of fbs) -> fb_kvs b <> [] -> laid off (fbs ++ [b]).
Proof.
  revert off. induction fbs as [| c fbs IH]; intros off; cbn [laid app].
  - intros _ -> Hb. by rewrite Z.add_0_r.
  - intros (-> & Hc & Hl) Ho Hb. split; [done |]. split; [done |]. apply IH; [done | | done].
    rewrite Ho, data_of_cons. autorewrite with zlen. lia.
Qed.

Lemma laid_nonempty off fbs : laid off fbs -> Forall (fun b => fb_kvs b <> []) fbs.
Proof. revert off. induction fbs as [| b fbs IH]; intros off; [done |]. intros (_ & Hb & Hl). constructor; [done | by eapply IH]. Qed.

Section Table.
Context {F : Type} `{FilterSpec F} (conf : Config) (f0 : F).

(** A bit map that serves a block with the keys [ks]. *)
Definition serves (bm : bytes) (ks : list bytes) : Prop :=
  zlen bm <= 2 ^ 20 /\ forall f, like f0 f -> forall k, (exists b, f_Exist f (Some bm) k = Ret b) /\ (k ∈ ks -> f_Exist f (Some bm) k = Ret true).

Definition served (b : flushed) : Prop := serves (fb_bm b) (fb_kvs b).*1.

(** The state of a writer that has flushed [fbs] and holds [cur] in its data block. *)
Record writing (sep : bytes) (s : SSTWriter F) (fbs : list flushed) (cur : list KV) : Prop := {
  w_laid : laid 0 fbs;
  w_served : Forall served fbs;
  w_data : dataBuf s = data_of fbs;
  w_bufs : filterBuf s = [] /\ indexBuf s = [];
  w_block : dataBlock s = block_of cur;
  w_filter : holds (confFilter s) cur.*1 /\ like f0 (confFilter s);
  w_filters : blockToFilter s = filters_of fbs;
  w_filterBlock : filterBlock s = block_of (filter_record <$> fbs);
  w_prevKey : prevKey s = last_key [] (kvs_of fbs ++ cur);
  w_prevBlock : (prevBlockOffset s, prevBlockSize s) = (let e := List.last (index_of sep fbs) (mkIndex [] 0 0) in (PrevBlockOffset e, PrevBlockSize e));
  w_index : index_ s = match cur with [] => removelast (index_of sep fbs) | _ => index_of sep fbs end;
  w_indexBlock : indexBlock s = block_of (index_record <$> index_ s)
}.

Lemma last_key_app p l k v : last_key p (l ++ [(k, v)]) = k.
Proof. apply last_key_snoc. Qed.

Lemma last_key_bind p fbs b : fb_kvs b <> [] -> last_key p (kvs_of (fbs ++ [b])) = last_key [] (fb_kvs b).
Proof.
  intros Hb. rewrite kvs_of_snoc. destruct (exists_last Hb) as (l & [k v] & ->). by rewrite app_assoc, !last_key_app.
Qed.

(** The entry that [insertIndex] adds is the one missing from the layout. *)
Lemma insertIndex_writing sep s fbs key :
  writing sep s fbs [] ->
  GetSeparatorBetween (prevKey s) key = ixKey (List.last (index_of sep fbs) (mkIndex [] 0 0)) ->
  index_ (insertIndex key s) = index_of sep fbs /\ indexBlock (insertIndex key s) = block_of (index_record <$> index_of sep fbs).
Proof.
  intros Hw Hsep. pose proof (w_prevBlock _ _ _ _ Hw) as Hp. cbv zeta in Hp.
  pose proof (f_equal fst Hp) as Ho. pose proof (f_equal snd Hp) as Hs. cbn [fst snd] in Ho, Hs.
  pose proof (w_index _ _ _ _ Hw) as Hi. cbn beta iota in Hi.
  assert (Hlast : index_of sep fbs = index_ s ++ [mkIndex (GetSeparatorBetween (prevKey s) key) (prevBlockOffset s) (prevBlockSize s)]).
  { assert (Heta : forall e, mkIndex (ixKey e) (PrevBlockOffset e) (PrevBlockSize e) = e) by (by intros []).
    rewrite Hi, Hsep, Ho, Hs, Heta. apply (app_removelast_last (l := index_of sep fbs)), index_of_ne. }
  rewrite Hlast. split; [done |]. set (ik := GetSeparatorBetween _ _).
  change (indexBlock (insertIndex key s)) with (block_Append ik (PutUvarint (prevBlockOffset s) ++ PutUvarint (prevBlockSize s)) (indexBlock s)).
  rewrite (w_indexBlock _ _ _ _ Hw), block_Append_of, fmap_app. done.
Qed.

Lemma refreshBlock_writing sep s fbs cur : writing sep s fbs cur -> index_ s = index_of sep fbs \/ cur = [] ->
  exists s' fbs', refreshBlock s = Ret s' /\ writing sep s' fbs' [] /\ kvs_of fbs' = kvs_of fbs ++ cur
    /\ (cur <> [] -> exists b, fbs' = fbs ++ [b]) /\ (cur = [] -> s' = s /\ fbs' = fbs).
Proof.
  intros Hw Hix. unfold refreshBlock. destruct (w_filter _ _ _ _ Hw) as [Hh Hl].
  case_decide as Hcur; rewrite (holds_len _ _ Hh), zlen_0 in Hcur.
  - apply fmap_nil_inv in Hcur as ->. exists s, fbs. split; [done |]. split; [done |]. rewrite app_nil_r. split; [done |].
    split; [done |]. done.
  - assert (Hne : cur <> []) by (intros ->; done). destruct (hash_exists _ _ Hh Hcur) as (bm & Hbm & Hsz & Hserve).
    simpl. rewrite Hbm. simpl.
    set (b := mkFlushed cur (zlen (data_of fbs)) bm). eexists _, (fbs ++ [b]). split; [done |].
    pose proof (data_of_snoc fbs b) as Hdata. pose proof (kvs_of_snoc fbs b) as Hkvs.
    split; [| split; [done |]; split; [by exists b | done]].
    destruct Hix as [Hix | ?]; [| done].
    split; simpl; rewrite ?(w_block _ _ _ _ Hw), ?(w_data _ _ _ _ Hw).
    + apply laid_snoc; [apply Hw | done | done].
    + apply Forall_app. split; [apply Hw |]. constructor; [| done]. split; [done |]. intros f Hf. apply Hserve.
      by rewrite <- Hl.
    + by rewrite Hdata.
    + apply Hw.
    + done.
    + split; [by eapply holds_reset |]. by rewrite <- like_reset.
    + rewrite (w_filters _ _ _ _ Hw). unfold filters_of. by rewrite foldl_app.
    + by rewrite (w_filterBlock _ _ _ _ Hw), block_Append_of, fmap_app.
    + by rewrite app_nil_r, Hkvs, (w_prevKey _ _ _ _ Hw).
    + by rewrite index_of_snoc, last_last.
    + by rewrite index_of_snoc, removelast_last.
    + by rewrite (w_indexBlock _ _ _ _ Hw).
Qed.

Lemma Append_writing k0 s fbs cur k v :
  let sep := GetSeparatorBetween [] k0 in
  writing sep s fbs cur -> Forall (fun e => e.1 <> []) (kvs_of fbs) -> (kvs_of fbs ++ cur = [] -> k = k0) -> k <> [] ->
  exists s' fbs' cur', Append conf k v s = Ret s' /\ writing sep s' fbs' cur' /\ kvs_of fbs' ++ cur' = kvs_of fbs ++ cur ++ [(k, v)].
Proof.
  intros sep Hw Hne Hfirst Hk. unfold Append.
  set (s1 := if decide _ then insertIndex k s else s).
  assert (Hs1 : index_ s1 = index_of sep fbs /\ indexBlock s1 = block_of (index_record <$> index_of sep fbs)
    /\ dataBlock s1 = dataBlock s /\ dataBuf s1 = dataBuf s /\ filterBuf s1 = filterBuf s /\ indexBuf s1 = indexBuf s
    /\ blockToFilter s1 = blockToFilter s /\ filterBlock s1 = filterBlock s /\ confFilter s1 = confFilter s
    /\ prevBlockOffset s1 = prevBlockOffset s /\ prevBlockSize s1 = prevBlockSize s).
  { unfold s1. case_decide as Hcur; rewrite (w_block _ _ _ _ Hw) in Hcur; cbn [blkEntriesCnt block_of] in Hcur; rewrite zlen_0 in Hcur.
    - subst cur. destruct (insertIndex_writing sep s fbs k Hw) as [Hi Hb]; [| by split_and!].
      rewrite (w_prevKey _ _ _ _ Hw), app_nil_r. destruct fbs as [| b fbs _] using rev_ind.
      + rewrite index_of_nil, Hfirst by done. done.
      + rewrite index_of_snoc, last_last. cbn [ixKey entry_of].
        pose proof (laid_nonempty _ _ (w_laid _ _ _ _ Hw)) as [_ [Hb _]%Forall_cons]%Forall_app.
        rewrite last_key_bind by done. rewrite kvs_of_snoc in Hne. apply Forall_app in Hne as [_ Hne].
        destruct (exists_last Hb) as (l & [k' v'] & Heq). rewrite Heq in *. rewrite last_key_app.
        apply Forall_app in Hne as [_ Hne]. apply Forall_cons in Hne as [Hne _]. simpl in Hne. destruct k'; [done |]. by destruct k.
    - pose proof (w_index _ _ _ _ Hw) as Hi. pose proof (w_indexBlock _ _ _ _ Hw) as Hb.
      destruct cur; [done |]. rewrite Hi in Hb. by split_and!. }
  destruct Hs1 as (H1 & H2 & H3 & H4 & H5 & H6 & H7 & H8 & H9 & H10 & H11).
  set (s2 := s1 <| dataBlock := _ |> <| confFilter := _ |> <| prevKey := _ |>).
  assert (Hw2 : writing sep s2 fbs (cur ++ [(k, v)])).
  { destruct (w_filter _ _ _ _ Hw) as [Hh Hl]. unfold s2. split; simpl; rewrite ?H1, ?H2, ?H3, ?H4, ?H5, ?H6, ?H7, ?H8, ?H9, ?H10, ?H11.
    - apply Hw.
    - apply Hw.
    - apply Hw.
    - apply Hw.
    - rewrite (w_block _ _ _ _ Hw). apply block_Append_of.
    - rewrite fmap_app. split; [by apply holds_add |]. by rewrite <- like_add.
    - apply Hw.
    - apply Hw.
    - by rewrite app_assoc, last_key_app.
    - apply Hw.
    - by destruct cur.
    - done. }
  case_decide.
  - destruct (refreshBlock_writing sep s2 fbs _ Hw2) as (s' & fbs' & Hr & Hw' & Hkvs & _); [by left |].
    exists s', fbs', []. split; [done |]. split; [done |]. by rewrite app_nil_r, Hkvs.
  - exists s2, fbs, (cur ++ [(k, v)]). done.
Qed.

Lemma NewSSTWriter_writing sep : holds f0 [] -> writing sep (NewSSTWriter f0) [] [].
Proof. intros Hh. by split. Qed.

(** The keys a writer accepts; the first one sets the separator of the table. *)
Definition nonempty_keys (kvs : list KV) : Prop := Forall (fun e => e.1 <> []) kvs.
Definition first_key (kvs : list KV) : bytes := default [] (fst <$> head kvs).
Definition separator (kvs : list KV) : bytes := GetSeparatorBetween [] (first_key kvs).

Lemma Appends_writing k0 s fbs cur kvs :
  let sep := GetSeparatorBetween [] k0 in
  writing sep s fbs cur -> nonempty_keys (kvs_of fbs ++ cur) -> nonempty_keys kvs ->
  (kvs_of fbs ++ cur = [] -> first_key kvs = k0) ->
  exists s' fbs' cur', ofold (fun e s => Append conf e.1 e.2 s) kvs s = Ret s' /\ writing sep s' fbs' cur'
    /\ kvs_of fbs' ++ cur' = kvs_of fbs ++ cur ++ kvs.
Proof.
  intros sep. revert s fbs cur. induction kvs as [| [k v] kvs IH]; intros s fbs cur Hw Hne Hkvs Hfirst; simpl.
  - exists s, fbs, cur. by rewrite app_nil_r.
  - apply Forall_cons in Hkvs as [Hk Hkvs]. simpl in Hk.
    destruct (Append_writing k0 s fbs cur k v Hw) as (s' & fbs' & cur' & -> & Hw' & Heq).
    { by apply Forall_app in Hne as [? _]. }
    { intros Hnil. by rewrite <- Hfirst. }
    { done. }
    cbn [obind]. destruct (IH s' fbs' cur' Hw') as (s2 & fbs2 & cur2 & Hs & Hw2 & Heq2).
    + rewrite Heq. unfold nonempty_keys in *. rewrite app_assoc, Forall_app. split; [done |]. by constructor.
    + done.
    + rewrite Heq, app_assoc. by intros [_ ?]%app_eq_nil.
    + exists s2, fbs2, cur2. split; [done |]. split; [done |]. rewrite Heq2, app_assoc, Heq. by rewrite <- !app_assoc.
Qed.

(** The layout of a whole file. *)
Definition footer_of (fbs : list flushed) (ibytes fbytes : bytes) : list Z :=
  [zlen (data_of fbs); zlen fbytes; zlen (data_of fbs) + zlen fbytes; zlen ibytes].
Definition filter_bytes (fbs : list flushed) : bytes := encode_from [] (filter_record <$> fbs).
Definition index_bytes (sep : bytes) (fbs : list flushed) : bytes := encode_from [] (index_record <$> index_of sep fbs).

Record table (kvs : list KV) (fbs : list flushed) (t : Finished F) : Prop := {
  t_laid : laid 0 fbs;
  t_kvs : kvs_of fbs = kvs;
  t_some : kvs <> [];
  t_served : Forall served fbs;
  t_filters : fin_blockToFilter t = filters_of fbs;
  t_index : fin_index t = index_of (separator kvs) fbs;
  t_size : fin_size t = zlen (data_of fbs) + zlen (filter_bytes fbs) + zlen (index_bytes (separator kvs) fbs);
  t_file : exists foot, footer conf (footer_of fbs (index_bytes (separator kvs) fbs) (filter_bytes fbs)) = Ret foot
    /\ fin_file t = data_of fbs ++ filter_bytes fbs ++ index_bytes (separator kvs) fbs ++ foot;
  t_filter : holds (fin_filter t) [] /\ like f0 (fin_filter t)
}.

Lemma Finish_table s fbs cur kvs :
  writing (separator kvs) s fbs cur -> kvs_of fbs ++ cur = kvs -> nonempty_keys kvs -> kvs <> [] ->
  (forall fbs', laid 0 fbs' -> Forall served fbs' -> kvs_of fbs' = kvs ->
     exists foot, footer conf (footer_of fbs' (index_bytes (separator kvs) fbs') (filter_bytes fbs')) = Ret foot) ->
  exists t fbs', Finish conf s = Ret t /\ table kvs fbs' t.
Proof.
  intros Hw Hkvs Hne Hsome Hfoot. unfold Finish.
  destruct (refreshBlock_writing _ s fbs cur Hw) as (s' & fbs' & -> & Hw' & Heq & _).
  { destruct cur as [| e cur]; [by right | left]. apply Hw. }
  cbn [obind]. rewrite Hkvs in Heq. destruct fbs' as [| b bs _] using rev_ind; [by subst kvs; destruct Hsome |].
  set (fbs' := bs ++ [b]) in *.
  pose proof (w_prevKey _ _ _ _ Hw') as Hp. rewrite app_nil_r in Hp.
  pose proof (laid_nonempty _ _ (w_laid _ _ _ _ Hw')) as Hnb. apply Forall_app in Hnb as [_ [Hb _]%Forall_cons].
  assert (Hsep : GetSeparatorBetween (prevKey s') (prevKey s') = ixKey (List.last (index_of (separator kvs) fbs') (mkIndex [] 0 0))).
  { unfold fbs' at 1. rewrite index_of_snoc, last_last. cbn [ixKey entry_of].
    rewrite Hp. unfold fbs'. rewrite last_key_bind by done.
    destruct (exists_last Hb) as (l & [k v] & Hl). rewrite Hl, last_key_app.
    unfold fbs' in Heq. rewrite kvs_of_snoc, Hl in Heq. unfold nonempty_keys in Hne. rewrite <- Heq, !Forall_app in Hne.
    destruct Hne as [_ [_ [Hk _]%Forall_cons]]. simpl in Hk. by destruct k. }
  destruct (insertIndex_writing _ s' fbs' (prevKey s') Hw' Hsep) as [Hi Hib].
  destruct (w_bufs _ _ _ _ Hw') as [Hfb Hibf]. unfold FlushTo. cbv zeta beta iota.
  assert (Hfbk : filterBlock (insertIndex (prevKey s') s') = block_of (filter_record <$> fbs')) by apply Hw'.
  assert (Hdata : dataBuf (insertIndex (prevKey s') s') = data_of fbs') by apply Hw'.
  rewrite Hi, Hib, Hfbk, Hdata. change (filterBuf (insertIndex (prevKey s') s')) with (filterBuf s').
  change (indexBuf (insertIndex (prevKey s') s')) with (indexBuf s'). rewrite Hfb, Hibf. cbn [app blkRecord block_of].
  fold (filter_bytes fbs') (index_bytes (separator kvs) fbs').
  destruct (Hfoot fbs' (w_laid _ _ _ _ Hw') (w_served _ _ _ _ Hw') Heq) as [foot Hf]. unfold footer_of in Hf. rewrite Hf. cbn [obind].
  eexists _, fbs'. split; [done |]. split; simpl.
  - apply Hw'.
  - done.
  - done.
  - apply Hw'.
  - apply Hw'.
  - done.
  - lia.
  - exists foot. split; [exact Hf |]. done.
  - apply Hw'.
Qed.
End Table.

(** ** The footer fits *)

(** Tables below 128 MiB. *)
Definition small (kvs : list KV) : Prop := sumZ (entry_size <$> kvs) < 2 ^ 27 /\ zlen kvs < 2 ^ 27.

Lemma entry_size_nonneg (e : KV) : 0 <= entry_size e.
Proof. unfold entry_size. pose proof (zlen_nonneg e.1). pose proof (zlen_nonneg e.2). lia. Qed.
Lemma sum_sizes_nonneg (kvs : list KV) : 0 <= sumZ (entry_size <$> kvs).
Proof. apply sumZ_nonneg, Forall_fmap, Forall_true. apply entry_size_nonneg. Qed.
Lemma entry_size_le (kvs : list KV) e : e ∈ kvs -> entry_size e <= sumZ (entry_size <$> kvs).
Proof.
  intros He. apply sumZ_elem; [apply Forall_fmap, Forall_true, entry_size_nonneg |]. apply list_elem_of_fmap. by exists e.
Qed.

Lemma zlen_encode_record p k v : zlen (encode_record p k v) <= 30 + zlen k + zlen v.
Proof.
  unfold encode_record. autorewrite with zlen. pose proof (SharedPrefixLen_range p k).
  pose proof (zlen_PutUvarint (SharedPrefixLen p k)). pose proof (zlen_PutUvarint (zlen k - SharedPrefixLen p k)).
  pose proof (zlen_PutUvarint (zlen v)). lia.
Qed.
Lemma zlen_encode_from p kvs : zlen (encode_from p kvs) <= sumZ (entry_size <$> kvs) + 30 * zlen kvs.
Proof.
  revert p. induction kvs as [| [k v] kvs IH]; intros p; [done |]. cbn [encode_from]. rewrite fmap_cons, sumZ_cons. autorewrite with zlen.
  pose proof (zlen_encode_record p k v). specialize (IH k). unfold entry_size at 1. cbn [fst snd]. lia.
Qed.

Lemma zlen_data_of fbs : zlen (data_of fbs) <= sumZ (entry_size <$> kvs_of fbs) + 30 * zlen (kvs_of fbs).
Proof.
  induction fbs as [| b fbs IH]; [done |]. rewrite data_of_cons, kvs_of_cons, fmap_app, sumZ_app. autorewrite with zlen.
  pose proof (zlen_encode_from [] (fb_kvs b)). unfold enc. lia.
Qed.
Lemma zlen_blocks fbs off : laid off fbs -> zlen fbs <= zlen (kvs_of fbs).
Proof.
  revert off. induction fbs as [| b fbs IH]; intros off; [done |]. intros (_ & Hb & Hl). rewrite kvs_of_cons. autorewrite with zlen.
  specialize (IH _ Hl). assert (1 <= zlen (fb_kvs b)); [| lia]. destruct (fb_kvs b); [done |]. autorewrite with zlen. pose proof (zlen_nonneg l). lia.
Qed.

Lemma sumZ_bound (l : list Z) c : Forall (fun x => x <= c) l -> sumZ l <= c * zlen l.
Proof. induction 1; [change (0 <= c * 0); lia |]. rewrite sumZ_cons. autorewrite with zlen. lia. Qed.

Lemma last_key_in p kvs : kvs <> [] -> last_key p kvs ∈ kvs.*1.
Proof. intros Hne. destruct (exists_last Hne) as (l & [k v] & ->). rewrite last_key_snoc, fmap_app. apply elem_of_app. right. by left. Qed.

Lemma key_le_sum (kvs : list KV) k : k ∈ kvs.*1 -> zlen k <= sumZ (entry_size <$> kvs).
Proof.
  intros ([k' v] & -> & Hin)%list_elem_of_fmap. pose proof (entry_size_le kvs _ Hin) as Hs. unfold entry_size in Hs at 1. cbn [fst snd] in *.
  pose proof (zlen_nonneg v). lia.
Qed.

Lemma zlen_separator kvs : zlen (separator kvs) <= sumZ (entry_size <$> kvs).
Proof.
  unfold separator, first_key. destruct kvs as [| [k v] kvs]; [cbn; done |]. cbn [head fmap option_fmap option_map default fst].
  assert (Hk : zlen k <= sumZ (entry_size <$> ((k, v) :: kvs))) by (apply key_le_sum; by left).
  destruct k as [| x k]; [pose proof (sum_sizes_nonneg (([], v) :: kvs)); done |]. etransitivity; [| exact Hk].
  change (zlen (removelast (x :: k) ++ [u8 (List.last (x :: k) 0 - 1)]) <= zlen (x :: k)).
  rewrite (app_removelast_last 0 (l := x :: k)) at 3 by done. by autorewrite with zlen.
Qed.

Lemma small_keys kvs fbs : kvs_of fbs = kvs -> laid 0 fbs -> small kvs ->
  Forall (fun e => zlen (ixKey e) < 2 ^ 30) (index_of (separator kvs) fbs).
Proof.
  intros Hk Hl [Hs _]. rewrite index_of_cons. constructor; [pose proof (zlen_separator kvs); simpl; lia |].
  apply Forall_fmap, Forall_forall. intros b Hb. cbn [ixKey entry_of compose].
  pose proof (laid_nonempty _ _ Hl) as Hne. rewrite Forall_forall in Hne. specialize (Hne b Hb).
  pose proof (key_le_sum kvs (last_key [] (fb_kvs b))) as Hle. rewrite <- Hk in Hle at 1.
  assert (Hin : last_key [] (fb_kvs b) ∈ (kvs_of fbs).*1); [| specialize (Hle Hin); lia].
  apply list_elem_of_fmap. pose proof (last_key_in [] _ Hne) as (e & He & Hin)%list_elem_of_fmap. exists e. split; [done |].
  apply list_elem_of_bind. by exists b.
Qed.

Section Footer.
Context {F : Type} `{FilterSpec F} (f0 : F) (conf : Config).
Hypothesis Hconf : SSTFooterSize conf = 32.

Lemma zlen_filter_bytes fbs : Forall (served f0) fbs -> zlen (filter_bytes fbs) <= (2 ^ 20 + 40) * zlen fbs.
Proof.
  intros Hs. unfold filter_bytes. etransitivity; [apply zlen_encode_from |].
  assert (Hb : sumZ (entry_size <$> (filter_record <$> fbs)) <= (2 ^ 20 + 10) * zlen (entry_size <$> (filter_record <$> fbs))).
  { apply sumZ_bound. rewrite !Forall_fmap. eapply Forall_impl; [exact Hs |]. intros b [Hb _].
    unfold entry_size, filter_record. cbn [compose fst snd]. pose proof (zlen_PutUvarint (fb_off b)). lia. }
  unfold zlen in *. rewrite !length_fmap in *. lia.
Qed.

(** The separators are last keys of different blocks. *)
Lemma sum_last_keys fbs : Forall (fun b => fb_kvs b <> []) fbs ->
  sumZ ((fun b => zlen (last_key [] (fb_kvs b))) <$> fbs) <= sumZ (entry_size <$> kvs_of fbs).
Proof.
  induction 1 as [| b fbs Hb _ IH]; [done |]. rewrite fmap_cons, sumZ_cons, kvs_of_cons, fmap_app, sumZ_app.
  pose proof (key_le_sum (fb_kvs b) _ (last_key_in [] _ Hb)). lia.
Qed.

Lemma zlen_index_bytes kvs fbs : kvs_of fbs = kvs -> laid 0 fbs ->
  zlen (index_bytes (separator kvs) fbs) <= 2 * sumZ (entry_size <$> kvs) + 50 * (1 + zlen fbs).
Proof.
  intros Hk Hl. pose proof (sum_last_keys fbs (laid_nonempty _ _ Hl)) as Hsum. rewrite Hk in Hsum. pose proof (zlen_separator kvs) as Hsep.
  unfold index_bytes. etransitivity; [apply zlen_encode_from |]. rewrite index_of_cons, !fmap_cons, sumZ_cons.
  assert (He : forall e, entry_size (index_record e) <= zlen (ixKey e) + 20).
  { intros e. unfold entry_size, index_record. cbn [fst snd]. rewrite zlen_app.
    pose proof (zlen_PutUvarint (PrevBlockOffset e)). pose proof (zlen_PutUvarint (PrevBlockSize e)). lia. }
  assert (Hrest : sumZ (entry_size <$> (index_record <$> (entry_of <$> fbs)))
    <= sumZ ((fun b => zlen (last_key [] (fb_kvs b))) <$> fbs) + 20 * zlen fbs).
  { clear -He. induction fbs as [| b l IH]; [done |]. rewrite !fmap_cons, !sumZ_cons, zlen_cons. pose proof (He (entry_of b)) as Hb.
    cbn [ixKey entry_of] in Hb. lia. }
  pose proof (He (mkIndex (separator kvs) 0 0)) as H0'. cbn [ixKey] in H0'. rewrite zlen_cons.
  assert (Hlen : zlen (index_record <$> (entry_of <$> fbs)) = zlen fbs) by (unfold zlen; by rewrite !length_fmap). rewrite Hlen. lia.
Qed.

Lemma footer_fits kvs fbs : small kvs -> laid 0 fbs -> Forall (served f0) fbs -> kvs_of fbs = kvs ->
  Forall (fun x => 0 <= x < 2 ^ 48) (footer_of fbs (index_bytes (separator kvs) fbs) (filter_bytes fbs)).
Proof.
  intros Hs Hl Hsv Hk. pose proof (zlen_blocks _ _ Hl) as Hn. rewrite Hk in Hn.
  pose proof (zlen_data_of fbs) as Hd. rewrite Hk in Hd. pose proof (zlen_filter_bytes fbs Hsv) as Hf.
  pose proof (zlen_index_bytes kvs fbs Hk Hl) as Hi. destruct Hs as [Hs1 Hs2].
  pose proof (zlen_nonneg (data_of fbs)). pose proof (zlen_nonneg (filter_bytes fbs)).
  pose proof (zlen_nonneg (index_bytes (separator kvs) fbs)). pose proof (zlen_nonneg fbs).
  assert (zlen fbs < 2 ^ 27) by lia.
  unfold footer_of. repeat (apply Forall_cons; split); [nia.. | constructor].
Qed.

Lemma footer_total ns : length ns = 4%nat -> Forall (fun x => 0 <= x < 2 ^ 48) ns ->
  footer conf ns = Ret ((ns ≫= PutUvarint) ++ replicate (Z.to_nat (32 - zlen (ns ≫= PutUvarint))) 0) /\ zlen (ns ≫= PutUvarint) <= 32.
Proof.
  intros Hlen Hns. assert (Hb : zlen (ns ≫= PutUvarint) <= 8 * zlen ns).
  { clear Hlen. induction Hns as [| x ns Hx _ IH]; [done |]. change ((x :: ns) ≫= PutUvarint) with (PutUvarint x ++ (ns ≫= PutUvarint)). autorewrite with zlen.
    pose proof (zlen_PutUvarint_short 8 x ltac:(lia)) as Hp. change (7 * 8) with 56 in Hp. specialize (Hp ltac:(lia)). lia. }
  unfold zlen in Hb at 2. rewrite Hlen in Hb. unfold footer. rewrite Hconf. rewrite decide_False by lia. split; [done | lia].
Qed.
End Footer.
