(* ===== verification/LsmSstTheorems.v ===== *)
(** * LsmSstTheorems
    An sst file opens again as what was written, and a lookup in it finds every
    key above the separator in front of its first one. *)
From S2P Require Import Prelude GoBytes LsmBytes LsmBloom LsmSkiplist LsmWal LsmBlock LsmSst LsmSstFacts.

(** ** Searching the index *)

Lemma binarySearch_spec ix key p : forall fuel start end_, 0 <= start <= end_ -> end_ < zlen ix -> start <= p <= end_ + 1 ->
  (forall i e, start <= i < p -> ix !! Z.to_nat i = Some e -> blt (ixKey e) key) ->
  (forall i e, p <= i <= end_ -> ix !! Z.to_nat i = Some e -> ~ blt (ixKey e) key) ->
  end_ - start <= Z.of_nat fuel ->
  exists e, ix !! Z.to_nat (Z.min p end_) = Some e /\ binarySearchIndex fuel ix key start end_ = Ret (e, bool_decide (p <= end_)).
Proof.
  induction fuel as [| fuel IH]; intros start end_ Hse Hlen Hp Hlo Hhi Hf; cbn [binarySearchIndex].
  - assert (start = end_) as -> by lia. rewrite decide_True by done.
    destruct (index_total ix end_) as (e & -> & He); [lia |]. cbn [obind]. exists e.
    destruct (decide (p <= end_)) as [Hle | Hgt].
    + assert (p = end_) as -> by lia. rewrite Z.min_id. split; [done |]. do 2 f_equal.
      apply bool_decide_ext. split; [done |]. intros _. apply not_blt, (Hhi end_ e); [lia | done].
    + replace (Z.min p end_) with end_ by lia. split; [done |]. do 2 f_equal. apply bool_decide_ext.
      split; [| lia]. intros Hle. apply not_blt in Hle. destruct Hle. apply (Hlo end_ e); [lia | done].
  - case_decide as Heq.
    + subst end_. destruct (index_total ix start) as (e & -> & He); [lia |]. cbn [obind]. exists e.
      destruct (decide (p <= start)) as [Hle | Hgt].
      * assert (p = start) as -> by lia. rewrite Z.min_id. split; [done |]. do 2 f_equal.
        apply bool_decide_ext. split; [done |]. intros _. apply not_blt, (Hhi start e); [lia | done].
      * replace (Z.min p start) with start by lia. split; [done |]. do 2 f_equal. apply bool_decide_ext.
        split; [| lia]. intros Hle. apply not_blt in Hle. destruct Hle. apply (Hlo start e); [lia | done].
    + rewrite Z.shiftr_div_pow2 by lia. change (2 ^ 1) with 2. set (mid := start + (end_ - start) / 2).
      assert (Hmid : start <= mid < end_).
      { unfold mid. pose proof (Z.div_pos (end_ - start) 2 ltac:(lia) ltac:(lia)).
        pose proof (Z.div_lt_upper_bound (end_ - start) 2 (end_ - start) ltac:(lia) ltac:(lia)). lia. }
      destruct (index_total ix mid) as (e & -> & He); [lia |]. cbn [obind]. case_decide as Hlt.
      * assert (mid < p). { destruct (decide (mid < p)); [done |]. exfalso. apply (Hhi mid e); [lia | done | done]. }
        apply IH; try lia; intros i e' Hi He'; [apply (Hlo i); [lia | done] | apply (Hhi i); [lia | done]].
      * assert (p <= mid). { destruct (decide (p <= mid)); [done |]. exfalso. apply Hlt, (Hlo mid e); [lia | done]. }
        destruct (IH start mid) as (e' & He' & Hb); try lia.
        { intros i e' Hi He'. apply (Hlo i); [lia | done]. }
        { intros i e' Hi He'. apply (Hhi i); [lia | done]. }
        exists e'. rewrite Hb. replace (Z.min p end_) with (Z.min p mid) by lia. split; [done |]. do 2 f_equal.
        apply bool_decide_ext. lia.
Qed.

(** The search ends at some entry of the index, sorted or not. *)
Lemma search_lands ix key : ix <> [] ->
  exists e ok, binarySearchIndex (length ix) ix key 0 (zlen ix - 1) = Ret (e, ok) /\ e ∈ ix.
Proof.
  intros Hne. assert (Hpos : 1 <= zlen ix) by (destruct ix; [done | autorewrite with zlen; pose proof (zlen_nonneg ix); lia]).
  enough (Hgen : forall fuel start end_, 0 <= start <= end_ -> end_ < zlen ix -> end_ - start <= Z.of_nat fuel ->
    exists e ok, binarySearchIndex fuel ix key start end_ = Ret (e, ok) /\ e ∈ ix) by (apply Hgen; unfold zlen in *; lia).
  induction fuel as [| fuel IH]; intros start end_ Hs He Hf; cbn [binarySearchIndex]; (case_decide as Heq;
    [destruct (index_total ix start ltac:(lia)) as (e & -> & Hin); eexists e, _; split; [done | by eapply list_elem_of_lookup_2] |]); [lia |].
  pose proof (Z.shiftr_div_pow2 (end_ - start) 1 ltac:(lia)) as Hm. change (2 ^ 1) with 2 in Hm.
  pose proof (Z.div_lt (end_ - start) 2 ltac:(lia) ltac:(lia)). pose proof (Z.div_pos (end_ - start) 2 ltac:(lia) ltac:(lia)).
  destruct (index_total ix (start + Z.shiftr (end_ - start) 1) ltac:(lia)) as (e & -> & _). cbn [obind].
  case_decide; apply IH; lia.
Qed.

(** The first entry that is not below the key, when those below come first. *)
Lemma search_cut ix A B key : ix = A ++ B -> ix <> [] ->
  (forall e, e ∈ A -> blt (ixKey e) key) -> (forall e, e ∈ B -> ~ blt (ixKey e) key) ->
  binarySearchIndex (length ix) ix key 0 (zlen ix - 1)
    = Ret (match B with e :: _ => (e, true) | [] => (List.last ix (mkIndex [] 0 0), false) end).
Proof.
  intros -> Hne HA HB. set (ix := A ++ B) in *.
  assert (Hpos : 1 <= zlen ix) by (destruct ix; [done | autorewrite with zlen; pose proof (zlen_nonneg ix); lia]).
  destruct (binarySearch_spec ix key (zlen A) (length ix) 0 (zlen ix - 1)) as (e & He & Hb).
  - lia.
  - lia.
  - unfold ix. autorewrite with zlen. pose proof (zlen_nonneg A). pose proof (zlen_nonneg B). lia.
  - intros i e Hi He. apply HA. unfold ix in He. rewrite lookup_app_l in He by (unfold zlen in Hi; lia). by eapply list_elem_of_lookup_2.
  - intros i e Hi He. apply HB. unfold ix in He. rewrite lookup_app_r in He by (unfold zlen in Hi; lia). by eapply list_elem_of_lookup_2.
  - unfold zlen. lia.
  - rewrite Hb. f_equal. unfold ix in *. destruct B as [| b B].
    + rewrite app_nil_r in *. rewrite bool_decide_false by lia. f_equal.
      replace (Z.min (zlen A) (zlen A - 1)) with (zlen A - 1) in He by lia.
      replace (Z.to_nat (zlen A - 1)) with (pred (length A)) in He by (unfold zlen; lia).
      rewrite (app_removelast_last (mkIndex [] 0 0) (l := A)) in He at 2 by done.
      assert (Hl : length A = S (length (removelast A))).
      { rewrite (app_removelast_last (mkIndex [] 0 0) (l := A)) at 1 by done. rewrite length_app. simpl. lia. }
      rewrite lookup_app_r in He by lia. replace (pred (length A) - length (removelast A))%nat with 0%nat in He by lia. by injection He.
    + autorewrite with zlen in *. pose proof (zlen_nonneg B). rewrite bool_decide_true by lia. f_equal.
      replace (Z.min (zlen A) (zlen A + (1 + zlen B) - 1)) with (zlen A) in He by lia. unfold zlen in He. rewrite Nat2Z.id in He.
      rewrite lookup_app_r, Nat.sub_diag in He by done. by injection He.
Qed.

(** ** Reading parts of a file *)

Lemma readBlock_part a b c r off : src r = a ++ b ++ c -> off = zlen a -> zlen a < 2 ^ 63 -> zlen b <= maxAlloc ->
  readBlockLocked off (zlen b) r = Ret (Ok b).
Proof.
  intros Hsrc -> Ha Hb. unfold readBlockLocked. pose proof (zlen_nonneg a). rewrite i64_id by lia. rewrite decide_False by lia.
  unfold zlen at 2. rewrite Nat2Z.id, Hsrc, drop_app_length, read_full_app by done. done.
Qed.

Lemma filters_lookup fbs off b (m : gmap Z bytes) : laid off fbs -> b ∈ fbs ->
  foldl (fun m b => <[fb_off b := fb_bm b]> m) m fbs !! fb_off b = Some (fb_bm b).
Proof.
  revert off m. induction fbs as [| c fbs IH]; intros off m Hl Hb; [by apply not_elem_of_nil in Hb |].
  destruct Hl as (Hc & Hne & Hl). cbn [foldl]. apply elem_of_cons in Hb as [-> | Hb]; [| by eapply IH].
  assert (Hpos : 0 < zlen (enc c)).
  { destruct (fb_kvs c) as [| [k v] l] eqn:Hk; [done |]. unfold enc. rewrite Hk. cbn [encode_from]. autorewrite with zlen.
    pose proof (encode_record_pos [] k v). pose proof (zlen_nonneg (encode_from k l)). unfold zlen at 1. lia. }
  assert (Hkeep : forall fbs off (m : gmap Z bytes), laid off fbs -> fb_off c < off -> m !! fb_off c = Some (fb_bm c) ->
    foldl (fun m b => <[fb_off b := fb_bm b]> m) m fbs !! fb_off c = Some (fb_bm c)).
  { clear. induction fbs as [| d fbs IH]; intros off m Hl Hlt Hm; [done |]. destruct Hl as (Hd & _ & Hl). cbn [foldl].
    eapply IH; [exact Hl | pose proof (zlen_nonneg (enc d)); lia |]. by rewrite lookup_insert_ne by lia. }
  eapply Hkeep; [exact Hl | lia |]. by rewrite lookup_insert_eq.
Qed.

Lemma laid_part fbs off b : laid off fbs -> b ∈ fbs -> exists A B, data_of fbs = A ++ enc b ++ B /\ fb_off b = off + zlen A.
Proof.
  revert off. induction fbs as [| c fbs IH]; intros off Hl Hb; [by apply not_elem_of_nil in Hb |]. destruct Hl as (Hc & _ & Hl).
  apply elem_of_cons in Hb as [-> | Hb].
  - exists [], (data_of fbs). rewrite data_of_cons. split; [done |]. rewrite zlen_nil. lia.
  - destruct (IH _ Hl Hb) as (A & B & HA & Ho). exists (enc c ++ A), B. rewrite data_of_cons, HA. split; [by rewrite <- app_assoc |].
    autorewrite with zlen. lia.
Qed.

(** ** Lookup *)

Lemma find_value_app k l1 l2 : find_value k (l1 ++ l2) = match find_value k l1 with Some v => Some v | None => find_value k l2 end.
Proof. induction l1 as [| [k' v] l1 IH]; simpl; [done |]. by case_decide. Qed.
Lemma find_value_none k l : (forall e, e ∈ l -> e.1 <> k) -> find_value k l = None.
Proof.
  induction l as [| [k' v] l IH]; simpl; intros Hne; [done |]. rewrite decide_False; [apply IH; intros e He; apply Hne; by right |].
  apply (Hne (k', v)). by left.
Qed.
Lemma find_value_map k (l : list KV) : find_value k l = (list_to_map l : gmap bytes bytes) !! k.
Proof.
  induction l as [| [k' v] l IH]; simpl; [by rewrite lookup_empty |]. case_decide as Hk.
  - subst. by rewrite lookup_insert_eq.
  - by rewrite lookup_insert_ne.
Qed.
Lemma find_value_in k l v : find_value k l = Some v -> k ∈ l.*1.
Proof. induction l as [| [k' v'] l IH]; simpl; [done |]. case_decide as Hk; [subst; by left | intros Hf; right; by apply IH]. Qed.

Lemma find_value_pair k l v : find_value k l = Some v -> (k, v) ∈ l.
Proof. induction l as [| [k' v'] l IH]; simpl; [done |]. case_decide as Hk; [intros [= ->]; subst; by left | intros Hf; right; by apply IH]. Qed.
Lemma ascending_find k v l : ascending l -> (k, v) ∈ l -> find_value k l = Some v.
Proof.
  unfold ascending. induction l as [| [k' v'] l IH]; [by intros _ ?%not_elem_of_nil |]. simpl. intros [Hs Hall]%StronglySorted_inv [[= -> ->] | Hin]%elem_of_cons.
  - by rewrite decide_True.
  - rewrite decide_False; [by apply IH |]. intros ->. rewrite Forall_forall in Hall. apply (blt_irrefl k), Hall, list_elem_of_fmap. by exists (k, v).
Qed.

(** The cut of the flushed blocks at a key. *)
Lemma blocks_cut fbs k : ascending (kvs_of fbs) -> Forall (fun b => fb_kvs b <> []) fbs ->
  exists A B, fbs = A ++ B /\ (forall b, b ∈ A -> blt (last_key [] (fb_kvs b)) k) /\ (forall b, b ∈ B -> ~ blt (last_key [] (fb_kvs b)) k)
    /\ (forall e, e ∈ kvs_of A -> blt e.1 k) /\ (forall b B', B = b :: B' -> forall e, e ∈ kvs_of B' -> blt k e.1).
Proof.
  intros Hs Hne. induction fbs as [| b fbs IH]; [exists [], []; split; [done |]; split_and!; try done; intros x Hx; by apply not_elem_of_nil in Hx |].
  apply Forall_cons in Hne as [Hb Hne]. rewrite kvs_of_cons in Hs. unfold ascending in *. rewrite fmap_app in Hs.
  assert (Hsplit : forall x y, x ∈ (fb_kvs b).*1 -> y ∈ (kvs_of fbs).*1 -> blt x y) by (intros x y; by apply StronglySorted_app_1_elem_of).
  pose proof (StronglySorted_app_1_l _ _ _ Hs) as Hsb. pose proof (StronglySorted_app_1_r _ _ _ Hs) as Hsf.
  assert (Hle : forall x, x ∈ (fb_kvs b).*1 -> ble x (last_key [] (fb_kvs b))).
  { destruct (exists_last Hb) as (l & [kl vl] & Heq). rewrite Heq in *. rewrite last_key_snoc. rewrite fmap_app in *. simpl in *.
    intros x [Hx | ->%list_elem_of_singleton]%elem_of_app; [| apply ble_refl].
    eapply blt_ble, StronglySorted_app_1_elem_of; [exact Hsb | done | by left]. }
  destruct (decide (blt (last_key [] (fb_kvs b)) k)) as [Hlt | Hge].
  - destruct (IH Hsf Hne) as (A & B & -> & HA & HB & HkA & HkB). exists (b :: A), B. split; [done |]. split; [| split; [done |]; split; [| done]].
    + intros c [-> | Hc]%elem_of_cons; auto.
    + intros e He. rewrite kvs_of_cons in He. apply elem_of_app in He as [He | He]; [| by apply HkA].
      eapply ble_blt_trans; [| exact Hlt]. apply Hle, list_elem_of_fmap. by exists e.
  - exists [], (b :: fbs). split; [done |]. split; [intros c Hc; by apply not_elem_of_nil in Hc |].
    assert (Hlast : last_key [] (fb_kvs b) ∈ (fb_kvs b).*1) by (by apply last_key_in).
    assert (Habove : forall e, e ∈ kvs_of fbs -> blt k e.1).
    { intros e He. apply not_blt in Hge. eapply ble_blt_trans; [exact Hge |]. apply Hsplit; [done |]. apply list_elem_of_fmap. by exists e. }
    split; [| split; [intros e He; by apply not_elem_of_nil in He | intros b' B' [= <- <-]; exact Habove]].
    intros c [-> | Hc]%elem_of_cons; [done |]. intros Hlt.
    rewrite Forall_forall in Hne. pose proof (last_key_in [] _ (Hne c Hc)) as (e & He & Hin)%list_elem_of_fmap.
    apply (blt_irrefl k). eapply blt_trans; [apply Habove | rewrite He in Hlt; exact Hlt]. apply list_elem_of_bind. by exists c.
Qed.

Lemma small_fits kvs : small kvs -> fits_all kvs.
Proof.
  intros [Hs _]. apply Forall_forall. intros [k v] He. apply entry_size_le in He. unfold fits, entry_size, maxAlloc in *. cbn [fst snd] in *.
  pose proof (zlen_nonneg k). pose proof (zlen_nonneg v). lia.
Qed.

Section Lookup.
Context {F : Type} `{FilterSpec F} (f0 : F) (conf : Config).
Hypothesis Hconf : SSTFooterSize conf = 32.
Context (kvs : list KV) (fbs : list flushed) (t : Finished F).
Hypothesis Ht : table conf f0 kvs fbs t.
Hypothesis Hasc : ascending kvs.
Hypothesis Hsmall : small kvs.

Lemma data_front : exists rest, fin_file t = data_of fbs ++ rest.
Proof. destruct (t_file _ _ _ _ _ Ht) as (foot & _ & ->). by eexists. Qed.

Lemma block_fits b : b ∈ fbs -> fits_all (fb_kvs b) /\ zlen (enc b) <= maxAlloc /\ zlen (data_of fbs) < 2 ^ 48.
Proof.
  intros Hb. pose proof (zlen_data_of fbs) as Hd. rewrite (t_kvs _ _ _ _ _ Ht) in Hd. destruct Hsmall as [Hs1 Hs2].
  split; [| split; [| lia]].
  - pose proof (small_fits _ Hsmall) as Hf. rewrite <- (t_kvs _ _ _ _ _ Ht) in Hf. unfold fits_all in *. rewrite Forall_forall in *.
    intros e He. apply Hf, list_elem_of_bind. by exists b.
  - destruct (laid_part fbs 0 b (t_laid _ _ _ _ _ Ht) Hb) as (A & B & HA & _). rewrite HA in Hd. autorewrite with zlen in Hd.
    pose proof (zlen_nonneg A). pose proof (zlen_nonneg B). unfold maxAlloc. lia.
Qed.

Lemma blocks_nonempty : fbs <> [] /\ Forall (fun b => fb_kvs b <> []) fbs.
Proof.
  split; [| eapply laid_nonempty, Ht]. intros Hn. apply (t_some _ _ _ _ _ Ht). rewrite <- (t_kvs _ _ _ _ _ Ht), Hn. done.
Qed.

(** Reading the block of an index entry. *)
Lemma read_flushed r b : src r = fin_file t -> b ∈ fbs -> readBlockLocked (fb_off b) (zlen (enc b)) r = Ret (Ok (enc b)).
Proof.
  intros Hr Hb. destruct (laid_part fbs 0 b (t_laid _ _ _ _ _ Ht) Hb) as (A & B & HA & Ho).
  destruct data_front as [rest Hd]. destruct (block_fits b Hb) as (_ & Hz & Hl).
  apply (readBlock_part A (enc b) (B ++ rest)); [by rewrite Hr, Hd, HA, <- !app_assoc | lia | | done].
  rewrite HA in Hl. autorewrite with zlen in Hl. pose proof (zlen_nonneg (enc b)). pose proof (zlen_nonneg B). lia.
Qed.

Context (f : F) (n : Node).
Hypothesis Hlike : like f0 f.
Hypothesis Hix : n_index n = index_of (separator kvs) fbs.
Hypothesis Hfi : n_blockToFilter n = filters_of fbs.
Hypothesis Hsrc : src (sstReader n) = fin_file t.

(** Once the search has chosen a block. *)
Lemma get_in_block b k : b ∈ fbs ->
  binarySearchIndex (length (n_index n)) (n_index n) k 0 (zlen (n_index n) - 1) = Ret (entry_of b, true) ->
  node_Get f n k = Ret (Ok (find_value k (fb_kvs b))).
Proof.
  intros Hb Hsearch. unfold node_Get. rewrite decide_False by (rewrite Hix, zlen_0; apply index_of_ne).
  rewrite Hsearch. cbn [obind negb]. rewrite Hfi. cbn [PrevBlockOffset PrevBlockSize entry_of].
  unfold filters_of. rewrite (filters_lookup fbs 0 b ∅ (t_laid _ _ _ _ _ Ht) Hb).
  pose proof (t_served _ _ _ _ _ Ht) as Hsv. rewrite Forall_forall in Hsv. destruct (Hsv b Hb) as [_ Hserve].
  destruct (Hserve f Hlike k) as [[ok Hok] Hyes]. rewrite Hok. cbn [obind]. destruct ok; cbn [negb].
  - rewrite read_flushed by done. cbn [obind rmap]. unfold enc. rewrite ReadBlockData_encode by (by apply block_fits). done.
  - destruct (find_value k (fb_kvs b)) as [v |] eqn:Hv; [| done]. apply find_value_in, Hyes in Hv. congruence.
Qed.

(** When the search has chosen the entry in front of the first block. *)
Lemma get_in_front k :
  binarySearchIndex (length (n_index n)) (n_index n) k 0 (zlen (n_index n) - 1) = Ret (mkIndex (separator kvs) 0 0, true) ->
  node_Get f n k = Ret (Ok None).
Proof.
  intros Hsearch. unfold node_Get. rewrite decide_False by (rewrite Hix, zlen_0; apply index_of_ne).
  rewrite Hsearch. cbn [obind negb PrevBlockOffset PrevBlockSize]. rewrite Hfi.
  destruct blocks_nonempty as [Hne _]. pose proof (t_laid _ _ _ _ _ Ht) as Hl. pose proof (t_served _ _ _ _ _ Ht) as Hsv.
  destruct fbs as [| b bs] eqn:Hfbs; [done |]. pose proof Hl as [Ho _]. rewrite <- Ho.
  unfold filters_of. rewrite (filters_lookup (b :: bs) 0 b ∅ Hl) by (by left).
  apply Forall_cons in Hsv as [[_ Hserve] _]. destruct (Hserve f Hlike k) as [[ok ->] _]. cbn [obind]. destruct ok; cbn [negb]; [| done].
  rewrite Ho. change 0 with (zlen (@nil Z)) at 1 2.
  rewrite (readBlock_part [] [] (src (sstReader n)) (sstReader n)) by (done || (autorewrite with zlen; unfold maxAlloc; lia)). done.
Qed.

Lemma first_key_least e : e ∈ kvs -> ble (first_key kvs) e.1.
Proof.
  unfold first_key. unfold ascending in Hasc. destruct kvs as [| e0 l]; [by intros ?%not_elem_of_nil |]. simpl.
  intros [-> | He]%elem_of_cons; [apply ble_refl |]. simpl in Hasc. apply StronglySorted_inv in Hasc as [_ Hall].
  rewrite Forall_forall in Hall. apply blt_ble, Hall, list_elem_of_fmap. by exists e.
Qed.

(** A lookup above the separator in front of the first block is a lookup in the
    pairs of the table. *)
Lemma node_Get_above k : blt (separator kvs) k -> node_Get f n k = Ret (Ok (find_value k kvs)).
Proof.
  intros Hlow. destruct blocks_nonempty as [Hne Hnb]. pose proof (t_kvs _ _ _ _ _ Ht) as Hk.
  pose proof Hasc as Hasc'. rewrite <- Hk in Hasc'. destruct (blocks_cut fbs k Hasc' Hnb) as (A & B & Heq & HA & HB & HkA & HkB).
  assert (Hsearch : binarySearchIndex (length (n_index n)) (n_index n) k 0 (zlen (n_index n) - 1)
    = Ret (match B with b :: _ => (entry_of b, true) | [] => (List.last (n_index n) (mkIndex [] 0 0), false) end)).
  { rewrite (search_cut (n_index n) (mkIndex (separator kvs) 0 0 :: (entry_of <$> A)) (entry_of <$> B) k).
    - by destruct B.
    - by rewrite Hix, index_of_cons, Heq, fmap_app.
    - rewrite Hix. apply index_of_ne.
    - intros e [-> | (b & -> & Hb)%list_elem_of_fmap]%elem_of_cons; [done | by apply HA].
    - intros e (b & -> & Hb)%list_elem_of_fmap. by apply HB. }
  assert (HfA : find_value k (kvs_of A) = None).
  { apply find_value_none. intros e He Hek. apply (blt_irrefl k). rewrite <- Hek at 1. by apply HkA. }
  assert (Hfind : find_value k kvs = find_value k (kvs_of B)).
  { rewrite <- Hk, Heq. unfold kvs_of. rewrite bind_app, find_value_app. unfold kvs_of in HfA. by rewrite HfA. }
  destruct B as [| b B'].
  - unfold node_Get. rewrite decide_False by (rewrite Hix, zlen_0; apply index_of_ne). rewrite Hsearch. cbn [obind negb]. by rewrite Hfind.
  - rewrite (get_in_block b k); [| rewrite Heq; apply elem_of_app; right; by left | done]. rewrite Hfind, kvs_of_cons, find_value_app.
    destruct (find_value k (fb_kvs b)); [done |]. rewrite find_value_none; [done |]. intros e He Hek.
    apply (blt_irrefl k). rewrite <- Hek at 2. by apply (HkB b B').
Qed.

(** All of it is, when the separator is below the first key. *)
Lemma node_Get_found k : blt (separator kvs) (first_key kvs) -> node_Get f n k = Ret (Ok (find_value k kvs)).
Proof.
  intros Hsep. destruct blocks_nonempty as [Hne Hnb]. pose proof (t_kvs _ _ _ _ _ Ht) as Hk.
  destruct (decide (blt (separator kvs) k)) as [Hlow | Hlow]; [by apply node_Get_above |]. rewrite get_in_front.
  - rewrite find_value_none; [done |]. intros e He <-. apply Hlow. eapply blt_ble_trans; [exact Hsep |]. by apply first_key_least.
  - rewrite (search_cut (n_index n) [] (n_index n) k); [by rewrite Hix, index_of_cons | done | rewrite Hix; apply index_of_ne | by intros e ?%not_elem_of_nil |].
    rewrite Hix, index_of_cons. intros e [-> | (b & -> & Hb)%list_elem_of_fmap]%elem_of_cons; [done |]. simpl. intros Hlt. apply Hlow.
    rewrite Forall_forall in Hnb. pose proof (last_key_in [] _ (Hnb b Hb)) as (e & He & Hin)%list_elem_of_fmap.
    eapply blt_trans; [exact Hsep |]. eapply ble_blt_trans; [| exact Hlt]. rewrite He. apply first_key_least.
    rewrite <- Hk. apply list_elem_of_bind. by exists b.
Qed.

(** Whatever the search lands on, nothing but the value of the key is read. *)
Lemma node_Get_sound k : node_Get f n k = Ret (Ok (find_value k kvs)) \/ node_Get f n k = Ret (Ok None).
Proof.
  destruct (search_lands (n_index n) k) as (e & ok & Hs & He); [rewrite Hix; apply index_of_ne |].
  destruct ok; [| right; unfold node_Get; rewrite decide_False by (rewrite Hix, zlen_0; apply index_of_ne); by rewrite Hs].
  rewrite Hix, index_of_cons in He. apply elem_of_cons in He as [-> | (b & -> & Hb)%list_elem_of_fmap]; [right; by apply get_in_front |].
  rewrite (get_in_block b k) by done. destruct (find_value k (fb_kvs b)) as [v |] eqn:Hv; [left | by right].
  symmetry. do 2 f_equal. apply ascending_find; [done |]. apply find_value_pair in Hv. rewrite <- (t_kvs _ _ _ _ _ Ht). apply list_elem_of_bind. by exists b.
Qed.

(** Otherwise the first key itself is out of reach. *)
Lemma node_Get_lost : ~ blt (separator kvs) (first_key kvs) -> node_Get f n (first_key kvs) = Ret (Ok None).
Proof.
  intros Hsep. destruct blocks_nonempty as [Hne Hnb]. pose proof (t_kvs _ _ _ _ _ Ht) as Hk. apply get_in_front.
  rewrite (search_cut (n_index n) [] (n_index n)); [by rewrite Hix, index_of_cons | done | rewrite Hix; apply index_of_ne | by intros e ?%not_elem_of_nil |].
  rewrite Hix, index_of_cons. intros e [-> | (b & -> & Hb)%list_elem_of_fmap]%elem_of_cons; [done |]. simpl. apply not_blt.
  rewrite Forall_forall in Hnb. pose proof (last_key_in [] _ (Hnb b Hb)) as (e & He & Hin)%list_elem_of_fmap. rewrite He. apply first_key_least.
  rewrite <- Hk. apply list_elem_of_bind. by exists b.
Qed.
End Lookup.

(** ** Writing and opening a file *)

(** What [flushMemTable] and [compactLevel] do with the pairs of one file. *)
Definition write_table {F} `{Filter F} (conf : Config) (kvs : list KV) (f : F) : outcome (Finished F) :=
  let! s := ofold (fun e s => Append conf e.1 e.2 s) kvs (NewSSTWriter f) in
  Finish conf s.

Lemma drop_zlen_app {A} (a b : list A) : drop (Z.to_nat (zlen a)) (a ++ b) = b.
Proof. unfold zlen. by rewrite Nat2Z.id, drop_app_length. Qed.
Lemma subslice_app_r {A} (a b : list A) : subslice (a ++ b) (zlen a) (zlen (a ++ b)) = Ret b.
Proof.
  pose proof (zlen_nonneg a). pose proof (zlen_nonneg b). rewrite subslice_total by (rewrite ?zlen_app; lia).
  rewrite drop_zlen_app, take_ge; [done |]. rewrite zlen_app. unfold zlen. lia.
Qed.

Section Open.
Context {F : Type} `{FilterSpec F} (f0 : F) (conf : Config).
Hypothesis Hconf : SSTFooterSize conf = 32.

Lemma write_table_ok kvs : holds f0 [] -> nonempty_keys kvs -> kvs <> [] -> small kvs ->
  exists t fbs, write_table conf kvs f0 = Ret t /\ table conf f0 kvs fbs t.
Proof.
  intros Hh Hne Hsome Hs. unfold write_table.
  destruct (Appends_writing conf f0 (first_key kvs) (NewSSTWriter f0) [] [] kvs) as (s & fbs & cur & -> & Hw & Heq);
    [by apply NewSSTWriter_writing | constructor | done | done |].
  cbn [obind]. destruct (Finish_table conf f0 s fbs cur kvs Hw) as (t & fbs' & Hf & Ht); [done | done | done | |].
  - intros fbs' Hl Hsv Hk. eexists. apply footer_total; [done | done |]. by eapply footer_fits.
  - by exists t, fbs'.
Qed.

Context (kvs : list KV) (fbs : list flushed) (t : Finished F).
Hypothesis Ht : table conf f0 kvs fbs t.
Hypothesis Hsmall : small kvs.

Definition opened : SSTReader :=
  let ix := index_bytes (separator kvs) fbs in
  mkSSTReader (fin_file t) (zlen (data_of fbs)) (zlen (filter_bytes fbs)) (zlen (data_of fbs) + zlen (filter_bytes fbs)) (zlen ix).

(** A reader of the file, fresh or with the footer read. *)
Definition reader_of (r : SSTReader) : Prop := r = NewSSTReader (fin_file t) \/ r = opened.

Lemma numbers_fit : Forall (fun x => 0 <= x < 2 ^ 48) (footer_of fbs (index_bytes (separator kvs) fbs) (filter_bytes fbs)).
Proof. eapply footer_fits; [done | apply Ht | apply Ht | apply Ht]. Qed.

Lemma readFooter_opened r : reader_of r -> readFooterLocked conf r = Ok opened.
Proof.
  intros Hr. assert (Hsrc : src r = fin_file t) by (by destruct Hr as [-> | ->]). pose proof numbers_fit as Hn.
  destruct (t_file _ _ _ _ _ Ht) as (foot & Hf & Hfile). destruct (footer_total conf Hconf (footer_of fbs (index_bytes (separator kvs) fbs) (filter_bytes fbs)) eq_refl Hn) as [Hft Hle].
  rewrite Hft in Hf. set (ns := footer_of _ _ _) in *. set (numbers := ns ≫= PutUvarint) in *.
  assert (Hfoot : numbers ++ replicate (Z.to_nat (32 - zlen numbers)) 0 = foot) by congruence. clear Hf Hft. unfold readFooterLocked. rewrite Hsrc, Hconf.
  set (front := data_of fbs ++ filter_bytes fbs ++ index_bytes (separator kvs) fbs).
  assert (Hff : fin_file t = front ++ foot) by (rewrite Hfile; unfold front; by rewrite <- !app_assoc).
  assert (Hfl : zlen foot = 32). by (rewrite <- Hfoot, zlen_app, zlen_replicate; lia).
  assert (Hlen : zlen (fin_file t) = zlen front + 32) by (rewrite Hff, zlen_app; lia). pose proof (zlen_nonneg front).
  rewrite decide_False by lia. replace (Z.to_nat (zlen (fin_file t) - 32)) with (length front) by (unfold zlen in *; lia).
  rewrite Hff at 1. rewrite drop_app_length, <- Hfoot. unfold numbers, ns, footer_of in *. cbn [mbind list_bind]. rewrite <- !app_assoc.
  repeat match goal with Hn : Forall _ (_ :: _) |- _ => apply Forall_cons in Hn as [? Hn] end.
  rewrite !ReadUvarint_Put by (unfold is_u64; lia). done.
Qed.

(** Every branch that may or may not read the footer ends with it read. *)
Lemma footer_or (P : Prop) `{!Decision P} r : reader_of r -> (r = NewSSTReader (fin_file t) -> P) ->
  (if decide P then readFooterLocked conf r else Ok r) = Ok opened.
Proof.
  intros Hr HP. case_decide as Hd; [by apply readFooter_opened |]. destruct Hr as [-> | ->]; [| done]. destruct Hd. by apply HP.
Qed.

Lemma parts_fit : zlen (data_of fbs) < 2 ^ 48 /\ zlen (filter_bytes fbs) <= maxAlloc /\ zlen (index_bytes (separator kvs) fbs) <= maxAlloc.
Proof.
  pose proof numbers_fit as Hn. unfold footer_of in Hn.
  repeat match goal with Hn : Forall _ (_ :: _) |- _ => apply Forall_cons in Hn as [? Hn] end. unfold maxAlloc. lia.
Qed.

Lemma ReadFilter_opened r : reader_of r -> ReadFilter conf r = Ret (Ok (filters_of fbs, opened)).
Proof.
  intros Hr. unfold ReadFilter. rewrite footer_or; [| done | intros ->; by left]. cbn [rmap]. unfold opened at 1 2 3. cbn [LsmSst.filterOffset LsmSst.filterSize].
  destruct parts_fit as (Hp1 & Hp2 & Hp3). destruct (t_file _ _ _ _ _ Ht) as (foot & _ & Hfile).
  rewrite (readBlock_part (data_of fbs) (filter_bytes fbs) (index_bytes (separator kvs) fbs ++ foot)); [| done | done | lia | done].
  cbn [obind rmap]. unfold readFilter, filter_bytes.
  rewrite (read_loop_whole _ (fun e => ((Uvarint e.1).1, e.2))); [| | done].
  - cbn [obind rmap]. f_equal. f_equal. f_equal. unfold filters_of. generalize (∅ : gmap Z bytes).
    pose proof (zlen_blocks _ _ (t_laid _ _ _ _ _ Ht)) as Hn.
    assert (Hoff : Forall (fun b => is_u64 (fb_off b)) fbs).
    { apply Forall_forall. intros b Hb. destruct (laid_part fbs 0 b (t_laid _ _ _ _ _ Ht) Hb) as (A & B & HA & Ho).
      rewrite HA in Hp1. autorewrite with zlen in Hp1. pose proof (zlen_nonneg A). pose proof (zlen_nonneg (enc b)). pose proof (zlen_nonneg B).
      unfold is_u64. lia. }
    clear -Hoff. induction Hoff as [| b bs Hb _ IH]; intros m; [done |]. cbn [fmap list_fmap foldl].
    unfold filter_record at 1 2. cbn [fst snd]. rewrite <- (app_nil_r (PutUvarint (fb_off b))), Uvarint_Put by done. cbn [fst]. apply IH.
  - unfold fits_all. apply Forall_fmap. pose proof (t_served _ _ _ _ _ Ht) as Hsv. eapply Forall_impl; [exact Hsv |].
    intros b [Hb _]. unfold fits, filter_record. cbn [compose fst snd]. pose proof (zlen_PutUvarint (fb_off b)). unfold maxAlloc. lia.
Qed.

Lemma entries_u64 : Forall (fun e => is_u64 (PrevBlockOffset e) /\ is_u64 (PrevBlockSize e)) (index_of (separator kvs) fbs).
Proof.
  rewrite index_of_cons. constructor; [cbn; unfold is_u64; lia |]. apply Forall_fmap, Forall_forall. intros b Hb.
  destruct parts_fit as (Hp1 & _ & _). destruct (laid_part fbs 0 b (t_laid _ _ _ _ _ Ht) Hb) as (A & B & HA & Ho).
  rewrite HA in Hp1. autorewrite with zlen in Hp1. pose proof (zlen_nonneg A). pose proof (zlen_nonneg (enc b)). pose proof (zlen_nonneg B).
  cbn [compose PrevBlockOffset PrevBlockSize entry_of]. unfold is_u64. lia.
Qed.

Lemma ReadIndex_opened r : reader_of r -> ReadIndex conf r = Ret (Ok (index_of (separator kvs) fbs, opened)).
Proof.
  intros Hr. unfold ReadIndex. rewrite footer_or; [| done | intros ->; by left]. cbn [rmap]. unfold opened at 1 2 3. cbn [LsmSst.indexOffset LsmSst.indexSize].
  destruct parts_fit as (Hp1 & Hp2 & Hp3). destruct (t_file _ _ _ _ _ Ht) as (foot & _ & Hfile).
  rewrite (readBlock_part (data_of fbs ++ filter_bytes fbs) (index_bytes (separator kvs) fbs) foot);
    [| by rewrite <- !app_assoc | by rewrite zlen_app | rewrite zlen_app; unfold maxAlloc in *; lia | done].
  cbn [obind rmap]. unfold readIndex, index_bytes.
  set (back := fun e : KV => mkIndex e.1 (Uvarint e.2).1 (Uvarint (drop (Z.to_nat (Uvarint e.2).2) e.2)).1).
  assert (Hback : forall e, e ∈ index_of (separator kvs) fbs -> index_entry (index_record e) = Ret (back (index_record e)) /\ back (index_record e) = e).
  { intros e He. pose proof entries_u64 as Hu. rewrite Forall_forall in Hu. destruct (Hu e He) as [Ho Hs].
    unfold index_entry, back, index_record. cbn [fst snd]. rewrite Uvarint_Put by done. cbn [fst snd].
    rewrite subslice_app_r, drop_zlen_app. cbn [obind].
    rewrite <- (app_nil_r (PutUvarint (PrevBlockSize e))), Uvarint_Put by done. split; [done |]. by destruct e. }
  rewrite (read_loop_whole _ back).
  - assert (Hl : back <$> (index_record <$> index_of (separator kvs) fbs) = index_of (separator kvs) fbs); [| by rewrite Hl].
    rewrite <- list_fmap_compose. rewrite <- (list_fmap_id (index_of (separator kvs) fbs)) at 2.
    apply list_fmap_ext. intros i e He%list_elem_of_lookup_2. by apply Hback.
  - unfold fits_all. apply Forall_fmap. pose proof (small_keys kvs fbs (t_kvs _ _ _ _ _ Ht) (t_laid _ _ _ _ _ Ht) Hsmall) as Hk.
    eapply Forall_impl; [exact Hk |]. intros e He. unfold fits, index_record. cbn [compose fst snd] in *. rewrite zlen_app.
    pose proof (zlen_PutUvarint (PrevBlockOffset e)). pose proof (zlen_PutUvarint (PrevBlockSize e)). unfold maxAlloc. lia.
  - intros e (e' & -> & He)%list_elem_of_fmap. by apply Hback.
Qed.

Lemma reader_Size_opened r : reader_of r -> reader_Size conf r = Ok (fin_size t, opened).
Proof.
  intros Hr. unfold reader_Size. rewrite footer_or; [| done | by intros ->]. unfold opened at 1 2. cbn [LsmSst.indexOffset LsmSst.indexSize].
  destruct parts_fit as (Hp1 & Hp2 & Hp3). rewrite (t_size _ _ _ _ _ Ht). rewrite u64_id; [done |].
  pose proof (zlen_nonneg (data_of fbs)). pose proof (zlen_nonneg (filter_bytes fbs)). pose proof (zlen_nonneg (index_bytes (separator kvs) fbs)).
  unfold is_u64, maxAlloc in *. lia.
Qed.

Lemma ReadData_opened r : reader_of r -> ReadData conf r = Ret (Ok (kvs, opened)).
Proof.
  intros Hr. unfold ReadData. rewrite footer_or; [| done | intros ->; by left]. cbn [rmap]. unfold opened at 1 2. cbn [LsmSst.filterOffset].
  destruct parts_fit as (Hp1 & Hp2 & Hp3). destruct (t_file _ _ _ _ _ Ht) as (foot & _ & Hfile).
  rewrite (readBlock_part [] (data_of fbs) (filter_bytes fbs ++ index_bytes (separator kvs) fbs ++ foot)); [| done | done | done | unfold maxAlloc; lia].
  cbn [obind rmap].
  assert (Hbl : data_of fbs = (fb_kvs <$> fbs) ≫= encode_from []).
  { unfold data_of, enc. clear. induction fbs as [| b l IH]; [done |]. cbn [mbind list_bind fmap list_fmap] in *. by rewrite IH. }
  rewrite Hbl, ReadBlockData_blocks.
  - cbn [obind rmap]. rewrite <- (t_kvs _ _ _ _ _ Ht). do 3 f_equal. unfold kvs_of. clear. induction fbs as [| b l IH]; [done |]. cbn [mbind list_bind fmap list_fmap concat] in *. by rewrite IH.
  - pose proof (small_fits _ Hsmall) as Hf. rewrite <- (t_kvs _ _ _ _ _ Ht) in Hf. apply Forall_fmap, Forall_forall. intros b Hb. cbn [compose].
    unfold fits_all in *. rewrite Forall_forall in *. intros e He. apply Hf, list_elem_of_bind. by exists b.
Qed.
End Open.

(** ** Theorems *)

Lemma Compare_app_l p a b : Compare (p ++ a) (p ++ b) = Compare a b.
Proof. induction p as [| x p IH]; simpl; [done |]. by rewrite Z.compare_refl. Qed.

(** The separator in front of a first key is below it unless the decrement wraps. *)
Lemma separator_below k : k <> [] -> octets k -> blt (GetSeparatorBetween [] k) k <-> List.last k 0 <> 0.
Proof.
  intros Hne Ho. assert (Hsep : GetSeparatorBetween [] k = removelast k ++ [u8 (List.last k 0 - 1)]) by (by destruct k).
  rewrite Hsep. unfold blt. rewrite (app_removelast_last 0 (l := k)) at 3 by done. rewrite Compare_app_l.
  assert (Hr : 0 <= List.last k 0 < 256).
  { unfold octets in Ho. rewrite (app_removelast_last 0 Hne) in Ho. apply Forall_app in Ho as [_ [Hr _]%Forall_cons]. exact Hr. }
  cbn [Compare]. unfold u8. destruct (decide (List.last k 0 = 0)) as [Hz | Hz].
  - rewrite Hz. split; [by vm_compute | done].
  - rewrite Z.mod_small by lia. rewrite (proj2 (Z.compare_lt_iff _ _)) by lia. by split.
Qed.

(** What the pairs of a file have to be: in order, not empty, of a size for the
    footer of 32 bytes. *)
Definition writable (kvs : list KV) : Prop := ascending kvs /\ nonempty_keys kvs /\ kvs <> [] /\ small kvs.

Lemma NewNode_table {F} `{FilterSpec F} conf (f0 : F) kvs fbs t r level seq size : table conf f0 kvs fbs t ->
  NewNode r level seq size (fin_blockToFilter t) (fin_index t)
    = Ret (mkNode level seq size (filters_of fbs) (index_of (separator kvs) fbs) (separator kvs) (last_key [] kvs) r).
Proof.
  intros Ht. unfold NewNode. rewrite (t_index _ _ _ _ _ Ht), (t_filters _ _ _ _ _ Ht).
  pose proof (t_kvs _ _ _ _ _ Ht) as Hk. pose proof (laid_nonempty _ _ (t_laid _ _ _ _ _ Ht)) as Hnb. pose proof (t_some _ _ _ _ _ Ht) as Hs.
  rewrite (proj2 (index_ret _ 0 (mkIndex (separator kvs) 0 0))) by (split; [lia | by rewrite index_of_cons]). cbn [obind].
  destruct fbs as [| b bs _] using rev_ind; [by subst kvs |].
  rewrite index_of_snoc, zlen_app, zlen_cons, zlen_nil.
  rewrite (proj2 (index_ret _ _ (entry_of b))).
  - cbn [obind ixKey entry_of]. rewrite <- index_of_snoc. apply Forall_app in Hnb as [_ [Hb _]%Forall_cons].
    by rewrite <- Hk, last_key_bind.
  - split; [pose proof (zlen_nonneg (index_of (separator kvs) bs)); lia |].
    replace (Z.to_nat (zlen (index_of (separator kvs) bs) + (1 + 0) - 1)) with (length (index_of (separator kvs) bs)) by (unfold zlen; lia).
    rewrite lookup_app_r, Nat.sub_diag by done. done.
Qed.

(** A written sst file opens again: the filters, the index and the size read
    from it are those the writer handed to the tree, and all pairs come back in
    order. Writing never overruns the footer. *)
Theorem sst_reopens {F} `{FilterSpec F} (conf : Config) (f0 : F) kvs :
  SSTFooterSize conf = 32 -> holds f0 [] -> writable kvs ->
  exists t r, write_table conf kvs f0 = Ret t /\ (holds (fin_filter t) [] /\ like f0 (fin_filter t))
    /\ ReadFilter conf (NewSSTReader (fin_file t)) = Ret (Ok (fin_blockToFilter t, r))
    /\ ReadIndex conf r = Ret (Ok (fin_index t, r))
    /\ reader_Size conf r = Ok (fin_size t, r)
    /\ ReadData conf r = Ret (Ok (kvs, r)).
Proof.
  intros Hconf Hh (Hasc & Hne & Hsome & Hsmall). destruct (write_table_ok f0 conf Hconf kvs Hh Hne Hsome Hsmall) as (t & fbs & Hw & Ht).
  exists t, (opened kvs fbs t). split; [done |]. split; [apply Ht |].
  assert (Ho : reader_of kvs fbs t (opened kvs fbs t)) by (by right). assert (Hf : reader_of kvs fbs t (NewSSTReader (fin_file t))) by (by left).
  rewrite (t_filters _ _ _ _ _ Ht), (t_index _ _ _ _ _ Ht).
  split; [by eapply ReadFilter_opened |]. split; [by eapply ReadIndex_opened |]. split; [by eapply reader_Size_opened | by eapply ReadData_opened].
Qed.

(** C27: a lookup in an sst file, through its index and its filters, is a lookup
    in the pairs it was written from, if the first key does not end in a zero
    byte. If it does, the separator in front of the first block wraps around
    above that key, which then is not found; keys above the separator are still
    looked up right, and for keys up to it the lookup may miss the value, but
    never answers anything else. *)
Theorem sst_lookup {F} `{FilterSpec F} (conf : Config) (f0 : F) kvs level seq :
  SSTFooterSize conf = 32 -> holds f0 [] -> writable kvs -> octets (first_key kvs) ->
  exists t n, write_table conf kvs f0 = Ret t
    /\ NewNode (NewSSTReader (fin_file t)) level seq (fin_size t) (fin_blockToFilter t) (fin_index t) = Ret n
    /\ forall f, like f0 f ->
         (List.last (first_key kvs) 0 <> 0 -> forall k, node_Get f n k = Ret (Ok (find_value k kvs)))
         /\ (forall k, blt (GetSeparatorBetween [] (first_key kvs)) k -> node_Get f n k = Ret (Ok (find_value k kvs)))
         /\ (forall k, node_Get f n k = Ret (Ok (find_value k kvs)) \/ node_Get f n k = Ret (Ok None))
         /\ (List.last (first_key kvs) 0 = 0 -> node_Get f n (first_key kvs) = Ret (Ok None)).
Proof.
  intros Hconf Hh (Hasc & Hne & Hsome & Hsmall) Ho. destruct (write_table_ok f0 conf Hconf kvs Hh Hne Hsome Hsmall) as (t & fbs & Hw & Ht).
  exists t. eexists. split; [done |]. split; [by apply (NewNode_table conf f0 kvs fbs) |]. intros f Hf.
  assert (Hfk : first_key kvs <> []) by (unfold first_key; destruct kvs as [| e l]; [done |]; by apply Forall_cons in Hne as [? _]).
  pose proof (separator_below (first_key kvs) Hfk Ho) as Hsep. fold (separator kvs) in Hsep.
  split_and!.
  - intros Hlast k. eapply node_Get_found; simpl; try done. by apply Hsep.
  - intros k Hk. by eapply node_Get_above.
  - intros k. by eapply node_Get_sound.
  - intros Hlast. eapply node_Get_lost; simpl; try done. rewrite Hsep. tauto.
Qed.

(** A writable list, by computation. *)
Lemma writable_dec kvs : bool_decide (StronglySorted blt kvs.*1) = true -> bool_decide (Forall (fun e => e.1 <> []) kvs) = true ->
  bool_decide (kvs <> []) = true -> bool_decide (sumZ (entry_size <$> kvs) < 2 ^ 27 /\ zlen kvs < 2 ^ 27) = true -> writable kvs.
Proof. intros H1 H2 H3 H4. split_and!; by eapply bool_decide_eq_true_1. Qed.

Definition example_conf : Config := mkConfig 7 1048576 10 3 32.
Definition example_kvs : list KV := [([97], [1]); ([97; 98], [2]); ([98], [3])].

Lemma example_writable : writable example_kvs.
Proof. apply writable_dec; by vm_compute. Qed.
Lemma example_filter : holds (mkBloomFilter 64 []) [].
Proof. split; [by split | done]. Qed.

Lemma sst_reopens_witness : exists t r, write_table example_conf example_kvs (mkBloomFilter 64 []) = Ret t
  /\ ReadData example_conf r = Ret (Ok (example_kvs, r)) /\ zlen (fin_index t) = 4.
Proof.
  destruct (sst_reopens example_conf (mkBloomFilter 64 []) example_kvs eq_refl example_filter example_writable)
    as (t & r & Hw & _ & _ & _ & _ & Hd).
  exists t, r. split; [exact Hw |]. split; [exact Hd |]. vm_compute in Hw. injection Hw as <-. reflexivity.
Defined.

Lemma sst_lookup_witness : exists n, node_Get (mkBloomFilter 64 []) n [97; 98] = Ret (Ok (Some [2]))
  /\ node_Get (mkBloomFilter 64 []) n [97; 99] = Ret (Ok None).
Proof.
  destruct (sst_lookup example_conf (mkBloomFilter 64 []) example_kvs 0 1 eq_refl example_filter example_writable
    ltac:(apply (bool_decide_unpack _); vm_compute; exact I)) as (t & n & _ & _ & Hall).
  destruct (Hall (mkBloomFilter 64 []) eq_refl) as (Hg & _). exists n. rewrite !Hg by (by vm_compute). split; reflexivity.
Defined.

(** Not the first key alone is lost: a key of the same block below the separator
    is too. *)
Lemma keys_up_to_the_separator_are_lost :
  let kvs := [([97; 0], [1]); ([97; 5], [2]); ([98], [3])] in
  match write_table (mkConfig 7 1048576 10 4096 32) kvs (mkBloomFilter 64 []) with
  | Ret t => match NewNode (NewSSTReader (fin_file t)) 0 1 (fin_size t) (fin_blockToFilter t) (fin_index t) with
             | Ret n => (node_Get (mkBloomFilter 64 []) n <$> kvs.*1) = [Ret (Ok None); Ret (Ok None); Ret (Ok (Some [3]))]
             | Panic _ => False
             end
  | Panic _ => False
  end.
Proof. vm_compute. reflexivity. Qed.
