(* ===== verification/LsmNames.v ===== *)
(** * LsmNames
    The names of the files of an LSM tree ([tree_compact.go], [tree_restore.go]):
    a table is known by its level and number, a log by its number, and the tree
    of LsmTree keys its disk by those. *)
From S2P Require Import Prelude GoStrings GoNumbers.
Local Open Scope string_scope.

Definition sst_suffix : string := ".sst".
Definition wal_suffix : string := ".wal".

(** [sstFile] *)
Definition sstFile (level seq : Z) : string := Itoa level ++ "_" ++ Itoa seq ++ sst_suffix.

(** [isSSTFile] *)
Definition isSSTFile (name : string) : bool :=
  if HasSuffix name sst_suffix then
    match Split (TrimSuffix name sst_suffix) "_"%char with
    | [a; b] => bool_decide ((Atoi a).2 = None) && bool_decide ((Atoi b).2 = None)
    | _ => false
    end
  else false.

(** [getLevelSeqFromSSTFile] *)
Definition getLevelSeqFromSSTFile (file : string) : Z * Z :=
  match Split (remove_all sst_suffix 0 file) "_"%char with
  | a :: b :: _ => ((Atoi a).1, i32 (Atoi b).1)
  | [a] => ((Atoi a).1, 0)
  | [] => (0, 0)
  end.

(** The last part of [walFile], and [walFileToMemTableIndex] on it. *)
Definition walFile (memTableIndex : Z) : string := Itoa memTableIndex ++ wal_suffix.
Definition walFileToMemTableIndex (walFile : string) : Z := (Atoi (remove_all wal_suffix 0 walFile)).1.

Lemma Itoa_no_underscore n : lacks "_"%char (Itoa n).
Proof. apply Itoa_lacks; [intros d Hd; by apply digit_not_sign | done]. Qed.
Lemma Itoa_no_dot n : lacks "."%char (Itoa n).
Proof. apply Itoa_lacks; [intros d Hd; by apply digit_not_sign | done]. Qed.

Lemma split_numbers a b : Split (Itoa a ++ "_" ++ Itoa b) "_"%char = [Itoa a; Itoa b].
Proof.
  change (Itoa a ++ "_" ++ Itoa b) with (Itoa a ++ String "_"%char (Itoa b)).
  rewrite Split_word by apply Itoa_no_underscore. by rewrite Split_last by apply Itoa_no_underscore.
Qed.

(** The name of a table is recognised, and its level and number read back from
    it, also after the number has wrapped; likewise for logs. Names of
    different tables differ. *)
Theorem file_names_round_trip level seq i : - 2 ^ 63 <= level < 2 ^ 63 -> - 2 ^ 31 <= seq < 2 ^ 31 -> - 2 ^ 63 <= i < 2 ^ 63 ->
  isSSTFile (sstFile level seq) = true /\ getLevelSeqFromSSTFile (sstFile level seq) = (level, seq)
  /\ walFileToMemTableIndex (walFile i) = i /\ isSSTFile (walFile i) = false.
Proof.
  intros Hl Hs Hi. unfold sstFile.
  replace (Itoa level ++ "_" ++ Itoa seq ++ sst_suffix) with ((Itoa level ++ "_" ++ Itoa seq) ++ sst_suffix) by (by rewrite <- !string_app_assoc).
  split_and!.
  - unfold isSSTFile. rewrite HasSuffix_app, TrimSuffix_app, split_numbers, !Atoi_Itoa by lia. done.
  - unfold getLevelSeqFromSSTFile, sst_suffix. rewrite remove_all_end.
    + rewrite split_numbers, !Atoi_Itoa by lia. cbn [fst]. by rewrite i32_id by lia.
    + rewrite lacks_app. split; [apply Itoa_no_dot |]. rewrite append_cons. split; [done | apply Itoa_no_dot].
  - unfold walFileToMemTableIndex, walFile, wal_suffix. rewrite remove_all_end by apply Itoa_no_dot. by rewrite Atoi_Itoa.
  - unfold isSSTFile. replace (HasSuffix (walFile i) sst_suffix) with false; [done |]. unfold walFile.
    generalize (Itoa i). intros s. induction s as [| a s IH]; [done |]. rewrite append_cons. cbn [HasSuffix].
    rewrite decide_False; [done |]. intros Heq.
    assert (Hlen : String.length (String a (s ++ wal_suffix)) = 4%nat) by (by rewrite Heq). cbn [String.length] in Hlen. rewrite string_length_app in Hlen. cbn in Hlen. lia.
Qed.

Lemma file_names_round_trip_witness : getLevelSeqFromSSTFile (sstFile 3 (- 2147483648)) = (3, - 2147483648) /\ walFile 12 = "12.wal".
Proof.
  split; [| reflexivity].
  destruct (file_names_round_trip 3 (- 2147483648) 12 ltac:(lia) ltac:(lia) ltac:(lia)) as (_ & H & _). exact H.
Defined.
