(* ===== verification/LsmTree.v ===== *)
(** * LsmTree
    The LSM tree: [tree.go], [tree_compact.go] and [tree_restore.go]. Kinds of
    memtable and filter are the parameters of [Config]. The disk is the bytes of
    every file. The goroutines that wait to hand a memtable or a level to the
    compaction goroutine are lists of what they wait with; the compaction
    goroutine takes any of them. An operation under the data lock, and the work
    of the compaction goroutine on one item, is one step. *)
From S2P Require Import Prelude GoBytes LsmBytes LsmBloom LsmSkiplist LsmWal LsmBlock LsmSst.

Section Tree.
Context {M : Type} `{MemTable M} {F : Type} `{Filter F} (conf : Config).

(** [memTableCompactItem]: the number of the log file, which is also what tells
    one memtable from another, and the table. *)
Record memTableCompactItem := mkItem { walFile : Z; item_mem : M }.

Record Tree := mkTree {
  memTable : M;
  rOnlyMemTable : list memTableCompactItem;
  walOpen : bool;
  nodes : list (list Node);
  memTableIndex : Z;
  levelToSeq : list Z;
  memCompactC : list memTableCompactItem;
  levelCompactC : list Z;
  sstFiles : gmap (Z * Z) bytes;
  walFiles : gmap Z bytes;
  treeFilter : F
}.
#[export] Instance eta_Tree : Eta Tree := fun t =>
  mkTree (memTable t) (rOnlyMemTable t) (walOpen t) (nodes t) (memTableIndex t) (levelToSeq t) (memCompactC t) (levelCompactC t)
    (sstFiles t) (walFiles t) (treeFilter t).

(** ** [tree.go] *)

(** [newMemTable]: opening the log creates it when it is not there. *)
Definition newMemTable (opened : option string) (t : Tree) : Tree * option string :=
  match opened with
  | Some e => (t, Some e)
  | None =>
      (t <| walFiles := <[memTableIndex t := default [] (walFiles t !! memTableIndex t)]> (walFiles t) |>
         <| walOpen := true |> <| memTable := mt_New |>, None)
  end.

Definition refreshMemTableLocked (opened : option string) (t : Tree) : Tree * option string :=
  let oldItem := mkItem (memTableIndex t) (memTable t) in
  let t := t <| rOnlyMemTable := rOnlyMemTable t ++ [oldItem] |> <| walOpen := false |>
             <| memCompactC := memCompactC t ++ [oldItem] |>
             <| memTableIndex := memTableIndex t + 1 |> in
  newMemTable opened t.

(** What the file system answers during a [Put]: the append to the log, and the
    opening of the next one. *)
Record put_io := mkPutIo { io_write : write_io; io_open : option string }.

Definition tree_Put (io : put_io) (draws : list Z) (key value : bytes) (t : Tree) : outcome (Tree * option string) :=
  if walOpen t then
    let '(file, err) := Write (io_write io) key value (default [] (walFiles t !! memTableIndex t)) in
    let t := t <| walFiles := <[memTableIndex t := file]> (walFiles t) |> in
    match err with
    | Some e => Ret (t, Some e)
    | None =>
        let! mem := mt_Put draws key value (memTable t) in
        let t := t <| memTable := mem |> in
        if decide (u64 (Z.quot (i64 (mt_Size mem * 5)) 4) <= SSTSize conf) then Ret (t, None)
        else Ret (refreshMemTableLocked (io_open io) t)
    end
  else Ret (t, Some "file already closed"%string).

(** The memtables, the newest first. *)
Fixpoint get_readonly (key : bytes) (items : list memTableCompactItem) : outcome (option bytes) :=
  match items with
  | [] => Ret None
  | i :: items =>
      let! v := mt_Get (item_mem i) key in
      match v with Some v => Ret (Some v) | None => get_readonly key items end
  end.
Definition get_memory (key : bytes) (t : Tree) : outcome (option bytes) :=
  let! v := mt_Get (memTable t) key in
  match v with Some v => Ret (Some v) | None => get_readonly key (rev (rOnlyMemTable t)) end.

(** Level 0, the newest first. *)
Fixpoint get_nodes (key : bytes) (f : F) (ns : list Node) : outcome (result io_error (option bytes)) :=
  match ns with
  | [] => Ret (Ok None)
  | n :: ns =>
      let! r := node_Get f n key in
      rmap r (fun v => match v with Some v => Ret (Ok (Some v)) | None => get_nodes key f ns end)
  end.

(** [levelBinarySearch], the recursion bounded by the number of nodes. *)
Fixpoint levelBinarySearch (fuel : nat) (ns : list Node) (key : bytes) (start end_ : Z) : outcome (option Node) :=
  if decide (end_ < start) then Ret None else
  match fuel with
  | O => Panic "levelBinarySearch: out of fuel"
  | S fuel =>
      let mid := start + Z.shiftr (end_ - start) 1 in
      let! n := index ns mid in
      if decide (blt (endKey n) key) then levelBinarySearch fuel ns key (mid + 1) end_
      else if decide (ble key (startKey n)) then levelBinarySearch fuel ns key start (mid - 1)
      else Ret (Some n)
  end.

Fixpoint get_levels (key : bytes) (f : F) (levels : list (list Node)) : outcome (result io_error (option bytes)) :=
  match levels with
  | [] => Ret (Ok None)
  | ns :: levels =>
      let! n := levelBinarySearch (length ns) ns key 0 (zlen ns - 1) in
      match n with
      | None => get_levels key f levels
      | Some n =>
          let! r := node_Get f n key in
          rmap r (fun v => match v with Some v => Ret (Ok (Some v)) | None => get_levels key f levels end)
      end
  end.

(** The part of [Get] below the memtables. [t.nodes[0]] panics without a level. *)
Definition get_disk (key : bytes) (t : Tree) : outcome (result io_error (option bytes)) :=
  let! level0 := index (nodes t) 0 in
  let! r := get_nodes key (treeFilter t) (rev level0) in
  rmap r (fun v => match v with Some v => Ret (Ok (Some v)) | None => get_levels key (treeFilter t) (drop 1 (nodes t)) end).

Definition tree_Get (key : bytes) (t : Tree) : outcome (result io_error (option bytes)) :=
  let! v := get_memory key t in
  match v with Some v => Ret (Ok (Some v)) | None => get_disk key t end.

(** ** [tree_compact.go] *)

(** [math.Pow10] is exact as far as levels go. *)
Definition tryTriggerCompact (level : Z) (t : Tree) : outcome Tree :=
  if decide (level = zlen (nodes t) - 1) then Ret t else
  let! ns := index (nodes t) level in
  let size := foldl (fun s n => u64 (s + n_size n)) 0 ns in
  if decide (size <= u64 (u64 (SSTSize conf * 10 ^ level) * SSTNumPerLevel conf)) then Ret t
  else Ret (t <| levelCompactC := levelCompactC t ++ [level] |>).

(** The place of a node on a sorted level: after the first node [i] whose
    successor starts above the new node, at the end if there is none. *)
Fixpoint insert_place (newEnd : bytes) (ns : list Node) (new : Node) : list Node :=
  match ns with
  | n :: (n' :: _) as rest =>
      if decide (blt newEnd (startKey n')) then n :: new :: rest else n :: insert_place newEnd rest new
  | _ => ns ++ [new]
  end.

Definition insertNodeWithReader (r : SSTReader) (level seq size : Z) (filters : gmap Z bytes) (ix : list Index) (t : Tree) : outcome Tree :=
  let! _ := index (levelToSeq t) level in
  let t := t <| levelToSeq := <[Z.to_nat level := seq]> (levelToSeq t) |> in
  let! newNode := NewNode r level seq size filters ix in
  let! ns := index (nodes t) level in
  let ns' := if decide (level = 0) then ns ++ [newNode] else insert_place (endKey newNode) ns newNode in
  Ret (t <| nodes := <[Z.to_nat level := ns']> (nodes t) |>).

(** [insertNode]: a reader that cannot be opened leaves the tree as it was. *)
Definition insertNode (opens : bool) (level seq : Z) (fin : Finished F) (t : Tree) : outcome Tree :=
  if opens then
    insertNodeWithReader (NewSSTReader (default [] (sstFiles t !! (level, seq)))) level seq (fin_size fin) (fin_blockToFilter fin) (fin_index fin) t
  else Ret t.

(** [Finish] on the file [level_seq.sst]; the state of the shared filter comes back. *)
Definition finish_file (level seq : Z) (s : SSTWriter F) (t : Tree) : outcome (Finished F * Tree) :=
  let! fin := Finish conf s in
  let old := default [] (sstFiles t !! (level, seq)) in
  Ret (fin, t <| sstFiles := <[(level, seq) := overwrite (fin_file fin) old]> (sstFiles t) |> <| treeFilter := fin_filter fin |>).

(** Creating the file [level_seq.sst] if it is not there. *)
Definition create_file (level seq : Z) (t : Tree) : Tree :=
  t <| sstFiles := <[(level, seq) := default [] (sstFiles t !! (level, seq))]> (sstFiles t) |>.

(** What the file system answers to the compaction goroutine: whether the n-th
    file can be created, and opened for reading. *)
Record compact_io := mkCompactIo { io_creates : nat -> bool; io_reads : nat -> bool }.

Definition flushMemTable (io : compact_io) (mem : M) (t : Tree) : outcome (Tree * option string) :=
  let! seq0 := index (levelToSeq t) 0 in
  let seq := i32 (seq0 + 1) in
  if io_creates io 0 then
    let t := create_file 0 seq t in
    let! kvs := mt_All mem in
    let! s := ofold (fun e s => Append conf e.1 e.2 s) kvs (NewSSTWriter (treeFilter t)) in
    let! r := finish_file 0 seq s t in
    let '(fin, t) := r in
    let! t := insertNode (io_reads io 0) 0 seq fin t in
    let! t := tryTriggerCompact 0 t in
    Ret (t, None)
  else Ret (t, Some "open"%string).

(** Everything up to the flushed table leaves the list. *)
Fixpoint reclaim (items : list memTableCompactItem) (wal : Z) : option (list memTableCompactItem) :=
  match items with
  | [] => None
  | i :: items => if decide (walFile i = wal) then Some items else reclaim items wal
  end.

Definition compactMemTable (io : compact_io) (item : memTableCompactItem) (t : Tree) : outcome Tree :=
  let! r := flushMemTable io (item_mem item) t in
  let '(t, err) := r in
  match err with
  | Some _ => Ret t
  | None =>
      let t := t <| rOnlyMemTable := default (rOnlyMemTable t) (reclaim (rOnlyMemTable t) (walFile item)) |> in
      Ret (t <| walFiles := delete (walFile item) (walFiles t) |>)
  end.

(** [pickCompactNodes] *)
Definition pickCompactNodes (level : Z) (t : Tree) : outcome (list Node) :=
  let! ns := index (nodes t) level in
  let! first := index ns 0 in
  let! middle := index ns (Z.shiftr (zlen ns) 1) in
  let start := if decide (blt (startKey middle) (startKey first)) then startKey middle else startKey first in
  let end_ := if decide (blt (endKey first) (endKey middle)) then endKey middle else endKey first in
  let! below := index (nodes t) (level + 1) in
  Ret (filter (fun n => ~ (blt end_ (startKey n) \/ blt (endKey n) start)) (below ++ ns)).

(** [pickedNodesToKVs]: errors of [GetAll] are dropped, later nodes win. The
    draws of the [i]-th write are [draws i]. *)
Fixpoint merge_nodes (draws : nat -> list Z) (ns : list Node) (mem : M) : outcome M :=
  match ns with
  | [] => Ret mem
  | n :: ns =>
      let! r := GetAll conf n in
      let kvs := match r with Ok l => l | Err _ => [] end in
      let! mem := replay draws kvs mem in
      merge_nodes (fun i => draws (length kvs + i)%nat) ns mem
  end.
Definition pickedNodesToKVs (draws : nat -> list Z) (ns : list Node) : outcome (list KV) :=
  let! mem := merge_nodes draws ns mt_New in mt_All mem.

(** A file of the new level that has outgrown its limit is finished and the
    next one begun; [Err] when that one cannot be created. *)
Definition rotate (io : compact_io) (level : Z) (i : nat) (seq : Z) (s : SSTWriter F) (t : Tree)
    : outcome (result Tree (nat * Z * SSTWriter F * Tree)) :=
  if decide (u64 (SSTSize conf * 10 ^ level) < writer_Size s) then
    let! r := finish_file level seq s t in
    let '(fin, t) := r in
    let! t := insertNode (io_reads io i) level seq fin t in
    let! seq0 := index (levelToSeq t) level in
    let seq := i32 (seq0 + 1) in
    if io_creates io (S i) then Ret (Ok (S i, seq, NewSSTWriter (treeFilter t), create_file level seq t)) else Ret (Err t)
  else Ret (Ok (i, seq, s, t)).

(** The writing loop of [compactLevel]; [i] counts the files. False when it
    gives up. *)
Fixpoint write_level (io : compact_io) (level : Z) (kvs : list KV) (i : nat) (seq : Z) (s : SSTWriter F) (t : Tree) : outcome (Tree * bool) :=
  match kvs with
  | [] => Ret (t, true)
  | (k, v) :: rest =>
      let! r := rotate io level i seq s t in
      match r with
      | Err t => Ret (t, false)
      | Ok (i, seq, s, t) =>
          let! s := Append conf k v s in
          match rest with
          | [] =>
              let! r := finish_file level seq s t in
              let '(fin, t) := r in
              let! t := insertNode (io_reads io i) level seq fin t in
              Ret (t, true)
          | _ :: _ => write_level io level rest i seq s t
          end
      end
  end.

(** A node is identified by its file. *)
Definition same_node (a b : Node) : Prop := n_level a = n_level b /\ n_seq a = n_seq b.
#[export] Instance same_node_dec a b : Decision (same_node a b).
Proof. unfold same_node. apply _. Defined.

Fixpoint remove_node (n : Node) (ns : list Node) : option (list Node) :=
  match ns with
  | [] => None
  | m :: ns => if decide (same_node n m) then Some ns else (fun l => m :: l) <$> remove_node n ns
  end.
(** One node out of the level below or the level itself. *)
Definition remove_one (level : Z) (n : Node) (t : Tree) : outcome Tree :=
  let! below := index (nodes t) (level + 1) in
  let! ns := index (nodes t) level in
  match remove_node n below, remove_node n ns with
  | Some l, _ => Ret (t <| nodes := <[Z.to_nat (level + 1) := l]> (nodes t) |>)
  | None, Some l => Ret (t <| nodes := <[Z.to_nat level := l]> (nodes t) |>)
  | None, None => Ret t
  end.
(** [removeNodes], with the files that [Destroy] removes in the background. *)
Definition removeNodes (level : Z) (picked : list Node) (t : Tree) : outcome Tree :=
  let! t := ofold (remove_one level) picked t in
  Ret (t <| sstFiles := foldl (fun files n => delete (n_level n, n_seq n) files) (sstFiles t) picked |>).

Definition compactLevel (io : compact_io) (draws : nat -> list Z) (level : Z) (t : Tree) : outcome Tree :=
  let! ns := index (nodes t) level in
  if decide (ns = []) then Ret t else
  let! picked := pickCompactNodes level t in
  let! seq0 := index (levelToSeq t) (level + 1) in
  let seq := i32 (seq0 + 1) in
  if io_creates io 0 then
    let t := create_file (level + 1) seq t in
    let! kvs := pickedNodesToKVs draws picked in
    let! r := write_level io (level + 1) kvs 0 seq (NewSSTWriter (treeFilter t)) t in
    let '(t, done) := r in
    if done : bool then
      let! t := removeNodes level picked t in
      tryTriggerCompact (level + 1) t
    else Ret t
  else Ret t.

(** ** [tree_restore.go] *)

(** The files by level and number; the names are those of LsmNames. *)
Definition file_le (a b : Z * Z) : Prop := a.1 < b.1 \/ a.1 = b.1 /\ a.2 <= b.2.
#[export] Instance file_le_dec a b : Decision (file_le a b).
Proof. unfold file_le. apply _. Defined.
Definition entry_le (a b : (Z * Z) * bytes) : Prop := file_le a.1 b.1.
#[export] Instance entry_le_dec a b : Decision (entry_le a b).
Proof. unfold entry_le. apply _. Defined.
Definition getSortedSSTEntries (files : gmap (Z * Z) bytes) : list ((Z * Z) * bytes) :=
  merge_sort entry_le (map_to_list files).

Definition loadNode (entry : (Z * Z) * bytes) (t : Tree) : outcome (result io_error Tree) :=
  let '((level, seq), file) := entry in
  let! r := ReadFilter conf (NewSSTReader file) in
  rmap r (fun '(filters, r) =>
  let! r := ReadIndex conf r in
  rmap r (fun '(ix, r) =>
  rmap (reader_Size conf r) (fun '(size, r) =>
  let! t := insertNodeWithReader r level seq size filters ix t in Ret (Ok t)))).

Fixpoint loadNodes (entries : list ((Z * Z) * bytes)) (t : Tree) : outcome (result io_error Tree) :=
  match entries with
  | [] => Ret (Ok t)
  | e :: entries => let! r := loadNode e t in rmap r (loadNodes entries)
  end.

Definition constructTree (t : Tree) : outcome (result io_error Tree) := loadNodes (getSortedSSTEntries (sstFiles t)) t.

(** [restoreMemTable]: the last log is the active memtable, the others are
    read-only and handed over one after the other. *)
Fixpoint restoreMemTable (draws : Z -> nat -> list Z) (wals : list (Z * bytes)) (t : Tree) : outcome (result io_error Tree) :=
  match wals with
  | [] => Ret (Ok t)
  | (i, body) :: rest =>
      let! r := RestoreToMemtable (draws i) body mt_New in
      rmap r (fun mem =>
      match rest with
      | [] => Ret (Ok (t <| memTable := mem |> <| memTableIndex := i |> <| walOpen := true |>))
      | _ :: _ =>
          let item := mkItem i mem in
          restoreMemTable draws rest (t <| rOnlyMemTable := rOnlyMemTable t ++ [item] |> <| memCompactC := memCompactC t ++ [item] |>)
      end)
  end.

Definition wal_le (a b : Z * bytes) : Prop := a.1 <= b.1.
#[export] Instance wal_le_dec a b : Decision (wal_le a b).
Proof. unfold wal_le. apply _. Defined.

Definition constructMemtable (draws : Z -> nat -> list Z) (t : Tree) : outcome (result io_error Tree) :=
  match merge_sort wal_le (map_to_list (walFiles t)) with
  | [] => Ret (Ok (newMemTable None t).1)
  | wals => restoreMemTable draws wals t
  end.

(** [NewTree] on a directory with these files. The compaction goroutine starts
    before the logs are read; what it is handed meanwhile is still in
    [memCompactC] here. *)
Definition NewTree (draws : Z -> nat -> list Z) (f : F) (ssts : gmap (Z * Z) bytes) (wals : gmap Z bytes) : outcome (result io_error Tree) :=
  let t := mkTree mt_New [] false (replicate (Z.to_nat (MaxLevel conf)) []) 0 (replicate (Z.to_nat (MaxLevel conf)) 0) [] [] ssts wals f in
  let! r := constructTree t in
  rmap r (constructMemtable draws).

(** ** Runs *)

Inductive event :=
| EPut (io : put_io) (draws : list Z) (key value : bytes)
| EFlush (i : nat) (io : compact_io)
| ECompact (i : nat) (io : compact_io) (draws : nat -> list Z).

(** One step; a hand-over of something that is not waiting is not one. *)
Definition tree_step (t : Tree) (e : event) : option (outcome Tree) :=
  match e with
  | EPut io draws k v => Some (let! r := tree_Put io draws k v t in Ret r.1)
  | EFlush i io =>
      (fun item => compactMemTable io item (t <| memCompactC := take i (memCompactC t) ++ drop (S i) (memCompactC t) |>)) <$> memCompactC t !! i
  | ECompact i io draws =>
      (fun level => compactLevel io draws level (t <| levelCompactC := take i (levelCompactC t) ++ drop (S i) (levelCompactC t) |>)) <$> levelCompactC t !! i
  end.

Fixpoint tree_run (t : Tree) (es : list event) : option (outcome Tree) :=
  match es with
  | [] => Some (Ret t)
  | e :: es => match tree_step t e with Some (Ret t) => tree_run t es | r => r end
  end.
End Tree.
Arguments Tree M F : clear implicits.
Arguments memTableCompactItem M : clear implicits.
