(* ===== verification/LsmTreeTheorems.v ===== *)
(** * LsmTreeTheorems
    What the LSM tree promises, and where it breaks: while the memtables are
    flushed in the order they were filled and nothing is compacted, the tree is
    a map that survives restarts; a late flush, a compaction or an open that
    fails can each lose or bring back values. *)
From S2P Require Import Prelude GoBytes LsmBytes LsmBloom LsmSkiplist LsmWal LsmBlock LsmSst LsmSstFacts LsmSstTheorems LsmTree.
(** ** Sizes of maps *)

Definition msize (g : gmap bytes bytes) : Z := sumZ (entry_size <$> map_to_list g).

Lemma sumZ_perm l1 l2 : l1 ≡ₚ l2 -> sumZ l1 = sumZ l2.
Proof. induction 1; rewrite ?sumZ_cons in *; try lia; congruence. Qed.

Lemma msize_empty : msize ∅ = 0.
Proof. unfold msize. by rewrite map_to_list_empty. Qed.
Lemma msize_insert_new g k v : g !! k = None -> msize (<[k := v]> g) = entry_size (k, v) + msize g.
Proof. intros Hk. unfold msize. by rewrite (sumZ_perm _ _ (fmap_Permutation _ _ _ (map_to_list_insert g k v Hk))), fmap_cons, sumZ_cons. Qed.
Lemma msize_nonneg g : 0 <= msize g.
Proof. apply sum_sizes_nonneg. Qed.
Lemma msize_insert g k v : msize (<[k := v]> g) <= entry_size (k, v) + msize g.
Proof.
  rewrite <- insert_delete_eq, msize_insert_new by apply lookup_delete_eq.
  destruct (g !! k) as [w |] eqn:Hk.
  - rewrite <- (insert_delete_id g k w Hk) at 2. rewrite msize_insert_new by apply lookup_delete_eq. pose proof (entry_size_nonneg (k, w)). lia.
  - by rewrite delete_id.
Qed.

(** The listing of a memtable. *)
Lemma listing_perm (l : list KV) (g : gmap bytes bytes) : ascending l -> list_to_map l = g -> l ≡ₚ map_to_list g.
Proof. intros Hs <-. symmetry. apply map_to_list_to_map. by apply sorted_blt_NoDup. Qed.
Lemma listing_size (l : list KV) (g : gmap bytes bytes) : ascending l -> list_to_map l = g -> sumZ (entry_size <$> l) = msize g.
Proof. intros Hs Hg. unfold msize. apply sumZ_perm. f_equiv. by apply listing_perm. Qed.
Lemma listing_in (l : list KV) (g : gmap bytes bytes) k v : ascending l -> list_to_map l = g -> (k, v) ∈ l <-> g !! k = Some v.
Proof. intros Hs <-. apply elem_of_list_to_map. by apply sorted_blt_NoDup. Qed.

(** ** What may be written *)

(** Keys that separators work for, and entries that leave room in a table. *)
Definition good_key (k : bytes) : Prop := k <> [] /\ octets k /\ List.last k 0 <> 0.
Definition good_map (g : gmap bytes bytes) : Prop := map_Forall (fun k _ => good_key k) g.

Lemma zlen_keys (l : list KV) : nonempty_keys l -> zlen l <= sumZ (entry_size <$> l).
Proof.
  induction 1 as [| [k v] l Hk _ IH]; [done |]. rewrite fmap_cons, sumZ_cons, zlen_cons. unfold entry_size at 1. cbn [fst snd] in *.
  assert (1 <= zlen k) by (destruct k; [done | rewrite zlen_cons; pose proof (zlen_nonneg k); lia]). pose proof (zlen_nonneg v). lia.
Qed.

Lemma listing_writable (l : list KV) (g : gmap bytes bytes) : ascending l -> list_to_map l = g -> g <> ∅ -> good_map g -> msize g < 2 ^ 27 ->
  writable l /\ octets (first_key l) /\ List.last (first_key l) 0 <> 0.
Proof.
  intros Hs Hg Hne Hgood Hm. assert (Hkeys : Forall (fun e => good_key e.1) l).
  { apply Forall_forall. intros [k v] He. apply (Hgood k v). by eapply listing_in. }
  assert (Hnk : nonempty_keys l) by (eapply Forall_impl; [exact Hkeys | by intros e (? & _)]).
  assert (Hl : l <> []) by (intros ->; done).
  pose proof (listing_size l g Hs Hg) as Hsz. pose proof (zlen_keys l Hnk).
  split; [split_and!; try done; split; lia |].
  unfold first_key. destruct l as [| e l]; [done |]. apply Forall_cons in Hkeys as [(_ & Ho & Hlast) _]. done.
Qed.

(** ** Maps by priority *)

(** The later maps of a list win over the earlier ones. *)
Definition layers (gs : list (gmap bytes bytes)) : gmap bytes bytes := foldl (fun acc g => g ∪ acc) ∅ gs.

Lemma layers_snoc gs g : layers (gs ++ [g]) = g ∪ layers gs.
Proof. unfold layers. by rewrite foldl_app. Qed.
Lemma layers_app gs1 gs2 : layers (gs1 ++ gs2) = layers gs2 ∪ layers gs1.
Proof.
  induction gs2 as [| g gs2 IH] using rev_ind; [rewrite app_nil_r; change (layers []) with (∅ : gmap bytes bytes); by rewrite (left_id_L ∅ (∪)) |].
  rewrite app_assoc, !layers_snoc, IH. by rewrite (assoc_L (∪)).
Qed.
Lemma layers_lookup_snoc gs g k : layers (gs ++ [g]) !! k = match g !! k with Some v => Some v | None => layers gs !! k end.
Proof. rewrite layers_snoc, lookup_union. destruct (g !! k), (layers gs !! k); done. Qed.

(** ** Sorting what is in order *)

Lemma StronglySorted_impl_in {A} (R S : relation A) l :
  (forall x y, x ∈ l -> y ∈ l -> R x y -> S x y) -> StronglySorted R l -> StronglySorted S l.
Proof.
  intros Himp Hs. induction Hs as [| x l Hs IH Hall]; constructor.
  - apply IH. intros a b Ha Hb. apply Himp; by right.
  - rewrite Forall_forall in *. intros y Hy. apply Himp; [by left | by right | by apply Hall].
Qed.

Lemma sorted_key_inj {A} (key : A -> Z) l x y : StronglySorted (fun a b => key a < key b) l -> x ∈ l -> y ∈ l -> key x = key y -> x = y.
Proof.
  induction 1 as [| z l Hs IH Hall]; intros Hx Hy Hk; [by apply not_elem_of_nil in Hx |]. rewrite Forall_forall in Hall.
  apply elem_of_cons in Hx as [-> | Hx]; apply elem_of_cons in Hy as [-> | Hy]; try done.
  - specialize (Hall y Hy). lia.
  - specialize (Hall x Hx). lia.
  - by apply IH.
Qed.

(** Sorting any permutation of a list whose keys increase gives that list. *)
Lemma merge_sort_keyed {A} (R : relation A) `{!forall x y, Decision (R x y), !Transitive R, !Total R} (key : A -> Z) (l l' : list A) :
  StronglySorted (fun a b => key a < key b) l -> (forall x y, x ∈ l -> y ∈ l -> R x y <-> key x <= key y) ->
  l' ≡ₚ l -> merge_sort R l' = l.
Proof.
  intros Hs HR Hperm. eapply (StronglySorted_unique_strong R).
  - intros x y Hx Hy Hxy Hyx. rewrite merge_sort_Permutation, Hperm in Hx. apply (HR x y Hx Hy) in Hxy. apply (HR y x Hy Hx) in Hyx.
    eapply sorted_key_inj; [exact Hs | done | done | lia].
  - apply StronglySorted_merge_sort; apply _.
  - eapply StronglySorted_impl_in; [| exact Hs]. intros x y Hx Hy Hlt. apply (HR x y Hx Hy). simpl in Hlt. lia.
  - by rewrite merge_sort_Permutation.
Qed.

#[export] Instance entry_le_trans : Transitive entry_le.
Proof. intros a b c. unfold entry_le, file_le. lia. Qed.
#[export] Instance entry_le_total : Total entry_le.
Proof. intros a b. unfold entry_le, file_le. destruct (Z.lt_trichotomy a.1.1 b.1.1) as [|[|]]; lia. Qed.
#[export] Instance wal_le_trans : Transitive wal_le.
Proof. intros a b c. unfold wal_le. lia. Qed.
#[export] Instance wal_le_total : Total wal_le.
Proof. intros a b. unfold wal_le. lia. Qed.

Section Refines.
Context {M : Type} `{MemTableSpec M} {F : Type} `{FilterSpec F} (conf : Config) (f0 : F).

(** ** Nodes of level 0 *)

(** A node written from the pairs [kvs], with its file on disk. *)
Record node_is (files : gmap (Z * Z) bytes) (seq : Z) (kvs : list KV) (n : Node) : Prop := {
  ni_table : exists fw fbs t, like f0 fw /\ table conf fw kvs fbs t
    /\ n_index n = index_of (separator kvs) fbs /\ n_blockToFilter n = filters_of fbs
    /\ src (sstReader n) = fin_file t /\ files !! (0, seq) = Some (fin_file t) /\ n_size n = fin_size t;
  ni_seq : n_level n = 0 /\ n_seq n = seq;
  ni_writable : writable kvs /\ octets (first_key kvs) /\ List.last (first_key kvs) 0 <> 0
}.

Lemma node_is_Get files seq kvs n f k : node_is files seq kvs n -> like f0 f ->
  node_Get f n k = Ret (Ok ((list_to_map kvs : gmap bytes bytes) !! k)).
Proof.
  intros [(fw & fbs & t & Hfw & Ht & Hix & Hfi & Hsrc & _) _ ((Hasc & Hne & Hsome & Hsmall) & Ho & Hlast)] Hf.
  rewrite <- find_value_map. eapply node_Get_found; try done.
  - by rewrite <- Hfw.
  - apply separator_below; [| done | done]. unfold first_key. destruct kvs as [| e l]; [done |]. by apply Forall_cons in Hne as [? _].
Qed.

(** The nodes of level 0, numbered from [seq] on. *)
Fixpoint nodes_are (files : gmap (Z * Z) bytes) (seq : Z) (kvss : list (list KV)) (ns : list Node) : Prop :=
  match kvss, ns with
  | [], [] => True
  | kvs :: kvss, n :: ns => node_is files seq kvs n /\ nodes_are files (seq + 1) kvss ns
  | _, _ => False
  end.

Lemma nodes_are_length files seq kvss ns : nodes_are files seq kvss ns -> length kvss = length ns.
Proof. revert seq ns. induction kvss; intros seq [| n ns]; simpl; try done. intros [_ Hn]. f_equal. by eapply IHkvss. Qed.

Lemma nodes_are_snoc files seq kvss ns kvs n : nodes_are files seq kvss ns -> node_is files (seq + zlen kvss) kvs n ->
  nodes_are files seq (kvss ++ [kvs]) (ns ++ [n]).
Proof.
  revert seq ns. induction kvss as [| k kvss IH]; intros seq [| m ns]; simpl; try done.
  - rewrite zlen_nil, Z.add_0_r. done.
  - rewrite zlen_cons. intros [Hm Hns] Hn. split; [done |]. apply IH; [done |]. by replace (seq + 1 + zlen kvss) with (seq + (1 + zlen kvss)) by lia.
Qed.

Lemma node_is_files files files' seq kvs n : node_is files seq kvs n -> files' !! (0, seq) = files !! (0, seq) -> node_is files' seq kvs n.
Proof. intros [Ht Hs Hw] Heq. split; [| done | done]. destruct Ht as (fw & fbs & t & ?). exists fw, fbs, t. by rewrite Heq. Qed.

Lemma nodes_are_files files files' seq kvss ns : nodes_are files seq kvss ns ->
  (forall s, seq <= s < seq + zlen kvss -> files' !! (0, s) = files !! (0, s)) -> nodes_are files' seq kvss ns.
Proof.
  revert seq ns. induction kvss as [| k kvss IH]; intros seq [| m ns]; simpl; try done. rewrite zlen_cons. pose proof (zlen_nonneg kvss).
  intros [Hm Hns] Heq. split; [eapply node_is_files; [exact Hm | apply Heq; lia] |]. apply IH; [done |]. intros s Hs. apply Heq. lia.
Qed.

Definition layer_of (kvs : list KV) : gmap bytes bytes := list_to_map kvs.

Lemma nodes_are_split files seq kvss ns kvs n : length kvss = length ns ->
  nodes_are files seq (kvss ++ [kvs]) (ns ++ [n]) -> nodes_are files seq kvss ns /\ node_is files (seq + zlen kvss) kvs n.
Proof.
  revert seq ns. induction kvss as [| k kvss IH]; intros seq [| m ns]; simpl; try done.
  - intros _ [Hn _]. by rewrite zlen_nil, Z.add_0_r.
  - intros [= Hlen] [Hm Hns]. destruct (IH _ _ Hlen Hns) as [H1' H2']. rewrite zlen_cons. split; [done |].
    by replace (seq + (1 + zlen kvss)) with (seq + 1 + zlen kvss) by lia.
Qed.

Lemma get_nodes_layers files seq kvss ns f k : nodes_are files seq kvss ns -> like f0 f ->
  get_nodes k f (rev ns) = Ret (Ok (layers (layer_of <$> kvss) !! k)).
Proof.
  intros Hns Hf. pose proof (nodes_are_length _ _ _ _ Hns) as Hlen. revert ns Hns Hlen.
  induction kvss as [| kvs kvss IH] using rev_ind; intros ns Hns Hlen.
  - by destruct ns.
  - destruct ns as [| n ns _] using rev_ind; [rewrite length_app in Hlen; simpl in Hlen; lia |].
    rewrite !length_app in Hlen. simpl in Hlen. apply nodes_are_split in Hns as [Hns Hn]; [| lia].
    rewrite rev_app_distr. simpl. erewrite node_is_Get by done. cbn [obind rmap]. rewrite fmap_app. simpl fmap. rewrite layers_lookup_snoc.
    fold (layer_of kvs). destruct (layer_of kvs !! k); [done |]. apply IH; [done | lia].
Qed.

(** ** Memtables *)

Definition item_is (it : memTableCompactItem M) (g : gmap bytes bytes) : Prop := reps (item_mem it) g /\ g <> ∅ /\ good_map g /\ msize g < 2 ^ 27.

Lemma get_readonly_layers items gs k : Forall2 item_is items gs ->
  get_readonly k (rev items) = Ret (layers gs !! k).
Proof.
  intros Hf. pose proof (Forall2_length _ _ _ Hf) as Hlen. revert items Hf Hlen. induction gs as [| g gs IH] using rev_ind; intros items Hf Hlen.
  - by destruct items.
  - apply Forall2_app_inv_r in Hf as (items' & l & Hi & Hl & ->). apply Forall2_cons_inv_r in Hl as (it & l' & [Hr _] & Hnil & ->).
    apply Forall2_nil_inv_r in Hnil as ->. rewrite rev_app_distr. simpl. rewrite (reps_get _ g) by done. cbn [obind].
    rewrite layers_lookup_snoc. destruct (g !! k); [done |]. apply IH; [done |]. by eapply Forall2_length.
Qed.

(** ** Logs *)

(** A log file that replays to a map. *)
Definition wal_is (body : bytes) (g : gmap bytes bytes) : Prop :=
  exists kvs, Forall fits kvs /\ body = log kvs /\ foldl (fun (g : gmap bytes bytes) e => <[e.1 := e.2]> g) ∅ kvs = g.

Lemma wal_is_nil : wal_is [] ∅.
Proof. by exists []. Qed.
Lemma wal_is_write body g k v : wal_is body g -> fits (k, v) -> wal_is (Write Whole k v body).1 (<[k := v]> g).
Proof.
  intros (kvs & Hf & -> & <-) Hkv. exists (kvs ++ [(k, v)]). rewrite Forall_app, log_app, foldl_app. split; [split; [done | by constructor] |].
  split; [| done]. simpl. unfold log. simpl. by rewrite app_nil_r.
Qed.
Lemma wal_is_restore draws body g : wal_is body g -> exists t, RestoreToMemtable draws body (mt_New (M := M)) = Ret (Ok t) /\ reps t g.
Proof.
  intros (kvs & Hf & -> & <-). unfold RestoreToMemtable. rewrite readAll_whole by done. cbn [obind].
  destruct (replay_reps draws kvs (mt_New (M := M)) ∅ reps_new) as (t & -> & Hr). by exists t.
Qed.

(** ** The correspondence *)

(** The numbers a restart reads off the log directory. *)
Definition wal_numbers (t : Tree M F) : list Z := (walFile <$> rOnlyMemTable t) ++ [memTableIndex t].

Record refines (t : Tree M F) (g : gmap bytes bytes) (kvss : list (list KV)) (gs : list (gmap bytes bytes)) (gm : gmap bytes bytes) : Prop := {
  rf_mem : reps (memTable t) gm /\ good_map gm /\ msize gm <= SSTSize conf;
  rf_items : Forall2 item_is (rOnlyMemTable t) gs;
  rf_order : memCompactC t = rOnlyMemTable t;
  rf_numbers : StronglySorted Z.lt (wal_numbers t);
  rf_nodes : exists ns, nodes t = ns :: replicate (Z.to_nat (MaxLevel conf - 1)) [] /\ nodes_are (sstFiles t) 1 kvss ns;
  rf_seq : exists rest, levelToSeq t = zlen kvss :: rest;
  rf_files key : is_Some (sstFiles t !! key) -> exists s, key = (0, s) /\ 1 <= s <= zlen kvss;
  rf_filter : holds (treeFilter t) [] /\ like f0 (treeFilter t);
  rf_open : walOpen t = true;
  rf_map : g = gm ∪ (layers gs ∪ layers (layer_of <$> kvss));
  rf_wals : exists ws, walFiles t = list_to_map ws /\ ws.*1 = wal_numbers t /\ Forall2 (fun w g => wal_is w.2 g) ws (gs ++ [gm])
}.

(** What the numbers of a configuration have to be for the proofs. *)
Record good_conf : Prop := {
  gc_footer : SSTFooterSize conf = 32;
  gc_size : 0 <= SSTSize conf < 2 ^ 26;
  gc_levels : 2 <= MaxLevel conf
}.
Hypothesis Hconf : good_conf.

Lemma refines_Get t g kvss gs gm k : refines t g kvss gs gm -> tree_Get k t = Ret (Ok (g !! k)).
Proof.
  intros [(Hm & _) Hi _ _ (ns & Hns & Hna) _ _ (_ & Hlike) _ -> _]. unfold tree_Get, get_memory.
  rewrite (reps_get _ gm) by done. cbn [obind]. rewrite !lookup_union.
  destruct (gm !! k) as [v |]; [by destruct (layers gs !! k), (layers (layer_of <$> kvss) !! k) |]. cbn [obind]. rewrite (get_readonly_layers _ gs) by done. cbn [obind].
  destruct (layers gs !! k) as [v |]; [by destruct (layers (layer_of <$> kvss) !! k) |].
  unfold get_disk. rewrite Hns. cbn [index]. change (index (ns :: replicate (Z.to_nat (MaxLevel conf - 1)) []) 0) with (Ret ns). cbn [obind].
  rewrite (get_nodes_layers (sstFiles t) 1 kvss) by done. cbn [obind rmap].
  destruct (layers (layer_of <$> kvss) !! k); [done |]. change (drop 1 (ns :: replicate (Z.to_nat (MaxLevel conf - 1)) [])) with (replicate (Z.to_nat (MaxLevel conf - 1)) (@nil Node)).
  generalize (Z.to_nat (MaxLevel conf - 1)). intros n. induction n as [| n IH]; [done |]. simpl. exact IH.
Qed.

(** ** Put *)

Lemma sorted_lt_snoc (l : list Z) x y : StronglySorted Z.lt (l ++ [x]) -> x < y -> StronglySorted Z.lt ((l ++ [x]) ++ [y]).
Proof.
  intros Hs Hxy. apply StronglySorted_app_2; [| done | repeat constructor]. intros a b Ha ->%list_elem_of_singleton.
  apply elem_of_app in Ha as [Ha | ->%list_elem_of_singleton]; [| done].
  pose proof (StronglySorted_app_1_elem_of _ _ _ a x Hs Ha ltac:(by left)). lia.
Qed.
Lemma sorted_lt_NoDup (l : list Z) : StronglySorted Z.lt l -> NoDup l.
Proof. induction 1 as [| x l _ IH Hall]; constructor; [| done]. rewrite Forall_forall in Hall. intros Hx. specialize (Hall x Hx). lia. Qed.

(** The threshold of [Put], without the wrap-arounds. *)
Lemma threshold s : 0 <= s < 2 ^ 27 -> u64 (Z.quot (i64 (s * 5)) 4) = s * 5 / 4.
Proof.
  intros Hs. rewrite i64_id by lia. rewrite Z.quot_div_nonneg by lia. pose proof (Z.div_pos (s * 5) 4 ltac:(lia) ltac:(lia)).
  pose proof (Z.div_le_upper_bound (s * 5) 4 (s * 2) ltac:(lia) ltac:(lia)). apply u64_id. unfold is_u64. lia.
Qed.

Definition put_ok (k v : bytes) : Prop := good_key k /\ entry_size (k, v) < 2 ^ 26.
Definition all_ok : put_io := mkPutIo Whole None.

Lemma put_ok_fits k v : put_ok k v -> fits (k, v).
Proof.
  intros [_ Hs]. unfold fits, entry_size, maxAlloc in *. cbn [fst snd] in *. pose proof (zlen_nonneg k). pose proof (zlen_nonneg v). lia.
Qed.

Lemma refines_Put t g kvss gs gm draws k v : refines t g kvss gs gm -> put_ok k v ->
  exists t' gs' gm', tree_Put conf all_ok draws k v t = Ret (t', None) /\ refines t' (<[k := v]> g) kvss gs' gm'.
Proof.
  intros Hr [Hgk Hsz]. pose proof Hr as [(Hm & Hgood & Hms) Hi Ho Hn Hnodes Hseq Hfiles Hfil Hopen Hg (ws & Hws & Hnum & Hw)].
  unfold tree_Put. rewrite Hopen. cbn [io_write all_ok].
  destruct (reps_put draws k v _ gm Hm) as (mem & Hput & Hm').
  assert (Hsize : mt_Size mem = msize (<[k := v]> gm)).
  { destruct (reps_all _ _ Hm') as (l & _ & Hs & Hl & -> & _). by apply listing_size. }
  assert (Hb : 0 <= msize (<[k := v]> gm) < 2 ^ 27).
  { pose proof (msize_insert gm k v). pose proof (msize_nonneg (<[k := v]> gm)). destruct Hconf. lia. }
  assert (Hgood' : good_map (<[k := v]> gm)) by (by apply map_Forall_insert_2).
  apply Forall2_app_inv_r in Hw as (ws1 & ws2 & Hw1 & Hw2 & ->). apply Forall2_cons_inv_r in Hw2 as ([i body] & ws3 & Hbody & Hnil & ->).
  apply Forall2_nil_inv_r in Hnil as ->. cbn [snd] in Hbody. unfold wal_numbers in *. rewrite fmap_app in Hnum. simpl in Hnum.
  apply app_inj_tail in Hnum as [Hnum1 ->].
  assert (Hnot : memTableIndex t ∉ ws1.*1).
  { rewrite Hnum1. intros Hin. apply sorted_lt_NoDup, NoDup_app in Hn as (_ & Hd & _). apply (Hd _ Hin). by left. }
  assert (Hfile : walFiles t !! memTableIndex t = Some body).
  { rewrite Hws, list_to_map_app, lookup_union_r by (by apply not_elem_of_list_to_map). simpl. by rewrite lookup_insert_eq. }
  rewrite Hfile. cbn [default]. unfold id. destruct (Write Whole k v body) as [file err] eqn:Hwrite.
  assert (Herr : err = None) by (by injection Hwrite as _ <-). subst err.
  pose proof (wal_is_write body gm k v Hbody ltac:(by apply put_ok_fits)) as Hfile'. rewrite Hwrite in Hfile'. cbn [fst] in Hfile'.
  assert (Hws' : <[memTableIndex t := file]> (walFiles t) = list_to_map (ws1 ++ [(memTableIndex t, file)])).
  { rewrite Hws, !list_to_map_app. simpl. rewrite !insert_union_r by (by apply not_elem_of_list_to_map). by rewrite insert_insert_eq. }
  simpl. rewrite Hput. cbn [obind]. rewrite Hsize, threshold by done. case_decide as Hle.
  - eexists _, gs, (<[k := v]> gm). split; [done |]. split; simpl; try done.
    + split; [done |]. split; [done |]. etransitivity; [| exact Hle]. apply Z.div_le_lower_bound; lia.
    + by rewrite Hg, insert_union_l.
    + exists (ws1 ++ [(memTableIndex t, file)]). split; [done |]. split; [unfold wal_numbers; by rewrite fmap_app, Hnum1 |].
      apply Forall2_app; [done |]. by repeat constructor.
  - unfold refreshMemTableLocked, newMemTable. cbn [io_open all_ok]. simpl.
    eexists _, (gs ++ [<[k := v]> gm]), ∅. split; [done |]. split; simpl; try done.
    + split; [apply reps_new |]. split; [done |]. rewrite msize_empty. destruct Hconf. lia.
    + apply Forall2_app; [done |]. constructor; [| done]. split; [done |]. split; [apply insert_non_empty |]. split; [done | lia].
    + by rewrite Ho.
    + unfold wal_numbers. simpl. rewrite fmap_app. apply sorted_lt_snoc; [done | simpl; lia].
    + rewrite layers_snoc, (left_id_L ∅ (∪)), <- (assoc_L (∪)), Hg. by rewrite insert_union_l.
    + exists ((ws1 ++ [(memTableIndex t, file)]) ++ [(memTableIndex t + 1, [])]).
      assert (Hnew : memTableIndex t + 1 ∉ (ws1 ++ [(memTableIndex t, file)]).*1).
      { rewrite fmap_app, Hnum1. simpl. intros Hin. pose proof (sorted_lt_snoc _ _ (memTableIndex t + 1) Hn ltac:(lia)) as Hn'.
        apply sorted_lt_NoDup, NoDup_app in Hn' as (_ & Hd & _). apply (Hd _ Hin). by left. }
      rewrite Hws'. split; [| split].
      * rewrite (list_to_map_app (ws1 ++ [(memTableIndex t, file)])).
        pose proof (proj1 (not_elem_of_list_to_map _ _) Hnew) as Hnone. rewrite Hnone. simpl.
        rewrite <- insert_union_r by done. by rewrite (right_id_L ∅ (∪)).
      * unfold wal_numbers. simpl. by rewrite !fmap_app, Hnum1.
      * apply Forall2_app; [apply Forall2_app; [done | by repeat constructor] |]. repeat constructor. apply wal_is_nil.
Qed.

(** ** Flushing a memtable *)

Definition io_ok : compact_io := mkCompactIo (fun _ => true) (fun _ => true).

Lemma node_of_table files fw kvs fbs t r level seq size : like f0 fw -> table conf fw kvs fbs t -> src r = fin_file t -> files !! (0, seq) = Some (fin_file t) ->
  size = fin_size t -> level = 0 ->
  writable kvs /\ octets (first_key kvs) /\ List.last (first_key kvs) 0 <> 0 ->
  exists n, NewNode r level seq size (fin_blockToFilter t) (fin_index t) = Ret n /\ node_is files seq kvs n /\ sstReader n = r.
Proof.
  intros Hl Ht Hr Hf -> -> Hw. eexists. split; [by apply (NewNode_table conf fw kvs fbs) |]. split; [| done]. split; [| done | done].
  exists fw, fbs, t. done.
Qed.

Lemma index_head {A} (x : A) l : index (x :: l) 0 = Ret x.
Proof. done. Qed.

Lemma refines_flush t g kvss gs gm item items : refines t g kvss gs gm -> rOnlyMemTable t = item :: items -> zlen kvss < 2 ^ 31 - 1 ->
  exists t' kvs gs', compactMemTable conf io_ok item (t <| memCompactC := items |>) = Ret t' /\ refines t' g (kvss ++ [kvs]) gs' gm
    /\ gs = layer_of kvs :: gs' /\ memTableIndex t' = memTableIndex t.
Proof.
  intros Hr Hro Hroom. pose proof Hr as [Hmem Hi Ho Hn (ns & Hns & Hna) (rest & Hseq) Hfiles (Hh & Hlike) Hopen Hg (ws & Hws & Hnum & Hw)].
  rewrite Hro in Hi. apply Forall2_cons_inv_l in Hi as (g1 & gs1 & (Hrep & Hne & Hgood & Hms) & Hi & ->).
  unfold compactMemTable, flushMemTable. set (t0 := t <| memCompactC := items |>).
  assert (Hseq0 : levelToSeq t0 = zlen kvss :: rest) by done. rewrite Hseq0, index_head. cbn [obind io_creates io_ok].
  pose proof (zlen_nonneg kvss). rewrite i32_id by lia. set (seq := zlen kvss + 1).
  destruct (reps_all _ _ Hrep) as (kvs & Hall & Hasc & Hmap & _ & _). rewrite Hall. cbn [obind].
  destruct (listing_writable kvs g1 Hasc Hmap Hne Hgood Hms) as (Hwr & Hoct & Hlast). pose proof Hwr as (_ & Hnk & Hsome & Hsmall).
  destruct (write_table_ok (treeFilter t) conf (gc_footer Hconf) kvs Hh Hnk Hsome Hsmall) as (fin & fbs & Hwt & Ht).
  unfold write_table in Hwt. apply obind_ret_inv in Hwt as (s & Hs & Hfin).
  change (treeFilter (create_file 0 seq t0)) with (treeFilter t). rewrite Hs. cbn [obind]. unfold finish_file. rewrite Hfin. cbn [obind].
  set (t1 := set sstFiles _ _). set (t2 := set treeFilter _ t1).
  assert (Hnone : sstFiles t !! (0, seq) = None).
  { apply eq_None_not_Some. intros Hs'. apply Hfiles in Hs' as (s' & [= <-] & Hs'). unfold seq in Hs'. lia. }
  assert (Hdisk : sstFiles t2 = <[(0, seq) := fin_file fin]> (sstFiles t)).
  { unfold t2, t1, create_file. simpl. rewrite Hnone. cbn [default]. rewrite lookup_insert_eq. cbn [default]. unfold overwrite, id.
    by rewrite drop_nil, app_nil_r, insert_insert_eq. }
  unfold insertNode. cbn [io_reads io_ok]. rewrite Hdisk, lookup_insert_eq. cbn [default].
  unfold insertNodeWithReader. change (levelToSeq t2) with (levelToSeq t). rewrite Hseq, index_head. cbn [obind].
  destruct (node_of_table (sstFiles t2) (treeFilter t) kvs fbs fin (NewSSTReader (fin_file fin)) 0 seq (fin_size fin)) as (n & Hnew & Hnode & _); try done.
  { rewrite Hdisk. by rewrite lookup_insert_eq. }
  unfold id. rewrite Hnew. cbn [obind]. set (t3 := set levelToSeq _ t2). change (nodes t3) with (nodes t). rewrite Hns, index_head. cbn [obind].
  set (t4 := set nodes _ t3).
  assert (Hr4 : refines (t4 <| rOnlyMemTable := items |> <| walFiles := delete (walFile item) (walFiles t) |>) g (kvss ++ [kvs]) gs1 gm).
  { assert (Hws' : exists ws', ws.*1 = walFile item :: ws'.*1 /\ delete (walFile item) (walFiles t) = list_to_map ws' /\ ws'.*1 = (walFile <$> items) ++ [memTableIndex t]
      /\ Forall2 (fun w g => wal_is w.2 g) ws' (gs1 ++ [gm])).
    { unfold wal_numbers in *. rewrite Hro in *. destruct ws as [| [i body] ws']; [done |]. cbn [fmap list_fmap app fst] in *. injection Hnum as -> Hnum.
      exists ws'. split; [done |]. apply Forall2_cons_1 in Hw as [_ Hw]. split; [| done]. rewrite Hws. simpl. apply delete_insert_id.
      apply not_elem_of_list_to_map. rewrite Hnum. by apply sorted_lt_NoDup, NoDup_cons in Hn as [? _]. }
    destruct Hws' as (ws' & _ & Hdel & Hnum' & Hw'). split; simpl; try done.
    - unfold wal_numbers in *. rewrite Hro in Hn. simpl in Hn. by apply StronglySorted_inv in Hn as [? _].
    - exists (ns ++ [n]). split; [done |]. match goal with |- nodes_are ?f _ _ _ => change f with (sstFiles t2) end. apply nodes_are_snoc; [| by replace (1 + zlen kvss) with seq by lia].
      eapply nodes_are_files; [exact Hna |]. intros s' Hs'. rewrite Hdisk. apply lookup_insert_ne. unfold seq. intros [=]. lia.
    - exists rest. f_equal. unfold seq. autorewrite with zlen. lia.
    - intros key. match goal with |- is_Some (?f !! _) -> _ => change f with (sstFiles t2) end. rewrite Hdisk. autorewrite with zlen.
      destruct (decide (key = (0, seq))) as [-> | Hkey]; [intros _; exists seq; unfold seq; split; [done | lia] |].
      rewrite lookup_insert_ne by done. intros Hs'. apply Hfiles in Hs' as (s' & -> & Hs'). exists s'. split; [done | lia].
    - destruct (t_filter _ _ _ _ _ Ht) as [Hh' Hl']. split; [done |]. by etransitivity.
    - assert (Hl1 : layers (layer_of <$> kvss ++ [kvs]) = g1 ∪ layers (layer_of <$> kvss)).
      { rewrite fmap_app. change (layer_of <$> [kvs]) with [layer_of kvs]. rewrite layers_snoc. unfold layer_of at 1. by rewrite Hmap. }
      assert (Hl2 : layers (g1 :: gs1) = layers gs1 ∪ g1).
      { change (g1 :: gs1) with ([g1] ++ gs1). rewrite layers_app. f_equal. unfold layers. simpl. by rewrite (right_id_L ∅ (∪)). }
      rewrite Hg, Hl1, Hl2. by rewrite !(assoc_L (∪)).
    - by exists ws'. }
  (* the trigger looks at the nodes only *)
  assert (Htrig : tryTriggerCompact conf 0 t4 = Ret t4 \/ tryTriggerCompact conf 0 t4 = Ret (t4 <| levelCompactC := levelCompactC t4 ++ [0] |>)).
  { unfold tryTriggerCompact. case_decide; [by left |]. unfold t4 at 1. simpl nodes. rewrite index_head. cbn [obind]. case_decide; [by left | by right]. }
  assert (Hrec : reclaim (rOnlyMemTable t) (walFile item) = Some items) by (rewrite Hro; simpl; by rewrite decide_True).
  destruct Htrig as [-> | ->]; cbn [obind]; eexists _, kvs, gs1; (split; [done |]);
    (split; [| split; [unfold layer_of; by rewrite Hmap | done]]).
  - change (rOnlyMemTable t4) with (rOnlyMemTable t). rewrite Hrec. exact Hr4.
  - simpl. rewrite Hrec. destruct Hr4 as [G1 G2 G3 G4 G5 G6 G7 G8 G9 G10 G11]. by split.
Qed.

(** The table of a flush is on disk, and its log has not been removed yet: both
    hold the same entries, and the files still stand for the same map. *)
Lemma refines_unreclaimed t t' g kvss kvs gs gm :
  refines t g kvss (layer_of kvs :: gs) gm -> refines t' g (kvss ++ [kvs]) gs gm -> memTableIndex t' = memTableIndex t ->
  refines (t' <| rOnlyMemTable := rOnlyMemTable t |> <| memCompactC := memCompactC t |> <| walFiles := walFiles t |>)
    g (kvss ++ [kvs]) (layer_of kvs :: gs) gm.
Proof.
  intros [_ Hi Ho Hn _ _ _ _ _ Hg Hw] [Hm' _ _ _ Hns' Hseq' Hf' Hfil' Hopen' _ _] Hix.
  split; simpl; try done; [unfold wal_numbers in *; simpl; by rewrite Hix | | unfold wal_numbers in *; simpl; by rewrite Hix].
  rewrite Hg. f_equal. rewrite fmap_app. change (layer_of <$> [kvs]) with [layer_of kvs]. rewrite layers_snoc.
  change (layer_of kvs :: gs) with ([layer_of kvs] ++ gs). rewrite layers_app. unfold layers at 2 5. simpl. rewrite (right_id_L ∅ (∪)).
  rewrite <- !(assoc_L (∪)). f_equal. by rewrite (assoc_L (∪)), (idemp_L (∪)).
Qed.

(** ** Opening the tree again *)

Definition file_entry (n : Node) : (Z * Z) * bytes := ((0, n_seq n), src (sstReader n)).

Lemma nodes_entries files seq kvss ns : nodes_are files seq kvss ns ->
  StronglySorted (fun a b => a.1.2 < b.1.2) (file_entry <$> ns)
  /\ forall e, e ∈ file_entry <$> ns <-> exists s, seq <= s < seq + zlen kvss /\ e.1 = (0, s) /\ files !! (0, s) = Some e.2.
Proof.
  revert seq ns. induction kvss as [| kvs kvss IH]; intros seq [| n ns]; cbn [nodes_are]; try done.
  - intros _. split; [constructor |]. intros e. split; [by intros ?%not_elem_of_nil | intros (s & Hs & _); rewrite zlen_nil in Hs; lia].
  - intros [Hn Hns]. destruct (IH _ _ Hns) as [Hsort Hin]. pose proof (ni_seq _ _ _ _ Hn) as [_ Hseq].
    destruct (ni_table _ _ _ _ Hn) as (fw & fbs & t & _ & _ & _ & _ & Hsrc & Hf & _). rewrite zlen_cons. pose proof (zlen_nonneg kvss).
    cbn [fmap list_fmap]. split.
    + constructor; [done |]. apply Forall_forall. intros e He. apply Hin in He as (s & Hs & He1 & _). rewrite He1. cbn. rewrite Hseq. lia.
    + intros e. rewrite elem_of_cons. unfold file_entry in Hin. split.
      * intros [-> | He]; [exists seq; cbn; rewrite Hseq, Hsrc; split; [lia | done] |]. apply Hin in He as (s & ? & ?). exists s. split; [lia | done].
      * intros (s & Hs & He1 & He2). destruct (decide (s = seq)) as [-> | Hne].
        -- left. destruct e as [key body]. cbn in *. subst key. unfold file_entry. rewrite Hseq, Hsrc. congruence.
        -- right. apply Hin. exists s. split; [lia | done].
Qed.


(** Fields that loading nodes does not touch. *)
Record beside_nodes (t t' : Tree M F) : Prop := {
  bn_mem : memTable t' = memTable t;
  bn_ro : rOnlyMemTable t' = rOnlyMemTable t;
  bn_open : walOpen t' = walOpen t;
  bn_index : memTableIndex t' = memTableIndex t;
  bn_memc : memCompactC t' = memCompactC t;
  bn_ssts : sstFiles t' = sstFiles t;
  bn_wals : walFiles t' = walFiles t;
  bn_filter : treeFilter t' = treeFilter t
}.

Lemma loadNode_ok files seq kvs n (t : Tree M F) acc levels c rest : node_is files seq kvs n ->
  nodes t = acc :: levels -> levelToSeq t = c :: rest ->
  exists t' n', loadNode conf (file_entry n) t = Ret (Ok t') /\ nodes t' = (acc ++ [n']) :: levels /\ levelToSeq t' = seq :: rest
    /\ node_is files seq kvs n' /\ beside_nodes t t'.
Proof.
  intros [(fw & fbs & fin & Hfw & Ht & _ & _ & Hsrc & Hf & _) [_ Hseq] Hw] Hnodes Hlevels. pose proof Hw as ((_ & _ & _ & Hsmall) & _).
  unfold loadNode, file_entry. rewrite Hsrc, Hseq.
  assert (Hfresh : reader_of kvs fbs fin (NewSSTReader (fin_file fin))) by (by left). assert (Hop : reader_of kvs fbs fin (opened kvs fbs fin)) by (by right).
  rewrite (ReadFilter_opened fw conf (gc_footer Hconf) kvs fbs fin Ht Hsmall _ Hfresh). cbn [obind rmap].
  rewrite (ReadIndex_opened fw conf (gc_footer Hconf) kvs fbs fin Ht Hsmall _ Hop). cbn [obind rmap].
  rewrite (reader_Size_opened fw conf (gc_footer Hconf) kvs fbs fin Ht Hsmall _ Hop). cbn [obind rmap].
  destruct (node_of_table files fw kvs fbs fin (opened kvs fbs fin) 0 seq (fin_size fin)) as (n' & Hnew & Hnode & _); try done.
  rewrite (t_filters _ _ _ _ _ Ht), (t_index _ _ _ _ _ Ht) in Hnew.
  unfold insertNodeWithReader. rewrite Hlevels, index_head. cbn [obind]. rewrite Hnew. cbn [obind]. simpl nodes. rewrite Hnodes, index_head. cbn [obind].
  eexists _, n'. split; [done |]. simpl. split; [done |]. split; [done |]. split; [done | by split].
Qed.

Lemma loadNodes_ok files kvss : forall seq ns (t : Tree M F) acc levels c rest, nodes_are files seq kvss ns ->
  nodes t = acc :: levels -> levelToSeq t = c :: rest ->
  exists t' ns', loadNodes conf (file_entry <$> ns) t = Ret (Ok t') /\ nodes t' = (acc ++ ns') :: levels
    /\ levelToSeq t' = (if decide (kvss = []) then c else seq + zlen kvss - 1) :: rest
    /\ nodes_are files seq kvss ns' /\ beside_nodes t t'.
Proof.
  induction kvss as [| kvs kvss IH]; intros seq [| n ns] t acc levels c rest; cbn [nodes_are]; try done.
  - intros _ Hn Hl. exists t, []. rewrite app_nil_r. done.
  - intros [Hn Hns] Hnodes Hlevels. cbn [fmap list_fmap loadNodes].
    destruct (loadNode_ok files seq kvs n t acc levels c rest Hn Hnodes Hlevels) as (t1 & n1 & -> & Hnodes1 & Hlev1 & Hn1 & Hb1).
    cbn [obind rmap]. destruct (IH (seq + 1) ns t1 (acc ++ [n1]) levels seq rest Hns Hnodes1 Hlev1) as (t2 & ns2 & Hl & Hnodes2 & Hlev2 & Hns2 & Hb2).
    exists t2, (n1 :: ns2). split; [done |]. split; [by rewrite Hnodes2, <- app_assoc |]. split.
    + rewrite Hlev2. f_equal. rewrite zlen_cons. destruct kvss; simpl; [rewrite zlen_nil; lia | lia].
    + split; [done |]. destruct Hb1, Hb2. split; congruence.
Qed.

Lemma restore_ok draws : forall gs ws gm (t : Tree M F), Forall2 (fun w g => wal_is w.2 g) ws (gs ++ [gm]) ->
  Forall (fun g => g <> ∅ /\ good_map g /\ msize g < 2 ^ 27) gs ->
  exists t' items, restoreMemTable draws ws t = Ret (Ok t') /\ reps (memTable t') gm /\ Forall2 item_is items gs
    /\ rOnlyMemTable t' = rOnlyMemTable t ++ items /\ memCompactC t' = memCompactC t ++ items
    /\ (walFile <$> items) ++ [memTableIndex t'] = ws.*1 /\ walOpen t' = true
    /\ nodes t' = nodes t /\ levelToSeq t' = levelToSeq t /\ sstFiles t' = sstFiles t /\ walFiles t' = walFiles t /\ treeFilter t' = treeFilter t.
Proof.
  induction gs as [| g gs IH]; intros ws gm t Hw Hgs; simpl in Hw.
  - apply Forall2_cons_inv_r in Hw as ([i body] & ws' & Hb & Hnil & ->). apply Forall2_nil_inv_r in Hnil as ->. cbn [snd] in Hb.
    destruct (wal_is_restore (draws i) body gm Hb) as (mem & Hr & Hrep). cbn [restoreMemTable]. rewrite Hr. cbn [obind rmap].
    eexists _, []. split; [done |]. simpl. rewrite !app_nil_r. by split_and!.
  - apply Forall2_cons_inv_r in Hw as ([i body] & ws' & Hb & Hw & ->). cbn [snd] in Hb. apply Forall_cons in Hgs as [Hg Hgs].
    destruct (wal_is_restore (draws i) body g Hb) as (mem & Hr & Hrep). cbn [restoreMemTable]. rewrite Hr. cbn [obind rmap].
    destruct ws' as [| w ws'].
    { apply Forall2_nil_inv_l in Hw. by destruct gs. }
    destruct (IH (w :: ws') gm (t <| rOnlyMemTable := rOnlyMemTable t ++ [mkItem i mem] |> <| memCompactC := memCompactC t ++ [mkItem i mem] |>) Hw Hgs)
      as (t' & items & Hl & Hm & Hi & Hro & Hmc & Hnum & Hop & Hrest).
    exists t', (mkItem i mem :: items). split; [done |]. split; [done |]. split; [by constructor |].
    split; [rewrite Hro; simpl; by rewrite <- app_assoc |]. split; [rewrite Hmc; simpl; by rewrite <- app_assoc |].
    split; [| done]; change (i :: ((walFile <$> items) ++ [memTableIndex t']) = i :: (w :: ws').*1); by rewrite Hnum.
Qed.

(** Opening the directory of a tree gives the same map. *)
Lemma refines_restart t g kvss gs gm draws f : refines t g kvss gs gm -> holds f [] -> like f0 f ->
  exists t', NewTree conf draws f (sstFiles t) (walFiles t) = Ret (Ok t') /\ refines t' g kvss gs gm.
Proof.
  intros Hr Hf Hlf. pose proof Hr as [(Hm & Hgood & Hms) Hi Ho Hn (ns & Hns & Hna) _ Hfiles _ _ Hg (ws & Hws & Hnum & Hw)].
  unfold NewTree, constructTree. cbn [sstFiles].
  assert (Hlev : exists n, Z.to_nat (MaxLevel conf) = S n /\ Z.to_nat (MaxLevel conf - 1) = n) by (destruct Hconf; exists (Z.to_nat (MaxLevel conf - 1)); lia).
  destruct Hlev as (lv & HL1 & HL2). rewrite HL1. set (t0 := mkTree _ _ _ _ _ _ _ _ _ _ _).
  destruct (nodes_entries _ _ _ _ Hna) as [Hsort Hin].
  assert (Hentries : getSortedSSTEntries (sstFiles t) = file_entry <$> ns).
  { unfold getSortedSSTEntries. apply (merge_sort_keyed _ (fun e => e.1.2)); [done | |].
    - intros x y (s & _ & Hx & _)%Hin (s' & _ & Hy & _)%Hin. unfold entry_le, file_le. rewrite Hx, Hy. cbn. lia.
    - apply NoDup_Permutation; [apply NoDup_map_to_list | |].
      + clear -Hsort. induction (file_entry <$> ns) as [| e l IH]; [constructor |]. apply StronglySorted_inv in Hsort as [Hs Hall].
        constructor; [| by apply IH]. intros Hx. rewrite Forall_forall in Hall. specialize (Hall e Hx). simpl in Hall. lia.
      + intros [key body]. rewrite elem_of_map_to_list, Hin. cbn [fst snd]. split.
        * intros Hlk. destruct (Hfiles key) as (s & -> & Hs); [by eexists |]. exists s. split; [lia | done].
        * by intros (s & _ & -> & ?). }
  rewrite Hentries.
  destruct (loadNodes_ok (sstFiles t) kvss 1 ns t0 [] (replicate lv []) 0 (replicate lv 0) Hna eq_refl eq_refl) as (t1 & ns1 & -> & Hn1 & Hl1 & Hna1 & Hb1).
  cbn [obind rmap]. unfold constructMemtable. rewrite (bn_wals _ _ Hb1). change (walFiles t0) with (walFiles t).
  assert (Hwals : merge_sort wal_le (map_to_list (walFiles t)) = ws).
  { unfold wal_numbers in Hn. unfold wal_numbers in Hnum. rewrite <- Hnum in Hn.
    assert (Hs : StronglySorted (fun a b => a.1 < b.1) ws).
    { clear -Hn. induction ws as [| w ws IH]; [constructor |]. simpl in Hn. apply StronglySorted_inv in Hn as [Hs Hall]. constructor; [by apply IH |].
      by rewrite Forall_fmap in Hall. }
    apply (merge_sort_keyed _ fst); [done | by intros x y _ _ |]. rewrite Hws. by apply map_to_list_to_map, sorted_lt_NoDup. }
  rewrite Hwals. destruct ws as [| w ws']; [apply Forall2_nil_inv_l in Hw; by destruct gs |].
  assert (Hgs : Forall (fun g => g <> ∅ /\ good_map g /\ msize g < 2 ^ 27) gs).
  { clear -Hi. induction Hi as [| it g its gs (_ & Hg) _ IH]; by constructor. }
  destruct (restore_ok draws gs (w :: ws') gm t1 Hw Hgs) as (t2 & items & -> & Hm2 & Hi2 & Hro2 & Hmc2 & Hnum2 & Hop2 & Hn2 & Hl2 & Hs2 & Hw2 & Hf2).
  rewrite (bn_ro _ _ Hb1) in Hro2. rewrite (bn_memc _ _ Hb1) in Hmc2. change (rOnlyMemTable t2 = items) in Hro2. change (memCompactC t2 = items) in Hmc2.
  eexists. split; [done |]. split.
  - done.
  - by rewrite Hro2.
  - by rewrite Hro2, Hmc2.
  - unfold wal_numbers in *. by rewrite Hro2, Hnum2, Hnum.
  - exists ns1. rewrite Hn2, Hn1, HL2, Hs2, (bn_ssts _ _ Hb1). done.
  - exists (replicate lv 0). rewrite Hl2, Hl1. f_equal. case_decide as Hk; [by rewrite Hk | lia].
  - rewrite Hs2, (bn_ssts _ _ Hb1). exact Hfiles.
  - rewrite Hf2, (bn_filter _ _ Hb1). done.
  - done.
  - done.
  - exists (w :: ws'). rewrite Hw2, (bn_wals _ _ Hb1). split; [done |]. split; [| done]. unfold wal_numbers. by rewrite Hro2, Hnum2.
Qed.

(** An empty directory. *)
Lemma refines_new draws f : holds f [] -> like f0 f ->
  exists t, NewTree conf draws f ∅ ∅ = Ret (Ok t) /\ refines t ∅ [] [] ∅.
Proof.
  intros Hf Hlf. unfold NewTree, constructTree. cbn [sstFiles].
  assert (Hlev : exists n, Z.to_nat (MaxLevel conf) = S n /\ Z.to_nat (MaxLevel conf - 1) = n) by (destruct Hconf; exists (Z.to_nat (MaxLevel conf - 1)); lia).
  destruct Hlev as (lv & HL1 & HL2). rewrite HL1. unfold getSortedSSTEntries. rewrite map_to_list_empty. change (merge_sort entry_le []) with (@nil ((Z * Z) * bytes)). cbn [loadNodes obind rmap].
  unfold constructMemtable. cbn [walFiles]. rewrite map_to_list_empty. change (merge_sort wal_le []) with (@nil (Z * bytes)). cbv iota. eexists. split; [done |]. split; simpl; try done.
  - split; [apply reps_new |]. split; [done |]. rewrite msize_empty. destruct Hconf. lia.
  - repeat constructor.
  - exists []. by rewrite HL2.
  - by exists (replicate lv 0).
  - intros key [x Hx]. by rewrite lookup_empty in Hx.
  - exists [(0, [])]. split; [by rewrite lookup_empty |]. split; [done |]. repeat constructor. apply wal_is_nil.
Qed.
End Refines.


Section Histories.
Context {M : Type} `{MemTableSpec M} {F : Type} `{FilterSpec F} (conf : Config) (f0 : F).
Hypothesis Hconf : good_conf conf.

(** Histories without compaction: the tree with the map of what was written.
    A flush takes the oldest waiting memtable. A restart opens the files as they
    are, with no step that ends the run before it; it falls between two steps, or
    within a flush, when the table is on disk and its log not yet removed. *)
Inductive history : Tree M F -> gmap bytes bytes -> Prop :=
| h_new draws f t : holds f [] -> like f0 f -> NewTree conf draws f ∅ ∅ = Ret (Ok t) -> history t ∅
| h_put t g draws k v t' : history t g -> put_ok k v -> tree_step conf t (EPut all_ok draws k v) = Some (Ret t') ->
    history t' (<[k := v]> g)
| h_flush t g t' : history t g -> default 0 (head (levelToSeq t)) < 2 ^ 31 - 1 -> tree_step conf t (EFlush 0 io_ok) = Some (Ret t') -> history t' g
| h_restart t g draws f t' : history t g -> holds f [] -> like f0 f -> NewTree conf draws f (sstFiles t) (walFiles t) = Ret (Ok t') -> history t' g
| h_crash t g draws f t' t'' : history t g -> default 0 (head (levelToSeq t)) < 2 ^ 31 - 1 -> tree_step conf t (EFlush 0 io_ok) = Some (Ret t') ->
    holds f [] -> like f0 f -> NewTree conf draws f (sstFiles t') (walFiles t) = Ret (Ok t'') -> history t'' g.

Lemma flush_step t g kvss gs gm : refines conf f0 t g kvss gs gm -> default 0 (head (levelToSeq t)) < 2 ^ 31 - 1 ->
  tree_step conf t (EFlush 0 io_ok) = None /\ memCompactC t = []
  \/ exists t' kvss' gs', tree_step conf t (EFlush 0 io_ok) = Some (Ret t') /\ refines conf f0 t' g kvss' gs' gm
       /\ forall draws f, holds f [] -> like f0 f ->
            exists t'', NewTree conf draws f (sstFiles t') (walFiles t) = Ret (Ok t'') /\ refines conf f0 t'' g kvss' gs gm.
Proof.
  intros Hr Hroom. destruct (rf_seq _ _ _ _ _ _ _ Hr) as (rest & Hseq). rewrite Hseq in Hroom. simpl in Hroom.
  pose proof (rf_order _ _ _ _ _ _ _ Hr) as Ho. destruct (rOnlyMemTable t) as [| item items] eqn:Hro; [left; simpl; by rewrite Ho |].
  right. destruct (refines_flush conf f0 Hconf t g kvss gs gm item items Hr Hro Hroom) as (t' & kvs & gs' & Hc & Hr' & -> & Hix).
  exists t', (kvss ++ [kvs]), gs'. split; [simpl; by rewrite Ho, <- Hc |]. split; [done |]. intros draws f Hf Hl.
  pose proof (refines_unreclaimed conf f0 t t' g kvss kvs gs' gm Hr Hr' Hix) as Hu.
  destruct (refines_restart conf f0 Hconf _ _ _ _ _ draws f Hu Hf Hl) as (t'' & Hn & Hr''). eauto.
Qed.

Lemma history_refines t g : history t g -> exists kvss gs gm, refines conf f0 t g kvss gs gm.
Proof.
  induction 1 as [draws f t Hf Hl Hnew | t g draws k v t' _ (kvss & gs & gm & Hr) Hkv Hput | t g t' _ (kvss & gs & gm & Hr) Hroom Hfl
    | t g draws f t' _ (kvss & gs & gm & Hr) Hf Hl Hnew | t g draws f t' t'' _ (kvss & gs & gm & Hr) Hroom Hfl Hf Hl Hnew].
  - destruct (refines_new conf f0 Hconf draws f Hf Hl) as (t2 & Hnew' & Hr). rewrite Hnew in Hnew'. injection Hnew' as <-. by exists [], [], ∅.
  - destruct (refines_Put conf f0 Hconf t g kvss gs gm draws k v Hr Hkv) as (t2 & gs' & gm' & Hp & Hr'). simpl in Hput. rewrite Hp in Hput.
    injection Hput as <-. by exists kvss, gs', gm'.
  - destruct (flush_step t g kvss gs gm Hr Hroom) as [[Hn _] | (t2 & kvss' & gs' & Hc & Hr' & _)]; [congruence |].
    rewrite Hc in Hfl. injection Hfl as <-. by exists kvss', gs', gm.
  - destruct (refines_restart conf f0 Hconf t g kvss gs gm draws f Hr Hf Hl) as (t2 & Hnew' & Hr'). rewrite Hnew in Hnew'. injection Hnew' as <-.
    by exists kvss, gs, gm.
  - destruct (flush_step t g kvss gs gm Hr Hroom) as [[Hn _] | (t2 & kvss' & gs' & Hc & _ & Hcr)]; [congruence |].
    rewrite Hc in Hfl. injection Hfl as <-. destruct (Hcr draws f Hf Hl) as (t3 & Hnew' & Hr'). rewrite Hnew in Hnew'. injection Hnew' as <-.
    by exists kvss', gs, gm.
Qed.

(** C14: the keys written are not empty and do not end in a zero byte, an entry
    is smaller than 64 MB, the memtables are flushed in the order they were
    filled, and no level is compacted. Then after any history of puts, flushes
    and restarts, also of restarts that find the table of a flush on disk with
    its log still there, [Get] returns for every key exactly what was written
    last; no [Put] fails, a waiting memtable can be flushed, and opening the files
    again, between two steps or within a flush after its table is written,
    succeeds with the same contents. *)
Theorem lsm_is_a_map t g : history t g ->
  (forall k, tree_Get k t = Ret (Ok (g !! k)))
  /\ (forall draws k v, put_ok k v -> exists t', tree_Put conf all_ok draws k v t = Ret (t', None) /\ history t' (<[k := v]> g))
  /\ (forall draws f, holds f [] -> like f0 f -> exists t', NewTree conf draws f (sstFiles t) (walFiles t) = Ret (Ok t') /\ history t' g)
  /\ (memCompactC t <> [] -> default 0 (head (levelToSeq t)) < 2 ^ 31 - 1 ->
      exists t', tree_step conf t (EFlush 0 io_ok) = Some (Ret t') /\ history t' g
        /\ forall draws f, holds f [] -> like f0 f -> exists t'', NewTree conf draws f (sstFiles t') (walFiles t) = Ret (Ok t'') /\ history t'' g).
Proof.
  intros Hh. destruct (history_refines t g Hh) as (kvss & gs & gm & Hr). split; [| split; [| split]].
  - intros k. by eapply refines_Get.
  - intros draws k v Hkv. destruct (refines_Put conf f0 Hconf t g kvss gs gm draws k v Hr Hkv) as (t' & gs' & gm' & Hp & _).
    exists t'. split; [done |]. eapply (h_put t g draws); [done | done |]. simpl. by rewrite Hp.
  - intros draws f Hf Hl. destruct (refines_restart conf f0 Hconf t g kvss gs gm draws f Hr Hf Hl) as (t' & Hn & _).
    exists t'. split; [done | by eapply h_restart].
  - intros Hne Hroom. destruct (flush_step t g kvss gs gm Hr Hroom) as [[_ Hn] | (t' & kvss' & gs' & Hs & _ & Hcr)]; [done |].
    exists t'. split; [done |]. split; [by eapply h_flush |]. intros draws f Hf Hl. destruct (Hcr draws f Hf Hl) as (t'' & Hn & _).
    exists t''. split; [done | by eapply h_crash].
Qed.
End Histories.

(** ** Concrete runs *)

Definition small_conf : Config := mkConfig 3 8 1 4 32.
Definition empty_filter : BloomFilter := mkBloomFilter 64 [].
Definition start : outcome (result io_error (Tree Skiplist BloomFilter)) := NewTree small_conf (fun _ _ => [0]) empty_filter ∅ ∅.

(** What [Get] answers after these steps from an empty directory; every step is possible. *)
Definition after (es : list event) (k : bytes) : option (outcome (result io_error (option bytes))) :=
  match start with
  | Ret (Ok t) => match tree_run small_conf t es with Some (Ret t) => Some (tree_Get k t) | _ => None end
  | _ => None
  end.

Definition put (k : bytes) (v : bytes) : event := EPut all_ok [0] k v.
Definition flush : event := EFlush 0 io_ok.
Definition compact : event := ECompact 0 io_ok (fun _ => [0]).
(** Files can be written and not opened for reading (too many are open, say). *)
Definition blind : compact_io := mkCompactIo (fun _ => true) (fun _ => false).
Definition big (n : Z) : bytes := replicate 10 n.

Lemma small_conf_good : good_conf small_conf.
Proof. by split. Qed.

(** Compaction, with no error anywhere, changes what is read. A table is never
      put in front of the first one of its level, so the second of two tables
      written in descending order hides. Separators may undercut the last key of
      the table before, so the binary search of a level can settle on the wrong
      one of two neighbours. And an old table of level 0 that is not picked while
      a newer one is brings its values back. *)
Theorem compaction_changes_what_is_read :
  (after [put [109] (big 7); flush; compact; put [97] (big 7); flush] [97] = Some (Ret (Ok (Some (big 7))))
   /\ after [put [109] (big 7); flush; compact; put [97] (big 7); flush; compact] [97] = Some (Ret (Ok None)))
  /\ (let es := [put [97; 98] (replicate 90 7); put [99] (replicate 90 7); put [98] (replicate 90 7); flush; flush; flush] in
      after es [97; 98] = Some (Ret (Ok (Some (replicate 90 7)))) /\ after (es ++ [compact]) [97; 98] = Some (Ret (Ok None)))
  /\ (let es := [put [98] (big 7); put [120] (big 7); put [99] (big 7); put [98] [1]; put [120] [2]; put [99] [3]; put [100] [4];
                 flush; flush; flush; flush] in
      after es [120] = Some (Ret (Ok (Some [2]))) /\ after (es ++ [compact]) [120] = Some (Ret (Ok (Some (big 7))))).
Proof. vm_compute. tauto. Qed.

(** Each rotated memtable is handed over by a goroutine of its own. When a newer
    one comes first, its table gets the lower number and the older memtable is
    dropped from memory before it is on disk; then the old value is read. *)
Lemma late_flush_returns_old_value :
  after [put [97] (big 1); put [97] (big 2); EFlush 1 io_ok] [97] = Some (Ret (Ok (Some (big 2))))
  /\ after [put [97] (big 1); put [98] (big 2); EFlush 1 io_ok] [97] = Some (Ret (Ok None))
  /\ after [put [97] (big 1); put [97] (big 2); EFlush 1 io_ok; flush] [97] = Some (Ret (Ok (Some (big 1)))).
Proof. vm_compute. tauto. Qed.

(** A table that was written and cannot be opened is dropped with its log, and
    the next one takes its file. *)
Lemma unopened_table_is_lost :
  after [put [97] (big 1); EFlush 0 blind] [97] = Some (Ret (Ok None))
  /\ match start with
     | Ret (Ok t) => match tree_run small_conf t [put [97] (big 1); EFlush 0 blind; put [98] (big 2); flush] with
                     | Some (Ret t) => dom (walFiles t) = {[2]} /\ dom (sstFiles t) = {[(0, 1)]} /\ tree_Get [98] t = Ret (Ok (Some (big 2)))
                     | _ => False
                     end
     | _ => False
     end.
Proof. vm_compute. tauto. Qed.

Lemma lsm_is_a_map_witness : exists t, history small_conf empty_filter t ({[ [97] := big 2; [98] := big 1 ]} : gmap bytes bytes)
  /\ tree_Get [97] t = Ret (Ok (Some (big 2))) /\ tree_Get [99] t = Ret (Ok None).
Proof.
  assert (Hf : holds empty_filter []) by exact example_filter.
  assert (Hok : forall k v, bool_decide (k <> [] /\ Forall (fun b => 0 <= b < 256) k /\ List.last k 0 <> 0 /\ entry_size (k, v) < 2 ^ 26) = true -> put_ok k v).
  { intros k v Hd%bool_decide_eq_true_1. unfold put_ok, good_key, octets. tauto. }
  destruct (refines_new small_conf empty_filter small_conf_good (fun _ _ => [0]) empty_filter Hf ltac:(reflexivity)) as (t0 & Hnew & _).
  pose proof (h_new small_conf empty_filter _ empty_filter t0 Hf ltac:(reflexivity) Hnew) as H0.
  destruct (lsm_is_a_map small_conf empty_filter small_conf_good t0 ∅ H0) as (_ & Hput0 & _ & _).
  destruct (Hput0 [0] [97] (big 1) ltac:(apply Hok; vm_compute; reflexivity)) as (t1 & _ & H1).
  destruct (lsm_is_a_map small_conf empty_filter small_conf_good t1 _ H1) as (_ & Hput1 & _ & _).
  destruct (Hput1 [0] [98] (big 1) ltac:(apply Hok; vm_compute; reflexivity)) as (t2 & _ & H2).
  destruct (lsm_is_a_map small_conf empty_filter small_conf_good t2 _ H2) as (_ & _ & Hre2 & _).
  destruct (Hre2 (fun _ _ => [0]) empty_filter Hf ltac:(reflexivity)) as (t3 & _ & H3).
  destruct (lsm_is_a_map small_conf empty_filter small_conf_good t3 _ H3) as (_ & Hput3 & _ & _).
  destruct (Hput3 [0] [97] (big 2) ltac:(apply Hok; vm_compute; reflexivity)) as (t4 & _ & H4).
  destruct (lsm_is_a_map small_conf empty_filter small_conf_good t4 _ H4) as (Hget & _).
  exists t4. split.
  { match type of H4 with history _ _ _ ?g => replace ({[ [97] := big 2; [98] := big 1 ]} : gmap bytes bytes) with g by reflexivity end. exact H4. }
  split; rewrite Hget; reflexivity.
Defined.
