(* ===== verification/TimeWheel.v ===== *)
(** * TimeWheel
    The in-process time wheel ([time_wheel.go]): slots of tasks, a cursor, and a
    map from keys to list elements. The goroutine that owns the wheel takes one
    tick, addition or removal at a time; each is a step. Times and intervals are
    nanoseconds. *)
From S2P Require Import Prelude.
Section Wheel.
Context {A : Type}.

Record taskElement := mkTask { task : A; pos : Z; cycle : Z; key : string }.

(** A list element is a task with the number that tells it from the others. The
    pointer to it that the map holds is that number with the slot its task
    records, which is set before the task enters a list and stays. *)
Record TimeWheel := mkWheel {
  interval : Z;
  slots : list (list (nat * taskElement));
  curSlot : Z;
  keyToETask : gmap string (nat * Z);
  allocated : nat
}.
#[export] Instance eta_TimeWheel : Eta TimeWheel := fun t =>
  mkWheel (interval t) (slots t) (curSlot t) (keyToETask t) (allocated t).

Definition NewTimeWheel (slotNum interval : Z) : TimeWheel :=
  let slotNum := if decide (slotNum <= 0) then 10 else slotNum in
  let interval := if decide (interval <= 0) then 10 ^ 9 else interval in
  mkWheel interval (replicate (Z.to_nat slotNum) []) 0 ∅ 0.

(** [execute]: the elements that stay, those whose task is started, in order,
    and the keys that are left. *)
Fixpoint execute (l : list (nat * taskElement)) (keys : gmap string (nat * Z))
    : list (nat * taskElement) * list taskElement * gmap string (nat * Z) :=
  match l with
  | [] => ([], [], keys)
  | (i, e) :: l =>
      if decide (0 < cycle e) then
        let '(stay, run, keys) := execute l keys in
        ((i, mkTask (task e) (pos e) (cycle e - 1) (key e)) :: stay, run, keys)
      else
        let '(stay, run, keys) := execute l (delete (key e) keys) in
        (stay, e :: run, keys)
  end.

Definition circularIncr (t : TimeWheel) : TimeWheel := t <| curSlot := Z.rem (curSlot t + 1) (zlen (slots t)) |>.

Definition tick (t : TimeWheel) : outcome (TimeWheel * list taskElement) :=
  let! l := index (slots t) (curSlot t) in
  let '(stay, run, keys) := execute l (keyToETask t) in
  Ret (circularIncr (t <| slots := <[Z.to_nat (curSlot t) := stay]> (slots t) |> <| keyToETask := keys |>), run).

(** [time.Until] saturates. *)
Definition Until (now executeAt : Z) : Z := Z.max (- 2 ^ 63) (Z.min (2 ^ 63 - 1) (executeAt - now)).

Definition getPosAndCircle (now executeAt : Z) (t : TimeWheel) : outcome (Z * Z) :=
  let delay := Until now executeAt in
  let delay := if decide (delay < 0) then 0 else delay in
  let round := i64 (zlen (slots t) * interval t) in
  if decide (round = 0) then Panic "integer divide by zero" else
  let cycle := Z.quot delay round in
  let pos := Z.rem (i64 (curSlot t + Z.quot delay (interval t))) (zlen (slots t)) in
  Ret (pos, cycle).

Definition removeTask (k : string) (t : TimeWheel) : outcome TimeWheel :=
  match keyToETask t !! k with
  | None => Ret t
  | Some (i, p) =>
      let t := t <| keyToETask := delete k (keyToETask t) |> in
      let! l := index (slots t) p in
      Ret (t <| slots := <[Z.to_nat p := filter (fun x => x.1 <> i) l]> (slots t) |>)
  end.

Definition addTask (now : Z) (k : string) (a : A) (executeAt : Z) (t : TimeWheel) : outcome TimeWheel :=
  let! r := getPosAndCircle now executeAt t in
  let '(p, c) := r in
  let! _ := index (slots t) p in
  let! t := removeTask k t in
  let! l := index (slots t) p in
  let i := allocated t in
  Ret (t <| slots := <[Z.to_nat p := l ++ [(i, mkTask a p c k)]]> (slots t) |>
         <| keyToETask := <[k := (i, p)]> (keyToETask t) |> <| allocated := S i |>).

(** ** The loop of [run] *)

(** The clock that [addTask] reads is part of the event. *)
Inductive event :=
| Tick
| AddTask (now : Z) (k : string) (a : A) (executeAt : Z)
| RemoveTask (k : string).

Definition handle (e : event) (t : TimeWheel) : outcome (TimeWheel * list taskElement) :=
  match e with
  | Tick => tick t
  | AddTask now k a at_ => let! t := addTask now k a at_ t in Ret (t, [])
  | RemoveTask k => let! t := removeTask k t in Ret (t, [])
  end.

(** The keys and tasks started by each event. *)
Fixpoint run (es : list event) (t : TimeWheel) : outcome (TimeWheel * list (list (string * A))) :=
  match es with
  | [] => Ret (t, [])
  | e :: es =>
      let! r := handle e t in
      let '(t, started) := r in
      let! r := run es t in
      let '(t, rest) := r in
      Ret (t, ((fun e => (key e, task e)) <$> started) :: rest)
  end.

(** ** The reference: for every key its task and the ticks before it starts *)

Abbreviation schedule := (gmap string (A * Z)).

Definition due (g : schedule) : list (string * A) :=
  (fun x => (x.1, x.2.1)) <$> filter (fun x : string * (A * Z) => x.2.2 = 0) (map_to_list g).
Definition later (g : schedule) : schedule :=
  (fun x => (x.1, x.2 - 1)) <$> filter (fun x : string * (A * Z) => x.2.2 <> 0) g.

Definition ref_handle (interval : Z) (e : event) (g : schedule) : schedule * list (string * A) :=
  match e with
  | Tick => (later g, due g)
  | AddTask now k a at_ => (<[k := (a, Z.max 0 (at_ - now) / interval)]> g, [])
  | RemoveTask k => (delete k g, [])
  end.

Fixpoint ref_run (interval : Z) (es : list event) (g : schedule) : schedule * list (list (string * A)) :=
  match es with
  | [] => (g, [])
  | e :: es =>
      let '(g, started) := ref_handle interval e g in
      let '(g, rest) := ref_run interval es g in
      (g, started :: rest)
  end.
End Wheel.
Arguments taskElement A : clear implicits.
Arguments TimeWheel A : clear implicits.
Arguments event A : clear implicits.

(** ** Theorems
    The wheel implements a schedule: each task starts once, at the tick that its
    time and the interval say, whatever is added and removed meanwhile. *)
Section Facts.
Context {A : Type}.
Implicit Types (t : TimeWheel A) (g : gmap string (A * Z)) (e : taskElement A) (l : list (nat * taskElement A)).

(** An element of a slot. *)
Definition elem t (p : Z) (x : nat * taskElement A) : Prop := 0 <= p /\ exists l, slots t !! Z.to_nat p = Some l /\ x ∈ l.

(** The ticks before an element's task starts. *)
Definition left_of t e : Z := (pos e - curSlot t) mod zlen (slots t) + zlen (slots t) * cycle e.

Record wheel_ok t : Prop := {
  wo_slots : 0 < zlen (slots t) < 2 ^ 61;
  wo_cur : 0 <= curSlot t < zlen (slots t);
  wo_interval : 0 < interval t;
  wo_round : zlen (slots t) * interval t < 2 ^ 63;
  wo_ids p l : slots t !! p = Some l -> NoDup l.*1;
  wo_elem p x : elem t p x -> (x.1 < allocated t)%nat /\ pos x.2 = p /\ 0 <= cycle x.2;
  wo_keys k i p : keyToETask t !! k = Some (i, p) <-> exists e, elem t p (i, e) /\ key e = k
}.

(** The schedule that a wheel holds. *)
Definition holds_schedule t g : Prop :=
  forall k a d, g !! k = Some (a, d) <-> exists p x, elem t p x /\ key x.2 = k /\ task x.2 = a /\ left_of t x.2 = d.

Lemma elem_pos t p x : wheel_ok t -> elem t p x -> 0 <= p < zlen (slots t) /\ 0 <= left_of t x.2.
Proof.
  intros Hok He. pose proof (wo_elem _ Hok _ _ He) as (_ & _ & Hc). destruct He as [Hp (l & Hl & _)]. split.
  - split; [done |]. apply lookup_lt_Some in Hl. unfold zlen. lia.
  - unfold left_of. destruct Hok. pose proof (Z.mod_pos_bound (pos x.2 - curSlot t) (zlen (slots t)) ltac:(lia)). nia.
Qed.

Lemma NoDup_fst_inj (l : list (nat * taskElement A)) i a b : NoDup l.*1 -> (i, a) ∈ l -> (i, b) ∈ l -> a = b.
Proof.
  induction l as [| [j c] l IH]; [by intros _ ?%not_elem_of_nil |]. cbn. intros [Hj Hn]%NoDup_cons. rewrite !elem_of_cons.
  intros [Ha | Ha] [Hb | Hb]; [congruence | | | by apply IH]; simplify_eq.
  all: destruct Hj; apply list_elem_of_fmap; by eexists (_, _).
Qed.

Lemma NoDup_fst_filter (P : nat * taskElement A -> Prop) `{!forall x, Decision (P x)} (l : list (nat * taskElement A)) : NoDup l.*1 -> NoDup (filter P l).*1.
Proof.
  induction l as [| x l IH]; [done |]. rewrite fmap_cons, filter_cons. intros [Hx Hn]%NoDup_cons. case_decide; [| by apply IH]. rewrite fmap_cons. apply NoDup_cons.
  split; [| by apply IH]. intros (y & Hy & [_ Hin]%list_elem_of_filter)%list_elem_of_fmap. apply Hx, list_elem_of_fmap. by exists y.
Qed.

(** A key has one element. *)
Lemma elem_unique t p q x y : wheel_ok t -> elem t p x -> elem t q y -> key x.2 = key y.2 -> x = y /\ p = q.
Proof.
  intros Hok Hx Hy Hk. destruct x as [i a], y as [j b].
  assert (H1 : keyToETask t !! key a = Some (i, p)) by (apply (wo_keys _ Hok); by exists a).
  assert (H2 : keyToETask t !! key a = Some (j, q)) by (apply (wo_keys _ Hok); by exists b).
  rewrite H1 in H2. injection H2 as -> ->. split; [| done]. destruct Hx as [_ (l & Hl & Hx)], Hy as [_ (l' & Hl' & Hy)].
  rewrite Hl in Hl'. injection Hl' as <-. f_equal. eapply NoDup_fst_inj; [by eapply wo_ids | done | done].
Qed.

Lemma index_slot t p : 0 <= p < zlen (slots t) -> exists l, index (slots t) p = Ret l /\ slots t !! Z.to_nat p = Some l.
Proof. apply index_total. Qed.

Lemma elem_update t t' p l q x : 0 <= p < zlen (slots t) -> slots t' = <[Z.to_nat p := l]> (slots t) ->
  elem t' q x <-> q = p /\ x ∈ l \/ q <> p /\ elem t q x.
Proof.
  intros Hp Hs. unfold elem. rewrite Hs. destruct (decide (q = p)) as [-> | Hne].
  - rewrite list_lookup_insert_eq by (unfold zlen in Hp; lia). split.
    + intros (_ & l' & [= <-] & Hx). by left.
    + intros [[_ Hx] | [? _]]; [| done]. split; [lia |]. by exists l.
  - split.
    + intros [Hq Hl]. right. split; [done |]. split; [done |]. by rewrite list_lookup_insert_ne in Hl by lia.
    + intros [[? _] | (_ & Hq & Hl)]; [done |]. split; [done |]. by rewrite list_lookup_insert_ne by lia.
Qed.

Lemma slots_update_ids t t' p l : wheel_ok t -> slots t' = <[Z.to_nat p := l]> (slots t) -> NoDup l.*1 ->
  forall q l', slots t' !! q = Some l' -> NoDup l'.*1.
Proof.
  intros Hok Hs Hl q l'. rewrite Hs. intros Hq. apply list_lookup_insert_Some in Hq as [(_ & <- & _) | [_ Hq]]; [done | by eapply wo_ids].
Qed.

(** ** Removing *)

Lemma removeTask_ok t g k : wheel_ok t -> holds_schedule t g -> exists t', removeTask k t = Ret t' /\ wheel_ok t' /\ holds_schedule t' (delete k g)
  /\ interval t' = interval t /\ curSlot t' = curSlot t /\ zlen (slots t') = zlen (slots t) /\ keyToETask t' !! k = None.
Proof.
  intros Hok Hg. unfold removeTask. destruct (keyToETask t !! k) as [[i p] |] eqn:Hk.
  - pose proof Hk as (e & He & Hke)%(wo_keys _ Hok). pose proof (elem_pos _ _ _ Hok He) as [Hp _].
    destruct (index_slot t p Hp) as (l & Hix & Hl). change (slots (t <| keyToETask := delete k (keyToETask t) |>)) with (slots t). rewrite Hix. cbn [obind].
    eexists. split; [done |]. set (t' := set slots _ _).
    assert (Hs : slots t' = <[Z.to_nat p := filter (fun x => x.1 <> i) l]> (slots t)) by done.
    assert (Helem : forall q x, elem t' q x <-> elem t q x /\ key x.2 <> k).
    { intros q x. rewrite (elem_update t t' p _ q x Hp Hs), list_elem_of_filter. split.
      - intros [(-> & Hx & Hin) | (Hq & Hx)].
        + split; [split; [lia | by exists l] |]. intros Hkx. apply Hx.
          destruct (elem_unique t p p x (i, e) Hok) as [-> _]; [split; [lia | by exists l] | done | by rewrite Hkx | done].
        + split; [done |]. intros Hkx. destruct (elem_unique t q p x (i, e) Hok) as [_ ->]; [done | done | by rewrite Hkx | done].
      - intros [Hx Hkx]. destruct (decide (q = p)) as [-> |]; [left | by right]. split; [done |].
        pose proof Hx as [_ (l' & Hl' & Hin)]. rewrite Hl in Hl'. injection Hl' as <-. split; [| done]. intros Hi.
        destruct x as [j b]. cbn in Hi. subst j. destruct He as [_ (l' & Hl' & He)]. rewrite Hl in Hl'. injection Hl' as <-.
        rewrite (NoDup_fst_inj l i b e) in Hkx; [done | by eapply wo_ids | done | done]. }
    assert (Hlen : zlen (slots t') = zlen (slots t)) by (unfold zlen; rewrite Hs; by rewrite length_insert).
    split; [| split; [| split_and!; [done | done | done | by apply lookup_delete_eq]]].
    + destruct Hok. split; rewrite ?Hlen; try done.
      * intros q l'. eapply (slots_update_ids t t'); [by split | done |]. apply NoDup_fst_filter. by eapply wo_ids0.
      * intros q x [Hx _]%Helem. by apply wo_elem0.
      * intros k' j q. change (keyToETask t') with (delete k (keyToETask t)). rewrite lookup_delete_Some, wo_keys0. setoid_rewrite Helem. naive_solver.
    + intros k' a d. pose proof (Hg k' a d) as Hgk. rewrite lookup_delete_Some, Hgk. setoid_rewrite Helem.
      assert (Hleft : forall e, left_of t' e = left_of t e) by (intros; unfold left_of; by rewrite Hlen). setoid_rewrite Hleft. naive_solver.
  - eexists. split; [done |]. split; [done |]. split; [| done]. rewrite delete_id; [done |].
    destruct (g !! k) as [[a d] |] eqn:Hgk; [| done]. apply Hg in Hgk as (p & x & Hx & Hkx & _).
    assert (keyToETask t !! k = Some (x.1, p)) by (apply (wo_keys _ Hok); exists x.2; by destruct x). congruence.
Qed.

(** ** Adding *)

Lemma getPosAndCircle_ok t now at_ : wheel_ok t -> at_ - now < 2 ^ 62 -> exists p c, getPosAndCircle now at_ t = Ret (p, c)
  /\ 0 <= p < zlen (slots t) /\ 0 <= c /\ (p - curSlot t) mod zlen (slots t) + zlen (slots t) * c = Z.max 0 (at_ - now) / interval t.
Proof.
  intros [Hn Hc Hi Hr _ _ _] Ht. unfold getPosAndCircle.
  assert (Hd : (if decide (Until now at_ < 0) then 0 else Until now at_) = Z.max 0 (at_ - now)).
  { unfold Until. case_decide; lia. }
  rewrite Hd. set (D := Z.max 0 (at_ - now)) in *. assert (HD : 0 <= D < 2 ^ 62) by lia. set (n := zlen (slots t)) in *. set (i := interval t) in *.
  assert (Hni : 0 < n * i) by nia. rewrite i64_id by lia. rewrite decide_False by lia.
  assert (Hq : 0 <= D / i <= D) by (split; [apply Z.div_pos; lia | apply Z.div_le_upper_bound; nia]).
  rewrite !Z.quot_div_nonneg by lia. rewrite i64_id by lia. rewrite Z.rem_mod_nonneg by lia.
  eexists _, _. split; [done |]. split; [apply Z.mod_pos_bound; lia |]. split; [apply Z.div_pos; lia |].
  rewrite Zminus_mod_idemp_l, (Z.mul_comm n i), <- Z.div_div by lia. replace (curSlot t + D / i - curSlot t) with (D / i) by lia.
  pose proof (Z.div_mod (D / i) n ltac:(lia)). lia.
Qed.

Lemma addTask_ok t g now k a at_ : wheel_ok t -> holds_schedule t g -> at_ - now < 2 ^ 62 ->
  exists t', addTask now k a at_ t = Ret t' /\ wheel_ok t' /\ holds_schedule t' (<[k := (a, Z.max 0 (at_ - now) / interval t)]> g)
    /\ interval t' = interval t.
Proof.
  intros Hok Hg Ht. unfold addTask. destruct (getPosAndCircle_ok t now at_ Hok Ht) as (p & c & -> & Hp & Hc & Hleft). cbn [obind].
  destruct (index_slot t p Hp) as (l0 & -> & _). cbn [obind].
  destruct (removeTask_ok t g k Hok Hg) as (t1 & -> & Hok1 & Hg1 & Hi1 & Hc1 & Hn1 & Hk1). cbn [obind]. rewrite <- Hn1 in Hp.
  destruct (index_slot t1 p Hp) as (l & -> & Hl). cbn [obind]. eexists. split; [done |]. set (new := (allocated t1, mkTask a p c k)). set (t' := set allocated _ _).
  assert (Hs : slots t' = <[Z.to_nat p := l ++ [new]]> (slots t1)) by done.
  assert (Hlen : zlen (slots t') = zlen (slots t1)) by (unfold zlen; rewrite Hs; by rewrite length_insert).
  assert (Helem : forall q x, elem t' q x <-> elem t1 q x \/ q = p /\ x = new).
  { intros q x. rewrite (elem_update t1 t' p _ q x Hp Hs), elem_of_app, list_elem_of_singleton. split; [intros [(-> & [Hx | ->]) | [_ Hx]]; auto |].
    - left. split; [lia | by exists l].
    - intros [Hx | [-> ->]]; [| by auto]. destruct (decide (q = p)) as [-> |]; [left | by right]. split; [done |]. left.
      destruct Hx as [_ (l' & Hl' & Hx)]. rewrite Hl in Hl'. by injection Hl' as <-. }
  assert (Hnokey : forall q x, elem t1 q x -> key x.2 <> k).
  { intros q x Hx Hkx. assert (keyToETask t1 !! k = Some (x.1, q)) by (apply (wo_keys _ Hok1); exists x.2; by destruct x). congruence. }
  split; [| split; [| done]].
  - destruct Hok1. split; rewrite ?Hlen; try done.
    + intros q l'. eapply (slots_update_ids t1 t'); [by split | done |]. rewrite fmap_app. apply NoDup_app. split; [by eapply wo_ids0 |]. split; [| apply NoDup_singleton].
      intros j (x & Hj & Hx)%list_elem_of_fmap Hj'%list_elem_of_singleton. destruct (wo_elem0 p x) as [Hlt _]; [split; [lia | by exists l] |]. cbn in Hj'. lia.
    + intros q x [Hx | [-> ->]]%Helem; [| cbn; split; [lia | done]]. destruct (wo_elem0 q x Hx) as (? & ? & ?). split; [| done]. cbn. lia.
    + intros k' j q. change (keyToETask t') with (<[k := (allocated t1, p)]> (keyToETask t1)). rewrite lookup_insert_Some, wo_keys0. setoid_rewrite Helem. split.
      * intros [[<- [= <- <-]] | [Hne (e & He & Hke)]]; [exists (mkTask a p c k); by auto | exists e; by auto].
      * intros (e & [He | [-> [= -> ->]]] & Hke); [right | by left; cbn in Hke; subst]. split; [| by exists e]. intros <-. by apply (Hnokey q (j, e)).
  - intros k' b d. pose proof (Hg1 k' b d) as Hgk. rewrite <- insert_delete_eq, lookup_insert_Some, Hgk. setoid_rewrite Helem.
    assert (Hl' : forall e, left_of t' e = left_of t1 e) by (intros; unfold left_of; by rewrite Hlen). setoid_rewrite Hl'.
    assert (Hnew : left_of t1 (mkTask a p c k) = Z.max 0 (at_ - now) / interval t) by (unfold left_of; cbn [pos cycle]; by rewrite Hc1, Hn1). split.
    + intros [[<- [= <- <-]] | [Hne (q & x & Hx & Hrest)]]; [exists p, new; by auto | exists q, x; by auto].
    + intros (q & x & [Hx | [-> ->]] & <- & <- & <-); [right | left; by rewrite <- Hnew]. split; [| by eauto 6]. intros ->. by apply (Hnokey q x).
Qed.

(** ** A tick *)

Definition older (x : nat * taskElement A) : nat * taskElement A := (x.1, mkTask (task x.2) (pos x.2) (cycle x.2 - 1) (key x.2)).

Lemma execute_eq l keys : execute l keys =
  (older <$> filter (fun x => 0 < cycle x.2) l, snd <$> filter (fun x => ~ 0 < cycle x.2) l,
   foldl (fun m e => delete (key e) m) keys (snd <$> filter (fun x => ~ 0 < cycle x.2) l)).
Proof.
  revert keys. induction l as [| [i e] l IH]; intros keys; [done |]. cbn [execute]. rewrite !filter_cons. cbn [snd].
  destruct (decide (0 < cycle e)) as [Hc | Hc].
  - rewrite IH. rewrite (decide_False (P := ~ 0 < cycle e)) by tauto. done.
  - rewrite IH. rewrite (decide_True (P := ~ 0 < cycle e)) by done. done.
Qed.

Lemma delete_all_lookup (run : list (taskElement A)) (keys : gmap string (nat * Z)) k v :
  foldl (fun m e => delete (key e) m) keys run !! k = Some v <-> keys !! k = Some v /\ k ∉ key <$> run.
Proof.
  revert keys. induction run as [| e run IH]; intros keys; cbn [foldl fmap list_fmap].
  - split; [intros; split; [done | apply not_elem_of_nil] | tauto].
  - rewrite IH, lookup_delete_Some, not_elem_of_cons. naive_solver.
Qed.

Lemma mod_pred z n : 0 < n -> (z - 1) mod n = if decide (z mod n = 0) then n - 1 else z mod n - 1.
Proof.
  intros Hn. pose proof (Z.div_mod z n ltac:(lia)). pose proof (Z.mod_pos_bound z n Hn). case_decide as Hz.
  - symmetry. apply (Z.mod_unique _ _ (z / n - 1)); lia.
  - symmetry. apply (Z.mod_unique _ _ (z / n)); lia.
Qed.

(** Every element that is not started is one tick nearer. *)
Lemma left_step n cur p c : 0 < n -> 0 <= p < n -> 0 <= cur < n ->
  (p - Z.rem (cur + 1) n) mod n + n * (if decide (p = cur) then c - 1 else c) = (p - cur) mod n + n * c - 1.
Proof.
  intros Hn Hp Hc. rewrite Z.rem_mod_nonneg by lia. rewrite Zminus_mod_idemp_r. replace (p - (cur + 1)) with (p - cur - 1) by lia. rewrite mod_pred by done.
  destruct (decide (p = cur)) as [-> | Hne].
  - rewrite Z.sub_diag, Z.mod_0_l, decide_True by lia. lia.
  - rewrite decide_False; [lia |]. intros Hz. apply Z.mod_divide in Hz as [q Hq]; [| lia]. assert (q = 0) by nia. lia.
Qed.

Lemma due_in g k a : (k, a) ∈ due g <-> g !! k = Some (a, 0).
Proof.
  unfold due. rewrite list_elem_of_fmap. split.
  - intros ([k' [a' d]] & [= -> ->] & [Hd Hin]%list_elem_of_filter). cbn in Hd. subst d. by apply elem_of_map_to_list in Hin.
  - intros Hg. exists (k, (a, 0)). split; [done |]. apply list_elem_of_filter. split; [done |]. by apply elem_of_map_to_list.
Qed.
Lemma due_NoDup g : NoDup (due g).
Proof.
  unfold due. apply (NoDup_fmap_1 fst). rewrite <- list_fmap_compose. unfold compose. cbn [fst].
  assert (Hk : NoDup (map_to_list g).*1) by apply NoDup_fst_map_to_list. revert Hk. generalize (map_to_list g). intros l Hk.
  induction l as [| x l IH]; [constructor |]. rewrite filter_cons. cbn in Hk. apply NoDup_cons in Hk as [Hx Hl]. case_decide; [| by apply IH].
  rewrite fmap_cons. apply NoDup_cons. split; [| by apply IH]. intros (y & Hy & [_ Hin]%list_elem_of_filter)%list_elem_of_fmap. apply Hx, list_elem_of_fmap. by exists y.
Qed.
Lemma later_lookup g k a d : later g !! k = Some (a, d) <-> g !! k = Some (a, d + 1) /\ d + 1 <> 0.
Proof.
  unfold later. rewrite lookup_fmap_Some. split.
  - intros ([a' d'] & [= <- <-] & [Hg Hd]%map_lookup_filter_Some). cbn in Hd. by replace (d' - 1 + 1) with d' by lia.
  - intros [Hg Hd]. exists (a, d + 1). split; [cbn; do 2 f_equal; lia |]. by apply map_lookup_filter_Some.
Qed.

(** The elements after a tick. *)
Lemma tick_eq t : wheel_ok t -> exists t' l run, tick t = Ret (t', run) /\ slots t !! Z.to_nat (curSlot t) = Some l
  /\ run = snd <$> filter (fun x => ~ 0 < cycle x.2) l
  /\ slots t' = <[Z.to_nat (curSlot t) := older <$> filter (fun x => 0 < cycle x.2) l]> (slots t)
  /\ curSlot t' = Z.rem (curSlot t + 1) (zlen (slots t)) /\ interval t' = interval t /\ allocated t' = allocated t
  /\ keyToETask t' = foldl (fun m e => delete (key e) m) (keyToETask t) run.
Proof.
  intros Hok. destruct (index_slot t (curSlot t) (wo_cur _ Hok)) as (l & Hix & Hl). unfold tick. rewrite Hix. cbn [obind]. rewrite execute_eq.
  eexists _, l, _. split; [done |]. split; [done |]. split; [done |]. split; [done |]. split; [| done].
  cbn. f_equal. unfold zlen. by rewrite length_insert.
Qed.

Lemma tick_elem t t' l : wheel_ok t -> slots t !! Z.to_nat (curSlot t) = Some l ->
  slots t' = <[Z.to_nat (curSlot t) := older <$> filter (fun x => 0 < cycle x.2) l]> (slots t) ->
  forall q x, elem t' q x <-> exists y, elem t q y /\ left_of t y.2 <> 0 /\ x = (if decide (q = curSlot t) then older y else y).
Proof.
  intros Hok Hl Hs q x. rewrite (elem_update t t' (curSlot t) _ q x (wo_cur _ Hok) Hs).
  assert (Hz : forall y, elem t q y -> left_of t y.2 <> 0 <-> q <> curSlot t \/ 0 < cycle y.2).
  { intros y Hy. destruct (wo_elem _ Hok _ _ Hy) as (_ & Hp & Hc). destruct (elem_pos _ _ _ Hok Hy) as [Hq _]. destruct Hok. unfold left_of. rewrite Hp.
    pose proof (left_step (zlen (slots t)) (curSlot t) q (cycle y.2) ltac:(lia) Hq wo_cur0) as Hstep.
    pose proof (Z.mod_pos_bound (q - curSlot t) (zlen (slots t)) ltac:(lia)). pose proof (Z.mod_pos_bound (q - Z.rem (curSlot t + 1) (zlen (slots t))) (zlen (slots t)) ltac:(lia)).
    destruct (decide (q = curSlot t)) as [-> | Hne]; [rewrite Z.sub_diag, Z.mod_0_l by lia; nia |]. split; [by left |]. intros _. nia. }
  destruct (decide (q = curSlot t)) as [-> | Hne].
  - split.
    + intros [(_ & (y & -> & [Hy Hin]%list_elem_of_filter)%list_elem_of_fmap) | [? _]]; [| done].
      assert (elem t (curSlot t) y) by (split; [apply (wo_cur _ Hok) | by exists l]). exists y. split; [done |]. rewrite Hz by done. by auto.
    + intros (y & Hy & Hn & ->). left. split; [done |]. apply Hz in Hn as [? | Hn]; [done | | done]. apply list_elem_of_fmap. exists y. split; [done |].
      apply list_elem_of_filter. split; [done |]. destruct Hy as [_ (l' & Hl' & Hy)]. rewrite Hl in Hl'. by injection Hl' as <-.
  - split.
    + intros [[? _] | [_ Hx]]; [done |]. exists x. split; [done |]. rewrite Hz by done. by auto.
    + intros (y & Hy & _ & ->). by right.
Qed.

(** Who is started. *)
Lemma tick_run t l e : wheel_ok t -> slots t !! Z.to_nat (curSlot t) = Some l ->
  e ∈ (snd <$> filter (fun x => ~ 0 < cycle x.2) l) <-> exists p i, elem t p (i, e) /\ left_of t e = 0.
Proof.
  intros Hok Hl. pose proof (wo_cur _ Hok). pose proof (wo_slots _ Hok). rewrite list_elem_of_fmap. split.
  - intros ([i e'] & -> & [Hc Hin]%list_elem_of_filter). exists (curSlot t), i. assert (He : elem t (curSlot t) (i, e')) by (split; [lia | by exists l]).
    split; [done |]. destruct (wo_elem _ Hok _ _ He) as (_ & Hp & Hc'). cbn in *. unfold left_of. rewrite Hp, Z.sub_diag, Z.mod_0_l by lia. nia.
  - intros (p & i & He & Hz). destruct (wo_elem _ Hok _ _ He) as (_ & Hp & Hc'). cbn in *. destruct (elem_pos _ _ _ Hok He) as [Hq _]. unfold left_of in Hz. rewrite Hp in Hz.
    pose proof (Z.mod_pos_bound (p - curSlot t) (zlen (slots t)) ltac:(lia)). assert (Hm : (p - curSlot t) mod zlen (slots t) = 0) by nia.
    apply Z.mod_divide in Hm as [q Hm]; [| lia]. assert (q = 0) by nia. assert (p = curSlot t) as -> by lia.
    exists (i, e). split; [done |]. destruct He as [_ (l' & Hl' & He)]. rewrite Hl in Hl'. injection Hl' as <-. apply list_elem_of_filter. split; [cbn; nia | done].
Qed.

Lemma started_keys t l : wheel_ok t -> slots t !! Z.to_nat (curSlot t) = Some l -> NoDup (key <$> (snd <$> filter (fun x => ~ 0 < cycle x.2) l)).
Proof.
  intros Hok Hl.
  assert (Hnd : NoDup l.*1) by (by eapply wo_ids). assert (Hin : forall x, x ∈ filter (fun x => ~ 0 < cycle x.2) l -> elem t (curSlot t) x).
  { intros x [_ Hx]%list_elem_of_filter. split; [apply (wo_cur _ Hok) | by exists l]. }
  apply (NoDup_fst_filter (fun x => ~ 0 < cycle x.2)) in Hnd. revert Hnd Hin. generalize (filter (fun x => ~ 0 < cycle x.2) l). intros l'.
  induction l' as [| x l' IH]; [constructor |]. rewrite !fmap_cons. intros [Hx Hnd]%NoDup_cons Hin. apply NoDup_cons. split; [| apply IH; [done | intros; apply Hin; by right]].
  intros (e & Hke & (y & -> & Hy)%list_elem_of_fmap)%list_elem_of_fmap.
  destruct (elem_unique t (curSlot t) (curSlot t) x y Hok) as [-> _]; [apply Hin; by left | apply Hin; by right | done |]. apply Hx, list_elem_of_fmap. by exists y.
Qed.

Lemma tick_ok t g : wheel_ok t -> holds_schedule t g ->
  exists t' run, tick t = Ret (t', run) /\ wheel_ok t' /\ holds_schedule t' (later g) /\ interval t' = interval t
    /\ (fun e => (key e, task e)) <$> run ≡ₚ due g.
Proof.
  intros Hok Hg. destruct (tick_eq t Hok) as (t' & l & run & Ht & Hl & Hrun & Hs & Hcur & Hi & Ha & Hkeys). exists t', run. split; [done |].
  assert (Hlen : zlen (slots t') = zlen (slots t)) by (unfold zlen; rewrite Hs; by rewrite length_insert).
  pose proof (tick_elem t t' l Hok Hl Hs) as Helem. pose proof (fun e => tick_run t l e Hok Hl) as Hstart. rewrite <- Hrun in Hstart.
  assert (Hleft : forall q y, elem t q y -> left_of t' (if decide (q = curSlot t) then older y else y).2 = left_of t y.2 - 1).
  { intros q y Hy. destruct (wo_elem _ Hok _ _ Hy) as (_ & Hp & _). destruct (elem_pos _ _ _ Hok Hy) as [Hq _]. unfold left_of. rewrite Hlen, Hcur.
    pose proof (left_step (zlen (slots t)) (curSlot t) q (cycle y.2) ltac:(lia) Hq (wo_cur _ Hok)) as Hstep.
    case_decide; cbn [older snd pos cycle]; rewrite Hp; exact Hstep. }
  assert (Hkey : forall q (y : nat * taskElement A), (if decide (q = curSlot t) then older y else y).1 = y.1 /\ key (if decide (q = curSlot t) then older y else y).2 = key y.2
    /\ task (if decide (q = curSlot t) then older y else y).2 = task y.2 /\ pos (if decide (q = curSlot t) then older y else y).2 = pos y.2) by (intros; by case_decide).
  split; [| split; [| split; [done |]]].
  - pose proof Hok as [G1 G2 G3 G4 G5 G6 G7]. split; rewrite ?Hlen, ?Hi; try done.
    + rewrite Hcur. apply Z.rem_bound_pos; lia.
    + intros q l'. eapply (slots_update_ids t t'); [done | done |]. rewrite <- list_fmap_compose.
      change (NoDup ((filter (fun x => 0 < cycle x.2) l).*1)). apply NoDup_fst_filter. by eapply G5.
    + intros q x (y & Hy & Hn & ->)%Helem. destruct (Hkey q y) as (-> & _ & _ & Hp'). rewrite Hp', Ha. destruct (G6 q y Hy) as (? & ? & ?). split_and!; [done | done |].
      case_decide as Hq; [| done]. cbn. assert (cycle y.2 <> 0); [| lia]. intros Hc. apply Hn. unfold left_of. rewrite Hc, H0, Hq, Z.sub_diag, Z.mod_0_l by lia. lia.
    + intros k i q. rewrite Hkeys, delete_all_lookup, G7. split.
      * intros [(e & He & <-) Hnot]. assert (Hn : left_of t e <> 0).
        { intros Hz. apply Hnot, list_elem_of_fmap. exists e. split; [done |]. apply Hstart. by exists q, i. }
        exists (if decide (q = curSlot t) then older (i, e) else (i, e)).2. split; [| apply (Hkey q (i, e))]. apply Helem. exists (i, e). split; [done |]. split; [done |].
        by case_decide.
      * intros (e & (y & Hy & Hn & Heq)%Helem & <-). destruct (Hkey q y) as (H1 & H2 & _). rewrite <- Heq in H1, H2. cbn in H1, H2. destruct y as [j b]. cbn in H1, H2, Hn. subst j.
        split; [by exists b |]. intros (e' & He' & (p' & i' & Hin & Hz)%Hstart)%list_elem_of_fmap.
        destruct (elem_unique t p' q (i', e') (i, b) Hok Hin Hy) as [[= -> ->] _]; [cbn; congruence | done].
  - intros k a d. rewrite later_lookup. pose proof (Hg k a (d + 1)) as Hgk. rewrite Hgk. split.
    + intros [(p & y & Hy & <- & <- & Hd) Hne]. exists p, (if decide (p = curSlot t) then older y else y). destruct (Hkey p y) as (_ & -> & -> & _).
      split; [apply Helem; exists y; split_and!; [done | lia | done] |]. split_and!; [done | done |]. rewrite Hleft by done. lia.
    + intros (p & x & (y & Hy & Hn & ->)%Helem & <- & <- & <-). rewrite (Hleft p y Hy). destruct (Hkey p y) as (_ & -> & -> & _). split; [| lia].
      exists p, y. split_and!; [done | done | done | lia].
  - apply NoDup_Permutation; [| apply due_NoDup |].
    + apply (NoDup_fmap_1 fst). rewrite <- list_fmap_compose. change (NoDup (key <$> run)). rewrite Hrun. by apply (started_keys t).
    + intros [k a]. pose proof (Hg k a 0) as Hgk. rewrite due_in, Hgk, list_elem_of_fmap. split.
      * intros (e & [= -> ->] & (p & i & He & Hz)%Hstart). exists p, (i, e). done.
      * intros (p & [i e] & He & <- & <- & Hz). exists e. split; [done |]. apply Hstart. by exists p, i.
Qed.

(** ** Runs *)

(** Deadlines within 146 years of the moment they are given. *)
Definition event_ok (ev : event A) : Prop :=
  match ev with AddTask now _ _ at_ => at_ - now < 2 ^ 62 | _ => True end.

Lemma handle_ok t g ev : wheel_ok t -> holds_schedule t g -> event_ok ev ->
  exists t' started, handle ev t = Ret (t', started) /\ wheel_ok t' /\ holds_schedule t' (ref_handle (interval t) ev g).1 /\ interval t' = interval t
    /\ (fun e => (key e, task e)) <$> started ≡ₚ (ref_handle (interval t) ev g).2.
Proof.
  intros Hok Hg Hev. destruct ev as [| now k a at_ | k]; cbn [handle ref_handle fst snd].
  - by apply tick_ok.
  - destruct (addTask_ok t g now k a at_ Hok Hg Hev) as (t' & -> & Hok' & Hg' & Hi). cbn [obind]. by eexists t', [].
  - destruct (removeTask_ok t g k Hok Hg) as (t' & -> & Hok' & Hg' & Hi & _). cbn [obind]. by eexists t', [].
Qed.

Lemma run_ok es : forall t g, wheel_ok t -> holds_schedule t g -> Forall event_ok es ->
  exists t' outs, run es t = Ret (t', outs) /\ wheel_ok t' /\ holds_schedule t' (ref_run (interval t) es g).1
    /\ Forall2 (≡ₚ) outs (ref_run (interval t) es g).2.
Proof.
  induction es as [| ev es IH]; intros t g Hok Hg Hes; [by eexists t, [] |]. apply Forall_cons in Hes as [Hev Hes].
  destruct (handle_ok t g ev Hok Hg Hev) as (t1 & started & Hh & Hok1 & Hg1 & Hi1 & Hp). cbn [run ref_run]. rewrite Hh. cbn [obind].
  destruct (ref_handle (interval t) ev g) as [g1 started1]. cbn [fst snd] in *.
  destruct (IH t1 g1 Hok1 Hg1 Hes) as (t' & outs & -> & Hok' & Hg' & Hf). cbn [obind]. rewrite Hi1 in *. destruct (ref_run (interval t) es g1) as [g' rest].
  eexists t', _. split; [done |]. split; [done |]. split; [done |]. by constructor.
Qed.

Definition sizes_ok (slotNum interval : Z) : Prop := slotNum < 2 ^ 30 /\ interval < 2 ^ 33.

Lemma NewTimeWheel_ok slotNum i : sizes_ok slotNum i -> wheel_ok (NewTimeWheel (A := A) slotNum i) /\ holds_schedule (NewTimeWheel (A := A) slotNum i) ∅.
Proof.
  intros [Hs Hi]. unfold NewTimeWheel. set (n := if decide (slotNum <= 0) then 10 else slotNum). set (v := if decide (i <= 0) then 10 ^ 9 else i).
  assert (Hn : 0 < n < 2 ^ 30) by (unfold n; case_decide; lia). assert (Hv : 0 < v < 2 ^ 33) by (unfold v; case_decide; lia).
  set (t := mkWheel _ _ _ _ _). assert (Hlen : zlen (slots t) = n) by (unfold t, zlen; cbn; rewrite length_replicate; lia).
  assert (Hno : forall p x, ~ elem t p x).
  { intros p x [_ (l & Hl & Hx)]. apply lookup_replicate in Hl as [-> _]. by apply not_elem_of_nil in Hx. }
  split.
  - split; rewrite ?Hlen; unfold t; cbn [curSlot interval slots keyToETask]; try lia; try nia.
    + intros p l Hl. apply lookup_replicate in Hl as [-> _]. constructor.
    + by intros p x Hx%Hno.
    + intros k j p. rewrite lookup_empty. split; [done |]. by intros (e & He%Hno & _).
  - intros k a d. rewrite lookup_empty. split; [done |]. by intros (p & x & Hx%Hno & _).
Qed.
End Facts.

Section Theorems.
Context {A : Type}.

(** C28: Under any sequence of ticks, additions and removals the wheel starts, at
    each tick, exactly the tasks that the schedule has for it: a task waits
    for as many further ticks as its delay has whole intervals, one added
    again under its key replaces the earlier one, a removed one is never
    started, and no slot or division ever panics. *)
Theorem time_wheel_keeps_schedule slotNum i (es : list (event A)) : sizes_ok slotNum i -> Forall event_ok es ->
  exists t outs, run es (NewTimeWheel slotNum i) = Ret (t, outs)
    /\ Forall2 (≡ₚ) outs (ref_run (if decide (i <= 0) then 10 ^ 9 else i) es ∅).2
    /\ holds_schedule t (ref_run (if decide (i <= 0) then 10 ^ 9 else i) es ∅).1.
Proof.
  intros Hs Hes. destruct (NewTimeWheel_ok (A := A) slotNum i Hs) as [Hok Hg].
  destruct (run_ok es _ _ Hok Hg Hes) as (t & outs & Hr & _ & Hg' & Hf). by exists t, outs.
Qed.

(** ** When a task starts *)

(** Events that leave a key alone. *)
Definition leaves (k : string) (ev : event A) : Prop :=
  match ev with Tick => True | AddTask _ k' _ _ | RemoveTask k' => k' <> k end.

Fixpoint ticks (es : list (event A)) : Z :=
  match es with [] => 0 | Tick :: es => 1 + ticks es | _ :: es => ticks es end.

Lemma ticks_nonneg es : 0 <= ticks es.
Proof. induction es as [| [| | ] es IH]; cbn [ticks]; lia. Qed.

Lemma due_keys (g : gmap string (A * Z)) k : k ∈ (due g).*1 <-> exists a, g !! k = Some (a, 0).
Proof.
  rewrite list_elem_of_fmap. split; [intros ([k' a] & -> & Hin%due_in); by exists a | intros [a Hg%due_in]; by exists (k, a)].
Qed.

Lemma ref_absent i es (g : gmap string (A * Z)) k j out : Forall (leaves k) es -> g !! k = None -> (ref_run i es g).2 !! j = Some out -> k ∉ out.*1.
Proof.
  revert g j. induction es as [| ev es IH]; intros g j Hes Hk; [done |]. apply Forall_cons in Hes as [Hev Hes]. cbn [ref_run].
  assert (Hh : (ref_handle i ev g).1 !! k = None /\ k ∉ (ref_handle i ev g).2.*1).
  { destruct ev as [| now k' a at_ | k']; cbn in *; (split; [| try apply not_elem_of_nil]).
    - apply eq_None_not_Some. intros [[a d] [Hg _]%later_lookup]. congruence.
    - intros [a Hg]%due_keys. congruence.
    - by rewrite lookup_insert_ne.
    - by rewrite lookup_delete_ne. }
  destruct (ref_handle i ev g) as [g1 s1]. destruct (ref_run i es g1) as [g2 rest] eqn:Hr. destruct j as [| j]; cbn.
  - intros [= <-]. apply Hh.
  - intros Hj. apply (IH g1 j); [done | apply Hh |]. by rewrite Hr.
Qed.

Lemma ref_starts i es (g : gmap string (A * Z)) k a d j out : Forall (leaves k) es -> g !! k = Some (a, d) -> 0 <= d ->
  (ref_run i es g).2 !! j = Some out -> k ∈ out.*1 <-> es !! j = Some Tick /\ ticks (take j es) = d.
Proof.
  revert g d j. induction es as [| ev es IH]; intros g d j Hes Hk Hd; [done |]. apply Forall_cons in Hes as [Hev Hes]. cbn [ref_run].
  destruct (ref_handle i ev g) as [g1 s1] eqn:Hh. destruct (ref_run i es g1) as [g2 rest] eqn:Hr. destruct j as [| j]; cbn [snd lookup list_lookup take].
  - intros [= <-]. destruct ev as [| now k' b at_ | k']; cbn in Hh; injection Hh as <- <-.
    + rewrite due_keys. cbn. split; [intros (b & Hb); split; [done | congruence] | intros [_ <-]; by exists a].
    + split; [intros Hin; by apply not_elem_of_nil in Hin | by intros [? _]].
    + split; [intros Hin; by apply not_elem_of_nil in Hin | by intros [? _]].
  - intros Hj. assert (Hj' : (ref_run i es g1).2 !! j = Some out) by (by rewrite Hr). destruct ev as [| now k' b at_ | k']; cbn in Hh; injection Hh as <- <-.
    + cbn [ticks]. destruct (decide (d = 0)) as [-> | Hne].
      * split; [| pose proof (ticks_nonneg (take j es)); lia]. intros Hin. exfalso. eapply (ref_absent i es (later g) k); [done | | exact Hj' | done].
        apply eq_None_not_Some. intros [[b e] [Hb Hn]%later_lookup]. rewrite Hk in Hb. injection Hb as _ He. lia.
      * rewrite (IH (later g) (d - 1) j Hes); [| apply later_lookup; split; [by replace (d - 1 + 1) with d by lia | lia] | lia | exact Hj'].
        split; intros [? ?]; (split; [done | lia]).
    + apply (IH (<[k' := (b, Z.max 0 (at_ - now) / i)]> g) d j Hes); [by rewrite lookup_insert_ne | done | done].
    + apply (IH (delete k' g) d j Hes); [by rewrite lookup_delete_ne | done | done].
Qed.

(** C29: A task added to the wheel that is neither removed nor replaced starts
    at one tick only; while the ticker is punctual that tick is less than one
    interval before its time and at most one interval after. *)
Theorem task_starts_once_on_time slotNum i es now k a at_ es' first : sizes_ok slotNum i -> 0 < i ->
  Forall event_ok es -> event_ok (AddTask now k a at_) -> Forall event_ok es' -> Forall (leaves k) es' ->
  now <= at_ -> now <= first <= now + i ->
  exists t outs, run (es ++ AddTask now k a at_ :: es') (NewTimeWheel slotNum i) = Ret (t, outs)
    /\ forall j out, outs !! (length es + S j)%nat = Some out ->
       (k ∈ out.*1 <-> es' !! j = Some Tick /\ ticks (take j es') = (at_ - now) / i)
       /\ (k ∈ out.*1 -> at_ - i < first + ticks (take j es') * i <= at_ + i).
Proof.
  intros Hs Hi Hes Hev Hes' Hl Hat Hfirst. destruct (NewTimeWheel_ok (A := A) slotNum i Hs) as [Hok Hg].
  destruct (run_ok (es ++ AddTask now k a at_ :: es') _ _ Hok Hg) as (t & outs & Hr & _ & _ & Hf); [by rewrite Forall_app, Forall_cons |].
  exists t, outs. split; [done |]. intros j out Hj.
  assert (Hint : interval (NewTimeWheel (A := A) slotNum i) = i) by (cbn; by rewrite decide_False by lia). rewrite Hint in Hf.
  apply (Forall2_lookup_l _ _ _ _ _ Hf) in Hj as (out' & Hout' & Hperm).
  assert (Hsplit : forall es0 (g : gmap string (A * Z)) n, (ref_run i (es0 ++ es') g).2 !! (length es0 + n)%nat = (ref_run i es' (ref_run i es0 g).1).2 !! n).
  { induction es0 as [| e0 es0 IH]; intros g n; [done |]. cbn [ref_run app length Nat.add]. destruct (ref_handle i e0 g) as [g1 s1]. specialize (IH g1 n).
    destruct (ref_run i (es0 ++ es') g1), (ref_run i es0 g1). exact IH. }
  specialize (Hsplit (es ++ [AddTask now k a at_]) ∅ j). rewrite <- app_assoc, length_app in Hsplit. cbn [app length] in Hsplit.
  replace (length es + 1 + j)%nat with (length es + S j)%nat in Hsplit by lia. rewrite Hout' in Hsplit. symmetry in Hsplit.
  assert (Hhas : (ref_run i (es ++ [AddTask now k a at_]) ∅).1 !! k = Some (a, (at_ - now) / i)).
  { generalize (∅ : gmap string (A * Z)). clear -Hat. induction es as [| e0 es IH]; intros g; cbn [ref_run app].
    - cbn. rewrite lookup_insert_eq. by rewrite Z.max_r by lia.
    - destruct (ref_handle i e0 g) as [g1 s1]. specialize (IH g1). by destruct (ref_run i (es ++ [AddTask now k a at_]) g1). }
  pose proof (ref_starts i es' _ k a _ j out' Hl Hhas ltac:(apply Z.div_pos; lia) Hsplit) as Hiff.
  assert (Hkeys : k ∈ out.*1 <-> k ∈ out'.*1) by (by rewrite Hperm). rewrite Hkeys, Hiff. split; [done |]. intros [_ ->].
  pose proof (Z.div_mod (at_ - now) i ltac:(lia)). pose proof (Z.mod_pos_bound (at_ - now) i Hi). lia.
Qed.
End Theorems.

Lemma time_wheel_keeps_schedule_witness : exists t outs,
  run [AddTask 0 "a"%string 1 25; AddTask 0 "b"%string 2 5; Tick; RemoveTask "c"%string; Tick; Tick] (NewTimeWheel 2 10) = Ret (t, outs)
  /\ ((fun l => length l) <$> outs) = [0; 0; 1; 0; 0; 1]%nat.
Proof.
  destruct (time_wheel_keeps_schedule 2 10 [AddTask 0 "a"%string 1 25; AddTask 0 "b"%string 2 5; Tick; RemoveTask "c"%string; Tick; Tick])
    as (t & outs & Hr & _).
  - split; lia.
  - repeat constructor; cbn; lia.
  - exists t, outs. split; [exact Hr |]. vm_compute in Hr. injection Hr as <- <-. reflexivity.
Defined.

Lemma task_starts_once_on_time_witness : exists t outs out,
  run ([Tick] ++ AddTask 100 "a"%string 1 125 :: [Tick; Tick; RemoveTask "b"%string; Tick; Tick]) (NewTimeWheel 2 10) = Ret (t, outs)
  /\ outs !! 5%nat = Some out /\ "a"%string ∈ out.*1.
Proof.
  destruct (task_starts_once_on_time 2 10 [Tick] 100 "a"%string 1 125 [Tick; Tick; RemoveTask "b"%string; Tick; Tick] 103) as (t & outs & Hr & Hall).
  - split; lia.
  - lia.
  - by repeat constructor.
  - cbn. lia.
  - by repeat constructor.
  - by repeat constructor.
  - lia.
  - lia.
  - destruct (outs !! 5%nat) as [out |] eqn:Ho.
    { exists t, outs, out. split; [exact Hr |]. split; [exact Ho |]. apply (Hall 3%nat out Ho). split; reflexivity. }
    exfalso. vm_compute in Hr. injection Hr as <- <-. discriminate Ho.
Defined.
