(* ===== verification/GoTime.v ===== *)
(** * GoTime
    The calendar of Go's [time] package: instants as nanoseconds since the
    beginning of the year 1 in UTC, locations as lists of changes of the offset,
    and the functions [Date], [Truncate], [Year] and so on. *)
From S2P Require Import Prelude.
(** ** Days *)

Definition is_leap (y : Z) : Prop := y mod 4 = 0 /\ (y mod 100 <> 0 \/ y mod 400 = 0).
#[export] Instance is_leap_dec y : Decision (is_leap y).
Proof. unfold is_leap. apply _. Defined.

(** Days before the first of January of a year. *)
Definition days_before (y : Z) : Z := 365 * (y - 1) + (y - 1) / 4 - (y - 1) / 100 + (y - 1) / 400.

Definition month_lengths (y : Z) : list Z :=
  [31; if decide (is_leap y) then 29 else 28; 31; 30; 31; 30; 31; 31; 30; 31; 30; 31].

(** Days of the year before the first of a month, 1 to 12. *)
Fixpoint month_start (ms : list Z) (m : nat) : Z :=
  match m, ms with
  | S m, x :: ms => x + month_start ms m
  | _, _ => 0
  end.

(** The month that a day of the year is in, and its day of the month, from 0. *)
Fixpoint find_month (ms : list Z) (d : Z) : nat * Z :=
  match ms with
  | [] => (O, d)
  | x :: ms => if decide (d < x) then (O, d) else let '(m, d) := find_month ms (d - x) in (S m, d)
  end.

(** The year is within one of what the mean length of a year gives. *)
Definition year_of (day : Z) : Z :=
  let y := day * 400 / 146097 + 1 in
  if decide (day < days_before y) then y - 1 else if decide (days_before (y + 1) <= day) then y + 1 else y.

Definition day_of_year (day : Z) : Z := day - days_before (year_of day).
Definition month_of (day : Z) : Z := Z.of_nat (find_month (month_lengths (year_of day)) (day_of_year day)).1 + 1.
Definition mday_of (day : Z) : Z := (find_month (month_lengths (year_of day)) (day_of_year day)).2 + 1.
(** The first of January of the year 1 is a Monday. *)
Definition weekday_of (day : Z) : Z := (day + 1) mod 7.

(** [Date] normalises the month; a day out of its month runs on. *)
Definition day_of (y m d : Z) : Z :=
  let y' := y + (m - 1) / 12 in
  days_before y' + month_start (month_lengths y') (Z.to_nat ((m - 1) mod 12)) + (d - 1).

(** ** Locations *)

(** The offset at first, and the moments, in seconds of UTC, at which it changes. *)
Record Location := mkLocation { zone0 : Z; transitions : list (Z * Z) }.

(** [lookup]: the offset in force, and when that begins and ends. *)
Fixpoint lookup_from (start : option Z) (offset : Z) (tr : list (Z * Z)) (sec : Z) : Z * option Z * option Z :=
  match tr with
  | [] => (offset, start, None)
  | (w, o) :: tr => if decide (sec < w) then (offset, start, Some w) else lookup_from (Some w) o tr sec
  end.
Definition zone_lookup (l : Location) (sec : Z) : Z * option Z * option Z := lookup_from None (zone0 l) (transitions l) sec.
Definition offset_at (l : Location) (sec : Z) : Z := (zone_lookup l sec).1.1.

(** ** Instants *)

Definition Second : Z := 10 ^ 9.
Definition Minute : Z := 60 * Second.
Definition Hour : Z := 60 * Minute.

Section In.
Context (l : Location).

(** The seconds that the clocks show at an instant. *)
Definition local (t : Z) : Z := t / Second + offset_at l (t / Second).
Definition Year (t : Z) : Z := year_of (local t / 86400).
Definition Month (t : Z) : Z := month_of (local t / 86400).
Definition Day (t : Z) : Z := mday_of (local t / 86400).
Definition Weekday (t : Z) : Z := weekday_of (local t / 86400).
Definition HourOf (t : Z) : Z := local t mod 86400 / 3600.
Definition MinuteOf (t : Z) : Z := local t mod 3600 / 60.

(** [time.Date]: first the offset at the same number of seconds of UTC is tried,
    then, if that leaves its period, the one in force there. *)
Definition Date (y m d h mi s : Z) : Z :=
  let sec := day_of y m d * 86400 + h * 3600 + mi * 60 + s in
  let '(offset, start, end_) := zone_lookup l sec in
  let utc := sec - offset in
  let inside := match start with Some b => bool_decide (b <= utc) | None => true end
    && match end_ with Some e => bool_decide (utc < e) | None => true end in
  if decide (offset = 0) then sec * Second
  else if inside then utc * Second else (sec - offset_at l utc) * Second.

(** [AddDate]; the time of day stays. *)
Definition AddDate (t years months days : Z) : Z :=
  Date (Year t + years) (Month t + months) (Day t + days) (HourOf t) (MinuteOf t) (local t mod 60) + t mod Second.
End In.

(** [Truncate], for a duration that is a divisor of the day. *)
Definition Truncate (t d : Z) : Z := t - t mod d.

Example date_example : day_of 2026 9 10 mod 7 = 3 /\ year_of (day_of 2026 9 10) = 2026 /\ month_of (day_of 2026 9 10) = 9 /\ mday_of (day_of 2026 9 10) = 10
  /\ weekday_of (day_of 2026 9 10) = 4 /\ mday_of (day_of 2024 3 0) = 29.
Proof. vm_compute. tauto. Qed.

(** ** Facts
    The calendar is consistent: dates and days are inverse to each other, and
    in a location without changes of its offset so are clock times and instants. *)
Ltac dlia := Z.div_mod_to_equations; lia.

(** ** Years *)

Lemma year_length y : days_before (y + 1) - days_before y = 365 + (if decide (is_leap y) then 1 else 0).
Proof. unfold days_before, is_leap. replace (y + 1 - 1) with y by lia. case_decide; dlia. Qed.

Lemma days_before_lt y z : y < z -> days_before y < days_before z.
Proof. unfold days_before. intros. dlia. Qed.

Lemma year_of_spec n : days_before (year_of n) <= n < days_before (year_of n + 1).
Proof.
  unfold year_of. set (y := n * 400 / 146097 + 1).
  assert (H : days_before (y - 1) <= n < days_before (y + 2)) by (unfold y, days_before; dlia).
  case_decide; [replace (y - 1 + 1) with y by lia; lia |]. case_decide; [replace (y + 1 + 1) with (y + 2) by lia; lia | lia].
Qed.

Lemma year_of_unique n y : days_before y <= n < days_before (y + 1) -> year_of n = y.
Proof.
  intros Hy. pose proof (year_of_spec n) as Hs. destruct (Z.lt_trichotomy (year_of n) y) as [Hlt | [? | Hgt]]; [| done |].
  - destruct (decide (year_of n + 1 = y)) as [He |]; [rewrite He in Hs; lia | pose proof (days_before_lt (year_of n + 1) y ltac:(lia)); lia].
  - destruct (decide (y + 1 = year_of n)) as [He |]; [rewrite He in Hy; lia | pose proof (days_before_lt (y + 1) (year_of n) ltac:(lia)); lia].
Qed.

(** ** Months *)

Fixpoint total (ms : list Z) : Z := match ms with [] => 0 | x :: ms => x + total ms end.

Lemma year_total y : total (month_lengths y) = days_before (y + 1) - days_before y.
Proof. rewrite year_length. unfold month_lengths. cbn [total]. case_decide; reflexivity. Qed.

Lemma find_month_spec ms d : Forall (fun x => 0 < x) ms -> 0 <= d < total ms -> ((find_month ms d).1 < length ms)%nat /\
  (find_month ms d).2 = d - month_start ms (find_month ms d).1 /\ 0 <= (find_month ms d).2 < default 0 (ms !! (find_month ms d).1).
Proof.
  revert d. induction ms as [| x ms IH]; intros d Hms Hd; [cbn in Hd; lia |]. apply Forall_cons in Hms as [Hx Hms]. cbn [find_month total] in *.
  case_decide; [cbn; lia |]. destruct (IH (d - x) Hms ltac:(lia)) as (H1 & H2 & H3). destruct (find_month ms (d - x)) as [m r].
  cbn in *. split; [lia |]. split; [lia | done].
Qed.

Lemma find_month_unique ms m d : Forall (fun x => 0 < x) ms -> (m < length ms)%nat -> month_start ms m <= d < month_start ms m + default 0 (ms !! m) ->
  find_month ms d = (m, d - month_start ms m).
Proof.
  revert m d. induction ms as [| x ms IH]; intros m d Hms Hm Hd; [cbn in Hm; lia |]. apply Forall_cons in Hms as [Hx Hms].
  assert (Hpos : forall k, 0 <= month_start ms k).
  { clear -Hms. induction Hms as [| z ms Hz _ IH]; intros [| k]; cbn; try lia. specialize (IH k). lia. }
  cbn [find_month]. destruct m as [| m].
  { change ((x :: ms) !! 0%nat) with (Some x) in Hd. cbn [month_start default] in *. unfold id in Hd. rewrite decide_True by lia. f_equal. lia. }
  change ((x :: ms) !! S m) with (ms !! m) in Hd. cbn [month_start length] in *. specialize (Hpos m).
  assert (0 <= d - x) by (destruct (ms !! m); cbn in Hd; lia). rewrite decide_False by lia. rewrite (IH m (d - x) Hms) by lia. f_equal. lia.
Qed.

Lemma month_start_next ms m : (m < length ms)%nat -> month_start ms (S m) = month_start ms m + default 0 (ms !! m).
Proof.
  revert m. induction ms as [| x ms IH]; intros m Hm; [cbn in Hm; lia |]. destruct m as [| m]; [change (x + month_start ms 0 = 0 + x); destruct ms; cbn [month_start]; lia |].
  change ((x :: ms) !! S m) with (ms !! m). change (month_start (x :: ms) (S (S m))) with (x + month_start ms (S m)).
  change (month_start (x :: ms) (S m)) with (x + month_start ms m). cbn [length] in Hm. rewrite IH by lia. lia.
Qed.

Lemma month_lengths_pos y : Forall (fun x => 0 < x) (month_lengths y).
Proof. unfold month_lengths. case_decide; repeat constructor. Qed.
Lemma month_lengths_length y : length (month_lengths y) = 12%nat.
Proof. done. Qed.

(** ** Dates *)

Lemma month_of_range n : 1 <= month_of n <= 12.
Proof.
  unfold month_of, day_of_year. pose proof (year_of_spec n). pose proof (year_total (year_of n)).
  destruct (find_month_spec (month_lengths (year_of n)) (n - days_before (year_of n)) (month_lengths_pos _) ltac:(lia)) as (H1 & _).
  rewrite month_lengths_length in H1. lia.
Qed.

Lemma day_of_normal y m d : 1 <= m <= 12 -> day_of y m d = days_before y + month_start (month_lengths y) (Z.to_nat (m - 1)) + (d - 1).
Proof. intros Hm. unfold day_of. rewrite Z.div_small, Z.mod_small by lia. by rewrite Z.add_0_r. Qed.

Lemma day_of_date n : day_of (year_of n) (month_of n) (mday_of n) = n.
Proof.
  rewrite day_of_normal by apply month_of_range. unfold month_of, mday_of, day_of_year. pose proof (year_of_spec n). pose proof (year_total (year_of n)).
  destruct (find_month_spec (month_lengths (year_of n)) (n - days_before (year_of n)) (month_lengths_pos _) ltac:(lia)) as (_ & H2 & _).
  replace (Z.to_nat _) with (find_month (month_lengths (year_of n)) (n - days_before (year_of n))).1 by lia. lia.
Qed.

Lemma day_of_next y m d : day_of y m (d + 1) = day_of y m d + 1.
Proof. unfold day_of. lia. Qed.

(** A month is an interval of days. *)
Lemma month_start_12 y : month_start (month_lengths y) 12 = total (month_lengths y).
Proof. unfold month_lengths. cbn. case_decide; reflexivity. Qed.

Lemma next_month_normal y m : 1 <= m <= 12 -> day_of y (m + 1) 1 = days_before y + month_start (month_lengths y) (Z.to_nat m).
Proof.
  intros Hm. destruct (decide (m = 12)) as [-> |].
  - change (Z.to_nat 12) with 12%nat. rewrite month_start_12, year_total. unfold day_of. change ((12 + 1 - 1) / 12) with 1. change (Z.to_nat ((12 + 1 - 1) mod 12)) with 0%nat. cbn [month_start]. destruct (month_lengths (y + 1)); cbn; lia.
  - rewrite day_of_normal by lia. replace (m + 1 - 1) with m by lia. lia.
Qed.

Lemma in_month n y m : 1 <= m <= 12 -> day_of y m 1 <= n < day_of y (m + 1) 1 <-> year_of n = y /\ month_of n = m.
Proof.
  intros Hm. rewrite next_month_normal, day_of_normal by done. set (ms := month_lengths y). set (k := Z.to_nat (m - 1)).
  assert (Hk : (k < 12)%nat) by lia. replace (Z.to_nat m) with (S k) by lia. rewrite month_start_next by done.
  pose proof (month_lengths_pos y) as Hpos. split.
  - intros Hn. assert (Hy : year_of n = y).
    { apply year_of_unique. pose proof (year_total y) as Ht. rewrite <- month_start_12 in Ht. fold ms in Ht, Hpos.
      assert (Hmono : forall j, (j <= 12)%nat -> 0 <= month_start ms j /\ month_start ms (S j) <= month_start ms 12 \/ j = 12%nat).
      { intros j Hj. destruct (decide (j = 12%nat)); [by right | left]. do 12 (destruct j as [| j]; [unfold ms, month_lengths; cbn; case_decide; lia |]). lia. }
      destruct (Hmono k ltac:(lia)) as [[H1 H2] | ?]; [| lia]. rewrite month_start_next in H2 by done. lia. }
    split; [done |]. unfold month_of, day_of_year. rewrite Hy. fold ms. rewrite (find_month_unique ms k) by (done || lia). cbn. lia.
  - intros [Hy Hmo]. pose proof (year_of_spec n) as Hs. pose proof (year_total (year_of n)) as Ht.
    destruct (find_month_spec (month_lengths (year_of n)) (n - days_before (year_of n)) (month_lengths_pos _) ltac:(lia)) as (_ & H2 & H3).
    unfold month_of, day_of_year in Hmo. rewrite Hy in *. fold ms in Hmo, H2, H3.
    replace (find_month ms (n - days_before y)).1 with k in * by lia. lia.
Qed.
