(* ===== verification/CronParser.v ===== *)
(** * CronParser
    Cron expressions of five fields ([timer_demo/pkg/cron/parser.go]): the parser
    and the search for the next minute that matches. A [for] loop without a bound
    takes fuel here; CronTheorems says how much is enough, and where none is. *)
From S2P Require Import Prelude GoStrings GoNumbers GoTime.
Local Open Scope string_scope.
Local Open Scope Z_scope.

(** The errors, with what their texts are made of. *)
Inductive part_error :=
| InvalidStep (s : string)
| InvalidRangeStart (s : string)
| InvalidRangeEnd (s : string)
| RangeOutOfBounds (start end_ min max : Z)
| InvalidValue (s : string)
| ValueOutOfBounds (v min max : Z)
| EmptyField.
Inductive cron_error :=
| WrongFieldCount (n : Z)
| InvalidField (name field : string) (e : part_error)
| EndBeforeStart
| NoNextTime.

(** ** Parsing *)

(** [rangeList]; the addition wraps. Values lie between 0 and 59, so 200 rounds
    are enough for every step. *)
Fixpoint range_from (fuel : nat) (i end_ step : Z) : outcome (list Z) :=
  if decide (i <= end_) then
    match fuel with
    | O => Panic "rangeList: out of fuel"
    | S fuel => let! rest := range_from fuel (i64 (i + step)) end_ step in Ret (i :: rest)
    end
  else Ret [].
Definition rangeList (start end_ step : Z) : outcome (list Z) := range_from 200 start end_ step.

Definition parsePart (part : string) (min max : Z) : outcome (result part_error (list Z)) :=
  let '(before, after, ok) := Cut part "/"%char in
  let rangePart := if ok : bool then before else part in
  let '(s, err) := Atoi after in
  if ok && negb (bool_decide (err = None) && bool_decide (0 < s)) then Ret (Err (InvalidStep after)) else
  let step := if ok : bool then s else 1 in
  if decide (rangePart = "*") then (let! l := rangeList min max step in Ret (Ok l)) else
  let '(lo, hi, ok) := Cut rangePart "-"%char in
  if ok : bool then
    let '(start, err) := Atoi lo in
    if decide (err <> None) then Ret (Err (InvalidRangeStart lo)) else
    let '(end_, err) := Atoi hi in
    if decide (err <> None) then Ret (Err (InvalidRangeEnd hi)) else
    if decide (start < min \/ max < end_ \/ end_ < start) then Ret (Err (RangeOutOfBounds start end_ min max))
    else (let! l := rangeList start end_ step in Ret (Ok l))
  else
    let '(val, err) := Atoi rangePart in
    if decide (err <> None) then Ret (Err (InvalidValue rangePart)) else
    if decide (val < min \/ max < val) then Ret (Err (ValueOutOfBounds val min max)) else
    if decide (1 < step) then (let! l := rangeList val max step in Ret (Ok l)) else Ret (Ok [val]).

(** New values go to the end. *)
Definition merge_values (result vals : list Z) : list Z :=
  foldl (fun r v => if decide (v ∈ r) then r else (r ++ [v])%list) result vals.

Fixpoint parse_parts (parts : list string) (min max : Z) (acc : list Z) : outcome (result part_error (list Z)) :=
  match parts with
  | [] => Ret (Ok acc)
  | part :: parts =>
      let! r := parsePart part min max in
      match r with
      | Err e => Ret (Err e)
      | Ok vals => parse_parts parts min max (merge_values acc vals)
      end
  end.

Definition parseField (field : string) (min max : Z) : outcome (result part_error (list Z * bool)) :=
  if decide (field = "*") then (let! l := rangeList min max 1 in Ret (Ok (l, true))) else
  let '(before, _, ok) := Cut field "/"%char in
  let rangePart := if ok : bool then before else field in
  let wildCard := bool_decide (rangePart = "*") in
  let! r := parse_parts (Split field ","%char) min max [] in
  Ret (match r with
       | Err e => Err e
       | Ok [] => Err EmptyField
       | Ok l => Ok (l, wildCard)
       end).

Record cronSchedule := mkSchedule {
  minute : list Z;
  hour : list Z;
  dayOfMonth : list Z;
  month : list Z;
  dayOfWeek : list Z;
  domWildCard : bool;
  dowWildCard : bool
}.

(** A field of the expression under its name. *)
Definition named_field {A} (name field : string) (min max : Z) (k : list Z -> bool -> outcome (result cron_error A)) : outcome (result cron_error A) :=
  let! r := parseField field min max in
  match r with
  | Err e => Ret (Err (InvalidField name field e))
  | Ok (l, wild) => k l wild
  end.

Definition parseCronExpr (expr : string) : outcome (result cron_error cronSchedule) :=
  match Fields expr with
  | [f0; f1; f2; f3; f4] =>
      named_field "minute" f0 0 59 (fun minute _ =>
      named_field "hour" f1 0 23 (fun hour _ =>
      named_field "day-of-month" f2 1 31 (fun dayOfMonth domWild =>
      named_field "month" f3 1 12 (fun month _ =>
      named_field "day-of-week" f4 0 6 (fun dayOfWeek dowWild =>
      Ret (Ok (mkSchedule minute hour dayOfMonth month dayOfWeek domWild dowWild)))))))
  | l => Ret (Err (WrongFieldCount (zlen l)))
  end.

Definition IsValidCronExpr (expr : string) : outcome bool :=
  let! r := parseCronExpr expr in Ret (match r with Ok _ => true | Err _ => false end).

(** ** The next time *)

Definition contains (slice : list Z) (val : Z) : bool := bool_decide (val ∈ slice).

Section Schedule.
Context (l : Location) (s : cronSchedule).

Definition dayMatches (t : Z) : bool :=
  if domWildCard s && dowWildCard s then true
  else if domWildCard s then contains (dayOfWeek s) (Weekday l t)
  else if dowWildCard s then contains (dayOfMonth s) (Day l t)
  else contains (dayOfMonth s) (Day l t) || contains (dayOfWeek s) (Weekday l t).

(** One round of the loop of [Next]: the result, or the time to go on with. *)
Definition next_step (lastYear t : Z) : Z + Z :=
  if decide (lastYear < Year l t) then inl 0 else
  if negb (contains (month s) (Month l t)) then inr (AddDate l (Date l (Year l t) (Month l t) 1 0 0 0) 0 1 0) else
  if negb (dayMatches t) then inr (AddDate l (Date l (Year l t) (Month l t) (Day l t) 0 0 0) 0 0 1) else
  if negb (contains (hour s) (HourOf l t)) then inr (Date l (Year l t) (Month l t) (Day l t) (HourOf l t) 0 0 + Hour) else
  if negb (contains (minute s) (MinuteOf l t)) then inr (Date l (Year l t) (Month l t) (Day l t) (HourOf l t) (MinuteOf l t) 0 + Minute) else
  inl t.

Fixpoint next_loop (fuel : nat) (lastYear t : Z) : option Z :=
  match fuel with
  | O => None
  | S fuel => match next_step lastYear t with inl r => Some r | inr t => next_loop fuel lastYear t end
  end.

(** [Next]; zero is the time that [IsZero] tells. *)
Definition Next (fuel : nat) (t : Z) : option Z := next_loop fuel (Year l t + 5) (Truncate t Minute + Minute).
End Schedule.

(** ** The methods of [CronParser] *)

Definition NextAfter (fuel : nat) (l : Location) (expr : string) (after : Z) : outcome (option (result cron_error Z)) :=
  let! r := parseCronExpr expr in
  match r with
  | Err e => Ret (Some (Err e))
  | Ok s => Ret (match Next l s fuel after with
                 | None => None
                 | Some next => Some (if decide (next = 0) then Err NoNextTime else Ok next)
                 end)
  end.

(** The loop of [NextsBetween]; its fuel bounds each search and the number of them. *)
Fixpoint nexts_loop (rounds fuel : nat) (l : Location) (s : cronSchedule) (cur end_ : Z) : option (result cron_error (list Z)) :=
  if decide (cur < end_) then
    match rounds with
    | O => None
    | S rounds =>
        match Next l s fuel cur with
        | None => None
        | Some next =>
            if decide (next = 0) then Some (Err NoNextTime)
            else if decide (end_ <= next) then Some (Ok [])
            else match nexts_loop rounds fuel l s next end_ with
                 | Some (Ok nexts) => Some (Ok (next :: nexts))
                 | r => r
                 end
        end
    end
  else Some (Ok []).

Definition NextsBetween (rounds fuel : nat) (l : Location) (expr : string) (start end_ : Z) : outcome (option (result cron_error (list Z))) :=
  if decide (end_ < start) then Ret (Some (Err EndBeforeStart)) else
  let! r := parseCronExpr expr in
  match r with
  | Err e => Ret (Some (Err e))
  | Ok s => Ret (nexts_loop rounds fuel l s start end_)
  end.

(** The cases of the program's own tests. *)
Definition UTC : Location := mkLocation 0 [].
Definition at_ (y m d h mi s : Z) : Z := Date UTC y m d h mi s.
Example valid_exprs : forallb (fun e => bool_decide (IsValidCronExpr e = Ret true))
  ["* * * * *"; "*/5 * * * *"; "0 0 1 1 *"; "1,2,3 * * * *"; "1-5 8-18 * * 1-5"; "0-30/5 * * * *"] = true.
Proof. vm_compute. reflexivity. Qed.
Example invalid_exprs : forallb (fun e => bool_decide (IsValidCronExpr e = Ret false))
  [""; "* * * *"; "* * * * * *"; "60 * * * *"; "* 24 * * *"; "* * 0 * *"; "* * * 13 *"; "* * * * 7"; "*/0 * * * *"; "a * * * *"; "1-5 * * * 8"] = true.
Proof. vm_compute. reflexivity. Qed.
Example next_examples :
  NextAfter 100 UTC "*/5 * * * *" (at_ 2026 9 10 10 3 30) = Ret (Some (Ok (at_ 2026 9 10 10 5 0)))
  /\ NextAfter 100 UTC "*/5 * * * *" (at_ 2026 9 10 10 5 0) = Ret (Some (Ok (at_ 2026 9 10 10 10 0)))
  /\ NextAfter 100 UTC "0 8 * * 5" (at_ 2026 9 10 12 0 0) = Ret (Some (Ok (at_ 2026 9 11 8 0 0)))
  /\ NextAfter 100 UTC "0 0 1 2 *" (at_ 2026 9 10 12 0 0) = Ret (Some (Ok (at_ 2027 2 1 0 0 0)))
  /\ NextAfter 1000 UTC "0 0 31 2 *" (at_ 2026 9 10 12 0 0) = Ret (Some (Err NoNextTime))
  /\ NextsBetween 10 100 UTC "0 * * * *" (at_ 2026 9 10 0 0 0) (at_ 2026 9 10 2 30 0) = Ret (Some (Ok [at_ 2026 9 10 1 0 0; at_ 2026 9 10 2 0 0]))
  /\ NextsBetween 10 100 UTC "* * * * *" (at_ 2026 9 10 0 0 0) (at_ 2026 9 10 0 0 0) = Ret (Some (Ok [])).
Proof. vm_compute. tauto. Qed.
