(* ===== verification/CronTheorems.v ===== *)
(** * CronTheorems
    The search of [Next]: in a location with one offset it ends and finds the
    least minute that matches, and [NextsBetween] lists them all; where clocks
    are put back it may never end. *)
From S2P Require Import Prelude GoStrings GoNumbers GoTime CronParser.
(** The schedule fires at an instant. *)
Definition fires (l : Location) (s : cronSchedule) (t : Z) : bool :=
  contains (month s) (Month l t) && dayMatches l s t && contains (hour s) (HourOf l t) && contains (minute s) (MinuteOf l t).

Section Fixed.
Context (o : Z) (Ho : o mod 60 = 0) (s : cronSchedule).

Definition fixed : Location := mkLocation o [].

(** The instant at which the clocks show a minute, counted from the first. *)
Definition inst (m : Z) : Z := (60 * m - o) * Second.

Lemma local_inst m : local fixed (inst m) = 60 * m.
Proof. unfold local, inst. rewrite Z.div_mul by done. cbn. lia. Qed.
Lemma local_day m : local fixed (inst m) / 86400 = m / 1440.
Proof. rewrite local_inst. dlia. Qed.
Lemma HourOf_inst m : HourOf fixed (inst m) = m mod 1440 / 60.
Proof. unfold HourOf. rewrite local_inst. dlia. Qed.
Lemma MinuteOf_inst m : MinuteOf fixed (inst m) = m mod 60.
Proof. unfold MinuteOf. rewrite local_inst. dlia. Qed.

Lemma Date_inst y m d h mi : Date fixed y m d h mi 0 = inst (day_of y m d * 1440 + h * 60 + mi).
Proof. unfold Date, inst, zone_lookup. cbn [lookup_from zone0 transitions fixed andb]. case_decide as H0; [rewrite H0|]; f_equal; lia. Qed.

Lemma inst_Hour m : inst m + Hour = inst (m + 60).
Proof. unfold inst, Hour, Minute, Second. lia. Qed.
Lemma inst_Minute m : inst m + Minute = inst (m + 1).
Proof. unfold inst, Minute, Second. lia. Qed.

Lemma AddDate_inst n months days : AddDate fixed (inst (n * 1440)) 0 months days = inst (day_of (year_of n) (month_of n + months) (mday_of n + days) * 1440).
Proof.
  unfold AddDate, Year, Month, Day. rewrite local_day, HourOf_inst, MinuteOf_inst, local_inst, Z.div_mul by done.
  rewrite Z.mod_mul, (Z.mul_comm 60), Z.mod_mul by done. replace (n * 1440 mod 60) with 0 by (replace (n * 1440) with (n * 24 * 60) by lia; by rewrite Z.mod_mul). change (0 / 60) with 0.
  rewrite Date_inst, Z.add_0_r. replace (inst (n * 1440) mod Second) with 0 by (unfold inst; by rewrite Z.mod_mul). by rewrite Z.mul_0_l, !Z.add_0_r.
Qed.

(** What an instant's minute says. *)
Lemma fires_inst m : fires fixed s (inst m) = contains (month s) (month_of (m / 1440)) && dayMatches fixed s (inst m)
  && contains (hour s) (m mod 1440 / 60) && contains (minute s) (m mod 60).
Proof. unfold fires, Month. by rewrite local_day, HourOf_inst, MinuteOf_inst. Qed.

Lemma dayMatches_day m m' : m / 1440 = m' / 1440 -> dayMatches fixed s (inst m) = dayMatches fixed s (inst m').
Proof. intros Hd. unfold dayMatches, Weekday, Day. by rewrite !local_day, Hd. Qed.

(** ** One round *)

(** A round that goes on skips only minutes that do not match. *)
Lemma step_skips ly m t' : next_step fixed s ly (inst m) = inr t' ->
  exists m', t' = inst m' /\ m < m' /\ (forall u, m <= u < m' -> fires fixed s (inst u) = false) /\ year_of (m / 1440) <= ly.
Proof.
  unfold next_step, Year, Month, Day. rewrite local_day, HourOf_inst, MinuteOf_inst. set (n := m / 1440). case_decide as Hly; [done |].
  pose proof (day_of_date n) as Hn. pose proof (month_of_range n) as Hmr. assert (Hnm : n * 1440 <= m < n * 1440 + 1440) by (unfold n; dlia).
  assert (Hdiv : forall a b u, a * 1440 <= u < b * 1440 -> a <= u / 1440 < b) by (intros; split; [apply Z.div_le_lower_bound | apply Z.div_lt_upper_bound]; lia).
  destruct (contains (month s) (month_of n)) eqn:Hmo; cbn [negb].
  2: { intros [= <-]. rewrite Date_inst, !Z.add_0_r. set (first := day_of (year_of n) (month_of n) 1).
       assert (Hin : first <= n < day_of (year_of n) (month_of n + 1) 1) by (by apply in_month).
       destruct (proj1 (in_month first (year_of n) (month_of n) Hmr)) as [Hy1 Hm1]; [unfold first in *; lia |].
       assert (Hd1 : mday_of first = 1).
       { pose proof (day_of_date first) as Hf. rewrite Hy1, Hm1 in Hf. unfold first at 2 in Hf. unfold day_of in Hf. lia. }
       rewrite AddDate_inst, Hy1, Hm1, Hd1. exists (day_of (year_of n) (month_of n + 1) 1 * 1440). split; [done |]. split; [lia |]. split; [| lia].
       intros u Hu. rewrite fires_inst. replace (month_of (u / 1440)) with (month_of n); [by rewrite Hmo |].
       symmetry. apply (in_month (u / 1440) (year_of n) (month_of n) Hmr). fold first. destruct (Hdiv n (day_of (year_of n) (month_of n + 1) 1) u) as [? ?]; lia. }
  destruct (dayMatches fixed s (inst m)) eqn:Hday; cbn [negb].
  2: { intros [= <-]. rewrite Date_inst, Hn, !Z.add_0_r. rewrite AddDate_inst, Z.add_0_r, day_of_next, Hn. exists ((n + 1) * 1440). split; [done |].
       split; [lia |]. split; [| lia]. intros u Hu. rewrite fires_inst, (dayMatches_day u m), Hday, andb_false_r; [done |]. fold n. destruct (Hdiv n (n + 1) u); lia. }
  destruct (contains (hour s) (m mod 1440 / 60)) eqn:Hh; cbn [negb].
  2: { intros [= <-]. rewrite Date_inst, Hn. exists (m / 60 * 60 + 60). split; [rewrite inst_Hour; f_equal; unfold n; dlia |]. split; [dlia |]. split; [| lia].
       intros u Hu. rewrite fires_inst. replace (u mod 1440 / 60) with (m mod 1440 / 60) by dlia. by rewrite Hh, andb_false_r. }
  destruct (contains (minute s) (m mod 60)) eqn:Hmi; cbn [negb]; [done |].
  intros [= <-]. rewrite Date_inst, Hn. exists (m + 1). split; [rewrite inst_Minute; f_equal; unfold n; dlia |]. split; [lia |]. split; [| lia].
  intros u Hu. replace u with m by lia. by rewrite fires_inst, Hmi, andb_false_r.
Qed.

Lemma step_ends ly m r : next_step fixed s ly (inst m) = inl r ->
  r = 0 /\ ly < year_of (m / 1440) \/ r = inst m /\ fires fixed s (inst m) = true /\ year_of (m / 1440) <= ly.
Proof.
  unfold next_step, Year, Month. rewrite local_day, HourOf_inst, MinuteOf_inst, fires_inst. case_decide; [intros [= <-]; by left |].
  destruct (contains (month s) _); cbn [negb]; [| done]. destruct (dayMatches _ _ _); cbn [negb]; [| done].
  destruct (contains (hour s) _); cbn [negb]; [| done]. destruct (contains (minute s) _); cbn [negb]; [| done]. intros [= <-]. right. split; [done |]. split; [done | lia].
Qed.

(** ** The loop *)

Lemma year_le n y : year_of n <= y <-> n < days_before (y + 1).
Proof.
  pose proof (year_of_spec n) as Hs. split; intros Hy.
  - destruct (decide (year_of n = y)) as [<- |]; [lia |]. pose proof (days_before_lt (year_of n + 1) (y + 1) ltac:(lia)). lia.
  - apply Z.nlt_ge. intros Hlt. destruct (decide (y + 1 = year_of n)) as [He |]; [rewrite He in Hy; lia |]. pose proof (days_before_lt (y + 1) (year_of n) ltac:(lia)). lia.
Qed.

(** The first minute after a year. *)
Definition end_of (y : Z) : Z := 1440 * days_before (y + 1).
Lemma year_le_minute m y : year_of (m / 1440) <= y <-> m < end_of y.
Proof.
  rewrite year_le. unfold end_of. generalize (days_before (y + 1)). intros b. split; intros H; [| apply Z.div_lt_upper_bound; lia].
  apply Z.nle_gt. intros Hb. pose proof (Z.div_le_lower_bound m 1440 b ltac:(lia) Hb). lia.
Qed.

Definition silent (a b : Z) : Prop := forall u, a <= u < b -> fires fixed s (inst u) = false.

(** What a search from the minute [m] may return. *)
Definition search_result (ly m r : Z) : Prop :=
  r = 0 /\ silent m (end_of ly)
  \/ exists u, m <= u < end_of ly /\ r = inst u /\ fires fixed s (inst u) = true /\ silent m u.

Lemma loop_spec fuel : forall ly m, Z.max 0 (end_of ly - m) < Z.of_nat fuel ->
  exists r, next_loop fixed s fuel ly (inst m) = Some r /\ search_result ly m r.
Proof.
  induction fuel as [| fuel IH]; intros ly m Hf; [lia |]. cbn [next_loop]. destruct (next_step fixed s ly (inst m)) as [r | t'] eqn:Hstep.
  - exists r. split; [done |]. apply step_ends in Hstep as [[-> Hy] | (-> & Hfire & Hy%year_le_minute)].
    + left. split; [done |]. intros u Hu. assert (m < end_of ly) as Hm%year_le_minute by lia. lia.
    + right. exists m. split; [lia |]. split; [done |]. split; [done |]. intros v Hv. lia.
  - apply step_skips in Hstep as (m' & -> & Hlt & Hskip & Hy%year_le_minute). destruct (IH ly m' ltac:(lia)) as (r & -> & Hr). exists r. split; [done |].
    assert (Hjoin : forall b, silent m' b -> silent m b).
    { intros b Hb u Hu. destruct (decide (u < m')); [apply Hskip; lia | apply Hb; lia]. }
    destruct Hr as [[-> Hr] | (u & Hu & -> & Hfire & Hr)]; [left; by auto |]. right. exists u. split; [lia |]. by auto.
Qed.

(** Six years have fewer minutes than this. *)
Definition six_years : Z := 3162240.

Lemma Truncate_inst t : Truncate t Minute + Minute = inst (local fixed t / 60 + 1).
Proof.
  unfold Truncate, inst, local, Minute, offset_at, zone_lookup. cbn [lookup_from fixed transitions zone0 fst].
  replace (60 * Second) with (Second * 60) by lia. pose proof (Z.div_mod t (Second * 60) ltac:(done)) as Hd.
  assert (Hdd : t / (Second * 60) = t / Second / 60) by (by rewrite Z.div_div). rewrite Hdd in Hd. pose proof (Z.div_mod o 60 ltac:(lia)).
  assert (Hq : (t / Second + o) / 60 = t / Second / 60 + o / 60).
  { replace o with (o / 60 * 60) at 1 by lia. by rewrite Z.div_add by done. }
  rewrite Hq. lia.
Qed.

Lemma Next_spec fuel t : six_years <= Z.of_nat fuel -> exists r, Next fixed s fuel t = Some r /\ search_result (Year fixed t + 5) (local fixed t / 60 + 1) r.
Proof.
  intros Hf. unfold Next. rewrite Truncate_inst. apply loop_spec. unfold end_of, Year. set (n := local fixed t / 86400).
  assert (Hn : n * 1440 <= local fixed t / 60) by (unfold n; dlia). pose proof (year_of_spec n) as Hy.
  assert (days_before (year_of n + 5 + 1) - days_before (year_of n) <= 2192) by (unfold days_before; dlia). unfold six_years in Hf. lia.
Qed.

(** Instants at full minutes, and their minutes. *)
Lemma inst_aligned m : inst m mod Minute = 0.
Proof.
  unfold inst, Minute. pose proof (Z.div_mod o 60 ltac:(lia)). replace ((60 * m - o) * Second) with ((m - o / 60) * (60 * Second)) by lia. by apply Z.mod_mul.
Qed.
Lemma aligned_inst u : u mod Minute = 0 -> u = inst (local fixed u / 60).
Proof.
  intros Hu. pose proof (Truncate_inst u) as Ht. unfold Truncate in Ht. rewrite Hu in Ht. rewrite <- inst_Minute in Ht. lia.
Qed.
Lemma aligned_minute u : u mod Minute = 0 -> exists m, u = inst m.
Proof. intros Hu. eexists. by apply aligned_inst. Qed.
Lemma inst_lt a b : a < b <-> inst a < inst b.
Proof. unfold inst, Second. lia. Qed.
Lemma after_minute t m : t < inst m <-> local fixed t / 60 + 1 <= m.
Proof.
  pose proof (Truncate_inst t) as Ht. unfold Truncate in Ht. pose proof (Z.mod_pos_bound t Minute ltac:(done)) as Hm.
  split; intros H.
  - apply Z.nlt_ge. intros Hlt. assert (inst m <= inst (local fixed t / 60)) by (unfold inst, Second; lia).
    rewrite <- inst_Minute in Ht. lia.
  - assert (inst (local fixed t / 60 + 1) <= inst m) by (unfold inst, Second; lia). lia.
Qed.
End Fixed.

(** ** The search, in terms of instants *)

Lemma Next_least o (Ho : o mod 60 = 0) s t fuel : 0 <= t -> six_years <= Z.of_nat fuel ->
  exists r, Next (fixed o) s fuel t = Some r
    /\ (r = 0 -> forall u, u mod Minute = 0 -> t < u -> Year (fixed o) u <= Year (fixed o) t + 5 -> fires (fixed o) s u = false)
    /\ (r <> 0 -> t < r /\ r mod Minute = 0 /\ Year (fixed o) r <= Year (fixed o) t + 5 /\ fires (fixed o) s r = true
        /\ forall u, u mod Minute = 0 -> t < u < r -> fires (fixed o) s u = false).
Proof.
  intros Ht Hf. destruct (Next_spec o Ho s fuel t Hf) as (r & Hr & Hres). exists r. split; [done |].
  destruct Hres as [[-> Hsil] | (u & Hu & -> & Hfire & Hsil)].
  - split; [| done]. intros _ u Hal Hlt Hy. destruct (aligned_minute o Ho u Hal) as [m ->]. apply Hsil. split; [by apply (after_minute o Ho) |].
    unfold Year at 1 in Hy. rewrite local_day in Hy. by apply year_le_minute.
  - assert (Hpos : t < inst o u) by (apply (after_minute o Ho); lia). split; [lia |]. intros _. split; [done |]. split; [by apply inst_aligned |].
    split; [unfold Year at 1; rewrite local_day; apply year_le_minute; lia |]. split; [done |].
    intros v Hal [Hlt Hv]. destruct (aligned_minute o Ho v Hal) as [m ->]. apply Hsil. split; [by apply (after_minute o Ho) | by apply (inst_lt o)].
Qed.

Section Theorems.
Context (o : Z) (Ho : o mod 60 = 0) (s : cronSchedule).

(** C30: Where the clocks keep one offset from UTC, in whole minutes, the search of
    [Next] always ends: it returns the least full minute after the given time
    that matches all fields of the schedule, and the zero time if and only if
    none does up to the end of the fifth year from then. *)
Theorem next_is_least t fuel : 0 <= t -> six_years <= Z.of_nat fuel ->
  exists r, Next (fixed o) s fuel t = Some r
    /\ (r = 0 <-> forall u, u mod Minute = 0 -> t < u -> Year (fixed o) u <= Year (fixed o) t + 5 -> fires (fixed o) s u = false)
    /\ (r <> 0 -> t < r /\ r mod Minute = 0 /\ fires (fixed o) s r = true
        /\ forall u, u mod Minute = 0 -> t < u < r -> fires (fixed o) s u = false).
Proof.
  intros Ht Hf. destruct (Next_least o Ho s t fuel Ht Hf) as (r & Hr & Hz & Hnz). exists r. split; [done |]. split; [| naive_solver].
  split; [exact Hz |]. intros Hall. destruct (decide (r = 0)) as [| Hne]; [done |]. destruct (Hnz Hne) as (H1 & H2 & H3 & H4 & _).
  rewrite (Hall r) in H4; done.
Qed.

Lemma later_minute a b : b mod Minute = 0 -> a < b -> a / Minute + 1 <= b / Minute.
Proof.
  intros Hb Hab. pose proof (Z.div_mod a Minute ltac:(done)). pose proof (Z.mod_pos_bound a Minute ltac:(done)). pose proof (Z.div_mod b Minute ltac:(done)). unfold Minute, Second in *. lia.
Qed.

Lemma nexts_loop_spec rounds fuel cur end_ : 0 <= cur -> six_years <= Z.of_nat fuel -> (cur < end_ -> end_ / Minute - cur / Minute < Z.of_nat rounds) ->
  exists r, nexts_loop rounds fuel (fixed o) s cur end_ = Some r /\
    match r with
    | Ok l => StronglySorted Z.lt l /\ forall u, u ∈ l <-> cur < u < end_ /\ u mod Minute = 0 /\ fires (fixed o) s u = true
    | Err e => e = NoNextTime
    end.
Proof.
  revert cur. induction rounds as [| rounds IH]; intros cur Hcur Hf Hr; cbn [nexts_loop]; case_decide as Hlt.
  1: { pose proof (Z.div_le_mono cur end_ Minute ltac:(done) ltac:(lia)). lia. }
  2: { destruct (Next_least o Ho s cur fuel Hcur Hf) as (r & -> & _ & Hnz). case_decide as Hz; [by eexists |].
       destruct (Hnz Hz) as (H1 & H2 & _ & H4 & H5). case_decide as Hend.
       - exists (Ok []). split; [done |]. split; [constructor |]. intros u. split; [by intros ?%not_elem_of_nil |]. intros (Hu & Hal & Hfire).
         rewrite (H5 u Hal) in Hfire by lia. done.
       - pose proof (later_minute cur r H2 H1). destruct (IH r ltac:(lia) Hf ltac:(lia)) as (res & -> & Hres). destruct res as [l | e]; [| by eexists].
         destruct Hres as [Hsort Hin]. exists (Ok (r :: l)). split; [done |]. split.
         + constructor; [done |]. apply Forall_forall. intros u (? & _)%Hin. lia.
         + intros u. rewrite elem_of_cons, Hin. split; [intros [-> | (? & ? & ?)]; split_and!; (lia || done) |].
           intros ([Hu1 Hu2] & Hal & Hfire). destruct (Z.lt_trichotomy u r) as [Hur | [-> | Hur]]; [| by left | right; split_and!; (lia || done)].
           rewrite (H5 u Hal) in Hfire by lia. done. }
  all: exists (Ok []); split; [done |]; split; [constructor |]; intros u; split; [by intros ?%not_elem_of_nil | lia].
Qed.

(** C33: [NextsBetween] ends and, unless it reports that some search found nothing
    within five years, lists exactly the full minutes strictly between its
    bounds that match the schedule, each once, in order. *)
Theorem nexts_between_exact rounds fuel expr start end_ : 0 <= start <= end_ -> six_years <= Z.of_nat fuel -> end_ / Minute - start / Minute < Z.of_nat rounds ->
  parseCronExpr expr = Ret (Ok s) ->
  exists r, NextsBetween rounds fuel (fixed o) expr start end_ = Ret (Some r) /\
    match r with
    | Ok l => StronglySorted Z.lt l /\ forall u, u ∈ l <-> start < u < end_ /\ u mod Minute = 0 /\ fires (fixed o) s u = true
    | Err e => e = NoNextTime
    end.
Proof.
  intros Hs Hf Hr Hp. unfold NextsBetween. rewrite decide_False by lia. rewrite Hp. cbn [obind].
  destruct (nexts_loop_spec rounds fuel start end_) as (r & -> & Hres); [lia | done | done |]. by exists r.
Qed.
End Theorems.


(** The autumn change of New York in 2026. *)
Definition NewYork : Location := mkLocation (- 4 * 3600) [(day_of 2026 11 1 * 86400 + 6 * 3600, - 5 * 3600)].
Definition noon_before : Z := Date NewYork 2026 10 31 12 0 0.
(** One in the morning, for the second time that day. *)
Definition second_one : Z := Date NewYork 2026 11 1 1 0 0 + Hour.

(** Times that the rounds of the loop never leave. *)
Lemma loop_trapped l s ly (C : list Z) : (forall t, t ∈ C -> exists t', next_step l s ly t = inr t' /\ t' ∈ C) ->
  forall fuel t, t ∈ C -> next_loop l s fuel ly t = None.
Proof.
  intros HC fuel. induction fuel as [| fuel IH]; intros t Ht; [done |]. cbn [next_loop]. destruct (HC t Ht) as (t' & -> & Ht'). by apply IH.
Qed.

Lemma loop_agrees l s ly t r fuel : next_loop l s fuel ly t = Some r -> forall fuel', next_loop l s fuel' ly t = None \/ next_loop l s fuel' ly t = Some r.
Proof.
  revert t. induction fuel as [| fuel IH]; intros t Hr; [done |]. intros [| fuel']; [by left |]. cbn [next_loop] in *.
  destruct (next_step l s ly t) as [r' | t']; [by right | by apply IH].
Qed.

(** A set of times that a search never leaves. *)
Lemma nexts_trapped l s end_ (C : list Z) : (forall cur, cur ∈ C -> cur < end_ /\ cur <> 0 /\ exists fuel next, Next l s fuel cur = Some next /\ next ∈ C) ->
  forall rounds fuel cur, cur ∈ C -> nexts_loop rounds fuel l s cur end_ = None.
Proof.
  intros HC rounds. induction rounds as [| rounds IH]; intros fuel cur Hcur; destruct (HC cur Hcur) as (Hlt & _ & fuel' & next & Hn & Hin);
    cbn [nexts_loop]; rewrite decide_True by done; [done |].
  destruct (loop_agrees _ _ _ _ _ _ Hn fuel) as [Hnone | Hsome]; unfold Next; [by rewrite Hnone |]. rewrite Hsome.
  destruct (HC next Hin) as (Hlt' & Hz & _). rewrite decide_False by done. rewrite decide_False by lia. by rewrite IH.
Qed.

Definition every_five : cronSchedule :=
  Eval vm_compute in match parseCronExpr "*/5 * * * *" with Ret (Ok s) => s | _ => mkSchedule [] [] [] [] [] false false end.
Definition at_five : cronSchedule :=
  Eval vm_compute in match parseCronExpr "0 5 * * *" with Ret (Ok s) => s | _ => mkSchedule [] [] [] [] [] false false end.
(** The hours from noon to the second one o'clock, and the times of the first
    hour from five past on, with one o'clock again. *)
Definition hours : list Z := Eval vm_compute in (fun k => noon_before + Minute + (if decide (k = O) then 0 else Z.of_nat k * Hour - Minute)) <$> seq 0 15.
Definition first_hour : list Z := Eval vm_compute in (fun k => second_one - Hour + Z.of_nat k * (5 * Minute)) <$> seq 1 12.

Definition closed_step (t : Z) : bool :=
  match next_step NewYork at_five 2031 t with inr t' => bool_decide (t' ∈ hours) | inl _ => false end.
Definition closed_next (cur : Z) : bool :=
  bool_decide (cur < second_one + 30 * Minute) && bool_decide (cur <> 0)
  && match Next NewYork every_five 100 cur with Some next => bool_decide (next ∈ first_hour) | None => false end.

(** Where clocks are put back [Next] may never end: [Date] turns the second
    one o'clock into the first, an hour is added, and so on for ever, whatever
    the schedule asks for later that day. And a search from within the repeated
    hour goes back in time, so that [NextsBetween] goes round in it for ever. *)
Theorem clock_change_traps_next :
  (forall fuel, NextAfter fuel NewYork "0 5 * * *" noon_before = Ret None)
  /\ NextAfter 100 NewYork "*/5 * * * *" second_one = Ret (Some (Ok (second_one - Hour + 5 * Minute)))
  /\ (forall rounds fuel, NextsBetween rounds fuel NewYork "*/5 * * * *" second_one (second_one + 30 * Minute) = Ret None).
Proof.
  split; [| split].
  - intros fuel. unfold NextAfter. replace (parseCronExpr "0 5 * * *") with (Ret (Ok at_five : result cron_error cronSchedule)) by (by vm_compute). cbn [obind].
    replace (Next NewYork at_five fuel noon_before) with (@None Z); [done |]. symmetry. unfold Next. replace (Year NewYork noon_before + 5) with 2031 by (by vm_compute).
    apply (loop_trapped _ _ _ hours); [| apply (bool_decide_unpack _); by vm_compute].
    assert (Hc : forallb closed_step hours = true) by (by vm_compute). rewrite forallb_forall in Hc. intros t Ht%list_elem_of_In%Hc.
    unfold closed_step in Ht. destruct (next_step NewYork at_five 2031 t) as [| t']; [done |]. exists t'. split; [done | by apply bool_decide_eq_true_1 in Ht].
  - by vm_compute.
  - intros rounds fuel. unfold NextsBetween. rewrite decide_False by (by vm_compute).
    replace (parseCronExpr "*/5 * * * *") with (Ret (Ok every_five : result cron_error cronSchedule)) by (by vm_compute). cbn [obind]. f_equal.
    apply (nexts_trapped _ _ _ first_hour); [| apply (bool_decide_unpack _); by vm_compute].
    assert (Hc : forallb closed_next first_hour = true) by (by vm_compute). rewrite forallb_forall in Hc. intros cur Hcur%list_elem_of_In%Hc.
    unfold closed_next in Hcur. rewrite !andb_true_iff in Hcur. destruct Hcur as [[H1%bool_decide_eq_true_1 H2%bool_decide_eq_true_1] H3].
    split; [done |]. split; [done |]. destruct (Next NewYork every_five 100 cur) as [next |] eqn:Hn; [| done]. exists 100%nat, next. by apply bool_decide_eq_true_1 in H3.
Qed.

(** A step in the day of the month is lost: a field that begins with a star is
    taken for a star, so that an expression for every second day fires daily,
    and combined with a weekday on each such weekday. *)
Theorem star_step_days_ignored :
  (exists s, parseCronExpr "0 0 */2 * *" = Ret (Ok s) /\ 2 ∉ dayOfMonth s /\ forall l t, dayMatches l s t = true)
  /\ exists s, parseCronExpr "0 0 */2 * 1" = Ret (Ok s) /\ 2 ∉ dayOfMonth s /\ forall l t, dayMatches l s t = bool_decide (Weekday l t = 1).
Proof.
  split.
  - eexists. split; [by vm_compute |]. split; [apply (bool_decide_unpack _); by vm_compute | done].
  - eexists. split; [by vm_compute |]. split; [apply (bool_decide_unpack _); by vm_compute |]. intros l t. unfold dayMatches, contains. cbn.
    apply bool_decide_ext. by rewrite list_elem_of_singleton.
Qed.

(** ** Witnesses *)

Lemma enough_fuel : six_years <= Z.of_nat (Z.to_nat 4000000).
Proof. rewrite Z2Nat.id by lia. unfold six_years. lia. Qed.

Lemma next_is_least_witness : exists r, Next (fixed 28800) every_five (Z.to_nat 4000000) noon_before = Some r /\ r <= noon_before + 5 * Minute.
Proof.
  destruct (next_is_least 28800 eq_refl every_five noon_before (Z.to_nat 4000000)) as (r & Hr & Hz & Hnz); [by vm_compute | exact enough_fuel |].
  exists r. split; [exact Hr |]. destruct (decide (r = 0)) as [-> | Hne]; [by vm_compute |]. destruct (Hnz Hne) as (_ & _ & _ & Hleast).
  apply Z.nlt_ge. intros Hlt. assert (Hf : fires (fixed 28800) every_five (noon_before + 5 * Minute) = true) by (vm_compute; reflexivity).
  rewrite Hleast in Hf; [discriminate | by vm_compute | split; [by vm_compute | exact Hlt]].
Defined.

Lemma nexts_between_exact_witness : exists l, NextsBetween (Z.to_nat 4000000) (Z.to_nat 4000000) (fixed 28800) "*/5 * * * *" noon_before (noon_before + Hour) = Ret (Some l)
  /\ match l with Ok l => noon_before + 30 * Minute ∈ l | Err e => e = NoNextTime end.
Proof.
  destruct (nexts_between_exact 28800 eq_refl every_five (Z.to_nat 4000000) (Z.to_nat 4000000) "*/5 * * * *" noon_before (noon_before + Hour)) as (l & Hl & Hres).
  - split; by vm_compute.
  - exact enough_fuel.
  - rewrite Z2Nat.id by lia. by vm_compute.
  - by vm_compute.
  - exists l. split; [exact Hl |]. destruct l as [l | e]; [| exact Hres]. apply Hres. split; [split; by vm_compute |]. split; vm_compute; reflexivity.
Defined.

(** ** Parsing
    Parsing always ends, and what it accepts is a schedule with a value for
    every field. *)
(** Gives the result that the goal has computed. *)
Ltac returns := eexists; split; [reflexivity | cbv beta iota].

(** ** [rangeList] *)

Lemma range_small fuel i end_ step : 0 <= i -> end_ < 60 -> 0 < step < 2 ^ 62 -> Z.max 0 (end_ + 1 - i) <= Z.of_nat fuel ->
  exists l, range_from fuel i end_ step = Ret l /\ forall v, v ∈ l <-> i <= v <= end_ /\ (v - i) mod step = 0.
Proof.
  revert i. induction fuel as [| fuel IH]; intros i Hi He Hs Hf; cbn [range_from];
    (case_decide; [| exists []; split; [done |]; intros v; rewrite elem_of_nil; lia]); [lia |].
  rewrite i64_id by lia. destruct (IH (i + step) ltac:(lia) He Hs ltac:(lia)) as (l & -> & Hl). cbn [obind]. exists (i :: l).
  split; [done |]. intros v. rewrite elem_of_cons, Hl.
  assert (Hm : (v - (i + step)) mod step = (v - i) mod step) by (replace (v - (i + step)) with (v - i + (-1) * step) by lia; by rewrite Z.mod_add by lia).
  rewrite Hm. split.
  - intros [-> | [? ?]]; [| split; [lia | done]]. rewrite Z.sub_diag, Z.mod_0_l by lia. lia.
  - intros [[Hv ?] Hz]. destruct (decide (v = i)) as [-> | Hne]; [by left | right]. split; [| done]. split; [| done].
    apply Z.mod_divide in Hz as [q Hq]; [| lia].
    assert (1 <= q) by (apply Z.lt_pred_le, (Z.mul_lt_mono_pos_r step); lia). nia.
Qed.

(** Past [2 ^ 62] an addition either leaves the range or wraps, and two that wrap
    take a little off the value. *)
Lemma range_large fuel i end_ step : 0 <= i -> end_ < 60 -> 2 ^ 62 <= step < 2 ^ 63 -> 2 * i + 4 <= Z.of_nat fuel ->
  exists l, range_from fuel i end_ step = Ret l /\ Forall (fun v => v <= end_) l.
Proof.
  revert i. induction fuel as [fuel IH] using (well_founded_ind lt_wf). intros i Hi He Hs Hf.
  destruct fuel as [| [| [| fuel]]]; [lia | lia | lia |]. set (f3 := S (S (S fuel))). unfold f3. cbn [range_from].
  case_decide as H0; [| exists []; by repeat constructor].
  destruct (decide (i + step < 2 ^ 63)) as [Hno | Hwrap].
  { rewrite i64_id by lia. rewrite decide_False by lia. exists [i]. by repeat constructor. }
  assert (Hj : i64 (i + step) = i + step - 2 ^ 64) by (unfold i64; Z.div_mod_to_equations; lia). rewrite Hj.
  rewrite decide_True by lia. assert (Hk : i64 (i + step - 2 ^ 64 + step) = i + 2 * step - 2 ^ 64) by (rewrite i64_id; lia). rewrite Hk.
  destruct (decide (0 <= i + 2 * step - 2 ^ 64)) as [Hnn | Hneg].
  - change (exists l, (let! rest := (let! rest := range_from (S fuel) (i + 2 * step - 2 ^ 64) end_ step in Ret (i + step - 2 ^ 64 :: rest)) in Ret (i :: rest)) = Ret l
      /\ Forall (fun v => v <= end_) l).
    destruct (IH (S fuel) ltac:(lia) (i + 2 * step - 2 ^ 64) Hnn He Hs ltac:(lia)) as (l & -> & Hl). cbn [obind].
    eexists. split; [done |]. repeat constructor; [done | lia | done].
  - case_decide; [| lia]. rewrite i64_id by lia.
    assert (Hend : range_from fuel (i + 2 * step - 2 ^ 64 + step) end_ step = Ret []) by (destruct fuel; cbn [range_from]; by rewrite decide_False by lia).
    rewrite Hend. cbn [obind]. eexists. split; [done |]. repeat constructor; lia.
Qed.

Lemma rangeList_ok start end_ step : 0 <= start <= end_ -> end_ < 60 -> 0 < step < 2 ^ 63 ->
  exists l, rangeList start end_ step = Ret l /\ start ∈ l /\ Forall (fun v => v <= end_) l
    /\ (step < 2 ^ 62 -> forall v, v ∈ l <-> start <= v <= end_ /\ (v - start) mod step = 0).
Proof.
  intros Hs He Hstep. assert (Hr : exists l, rangeList start end_ step = Ret l /\ Forall (fun v => v <= end_) l
    /\ (step < 2 ^ 62 -> forall v, v ∈ l <-> start <= v <= end_ /\ (v - start) mod step = 0)).
  { destruct (decide (step < 2 ^ 62)) as [Hsm | Hbig].
    - destruct (range_small 200 start end_ step) as (l & Hl & Hin); [lia.. |]. exists l. split; [done |]. split; [| done].
      apply Forall_forall. intros v Hv. apply Hin in Hv. lia.
    - destruct (range_large 200 start end_ step) as (l & Hl & Hall); [lia.. |]. exists l. split; [done |]. split; [done | lia]. }
  destruct Hr as (l & Hl & Hall & Hex). exists l. split; [done |]. split; [| by split]. unfold rangeList in Hl. cbn [range_from] in Hl. rewrite decide_True in Hl by lia.
  apply obind_ret_inv in Hl as (rest & _ & [= <-]). by left.
Qed.

(** ** Parts and fields *)

(** A list that a field may be parsed to. *)
Definition field_ok (min max : Z) (l : list Z) : Prop := Forall (fun v => v <= max) l /\ exists v, v ∈ l /\ min <= v <= max.

Lemma digit_of_range c d : digit_of c = Some d -> 0 <= d <= 9.
Proof. unfold digit_of. case_decide; [by intros [= <-] | done]. Qed.

Lemma Atoi_bound s : - 2 ^ 63 <= (Atoi s).1 < 2 ^ 63.
Proof.
  unfold Atoi. destruct (match s with EmptyString => _ | String _ _ => _ end) as [neg s']. case_decide; [cbn; lia |].
  destruct (parse_uint 0 s') as [n | []] eqn:Hn; [| cbn; lia | destruct neg; cbn; lia].
  assert (Hpos : forall s m k, 0 <= m -> parse_uint m s = Ok k -> 0 <= k).
  { clear. induction s as [| c s IH]; intros m k Hm; cbn; [by intros [= <-] |]. destruct (digit_of c) as [d |] eqn:Hd; [| done].
    apply digit_of_range in Hd. case_decide; [apply IH; lia | done]. }
  apply Hpos in Hn; [| lia]. destruct neg; case_decide; cbn; lia.
Qed.

Definition limits (min max : Z) : Prop := 0 <= min <= max /\ max < 60.

(** ** What an expression says *)

(** The values from [lo] to [hi] by [step]. *)
Definition runs_through (lo hi step v : Z) : Prop := lo <= v <= hi /\ (v - lo) mod step = 0.

(** What stands before the slash of a part, with the step it has: a star, a
    range within the bounds, or a value within them, which with a step above one
    goes up to the bound. *)
Inductive base (min max step : Z) (s : string) : Z -> Z -> Prop :=
| base_star : s = "*"%string -> base min max step s min max
| base_range a b lo hi : s <> "*"%string -> Cut s "-"%char = (a, b, true) -> Atoi a = (lo, None) -> Atoi b = (hi, None) ->
    min <= lo -> lo <= hi -> hi <= max -> base min max step s lo hi
| base_value a b v : s <> "*"%string -> Cut s "-"%char = (a, b, false) -> Atoi s = (v, None) -> min <= v <= max ->
    base min max step s v (if decide (1 < step) then max else v).

(** A part between commas: with a positive step after a slash, or without. *)
Inductive names (min max : Z) (part : string) : Z -> Z -> Z -> Prop :=
| names_plain before after lo hi : Cut part "/"%char = (before, after, false) -> base min max 1 part lo hi -> names min max part lo hi 1
| names_step before after step lo hi : Cut part "/"%char = (before, after, true) -> Atoi after = (step, None) -> 0 < step ->
    base min max step before lo hi -> names min max part lo hi step.

Definition parts (field : string) : list string := Split field ","%char.
Definition well_formed (min max : Z) (field : string) : Prop := forall part, part ∈ parts field -> exists lo hi step, names min max part lo hi step.
(** Steps that [rangeList] does not wrap around with. *)
Definition modest (min max : Z) (field : string) : Prop :=
  forall part lo hi step, part ∈ parts field -> names min max part lo hi step -> step < 2 ^ 62.

(** The values of a field are those its parts name. *)
Definition field_means (min max : Z) (field : string) (l : list Z) : Prop :=
  well_formed min max field /\ field_ok min max l
  /\ (modest min max field -> Forall (fun v => min <= v <= max) l
        /\ forall v, v ∈ l <-> exists part lo hi step, part ∈ parts field /\ names min max part lo hi step /\ runs_through lo hi step v).

Lemma base_bounds min max step s lo hi : base min max step s lo hi -> min <= max -> min <= lo <= hi /\ hi <= max.
Proof. intros [-> | | ]; intros; try case_decide; lia. Qed.
Lemma names_bounds min max part lo hi step : names min max part lo hi step -> min <= max -> min <= lo <= hi /\ hi <= max.
Proof. intros []; by eapply base_bounds. Qed.
Lemma base_unique min max step s lo hi lo' hi' : base min max step s lo hi -> base min max step s lo' hi' -> lo = lo' /\ hi = hi'.
Proof.
  intros H1 H2. destruct H1 as [| a b x y Hs Hc Ha Hb | a b v Hs Hc Hv], H2 as [| a' b' x' y' Hs' Hc' Ha' Hb' | a' b' v' Hs' Hc' Hv']; try done;
    rewrite Hc in Hc'; try done; injection Hc' as <- <-; [rewrite Ha in Ha'; rewrite Hb in Hb' | rewrite Hv in Hv']; naive_solver.
Qed.
Lemma names_unique min max part lo hi step lo' hi' step' :
  names min max part lo hi step -> names min max part lo' hi' step' -> lo = lo' /\ hi = hi' /\ step = step'.
Proof.
  intros [b a x y Hc Hb | b a st x y Hc Hs Hp Hb] [b' a' x' y' Hc' Hb' | b' a' st' x' y' Hc' Hs' Hp' Hb']; rewrite Hc in Hc'; try done;
    injection Hc' as <- <-; [| rewrite Hs in Hs'; injection Hs' as <-]; by destruct (base_unique _ _ _ _ _ _ _ _ Hb Hb') as [-> ->].
Qed.

Lemma field_means_exact min max field l : min <= max -> well_formed min max field -> field_ok min max l ->
  (modest min max field -> forall v, v ∈ l <-> exists part lo hi step, part ∈ parts field /\ names min max part lo hi step /\ runs_through lo hi step v) ->
  field_means min max field l.
Proof.
  intros Hm Hw Hl Hex. split; [done |]. split; [done |]. intros Hmod. split; [| by apply Hex].
  apply Forall_forall. intros v (part & lo & hi & step & _ & Hn & Hv & _)%Hex; [| done]. pose proof (names_bounds _ _ _ _ _ _ Hn Hm). lia.
Qed.

(** The list of a part that names something. *)
Definition part_list (min max : Z) (part : string) (l : list Z) : Prop :=
  exists lo hi step, names min max part lo hi step /\ field_ok min max l /\ (step < 2 ^ 62 -> forall v, v ∈ l <-> runs_through lo hi step v).

Lemma list_ok min max start end_ step : limits min max -> min <= start -> start <= end_ -> end_ <= max -> 0 < step < 2 ^ 63 ->
  exists l, rangeList start end_ step = Ret l /\ field_ok min max l /\ (step < 2 ^ 62 -> forall v, v ∈ l <-> runs_through start end_ step v).
Proof.
  intros [Hm Hmax] Hs Hse He Hst. destruct (rangeList_ok start end_ step) as (l & -> & Hin & Hall & Hex); [lia | lia | done |]. exists l. split; [done |].
  split; [| done]. split.
  - eapply Forall_impl; [exact Hall |]. intros v. cbn. lia.
  - exists start. split; [done | lia].
Qed.

(** A text that is refused stands for nothing. *)
Ltac no_base Hcut :=
  returns; let Hb := fresh "Hb" in let Hc := fresh "Hc" in
  intros ? ? Hb; destruct Hb as [| ? ? ? ? ? Hc | ? ? ? ? Hc]; try done; rewrite Hcut in Hc; try done; injection Hc as <- <-;
  repeat match goal with H1 : Atoi ?x = _, H2 : Atoi ?x = _ |- _ => rewrite H1 in H2; injection H2 as ? ?; subst end; first [done | lia].

(** The rest of [parsePart] once the step is known. *)
Lemma base_list min max step s : limits min max -> 0 < step < 2 ^ 63 ->
  exists r, (if decide (s = "*"%string) then (let! l := rangeList min max step in Ret (Ok l)) else
    let '(lo, hi, ok) := Cut s "-"%char in
    if ok : bool then
      let '(start, err) := Atoi lo in
      if decide (err <> None) then Ret (Err (InvalidRangeStart lo)) else
      let '(end_, err) := Atoi hi in
      if decide (err <> None) then Ret (Err (InvalidRangeEnd hi)) else
      if decide (start < min \/ max < end_ \/ end_ < start) then Ret (Err (RangeOutOfBounds start end_ min max))
      else (let! l := rangeList start end_ step in Ret (Ok l))
    else
      let '(val, err) := Atoi s in
      if decide (err <> None) then Ret (Err (InvalidValue s)) else
      if decide (val < min \/ max < val) then Ret (Err (ValueOutOfBounds val min max)) else
      if decide (1 < step) then (let! l := rangeList val max step in Ret (Ok l)) else Ret (Ok [val])) = Ret r
  /\ match r with
     | Ok l => exists lo hi, base min max step s lo hi /\ field_ok min max l /\ (step < 2 ^ 62 -> forall v, v ∈ l <-> runs_through lo hi step v)
     | Err _ => forall lo hi, ~ base min max step s lo hi
     end.
Proof.
  intros Hm Hstep. pose proof Hm as [? ?]. case_decide as Hstar.
  { destruct (list_ok min max min max step) as (l & -> & Hl); try done; try lia. returns. exists min, max. split; [by constructor | done]. }
  destruct (Cut s "-"%char) as [[lo hi] [|]] eqn:Hcut.
  - destruct (Atoi lo) as [start e1] eqn:Ha. destruct (decide (e1 <> None)) as [| He1]; [no_base Hcut |].
    destruct (Atoi hi) as [end_ e2] eqn:Hb. destruct (decide (e2 <> None)) as [| He2]; [no_base Hcut |].
    case_decide as Hout; [no_base Hcut |].
    destruct (list_ok min max start end_ step) as (l & -> & Hl); try done; try lia. returns. exists start, end_. split; [| done].
    assert (e1 = None) as -> by (destruct e1; [by destruct He1 | done]). assert (e2 = None) as -> by (destruct e2; [by destruct He2 | done]).
    eapply base_range; [done | exact Hcut | done | done | lia..].
  - destruct (Atoi s) as [val e1] eqn:Ha. case_decide as He1; [no_base Hcut |].
    case_decide; [no_base Hcut |]. assert (e1 = None) as -> by (destruct e1; [by destruct He1 | done]).
    assert (Hb : base min max step s val (if decide (1 < step) then max else val)) by (eapply base_value; [done | exact Hcut | done | lia]).
    case_decide.
    + destruct (list_ok min max val max step) as (l & -> & Hl); try done; try lia. returns. eauto.
    + returns. exists val, val. split; [exact Hb |]. split; [split; [repeat constructor; lia | exists val; split; [by left | lia]] |].
      intros _ v. rewrite list_elem_of_singleton. unfold runs_through. split; [intros ->; rewrite Z.sub_diag, Z.mod_0_l by lia; lia | lia].
Qed.

Lemma parsePart_means part min max : limits min max ->
  exists r, parsePart part min max = Ret r
    /\ match r with Ok l => part_list min max part l | Err _ => forall lo hi step, ~ names min max part lo hi step end.
Proof.
  intros Hm. unfold parsePart. destruct (Cut part "/"%char) as [[before after] ok] eqn:Hcut. pose proof (Atoi_bound after) as Hs.
  destruct (Atoi after) as [s err] eqn:Hs'. cbn [fst] in Hs. destruct ok; cbn [andb].
  - destruct (bool_decide (err = None) && bool_decide (0 < s)) eqn:Hok; cbn [negb].
    + apply andb_true_iff in Hok as [->%bool_decide_eq_true_1 Hpos%bool_decide_eq_true_1].
      destruct (base_list min max s before Hm ltac:(lia)) as (r & Hr & Hb). exists r. split; [exact Hr |]. destruct r as [l | e].
      * destruct Hb as (lo & hi & Hb & Hl). exists lo, hi, s. split; [by eapply names_step | done].
      * intros lo hi step Hn. destruct Hn as [? ? ? ? Hc | ? ? st ? ? Hc Ha _ Hn]; rewrite Hcut in Hc; [done |]. injection Hc as <- <-.
        rewrite Hs' in Ha. injection Ha as <-. by apply (Hb _ _ Hn).
    + returns. intros lo hi step Hn. destruct Hn as [? ? ? ? Hc | ? ? st ? ? Hc Ha Hp _]; rewrite Hcut in Hc; [done |]. injection Hc as <- <-.
      rewrite Hs' in Ha. injection Ha as -> ->. by rewrite !bool_decide_true in Hok.
  - destruct (base_list min max 1 part Hm ltac:(lia)) as (r & Hr & Hb). exists r. split; [exact Hr |]. destruct r as [l | e].
    + destruct Hb as (lo & hi & Hb & Hl). exists lo, hi, 1. split; [by eapply names_plain | done].
    + intros lo hi step Hn. destruct Hn as [? ? ? ? _ Hn | ? ? st ? ? Hc]; [by apply (Hb _ _ Hn) | by rewrite Hcut in Hc].
Qed.

Lemma merge_in vals acc v : v ∈ merge_values acc vals <-> v ∈ acc \/ v ∈ vals.
Proof.
  revert acc. unfold merge_values. induction vals as [| x vals IH]; intros acc; cbn [foldl]; [set_solver |]. rewrite IH. case_decide; set_solver.
Qed.

Lemma parse_parts_means ps min max acc : limits min max -> (ps <> [] \/ field_ok min max acc) -> Forall (fun v => v <= max) acc ->
  exists r, parse_parts ps min max acc = Ret r
    /\ match r with
       | Ok l => (forall part, part ∈ ps -> exists lo hi step, names min max part lo hi step) /\ field_ok min max l
           /\ ((forall part lo hi step, part ∈ ps -> names min max part lo hi step -> step < 2 ^ 62) ->
              forall v, v ∈ l <-> v ∈ acc \/ exists part lo hi step, part ∈ ps /\ names min max part lo hi step /\ runs_through lo hi step v)
       | Err _ => exists part, part ∈ ps /\ forall lo hi step, ~ names min max part lo hi step
       end.
Proof.
  intros Hm. revert acc. induction ps as [| part ps IH]; intros acc Hacc Hall; cbn [parse_parts].
  - destruct Hacc; [done |]. returns. split; [by intros part ?%not_elem_of_nil |]. split; [done |]. intros _ v.
    split; [by left | intros [? | (part & ? & ? & ? & ?%not_elem_of_nil & _)]; done].
  - destruct (parsePart_means part min max Hm) as (r & -> & Hr). cbn [obind]. destruct r as [vals | e]; [| returns; exists part; split; [by left | done]].
    destruct Hr as (lo & hi & step & Hn & [Hv (v0 & Hin & Hrange)] & Hex).
    assert (Hok : field_ok min max (merge_values acc vals)).
    { split; [| exists v0; split; [apply merge_in; by right | done]]. rewrite Forall_forall in *. intros x [Hx | Hx]%merge_in; auto. }
    destruct (IH (merge_values acc vals) (or_intror Hok) ltac:(apply Hok)) as (r & -> & Hr). exists r. split; [done |]. destruct r as [l | e].
    + destruct Hr as (Hw & Hl & Hmean). split; [intros p [-> | Hp]%elem_of_cons; eauto |]. split; [done |]. intros Hmod v.
      rewrite Hmean by (intros; eapply Hmod; [by right | done]). rewrite merge_in, Hex by (eapply Hmod; [by left | done]). split.
      * intros [[Ha | Hr] | (p & a & b & c & Hp & Hr)]; [by left | right; exists part, lo, hi, step; split; [by left | done] | right; exists p, a, b, c; split; [by right | done]].
      * intros [Ha | (p & a & b & c & [-> | Hp]%elem_of_cons & Hnp & Hr)]; [by left; left | left; right | right; by exists p, a, b, c].
        destruct (names_unique _ _ _ _ _ _ _ _ _ Hn Hnp) as (-> & -> & ->). done.
    + destruct Hr as (p & Hp & Hno). exists p. split; [by right | done].
Qed.

Lemma parseField_means field min max : limits min max ->
  exists r, parseField field min max = Ret r /\ match r with Ok (l, _) => field_means min max field l | Err _ => ~ well_formed min max field end.
Proof.
  intros Hm. pose proof Hm as [? ?]. unfold parseField. case_decide as Hstar.
  - destruct (list_ok min max min max 1) as (l & -> & Hl & Hex); try done; try lia. returns. subst field.
    assert (Hn : names min max "*" min max 1) by (eapply names_plain; [done | by constructor]).
    assert (Hp : forall part, part ∈ parts "*" -> part = "*"%string) by (intros part Hp; by apply list_elem_of_singleton in Hp).
    apply field_means_exact; [lia | intros part ->%Hp; eauto | done |]. intros _ v. rewrite Hex by lia. split.
    + intros Hv. exists "*"%string, min, max, 1. split; [by left | done].
    + intros (part & lo & hi & step & ->%Hp & Hn' & Hv). by destruct (names_unique _ _ _ _ _ _ _ _ _ Hn Hn') as (-> & -> & ->).
  - destruct (Cut field "/"%char) as [[before after] ok]. destruct (Split_cons field ","%char) as (w & ws & Hs).
    destruct (parse_parts_means (Split field ","%char) min max [] Hm) as (r & -> & Hr); [left; by rewrite Hs | constructor |]. cbn [obind].
    eexists. split; [done |]. destruct r as [[| x l] | e].
    + destruct Hr as (_ & [_ (v & Hv & _)] & _). by apply not_elem_of_nil in Hv.
    + destruct Hr as (Hw & Hl & Hmean). apply field_means_exact; [lia | done | done |]. intros Hmod v. rewrite (Hmean Hmod).
      split; [intros [Hv | Hv]; [by apply not_elem_of_nil in Hv | done] | by right].
    + destruct Hr as (p & Hp & Hno). intros Hw. destruct (Hw p Hp) as (lo & hi & step & Hn). by eapply Hno.
Qed.

(** The five fields of an expression with the bounds of each. *)
Definition bounds : list (Z * Z) := [(0, 59); (0, 23); (1, 31); (1, 12); (0, 6)].
Definition values (s : cronSchedule) : list (list Z) := [minute s; hour s; dayOfMonth s; month s; dayOfWeek s].

(** C31: parsing returns for every string. It accepts exactly the strings of five
    fields, between white space, each a list of well-formed parts within its
    bounds. In each field of an accepted one there is a value within the bounds,
    and none above them; and if no step of the field is as large as [2 ^ 62] its
    values are exactly those that its parts name, all of them within the bounds.
    (A larger step can wrap around and add values below them.) *)
Theorem parse_is_total expr :
  exists r, parseCronExpr expr = Ret r /\
    match r with
    | Ok s => Forall2 (fun mf l => field_means mf.1.1 mf.1.2 mf.2 l) (zip bounds (Fields expr)) (values s) /\ length (Fields expr) = 5%nat
    | Err _ => ~ (length (Fields expr) = 5%nat /\ Forall (fun mf => well_formed mf.1.1 mf.1.2 mf.2) (zip bounds (Fields expr)))
    end.
Proof.
  unfold parseCronExpr. destruct (Fields expr) as [| f0 [| f1 [| f2 [| f3 [| f4 [| f5 fs]]]]]]; try by (returns; intros [[=] _]).
  unfold named_field.
  do 5 (lazymatch goal with |- context [parseField ?f ?a ?b] =>
    let r := fresh "r" in let H := fresh "H" in let l := fresh "l" in
    destruct (parseField_means f a b ltac:(by repeat split)) as (r & -> & H); cbn [obind];
    destruct r as [[l ?] |]; [| by (returns; intros [_ Hw]; apply H; repeat (apply Forall_cons in Hw as [? Hw]; try done))] end).
  returns. split; [| done]. do 5 (constructor; [assumption |]). constructor.
Qed.

(** A step that makes the addition wrap adds minutes below the start. *)
Example huge_step_wraps : exists l, parseField "30/9223372036854775807" 0 59 = Ret (Ok (l, false)) /\ 28 ∈ l /\ 0 ∈ l.
Proof. eexists. split; [by vm_compute |]. split; apply (bool_decide_unpack _); by vm_compute. Qed.
