(* ===== verification/TccComponent.v ===== *)
(** * TccComponent
    The Redis-backed participant of a transaction ([tcc_demo/example/tcc_component.go]):
    Try, Confirm and Cancel as sequences of commands on a shared store, each of
    which may fail. *)
From S2P Require Import Prelude.
Local Open Scope string_scope.

(** ** Commands *)

(** The store, and what will become of the next commands; afterwards they are fine. *)
Record redis := mkRedis { keys : gmap string string; faults : list fault }.

(** A call that may fail with an error. *)
Definition call (A : Type) := redis -> option A * redis.
Definition ret {A} (a : A) : call A := fun r => (Some a, r).
Definition fail {A} : call A := fun r => (None, r).
Definition bind {A B} (m : call A) (k : A -> call B) : call B :=
  fun r => match m r with (Some a, r) => k a r | (None, r) => (None, r) end.
Notation "'do!' x <- m ; k" := (bind m (fun x => k)) (at level 20, x pattern at level 0, m at level 100, k at level 200) : go_scope.

Definition command {A} (f : gmap string string -> A * gmap string string) : call A := fun r =>
  match faults r with
  | Lost :: rest => (None, mkRedis (keys r) rest)
  | Unanswered :: rest => (None, mkRedis (f (keys r)).2 rest)
  | Fine :: rest => (Some (f (keys r)).1, mkRedis (f (keys r)).2 rest)
  | [] => (Some (f (keys r)).1, mkRedis (f (keys r)).2 [])
  end.
(** The error of a command that the caller drops. *)
Definition ignoring {A} (m : call A) : call unit := fun r => (Some tt, (m r).2).

(** [Get] answers [redis.Nil], here [None], for a key that is not there. *)
Definition GetKey (k : string) : call (option string) := command (fun m => (m !! k, m)).
Definition SetKey (k v : string) : call unit := command (fun m => (tt, <[k := v]> m)).
Definition SetNX (k v : string) : call Z := command (fun m => match m !! k with Some _ => (0, m) | None => (1, <[k := v]> m) end).
Definition DelKey (k : string) : call unit := command (fun m => (tt, delete k m)).
(** The lock of a transaction is taken, or the call fails; it is held for the
    rest of the method, so that methods do not interleave. *)
Definition LockTX : call unit := command (fun m => (tt, m)).

(** ** Keys ([pkg/redis.go]) *)

Definition BuildTXKey (componentID txID : string) : string := "txKey:" ++ componentID ++ ":" ++ txID.
Definition BuildTXDetailKey (componentID txID : string) : string := "txDetailKey:" ++ componentID ++ ":" ++ txID.
Definition BuildDataKey (componentID txID bizID : string) : string := "txKey:" ++ componentID ++ ":" ++ txID ++ ":" ++ bizID.

Definition TXTried : string := "tried".
Definition TXConfirmed : string := "confirmed".
Definition TXCanceled : string := "canceled".
Definition DataFrozen : string := "frozen".
Definition DataSuccessful : string := "successful".

(** ** The methods; the result is the [ACK] of the response *)

Section Component.
Context (id : string).

Definition Try (txID bizID : string) : call bool :=
  do! _ <- LockTX;
  do! txStatus <- GetKey (BuildTXKey id txID);
  if decide (txStatus = Some TXTried \/ txStatus = Some TXConfirmed) then ret true else
  if decide (txStatus = Some TXCanceled) then ret false else
  do! _ <- SetKey (BuildTXDetailKey id txID) bizID;
  do! reply <- SetNX (BuildDataKey id txID bizID) DataFrozen;
  if decide (reply <> 1)%Z then ret false else
  do! _ <- SetKey (BuildTXKey id txID) TXTried;
  ret true.

(** Where the code does not tell [redis.Nil] from other errors, so does this. *)
Definition GetOrFail (k : string) : call string :=
  do! v <- GetKey k;
  match v with Some v => ret v | None => fail end.

Definition Confirm (txID : string) : call bool :=
  do! _ <- LockTX;
  do! txStatus <- GetOrFail (BuildTXKey id txID);
  if decide (txStatus = TXConfirmed) then ret true else
  if decide (txStatus <> TXTried) then ret false else
  do! bizID <- GetOrFail (BuildTXDetailKey id txID);
  do! dataStatus <- GetOrFail (BuildDataKey id txID bizID);
  if decide (dataStatus <> DataFrozen) then ret false else
  do! _ <- SetKey (BuildDataKey id txID bizID) DataSuccessful;
  do! _ <- ignoring (SetKey (BuildTXKey id txID) TXConfirmed);
  ret true.

Definition Cancel (txID : string) : call bool :=
  do! _ <- LockTX;
  do! txStatus <- GetKey (BuildTXKey id txID);
  if decide (txStatus = Some TXConfirmed) then fail else
  do! bizID <- GetOrFail (BuildTXDetailKey id txID);
  do! _ <- DelKey (BuildDataKey id txID bizID);
  do! _ <- ignoring (SetKey (BuildTXKey id txID) TXCanceled);
  ret true.

(** A call of one of them. *)
Inductive method := MTry (bizID : string) | MConfirm | MCancel.
Definition perform (txID : string) (m : method) : call bool :=
  match m with MTry bizID => Try txID bizID | MConfirm => Confirm txID | MCancel => Cancel txID end.

(** Calls one after the other, with their answers. *)
Fixpoint perform_all (txID : string) (ms : list method) (r : redis) : list (option bool) * redis :=
  match ms with
  | [] => ([], r)
  | m :: ms => let '(ack, r) := perform txID m r in let '(acks, r) := perform_all txID ms r in (ack :: acks, r)
  end.
End Component.

(** ** What a component promises *)

Section Promises.
Context (id txID bizID : string).

Abbreviation tx_key := (BuildTXKey id txID).
Abbreviation detail_key := (BuildTXDetailKey id txID).
Abbreviation data_key := (BuildDataKey id txID bizID).

Lemma append_longer (a b : string) : a <> (a ++ ":" ++ b)%string.
Proof. induction a as [| x a IH]; [done |]. intros [= H]. done. Qed.

Lemma tx_data_keys : tx_key <> data_key.
Proof.
  unfold BuildTXKey, BuildDataKey. intros H. apply append_inj_l in H. apply append_inj_l in H. apply append_inj_l in H. by apply append_longer in H.
Qed.
Lemma detail_keys : tx_key <> detail_key /\ data_key <> detail_key.
Proof. split; intros H; discriminate H. Qed.

(** The stages of a transaction at a component: what its keys say. *)
Inductive stage := Untouched | Begun | Frozen | Tried | Settled | Confirmed | Canceling | Canceled.

(** The status of the transaction, whether the details are there, and the data. *)
Definition stage_keys (s : stage) : option string * bool * option string :=
  match s with
  | Untouched => (None, false, None)
  | Begun => (None, true, None)
  | Frozen => (None, true, Some DataFrozen)
  | Tried => (Some TXTried, true, Some DataFrozen)
  | Settled => (Some TXTried, true, Some DataSuccessful)
  | Confirmed => (Some TXConfirmed, true, Some DataSuccessful)
  | Canceling => (Some TXTried, true, None)
  | Canceled => (Some TXCanceled, true, None)
  end.
Definition at_stage (m : gmap string string) (s : stage) : Prop :=
  let '(tx, details, data) := stage_keys s in
  m !! tx_key = tx /\ m !! detail_key = (if details : bool then Some bizID else None) /\ m !! data_key = data.

(** What a method answers, and the stage after it, when no command fails. *)
Definition stage_step (s : stage) (m : method) : option bool * stage :=
  match m, s with
  | MTry _, (Untouched | Begun | Tried) => (Some true, Tried)
  | MTry _, (Settled | Confirmed | Canceling) => (Some true, s)
  | MTry _, (Frozen | Canceled) => (Some false, s)
  | MConfirm, Tried => (Some true, Confirmed)
  | MConfirm, Confirmed => (Some true, Confirmed)
  | MConfirm, (Settled | Canceled) => (Some false, s)
  | MConfirm, (Untouched | Begun | Frozen | Canceling) => (None, s)
  | MCancel, (Untouched | Confirmed) => (None, s)
  | MCancel, (Begun | Frozen | Tried | Settled | Canceling | Canceled) => (Some true, Canceled)
  end.

Definition method_ok (m : method) : Prop := match m with MTry b => b = bizID | _ => True end.

Lemma bind_fine {A B} (f : gmap string string -> A * gmap string string) (k : A -> call B) ks :
  bind (command f) k (mkRedis ks []) = k (f ks).1 (mkRedis (f ks).2 []).
Proof. reflexivity. Qed.
Lemma bind_ignoring {A B} (f : gmap string string -> A * gmap string string) (k : unit -> call B) ks :
  bind (ignoring (command f)) k (mkRedis ks []) = k tt (mkRedis (f ks).2 []).
Proof. reflexivity. Qed.
Lemma bind_get {B} k (f : string -> call B) ks :
  bind (GetOrFail k) f (mkRedis ks []) = match ks !! k with Some v => f v (mkRedis ks []) | None => (None, mkRedis ks []) end.
Proof. unfold GetOrFail, GetKey, bind, command. cbn. by destruct (ks !! k). Qed.

(** Runs the commands of a method on keys that are known. *)
Ltac run_method :=
  unfold LockTX, GetKey, SetKey, SetNX, DelKey;
  repeat (first [rewrite bind_fine | rewrite bind_ignoring | rewrite bind_get]; cbn [fst snd];
    repeat first [rewrite lookup_insert_eq | rewrite lookup_insert_ne by congruence | rewrite lookup_delete_ne by congruence
      | match goal with H : _ !! _ = _ |- _ => rewrite H end]; cbn [fst snd];
    repeat (case_decide; [try (exfalso; unfold TXTried, TXConfirmed, TXCanceled, DataFrozen, DataSuccessful in *; intuition congruence) |
      try (exfalso; unfold TXTried, TXConfirmed, TXCanceled, DataFrozen, DataSuccessful in *; intuition congruence)])).

Ltac keys_known :=
  repeat first [rewrite lookup_insert_eq | rewrite lookup_delete_eq | rewrite lookup_insert_ne by congruence | rewrite lookup_delete_ne by congruence]; auto.

Lemma perform_stage m s ks : at_stage ks s -> method_ok m ->
  exists ks', perform id txID m (mkRedis ks []) = ((stage_step s m).1, mkRedis ks' []) /\ at_stage ks' (stage_step s m).2.
Proof.
  pose proof tx_data_keys as Hn1. destruct detail_keys as [Hn2 Hn3]. intros Hs Hm.
  destruct m as [b | |]; [cbn in Hm; subst b | |]; destruct s; destruct Hs as (Htx & Hdet & Hdata); cbn [perform stage_step fst snd];
    unfold Try, Confirm, Cancel; run_method; (eexists; split; [reflexivity |]; split_and!; keys_known).
Qed.

(** The stages that are reached when no command fails. *)
Definition regular (s : stage) : Prop := s = Untouched \/ s = Tried \/ s = Confirmed \/ s = Canceled.

(** [k] calls were answered, the [i]-th of them positively. *)
Definition acked (m : method) (ms : list method) (acks : list (option bool)) : Prop :=
  exists i, ms !! i = Some m /\ acks !! i = Some (Some true).

Lemma perform_all_regular ms : forall s ks, at_stage ks s -> regular s -> Forall method_ok ms ->
  exists acks ks' s', perform_all id txID ms (mkRedis ks []) = (acks, mkRedis ks' []) /\ at_stage ks' s' /\ regular s'
    /\ (acked MConfirm ms acks -> s' = Confirmed /\ (s = Confirmed \/ s = Tried \/ acked (MTry bizID) ms acks))
    /\ (acked MCancel ms acks -> s' = Canceled) /\ (s = Confirmed -> s' = Confirmed) /\ (s = Canceled -> s' = Canceled /\ ~ acked (MTry bizID) ms acks).
Proof.
  induction ms as [| m ms IH]; intros s ks Hs Hreg Hms.
  - exists [], ks, s. split_and!; try done; try (intros (i & ? & ?); done). intros ->. split; [done | by intros (i & ? & ?)].
  - apply Forall_cons in Hms as [Hm Hms]. destruct (perform_stage m s ks Hs Hm) as (ks1 & Hp & Hs1). cbn [perform_all]. rewrite Hp.
    assert (Hreg1 : regular (stage_step s m).2) by (unfold regular in *; destruct Hreg as [-> | [-> | [-> | ->]]]; destruct m; cbn; tauto).
    destruct (IH _ ks1 Hs1 Hreg1 Hms) as (acks & ks' & s' & Hall & Hs' & Hreg' & HC & HX & HCs & HXs). rewrite Hall.
    exists ((stage_step s m).1 :: acks), ks', s'. split; [done |]. split; [done |]. split; [done |].
    assert (Hcons : forall n, acked n (m :: ms) ((stage_step s m).1 :: acks) <-> n = m /\ (stage_step s m).1 = Some true \/ acked n ms acks).
    { intros n. split; [intros ([| i] & H1 & H2); cbn in H1, H2; [left; split; congruence | right; by exists i] |].
      intros [[-> H] | (i & H1 & H2)]; [exists O; cbn; by rewrite H | by exists (S i)]. }
    rewrite !Hcons. destruct Hreg as [-> | [-> | [-> | ->]]]; destruct m as [b | |]; cbn in Hm; try subst b; cbn [stage_step fst snd] in *; intuition congruence.
Qed.

(** Called any number of times in any order, with no command failing, a
    component settles a transaction one way: a Confirm and a Cancel are never
    both acknowledged; after an acknowledged Confirm the data stay committed,
    and there was an acknowledged Try; after an acknowledged Cancel the data are
    gone, and a Try that comes later is refused. *)
Lemma faultless_component_settles ms ks : at_stage ks Untouched -> Forall method_ok ms ->
  exists acks ks', perform_all id txID ms (mkRedis ks []) = (acks, mkRedis ks' [])
    /\ ~ (acked MConfirm ms acks /\ acked MCancel ms acks)
    /\ (acked MConfirm ms acks -> ks' !! data_key = Some DataSuccessful /\ acked (MTry bizID) ms acks)
    /\ (acked MCancel ms acks -> ks' !! data_key = None /\ (perform id txID (MTry bizID) (mkRedis ks' [])).1 = Some false).
Proof.
  intros Hs Hms. destruct (perform_all_regular ms Untouched ks Hs ltac:(by left) Hms) as (acks & ks' & s' & Hall & Hs' & _ & HC & HX & _).
  exists acks, ks'. split; [done |]. split; [intros [H1%HC H2%HX]; destruct H1; congruence |]. split.
  - intros [-> [? | [? | Ht]]]%HC; try done. destruct Hs' as (_ & _ & Hd). done.
  - intros ->%HX. pose proof Hs' as (_ & _ & Hd). split; [done |]. destruct (perform_stage (MTry bizID) Canceled ks' Hs' eq_refl) as (ks2 & -> & _). done.
Qed.

(** ** Commands that fail *)










(** A Cancel for a transaction that never got as far as a Try is an error, now
    and whenever it is repeated, whatever the commands answer. *)
Lemma cancel_before_try_fails ks fs : at_stage ks Untouched -> (perform id txID MCancel (mkRedis ks fs)).1 = None
  /\ keys (perform id txID MCancel (mkRedis ks fs)).2 = ks.
Proof.
  intros (Htx & Hdet & _). unfold perform, Cancel, LockTX, GetKey, GetOrFail, bind, command. cbn [faults keys fst snd].
  destruct fs as [| [] [| [] [| [] fs]]]; cbn [faults keys fst snd]; rewrite ?Htx; try done;
    rewrite decide_False by done; unfold GetKey, command; cbn [faults keys fst snd]; rewrite ?Hdet; done.
Qed.
End Promises.

(** When the status written last is lost, a repeated Confirm is refused for ever
    though the data are committed, and a Cancel is acknowledged after the
    acknowledged Confirm. *)
Lemma lost_status_write :
  let r0 := mkRedis ∅ (replicate 5 Fine ++ replicate 5 Fine ++ [Lost])%list in
  (perform_all "a" "1" [MTry "b"; MConfirm; MConfirm; MCancel] r0).1 = [Some true; Some true; Some false; Some true].
Proof. by vm_compute. Qed.

