(* ===== verification/TccManager.v ===== *)
(** * TccManager
    The transaction manager ([tcc_demo]: [model.go], [tccregister.go], [option.go],
    [txmanager.go]) with the record that [example/txstore.go] and
    [example/dao/txrecord.go] keep of a transaction. The goroutines of one
    transaction, of [twoPhaseCommit] and of the monitors of all nodes, are
    threads that interleave at their calls to the store and the components. *)
From S2P Require Import Prelude.
(** ** [model.go] *)

Inductive TXStatus := TXHanging | TXSuccessful | TXFailure.
#[export] Instance TXStatus_eq_dec : EqDecision TXStatus.
Proof. solve_decision. Defined.
Inductive ComponentTryStatus := TryHanging | TrySuccessful | TryFailure.
#[export] Instance ComponentTryStatus_eq_dec : EqDecision ComponentTryStatus.
Proof. solve_decision. Defined.

Record ComponentTryEntity := mkEntity { ComponentID : string; TryStatus : ComponentTryStatus }.
Record Transaction := mkTransaction { Components : list ComponentTryEntity; Status : TXStatus; CreatedAt : Z }.

(** The loop of [getStatus]: [None] when it meets a failure, else whether a
    component is hanging. *)
Fixpoint scan_components (hangingExist : bool) (cs : list ComponentTryEntity) : option bool :=
  match cs with
  | [] => Some hangingExist
  | c :: cs => if decide (TryStatus c = TryFailure) then None
               else scan_components (hangingExist || bool_decide (TryStatus c <> TrySuccessful)) cs
  end.

Definition getStatus (createdBefore : Z) (t : Transaction) : TXStatus :=
  match scan_components false (Components t) with
  | None => TXFailure
  | Some hangingExist =>
      if hangingExist && bool_decide (CreatedAt t < createdBefore) then TXFailure
      else if hangingExist : bool then TXHanging else TXSuccessful
  end.

(** ** [option.go] *)

Record Options := mkOptions { Timeout : Z; MonitorTick : Z }.
Definition second : Z := 10 ^ 9.
Definition WithTimeout (timeout : Z) (o : Options) : Options :=
  mkOptions (if decide (timeout <= 0) then 5 * second else timeout) (MonitorTick o).
Definition WithMonitorTick (tick : Z) (o : Options) : Options :=
  mkOptions (Timeout o) (if decide (tick <= 0) then 10 * second else tick).
Definition repair (o : Options) : Options :=
  mkOptions (if decide (Timeout o <= 0) then 5 * second else Timeout o) (if decide (MonitorTick o <= 0) then 10 * second else MonitorTick o).

(** ** [tccregister.go] *)

Section Registry.
Context {C : Type} (ID : C -> string).

Definition register (component : C) (components : gmap string C) : result string (gmap string C) :=
  match components !! ID component with
  | Some _ => Err "repeat component id"%string
  | None => Ok (<[ID component := component]> components)
  end.

Fixpoint registry_getComponents (components : gmap string C) (ids : list string) : result string (list C) :=
  match ids with
  | [] => Ok []
  | i :: ids =>
      match components !! i with
      | None => Err ("component id: " ++ i ++ " not existed")%string
      | Some c => match registry_getComponents components ids with Ok cs => Ok (c :: cs) | Err e => Err e end
      end
  end.

(** [getComponents] of the manager: the components of the requests, with the
    request data, in the order of the requests. *)
Context {D : Type}.
Fixpoint collect_requests (reqs : list (string * D)) (idToReq : gmap string D) (ids : list string) : result string (gmap string D * list string) :=
  match reqs with
  | [] => Ok (idToReq, ids)
  | (i, d) :: reqs =>
      match idToReq !! i with
      | Some _ => Err ("repeat component: " ++ i)%string
      | None => collect_requests reqs (<[i := d]> idToReq) (ids ++ [i])
      end
  end.

(** [idToReq[component.ID()].Request] panics for an ID that was not asked for. *)
Fixpoint entities (idToReq : gmap string D) (cs : list C) : outcome (list (D * C)) :=
  match cs with
  | [] => Ret []
  | c :: cs =>
      match idToReq !! ID c with
      | None => Panic "nil pointer dereference"
      | Some d => let! rest := entities idToReq cs in Ret ((d, c) :: rest)
      end
  end.

Definition getComponents (components : gmap string C) (reqs : list (string * D)) : outcome (result string (list (D * C))) :=
  if decide (reqs = []) then Ret (Err "empty task"%string) else
  match collect_requests reqs ∅ [] with
  | Err e => Ret (Err e)
  | Ok (idToReq, ids) =>
      match registry_getComponents components ids with
      | Err e => Ret (Err e)
      | Ok cs =>
          if decide (length ids <> length cs) then Ret (Err "invalid componentIDs "%string)
          else let! es := entities idToReq cs in Ret (Ok es)
      end
  end.
End Registry.

(** ** The monitor's timer *)

Definition backOffTick (monitorTick tick : Z) : Z :=
  let tick := i64 (tick * 2) in
  let threshold := i64 (monitorTick * 8) in
  if decide (threshold < tick) then threshold else tick.

(** The interval after a round that failed or not. *)
Definition next_tick (monitorTick : Z) (failed : bool) (tick : Z) : Z :=
  if failed then backOffTick monitorTick tick else monitorTick.

(** [batchAdvanceProgress]: the first error to arrive. *)
Definition batchAdvanceProgress (arrivals : list (option string)) : option string := head (omap id arrivals).

(** ** The record in the store *)

Record TXRecord := mkRecord { rStatus : TXStatus; rStatuses : gmap string ComponentTryStatus; rCreatedAt : Z }.

(** [UpdateComponentStatus], and [TXUpdate] on top of it. *)
Definition TXUpdate (componentID : string) (accept : bool) (r : TXRecord) : result string TXRecord :=
  let status := if accept then TrySuccessful else TryFailure in
  match rStatuses r !! componentID with
  | None => Err "invalid component"%string
  | Some old =>
      if decide (old = status) then Ok r
      else if decide (old = TryHanging) then Ok (mkRecord (rStatus r) (<[componentID := status]> (rStatuses r)) (rCreatedAt r))
      else Err "invalid status"%string
  end.

Definition TXSubmit (success : bool) (r : TXRecord) : result string TXRecord :=
  if decide (rStatus r = if success then TXFailure else TXSuccessful) then Err "invalid tx status"%string
  else Ok (mkRecord (if success then TXSuccessful else TXFailure) (rStatuses r) (rCreatedAt r)).

(** [CreateTX] *)
Definition CreateTX (ids : list string) (now : Z) : TXRecord :=
  mkRecord TXHanging (list_to_map ((fun i => (i, TryHanging)) <$> ids)) now.

(** [GetTX] and [GetHangingTXs]; the components come in the order of a range
    over a map. *)
Definition snapshot (order : list string) (r : TXRecord) : Transaction :=
  mkTransaction ((fun i => mkEntity i (default TryHanging (rStatuses r !! i))) <$> order) (rStatus r) (rCreatedAt r).
Definition order_of (r : TXRecord) (order : list string) : Prop := NoDup order /\ list_to_set order = dom (rStatuses r).
#[export] Instance order_of_dec r order : Decision (order_of r order).
Proof. unfold order_of. apply _. Defined.

(** ** One transaction *)

(** The goroutine of a component's Try: calling it, about to record the answer,
    or done; it is done well when the answer was an ACK and was recorded. *)
Inductive try_phase := Trying | Answered (ack : bool) | Ended (ack well : bool).

(** A call of [advanceProgress]: the transaction was read; or the second phase is
    under way, with the components still to call. *)
Inductive advance := Holding (t : Transaction) | Calling (success : bool) (todo : list string).

Record system := mkSystem {
  now : Z;
  txRecord : TXRecord;
  tries : gmap string try_phase;
  returned : option bool;
  advances : gmap nat advance;
  nextAdvance : nat;
  calls : list (string * bool)
}.
#[export] Instance eta_system : Eta system := fun s =>
  mkSystem (now s) (txRecord s) (tries s) (returned s) (advances s) (nextAdvance s) (calls s).

(** [Transaction] once its record exists. *)
Definition start (ids : list string) (at_ : Z) : system :=
  mkSystem at_ (CreateTX ids at_) (list_to_map ((fun i => (i, Trying)) <$> ids)) None ∅ 0 [].

Definition phase_ended (p : try_phase) : bool := match p with Ended _ _ => true | _ => false end.
Definition phase_well (p : try_phase) : bool := match p with Ended _ well => well | _ => false end.
Definition all_ended (s : system) : Prop := map_Forall (fun _ p => phase_ended p = true) (tries s).
#[export] Instance all_ended_dec s : Decision (all_ended s).
Proof. unfold all_ended. apply _. Defined.

(** What becomes of a call to the store: it is answered, not carried out, or
    carried out with the answer lost. *)
Inductive store_io := Answer | NotDone | AnswerLost.

Inductive action :=
| Elapse (d : Z)
| TryAnswer (i : string) (ack : bool)
| Update (i : string) (io : store_io)
| Return (order : option (list string))
| Monitor (order : list string)
| Infer (a : nat)
| Second (a : nat) (ack : bool)
| Submit (a : nat) (io : store_io).

Definition spawn (a : advance) (s : system) : system :=
  s <| advances := <[nextAdvance s := a]> (advances s) |> <| nextAdvance := S (nextAdvance s) |>.
Definition stop (a : nat) (s : system) : system := s <| advances := delete a (advances s) |>.

(** The second half of a component's goroutine; whether the caller sees an error. *)
Definition record_try (i : string) (ack : bool) (io : store_io) (s : system) : system :=
  let '(record, err) := match io, TXUpdate i ack (txRecord s) with
    | NotDone, _ => (txRecord s, true)
    | _, Err _ => (txRecord s, true)
    | Answer, Ok r => (r, false)
    | AnswerLost, Ok r => (r, true)
    end in
  s <| txRecord := record |> <| tries := <[i := Ended ack (ack && negb err)]> (tries s) |>.

(** What [advanceProgress] does with the transaction it holds. *)
Definition infer (timeout : Z) (a : nat) (t : Transaction) (s : system) : system :=
  match getStatus (now s - timeout) t with
  | TXHanging => stop a s
  | st => s <| advances := <[a := Calling (bool_decide (st = TXSuccessful)) (ComponentID <$> Components t)]> (advances s) |>
  end.

(** The end of [twoPhaseCommit]: it waits for all goroutines, reads the record,
    unless that fails, and advances it; its result is known by then. *)
Definition finish_two_phase (order : option (list string)) (s : system) : option system :=
  if decide (all_ended s /\ returned s = None) then
    let s := s <| returned := Some (bool_decide (map_Forall (fun _ p => phase_well p = true) (tries s))) |> in
    match order with
    | None => Some s
    | Some order => if decide (order_of (txRecord s) order) then Some (spawn (Holding (snapshot order (txRecord s))) s) else None
    end
  else None.

(** A monitor reads the transactions that are hanging, this one among them. *)
Definition monitor (order : list string) (s : system) : option system :=
  if decide (rStatus (txRecord s) = TXHanging /\ order_of (txRecord s) order)
  then Some (spawn (Holding (snapshot order (txRecord s))) s) else None.

(** One round of the loop of [advanceProgress]. *)
Definition second_call (a : nat) (ack : bool) (s : system) : option system :=
  match advances s !! a with
  | Some (Calling success (i :: todo)) =>
      let s := s <| calls := calls s ++ [(i, success)] |> in
      Some (if ack : bool then s <| advances := <[a := Calling success todo]> (advances s) |> else stop a s)
  | _ => None
  end.

(** [txAdvanceProgress] *)
Definition submit_status (a : nat) (io : store_io) (s : system) : option system :=
  match advances s !! a with
  | Some (Calling success []) =>
      let record := match io, TXSubmit success (txRecord s) with
        | NotDone, _ | _, Err _ => txRecord s
        | _, Ok r => r
        end in
      Some (stop a (s <| txRecord := record |>))
  | _ => None
  end.

Definition step (timeout : Z) (s : system) (act : action) : option system :=
  match act with
  | Elapse d => if decide (0 <= d) then Some (s <| now := now s + d |>) else None
  | TryAnswer i ack =>
      match tries s !! i with
      | Some Trying => Some (s <| tries := <[i := Answered ack]> (tries s) |>)
      | _ => None
      end
  | Update i io =>
      match tries s !! i with
      | Some (Answered ack) => Some (record_try i ack io s)
      | _ => None
      end
  | Return order => finish_two_phase order s
  | Monitor order => monitor order s
  | Infer a =>
      match advances s !! a with
      | Some (Holding t) => Some (infer timeout a t s)
      | _ => None
      end
  | Second a ack => second_call a ack s
  | Submit a io => submit_status a io s
  end.

Fixpoint run (timeout : Z) (s : system) (acts : list action) : option system :=
  match acts with
  | [] => Some s
  | act :: acts => match step timeout s act with Some s => run timeout s acts | None => None end
  end.

(** ** Theorems
    What a transaction guarantees: nothing is confirmed before every Try was
    acknowledged, and, unless a time-out is inferred from a record that is still
    changing, no transaction is confirmed in one place and cancelled in another. *)
(** Opens a step, once its action is known. *)
Ltac open_step := cbn [step]; unfold finish_two_phase, monitor, second_call, submit_status; cbv zeta.
Ltac open_step_in H := cbn [step] in H; unfold finish_two_phase, monitor, second_call, submit_status in H; cbv zeta in H.

(** ** [getStatus] *)

Definition failed (c : ComponentTryEntity) : bool := bool_decide (TryStatus c = TryFailure).
Definition unresolved (c : ComponentTryEntity) : bool := bool_decide (TryStatus c <> TrySuccessful).

Lemma scan_components_spec cs h : scan_components h cs = if existsb failed cs then None else Some (h || existsb unresolved cs).
Proof.
  revert h. induction cs as [| c cs IH]; intros h; cbn [scan_components existsb]; [by rewrite orb_false_r |].
  case_decide as Hc; [by rewrite (bool_decide_eq_true_2 _ Hc : failed c = true) |]. rewrite (bool_decide_eq_false_2 _ Hc : failed c = false). cbn [orb].
  rewrite IH. change (bool_decide (TryStatus c <> TrySuccessful)) with (unresolved c). by rewrite orb_assoc.
Qed.

Lemma existsb_in (f : ComponentTryEntity -> bool) cs : existsb f cs = true <-> exists c, c ∈ cs /\ f c = true.
Proof. rewrite existsb_exists. by setoid_rewrite list_elem_of_In. Qed.

Lemma getStatus_successful b t : getStatus b t = TXSuccessful <-> forall c, c ∈ Components t -> TryStatus c = TrySuccessful.
Proof.
  unfold getStatus. rewrite scan_components_spec. cbn [orb]. destruct (existsb failed (Components t)) eqn:Hf.
  - split; [done |]. intros Hall. apply existsb_in in Hf as (c & Hc & Hx%bool_decide_eq_true_1). rewrite (Hall c Hc) in Hx. done.
  - destruct (existsb unresolved (Components t)) eqn:Hu; cbn [andb].
    + split; [by case_bool_decide |]. intros Hall. apply existsb_in in Hu as (c & Hc & Hx%bool_decide_eq_true_1). by rewrite (Hall c Hc) in Hx.
    + split; [| done]. intros _ c Hc. destruct (decide (TryStatus c = TrySuccessful)) as [| Hne]; [done |].
      enough (existsb unresolved (Components t) = true) by congruence. apply existsb_in. exists c. split; [done |]. by apply bool_decide_eq_true_2.
Qed.

Lemma getStatus_failure b t : getStatus b t = TXFailure ->
  (exists c, c ∈ Components t /\ TryStatus c = TryFailure) \/ (exists c, c ∈ Components t /\ TryStatus c <> TrySuccessful) /\ CreatedAt t < b.
Proof.
  unfold getStatus. rewrite scan_components_spec. cbn [orb]. destruct (existsb failed (Components t)) eqn:Hf.
  - intros _. left. apply existsb_in in Hf as (c & Hc & Hx%bool_decide_eq_true_1). by exists c.
  - destruct (existsb unresolved (Components t)) eqn:Hu; cbn [andb]; [| done]. case_bool_decide; [| done]. intros _. right. split; [| done].
    apply existsb_in in Hu as (c & Hc & Hx%bool_decide_eq_true_1). by exists c.
Qed.

Section Invariants.
Context (timeout : Z).
Implicit Types s : system.

Definition status s i : option ComponentTryStatus := rStatuses (txRecord s) !! i.
Definition all_successful s : Prop := forall i st, status s i = Some st -> st = TrySuccessful.

(** A recorded answer stays. *)
Definition keeps s s' : Prop :=
  dom (rStatuses (txRecord s')) = dom (rStatuses (txRecord s)) /\ forall i st, status s i = Some st -> st <> TryHanging -> status s' i = Some st.

Lemma keeps_refl s s' : txRecord s' = txRecord s -> keeps s s'.
Proof. intros H. unfold keeps, status. by rewrite H. Qed.

Lemma TXUpdate_keeps i b r r' : TXUpdate i b r = Ok r' -> dom (rStatuses r') = dom (rStatuses r)
  /\ (forall j st, rStatuses r !! j = Some st -> st <> TryHanging -> rStatuses r' !! j = Some st)
  /\ (forall j st, rStatuses r' !! j = Some st -> rStatuses r !! j = Some st \/ j = i /\ st = if b then TrySuccessful else TryFailure).
Proof.
  unfold TXUpdate. destruct (rStatuses r !! i) as [old |] eqn:Hi; [| done]. case_decide; [intros [= <-]; by auto |]. case_decide as Hh; [| done].
  intros [= <-]. cbn. split; [apply dom_insert_lookup_L; by eexists |]. split.
  - intros j st Hj Hst. destruct (decide (j = i)) as [-> |]; [congruence | by rewrite lookup_insert_ne].
  - intros j st. rewrite lookup_insert_Some. intros [[<- <-] | [? ?]]; auto.
Qed.
Lemma TXSubmit_statuses b r r' : TXSubmit b r = Ok r' -> rStatuses r' = rStatuses r /\ rCreatedAt r' = rCreatedAt r.
Proof. unfold TXSubmit. case_decide; [done |]. by intros [= <-]. Qed.

(** The record after the second half of a goroutine. *)
Lemma record_try_record i b io s : txRecord (record_try i b io s) = txRecord s
  \/ exists r', TXUpdate i b (txRecord s) = Ok r' /\ txRecord (record_try i b io s) = r'.
Proof. unfold record_try. destruct io, (TXUpdate i b (txRecord s)) as [r' |]; cbn; eauto. Qed.
Lemma submit_record (b : bool) (io : store_io) s : let r := match io, TXSubmit b (txRecord s) with NotDone, _ | _, Err _ => txRecord s | _, Ok r => r end in
  rStatuses r = rStatuses (txRecord s) /\ rCreatedAt r = rCreatedAt (txRecord s).
Proof. destruct (TXSubmit b (txRecord s)) as [r |] eqn:Hr; [apply TXSubmit_statuses in Hr; by destruct io | by destruct io]. Qed.

Lemma step_keeps s act s' : step timeout s act = Some s' -> keeps s s'.
Proof.
  destruct act as [d | i ack | i io | order | order | a | a ack | a io]; open_step.
  - case_decide; [| done]. intros [= <-]. by apply keeps_refl.
  - destruct (tries s !! i) as [[] |]; try done. intros [= <-]. by apply keeps_refl.
  - destruct (tries s !! i) as [[| ack |] |]; try done. intros [= <-]. destruct (record_try_record i ack io s) as [Hr | (r' & Hr & Hr')]; [by apply keeps_refl |].
    apply TXUpdate_keeps in Hr as (Hd & Hk & _). unfold keeps, status. rewrite Hr'. by split.
  - case_decide; [| done]. destruct order as [order |]; [case_decide; [| done] |]; intros [= <-]; by apply keeps_refl.
  - case_decide; [| done]. intros [= <-]. by apply keeps_refl.
  - destruct (advances s !! a) as [[t |] |]; try done. intros [= <-]. apply keeps_refl. unfold infer. by destruct (getStatus _ t).
  - destruct (advances s !! a) as [[t | b [| i todo]] |]; try done. intros [= <-]. apply keeps_refl. by destruct ack.
  - destruct (advances s !! a) as [[t | b [| i todo]] |]; try done. intros [= <-]. unfold keeps, status. cbn.
    destruct (submit_record b io s) as [H _]. by rewrite H.
Qed.

(** What was read is out of date only where the record has moved on. *)
Definition holds_of s (t : Transaction) : Prop :=
  (forall i, i ∈ dom (rStatuses (txRecord s)) -> exists c, c ∈ Components t /\ ComponentID c = i)
  /\ forall c, c ∈ Components t -> TryStatus c <> TryHanging -> status s (ComponentID c) = Some (TryStatus c).

Definition acked_well s i : Prop := exists well, tries s !! i = Some (Ended true well).

Record tcc_ok s : Prop := {
  to_acked i : status s i = Some TrySuccessful -> acked_well s i;
  to_dom : dom (tries s) = dom (rStatuses (txRecord s));
  to_holding a t : advances s !! a = Some (Holding t) -> holds_of s t;
  to_calling a todo : advances s !! a = Some (Calling true todo) -> all_successful s;
  to_confirm i : (i, true) ∈ calls s -> all_successful s;
  to_fresh a : is_Some (advances s !! a) -> (a < nextAdvance s)%nat;
  to_returned : returned s = Some true -> all_ended s /\ map_Forall (fun _ p => phase_well p = true) (tries s);
  to_well i ack : tries s !! i = Some (Ended ack true) -> status s i = Some TrySuccessful
}.

Lemma all_successful_keeps s s' : keeps s s' -> all_successful s -> all_successful s'.
Proof.
  intros [Hd Hk] Ha i st Hi. assert (His : i ∈ dom (rStatuses (txRecord s'))) by (apply elem_of_dom; by exists st). rewrite Hd in His.
  apply elem_of_dom in His as [old Hold]. pose proof (Ha i old Hold) as ->. pose proof (Hk i TrySuccessful Hold ltac:(done)). unfold status in *. congruence.
Qed.
Lemma holds_of_keeps s s' t : keeps s s' -> holds_of s t -> holds_of s' t.
Proof. intros [Hd Hk] [H1 H2]. split; [by rewrite Hd |]. intros c Hc Hh. apply Hk; [by apply H2 | done]. Qed.

Lemma snapshot_holds s order : order_of (txRecord s) order -> holds_of s (snapshot order (txRecord s)).
Proof.
  intros [_ Ho]. split.
  - intros i Hi. rewrite <- Ho in Hi. apply elem_of_list_to_set in Hi. eexists. split; [apply list_elem_of_fmap; by exists i | done].
  - intros c (i & -> & Hi)%list_elem_of_fmap Hh. cbn in *. unfold status. assert (Hd : i ∈ dom (rStatuses (txRecord s))) by (rewrite <- Ho; by apply elem_of_list_to_set).
    apply elem_of_dom in Hd as [st Hst]. by rewrite Hst.
Qed.

(** Steps that leave the record and the goroutines alone. *)
Lemma tcc_ok_advances s s' : tcc_ok s -> txRecord s' = txRecord s -> tries s' = tries s -> returned s' = returned s -> calls s' = calls s ->
  (forall a t, advances s' !! a = Some (Holding t) -> holds_of s t) ->
  (forall a todo, advances s' !! a = Some (Calling true todo) -> all_successful s) ->
  (forall a, is_Some (advances s' !! a) -> (a < nextAdvance s')%nat) -> tcc_ok s'.
Proof.
  intros [G1 G2 G3 G4 G5 G6 G7 G8] Hr Ht Hret Hc Hh Hcl Hf. split; unfold acked_well, all_successful, holds_of, status, all_ended in *; rewrite ?Hr, ?Ht, ?Hret, ?Hc; auto.
Qed.

Lemma tcc_spawn_ok s t : tcc_ok s -> holds_of s t -> tcc_ok (spawn (Holding t) s).
Proof.
  intros Hok Ht. apply (tcc_ok_advances s); try done; cbn [spawn advances nextAdvance set].
  - intros a t'. unfold spawn. cbn. rewrite lookup_insert_Some. intros [[_ [= <-]] | [_ Ha]]; [done | by eapply to_holding].
  - intros a todo. unfold spawn. cbn. rewrite lookup_insert_Some. intros [[_ ?] | [_ Ha]]; [done | by eapply to_calling].
  - intros a. unfold spawn. cbn. rewrite lookup_insert_is_Some. intros [<- | [_ Ha]]; [lia | apply (to_fresh _ Hok) in Ha; lia].
Qed.

Lemma stop_ok s a : tcc_ok s -> tcc_ok (stop a s).
Proof.
  intros Hok. apply (tcc_ok_advances s); try done; unfold stop; cbn.
  - intros b t [_ Ha]%lookup_delete_Some. by eapply to_holding.
  - intros b todo [_ Ha]%lookup_delete_Some. by eapply to_calling.
  - intros b [x [_ Hb]%lookup_delete_Some]. apply (to_fresh _ Hok). by exists x.
Qed.

(** A successful inference is right for good. *)
Lemma infer_successful s t b : tcc_ok s -> holds_of s t -> getStatus b t = TXSuccessful -> all_successful s.
Proof.
  intros Hok [H1 H2] Hst i st Hi. rewrite getStatus_successful in Hst. destruct (H1 i) as (c & Hc & <-); [apply elem_of_dom; by exists st |].
  pose proof (Hst c Hc) as Hs. pose proof (H2 c Hc ltac:(by rewrite Hs)) as Hcur. rewrite Hs in Hcur. congruence.
Qed.

Lemma infer_ok s a t : tcc_ok s -> advances s !! a = Some (Holding t) -> tcc_ok (infer timeout a t s).
Proof.
  intros Hok Ha. pose proof (to_holding _ Hok _ _ Ha) as Ht. unfold infer. destruct (getStatus (now s - timeout) t) eqn:Hst; [by apply stop_ok | |].
  all: apply (tcc_ok_advances s); try done; cbn; [intros b t' | intros b todo | intros b]; rewrite ?lookup_insert_Some, ?lookup_insert_is_Some.
  all: try (intros [[_ ?] | [_ Hb]]; [done | by eapply to_holding]).
  all: try (intros [<- | [_ Hb]]; [apply (to_fresh _ Hok); by exists (Holding t) | by apply (to_fresh _ Hok)]).
  - intros _. by eapply infer_successful.
  - intros [[_ ?] | [_ Hb]]; [done | by eapply to_calling].
Qed.

Lemma tries_ok s i ack : tcc_ok s -> tries s !! i = Some Trying -> tcc_ok (s <| tries := <[i := Answered ack]> (tries s) |>).
Proof.
  intros [G1 G2 G3 G4 G5 G6 G7 G8] Hi. split; try done; cbn.
  - intros j Hj. destruct (G1 j Hj) as [w Hw]. exists w. cbn. rewrite lookup_insert_ne; [done | congruence].
  - rewrite dom_insert_lookup_L; [done | by eexists].
  - intros Hr. destruct (G7 Hr) as [He _]. specialize (He i Trying Hi). done.
  - intros j b. rewrite lookup_insert_Some. intros [[_ ?] | [_ Hj]]; [done | by eapply G8].
Qed.

(** The record after an update says what the goroutine says. *)
Lemma record_try_ok s i ack io : tcc_ok s -> tries s !! i = Some (Answered ack) -> tcc_ok (record_try i ack io s).
Proof.
  intros Hok Hi. pose proof (step_keeps s (Update i io) (record_try i ack io s) ltac:(cbn; by rewrite Hi)) as Hk.
  assert (Hrec : forall j st, status (record_try i ack io s) j = Some st -> status s j = Some st \/ j = i /\ st = if ack then TrySuccessful else TryFailure).
  { intros j st. unfold status. destruct (record_try_record i ack io s) as [-> | (r' & Hr & ->)]; [by left |]. apply TXUpdate_keeps in Hr as (_ & _ & Hr). apply Hr. }
  assert (Htries : tries (record_try i ack io s) = <[i := Ended ack (phase_well (default Trying (tries (record_try i ack io s) !! i)))]> (tries s)).
  { unfold record_try. destruct io, (TXUpdate i ack (txRecord s)); cbn; by rewrite lookup_insert_eq. }
  assert (Hwell : forall b, tries (record_try i ack io s) !! i = Some (Ended b true) -> status (record_try i ack io s) i = Some TrySuccessful).
  { unfold record_try, status. destruct io; destruct (TXUpdate i ack (txRecord s)) as [r' | e] eqn:Hu; cbn; rewrite lookup_insert_eq; intros b [= <- Hb]; destruct ack; try done.
    unfold TXUpdate in Hu. destruct (rStatuses (txRecord s) !! i) as [old |] eqn:Hold; [| done]. case_decide as Hx; [injection Hu as <-; by rewrite Hold, Hx |].
    case_decide; [| done]. injection Hu as <-. cbn. by rewrite lookup_insert_eq. }
  assert (Hrest : advances (record_try i ack io s) = advances s /\ nextAdvance (record_try i ack io s) = nextAdvance s /\ returned (record_try i ack io s) = returned s
    /\ calls (record_try i ack io s) = calls s) by (unfold record_try; by destruct io, (TXUpdate i ack (txRecord s))).
  destruct Hrest as (Ha & Hn & Hret & Hc). pose proof Hok as [G1 G2 G3 G4 G5 G6 G7 G8]. split.
  - intros j [Hj | [-> Hs]]%Hrec.
    + destruct (G1 j Hj) as [w Hw]. exists w. rewrite Htries, lookup_insert_ne; [done | congruence].
    + destruct ack; [| done]. eexists. by rewrite Htries, lookup_insert_eq.
  - rewrite Htries. destruct Hk as [-> _]. rewrite dom_insert_lookup_L; [done | by eexists].
  - intros a t. rewrite Ha. intros Hat. by eapply holds_of_keeps, G3.
  - intros a todo. rewrite Ha. intros Hat. by eapply all_successful_keeps, G4.
  - intros j. rewrite Hc. intros Hj. by eapply all_successful_keeps, G5.
  - intros a. rewrite Ha, Hn. apply G6.
  - rewrite Hret. intros Hr. destruct (G7 Hr) as [He _]. specialize (He i _ Hi). done.
  - intros j b. destruct (decide (j = i)) as [-> |]; [by eapply Hwell |]. rewrite Htries, lookup_insert_ne by done. intros Hj. apply Hk; [by eapply G8 | done].
Qed.

Lemma step_ok s act s' : step timeout s act = Some s' -> tcc_ok s -> tcc_ok s'.
Proof.
  intros Hstep Hok. pose proof Hok as [G1 G2 G3 G4 G5 G6 G7 G8]. destruct act as [d | i ack | i io | order | order | a | a ack | a io]; open_step_in Hstep.
  - case_decide; [| done]. injection Hstep as <-. by split.
  - destruct (tries s !! i) as [[] |] eqn:Hi; try done. injection Hstep as <-. by apply tries_ok.
  - destruct (tries s !! i) as [[| ack |] |] eqn:Hi; try done. injection Hstep as <-. by apply record_try_ok.
  - case_decide as Hr; [| done]. destruct Hr as [He Hnone].
    assert (Hs1 : tcc_ok (s <| returned := Some (bool_decide (map_Forall (fun _ p => phase_well p = true) (tries s))) |>)).
    { split; try done. cbn. intros [= Hw]. split; [done |]. by apply bool_decide_eq_true_1 in Hw. }
    destruct order as [order |]; [| by injection Hstep as <-]. case_decide as Ho; [| done]. injection Hstep as <-. apply tcc_spawn_ok; [done |].
    exact (snapshot_holds s order Ho).
  - case_decide as Hm; [| done]. destruct Hm as [_ Ho]. injection Hstep as <-. apply tcc_spawn_ok; [done | by apply snapshot_holds].
  - destruct (advances s !! a) as [[t |] |] eqn:Ha; try done. injection Hstep as <-. by apply infer_ok.
  - destruct (advances s !! a) as [[t | b [| i todo]] |] eqn:Ha; try done. injection Hstep as <-.
    assert (Hs1 : tcc_ok (s <| calls := calls s ++ [(i, b)] |>)).
    { split; try done. cbn. intros j [Hj | Hj]%elem_of_app; [by eapply G5 |]. apply list_elem_of_singleton in Hj as [= -> <-]. by eapply G4. }
    destruct ack; [| by apply stop_ok]. apply (tcc_ok_advances _ _ Hs1); try done; cbn.
    + intros c t. rewrite lookup_insert_Some. intros [[_ ?] | [_ Hc]]; [done | by eapply G3].
    + intros c todo'. rewrite lookup_insert_Some. intros [[_ [= -> _]] | [_ Hc]]; by eapply G4.
    + intros c. rewrite lookup_insert_is_Some. intros [<- | [_ Hc]]; [apply G6; by eexists | by apply G6].
  - destruct (advances s !! a) as [[t | b [| i todo]] |] eqn:Ha; try done. injection Hstep as <-. apply stop_ok.
    destruct (submit_record b io s) as [Hs _]. set (r := match io with Answer => _ | _ => _ end) in *.
    split; unfold acked_well, all_successful, holds_of, status, all_ended in *; cbn; rewrite ?Hs; auto.
Qed.

Lemma tcc_run_ok acts : forall s s', run timeout s acts = Some s' -> tcc_ok s -> tcc_ok s'.
Proof.
  induction acts as [| act acts IH]; intros s s'; cbn [run]; [by intros [= <-] |]. destruct (step timeout s act) as [s1 |] eqn:Hs; [| done].
  intros Hr Hok. eapply IH; [exact Hr | by eapply step_ok].
Qed.

Lemma start_status ids at_ i st : status (start ids at_) i = Some st -> st = TryHanging.
Proof.
  unfold status, start, CreateTX. cbn. intros Hi. apply elem_of_list_to_map_2, list_elem_of_fmap in Hi as (j & [= _ ->] & _). done.
Qed.
Lemma start_tries ids at_ i p : tries (start ids at_) !! i = Some p -> p = Trying.
Proof. unfold start. cbn. intros Hi. by apply elem_of_list_to_map_2, list_elem_of_fmap in Hi as (j & [= _ ->] & _). Qed.

Lemma start_ok ids at_ : tcc_ok (start ids at_).
Proof.
  split.
  - intros i Hi%start_status. done.
  - unfold start, CreateTX. cbn. rewrite !dom_list_to_map_L, <- !list_fmap_compose. done.
  - intros a t. cbn. by rewrite lookup_empty.
  - intros a todo. cbn. by rewrite lookup_empty.
  - intros i Hi. by apply not_elem_of_nil in Hi.
  - intros a [x Hx]. cbn in Hx. by rewrite lookup_empty in Hx.
  - done.
  - intros i b Hi%start_tries. done.
Qed.

(** ** Time-outs *)

(** The inference of a failure is timely when a failure was recorded, or when
    nothing can be recorded any more and what was read is still so. *)
Definition timely s (act : action) : Prop :=
  match act with
  | Infer a =>
      match advances s !! a with
      | Some (Holding t) => getStatus (now s - timeout) t = TXFailure -> (exists c, c ∈ Components t /\ TryStatus c = TryFailure)
          \/ all_ended s /\ forall c, c ∈ Components t -> status s (ComponentID c) = Some (TryStatus c)
      | _ => True
      end
  | _ => True
  end.
Fixpoint timely_run s (acts : list action) : Prop :=
  match acts with
  | [] => True
  | act :: acts => timely s act /\ match step timeout s act with Some s' => timely_run s' acts | None => True end
  end.

(** The transaction can never become successful. *)
Definition doomed s : Prop :=
  (exists i, status s i = Some TryFailure) \/ all_ended s /\ exists i st, status s i = Some st /\ st <> TrySuccessful.

Lemma doomed_not_successful s : doomed s -> ~ all_successful s.
Proof. intros [[i Hi] | (_ & i & st & Hi & Hst)] Ha; [by specialize (Ha i _ Hi) | by specialize (Ha i _ Hi)]. Qed.

(** Nothing is recorded once the goroutines have ended. *)
Lemma ended_step s act s' : step timeout s act = Some s' -> all_ended s -> tries s' = tries s /\ forall i, status s' i = status s i.
Proof.
  intros Hstep He. destruct act as [d | i ack | i io | order | order | a | a ack | a io]; open_step_in Hstep.
  - case_decide; [| done]. by injection Hstep as <-.
  - destruct (tries s !! i) as [[] |] eqn:Hi; try done. by specialize (He i _ Hi).
  - destruct (tries s !! i) as [[| ack |] |] eqn:Hi; try done. by specialize (He i _ Hi).
  - case_decide; [| done]. destruct order as [order |]; [case_decide; [| done] |]; by injection Hstep as <-.
  - case_decide; [| done]. by injection Hstep as <-.
  - destruct (advances s !! a) as [[t |] |]; try done. injection Hstep as <-. unfold infer. by destruct (getStatus _ t).
  - destruct (advances s !! a) as [[t | b [| i todo]] |]; try done. injection Hstep as <-. by destruct ack.
  - destruct (advances s !! a) as [[t | b [| i todo]] |]; try done. injection Hstep as <-. split; [done |]. intros i. unfold status. cbn.
    destruct (submit_record b io s) as [H _]. by rewrite H.
Qed.

Lemma doomed_step s act s' : step timeout s act = Some s' -> doomed s -> doomed s'.
Proof.
  intros Hstep [[i Hi] | (He & i & st & Hi & Hst)].
  - left. exists i. apply (step_keeps _ _ _ Hstep); done.
  - destruct (ended_step _ _ _ Hstep He) as [Ht Hs]. right. split; [unfold all_ended; by rewrite Ht |]. exists i, st. by rewrite Hs.
Qed.

(** Whoever cancels has reason to. *)
Definition cancels_doomed s : Prop :=
  (forall a todo, advances s !! a = Some (Calling false todo) -> doomed s) /\ (forall i, (i, false) ∈ calls s -> doomed s).

Lemma infer_doomed s a t b : tcc_ok s -> advances s !! a = Some (Holding t) -> timely s (Infer a) -> b = now s - timeout -> getStatus b t = TXFailure -> doomed s.
Proof.
  intros Hok Ha Ht -> Hst. cbn in Ht. rewrite Ha in Ht. pose proof (to_holding _ Hok _ _ Ha) as [_ Hh]. destruct (Ht Hst) as [(c & Hc & Hf) | [He Hcur]].
  - left. exists (ComponentID c). rewrite <- Hf. apply Hh; [done | by rewrite Hf].
  - destruct (getStatus_failure _ _ Hst) as [(c & Hc & Hf) | [(c & Hc & Hf) _]].
    + left. exists (ComponentID c). rewrite <- Hf. by apply Hcur.
    + right. split; [done |]. exists (ComponentID c), (TryStatus c). split; [by apply Hcur | done].
Qed.

Lemma step_cancels s act s' : step timeout s act = Some s' -> tcc_ok s -> timely s act -> cancels_doomed s -> cancels_doomed s'.
Proof.
  intros Hstep Hok Ht [H1 H2]. pose proof (doomed_step _ _ _ Hstep) as Hd.
  assert (Hsame : (forall a todo, advances s' !! a = Some (Calling false todo) -> advances s !! a = Some (Calling false todo) \/ doomed s) ->
    (forall i, (i, false) ∈ calls s' -> (i, false) ∈ calls s \/ doomed s) -> cancels_doomed s').
  { intros Ha Hc. split; [intros a todo [H |]%Ha; eauto | intros i [H |]%Hc; eauto]. }
  destruct act as [d | i ack | i io | order | order | a | a ack | a io]; open_step_in Hstep.
  - case_decide; [| done]. injection Hstep as <-. apply Hsame; by auto.
  - destruct (tries s !! i) as [[] |]; try done. injection Hstep as <-. apply Hsame; by auto.
  - destruct (tries s !! i) as [[| ack |] |]; try done. injection Hstep as <-. apply Hsame; unfold record_try; destruct io, (TXUpdate i ack (txRecord s)); by auto.
  - case_decide; [| done]. destruct order as [order |]; [case_decide; [| done] |]; injection Hstep as <-; apply Hsame; try by auto.
    intros a todo. unfold spawn. cbn. rewrite lookup_insert_Some. intros [[_ ?] | [_ ?]]; [done | by left].
  - case_decide; [| done]. injection Hstep as <-. apply Hsame; [| by auto].
    intros a todo. unfold spawn. cbn. rewrite lookup_insert_Some. intros [[_ ?] | [_ ?]]; [done | by left].
  - destruct (advances s !! a) as [[t |] |] eqn:Ha; try done. injection Hstep as <-. apply Hsame; unfold infer in *.
    + intros b todo. destruct (getStatus (now s - timeout) t) eqn:Hst; unfold stop; cbn; [intros [_ ?]%lookup_delete_Some; by left | |].
      all: rewrite lookup_insert_Some; intros [[_ ?] | [_ ?]]; [| by left]; try done. right. by eapply infer_doomed.
    + intros i. destruct (getStatus (now s - timeout) t); by left.
  - destruct (advances s !! a) as [[t | b [| i todo]] |] eqn:Ha; try done. injection Hstep as <-. apply Hsame.
    + intros c todo'. destruct ack; unfold stop; cbn; [rewrite lookup_insert_Some; intros [[_ [= -> _]] | [_ ?]]; [right; by eapply H1 | by left] |].
      intros [_ ?]%lookup_delete_Some. by left.
    + intros j. destruct ack; unfold stop; cbn; (intros [? | Hj]%elem_of_app; [by left | apply list_elem_of_singleton in Hj as [= -> <-]; right; by eapply H1]).
  - destruct (advances s !! a) as [[t | b [| i todo]] |] eqn:Ha; try done. injection Hstep as <-. apply Hsame; [| by auto].
    intros c todo'. unfold stop. cbn. intros [_ ?]%lookup_delete_Some. by left.
Qed.

Lemma run_cancels acts : forall s s', run timeout s acts = Some s' -> timely_run s acts -> tcc_ok s -> cancels_doomed s -> tcc_ok s' /\ cancels_doomed s'.
Proof.
  induction acts as [| act acts IH]; intros s s'; cbn [run timely_run]; [by intros [= <-] |]. destruct (step timeout s act) as [s1 |] eqn:Hs; [| done].
  intros Hr [Ht Hts] Hok Hc. eapply IH; [exact Hr | done | by eapply step_ok | by eapply step_cancels].
Qed.

Lemma returned_successful s : tcc_ok s -> returned s = Some true -> all_successful s.
Proof.
  intros Hok Hr. destruct (to_returned _ Hok Hr) as [_ Hw]. intros i st Hi. assert (Hd : i ∈ dom (tries s)) by (rewrite (to_dom _ Hok); apply elem_of_dom; by exists st).
  apply elem_of_dom in Hd as [p Hp]. specialize (Hw i p Hp). destruct p as [| | ack well]; try done. cbn in Hw. subst well. pose proof (to_well _ Hok i ack Hp). congruence.
Qed.
(** What the final status says: every component was asked, all of them the same. *)
Record status_ok s : Prop := {
  so_calling a b todo : advances s !! a = Some (Calling b todo) -> forall i, i ∈ dom (rStatuses (txRecord s)) -> i ∈ todo \/ (i, b) ∈ calls s;
  so_successful : rStatus (txRecord s) = TXSuccessful -> all_successful s /\ forall i, i ∈ dom (rStatuses (txRecord s)) -> (i, true) ∈ calls s;
  so_failure : rStatus (txRecord s) = TXFailure -> doomed s /\ forall i, i ∈ dom (rStatuses (txRecord s)) -> (i, false) ∈ calls s
}.

Lemma TXUpdate_rStatus i b r r' : TXUpdate i b r = Ok r' -> rStatus r' = rStatus r.
Proof. unfold TXUpdate. destruct (rStatuses r !! i); [| done]. case_decide; [by intros [= <-] |]. case_decide; [by intros [= <-] | done]. Qed.

(** Steps that leave the final status alone. *)
Lemma status_ok_mono s s' : status_ok s -> keeps s s' -> (doomed s -> doomed s') -> (forall c, c ∈ calls s -> c ∈ calls s') ->
  rStatus (txRecord s') = rStatus (txRecord s) ->
  (forall a b todo, advances s' !! a = Some (Calling b todo) -> advances s !! a = Some (Calling b todo)
     \/ forall i, i ∈ dom (rStatuses (txRecord s)) -> i ∈ todo \/ (i, b) ∈ calls s') -> status_ok s'.
Proof.
  intros [G1 G2 G3] Hk Hd Hc Hr Ha. pose proof Hk as [Hdom _]. split; rewrite ?Hr, ?Hdom.
  - intros a b todo [Hx | Hx]%Ha i Hi; [| by apply Hx]. destruct (G1 a b todo Hx i Hi); auto.
  - intros H. destruct (G2 H) as [H1 H2]. split; [by eapply all_successful_keeps | auto].
  - intros H. destruct (G3 H) as [H1 H2]. auto.
Qed.

Lemma submit_status_ok s a b (io : store_io) r : tcc_ok s -> cancels_doomed s -> status_ok s -> advances s !! a = Some (Calling b []) ->
  (r = txRecord s \/ TXSubmit b (txRecord s) = Ok r) -> status_ok (stop a (s <| txRecord := r |>)).
Proof.
  intros Hok [Hc _] [G1 G2 G3] Ha Hr.
  assert (Hst : rStatuses r = rStatuses (txRecord s)) by (destruct Hr as [-> | Hr]; [done | by apply TXSubmit_statuses in Hr as [? _]]).
  assert (Hall : forall i, i ∈ dom (rStatuses (txRecord s)) -> (i, b) ∈ calls s).
  { intros i Hi. destruct (G1 a b [] Ha i Hi) as [Hx | Hx]; [by apply not_elem_of_nil in Hx | done]. }
  assert (Hfin : r = txRecord s \/ rStatus r = if b then TXSuccessful else TXFailure).
  { destruct Hr as [-> | Hr]; [by left | right]. unfold TXSubmit in Hr. case_decide; [done |]. injection Hr as <-. done. }
  split; unfold stop, all_successful, doomed, all_ended, status; cbn; rewrite ?Hst.
  - intros c b' todo [_ Hx]%lookup_delete_Some. by apply G1 with (a := c).
  - intros H. destruct Hfin as [-> | Hfin]; [by apply G2 |]. destruct b; [| congruence]. split; [by apply (to_calling _ Hok a []) | exact Hall].
  - intros H. destruct Hfin as [-> | Hfin]; [by apply G3 |]. destruct b; [congruence |]. split; [by apply (Hc a []) | exact Hall].
Qed.

Lemma step_status s act s' : step timeout s act = Some s' -> tcc_ok s -> cancels_doomed s -> status_ok s -> status_ok s'.
Proof.
  intros Hstep Hok Hc Hs. pose proof (step_keeps _ _ _ Hstep) as Hk. pose proof (doomed_step _ _ _ Hstep) as Hd.
  destruct act as [d | i ack | i io | order | order | a | a ack | a io]; open_step_in Hstep.
  - case_decide; [| done]. injection Hstep as <-. apply (status_ok_mono s); by auto.
  - destruct (tries s !! i) as [[] |]; try done. injection Hstep as <-. apply (status_ok_mono s); by auto.
  - destruct (tries s !! i) as [[| ack |] |]; try done. injection Hstep as <-.
    assert (Hr : rStatus (txRecord (record_try i ack io s)) = rStatus (txRecord s)).
    { destruct (record_try_record i ack io s) as [-> | (r & Hr & ->)]; [done | by apply TXUpdate_rStatus in Hr]. }
    apply (status_ok_mono s); try done; unfold record_try; destruct io, (TXUpdate i ack (txRecord s)); by auto.
  - case_decide; [| done]. destruct order as [order |]; [case_decide; [| done] |]; injection Hstep as <-; apply (status_ok_mono s); try by auto.
    intros a b todo. unfold spawn. cbn. rewrite lookup_insert_Some. intros [[_ ?] | [_ ?]]; [done | by left].
  - case_decide; [| done]. injection Hstep as <-. apply (status_ok_mono s); try by auto.
    intros a b todo. unfold spawn. cbn. rewrite lookup_insert_Some. intros [[_ ?] | [_ ?]]; [done | by left].
  - destruct (advances s !! a) as [[t |] |] eqn:Ha; try done. injection Hstep as <-. pose proof (to_holding _ Hok _ _ Ha) as [Hh _].
    assert (Hin : forall i, i ∈ dom (rStatuses (txRecord s)) -> i ∈ ComponentID <$> Components t).
    { intros i (c & Hx & <-)%Hh. by apply list_elem_of_fmap_2. }
    apply (status_ok_mono s); try done; unfold infer; destruct (getStatus (now s - timeout) t); try done; unfold stop; cbn.
    + intros b c todo [_ ?]%lookup_delete_Some. by left.
    + intros b c todo. rewrite lookup_insert_Some. intros [[_ [= <- <-]] | [_ ?]]; [right; intros i Hi; left; auto | by left].
    + intros b c todo. rewrite lookup_insert_Some. intros [[_ [= <- <-]] | [_ ?]]; [right; intros i Hi; left; auto | by left].
  - destruct (advances s !! a) as [[t | b [| i todo]] |] eqn:Ha; try done. injection Hstep as <-.
    assert (Hcalls : forall c, c ∈ calls s -> c ∈ calls s ++ [(i, b)]) by (intros c ?; apply elem_of_app; by left).
    apply (status_ok_mono s); try done; try (destruct ack; by auto).
    intros c b' todo'. destruct ack; unfold stop; cbn; [| intros [_ ?]%lookup_delete_Some; by left].
    rewrite lookup_insert_Some. intros [[_ [= <- <-]] | [_ ?]]; [right | by left]. intros j Hj.
    destruct (so_calling _ Hs a b (i :: todo) Ha j Hj) as [[-> | ?]%elem_of_cons | ?]; [right; apply elem_of_app; right; by left | by left | right; auto].
  - destruct (advances s !! a) as [[t | b [| i todo]] |] eqn:Ha; try done. injection Hstep as <-. eapply submit_status_ok; try done.
    destruct io, (TXSubmit b (txRecord s)); auto.
Qed.

Lemma run_status acts : forall s s', run timeout s acts = Some s' -> timely_run s acts -> tcc_ok s -> cancels_doomed s -> status_ok s -> status_ok s'.
Proof.
  induction acts as [| act acts IH]; intros s s'; cbn [run timely_run]; [by intros [= <-] |]. destruct (step timeout s act) as [s1 |] eqn:Hs; [| done].
  intros Hr [Ht Hts] Hok Hc Hst. eapply IH; [exact Hr | done | by eapply step_ok | by eapply step_cancels | by eapply step_status].
Qed.
End Invariants.

Section Theorems.
Context (timeout : Z) (ids : list string) (created : Z).

Lemma start_dom i : i ∈ ids -> is_Some (status (start ids created) i).
Proof.
  intros Hi. unfold status, start, CreateTX. cbn. destruct (list_to_map ((fun i => (i, TryHanging)) <$> ids) !! i) as [st |] eqn:Hl; [by exists st |].
  apply not_elem_of_list_to_map in Hl. destruct Hl. rewrite <- list_fmap_compose. apply list_elem_of_fmap. by exists i.
Qed.

Lemma run_dom acts : forall s s', run timeout s acts = Some s' -> dom (rStatuses (txRecord s')) = dom (rStatuses (txRecord s)).
Proof.
  induction acts as [| act acts IH]; intros s s'; cbn [run]; [by intros [= <-] |]. destruct (step timeout s act) as [s1 |] eqn:Hs; [| done].
  intros Hr%IH. rewrite Hr. by apply (step_keeps _ _ _ _ Hs).
Qed.

(** C33: However Try calls, updates of the record, monitors of any node, errors and
    lost answers interleave, no component is asked to confirm before every
    component has acknowledged its Try. *)
Theorem confirm_needs_every_try acts s i j : run timeout (start ids created) acts = Some s -> (i, true) ∈ calls s -> j ∈ ids ->
  exists well, tries s !! j = Some (Ended true well).
Proof.
  intros Hr Hi Hj. pose proof (tcc_run_ok timeout acts _ _ Hr (start_ok ids created)) as Hok.
  assert (Hd : j ∈ dom (rStatuses (txRecord s))) by (rewrite (run_dom _ _ _ Hr); by apply elem_of_dom, start_dom).
  apply elem_of_dom in Hd as [st Hst]. pose proof (to_confirm _ Hok i Hi j st Hst) as ->. by apply (to_acked _ Hok).
Qed.

(** C34: as long as no time-out is inferred from a record that is still changing,
    a transaction goes one way: it is not confirmed at one component and
    cancelled at another; one that was reported successful is never cancelled
    anywhere; and one whose record ends as successful was confirmed at every
    component and cancelled at none, one whose record ends as failed was
    cancelled at every component, confirmed at none, and was not reported
    successful. (One that was reported failed may still be confirmed, see
    [reported_failure_is_confirmed].) *)
Theorem transaction_goes_one_way acts s : run timeout (start ids created) acts = Some s -> timely_run timeout (start ids created) acts ->
  (forall i j, (i, true) ∈ calls s -> (j, false) ∉ calls s) /\ (returned s = Some true -> forall j, (j, false) ∉ calls s)
  /\ (rStatus (txRecord s) = TXSuccessful -> (forall i, i ∈ ids -> (i, true) ∈ calls s) /\ forall j, (j, false) ∉ calls s)
  /\ (rStatus (txRecord s) = TXFailure -> (forall i, i ∈ ids -> (i, false) ∈ calls s) /\ (forall j, (j, true) ∉ calls s) /\ returned s <> Some true).
Proof.
  intros Hr Ht. assert (Hc0 : cancels_doomed (start ids created)).
  { split; [intros a todo; cbn; by rewrite lookup_empty | intros i Hi; by apply not_elem_of_nil in Hi]. }
  destruct (run_cancels timeout acts _ _ Hr Ht (start_ok ids created) Hc0) as [Hok [_ Hc]].
  destruct (run_status timeout acts _ _ Hr Ht (start_ok ids created) Hc0) as [_ Hsucc Hfail].
  { split; [intros a b todo; cbn; by rewrite lookup_empty | done | done]. }
  assert (Hdom : forall i, i ∈ ids -> i ∈ dom (rStatuses (txRecord s))).
  { intros i Hi. rewrite (run_dom _ _ _ Hr). by apply elem_of_dom, start_dom. }
  split_and!.
  - intros i j Hi Hj%Hc. by apply (doomed_not_successful s Hj), (to_confirm _ Hok i Hi).
  - intros Hret j Hj%Hc. by apply (doomed_not_successful s Hj), returned_successful.
  - intros [Ha Hall]%Hsucc. split; [auto |]. intros j Hj%Hc. by apply (doomed_not_successful s Hj).
  - intros [Hd Hall]%Hfail. pose proof (doomed_not_successful s Hd) as Hn. split; [auto |]. split.
    + intros j Hj. by apply Hn, (to_confirm _ Hok j).
    + intros Hret. by apply Hn, returned_successful.
Qed.
End Theorems.

(** ** Recovery *)

Lemma order_exists r : order_of r (elements (dom (rStatuses r))).
Proof. split; [apply NoDup_elements | by rewrite list_to_set_elements_L]. Qed.

(** The calls of a second phase that are all acknowledged. *)
Lemma second_phase timeout a b todo : forall s, advances s !! a = Some (Calling b todo) ->
  exists s', run timeout s (replicate (length todo) (Second a true)) = Some s' /\ advances s' !! a = Some (Calling b []) /\ txRecord s' = txRecord s
    /\ calls s' = calls s ++ ((fun i => (i, b)) <$> todo).
Proof.
  induction todo as [| i todo IH]; intros s Ha; [exists s; by rewrite app_nil_r |]. cbn [length replicate run]; open_step. rewrite Ha.
  destruct (IH (s <| calls := calls s ++ [(i, b)] |> <| advances := <[a := Calling b todo]> (advances s) |>)) as (s' & Hr & Ha' & Hrec & Hc); [cbn; by rewrite lookup_insert_eq |].
  exists s'. split; [exact Hr |]. split; [done |]. split; [done |]. rewrite Hc. cbn. by rewrite <- (assoc app).
Qed.

Lemma tcc_run_app timeout acts1 acts2 s s1 : run timeout s acts1 = Some s1 -> run timeout s (acts1 ++ acts2) = run timeout s1 acts2.
Proof. revert s. induction acts1 as [| act acts1 IH]; intros s; cbn; [by intros [= ->] |]. destruct (step timeout s act); [apply IH | done]. Qed.

(** The second phase of a transaction at some components. *)
Definition round (order : list string) (a : nat) (d : Z) : list action :=
  [Elapse d; Monitor order; Infer a] ++ replicate (length order) (Second a true) ++ [Submit a Answer].

Lemma snapshot_status b order r : order_of r order -> rCreatedAt r < b ->
  getStatus b (snapshot order r) = if bool_decide (map_Forall (fun _ st => st = TrySuccessful) (rStatuses r)) then TXSuccessful else TXFailure.
Proof.
  intros [_ Ho] Hb. assert (Hin : forall i, i ∈ order <-> is_Some (rStatuses r !! i)) by (intros i; rewrite <- elem_of_dom, <- Ho; by rewrite elem_of_list_to_set).
  case_bool_decide as Hall.
  - apply getStatus_successful. intros c (i & -> & [st Hi]%Hin)%list_elem_of_fmap. cbn. rewrite Hi. by apply (Hall i).
  - assert (Hne : getStatus b (snapshot order r) <> TXSuccessful).
    { intros Hs. apply Hall. intros i st Hi. rewrite getStatus_successful in Hs.
      specialize (Hs (mkEntity i (default TryHanging (rStatuses r !! i)))). cbn in Hs. rewrite Hi in Hs. apply Hs.
      apply list_elem_of_fmap. exists i. rewrite Hi. split; [done |]. apply Hin. by rewrite Hi. }
    revert Hne. unfold getStatus. destruct (scan_components false (Components (snapshot order r))) as [[|] |]; cbn; [| done | done].
    by rewrite bool_decide_eq_true_2.
Qed.

(** C35: whatever state a transaction was left in, managers that crashed
    included, one round of the monitor of any node after the time-out, with no
    call failing and no step of another thread in between, brings it to an end:
    if every Try was recorded as successful each component is asked once, in the
    order of the record's listing, to confirm and the status is successful;
    otherwise each is asked once to cancel and the status is failed. *)
Theorem monitor_finishes_transaction timeout s order d :
  rStatus (txRecord s) = TXHanging -> order_of (txRecord s) order -> 0 <= d -> rCreatedAt (txRecord s) + timeout < now s + d ->
  let success := bool_decide (map_Forall (fun _ st => st = TrySuccessful) (rStatuses (txRecord s))) in
  exists s', run timeout s (round order (nextAdvance s) d) = Some s'
    /\ rStatus (txRecord s') = (if success then TXSuccessful else TXFailure)
    /\ calls s' = calls s ++ ((fun i => (i, success)) <$> order)
    /\ rStatuses (txRecord s') = rStatuses (txRecord s).
Proof.
  intros Hh Ho Hd Hlate success. set (s1 := s <| now := now s + d |>). set (t := snapshot order (txRecord s)). set (s2 := spawn (Holding t) s1).
  set (s3 := s2 <| advances := <[nextAdvance s := Calling success order]> (advances s2) |>).
  assert (H2 : run timeout s [Elapse d; Monitor order] = Some s2).
  { cbn [run]; open_step. rewrite decide_True by done. by rewrite decide_True by (split; [done | exact Ho]). }
  assert (H3 : run timeout s2 [Infer (nextAdvance s)] = Some s3).
  { assert (Ha2 : advances s2 !! nextAdvance s = Some (Holding t)) by (unfold s2, spawn; cbn; by rewrite lookup_insert_eq).
    assert (Hids : ComponentID <$> Components t = order) by (unfold t, snapshot; cbn; rewrite <- list_fmap_compose; by apply list_fmap_id).
    assert (Hst : getStatus (now s2 - timeout) t = if success then TXSuccessful else TXFailure).
    { apply snapshot_status; [exact Ho |]. unfold s2, s1, spawn. cbn. lia. }
    cbn [run]; open_step. rewrite Ha2. unfold infer. rewrite Hst, Hids. unfold s3. by destruct success. }
  destruct (second_phase timeout (nextAdvance s) success order s3) as (s4 & H4 & Ha4 & Hr4 & Hc4); [unfold s3; cbn; by rewrite lookup_insert_eq |].
  unfold round. change [Elapse d; Monitor order; Infer (nextAdvance s)] with ([Elapse d; Monitor order] ++ [Infer (nextAdvance s)]).
  rewrite <- !app_assoc, (tcc_run_app _ _ _ _ _ H2), (tcc_run_app _ _ _ _ _ H3), (tcc_run_app _ _ _ _ _ H4). cbn [run]; open_step. rewrite Ha4. eexists. split; [done |].
  unfold stop. cbn. rewrite Hr4, Hc4. change (txRecord s3) with (txRecord s). unfold TXSubmit. rewrite Hh. rewrite decide_False by (by destruct success). cbn.
  by destruct success.
Qed.

(** The interval of the monitor stays between its tick and eight times that. *)
Lemma tick_bounds monitorTick failures : 0 < monitorTick < 2 ^ 58 ->
  monitorTick <= foldl (fun tick failed => next_tick monitorTick failed tick) monitorTick failures <= 8 * monitorTick.
Proof.
  intros Hm. assert (Hinv : forall tick, monitorTick <= tick <= 8 * monitorTick -> monitorTick <= foldl (fun tick failed => next_tick monitorTick failed tick) tick failures <= 8 * monitorTick).
  { induction failures as [| f fs IH]; intros tick Ht; [done |]. cbn [foldl]. apply IH. unfold next_tick, backOffTick. destruct f; [| lia].
    rewrite !i64_id by lia. case_decide; lia. }
  apply Hinv. lia.
Qed.

(** ** Concrete runs *)

(** A monitor that reads the record just before the time-out and infers from it
    just after can overlook an answer that was recorded in time: the transaction
    is reported successful and confirmed, and cancelled as well. *)
Theorem stale_snapshot_cancels_success : exists s,
  run 5 (start ["a"; "b"]%string 0)
    [TryAnswer "a" true; TryAnswer "b" true; Update "a" Answer; Elapse 4; Monitor ["b"; "a"]; Update "b" Answer;
     Return (Some ["a"; "b"]); Infer 1; Second 1 true; Elapse 2; Infer 0; Second 0 true; Second 1 false]%string = Some s
  /\ returned s = Some true /\ calls s = [("a", true); ("b", false); ("b", true)]%string /\ rStatus (txRecord s) = TXHanging.
Proof. eexists. split; [vm_compute; reflexivity |]. by split_and!. Qed.

(** When the answer to the update of the record is lost, the caller is told that
    the transaction failed, and the components confirm it. *)
Lemma reported_failure_is_confirmed : exists s,
  run 5 (start ["a"]%string 0) [TryAnswer "a" true; Update "a" AnswerLost; Return (Some ["a"]); Infer 0; Second 0 true; Submit 0 Answer]%string = Some s
  /\ returned s = Some false /\ calls s = [("a", true)]%string /\ rStatus (txRecord s) = TXSuccessful.
Proof. eexists. split; [vm_compute; reflexivity |]. by split_and!. Qed.

Lemma confirm_needs_every_try_witness : exists s well,
  run 5 (start ["a"; "b"]%string 0)
    [TryAnswer "a" true; TryAnswer "b" true; Update "a" Answer; Update "b" AnswerLost; Return (Some ["a"; "b"]); Infer 0; Second 0 true]%string = Some s
  /\ tries s !! "b"%string = Some (Ended true well).
Proof.
  eexists. destruct (confirm_needs_every_try 5 ["a"; "b"]%string 0
    [TryAnswer "a" true; TryAnswer "b" true; Update "a" Answer; Update "b" AnswerLost; Return (Some ["a"; "b"]); Infer 0; Second 0 true]%string _ "a"%string "b"%string
    ltac:(vm_compute; reflexivity) ltac:(by left) ltac:(right; by left)) as (well & Hw).
  exists well. split; [vm_compute; reflexivity | exact Hw].
Defined.

Definition refused_run : list action :=
  [TryAnswer "a" false; TryAnswer "b" true; Update "b" Answer; Update "a" Answer; Return (Some ["a"; "b"]); Infer 0; Second 0 true; Second 0 true; Submit 0 Answer]%string.

Lemma transaction_goes_one_way_witness : exists s, run 5 (start ["a"; "b"]%string 0) refused_run = Some s
  /\ (forall i, ("b"%string, false) ∈ calls s -> (i, true) ∉ calls s) /\ calls s = [("a", false); ("b", false)]%string /\ rStatus (txRecord s) = TXFailure.
Proof.
  eexists. split; [vm_compute; reflexivity |]. split; [| split; reflexivity]. intros i Hb Hi.
  refine (proj1 (transaction_goes_one_way 5 ["a"; "b"]%string 0 refused_run _ ltac:(vm_compute; reflexivity) _) i "b"%string Hi Hb).
  vm_compute. repeat split. intros _. left. eexists. split; [by left | reflexivity].
Defined.

(** One component never answered its Try. *)
Definition half_tried : system :=
  default (start [] 0) (run 5 (start ["a"; "b"]%string 0) [TryAnswer "a" true; Update "a" Answer]%string).
Lemma monitor_finishes_transaction_witness : exists s', run 5 half_tried (round ["b"; "a"]%string 0 6) = Some s'
  /\ rStatus (txRecord s') = TXFailure /\ calls s' = [("b", false); ("a", false)]%string.
Proof.
  destruct (monitor_finishes_transaction 5 half_tried ["b"; "a"]%string 6) as (s' & Hr & Hs & Hc & _).
  - reflexivity.
  - apply (bool_decide_unpack _). vm_compute. exact I.
  - lia.
  - vm_compute. reflexivity.
  - exists s'. split; [exact Hr |]. split; [rewrite Hs | rewrite Hc]; vm_compute; reflexivity.
Defined.
