(* ===== verification/ChRing.v ===== *)
(** * ChRing
    The ring of the consistent hashing module ([consistent_hash/hash_ring.go],
    [encryptor.go]): scores with the virtual nodes that share them. The
    interface as a class, its laws in terms of what a ring shows, and the
    positions on the ring that the laws speak of. *)
From S2P Require Import Prelude.

(** ** Calls that may fail, on a ring of type [R] *)

Definition call (R A : Type) : Type := R -> outcome (R * result string A).

Definition give {R A} (a : A) : call R A := fun r => Ret (r, Ok a).
Definition fail {R A} (e : string) : call R A := fun r => Ret (r, Err e).
Definition and_then {R A B} (m : call R A) (k : A -> call R B) : call R B := fun r =>
  let! p := m r in
  match p.2 with
  | Ok a => k a p.1
  | Err e => Ret (p.1, Err e)
  end.

Declare Scope call_scope.
Delimit Scope call_scope with call.
Notation "'try!' x := m 'in' k" := (and_then m (fun x => k))
  (at level 10, x pattern at level 0, m at level 100, k at level 200) : call_scope.
Open Scope call_scope.

Lemma and_then_ok {R A B} (m : call R A) (k : A -> call R B) r r' a : m r = Ret (r', Ok a) -> and_then m k r = k a r'.
Proof. unfold and_then. by intros ->. Qed.
Lemma and_then_err {R A B} (m : call R A) (k : A -> call R B) r r' e : m r = Ret (r', Err e) -> and_then m k r = Ret (r', Err e).
Proof. unfold and_then. by intros ->. Qed.

(** ** [HashRing] *)

Class HashRing (R : Type) := {
  Add : Z -> string -> call R unit;
  Ceiling : Z -> call R Z;
  Floor : Z -> call R Z;
  Rem : Z -> string -> call R unit;
  Nodes : call R (gmap string Z);
  AddNodeToReplica : string -> Z -> call R unit;
  DeleteNodeToReplica : string -> call R unit;
  Node : Z -> call R (list string);
  DataKeys : string -> call R (gset string);
  AddNodeToDataKeys : string -> gset string -> call R unit;
  DeleteNodeToDataKeys : string -> gset string -> call R unit
}.

(** Scores are below [math.MaxInt32]. *)
Definition MaxInt32 : Z := 2 ^ 31 - 1.
Definition is_score (s : Z) : Prop := 0 <= s < MaxInt32.

Abbreviation table := (gmap Z (list string)).

(** The first score of [S] at or after [s], around the ring; [-1] without any. *)
Definition is_ceiling (S : gset Z) (s c : Z) : Prop :=
  (S = ∅ /\ c = -1)
  \/ (c ∈ S /\ s <= c /\ forall x, x ∈ S -> s <= x -> c <= x)
  \/ (c ∈ S /\ (forall x, x ∈ S -> x < s) /\ forall x, x ∈ S -> c <= x).

(** The last score of [S] at or before [s]. *)
Definition is_floor (S : gset Z) (s c : Z) : Prop :=
  (S = ∅ /\ c = -1)
  \/ (c ∈ S /\ c <= s /\ forall x, x ∈ S -> x <= s -> x <= c)
  \/ (c ∈ S /\ (forall x, x ∈ S -> s < x) /\ forall x, x ∈ S -> x <= c).

Definition table_add (s : Z) (n : string) (t : table) : table :=
  match t !! s with
  | None => <[s := [n]]> t
  | Some l => if decide (n ∈ l) then t else <[s := l ++ [n]]> t
  end.

(** The list without the first [n]. *)
Fixpoint remove_first (n : string) (l : list string) : list string :=
  match l with
  | [] => []
  | x :: l => if decide (x = n) then l else x :: remove_first n l
  end.

Definition table_remove (s : Z) (n : string) (t : table) : table :=
  match t !! s with
  | None => t
  | Some l => if decide (remove_first n l = []) then delete s t else <[s := remove_first n l]> t
  end.

(** A virtual node is at one score only. *)
Definition alone (t : table) (s : Z) (n : string) : Prop := forall s' l, t !! s' = Some l -> n ∈ l -> s' = s.

(** What every ring promises, while nothing outside of it fails: each call in
    terms of what the ring shows before and after. Removing a virtual node may
    take the data keys kept under that very name with it. *)
Class HashRingSpec (R : Type) `{HashRing R} := {
  ring_ok : R -> Prop;
  scores : R -> table;
  replicas_of : R -> gmap string Z;
  data : R -> string -> gset string;

  law_scores r s l : ring_ok r -> scores r !! s = Some l -> is_score s /\ l <> [];
  law_Add r s n : ring_ok r -> is_score s -> alone (scores r) s n ->
    exists r', Add s n r = Ret (r', Ok tt) /\ ring_ok r' /\ scores r' = table_add s n (scores r)
      /\ replicas_of r' = replicas_of r /\ forall x, data r' x = data r x;
  law_Ceiling r s : ring_ok r -> is_score s -> exists c, Ceiling s r = Ret (r, Ok c) /\ is_ceiling (dom (scores r)) s c;
  law_Floor r s : ring_ok r -> is_score s -> exists c, Floor s r = Ret (r, Ok c) /\ is_floor (dom (scores r)) s c;
  law_Rem r s n l : ring_ok r -> scores r !! s = Some l -> n ∈ l ->
    exists r', Rem s n r = Ret (r', Ok tt) /\ ring_ok r' /\ scores r' = table_remove s n (scores r)
      /\ replicas_of r' = replicas_of r /\ (forall x, x <> n -> data r' x = data r x) /\ (data r' n = data r n \/ data r' n = ∅);
  law_Nodes r : ring_ok r -> Nodes r = Ret (r, Ok (replicas_of r));
  law_AddNodeToReplica r n c : ring_ok r -> 0 <= c < 2 ^ 63 ->
    exists r', AddNodeToReplica n c r = Ret (r', Ok tt) /\ ring_ok r' /\ scores r' = scores r
      /\ replicas_of r' = <[n := c]> (replicas_of r) /\ forall x, data r' x = data r x;
  law_DeleteNodeToReplica r n : ring_ok r ->
    exists r', DeleteNodeToReplica n r = Ret (r', Ok tt) /\ ring_ok r' /\ scores r' = scores r
      /\ replicas_of r' = delete n (replicas_of r) /\ forall x, data r' x = data r x;
  law_Node r s l : ring_ok r -> scores r !! s = Some l -> Node s r = Ret (r, Ok l);
  law_DataKeys r n : ring_ok r -> DataKeys n r = Ret (r, Ok (data r n));
  law_AddNodeToDataKeys r n ks : ring_ok r ->
    exists r', AddNodeToDataKeys n ks r = Ret (r', Ok tt) /\ ring_ok r' /\ scores r' = scores r /\ replicas_of r' = replicas_of r
      /\ forall x, data r' x = if decide (x = n) then data r n ∪ ks else data r x;
  law_DeleteNodeToDataKeys r n ks : ring_ok r ->
    exists r', DeleteNodeToDataKeys n ks r = Ret (r', Ok tt) /\ ring_ok r' /\ scores r' = scores r /\ replicas_of r' = replicas_of r
      /\ forall x, data r' x = if decide (x = n) then data r n ∖ ks else data r x
}.

(** ** [Encryptor] *)

Class Encryptor := { Encrypt : string -> Z }.
Class EncryptorSpec `{Encryptor} := { Encrypt_score k : is_score (Encrypt k) }.

(** The 32-bit FNV-1a of [hash/fnv]. *)
Fixpoint fnv32a (h : Z) (s : string) : Z :=
  match s with
  | EmptyString => h
  | String c s => fnv32a (u32 (Z.lxor h (Z.of_nat (Ascii.nat_of_ascii c)) * 16777619)) s
  end.
Definition Fnv_Encrypt (origin : string) : Z := i32 (fnv32a 2166136261 origin mod MaxInt32).

#[export] Instance FnvHasher : Encryptor | 10 := { Encrypt := Fnv_Encrypt }.
#[export] Instance FnvHasher_spec : @EncryptorSpec FnvHasher.
Proof.
  split. intros k. simpl. unfold Fnv_Encrypt, is_score. pose proof (Z.mod_pos_bound (fnv32a 2166136261 k) MaxInt32 ltac:(done)) as Hm.
  rewrite i32_id; [done |]. unfold MaxInt32 in *. lia.
Qed.

(** ** Positions on the ring *)

Lemma is_ceiling_unique S s c c' : is_ceiling S s c -> is_ceiling S s c' -> c = c'.
Proof.
  intros [[-> ->] | [(Hc & Hs & Hm) | (Hc & Hs & Hm)]] [[He ->] | [(Hc' & Hs' & Hm') | (Hc' & Hs' & Hm')]];
    try done; try set_solver.
  - specialize (Hm _ Hc' Hs'). specialize (Hm' _ Hc Hs). lia.
  - specialize (Hs' _ Hc). lia.
  - specialize (Hs _ Hc'). lia.
  - specialize (Hm _ Hc'). specialize (Hm' _ Hc). lia.
Qed.

Lemma is_ceiling_in S s c : is_ceiling S s c -> S <> ∅ -> c ∈ S.
Proof. intros [[-> _] | [[? _] | [? _]]]; done. Qed.
Lemma is_ceiling_none S s c : is_ceiling S s c -> c ∉ S -> S = ∅ /\ c = -1.
Proof. intros [? | [[? _] | [? _]]]; done. Qed.

Lemma table_remove_lookup s n t x : table_remove s n t !! x =
  if decide (x = s) then match t !! s with Some l => if decide (remove_first n l = []) then None else Some (remove_first n l) | None => None end
  else t !! x.
Proof.
  unfold table_remove. case_decide as Hx.
  - subst x. destruct (t !! s) as [l |] eqn:Hl; [| done]. case_decide; [apply lookup_delete_eq | apply lookup_insert_eq].
  - destruct (t !! s) as [l |] eqn:Hl; [| done]. case_decide; [by apply lookup_delete_ne | by apply lookup_insert_ne].
Qed.

Lemma remove_first_sub n l x : x ∈ remove_first n l -> x ∈ l.
Proof.
  induction l as [| y l IH]; simpl; [done |]. case_decide; [by right |]. intros [-> | Hx]%elem_of_cons; [by left | right; auto].
Qed.
Lemma remove_first_other n l x : x ∈ l -> x <> n -> x ∈ remove_first n l.
Proof.
  induction l as [| y l IH]; simpl; [done |]. intros [-> | Hx]%elem_of_cons Hn; case_decide; try done; [by left | right; auto].
Qed.
Lemma remove_first_NoDup n l : NoDup l -> n ∉ remove_first n l /\ NoDup (remove_first n l).
Proof.
  induction 1 as [| y l Hy Hnd [IH1 IH2]]; simpl; [by split; [apply not_elem_of_nil | constructor] |].
  case_decide as Hyn; [by subst |]. split.
  - intros [-> | ?]%elem_of_cons; done.
  - constructor; [| done]. by intros Hx%remove_first_sub.
Qed.
