(* ===== verification/ChLocal.v ===== *)
(** * ChLocal
    The local ring ([consistent_hash/local/hash_ring.go]): a skip list of
    scores, and two maps. It satisfies the laws of [HashRing]. Its methods hold
    the mutex of the ring for their whole body; the random draws they have still
    to make are part of the state. *)
From S2P Require Import Prelude GoNumbers SkipNodes ChRing.

#[export] Instance score_key : SkipKey Z := { klt := Z.lt; klt_decision := _; key_eq_decision := _; key_inhabited := populate 0 }.
#[export] Instance score_key_spec : SkipKeySpec Z.
Proof. split; unfold klt; simpl; lia. Qed.

(** A [virtualNode] has its score as key and the node ids as value. *)
Abbreviation virtualNode := (node Z (list string)).

Record SkiplistHashRing := mkRing {
  heap : list virtualNode;
  nodeToReplicas : gmap string Z;
  nodeToDataKey : gmap string (gset string);
  draws : list Z
}.
#[export] Instance eta_SkiplistHashRing : Eta SkiplistHashRing := fun s =>
  mkRing (heap s) (nodeToReplicas s) (nodeToDataKey s) (draws s).

Definition NewSkiplistHashRing (draws : list Z) : SkiplistHashRing := mkRing [mkNode [] 0 []] ∅ ∅ draws.

(** [Intn(2)] until it is not 1. *)
Fixpoint roll (draws : list Z) (level : nat) : nat * list Z :=
  match draws with
  | [] => (level, [])
  | d :: draws => if decide (d mod 2 = 1) then roll draws (S level) else (level, draws)
  end.

Definition get (s : SkiplistHashRing) (score : Z) : outcome (option (nat * virtualNode)) :=
  let! a := find (heap s) score in
  match a with
  | Some a => let! n := deref (heap s) a in Ret (Some (a, n))
  | None => Ret None
  end.

Definition ring_Add (score : Z) (nodeID : string) : call SkiplistHashRing unit := fun s =>
  let! target := get s score in
  match target with
  | Some (a, n) =>
      if decide (nodeID ∈ value n) then Ret (s, Ok tt)
      else Ret (s <| heap := set_value (heap s) a (value n ++ [nodeID]) |>, Ok tt)
  | None =>
      let '(rLevel, rest) := roll (draws s) 0 in
      let! root := deref (heap s) 0 in
      let h := if decide (length (nexts root) < rLevel + 1)%nat
               then alter (fun n => n <| nexts := nexts n ++ replicate (rLevel + 1 - length (nexts n)) None |>) 0%nat (heap s)
               else heap s in
      let! h := splice (h ++ [mkNode (replicate (rLevel + 1) None) score [nodeID]]) score (length h) (rLevel + 1) 0 in
      Ret (s <| heap := h |> <| draws := rest |>, Ok tt)
  end.

(** [ceiling], [first], [floor] and [last]; [None] where they answer false. *)
Definition ceiling (s : SkiplistHashRing) (score : Z) : outcome (option Z) :=
  let! root := deref (heap s) 0 in
  if decide (length (nexts root) = 0)%nat then Ret None else
  let! move := descend (heap s) score (length (nexts root)) 0 in
  let! mv := deref (heap s) move in
  let! nx := index (nexts mv) 0 in
  match nx with
  | None => Ret None
  | Some b => let! nb := deref (heap s) b in Ret (Some (key nb))
  end.

Definition first (s : SkiplistHashRing) : outcome (option Z) :=
  let! root := deref (heap s) 0 in
  if decide (length (nexts root) = 0)%nat then Ret None else
  let! nx := index (nexts root) 0 in
  match nx with
  | None => Panic nil_deref
  | Some b => let! nb := deref (heap s) b in Ret (Some (key nb))
  end.

Definition floor (s : SkiplistHashRing) (score : Z) : outcome (option Z) :=
  let! root := deref (heap s) 0 in
  if decide (length (nexts root) = 0)%nat then Ret None else
  let! move := descend (heap s) score (length (nexts root)) 0 in
  let! mv := deref (heap s) move in
  let! nx := index (nexts mv) 0 in
  let below := if decide (move = 0%nat) then Ret None else Ret (Some (key mv)) in
  match nx with
  | None => below
  | Some b => let! nb := deref (heap s) b in if decide (key nb = score) then Ret (Some score) else below
  end.

Fixpoint walk_end (fuel : nat) (h : list virtualNode) (level move : nat) : outcome nat :=
  let! n := deref h move in
  let! nx := index (nexts n) (Z.of_nat level) in
  match nx with
  | None => Ret move
  | Some b => match fuel with O => Panic "walk_end: out of fuel" | S fuel => walk_end fuel h level b end
  end.
Fixpoint descend_end (h : list virtualNode) (n : nat) (move : nat) : outcome nat :=
  match n with
  | O => Ret move
  | S level => let! move := walk_end (length h) h level move in descend_end h level move
  end.
Definition last (s : SkiplistHashRing) : outcome (option Z) :=
  let! root := deref (heap s) 0 in
  let! move := descend_end (heap s) (length (nexts root)) 0 in
  if decide (move = 0%nat) then Ret None else
  let! mv := deref (heap s) move in Ret (Some (key mv)).

Definition ring_Ceiling (score : Z) : call SkiplistHashRing Z := fun s =>
  let! target := ceiling s score in
  match target with
  | Some c => Ret (s, Ok c)
  | None => let! c := first s in Ret (s, Ok (default (-1) c))
  end.

Definition ring_Floor (score : Z) : call SkiplistHashRing Z := fun s =>
  let! target := floor s score in
  match target with
  | Some c => Ret (s, Ok c)
  | None => let! c := last s in Ret (s, Ok (default (-1) c))
  end.

Definition score_missing (score : Z) : string := "score: " ++ Itoa score ++ " not exist".

(** The data keys are dropped under the name of the virtual node. *)
Definition ring_Rem (score : Z) (nodeID : string) : call SkiplistHashRing unit := fun s =>
  let! target := get s score in
  match target with
  | None => Ret (s, Err (score_missing score))
  | Some (a, n) =>
      match list_find (eq nodeID) (value n) with
      | None => Ret (s, Err ("node: " ++ nodeID ++ " not exist in score: " ++ Itoa score)%string)
      | Some (i, _) =>
          let s := s <| nodeToDataKey := delete nodeID (nodeToDataKey s) |> in
          if decide (1 < length (value n))%nat then
            Ret (s <| heap := set_value (heap s) a (take i (value n) ++ drop (S i) (value n)) |>, Ok tt)
          else
            let! root := deref (heap s) 0 in
            let! h := unlink (heap s) score (length (nexts root)) 0 in
            Ret (s <| heap := trim_head h |>, Ok tt)
      end
  end.

Definition ring_Nodes : call SkiplistHashRing (gmap string Z) := fun s => Ret (s, Ok (nodeToReplicas s)).
Definition ring_AddNodeToReplica (nodeID : string) (replicas : Z) : call SkiplistHashRing unit := fun s =>
  Ret (s <| nodeToReplicas := <[nodeID := replicas]> (nodeToReplicas s) |>, Ok tt).
Definition ring_DeleteNodeToReplica (nodeID : string) : call SkiplistHashRing unit := fun s =>
  Ret (s <| nodeToReplicas := delete nodeID (nodeToReplicas s) |>, Ok tt).

Definition ring_Node (score : Z) : call SkiplistHashRing (list string) := fun s =>
  let! target := get s score in
  match target with
  | None => Ret (s, Err (score_missing score))
  | Some (_, n) => Ret (s, Ok (value n))
  end.

Definition ring_DataKeys (nodeID : string) : call SkiplistHashRing (gset string) := fun s =>
  Ret (s, Ok (default ∅ (nodeToDataKey s !! nodeID))).

Definition ring_AddNodeToDataKeys (nodeID : string) (dataKeys : gset string) : call SkiplistHashRing unit := fun s =>
  let oldDataKeys := default ∅ (nodeToDataKey s !! nodeID) in
  Ret (s <| nodeToDataKey := <[nodeID := oldDataKeys ∪ dataKeys]> (nodeToDataKey s) |>, Ok tt).

Definition ring_DeleteNodeToDataKeys (nodeID : string) (dataKeys : gset string) : call SkiplistHashRing unit := fun s =>
  match nodeToDataKey s !! nodeID with
  | None => Ret (s, Ok tt)
  | Some oldDataKeys =>
      let left := oldDataKeys ∖ dataKeys in
      if decide (size left = 0)%nat
      then Ret (s <| nodeToDataKey := delete nodeID (nodeToDataKey s) |>, Ok tt)
      else Ret (s <| nodeToDataKey := <[nodeID := left]> (nodeToDataKey s) |>, Ok tt)
  end.

#[export] Instance local_ring : HashRing SkiplistHashRing := {
  Add := ring_Add; Ceiling := ring_Ceiling; Floor := ring_Floor; Rem := ring_Rem; Nodes := ring_Nodes;
  AddNodeToReplica := ring_AddNodeToReplica; DeleteNodeToReplica := ring_DeleteNodeToReplica; Node := ring_Node;
  DataKeys := ring_DataKeys; AddNodeToDataKeys := ring_AddNodeToDataKeys; DeleteNodeToDataKeys := ring_DeleteNodeToDataKeys }.
