(* ===== verification/ChLocalFacts.v ===== *)
(** * ChLocalFacts
    The local ring keeps the laws of [HashRing]: its skip list is the table of
    scores, searched in both directions. *)
From S2P Require Import Prelude GoNumbers SkipNodes ChRing ChLocal.

(** ** What the skip list shows *)

Fixpoint chain (fuel : nat) (h : list virtualNode) (a : nat) : list nat :=
  match fuel with
  | O => []
  | S fuel => match next_at h a 0 with Some (Some b) => b :: chain fuel h b | _ => [] end
  end.
(** The nodes on the bottom level. *)
Definition bottom (h : list virtualNode) : list nat := chain (length h) h 0.

Lemma chain_linked fuel (h : list virtualNode) a T : linked h 0 (a :: T) -> (length T <= fuel)%nat -> chain fuel h a = T.
Proof.
  revert a T. induction fuel as [| fuel IH]; intros a T [Hn Hl] Hf; [by destruct T; [| simpl in Hf; lia] |].
  cbn [chain]. rewrite Hn. destruct T as [| b T]; [done |]. cbn [head]. rewrite (IH b T); [done | done | simpl in Hf; lia].
Qed.

Lemma bottom_spec (h : list virtualNode) ord : skip_wf h ord -> bottom h = ord.
Proof.
  intros Hwf. pose proof (wf_base _ _ Hwf) as Hb. pose proof (run_length h ord 0 Hb) as Hlen. rewrite (level_0 _ _ Hb) in Hlen.
  destruct (decide (0 < tower h 0)%nat) as [Hpos | Hz].
  - pose proof (wf_links _ _ Hwf 0%nat Hpos) as Hl. rewrite (level_0 _ _ Hb) in Hl. by apply chain_linked.
  - destruct ord as [| a ord]; [| pose proof (wf_tall _ _ Hwf a ltac:(by left)); lia].
    unfold bottom. destruct (length h); [done |]. cbn [chain]. unfold next_at.
    destruct (wf_head _ _ Hwf) as [hd Hhd]. rewrite Hhd. simpl. destruct (nexts hd !! 0%nat) eqn:Hn; [| done].
    apply lookup_lt_Some in Hn. unfold tower in Hz. rewrite Hhd in Hz. simpl in Hz. lia.
Qed.

Definition entries (r : SkiplistHashRing) : list (Z * list string) := entries_of (heap r) (bottom (heap r)).
Definition local_scores (r : SkiplistHashRing) : table := list_to_map (entries r).
Definition local_data (r : SkiplistHashRing) (n : string) : gset string := default ∅ (nodeToDataKey r !! n).

Record local_ok (r : SkiplistHashRing) : Prop := {
  lo_wf : skip_wf (heap r) (bottom (heap r));
  lo_entries : Forall (fun e => is_score e.1 /\ e.2 <> []) (entries r);
  lo_used : (0 < tower (heap r) 0)%nat -> bottom (heap r) <> []
}.

Lemma scores_in r s l : local_ok r -> local_scores r !! s = Some l <-> exists a, a ∈ bottom (heap r) /\ key_at (heap r) a = s /\ value_at (heap r) a = l.
Proof. intros Hok. apply entries_in, Hok. Qed.
Lemma scores_dom r s : local_ok r -> s ∈ dom (local_scores r) <-> exists a, a ∈ bottom (heap r) /\ key_at (heap r) a = s.
Proof.
  intros Hok. rewrite elem_of_dom. split.
  - intros [l Hl]. apply scores_in in Hl as (a & ? & ? & _); [by exists a | done].
  - intros (a & Ha & Hk). exists (value_at (heap r) a). apply scores_in; [done |]. by exists a.
Qed.

Lemma get_spec r s : local_ok r ->
  match local_scores r !! s with
  | Some l => exists a n, get r s = Ret (Some (a, n)) /\ a ∈ bottom (heap r) /\ heap r !! a = Some n /\ key n = s /\ value n = l
  | None => get r s = Ret None /\ forall a, a ∈ bottom (heap r) -> key_at (heap r) a <> s
  end.
Proof.
  intros Hok. unfold get. destruct (find_spec (heap r) _ s (lo_wf _ Hok)) as [(a & -> & Ha & Hk) | [-> Hne]]; cbn [obind].
  - destruct (wf_nodes _ _ (lo_wf _ Hok) a Ha) as [n Hn]. rewrite (proj2 (deref_ret _ _ _) Hn). cbn [obind].
    assert (Hkn : key n = s) by (rewrite <- Hk; unfold key_at; by rewrite Hn).
    rewrite (proj2 (scores_in r s (value n) Hok)); [by exists a, n |]. exists a. split; [done |]. split; [done |]. unfold value_at. by rewrite Hn.
  - destruct (local_scores r !! s) as [l |] eqn:Hl; [| done]. apply scores_in in Hl as (a & Ha & Hk & _); [| done]. by apply Hne in Ha.
Qed.

(** A heap with its entries makes a ring. *)
Lemma rebuilt r h ord es : skip_wf h ord -> entries_of h ord = es -> Forall (fun e => is_score e.1 /\ e.2 <> []) es ->
  heap r = h -> ((0 < tower h 0)%nat -> es <> []) -> local_ok r /\ local_scores r = list_to_map es.
Proof.
  intros Hwf He Hf Hr Hu. assert (Hb : bottom (heap r) = ord) by (rewrite Hr; by apply bottom_spec).
  assert (Hes : entries r = es) by (unfold entries; by rewrite Hb, Hr). split; [| unfold local_scores; by rewrite Hes].
  split; [by rewrite Hb, Hr | by rewrite Hes |].
  rewrite Hb, Hr. intros Hpos ->. by apply Hu.
Qed.

(** A head without empty levels. *)
Lemma trimmed_used (h : list virtualNode) ord : skip_wf (trim_head h) ord -> (0 < tower (trim_head h) 0)%nat -> ord <> [].
Proof.
  intros Hwf Hpos ->. destruct (wf_links _ _ Hwf 0%nat Hpos) as [Hn _]. cbn [level_run filter list_filter head] in Hn.
  unfold next_at, tower, trim_head in *. rewrite list_lookup_alter_eq in *. destruct (h !! 0%nat) as [n |]; [| done]. simpl in *.
  destruct (nexts n) as [| [a |] l]; simpl in *; try done; lia.
Qed.

(** ** Writing *)

Lemma Add_law r s n : local_ok r -> is_score s ->
  exists r', ring_Add s n r = Ret (r', Ok tt) /\ local_ok r' /\ local_scores r' = table_add s n (local_scores r)
    /\ nodeToReplicas r' = nodeToReplicas r /\ nodeToDataKey r' = nodeToDataKey r.
Proof.
  intros Hok Hs. unfold ring_Add, table_add. pose proof (get_spec r s Hok) as Hg. pose proof (lo_wf _ Hok) as Hwf. pose proof (lo_entries _ Hok) as Hall.
  destruct (local_scores r !! s) as [l |] eqn:Hl.
  - destruct Hg as (a & nd & -> & Ha & Hn & Hk & Hv). cbn [obind]. rewrite Hv. case_decide as Hin; [by exists r |].
    destruct (set_value_spec _ _ a (l ++ [n]) nd Hwf Ha Hn) as (Hwf' & l1 & l2 & He & He'). rewrite Hk in He, He'. rewrite Hv in He.
    eexists. split; [done |]. unfold entries in Hall. rewrite He in Hall.
    match goal with |- local_ok ?r' /\ _ => destruct (rebuilt r' _ _ _ Hwf' He') as [Hok' Hsc]; [| done | |] end.
    { rewrite Forall_app, Forall_cons in *. destruct Hall as (? & ? & ?). split_and!; [done | done | simpl; by destruct l | done]. }
    { intros _ Hnil. by apply app_eq_nil in Hnil as [_ ?]. }
    split; [done |]. split; [| done]. rewrite Hsc. unfold local_scores, entries. rewrite He.
    assert (Hmid : s ∉ l1.*1) by (eapply (middle_keys l1 l2 s l); rewrite <- He; by apply wf_keys_NoDup).
    by rewrite !list_to_map_middle, insert_insert_eq.
  - destruct Hg as [-> Hne]. cbn [obind]. destruct (roll (draws r) 0) as [rLevel rest].
    destruct (wf_head _ _ Hwf) as [root Hroot]. rewrite (proj2 (deref_ret _ _ _) Hroot). cbn [obind].
    replace (length (nexts root)) with (tower (heap r) 0) by (unfold tower; by rewrite Hroot).
    fold (grow_head (heap r) (rLevel + 1) (rLevel + 1)).
    destruct (grow_head_facts (heap r) _ (rLevel + 1) (rLevel + 1) Hwf) as (_ & Hwf1 & Htow1 & Hent1 & Hkey1); [lia |].
    set (h := grow_head (heap r) (rLevel + 1) (rLevel + 1)) in *. clearbody h.
    destruct (skip_insert_spec h _ (rLevel + 1) s [n] Hwf1) as (h' & ord' & -> & Hwf' & l1 & l2 & He & He'); [lia | intros x Hx; rewrite Hkey1; by apply Hne |].
    cbn [obind]. eexists. split; [done |]. rewrite Hent1 in He. unfold entries in Hall. rewrite He in Hall.
    match goal with |- local_ok ?r' /\ _ => destruct (rebuilt r' _ _ _ Hwf' He') as [Hok' Hsc]; [| done | |] end.
    { rewrite Forall_app, Forall_cons in *. destruct Hall as (? & ?). by split_and!. }
    { intros _ Hnil. by apply app_eq_nil in Hnil as [_ ?]. }
    split; [done |]. split; [| done]. rewrite Hsc. unfold local_scores, entries. rewrite He. apply list_to_map_middle.
    eapply (middle_keys l1 l2 s [n]). rewrite <- He'. by apply wf_keys_NoDup.
Qed.

Lemma cut_first n (l : list string) : match list_find (eq n) l with
  | Some (i, _) => n ∈ l /\ take i l ++ drop (S i) l = remove_first n l
  | None => n ∉ l
  end.
Proof.
  induction l as [| x l IH]; simpl; [apply not_elem_of_nil |]. destruct (decide (n = x)) as [-> | Hne].
  - split; [by left |]. by rewrite decide_True.
  - rewrite (decide_False (P := x = n)) by congruence. destruct (list_find (eq n) l) as [[i y] |]; simpl.
    + destruct IH as [Hin <-]. split; [by right | done].
    + by intros [? | ?]%elem_of_cons.
Qed.

Lemma remove_first_nil n l : n ∈ l -> (remove_first n l = [] <-> ~ (1 < length l)%nat).
Proof.
  destruct l as [| x l]; intros Hn; [by apply not_elem_of_nil in Hn |]. simpl. case_decide as Hx.
  - destruct l; simpl; split; intros; try done; lia.
  - apply elem_of_cons in Hn as [-> | Hn]; [done |]. destruct l; [by apply not_elem_of_nil in Hn |]. simpl. split; [done | lia].
Qed.

Lemma Rem_law r s n l : local_ok r -> local_scores r !! s = Some l -> n ∈ l ->
  exists r', ring_Rem s n r = Ret (r', Ok tt) /\ local_ok r' /\ local_scores r' = table_remove s n (local_scores r)
    /\ nodeToReplicas r' = nodeToReplicas r /\ nodeToDataKey r' = delete n (nodeToDataKey r).
Proof.
  intros Hok Hl Hn. unfold ring_Rem, table_remove. pose proof (get_spec r s Hok) as Hg. pose proof (lo_wf _ Hok) as Hwf. pose proof (lo_entries _ Hok) as Hall.
  rewrite Hl in Hg. rewrite Hl. destruct Hg as (a & nd & -> & Ha & Hnd & Hk & Hv). cbn [obind]. rewrite Hv.
  pose proof (cut_first n l) as Hc. destruct (list_find (eq n) l) as [[i y] |]; [| done]. destruct Hc as [_ Hc]. rewrite Hc.
  destruct (decide (1 < length l)%nat) as [Hlen | Hlen].
  - rewrite decide_False by (rewrite remove_first_nil by done; tauto).
    destruct (set_value_spec _ _ a (remove_first n l) nd Hwf Ha Hnd) as (Hwf' & l1 & l2 & He & He'). rewrite Hk in He, He'. rewrite Hv in He.
    eexists. split; [done |]. unfold entries in Hall. rewrite He in Hall.
    match goal with |- local_ok ?r' /\ _ => destruct (rebuilt r' _ _ _ Hwf' He') as [Hok' Hsc]; [| done | |] end.
    { rewrite Forall_app, Forall_cons in *. destruct Hall as (? & [? ?] & ?). split_and!; try done. simpl. rewrite remove_first_nil by done. tauto. }
    { intros _ Hnil. by apply app_eq_nil in Hnil as [_ ?]. }
    split; [done |]. split; [| done]. rewrite Hsc. unfold local_scores, entries. rewrite He.
    assert (Hmid : s ∉ l1.*1) by (eapply (middle_keys l1 l2 s l); rewrite <- He; by apply wf_keys_NoDup).
    by rewrite !list_to_map_middle, insert_insert_eq.
  - rewrite decide_True by (rewrite remove_first_nil by done; tauto). cbv zeta.
    change (heap (r <| nodeToDataKey := delete n (nodeToDataKey r) |>)) with (heap r).
    destruct (wf_head _ _ Hwf) as [root Hroot]. rewrite (proj2 (deref_ret _ _ _) Hroot). cbn [obind].
    replace (length (nexts root)) with (tower (heap r) 0) by (unfold tower; by rewrite Hroot).
    destruct (remove_spec (heap r) _ a s Hwf Ha) as (h' & ord' & -> & Hwf' & _ & l1 & l2 & He & He'); [unfold key_at; by rewrite Hnd |].
    cbn [obind]. destruct (trim_head_wf h' ord' Hwf') as [Hwf2 He2]. rewrite He' in He2. eexists. split; [done |]. unfold entries in Hall. rewrite He in Hall.
    match goal with |- local_ok ?r' /\ _ => destruct (rebuilt r' _ _ _ Hwf2 He2) as [Hok' Hsc]; [| done | |] end.
    { rewrite Forall_app, Forall_cons in *. tauto. }
    { intros Hpos Hnil. apply (trimmed_used h' ord' Hwf2 Hpos). rewrite <- He2 in Hnil. by apply fmap_nil_inv in Hnil. }
    split; [done |]. split; [| done]. rewrite Hsc. unfold local_scores, entries. rewrite He.
    destruct (middle_keys l1 l2 s (value_at (heap r) a)) as [Hmid Hmid2]; [rewrite <- He; by apply wf_keys_NoDup |].
    rewrite list_to_map_middle by done. rewrite delete_insert_id; [done |]. by apply not_elem_of_list_to_map.
Qed.

(** ** Searching *)

Lemma suffix_sorted (h : list virtualNode) ord P b T : skip_wf h ord -> 0%nat :: ord = P ++ b :: T ->
  (b <> 0%nat -> b ∈ ord) /\ (forall y, y ∈ T -> y ∈ ord /\ (b <> 0%nat -> key_at h b < key_at h y))
  /\ (forall y, y ∈ ord -> y ∈ P \/ y = b \/ y ∈ T) /\ (forall y, y ∈ P -> y <> 0%nat -> key_at h y < key_at h b)
  /\ (b = 0%nat -> P = [] /\ T = ord).
Proof.
  intros Hwf Hsp. pose proof (wf_sorted _ _ Hwf) as Hs. pose proof (wf_nodup _ _ Hwf) as Hnd.
  destruct P as [| p P]; simpl in Hsp; injection Hsp as Hp Hord.
  - subst b. rewrite <- Hord. split; [done |]. split; [by intros y Hy |]. split; [intros y Hy; by right; right |].
    split; [intros y Hy; by apply not_elem_of_nil in Hy | done].
  - subst p. rewrite Hord in Hs, Hnd. destruct (StronglySorted_klt_split (key_at h) P T b Hs) as [H1 H2]. rewrite Hord. split_and!.
    + intros _. apply elem_of_app. right. by left.
    + intros y Hy. split; [apply elem_of_app; right; by right | intros _; by apply H2].
    + intros y [Hy | [-> | Hy]%elem_of_cons]%elem_of_app; [left; by right | by right; left | by right; right].
    + intros y [-> | Hy]%elem_of_cons Hy0; [done | by apply H1].
    + intros ->. apply NoDup_cons in Hnd as [Hno _]. exfalso. apply Hno, elem_of_app. right. by left.
Qed.

Lemma head_least (h : list virtualNode) ord T c : skip_wf h ord -> T `suffix_of` ord -> head T = Some c -> forall y, y ∈ T -> key_at h c <= key_at h y.
Proof.
  intros Hwf [P HP] Hc y Hy. destruct T as [| c' T]; [done |]. injection Hc as ->.
  apply elem_of_cons in Hy as [-> | Hy]; [done |]. pose proof (wf_sorted _ _ Hwf) as Hs. rewrite HP in Hs.
  destruct (StronglySorted_klt_split (key_at h) P T c Hs) as [_ H2]. apply Z.lt_le_incl. by apply H2.
Qed.

(** The search for a score, from a head that has levels. *)
Lemma descend_score r s : local_ok r -> (0 < tower (heap r) 0)%nat ->
  exists b P T, descend (heap r) s (tower (heap r) 0) 0 = Ret b /\ 0%nat :: bottom (heap r) = P ++ b :: T
    /\ (forall x, x ∈ P ++ [b] -> x <> 0%nat -> key_at (heap r) x < s) /\ (forall x, x ∈ T -> s <= key_at (heap r) x)
    /\ next_at (heap r) b 0 = Some (head T) /\ T `suffix_of` bottom (heap r).
Proof.
  intros Hok Hpos. destruct (descend_spec (heap r) _ s (tower (heap r) 0) 0 (lo_wf _ Hok)) as (b & P & T & Hd & Hsp & Hlow & Hhigh & Hn);
    [lia | done | by left | by intros ? |].
  exists b, P, T. split_and!; try done.
  - intros x Hx. specialize (Hhigh x Hx). unfold klt in Hhigh. simpl in Hhigh. lia.
  - destruct P as [| p P]; simpl in Hsp; injection Hsp as _ ->; [done |]. exists (P ++ [b]). by rewrite <- app_assoc.
Qed.

Lemma dom_empty r : local_ok r -> bottom (heap r) = [] -> dom (local_scores r) = ∅.
Proof. intros Hok Hb. apply set_eq. intros s. rewrite scores_dom, Hb by done. set_solver. Qed.
Lemma no_levels r : local_ok r -> tower (heap r) 0 = 0%nat -> bottom (heap r) = [].
Proof.
  intros Hok Hz. destruct (bottom (heap r)) as [| a l] eqn:Hb; [done |].
  pose proof (wf_tall _ _ (lo_wf _ Hok) a ltac:(rewrite Hb; by left)). lia.
Qed.

(** Reading the pointer that a search stopped at. *)
Lemma read_next r a l : local_ok r -> a ∈ 0%nat :: bottom (heap r) -> next_at (heap r) a 0 = Some l ->
  exists n, deref (heap r) a = Ret n /\ index (nexts n) 0 = Ret l /\ key n = key_at (heap r) a.
Proof.
  intros Hok Ha Hn. apply next_deref in Hn as (n & Hd & Hi & Hl). exists n. split; [done |]. split; [exact Hi |]. unfold key_at. by rewrite Hl.
Qed.
Lemma deref_bottom r a : local_ok r -> a ∈ bottom (heap r) -> exists n, deref (heap r) a = Ret n /\ key n = key_at (heap r) a.
Proof.
  intros Hok Ha. destruct (wf_nodes _ _ (lo_wf _ Hok) a Ha) as [n Hn]. exists n. split; [by apply deref_ret |]. unfold key_at. by rewrite Hn.
Qed.

Lemma head_in {A} (l : list A) x : head l = Some x -> x ∈ l.
Proof. destruct l; [done |]. intros [= ->]. by left. Qed.

Lemma root_tower r : local_ok r -> exists root, deref (heap r) 0 = Ret root /\ length (nexts root) = tower (heap r) 0.
Proof.
  intros Hok. destruct (wf_head _ _ (lo_wf _ Hok)) as [root Hroot]. exists root. split; [by apply deref_ret |]. unfold tower. by rewrite Hroot.
Qed.

Lemma first_spec r : local_ok r -> exists o, first r = Ret o /\
  match o with Some c => c ∈ dom (local_scores r) /\ forall x, x ∈ dom (local_scores r) -> c <= x | None => dom (local_scores r) = ∅ end.
Proof.
  intros Hok. unfold first. destruct (root_tower r Hok) as (root & Hroot & Ht). rewrite Hroot. cbn [obind]. rewrite Ht.
  case_decide as Hz; [exists None; split; [done | by apply dom_empty, no_levels] |].
  pose proof (lo_wf _ Hok) as Hwf. pose proof (wf_links _ _ Hwf 0%nat ltac:(lia)) as Hl. rewrite (level_0 _ _ (wf_base _ _ Hwf)) in Hl.
  destruct Hl as [Hn _]. destruct (read_next r 0 _ Hok ltac:(by left) Hn) as (n & Hd & Hi & _).
  rewrite Hroot in Hd. injection Hd as <-.
  rewrite Hi. cbn [obind]. destruct (head (bottom (heap r))) as [b |] eqn:Hb.
  - pose proof (head_in _ _ Hb) as Hin. destruct (deref_bottom r b Hok Hin) as (nb & -> & Hkb). cbn [obind]. exists (Some (key nb)). split; [done |].
    rewrite Hkb. split; [apply scores_dom; [done |]; by exists b |]. intros x (y & Hy & <-)%scores_dom; [| done].
    by apply (head_least (heap r) (bottom (heap r)) (bottom (heap r))).
  - exfalso. apply (lo_used _ Hok); [lia |]. by destruct (bottom (heap r)).
Qed.

Lemma Ceiling_law r s : local_ok r -> exists c, ring_Ceiling s r = Ret (r, Ok c) /\ is_ceiling (dom (local_scores r)) s c.
Proof.
  intros Hok. unfold ring_Ceiling, ceiling. destruct (root_tower r Hok) as (root & -> & Ht). cbn [obind]. rewrite Ht.
  destruct (first_spec r Hok) as (o & Hfirst & Ho).
  assert (Hwrap : (forall x, x ∈ dom (local_scores r) -> x < s) ->
    exists c, (let! c := first r in Ret (r, Ok (default (-1) c))) = Ret (r, @Ok string Z c) /\ is_ceiling (dom (local_scores r)) s c).
  { intros Hall. rewrite Hfirst. cbn [obind]. exists (default (-1) o). split; [done |].
    destruct o as [c |]; [destruct Ho; right; right; by split_and! | by left]. }
  case_decide as Hz.
  { apply Hwrap. rewrite (dom_empty r Hok (no_levels r Hok Hz)). set_solver. }
  destruct (descend_score r s Hok) as (b & P & T & -> & Hsp & Hlow & Hhigh & Hn & Hsuf); [lia |]. cbn [obind].
  destruct (suffix_sorted _ _ _ _ _ (lo_wf _ Hok) Hsp) as (Hb & HT & Hcases & _ & _).
  destruct (read_next r b _ Hok ltac:(rewrite Hsp; apply elem_of_app; right; by left) Hn) as (n & -> & Hi & _). cbn [obind]. rewrite Hi. cbn [obind].
  assert (Hkeys : forall x, x ∈ dom (local_scores r) -> x < s \/ exists y, y ∈ T /\ key_at (heap r) y = x).
  { intros x (y & Hy & <-)%scores_dom; [| done]. pose proof (wf_nodup _ _ (lo_wf _ Hok)) as [H0 _]%NoDup_cons.
    destruct (Hcases y Hy) as [Hp | [-> | Ht']]; [left; apply Hlow; [apply elem_of_app; by left |] | left; apply Hlow; [apply elem_of_app; right; by left |] | right; by exists y];
      by intros ->. }
  destruct (head T) as [c |] eqn:Hc.
  - pose proof (head_in _ _ Hc) as Hin. destruct (HT c Hin) as [Hcin _]. destruct (deref_bottom r c Hok Hcin) as (nc & -> & Hkc). cbn [obind].
    exists (key nc). split; [done |]. right; left. rewrite Hkc. split_and!.
    + apply scores_dom; [done |]. by exists c.
    + by apply Hhigh.
    + intros x Hx Hsx. destruct (Hkeys x Hx) as [Hlt | (y & Hy & <-)]; [lia |]. by apply (head_least _ _ T c (lo_wf _ Hok)).
  - apply Hwrap. intros x Hx. destruct (Hkeys x Hx) as [Hlt | (y & Hy & _)]; [done |]. destruct T; [by apply not_elem_of_nil in Hy | done].
Qed.

(** The walk to the end of a level, and of all levels. *)
Lemma walk_end_spec (h : list virtualNode) l fuel a T : linked h l (a :: T) -> (length T <= fuel)%nat -> walk_end fuel h l a = Ret (List.last T a).
Proof.
  revert a T. induction fuel as [| fuel IH]; intros a T [Hn Hl] Hf; apply next_deref in Hn as (n & Hd & Hi & _);
    cbn [walk_end]; rewrite Hd; cbn [obind]; rewrite Hi; cbn [obind]; destruct T as [| b T]; try done; [simpl in Hf; lia |].
  cbn [head]. rewrite (IH b T) by (try done; simpl in Hf; lia). by rewrite list_last_cons.
Qed.

Lemma descend_end_spec (h : list virtualNode) ord n a : skip_wf h ord -> (1 <= n)%nat -> (n <= tower h a)%nat -> a ∈ 0%nat :: ord ->
  descend_end h n a = Ret (List.last ord 0%nat).
Proof.
  intros Hwf. pose proof (wf_base _ _ Hwf) as Hb. revert a. induction n as [| n IH]; intros a H1 Hn Ha; [lia |]. cbn [descend_end].
  assert (Hr : (n < tower h 0)%nat) by (apply elem_of_cons in Ha as [-> | Ha]; [lia |]; destruct (sb_tall _ _ Hb a Ha); lia).
  assert (Hin : a ∈ 0%nat :: level_run h ord n).
  { apply elem_of_cons in Ha as [-> | Ha]; [by left |]. right. apply run_in. split; [done | lia]. }
  pose proof (wf_links _ _ Hwf n Hr) as Hl. pose proof (run_length h ord n Hb) as Hlen.
  apply list_elem_of_split in Hin as (P & T & Hsp). rewrite Hsp in Hl. apply linked_app in Hl.
  assert (Hlt : (length T <= length h)%nat) by (apply (f_equal length) in Hsp; rewrite length_app in Hsp; simpl in Hsp; lia).
  rewrite (walk_end_spec h n (length h) a T Hl Hlt). cbn [obind].
  assert (Hlast : List.last T a = List.last (level_run h ord n) 0%nat).
  { clear -Hsp. destruct P as [| p P]; simpl in Hsp; injection Hsp as Hp ->; [by subst |]. clear p Hp. generalize 0%nat.
    induction P as [| p P IHP]; intros z; cbn [app]; rewrite list_last_cons; [done | apply IHP]. }
  destruct n as [| n]; [cbn [descend_end]; by rewrite Hlast, (level_0 h ord Hb) |].
  pose proof (list_last_in (level_run h ord (S n)) 0%nat) as Hli. rewrite <- Hlast in Hli.
  apply IH; [lia | |].
  - apply elem_of_cons in Hli as [-> | [_ ?]%run_in]; lia.
  - apply elem_of_cons in Hli as [-> | [? _]%run_in]; [by left | by right].
Qed.

Lemma last_spec r : local_ok r -> exists o, last r = Ret o /\
  match o with Some c => c ∈ dom (local_scores r) /\ forall x, x ∈ dom (local_scores r) -> x <= c | None => dom (local_scores r) = ∅ end.
Proof.
  intros Hok. unfold last. destruct (root_tower r Hok) as (root & -> & Ht). cbn [obind]. rewrite Ht. pose proof (lo_wf _ Hok) as Hwf.
  assert (Hend : descend_end (heap r) (tower (heap r) 0) 0 = Ret (List.last (bottom (heap r)) 0%nat)).
  { destruct (decide (tower (heap r) 0 = 0)%nat) as [Hz | Hz].
    - rewrite (no_levels r Hok Hz), Hz. done.
    - apply descend_end_spec; [done | lia | done | by left]. }
  rewrite Hend. cbn [obind]. destruct (list_last_split (bottom (heap r)) 0%nat) as [P HP].
  destruct (suffix_sorted _ _ P _ [] Hwf HP) as (Hb & _ & Hcases & Hbelow & Hz0). case_decide as Hz.
  - exists None. split; [done |]. apply dom_empty; [done |]. destruct (Hz0 Hz) as [_ <-]. done.
  - destruct (deref_bottom r _ Hok (Hb Hz)) as (n & -> & Hk). cbn [obind]. exists (Some (key n)). split; [done |]. rewrite Hk.
    split; [apply scores_dom; [done |]; eexists; split; [by apply Hb | done] |].
    intros x (y & Hy & <-)%scores_dom; [| done]. pose proof (wf_nodup _ _ Hwf) as [H0 _]%NoDup_cons.
    destruct (Hcases y Hy) as [Hp | [-> | Hn]]; [| done | by apply not_elem_of_nil in Hn].
    apply Z.lt_le_incl, Hbelow; [done |]. by intros ->.
Qed.

Lemma Floor_law r s : local_ok r -> exists c, ring_Floor s r = Ret (r, Ok c) /\ is_floor (dom (local_scores r)) s c.
Proof.
  intros Hok. unfold ring_Floor, floor. destruct (root_tower r Hok) as (root & -> & Ht). cbn [obind]. rewrite Ht. pose proof (lo_wf _ Hok) as Hwf.
  destruct (last_spec r Hok) as (o & Hlast & Ho).
  assert (Hwrap : (forall x, x ∈ dom (local_scores r) -> s < x) ->
    exists c, (let! c := last r in Ret (r, Ok (default (-1) c))) = Ret (r, @Ok string Z c) /\ is_floor (dom (local_scores r)) s c).
  { intros Hall. rewrite Hlast. cbn [obind]. exists (default (-1) o). split; [done |].
    destruct o as [c |]; [destruct Ho; right; right; by split_and! | by left]. }
  case_decide as Hz.
  { apply Hwrap. rewrite (dom_empty r Hok (no_levels r Hok Hz)). set_solver. }
  destruct (descend_score r s Hok) as (b & P & T & -> & Hsp & Hlow & Hhigh & Hn & Hsuf); [lia |]. cbn [obind].
  destruct (suffix_sorted _ _ _ _ _ Hwf Hsp) as (Hb & HT & Hcases & Hbelow & Hb0). pose proof (wf_nodup _ _ Hwf) as [H0 _]%NoDup_cons.
  destruct (read_next r b _ Hok ltac:(rewrite Hsp; apply elem_of_app; right; by left) Hn) as (n & -> & Hi & Hkn). cbn [obind]. rewrite Hi. cbn [obind].
  assert (Hdown : (forall y, y ∈ T -> s < key_at (heap r) y) ->
    exists c, (let! target := (if decide (b = 0%nat) then Ret None else Ret (Some (key n))) in
      match target with Some c => Ret (r, Ok c) | None => let! c := last r in Ret (r, Ok (default (-1) c)) end) = Ret (r, @Ok string Z c)
      /\ is_floor (dom (local_scores r)) s c).
  { intros Habove. case_decide as Hbz; cbn [obind].
    - apply Hwrap. intros x (y & Hy & <-)%scores_dom; [| done]. apply Habove. by destruct (Hb0 Hbz) as [_ ->].
    - exists (key n). split; [done |]. right; left. rewrite Hkn. split_and!.
      + apply scores_dom; [done |]. exists b. split; [by apply Hb | done].
      + apply Z.lt_le_incl, Hlow; [apply elem_of_app; right; by left | done].
      + intros x (y & Hy & <-)%scores_dom Hxs; [| done]. destruct (Hcases y Hy) as [Hp | [-> | Hy']]; [| done | specialize (Habove y Hy'); lia].
        apply Z.lt_le_incl, Hbelow; [done |]. by intros ->. }
  destruct (head T) as [c |] eqn:Hc.
  - pose proof (head_in _ _ Hc) as Hin. destruct (HT c Hin) as [Hcin _]. destruct (deref_bottom r c Hok Hcin) as (nc & -> & Hkc). cbn [obind].
    pose proof (Hhigh c Hin). destruct (decide (key nc = s)) as [Heq | Heq].
    + cbn [obind]. exists s. split; [done |]. right; left. split_and!; [| lia | done]. apply scores_dom; [done |]. exists c. split; [done | congruence].
    + apply Hdown. intros y Hy. pose proof (head_least _ _ T c Hwf Hsuf Hc y Hy). lia.
  - apply Hdown. intros y Hy. destruct T; [by apply not_elem_of_nil in Hy | done].
Qed.

(** ** The laws *)

Lemma same_skip r r' : local_ok r -> heap r' = heap r -> local_ok r' /\ local_scores r' = local_scores r.
Proof. intros [Hwf He Hu] Hh. unfold local_scores, entries in *. split; [split; unfold entries; by rewrite Hh | by rewrite Hh]. Qed.

Ltac shown_same Hok :=
  match type of Hok with local_ok ?r =>
    match goal with |- local_ok ?r' /\ _ => destruct (same_skip r r' Hok eq_refl) as [? ?]; split; [done |]; split; [done |] end
  end.

#[export] Instance local_spec : HashRingSpec SkiplistHashRing.
Proof.
  refine {| ring_ok := local_ok; scores := local_scores; replicas_of := nodeToReplicas; data := local_data |}.
  - intros r s l Hok Hl. apply elem_of_list_to_map_2 in Hl. pose proof (lo_entries _ Hok) as Hall. rewrite Forall_forall in Hall. exact (Hall (s, l) Hl).
  - intros r s n Hok Hs _. destruct (Add_law r s n Hok Hs) as (r' & ? & ? & ? & ? & Hd). exists r'. unfold local_data. by rewrite Hd.
  - intros r s Hok _. by apply Ceiling_law.
  - intros r s Hok _. by apply Floor_law.
  - intros r s n l Hok Hl Hn. destruct (Rem_law r s n l Hok Hl Hn) as (r' & ? & ? & ? & ? & Hd). exists r'. unfold local_data. rewrite Hd.
    split_and!; try done; [intros x Hx; by rewrite lookup_delete_ne | right; by rewrite lookup_delete_eq].
  - done.
  - intros r n c Hok _. eexists. split; [done |]. shown_same Hok. done.
  - intros r n Hok. eexists. split; [done |]. shown_same Hok. done.
  - intros r s l Hok Hl. simpl. unfold ring_Node. pose proof (get_spec r s Hok) as Hg. rewrite Hl in Hg. destruct Hg as (a & n & -> & _ & _ & _ & Hv). cbn [obind]. by rewrite Hv.
  - done.
  - intros r n ks Hok. eexists. split; [done |]. shown_same Hok. split; [done |].
    intros x. unfold local_data. simpl. case_decide; subst; [by rewrite lookup_insert_eq | by rewrite lookup_insert_ne].
  - intros r n ks Hok. simpl. unfold ring_DeleteNodeToDataKeys, local_data. destruct (nodeToDataKey r !! n) as [old |] eqn:Hold.
    + case_decide as Hz; eexists; (split; [done |]); shown_same Hok; (split; [done |]); intros x; simpl; case_decide; subst.
      * rewrite lookup_delete_eq. simpl. apply size_empty_inv in Hz. set_solver.
      * by rewrite lookup_delete_ne.
      * by rewrite lookup_insert_eq.
      * by rewrite lookup_insert_ne.
    + exists r. split; [done |]. split; [done |]. split; [done |]. split; [done |]. intros x. case_decide; [subst; rewrite Hold; set_solver | done].
Defined.

Lemma NewSkiplistHashRing_ok ds : local_ok (NewSkiplistHashRing ds) /\ local_scores (NewSkiplistHashRing ds) = ∅.
Proof.
  assert (Hwf : skip_wf [mkNode [] 0 (@nil string)] []).
  { split; [by eexists | apply NoDup_singleton | intros a Ha; by apply not_elem_of_nil in Ha | intros a Ha; by apply not_elem_of_nil in Ha | | constructor].
    intros l Hl. cbv in Hl. lia. }
  apply (rebuilt (NewSkiplistHashRing ds) [mkNode [] 0 []] [] []); try done. intros Hp. cbv in Hp. lia.
Qed.
