(* ===== verification/ConsistentHash.v ===== *)
(** * ConsistentHash
    Consistent hashing with data migration ([consistent_hash/consistent_hash.go],
    [migration.go], [option.go]) over any ring. A call that holds the lock of
    the ring is one step. What the migrator is asked for is the result of a call:
    the tasks that [batchExecuteMigrator] runs. *)
From S2P Require Import Prelude GoStrings GoNumbers ChRing.

(** ** [option.go] *)

Record ConsistentHashOptions := mkOptions { lockExpireSeconds : Z; replicas : Z }.
#[export] Instance eta_options : Eta ConsistentHashOptions := fun o => mkOptions (lockExpireSeconds o) (replicas o).
Definition WithLockExpireSeconds (seconds : Z) (o : ConsistentHashOptions) : ConsistentHashOptions := o <| lockExpireSeconds := seconds |>.
Definition WithReplicas (n : Z) (o : ConsistentHashOptions) : ConsistentHashOptions := o <| replicas := n |>.
Definition repair (o : ConsistentHashOptions) : ConsistentHashOptions :=
  let o := if decide (lockExpireSeconds o <= 0) then o <| lockExpireSeconds := 15 |> else o in
  if decide (replicas o <= 0) then o <| replicas := 5 |> else o.
Definition NewOptions (opts : list (ConsistentHashOptions -> ConsistentHashOptions)) : ConsistentHashOptions :=
  repair (foldl (fun o f => f o) (mkOptions 0 0) opts).

(** ** Names *)

(** [strings.LastIndex] of one character. *)
Fixpoint LastIndex (s : string) (c : Ascii.ascii) : option nat :=
  match s with
  | EmptyString => None
  | String a s =>
      match LastIndex s c with
      | Some i => Some (S i)
      | None => if decide (a = c) then Some 0%nat else None
      end
  end.

Definition getRawNodeKey (nodeID : string) (index : Z) : string := nodeID ++ "_" ++ Itoa index.
Definition getNodeID (rawNodeKey : string) : string :=
  match LastIndex rawNodeKey "_"%char with
  | None => rawNodeKey
  | Some index => String.substring 0 index rawNodeKey
  end.

Definition getValidWeight (weight : Z) : Z :=
  if decide (weight <= 0) then 1 else if decide (10 <= weight) then 10 else weight.

Definition incrScore (score : Z) : Z := if decide (score = MaxInt32 - 1) then 0 else i32 (score + 1).
Definition decreaseScore (score : Z) : Z := if decide (score = 0) then MaxInt32 - 1 else i32 (score - 1).

(** The data keys to hand over, from a node to another. *)
Definition task : Type := string * string * gset string.

Section Hash.
Context {R : Type} `{HashRing R} `{Encryptor}.
Context (opts : ConsistentHashOptions) (migrating : bool).

(** ** [migration.go] *)

(** The keys of [migrateIn] between the score before the new one and it. *)
Definition moves_in (patternOne patternTwo : bool) (lastScore virtualScore : Z) (dataKey : string) : Prop :=
  let d := Encrypt dataKey in
  let d := if patternOne && bool_decide (i32 (lastScore + MaxInt32) < d) then i32 (d - MaxInt32) else d in
  let d := if patternTwo : bool then i32 (d - MaxInt32) else d in
  ~ (d <= lastScore \/ virtualScore < d).
#[export] Instance moves_in_dec b1 b2 last cur k : Decision (moves_in b1 b2 last cur k).
Proof. unfold moves_in. apply _. Defined.

(** [None] is a return without anything to migrate. *)
Definition migrateIn (virtualScore : Z) (nodeID : string) : call R (option task) :=
  if negb migrating then give None else
  try! nodes := Node virtualScore in
  if decide (1 < length nodes)%nat then give None else
  try! lastScore := Floor (decreaseScore virtualScore) in
  if decide (lastScore = -1 \/ lastScore = virtualScore) then give None else
  try! nextScore := Ceiling (incrScore virtualScore) in
  if decide (nextScore = -1 \/ nextScore = virtualScore) then give None else
  let patternOne := bool_decide (virtualScore < lastScore) in
  let patternTwo := bool_decide (nextScore < virtualScore) in
  let last := if patternOne then i32 (lastScore - MaxInt32) else lastScore in
  let cur := if patternTwo then i32 (virtualScore - MaxInt32) else virtualScore in
  let last := if patternTwo then i32 (last - MaxInt32) else last in
  try! nextNodes := Node nextScore in
  match nextNodes with
  | [] => give None
  | nextNode :: _ =>
      try! dataKeys := DataKeys (getNodeID nextNode) in
      let dataSet := filter (moves_in patternOne patternTwo last cur) dataKeys in
      try! _ := DeleteNodeToDataKeys (getNodeID nextNode) dataSet in
      try! _ := AddNodeToDataKeys nodeID dataSet in
      give (Some (getNodeID nextNode, nodeID, dataSet))
  end.

(** The keys of [migrateOut] between the score before and the one that goes. *)
Definition moves_out (onlyScore pattern : bool) (lastScore virtualScore : Z) (dataKey : string) : Prop :=
  if onlyScore then True else
  let d := Encrypt dataKey in
  let d := if pattern && bool_decide (i32 (lastScore + MaxInt32) < d) then i32 (d - MaxInt32) else d in
  ~ (d <= lastScore \/ virtualScore < d).
#[export] Instance moves_out_dec o p last cur k : Decision (moves_out o p last cur k).
Proof. unfold moves_out. destruct o; apply _. Defined.

(** The next node that is another one; empty when there is none. *)
Fixpoint getValidNextNode (fuel : nat) (score : Z) (nodeID : string) (ranged : gset Z) : call R string :=
  match fuel with
  | O => fun _ => Panic "getValidNextNode: out of fuel"
  | S fuel =>
      try! nextScore := Ceiling (incrScore score) in
      if decide (nextScore = -1) then give "" else
      if decide (nextScore ∈ ranged) then give "" else
      try! nextNodes := Node nextScore in
      match nextNodes with
      | [] => fail "next node empty"
      | nextNode :: rest =>
          if decide (getNodeID nextNode <> nodeID) then give (getNodeID nextNode) else
          match rest with
          | second :: _ => give (getNodeID second)
          | [] => getValidNextNode fuel nextScore nodeID ({[score]} ∪ ranged)
          end
      end
  end.

(** What [migrateOut] finds to migrate. *)
Definition plan_out (fuel : nat) (virtualScore : Z) (nodeID : string) : call R (option task) :=
  try! nodes := Node virtualScore in
  match nodes with
  | [] => give None
  | first :: rest =>
      if decide (getNodeID first <> nodeID) then give None else
      try! allDataSet := DataKeys nodeID in
      if decide (allDataSet = ∅) then give None else
      try! lastScore := Floor (decreaseScore virtualScore) in
      let onlyScore := bool_decide (lastScore = -1 \/ lastScore = virtualScore) in
      if onlyScore && bool_decide (length nodes = 1%nat) then fail "no other no" else
      let pattern := bool_decide (virtualScore < lastScore) in
      let last := if pattern then i32 (lastScore - MaxInt32) else lastScore in
      let dataSet := filter (moves_out onlyScore pattern last virtualScore) allDataSet in
      match rest with
      | second :: _ => give (Some (nodeID, getNodeID second, dataSet))
      | [] =>
          try! to := getValidNextNode fuel virtualScore nodeID ∅ in
          if decide (to = ""%string) then fail "no other node" else give (Some (nodeID, to, dataSet))
      end
  end.

(** [migrateOut], with its deferred update of the index. *)
Definition migrateOut (fuel : nat) (virtualScore : Z) (nodeID : string) : call R (option task) :=
  if negb migrating then give None else
  try! plan := plan_out fuel virtualScore nodeID in
  match plan with
  | None => give None
  | Some (from, to, dataSet) =>
      if decide (to = ""%string \/ dataSet = ∅) then give (Some (from, to, dataSet)) else
      try! _ := DeleteNodeToDataKeys nodeID dataSet in
      try! _ := AddNodeToDataKeys to dataSet in
      give (Some (from, to, dataSet))
  end.

(** ** [consistent_hash.go] *)

(** A task is kept when there is something to migrate. *)
Definition keep_task (t : option task) (tasks : list task) : list task :=
  match t with
  | Some (from, to, dataSet) => if decide (dataSet = ∅) then tasks else tasks ++ [(from, to, dataSet)]
  | None => tasks
  end.

(** The virtual nodes from [i] on, [n] of them. *)
Fixpoint add_virtual (nodeID : string) (n : nat) (i : Z) (tasks : list task) : call R (list task) :=
  match n with
  | O => give tasks
  | S n =>
      let nodeKey := getRawNodeKey nodeID i in
      let virtualScore := Encrypt nodeKey in
      try! _ := Add virtualScore nodeKey in
      try! t := migrateIn virtualScore nodeID in
      add_virtual nodeID n (i + 1) (keep_task t tasks)
  end.

Definition AddNode (nodeID : string) (weight : Z) : call R (list task) :=
  try! nodes := Nodes in
  if decide (nodeID ∈ dom nodes) then fail "repeat node" else
  let n := getValidWeight weight * replicas opts in
  try! _ := AddNodeToReplica nodeID n in
  add_virtual nodeID (Z.to_nat n) 0 [].

Fixpoint remove_virtual (fuel : nat) (nodeID : string) (n : nat) (i : Z) (tasks : list task) : call R (list task) :=
  match n with
  | O => give tasks
  | S n =>
      let virtualScore := Encrypt (getRawNodeKey nodeID i) in
      try! t := migrateOut fuel virtualScore nodeID in
      try! _ := Rem virtualScore (getRawNodeKey nodeID i) in
      remove_virtual fuel nodeID n (i + 1) (keep_task t tasks)
  end.

Definition RemoveNode (fuel : nat) (nodeID : string) : call R (list task) :=
  try! nodes := Nodes in
  match nodes !! nodeID with
  | None => fail "invalid node id"
  | Some n =>
      try! _ := DeleteNodeToReplica nodeID in
      remove_virtual fuel nodeID (Z.to_nat n) 0 []
  end.

Definition GetNode (dataKey : string) : call R string :=
  let dataScore := Encrypt dataKey in
  try! ceilingScore := Ceiling dataScore in
  if decide (ceilingScore = -1) then fail "no node available" else
  try! nodes := Node ceilingScore in
  match nodes with
  | [] => fail "no node available with empty score"
  | node :: _ =>
      try! _ := AddNodeToDataKeys (getNodeID node) {[dataKey]} in
      give (getNodeID node)
  end.
End Hash.
