(* ===== verification/ConsistentHashFacts.v ===== *)
(** * ConsistentHashFacts
    Who owns a key on a ring: arcs between scores, names of virtual nodes, and
    tables that hold the virtual nodes of some set of names. *)
From S2P Require Import Prelude GoStrings GoNumbers ChRing ConsistentHash.

(** ** Arcs *)

Definition all_scores (S : gset Z) : Prop := forall x, x ∈ S -> is_score x.

Lemma incr_score s : is_score s -> incrScore s = if decide (s = MaxInt32 - 1) then 0 else s + 1.
Proof. intros Hs. unfold incrScore, is_score, MaxInt32 in *. case_decide; [done |]. apply i32_id. lia. Qed.
Lemma decrease_score s : is_score s -> decreaseScore s = if decide (s = 0) then MaxInt32 - 1 else s - 1.
Proof. intros Hs. unfold decreaseScore, is_score, MaxInt32 in *. case_decide; [done |]. apply i32_id. lia. Qed.
Lemma incr_is_score s : is_score s -> is_score (incrScore s).
Proof. intros Hs. rewrite incr_score by done. unfold is_score, MaxInt32 in *. case_decide; lia. Qed.
Lemma decrease_is_score s : is_score s -> is_score (decreaseScore s).
Proof. intros Hs. rewrite decrease_score by done. unfold is_score, MaxInt32 in *. case_decide; lia. Qed.

Ltac arc_cases :=
  repeat match goal with
  | H : is_ceiling _ _ _ |- _ => destruct H as [[? ?] | [(? & ? & ?) | (? & ? & ?)]]
  | H : is_floor _ _ _ |- _ => destruct H as [[? ?] | [(? & ? & ?) | (? & ? & ?)]]
  end.
(** Uses what is known of all scores at the scores at hand. *)
Ltac at_score x :=
  repeat match goal with
  | H : forall y, y ∈ ?S -> _, Hx : x ∈ ?S |- _ => let K := fresh "K" in pose proof (H x Hx) as K; clear H
  end.

Lemma ceiling_total (S : gset Z) s : exists c, is_ceiling S s c.
Proof.
  destruct (decide (S = ∅)) as [-> | Hne]; [exists (-1); by left |].
  assert (Hmin : forall X : gset Z, X <> ∅ -> exists m, m ∈ X /\ forall x, x ∈ X -> m <= x).
  { intros X HX. destruct (minimal_exists_elem_of Z.le X) as (m & Hm & Hall); [set_solver |]. exists m. split; [done |].
    intros x Hx. specialize (Hall x Hx). destruct (decide (x <= m)); [by apply Hall | lia]. }
  destruct (decide (filter (fun x => s <= x) S = ∅)) as [He | Hf].
  - destruct (Hmin S Hne) as (m & Hm & Hall). exists m. right; right. split; [done |]. split; [| done].
    intros x Hx. destruct (decide (s <= x)) as [Hsx |]; [| lia]. assert (x ∈ filter (fun x => s <= x) S) by (by apply elem_of_filter). set_solver.
  - destruct (Hmin _ Hf) as (m & [Hs Hm]%elem_of_filter & Hall). exists m. right; left. split; [done |]. split; [done |].
    intros x Hx Hsx. by apply Hall, elem_of_filter.
Qed.

(** A score kept in a part of the ring stays the one that is found. *)
Lemma ceiling_sub (S F : gset Z) d c : F ⊆ S -> is_ceiling S d c -> c ∈ F -> is_ceiling F d c.
Proof.
  intros Hsub Hc Hin. arc_cases; [set_solver | right; left | right; right]; split_and!; try done; intros x Hx; auto.
Qed.

(** When the one found is not in the part, the search goes on behind it. *)
Lemma ceiling_skip (S F : gset Z) d c e : all_scores S -> F ⊆ S -> is_ceiling S d c -> c ∈ S -> c ∉ F ->
  is_ceiling F (incrScore c) e -> is_ceiling F d e.
Proof.
  intros Hall Hsub Hc Hcin Hno He. pose proof (Hall c Hcin) as Hcs. rewrite incr_score in He by done.
  assert (Hx : forall x, x ∈ F -> is_score x /\ x <> c /\ x ∈ S) by (intros x Hx; split; [auto |]; split; [by intros -> | auto]).
  destruct He as [[-> ->] | He]; [by left |]. right.
  assert (Hsplit : forall x, x ∈ F -> d <= x <-> (c < x /\ d <= c)).
  { intros x HxF. destruct (Hx x HxF) as (Hs & Hne & HxS). destruct Hc as [[-> _] | [(_ & Hdc & Hm) | (_ & Hlt & Hm)]]; [set_solver | |].
    - split; [intros Hd; specialize (Hm x HxS Hd); lia | lia].
    - pose proof (Hlt x HxS). pose proof (Hlt c Hcin). lia. }
  assert (Hback : ~ d <= c -> forall x, x ∈ F -> c < x).
  { intros Hd x HxF. destruct (Hx x HxF) as (_ & Hne & HxS). destruct Hc as [[-> _] | [(_ & Hdc & _) | (_ & Hlt & Hm)]]; [set_solver | lia |].
    specialize (Hm x HxS). lia. }
  unfold is_score in *. case_decide as Hmax.
  - assert (Hnone : forall x, x ∈ F -> ~ d <= x).
    { intros x HxF Hd. apply Hsplit in Hd; [| done]. destruct (Hx x HxF) as (Hs & _ & _). lia. }
    assert (Hmin : e ∈ F /\ forall x, x ∈ F -> e <= x).
    { destruct He as [(Hin & _ & Hm) | (Hin & Hlt & _)]; [split; [done |]; intros x HxF; apply Hm; [done | destruct (Hx x HxF) as (? & _); lia] |].
      specialize (Hlt e Hin). destruct (Hx e Hin) as (? & _). lia. }
    right. destruct Hmin. split_and!; try done. intros x HxF. specialize (Hnone x HxF). lia.
  - destruct (decide (d <= c)) as [Hdc | Hdc].
    + destruct He as [(Hin & Hle & Hm) | (Hin & Hlt & Hm)]; [left | right]; split_and!; try done.
      * apply Hsplit; [done |]. lia.
      * intros x HxF Hd. apply Hsplit in Hd; [| done]. apply Hm; [done | lia].
      * intros x HxF. destruct (decide (d <= x)) as [Hd |]; [| lia]. apply Hsplit in Hd; [| done]. specialize (Hlt x HxF). lia.
    + specialize (Hback Hdc). right. destruct He as [(Hin & Hle & Hm) | (Hin & Hlt & Hm)]; [| specialize (Hlt e Hin); specialize (Hback e Hin); lia].
      split_and!; try done.
      * intros x HxF. destruct (decide (d <= x)) as [Hd |]; [| lia]. apply Hsplit in Hd; [lia | done].
      * intros x HxF. apply Hm; [done |]. specialize (Hback x HxF). lia.
Qed.

(** How far ahead a score is. *)
Definition ahead (s e : Z) : Z := if decide (s < e) then e - s else e - s + MaxInt32.

Lemma ceiling_closer (S F : gset Z) s nx e : all_scores S -> F ⊆ S -> s ∈ S -> s ∉ F -> e ∈ F ->
  is_ceiling S (incrScore s) nx -> is_ceiling F (incrScore s) e -> nx <> e -> ahead nx e < ahead s e /\ nx <> s.
Proof.
  intros Hall Hsub Hs Hsf He Hnx Hce Hne. pose proof (Hall s Hs) as Hss. rewrite incr_score in Hnx, Hce by done.
  assert (Hes : e ∈ S) by auto. pose proof (Hall e Hes) as Hee.
  assert (e <> s) by (by intros ->). unfold ahead, is_score, MaxInt32 in *.
  destruct Hnx as [[-> _] | [(Hn & Hle & Hm) | (Hn & Hlt & Hm)]]; [set_solver | |]; pose proof (Hall nx Hn) as Hns; unfold is_score, MaxInt32 in Hns.
  - specialize (Hm e Hes). repeat case_decide; split; lia.
  - specialize (Hm e Hes). pose proof (Hlt e Hes). pose proof (Hlt s Hs). repeat case_decide; split; lia.
Qed.

Lemma ceiling_alone (S : gset Z) s : all_scores S -> s ∈ S -> is_ceiling S (incrScore s) s -> forall x, x ∈ S -> x = s.
Proof.
  intros Hall Hs Hc x Hx. pose proof (Hall s Hs) as Hss. pose proof (Hall x Hx) as Hxs. rewrite incr_score in Hc by done.
  unfold is_score, MaxInt32 in *. destruct Hc as [[-> _] | [(_ & Hle & Hm) | (_ & Hlt & Hm)]]; [set_solver | |].
  - specialize (Hm x Hx). repeat case_decide; lia.
  - specialize (Hm x Hx). specialize (Hlt x Hx). repeat case_decide; lia.
Qed.

Lemma floor_alone (S : gset Z) s : all_scores S -> s ∈ S -> is_floor S (decreaseScore s) s -> forall x, x ∈ S -> x = s.
Proof.
  intros Hall Hs Hc x Hx. pose proof (Hall s Hs) as Hss. pose proof (Hall x Hx) as Hxs. rewrite decrease_score in Hc by done.
  unfold is_score, MaxInt32 in *. destruct Hc as [[-> _] | [(_ & Hle & Hm) | (_ & Hlt & Hm)]]; [set_solver | |].
  - specialize (Hm x Hx). repeat case_decide; lia.
  - specialize (Hm x Hx). specialize (Hlt x Hx). repeat case_decide; lia.
Qed.

(** The positions that belong to a score are those after the score before. *)
Lemma arc_ceiling (S : gset Z) cur last d : all_scores S -> cur ∈ S -> is_score d -> is_floor S (decreaseScore cur) last -> last <> cur ->
  is_ceiling S d cur <-> if decide (cur < last) then last < d \/ d <= cur else last < d <= cur.
Proof.
  intros Hall Hcur Hd Hf Hne. pose proof (Hall cur Hcur) as Hcs. rewrite decrease_score in Hf by done. unfold is_score in *.
  assert (Hall' : forall x, x ∈ S -> 0 <= x < MaxInt32) by exact Hall.
  assert (Hl : last ∈ S) by (arc_cases; [set_solver | done | done]). pose proof (Hall' last Hl) as Hls.
  assert (Hlow : cur < last -> forall x, x ∈ S -> cur <= x <= last).
  { intros Hlt x Hx. pose proof (Hall' x Hx). destruct Hf as [[-> _] | [(_ & Hle & Hm) | (_ & Hlt' & Hm)]]; [set_solver | |]; specialize (Hm x Hx);
      [| specialize (Hlt' x Hx)]; case_decide; lia. }
  assert (Hgap : last < cur -> forall x, x ∈ S -> x <= last \/ cur <= x).
  { intros Hlt x Hx. pose proof (Hall' x Hx). destruct Hf as [[-> _] | [(_ & Hle & Hm) | (_ & Hlt' & Hm)]]; [set_solver | |].
    - specialize (Hm x Hx). case_decide; lia.
    - specialize (Hlt' last Hl). case_decide; lia. }
  destruct (decide (cur < last)) as [Hw | Hw].
  - specialize (Hlow Hw). split.
    + intros [[-> _] | [(_ & Hle & _) | (_ & Hlt & _)]]; [set_solver | lia |]. specialize (Hlt last Hl). lia.
    + intros [Hd' | Hd']; right; [right | left]; split_and!; try done; intros x Hx; specialize (Hlow x Hx); lia.
  - assert (Hlt : last < cur) by lia. specialize (Hgap Hlt). split.
    + intros [[-> _] | [(_ & Hle & Hm) | (_ & Hlt' & Hm)]]; [set_solver | |].
      * split; [| done]. destruct (decide (d <= last)); [specialize (Hm last Hl); lia | lia].
      * specialize (Hm last Hl). lia.
    + intros [H1 H2]. right; left. split_and!; try done. intros x Hx Hdx. destruct (Hgap x Hx); lia.
Qed.

(** ** Names *)

Lemma LastIndex_lacks s c : lacks c s -> LastIndex s c = None.
Proof. induction s as [| a s IH]; simpl; [done |]. intros [Ha Hs]. rewrite (IH Hs), decide_False; done. Qed.
Lemma LastIndex_app s c t : lacks c t -> LastIndex (s ++ String c t) c = Some (String.length s).
Proof.
  intros Ht. induction s as [| a s IH]; simpl; [by rewrite (LastIndex_lacks t c Ht), decide_True |]. by rewrite IH.
Qed.
Lemma index_lacks i : lacks "_"%char (Itoa i).
Proof. apply Itoa_lacks; [| done]. intros d Hd. by apply digit_not_sign. Qed.

Lemma getNodeID_key n i : getNodeID (getRawNodeKey n i) = n.
Proof.
  unfold getNodeID, getRawNodeKey. change ("_" ++ Itoa i)%string with (String "_"%char (Itoa i)).
  rewrite LastIndex_app by apply index_lacks. apply substring_prefix.
Qed.

Lemma key_index n i j : 0 <= i < 2 ^ 63 -> 0 <= j < 2 ^ 63 -> getRawNodeKey n i = getRawNodeKey n j -> i = j.
Proof.
  unfold getRawNodeKey. intros Hi Hj Hk.
  assert (Hs : forall s (a b : string), (s ++ a)%string = (s ++ b)%string -> a = b) by (intros s a b; induction s; simpl; [done | intros [= ?]; auto]).
  apply Hs, Hs in Hk. pose proof (Atoi_Itoa i ltac:(lia)) as H1. rewrite Hk, Atoi_Itoa in H1 by lia. by injection H1.
Qed.

Lemma key_longer n i : getRawNodeKey n i <> n.
Proof. unfold getRawNodeKey. intros Hk. apply (f_equal String.length) in Hk. rewrite !string_length_app in Hk. simpl in Hk. lia. Qed.

(** ** Tables *)

(** The node that a position belongs to. *)
Definition owner (t : table) (d : Z) (n : string) : Prop :=
  exists c v l, is_ceiling (dom t) d c /\ t !! c = Some (v :: l) /\ getNodeID v = n.

Lemma owner_unique t d n n' : owner t d n -> owner t d n' -> n = n'.
Proof.
  intros (c & v & l & Hc & Hl & <-) (c' & v' & l' & Hc' & Hl' & <-). rewrite (is_ceiling_unique _ _ _ _ Hc Hc') in Hl. congruence.
Qed.
Lemma owner_member t d n : owner t d n -> exists s v l, t !! s = Some l /\ v ∈ l /\ getNodeID v = n.
Proof. intros (c & v & l & _ & Hl & Hn). exists c, v, (v :: l). split_and!; [done | by left | done]. Qed.

Section Tables.
Context `{Encryptor}.

(** The table holds exactly the virtual nodes of [P], each at its score. *)
Record shape (t : table) (P : string -> Prop) : Prop := {
  sh_in s l v : t !! s = Some l -> v ∈ l -> P v /\ s = Encrypt v;
  sh_all v : P v -> exists l, t !! Encrypt v = Some l /\ v ∈ l;
  sh_nodup s l : t !! s = Some l -> NoDup l /\ l <> []
}.

Lemma shape_iff t (P Q : string -> Prop) : (forall v, P v <-> Q v) -> shape t P -> shape t Q.
Proof.
  intros Hpq [H1 H2 H3]. split; [| | done].
  - intros s l v Hl Hv. destruct (H1 s l v Hl Hv). split; [by apply Hpq | done].
  - intros v Hv. by apply H2, Hpq.
Qed.

Lemma shape_alone t P v : shape t P -> alone t (Encrypt v) v.
Proof. intros Hsh s l Hl Hv. by destruct (sh_in _ _ Hsh s l v Hl Hv). Qed.

Lemma shape_add t P v : shape t P -> ~ P v -> shape (table_add (Encrypt v) v t) (fun w => P w \/ w = v).
Proof.
  intros Hsh Hv. unfold table_add. destruct (t !! Encrypt v) as [l |] eqn:Hl.
  - rewrite decide_False by (intros Hin; by apply Hv; destruct (sh_in _ _ Hsh _ _ v Hl Hin)). split.
    + intros s k w. rewrite lookup_insert_Some. intros [[<- <-] | [Hne Hk]] Hw.
      * apply elem_of_app in Hw as [Hw | Hw%list_elem_of_singleton]; [destruct (sh_in _ _ Hsh _ _ w Hl Hw); auto | subst; auto].
      * destruct (sh_in _ _ Hsh s k w Hk Hw). auto.
    + intros w [Hw | ->].
      * destruct (sh_all _ _ Hsh w Hw) as (k & Hk & Hin). destruct (decide (Encrypt w = Encrypt v)) as [He | He].
        -- exists (l ++ [v]). rewrite He, lookup_insert_eq. split; [done |]. apply elem_of_app. left. congruence.
        -- exists k. by rewrite lookup_insert_ne.
      * exists (l ++ [v]). rewrite lookup_insert_eq. split; [done |]. apply elem_of_app. right. by left.
    + intros s k. rewrite lookup_insert_Some. intros [[<- <-] | [_ Hk]]; [| by apply (sh_nodup _ _ Hsh s)].
      destruct (sh_nodup _ _ Hsh _ _ Hl) as [Hnd _]. split; [| by destruct l]. apply NoDup_app. split; [done |]. split; [| apply NoDup_singleton].
      intros w Hw ->%list_elem_of_singleton. by apply Hv; destruct (sh_in _ _ Hsh _ _ v Hl Hw).
  - split.
    + intros s k w. rewrite lookup_insert_Some. intros [[<- <-] | [Hne Hk]] Hw; [apply list_elem_of_singleton in Hw as ->; auto |].
      destruct (sh_in _ _ Hsh s k w Hk Hw). auto.
    + intros w [Hw | ->]; [| exists [v]; rewrite lookup_insert_eq; split; [done | by left]].
      destruct (sh_all _ _ Hsh w Hw) as (k & Hk & Hin). exists k. rewrite lookup_insert_ne; [done | congruence].
    + intros s k. rewrite lookup_insert_Some. intros [[<- <-] | [_ Hk]]; [by split; [apply NoDup_singleton |] | by apply (sh_nodup _ _ Hsh s)].
Qed.

Lemma shape_remove t P v : shape t P -> P v -> shape (table_remove (Encrypt v) v t) (fun w => P w /\ w <> v).
Proof.
  intros Hsh Hv. destruct (sh_all _ _ Hsh v Hv) as (l & Hl & Hin). destruct (sh_nodup _ _ Hsh _ _ Hl) as [Hnd _].
  destruct (remove_first_NoDup v l Hnd) as [Hgone Hnd'].
  assert (Hlk : forall s k, table_remove (Encrypt v) v t !! s = Some k ->
    (s = Encrypt v /\ k = remove_first v l /\ k <> []) \/ (s <> Encrypt v /\ t !! s = Some k)).
  { intros s k. rewrite table_remove_lookup, Hl. case_decide as Hs; [| by right]. case_decide; [done |]. intros [= <-]. by left. }
  split.
  - intros s k w Hk Hw. apply Hlk in Hk as [(-> & -> & _) | [Hne Hk]].
    + pose proof (remove_first_sub _ _ _ Hw) as Hw'. destruct (sh_in _ _ Hsh _ _ w Hl Hw') as [? ?]. split; [split; [done |] | done]. by intros ->.
    + destruct (sh_in _ _ Hsh s k w Hk Hw) as [? ?]. split; [split; [done |] | done]. by intros ->.
  - intros w [Hw Hne]. destruct (sh_all _ _ Hsh w Hw) as (k & Hk & Hwk). rewrite table_remove_lookup, Hl. case_decide as He.
    + rewrite He, Hl in Hk. injection Hk as <-. pose proof (remove_first_other v l w Hwk Hne) as Hr.
      rewrite decide_False by (intros Hn; rewrite Hn in Hr; by apply not_elem_of_nil in Hr). by eexists.
    + by exists k.
  - intros s k Hk. apply Hlk in Hk as [(_ & -> & Hne) | [_ Hk]]; [done | by apply (sh_nodup _ _ Hsh s)].
Qed.
End Tables.

(** ** The table without the virtual nodes of one name *)

Definition others (x : string) (l : list string) : list string := filter (fun v => getNodeID v <> x) l.
Definition without (x : string) (t : table) : table := omap (fun l => match others x l with [] => None | l => Some l end) t.

Lemma without_lookup x t s l : without x t !! s = Some l <-> exists k, t !! s = Some k /\ others x k = l /\ l <> [].
Proof.
  unfold without. rewrite lookup_omap. destruct (t !! s) as [k |]; simpl; [| naive_solver]. split.
  - destruct (others x k) as [| v k'] eqn:Hk; [done |]. intros [= <-]. by exists k.
  - intros (k' & [= <-] & <- & Hne). by destruct (others x k).
Qed.

Lemma without_dom x t : dom (without x t) ⊆ dom t.
Proof. intros s [l Hl]%elem_of_dom. apply without_lookup in Hl as (k & Hk & _). apply elem_of_dom. by eexists. Qed.

Lemma others_remove x v l : getNodeID v = x -> others x (remove_first v l) = others x l.
Proof.
  intros Hv. induction l as [| w l IH]; [done |]. simpl. case_decide as Hw.
  - subst w. unfold others at 2. rewrite filter_cons. by rewrite decide_False by tauto.
  - unfold others in *. rewrite !filter_cons, IH. done.
Qed.

Lemma without_remove x v s t : getNodeID v = x -> without x (table_remove s v t) = without x t.
Proof.
  intros Hv. apply map_eq. intros s'. apply option_eq. intros l. rewrite !without_lookup. setoid_rewrite table_remove_lookup.
  case_decide as Hs; [subst s' | done]. destruct (t !! s) as [k |]; [| done]. split.
  - intros (k' & Hk' & <- & Hne). case_decide; [done |]. injection Hk' as <-. exists k. split; [done |]. by rewrite others_remove in Hne |- *.
  - intros (k' & [= <-] & <- & Hne). exists (remove_first v k). rewrite others_remove by done. split; [| done].
    rewrite decide_False; [done |]. intros Hn. apply Hne. rewrite <- (others_remove x v k Hv), Hn. done.
Qed.

Lemma without_same x t : (forall s l v, t !! s = Some l -> v ∈ l -> getNodeID v <> x) -> (forall s l, t !! s = Some l -> l <> []) -> without x t = t.
Proof.
  intros Hx Hne. apply map_eq. intros s. apply option_eq. intros l. rewrite without_lookup.
  assert (Hs : forall k, t !! s = Some k -> others x k = k).
  { intros k Hk. apply filter_all, Forall_forall. intros v Hv. by apply (Hx s k). }
  split.
  - intros (k & Hk & <- & _). by rewrite (Hs k).
  - intros Hl. exists l. split_and!; [done | by apply Hs | by apply (Hne s)].
Qed.

(** The first at a score is another one, so it stays first. *)
Lemma without_head x t s v l : t !! s = Some (v :: l) -> getNodeID v <> x -> exists l', without x t !! s = Some (v :: l').
Proof.
  intros Hl Hv. exists (others x l). apply without_lookup. exists (v :: l). split; [done |]. unfold others. by rewrite filter_cons_True.
Qed.
Lemma without_second x t s v w l : t !! s = Some (v :: w :: l) -> getNodeID v = x -> getNodeID w <> x -> exists l', without x t !! s = Some (w :: l').
Proof.
  intros Hl Hv Hw. exists (others x l). apply without_lookup. exists (v :: w :: l). split; [done |]. unfold others.
  rewrite filter_cons_False by tauto. by rewrite filter_cons_True.
Qed.
Lemma without_gone x t s l : t !! s = Some l -> (forall v, v ∈ l -> getNodeID v = x) -> s ∉ dom (without x t).
Proof.
  intros Hl Hx [k Hk]%elem_of_dom. apply without_lookup in Hk as (l' & Hl' & <- & Hne). rewrite Hl in Hl'. injection Hl' as <-.
  apply Hne. apply filter_none, Forall_forall. intros v Hv Hn. by apply Hn, Hx.
Qed.
