(* ===== verification/ConsistentHashTheorems.v ===== *)
(** * ConsistentHashTheorems
    On any ring that keeps its laws, the index of data keys follows the owners:
    adding and removing nodes hands over exactly the keys whose owner changes.
    And where the local ring and the last node break that. *)
From S2P Require Import Prelude GoStrings GoNumbers SkipNodes ChRing ChLocal ChLocalFacts ConsistentHash ConsistentHashFacts.

Section Steps.
Context {R : Type} {HR : HashRing R} {LR : HashRingSpec R} {HE : Encryptor} {LE : EncryptorSpec}.
Implicit Types (r : R) (n x : string) (k v : string).

(** ** Scores as the code compares them *)

Lemma floor_in S s c : is_floor S s c -> S <> ∅ -> c ∈ S.
Proof. intros [[-> _] | [[? _] | [? _]]]; done. Qed.

Lemma moves_in_arc S cur last next k : all_scores S -> cur ∈ S -> is_floor S (decreaseScore cur) last -> last <> cur ->
  is_ceiling S (incrScore cur) next -> next <> cur ->
  let p1 := bool_decide (cur < last) in let p2 := bool_decide (next < cur) in
  let l := if p1 then i32 (last - MaxInt32) else last in
  moves_in p1 p2 (if p2 then i32 (l - MaxInt32) else l) (if p2 then i32 (cur - MaxInt32) else cur) k <-> is_ceiling S (Encrypt k) cur.
Proof.
  intros Hall Hcur Hf Hne Hc Hnc p1 p2 l. assert (Hsne : S <> ∅) by set_solver.
  pose proof (Encrypt_score k) as Hd. rewrite (arc_ceiling S cur last) by done.
  pose proof (Hall _ Hcur) as Hcs. pose proof (Hall _ (floor_in _ _ _ Hf Hsne)) as Hls. pose proof (Hall _ (is_ceiling_in _ _ _ Hc Hsne)) as Hns.
  assert (Hx : cur < last -> ~ next < cur).
  { intros Hlt. rewrite incr_score in Hc by done. pose proof (floor_in _ _ _ Hf Hsne) as Hl. unfold is_score in *.
    destruct Hc as [[-> _] | [(_ & Hle & _) | (_ & Hlt' & _)]]; [done | |]; [| specialize (Hlt' _ Hl)]; case_decide; lia. }
  subst l p1 p2. unfold moves_in, is_score, MaxInt32 in *. clear Hf Hc Hall Hsne.
  destruct (decide (cur < last)) as [H1 | H1].
  - rewrite (bool_decide_eq_true_2 _ H1), (bool_decide_eq_false_2 (next < cur)) by tauto. rewrite andb_true_l.
    rewrite (i32_id (last - (2 ^ 31 - 1))), (i32_id (last - (2 ^ 31 - 1) + (2 ^ 31 - 1))) by lia.
    case_bool_decide; [rewrite i32_id by lia |]; lia.
  - rewrite (bool_decide_eq_false_2 _ H1). rewrite andb_false_l. case_bool_decide; [rewrite !i32_id by lia |]; lia.
Qed.

Lemma moves_out_arc S cur last k : all_scores S -> cur ∈ S -> is_floor S (decreaseScore cur) last -> last <> cur ->
  let p := bool_decide (cur < last) in
  moves_out false p (if p then i32 (last - MaxInt32) else last) cur k <-> is_ceiling S (Encrypt k) cur.
Proof.
  intros Hall Hcur Hf Hne p. assert (Hsne : S <> ∅) by set_solver.
  pose proof (Encrypt_score k) as Hd. rewrite (arc_ceiling S cur last) by done.
  pose proof (Hall _ Hcur) as Hcs. pose proof (Hall _ (floor_in _ _ _ Hf Hsne)) as Hls.
  subst p. unfold moves_out, is_score, MaxInt32 in *. clear Hf Hall Hsne. destruct (decide (cur < last)) as [H1 | H1].
  - rewrite (bool_decide_eq_true_2 _ H1). rewrite andb_true_l.
    rewrite (i32_id (last - (2 ^ 31 - 1))), (i32_id (last - (2 ^ 31 - 1) + (2 ^ 31 - 1))) by lia.
    case_bool_decide; [rewrite i32_id by lia |]; lia.
  - rewrite (bool_decide_eq_false_2 _ H1). rewrite andb_false_l. lia.
Qed.

(** ** Handing keys over *)

(** Afterwards [b] has the keys of [ks] that [a] had. *)
Definition handed (a b : string) (ks : gset string) (before after : string -> gset string) : Prop :=
  forall n k, k ∈ after n <-> (n = b /\ k ∈ ks) \/ (k ∈ before n /\ ~ (n = a /\ k ∈ ks)).

(** A ring that shows the same but for its data. *)
Definition same_ring r r' : Prop := ring_ok r' /\ scores r' = scores r /\ replicas_of r' = replicas_of r.

Lemma hand_over r a b ks : ring_ok r ->
  exists r', (try! _ := DeleteNodeToDataKeys a ks in AddNodeToDataKeys b ks) r = Ret (r', Ok tt) /\ same_ring r r' /\ handed a b ks (data r) (data r').
Proof.
  intros Hok. destruct (law_DeleteNodeToDataKeys r a ks Hok) as (r1 & H1 & Hok1 & Hs1 & Hr1 & Hd1).
  destruct (law_AddNodeToDataKeys r1 b ks Hok1) as (r2 & H2 & Hok2 & Hs2 & Hr2 & Hd2).
  exists r2. rewrite (and_then_ok _ _ _ _ _ H1). split; [done |]. split; [split; [done |]; split; congruence |].
  intros n k. rewrite Hd2, !Hd1. repeat case_decide; subst; set_solver.
Qed.

Lemma ring_scores r : ring_ok r -> all_scores (dom (scores r)).
Proof. intros Hok s [l Hl]%elem_of_dom. by destruct (law_scores r s l Hok Hl). Qed.

(** ** A virtual node is added *)

Lemma migrateIn_spec r t cur v x : ring_ok r -> getNodeID v = x -> cur ∈ dom (scores r) -> scores r = table_add cur v t ->
  (forall l, t !! cur = Some l -> v ∉ l /\ l <> []) -> (forall n k, k ∈ data r n -> owner t (Encrypt k) n) ->
  exists r' o, migrateIn true cur x r = Ret (r', Ok o) /\ same_ring r r' /\ (forall n k, k ∈ data r' n -> owner (scores r') (Encrypt k) n)
    /\ match o with None => data r' = data r | Some (a, b, ks) => b = x /\ ks ⊆ data r a /\ handed a x ks (data r) (data r') end.
Proof.
  intros Hok Hv Hcur Hsc Hnew Hown. unfold migrateIn. cbn [negb]. unfold table_add in Hsc. pose proof (ring_scores r Hok) as Hall.
  pose proof (Hall cur Hcur) as Hcs.
  destruct (t !! cur) as [l |] eqn:Hl.
  - destruct (Hnew l eq_refl) as [Hnin Hne]. rewrite decide_False in Hsc by done.
    assert (Hlk : scores r !! cur = Some (l ++ [v])) by (rewrite Hsc; apply lookup_insert_eq).
    rewrite (and_then_ok _ _ _ _ _ (law_Node r cur _ Hok Hlk)). rewrite decide_True by (destruct l; [done |]; rewrite length_app; simpl; lia).
    exists r, None. split; [done |]. split; [done |]. split; [| done].
    intros n k Hk. destruct (Hown n k Hk) as (c & w & l' & Hc & Hlc & Hw). rewrite Hsc.
    assert (Hdom : dom (<[cur := l ++ [v]]> t) = dom t) by (rewrite dom_insert_L; assert (cur ∈ dom t) by (apply elem_of_dom; by eexists); set_solver).
    destruct (decide (c = cur)) as [-> | Hcc].
    + rewrite Hl in Hlc. injection Hlc as ->. exists cur, w, (l' ++ [v]). rewrite Hdom, lookup_insert_eq. done.
    + exists c, w, l'. rewrite Hdom, lookup_insert_ne by done. done.
  - assert (Hlk : scores r !! cur = Some [v]) by (rewrite Hsc; apply lookup_insert_eq).
    assert (Hdom : dom (scores r) = {[cur]} ∪ dom t) by (rewrite Hsc; by rewrite dom_insert_L).
    assert (Hcurt : cur ∉ dom t) by (by apply not_elem_of_dom).
    rewrite (and_then_ok _ _ _ _ _ (law_Node r cur _ Hok Hlk)). rewrite decide_False by (simpl; lia).
    destruct (law_Floor r (decreaseScore cur) Hok (decrease_is_score _ Hcs)) as (last & Hlast & Hf). rewrite (and_then_ok _ _ _ _ _ Hlast).
    destruct (law_Ceiling r (incrScore cur) Hok (incr_is_score _ Hcs)) as (next & Hnext & Hc).
    assert (Hsne : dom (scores r) <> ∅) by set_solver.
    assert (Halone : dom (scores r) = {[cur]} -> forall n k, k ∈ data r n -> owner (scores r) (Encrypt k) n).
    { intros He n k Hk. destruct (Hown n k Hk) as (c & w & l' & _ & Hlc & _). assert (c ∈ dom t) by (apply elem_of_dom; by eexists). set_solver. }
    assert (Hone : forall c, c ∈ dom (scores r) -> (forall y, y ∈ dom (scores r) -> y = cur) -> dom (scores r) = {[cur]}) by (intros c Hin Hy; set_solver).
    case_decide as Hlc.
    { destruct Hlc as [-> | ->]; [pose proof (Hall _ (floor_in _ _ _ Hf Hsne)) as Hm; by destruct Hm |].
      exists r, None. split; [done |]. split; [done |]. split; [| done]. by apply Halone, (Hone cur), floor_alone. }
    rewrite (and_then_ok _ _ _ _ _ Hnext). case_decide as Hnc.
    { destruct Hnc as [-> | ->]; [pose proof (Hall _ (is_ceiling_in _ _ _ Hc Hsne)) as Hm; by destruct Hm |].
      exists r, None. split; [done |]. split; [done |]. split; [| done]. by apply Halone, (Hone cur), ceiling_alone. }
    cbv zeta. assert (Hnt : next ∈ dom t) by (pose proof (is_ceiling_in _ _ _ Hc Hsne); set_solver).
    apply elem_of_dom in Hnt as [ln Hln].
    assert (Hln' : scores r !! next = Some ln) by (rewrite Hsc, lookup_insert_ne; [done | intros ->; tauto]).
    rewrite (and_then_ok _ _ _ _ _ (law_Node r next ln Hok Hln')). destruct (law_scores r next ln Hok Hln') as [_ Hlnne]. destruct ln as [| w ln]; [done |].
    rewrite (and_then_ok _ _ _ _ _ (law_DataKeys r (getNodeID w) Hok)).
    set (ks := filter _ (data r (getNodeID w))).
    destruct (hand_over r (getNodeID w) x ks Hok) as (r' & Hh & Hsame & Hhand). exists r', (Some (getNodeID w, x, ks)).
    assert (HS : forall k, k ∈ ks <-> k ∈ data r (getNodeID w) /\ is_ceiling (dom (scores r)) (Encrypt k) cur).
    { intros k. unfold ks. rewrite elem_of_filter. rewrite (moves_in_arc (dom (scores r)) cur last next k) by (try done; tauto). tauto. }
    split; [| split; [done |]; split].
    + revert Hh. unfold and_then. destruct (DeleteNodeToDataKeys (getNodeID w) ks r) as [[r1 [[] | e]] |]; cbn [obind fst snd]; try done. by intros ->.
    + destruct Hsame as (_ & Hs & _). rewrite Hs. intros n k [[-> Hk] | [Hk Hno]]%Hhand.
      * apply HS in Hk as [_ Hk]. exists cur, v, []. done.
      * destruct (Hown n k Hk) as (c & u & l' & Hcc & Hlc' & Hu). destruct (ceiling_total (dom (scores r)) (Encrypt k)) as [c' Hc'].
        assert (Hct : c ∈ dom t) by (apply elem_of_dom; by eexists).
        destruct (decide (c' = cur)) as [-> | Hcn].
        -- exfalso. assert (Hsub : dom t ⊆ dom (scores r)) by set_solver.
           assert (Hnx : is_ceiling (dom t) (Encrypt k) next).
           { apply (ceiling_skip (dom (scores r)) (dom t) _ cur); try done. apply (ceiling_sub (dom (scores r))); [done | done |]. apply elem_of_dom. by eexists. }
           rewrite (is_ceiling_unique _ _ _ _ Hcc Hnx), Hln in Hlc'. injection Hlc' as -> ->. apply Hno. split; [done |]. apply HS. split; [by rewrite Hu | done].
        -- assert (Hcin : c' ∈ dom t) by (pose proof (is_ceiling_in _ _ _ Hc' Hsne); set_solver).
           assert (Heq : c' = c).
           { eapply is_ceiling_unique; [| exact Hcc]. apply (ceiling_sub (dom (scores r))); [set_solver | done | done]. }
           subst c'. exists c, u, l'. split; [done |]. split; [| done]. rewrite Hsc, lookup_insert_ne by congruence. done.
    + split; [done |]. split; [| done]. intros k Hk. by apply HS in Hk as [? _].
Qed.

(** ** Adding a node *)

(** [v] is a virtual node of the nodes with these counts. *)
Definition vnode_of (reps : gmap string Z) v : Prop := exists n c i, reps !! n = Some c /\ 0 <= i < c /\ v = getRawNodeKey n i.

(** Every key is kept by the owner of its position. *)
Definition tracked r : Prop := forall n k, k ∈ data r n -> owner (scores r) (Encrypt k) n.

(** What [add_virtual] has done when [m] virtual nodes of [x] are on the ring. *)
Record adding (d0 : string -> gset string) (reps0 : gmap string Z) (x : string) (c m : Z) r (tasks : list task) : Prop := {
  ad_ok : ring_ok r;
  ad_reps : replicas_of r = <[x := c]> reps0;
  ad_shape : shape (scores r) (fun v => vnode_of reps0 v \/ exists i, 0 <= i < m /\ v = getRawNodeKey x i);
  ad_tracked : tracked r;
  ad_kept n k : k ∈ d0 n -> k ∈ data r n \/ (k ∈ data r x /\ exists ks, (n, x, ks) ∈ tasks /\ k ∈ ks);
  ad_from n k : k ∈ data r n -> k ∈ d0 n \/ (n = x /\ exists n', k ∈ d0 n');
  ad_tasks a b ks : (a, b, ks) ∈ tasks -> b = x /\ forall k, k ∈ ks -> a <> x -> k ∈ d0 a /\ k ∈ data r x
}.

Lemma keep_task_in o tasks t : t ∈ keep_task o tasks <-> t ∈ tasks \/ (o = Some t /\ t.2 <> ∅).
Proof.
  unfold keep_task. destruct o as [[[a b] ks] |]; [| naive_solver]. case_decide as Hks.
  - split; [auto |]. intros [? | [[= <-] ?]]; done.
  - rewrite elem_of_app, list_elem_of_singleton. split; intros [? | Ht]; auto; [subst; auto | destruct Ht as [[= <-] _]; auto].
Qed.

Lemma add_step d0 reps0 x c m r tasks : reps0 !! x = None -> d0 x = ∅ -> 0 <= m < 2 ^ 62 -> (forall n c, reps0 !! n = Some c -> c < 2 ^ 63) ->
  adding d0 reps0 x c m r tasks ->
  exists r1 r2 o, Add (Encrypt (getRawNodeKey x m)) (getRawNodeKey x m) r = Ret (r1, Ok tt)
    /\ migrateIn true (Encrypt (getRawNodeKey x m)) x r1 = Ret (r2, Ok o)
    /\ adding d0 reps0 x c (m + 1) r2 (keep_task o tasks).
Proof.
  intros Hx Hdx Hm Hbound [Hok Hreps Hsh Htr Hkept Hfrom Htasks]. set (v := getRawNodeKey x m).
  assert (Hfresh : ~ (vnode_of reps0 v \/ exists i, 0 <= i < m /\ v = getRawNodeKey x i)).
  { intros [(n & cn & i & Hn & Hi & Hv) | (i & Hi & Hv)].
    - apply (f_equal getNodeID) in Hv. unfold v in Hv. rewrite !getNodeID_key in Hv. congruence.
    - apply key_index in Hv; lia. }
  destruct (law_Add r (Encrypt v) v Hok (Encrypt_score v) (shape_alone _ _ v Hsh)) as (r1 & Ha & Hok1 & Hs1 & Hr1 & Hd1).
  pose proof (shape_add _ _ v Hsh Hfresh) as Hsh1. rewrite <- Hs1 in Hsh1.
  destruct (migrateIn_spec r1 (scores r) (Encrypt v) v x Hok1 (getNodeID_key x m)) as (r2 & o & Hm2 & (Hok2 & Hs2 & Hr2) & Htr2 & Ho).
  - destruct (sh_all _ _ Hsh1 v ltac:(by right)) as (l & Hl & _). apply elem_of_dom. by eexists.
  - done.
  - intros l Hl. destruct (sh_nodup _ _ Hsh _ _ Hl). split; [| done]. intros Hin. by destruct (sh_in _ _ Hsh _ _ v Hl Hin).
  - intros n k. rewrite Hd1. apply Htr.
  - exists r1, r2, o. split; [done |]. split; [done |].
    assert (Hdata : forall n k, k ∈ data r2 n <-> (exists a ks, o = Some (a, x, ks) /\ n = x /\ k ∈ ks /\ k ∈ data r a) \/
      (k ∈ data r n /\ forall a ks, o = Some (a, x, ks) -> ~ (n = a /\ k ∈ ks))).
    { intros n k. destruct o as [[[a b] ks] |].
      - destruct Ho as (-> & Hsub & Hh). rewrite (Hh n k). rewrite Hd1. split.
        + intros [[-> Hk] | [Hk Hno]]; [left; exists a, ks; split_and!; try done; rewrite <- Hd1; by apply Hsub | right; split; [done |]; by intros ? ? [= <- <-]].
        + intros [(a' & ks' & [= <- <-] & -> & Hk & _) | [Hk Hno]]; [by left | right; split; [done |]; by apply Hno].
      - rewrite Ho, Hd1. split; [intros Hk; right; by split | intros [(? & ? & [=] & _) | [? _]]; done]. }
    assert (Hgrow : forall k, k ∈ data r x -> k ∈ data r2 x).
    { intros k Hk. apply Hdata. destruct o as [[[a b] ks] |]; [| by right]. destruct Ho as (-> & _ & _).
      destruct (decide (x = a /\ k ∈ ks)) as [[<- ?] | Hn]; [left; by exists x, ks | right; split; [done |]; by intros ? ? [= <- <-]]. }
    split; [done | congruence | | done | | |].
    + rewrite Hs2. eapply shape_iff; [| exact Hsh1]. intros w. split.
      * intros [[Hw | (i & Hi & ->)] | ->]; [by left | right; exists i; split; [lia | done] | right; exists m; split; [lia | done]].
      * intros [Hw | (i & Hi & ->)]; [by left; left |]. destruct (decide (i = m)) as [-> | Hne]; [by right | left; right; exists i; split; [lia | done]].
    + intros n k Hk. destruct (Hkept n k Hk) as [Hin | (Hin & ks & Ht & Hks)].
      * destruct (decide (k ∈ data r2 n)) as [| Hno]; [by left | right].
        rewrite Hdata in Hno. assert (Ho' : exists ks, o = Some (n, x, ks) /\ k ∈ ks).
        { destruct o as [[[a b] ks] |]; [| exfalso; apply Hno; right; by split]. destruct Ho as (-> & _ & _).
          destruct (decide (n = a /\ k ∈ ks)) as [[-> ?] | Hn]; [by exists ks |]. exfalso. apply Hno. right. split; [done |]. by intros ? ? [= <- <-]. }
        destruct Ho' as (ks & -> & Hks). split; [apply Hdata; left; by exists n, ks |]. exists ks. split; [| done].
        apply keep_task_in. right. split; [done |]. simpl. set_solver.
      * right. split; [by apply Hgrow |]. exists ks. split; [apply keep_task_in; by left | done].
    + intros n k [(a & ks & _ & -> & _ & Hka) | [Hk _]]%Hdata; [right; split; [done |]; destruct (Hfrom a k Hka) as [? | [_ ?]]; [by eexists | done] | by apply Hfrom].
    + intros a b ks [Ht | [-> _]]%keep_task_in.
      * destruct (Htasks a b ks Ht) as [-> Hall]. split; [done |]. intros k Hk Ha'. destruct (Hall k Hk Ha'). auto.
      * destruct Ho as (-> & Hsub & _). split; [done |]. intros k Hk Hax. specialize (Hsub k Hk). rewrite Hd1 in Hsub. split.
        -- by destruct (Hfrom a k Hsub) as [? | [? _]].
        -- apply Hdata. left. by exists a, ks.
Qed.

Lemma add_virtual_spec d0 reps0 x c cnt m r tasks : reps0 !! x = None -> d0 x = ∅ -> 0 <= m -> m + Z.of_nat cnt < 2 ^ 62 ->
  (forall n c, reps0 !! n = Some c -> c < 2 ^ 63) -> adding d0 reps0 x c m r tasks ->
  exists r' tasks', add_virtual true x cnt m tasks r = Ret (r', Ok tasks') /\ adding d0 reps0 x c (m + Z.of_nat cnt) r' tasks'.
Proof.
  intros Hx Hdx Hm Hcnt Hbound. revert m r tasks Hm Hcnt. induction cnt as [| cnt IH]; intros m r tasks Hm Hcnt Had; cbn [add_virtual].
  - exists r, tasks. split; [done |]. by replace (m + Z.of_nat 0) with m by lia.
  - destruct (add_step d0 reps0 x c m r tasks Hx Hdx ltac:(lia) Hbound Had) as (r1 & r2 & o & Ha & Hmi & Had').
    cbv zeta. rewrite (and_then_ok _ _ _ _ _ Ha), (and_then_ok _ _ _ _ _ Hmi).
    destruct (IH (m + 1) r2 (keep_task o tasks) ltac:(lia) ltac:(lia) Had') as (r' & tasks' & Hr & Had2).
    exists r', tasks'. split; [done |]. by replace (m + Z.of_nat (S cnt)) with (m + 1 + Z.of_nat cnt) by lia.
Qed.

(** ** A virtual node is removed *)

(** The search for another node ends at the next score that will have one, or
    stays with [x] where the second at a score is [x] again. *)
Lemma getValidNextNode_spec r x e fuel s ranged : ring_ok r -> let t := scores r in let f := without x t in
  s ∈ dom t -> s ∉ dom f -> e ∈ dom f -> is_ceiling (dom f) (incrScore s) e ->
  (forall z, z ∈ ranged -> z ∈ dom t /\ z ∉ dom f /\ ahead s e < ahead z e) -> (size (dom t) < fuel + size ranged)%nat ->
  exists y, getValidNextNode fuel s x ranged r = Ret (r, Ok y) /\ (exists s l v, t !! s = Some l /\ v ∈ l /\ getNodeID v = y)
    /\ (y <> x -> exists v l, f !! e = Some (v :: l) /\ getNodeID v = y)
    /\ (y = x -> exists nx v l, is_ceiling (dom t) (incrScore s) nx /\ t !! nx = Some (v :: l) /\ getNodeID v = x /\ nx <> s).
Proof.
  intros Hok t f. pose proof (ring_scores r Hok) as Hall. fold t in Hall. pose proof (without_dom x t) as Hsub. fold f in Hsub.
  revert s ranged. induction fuel as [| fuel IH]; intros s ranged Hs Hsf He Hce Hr Hfuel.
  - exfalso. assert (ranged ⊆ dom t) as Hsz%subseteq_size by (intros z Hz; by destruct (Hr z Hz)). lia.
  - cbn [getValidNextNode]. destruct (law_Ceiling r (incrScore s) Hok (incr_is_score _ (Hall s Hs))) as (nx & Hnx & Hc).
    rewrite (and_then_ok _ _ _ _ _ Hnx). fold t in Hc.
    assert (Hin : nx ∈ dom t) by (apply (is_ceiling_in _ _ _ Hc); set_solver).
    rewrite decide_False by (intros ->; by destruct (Hall _ Hin)).
    assert (Hclose : nx <> e -> ahead nx e < ahead s e /\ nx <> s) by (by apply (ceiling_closer (dom t) (dom f))).
    assert (Hns : nx <> s) by (destruct (decide (nx = e)) as [-> |]; [by intros -> | by apply Hclose]).
    rewrite decide_False.
    2: { intros Hz. destruct (Hr nx Hz) as (_ & Hzf & Hlt). destruct Hclose as [? _]; [by intros -> | lia]. }
    apply elem_of_dom in Hin as [l Hl]. destruct (law_scores r nx l Hok Hl) as [_ Hne]. rewrite (and_then_ok _ _ _ _ _ (law_Node r nx l Hok Hl)).
    destruct l as [| v rest]; [done |].
    assert (Hfound : forall w l', f !! nx = Some (w :: l') -> exists v l, f !! e = Some (v :: l) /\ getNodeID v = getNodeID w).
    { intros w l' Hw. assert (Hnf : nx ∈ dom f) by (apply elem_of_dom; by eexists).
      rewrite (is_ceiling_unique _ _ _ _ Hce (ceiling_sub _ _ _ _ Hsub Hc Hnf)). by exists w, l'. }
    case_decide as Hv.
    + exists (getNodeID v). split; [done |]. split; [exists nx, (v :: rest), v; split_and!; [done | by left | done] |]. split; [| done].
      intros _. destruct (without_head x t nx v rest Hl Hv) as [l' Hl']. by apply (Hfound v l').
    + assert (Hvx : getNodeID v = x) by (destruct (decide (getNodeID v = x)); tauto). destruct rest as [| w rest].
      * assert (Hnf : nx ∉ dom f) by (apply (without_gone x t nx [v] Hl); by intros u ->%list_elem_of_singleton).
        assert (Hne' : nx <> e) by (by intros ->). destruct (Hclose Hne') as [Hahead _].
        destruct (IH nx ({[s]} ∪ ranged)) as (y & Hy & Hm & H1 & H2).
        { apply elem_of_dom. by eexists. }
        { done. }
        { done. }
        { destruct (ceiling_total (dom f) (incrScore nx)) as [e' He']. pose proof (ceiling_skip (dom t) (dom f) _ _ _ Hall Hsub Hc ltac:(apply elem_of_dom; by eexists) Hnf He') as He2.
          by rewrite (is_ceiling_unique _ _ _ _ Hce He2). }
        { intros z [->%elem_of_singleton | Hz]%elem_of_union; [done |]. destruct (Hr z Hz) as (? & ? & ?). split_and!; try done. lia. }
        { assert (Hsr : s ∉ ranged) by (intros Hz; destruct (Hr s Hz) as (_ & _ & ?); lia). rewrite size_union, size_singleton by set_solver. lia. }
        exists y. split; [done |]. split; [done |]. split; [done |]. intros _. by exists nx, v, [].
      * exists (getNodeID w). split; [done |]. split; [exists nx, (v :: w :: rest), w; split_and!; [done | by right; left | done] |]. split.
        -- intros Hw. destruct (without_second x t nx v w rest Hl Hvx Hw) as [l' Hl']. by apply (Hfound w l').
        -- intros _. by exists nx, v, (w :: rest).
Qed.

(** Removing a virtual node leaves the owner of a position that is found elsewhere. *)
Lemma owner_elsewhere t cur vk c v l d : t !! c = Some (v :: l) -> is_ceiling (dom t) d c -> c <> cur -> owner (table_remove cur vk t) d (getNodeID v).
Proof.
  intros Hl Hc Hne. assert (Hlk : table_remove cur vk t !! c = Some (v :: l)) by (by rewrite table_remove_lookup, decide_False).
  exists c, v, l. split; [| done]. apply (ceiling_sub (dom t)); [| done | apply elem_of_dom; by eexists].
  intros s [k Hk]%elem_of_dom. rewrite table_remove_lookup in Hk. apply elem_of_dom. case_decide; [subst; destruct (t !! cur); [by eexists | done] | by eexists].
Qed.

Section Out.
Context (r : R) (x vk : string) (cur : Z) (l : list string).
Let t := scores r.
Let f := without x t.
Hypothesis Hok : ring_ok r.
Hypothesis Hl : t !! cur = Some l.
Hypothesis Hvk : vk ∈ l /\ getNodeID vk = x /\ NoDup l.
Hypothesis Hf : dom f <> ∅.
Hypothesis Hown : forall k, k ∈ data r x -> owner t (Encrypt k) x.
Hypothesis Hnames : forall s l v, t !! s = Some l -> v ∈ l -> getNodeID v <> ""%string.

(** The keys to hand over are those found at the score; they go to a node that
    owns them once [x] is gone, or stay with an [x] found there afterwards. *)
Definition good_plan (o : option task) : Prop :=
  match o with
  | None => forall k, k ∈ data r x -> owner (table_remove cur vk t) (Encrypt k) x
  | Some (a, y, ks) => a = x /\ y <> ""%string /\ (forall k, k ∈ ks <-> k ∈ data r x /\ is_ceiling (dom t) (Encrypt k) cur)
      /\ forall k, k ∈ ks -> if decide (y = x) then owner (table_remove cur vk t) (Encrypt k) x else owner f (Encrypt k) y
  end.

Lemma plan_out_spec fuel : (size (dom t) < fuel)%nat -> exists o, plan_out fuel cur x r = Ret (r, Ok o) /\ good_plan o.
Proof.
  intros Hfuel. unfold plan_out. pose proof (ring_scores r Hok) as Hall. fold t in Hall. pose proof (without_dom x t) as Hsub. fold f in Hsub.
  assert (Hcur : cur ∈ dom t) by (apply elem_of_dom; by eexists). pose proof (Hall cur Hcur) as Hcs. assert (Htne : dom t <> ∅) by set_solver.
  rewrite (and_then_ok _ _ _ _ _ (law_Node r cur l Hok Hl)). destruct Hvk as (Hin & Hvx & Hnd). destruct l as [| first rest] eqn:Hfr; [by apply not_elem_of_nil in Hin |].
  case_decide as Hfirst.
  { exists None. split; [done |]. intros k Hk. destruct (Hown k Hk) as (c & v & l' & Hc & Hlc & Hv). rewrite <- Hv. eapply owner_elsewhere; [done | done |].
    intros ->. rewrite Hl in Hlc. injection Hlc as -> _. done. }
  assert (Hfx : getNodeID first = x) by (destruct (decide (getNodeID first = x)); tauto).
  rewrite (and_then_ok _ _ _ _ _ (law_DataKeys r x Hok)). case_decide as Hnone.
  { exists None. split; [done |]. intros k Hk. rewrite Hnone in Hk. set_solver. }
  destruct (law_Floor r (decreaseScore cur) Hok (decrease_is_score _ Hcs)) as (last & Hlast & Hfl). rewrite (and_then_ok _ _ _ _ _ Hlast). fold t in Hfl.
  assert (Hm1 : last <> -1) by (intros ->; pose proof (Hall _ (floor_in _ _ _ Hfl Htne)) as Hm; by destruct Hm).
  cbv zeta. set (only := bool_decide (last = -1 \/ last = cur)).
  assert (Honly : only = true -> forall y, y ∈ dom t -> y = cur).
  { intros Ho. apply bool_decide_eq_true_1 in Ho as [? | ->]; [done |]. by apply floor_alone. }
  set (ks := filter _ (data r x)).
  assert (Hks : forall k, k ∈ ks <-> k ∈ data r x /\ is_ceiling (dom t) (Encrypt k) cur).
  { intros k. unfold ks. rewrite elem_of_filter. destruct only eqn:Ho.
    - assert (Hc : is_ceiling (dom t) (Encrypt k) cur).
      { destruct (ceiling_total (dom t) (Encrypt k)) as [c Hc]. by rewrite <- (Honly eq_refl c (is_ceiling_in _ _ _ Hc Htne)). }
      simpl. tauto.
    - apply bool_decide_eq_false_1 in Ho. rewrite (moves_out_arc (dom t) cur last k) by (try done; tauto). tauto. }
  assert (Hgone : rest = [] -> cur ∉ dom f).
  { intros ->. apply (without_gone x t cur [first] Hl). by intros u ->%list_elem_of_singleton. }
  rewrite (proj2 (andb_false_iff only (bool_decide (length (first :: rest) = 1%nat)))).
  2: { destruct only eqn:Ho; [right | by left]. apply bool_decide_eq_false_2. intros Hlen. destruct rest; [| done].
       apply Hf. apply set_eq. intros y. split; [| set_solver]. intros Hy. pose proof (Honly eq_refl y (Hsub y Hy)) as ->. by apply Hgone in Hy. }
  destruct rest as [| second rest].
  - specialize (Hgone eq_refl). destruct (ceiling_total (dom f) (incrScore cur)) as [e He].
    assert (Hef : e ∈ dom f) by (by apply (is_ceiling_in _ _ _ He)).
    destruct (getValidNextNode_spec r x e fuel cur ∅ Hok Hcur Hgone Hef He) as (y & Hy & (s & l' & v & Hs & Hv & Hvy) & H1 & H2);
      [set_solver | rewrite size_empty; fold t; lia |].
    rewrite (and_then_ok _ _ _ _ _ Hy). assert (Hyn : y <> ""%string) by (rewrite <- Hvy; by apply (Hnames s l')). rewrite decide_False by done.
    exists (Some (x, y, ks)). split; [done |]. split; [done |]. split; [done |]. split; [done |]. intros k [Hk Hc]%Hks. case_decide as Hyx.
    + destruct (H2 Hyx) as (nx & w & l2 & Hnx & Hlx & Hw & Hne). exists nx, w, l2. rewrite table_remove_lookup, decide_False by done. split; [| done].
      assert (Hvf : vk = first) by (apply elem_of_cons in Hin as [? | Hn]; [done | by apply not_elem_of_nil in Hn]).
      assert (Hdom : dom (table_remove cur vk t) = dom t ∖ {[cur]}).
      { assert (Hrm : remove_first vk [first] = []) by (subst vk; simpl; by rewrite decide_True).
        unfold table_remove. rewrite Hl, Hrm, decide_True by done. apply dom_delete_L. }
      fold t in Hnx. rewrite Hdom. apply (ceiling_skip (dom t) _ _ cur); [done | set_solver | done | done | set_solver |].
      apply (ceiling_sub (dom t)); [set_solver | done |]. apply elem_of_difference. split; [apply elem_of_dom; by eexists | set_solver].
    + destruct (H1 Hyx) as (w & l2 & Hlx & Hw). exists e, w, l2. split; [| done]. by apply (ceiling_skip (dom t) _ _ cur).
  - exists (Some (x, getNodeID second, ks)). split; [done |]. split; [done |]. split; [eapply Hnames; [done | right; by left] |]. split; [done |].
    intros k [Hk Hc]%Hks. case_decide as Hsx.
    + assert (Hrem : exists w l2, remove_first vk (first :: second :: rest) = w :: l2 /\ getNodeID w = x).
      { cbn [remove_first]. case_decide; [by exists second, rest |]. by eexists first, _. }
      destruct Hrem as (w & l2 & Hw & Hwx).
      assert (Hlk : table_remove cur vk t !! cur = Some (w :: l2)) by (rewrite table_remove_lookup, decide_True, Hl, Hw by done; by rewrite decide_False).
      exists cur, w, l2. split; [| done]. assert (Hdom : dom (table_remove cur vk t) = dom t).
      { unfold table_remove. rewrite Hl, Hw, decide_False by done. rewrite dom_insert_L. set_solver. }
      by rewrite Hdom.
    + destruct (without_second x t cur first second rest Hl Hfx Hsx) as [l2 Hl2]. exists cur, second, l2. split; [| done].
      apply (ceiling_sub (dom t)); [done | done | apply elem_of_dom; by eexists].
Qed.

Lemma migrateOut_spec fuel : (size (dom t) < fuel)%nat ->
  exists r1 o, migrateOut true fuel cur x r = Ret (r1, Ok o) /\ same_ring r r1
    /\ (forall k, k ∈ data r1 x -> owner (table_remove cur vk t) (Encrypt k) x)
    /\ match o with
       | None => data r1 = data r
       | Some (a, y, ks) => a = x /\ ks ⊆ data r x /\ handed x y ks (data r) (data r1) /\ (y <> x -> forall k, k ∈ ks -> owner f (Encrypt k) y)
       end.
Proof.
  intros Hfuel. unfold migrateOut. cbn [negb]. destruct (plan_out_spec fuel Hfuel) as (o & Hplan & Hgood). rewrite (and_then_ok _ _ _ _ _ Hplan).
  destruct o as [[[a y] ks] |]; [| by exists r, None].
  destruct Hgood as (-> & Hy & Hks & Howner). assert (Hsub : ks ⊆ data r x) by (intros k Hk; by apply Hks in Hk as [? _]).
  assert (Hstay : forall k, k ∈ data r x -> k ∉ ks -> owner (table_remove cur vk t) (Encrypt k) x).
  { intros k Hk Hno. destruct (Hown k Hk) as (c & v & l' & Hc & Hlc & Hv). rewrite <- Hv. eapply owner_elsewhere; [done | done |].
    intros ->. apply Hno, Hks. done. }
  destruct (decide (y = ""%string \/ ks = ∅)) as [Hskip | Hskip].
  - assert (Hempty : ks = ∅) by tauto. exists r, (Some (x, y, ks)). split; [done |]. split; [done |]. split; [intros k Hk; apply Hstay; [done | set_solver] |].
    split; [done |]. split; [done |]. split; [intros n k; set_solver | intros _ k; set_solver].
  - destruct (hand_over r x y ks Hok) as (r1 & Hh & Hsame & Hhand). exists r1, (Some (x, y, ks)). split; [| split; [done |]; split].
    + revert Hh. unfold and_then. destruct (DeleteNodeToDataKeys x ks r) as [[r2 [[] | er]] |]; cbn [obind fst snd]; try done. by intros ->.
    + intros k [[-> Hk] | [Hk Hno]]%Hhand; [specialize (Howner k Hk); by rewrite decide_True in Howner | apply Hstay; [done |]; tauto].
    + split; [done |]. split; [done |]. split; [done |]. intros Hyx k Hk. specialize (Howner k Hk). by rewrite decide_False in Howner.
Qed.
End Out.

(** ** Removing a node *)

(** What [remove_virtual] has done when the first [m] virtual nodes of [x] are
    gone; [f] is the table without [x]. *)
Record removing (d0 : string -> gset string) (reps : gmap string Z) (f : table) (x : string) (c m : Z) r (tasks : list task) : Prop := {
  rm_ok : ring_ok r;
  rm_reps : replicas_of r = reps;
  rm_shape : shape (scores r) (fun v => vnode_of reps v \/ exists i, m <= i < c /\ v = getRawNodeKey x i);
  rm_rest : without x (scores r) = f;
  rm_others n k : n <> x -> k ∈ data r n -> owner f (Encrypt k) n;
  rm_own k : k ∈ data r x -> owner (scores r) (Encrypt k) x;
  rm_kept n k : k ∈ d0 n -> k ∈ data r n \/ (n = x /\ exists y ks, y <> x /\ (x, y, ks) ∈ tasks /\ k ∈ ks /\ k ∈ data r y);
  rm_from n k : k ∈ data r n -> k ∈ d0 n \/ k ∈ d0 x;
  rm_tasks a b ks : (a, b, ks) ∈ tasks -> a = x /\ forall k, k ∈ ks -> b <> x -> k ∈ d0 x /\ k ∈ data r b
}.

(** Names that this removal can rely on: none is empty, and none is that of a
    virtual node of [x]. *)
Definition plain_names (reps : gmap string Z) (x : string) (c : Z) : Prop :=
  (forall n, n ∈ dom reps -> n <> ""%string) /\ x <> ""%string /\ forall i, 0 <= i < c -> getRawNodeKey x i ∉ dom reps.

Lemma remove_step d0 reps f x c m fuel r tasks : reps !! x = None -> plain_names reps x c -> dom f <> ∅ -> 0 <= m < c ->
  (size (dom (scores r)) < fuel)%nat -> c < 2 ^ 63 -> removing d0 reps f x c m r tasks ->
  exists r1 r2 o, migrateOut true fuel (Encrypt (getRawNodeKey x m)) x r = Ret (r1, Ok o)
    /\ Rem (Encrypt (getRawNodeKey x m)) (getRawNodeKey x m) r1 = Ret (r2, Ok tt)
    /\ removing d0 reps f x c (m + 1) r2 (keep_task o tasks) /\ (size (dom (scores r2)) < fuel)%nat.
Proof.
  intros Hx (Hnames & Hxne & Hclash) Hf Hm Hfuel Hc [Hok Hreps Hsh Hrest Hoth Hown Hkept Hfrom Htasks]. set (v := getRawNodeKey x m).
  assert (Hv : vnode_of reps v \/ exists i, m <= i < c /\ v = getRawNodeKey x i) by (right; exists m; split; [lia | done]).
  assert (Hid : forall w, vnode_of reps w \/ (exists i, m <= i < c /\ w = getRawNodeKey x i) -> getNodeID w = x \/ getNodeID w ∈ dom reps).
  { intros w [(n & cn & i & Hn & _ & ->) | (i & _ & ->)]; rewrite getNodeID_key; [right; apply elem_of_dom; by eexists | by left]. }
  destruct (sh_all _ _ Hsh v Hv) as (l & Hl & Hvl). destruct (sh_nodup _ _ Hsh _ _ Hl) as [Hnd Hne].
  destruct (migrateOut_spec r x v (Encrypt v) l Hok Hl ltac:(split_and!; [done | apply getNodeID_key | done])) with (fuel := fuel) as (r1 & o & Hmo & (Hok1 & Hs1 & Hr1) & Hx1 & Ho).
  { by rewrite Hrest. }
  { done. }
  { intros s l' w Hl' Hw Hempty. destruct (sh_in _ _ Hsh s l' w Hl' Hw) as [Hp _]. destruct (Hid w Hp) as [He | He]; rewrite Hempty in He; [congruence | by apply (Hnames _ He)]. }
  { done. }
  rewrite Hrest in Ho.
  assert (Hl1 : scores r1 !! Encrypt v = Some l) by (by rewrite Hs1).
  destruct (law_Rem r1 (Encrypt v) v l Hok1 Hl1 Hvl) as (r2 & Hrem & Hok2 & Hs2 & Hr2 & Hd2 & Hdv). rewrite Hs1 in Hs2.
  assert (Hnf : forall k, ~ owner f (Encrypt k) v).
  { intros k (s & w & l' & Hl' & Hw & Hwv)%owner_member. rewrite <- Hrest in Hl'. apply without_lookup in Hl' as (l2 & Hl2 & <- & _).
    apply list_elem_of_filter in Hw as [Hwx Hw]. destruct (sh_in _ _ Hsh s l2 w Hl2 Hw) as [Hp _]. destruct (Hid w Hp) as [He | He]; [done |].
    rewrite Hwv in He. by apply (Hclash m). }
  assert (Hvx : v <> x) by apply key_longer.
  assert (Hdata : forall n, data r2 n = data r1 n).
  { intros n. destruct (decide (n = v)) as [-> | Hn]; [| by apply Hd2]. destruct Hdv as [-> | Hdv]; [done |]. rewrite Hdv. symmetry.
    apply set_eq. intros k. split; [| set_solver]. intros Hk. exfalso. apply (Hnf k). destruct o as [[[a y] ks] |].
    - destruct Ho as (-> & _ & Hh & Howner). apply Hh in Hk as [[-> Hk] | [Hk _]]; [by apply Howner | by apply Hoth].
    - rewrite Ho in Hk. by apply Hoth. }
  assert (Hmove : forall n k, k ∈ data r2 n <-> (exists ks, o = Some (x, n, ks) /\ k ∈ ks /\ k ∈ data r x) \/ (k ∈ data r n /\ forall y ks, o = Some (x, y, ks) -> ~ (n = x /\ k ∈ ks))).
  { intros n k. rewrite Hdata. destruct o as [[[a y] ks] |].
    - destruct Ho as (-> & Hsub & Hh & _). rewrite (Hh n k). split.
      + intros [[-> Hk] | [Hk Hno]]; [left; exists ks; split_and!; [done | done | by apply Hsub] | right; split; [done |]; by intros ? ? [= <- <-]].
      + intros [(ks' & [= <- <-] & Hk & _) | [Hk Hno]]; [by left | right; split; [done |]; by apply (Hno y)].
    - rewrite Ho. split; [intros Hk; right; by split | intros [(? & [=] & _) | [? _]]; done]. }
  exists r1, r2, o. split; [done |]. split; [done |]. split; [split; [done | congruence | | | | | | |] |].
  - rewrite Hs2. eapply shape_iff; [| by apply shape_remove]. intros w. split.
    + intros [[Hw | (i & Hi & ->)] Hwv]; [by left | right; exists i; split; [| done]]. destruct (decide (i = m)) as [-> |]; [done | lia].
    + intros [Hw | (i & Hi & ->)].
      * split; [by left |]. intros ->. destruct Hw as (n & cn & i & Hn & _ & Hvn). apply (f_equal getNodeID) in Hvn. unfold v in Hvn. rewrite !getNodeID_key in Hvn. congruence.
      * split; [right; exists i; split; [lia | done] |]. intros Hk%key_index; lia.
  - rewrite Hs2, without_remove; [done | apply getNodeID_key].
  - intros n k Hn [(ks & -> & Hk & _) | [Hk _]]%Hmove; [| by apply Hoth]. destruct Ho as (_ & _ & _ & Howner). by apply Howner.
  - intros k Hk. rewrite Hdata in Hk. rewrite Hs2. by apply Hx1.
  - intros n k Hk. destruct (Hkept n k Hk) as [Hin | (-> & y & ks & Hy & Ht & Hks & Hky)].
    + destruct (decide (k ∈ data r2 n)) as [| Hno]; [by left | right]. destruct o as [[[a y] ks] |]; [| exfalso; apply Hno, Hmove; right; by split].
      destruct Ho as (-> & Hsub & _). destruct (decide (n = x /\ k ∈ ks)) as [[-> Hks] | Hn]; [| exfalso; apply Hno, Hmove; right; split; [done |]; by intros ? ? [= <- <-]].
      assert (Hy : k ∈ data r2 y) by (apply Hmove; left; exists ks; split_and!; [done | done | by apply Hsub]).
      split; [done |]. exists y, ks. split; [by intros -> |]. split; [apply keep_task_in; right; split; [done | simpl; set_solver] | done].
    + right. split; [done |]. exists y, ks. split; [done |]. split; [apply keep_task_in; by left |]. split; [done |]. apply Hmove. right. split; [done |]. by intros ? ? _ [? _].
  - intros n k [(ks & _ & _ & Hk) | [Hk _]]%Hmove; [right; by destruct (Hfrom x k Hk) | by apply Hfrom].
  - intros a b ks [Ht | [-> _]]%keep_task_in.
    + destruct (Htasks a b ks Ht) as [-> Hall]. split; [done |]. intros k Hk Hb. destruct (Hall k Hk Hb) as [? Hkb]. split; [done |].
      apply Hmove. right. split; [done |]. by intros ? ? _ [? _].
    + destruct Ho as (-> & Hsub & _). split; [done |]. intros k Hk Hb. specialize (Hsub k Hk). split; [by destruct (Hfrom x k Hsub) |].
      apply Hmove. left. by exists ks.
  - rewrite Hs2. eapply Nat.le_lt_trans; [| exact Hfuel]. apply subseteq_size. intros s [k Hk]%elem_of_dom. rewrite table_remove_lookup in Hk.
    apply elem_of_dom. case_decide; [subst; by eexists | by eexists].
Qed.

Lemma remove_virtual_spec d0 reps f x c cnt m fuel r tasks : reps !! x = None -> plain_names reps x c -> dom f <> ∅ ->
  0 <= m -> m + Z.of_nat cnt = c -> (size (dom (scores r)) < fuel)%nat -> c < 2 ^ 63 -> removing d0 reps f x c m r tasks ->
  exists r' tasks', remove_virtual true fuel x cnt m tasks r = Ret (r', Ok tasks') /\ removing d0 reps f x c c r' tasks'.
Proof.
  intros Hx Hn Hf. revert m r tasks. induction cnt as [| cnt IH]; intros m r tasks Hm Hc Hfuel Hcb Hr; cbn [remove_virtual].
  - exists r, tasks. split; [done |]. assert (c = m) as -> by lia. done.
  - destruct (remove_step d0 reps f x c m fuel r tasks Hx Hn Hf ltac:(lia) Hfuel Hcb Hr) as (r1 & r2 & o & Hmo & Hrem & Hr2 & Hfuel2).
    cbv zeta. rewrite (and_then_ok _ _ _ _ _ Hmo), (and_then_ok _ _ _ _ _ Hrem). apply IH; [lia | lia | done | done | done].
Qed.

(** ** The index follows the ring *)

Record consistent r : Prop := {
  co_ok : ring_ok r;
  co_shape : shape (scores r) (vnode_of (replicas_of r));
  co_counts n c : replicas_of r !! n = Some c -> n <> ""%string /\ 1 <= c < 2 ^ 62;
  co_tracked : tracked r
}.

(** The tasks move exactly the keys whose node changes. *)
Definition exact_plan (before after : string -> gset string) (tasks : list task) : Prop :=
  (forall k, (exists n, k ∈ before n) <-> exists n, k ∈ after n)
  /\ (forall n n' k, k ∈ before n -> k ∈ after n' -> n <> n' -> exists ks, (n, n', ks) ∈ tasks /\ k ∈ ks)
  /\ (forall a b ks k, (a, b, ks) ∈ tasks -> k ∈ ks -> a <> b -> k ∈ before a /\ k ∈ after b).

Lemma tracked_unique r n n' k : tracked r -> k ∈ data r n -> k ∈ data r n' -> n = n'.
Proof. intros Ht H1%Ht H2%Ht. by eapply owner_unique. Qed.

Lemma consistent_member r n k : consistent r -> k ∈ data r n -> n ∈ dom (replicas_of r).
Proof.
  intros [Hok Hsh _ Ht] Hk. apply Ht, owner_member in Hk as (s & v & l & Hl & Hv & <-).
  destruct (sh_in _ _ Hsh s l v Hl Hv) as [(n & c & i & Hn & _ & ->) _]. rewrite getNodeID_key. apply elem_of_dom. by eexists.
Qed.

Lemma AddNode_spec opts x w r : consistent r -> x <> ""%string -> x ∉ dom (replicas_of r) -> 1 <= replicas opts < 2 ^ 58 ->
  exists r' tasks, AddNode opts true x w r = Ret (r', Ok tasks) /\ consistent r'
    /\ replicas_of r' = <[x := getValidWeight w * replicas opts]> (replicas_of r) /\ exact_plan (data r) (data r') tasks.
Proof.
  intros Hco Hx Hnew Hopt. pose proof Hco as [Hok Hsh Hcounts Htr]. unfold AddNode. rewrite (and_then_ok _ _ _ _ _ (law_Nodes r Hok)), decide_False by done.
  set (c := getValidWeight w * replicas opts).
  assert (Hc : 1 <= c < 2 ^ 62) by (unfold c, getValidWeight; repeat case_decide; nia).
  assert (Hx0 : replicas_of r !! x = None) by (by apply not_elem_of_dom).
  destruct (law_AddNodeToReplica r x c Hok ltac:(lia)) as (r1 & Ha & Hok1 & Hs1 & Hr1 & Hd1). rewrite (and_then_ok _ _ _ _ _ Ha).
  assert (Hdx : data r x = ∅).
  { apply set_eq. intros k. split; [| set_solver]. intros Hk. exfalso. by apply Hnew, (consistent_member r x k). }
  destruct (add_virtual_spec (data r) (replicas_of r) x c (Z.to_nat c) 0 r1 []) as (r' & tasks & Hv & Had); [done | done | lia | lia | | |].
  { intros n cn Hn. destruct (Hcounts n cn Hn). lia. }
  { split; [done | done | | | | |].
    - rewrite Hs1. eapply shape_iff; [| exact Hsh]. intros v. split; [by left |]. intros [? | (i & ? & _)]; [done | lia].
    - intros n k. rewrite Hd1, Hs1. apply Htr.
    - intros n k Hk. left. by rewrite Hd1.
    - intros n k. rewrite Hd1. by left.
    - intros a b ks Ht. by apply not_elem_of_nil in Ht. }
  rewrite Z.add_0_l, Z2Nat.id in Had by lia. exists r', tasks. split; [done |]. destruct Had as [Hok' Hreps' Hsh' Htr' Hkept Hfrom Htasks].
  split; [| split; [done |]].
  - split; [done | | | done].
    + rewrite Hreps'. eapply shape_iff; [| exact Hsh']. intros v. split.
      * intros [(n & cn & i & Hn & Hi & ->) | (i & Hi & ->)].
        -- exists n, cn, i. rewrite lookup_insert_ne by congruence. done.
        -- exists x, c, i. by rewrite lookup_insert_eq.
      * intros (n & cn & i & Hn & Hi & ->). apply lookup_insert_Some in Hn as [[<- <-] | [_ Hn]]; [right; by exists i | left; by exists n, cn, i].
    + intros n cn. rewrite Hreps'. rewrite lookup_insert_Some. intros [[<- <-] | [_ Hn]]; [done | by apply Hcounts].
  - split; [| split].
    + intros k. split; [intros (n & Hk); destruct (Hkept n k Hk) as [? | [? _]]; by eexists | intros (n & Hk); destruct (Hfrom n k Hk) as [? | [_ ?]]; [by eexists | done]].
    + intros n n' k Hk Hk' Hne. destruct (Hkept n k Hk) as [Hin | (Hin & ks & Ht & Hks)]; [by destruct Hne; eapply tracked_unique |].
      assert (n' = x) as -> by (by eapply tracked_unique). by exists ks.
    + intros a b ks k Ht Hks Hab. destruct (Htasks a b ks Ht) as [-> Hall]. by apply Hall.
Qed.

Lemma RemoveNode_spec fuel x c r : consistent r -> replicas_of r !! x = Some c -> (exists n, n <> x /\ n ∈ dom (replicas_of r)) ->
  (forall i, 0 <= i < c -> getRawNodeKey x i ∉ dom (replicas_of r)) -> (size (dom (scores r)) < fuel)%nat ->
  exists r' tasks, RemoveNode true fuel x r = Ret (r', Ok tasks) /\ consistent r'
    /\ replicas_of r' = delete x (replicas_of r) /\ exact_plan (data r) (data r') tasks.
Proof.
  intros Hco Hx (other & Hox & Hother) Hclash Hfuel. pose proof Hco as [Hok Hsh Hcounts Htr]. unfold RemoveNode.
  rewrite (and_then_ok _ _ _ _ _ (law_Nodes r Hok)), Hx. destruct (Hcounts x c Hx) as [Hxne Hc].
  destruct (law_DeleteNodeToReplica r x Hok) as (r1 & Hdel & Hok1 & Hs1 & Hr1 & Hd1). rewrite (and_then_ok _ _ _ _ _ Hdel).
  set (reps := delete x (replicas_of r)) in *. set (f := without x (scores r)).
  assert (Hf : dom f <> ∅).
  { apply elem_of_dom in Hother as [co Hco']. destruct (Hcounts other co Hco') as [_ Hcob].
    destruct (sh_all _ _ Hsh (getRawNodeKey other 0)) as (l & Hl & Hin); [exists other, co, 0; split_and!; [done | lia | lia | done] |].
    assert (Hd : Encrypt (getRawNodeKey other 0) ∈ dom f); [| set_solver]. apply elem_of_dom. exists (others x l). apply without_lookup. exists l. split_and!; [done | done |].
    intros Hn. assert (Hin' : getRawNodeKey other 0 ∈ others x l) by (apply list_elem_of_filter; by rewrite getNodeID_key). rewrite Hn in Hin'. by apply not_elem_of_nil in Hin'. }
  assert (Hmember : forall n k, k ∈ data r n -> n <> x -> owner f (Encrypt k) n).
  { intros n k Hk Hn. destruct (Htr n k Hk) as (s & v & l & Hc' & Hl & Hv). subst n.
    destruct (without_head x (scores r) s v l Hl Hn) as [l' Hl']. exists s, v, l'. split; [| done].
    apply (ceiling_sub (dom (scores r))); [apply without_dom | done | apply elem_of_dom; by eexists]. }
  destruct (remove_virtual_spec (data r) reps f x c (Z.to_nat c) 0 fuel r1 []) as (r' & tasks & Hv & Hrm).
  { apply lookup_delete_eq. }
  { split; [| split; [done |]].
    - intros n [cn Hn]%elem_of_dom. apply lookup_delete_Some in Hn as [_ Hn]. by destruct (Hcounts n cn Hn).
    - intros i Hi Hd. apply (Hclash i Hi). unfold reps in Hd. rewrite dom_delete_L in Hd. set_solver. }
  { done. }
  { lia. }
  { lia. }
  { by rewrite Hs1. }
  { lia. }
  { split; [done | done | | by rewrite Hs1 | | | | |].
    - rewrite Hs1. eapply shape_iff; [| exact Hsh]. intros v. split.
      + intros (n & cn & i & Hn & Hi & ->). destruct (decide (n = x)) as [-> | Hne].
        * right. exists i. split; [| done]. rewrite Hx in Hn. by injection Hn as <-.
        * left. exists n, cn, i. unfold reps. by rewrite lookup_delete_ne.
      + intros [(n & cn & i & Hn & Hi & ->) | (i & Hi & ->)]; [apply lookup_delete_Some in Hn as [_ Hn]; by exists n, cn, i | by exists x, c, i].
    - intros n k Hn. rewrite Hd1. intros Hk. by apply Hmember.
    - intros k. rewrite Hd1, Hs1. apply Htr.
    - intros n k Hk. left. by rewrite Hd1.
    - intros n k. rewrite Hd1. by left.
    - intros a b ks Ht. by apply not_elem_of_nil in Ht. }
  exists r', tasks. split; [done |]. destruct Hrm as [Hok' Hreps' Hsh' Hrest Hoth Hown Hkept Hfrom Htasks].
  assert (Hsh2 : shape (scores r') (vnode_of reps)).
  { eapply shape_iff; [| exact Hsh']. intros v. split; [intros [? | (i & ? & _)]; [done | lia] | by left]. }
  assert (Hnox : forall s l v, scores r' !! s = Some l -> v ∈ l -> getNodeID v <> x).
  { intros s l v Hl Hv'. destruct (sh_in _ _ Hsh2 s l v Hl Hv') as [(n & cn & i & Hn & _ & ->) _]. rewrite getNodeID_key. apply lookup_delete_Some in Hn as [? _]. congruence. }
  assert (Hxe : forall k, k ∉ data r' x).
  { intros k Hk. apply Hown, owner_member in Hk as (s & v & l & Hl & Hv' & Hvx). by apply (Hnox s l v). }
  assert (Hf' : f = scores r').
  { rewrite <- Hrest. apply without_same; [done |]. intros s l Hl. by destruct (sh_nodup _ _ Hsh2 s l Hl). }
  assert (Htr' : tracked r').
  { intros n k Hk. rewrite <- Hf'. apply Hoth; [| done]. intros ->. by apply (Hxe k). }
  split; [split; [done | by rewrite Hreps' | | done] | split; [done |]].
  { intros n cn. rewrite Hreps'. intros [_ Hn]%lookup_delete_Some. by apply Hcounts. }
  split; [| split].
  - intros k. split; intros (n & Hk).
    + destruct (Hkept n k Hk) as [? | (_ & y & _ & _ & _ & _ & ?)]; by eexists.
    + destruct (Hfrom n k Hk); by eexists.
  - intros n n' k Hk Hk' Hne. destruct (Hkept n k Hk) as [Hin | (-> & y & ks & Hy & Ht & Hks & Hin)]; [by destruct Hne; eapply tracked_unique |].
    assert (n' = y) as -> by (by eapply tracked_unique). by exists ks.
  - intros a b ks k Ht Hks Hab. destruct (Htasks a b ks Ht) as [-> Hall]. apply Hall; [done | congruence].
Qed.

Lemma owner_total (t : table) d : (forall s l, t !! s = Some l -> l <> []) -> dom t <> ∅ -> exists c v l, is_ceiling (dom t) d c /\ t !! c = Some (v :: l).
Proof.
  intros Hne Hd. destruct (ceiling_total (dom t) d) as [c Hc]. pose proof (is_ceiling_in _ _ _ Hc Hd) as Hin.
  apply elem_of_dom in Hin as [l Hl]. destruct l as [| v l]; [by destruct (Hne _ _ Hl) |]. by exists c, v, l.
Qed.

Lemma GetNode_none k r : ring_ok r -> dom (scores r) = ∅ -> GetNode k r = Ret (r, Err "no node available").
Proof.
  intros Hok Hd. unfold GetNode. destruct (law_Ceiling r (Encrypt k) Hok (Encrypt_score k)) as (c & Hc & Hcc). rewrite (and_then_ok _ _ _ _ _ Hc).
  rewrite Hd in Hcc. destruct Hcc as [[_ ->] | [[? _] | [? _]]]; [| set_solver | set_solver]. by rewrite decide_True.
Qed.

Lemma GetNode_spec k r : consistent r -> dom (scores r) <> ∅ ->
  exists r' n, GetNode k r = Ret (r', Ok n) /\ consistent r' /\ owner (scores r) (Encrypt k) n /\ n ∈ dom (replicas_of r)
    /\ scores r' = scores r /\ replicas_of r' = replicas_of r /\ forall x, data r' x = if decide (x = n) then data r n ∪ {[k]} else data r x.
Proof.
  intros Hco Hd. pose proof Hco as [Hok Hsh Hcounts Htr]. unfold GetNode.
  destruct (owner_total (scores r) (Encrypt k)) as (c & v & l & Hcc & Hl); [intros s l' Hl'; by destruct (law_scores r s l' Hok Hl') | done |].
  destruct (law_Ceiling r (Encrypt k) Hok (Encrypt_score k)) as (c' & Hc & Hcc'). rewrite (and_then_ok _ _ _ _ _ Hc).
  rewrite (is_ceiling_unique _ _ _ _ Hcc' Hcc). destruct (law_scores r c _ Hok Hl) as [Hs _]. rewrite decide_False by (unfold is_score in Hs; lia).
  rewrite (and_then_ok _ _ _ _ _ (law_Node r c _ Hok Hl)).
  destruct (law_AddNodeToDataKeys r (getNodeID v) {[k]} Hok) as (r' & Ha & Hok' & Hs' & Hr' & Hd'). rewrite (and_then_ok _ _ _ _ _ Ha).
  assert (Ho : owner (scores r) (Encrypt k) (getNodeID v)) by (by exists c, v, l).
  exists r', (getNodeID v). split; [done |]. split; [| split; [done |]; split; [| done]].
  - split; [done | by rewrite Hs', Hr' | by rewrite Hr' |]. intros n x. rewrite Hd', Hs'. case_decide as Hn; [| apply Htr].
    subst n. intros [Hx | ->%elem_of_singleton]%elem_of_union; [by apply Htr | done].
  - destruct (owner_member _ _ _ Ho) as (s & w & lw & Hlw & Hw & Hnw). destruct (sh_in _ _ Hsh s lw w Hlw Hw) as [(n & cn & i & Hn & _ & ->) _].
    rewrite getNodeID_key in Hnw. subst n. apply elem_of_dom. by eexists.
Qed.

(** ** Calls of the module *)

Inductive ch_call := ChAdd (nodeID : string) (weight : Z) | ChRemove (nodeID : string) | ChGet (dataKey : string).

(** The tasks handed to the migrator, and the node that was found. *)
Definition ch_step (opts : ConsistentHashOptions) (fuel : nat) (c : ch_call) : call R (list task * option string) :=
  match c with
  | ChAdd x w => try! tasks := AddNode opts true x w in give (tasks, None)
  | ChRemove x => try! tasks := RemoveNode true fuel x in give (tasks, None)
  | ChGet k => try! n := GetNode k in give ([], Some n)
  end.

(** A new node has a name; a node goes only while another stays, and no other
    has the name of one of its virtual nodes. *)
Definition allowed r (c : ch_call) : Prop :=
  match c with
  | ChAdd x _ => x <> ""%string
  | ChRemove x => (forall n, n <> x -> n ∉ dom (replicas_of r)) -> x ∉ dom (replicas_of r)
  | ChGet _ => True
  end
  /\ match c with
     | ChRemove x => forall i, 0 <= i < 2 ^ 62 -> getRawNodeKey x i ∉ dom (replicas_of r)
     | _ => True
     end.

(** What a call answers and does. *)
Definition ch_result (opts : ConsistentHashOptions) (c : ch_call) r r' (res : result string (list task * option string)) : Prop :=
  match c, res with
  | ChAdd x w, Ok (tasks, _) => x ∉ dom (replicas_of r) /\ replicas_of r' = <[x := getValidWeight w * replicas opts]> (replicas_of r)
      /\ exact_plan (data r) (data r') tasks
  | ChAdd x _, Err e => x ∈ dom (replicas_of r) /\ e = "repeat node"%string /\ r' = r
  | ChRemove x, Ok (tasks, _) => x ∈ dom (replicas_of r) /\ replicas_of r' = delete x (replicas_of r) /\ exact_plan (data r) (data r') tasks
  | ChRemove x, Err e => x ∉ dom (replicas_of r) /\ e = "invalid node id"%string /\ r' = r
  | ChGet k, Ok (_, o) => exists n, o = Some n /\ n ∈ dom (replicas_of r) /\ owner (scores r) (Encrypt k) n /\ k ∈ data r' n
      /\ scores r' = scores r /\ replicas_of r' = replicas_of r
  | ChGet _, Err e => replicas_of r = ∅ /\ e = "no node available"%string /\ r' = r
  end.

Lemma no_scores r : consistent r -> dom (scores r) = ∅ -> replicas_of r = ∅.
Proof.
  intros [Hok Hsh Hcounts _] Hd. apply map_eq. intros n. rewrite lookup_empty. destruct (replicas_of r !! n) as [c |] eqn:Hn; [| done]. exfalso.
  destruct (Hcounts n c Hn) as [_ Hc]. destruct (sh_all _ _ Hsh (getRawNodeKey n 0)) as (l & Hl & _); [by exists n, c, 0; split_and!; [done | lia | lia |] |].
  assert (Encrypt (getRawNodeKey n 0) ∈ dom (scores r)) by (apply elem_of_dom; by eexists). set_solver.
Qed.

(** C18: on any ring that keeps the laws, adding a node with a name, removing a
    node while another one stays and none is called like one of its virtual
    nodes, and looking a key up each answer and leave the ring consistent: each
    data key stays indexed at the node that owns its place on the ring, and a
    node that comes or goes is handed, or hands over, exactly the keys whose
    owner changes. Adding a node that is there, removing one that is not, and
    looking up on an empty ring are refused and change nothing. (The calls left
    out are those that break the index, below.) *)
Theorem index_follows_ring opts fuel c r : consistent r -> 1 <= replicas opts < 2 ^ 58 -> (size (dom (scores r)) < fuel)%nat -> allowed r c ->
  exists r' res, ch_step opts fuel c r = Ret (r', res) /\ consistent r' /\ ch_result opts c r r' res.
Proof.
  intros Hco Hopts Hfuel [Hal Hal2]. pose proof Hco as [Hok Hsh Hcounts Htr]. destruct c as [x w | x | k]; cbn [ch_step ch_result allowed] in *.
  - destruct (decide (x ∈ dom (replicas_of r))) as [Hx | Hx].
    + exists r, (Err "repeat node"%string). split; [| done]. apply and_then_err. unfold AddNode. rewrite (and_then_ok _ _ _ _ _ (law_Nodes r Hok)). by rewrite decide_True.
    + destruct (AddNode_spec opts x w r Hco Hal Hx Hopts) as (r' & tasks & Ha & Hco' & Hr' & Hp). exists r', (Ok (tasks, None)).
      by rewrite (and_then_ok _ _ _ _ _ Ha).
  - destruct (replicas_of r !! x) as [c |] eqn:Hx.
    + assert (Hin : x ∈ dom (replicas_of r)) by (apply elem_of_dom; by eexists). destruct (Hcounts x c Hx) as [_ Hc].
      destruct (RemoveNode_spec fuel x c r Hco Hx) as (r' & tasks & Ha & Hco' & Hr' & Hp); [| intros i Hi; apply Hal2; lia | done |].
      { destruct (set_choose_or_empty (dom (replicas_of r) ∖ {[x]})) as [[n Hn] | He]; [exists n; set_solver |]. exfalso. apply Hal; [| done]. intros n Hn Hd. set_solver. }
      exists r', (Ok (tasks, None)). by rewrite (and_then_ok _ _ _ _ _ Ha).
    + exists r, (Err "invalid node id"%string). split; [| split; [done |]; split; [by apply not_elem_of_dom | done]].
      apply and_then_err. unfold RemoveNode. rewrite (and_then_ok _ _ _ _ _ (law_Nodes r Hok)). by rewrite Hx.
  - destruct (decide (dom (scores r) = ∅)) as [Hd | Hd].
    + exists r, (Err "no node available"%string). split; [| split; [done |]; split; [by apply no_scores | done]]. apply and_then_err. by apply GetNode_none.
    + destruct (GetNode_spec k r Hco Hd) as (r' & n & Hg & Hco' & Ho & Hn & Hs & Hr & Hdata). exists r', (Ok ([], Some n)). rewrite (and_then_ok _ _ _ _ _ Hg).
      split; [done |]. split; [done |]. exists n. split; [done |]. split; [done |]. split; [done |]. split; [| done].
      rewrite Hdata, decide_True by done. set_solver.
Qed.
End Steps.

(** ** On the local ring *)

Definition start : SkiplistHashRing := NewSkiplistHashRing (replicate 40 0).

Lemma start_consistent : consistent start.
Proof.
  destruct (NewSkiplistHashRing_ok (replicate 40 0)) as [Hok Hs].
  assert (Hno : forall n : string, replicas_of start !! n = None) by (intros n; apply lookup_empty).
  split; [done | | intros n c Hn; by rewrite Hno in Hn | intros n k Hk; by apply not_elem_of_empty in Hk].
  change (scores start) with (local_scores start). unfold start at 1. rewrite Hs.
  split; [by intros s l v Hl; rewrite lookup_empty in Hl | | by intros s l Hl; rewrite lookup_empty in Hl].
  intros v (n & c & i & Hn & _). by rewrite Hno in Hn.
Qed.

Lemma index_follows_ring_witness : exists r' res,
  ch_step (NewOptions [WithReplicas 3]) 10 (ChAdd "node" 1) start = Ret (r', res) /\ consistent r' /\ ch_result (NewOptions [WithReplicas 3]) (ChAdd "node" 1) start r' res.
Proof. apply (index_follows_ring (NewOptions [WithReplicas 3]) 10 (ChAdd "node" 1) start); [apply start_consistent | split; vm_compute; done | vm_compute; lia | split; done]. Defined.

Definition ch_calls (opts : ConsistentHashOptions) (cs : list ch_call) (r : SkiplistHashRing) : outcome (SkiplistHashRing * list (result string (list task * option string))) :=
  ofold (fun c p => let! q := ch_step opts 100 c p.1 in Ret (q.1, p.2 ++ [q.2])) cs (r, []).
Definition answers (cs : list ch_call) : outcome (list (result string (list task * option string))) :=
  let! p := ch_calls (NewOptions [WithReplicas 2]) cs start in Ret p.2.

(** The last node of a ring with data is taken off the list of nodes before it is
    found that nobody can take the data: it cannot be removed again, and is still
    found. *)
Lemma last_node_half_removed :
  answers [ChAdd "b" 1; ChGet "k1"; ChRemove "b"; ChRemove "b"; ChGet "k1"]
    = Ret [Ok ([], None); Ok ([], Some "b"%string); Err "no other node"%string; Err "invalid node id"%string; Ok ([], Some "b"%string)].
Proof. vm_compute. reflexivity. Qed.

(** Removing the node [a] drops the data keys of the node [a_0]: a later removal
    of [a_0] hands nothing over. *)
Lemma rem_forgets_namesake :
  answers [ChAdd "c" 1; ChAdd "a_0" 1; ChAdd "a" 1; ChGet "x"; ChRemove "a"; ChRemove "a_0"; ChGet "x"]
    = Ret [Ok ([], None); Ok ([], None); Ok ([], None); Ok ([], Some "a_0"%string); Ok ([], None); Ok ([], None); Ok ([], Some "c"%string)].
Proof. vm_compute. reflexivity. Qed.

(** A node without a name is taken for none: a node whose data it should get
    is not removed. *)
Lemma unnamed_node_blocks_removal :
  answers [ChAdd "b" 1; ChAdd "" 1; ChGet "item:7"; ChRemove "b"; ChRemove "b"]
    = Ret [Ok ([], None); Ok ([], None); Ok ([], Some "b"%string); Err "no other node"%string; Err "invalid node id"%string].
Proof. vm_compute. reflexivity. Qed.
