(* ===== verification/RedisStore.v ===== *)
(** * RedisStore
    What the Redis clients of the small applications rely on: string values that
    expire, commands that may be lost, and the durations of Go. *)
From S2P Require Import Prelude GoNumbers.

(** Values with the moment, in milliseconds, they expire at, if any. *)
Abbreviation store := (gmap string (string * option Z)).

Definition live (now : Z) (s : store) (k : string) : option string :=
  match s !! k with
  | Some (v, Some e) => if decide (now < e) then Some v else None
  | Some (v, None) => Some v
  | None => None
  end.

(** [time.Duration(n) * time.Second] and [time.Millisecond]. *)
Definition seconds (n : Z) : Z := i64 (n * 10 ^ 9).
Definition milliseconds (n : Z) : Z := i64 (n * 10 ^ 6).

(** [Set] with a duration that is not positive sets no expiry; [PExpire] with one
    deletes the key. *)
Definition redis_set (now : Z) (k v : string) (d : Z) (s : store) : store :=
  <[k := (v, if decide (0 < d) then Some (now + d / 10 ^ 6) else None)]> s.
Definition redis_pexpire (now : Z) (k : string) (d : Z) (s : store) : store :=
  match s !! k, live now s k with
  | Some (v, _), Some _ => if decide (d <= 0) then delete k s else <[k := (v, Some (now + d / 10 ^ 6))]> s
  | _, _ => s
  end.

(** [SET NX]; a duration of zero sets no expiry, a negative one is an error. *)
Definition redis_setnx (now : Z) (k v : string) (d : Z) (s : store) : store * result string Z :=
  if decide (d < 0) then (s, Err "ERR invalid expire time in 'set' command"%string) else
  match live now s k with
  | Some _ => (s, Ok 0)
  | None => (redis_set now k v d s, Ok 1)
  end.
(** [EXPIRE] on a key that is there. *)
Definition redis_expire (now : Z) (k : string) (secs : Z) (s : store) : store :=
  match s !! k, live now s k with
  | Some (v, _), Some _ => if decide (secs <= 0) then delete k s else <[k := (v, Some (now + secs * 1000))]> s
  | _, _ => s
  end.

(** What a command does to its state; [None] for an answer that does not arrive. *)
Definition effect {A} (f : fault) (run : A -> A) (a : A) : A := if decide (f = Lost) then a else run a.

Definition io_error : string := "i/o timeout".

Lemma seconds_small n : 0 < n < 2 ^ 33 -> seconds n / 10 ^ 6 = 1000 * n /\ 0 < seconds n.
Proof. intros Hn. unfold seconds. rewrite i64_id by lia. split; [| lia]. replace (n * 10 ^ 9) with (1000 * n * 10 ^ 6) by lia. by rewrite Z.div_mul. Qed.
Lemma milliseconds_small n : 0 < n < 2 ^ 42 -> milliseconds n / 10 ^ 6 = n /\ 0 < milliseconds n.
Proof. intros Hn. unfold milliseconds. rewrite i64_id by lia. split; [| lia]. by rewrite Z.div_mul. Qed.
