(* ===== verification/ConsistentCache.v ===== *)
(** * ConsistentCache
    Cache-aside with a disable marker ([apps/consistent_cache]): the service of
    [service.go] over the Redis cache of [redis/cache.go] with its script, and the
    database of [mysql/db.go]. Calls interleave at every command, time passes
    between them, and a command may be lost or its answer be lost. *)
From S2P Require Import Prelude GoStrings GoNumbers RedisStore.

(** ** [option.go] *)

Record Options := mkOptions {
  cacheExpireSeconds : Z;
  cacheExpireRandomMode : bool;
  disableExpireSeconds : Z;
  enableDelayMillis : Z;
}.
#[export] Instance eta_options : Eta Options := fun o =>
  mkOptions (cacheExpireSeconds o) (cacheExpireRandomMode o) (disableExpireSeconds o) (enableDelayMillis o).

Definition WithCacheExpireSeconds (n : Z) (o : Options) : Options := o <| cacheExpireSeconds := n |>.
Definition WithCacheExpireRandomMode (o : Options) : Options := o <| cacheExpireRandomMode := true |>.
Definition WithDisableExpireSeconds (n : Z) (o : Options) : Options := o <| disableExpireSeconds := n |>.
Definition WithEnableDelayMillis (n : Z) (o : Options) : Options := o <| enableDelayMillis := n |>.

Definition DefaultCacheExpireSeconds : Z := 60.
Definition DefaultDisableExpireSeconds : Z := 10.
Definition DefaultEnableDelayMillis : Z := 1000.

Definition repair (o : Options) : Options :=
  let o := if decide (cacheExpireSeconds o <= 0) then o <| cacheExpireSeconds := DefaultCacheExpireSeconds |> else o in
  let o := if decide (disableExpireSeconds o <= 0) then o <| disableExpireSeconds := DefaultDisableExpireSeconds |> else o in
  if decide (enableDelayMillis o <= 0) then o <| enableDelayMillis := DefaultEnableDelayMillis |> else o.

Definition NewService (opts : list (Options -> Options)) : Options := repair (foldl (fun o f => f o) (mkOptions 0 false 0 0) opts).

(** [Int63n] panics when its bound is not positive; [draw] is what it draws from. *)
Definition CacheExpireSeconds (o : Options) (draw : Z) : outcome Z :=
  if negb (cacheExpireRandomMode o) then Ret (cacheExpireSeconds o) else
  let n := i64 (cacheExpireSeconds o + 1) in
  if decide (n <= 0) then Panic "invalid argument to Int63n" else Ret (i64 (cacheExpireSeconds o + draw mod n)).

(** ** [redis/cache.go] *)

Definition NullData : string := "Err_Syntax_Null_Data".
Definition disableKey (key : string) : string := "Enable_Lock_Key_{" ++ key ++ "}".

Definition Cache_Enable (now : Z) (key : string) (delayMillis : Z) (s : store) : store :=
  redis_pexpire now (disableKey key) (milliseconds delayMillis) s.
Definition Cache_Disable (now : Z) (key : string) (expireSeconds : Z) (s : store) : store :=
  redis_set now (disableKey key) "1" (seconds expireSeconds) s.
Definition Cache_Get (now : Z) (key : string) (s : store) : option string := live now s key.
Definition Cache_Del (key : string) (s : store) : store := delete key s.

(** The script; [set] with a time that is not positive is an error. *)
Definition LuaCheckEnableAndWriteCache (now : Z) (disable_key key value : string) (cache_expire_seconds : Z) (s : store) : store :=
  match live now s disable_key with
  | Some _ => s
  | None => if decide (0 < cache_expire_seconds) then <[key := (value, Some (now + cache_expire_seconds * 1000))]> s else s
  end.
Definition Cache_PutWhenEnable (now : Z) (key value : string) (expireSeconds : Z) (s : store) : store :=
  LuaCheckEnableAndWriteCache now (disableKey key) key value expireSeconds s.

(** ** The service: objects of type [T] with [Object.Write] and [Object.Read] *)

Section Service.
Context {T : Type} (Write : T -> result string string) (Read : string -> result string T).
(** What [Updates] of the database layer makes of a row. *)
Context (Updates : T -> T -> T).
Context (opts : Options).

(** [mysql/db.go]: a row that is there already is updated. *)
Definition DB_Put (key : string) (x : T) (rows : gmap string T) : gmap string T :=
  match rows !! key with
  | None => <[key := x]> rows
  | Some old => <[key := Updates old x]> rows
  end.
Definition DB_Get (key : string) (rows : gmap string T) : option T := rows !! key.

(** Where a call is: before which command, or its result. [since] and [readAt],
    the moments the marker was set and the row was read, are kept for the
    theorems only. *)
Inductive call :=
| PutDisable (key : string) (x : T)
| PutDel (key : string) (x : T) (since : Z)
| PutDb (key : string) (x : T) (since : Z)
| PutDone (r : result string unit)
| GetCache (key : string)
| GetDb (key : string)
| GetFill (key : string) (row : option T) (readAt : Z)
| GetDone (useCache : bool) (r : result string T).

(** [enables]: the goroutines that [Put] leaves behind, by key. *)
Record world := mkWorld { now : Z; redis : store; db : gmap string T; calls : gmap Z call; enables : list string }.
#[export] Instance eta_world : Eta world := fun w => mkWorld (now w) (redis w) (db w) (calls w) (enables w).

Definition ErrorDataNotExist : string := "data not exist".

(** ** [Put] *)

Definition Put_disable (f : fault) (key : string) (x : T) (w : world) : world * call :=
  (w <| redis := effect f (Cache_Disable (now w) key (disableExpireSeconds opts)) (redis w) |>,
   if decide (f = Fine) then PutDel key x (now w) else PutDone (Err io_error)).

(** Once the marker is set, every return leaves a goroutine that enables. *)
Definition Put_return (key : string) (r : result string unit) (w : world) : world * call :=
  (w <| enables := key :: enables w |>, PutDone r).

Definition Put_del (f : fault) (key : string) (x : T) (since : Z) (w : world) : world * call :=
  if decide (key = ""%string) then Put_return key (Err "redis DEL key can't be empty"%string) w else
  let w := w <| redis := effect f (Cache_Del key) (redis w) |> in
  if decide (f = Fine) then (w, PutDb key x since) else Put_return key (Err io_error) w.

Definition Put_db (f : fault) (key : string) (x : T) (w : world) : world * call :=
  Put_return key (if decide (f = Fine) then Ok tt else Err io_error) (w <| db := effect f (DB_Put key x) (db w) |>).

(** ** [Get] *)

Definition Get_cache (f : fault) (key : string) (w : world) : call :=
  if decide (key = ""%string) then GetDone false (Err "redis GET key can't be empty"%string) else
  if decide (f <> Fine) then GetDone false (Err io_error) else
  match Cache_Get (now w) key (redis w) with
  | Some v => if decide (v = NullData) then GetDone true (Err ErrorDataNotExist) else GetDone true (Read v)
  | None => GetDb key
  end.

Definition Get_db (f : fault) (key : string) (w : world) : call :=
  if decide (f <> Fine) then GetDone false (Err io_error) else
  match DB_Get key (db w) with
  | None => GetFill key None (now w)
  | Some x => match Write x with Err e => GetDone false (Err e) | Ok _ => GetFill key (Some x) (now w) end
  end.

(** The text of a row in the cache. *)
Definition text_of (row : option T) : result string string :=
  match row with None => Ok NullData | Some x => Write x end.

(** Whether the row could be cached does not matter to the answer. *)
Definition Get_fill (f : fault) (draw : Z) (key : string) (row : option T) (w : world) : outcome (world * call) :=
  let! ttl := CacheExpireSeconds opts draw in
  let fill := match text_of row with Ok v => Cache_PutWhenEnable (now w) key v ttl | Err _ => id end in
  Ret (w <| redis := effect f fill (redis w) |>, GetDone false (match row with Some x => Ok x | None => Err ErrorDataNotExist end)).

(** ** Steps *)

Inductive event :=
| Elapse (millis : Z)
| CallPut (id : Z) (key : string) (x : T)
| CallGet (id : Z) (key : string)
| Advance (id : Z) (f : fault) (draw : Z)
| RunEnable (i : nat) (f : fault).

Definition advance (f : fault) (draw : Z) (c : call) (w : world) : outcome (world * call) :=
  match c with
  | PutDisable key x => Ret (Put_disable f key x w)
  | PutDel key x since => Ret (Put_del f key x since w)
  | PutDb key x _ => Ret (Put_db f key x w)
  | GetCache key => Ret (w, Get_cache f key w)
  | GetDb key => Ret (w, Get_db f key w)
  | GetFill key row _ => Get_fill f draw key row w
  | PutDone _ | GetDone _ _ => Ret (w, c)
  end.

Definition step (ev : event) (w : world) : outcome world :=
  match ev with
  | Elapse millis => Ret (w <| now := now w + millis |>)
  | CallPut id key x => Ret (w <| calls := <[id := PutDisable key x]> (calls w) |>)
  | CallGet id key => Ret (w <| calls := <[id := GetCache key]> (calls w) |>)
  | Advance id f draw =>
      match calls w !! id with
      | None => Ret w
      | Some c => let! p := advance f draw c w in Ret (p.1 <| calls := <[id := p.2]> (calls p.1) |>)
      end
  | RunEnable i f =>
      match enables w !! i with
      | None => Ret w
      | Some key => Ret (w <| redis := effect f (Cache_Enable (now w) key (enableDelayMillis opts)) (redis w) |> <| enables := delete i (enables w) |>)
      end
  end.

Definition run (evs : list event) (w : world) : outcome world := ofold step evs w.
Definition start : world := mkWorld 0 ∅ ∅ ∅ [].
End Service.
Arguments call : clear implicits.
Arguments world : clear implicits.
Arguments event : clear implicits.

(** ** The cache holds what the database holds *)

Lemma disableKey_inj k k' : disableKey k = disableKey k' -> k = k'.
Proof.
  unfold disableKey. intros H. apply append_inj_l in H. revert k' H.
  induction k as [| a k IH]; intros [| b k'] H; [done | destruct k'; discriminate | destruct k; discriminate |]. injection H as -> H. f_equal. by apply IH.
Qed.

(** A key that is not the marker of another. *)
Definition plain (key : string) : Prop := forall k, key <> disableKey k.

Section Current.
Context {T : Type} (Write : T -> result string string) (Read : string -> result string T) (Updates : T -> T -> T) (opts : Options).

(** How long the marker is there at least. *)
Definition covered : Z := Z.min (enableDelayMillis opts) (1000 * disableExpireSeconds opts).

(** Times that the code's durations can express. *)
Record sane : Prop := {
  sane_disable : 0 < disableExpireSeconds opts < 2 ^ 33;
  sane_enable : 0 < enableDelayMillis opts < 2 ^ 42;
  sane_cache : 0 < cacheExpireSeconds opts < 2 ^ 62
}.
Context (Hsane : sane) (D G : Z) (HD : 0 <= D) (HG : 0 <= G) (Hcov : D + G < covered).

(** A writer stores its row within [D] of its marker, a reader fills within [G]
    of its read, or is lost; time does not go back. *)
Definition timely (ev : event T) (w : world T) : Prop :=
  match ev with
  | Elapse millis => 0 <= millis
  | CallPut _ key _ | CallGet _ key => plain key
  | Advance id f _ =>
      match calls w !! id with
      | Some (PutDb _ _ since) => f = Lost \/ now w <= since + D
      | Some (GetFill _ _ readAt) => f = Lost \/ now w <= readAt + G
      | _ => True
      end
  | RunEnable _ _ => True
  end.

(** The marker of [key] will not run out before [e]. *)
Definition marked (w : world T) (key : string) (e : Z) : Prop :=
  exists v u, redis w !! disableKey key = Some (v, Some u) /\ e <= u.

Definition call_ok (w : world T) (c : call T) : Prop :=
  match c with
  | PutDisable key _ | GetCache key | GetDb key => plain key
  | PutDel key _ since => plain key /\ since <= now w /\ (now w < since + covered -> marked w key (since + covered))
  | PutDb key _ since => plain key /\ since <= now w /\ (now w < since + covered -> marked w key (since + covered) /\ redis w !! key = None)
  | GetFill key row readAt => plain key /\ readAt <= now w /\ (now w <= readAt + G -> row = db w !! key \/ marked w key (readAt + G + 1))
  | PutDone _ | GetDone _ _ => True
  end.

Record current (w : world T) : Prop := {
  cur_text key v e : redis w !! key = Some (v, e) -> plain key -> text_of Write (db w !! key) = Ok v;
  cur_marker key v e : redis w !! disableKey key = Some (v, e) -> exists u, e = Some u;
  cur_calls id c : calls w !! id = Some c -> call_ok w c;
  cur_enables key : key ∈ enables w -> plain key
}.

Lemma marked_live w key e : marked w key e -> now w < e -> live (now w) (redis w) (disableKey key) = Some (default ""%string (fst <$> redis w !! disableKey key)).
Proof. intros (v & u & Hl & He) Hn. unfold live. rewrite Hl. simpl. by rewrite decide_True by lia. Qed.

(** A change that keeps the markers in force. *)
Record keeps (w w' : world T) : Prop := {
  kp_now : now w <= now w';
  kp_marked key e : marked w key e -> e <= now w + covered -> marked w' key e;
  kp_none key e : plain key -> marked w key e -> now w' < e -> redis w !! key = None -> redis w' !! key = None
}.

Lemma call_frame w w' c : keeps w w' -> (forall key, db w' !! key = db w !! key) -> call_ok w c -> call_ok w' c.
Proof.
  intros [Hnow Hm Hn] Hdb. destruct c as [k x | k x s | k x s | r | k | k | k row at_ | u r]; simpl; try done.
  - intros (Hp & Hs & Hc). split; [done |]. split; [lia |]. intros Ht. apply Hm; [apply Hc; lia | lia].
  - intros (Hp & Hs & Hc). split; [done |]. split; [lia |]. intros Ht. destruct (Hc ltac:(lia)) as [Hk Hno].
    split; [apply Hm; [done | lia] | by apply (Hn k (s + covered))].
  - intros (Hp & Hs & Hc). split; [done |]. split; [lia |]. intros Ht. rewrite Hdb. destruct (Hc ltac:(lia)) as [He | Hk]; [by left | right].
    apply Hm; [done |]. lia.
Qed.

(** A change of the markers alone. *)
Lemma current_frame w w' : current w -> keeps w w' -> db w' = db w ->
  (forall key v e, redis w' !! key = Some (v, e) -> plain key -> exists v' e', redis w !! key = Some (v', e') /\ v' = v) ->
  (forall key v e, redis w' !! disableKey key = Some (v, e) -> exists u, e = Some u) ->
  (forall id c, calls w' !! id = Some c -> calls w !! id = Some c \/ call_ok w' c) -> (forall key, key ∈ enables w' -> key ∈ enables w \/ plain key) -> current w'.
Proof.
  intros [Ht Hmk Hc He] Hk Hdb Hr Hm Hcalls Hen. split.
  - intros key v e Hl Hp. destruct (Hr key v e Hl Hp) as (v' & e' & Hl' & ->). rewrite Hdb. by eapply Ht.
  - done.
  - intros id c Hl. destruct (Hcalls id c Hl) as [Hold | Hok]; [| done]. apply (call_frame w); [done | by rewrite Hdb | by eapply Hc].
  - intros key Hin. destruct (Hen key Hin); auto.
Qed.

Lemma keeps_same w w' : now w <= now w' -> redis w' = redis w -> keeps w w'.
Proof. intros Hn Hr. split; [done | unfold marked; by rewrite Hr | by rewrite Hr]. Qed.

(** The marker set again, or changed, to run out after at least [covered]. *)
Lemma keeps_marker w w' key v u : now w' = now w -> redis w' = <[disableKey key := (v, Some u)]> (redis w) -> now w + covered <= u -> keeps w w'.
Proof.
  intros Hn Hr Hu. split; [lia | |].
  - intros k e (v' & u' & Hl & He) Hle. unfold marked. rewrite Hr. destruct (decide (disableKey key = disableKey k)) as [Heq | Hne].
    + rewrite Heq, lookup_insert_eq. exists v, u. split; [done | lia].
    + rewrite lookup_insert_ne by done. by exists v', u'.
  - intros k e Hp _ _ Hnone. rewrite Hr, lookup_insert_ne; [done |]. intros H. by apply (Hp key).
Qed.

Lemma current_marker w w' key v u : current w -> now w' = now w -> redis w' = <[disableKey key := (v, Some u)]> (redis w) -> now w + covered <= u ->
  db w' = db w -> (forall id c, calls w' !! id = Some c -> calls w !! id = Some c \/ call_ok w' c) -> (forall k, k ∈ enables w' -> k ∈ enables w \/ plain k) -> current w'.
Proof.
  intros Hcur Hn Hr Hu Hdb Hcalls Hen. apply (current_frame w); try done; [by eapply keeps_marker | |].
  - intros k v' e Hl Hp. rewrite Hr, lookup_insert_ne in Hl by (intros H; by apply (Hp key)). by exists v', e.
  - intros k v' e. rewrite Hr. destruct (decide (disableKey key = disableKey k)) as [Heq | Hne].
    + rewrite Heq, lookup_insert_eq. intros [= _ <-]. by exists u.
    + rewrite lookup_insert_ne by done. by apply (cur_marker w Hcur).
Qed.

Lemma calls_set (w w' : world T) id c : calls w' = <[id := c]> (calls w) -> call_ok w' c ->
  forall id' c', calls w' !! id' = Some c' -> calls w !! id' = Some c' \/ call_ok w' c'.
Proof. intros -> Hok id' c' [[<- <-] | [_ H]]%lookup_insert_Some; auto. Qed.

(** Nothing but the call itself. *)
Lemma current_same w w' id c : current w -> now w' = now w -> redis w' = redis w -> db w' = db w -> calls w' = <[id := c]> (calls w) -> call_ok w c ->
  (forall k, k ∈ enables w' -> k ∈ enables w \/ plain k) -> current w'.
Proof.
  intros Hcur Hn Hr Hdb Hc Hok Hen. assert (Hk : keeps w w') by (apply keeps_same; [by rewrite Hn | done]).
  apply (current_frame w); [done | done | done | | | eapply calls_set; [done |]; apply (call_frame w); [done | by rewrite Hdb | done] | done].
  - intros k v e. rewrite Hr. by eauto.
  - intros k v e. rewrite Hr. apply (cur_marker w Hcur).
Qed.

(** ** A command of a writer *)

Lemma disable_current w id key x f : current w -> plain key ->
  let p := Put_disable opts f key x w in current (p.1 <| calls := <[id := p.2]> (calls p.1) |>).
Proof.
  intros Hcur Hp p. subst p. unfold Put_disable, effect. cbn [fst snd]. destruct (decide (f = Lost)) as [-> | Hf].
  - rewrite decide_False by done. eapply (current_same w); try done. auto.
  - destruct (seconds_small _ (sane_disable Hsane)) as [Hs Hpos].
    eapply (current_marker w _ key "1" (now w + 1000 * disableExpireSeconds opts)); try done; [| unfold covered; lia | | auto].
    + cbn. unfold Cache_Disable, redis_set. by rewrite decide_True, Hs.
    + eapply calls_set; [done |]. case_decide; [| done]. split; [done |]. split; [simpl; lia |]. intros _. unfold marked. cbn.
      unfold Cache_Disable, redis_set. rewrite decide_True, Hs by done. rewrite lookup_insert_eq. do 2 eexists. split; [done |]. unfold covered. lia.
Qed.

Lemma keeps_delete w w' key : now w' = now w -> redis w' = delete key (redis w) -> plain key -> keeps w w'.
Proof.
  intros Hn Hr Hp. split; [lia | |].
  - intros k e (v & u & Hl & He) _. exists v, u. by rewrite Hr, lookup_delete_ne by apply Hp.
  - intros k e _ _ _ Hnone. rewrite Hr. destruct (decide (key = k)) as [-> |]; [apply lookup_delete_eq | by rewrite lookup_delete_ne].
Qed.

Lemma del_current w id key x since f : current w -> call_ok w (PutDel key x since) ->
  let p := Put_del f key x since w in current (p.1 <| calls := <[id := p.2]> (calls p.1) |>).
Proof.
  intros Hcur (Hp & Hs & Hc) p. subst p. unfold Put_del, Put_return, effect.
  assert (Hen : forall k, k ∈ key :: enables w -> k ∈ enables w \/ plain k) by (intros k [-> | ?]%elem_of_cons; auto).
  destruct (decide (key = ""%string)).
  { by eapply (current_same w). }
  destruct (decide (f = Lost)) as [-> | Hf].
  { rewrite decide_False by done. by eapply (current_same w). }
  assert (Hgo : forall w' c, now w' = now w -> redis w' = delete key (redis w) -> db w' = db w -> calls w' = <[id := c]> (calls w) ->
    call_ok w' c -> (forall k, k ∈ enables w' -> k ∈ enables w \/ plain k) -> current w').
  { intros w' c Hn Hr Hdb Hcalls Hok Hen'. apply (current_frame w); try done; [by eapply keeps_delete | | | by eapply calls_set].
    - intros k v e. rewrite Hr. intros [_ Hl]%lookup_delete_Some _. by eauto.
    - intros k v e. rewrite Hr. intros [_ Hl]%lookup_delete_Some. by apply (cur_marker w Hcur k v). }
  case_decide; (eapply Hgo; [done | done | done | done | | by auto]); [| done].
  split; [done |]. split; [done |]. unfold marked, Cache_Del. cbn. intros Ht. rewrite lookup_delete_eq. split; [| done].
  destruct (Hc Ht) as (v & u & Hl & Hu). exists v, u. by rewrite lookup_delete_ne by apply Hp.
Qed.

Lemma DB_Put_other key x (rows : gmap string T) k : k <> key -> DB_Put Updates key x rows !! k = rows !! k.
Proof. unfold DB_Put. intros Hk. destruct (rows !! key); by rewrite lookup_insert_ne. Qed.

Lemma db_current w id key x since f : current w -> call_ok w (PutDb key x since) -> f = Lost \/ now w <= since + D ->
  let p := Put_db Updates f key x w in current (p.1 <| calls := <[id := p.2]> (calls p.1) |>).
Proof.
  intros Hcur (Hp & Hs & Hc) Htime p. subst p. unfold Put_db, Put_return, effect.
  assert (Hen : forall k, k ∈ key :: enables w -> k ∈ enables w \/ plain k) by (intros k [-> | ?]%elem_of_cons; auto).
  destruct (decide (f = Lost)) as [-> | Hf]; [by eapply (current_same w) |]. destruct Htime as [? | Htime]; [done |].
  destruct (Hc ltac:(lia)) as [Hm Hnone]. pose proof Hcur as [Ht Hmk Hcalls He]. split; cbn.
  - intros k v e Hl Hpk. destruct (decide (k = key)) as [-> | Hk]; [congruence |]. rewrite DB_Put_other by done. by eapply Ht.
  - done.
  - intros id' c [[<- <-] | [_ Hl]]%lookup_insert_Some; [done |]. specialize (Hcalls id' c Hl).
    destruct c as [k y | k y s | k y s | r | k | k | k row at_ | u r]; try done. destruct Hcalls as (Hpk & Hat & Hrow).
    split; [done |]. split; [done |]. cbn. intros Ha. destruct (decide (k = key)) as [-> | Hk]; [right | rewrite DB_Put_other by done; by apply Hrow].
    destruct Hm as (v & u & Hl' & Hu). exists v, u. split; [done |]. unfold covered in *. lia.
  - intros k Hk. destruct (Hen k Hk); auto.
Qed.

(** ** A command of a reader *)

Lemma covered_pos : D + G + 1 <= covered.
Proof. lia. Qed.

Lemma marked_now w key e : marked w key e -> now w < e -> exists v, live (now w) (redis w) (disableKey key) = Some v.
Proof. intros Hm He. eexists. by eapply marked_live. Qed.

Lemma get_cache_ok w key f : current w -> plain key -> call_ok w (Get_cache Read f key w).
Proof. intros Hcur Hp. unfold Get_cache. repeat case_decide; try done. destruct (Cache_Get _ _ _); [case_decide |]; done. Qed.

Lemma get_db_ok w key f : current w -> plain key -> call_ok w (Get_db Write f key w).
Proof.
  intros Hcur Hp. unfold Get_db, DB_Get. case_decide; [done |]. destruct (db w !! key) as [x |] eqn:Hx; [destruct (Write x) |]; try done; repeat split; try done; try (cbn; lia); auto.
Qed.

Lemma CacheExpireSeconds_ok draw : exists ttl, CacheExpireSeconds opts draw = Ret ttl /\ 0 < ttl <= 2 * cacheExpireSeconds opts.
Proof.
  unfold CacheExpireSeconds. pose proof (sane_cache Hsane) as Hc. destruct (cacheExpireRandomMode opts); cbn [negb]; [| eexists; split; [done | lia]].
  rewrite i64_id by lia. rewrite decide_False by lia. pose proof (Z.mod_pos_bound draw (cacheExpireSeconds opts + 1) ltac:(lia)).
  rewrite i64_id by lia. eexists. split; [done | lia].
Qed.

Lemma fill_current w id key row at_ f draw : current w -> call_ok w (GetFill key row at_) -> f = Lost \/ now w <= at_ + G ->
  exists w' c, Get_fill Write opts f draw key row w = Ret (w', c) /\ current (w' <| calls := <[id := c]> (calls w') |>).
Proof.
  intros Hcur (Hp & Hat & Hrow) Htime. unfold Get_fill. destruct (CacheExpireSeconds_ok draw) as (ttl & -> & Hpos & _). cbn [obind]. do 2 eexists. split; [done |].
  unfold effect. destruct (decide (f = Lost)) as [-> | Hf]; [eapply (current_same w); try done; by auto |]. destruct Htime as [? | Htime]; [done |].
  destruct (text_of Write row) as [v | e] eqn:Hv; [| eapply (current_same w); try done; by auto].
  unfold Cache_PutWhenEnable, LuaCheckEnableAndWriteCache. destruct (live (now w) (redis w) (disableKey key)) as [l |] eqn:Hlive; [eapply (current_same w); try done; by auto |].
  rewrite decide_True by done. destruct (Hrow Htime) as [-> | Hm]; [| destruct (marked_now _ _ _ Hm ltac:(lia)); congruence].
  pose proof Hcur as [Ht Hmk Hcalls He].
  assert (Hmark : forall k e, marked w k e -> marked (w <| redis := <[key := (v, Some (now w + ttl * 1000))]> (redis w) |>) k e).
  { intros k e (v' & u & Hl & Hu). exists v', u. cbn. by rewrite lookup_insert_ne by apply Hp. }
  split; cbn.
  - intros k v' e Hl Hpk. apply lookup_insert_Some in Hl as [[<- [= <- <-]] | [_ Hl]]; [done | by eapply Ht].
  - intros k v' e. rewrite lookup_insert_ne by apply Hp. apply Hmk.
  - intros id' c [[<- <-] | [_ Hl]]%lookup_insert_Some; [done |].
    apply (call_frame w); [| done | by eapply Hcalls]. split; [done | intros k e Hk _; by apply Hmark |].
    intros k e Hpk Hk Hlt Hno. cbn. destruct (decide (k = key)) as [-> | Hk']; [| by rewrite lookup_insert_ne].
    destruct (marked_now _ _ _ Hk Hlt). congruence.
  - done.
Qed.

Lemma enable_current w i key f : current w -> enables w !! i = Some key ->
  current (w <| redis := effect f (Cache_Enable (now w) key (enableDelayMillis opts)) (redis w) |> <| enables := delete i (enables w) |>).
Proof.
  intros Hcur Hi. assert (Hen : forall k, k ∈ delete i (enables w) -> k ∈ enables w \/ plain k).
  { intros k [j Hj]%list_elem_of_lookup. left. destruct (decide (j < i)%nat).
    - rewrite list_lookup_delete_lt in Hj by done. by eapply list_elem_of_lookup_2.
    - rewrite list_lookup_delete_ge in Hj by lia. by eapply list_elem_of_lookup_2. }
  assert (Hsame : forall w', redis w' = redis w -> now w' = now w -> db w' = db w -> calls w' = calls w -> enables w' = delete i (enables w) -> current w').
  { intros w' Hr Hn Hdb Hc He. apply (current_frame w); [done | apply keeps_same; [by rewrite Hn | done] | done | | | rewrite Hc; by left | by rewrite He].
    - intros k v e. rewrite Hr. by eauto.
    - intros k v e. rewrite Hr. apply (cur_marker w Hcur). }
  unfold effect. case_decide; [by apply Hsame |]. unfold Cache_Enable, redis_pexpire.
  destruct (redis w !! disableKey key) as [[v e] |] eqn:Hl; [| by apply Hsame]. destruct (live _ _ _); [| by apply Hsame].
  destruct (milliseconds_small _ (sane_enable Hsane)) as [Hs Hpos]. rewrite decide_False by lia.
  eapply (current_marker w _ key v (now w + enableDelayMillis opts)); try done; [cbn; by rewrite Hs | unfold covered; lia | by left].
Qed.

(** ** Every event *)

Lemma step_current ev w : current w -> timely ev w -> exists w', step Write Read Updates opts ev w = Ret w' /\ current w'.
Proof.
  intros Hcur Hev. pose proof Hcur as [Ht Hmk Hcalls He]. destruct ev as [ms | id k x | id k | id f draw | i f]; cbn [step timely] in *.
  - eexists. split; [done |]. apply (current_frame w); try done; [apply keeps_same; [cbn; lia | done] | by eauto | by left | by left].
  - eexists. split; [done |]. eapply (current_same w); try done. by left.
  - eexists. split; [done |]. eapply (current_same w); try done. by left.
  - destruct (calls w !! id) as [c |] eqn:Hc; [| by eexists]. pose proof (Hcalls id c Hc) as Hok.
    destruct c as [k x | k x s | k x s | r | k | k | k row at_ | u r]; cbn [advance].
    + eexists. split; [done |]. by apply disable_current.
    + eexists. split; [done |]. by apply del_current.
    + eexists. split; [done |]. by eapply db_current.
    + eexists. split; [done |]. eapply (current_same w); try done. by left.
    + eexists. split; [done |]. eapply (current_same w); try done; [by apply get_cache_ok | by left].
    + eexists. split; [done |]. eapply (current_same w); try done; [by apply get_db_ok | by left].
    + destruct (fill_current w id k row at_ f draw Hcur Hok Hev) as (w' & c & -> & Hcur'). eexists. by split.
    + eexists. split; [done |]. eapply (current_same w); try done. by left.
  - destruct (enables w !! i) as [key |] eqn:Hi; [| by eexists]. eexists. split; [done |]. by apply enable_current.
Qed.

(** Every event of a run is in time. *)
Fixpoint all_timely (evs : list (event T)) (w : world T) : Prop :=
  match evs with
  | [] => True
  | ev :: evs => timely ev w /\ match step Write Read Updates opts ev w with Ret w => all_timely evs w | _ => True end
  end.

Lemma run_current evs w : current w -> all_timely evs w -> exists w', run Write Read Updates opts evs w = Ret w' /\ current w'.
Proof.
  revert w. induction evs as [| ev evs IH]; intros w Hcur Hall; [by exists w |]. destruct Hall as [Hev Hall].
  destruct (step_current ev w Hcur Hev) as (w1 & Hs & Hcur1). rewrite Hs in Hall. destruct (IH w1 Hcur1 Hall) as (w' & Hr & Hcur').
  exists w'. split; [| done]. unfold run in *. cbn [ofold]. by rewrite Hs.
Qed.

Lemma start_current : current (start (T := T)).
Proof.
  assert (Hr : forall k, redis (start (T := T)) !! k = None) by (intros k; apply lookup_empty).
  assert (Hc : forall id, calls (start (T := T)) !! id = None) by (intros id; apply lookup_empty).
  split; [intros key v e Hl; by rewrite Hr in Hl | intros key v e Hl; by rewrite Hr in Hl | intros id c Hl; by rewrite Hc in Hl |].
  intros key Hk. by apply not_elem_of_nil in Hk.
Qed.
End Current.

(** What an object promises: it reads what it wrote, and its text is not the one
    that stands for a row that is not there. *)
Class ObjectLaws {T} (Write : T -> result string string) (Read : string -> result string T) : Prop :=
  object_laws x v : Write x = Ok v -> Read v = Ok x /\ v <> NullData.

Definition db_answer {T} (w : world T) (key : string) : result string T :=
  match db w !! key with Some x => Ok x | None => Err ErrorDataNotExist end.

(** C36: while each write stores its row within [D] of setting the marker and each
    read fills the cache within [G] of reading the row, and both together are less
    than the time the marker is there, nothing panics, the cache only holds what
    the database holds, whatever is lost and however calls interleave, and a read
    that is answered from the cache gets the row the database has at that
    moment. *)
Theorem cache_never_lies {T} (Write : T -> result string string) Read (Updates : T -> T -> T) opts D G evs id key f draw :
  ObjectLaws Write Read -> sane opts -> 0 <= D -> 0 <= G -> D + G < covered opts -> all_timely Write Read Updates opts D G evs start ->
  exists w, run Write Read Updates opts evs start = Ret w
    /\ (forall k v e, redis w !! k = Some (v, e) -> plain k -> text_of Write (db w !! k) = Ok v)
    /\ (calls w !! id = Some (GetCache key) -> forall w' r, step Write Read Updates opts (Advance id f draw) w = Ret w' ->
        calls w' !! id = Some (GetDone true r) -> r = db_answer w key).
Proof.
  intros Hlaws Hsane HD HG Hcov Hall. destruct (run_current Write Read Updates opts Hsane D G HD HG Hcov evs start) as (w & Hr & Hcur); [apply start_current | done |].
  exists w. split; [done |]. split; [apply Hcur |]. intros Hc w' r. cbn [step]. rewrite Hc. cbn [advance obind]. intros [= <-]. cbn. rewrite lookup_insert_eq.
  pose proof (cur_calls _ _ _ _ Hcur id _ Hc) as Hp. unfold Get_cache. repeat (case_decide; [done |]).
  destruct (Cache_Get (now w) key (redis w)) as [v |] eqn:Hg; [| done]. unfold Cache_Get, live in Hg.
  assert (Htext : text_of Write (db w !! key) = Ok v).
  { destruct (redis w !! key) as [[v' [e |]] |] eqn:Hl; [case_decide; [| done] | | done]; injection Hg as ->; by eapply (cur_text _ _ _ _ Hcur). }
  unfold db_answer. destruct (db w !! key) as [x |]; cbn in Htext; [| injection Htext as <-; by intros [= <-]].
  destruct (Hlaws x v Htext) as [Hread Hnull]. rewrite decide_False by done. rewrite Hread. by intros [= <-].
Qed.

(** ** Runs of a service of texts *)

Definition text_write (x : string) : result string string := if decide (x = NullData) then Err "reserved"%string else Ok x.
#[export] Instance text_laws : ObjectLaws text_write Ok.
Proof. intros x v. unfold text_write. case_decide; [done |]. by intros [= <-]. Qed.
Definition text_run : list (event string) -> world string -> outcome (world string) := run text_write Ok (fun _ x => x) (NewService []).

Definition put (id : Z) (key x : string) : list (event string) := [CallPut id key x; Advance id Fine 0; Advance id Fine 0; Advance id Fine 0].
Definition get (id : Z) (key : string) : list (event string) := [CallGet id key; Advance id Fine 0; Advance id Fine 0; Advance id Fine 0].

Definition short_run : list (event string) :=
  put 1 "k" "old" ++ [RunEnable 0 Fine; Elapse 1000] ++ get 2 "k" ++ put 3 "k" "new" ++ get 4 "k" ++ [Elapse 10000] ++ get 5 "k" ++ [CallGet 6 "k"].

Lemma cache_never_lies_witness : exists w, run text_write Ok (fun _ x => x) (NewService []) short_run start = Ret w
    /\ (forall k v e, redis w !! k = Some (v, e) -> plain k -> text_of text_write (db w !! k) = Ok v)
    /\ (calls w !! 6 = Some (GetCache "k"%string) -> forall w' r, step text_write Ok (fun _ x => x) (NewService []) (Advance 6 Fine 0) w = Ret w' ->
        calls w' !! 6 = Some (GetDone true r) -> r = db_answer w "k"%string).
Proof.
  apply (cache_never_lies text_write Ok (fun _ x => x) (NewService []) 400 500 short_run 6 "k" Fine 0); [apply _ | split; vm_compute; split; (done || congruence) | done | done | done |].
  vm_compute. repeat split; try done; try (intros k; destruct k; done); right; done.
Defined.
Lemma short_run_answers : exists w, text_run (short_run ++ [Advance 6 Fine 0]) start = Ret w /\ calls w !! 2 = Some (GetDone false (Ok "old"%string))
  /\ calls w !! 4 = Some (GetDone false (Ok "new"%string)) /\ calls w !! 6 = Some (GetDone true (Ok "new"%string)).
Proof. eexists. split; [vm_compute; reflexivity |]. repeat split; vm_compute; reflexivity. Qed.

(** A reader that takes longer than the delay between its read and its fill puts an
    old row in the cache. *)
Lemma slow_reader_caches_old_row : exists w,
  text_run (put 1 "k" "old" ++ [RunEnable 0 Fine; Elapse 1000; CallGet 2 "k"; Advance 2 Fine 0; Advance 2 Fine 0] ++ put 3 "k" "new"
    ++ [RunEnable 0 Fine; Elapse 1000; Advance 2 Fine 0; CallGet 4 "k"; Advance 4 Fine 0]) start = Ret w
  /\ db w !! "k"%string = Some "new"%string /\ calls w !! 4 = Some (GetDone true (Ok "old"%string)).
Proof. eexists. split; [vm_compute; reflexivity |]. by vm_compute. Qed.

(** Two writers share the marker: the delayed enabling of the first ends the
    protection of the second, a second later and long before the marker would have
    run out, and a reader that takes no time caches the row that is replaced. *)
Lemma writers_share_marker : exists w,
  text_run (put 1 "k" "old" ++ [CallPut 2 "k" "new"; Advance 2 Fine 0; Advance 2 Fine 0; RunEnable 0 Fine; Elapse 1000] ++ get 3 "k"
    ++ [Advance 2 Fine 0; CallGet 4 "k"; Advance 4 Fine 0]) start = Ret w
  /\ now w < 1000 * disableExpireSeconds (NewService []) /\ db w !! "k"%string = Some "new"%string /\ calls w !! 4 = Some (GetDone true (Ok "old"%string)).
Proof. eexists. split; [vm_compute; reflexivity |]. by vm_compute. Qed.
