(* ===== verification/RedisLock.v ===== *)
(** * RedisLock
    The lease lock over Redis ([apps/redis_lock]): [lock.go] with its scripts and
    its watchdog, [option.go], and the lock over several nodes of [red_lock.go].
    Objects in any number of processes act on the nodes in any order while time
    passes; a command may be lost or its answer be lost. *)
From S2P Require Import Prelude GoStrings GoNumbers RedisStore.

(** ** [option.go] and [utils/os.go] *)

Record LockOptions := mkLockOptions {
  isBlock : bool;
  blockWaitingSeconds : Z;
  expireSeconds : Z;
  watchDogMode : bool;
}.
#[export] Instance eta_lock_options : Eta LockOptions := fun o =>
  mkLockOptions (isBlock o) (blockWaitingSeconds o) (expireSeconds o) (watchDogMode o).

Definition WithBlock (o : LockOptions) : LockOptions := o <| isBlock := true |>.
Definition WithBlockWaitingSeconds (n : Z) (o : LockOptions) : LockOptions := o <| blockWaitingSeconds := n |>.
Definition WithExpireSeconds (n : Z) (o : LockOptions) : LockOptions := o <| expireSeconds := n |>.

Definition DefaultLockExpireSeconds : Z := 30.
Definition WatchDogWorkStepSeconds : Z := 10.

Definition repairLock (o : LockOptions) : LockOptions :=
  let o := if decide (isBlock o = true /\ blockWaitingSeconds o <= 0) then o <| blockWaitingSeconds := 5 |> else o in
  if decide (0 < expireSeconds o) then o else o <| expireSeconds := DefaultLockExpireSeconds |> <| watchDogMode := true |>.

Definition GetProcessAndGoroutineIDStr (pid : Z) (goroutine : string) : string := Itoa pid ++ "_" ++ goroutine.

(** ** The commands of a lock ([redis.go], [lua.go]) *)

Definition RedisLockKeyPrefix : string := "REDIS_LOCK_PREFIX_".
Definition getLockKey (key : string) : string := RedisLockKeyPrefix ++ key.

Definition SetNEX (now : Z) (key value : string) (expireSeconds : Z) (s : store) : store * result string Z :=
  if decide (key = ""%string \/ value = ""%string) then (s, Err "redis SET keyNX or value can't be empty"%string) else
  if decide (expireSeconds <= 0) then (s, Err "redis SET NX expireSeconds must be positive"%string) else
  redis_setnx now key value (seconds expireSeconds) s.

Definition LuaCheckAndDelete (now : Z) (lockerKey targetToken : string) (s : store) : store * Z :=
  if decide (live now s lockerKey = Some targetToken) then (delete lockerKey s, 1) else (s, 0).
Definition LuaCheckAndExpire (now : Z) (lockerKey targetToken : string) (duration : Z) (s : store) : store * Z :=
  if decide (live now s lockerKey = Some targetToken) then (redis_expire now lockerKey duration s, 1) else (s, 0).

(** A command under a fault: what becomes of the store, and the answer. *)
Definition send {A} (f : fault) (cmd : store -> store * A) (s : store) : store * option A :=
  match f with
  | Fine => ((cmd s).1, Some (cmd s).2)
  | Lost => (s, None)
  | Unanswered => ((cmd s).1, None)
  end.

Inductive lock_error := AcquiredByOthers | LockLost | NotOwner | WaitTimeout | Cancelled | CommandFailed (e : string).
Definition IsRetryableErr (e : lock_error) : bool := match e with AcquiredByOthers | WaitTimeout => true | _ => false end.

Definition tryLock (now : Z) (key token : string) (expireSeconds : Z) (f : fault) (s : store) : store * result lock_error unit :=
  match send f (SetNEX now (getLockKey key) token expireSeconds) s with
  | (s, None) => (s, Err (CommandFailed io_error))
  | (s, Some (Err e)) => (s, Err (CommandFailed e))
  | (s, Some (Ok reply)) => (s, if decide (reply = 1) then Ok tt else Err AcquiredByOthers)
  end.

Definition DelayExpire (now : Z) (key token : string) (expireSeconds : Z) (f : fault) (s : store) : store * result lock_error unit :=
  match send f (LuaCheckAndExpire now (getLockKey key) token expireSeconds) s with
  | (s, None) => (s, Err (CommandFailed io_error))
  | (s, Some reply) => (s, if decide (reply = 1) then Ok tt else Err LockLost)
  end.

Definition Unlock_command (now : Z) (key token : string) (f : fault) (s : store) : store * result lock_error unit :=
  match send f (LuaCheckAndDelete now (getLockKey key) token) s with
  | (s, None) => (s, Err (CommandFailed io_error))
  | (s, Some reply) => (s, if decide (reply = 1) then Ok tt else Err NotOwner)
  end.

(** ** Lock objects *)

(** [lWaiting]: until when [blockingLock] waits. [lDog]: when the watchdog that
    runs will renew next. [lReply]: what the last method returned. [lLease], until
    when the owner may rely on the lock, is kept for the theorems only. *)
Record RedisLock := mkLock {
  lOpts : LockOptions;
  lNode : Z;
  lKey : string;
  lToken : string;
  lWaiting : option Z;
  lDog : option Z;
  lReply : option (result lock_error unit);
  lLease : option Z;
}.
#[export] Instance eta_lock : Eta RedisLock := fun l =>
  mkLock (lOpts l) (lNode l) (lKey l) (lToken l) (lWaiting l) (lDog l) (lReply l) (lLease l).

(** The token is an argument: the code takes that of [GetProcessAndGoroutineIDStr],
    which objects made by one goroutine share, and processes of the same number in
    two containers. That the objects of a lock have distinct tokens is a hypothesis
    of the theorems ([fresh_tokens]); [token_of_another_process] is what happens
    without it. *)
Definition NewRedisLock (node : Z) (key token : string) (opts : list (LockOptions -> LockOptions)) : RedisLock :=
  mkLock (repairLock (foldl (fun o f => f o) (mkLockOptions false 0 0 false) opts)) node key token None None None None.

(** [Lock] has succeeded: the watchdog starts. *)
Definition watchDog (now : Z) (l : RedisLock) : RedisLock :=
  if watchDogMode (lOpts l) then l <| lDog := Some (now + WatchDogWorkStepSeconds * 1000) |> else l.
Definition Lock_ok (now : Z) (l : RedisLock) : RedisLock :=
  watchDog now (l <| lWaiting := None |> <| lReply := Some (Ok tt) |> <| lLease := Some (now + expireSeconds (lOpts l) * 1000) |>).
Definition Lock_fails (e : lock_error) (l : RedisLock) : RedisLock := l <| lWaiting := None |> <| lReply := Some (Err e) |>.

(** The first attempt of [Lock]. *)
Definition Lock (now : Z) (f : fault) (l : RedisLock) (s : store) : store * RedisLock :=
  let p := tryLock now (lKey l) (lToken l) (expireSeconds (lOpts l)) f s in
  (p.1, match p.2 with
        | Ok _ => Lock_ok now l
        | Err e =>
            if negb (isBlock (lOpts l)) then Lock_fails e l else
            if negb (IsRetryableErr e) then Lock_fails e l else
            l <| lWaiting := Some (now + blockWaitingSeconds (lOpts l) * 1000) |> <| lReply := None |>
        end).

(** A tick of [blockingLock]. The context and the time-out are looked at first;
    which of them is seen when both are there is [first]. *)
Definition blockingLock_tick (now : Z) (done first : bool) (f : fault) (l : RedisLock) (s : store) : store * RedisLock :=
  match lWaiting l with
  | None => (s, l)
  | Some deadline =>
      let late := bool_decide (deadline <= now) in
      if done && (first || negb late) then (s, Lock_fails Cancelled l) else
      if late then (s, Lock_fails WaitTimeout l) else
      let p := tryLock now (lKey l) (lToken l) (expireSeconds (lOpts l)) f s in
      (p.1, match p.2 with
            | Ok _ => Lock_ok now l
            | Err e => if negb (IsRetryableErr e) then Lock_fails e l else l
            end)
  end.

(** What the owner may rely on after a renewal it sent: no more than what it asked
    for, unless nothing arrived. *)
Definition renewed (now secs : Z) (f : fault) (l : RedisLock) : option Z :=
  match f, lLease l with
  | Lost, u => u
  | Fine, _ => Some (now + secs * 1000)
  | Unanswered, Some u => Some (Z.min u (now + secs * 1000))
  | Unanswered, None => None
  end.

(** [DelayExpire], called by the owner. *)
Definition Lock_delay (now secs : Z) (f : fault) (l : RedisLock) (s : store) : store * RedisLock :=
  let p := DelayExpire now (lKey l) (lToken l) secs f s in
  (p.1, l <| lReply := Some p.2 |> <| lLease := match p.2 with Err LockLost => None | _ => renewed now secs f l end |>).

(** A ticker keeps its schedule, and a tick that nobody takes before the next is
    dropped: what follows a tick taken at [now] is the first one after that. *)
Definition after_tick (now due : Z) : Z :=
  let period := WatchDogWorkStepSeconds * 1000 in due + period * (1 + (now - due) / period).

(** A tick of [runWatchDog]. *)
Definition runWatchDog_tick (now : Z) (f : fault) (l : RedisLock) (s : store) : store * RedisLock :=
  match lDog l with
  | None => (s, l)
  | Some due =>
      if decide (now < due) then (s, l) else
      let secs := WatchDogWorkStepSeconds + 5 in
      let p := DelayExpire now (lKey l) (lToken l) secs f s in
      (p.1, match p.2 with
            | Err LockLost => l <| lDog := None |> <| lLease := None |>
            | _ => l <| lDog := Some (after_tick now due) |> <| lLease := renewed now secs f l |>
            end)
  end.

(** [Unlock] stops the watchdog whatever the answer. *)
Definition Unlock (now : Z) (f : fault) (l : RedisLock) (s : store) : store * RedisLock :=
  let p := Unlock_command now (lKey l) (lToken l) f s in
  (p.1, l <| lReply := Some p.2 |> <| lDog := None |> <| lLease := None |>).

(** ** Processes and nodes *)

Inductive lock_event :=
| LLock (f : fault)
| LPoll (done first : bool) (f : fault)
| LDelay (secs : Z) (f : fault)
| LDog (f : fault)
| LUnlock (f : fault)
| LCancelDog.

Definition on_lock (now : Z) (ev : lock_event) (l : RedisLock) (s : store) : store * RedisLock :=
  match ev with
  | LLock f => Lock now f l s
  | LPoll done first f => blockingLock_tick now done first f l s
  | LDelay secs f => Lock_delay now secs f l s
  | LDog f => runWatchDog_tick now f l s
  | LUnlock f => Unlock now f l s
  | LCancelDog => (s, l <| lDog := None |>)
  end.

Record system := mkSystem { now : Z; nodes : Z -> store; locks : gmap Z RedisLock }.
#[export] Instance eta_system : Eta system := fun y => mkSystem (now y) (nodes y) (locks y).

Definition set_node (n : Z) (s : store) (ns : Z -> store) : Z -> store := fun m => if decide (m = n) then s else ns m.

Definition act (id : Z) (ev : lock_event) (y : system) : system :=
  match locks y !! id with
  | None => y
  | Some l =>
      let p := on_lock (now y) ev l (nodes y (lNode l)) in
      y <| nodes := set_node (lNode l) p.1 (nodes y) |> <| locks := <[id := p.2]> (locks y) |>
  end.

Inductive event := Elapse (millis : Z) | Act (id : Z) (ev : lock_event).
Definition step (ev : event) (y : system) : system :=
  match ev with
  | Elapse millis => y <| now := now y + millis |>
  | Act id ev => act id ev y
  end.
Definition run (evs : list event) (y : system) : system := foldl (fun y ev => step ev y) y evs.
Definition start (ls : gmap Z RedisLock) : system := mkSystem 0 (fun _ => ∅) ls.

(** ** [red_lock.go] *)

Record RedLockOptions := mkRedOptions { singleNodesTimeout : Z; expireDuration : Z }.
#[export] Instance eta_red_options : Eta RedLockOptions := fun o => mkRedOptions (singleNodesTimeout o) (expireDuration o).
Definition DefaultSingleLockTimeout : Z := 50 * 10 ^ 6.
Definition WithSingleNodesTimeout (d : Z) (o : RedLockOptions) : RedLockOptions := o <| singleNodesTimeout := d |>.
Definition WithRedLockExpireDuration (d : Z) (o : RedLockOptions) : RedLockOptions := o <| expireDuration := d |>.
Definition repairRedLock (o : RedLockOptions) : RedLockOptions :=
  if decide (singleNodesTimeout o <= 0) then o <| singleNodesTimeout := DefaultSingleLockTimeout |> else o.

(** The locks of the nodes 0, 1, ... *)
Definition NewRedLock (key token : string) (confs : nat) (opts : list (RedLockOptions -> RedLockOptions)) : result string (list RedisLock) :=
  if decide (confs < 3)%nat then Err "can not use redLock less than 3 nodes"%string else
  let o := repairRedLock (foldl (fun o f => f o) (mkRedOptions 0 0) opts) in
  if decide (0 < expireDuration o /\ expireDuration o < i64 (i64 (Z.of_nat confs * singleNodesTimeout o) * 10))
  then Err "expire thresholds of single node is too long"%string else
  Ok ((fun i => NewRedisLock (Z.of_nat i) key token [WithExpireSeconds (Z.quot (expireDuration o) (10 ^ 9))]) <$> seq 0 confs).

(** [RedLock.Lock] goes through its locks, here their names, one after the other;
    [slow] tells whether the answer took more than the time allowed. Between two
    of them anything else may happen, so that it is a machine of its own. *)
Inductive red_state :=
| RedIdle
| RedLocking (rest acquired : list Z)
| RedReleasing (rest : list Z)
| RedHeld (acquired : list Z)
| RedFailed.

Definition majority (ids : list Z) : nat := (Nat.div2 (length ids) + 1)%nat.

Definition RedLock_step (ids : list Z) (f : fault) (slow : bool) (st : red_state) (y : system) : system * red_state :=
  match st with
  | RedLocking (id :: rest) acquired =>
      let y := act id (LLock f) y in
      let ok := match lReply <$> locks y !! id with Some (Some (Ok _)) => true | _ => false end in
      (y, RedLocking rest (if ok && negb slow then acquired ++ [id] else acquired))
  | RedLocking [] acquired => if decide (length acquired < majority ids)%nat then (y, RedReleasing acquired) else (y, RedHeld acquired)
  | RedReleasing (id :: rest) => (act id (LUnlock f) y, RedReleasing rest)
  | RedReleasing [] => (y, RedFailed)
  | _ => (y, st)
  end.

(** [RedLock.Unlock] goes to every node. *)
Definition RedLock_Unlock (ids : list Z) (f : fault) (y : system) : system := foldl (fun y id => act id (LUnlock f) y) y ids.

(** ** A lease is exclusive *)

(** What the owner relies on is what its node has. *)
Definition leased (now : Z) (l : RedisLock) (s : store) : Prop :=
  forall u, lLease l = Some u -> now < u -> exists e, s !! getLockKey (lKey l) = Some (lToken l, e) /\ forall t, e = Some t -> u <= t.

Definition sane_lock (l : RedisLock) : Prop := 0 < expireSeconds (lOpts l) < 2 ^ 33.

(** Which lock of which owner an object is. *)
Definition same_name (l l' : RedisLock) : Prop := lOpts l' = lOpts l /\ lNode l' = lNode l /\ lKey l' = lKey l /\ lToken l' = lToken l.

Lemma getLockKey_inj k k' : getLockKey k = getLockKey k' -> k = k'.
Proof. apply append_inj_l. Qed.

Lemma leased_live now l s u : leased now l s -> lLease l = Some u -> now < u -> live now s (getLockKey (lKey l)) = Some (lToken l).
Proof. intros Hl Hu Hn. destruct (Hl u Hu Hn) as (e & He & Hb). unfold live. rewrite He. destruct e as [t |]; [| done]. by rewrite decide_True by (specialize (Hb t eq_refl); lia). Qed.

(** An entry of somebody else stays as it is. *)
Lemma expire_other now k tok secs s k' v e : s !! k' = Some (v, e) -> (k' = k -> v <> tok) -> (LuaCheckAndExpire now k tok secs s).1 !! k' = Some (v, e).
Proof.
  intros Hl Hne. unfold LuaCheckAndExpire. case_decide as Hlive; [| done]. cbn. unfold redis_expire. unfold live in Hlive.
  destruct (s !! k) as [[v0 e0] |] eqn:Hk; [| done]. assert (v0 = tok) by (destruct e0; [case_decide |]; congruence). subst v0.
  assert (k' <> k) by (intros ->; rewrite Hk in Hl; injection Hl as -> _; by apply Hne).
  destruct (live now s k); [| done]. case_decide; [by rewrite lookup_delete_ne | by rewrite lookup_insert_ne].
Qed.
Lemma delete_other now k tok s k' v e : s !! k' = Some (v, e) -> (k' = k -> v <> tok) -> (LuaCheckAndDelete now k tok s).1 !! k' = Some (v, e).
Proof.
  intros Hl Hne. unfold LuaCheckAndDelete. case_decide as Hlive; [| done]. cbn. unfold live in Hlive.
  destruct (s !! k) as [[v0 e0] |] eqn:Hk; [| done]. assert (v0 = tok) by (destruct e0; [case_decide |]; congruence). subst v0.
  rewrite lookup_delete_ne; [done |]. intros ->. rewrite Hk in Hl. injection Hl as -> _. by apply Hne.
Qed.
Lemma setnx_other now k tok secs s k' v e : s !! k' = Some (v, e) -> (k' = k -> live now s k <> None) -> (SetNEX now k tok secs s).1 !! k' = Some (v, e).
Proof.
  intros Hl Hne. unfold SetNEX. repeat (case_decide; [done |]). unfold redis_setnx. case_decide; [done |].
  destruct (live now s k) eqn:Hlive; [done |]. cbn. unfold redis_set. rewrite lookup_insert_ne; [done |]. intros ->. by apply Hne.
Qed.

Lemma send_keeps {A} f (cmd : store -> store * A) s k v e : (cmd s).1 !! k = Some (v, e) -> s !! k = Some (v, e) -> (send f cmd s).1 !! k = Some (v, e).
Proof. by destruct f. Qed.

(** What one object does leaves an entry of somebody else. *)
Lemma on_lock_keeps now ev l s k v e : live now s k = Some v -> s !! k = Some (v, e) -> (k = getLockKey (lKey l) -> v <> lToken l) ->
  (on_lock now ev l s).1 !! k = Some (v, e).
Proof.
  intros Hlive He Hne.
  assert (Htry : forall f, (tryLock now (lKey l) (lToken l) (expireSeconds (lOpts l)) f s).1 !! k = Some (v, e)).
  { intros f. assert (Hs := send_keeps f (SetNEX now (getLockKey (lKey l)) (lToken l) (expireSeconds (lOpts l))) s _ _ _
      (setnx_other now (getLockKey (lKey l)) (lToken l) (expireSeconds (lOpts l)) s _ _ _ He ltac:(intros <-; congruence)) He).
    unfold tryLock. by destruct (send f _ s) as [s' [[r | r] |]]. }
  assert (Hexp : forall secs f, (DelayExpire now (lKey l) (lToken l) secs f s).1 !! k = Some (v, e)).
  { intros secs f. assert (Hs := send_keeps f (LuaCheckAndExpire now (getLockKey (lKey l)) (lToken l) secs) s _ _ _ (expire_other now _ _ secs s _ _ _ He Hne) He).
    unfold DelayExpire. by destruct (send f _ s) as [s' [r |]]. }
  destruct ev as [f | d fi f | secs f | f | f |]; cbn [on_lock].
  - apply Htry.
  - unfold blockingLock_tick. destruct (lWaiting l); [| done]. destruct (d && _); [done |]. destruct (bool_decide _); [done |]. apply Htry.
  - apply Hexp.
  - unfold runWatchDog_tick. destruct (lDog l); [| done]. case_decide; [done |]. apply Hexp.
  - cbn. assert (Hs := send_keeps f (LuaCheckAndDelete now (getLockKey (lKey l)) (lToken l)) s _ _ _ (delete_other now _ _ s _ _ _ He Hne) He).
    unfold Unlock_command. by destruct (send f _ s) as [s' [r |]].
  - done.
Qed.
Lemma act_other now ev l s l' : leased now l' s -> (lKey l' = lKey l -> lToken l' <> lToken l) -> leased now l' (on_lock now ev l s).1.
Proof.
  intros Hl Hne u Hu Hn. pose proof (leased_live _ _ _ _ Hl Hu Hn) as Hlive. destruct (Hl u Hu Hn) as (e & He & Hb). exists e. split; [| done].
  apply on_lock_keeps; [done | done |]. intros H. by apply Hne, getLockKey_inj.
Qed.

Lemma expire_answer now k tok secs s : (LuaCheckAndExpire now k tok secs s).2 = (if decide (live now s k = Some tok) then 1 else 0).
Proof. unfold LuaCheckAndExpire. by case_decide. Qed.

(** The methods that return to their caller. *)
Definition answers (ev : lock_event) : Prop := match ev with LLock _ | LDelay _ _ | LUnlock _ => True | _ => False end.

(** Nobody is told of a success on a key that is another's. *)
Lemma key_of_another now ev l s v : live now s (getLockKey (lKey l)) = Some v -> v <> lToken l -> lReply (on_lock now ev l s).2 = Some (Ok tt) ->
  ~ answers ev /\ lReply l = Some (Ok tt).
Proof.
  intros Hlive Hne. assert (Hno : live now s (getLockKey (lKey l)) <> Some (lToken l)) by (rewrite Hlive; congruence).
  assert (Htry : forall f, (tryLock now (lKey l) (lToken l) (expireSeconds (lOpts l)) f s).2 <> Ok tt).
  { intros f. unfold tryLock, send. destruct f; [| done | done]. unfold SetNEX. repeat case_decide; try done.
    unfold redis_setnx in *. case_decide; [done |]. by rewrite Hlive in *. }
  assert (Hexp : forall secs f, (DelayExpire now (lKey l) (lToken l) secs f s).2 <> Ok tt).
  { intros secs f. unfold DelayExpire, send. destruct f; [| done | done]. by rewrite expire_answer, (decide_False _ _ Hno). }
  destruct ev as [f | d fi f | secs f | f | f |]; cbn [on_lock answers].
  - unfold Lock. cbn [snd]. specialize (Htry f). destruct (tryLock _ _ _ _ _ _).2 as [[] |]; [done |]. by repeat destruct (negb _).
  - unfold blockingLock_tick. destruct (lWaiting l); [| by split; auto]. destruct (d && _); [done |]. destruct (bool_decide _); [done |]. cbn [snd].
    specialize (Htry f). destruct (tryLock _ _ _ _ _ _).2 as [[] |]; [done |]. destruct (negb _); [done | by auto].
  - cbn. intros [= H]. by destruct (Hexp secs f).
  - unfold runWatchDog_tick. destruct (lDog l); [| by auto]. case_decide; [by auto |]. cbn [snd]. destruct (DelayExpire _ _ _ _ _ _).2 as [| []]; by auto.
  - cbn. intros [= H]. revert H. unfold Unlock_command, send. destruct f; [| done | done]. unfold LuaCheckAndDelete. by rewrite (decide_False _ _ Hno).
  - by auto.
Qed.

Lemma watchDog_fields now l : let l' := watchDog now l in same_name l l' /\ lLease l' = lLease l /\ lWaiting l' = lWaiting l /\ lReply l' = lReply l.
Proof. unfold watchDog. by destruct (watchDogMode _). Qed.

Lemma act_name now ev l s : same_name l (on_lock now ev l s).2.
Proof.
  assert (Hok : same_name l (Lock_ok now l)) by (unfold Lock_ok, watchDog; by destruct (watchDogMode _)).
  destruct ev as [f | d fi f | secs f | f | f |]; cbn [on_lock]; try done.
  - unfold Lock. cbn [snd]. destruct (tryLock _ _ _ _ _ _).2; [done |]. by repeat destruct (negb _).
  - unfold blockingLock_tick. destruct (lWaiting l); [| done]. destruct (d && _); [done |]. destruct (bool_decide _); [done |]. cbn [snd].
    destruct (tryLock _ _ _ _ _ _).2; [done |]. by destruct (negb _).
  - unfold runWatchDog_tick. destruct (lDog l); [| done]. case_decide; [done |]. cbn [snd]. by destruct (DelayExpire _ _ _ _ _ _).2 as [| []].
Qed.

(** A lock that was taken is in the store. *)
Lemma tryLock_took now l f s s' : sane_lock l -> tryLock now (lKey l) (lToken l) (expireSeconds (lOpts l)) f s = (s', Ok tt) ->
  live now s (getLockKey (lKey l)) = None /\ s' !! getLockKey (lKey l) = Some (lToken l, Some (now + expireSeconds (lOpts l) * 1000)).
Proof.
  intros Hl. destruct (seconds_small _ Hl) as [Hs Hpos]. unfold tryLock, send. destruct f; try done.
  unfold SetNEX. repeat case_decide; try done. unfold redis_setnx. rewrite decide_False by lia. destruct (live now s _); cbn; [done |].
  rewrite decide_True by done. intros [= <-]. split; [done |]. unfold redis_set. rewrite lookup_insert_eq, decide_True, Hs by done. do 3 f_equal. lia.
Qed.

Lemma tryLock_err_kept now l f s s' r k v e : tryLock now (lKey l) (lToken l) (expireSeconds (lOpts l)) f s = (s', r) -> live now s k = Some v -> s !! k = Some (v, e) -> s' !! k = Some (v, e).
Proof.
  intros Ht Hlive He. assert (Hs := send_keeps f (SetNEX now (getLockKey (lKey l)) (lToken l) (expireSeconds (lOpts l))) s _ _ _
      (setnx_other now (getLockKey (lKey l)) (lToken l) (expireSeconds (lOpts l)) s _ _ _ He ltac:(intros <-; congruence)) He).
  unfold tryLock in Ht. destruct (send f _ s) as [s1 [[x | x] |]]; injection Ht as <- _; done.
Qed.

Lemma expire_own now k tok secs s u e : s !! k = Some (tok, e) -> live now s k = Some tok -> 0 < secs -> u = now + secs * 1000 ->
  LuaCheckAndExpire now k tok secs s = (<[k := (tok, Some u)]> s, 1).
Proof. intros He Hl Hs ->. unfold LuaCheckAndExpire. rewrite decide_True by done. unfold redis_expire. by rewrite He, Hl, decide_False by lia. Qed.

(** The answer of a renewal, and what the store then has. *)
Lemma delay_leased now l secs f s : leased now l s ->
  let p := DelayExpire now (lKey l) (lToken l) secs f s in
  forall u, match p.2 with Err LockLost => None | _ => renewed now secs f l end = Some u -> now < u ->
  exists e, p.1 !! getLockKey (lKey l) = Some (lToken l, e) /\ forall t, e = Some t -> u <= t.
Proof.
  intros Hl p u. subst p. set (k := getLockKey (lKey l)).
  assert (Hrun : forall v e, s !! k = Some (v, e) -> live now s k = Some (lToken l) -> 0 < secs ->
    (LuaCheckAndExpire now k (lToken l) secs s).1 !! k = Some (lToken l, Some (now + secs * 1000))).
  { intros v e He Hlive Hs. assert (v = lToken l) as -> by (unfold live in Hlive; rewrite He in Hlive; destruct e; [case_decide |]; congruence).
    rewrite (expire_own now k (lToken l) secs s (now + secs * 1000) e He Hlive Hs eq_refl). cbn. apply lookup_insert_eq. }
  assert (Hsome : live now s k = Some (lToken l) -> exists v e, s !! k = Some (v, e)) by (unfold live; destruct (s !! k) as [[v e] |]; eauto; done).
  unfold DelayExpire. fold k. destruct f; cbn [send].
  - rewrite expire_answer. destruct (decide (live now s k = Some (lToken l))) as [Hlive |]; cbn; [| done]. intros [= <-] Hn.
    destruct (Hsome Hlive) as (v & e & He). exists (Some (now + secs * 1000)). split; [apply (Hrun v e He Hlive); lia | by intros t [= <-]].
  - cbn. intros Hu Hn. by apply Hl.
  - cbn. destruct (lLease l) as [u0 |] eqn:Hu0; [| done]. intros [= <-] Hn. pose proof (leased_live _ _ _ _ Hl Hu0 ltac:(lia)) as Hlive.
    destruct (Hsome Hlive) as (v & e & He). exists (Some (now + secs * 1000)). split; [apply (Hrun v e He Hlive); lia | intros t [= <-]; lia].
Qed.

Lemma try_leased now l f s l' : sane_lock l -> leased now l s -> lKey l' = lKey l -> lToken l' = lToken l ->
  let p := tryLock now (lKey l) (lToken l) (expireSeconds (lOpts l)) f s in
  lLease l' = match p.2 with Ok _ => Some (now + expireSeconds (lOpts l) * 1000) | Err _ => lLease l end -> leased now l' p.1.
Proof.
  intros Hs Hl Hk Ht p Hle u Hu Hn. rewrite Hle in Hu. unfold p in *. destruct (tryLock _ _ _ _ _ _) as [s' [[] | e]] eqn:Hp; cbn in *; rewrite Hk, Ht.
  - injection Hu as <-. destruct (tryLock_took _ _ _ _ _ Hs Hp) as [_ Ht']. eexists. split; [done |]. by intros t [= <-].
  - pose proof (leased_live _ _ _ _ Hl Hu Hn) as Hlive. destruct (Hl u Hu Hn) as (x & Hx & Hb). exists x. split; [| done]. by eapply tryLock_err_kept.
Qed.

Lemma Lock_ok_lease now l : lLease (Lock_ok now l) = Some (now + expireSeconds (lOpts l) * 1000).
Proof. unfold Lock_ok. by destruct (watchDog_fields now (l <| lWaiting := None |> <| lReply := Some (Ok tt) |> <| lLease := Some (now + expireSeconds (lOpts l) * 1000) |>)) as (_ & -> & _). Qed.

Lemma act_own now ev l s : sane_lock l -> leased now l s -> leased now (on_lock now ev l s).2 (on_lock now ev l s).1.
Proof.
  intros Hs Hl. destruct (act_name now ev l s) as (_ & _ & Hk & Ht). destruct ev as [f | d fi f | secs f | f | f |]; cbn [on_lock] in *.
  - apply (try_leased now l f s); try done. unfold Lock. cbn [snd fst]. destruct (tryLock _ _ _ _ _ _).2; [apply Lock_ok_lease |]. by repeat destruct (negb _).
  - revert Hk Ht. unfold blockingLock_tick. destruct (lWaiting l); [| done]. destruct (d && _); [done |]. destruct (bool_decide _); [done |]. cbn [fst snd].
    intros Hk Ht. apply (try_leased now l f s); try done. destruct (tryLock _ _ _ _ _ _).2; [apply Lock_ok_lease |]. by destruct (negb _).
  - intros u Hu Hn. by apply (delay_leased now l secs f s Hl u).
  - revert Hk Ht. unfold runWatchDog_tick. destruct (lDog l); [| done]. case_decide; [done |]. cbn [fst snd]. intros Hk Ht u Hu Hn. rewrite Hk, Ht.
    apply (delay_leased now l _ f s Hl u); [| done]. by destruct (DelayExpire _ _ _ _ _ _).2 as [| []].
  - done.
  - done.
Qed.

(** ** Every run *)

Record exclusive (y : system) : Prop := {
  ex_sane id l : locks y !! id = Some l -> sane_lock l;
  ex_tokens id id' l l' : locks y !! id = Some l -> locks y !! id' = Some l' -> id <> id' -> lNode l = lNode l' -> lKey l = lKey l' -> lToken l <> lToken l';
  ex_leases id l : locks y !! id = Some l -> leased (now y) l (nodes y (lNode l))
}.

Lemma leased_later now now' l s : leased now l s -> now <= now' -> leased now' l s.
Proof. intros Hl Hn u Hu Hlt. apply Hl; [done | lia]. Qed.

Lemma act_exclusive id ev y : exclusive y -> exclusive (act id ev y).
Proof.
  intros [Hs Ht Hl]. unfold act. destruct (locks y !! id) as [l |] eqn:Hid; [| done].
  pose proof (act_name (now y) ev l (nodes y (lNode l))) as Hname. pose proof (act_own (now y) ev l (nodes y (lNode l)) (Hs _ _ Hid) (Hl _ _ Hid)) as Hown.
  assert (Hother : forall id' l', locks y !! id' = Some l' -> id' <> id -> lNode l' = lNode l -> leased (now y) l' (on_lock (now y) ev l (nodes y (lNode l))).1).
  { intros id' l' Hl' Hne Hn. apply act_other; [rewrite <- Hn; by apply (Hl id') |]. intros Hk. by apply (Ht id' id l' l). }
  destruct (on_lock (now y) ev l (nodes y (lNode l))) as [s1 l1]. cbn [fst snd] in *. destruct Hname as (Ho & Hn & Hk & Htok).
  assert (Hview : forall id' l', <[id := l1]> (locks y) !! id' = Some l' -> exists l0, locks y !! id' = Some l0 /\ same_name l0 l' /\ (id' = id -> l' = l1)).
  { intros id' l' [[<- <-] | [Hne Hl']]%lookup_insert_Some; [by exists l | exists l'; split; [done |]; split; [done |]; congruence]. }
  split; cbn.
  - intros id' l' (l0 & Hl0 & (Ho' & _) & _)%Hview. unfold sane_lock. rewrite Ho'. by apply (Hs id').
  - intros i j l' l'' (l0 & Hl0 & (_ & Hn0 & Hk0 & Ht0) & _)%Hview (l2 & Hl2 & (_ & Hn2 & Hk2 & Ht2) & _)%Hview Hne. rewrite Hn0, Hn2, Hk0, Hk2, Ht0, Ht2. by apply (Ht i j).
  - intros id' l' Hl'. apply lookup_insert_Some in Hl' as [[<- <-] | [Hne Hl']]; unfold set_node; [by rewrite decide_True by done |].
    case_decide; [by apply (Hother id') | by apply (Hl id')].
Qed.

Lemma step_exclusive ev y : exclusive y -> match ev with Elapse ms => 0 <= ms | _ => True end -> exclusive (step ev y).
Proof.
  intros Hy Hev. destruct ev as [ms | id e]; [| by apply act_exclusive]. destruct Hy as [Hs Ht Hl].
  split; [done | done |]. intros id l Hid. apply (leased_later (now y)); [by apply (Hl id) | cbn; lia].
Qed.

(** Until when the owner may rely on a lock. *)
Definition holds (y : system) (id : Z) : Prop := exists l u, locks y !! id = Some l /\ lLease l = Some u /\ now y < u.

Lemma holds_alone y id id' l l' : exclusive y -> locks y !! id = Some l -> locks y !! id' = Some l' -> lNode l = lNode l' -> lKey l = lKey l' ->
  holds y id -> holds y id' -> id = id'.
Proof.
  intros [Hs Ht Hl] H1 H2 Hn Hk (a & u & Ha & Hu & Hlt) (b & v & Hb & Hv & Hlt'). destruct (decide (id = id')) as [| Hne]; [done | exfalso].
  rewrite H1 in Ha. injection Ha as <-. rewrite H2 in Hb. injection Hb as <-.
  pose proof (leased_live _ _ _ _ (Hl _ _ H1) Hu Hlt) as E1. pose proof (leased_live _ _ _ _ (Hl _ _ H2) Hv Hlt') as E2.
  rewrite Hn, Hk, E2 in E1. injection E1 as E1. symmetry in E1. by apply (Ht id id' l l').
Qed.

(** The options of the package. *)
Definition is_option (o : LockOptions -> LockOptions) : Prop := o = WithBlock \/ exists n, o = WithBlockWaitingSeconds n \/ o = WithExpireSeconds n.

(** New objects of owners that are told apart. *)
Record fresh (ls : gmap Z RedisLock) : Prop := {
  fresh_new id l : ls !! id = Some l -> sane_lock l /\ exists node key token opts, Forall is_option opts /\ l = NewRedisLock node key token opts;
  fresh_tokens id id' l l' : ls !! id = Some l -> ls !! id' = Some l' -> id <> id' -> lNode l = lNode l' -> lKey l = lKey l' -> lToken l <> lToken l'
}.

Lemma fresh_exclusive ls : fresh ls -> exclusive (start ls).
Proof.
  intros [Hn Ht]. split; [intros id l Hl; by apply (Hn id) | done |].
  intros id l Hl u Hu. destruct (Hn id l Hl) as (_ & nd & k & t & o & _ & ->). done.
Qed.

Definition forward (ev : event) : Prop := match ev with Elapse ms => 0 <= ms | Act _ _ => True end.

Lemma run_exclusive evs y : exclusive y -> Forall forward evs -> exclusive (run evs y).
Proof.
  intros Hy Hevs. revert y Hy. induction Hevs as [| ev evs Hev Hevs IH]; intros y Hy; [done |]. apply IH. apply step_exclusive; [done |]. by destruct ev.
Qed.

(** C37: given that the objects of a lock have distinct tokens, whatever the owners,
    their watchdogs and the network do: while the lease of one object runs, its
    node has the key with that object's token and an end no earlier than the lease;
    no other object of the lock has a lease; and whatever one of those does then,
    trying to lock, renewing and unlocking included, it is not told that it
    succeeded and gets no lease, and the key stays as the holder left it. *)
Theorem lock_is_exclusive ls evs id l u : fresh ls -> Forall forward evs -> let y := run evs (start ls) in
  locks y !! id = Some l -> lLease l = Some u -> now y < u ->
  exists e, (forall t, e = Some t -> u <= t) /\ nodes y (lNode l) !! getLockKey (lKey l) = Some (lToken l, e)
  /\ forall id' l', locks y !! id' = Some l' -> id' <> id -> lNode l' = lNode l -> lKey l' = lKey l -> ~ holds y id'
     /\ forall ev, let p := on_lock (now y) ev l' (nodes y (lNode l)) in
        p.1 !! getLockKey (lKey l) = Some (lToken l, e) /\ (forall v, lLease p.2 = Some v -> v <= now y)
        /\ (lReply p.2 = Some (Ok tt) -> ~ answers ev /\ lReply l' = Some (Ok tt)).
Proof.
  intros Hf Hevs y H1 Hu Hlt. assert (Hy : exclusive y) by (apply run_exclusive; [by apply fresh_exclusive | done]).
  assert (Hh : holds y id) by (by exists l, u). destruct (ex_leases _ Hy id l H1 u Hu Hlt) as (e & He & Hb). exists e. split; [done |]. split; [done |].
  intros id' l' H2 Hne Hn Hk. assert (Hno : ~ holds y id') by (intros Hx; by apply Hne, (holds_alone y id' id l' l)). split; [done |].
  intros ev. assert (Htok : lToken l <> lToken l') by (apply (ex_tokens _ Hy id id' l l'); [done | done | congruence | done | done]).
  pose proof (leased_live _ _ _ _ (ex_leases _ Hy id l H1) Hu Hlt) as Hlive. cbv zeta. split_and!.
  - apply (on_lock_keeps (now y) ev l'); [done | done | by intros _].
  - intros v Hv. destruct (decide (v <= now y)) as [| Hgt]; [done | exfalso].
    assert (Hs : locks (act id' ev y) !! id' = Some (on_lock (now y) ev l' (nodes y (lNode l))).2) by (unfold act; rewrite H2, Hn; cbn; apply lookup_insert_eq).
    pose proof (act_name (now y) ev l' (nodes y (lNode l))) as (_ & Hn1 & Hk1 & _).
    assert (Hnow : now (act id' ev y) = now y) by (unfold act; by rewrite H2).
    assert (Hl : locks (act id' ev y) !! id = Some l) by (unfold act; rewrite H2; cbn; by rewrite lookup_insert_ne).
    apply Hne, (holds_alone (act id' ev y) id' id (on_lock (now y) ev l' (nodes y (lNode l))).2 l); [by apply act_exclusive | done | done | congruence | congruence | |].
    + eexists _, v. rewrite Hnow. split; [done |]. split; [done | lia].
    + exists l, u. by rewrite Hnow.
  - rewrite <- Hk in Hlive. apply (key_of_another _ _ _ _ (lToken l)); [done | done].
Qed.

(** ** The watchdog *)

(** A tick comes within five seconds of its time and gets through; an owner who calls
    [DelayExpire] while the watchdog runs asks for no less than the watchdog does. *)
Definition dog_in_time (y : system) (ev : event) : Prop :=
  match ev with
  | Elapse ms => 0 <= ms /\ forall id l due, locks y !! id = Some l -> lDog l = Some due -> now y + ms < due + 5000
  | Act id (LDog f) => f = Fine
  | Act id (LDelay secs _) => forall l, locks y !! id = Some l -> lDog l = None \/ WatchDogWorkStepSeconds + 5 <= secs
  | Act _ _ => True
  end.

Definition watched (now : Z) (l : RedisLock) : Prop :=
  (watchDogMode (lOpts l) = true -> 15 <= expireSeconds (lOpts l))
  /\ forall due, lDog l = Some due -> watchDogMode (lOpts l) = true /\ now < due + 5000 /\ due <= now + 10000 /\ exists u, lLease l = Some u /\ due + 5000 <= u.

Lemma Lock_ok_watched now l : watched now l -> watched now (Lock_ok now l).
Proof.
  intros [Hw Hd]. unfold Lock_ok, watchDog. cbn [lOpts]. destruct (decide (watchDogMode (lOpts l) = true)) as [Hm | Hm].
  - cbn. rewrite Hm. split; [done |]. cbn. unfold WatchDogWorkStepSeconds. intros due [= <-]. specialize (Hw Hm). split; [done |]. split; [lia |]. split; [lia |].
    eexists. split; [done |]. lia.
  - cbn. rewrite (not_true_is_false _ Hm). split; [done |]. intros due Hdue. cbn in Hdue. by destruct (Hd due Hdue).
Qed.

(** A renewal that gets through while the lease runs is answered. *)
Lemma renewal_in_time now l secs f s u : leased now l s -> lLease l = Some u -> now < u ->
  match (DelayExpire now (lKey l) (lToken l) secs f s).2 with Err LockLost => False | _ => True end.
Proof.
  intros Hl Hu Hn. pose proof (leased_live _ _ _ _ Hl Hu Hn) as Hlive. unfold DelayExpire, send. destruct f; [| done | done].
  by rewrite expire_answer, (decide_True _ _ Hlive).
Qed.

Lemma renewed_long now secs f l u bound : lLease l = Some u -> bound <= u -> bound <= now + secs * 1000 -> exists u', renewed now secs f l = Some u' /\ bound <= u'.
Proof. intros Hu H1 H2. unfold renewed. rewrite Hu. destruct f; eexists; (split; [done | lia]). Qed.

Lemma after_tick_bounds now due : due <= now -> now < after_tick now due <= now + 10000.
Proof.
  intros Hd. unfold after_tick, WatchDogWorkStepSeconds. cbn zeta. pose proof (Z.div_mod (now - due) (10 * 1000) ltac:(lia)).
  pose proof (Z.mod_pos_bound (now - due) (10 * 1000) ltac:(lia)). lia.
Qed.

Lemma act_watched now ev l s : sane_lock l -> leased now l s -> watched now l -> (forall f, ev = LDog f -> f = Fine) ->
  (forall secs f, ev = LDelay secs f -> lDog l = None \/ WatchDogWorkStepSeconds + 5 <= secs) -> watched now (on_lock now ev l s).2.
Proof.
  intros Hs Hl Hwd Hdog Hdel. pose proof Hwd as [Hw Hd]. destruct ev as [f | d fi f | secs f | f | f |]; cbn [on_lock].
  - unfold Lock. cbn [snd]. destruct (tryLock _ _ _ _ _ _).2; [by apply Lock_ok_watched |]. repeat destruct (negb _); exact Hwd.
  - unfold blockingLock_tick. destruct (lWaiting l); [| done]. destruct (d && _); [done |]. destruct (bool_decide _); [done |]. cbn [snd].
    destruct (tryLock _ _ _ _ _ _).2; [by apply Lock_ok_watched |]. destruct (negb _); exact Hwd.
  - split; [done |]. intros due Hdue. cbn in Hdue. destruct (Hd due Hdue) as (Hm & Hn & Hb & u & Hu & Hle). split_and!; [done | done | done |].
    destruct (Hdel secs f eq_refl) as [| Hsecs]; [congruence |]. unfold WatchDogWorkStepSeconds in Hsecs.
    pose proof (renewal_in_time now l secs f s u Hl Hu ltac:(lia)) as Hans. pose proof (renewed_long now secs f l u (due + 5000) Hu Hle ltac:(lia)) as Hr.
    cbn. by destruct (DelayExpire _ _ _ _ _ _).2 as [| []].
  - rewrite (Hdog f eq_refl). unfold runWatchDog_tick. destruct (lDog l) as [due |] eqn:Hdue; [| done]. case_decide; [done |]. cbn [snd].
    destruct (Hd due eq_refl) as (Hm & Hn & Hb & u & Hu & Hle). pose proof (leased_live _ _ _ _ Hl Hu ltac:(lia)) as Hlive.
    pose proof (after_tick_bounds now due ltac:(lia)). unfold DelayExpire. cbn [send]. rewrite expire_answer, (decide_True _ _ Hlive). cbn.
    split; [exact Hw |]. cbn. intros due' [= <-]. split_and!; [done | lia | lia |]. eexists. split; [done |]. unfold WatchDogWorkStepSeconds. lia.
  - done.
  - done.
Qed.

Lemma step_watched ev y : exclusive y -> (forall id l, locks y !! id = Some l -> watched (now y) l) -> dog_in_time y ev ->
  forall id l, locks (step ev y) !! id = Some l -> watched (now (step ev y)) l.
Proof.
  intros Hy Hw Hev id l. destruct ev as [ms | i e]; cbn [step dog_in_time] in *.
  - cbn. intros Hl. destruct (Hw id l Hl) as [H1 H2]. split; [done |]. intros due Hdue. destruct (H2 due Hdue) as (Hm & _ & Hb & Hu).
    destruct Hev as [Hms Hev]. split; [done |]. split; [by apply (Hev id l) |]. split; [lia | done].
  - unfold act. destruct (locks y !! i) as [l0 |] eqn:Hi; [| apply Hw]. cbn. intros [[<- <-] | [_ Hl]]%lookup_insert_Some; [| by apply (Hw id)].
    destruct Hy as [Hs Ht Hl]. apply act_watched; [by apply (Hs i) | by apply (Hl i) | by apply (Hw i) | by intros f -> | intros secs f ->; by apply Hev].
Qed.

Fixpoint all_in_time (evs : list event) (y : system) : Prop :=
  match evs with [] => True | ev :: evs => dog_in_time y ev /\ all_in_time evs (step ev y) end.

Lemma run_watched evs y : exclusive y -> (forall id l, locks y !! id = Some l -> watched (now y) l) -> all_in_time evs y ->
  exclusive (run evs y) /\ forall id l, locks (run evs y) !! id = Some l -> watched (now (run evs y)) l.
Proof.
  revert y. induction evs as [| ev evs IH]; intros y Hy Hw Hall; [done |]. destruct Hall as [Hev Hall].
  apply (IH (step ev y)); [| by apply step_watched | done]. apply step_exclusive; [done |]. destruct ev; [apply Hev | done].
Qed.

Lemma no_watchdog_option opts o : Forall is_option opts -> watchDogMode o = false -> watchDogMode (foldl (fun o f => f o) o opts) = false.
Proof.
  intros Ho. revert o. induction Ho as [| f opts Hf Ho IH]; intros o Hm; [done |]. apply IH. by destruct Hf as [-> | (n & [-> | ->])].
Qed.

Lemma fresh_watched ls : fresh ls -> forall id l, ls !! id = Some l -> watched 0 l.
Proof.
  intros Hf id l Hl. destruct (fresh_new _ Hf id l Hl) as (_ & nd & k & t & o & Ho & ->). split; [| done].
  pose proof (no_watchdog_option o (mkLockOptions false 0 0 false) Ho eq_refl) as Hm. cbn. unfold repairLock.
  repeat case_decide; cbn; unfold DefaultLockExpireSeconds; try lia; cbn in *; congruence.
Qed.

(** C38: given that the objects of a lock have distinct tokens: while the ticks of
    the watchdogs come within five seconds of their time and get through, and no
    owner asks by [DelayExpire] for less than fifteen seconds while the watchdog
    runs ([short_delay_loses_lock] otherwise), a watchdog keeps its lock: as long as
    it runs the owner holds the lock, and no other object of that lock does. *)
Theorem watchdog_keeps_lock ls evs id l due : fresh ls -> all_in_time evs (start ls) -> let y := run evs (start ls) in
  locks y !! id = Some l -> lDog l = Some due ->
  holds y id /\ forall id' l', locks y !! id' = Some l' -> id' <> id -> lNode l' = lNode l -> lKey l' = lKey l -> ~ holds y id'.
Proof.
  intros Hf Hevs y Hl Hdue.
  assert (Hgo : exclusive y /\ forall id l, locks y !! id = Some l -> watched (now y) l).
  { apply run_watched; [by apply fresh_exclusive | | done]. intros i a Ha. by apply (fresh_watched ls Hf i). }
  destruct Hgo as [Hy Hw]. destruct (Hw id l Hl) as [_ Hd]. destruct (Hd due Hdue) as (_ & Hn & _ & u & Hu & Hle).
  assert (Hh : holds y id) by (exists l, u; split; [done |]; split; [done | lia]).
  split; [done |]. intros id' l' Hl' Hne Hnd Hk Hh'. by apply Hne, (holds_alone y id' id l' l).
Qed.

(** ** The lock over several nodes *)

Record red := mkRed { rIds : list Z; rState : red_state }.
Record world := mkWorld { sys : system; reds : gmap Z red }.

(** Anything that happens to the locks, a call of [RedLock.Lock], and its next step. *)
Inductive red_event := Low (ev : event) | RedLock_call (c : Z) | RedLock_next (c : Z) (f : fault) (slow : bool).
Definition red_step (ev : red_event) (w : world) : world :=
  match ev with
  | Low ev => mkWorld (step ev (sys w)) (reds w)
  | RedLock_call c =>
      match reds w !! c with
      | Some r => mkWorld (sys w) (<[c := mkRed (rIds r) (RedLocking (rIds r) [])]> (reds w))
      | None => w
      end
  | RedLock_next c f slow =>
      match reds w !! c with
      | Some r => let p := RedLock_step (rIds r) f slow (rState r) (sys w) in mkWorld p.1 (<[c := mkRed (rIds r) p.2]> (reds w))
      | None => w
      end
  end.
Definition red_run (evs : list red_event) (w : world) : world := foldl (fun w ev => red_step ev w) w evs.
Definition red_forward (ev : red_event) : Prop := match ev with Low ev => forward ev | _ => True end.

Definition node_of (y : system) (id : Z) : Z := default (-1) (lNode <$> locks y !! id).
Definition key_of (y : system) (id : Z) : option string := lKey <$> locks y !! id.

Definition red_state_ok (ids : list Z) (st : red_state) : Prop :=
  match st with
  | RedLocking rest acquired => exists done, ids = done ++ rest /\ acquired `sublist_of` done
  | RedHeld acquired => acquired `sublist_of` ids /\ (majority ids <= length acquired)%nat
  | _ => True
  end.

(** The clients of one key on [n] nodes, each with a lock per node, none shared;
    [exclusive] has the tokens of a node distinct. *)
Record red_ok (key : string) (n : nat) (w : world) : Prop := {
  ro_exclusive : exclusive (sys w);
  ro_nodes c r : reds w !! c = Some r -> node_of (sys w) <$> rIds r = seqZ 0 (Z.of_nat n);
  ro_keys c r id : reds w !! c = Some r -> id ∈ rIds r -> key_of (sys w) id = Some key;
  ro_apart c c' r r' id : reds w !! c = Some r -> reds w !! c' = Some r' -> id ∈ rIds r -> id ∈ rIds r' -> c = c';
  ro_state c r : reds w !! c = Some r -> red_state_ok (rIds r) (rState r)
}.

Lemma act_view id ev y : exclusive y -> exclusive (act id ev y) /\ (forall i, node_of (act id ev y) i = node_of y i) /\ forall i, key_of (act id ev y) i = key_of y i.
Proof.
  intros Hy. split; [by apply act_exclusive |]. unfold act, node_of, key_of. destruct (locks y !! id) as [l |] eqn:Hl; [| done].
  destruct (act_name (now y) ev l (nodes y (lNode l))) as (_ & Hn & Hk & _). cbn.
  split; intros i; (destruct (decide (i = id)) as [-> | Hi]; [rewrite lookup_insert_eq, Hl; cbn; congruence | by rewrite lookup_insert_ne]).
Qed.

Lemma step_view ev y : exclusive y -> forward ev -> exclusive (step ev y) /\ (forall i, node_of (step ev y) i = node_of y i) /\ forall i, key_of (step ev y) i = key_of y i.
Proof. intros Hy Hev. destruct ev; [| by apply act_view]. split; [| done]. by apply step_exclusive. Qed.

Lemma RedLock_step_ok ids f slow st y : exclusive y -> red_state_ok ids st -> let p := RedLock_step ids f slow st y in
  (exclusive p.1 /\ (forall i, node_of p.1 i = node_of y i) /\ forall i, key_of p.1 i = key_of y i) /\ red_state_ok ids p.2.
Proof.
  intros Hy Hst p. subst p. destruct st as [| [| id rest] acq | [| id rest] | acq |]; cbn [RedLock_step]; try by split.
  - case_decide; (split; [by split |]); [done |]. destruct Hst as (d & -> & Hs). rewrite app_nil_r in *. split; [done |]. cbn. lia.
  - cbv zeta. split; [by apply act_view |]. destruct Hst as (d & -> & Hs). exists (d ++ [id]). rewrite <- app_assoc. split; [done |].
    destruct (_ && _); [by apply sublist_app | rewrite <- (app_nil_r acq); apply sublist_app; [done | apply sublist_nil_l]].
  - split; [by apply act_view | done].
Qed.

Lemma red_ok_sys key n w y : red_ok key n w -> exclusive y -> (forall i, node_of y i = node_of (sys w) i) -> (forall i, key_of y i = key_of (sys w) i) -> red_ok key n (mkWorld y (reds w)).
Proof.
  intros [Hy Hn Hk Ha Hs] Hy' Hn' Hk'. split; cbn; try done.
  - intros c r Hr. rewrite <- (Hn c r Hr). apply list_fmap_ext. intros i x _. apply Hn'.
  - intros c r id Hr Hid. rewrite Hk'. by apply (Hk c r).
Qed.
Lemma red_ok_state key n w c r st : red_ok key n w -> reds w !! c = Some r -> red_state_ok (rIds r) st -> red_ok key n (mkWorld (sys w) (<[c := mkRed (rIds r) st]> (reds w))).
Proof.
  intros [Hy Hn Hk Ha Hs] Hr Hst.
  assert (Hold : forall c' r', <[c := mkRed (rIds r) st]> (reds w) !! c' = Some r' -> exists r0, reds w !! c' = Some r0 /\ rIds r' = rIds r0 /\ (r' = r0 \/ rState r' = st /\ rIds r' = rIds r)).
  { intros c' r' [[<- <-] | [_ Hr']]%lookup_insert_Some; [exists r; cbn; auto | exists r'; auto]. }
  split; cbn; [done | | | |].
  - intros c' r' (r0 & H0 & -> & _)%Hold. by apply (Hn c').
  - intros c' r' id (r0 & H0 & -> & _)%Hold. by apply (Hk c' r0).
  - intros c1 c2 r1 r2 id (a & H1 & -> & _)%Hold (b & H2 & -> & _)%Hold. by apply (Ha c1 c2 a b).
  - intros c' r' (r0 & H0 & Hi & [-> | [-> ->]])%Hold; [by apply (Hs c') | done].
Qed.

Lemma red_step_ok key n ev w : red_ok key n w -> red_forward ev -> red_ok key n (red_step ev w).
Proof.
  intros Hw Hev. destruct ev as [ev | c | c f slow]; cbn [red_step].
  - destruct (step_view ev (sys w) (ro_exclusive _ _ _ Hw) Hev) as (H1 & H2 & H3). by apply red_ok_sys.
  - destruct (reds w !! c) as [r |] eqn:Hr; [| done]. apply red_ok_state; [done | done |]. exists []. split; [done |]. apply sublist_nil_l.
  - destruct (reds w !! c) as [r |] eqn:Hr; [| done].
    destruct (RedLock_step_ok (rIds r) f slow (rState r) (sys w) (ro_exclusive _ _ _ Hw) (ro_state _ _ _ Hw c r Hr)) as ((H1 & H2 & H3) & H4).
    apply (red_ok_state key n (mkWorld _ (reds w))); [by apply red_ok_sys | done | done].
Qed.

Lemma red_run_ok key n evs w : red_ok key n w -> Forall red_forward evs -> red_ok key n (red_run evs w).
Proof. intros Hw Hevs. revert w Hw. induction Hevs as [| ev evs Hev Hevs IH]; intros w Hw; [done |]. by apply IH, red_step_ok. Qed.

Lemma sublist_map {A B} (f : A -> B) l1 l2 : l1 `sublist_of` l2 -> f <$> l1 `sublist_of` f <$> l2.
Proof. induction 1; by constructor. Qed.

(** Two majorities meet. *)
Lemma quorums_meet n (l1 l2 : list Z) : l1 `sublist_of` seqZ 0 (Z.of_nat n) -> l2 `sublist_of` seqZ 0 (Z.of_nat n) -> (n < length l1 + length l2)%nat -> exists x, x ∈ l1 /\ x ∈ l2.
Proof.
  intros H1 H2 Hlen. destruct (decide (Exists (fun x => x ∈ l2) l1)) as [(x & Hx & Hx')%Exists_exists | Hno]; [by exists x | exfalso].
  assert (Hnd : forall l, l `sublist_of` seqZ 0 (Z.of_nat n) -> NoDup l) by (intros l Hl; eapply sublist_NoDup; [apply NoDup_seqZ | done]).
  assert (Hsub : l1 ++ l2 ⊆+ seqZ 0 (Z.of_nat n)).
  { apply NoDup_submseteq.
    - apply NoDup_app. split; [by apply Hnd |]. split; [| by apply Hnd]. intros x Hx Hx'. apply Hno, Exists_exists. by exists x.
    - intros x [Hx | Hx]%elem_of_app; (eapply elem_of_submseteq; [done |]; by apply sublist_submseteq). }
  apply submseteq_length in Hsub. rewrite length_app, length_seqZ in Hsub. lia.
Qed.

(** C39: for clients of a lock over [n] nodes with distinct tokens, each with an
    object of its own per node, and nodes and clients that agree on the time:
    whatever happens between their steps, two clients never both have the lock,
    once each took a majority in time, while the leases of those nodes have not run
    out. *)
Theorem red_lock_exclusive key n w evs c c' r r' acq acq' : red_ok key n w -> Forall red_forward evs -> let w' := red_run evs w in
  reds w' !! c = Some r -> reds w' !! c' = Some r' -> c <> c' -> rState r = RedHeld acq -> Forall (holds (sys w')) acq ->
  ~ (rState r' = RedHeld acq' /\ Forall (holds (sys w')) acq').
Proof.
  intros Hw Hevs w' Hr Hr' Hcc Hst Hh [Hst' Hh']. apply Hcc. pose proof (red_run_ok key n evs w Hw Hevs) as [Hy Hn Hk Ha Hs]. fold w' in Hy, Hn, Hk, Ha, Hs.
  pose proof (Hs c r Hr) as H1. pose proof (Hs c' r' Hr') as H2. rewrite Hst in H1. rewrite Hst' in H2. destruct H1 as [Hsub Hmaj], H2 as [Hsub' Hmaj'].
  assert (Hlen : forall d s, reds w' !! d = Some s -> length (rIds s) = n).
  { intros d s Hd. pose proof (f_equal length (Hn d s Hd)) as Hl. rewrite length_fmap, length_seqZ in Hl. lia. }
  unfold majority in *. rewrite (Hlen _ _ Hr) in Hmaj. rewrite (Hlen _ _ Hr') in Hmaj'.
  destruct (quorums_meet n (node_of (sys w') <$> acq) (node_of (sys w') <$> acq')) as (x & Hx & Hx').
  { rewrite <- (Hn c r Hr). by apply sublist_map. }
  { rewrite <- (Hn c' r' Hr'). by apply sublist_map. }
  { rewrite !length_fmap. pose proof (Nat.div2_odd n) as Ho. destruct (Nat.odd n); cbn in Ho; lia. }
  apply list_elem_of_fmap in Hx as (i & -> & Hi). apply list_elem_of_fmap in Hx' as (j & Hij & Hj).
  pose proof (sublist_subseteq _ _ Hsub _ Hi) as Hi'. pose proof (sublist_subseteq _ _ Hsub' _ Hj) as Hj'.
  rewrite Forall_forall in Hh, Hh'. pose proof (Hh i Hi) as (l & u & Hl & Hu). pose proof (Hh' j Hj) as (m & v & Hm & Hv).
  pose proof (Hk c r i Hr Hi') as Ki. pose proof (Hk c' r' j Hr' Hj') as Kj. unfold key_of, node_of in *. rewrite Hl in *. rewrite Hm in *. cbn in *.
  assert (i = j) as <- by (apply (holds_alone (sys w') i j l m); [done | done | done | done | congruence | by apply Hh | by apply Hh']).
  by apply (Ha c c' r r' i).
Qed.

(** ** Runs *)

Definition two : gmap Z RedisLock :=
  <[1 := NewRedisLock 0 "k" (GetProcessAndGoroutineIDStr 7 "1") []]> (<[2 := NewRedisLock 0 "k" (GetProcessAndGoroutineIDStr 8 "1") [WithExpireSeconds 20]]> ∅).
Lemma two_fresh : fresh two.
Proof.
  assert (Hcases : forall id l, two !! id = Some l -> (id = 1 /\ l = NewRedisLock 0 "k" (GetProcessAndGoroutineIDStr 7 "1") [])
    \/ (id = 2 /\ l = NewRedisLock 0 "k" (GetProcessAndGoroutineIDStr 8 "1") [WithExpireSeconds 20])).
  { intros id l. unfold two. intros [[<- <-] | [_ [[<- <-] | [_ H]]%lookup_insert_Some]]%lookup_insert_Some; [by left | by right | by rewrite lookup_empty in H]. }
  split.
  - intros id l [[-> ->] | [-> ->]]%Hcases; (split; [vm_compute; by split |]); do 4 eexists; (split; [| reflexivity]); [constructor |].
    constructor; [| constructor]. right. exists 20. by right.
  - intros i j l l' [[-> ->] | [-> ->]]%Hcases [[-> ->] | [-> ->]]%Hcases; done.
Qed.

(** The watchdog of 1 renews on time; 2 keeps trying. *)
Definition watched_run : list event :=
  [Act 1 (LLock Fine); Act 2 (LLock Fine); Elapse 12000; Act 1 (LDog Fine); Elapse 12000; Act 1 (LDog Fine); Act 1 (LDelay 15 Unanswered); Act 2 (LUnlock Fine); Elapse 9000; Act 2 (LLock Fine)].

Lemma lock_is_exclusive_witness : let y := run watched_run (start two) in
  exists e, nodes y 0 !! getLockKey "k" = Some ("7_1"%string, e) /\ ~ holds y 2 /\ (on_lock (now y) (LUnlock Fine) (default (NewRedisLock 0 "" "" []) (locks y !! 2)) (nodes y 0)).1 !! getLockKey "k" = Some ("7_1"%string, e).
Proof.
  destruct (lock_is_exclusive two watched_run 1 (default (NewRedisLock 0 "" "" []) (locks (run watched_run (start two)) !! 1)) 39000 two_fresh) as (e & _ & He & Hother).
  - repeat constructor; vm_compute; done.
  - reflexivity.
  - reflexivity.
  - vm_compute. done.
  - exists e. split; [exact He |]. destruct (Hother 2 (default (NewRedisLock 0 "" "" []) (locks (run watched_run (start two)) !! 2))) as [Hn Hev]; [reflexivity | done | reflexivity | reflexivity |].
    split; [exact Hn | exact (proj1 (Hev (LUnlock Fine)))].
Defined.

Lemma dogs_check (m : gmap Z RedisLock) t : forallb (fun p : Z * RedisLock => match lDog p.2 with Some due => bool_decide (t < due + 5000) | None => true end) (map_to_list m) = true ->
  forall id l due, m !! id = Some l -> lDog l = Some due -> t < due + 5000.
Proof.
  intros H id l due Hl Hd. rewrite forallb_forall in H. specialize (H (id, l)). cbn in H. rewrite Hd in H.
  apply (bool_decide_unpack _). rewrite H; [done |]. apply list_elem_of_In. by apply elem_of_map_to_list.
Qed.

Lemma watchdog_keeps_lock_witness : let y := run watched_run (start two) in holds y 1 /\ ~ holds y 2.
Proof.
  assert (H := watchdog_keeps_lock two watched_run 1 (default (NewRedisLock 0 "" "" []) (locks (run watched_run (start two)) !! 1)) 30000 two_fresh).
  destruct H as [H1 H2]; [| reflexivity | reflexivity |].
  - repeat split; try done; try (apply dogs_check; vm_compute; done). intros l _. right. done.
  - split; [exact H1 | eapply H2; [reflexivity | done | reflexivity | reflexivity]].
Defined.

(** The lease after a renewal is five seconds longer than the time to the next: one
    renewal that is lost, and the lock is somebody else's before the next. *)
Lemma lost_renewal_loses_lock : let y := run [Act 1 (LLock Fine); Elapse 10000; Act 1 (LDog Fine); Elapse 10000; Act 1 (LDog Lost); Elapse 5000; Act 2 (LLock Fine)] (start two) in
  (lReply <$> locks y !! 1) = Some (Some (Ok tt)) /\ (lDog <$> locks y !! 1) = Some (Some 30000) /\ (lReply <$> locks y !! 2) = Some (Some (Ok tt)).
Proof. vm_compute. done. Qed.

(** An owner who asks for less than the watchdog does loses the lock before the next
    tick, though all of them come in time. *)
Lemma short_delay_loses_lock : let y := run [Act 1 (LLock Fine); Elapse 10000; Act 1 (LDog Fine); Act 1 (LDelay 1 Fine); Elapse 2000; Act 2 (LLock Fine)] (start two) in
  (lDog <$> locks y !! 1) = Some (Some 20000) /\ (lReply <$> locks y !! 2) = Some (Some (Ok tt)).
Proof. vm_compute. done. Qed.

(** Two processes with the same number, in two containers say, have the same token:
    the second releases a lock it has not got. *)
Lemma token_of_another_process : let tok := GetProcessAndGoroutineIDStr 1 "1" in
  let y := run [Act 1 (LLock Fine); Act 2 (LLock Fine); Act 2 (LUnlock Fine); Act 3 (LLock Fine)]
    (start (<[1 := NewRedisLock 0 "k" tok []]> (<[2 := NewRedisLock 0 "k" tok []]> (<[3 := NewRedisLock 0 "k" "9_1" []]> ∅)))) in
  (lReply <$> locks y !! 1) = Some (Some (Ok tt)) /\ (lReply <$> locks y !! 2) = Some (Some (Ok tt)) /\ (lReply <$> locks y !! 3) = Some (Some (Ok tt)).
Proof. vm_compute. done. Qed.

(** Two clients of three nodes. *)
Definition six : gmap Z RedisLock :=
  list_to_map ((fun i => (i, NewRedisLock (i - 10) "k" "7_1" [WithExpireSeconds 20])) <$> [10; 11; 12])
  ∪ list_to_map ((fun i => (i, NewRedisLock (i - 20) "k" "8_1" [WithExpireSeconds 20])) <$> [20; 21; 22]).
Definition two_clients : world := mkWorld (start six) (<[1 := mkRed [10; 11; 12] RedIdle]> (<[2 := mkRed [20; 21; 22] RedIdle]> ∅)).

Definition six_shape (id : Z) (l : RedisLock) : Prop :=
  (id ∈ [10; 11; 12] /\ l = NewRedisLock (id - 10) "k" "7_1" [WithExpireSeconds 20]) \/ (id ∈ [20; 21; 22] /\ l = NewRedisLock (id - 20) "k" "8_1" [WithExpireSeconds 20]).
Lemma six_cases id l : six !! id = Some l -> six_shape id l.
Proof.
  unfold six. intros [H | [_ H]]%lookup_union_Some_raw; apply elem_of_list_to_map_2, list_elem_of_fmap in H as (i & [= -> ->] & Hi); [by left | by right].
Qed.

Lemma two_clients_ok : red_ok "k" 3 two_clients.
Proof.
  assert (Hreds : forall c r, reds two_clients !! c = Some r -> (c = 1 /\ r = mkRed [10; 11; 12] RedIdle) \/ (c = 2 /\ r = mkRed [20; 21; 22] RedIdle)).
  { intros c r. cbn. intros [[<- <-] | [_ [[<- <-] | [_ H]]%lookup_insert_Some]]%lookup_insert_Some; [by left | by right | by rewrite lookup_empty in H]. }
  split.
  - apply fresh_exclusive. split.
    + intros id l [[_ ->] | [_ ->]]%six_cases; (split; [vm_compute; by split |]); do 4 eexists; (split; [| reflexivity]); (constructor; [| constructor]); right; exists 20; by right.
    + intros i j l l' [[Hi ->] | [Hi ->]]%six_cases [[Hj ->] | [Hj ->]]%six_cases Hne Hn Hk; cbn in *; (done || (exfalso; lia)).
  - intros c r [[-> ->] | [-> ->]]%Hreds; vm_compute; done.
  - intros c r id [[-> ->] | [-> ->]]%Hreds Hid; repeat (apply elem_of_cons in Hid as [-> | Hid]; [vm_compute; done |]); by apply not_elem_of_nil in Hid.
  - intros c c' r r' id [[-> ->] | [-> ->]]%Hreds [[-> ->] | [-> ->]]%Hreds H1 H2; try done; cbn in *; exfalso;
      repeat (apply elem_of_cons in H1 as [-> | H1]; [repeat (apply elem_of_cons in H2 as [? | H2]; [done |]); by apply not_elem_of_nil in H2 |]); by apply not_elem_of_nil in H1.
  - intros c r [[-> ->] | [-> ->]]%Hreds; done.
Qed.

(** Client 1 gets two of the nodes, client 2 the third. *)
Definition race : list red_event :=
  [RedLock_call 1; RedLock_call 2; RedLock_next 1 Fine false; RedLock_next 2 Fine false; RedLock_next 1 Fine false; RedLock_next 2 Fine false; RedLock_next 2 Fine false;
   RedLock_next 1 Fine false; RedLock_next 1 Fine false; RedLock_next 2 Fine false; RedLock_next 2 Fine false; RedLock_next 2 Fine false].

Lemma red_lock_exclusive_witness : let w' := red_run race two_clients in
  (rState <$> reds w' !! 1) = Some (RedHeld [10; 11]) /\ (rState <$> reds w' !! 2) = Some RedFailed
  /\ ~ (rState (default (mkRed [] RedIdle) (reds w' !! 2)) = RedHeld [22] /\ Forall (holds (sys w')) [22]).
Proof.
  split; [vm_compute; reflexivity |]. split; [vm_compute; reflexivity |].
  eapply (red_lock_exclusive "k" 3 two_clients race 1 2 _ _ [10; 11] [22] two_clients_ok); [repeat constructor | reflexivity | reflexivity | done | reflexivity |].
  repeat constructor; do 2 eexists; (split; [reflexivity |]); by split.
Defined.

(** Another client: node 0 answers late, the others are taken. *)
Definition red_start (opts : list (RedLockOptions -> RedLockOptions)) : world :=
  match NewRedLock "k" "7_1" 3 opts with
  | Ok ls => mkWorld (run [Act 21 (LLock Fine); Act 22 (LLock Fine)] (start (list_to_map (zip [10; 11; 12] ls ++
      [(20, NewRedisLock 0 "k" "8_1" []); (21, NewRedisLock 1 "k" "8_1" []); (22, NewRedisLock 2 "k" "8_1" [])])))) (<[1 := mkRed [10; 11; 12] RedIdle]> ∅)
  | Err _ => mkWorld (start ∅) ∅
  end.

(** The node that answered late is not released when the lock fails, and without a
    whole second of lease its watchdog renews it for good: nobody else gets it. *)
Lemma late_node_stays_locked : let w := red_run [RedLock_call 1; RedLock_next 1 Fine true; RedLock_next 1 Fine false; RedLock_next 1 Fine false; RedLock_next 1 Fine false; RedLock_next 1 Fine false;
    Low (Elapse 10000); Low (Act 10 (LDog Fine)); Low (Elapse 10000); Low (Act 10 (LDog Fine)); Low (Elapse 10000); Low (Act 10 (LDog Fine)); Low (Elapse 10000); Low (Act 20 (LLock Fine))]
    (red_start [WithSingleNodesTimeout (10 * 10 ^ 6); WithRedLockExpireDuration (900 * 10 ^ 6)]) in
  (rState <$> reds w !! 1) = Some RedFailed /\ (lDog <$> locks (sys w) !! 10) = Some (Some 40000) /\ (lReply <$> locks (sys w) !! 20) = Some (Some (Err AcquiredByOthers)).
Proof. vm_compute. done. Qed.
