(* ===== verification/ChatModel.v ===== *)
(** * ChatModel
    The documents of the chat service ([swifty_chat/internal/model], [constant]),
    its collections with the queries the services make ([dao], [swifty_orm]), and
    the sessions of [service/session_service.go]. A command to the database may
    be lost or its answer be lost; a handler runs to its end before the next. *)
From S2P Require Import Prelude GoStrings.
Local Open Scope string_scope.
Local Open Scope list_scope.
Local Open Scope Z_scope.

(** ** [constant] *)

Definition ChannelSize : Z := 1024.
Definition SystemError : string := "Internal Server Error".
Definition UserStatusNormal : Z := 0.
Definition UserStatusDisable : Z := 1.
Definition MessageUnsent : Z := 0.
Definition MessageSent : Z := 1.
Definition MessageText : Z := 0.
Definition MessageImage : Z := 1.
Definition MessageFile : Z := 2.
Definition MessageAudioOrVideo : Z := 3.
Definition MessageVideo : Z := 4.
Definition MessageSystem : Z := 5.
Definition NotifyContact : string := "contact".
Definition NotifyGroup : string := "group".
Definition NotifyApply : string := "apply".
Definition NotifySession : string := "session".
Definition NotifyOnline : string := "online".
Definition ContactNormal : Z := 0.
Definition ContactBlack : Z := 1.
Definition ContactBeBlack : Z := 2.
Definition ContactDelete : Z := 3.
Definition ContactBeDelete : Z := 4.
Definition ContactQuit : Z := 6.
Definition ContactKicked : Z := 7.
Definition ContactTypeUser : Z := 0.
Definition ContactTypeGroup : Z := 1.
Definition ApplyStatusApplying : Z := 0.
Definition ApplyStatusPass : Z := 1.
Definition ApplyStatusRefuse : Z := 2.
Definition ApplyStatusBlack : Z := 3.
Definition GroupAddModeDirect : Z := 0.
Definition GroupAddModeReview : Z := 1.
Definition GroupStatusNormal : Z := 0.
Definition GroupStatusDisable : Z := 1.
Definition GroupStatusDismiss : Z := 2.

(** ** [model]

    Left out are fields that are only stored and shown: the [_id] of every
    document, e-mail, gender, signature and birthday of a user, and the last
    message of a session, which no handler writes. *)

Record UserInfo := mkUser {
  uUuid : string; uNickname : string; uTelephone : string; uAvatar : string; uPassword : string;
  uCreatedAt : Z; uDeletedAt : option Z; uLastOnlineAt : option Z; uLastOfflineAt : option Z; uIsAdmin : Z; uStatus : Z
}.
#[export] Instance eta_user : Eta UserInfo := fun d =>
  mkUser (uUuid d) (uNickname d) (uTelephone d) (uAvatar d) (uPassword d) (uCreatedAt d) (uDeletedAt d) (uLastOnlineAt d) (uLastOfflineAt d) (uIsAdmin d) (uStatus d).

Record GroupInfo := mkGroup {
  gUuid : string; gName : string; gNotice : string; gMembers : list string; gMemberCnt : Z; gOwnerId : string;
  gAddMode : Z; gAvatar : string; gStatus : Z; gCreatedAt : Z; gUpdatedAt : Z; gDeletedAt : option Z
}.
#[export] Instance eta_group : Eta GroupInfo := fun d =>
  mkGroup (gUuid d) (gName d) (gNotice d) (gMembers d) (gMemberCnt d) (gOwnerId d) (gAddMode d) (gAvatar d) (gStatus d) (gCreatedAt d) (gUpdatedAt d) (gDeletedAt d).

Record UserContact := mkContact {
  cUserId : string; cContactId : string; cContactType : Z; cStatus : Z; cNoteName : string; cTagId : string;
  cCreatedAt : Z; cUpdatedAt : Z; cDeletedAt : option Z
}.
#[export] Instance eta_contact : Eta UserContact := fun d =>
  mkContact (cUserId d) (cContactId d) (cContactType d) (cStatus d) (cNoteName d) (cTagId d) (cCreatedAt d) (cUpdatedAt d) (cDeletedAt d).

Record ContactApply := mkApply {
  aUuid : string; aUserId : string; aContactId : string; aContactType : Z; aStatus : Z; aMessage : string; aLastApplyAt : Z; aDeletedAt : option Z
}.
#[export] Instance eta_apply : Eta ContactApply := fun d =>
  mkApply (aUuid d) (aUserId d) (aContactId d) (aContactType d) (aStatus d) (aMessage d) (aLastApplyAt d) (aDeletedAt d).

Record Session := mkSession {
  sUuid : string; sSendId : string; sReceiveId : string; sReceiveName : string; sAvatar : string;
  sLastReadAt : option Z; sCreatedAt : Z; sDeletedAt : option Z
}.
#[export] Instance eta_session : Eta Session := fun d =>
  mkSession (sUuid d) (sSendId d) (sReceiveId d) (sReceiveName d) (sAvatar d) (sLastReadAt d) (sCreatedAt d) (sDeletedAt d).

(** What a message carries besides its text. *)
Record attachment := mkAttachment { Url : string; FileType : string; FileName : string; FileSize : string }.
Definition no_attachment : attachment := mkAttachment "" "" "" "".

Record Message := mkMessage {
  mUuid : string; mType : Z; mContent : string; mFile : attachment; mSendId : string; mSendName : string; mSendAvatar : string;
  mReceiveId : string; mStatus : Z; mCreatedAt : Z; mSendAt : option Z; mAVdata : string
}.
#[export] Instance eta_message : Eta Message := fun d =>
  mkMessage (mUuid d) (mType d) (mContent d) (mFile d) (mSendId d) (mSendName d) (mSendAvatar d) (mReceiveId d) (mStatus d) (mCreatedAt d) (mSendAt d) (mAVdata d).

Record ContactTag := mkTag { tUuid : string; tUserId : string; tName : string; tCreatedAt : Z; tDeletedAt : option Z }.

(** ** What a client is sent, and the clients that are connected *)

Record MessageListItem := mkItem {
  iUuid : string; iSendId : string; iSendName : string; iSendAvatar : string; iReceiveId : string; iType : Z;
  iContent : string; iFile : attachment; iCreatedAt : Z; iAVdata : string
}.

(** A client is told from another of the same user by its connection. *)
Record Client := mkClient { Conn : Z; SendBack : list MessageListItem }.

Record callManager := mkCalls { rooms : gmap string (gset string); callers : gmap string string }.

(** ** The service: collections, caches, clients and calls; what becomes of the
    next commands, the random parts of the next names, and the time *)

Record DB := mkDB {
  users : list UserInfo; groups : list GroupInfo; contacts : list UserContact; applies : list ContactApply; sessions : list Session;
  messages : list Message; tags : list ContactTag
}.
#[export] Instance eta_db : Eta DB := fun d => mkDB (users d) (groups d) (contacts d) (applies d) (sessions d) (messages d) (tags d).

Record world := mkWorld {
  data : DB; userCache : gmap string UserInfo; sessionCache : gmap string (list Session); Clients : gmap string Client; Calls : callManager;
  faults : list fault; draws : list string; clock : Z
}.
#[export] Instance eta_world : Eta world := fun w =>
  mkWorld (data w) (userCache w) (sessionCache w) (Clients w) (Calls w) (faults w) (draws w) (clock w).

Inductive dberr := NotFound | Failed.
Definition call (A : Type) : Type := world -> result dberr A * world.

Definition ret {A} (a : A) : call A := fun w => (Ok a, w).
Definition throw {A} (e : dberr) : call A := fun w => (Err e, w).
Definition bind {A B} (m : call A) (k : A -> call B) : call B := fun w =>
  match m w with (Ok a, w) => k a w | (Err e, w) => (Err e, w) end.
Notation "'do?' x := m 'in' k" := (bind m (fun x => k)) (at level 10, x pattern at level 0, m at level 100, k at level 200) : go_scope.

(** What a handler answers: a message, the data if any, and a code. *)
Record reply (A : Type) := mkReply { rMsg : string; rData : option A; rRet : Z }.
Arguments mkReply {A}.
Arguments rMsg {A}.
Arguments rData {A}.
Arguments rRet {A}.
Definition handler (A : Type) : Type := world -> reply A * world.
Definition answer {A} (msg : string) (d : option A) (code : Z) : handler A := fun w => (mkReply msg d code, w).
Definition system_error {A} : dberr -> handler A := fun _ => answer SystemError None (-1).

(** [attempt] looks at the error of a call, [run!] drops it. *)
Definition attempt {A B} (m : call A) (onerr : dberr -> world -> B) (k : A -> world -> B) : world -> B := fun w =>
  match m w with (Ok a, w) => k a w | (Err e, w) => onerr e w end.
Definition after {A B} (m : call A) (k : world -> B) : world -> B := fun w => k (m w).2.
Definition ignoring {A} (m : call A) : call unit := fun w => (Ok tt, (m w).2).
Notation "'db!' x := m 'else' e 'in' k" := (attempt m e (fun x => k)) (at level 10, x pattern at level 0, m at level 100, e at level 100, k at level 200) : go_scope.
Notation "'run!' m 'in' k" := (after m k) (at level 10, m at level 100, k at level 200) : go_scope.

(** The same call for each of a list, to its first error, and to its end. *)
Fixpoint each {A} (f : A -> call unit) (l : list A) : call unit :=
  match l with
  | [] => ret tt
  | a :: l => do? _ := f a in each f l
  end.
Fixpoint each_anyway {A} (f : A -> call unit) (l : list A) : call unit :=
  match l with
  | [] => ret tt
  | a :: l => do? _ := ignoring (f a) in each_anyway f l
  end.

(** ** Queries *)

Definition command {A} (run : DB -> result dberr A * DB) : call A := fun w =>
  let run w := ((run (data w)).1, w <| data := (run (data w)).2 |>) in
  match faults w with
  | [] => run w
  | f :: rest =>
      let w := w <| faults := rest |> in
      match f with
      | Fine => run w
      | Lost => (Err Failed, w)
      | Unanswered => (Err Failed, (run w).2)
      end
  end.

Section Queries.
Context {D : Type} (coll : DB -> list D) `{!Setter coll}.

Definition First (P : D -> bool) : call D := command (fun d => (match List.find P (coll d) with Some x => Ok x | None => Err NotFound end, d)).
Definition Find (P : D -> bool) : call (list D) := command (fun d => (Ok (List.filter P (coll d)), d)).
(** All documents that match. *)
Definition Update (P : D -> bool) (f : D -> D) : call unit := command (fun d =>
  (Ok tt, set coll (fun l => (fun x => if P x then f x else x) <$> l) d)).
(** Whether documents were modified; [fresh] is made when none matches. *)
Definition Upsert (P : D -> bool) (changes : D -> bool) (f : D -> D) (fresh : D) : call bool := command (fun d =>
  if decide (List.filter P (coll d) = []) then (Ok false, set coll (fun l => l ++ [f fresh]) d)
  else (Ok (existsb (fun x => P x && changes x) (coll d)), set coll (fun l => (fun x => if P x then f x else x) <$> l) d)).
(** In order, to the first that has the [uuid] of another, if that is unique. *)
Fixpoint insert_docs (uuid : option (D -> string)) (ds : list D) (l : list D) : result dberr unit * list D :=
  match ds with
  | [] => (Ok tt, l)
  | x :: ds =>
      if match uuid with Some u => existsb (fun y => bool_decide (u y = u x)) l | None => false end then (Err Failed, l)
      else insert_docs uuid ds (l ++ [x])
  end.
Definition Insert (uuid : option (D -> string)) (ds : list D) : call unit := command (fun d =>
  ((insert_docs uuid ds (coll d)).1, set coll (fun l => (insert_docs uuid ds l).2) d)).
End Queries.

(** [GetNowAndLenRandomString]: the next of the draws. *)
Definition GetNowAndLenRandomString : call string := fun w =>
  match draws w with
  | [] => (Ok "", w)
  | s :: rest => (Ok s, w <| draws := rest |>)
  end.
Definition now : call Z := fun w => (Ok (clock w), w).

(** [==] of strings and codes, [WhereNull], [slices.Contains]. *)
Definition eqs (a b : string) : bool := bool_decide (a = b).
Definition code (a b : Z) : bool := bool_decide (a = b).
Definition active (deleted : option Z) : bool := match deleted with None => true | Some _ => false end.
Definition isin (a : string) (l : list string) : bool := bool_decide (a ∈ l).

(** [WithTransaction]: a transaction that fails is undone, the caches and what the
    clients were sent apart; a server that has none runs the function as it is. *)
Definition WithTransaction (supported : bool) (fn : call unit) : call unit := fun w =>
  if negb supported then fn w else
  match fn w with
  | (Err e, w') => (Err e, w' <| data := data w |>)
  | (Ok _, w') =>
      match faults w' with
      | [] => (Ok tt, w')
      | Fine :: rest => (Ok tt, w' <| faults := rest |>)
      | Lost :: rest => (Err Failed, w' <| data := data w |> <| faults := rest |>)
      | Unanswered :: rest => (Err Failed, w' <| faults := rest |>)
      end
  end.

(** ** What is sent to clients ([chat_server.go]) *)

(** The clients of the targets that are connected; a full buffer drops it. *)
Definition deliver (item : MessageListItem) (cs : gmap string Client) (target : string) : gmap string Client :=
  match cs !! target with
  | Some c => if decide (zlen (SendBack c) < ChannelSize) then <[target := mkClient (Conn c) (SendBack c ++ [item])]> cs else cs
  | None => cs
  end.
Definition sendRaw (item : MessageListItem) (targets : list string) : call unit := fun w =>
  (Ok tt, w <| Clients := foldl (deliver item) (Clients w) targets |>).

Definition PushSystem (topic : string) (uuids : list string) : call unit :=
  if bool_decide (uuids = []) then ret tt else
  do? t := now in sendRaw (mkItem "" "SYSTEM" "" "" "" MessageSystem topic no_attachment t "") uuids.

Definition BroadcastSystem (topic exclude : string) : call unit := fun w =>
  PushSystem topic (List.filter (fun u => negb (eqs u exclude)) (map_to_list (Clients w)).*1) w.

(** ** [session_service.go] *)

Definition SessionListCache_Delete (owner : string) : call unit := fun w => (Ok tt, w <| sessionCache := delete owner (sessionCache w) |>).

Definition of_pair (send receive : string) (s : Session) : bool := eqs (sSendId s) send && eqs (sReceiveId s) receive.

Definition invalidateSessionCacheByReceiver (receiveId : string) : call unit :=
  ignoring (do? found := Find sessions (fun s => active (sDeletedAt s) && eqs (sReceiveId s) receiveId) in each SessionListCache_Delete (sSendId <$> found)).

(** The first character of a name: a user, a group. *)
Definition is_user (id : string) : bool := match id with String c _ => bool_decide (c = "U"%char) | EmptyString => false end.
Definition is_group (id : string) : bool := match id with String c _ => bool_decide (c = "G"%char) | EmptyString => false end.

(** [ActiveQuery] by name. *)
Definition ActiveUser (uuid : string) : call UserInfo := First users (fun u => active (uDeletedAt u) && eqs (uUuid u) uuid).
Definition ActiveGroup (uuid : string) : call GroupInfo := First groups (fun g => active (gDeletedAt g) && eqs (gUuid g) uuid).

Definition createSession (sendId receiveId : string) : handler string :=
  db! r := GetNowAndLenRandomString else system_error in
  db! t := now else system_error in
  db! prof := (if is_user receiveId
     then do? u := ActiveUser receiveId in ret (uNickname u, uAvatar u)
     else do? g := ActiveGroup receiveId in ret (gName g, gAvatar g)) else system_error in
  let session := mkSession (String "S" r) sendId receiveId prof.1 prof.2 None t None in
  db! _ := Insert sessions (Some sUuid) [session] else system_error in
  run! SessionListCache_Delete sendId in
  answer "session created" (Some (sUuid session)) 0.

Definition OpenSession (sendId receiveId : string) : handler string :=
  if eqs sendId "" || eqs receiveId "" then answer "send_id and receive_id are required" None (-2) else
  db! s := First sessions (fun s => active (sDeletedAt s) && of_pair sendId receiveId s) else (fun _ => createSession sendId receiveId) in
  answer "session created" (Some (sUuid s)) 0.

(** The greatest keys first, in the order they came for equal ones. *)
Fixpoint insert_desc {A} (key : A -> Z) (a : A) (l : list A) : list A :=
  match l with
  | [] => [a]
  | x :: l => if decide (key x <= key a) then a :: x :: l else x :: insert_desc key a l
  end.
Definition sort_desc {A} (key : A -> Z) (l : list A) : list A := foldr (insert_desc key) [] l.

Definition active_sessions (owner : string) (l : list Session) : list Session :=
  sort_desc sCreatedAt (List.filter (fun s => active (sDeletedAt s) && eqs (sSendId s) owner) l).

(** The list that [InitCache] fills the cache with, and that is read without it. *)
Definition query_sessions (ownerId : string) : call (list Session) :=
  do? l := Find sessions (fun s => active (sDeletedAt s) && eqs (sSendId s) ownerId) in ret (sort_desc sCreatedAt l).
Definition SessionListCache_Get (ownerId : string) : call (list Session) := fun w =>
  match sessionCache w !! ownerId with
  | Some l => (Ok l, w)
  | None =>
      (if eqs ownerId "" then throw Failed else
       do? l := query_sessions ownerId in fun w => (Ok l, w <| sessionCache := <[ownerId := l]> (sessionCache w) |>)) w
  end.
Definition loadSessions (ownerId : string) : call (list Session) := fun w =>
  match SessionListCache_Get ownerId w with
  | (Ok l, w) => (Ok l, w)
  | (Err _, w) => query_sessions ownerId w
  end.

(** Signalling frames never show in a preview. *)
Definition visible (m : Message) : bool := negb (code (mType m) MessageAudioOrVideo).
Definition in_conversation (ownerId : string) (s : Session) (m : Message) : bool :=
  if is_group (sReceiveId s) then eqs (mReceiveId m) (sReceiveId s) else
  eqs (mSendId m) ownerId && eqs (mReceiveId m) (sReceiveId s) || eqs (mSendId m) (sReceiveId s) && eqs (mReceiveId m) ownerId.
Definition is_unread (ownerId : string) (s : Session) (m : Message) : bool :=
  (if is_group (sReceiveId s) then eqs (mReceiveId m) (sReceiveId s) && negb (eqs (mSendId m) ownerId)
   else eqs (mSendId m) (sReceiveId s) && eqs (mReceiveId m) ownerId) &&
  match sLastReadAt s with Some t => bool_decide (t < mCreatedAt m) | None => true end.

Definition messagePreview (m : Message) : string :=
  if code (mType m) MessageText then mContent m
  else if code (mType m) MessageImage then "[Image]"
  else if code (mType m) MessageVideo then "[Video]"
  else if code (mType m) MessageFile then (if eqs (FileName (mFile m)) "" then "[File]" else String.append "[File] " (FileName (mFile m)))
  else mContent m.

Record sessionMeta := mkMeta { lastMessage : string; lastMessageType : Z; lastMessageAtMs : Z; unreadCnt : Z; sortKey : Z }.
Definition enrichSession (ownerId : string) (s : Session) : call sessionMeta := fun w =>
  let (latest, w) := Find messages (fun m => visible m && in_conversation ownerId s m) w in
  let meta :=
    match latest with
    | Ok l => match sort_desc mCreatedAt l with
              | m :: _ => mkMeta (messagePreview m) (mType m) (mCreatedAt m) 0 (mCreatedAt m)
              | [] => mkMeta "" 0 0 0 (sCreatedAt s)
              end
    | Err _ => mkMeta "" 0 0 0 (sCreatedAt s)
    end in
  match Find messages (fun m => visible m && is_unread ownerId s m) w with
  | (Ok unread, w) => (Ok (mkMeta (lastMessage meta) (lastMessageType meta) (lastMessageAtMs meta) (zlen unread) (sortKey meta)), w)
  | (Err _, w) => (Ok meta, w)
  end.

Fixpoint enrich_all (ownerId : string) (l : list Session) : call (list (Session * sessionMeta)) :=
  match l with
  | [] => ret []
  | s :: l => do? m := enrichSession ownerId s in do? rest := enrich_all ownerId l in ret ((s, m) :: rest)
  end.
(** [GetUserSessionList] and [GetGroupSessionList]. *)
Definition session_list (kind : string -> bool) (ownerId : string) : handler (list (Session * sessionMeta)) :=
  db! l := loadSessions ownerId else system_error in
  db! entries := enrich_all ownerId (List.filter (fun s => kind (sReceiveId s)) l) else system_error in
  answer "success" (Some (sort_desc (fun e => sortKey e.2) entries)) 0.
Definition GetUserSessionList : string -> handler (list (Session * sessionMeta)) := session_list is_user.
Definition GetGroupSessionList : string -> handler (list (Session * sessionMeta)) := session_list is_group.

Definition DeleteSession (ownerId sessionId : string) : handler unit :=
  db! t := now else system_error in
  db! _ := Update sessions (fun s => eqs (sUuid s) sessionId) (fun s => s <| sDeletedAt := Some t |>) else system_error in
  run! SessionListCache_Delete ownerId in
  answer "deleted" None 0.

Definition MarkSessionRead (ownerId receiveId : string) : handler unit :=
  if eqs ownerId "" || eqs receiveId "" then answer "owner_id and receive_id are required" None (-2) else
  db! t := now else system_error in
  db! _ := Update sessions (fun s => of_pair ownerId receiveId s && active (sDeletedAt s)) (fun s => s <| sLastReadAt := Some t |>) else system_error in
  run! SessionListCache_Delete ownerId in
  answer "marked as read" None 0.

Definition ensurePeerSession (ownerId peerId : string) : call unit := fun w =>
  match First sessions (of_pair ownerId peerId) w with
  | (Err NotFound, w) => (Ok tt, (createSession ownerId peerId w).2)
  | (Err Failed, w) => (Ok tt, w)
  | (Ok s, w) =>
      if active (sDeletedAt s) then (Ok tt, w) else
      ignoring (do? _ := Update sessions (fun x => eqs (sUuid x) (sUuid s)) (fun x => x <| sDeletedAt := None |>) in SessionListCache_Delete ownerId) w
  end.

Definition touchDirectSessions (sendId receiveId : string) : call unit :=
  do? _ := ensurePeerSession sendId receiveId in ensurePeerSession receiveId sendId.

(** The last session found for a member is the one that is kept. *)
Definition latest_of (member : string) (found : list Session) : option Session := List.find (fun s => eqs (sSendId s) member) (rev found).

Fixpoint new_sessions (t : Z) (group : GroupInfo) (found : list Session) (members : list string) : call (list Session) :=
  match members with
  | [] => ret []
  | m :: members =>
      match latest_of m found with
      | None =>
          do? r := GetNowAndLenRandomString in
          do? rest := new_sessions t group found members in
          ret (mkSession (String "S" r) m (gUuid group) (gName group) (gAvatar group) None t None :: rest)
      | Some _ => new_sessions t group found members
      end
  end.
Definition to_restore (found : list Session) (members : list string) : list Session :=
  omap (fun m => match latest_of m found with Some s => if active (sDeletedAt s) then None else Some s | None => None end) members.

Definition touchGroupSessions (group : GroupInfo) : call unit :=
  if bool_decide (gMembers group = []) then ret tt else
  ignoring (
    do? found := Find sessions (fun s => eqs (sReceiveId s) (gUuid group) && isin (sSendId s) (gMembers group)) in
    do? t := now in
    do? created := new_sessions t group found (gMembers group) in
    let restored := to_restore found (gMembers group) in
    do? _ := (if bool_decide (restored = []) then ret tt else
        ignoring (Update sessions (fun s => isin (sUuid s) (sUuid <$> restored)) (fun s => s <| sDeletedAt := None |>))) in
    do? _ := (if bool_decide (created = []) then ret tt else ignoring (Insert sessions (Some sUuid) created)) in
    each SessionListCache_Delete (sSendId <$> restored ++ created)).

Definition CheckOpenSessionAllowed (sendId receiveId : string) : handler bool :=
  if eqs sendId "" || eqs receiveId "" then answer "send_id and receive_id are required" (Some false) (-2) else
  db! c := First contacts (fun c => active (cDeletedAt c) && eqs (cUserId c) sendId && eqs (cContactId c) receiveId) else (fun _ => answer SystemError (Some false) (-1)) in
  if code (cStatus c) ContactBeBlack then answer "blocked by the other user" (Some false) (-2) else
  if code (cStatus c) ContactBlack then answer "unblock the user first" (Some false) (-2) else
  if is_user receiveId then
    db! u := ActiveUser receiveId else (fun _ => answer SystemError (Some false) (-1)) in
    if code (uStatus u) UserStatusDisable then answer "target user is disabled" (Some false) (-2) else answer "allowed" (Some true) 0
  else
    db! g := ActiveGroup receiveId else (fun _ => answer SystemError (Some false) (-1)) in
    if code (gStatus g) GroupStatusDisable then answer "target group is disabled" (Some false) (-2) else answer "allowed" (Some true) 0.
