(* ===== verification/ChatGroups.v ===== *)
(** * ChatGroups
    [service/group_service.go]: groups, their members and what hangs on them. A
    handler answers with the documents that its reply is written from. *)
From S2P Require Import Prelude GoStrings ChatModel.
Local Open Scope string_scope.
Local Open Scope list_scope.
Local Open Scope Z_scope.

(** [WhereIn] with a list of names. *)
Definition ActiveUsersIn (uuids : list string) : call (list UserInfo) := Find users (fun u => active (uDeletedAt u) && isin (uUuid u) uuids).
Definition of_group (uuid : string) (g : GroupInfo) : bool := eqs (gUuid g) uuid.
Definition of_contact (user contact : string) (c : UserContact) : bool := eqs (cUserId c) user && eqs (cContactId c) contact.
Definition of_apply (user contact : string) (a : ContactApply) : bool := eqs (aUserId a) user && eqs (aContactId a) contact.

Fixpoint add_members (ownerId : string) (found : list UserInfo) (members : list string) : list string :=
  match found with
  | [] => members
  | u :: found => add_members ownerId found (if negb (eqs (uUuid u) ownerId) && negb (isin (uUuid u) members) then members ++ [uUuid u] else members)
  end.

Definition insert_member_contact (groupId : string) (t : Z) (member : string) : call unit :=
  Insert contacts None [mkContact member groupId ContactTypeGroup ContactNormal "" "" t t None].

Definition default_avatar : string := "https://vitejs.dev/logo.svg".

Definition CreateGroup (supported : bool) (name ownerId avatar notice : string) (addMode : Z) (memberIds : list string) : handler GroupInfo :=
  if negb (code addMode GroupAddModeDirect) && negb (code addMode GroupAddModeReview) then answer "invalid add_mode" None (-2) else
  db! found := (if bool_decide (memberIds = []) then ret [] else ActiveUsersIn memberIds) else system_error in
  db! r := GetNowAndLenRandomString else system_error in
  db! t := now else system_error in
  let members := add_members ownerId found [ownerId] in
  let group := mkGroup (String "G" r) name notice members (zlen members) ownerId addMode (if eqs avatar "" then default_avatar else avatar) GroupStatusNormal t t None in
  db! _ := WithTransaction supported (
      do? _ := Insert groups (Some gUuid) [group] in
      each (insert_member_contact (gUuid group) t) members) else system_error in
  db! r := GetNowAndLenRandomString else system_error in
  run! (fun w =>
    let (owner, w) := ActiveUser ownerId w in
    let (who, pic) := match owner with Ok u => (uNickname u, uAvatar u) | Err _ => ("", "") end in
    Insert messages (Some mUuid) [mkMessage (String "M" r) MessageText (String.append "Welcome to " (String.append name "!")) no_attachment ownerId who pic (gUuid group) MessageSent t None ""] w) in
  run! touchGroupSessions group in
  run! each (fun m => do? _ := (if eqs m ownerId then ret tt else PushSystem NotifyGroup [m]) in PushSystem NotifySession [m]) members in
  answer "group created" (Some group) 0.

Definition GetGroupInfo (uuid : string) : handler GroupInfo :=
  db! g := ActiveGroup uuid else system_error in answer "group info retrieved" (Some g) 0.
Definition LoadMyGroup (ownerId : string) : handler (list GroupInfo) :=
  db! l := Find groups (fun g => active (gDeletedAt g) && eqs (gOwnerId g) ownerId) else system_error in answer "success" (Some l) 0.
Definition CheckGroupAddMode (groupId : string) : handler Z :=
  db! g := ActiveGroup groupId else system_error in answer "success" (Some (gAddMode g)) 0.

(** The document [Upsert] makes when no group has the name. *)
Definition ghost (groupId : string) : GroupInfo := mkGroup groupId "" "" [] 0 "" 0 "" 0 0 0 None.

Definition count_members (delta : Z) (groupId : string) : call unit :=
  do? t := now in
  Update groups (of_group groupId) (fun g => g <| gMemberCnt := gMemberCnt g + delta |> <| gUpdatedAt := t |>).

Definition addGroupMember (groupId userId : string) : call unit :=
  do? modified := Upsert groups (of_group groupId) (fun g => negb (isin userId (gMembers g)))
      (fun g => g <| gMembers := if isin userId (gMembers g) then gMembers g else gMembers g ++ [userId] |>) (ghost groupId) in
  if modified : bool then count_members 1 groupId else ret tt.

Definition without (users : list string) (l : list string) : list string := List.filter (fun m => negb (isin m users)) l.

Definition removeGroupMember (groupId userId : string) : call unit :=
  do? modified := Upsert groups (of_group groupId) (fun g => isin userId (gMembers g))
      (fun g => g <| gMembers := without [userId] (gMembers g) |>) (ghost groupId) in
  if modified : bool then count_members (-1) groupId else ret tt.

(** [ensureGroupContact] and [ensureUserContact]. *)
Definition ensureContact (kind : Z) (userId contactId : string) : call unit :=
  do? t := now in
  fun w =>
  match First contacts (of_contact userId contactId) w with
  | (Ok _, w) => Update contacts (of_contact userId contactId) (fun c => c <| cStatus := ContactNormal |> <| cUpdatedAt := t |> <| cDeletedAt := None |>) w
  | (Err NotFound, w) => Insert contacts None [mkContact userId contactId kind ContactNormal "" "" t t None] w
  | (Err e, w) => (Err e, w)
  end.
Definition ensureGroupContact (userId groupId : string) : call unit := ensureContact ContactTypeGroup userId groupId.

Definition EnterGroupDirectly (userId groupId : string) : handler unit :=
  db! group := ActiveGroup groupId else system_error in
  if code (gStatus group) GroupStatusDisable then answer "group is disabled" None (-2) else
  if negb (code (gAddMode group) GroupAddModeDirect) then answer "group requires owner approval" None (-2) else
  if isin userId (gMembers group) then answer "already a group member" None (-2) else
  db! _ := addGroupMember groupId userId else system_error in
  db! _ := ensureGroupContact userId groupId else system_error in
  answer "joined group" None 0.

Fixpoint invited (members : list string) (ids candidates : list string) : list string :=
  match ids with
  | [] => candidates
  | i :: ids => invited members ids (if negb (isin i members) && negb (isin i candidates) then candidates ++ [i] else candidates)
  end.

Definition InviteGroupMembers (groupId : string) (memberIds : list string) : handler unit :=
  db! group := ActiveGroup groupId else system_error in
  if code (gStatus group) GroupStatusDisable then answer "group is disabled" None (-2) else
  let candidates := invited (gMembers group) memberIds [] in
  if bool_decide (candidates = []) then answer "all selected users are already group members" None (-2) else
  db! found := ActiveUsersIn candidates else system_error in
  let newcomers := uUuid <$> found in
  if bool_decide (newcomers = []) then answer "no valid users to invite" None (-2) else
  db! _ := each (fun i => do? _ := addGroupMember groupId i in ensureGroupContact i groupId) newcomers else system_error in
  run! (do? updated := ActiveGroup groupId in touchGroupSessions updated) in
  run! PushSystem NotifyGroup newcomers in
  run! PushSystem NotifySession newcomers in
  answer "members invited" None 0.

Definition cleanupGroupMembership (userId groupId : string) (contactStatus : Z) : call unit :=
  do? t := now in
  do? _ := ignoring (Update contacts (fun c => of_contact userId groupId c && active (cDeletedAt c)) (fun c => c <| cStatus := contactStatus |> <| cDeletedAt := Some t |>)) in
  do? _ := ignoring (Update sessions (fun s => of_pair userId groupId s && active (sDeletedAt s)) (fun s => s <| sDeletedAt := Some t |>)) in
  do? _ := ignoring (Update applies (fun a => of_apply userId groupId a && active (aDeletedAt a)) (fun a => a <| aDeletedAt := Some t |>)) in
  SessionListCache_Delete userId.

Definition LeaveGroup (userId groupId : string) : handler unit :=
  db! group := ActiveGroup groupId else system_error in
  if eqs (gOwnerId group) userId then answer "owner cannot leave the group, dismiss it instead" None (-2) else
  db! _ := removeGroupMember groupId userId else system_error in
  run! cleanupGroupMembership userId groupId ContactQuit in
  answer "left group" None 0.

Definition drop_sessions_to (receiveId : string) (t : Z) : call unit :=
  Update sessions (fun s => eqs (sReceiveId s) receiveId && active (sDeletedAt s)) (fun s => s <| sDeletedAt := Some t |>).

Definition cascadeGroupRemoval (groupId : string) : call unit :=
  do? t := now in
  do? _ := invalidateSessionCacheByReceiver groupId in
  do? _ := drop_sessions_to groupId t in
  do? _ := Update contacts (fun c => eqs (cContactId c) groupId && active (cDeletedAt c)) (fun c => c <| cDeletedAt := Some t |>) in
  Update applies (fun a => eqs (aContactId a) groupId && active (aDeletedAt a)) (fun a => a <| aDeletedAt := Some t |>).

Definition DismissGroup (supported : bool) (groupId : string) : handler unit :=
  db! group := ActiveGroup groupId else system_error in
  db! _ := WithTransaction supported (
      do? t := now in
      do? _ := Update groups (of_group groupId) (fun g => g <| gStatus := GroupStatusDismiss |> <| gDeletedAt := Some t |>) in
      cascadeGroupRemoval groupId) else system_error in
  run! PushSystem NotifyGroup (gMembers group) in
  run! PushSystem NotifySession (gMembers group) in
  answer "group dismissed" None 0.

(** The fields a profile is changed in: [None] leaves one as it is. *)
Record group_fields := mkGroupFields { fName : option string; fNotice : option string; fAvatar : option string; fAddMode : option Z }.

(** [handler.UpdateGroupInfo] passes on the fields that are not empty. *)
Definition given (s : string) : option string := if eqs s "" then None else Some s.
Definition or_else {A} (o : option A) (a : A) : A := match o with Some b => b | None => a end.

(** [UpdateGroupInfo] and [UpdateUserInfo]: the names and pictures in the sessions. *)
Definition sync_sessions (uuid : string) (name avatar : option string) : call unit :=
  if bool_decide (name = None) && bool_decide (avatar = None) then ret tt else
  do? _ := ignoring (Update sessions (fun s => eqs (sReceiveId s) uuid && active (sDeletedAt s))
      (fun s => s <| sReceiveName := or_else name (sReceiveName s) |> <| sAvatar := or_else avatar (sAvatar s) |>)) in
  invalidateSessionCacheByReceiver uuid.

Definition UpdateGroupInfo (uuid : string) (f : group_fields) : handler unit :=
  if bool_decide (fName f = None) && bool_decide (fNotice f = None) && bool_decide (fAvatar f = None) && bool_decide (fAddMode f = None) then answer "group info updated" None 0 else
  db! t := now else system_error in
  db! _ := Update groups (of_group uuid) (fun g => g <| gName := or_else (fName f) (gName g) |> <| gNotice := or_else (fNotice f) (gNotice g) |>
      <| gAvatar := or_else (fAvatar f) (gAvatar g) |> <| gAddMode := or_else (fAddMode f) (gAddMode g) |> <| gUpdatedAt := t |>) else system_error in
  run! sync_sessions uuid (fName f) (fAvatar f) in
  answer "group info updated" None 0.

Definition handler_UpdateGroupInfo (uuid name notice avatar : string) (addMode : option Z) : handler unit :=
  match addMode with
  | Some m => if negb (code m 0) && negb (code m 1) then answer "invalid add_mode" None (-2) else UpdateGroupInfo uuid (mkGroupFields (given name) (given notice) (given avatar) (Some m))
  | None => UpdateGroupInfo uuid (mkGroupFields (given name) (given notice) (given avatar) None)
  end.

Definition RemoveGroupMembers (groupId : string) (memberIds : list string) : handler unit :=
  db! group := ActiveGroup groupId else system_error in
  if isin (gOwnerId group) memberIds then answer "cannot remove the group owner" None (-2) else
  db! t := now else system_error in
  db! _ := Update groups (of_group groupId) (fun g => g <| gMembers := without memberIds (gMembers g) |> <| gUpdatedAt := t |>) else system_error in
  run! (do? updated := ActiveGroup groupId in Update groups (of_group groupId) (fun g => g <| gMemberCnt := zlen (gMembers updated) |>)) in
  run! each (fun i => cleanupGroupMembership i groupId ContactKicked) memberIds in
  run! PushSystem NotifyGroup memberIds in
  run! PushSystem NotifySession memberIds in
  answer "members removed" None 0.

Definition GetGroupInfoList : handler (list GroupInfo) :=
  db! l := Find groups (fun _ => true) else system_error in answer "success" (Some l) 0.

Definition DeleteGroups (uuidList : list string) : handler unit :=
  db! t := now else system_error in
  db! _ := Update groups (fun g => isin (gUuid g) uuidList) (fun g => g <| gDeletedAt := Some t |>) else system_error in
  run! each_anyway cascadeGroupRemoval uuidList in
  answer "groups deleted" None 0.

Definition SetGroupsStatus (uuidList : list string) (status : Z) : handler unit :=
  db! t := now else system_error in
  db! _ := Update groups (fun g => isin (gUuid g) uuidList) (fun g => g <| gStatus := status |> <| gUpdatedAt := t |>) else system_error in
  run! (if code status GroupStatusDisable then
      each_anyway (fun uuid => do? _ := invalidateSessionCacheByReceiver uuid in drop_sessions_to uuid t) uuidList
    else ret tt) in
  answer "group status updated" None 0.
