(* ===== verification/ChatContacts.v ===== *)
(** * ChatContacts
    [service/contact_service.go] and [service/user_service.go]: applications,
    contacts, blocks, tags, and the accounts. A handler answers with the documents
    that its reply is written from. *)
From S2P Require Import Prelude GoStrings ChatModel ChatGroups.
Local Open Scope string_scope.
Local Open Scope list_scope.
Local Open Scope Z_scope.

(** ** Tags and notes *)

Fixpoint insert_asc {A} (key : A -> Z) (a : A) (l : list A) : list A :=
  match l with
  | [] => [a]
  | x :: l => if decide (key a <= key x) then a :: x :: l else x :: insert_asc key a l
  end.
Definition sort_asc {A} (key : A -> Z) (l : list A) : list A := foldr (insert_asc key) [] l.

Definition GetTagList (ownerId : string) : handler (list ContactTag) :=
  db! l := Find tags (fun t => active (tDeletedAt t) && eqs (tUserId t) ownerId) else system_error in
  answer "success" (Some (sort_asc tCreatedAt l)) 0.

(** [TrimSpace] is that of the [strings] package. *)
Definition AddTag (TrimSpace : string -> string) (ownerId name : string) : handler ContactTag :=
  let name := TrimSpace name in
  if eqs name "" then answer "tag name is required" None (-2) else
  let create : handler ContactTag :=
    db! r := GetNowAndLenRandomString else system_error in
    db! t := now else system_error in
    let tag := mkTag (String "T" r) ownerId name t None in
    db! _ := Insert tags (Some tUuid) [tag] else system_error in
    answer "tag created" (Some tag) 0 in
  db! _ := First tags (fun t => active (tDeletedAt t) && eqs (tUserId t) ownerId && eqs (tName t) name) else (fun _ => create) in
  answer "tag already exists" None (-2).

Definition UpdateContact (userId contactId : string) (noteName tagId : option string) : handler unit :=
  db! t := now else system_error in
  if bool_decide (noteName = None) && bool_decide (tagId = None) then answer "nothing to update" None (-2) else
  db! _ := Update contacts (fun c => of_contact userId contactId c && active (cDeletedAt c))
      (fun c => c <| cUpdatedAt := t |> <| cNoteName := or_else noteName (cNoteName c) |> <| cTagId := or_else tagId (cTagId c) |>) else system_error in
  answer "contact updated" None 0.

(** ** Lists *)

Definition shown (c : UserContact) : bool := code (cStatus c) ContactNormal || code (cStatus c) ContactBlack || code (cStatus c) ContactBeBlack.

(** The users found, each with the last of the contacts that names it. *)
Definition with_contact (cs : list UserContact) (us : list UserInfo) : list (UserInfo * UserContact) :=
  omap (fun u => (fun c => (u, c)) <$> List.find (fun c => eqs (cContactId c) (uUuid u)) (rev cs)) us.

(** Each with whether the user is connected. *)
Definition GetUserList (ownerId : string) : handler (list (UserInfo * UserContact * bool)) :=
  db! cs := Find contacts (fun c => active (cDeletedAt c) && eqs (cUserId c) ownerId && code (cContactType c) ContactTypeUser && shown c) else system_error in
  if bool_decide (cs = []) then answer "success" (Some []) 0 else
  db! us := ActiveUsersIn (cContactId <$> cs) else system_error in
  fun w => answer "success" (Some ((fun uc => (uc, bool_decide (is_Some (Clients w !! uUuid uc.1)))) <$> with_contact cs us)) 0 w.

Definition LoadMyJoinedGroup (ownerId : string) : handler (list GroupInfo) :=
  db! cs := Find contacts (fun c => active (cDeletedAt c) && eqs (cUserId c) ownerId && code (cContactType c) ContactTypeGroup && code (cStatus c) ContactNormal) else system_error in
  if bool_decide (cs = []) then answer "success" (Some []) 0 else
  db! gs := Find groups (fun g => active (gDeletedAt g) && isin (gUuid g) (cContactId <$> cs)) else system_error in
  answer "success" (Some (List.filter (fun g => negb (eqs (gOwnerId g) ownerId)) gs)) 0.

Definition GetContactInfo (contactId : string) : handler (UserInfo + GroupInfo) :=
  if is_group contactId then db! g := ActiveGroup contactId else system_error in answer "success" (Some (inr g)) 0
  else db! u := ActiveUser contactId else system_error in answer "success" (Some (inl u)) 0.

(** ** Applications *)

(** The user is told of an application to him, the owner of one to his group. *)
Definition notifyApplyRecipient (contactId : string) (contactType : Z) : call unit :=
  if code contactType ContactTypeUser then PushSystem NotifyApply [contactId] else
  ignoring (do? g := ActiveGroup contactId in PushSystem NotifyApply [gOwnerId g]).

Definition not_found {A} (msg : string) (e : dberr) : handler A :=
  match e with NotFound => answer msg None (-2) | Failed => answer SystemError None (-1) end.

Definition submit_apply (userId contactId : string) (contactType : Z) (message : string) : handler unit :=
  let fresh : handler unit :=
    db! r := GetNowAndLenRandomString else system_error in
    db! t := now else system_error in
    db! _ := Insert applies (Some aUuid) [mkApply (String "A" r) userId contactId contactType ApplyStatusApplying message t None] else system_error in
    run! notifyApplyRecipient contactId contactType in
    answer "application submitted" None 0 in
  db! existing := First applies (fun a => active (aDeletedAt a) && of_apply userId contactId a)
      else (fun e => match e with NotFound => fresh | Failed => answer SystemError None (-1) end) in
  if code (aStatus existing) ApplyStatusBlack then answer "you have been blocked by the recipient" None (-2) else
  db! t := now else system_error in
  db! _ := Update applies (fun a => eqs (aUuid a) (aUuid existing)) (fun a => a <| aStatus := ApplyStatusApplying |> <| aMessage := message |> <| aLastApplyAt := t |>) else system_error in
  run! notifyApplyRecipient contactId contactType in
  answer "application submitted" None 0.

Definition ApplyContact (userId contactId : string) (contactType : Z) (message : string) : handler unit :=
  if code contactType ContactTypeUser then
    db! target := ActiveUser contactId else not_found "user not found" in
    if code (uStatus target) UserStatusDisable then answer "user is disabled" None (-2) else submit_apply userId contactId contactType message
  else
    db! target := ActiveGroup contactId else not_found "group not found" in
    if code (gStatus target) GroupStatusDisable then answer "group is disabled" None (-2) else submit_apply userId contactId contactType message.

Fixpoint last_name (names : list UserInfo) (uuid : string) (found : option string) : option string :=
  match names with
  | [] => found
  | u :: names => last_name names uuid (if eqs (uUuid u) uuid then Some (uNickname u) else found)
  end.
(** Each application with the name of who made it. *)
Definition toApplyResponses (l : list ContactApply) : call (list (ContactApply * string)) := fun w =>
  let (names, w) := (if bool_decide (l = []) then ret [] else ActiveUsersIn (aUserId <$> l)) w in
  let names := match names with Ok us => us | Err _ => [] end in
  (Ok ((fun a => (a, or_else (last_name names (aUserId a) None) (aUserId a))) <$> l), w).

Definition GetNewContactList (userId : string) : handler (list (ContactApply * string)) :=
  db! l := Find applies (fun a => active (aDeletedAt a) && eqs (aContactId a) userId && code (aContactType a) ContactTypeUser && code (aStatus a) ApplyStatusApplying) else system_error in
  db! rs := toApplyResponses (sort_desc aLastApplyAt l) else system_error in
  answer "success" (Some rs) 0.

Definition GetAddGroupList (ownerId : string) : handler (list (ContactApply * string)) :=
  db! gs := Find groups (fun g => active (gDeletedAt g) && eqs (gOwnerId g) ownerId) else system_error in
  if bool_decide (gs = []) then answer "success" (Some []) 0 else
  db! l := Find applies (fun a => active (aDeletedAt a) && isin (aContactId a) (gUuid <$> gs) && code (aContactType a) ContactTypeGroup && code (aStatus a) ApplyStatusApplying) else system_error in
  db! rs := toApplyResponses (sort_desc aLastApplyAt l) else system_error in
  answer "success" (Some rs) 0.

Definition ensureUserContact (userId contactId : string) : call unit := ensureContact ContactTypeUser userId contactId.

Definition set_apply (applyId : string) (status : Z) : call unit :=
  Update applies (fun a => eqs (aUuid a) applyId) (fun a => a <| aStatus := status |>).

Definition PassContactApply (supported : bool) (applyId : string) : handler unit :=
  db! apply := First applies (fun a => active (aDeletedAt a) && eqs (aUuid a) applyId) else system_error in
  if negb (code (aStatus apply) ApplyStatusApplying) then answer "application already handled" None (-2) else
  db! _ := WithTransaction supported (
      do? _ := set_apply applyId ApplyStatusPass in
      if code (aContactType apply) ContactTypeGroup then
        do? _ := ActiveGroup (aContactId apply) in
        do? _ := addGroupMember (aContactId apply) (aUserId apply) in
        ensureGroupContact (aUserId apply) (aContactId apply)
      else
        do? _ := ensureUserContact (aUserId apply) (aContactId apply) in
        ensureUserContact (aContactId apply) (aUserId apply)) else system_error in
  run! (if code (aContactType apply) ContactTypeGroup then
      do? _ := PushSystem NotifyGroup [aUserId apply] in PushSystem NotifySession [aUserId apply]
    else PushSystem NotifyContact [aUserId apply; aContactId apply]) in
  answer "application approved" None 0.

Definition RefuseContactApply (applyId : string) : handler unit :=
  db! _ := set_apply applyId ApplyStatusRefuse else system_error in answer "application refused" None 0.
Definition BlackApply (applyId : string) : handler unit :=
  db! _ := set_apply applyId ApplyStatusBlack else system_error in answer "application blocked" None 0.

(** ** Blocks *)

Definition set_contact (userId contactId : string) (status t : Z) : call unit :=
  Update contacts (of_contact userId contactId) (fun c => c <| cStatus := status |> <| cUpdatedAt := t |>).
Definition drop_session (sendId receiveId : string) (t : Z) : call unit :=
  Update sessions (fun s => of_pair sendId receiveId s && active (sDeletedAt s)) (fun s => s <| sDeletedAt := Some t |>).

Definition BlackContact (userId contactId : string) : handler unit :=
  db! t := now else system_error in
  db! _ := set_contact userId contactId ContactBlack t else system_error in
  db! _ := set_contact contactId userId ContactBeBlack t else system_error in
  run! drop_session userId contactId t in
  run! SessionListCache_Delete userId in
  run! PushSystem NotifyContact [contactId] in
  answer "contact blocked" None 0.

Definition CancelBlackContact (userId contactId : string) : handler unit :=
  db! t := now else system_error in
  db! _ := set_contact userId contactId ContactNormal t else system_error in
  db! _ := set_contact contactId userId ContactNormal t else system_error in
  run! PushSystem NotifyContact [contactId] in
  answer "contact unblocked" None 0.

Definition drop_contact (userId contactId : string) (status t : Z) : call unit :=
  Update contacts (fun c => of_contact userId contactId c && active (cDeletedAt c)) (fun c => c <| cStatus := status |> <| cDeletedAt := Some t |>).
Definition drop_apply (userId contactId : string) (t : Z) : call unit :=
  Update applies (fun a => of_apply userId contactId a && active (aDeletedAt a)) (fun a => a <| aDeletedAt := Some t |>).

Definition DeleteContact (supported : bool) (userId contactId : string) : handler unit :=
  db! _ := WithTransaction supported (
      do? t := now in
      do? _ := drop_contact userId contactId ContactDelete t in
      do? _ := drop_contact contactId userId ContactBeDelete t in
      do? _ := drop_session userId contactId t in
      do? _ := drop_session contactId userId t in
      do? _ := drop_apply userId contactId t in
      drop_apply contactId userId t) else system_error in
  run! SessionListCache_Delete userId in
  run! SessionListCache_Delete contactId in
  run! PushSystem NotifyContact [contactId] in
  run! PushSystem NotifySession [contactId] in
  answer "deleted" None 0.

(** ** Accounts ([user_service.go]); passwords are hashed by [util/password.go] *)

Section Accounts.
Context (HashPassword : string -> string) (VerifyPassword : string -> string -> bool).

Definition of_telephone (telephone : string) (u : UserInfo) : bool := active (uDeletedAt u) && eqs (uTelephone u) telephone.
Definition of_user (uuid : string) (u : UserInfo) : bool := eqs (uUuid u) uuid.

Definition Login (telephone password : string) : handler UserInfo :=
  db! u := First users (of_telephone telephone) else (fun _ => answer "user not found, please register" None (-2)) in
  if negb (VerifyPassword (uPassword u) password) then answer "incorrect password" None (-2) else
  if code (uStatus u) UserStatusDisable then answer "account is disabled" None (-2) else
  answer "login successful" (Some u) 0.

Definition Register (telephone password nickname : string) : handler UserInfo :=
  let create : handler UserInfo :=
    db! r := GetNowAndLenRandomString else system_error in
    db! t := now else system_error in
    let user := mkUser (String "U" r) nickname telephone "" (HashPassword password) t None None None 0 UserStatusNormal in
    db! _ := Insert users (Some uUuid) [user] else system_error in
    db! r := GetNowAndLenRandomString else system_error in
    run! Insert tags (Some tUuid) [mkTag (String "T" r) (uUuid user) "Friends" t None] in
    answer "registration successful" (Some user) 0 in
  db! _ := First users (of_telephone telephone) else (fun _ => create) in
  answer "phone number already registered" None (-2).

Definition UserInfoCache_Delete (uuid : string) : call unit := fun w => (Ok tt, w <| userCache := delete uuid (userCache w) |>).

Definition UpdatePassword (telephone password : string) : handler unit :=
  db! u := First users (of_telephone telephone) else (fun _ => answer "user not found" None (-2)) in
  db! _ := Update users (of_user (uUuid u)) (fun x => x <| uPassword := HashPassword password |>) else system_error in
  run! UserInfoCache_Delete (uUuid u) in
  answer "password updated" None 0.
End Accounts.

(** [UpdateUserInfo], of the fields [nickname] and [avatar]. *)
Definition UpdateUserInfo (uuid : string) (nickname avatar : option string) : handler unit :=
  if bool_decide (nickname = None) && bool_decide (avatar = None) then answer "user info updated" None 0 else
  db! _ := Update users (of_user uuid) (fun u => u <| uNickname := or_else nickname (uNickname u) |> <| uAvatar := or_else avatar (uAvatar u) |>) else system_error in
  run! UserInfoCache_Delete uuid in
  run! sync_sessions uuid nickname avatar in
  answer "user info updated" None 0.

(** [UserInfoCache] fills itself from the users that are active, without their passwords. *)
Definition UserInfoCache_Get (uuid : string) : call UserInfo := fun w =>
  match userCache w !! uuid with
  | Some u => (Ok u, w)
  | None => (if eqs uuid "" then throw Failed else
             do? u := ActiveUser uuid in
             let u := u <| uPassword := "" |> in fun w => (Ok u, w <| userCache := <[uuid := u]> (userCache w) |>)) w
  end.

Definition GetUserInfo (uuid : string) : handler UserInfo :=
  db! u := UserInfoCache_Get uuid else (fun _ => db! u := ActiveUser uuid else system_error in answer "user info retrieved" (Some u) 0) in
  answer "user info retrieved" (Some u) 0.

Definition GetUserInfoList (ownerId : string) : handler (list UserInfo) :=
  db! l := Find users (fun u => negb (eqs (uUuid u) ownerId)) else system_error in answer "user list retrieved" (Some l) 0.

Definition invalidateUserCaches (uuidList : list string) : call unit :=
  each (fun u => do? _ := UserInfoCache_Delete u in SessionListCache_Delete u) uuidList.

Definition AbleUsers (uuidList : list string) : handler unit :=
  db! _ := Update users (fun u => isin (uUuid u) uuidList) (fun u => u <| uStatus := UserStatusNormal |>) else system_error in
  run! invalidateUserCaches uuidList in
  answer "users enabled" None 0.

Definition drop_sessions_of (sendId : string) (t : Z) : call unit :=
  Update sessions (fun s => eqs (sSendId s) sendId && active (sDeletedAt s)) (fun s => s <| sDeletedAt := Some t |>).

Definition DisableUsers (uuidList : list string) : handler unit :=
  db! _ := Update users (fun u => isin (uUuid u) uuidList) (fun u => u <| uStatus := UserStatusDisable |>) else system_error in
  run! invalidateUserCaches uuidList in
  db! t := now else system_error in
  run! each (fun u => do? _ := invalidateSessionCacheByReceiver u in do? _ := ignoring (drop_sessions_of u t) in ignoring (drop_sessions_to u t)) uuidList in
  answer "users disabled" None 0.

Definition DeleteUsers (uuidList : list string) : handler unit :=
  db! t := now else system_error in
  db! _ := Update users (fun u => isin (uUuid u) uuidList) (fun u => u <| uDeletedAt := Some t |>) else system_error in
  run! invalidateUserCaches uuidList in
  run! each (fun u =>
      do? _ := invalidateSessionCacheByReceiver u in
      do? _ := ignoring (drop_sessions_of u t) in
      do? _ := ignoring (drop_sessions_to u t) in
      do? _ := ignoring (Update contacts (fun c => eqs (cUserId c) u && active (cDeletedAt c)) (fun c => c <| cDeletedAt := Some t |>)) in
      do? _ := ignoring (Update contacts (fun c => eqs (cContactId c) u && active (cDeletedAt c)) (fun c => c <| cDeletedAt := Some t |>)) in
      do? _ := ignoring (Update applies (fun a => eqs (aUserId a) u && active (aDeletedAt a)) (fun a => a <| aDeletedAt := Some t |>)) in
      ignoring (Update applies (fun a => eqs (aContactId a) u && active (aDeletedAt a)) (fun a => a <| aDeletedAt := Some t |>))) uuidList in
  answer "users deleted" None 0.

Definition SetAdmin (uuidList : list string) (isAdmin : Z) : handler unit :=
  db! _ := Update users (fun u => isin (uUuid u) uuidList) (fun u => u <| uIsAdmin := isAdmin |>) else system_error in
  run! invalidateUserCaches uuidList in
  answer "admin status updated" None 0.
