(* ===== verification/ChatServer.v ===== *)
(** * ChatServer
    [service/chat_server.go], [service/call_manager.go] and
    [service/message_service.go]: the clients that are connected, the messages
    they send, and the calls between them. [serve] runs one request to its end
    before the next: interleavings of two handlers are not modelled. *)
From S2P Require Import Prelude GoStrings ChatModel ChatGroups ChatContacts.
Local Open Scope string_scope.
Local Open Scope list_scope.
Local Open Scope Z_scope.

(** ** [call_manager.go] *)

(** [<=] of strings. *)
Fixpoint string_le (a b : string) : bool :=
  match a, b with
  | EmptyString, _ => true
  | String _ _, EmptyString => false
  | String x a, String y b => if decide (x = y) then string_le a b else bool_decide (Ascii.N_of_ascii x < Ascii.N_of_ascii y)%N
  end.

Definition CallRoomId (sendId receiveId : string) : string :=
  if is_group receiveId then receiveId else
  if is_group sendId then sendId else
  let (a, b) := if string_le sendId receiveId then (sendId, receiveId) else (receiveId, sendId) in
  String.append "P:" (String.append a (String.append ":" b)).

Definition room (m : callManager) (roomId : string) : gset string := default ∅ (rooms m !! roomId).
Definition IsBusy (m : callManager) (uuid : string) : bool := negb (eqs (default "" (callers m !! uuid)) "").
Definition InRoom (m : callManager) (roomId uuid : string) : bool := bool_decide (uuid ∈ room m roomId).

Definition Join (roomId uuid : string) (m : callManager) : callManager * bool :=
  if match callers m !! uuid with Some cur => negb (eqs cur roomId) | None => false end then (m, false) else
  (mkCalls (<[roomId := room m roomId ∪ {[uuid]}]> (rooms m)) (<[uuid := roomId]> (callers m)), true).

(** In the order of the names. *)
Fixpoint insert_name (a : string) (l : list string) : list string :=
  match l with
  | [] => [a]
  | x :: l => if string_le a x then a :: x :: l else x :: insert_name a l
  end.
Definition sort_names (s : gset string) : list string := foldr insert_name [] (elements s).

Definition Leave (uuid : string) (m : callManager) : callManager * (string * list string) :=
  match callers m !! uuid with
  | None => (m, ("", []))
  | Some roomId =>
      let members := room m roomId ∖ {[uuid]} in
      (mkCalls (if decide (members = ∅) then delete roomId (rooms m) else <[roomId := members]> (rooms m)) (delete uuid (callers m)),
       (roomId, sort_names members))
  end.

Definition Members (m : callManager) (roomId : string) : list string := sort_names (room m roomId).
Definition GetCallers (m : callManager) (roomId selfId : string) : list string := List.filter (fun u => negb (eqs u selfId)) (Members m roomId).

Definition CanSeeCallRoom (roomId uuid : string) : world -> bool * world := fun w =>
  if eqs uuid "" || eqs roomId "" then (false, w) else
  if InRoom (Calls w) roomId uuid then (true, w) else
  match roomId with
  | String "P"%char (String ":"%char both) => (isin uuid (Split both ":"%char), w)
  | _ =>
      if negb (is_group roomId) then (false, w) else
      (db! g := ActiveGroup roomId else (fun _ w => (false, w)) in fun w => (isin uuid (gMembers g), w)) w
  end.

Definition on_calls {A} (f : callManager -> callManager * A) : call A := fun w => (Ok (f (Calls w)).2, w <| Calls := (f (Calls w)).1 |>).

(** ** Messages *)

(** What a client sends: who it claims to be in [qSendId] and the rest. *)
Record ChatMessageRequest := mkRequest {
  qType : Z; qContent : string; qFile : attachment; qSendId : string; qSendName : string; qSendAvatar : string; qReceiveId : string; qAVdata : string
}.
Record inbound := mkInbound { senderId : string; payload : string }.
Record signal := mkSignal { MessageId : string; SignalType : string; RoomId : string }.

Definition to_item (m : Message) (avdata : string) : MessageListItem :=
  mkItem (mUuid m) (mSendId m) (mSendName m) (mSendAvatar m) (mReceiveId m) (mType m) (mContent m) (mFile m) (mCreatedAt m) avdata.

Definition toMessageListItem (m : Message) : MessageListItem := to_item m "".

Definition GetMessageList (sendId receiveId : string) : handler (list MessageListItem) :=
  db! l := Find messages (fun m => eqs (mSendId m) sendId && eqs (mReceiveId m) receiveId || eqs (mSendId m) receiveId && eqs (mReceiveId m) sendId) else system_error in
  answer "success" (Some (toMessageListItem <$> sort_asc mCreatedAt l)) 0.
Definition GetGroupMessageList (groupId : string) : handler (list MessageListItem) :=
  db! l := Find messages (fun m => eqs (mReceiveId m) groupId) else system_error in
  answer "success" (Some (toMessageListItem <$> sort_asc mCreatedAt l)) 0.

Definition online (w : world) (uuid : string) : bool := bool_decide (is_Some (Clients w !! uuid)).
Definition GetOnlineUserList (w : world) : list string := (map_to_list (Clients w)).*1.

Definition markSent (uuid : string) : call unit :=
  do? t := now in
  ignoring (Update messages (fun m => eqs (mUuid m) uuid) (fun m => m <| mStatus := MessageSent |> <| mSendAt := Some t |>)).

(** Whether a buffer takes it, for each of the targets that are connected. *)
Fixpoint delivered (item : MessageListItem) (cs : gmap string Client) (targets : list string) : Z :=
  match targets with
  | [] => 0
  | t :: targets =>
      (match cs !! t with Some c => if decide (zlen (SendBack c) < ChannelSize) then 1 else 0 | None => 0 end) + delivered item (deliver item cs t) targets
  end.

(** Those the message goes to; a message of a call does not open sessions. *)
Definition targets_of (msg : Message) (echoToSender : bool) : call (list string) :=
  if is_user (mReceiveId msg) then
    ret (mReceiveId msg :: (if echoToSender && negb (eqs (mSendId msg) (mReceiveId msg)) then [mSendId msg] else []))
  else if is_group (mReceiveId msg) then
    do? group := ActiveGroup (mReceiveId msg) in
    do? _ := (if visible msg then touchGroupSessions group else ret tt) in
    ret (List.filter (fun m => echoToSender || negb (eqs m (mSendId msg))) (gMembers group))
  else throw Failed.

Definition broadcast (msg : Message) (echoToSender : bool) : call unit :=
  if eqs (mReceiveId msg) "" then ret tt else
  let item := to_item msg (if visible msg then "" else mAVdata msg) in
  ignoring (
    do? targets := targets_of msg echoToSender in
    fun w =>
      let n := delivered item (Clients w) targets in
      (do? _ := sendRaw item targets in if bool_decide (0 < n) && visible msg then markSent (mUuid msg) else ret tt) w).

Definition sendAVToUsers (msg : Message) (targets : list string) : call unit :=
  if bool_decide (targets = []) then ret tt else sendRaw (to_item msg (mAVdata msg)) targets.

(** The JSON of a request and of the data of a call are read, and the latter
    written, by the library. *)
Section Server.
Context (unmarshal : string -> option ChatMessageRequest) (unmarshal_av : string -> signal) (marshal : list (string * string) -> string).

Definition resolveSender (uuid : string) : call (string * string) := do? u := UserInfoCache_Get uuid in ret (uNickname u, uAvatar u).

Definition sendCallFailed (uuid roomId reason : string) : call unit :=
  do? t := now in
  sendRaw (mkItem "" "SYSTEM" "" "" uuid MessageAudioOrVideo "" no_attachment t
             (marshal [("messageId", "PROXY"); ("type", "call_failed"); ("room_id", roomId); ("reason", reason)])) [uuid].

Definition handleStartCall (msg : Message) (roomId : string) : call unit := fun w =>
  let caller := mSendId msg in
  if IsBusy (Calls w) caller && negb (InRoom (Calls w) roomId caller) then sendCallFailed caller roomId "you are already in a call" w else
  if is_user (mReceiveId msg) then
    let callee := mReceiveId msg in
    if negb (online w callee) then sendCallFailed caller roomId "the other user is offline" w else
    if IsBusy (Calls w) callee then sendCallFailed caller roomId "the other user is in a call" w else
    (do? _ := on_calls (Join roomId caller) in broadcast msg false) w
  else if is_group (mReceiveId msg) then
    (db! group := ActiveGroup (mReceiveId msg) else (fun _ => sendCallFailed caller roomId "group not found") in
     fun w =>
       let candidates := List.filter (fun m => negb (eqs m caller) && online w m && negb (IsBusy (Calls w) m)) (gMembers group) in
       if negb (isin caller (gMembers group)) then sendCallFailed caller roomId "you are not a member of this group" w else
       if bool_decide (candidates = []) && bool_decide (Members (Calls w) roomId = []) then sendCallFailed caller roomId "no one is available for the call" w else
       (do? _ := on_calls (Join roomId caller) in sendAVToUsers msg candidates) w) w
  else (Ok tt, w).

Definition is_proxy (av : signal) (kind : string) : bool := eqs (MessageId av) "PROXY" && eqs (SignalType av) kind.

(** What a signal does, after it is stored. *)
Definition handleSignal (msg : Message) (av : signal) (roomId : string) : call unit := fun w =>
  if is_proxy av "start_call" then handleStartCall msg roomId w else
  if is_proxy av "receive_call" then (do? _ := on_calls (Join roomId (mSendId msg)) in broadcast msg false) w else
  if is_proxy av "join_call" then
    let others := GetCallers (Calls w) roomId (mSendId msg) in
    (do? _ := on_calls (Join roomId (mSendId msg)) in sendAVToUsers msg others) w else
  if is_proxy av "reject_call" then
    (if is_user (mReceiveId msg) then
      do? _ := each (fun m => do? _ := on_calls (Leave m) in ret tt) (Members (Calls w) roomId) in broadcast msg false
    else ret tt) w else
  if eqs (MessageId av) "PEER_LEAVE" || is_proxy av "leave_call" then
    (do? gone := on_calls (Leave (mSendId msg)) in
     do? _ := (if eqs gone.1 "" then ret tt else sendAVToUsers msg gone.2) in
     if is_user (mReceiveId msg) && negb (negb (eqs gone.1 "") && isin (mReceiveId msg) gone.2) then broadcast msg false else ret tt) w else
  broadcast msg false w.

Definition handleAVMessage (msg : Message) : call unit :=
  let av := unmarshal_av (mAVdata msg) in
  run! (if is_proxy av "start_call" || is_proxy av "receive_call" || is_proxy av "reject_call" then Insert messages (Some mUuid) [msg] else ret tt) in
  handleSignal msg av (if eqs (RoomId av) "" then CallRoomId (mSendId msg) (mReceiveId msg) else RoomId av).

(** The rest of [handleMessage], for the name and the picture of the sender. *)
Definition acceptMessage (sender name avatar : string) (req : ChatMessageRequest) : call unit :=
  do? r := GetNowAndLenRandomString in
  do? t := now in
  let msg := mkMessage (String "M" r) (qType req) (qContent req) (qFile req) sender name avatar (qReceiveId req) MessageUnsent t None (qAVdata req) in
  if code (qType req) MessageAudioOrVideo then handleAVMessage msg else
  do? _ := Insert messages (Some mUuid) [msg] in
  do? _ := (if is_user (mReceiveId msg) then touchDirectSessions (mSendId msg) (mReceiveId msg) else ret tt) in
  broadcast msg true.

Definition handleMessage (i : inbound) : call unit :=
  match unmarshal (payload i) with
  | None => ret tt
  | Some req =>
      db! who := resolveSender (senderId i) else (fun _ => acceptMessage (senderId i) (qSendName req) (qSendAvatar req) req) in
      acceptMessage (senderId i) who.1 who.2 req
  end.

(** ** Clients *)

(** The connection that is shut down for a new one of the same user. *)
Definition register (uuid : string) (conn : Z) : world -> option Z * world := fun w =>
  let old := Clients w !! uuid in
  let w := w <| Clients := <[uuid := mkClient conn []]> (Clients w) |> in
  (Conn <$> old,
   match old with
   | Some _ => w
   | None => ((do? _ := BroadcastSystem NotifyOnline uuid in
               do? t := now in
               Update users (of_user uuid) (fun u => u <| uLastOnlineAt := Some t |>)) w).2
   end).

Definition unregister (uuid : string) (conn : Z) : world -> world := fun w =>
  if match Clients w !! uuid with Some c => bool_decide (Conn c = conn) | None => false end then
    ((do? gone := on_calls (Leave uuid) in
      do? t := now in
      do? _ := (if negb (eqs gone.1 "") && negb (bool_decide (gone.2 = []))
                then sendRaw (mkItem "" uuid "" "" gone.1 MessageAudioOrVideo "" no_attachment t (marshal [("messageId", "PROXY"); ("type", "leave_call"); ("room_id", gone.1)])) gone.2
                else ret tt) in
      do? _ := BroadcastSystem NotifyOnline uuid in
      Update users (of_user uuid) (fun u => u <| uLastOfflineAt := Some t |>)) (w <| Clients := delete uuid (Clients w) |>)).2
  else w.

Definition ClientLogout (uuid : string) : world -> world := fun w =>
  match Clients w !! uuid with Some c => unregister uuid (Conn c) w | None => w end.

(** [clientWrite] takes what is next to be written; [Stop] closes them all. *)
Definition clientWrite (uuid : string) : world -> option MessageListItem * world := fun w =>
  match Clients w !! uuid with
  | Some (mkClient conn (item :: rest)) => (Some item, w <| Clients := <[uuid := mkClient conn rest]> (Clients w) |>)
  | _ => (None, w)
  end.
Definition stop : world -> list Z * world := fun w => (Conn <$> (map_to_list (Clients w)).*2, w <| Clients := ∅ |>).
End Server.

(** A message of a client waits for the event loop, or is rejected. *)
Definition OnMessage (uuid text : string) (transmit : list inbound) : list inbound * bool :=
  if decide (zlen transmit < ChannelSize) then (transmit ++ [mkInbound uuid text], true) else (transmit, false).

(** ** [router/router.go]: what the service is asked, the requests that only read
    the database left out, and the messages and connections of its clients *)

Inductive request :=
  | rRegister (telephone password nickname : string) | rUpdatePassword (telephone password : string)
  | rUpdateUserInfo (uuid : string) (nickname avatar : option string) | rGetUserInfo (uuid : string)
  | rAbleUsers (uuids : list string) | rDisableUsers (uuids : list string) | rDeleteUsers (uuids : list string) | rSetAdmin (uuids : list string) (isAdmin : Z)
  | rCreateGroup (name owner avatar notice : string) (addMode : Z) (members : list string) | rEnterGroupDirectly (user group : string)
  | rLeaveGroup (user group : string) | rDismissGroup (group : string) | rUpdateGroupInfo (uuid name notice avatar : string) (addMode : option Z)
  | rRemoveGroupMembers (group : string) (members : list string) | rInviteGroupMembers (group : string) (members : list string)
  | rDeleteGroups (uuids : list string) | rSetGroupsStatus (uuids : list string) (status : Z)
  | rOpenSession (send receive : string) | rGetUserSessionList (owner : string) | rGetGroupSessionList (owner : string)
  | rDeleteSession (owner session : string) | rMarkSessionRead (owner receive : string)
  | rAddTag (owner name : string) | rUpdateContact (user contact : string) (note tag : option string)
  | rApplyContact (user contact : string) (kind : Z) (message : string) | rPassContactApply (apply : string) | rRefuseContactApply (apply : string)
  | rBlackContact (user contact : string) | rCancelBlackContact (user contact : string) | rBlackApply (apply : string) | rDeleteContact (user contact : string)
  | rMessage (i : inbound) | rConnect (uuid : string) (conn : Z) | rDisconnect (uuid : string) (conn : Z) | rLogout (uuid : string) | rWrite (uuid : string).

(** What the service relies on: whether the database has transactions, the hash
    of a password, the trimming of a name, and JSON. *)
Class Library := {
  supported : bool;
  HashPassword : string -> string;
  TrimSpace : string -> string;
  unmarshal : string -> option ChatMessageRequest;
  unmarshal_av : string -> signal;
  marshal : list (string * string) -> string
}.

Definition serve `{Library} (r : request) (w : world) : world :=
  match r with
  | rRegister t p n => (Register HashPassword t p n w).2
  | rUpdatePassword t p => (UpdatePassword HashPassword t p w).2
  | rUpdateUserInfo u n a => (UpdateUserInfo u n a w).2
  | rGetUserInfo u => (GetUserInfo u w).2
  | rAbleUsers l => (AbleUsers l w).2
  | rDisableUsers l => (DisableUsers l w).2
  | rDeleteUsers l => (DeleteUsers l w).2
  | rSetAdmin l a => (SetAdmin l a w).2
  | rCreateGroup n o a t m l => (CreateGroup supported n o a t m l w).2
  | rEnterGroupDirectly u g => (EnterGroupDirectly u g w).2
  | rLeaveGroup u g => (LeaveGroup u g w).2
  | rDismissGroup g => (DismissGroup supported g w).2
  | rUpdateGroupInfo u n o a m => (handler_UpdateGroupInfo u n o a m w).2
  | rRemoveGroupMembers g l => (RemoveGroupMembers g l w).2
  | rInviteGroupMembers g l => (InviteGroupMembers g l w).2
  | rDeleteGroups l => (DeleteGroups l w).2
  | rSetGroupsStatus l s => (SetGroupsStatus l s w).2
  | rOpenSession s r => (OpenSession s r w).2
  | rGetUserSessionList o => (GetUserSessionList o w).2
  | rGetGroupSessionList o => (GetGroupSessionList o w).2
  | rDeleteSession o s => (DeleteSession o s w).2
  | rMarkSessionRead o r => (MarkSessionRead o r w).2
  | rAddTag o n => (AddTag TrimSpace o n w).2
  | rUpdateContact u c n t => (UpdateContact u c n t w).2
  | rApplyContact u c k m => (ApplyContact u c k m w).2
  | rPassContactApply a => (PassContactApply supported a w).2
  | rRefuseContactApply a => (RefuseContactApply a w).2
  | rBlackContact u c => (BlackContact u c w).2
  | rCancelBlackContact u c => (CancelBlackContact u c w).2
  | rBlackApply a => (BlackApply a w).2
  | rDeleteContact u c => (DeleteContact supported u c w).2
  | rMessage i => (handleMessage unmarshal unmarshal_av marshal i w).2
  | rConnect u c => (register u c w).2
  | rDisconnect u c => unregister marshal u c w
  | rLogout u => ClientLogout marshal u w
  | rWrite u => (clientWrite u w).2
  end.
Definition serve_all `{Library} (rs : list request) (w : world) : world := foldl (fun w r => serve r w) w rs.
