(* ===== verification/ChatLogic.v ===== *)
(** * ChatLogic
    Reasoning about the handlers of the chat service: triples whose [calm] says
    that no command fails, and what a handler leaves alone. *)
From S2P Require Import Prelude GoStrings ChatModel ChatGroups ChatContacts ChatServer.
Local Open Scope string_scope.
Local Open Scope list_scope.
Local Open Scope Z_scope.

Lemma eqs_true a b : eqs a b = true <-> a = b.
Proof. apply bool_decide_eq_true. Qed.
Lemma eqs_false a b : eqs a b = false <-> a <> b.
Proof. apply bool_decide_eq_false. Qed.
Lemma code_true a b : code a b = true <-> a = b.
Proof. apply bool_decide_eq_true. Qed.
Lemma code_false a b : code a b = false <-> a <> b.
Proof. apply bool_decide_eq_false. Qed.
Lemma isin_true a l : isin a l = true <-> a ∈ l.
Proof. apply bool_decide_eq_true. Qed.
Lemma isin_false a l : isin a l = false <-> a ∉ l.
Proof. apply bool_decide_eq_false. Qed.
Lemma active_true o : active o = true <-> o = None.
Proof. by destruct o. Qed.
Lemma find_elem {D} (P : D -> bool) l d : List.find P l = Some d -> d ∈ l /\ P d = true.
Proof. intros H. apply find_some in H as [H ?]. split; [by apply list_elem_of_In | done]. Qed.
Lemma find_missing {D} (P : D -> bool) l d : List.find P l = None -> d ∈ l -> P d = false.
Proof. intros H Hd. eapply find_none; [done | by apply list_elem_of_In]. Qed.
Lemma filter_elem {D} (P : D -> bool) l d : d ∈ List.filter P l <-> d ∈ l /\ P d = true.
Proof. rewrite !list_elem_of_In. apply filter_In. Qed.

(** ** Triples *)

Definition calm (b : bool) (w : world) : Prop := b = true -> faults w = [].
Definition triple {R} (b : bool) (P : world -> Prop) (m : world -> R * world) (Q : R -> world -> Prop) : Prop :=
  forall w, calm b w -> P w -> calm b (m w).2 /\ Q (m w).1 (m w).2.

(** What a predicate may depend on: neither the commands to come nor the draws. *)
Class Steady (P : world -> Prop) := steady : forall w fs dr, P w -> P (w <| faults := fs |> <| draws := dr |>).
Lemma steady_faults P `{!Steady P} w fs : P w -> P (w <| faults := fs |>).
Proof. intros H. apply (steady w fs (draws w)) in H. by destruct w. Qed.
Lemma steady_draws P `{!Steady P} w dr : P w -> P (w <| draws := dr |>).
Proof. intros H. apply (steady w (faults w) dr) in H. by destruct w. Qed.

Section Rules.
Context {b : bool}.

Lemma t_weaken {R} (P P' : world -> Prop) (m : world -> R * world) (Q Q' : R -> world -> Prop) :
  triple b P m Q -> (forall w, P' w -> P w) -> (forall r w, Q r w -> Q' r w) -> triple b P' m Q'.
Proof. intros H H1 H2 w Hc HP. destruct (H w Hc (H1 w HP)). auto. Qed.
Lemma t_pure {R} (X : Prop) (P : world -> Prop) (m : world -> R * world) Q : (X -> triple b P m Q) -> triple b (fun w => X /\ P w) m Q.
Proof. intros H w Hc [HX HP]. by apply H. Qed.

Lemma t_ret {A} (a : A) (P : world -> Prop) (Q : result dberr A -> world -> Prop) : (forall w, P w -> Q (Ok a) w) -> triple b P (ret a) Q.
Proof. intros H w Hc HP. split; [done | by apply H]. Qed.
Lemma t_throw {A} e (P : world -> Prop) (Q : result dberr A -> world -> Prop) : (forall w, P w -> Q (Err e) w) -> triple b P (throw e) Q.
Proof. intros H w Hc HP. split; [done | by apply H]. Qed.
Lemma t_answer {A} msg (d : option A) c (P : world -> Prop) (Q : reply A -> world -> Prop) : (forall w, P w -> Q (mkReply msg d c) w) -> triple b P (answer msg d c) Q.
Proof. intros H w Hc HP. split; [done | by apply H]. Qed.
Lemma t_bind {A B} (m : call A) (k : A -> call B) P R Q :
  triple b P m (fun r w => match r with Ok a => R a w | Err e => Q (Err e) w end) -> (forall a, triple b (R a) (k a) Q) -> triple b P (bind m k) Q.
Proof. intros H1 H2 w Hc HP. destruct (H1 w Hc HP) as [Hc' H]. unfold bind. destruct (m w) as [[a | e] w']; simpl in *; [by apply H2 | done]. Qed.
Lemma t_attempt {A B} (m : call A) (onerr : dberr -> world -> B * world) (k : A -> world -> B * world) P R E Q :
  triple b P m (fun r w => match r with Ok a => R a w | Err e => E e w end) -> (forall e, triple b (E e) (onerr e) Q) -> (forall a, triple b (R a) (k a) Q) ->
  triple b P (attempt m onerr k) Q.
Proof. intros H1 H3 H2 w Hc HP. destruct (H1 w Hc HP) as [Hc' H]. unfold attempt. destruct (m w) as [[a | e] w']; simpl in *; [by apply H2 | by apply H3]. Qed.
Lemma t_after {A B} (m : call A) (k : world -> B * world) P R Q : triple b P m (fun _ => R) -> triple b R k Q -> triple b P (after m k) Q.
Proof. intros H1 H2 w Hc HP. destruct (H1 w Hc HP) as [Hc' H]. unfold after. by apply H2. Qed.
Lemma t_ignoring {A} (m : call A) P Q : triple b P m (fun _ w => Q (Ok tt) w) -> triple b P (ignoring m) Q.
Proof. intros H w Hc HP. by destruct (H w Hc HP). Qed.
Lemma t_each {A} (f : A -> call unit) l (P : world -> Prop) : (forall a, a ∈ l -> triple b P (f a) (fun _ => P)) -> triple b P (each f l) (fun _ => P).
Proof.
  induction l as [| a l IH]; intros H; simpl; [by apply t_ret |]. apply (t_bind _ _ _ (fun _ => P)).
  - eapply t_weaken; [apply H; by left | done |]. by intros [|].
  - intros _. apply IH. intros c Hc. apply H. by right.
Qed.
Lemma t_each_anyway {A} (f : A -> call unit) l (P : world -> Prop) : (forall a, a ∈ l -> triple b P (f a) (fun _ => P)) -> triple b P (each_anyway f l) (fun _ => P).
Proof.
  induction l as [| a l IH]; intros H; simpl; [by apply t_ret |]. apply (t_bind _ _ _ (fun _ => P)).
  - apply t_ignoring. apply H. by left.
  - intros _. apply IH. intros c Hc. apply H. by right.
Qed.

Lemma t_command {A} (run : DB -> result dberr A * DB) P (Q : result dberr A -> world -> Prop) `{HP0 : !Steady P} :
  (forall w, P w -> Q (run (data w)).1 (w <| data := (run (data w)).2 |>)) ->
  (b = false -> forall w, P w -> Q (Err Failed) w /\ Q (Err Failed) (w <| data := (run (data w)).2 |>)) -> triple b P (command run) Q.
Proof.
  intros H1 H2 w Hc HP. unfold command. destruct (faults w) as [| f rest] eqn:Hf.
  { split; [by unfold calm; simpl; rewrite Hf | by apply H1]. }
  assert (b = false) as Hb by (destruct b; [by specialize (Hc eq_refl); rewrite Hf in Hc | done]).
  assert (P (w <| faults := rest |>)) as HP' by by apply steady_faults.
  split; [by rewrite Hb |]. destruct f; simpl.
  - apply (H1 _ HP').
  - apply (H2 Hb _ HP').
  - apply (H2 Hb _ HP').
Qed.
Lemma t_now (P : world -> Prop) (Q : result dberr Z -> world -> Prop) : (forall w, P w -> Q (Ok (clock w)) w) -> triple b P now Q.
Proof. intros H w Hc HP. split; [done | by apply H]. Qed.
Lemma t_draw (P : world -> Prop) (Q : result dberr string -> world -> Prop) `{HP0 : !Steady P} : (forall r w, P w -> Q (Ok r) w) -> triple b P GetNowAndLenRandomString Q.
Proof.
  intros H w Hc HP. unfold GetNowAndLenRandomString. destruct (draws w); (split; [done |]); apply H; [done | by apply steady_draws].
Qed.
End Rules.

(** ** What is left alone *)

(** [m] does not change what [f] sees, and makes no command fail. *)
Definition leaves {R T} (f : world -> T) (m : world -> R * world) : Prop :=
  forall w, f (m w).2 = f w /\ (faults w = [] -> faults (m w).2 = []).
Class Loose {T} (f : world -> T) := loose : forall w fs dr, f (w <| faults := fs |> <| draws := dr |>) = f w.

Section Leaves.
Context {T : Type} (f : world -> T).
Lemma t_leaves {R} b (I : T -> Prop) (m : world -> R * world) : leaves f m -> triple b (fun w => I (f w)) m (fun _ w => I (f w)).
Proof. intros H w Hc HI. destruct (H w) as [E Hf]. split; [intros Hb; auto | by rewrite E]. Qed.
Lemma leaves_ret {A} (a : A) : leaves f (ret a).
Proof. by intros w. Qed.
Lemma leaves_throw {A} e : leaves f (throw (A := A) e).
Proof. by intros w. Qed.
Lemma leaves_answer {A} msg (d : option A) c : leaves f (answer msg d c).
Proof. by intros w. Qed.
Lemma leaves_now : leaves f now.
Proof. by intros w. Qed.
Lemma leaves_bind {A B} (m : call A) (k : A -> call B) : leaves f m -> (forall a, leaves f (k a)) -> leaves f (bind m k).
Proof.
  intros H1 H2 w. unfold bind. destruct (H1 w) as [E1 F1]. destruct (m w) as [[a | e] w']; simpl in *; [| done].
  destruct (H2 a w') as [E2 F2]. split; [by rewrite E2 | auto].
Qed.
Lemma leaves_attempt {A B} (m : call A) (onerr : dberr -> world -> B * world) (k : A -> world -> B * world) :
  leaves f m -> (forall e, leaves f (onerr e)) -> (forall a, leaves f (k a)) -> leaves f (attempt m onerr k).
Proof.
  intros H1 H3 H2 w. unfold attempt. destruct (H1 w) as [E1 F1]. destruct (m w) as [[a | e] w']; simpl in *;
    [destruct (H2 a w') as [E2 F2] | destruct (H3 e w') as [E2 F2]]; (split; [by rewrite E2 | auto]).
Qed.
Lemma leaves_after {A B} (m : call A) (k : world -> B * world) : leaves f m -> leaves f k -> leaves f (after m k).
Proof. intros H1 H2 w. unfold after. destruct (H1 w) as [E1 F1], (H2 (m w).2) as [E2 F2]. split; [by rewrite E2 | auto]. Qed.
Lemma leaves_ignoring {A} (m : call A) : leaves f m -> leaves f (ignoring m).
Proof. intros H w. apply H. Qed.
Lemma leaves_each {A} (g : A -> call unit) l : (forall a, leaves f (g a)) -> leaves f (each g l).
Proof. intros H. induction l as [| a l IH]; simpl; [apply leaves_ret | by apply leaves_bind]. Qed.
Lemma leaves_each_anyway {A} (g : A -> call unit) l : (forall a, leaves f (g a)) -> leaves f (each_anyway g l).
Proof. intros H. induction l as [| a l IH]; simpl; [apply leaves_ret | apply leaves_bind; [by apply leaves_ignoring | done]]. Qed.
Lemma leaves_if {R} (c : bool) (m k : world -> R * world) : leaves f m -> leaves f k -> leaves f (if c then m else k).
Proof. by destruct c. Qed.
(** For steps that are written as functions of the world. *)
Lemma leaves_case {R} (m : world -> R * world) : (forall w, exists m', m w = m' w /\ leaves f m') -> leaves f m.
Proof. intros H w. destruct (H w) as (m' & E & Hm). rewrite E. apply Hm. Qed.

Context {Hf : Loose f}.
Lemma loose_faults w fs : f (w <| faults := fs |>) = f w.
Proof. pose proof (loose w fs (draws w)) as H. by destruct w. Qed.
Lemma leaves_command {A} (run : DB -> result dberr A * DB) : (forall w, f (w <| data := (run (data w)).2 |>) = f w) -> leaves f (command run).
Proof.
  intros H w. unfold command. destruct (faults w) as [| [] rest] eqn:E; simpl; (split; [| done]).
  - apply H.
  - pose proof (H (w <| faults := rest |>)) as H1. by rewrite loose_faults in H1.
  - apply loose_faults.
  - pose proof (H (w <| faults := rest |>)) as H1. by rewrite loose_faults in H1.
Qed.
Lemma leaves_draw : leaves f GetNowAndLenRandomString.
Proof.
  intros w. unfold GetNowAndLenRandomString. destruct (draws w) as [| s l]; [done |]. simpl. split; [| done].
  pose proof (loose w (faults w) l) as H. by destruct w.
Qed.
Lemma leaves_transaction supported (fn : call unit) :
  (forall w w', f w' = f w -> f (w' <| data := data w |>) = f w) -> leaves f fn -> leaves f (WithTransaction supported fn).
Proof.
  intros Hd H w. unfold WithTransaction. destruct supported; simpl; [| apply H]. destruct (H w) as [E F]. destruct (fn w) as [[? | e] w']; simpl in *.
  - destruct (faults w') as [| [] rest] eqn:E2; simpl; (split; [| intros H0; specialize (F H0); congruence]).
    + done.
    + by rewrite loose_faults.
    + by rewrite loose_faults, Hd.
    + by rewrite loose_faults.
  - split; [by apply Hd | done].
Qed.
End Leaves.

(** ** Invariants *)

Definition holds {R} (b : bool) (I : world -> Prop) (m : world -> R * world) : Prop := triple b I m (fun _ => I).

Section Holds.
Context {b : bool} {I : world -> Prop}.
Lemma h_ret {A} (a : A) : holds b I (ret a).
Proof. by apply t_ret. Qed.
Lemma h_throw {A} e : holds b I (throw (A := A) e).
Proof. by apply t_throw. Qed.
Lemma h_answer {A} msg (d : option A) c : holds b I (answer msg d c).
Proof. by apply t_answer. Qed.
Lemma h_now : holds b I now.
Proof. by apply t_now. Qed.
Lemma h_bind {A B} (m : call A) (k : A -> call B) : holds b I m -> (forall a, holds b I (k a)) -> holds b I (bind m k).
Proof. intros H1 H2. apply (t_bind _ _ _ (fun _ => I)); [| done]. eapply t_weaken; [exact H1 | done |]. by intros [|]. Qed.
Lemma h_attempt {A B} (m : call A) (onerr : dberr -> world -> B * world) (k : A -> world -> B * world) :
  holds b I m -> (forall e, holds b I (onerr e)) -> (forall a, holds b I (k a)) -> holds b I (attempt m onerr k).
Proof. intros H1 H2 H3. apply (t_attempt _ _ _ _ (fun _ => I) (fun _ => I)); [| done | done]. eapply t_weaken; [exact H1 | done |]. by intros [|]. Qed.
Lemma h_after {A B} (m : call A) (k : world -> B * world) : holds b I m -> holds b I k -> holds b I (after m k).
Proof. intros H1 H2. by apply (t_after _ _ _ I). Qed.
Lemma h_ignoring {A} (m : call A) : holds b I m -> holds b I (ignoring m).
Proof. intros H. by apply t_ignoring. Qed.
Lemma h_each {A} (f : A -> call unit) l : (forall a, a ∈ l -> holds b I (f a)) -> holds b I (each f l).
Proof. apply t_each. Qed.
Lemma h_each_anyway {A} (f : A -> call unit) l : (forall a, a ∈ l -> holds b I (f a)) -> holds b I (each_anyway f l).
Proof. apply t_each_anyway. Qed.
Lemma h_if {R} (c : bool) (m k : world -> R * world) : holds b I m -> holds b I k -> holds b I (if c then m else k).
Proof. by destruct c. Qed.
Lemma h_command `{HI : !Steady I} {A} (run : DB -> result dberr A * DB) : (forall w, I w -> I (w <| data := (run (data w)).2 |>)) -> holds b I (command run).
Proof. intros H. apply t_command; [done | intros w; apply H | auto]. Qed.
Lemma h_first `{HI : !Steady I} {D} (coll : DB -> list D) P : triple b I (First coll P) (fun r w => I w /\ forall x, r = Ok x -> x ∈ coll (data w) /\ P x = true).
Proof.
  assert (forall w, I w -> I (w <| data := data w |>)) as Hd by (intros [] ?; done).
  apply t_command; [done | | ]; simpl.
  - intros w Hw. split; [by apply Hd |]. intros x Hx. destruct (List.find P (coll (data w))) eqn:E; [| done]. simplify_eq. by apply find_elem in E.
  - intros _ w Hw. split; (split; [auto |]); done.
Qed.
Lemma h_find `{HI : !Steady I} {D} (coll : DB -> list D) P : triple b I (Find coll P) (fun r w => I w /\ forall l, r = Ok l -> forall x, x ∈ l -> x ∈ coll (data w) /\ P x = true).
Proof.
  assert (forall w, I w -> I (w <| data := data w |>)) as Hd by (intros [] ?; done).
  apply t_command; [done | | ]; simpl.
  - intros w Hw. split; [by apply Hd |]. intros l Hl x Hx. simplify_eq. by apply filter_elem in Hx.
  - intros _ w Hw. split; (split; [auto |]); done.
Qed.
Lemma h_query `{HI : !Steady I} {A} (run : DB -> result dberr A * DB) : (forall d, (run d).2 = d) -> holds b I (command run).
Proof. intros H. apply h_command. intros w Hw. rewrite H. by destruct w. Qed.
Lemma h_draw `{HI : !Steady I} : holds b I GetNowAndLenRandomString.
Proof. by apply t_draw. Qed.

(** A transaction: the database is as it was unless the function succeeds. *)
Class Based (I : world -> Prop) := based : forall w w', data w = data w' -> I w -> I w'.
Lemma t_transaction supported (fn : call unit) (HI : Based I) :
  triple b I fn (fun r w => match r with Ok _ => I w | Err _ => supported = false -> I w end) -> holds b I (WithTransaction supported fn).
Proof.
  intros H w Hc HP. destruct (H w Hc HP) as [Hc' Hr]. unfold WithTransaction. destruct supported; simpl.
  - destruct (fn w) as [[[] | e] w'] eqn:E; simpl in *.
    + destruct (faults w') as [| f rest] eqn:F; [by split |].
      assert (b = false) as -> by (destruct b; [by specialize (Hc' eq_refl); rewrite F in Hc' | done]).
      destruct f; simpl; (split; [done |]); eapply based; [| exact Hr | | exact HP | | exact Hr]; done.
    + split; [done |]. by eapply based; [| exact HP].
  - destruct (fn w) as [[[] | e] w'] eqn:E; simpl in *; (split; [done |]); auto.
Qed.
End Holds.

(** ** Documents that are changed *)

(** All of a list that match are changed. *)
Abbreviation updated P f l := (fmap (M := list) (fun x => if P x then f x else x) l).

Lemma updated_elem {D} (P : D -> bool) (f : D -> D) l y :
  y ∈ updated P f l <-> exists x, x ∈ l /\ (P x = true /\ y = f x \/ P x = false /\ y = x).
Proof.
  rewrite list_elem_of_fmap. split.
  - intros (x & -> & Hx). exists x. split; [done |]. destruct (P x); auto.
  - intros (x & Hx & [[E ->] | [E ->]]); exists x; by rewrite E.
Qed.
Lemma updated_same {D T} (key : D -> T) (P : D -> bool) (f : D -> D) l : (forall x, P x = true -> key (f x) = key x) -> key <$> updated P f l = key <$> l.
Proof. intros H. rewrite <- list_fmap_compose. apply list_fmap_ext. intros i x _. simpl. destruct (P x) eqn:E; [by apply H | done]. Qed.

Lemma updated_id {D} (P : D -> bool) (f : D -> D) l : (forall x, x ∈ l -> P x = true -> f x = x) -> updated P f l = l.
Proof.
  intros H. transitivity (id <$> l); [| by rewrite list_fmap_id]. apply list_fmap_ext. intros i x Hi%list_elem_of_lookup_2. destruct (P x) eqn:E; [by apply H | done].
Qed.
Lemma updated_twice {D} (P : D -> bool) (f g h : D -> D) l :
  (forall x, x ∈ l -> P x = true -> P (f x) = true /\ g (f x) = h x) -> updated P g (updated P f l) = updated P h l.
Proof.
  intros H. rewrite <- list_fmap_compose. apply list_fmap_ext. intros i x Hi%list_elem_of_lookup_2. simpl. destruct (P x) eqn:E; [| by rewrite E].
  by destruct (H x Hi E) as [-> ->].
Qed.

Lemma find_unique {D} (P : D -> bool) l x : x ∈ l -> P x = true -> (forall y, y ∈ l -> P y = true -> y = x) -> List.find P l = Some x.
Proof.
  intros Hx HP Hu. destruct (List.find P l) as [y |] eqn:E.
  - apply find_elem in E as [Hy Ey]. by rewrite (Hu y).
  - by rewrite (find_missing _ _ _ E Hx) in HP.
Qed.


(** ** More rules *)

#[export] Instance steady_data (I : DB -> Prop) : Steady (fun w => I (data w)).
Proof. by intros w fs dr. Qed.
Lemma t_point {b R} (I : DB -> Prop) (m : world -> R * world) Q : (forall d, I d -> triple b (fun w => data w = d) m Q) -> triple b (fun w => I (data w)) m Q.
Proof. intros H w Hc HI. by apply (H (data w) HI). Qed.
Lemma attempt_bind {A B C} (m : call A) (k : A -> call B) (onerr : dberr -> world -> C * world) h w :
  attempt m onerr (fun a => attempt (k a) onerr h) w = attempt (bind m k) onerr h w.
Proof. unfold attempt, bind. by destruct (m w) as [[a | e] w']. Qed.
Lemma t_ext {b R} (m m' : world -> R * world) P Q : (forall w, m w = m' w) -> triple b P m' Q -> triple b P m Q.
Proof. intros H Ht w. rewrite H. apply Ht. Qed.

Lemma t_bind_ignoring {b A B} (m : call A) (k : call B) P R Q : triple b P m (fun _ => R) -> triple b R k Q -> triple b P (bind (ignoring m) (fun _ => k)) Q.
Proof. intros H1 H2. apply (t_bind _ _ _ (fun _ => R)); [by apply t_ignoring | by intros _]. Qed.
Lemma t_bind_ok {b B} (m : call unit) (k : call B) P R Q : triple b P m (fun r w => r = Ok tt /\ R w) -> triple b R k Q -> triple b P (bind m (fun _ => k)) Q.
Proof. intros H1 H2. apply (t_bind _ _ _ (fun _ => R)); [| by intros _]. eapply t_weaken; [exact H1 | done |]. by intros r w [-> ?]. Qed.
Lemma holds_both {b P Q R} (m : world -> R * world) : holds b P m -> holds b Q m -> holds b (fun w => P w /\ Q w) m.
Proof. intros H1 H2 w Hc [HP HQ]. destruct (H1 w Hc HP), (H2 w Hc HQ). done. Qed.


(** ** Automation: an invariant through a handler, and what a handler leaves *)

Create HintDb chat.
Ltac hold :=
  repeat (intros; lazymatch goal with
    | |- holds _ _ (ret _) => apply h_ret
    | |- holds _ _ (throw _) => apply h_throw
    | |- holds _ _ (answer _ _ _) => apply h_answer
    | |- holds _ _ (system_error _) => apply h_answer
    | |- holds _ _ now => apply h_now
    | |- holds _ _ GetNowAndLenRandomString => apply h_draw
    | |- holds _ _ (ignoring _) => apply h_ignoring
    | |- holds _ _ (bind _ _) => apply h_bind
    | |- holds _ _ (attempt _ _ _) => apply h_attempt
    | |- holds _ _ (after _ _) => apply h_after
    | |- holds _ _ (each _ _) => apply h_each
    | |- holds _ _ (each_anyway _ _) => apply h_each_anyway
    | |- holds _ _ (if _ then _ else _) => apply h_if
    | |- holds _ _ _ => solve [auto with chat]
    end); intros.

(** [f] sees neither the sessions nor the lists of them that are kept. *)
Class Sessionless {T} (f : world -> T) := sessionless : forall w l c, f (w <| data := data w <| sessions := l |> |> <| sessionCache := c |>) = f w.
Lemma sessionless_data {T} (f : world -> T) `{H : !Sessionless f} w F : f (w <| data := set sessions F (data w) |>) = f w.
Proof. pose proof (H w (F (sessions (data w))) (sessionCache w)) as E. by destruct w as [[] ? ? ? ? ? ? ?]. Qed.
Lemma sessionless_cache {T} (f : world -> T) `{H : !Sessionless f} w c : f (w <| sessionCache := c |>) = f w.
Proof. pose proof (H w (sessions (data w)) c) as E. by destruct w as [[] ? ? ? ? ? ? ?]. Qed.

Ltac leave :=
  repeat (intros; lazymatch goal with
    | |- leaves _ (ret _) => apply leaves_ret
    | |- leaves _ (throw _) => apply leaves_throw
    | |- leaves _ (answer _ _ _) => apply leaves_answer
    | |- leaves _ (system_error _) => apply leaves_answer
    | |- leaves _ now => apply leaves_now
    | |- leaves _ GetNowAndLenRandomString => apply leaves_draw; exact _
    | |- leaves _ (ignoring _) => apply leaves_ignoring
    | |- leaves _ (bind _ _) => apply leaves_bind
    | |- leaves _ (attempt _ _ _) => apply leaves_attempt
    | |- leaves _ (after _ _) => apply leaves_after
    | |- leaves _ (each _ _) => apply leaves_each
    | |- leaves _ (each_anyway _ _) => apply leaves_each_anyway
    | |- leaves _ (if _ then _ else _) => apply leaves_if
    | |- leaves _ (WithTransaction _ _) => apply leaves_transaction; [exact _ | done |]
    | |- leaves _ (fun w => (WithTransaction _ _) w) => apply leaves_transaction; [exact _ | done |]
    | |- leaves _ _ => first [solve [auto with chat] | apply leaves_command; [exact _ | intros ?; first [done | by apply sessionless_data | by (simpl; case_decide)]]]
    end); intros.

Lemma leaves_query {T} (f : world -> T) `{HF : !Loose f} {A} (run : DB -> result dberr A * DB) : (forall d, (run d).2 = d) -> leaves f (command run).
Proof. intros H. apply leaves_command; [done |]. intros w. rewrite H. by destruct w. Qed.
Lemma leaves_first {T} (f : world -> T) `{HF : !Loose f} {D} (coll : DB -> list D) P : leaves f (First coll P).
Proof. by apply leaves_query. Qed.
Lemma leaves_find {T} (f : world -> T) `{HF : !Loose f} {D} (coll : DB -> list D) P : leaves f (Find coll P).
Proof. by apply leaves_query. Qed.
#[export] Hint Resolve leaves_first leaves_find : chat.
#[export] Hint Extern 1 (Loose _) => exact _ : chat.
#[export] Hint Extern 1 (Sessionless _) => exact _ : chat.

Section Sessions.
Context {T : Type} (f : world -> T) `{HL : !Loose f} `{HS : !Sessionless f}.

Lemma leaves_forget o : leaves f (SessionListCache_Delete o).
Proof. intros w. split; [apply sessionless_cache; exact _ | done]. Qed.
#[local] Hint Resolve leaves_forget : chat.
Lemma leaves_forget_receiver o : leaves f (invalidateSessionCacheByReceiver o).
Proof. unfold invalidateSessionCacheByReceiver. leave. Qed.
Lemma leaves_group_query u : leaves f (ActiveGroup u).
Proof. unfold ActiveGroup. leave. Qed.
Lemma leaves_user_query u : leaves f (ActiveUser u).
Proof. unfold ActiveUser. leave. Qed.
Lemma leaves_users_query l : leaves f (ActiveUsersIn l).
Proof. unfold ActiveUsersIn. leave. Qed.
#[local] Hint Resolve leaves_forget_receiver leaves_group_query leaves_user_query : chat.
Lemma leaves_new_session a c : leaves f (createSession a c).
Proof. unfold createSession. leave. Qed.
#[local] Hint Resolve leaves_new_session : chat.
Lemma leaves_peer a c : leaves f (ensurePeerSession a c).
Proof.
  intros w. unfold ensurePeerSession. destruct (leaves_first f sessions (of_pair a c) w) as [E F]. destruct (First sessions (of_pair a c) w) as [[s | []] w']; simpl in *.
  - destruct (active (sDeletedAt s)); simpl; [done |].
    assert (leaves f (ignoring (do? _ := Update sessions (fun x => eqs (sUuid x) (sUuid s)) (fun x => x <| sDeletedAt := None |>) in SessionListCache_Delete a))) as H by leave.
    destruct (H w') as [E' F']. split; [etransitivity; [exact E' | exact E] | auto].
  - destruct (leaves_new_session a c w') as [E' F']. split; [etransitivity; [exact E' | exact E] | auto].
  - done.
Qed.
#[local] Hint Resolve leaves_peer : chat.
Lemma leaves_touch_direct a c : leaves f (touchDirectSessions a c).
Proof. unfold touchDirectSessions. leave. Qed.
Lemma leaves_new_sessions t g found l : leaves f (new_sessions t g found l).
Proof. induction l as [| m l IH]; simpl; [leave |]. destruct (latest_of m found); leave. Qed.
#[local] Hint Resolve leaves_new_sessions : chat.
Lemma leaves_touch_group g : leaves f (touchGroupSessions g).
Proof. unfold touchGroupSessions. leave. Qed.
Lemma leaves_drop_sessions_to r t : leaves f (drop_sessions_to r t).
Proof. unfold drop_sessions_to. leave. Qed.
Lemma leaves_drop_sessions_of r t : leaves f (drop_sessions_of r t).
Proof. unfold drop_sessions_of. leave. Qed.
Lemma leaves_drop_session r s t : leaves f (drop_session r s t).
Proof. unfold drop_session. leave. Qed.
Lemma leaves_sync u n a : leaves f (sync_sessions u n a).
Proof. unfold sync_sessions. leave. Qed.
Lemma leaves_query_sessions o : leaves f (query_sessions o).
Proof. unfold query_sessions. leave. Qed.
Lemma leaves_cached_sessions o : leaves f (SessionListCache_Get o).
Proof.
  intros w. unfold SessionListCache_Get. destruct (sessionCache w !! o); [done |]. destruct (eqs o ""); [done |].
  assert (forall k : list Session -> call (list Session), (forall a, leaves f (k a)) -> leaves f (do? a := query_sessions o in k a)) as H by (intros k Hk; apply leaves_bind; [apply leaves_query_sessions | apply Hk]).
  apply H. intros a v. split; [apply sessionless_cache; exact _ | done].
Qed.
Lemma leaves_load o : leaves f (loadSessions o).
Proof.
  intros w. unfold loadSessions. destruct (leaves_cached_sessions o w) as [E F]. destruct (SessionListCache_Get o w) as [[l | e] w']; simpl in *; [done |].
  destruct (leaves_query_sessions o w') as [E' F']. split; [by rewrite E' | auto].
Qed.
Lemma leaves_enrich o s : leaves f (enrichSession o s).
Proof.
  intros w. unfold enrichSession.
  destruct (leaves_find f messages (fun m => visible m && in_conversation o s m) w) as [E F]. destruct (Find messages _ w) as [latest w']; simpl in *.
  destruct (leaves_find f messages (fun m => visible m && is_unread o s m) w') as [E' F']. destruct (Find messages (fun m => visible m && is_unread o s m) w') as [[l | e] w'']; simpl in *;
    (split; [congruence | auto]).
Qed.
#[local] Hint Resolve leaves_load leaves_enrich : chat.
Lemma leaves_list kind o : leaves f (session_list kind o).
Proof.
  assert (forall l, leaves f (enrich_all o l)) as H by (intros l; induction l as [| s l IH]; simpl; leave).
  unfold session_list. leave.
Qed.
End Sessions.
#[export] Hint Resolve leaves_forget leaves_forget_receiver leaves_group_query leaves_user_query leaves_users_query leaves_touch_direct leaves_touch_group
  leaves_drop_sessions_to leaves_drop_sessions_of leaves_drop_session leaves_sync leaves_new_session leaves_list : chat.

(** ** Messages: what keeps an invariant through all that a message does *)

Lemma h_case {b I R} (m : world -> R * world) : (forall w, exists m', m w = m' w /\ holds b I m') -> holds b I m.
Proof. intros H w Hc Hw. destruct (H w) as (m' & E & Hm). rewrite E. by apply Hm. Qed.
Lemma h_ext {b I R} (m m' : world -> R * world) : (forall w, m w = m' w) -> holds b I m' -> holds b I m.
Proof. apply t_ext. Qed.

Record message_steps (b : bool) (I : world -> Prop) (sender : string) : Prop := {
  k_user : forall u, holds b I (UserInfoCache_Get u);
  k_insert : forall m, mSendId m = sender -> holds b I (Insert messages (Some mUuid) [m]);
  k_sent : forall u, holds b I (markSent u);
  k_direct : forall a c, holds b I (touchDirectSessions a c);
  k_group : forall g, holds b I (touchGroupSessions g);
  k_send : forall item l, iSendId item = sender \/ iSendId item = "SYSTEM" -> holds b I (sendRaw item l);
  k_join : forall r u, holds b I (on_calls (Join r u));
  k_leave : forall u, holds b I (on_calls (Leave u))
}.

Section Messages.
Context `{L : Library} {b : bool} {I : world -> Prop} {HI : Steady I} (sender : string) (K : message_steps b I sender).

Lemma k_failed u r why : holds b I (sendCallFailed marshal u r why).
Proof. unfold sendCallFailed. hold. apply (k_send _ _ _ K). by right. Qed.
Lemma k_targets msg e : holds b I (targets_of msg e).
Proof. unfold targets_of, ActiveGroup. hold; [by apply h_query |]. apply (k_group _ _ _ K). Qed.
Lemma k_broadcast msg e : mSendId msg = sender -> holds b I (broadcast msg e).
Proof.
  intros Hm. unfold broadcast. hold; [apply k_targets |]. apply h_case. intros w. eexists. split; [reflexivity |]. hold; [apply (k_send _ _ _ K); by left | apply (k_sent _ _ _ K)].
Qed.
Lemma k_av msg l : mSendId msg = sender -> holds b I (sendAVToUsers msg l).
Proof. intros Hm. unfold sendAVToUsers. hold. apply (k_send _ _ _ K). by left. Qed.

Lemma k_start msg r : mSendId msg = sender -> holds b I (handleStartCall marshal msg r).
Proof.
  intros Hm. apply h_case. intros w. unfold handleStartCall. destruct (_ && _); [eexists; split; [reflexivity | apply k_failed] |].
  destruct (is_user _).
  - destruct (negb _); [eexists; split; [reflexivity | apply k_failed] |]. destruct (IsBusy _ _); [eexists; split; [reflexivity | apply k_failed] |].
    eexists. split; [reflexivity |]. hold; [apply (k_join _ _ _ K) | by apply k_broadcast].
  - destruct (is_group _); [eexists; split; [reflexivity |] | exists (ret tt); split; [done | apply h_ret]].
    apply h_attempt; [by apply h_query | intros _; apply k_failed | intros g]. apply h_case. intros w'. cbn zeta.
    destruct (negb _); [eexists; split; [reflexivity | apply k_failed] |]. destruct (_ && _); [eexists; split; [reflexivity | apply k_failed] |].
    eexists. split; [reflexivity |]. hold; [apply (k_join _ _ _ K) | by apply k_av].
Qed.

Lemma k_signal msg av room : mSendId msg = sender -> holds b I (handleSignal marshal msg av room).
Proof.
  intros Hm. apply h_case. intros w. unfold handleSignal.
  destruct (is_proxy _ "start_call"); [eexists; split; [reflexivity | by apply k_start] |].
  destruct (is_proxy _ "receive_call"); [eexists; split; [reflexivity |]; hold; [apply (k_join _ _ _ K) | by apply k_broadcast] |].
  destruct (is_proxy _ "join_call"); [eexists; split; [reflexivity |]; hold; [apply (k_join _ _ _ K) | by apply k_av] |].
  destruct (is_proxy _ "reject_call"); [eexists; split; [reflexivity |]; hold; [apply (k_leave _ _ _ K) | by apply k_broadcast] |].
  destruct (_ || _); [eexists; split; [reflexivity |]; hold; [apply (k_leave _ _ _ K) | by apply k_av | by apply k_broadcast] |].
  eexists. split; [reflexivity | by apply k_broadcast].
Qed.

Lemma k_accept name avatar req : holds b I (acceptMessage unmarshal_av marshal sender name avatar req).
Proof.
  unfold acceptMessage, handleAVMessage. cbn zeta. hold; first [by apply (k_insert _ _ _ K) | by apply k_signal | apply (k_direct _ _ _ K) | by apply k_broadcast].
Qed.
Lemma k_message i : senderId i = sender -> holds b I (handleMessage unmarshal unmarshal_av marshal i).
Proof.
  intros E. unfold handleMessage. rewrite E. destruct (unmarshal _); [| apply h_ret]. unfold resolveSender. hold; first [apply (k_user _ _ _ K) | apply k_accept].
Qed.
End Messages.


Lemma holds_world {b I R} (m : world -> R * world) w : holds b I m -> calm b w -> I w -> calm b (m w).2 /\ I (m w).2.
Proof. intros H. apply H. Qed.

Section Service.
Context `{L : Library}.

(** The same for what a client does to its connection. *)
Lemma register_holds b I `{HI : !Steady I} u c :
  (forall w, I w -> I (w <| Clients := <[u := mkClient c []]> (Clients w) |>)) -> (forall x l, holds b I (sendRaw x l)) -> (forall P t, holds b I (Update users P (fun x => x <| uLastOnlineAt := Some t |>))) ->
  holds b I (register u c).
Proof.
  intros H1 H2 H3 w Hc HI0. unfold register. destruct (Clients w !! u); simpl; [by auto |].
  match goal with |- calm b (?m ?v).2 /\ _ => assert (holds b I m) as H end.
  { unfold BroadcastSystem, PushSystem. hold. apply h_case. intros v. eexists. split; [reflexivity |]. hold. }
  by apply (H (w <| Clients := <[u := mkClient c []]> (Clients w) |>)); [| apply H1].
Qed.
Lemma unregister_holds b I `{HI : !Steady I} u c w :
  (forall w, I w -> I (w <| Clients := delete u (Clients w) |>)) -> (forall x l, holds b I (sendRaw x l)) -> (forall P t, holds b I (Update users P (fun x => x <| uLastOfflineAt := Some t |>))) ->
  holds b I (on_calls (Leave u)) -> calm b w -> I w -> calm b (unregister marshal u c w) /\ I (unregister marshal u c w).
Proof.
  intros H1 H2 H3 H4 Hc HI0. unfold unregister. destruct (match Clients w !! u with Some _ => _ | None => _ end); [| done].
  match goal with |- calm b (?m ?v).2 /\ _ => assert (holds b I m) as H end.
  { unfold BroadcastSystem, PushSystem. hold. apply h_case. intros v. eexists. split; [reflexivity |]. hold. }
  by apply (H (w <| Clients := delete u (Clients w) |>)); [| apply H1].
Qed.

End Service.
