(* ===== verification/ChatMembers.v ===== *)
(** * ChatMembers
    The members of a group are those who have it among their contacts. *)
From S2P Require Import Prelude GoStrings ChatModel ChatGroups ChatContacts ChatServer ChatLogic.
Local Open Scope string_scope.
Local Open Scope list_scope.
Local Open Scope Z_scope.

(** ** Members and contacts *)

Definition joined (cs : list UserContact) (u g : string) : Prop :=
  exists c, c ∈ cs /\ cUserId c = u /\ cContactId c = g /\ cDeletedAt c = None.
Definition group_ok (g : GroupInfo) : Prop :=
  is_group (gUuid g) = true /\ NoDup (gMembers g) /\ gMemberCnt g = zlen (gMembers g) /\ gOwnerId g ∈ gMembers g.
Definition apply_ok (a : ContactApply) : Prop :=
  aContactType a = ContactTypeGroup \/ aContactType a = ContactTypeUser /\ is_group (aUserId a) = false /\ is_group (aContactId a) = false.

(** [late g u]: the contact of [u], who is no longer a member of [g], is still there. *)
Record members_ok (late : string -> string -> Prop) (us : list UserInfo) (gs : list GroupInfo) (cs : list UserContact) (ps : list ContactApply) : Prop := {
  ok_names : NoDup (gUuid <$> gs);
  ok_group : forall g, g ∈ gs -> group_ok g;
  ok_joined : forall g u, g ∈ gs -> gDeletedAt g = None -> u ∈ gMembers g -> joined cs u (gUuid g);
  ok_member : forall g u, g ∈ gs -> gDeletedAt g = None -> joined cs u (gUuid g) -> u ∈ gMembers g \/ late (gUuid g) u;
  ok_late : forall g u, g ∈ gs -> late (gUuid g) u -> u ∉ gMembers g;
  ok_known : forall c, c ∈ cs -> is_group (cContactId c) = true -> cContactId c ∈ gUuid <$> gs;
  ok_applies : forall a, a ∈ ps -> apply_ok a;
  ok_users : forall u, u ∈ us -> is_group (uUuid u) = false
}.
Definition nobody : string -> string -> Prop := fun _ _ => False.
Definition groups_ok (d : DB) : Prop := members_ok nobody (users d) (groups d) (contacts d) (applies d).

Section Pure.
Context (late : string -> string -> Prop) (us : list UserInfo) (gs : list GroupInfo) (cs : list UserContact) (ps : list ContactApply).
Context (Hok : members_ok late us gs cs ps).

Lemma same_group g g' : g ∈ gs -> g' ∈ gs -> gUuid g = gUuid g' -> g = g'.
Proof.
  intros [i Hi]%list_elem_of_lookup [j Hj]%list_elem_of_lookup E. destruct Hok as [Hn]. 
  assert (i = j) as ->; [| congruence]. eapply (NoDup_lookup (gUuid <$> gs)); [done | |]; rewrite list_lookup_fmap; [by rewrite Hi | by rewrite Hj, E].
Qed.

(** A change to groups that keeps the members of those that stay active. *)
Lemma ok_update_groups P f :
  (forall g, P g = true -> gUuid (f g) = gUuid g) ->
  (forall g, g ∈ gs -> P g = true -> group_ok (f g) /\ gMembers (f g) = gMembers g /\ (gDeletedAt (f g) = None -> gDeletedAt g = None)) ->
  members_ok late us (updated P f gs) cs ps.
Proof.
  intros Hu Hf. destruct Hok as [Hn Hg Hj Hm Hl Hk Ha Hus].
  assert (forall g', g' ∈ updated P f gs -> exists g, g ∈ gs /\ gUuid g' = gUuid g /\ gMembers g' = gMembers g /\ group_ok g' /\ (gDeletedAt g' = None -> gDeletedAt g = None)) as H.
  { intros g' (g & Hgg & [[E ->] | [E ->]])%updated_elem; exists g; [| by eauto 10]. destruct (Hf g Hgg E) as (? & ? & ?). auto 10. }
  split; try done.
  - by rewrite updated_same.
  - intros g' Hg'. by destruct (H g' Hg') as (g & ? & ? & ? & ? & ?).
  - intros g' u Hg' Hd Hmem. destruct (H g' Hg') as (g & H1 & -> & H2 & ? & H3). rewrite H2 in Hmem. auto.
  - intros g' u Hg' Hd Hjo. destruct (H g' Hg') as (g & H1 & E & H2 & ? & H3). rewrite E in *. rewrite H2. auto.
  - intros g' u Hg' Hlate. destruct (H g' Hg') as (g & H1 & E & H2 & ? & H3). rewrite E in *. rewrite H2. auto.
  - intros c Hc Hcg. rewrite updated_same by done. auto.
Qed.

(** A change to contacts that keeps who has which, and whether it is deleted. *)
Lemma ok_update_contacts P f :
  (forall c, P c = true -> cUserId (f c) = cUserId c /\ cContactId (f c) = cContactId c /\ (cDeletedAt (f c) = None <-> cDeletedAt c = None)) ->
  members_ok late us gs (updated P f cs) ps.
Proof.
  intros Hf. destruct Hok as [Hn Hg Hj Hm Hl Hk Ha Hus].
  assert (forall u g, joined (updated P f cs) u g <-> joined cs u g) as H.
  { intros u g. unfold joined. split.
    - intros (c' & (c & Hc & [[E ->] | [E ->]])%updated_elem & H1 & H2 & H3); exists c; [| done]. destruct (Hf c E) as (E1 & E2 & E3). rewrite E1 in H1. rewrite E2 in H2. naive_solver.
    - intros (c & Hc & H1 & H2 & H3). exists (if P c then f c else c). split; [apply updated_elem; exists c; destruct (P c); auto |].
      destruct (P c) eqn:E; [| done]. destruct (Hf c E) as (-> & -> & ?). naive_solver. }
  split; try done.
  - intros g u ???. apply H. auto.
  - intros g u ?? Hjo%H. auto.
  - intros c' (c & Hc & [[E ->] | [E ->]])%updated_elem; [| by apply Hk]. destruct (Hf c E) as (_ & -> & _). by apply Hk.
Qed.

(** Contacts that are deleted, of no member of an active group. *)
Lemma ok_drop_contacts (late' : string -> string -> Prop) P f :
  (forall c, P c = true -> cUserId (f c) = cUserId c /\ cContactId (f c) = cContactId c /\ cDeletedAt (f c) <> None) ->
  (forall c g, c ∈ cs -> P c = true -> g ∈ gs -> gUuid g = cContactId c -> gDeletedAt g = None -> cUserId c ∉ gMembers g) ->
  (forall g u, late g u -> late' g u \/ forall c, c ∈ cs -> cUserId c = u -> cContactId c = g -> cDeletedAt c = None -> P c = true) ->
  (forall g u, late' g u -> late g u) ->
  members_ok late' us gs (updated P f cs) ps.
Proof.
  intros Hf Hno Hl1 Hl2. destruct Hok as [Hn Hg Hj Hm Hl Hk Ha Hus]. split; try done.
  - intros g u Hgs Hd Hu. destruct (Hj g u Hgs Hd Hu) as (c & Hc & H1 & H2 & H3). exists c. split; [| done]. apply updated_elem. exists c. split; [done |]. right. split; [| done].
    destruct (P c) eqn:E; [| done]. exfalso. apply (Hno c g Hc E Hgs); [by rewrite H2 | done | by rewrite H1].
  - intros g u Hgs Hd (c' & (c & Hc & [[E ->] | [E ->]])%updated_elem & H1 & H2 & H3).
    + destruct (Hf c E) as (_ & _ & ?). done.
    + destruct (Hm g u Hgs Hd) as [? | Hlate]; [by exists c | by left |]. right. destruct (Hl1 _ _ Hlate) as [? | Hall]; [done |]. rewrite (Hall c) in E by done. done.
  - intros g u Hgs Hlate. eauto.
  - intros c' (c & Hc & [[E ->] | [E ->]])%updated_elem; [| by apply Hk]. destruct (Hf c E) as (_ & -> & _). by apply Hk.
Qed.

Lemma ok_other_users us' : (forall u, u ∈ us' -> is_group (uUuid u) = false) -> members_ok late us' gs cs ps.
Proof. intros H. destruct Hok. by split. Qed.
Lemma ok_other_applies ps' : (forall a, a ∈ ps' -> apply_ok a) -> members_ok late us gs cs ps'.
Proof. intros H. destruct Hok. by split. Qed.

End Pure.

(** A contact that is made or revived. *)
Definition revived (t : Z) (c : UserContact) : UserContact := c <| cStatus := ContactNormal |> <| cUpdatedAt := t |> <| cDeletedAt := None |>.
Definition ensured (kind t : Z) (u g : string) (cs : list UserContact) : list UserContact :=
  match List.find (of_contact u g) cs with
  | Some _ => updated (of_contact u g) (revived t) cs
  | None => cs ++ [mkContact u g kind ContactNormal "" "" t t None]
  end.
Definition added (u : string) (t : Z) (g : GroupInfo) : GroupInfo := g <| gMembers := gMembers g ++ [u] |> <| gMemberCnt := gMemberCnt g + 1 |> <| gUpdatedAt := t |>.
Definition pulled (l : list string) (t : Z) (g : GroupInfo) : GroupInfo := g <| gMembers := without l (gMembers g) |> <| gMemberCnt := zlen (without l (gMembers g)) |> <| gUpdatedAt := t |>.

Lemma of_contact_true u g c : of_contact u g c = true <-> cUserId c = u /\ cContactId c = g.
Proof. unfold of_contact. by rewrite andb_true_iff, !eqs_true. Qed.
Lemma of_group_true g x : of_group g x = true <-> gUuid x = g.
Proof. apply eqs_true. Qed.

Lemma ensured_known kind t u g cs c : c ∈ ensured kind t u g cs -> cContactId c = g \/ exists c', c' ∈ cs /\ cContactId c' = cContactId c.
Proof.
  unfold ensured. destruct (List.find _ cs).
  - intros (x & Hx & [[E ->] | [E ->]])%updated_elem; right; by exists x.
  - intros [Hc | ->%list_elem_of_singleton]%elem_of_app; [right; by exists c | by left].
Qed.
Lemma joined_ensured kind t u g cs u' g' : joined (ensured kind t u g cs) u' g' <-> u' = u /\ g' = g \/ joined cs u' g'.
Proof.
  unfold ensured, joined. destruct (List.find _ cs) as [c0 |] eqn:F.
  - apply find_elem in F as [H0 [E1 E2]%of_contact_true]. split.
    + intros (c' & (c & Hc & [[[E3 E4]%of_contact_true ->] | [E ->]])%updated_elem & H1 & H2 & H3); [left; simpl in *; by subst | right; eauto].
    + intros [[-> ->] | (c & Hc & H1 & H2 & H3)].
      * exists (revived t c0). split; [apply updated_elem; exists c0; split; [done | left; split; [by apply of_contact_true | done]] | done].
      * exists (if of_contact u g c then revived t c else c). split; [apply updated_elem; exists c; destruct (of_contact u g c); auto |]. by destruct (of_contact u g c).
  - split.
    + intros (c & [Hc | ->%list_elem_of_singleton]%elem_of_app & H1 & H2 & H3); [right; eauto | left; simpl in *; by subst].
    + intros [[-> ->] | (c & Hc & H)]; [eexists; split; [apply elem_of_app; right; by apply list_elem_of_singleton | done] | exists c; split; [apply elem_of_app; by left | done]].
Qed.

Lemma without_elem l m u : u ∈ without l m <-> u ∈ m /\ u ∉ l.
Proof. unfold without. rewrite filter_elem, negb_true_iff, isin_false. done. Qed.
Lemma without_nodup l m : NoDup m -> NoDup (without l m).
Proof. rewrite !NoDup_ListNoDup. apply List.NoDup_filter. Qed.
Lemma without_absent u m : u ∉ m -> without [u] m = m.
Proof.
  unfold without. induction m as [| x m IH]; [done |]. intros [Hx Hm]%not_elem_of_cons. simpl. rewrite IH by done.
  destruct (isin x [u]) eqn:E; [| done]. by apply isin_true, list_elem_of_singleton in E.
Qed.
Lemma without_one u m : NoDup m -> u ∈ m -> zlen (without [u] m) = zlen m - 1.
Proof.
  induction m as [| x m IH]; [by intros _ ?%not_elem_of_nil |]. intros [Hx Hn]%NoDup_cons Hu. unfold without. simpl. destruct (isin x [u]) eqn:E.
  - apply isin_true, list_elem_of_singleton in E as ->. simpl. fold (without [u] m). rewrite without_absent by done. rewrite zlen_cons. lia.
  - simpl. fold (without [u] m). apply isin_false in E. apply elem_of_cons in Hu as [-> | Hu]; [by rewrite list_elem_of_singleton in E |]. rewrite !zlen_cons, IH by done. lia.
Qed.

Section Changes.
Context (us : list UserInfo) (gs : list GroupInfo) (cs : list UserContact) (ps : list ContactApply).

Lemma ok_ensure_user late kind t u g : members_ok late us gs cs ps -> is_group g = false -> members_ok late us gs (ensured kind t u g cs) ps.
Proof.
  intros [Hn Hg Hj Hm Hl Hk Ha Hus] Hng.
  assert (forall x, x ∈ gs -> gUuid x <> g) as Hne by (intros x Hx <-; destruct (Hg x Hx) as [E _]; congruence). split; try done.
  - intros x v ???. apply joined_ensured. auto.
  - intros x v Hx ? [[_ E] | ?]%joined_ensured; [by destruct (Hne x Hx) | auto].
  - intros c Hc Hcg. apply ensured_known in Hc as [E | (c' & Hc' & E)]; [congruence |]. rewrite <- E in *. auto.
Qed.

(** A member who is added with his contact. *)
Lemma ok_join g0 kind t t' u : members_ok nobody us gs cs ps -> g0 ∈ gs -> gDeletedAt g0 = None ->
  members_ok nobody us (if isin u (gMembers g0) then gs else updated (of_group (gUuid g0)) (added u t') gs) (ensured kind t u (gUuid g0) cs) ps.
Proof.
  intros Hok Hg0 Hd0. pose proof Hok as [Hn Hg Hj Hm Hl Hk Ha Hus].
  assert (forall c, c ∈ ensured kind t u (gUuid g0) cs -> is_group (cContactId c) = true -> cContactId c ∈ gUuid <$> gs) as Hk'.
  { intros c [-> | (c' & Hc' & <-)]%ensured_known Hcg; [by apply list_elem_of_fmap_2 | auto]. }
  destruct (isin u (gMembers g0)) eqn:E.
  - apply isin_true in E. split; try done.
    + intros x v ???. apply joined_ensured. auto.
    + intros x v Hx ? [[-> Hxg] | ?]%joined_ensured; [left; by rewrite (same_group _ _ _ _ _ Hok x g0) | auto].
  - apply isin_false in E. 
    assert (forall x, x ∈ updated (of_group (gUuid g0)) (added u t') gs -> x = added u t' g0 \/ x ∈ gs /\ gUuid x <> gUuid g0) as Hcase.
    { intros x (y & Hy & [[F%of_group_true ->] | [F ->]])%updated_elem; [left; f_equal; by apply (same_group _ _ _ _ _ Hok) |].
      right. split; [done |]. intros Heq%of_group_true. congruence. }
    split; try done.
    + by rewrite updated_same.
    + intros x [-> | [Hx _]]%Hcase; [| auto]. destruct (Hg g0 Hg0) as (H1 & H2 & H3 & H4). repeat split; simpl.
      * done.
      * apply NoDup_app. split; [done |]. split; [intros v Hv ->%list_elem_of_singleton; done | apply NoDup_singleton].
      * rewrite zlen_app, zlen_cons, zlen_nil. lia.
      * apply elem_of_app. by left.
    + intros x v [-> | [Hx _]]%Hcase Hd Hv; apply joined_ensured; [| auto]. simpl in *. apply elem_of_app in Hv as [Hv | ->%list_elem_of_singleton]; [right; auto | by left].
    + intros x v [-> | [Hx Hne]]%Hcase Hd [[-> Hxg] | Hjo]%joined_ensured; simpl in *.
      * left. apply elem_of_app. right. by apply list_elem_of_singleton.
      * destruct (Hm g0 v Hg0 Hd0 Hjo) as [? | []]. left. apply elem_of_app. by left.
      * done.
      * auto.
    + intros c Hc Hcg. rewrite updated_same by done. auto.
Qed.

(** Members who are taken out; their contacts are late. *)
Lemma ok_pull g0 l t : members_ok nobody us gs cs ps -> g0 ∈ gs -> gOwnerId g0 ∉ l ->
  members_ok (fun g u => g = gUuid g0 /\ u ∈ l) us (updated (of_group (gUuid g0)) (pulled l t) gs) cs ps.
Proof.
  intros Hok Hg0 Ho. pose proof Hok as [Hn Hg Hj Hm Hl Hk Ha Hus].
  assert (forall x, x ∈ updated (of_group (gUuid g0)) (pulled l t) gs -> x = pulled l t g0 \/ x ∈ gs /\ gUuid x <> gUuid g0) as Hcase.
  { intros x (y & Hy & [[F%of_group_true ->] | [F ->]])%updated_elem; [left; f_equal; by apply (same_group _ _ _ _ _ Hok) |].
    right. split; [done |]. intros Heq%of_group_true. congruence. }
  split; try done.
  - by rewrite updated_same.
  - intros x [-> | [Hx _]]%Hcase; [| auto]. destruct (Hg g0 Hg0) as (H1 & H2 & H3 & H4). repeat split; simpl; [done | by apply without_nodup | by apply without_elem].
  - intros x v [-> | [Hx _]]%Hcase Hd Hv; [| auto]. simpl in *. apply without_elem in Hv as [Hv _]. auto.
  - intros x v [-> | [Hx Hne]]%Hcase Hd Hjo; simpl in *.
    + destruct (decide (v ∈ l)); [by right |]. left. apply without_elem. split; [| done]. by destruct (Hm g0 v Hg0 Hd Hjo) as [? | []].
    + destruct (Hm x v Hx Hd Hjo) as [? | []]. by left.
  - intros x v [-> | [Hx Hne]]%Hcase [Hxg Hv]; simpl in *; [| done]. by intros [_ ?]%without_elem.
  - intros c Hc Hcg. rewrite updated_same by done. auto.
Qed.

(** A new group, with the contacts of its members. *)
Lemma ok_create g t : members_ok nobody us gs cs ps -> gUuid g ∉ gUuid <$> gs -> group_ok g ->
  members_ok nobody us (gs ++ [g]) (cs ++ ((fun m => mkContact m (gUuid g) ContactTypeGroup ContactNormal "" "" t t None) <$> gMembers g)) ps.
Proof.
  intros [Hn Hg Hj Hm Hl Hk Ha Hus] Hnew Hgok.
  set (mk := fun m => mkContact m (gUuid g) ContactTypeGroup ContactNormal "" "" t t None).
  assert (forall u x, joined (cs ++ (mk <$> gMembers g)) u x <-> joined cs u x \/ x = gUuid g /\ u ∈ gMembers g) as Hjo.
  { intros u x. unfold joined. split.
    - intros (c & [Hc | (m & -> & Hm')%list_elem_of_fmap]%elem_of_app & H1 & H2 & H3); [left; eauto | right; simpl in *; by subst].
    - intros [(c & Hc & H) | [-> Hu]]; [exists c; split; [apply elem_of_app; by left | done] |]. exists (mk u). split; [apply elem_of_app; right; by apply list_elem_of_fmap_2 | done]. }
  assert (forall u, ~ joined cs u (gUuid g)) as Hnone.
  { intros u (c & Hc & _ & E & _). apply Hnew. rewrite <- E. apply Hk; [done |]. rewrite E. apply Hgok. }
  assert (forall x, x ∈ gs -> gUuid x <> gUuid g) as Hne by (intros x Hx E; apply Hnew; rewrite <- E; by apply list_elem_of_fmap_2).
  split; try done.
  - rewrite fmap_app. apply NoDup_app. split; [done |]. split; [| apply NoDup_singleton]. intros x Hx ->%list_elem_of_singleton. done.
  - intros x [Hx | ->%list_elem_of_singleton]%elem_of_app; auto.
  - intros x u [Hx | ->%list_elem_of_singleton]%elem_of_app Hd Hu; apply Hjo; [left; auto | by right].
  - intros x u [Hx | ->%list_elem_of_singleton]%elem_of_app Hd [H | [E Hu]]%Hjo; [auto | by destruct (Hne x Hx) | by destruct (Hnone u) | by left].
  - intros c [Hc | (m & -> & _)%list_elem_of_fmap]%elem_of_app Hcg; rewrite fmap_app; apply elem_of_app; [left; auto | right; by apply list_elem_of_singleton].
Qed.
End Changes.

(** ** What the queries of a handler do to members and contacts *)

Definition GI (w : world) : Prop := groups_ok (data w).
#[export] Instance steady_GI : Steady GI.
Proof. apply (steady_data groups_ok). Qed.
#[export] Instance based_GI : Based GI.
Proof. unfold Based, GI. by intros w w' ->. Qed.
Definition core (w : world) := (users (data w), groups (data w), contacts (data w), applies (data w)).
#[export] Instance loose_core : Loose core.
Proof. by intros w fs dr. Qed.

Lemma h_core {R} b (m : world -> R * world) : leaves core m -> holds b GI m.
Proof. apply (t_leaves core b (fun c => let '(us, gs, cs, ps) := c in members_ok nobody us gs cs ps)). Qed.

Section Named.
Context {b : bool} (d : DB) (g0 : GroupInfo) (Hn : NoDup (gUuid <$> groups d)) (Hg0 : g0 ∈ groups d).

Lemma named_group x : x ∈ groups d -> of_group (gUuid g0) x = true -> x = g0.
Proof.
  intros [i Hi]%list_elem_of_lookup E%of_group_true. pose proof Hg0 as [j Hj]%list_elem_of_lookup. enough (i = j) as -> by congruence.
  eapply (NoDup_lookup (gUuid <$> groups d)); [done | |]; rewrite list_lookup_fmap; [by rewrite Hi | by rewrite Hj, E].
Qed.
Lemma named_filter : List.filter (of_group (gUuid g0)) (groups d) <> [].
Proof.
  intros E. assert (g0 ∈ List.filter (of_group (gUuid g0)) (groups d)) as H by (apply filter_elem; split; [done | by apply of_group_true]). rewrite E in H. by apply not_elem_of_nil in H.
Qed.
Lemma named_exists (c : GroupInfo -> bool) : existsb (fun x => of_group (gUuid g0) x && c x) (groups d) = c g0.
Proof.
  apply eq_bool_prop_intro. rewrite !Is_true_true, existsb_exists. split.
  - intros (x & Hx%list_elem_of_In & [E Hc]%andb_true_iff). by rewrite <- (named_group x).
  - intros Hc. exists g0. split; [by apply list_elem_of_In |]. rewrite Hc, andb_true_r. by apply of_group_true.
Qed.

(** An upsert that changes [gMembers] only, and the count that follows it. *)
Lemma members_command P (f h : GroupInfo -> GroupInfo) (delta : Z) fresh :
  (forall x, x ∈ groups d -> gUuid (f x) = gUuid x) -> (P g0 = false -> f g0 = g0) ->
  (forall t, P g0 = true -> f g0 <| gMemberCnt := gMemberCnt (f g0) + delta |> <| gUpdatedAt := t |> = h g0 <| gUpdatedAt := t |>) ->
  triple b (fun w => data w = d)
    (do? modified := Upsert groups (of_group (gUuid g0)) P f fresh in if modified : bool then count_members delta (gUuid g0) else ret tt)
    (fun r w => match r with
       | Ok _ => exists t, data w = d <| groups := if P g0 then updated (of_group (gUuid g0)) (fun g => h g <| gUpdatedAt := t |>) (groups d) else groups d |>
       | Err _ => b = false end).
Proof.
  intros Hf Hsame Hh. set (gs1 := updated (of_group (gUuid g0)) f (groups d)).
  apply (t_bind _ _ _ (fun m w => m = P g0 /\ data w = d <| groups := gs1 |>)).
  - apply t_command; [apply (steady_data (fun x => x = d)) | | auto]. intros w ->. rewrite decide_False by apply named_filter. simpl.
    split; [apply named_exists | by destruct d].
  - intros m. apply t_pure. intros ->. destruct (P g0) eqn:E.
    + apply (t_bind _ _ _ (fun _ w => data w = d <| groups := gs1 |>)); [by apply t_now |]. intros t.
      apply t_command; [apply (steady_data (fun x => x = _)) | | auto]. intros w ->. simpl. exists t.
      rewrite <- (updated_twice (of_group (gUuid g0)) f (fun g => g <| gMemberCnt := gMemberCnt g + delta |> <| gUpdatedAt := t |>)); [done |].
      intros x Hx Hxg. unfold of_group. rewrite Hf by done. split; [done |]. rewrite (named_group x) by done. by apply Hh.
    + apply t_ret. intros w ->. exists 0. unfold gs1. rewrite updated_id; [done |]. intros x Hx Hxg. rewrite (named_group x) by done. by apply Hsame.
Qed.

Lemma addGroupMember_spec u : triple b (fun w => data w = d) (addGroupMember (gUuid g0) u)
  (fun r w => match r with
     | Ok _ => exists t, data w = d <| groups := if isin u (gMembers g0) then groups d else updated (of_group (gUuid g0)) (added u t) (groups d) |>
     | Err _ => b = false end).
Proof.
  eapply t_weaken; [apply (members_command (fun g => negb (isin u (gMembers g))) _ (fun g => g <| gMembers := gMembers g ++ [u] |> <| gMemberCnt := gMemberCnt g + 1 |>)) | done |]; simpl.
  - done.
  - intros H%negb_false_iff. rewrite H. by destruct g0.
  - intros t H%negb_true_iff. rewrite H. by destruct g0.
  - intros [[] | e] w; [| done]. intros [t E]. exists t. rewrite E. by destruct (isin u (gMembers g0)).
Qed.

Lemma removeGroupMember_spec u : NoDup (gMembers g0) -> gMemberCnt g0 = zlen (gMembers g0) ->
  triple b (fun w => data w = d) (removeGroupMember (gUuid g0) u)
  (fun r w => match r with
     | Ok _ => exists t, data w = d <| groups := if isin u (gMembers g0) then updated (of_group (gUuid g0)) (pulled [u] t) (groups d) else groups d |>
     | Err _ => b = false end).
Proof.
  intros Hm Hc. eapply t_weaken; [apply (members_command (fun g => isin u (gMembers g)) _ (fun g => g <| gMembers := without [u] (gMembers g) |> <| gMemberCnt := zlen (without [u] (gMembers g)) |>)) | done |]; simpl.
  - done.
  - intros H%isin_false. rewrite without_absent by done. by destruct g0.
  - intros t H%isin_true. rewrite without_one, Hc by done. unfold set. destruct g0. simpl. f_equal. 
  - intros [[] | e] w; [| done]. intros [t E]. exists t. rewrite E. by destruct (isin u (gMembers g0)).
Qed.
End Named.

Lemma ensureContact_spec {b} d kind u g : triple b (fun w => data w = d) (ensureContact kind u g)
  (fun r w => match r with Ok _ => exists t, data w = d <| contacts := ensured kind t u g (contacts d) |> | Err _ => b = false end).
Proof.
  unfold ensureContact. apply (t_bind _ _ _ (fun _ w => data w = d)); [by apply t_now |]. intros t w Hc Hd.
  assert (triple b (fun w => data w = d) (First contacts (of_contact u g))
    (fun r w => data w = d /\ match r with Ok _ => List.find (of_contact u g) (contacts d) <> None | Err NotFound => List.find (of_contact u g) (contacts d) = None | Err Failed => b = false end)) as H.
  { apply t_command; [apply (steady_data (fun x => x = d)) | |]; simpl.
    - intros v ->. split; [by destruct v |]. by destruct (List.find _ _).
    - intros Hb v ->. done. }
  destruct (H w Hc Hd) as [Hc' [Hd' Hr]]. destruct (First contacts _ w) as [[x | []] w']; simpl in *.
  - assert (triple b (fun w => data w = d) (Update contacts (of_contact u g) (revived t))
      (fun r w => match r with Ok _ => exists t, data w = d <| contacts := ensured kind t u g (contacts d) |> | Err _ => b = false end)) as HU.
    { apply t_command; [apply (steady_data (fun x => x = d)) | | auto]. intros v ->. simpl. exists t. unfold ensured. destruct (List.find _ _); [| done]. by destruct d. }
    by apply HU.
  - assert (triple b (fun w => data w = d) (Insert contacts None [mkContact u g kind ContactNormal "" "" t t None])
      (fun r w => match r with Ok _ => exists t, data w = d <| contacts := ensured kind t u g (contacts d) |> | Err _ => b = false end)) as HI.
    { apply t_command; [apply (steady_data (fun x => x = d)) | | auto]. intros v ->. simpl. exists t. unfold ensured. rewrite Hr. by destruct d. }
    by apply HI.
  - done.
Qed.

(** Taking a member in, in a transaction or not. *)
Definition there (gid : string) (w : world) : Prop := GI w /\ exists g, g ∈ groups (data w) /\ gUuid g = gid /\ gDeletedAt g = None.
Lemma member_joins {b} gid u :
  triple b (there gid) (do? _ := addGroupMember gid u in ensureGroupContact u gid) (fun r w => match r with Ok _ => there gid w | Err _ => b = false end).
Proof.
  apply (t_point (fun d => groups_ok d /\ exists g, g ∈ groups d /\ gUuid g = gid /\ gDeletedAt g = None)). intros d (HG & g0 & Hg & <- & Hd).
  pose proof (ok_names _ _ _ _ _ HG) as Hn.
  apply (t_bind _ _ _ (fun _ w => exists t, data w = d <| groups := if isin u (gMembers g0) then groups d else updated (of_group (gUuid g0)) (added u t) (groups d) |>)).
  - by apply addGroupMember_spec.
  - intros _ w Hc [t E]. unfold ensureGroupContact. destruct (ensureContact_spec _ ContactTypeGroup u (gUuid g0) w Hc E) as [Hc' H]. split; [done |].
    destruct (ensureContact _ _ _ w) as [[[] | e] w']; simpl in *; [| done]. destruct H as [t' E']. unfold there, GI. rewrite E'. split.
    + unfold groups_ok. simpl. by apply ok_join.
    + simpl. destruct (isin u (gMembers g0)); [by exists g0 |]. exists (added u t g0). split; [| done]. apply updated_elem. exists g0. split; [done |]. left. split; [by apply of_group_true | done].
Qed.

(** The query for an active group. *)
Lemma finds_group {b} (I : world -> Prop) `{HI : !Steady I} gid :
  triple b I (ActiveGroup gid) (fun r w => I w /\ match r with Ok g => g ∈ groups (data w) /\ gUuid g = gid /\ gDeletedAt g = None | Err _ => True end).
Proof.
  eapply t_weaken; [apply h_first | done |]. intros [g | e] w [Hw Hf]; (split; [done |]); [| done].
  destruct (Hf g eq_refl) as [Hg [E1%active_true E2%eqs_true]%andb_true_iff]. done.
Qed.

(** ** What leaves them alone *)


#[export] Instance sessionless_core : Sessionless core.
Proof. by intros w l c. Qed.
Lemma core_push topic l : leaves core (PushSystem topic l).
Proof. unfold PushSystem. leave. by intros w. Qed.
Lemma core_forget_user o : leaves core (UserInfoCache_Delete o).
Proof. by intros w. Qed.
#[export] Hint Resolve core_push core_forget_user : chat.
Lemma core_forget_users l : leaves core (invalidateUserCaches l).
Proof. unfold invalidateUserCaches. leave. Qed.
Lemma core_notify c k : leaves core (notifyApplyRecipient c k).
Proof. unfold notifyApplyRecipient. leave. Qed.
#[export] Hint Resolve core_forget_users core_notify : chat.
#[export] Hint Extern 3 (holds _ GI _) => solve [apply h_core; leave] : chat.

(** ** The handlers *)

Section Steps.
Context {b : bool}.

Lemma h_update_groups P f :
  (forall g, gUuid (f g) = gUuid g) ->
  (forall g, group_ok g -> group_ok (f g) /\ gMembers (f g) = gMembers g /\ (gDeletedAt (f g) = None -> gDeletedAt g = None)) -> holds b GI (Update groups P f).
Proof. intros H1 H2. apply h_command. intros w Hw. apply ok_update_groups; [done | done |]. intros g Hg _. apply H2, Hw, Hg. Qed.
Lemma h_update_contacts P f :
  (forall c, cUserId (f c) = cUserId c /\ cContactId (f c) = cContactId c /\ (cDeletedAt (f c) = None <-> cDeletedAt c = None)) -> holds b GI (Update contacts P f).
Proof. intros H. apply h_command. intros w Hw. by apply ok_update_contacts. Qed.
Lemma h_update_applies P f :
  (forall a, aUserId (f a) = aUserId a /\ aContactId (f a) = aContactId a /\ aContactType (f a) = aContactType a) -> holds b GI (Update applies P f).
Proof.
  intros H. apply h_command. intros w Hw. eapply ok_other_applies; [exact Hw |]. simpl. intros a' (a & Ha & [[E ->] | [E ->]])%updated_elem; [| by apply Hw].
  unfold apply_ok. destruct (H a) as (-> & -> & ->). by apply Hw.
Qed.
Lemma h_update_users P f : (forall u, uUuid (f u) = uUuid u) -> holds b GI (Update users P f).
Proof.
  intros H. apply h_command. intros w Hw. eapply ok_other_users; [exact Hw |]. simpl. intros u' (u & Hu & [[E ->] | [E ->]])%updated_elem; [rewrite H |]; by apply Hw.
Qed.
(** Contacts that are deleted, of nobody who is a member of an active group. *)
Lemma h_drop_contacts P f :
  (forall c, cUserId (f c) = cUserId c /\ cContactId (f c) = cContactId c /\ cDeletedAt (f c) <> None) -> (forall c, P c = true -> is_group (cContactId c) = false) -> holds b GI (Update contacts P f).
Proof.
  intros Hf HP. apply h_command. intros w Hw. eapply ok_drop_contacts; [exact Hw | auto | | by intros ??[] | by intros ??[]].
  intros c g Hc E Hg Heq. exfalso. destruct (ok_group _ _ _ _ _ Hw g Hg) as [H _]. apply HP in E. congruence.
Qed.

Lemma gi_sync uuid f : holds b GI (UpdateGroupInfo uuid f).
Proof. unfold UpdateGroupInfo. hold. apply h_update_groups; [done |]. by intros g (? & ? & ? & ?). Qed.
Lemma gi_profile uuid n o a m : holds b GI (handler_UpdateGroupInfo uuid n o a m).
Proof. unfold handler_UpdateGroupInfo. destruct m; hold; apply gi_sync. Qed.
Lemma gi_status l s : holds b GI (SetGroupsStatus l s).
Proof. unfold SetGroupsStatus. hold. apply h_update_groups; [done |]. by intros g (? & ? & ? & ?). Qed.

(** [cascadeGroupRemoval] of a name that no active group has. *)
Definition gone (l : list string) (w : world) : Prop := GI w /\ forall g, g ∈ groups (data w) -> gUuid g ∈ l -> gDeletedAt g <> None.
#[local] Instance steady_gone l : Steady (gone l).
Proof. apply (steady_data (fun d => groups_ok d /\ forall g, g ∈ groups d -> gUuid g ∈ l -> gDeletedAt g <> None)). Qed.
Lemma gone_core {R} l (m : world -> R * world) : leaves core m -> holds b (gone l) m.
Proof.
  apply (t_leaves core b (fun c => let '(us, gs, cs, ps) := c in members_ok nobody us gs cs ps /\ forall g, g ∈ gs -> gUuid g ∈ l -> gDeletedAt g <> None)).
Qed.
Lemma gone_cascade l u : u ∈ l -> holds b (gone l) (cascadeGroupRemoval u).
Proof.
  intros Hu. unfold cascadeGroupRemoval. apply h_bind; [apply h_now | intros t]. apply h_bind; [apply gone_core; leave | intros _].
  apply h_bind; [apply gone_core; leave | intros _]. apply h_bind; [| intros _].
  - apply h_command. intros w [Hw Hl]. split; [| done]. eapply ok_drop_contacts; [exact Hw | by intros c | | by intros ??[] | by intros ??[]].
    intros c g Hc [E%eqs_true _]%andb_true_iff Hg Heq Hd. exfalso. by apply (Hl g Hg); [congruence |].
  - apply h_command. intros w [Hw Hl]. split; [| done]. eapply ok_other_applies; [exact Hw |]. simpl. intros a' (a & Ha & [[E ->] | [E ->]])%updated_elem; exact (ok_applies _ _ _ _ _ Hw a Ha).
Qed.
Lemma gone_weaken {R} l (m : world -> R * world) : triple b (gone l) m (fun _ => gone l) -> triple b (gone l) m (fun _ => GI).
Proof. intros H. eapply t_weaken; [exact H | done | by intros r w []]. Qed.

Lemma delete_groups (P : GroupInfo -> bool) f l :
  (forall g, gUuid (f g) = gUuid g /\ gMembers (f g) = gMembers g /\ (group_ok g -> group_ok (f g)) /\ gDeletedAt (f g) <> None) -> (forall g, gUuid g ∈ l -> P g = true) ->
  triple b GI (Update groups P f) (fun r w => match r with Ok _ => gone l w | Err _ => GI w end).
Proof.
  intros Hf HP. assert (forall w, GI w -> GI (w <| data := set groups (fun gs => updated P f gs) (data w) |>)) as HG.
  { intros w Hw. apply ok_update_groups; [exact Hw | intros g _; apply Hf |]. intros g Hg _. destruct (Hf g) as (? & ? & ? & ?). split; [apply H1, Hw, Hg | done]. }
  apply t_command; [exact _ | |].
  - intros w Hw. simpl. split; [by apply HG |]. simpl. intros g' (g & Hg & [[E ->] | [E ->]])%updated_elem Hl; [apply Hf |]. by rewrite HP in E.
  - intros _ w Hw. split; [done | by apply HG].
Qed.

Lemma gi_dismiss supported u : (b = false -> supported = true) -> holds b GI (DismissGroup supported u).
Proof.
  intros Hs. unfold DismissGroup. apply h_attempt; [hold | hold | intros g]. apply h_attempt; [| hold | intros _; hold].
  apply t_transaction; [exact _ |]. apply (t_bind _ _ _ (fun _ => GI)); [by apply t_now | intros t]. apply (t_bind _ _ _ (fun _ => gone [u])).
  - eapply t_weaken; [apply (delete_groups _ _ [u]) | done | by intros [[] | e] w].
    + by intros x.
    + intros x E%list_elem_of_singleton. by apply of_group_true.
  - intros _. eapply t_weaken; [apply gone_weaken, gone_cascade; by left | done | by intros [[] | e] w].
Qed.
Lemma gi_delete_groups l : holds b GI (DeleteGroups l).
Proof.
  unfold DeleteGroups. apply h_attempt; [hold | hold | intros t]. apply (t_attempt _ _ _ _ (fun _ => gone l) (fun _ => GI)); [| by intros e; apply t_answer | intros _].
  - eapply t_weaken; [apply (delete_groups _ _ l) | done | by intros [[] | e] w]; [by intros x | intros x; by rewrite isin_true].
  - apply (t_after _ _ _ GI); [| apply h_answer]. apply gone_weaken, h_each_anyway. intros u Hu. by apply gone_cascade.
Qed.
End Steps.

(** ** Members who come and go *)

Lemma gi_enter u gid : holds true GI (EnterGroupDirectly u gid).
Proof.
  unfold EnterGroupDirectly. apply (t_attempt _ _ _ _ (fun _ => there gid) (fun _ => GI)).
  - eapply t_weaken; [apply (finds_group GI) | done |]. intros [g | e] w [Hw Hg]; [| done]. split; [done | by exists g].
  - intros e. by apply t_answer.
  - intros g. destruct (code _ _); [by apply t_answer; intros w [] |]. destruct (negb _); [by apply t_answer; intros w [] |]. destruct (isin _ _); [by apply t_answer; intros w [] |].
    eapply t_ext; [intros w; apply attempt_bind |]. apply (t_attempt _ _ _ _ (fun _ => there gid) (fun _ _ => False)).
    + eapply t_weaken; [apply member_joins | done |]. by intros [[] | e] w.
    + by intros e w.
    + intros _. by apply t_answer; intros w [].
Qed.

Lemma each_joins {b} gid l : triple b (there gid) (each (fun i => do? _ := addGroupMember gid i in ensureGroupContact i gid) l) (fun r w => match r with Ok _ => there gid w | Err _ => b = false end).
Proof.
  induction l as [| i l IH]; cbn [each]; [by apply t_ret |]. apply (t_bind _ _ _ (fun _ => there gid)); [| intros _; exact IH].
  eapply t_weaken; [apply member_joins | done |]. by intros [[] | e] w.
Qed.
Lemma gi_invite gid l : holds true GI (InviteGroupMembers gid l).
Proof.
  unfold InviteGroupMembers. apply (t_attempt _ _ _ _ (fun _ => there gid) (fun _ => GI)).
  - eapply t_weaken; [apply (finds_group GI) | done |]. intros [g | e] w [Hw Hg]; [| done]. split; [done | by exists g].
  - intros e. by apply t_answer.
  - intros g. destruct (code _ _); [by apply t_answer; intros w [] |]. cbn zeta. destruct (bool_decide _); [by apply t_answer; intros w [] |].
    assert (Steady (there gid)) as Hst by (apply (steady_data (fun d => groups_ok d /\ exists g, g ∈ groups d /\ gUuid g = gid /\ gDeletedAt g = None))).
    apply (t_attempt _ _ _ _ (fun _ => there gid) (fun _ => there gid)).
    + eapply t_weaken; [by apply h_query | done |]. by intros [x | e] w.
    + intros e. by apply t_answer; intros w [].
    + intros found. destruct (bool_decide _); [by apply t_answer; intros w [] |]. apply (t_attempt _ _ _ _ (fun _ => there gid) (fun _ _ => False)).
      * eapply t_weaken; [apply each_joins | done |]. by intros [[] | e] w.
      * by intros e w.
      * intros _. apply (t_weaken GI _ _ (fun _ => GI)); [| by intros w [] | done].
        change (holds true GI (run! (do? updated := ActiveGroup gid in touchGroupSessions updated) in run! PushSystem NotifyGroup (uUuid <$> found) in run! PushSystem NotifySession (uUuid <$> found) in answer (A := unit) "members invited" None 0)).
        hold.
Qed.

Definition late_in (gid : string) (l : list string) (d : DB) : Prop := members_ok (fun g u => g = gid /\ u ∈ l) (users d) (groups d) (contacts d) (applies d).

(** The contact of one of them goes. *)
Lemma cleanup_late gid u l st : triple true (fun w => late_in gid (u :: l) (data w)) (cleanupGroupMembership u gid st) (fun _ w => late_in gid l (data w)).
Proof.
  unfold cleanupGroupMembership. apply (t_bind _ _ _ (fun _ w => late_in gid (u :: l) (data w))); [by apply t_now | intros t].
  apply (t_bind _ _ _ (fun _ w => late_in gid l (data w))).
  - apply t_ignoring. apply t_command; [apply (steady_data (late_in gid (u :: l))) | | done]. intros w Hw. unfold late_in. simpl.
    eapply (ok_drop_contacts _ _ _ _ _ Hw); [by intros c | | |].
    + intros c g Hc [[E1 E2]%of_contact_true _]%andb_true_iff Hg Heq Hd. apply (ok_late _ _ _ _ _ Hw g _ Hg). split; [congruence | rewrite E1; by left].
    + intros g v [-> [-> | Hv]%elem_of_cons]; [| by left]. right. intros c Hc E1 E2 E3. apply andb_true_iff. split; [by apply of_contact_true | by apply active_true].
    + intros g v [-> Hv]. split; [done | by right].
  - intros _. assert (forall m : call unit, leaves core m -> triple true (fun w => late_in gid l (data w)) m (fun _ w => late_in gid l (data w))) as Hleave.
    { intros m. apply (t_leaves core true (fun c => let '(us, gs, cs, ps) := c in members_ok (fun g u => g = gid /\ u ∈ l) us gs cs ps)). }
    apply (t_bind _ _ _ (fun _ w => late_in gid l (data w))).
    + eapply t_weaken; [apply Hleave; leave | done |]. by intros [|] w.
    + intros _. apply (t_bind _ _ _ (fun _ w => late_in gid l (data w))); [| intros _; apply Hleave; leave].
      apply t_ignoring, t_command; [apply (steady_data (late_in gid l)) | | done]. intros w Hw. eapply ok_other_applies; [exact Hw |]. simpl.
      intros a' (a & Ha & [[E ->] | [E ->]])%updated_elem; exact (ok_applies _ _ _ _ _ Hw a Ha).
Qed.
Lemma late_nil gid d : late_in gid [] d -> groups_ok d.
Proof.
  intros [Hn Hg Hj Hm Hl Hk Ha Hus]. split; try done. intros g u H1 H2 H3. destruct (Hm g u H1 H2 H3) as [? | [_ []%not_elem_of_nil]]. by left.
Qed.
Lemma each_cleanup gid l st : triple true (fun w => late_in gid l (data w)) (each (fun i => cleanupGroupMembership i gid st) l) (fun _ => GI).
Proof.
  induction l as [| u l IH]; cbn [each].
  - apply t_ret. intros w. apply late_nil.
  - apply (t_bind _ _ _ (fun _ w => late_in gid l (data w))); [| intros _; exact IH].
    intros w Hc Hw. destruct (cleanup_late gid u l st w Hc Hw) as [Hc' H]. split; [done |]. 
    assert ((cleanupGroupMembership u gid st w).1 = Ok tt) as -> by done. done.
Qed.

Lemma gi_leave u gid : holds true GI (LeaveGroup u gid).
Proof.
  unfold LeaveGroup. apply (t_attempt _ _ _ _ (fun g w => GI w /\ g ∈ groups (data w) /\ gUuid g = gid) (fun _ => GI)).
  - eapply t_weaken; [apply (finds_group GI) | done |]. intros [g | e] w [Hw Hg]; [| done]. naive_solver.
  - intros e. by apply t_answer.
  - intros g. destruct (eqs _ _) eqn:Eo; [by apply t_answer; intros w [] |]. apply eqs_false in Eo.
    apply (t_attempt _ _ _ _ (fun _ w => late_in gid [u] (data w)) (fun _ _ => False)); [| by intros e w |].
    + apply (t_point (fun d => groups_ok d /\ g ∈ groups d /\ gUuid g = gid)). intros d (HG & Hg & <-). pose proof (ok_names _ _ _ _ _ HG) as Hn.
      destruct (ok_group _ _ _ _ _ HG g Hg) as (_ & H1 & H2 & _).
      eapply t_weaken; [by apply (removeGroupMember_spec d g Hn Hg u) | done |]. intros [[] | e] w H; [| done]. destruct H as [t E]. unfold late_in. rewrite E. simpl.
      destruct (isin u (gMembers g)) eqn:Em.
      * apply ok_pull; [done | done |]. intros ?%list_elem_of_singleton. done.
      * apply isin_false in Em. destruct HG as [? Hgg Hj Hm Hl Hk Ha Hus]. split; try done.
        -- intros x v Hx Hd Hjo. destruct (Hm x v Hx Hd Hjo) as [? | []]. by left.
        -- intros x v Hx [Hxg ->%list_elem_of_singleton]. rewrite (named_group d g Hn Hg x); [done | done | by apply of_group_true].
    + intros _. apply (t_after _ _ _ GI); [| by apply t_answer]. eapply t_weaken; [apply (cleanup_late gid u []) | done |]. intros r w. apply late_nil.
Qed.

Lemma gi_remove gid l : holds true GI (RemoveGroupMembers gid l).
Proof.
  unfold RemoveGroupMembers. apply (t_attempt _ _ _ _ (fun g w => GI w /\ g ∈ groups (data w) /\ gUuid g = gid /\ gDeletedAt g = None) (fun _ => GI)).
  - eapply t_weaken; [apply (finds_group GI) | done |]. intros [g | e] w [Hw Hg]; [| done]. naive_solver.
  - intros e. by apply t_answer.
  - intros g. destruct (isin _ _) eqn:Eo; [by apply t_answer; intros w [] |]. apply isin_false in Eo.
    apply (t_point (fun d => groups_ok d /\ g ∈ groups d /\ gUuid g = gid /\ gDeletedAt g = None)). intros d (HG & Hg & <- & Hd).
    pose proof (ok_names _ _ _ _ _ HG) as Hn.
    apply (t_attempt _ _ _ _ (fun _ w => data w = d) (fun _ _ => False)); [by apply t_now | by intros e w | intros t].
    set (f := fun g => g <| gMembers := without l (gMembers g) |> <| gUpdatedAt := t |>).
    apply (t_attempt _ _ _ _ (fun _ w => data w = d <| groups := updated (of_group (gUuid g)) f (groups d) |>) (fun _ _ => False)); [| by intros e w |].
    + apply t_command; [apply (steady_data (fun x => x = d)) | | done]. by intros w ->.
    + intros _. apply (t_after _ _ _ (fun w => late_in (gUuid g) l (data w))).
      * assert (List.find (fun x => active (gDeletedAt x) && eqs (gUuid x) (gUuid g)) (updated (of_group (gUuid g)) f (groups d)) = Some (f g)) as Hfind.
        { apply find_unique.
          - apply updated_elem. exists g. split; [done |]. left. split; [by apply of_group_true | done].
          - simpl. rewrite Hd. by apply eqs_true.
          - intros y (x & Hx & [[E ->] | [E ->]])%updated_elem [_ E2%eqs_true]%andb_true_iff; [by rewrite (named_group d g Hn Hg x) |].
            by apply of_group_true in E2; rewrite E2 in E. }
        apply (t_bind _ _ _ (fun x w => x = f g /\ data w = d <| groups := updated (of_group (gUuid g)) f (groups d) |>)).
        -- apply t_command; [apply (steady_data (fun x => x = _)) | | done]. intros w ->. cbn [fst snd]. simpl. rewrite Hfind. by destruct w.
        -- intros x. apply t_pure. intros ->. apply t_command; [apply (steady_data (fun x => x = _)) | | done]. intros w ->. unfold late_in. simpl.
           rewrite (updated_twice _ f _ (pulled l t)).
           { by apply ok_pull. }
           intros x Hx E. split; [by apply of_group_true in E; apply of_group_true |]. rewrite (named_group d g Hn Hg x) by done. done.
      * apply (t_after _ _ _ GI); [apply each_cleanup |].
        change (holds true GI (run! PushSystem NotifyGroup l in run! PushSystem NotifySession l in answer (A := unit) "members removed" None 0)). hold.
Qed.

(** ** Groups that are made *)

Lemma add_members_nodup owner found l : NoDup l -> NoDup (add_members owner found l).
Proof.
  revert l. induction found as [| u found IH]; intros l Hl; [done |]. simpl. apply IH.
  destruct (negb (eqs _ _)); [| done]. destruct (isin (uUuid u) l) eqn:E; [done |]. apply isin_false in E.
  apply NoDup_app. split; [done |]. split; [intros x Hx ->%list_elem_of_singleton; done | apply NoDup_singleton].
Qed.
Lemma add_members_keeps owner found l x : x ∈ l -> x ∈ add_members owner found l.
Proof.
  revert l. induction found as [| u found IH]; intros l Hx; [done |]. simpl. apply IH. destruct (_ && _); [apply elem_of_app; by left | done].
Qed.

Lemma each_contacts {b} gid t l d : triple b (fun w => data w = d) (each (insert_member_contact gid t) l)
  (fun r w => match r with Ok _ => data w = d <| contacts := contacts d ++ ((fun m => mkContact m gid ContactTypeGroup ContactNormal "" "" t t None) <$> l) |> | Err _ => b = false end).
Proof.
  revert d. induction l as [| m l IH]; intros d; cbn [each].
  - apply t_ret. intros w ->. unfold set. simpl. rewrite app_nil_r. by destruct d.
  - apply (t_bind _ _ _ (fun _ w => data w = d <| contacts := contacts d ++ [mkContact m gid ContactTypeGroup ContactNormal "" "" t t None] |>)).
    + apply t_command; [apply (steady_data (fun x => x = d)) | | auto]. intros w ->. by destruct d.
    + intros _. eapply t_weaken; [apply IH | intros w Hw; exact Hw |]. intros [[] | e] w; [| done]. intros ->. unfold set. simpl. by rewrite <- app_assoc.
Qed.

Lemma insert_one {D} (u : D -> string) x l :
  insert_docs (Some u) [x] l = (Err Failed, l) \/ insert_docs (Some u) [x] l = (Ok tt, l ++ [x]) /\ u x ∉ u <$> l.
Proof.
  simpl. destruct (existsb _ l) eqn:E; [by left |]. right. split; [done |]. intros (y & Hy & Hl)%list_elem_of_fmap.
  assert (existsb (fun y => bool_decide (u y = u x)) l = true) as H; [| congruence]. apply existsb_exists. exists y. split; [by apply list_elem_of_In | by apply bool_decide_eq_true].
Qed.

Section More.
Context {b : bool}.

Lemma gi_create s n o a t m l : (b = false -> s = true) -> holds b GI (CreateGroup s n o a t m l).
Proof.
  intros Hs. unfold CreateGroup. apply h_if; [hold |]. apply h_attempt; [hold | hold | intros found]. apply h_attempt; [hold | hold | intros r]. apply h_attempt; [hold | hold | intros now].
  cbn zeta. set (members := add_members o found [o]).
  match goal with |- holds _ _ (attempt (WithTransaction _ (do? _ := Insert groups _ [?g0] in _)) _ _) => set (g := g0) end.
  assert (group_ok g) as Hg.
  { repeat split; [apply add_members_nodup, NoDup_singleton | apply add_members_keeps; by left]. }
  apply h_attempt; [| hold | intros _].
  - apply t_transaction; [exact _ |]. apply (t_point groups_ok). intros d HG.
    apply (t_bind _ _ _ (fun _ w => data w = d <| groups := groups d ++ [g] |> /\ gUuid g ∉ gUuid <$> groups d)).
    + apply t_command; [apply (steady_data (fun x => x = d)) | |].
      * intros w ->. unfold set. cbn -[insert_docs]. destruct (insert_one gUuid g (groups d)) as [E | [E Hf]]; rewrite !E; cbn -[g]; [| done].
        intros _. unfold GI. by destruct d.
      * intros Hb w _. rewrite (Hs Hb). done.
    + intros _ w Hc [E Hf]. destruct (each_contacts (gUuid g) now members _ w Hc E) as [Hc' H]. split; [done |].
      destruct (each _ _ w) as [[[] | e] w']; simpl in *; [| by rewrite (Hs H)]. unfold GI. rewrite H. unfold groups_ok. simpl. by apply (ok_create _ _ _ _ g now).
  - apply h_attempt; [hold | hold | intros r2]. hold. apply h_core. intros w. destruct (leaves_user_query core o w) as [E F]. destruct (ActiveUser o w) as [[u | e] w']; simpl in *;
      (match goal with |- core (Insert messages ?U ?ds w').2 = _ /\ _ => assert (leaves core (Insert messages U ds)) as H by leave end; destruct (H w') as [E' F']; split; [by rewrite E' | auto]).
Qed.

(** ** Applications *)

Lemma h_insert_apply a : apply_ok a -> holds b GI (Insert applies (Some aUuid) [a]).
Proof.
  intros Ha. apply h_command. intros w Hw. eapply ok_other_applies; [exact Hw |]. unfold set. cbn -[insert_docs]. intros x.
  destruct (insert_one aUuid a (applies (data w))) as [E | [E _]]; rewrite E; simpl; [by apply Hw |]. intros [Hx | ->%list_elem_of_singleton]%elem_of_app; [by apply Hw | done].
Qed.
Lemma gi_submit u c k m : apply_ok (mkApply "" u c k 0 "" 0 None) -> holds b GI (submit_apply u c k m).
Proof.
  intros Ha. unfold submit_apply. cbn zeta. apply h_attempt; [hold | | intros x].
  - intros []; hold. by apply h_insert_apply.
  - hold. by apply h_update_applies.
Qed.
(** Who asks is no group, and asks for one of the two kinds. *)
Lemma gi_apply u c k m : is_group u = false -> k = ContactTypeUser \/ k = ContactTypeGroup -> holds b GI (ApplyContact u c k m).
Proof.
  intros Hu [-> | ->]; unfold ApplyContact; simpl.
  - apply (t_attempt _ _ _ _ (fun _ w => is_group c = false /\ GI w) (fun _ => GI)).
    + eapply t_weaken; [apply (h_first (I := GI)) | done |]. intros [x | e] w [Hw Hx]; [| done]. split; [| done].
      destruct (Hx x eq_refl) as [H1 [_ <-%eqs_true]%andb_true_iff]. by apply Hw.
    + intros []; by apply t_answer.
    + intros x. apply t_pure. intros Hc. destruct (code _ _); [by apply t_answer |]. apply gi_submit. right. done.
  - apply h_attempt; [hold | by intros []; apply t_answer | intros x]. apply h_if; [hold |]. apply gi_submit. by left.
Qed.
Lemma gi_set_apply a s : holds b GI (set_apply a s).
Proof. by apply h_update_applies. Qed.

Lemma ensure_user kind u c : is_group c = false -> triple b GI (ensureContact kind u c) (fun r w => match r with Ok _ => GI w | Err _ => b = false end).
Proof.
  intros Hc. apply (t_point groups_ok). intros d HG. eapply t_weaken; [apply (ensureContact_spec d) | done |]. intros [[] | e] w; [| done]. intros [t E]. unfold GI. rewrite E. unfold groups_ok. simpl. by apply ok_ensure_user.
Qed.

Lemma gi_pass s a : (b = false -> s = true) -> holds b GI (PassContactApply s a).
Proof.
  intros Hs. unfold PassContactApply. apply (t_attempt _ _ _ _ (fun x w => apply_ok x /\ GI w) (fun _ => GI)).
  { eapply t_weaken; [apply (h_first (I := GI)) | done |]. intros [x | e] w [Hw Hx]; [| done]. split; [| done]. apply Hw, Hx, eq_refl. }
  { intros e. by apply t_answer. }
  intros x. apply t_pure. intros Hx. change (holds b GI (if negb (code (aStatus x) ApplyStatusApplying) then answer (A := unit) "application already handled" None (-2) else
    db! _ := WithTransaction s (do? _ := set_apply a ApplyStatusPass in
      if code (aContactType x) ContactTypeGroup then do? _ := ActiveGroup (aContactId x) in do? _ := addGroupMember (aContactId x) (aUserId x) in ensureGroupContact (aUserId x) (aContactId x)
      else do? _ := ensureUserContact (aUserId x) (aContactId x) in ensureUserContact (aContactId x) (aUserId x)) else system_error in
    run! (if code (aContactType x) ContactTypeGroup then do? _ := PushSystem NotifyGroup [aUserId x] in PushSystem NotifySession [aUserId x] else PushSystem NotifyContact [aUserId x; aContactId x]) in
    answer "application approved" None 0)).
  apply h_if; [hold |]. apply h_attempt; [| hold | intros _; hold].
  apply t_transaction; [exact _ |]. apply (t_bind _ _ _ (fun _ => GI)).
  { eapply t_weaken; [apply gi_set_apply | done |]. by intros [|] w. }
  intros _. destruct (code (aContactType x) ContactTypeGroup) eqn:Ek.
  - apply (t_bind _ _ _ (fun _ => there (aContactId x))).
    + eapply t_weaken; [apply (finds_group GI) | done |]. intros [g | e] w [Hw Hg]; [| done]. split; [done | by exists g].
    + intros _. eapply t_weaken; [apply member_joins | done |]. intros [[] | e] w; [by intros [] |]. intros Hb. by rewrite (Hs Hb).
  - apply code_false in Ek. destruct Hx as [? | (_ & H1 & H2)]; [done |].
    assert (forall u c, is_group c = false -> triple b GI (ensureUserContact u c) (fun r w => match r with Ok _ => GI w | Err _ => s = false -> GI w end)) as H.
    { intros u c Hc. eapply t_weaken; [by apply ensure_user | done |]. intros [[] | e] w; [done |]. intros Hb. by rewrite (Hs Hb). }
    apply (t_bind _ _ _ (fun _ => GI)); [by apply H | intros _; by apply H].
Qed.
Lemma gi_refuse a : holds b GI (RefuseContactApply a).
Proof. unfold RefuseContactApply. hold. apply gi_set_apply. Qed.
Lemma gi_black_apply a : holds b GI (BlackApply a).
Proof. unfold BlackApply. hold. apply gi_set_apply. Qed.

(** ** Contacts and accounts *)

Lemma gi_set_contact u c s t : holds b GI (set_contact u c s t).
Proof. by apply h_update_contacts. Qed.
Lemma gi_drop_contact u c s t : is_group c = false -> holds b GI (drop_contact u c s t).
Proof. intros Hc. apply h_drop_contacts; [done |]. by intros x [[_ ->]%of_contact_true _]%andb_true_iff. Qed.
Lemma gi_drop_apply u c t : holds b GI (drop_apply u c t).
Proof. by apply h_update_applies. Qed.
Hint Resolve gi_set_contact gi_drop_apply gi_drop_contact gi_set_apply : chat.
Lemma gi_black u c : holds b GI (BlackContact u c).
Proof. unfold BlackContact. hold. Qed.
Lemma gi_unblack u c : holds b GI (CancelBlackContact u c).
Proof. unfold CancelBlackContact. hold. Qed.
Lemma gi_update_contact u c n t : holds b GI (UpdateContact u c n t).
Proof. unfold UpdateContact. hold. by apply h_update_contacts. Qed.
Lemma gi_delete_contact s u c : is_group u = false -> is_group c = false -> (b = false -> s = true) -> holds b GI (DeleteContact s u c).
Proof.
  intros Hu Hc Hs. unfold DeleteContact. apply h_attempt; [| hold | intros _; hold]. apply t_transaction; [exact _ |].
  apply (t_weaken GI GI _ (fun _ => GI)); [| done | by intros [|] w Hw].
  change (holds b GI (do? t := now in do? _ := drop_contact u c ContactDelete t in do? _ := drop_contact c u ContactBeDelete t in do? _ := drop_session u c t in
    do? _ := drop_session c u t in do? _ := drop_apply u c t in drop_apply c u t)). hold.
Qed.
Lemma gi_register H t p n : holds b GI (Register H t p n).
Proof.
  unfold Register. cbn zeta. hold. apply h_command. intros w Hw. eapply ok_other_users; [exact Hw |]. unfold set. cbn -[insert_docs]. intros x.
  match goal with |- context [insert_docs _ [?u] _] => destruct (insert_one uUuid u (users (data w))) as [E | [E _]] end; rewrite E; simpl; [by apply Hw |].
  intros [Hx | ->%list_elem_of_singleton]%elem_of_app; [by apply Hw | done].
Qed.
Lemma gi_password H t p : holds b GI (UpdatePassword H t p).
Proof. unfold UpdatePassword. hold. by apply h_update_users. Qed.
Lemma gi_user u n a : holds b GI (UpdateUserInfo u n a).
Proof. unfold UpdateUserInfo. hold. by apply h_update_users. Qed.
Lemma gi_able l : holds b GI (AbleUsers l).
Proof. unfold AbleUsers. hold. by apply h_update_users. Qed.
Lemma gi_disable l : holds b GI (DisableUsers l).
Proof. unfold DisableUsers. hold. by apply h_update_users. Qed.
Lemma gi_admin l a : holds b GI (SetAdmin l a).
Proof. unfold SetAdmin. hold. by apply h_update_users. Qed.
Lemma gi_tag T o n : holds b GI (AddTag T o n).
Proof. unfold AddTag. cbn zeta. hold. Qed.
End More.

(** ** The service *)

Lemma core_send item l : leaves core (sendRaw item l).
Proof. by intros w. Qed.
Lemma core_calls {A} (f : callManager -> callManager * A) : leaves core (on_calls f).
Proof. by intros w. Qed.
#[export] Hint Resolve core_send core_calls : chat.
Lemma core_cached_user u : leaves core (UserInfoCache_Get u).
Proof.
  intros w. unfold UserInfoCache_Get. destruct (userCache w !! u); [done |]. destruct (eqs u ""); [done |].
  assert (forall k : UserInfo -> call UserInfo, (forall a, leaves core (k a)) -> leaves core (do? a := ActiveUser u in k a)) as H by (intros k Hk; leave; apply Hk).
  apply H. by intros a v.
Qed.
#[export] Hint Resolve core_cached_user : chat.
Lemma gi_steps b sender : message_steps b GI sender.
Proof. split; intros; apply h_core; leave; unfold markSent; leave. Qed.
Lemma gi_users {b} P f : (forall u, uUuid (f u) = uUuid u) -> holds b GI (Update users P f).
Proof. apply h_update_users. Qed.

Section Service.
Context `{L : Library}.

(** Which requests keep members and contacts the same: those that are made of
    several commands, and no transaction, do as long as no command fails; a user
    who is deleted stays a member; a contact that is deleted is no group. *)
Definition fits (calmly : bool) (r : request) : Prop :=
  match r with
  | rEnterGroupDirectly _ _ | rInviteGroupMembers _ _ | rLeaveGroup _ _ | rRemoveGroupMembers _ _ => calmly = true
  | rDeleteUsers _ => False
  | rApplyContact u _ k _ => is_group u = false /\ (k = ContactTypeUser \/ k = ContactTypeGroup)
  | rDeleteContact u c => is_group u = false /\ is_group c = false
  | _ => True
  end.

Lemma gi_peer_steps (b : bool) : (forall x l, holds b GI (sendRaw x l)) /\ (forall u, holds b GI (on_calls (Leave u))).
Proof. split; intros; apply h_core; [apply core_send | apply core_calls]. Qed.
Lemma serve_members b r w : (b = false -> supported = true) -> fits b r -> calm b w -> GI w -> calm b (serve r w) /\ GI (serve r w).
Proof.
  intros Hs Hr Hc HG. destruct (gi_peer_steps b) as [Hsend Hleave].
  assert (forall u c, calm b (unregister marshal u c w) /\ GI (unregister marshal u c w)) as Hun.
  { intros u c. apply unregister_holds; [exact _ | done | done | by intros; apply h_update_users | done | done | done]. }
  destruct r; simpl in Hr; cbn [serve]; try subst b; try (by destruct Hr).
  - by apply (holds_world _ w (gi_register _ _ _ _)).
  - by apply (holds_world _ w (gi_password _ _ _)).
  - by apply (holds_world _ w (gi_user _ _ _)).
  - apply (holds_world (GetUserInfo uuid) w); [| done | done]. unfold GetUserInfo. hold.
  - by apply (holds_world _ w (gi_able _)).
  - by apply (holds_world _ w (gi_disable _)).
  - by apply (holds_world _ w (gi_admin _ _)).
  - by apply (holds_world _ w (gi_create _ _ _ _ _ _ _ Hs)).
  - by apply (holds_world _ w (gi_enter _ _)).
  - by apply (holds_world _ w (gi_leave _ _)).
  - by apply (holds_world _ w (gi_dismiss _ _ Hs)).
  - by apply (holds_world _ w (gi_profile _ _ _ _ _)).
  - by apply (holds_world _ w (gi_remove _ _)).
  - by apply (holds_world _ w (gi_invite _ _)).
  - by apply (holds_world _ w (gi_delete_groups _)).
  - by apply (holds_world _ w (gi_status _ _)).
  - apply (holds_world (OpenSession send receive) w); [| done | done]. unfold OpenSession. hold.
  - by apply (holds_world _ w (h_core _ _ (leaves_list core is_user _))).
  - by apply (holds_world _ w (h_core _ _ (leaves_list core is_group _))).
  - apply (holds_world (DeleteSession owner session) w); [| done | done]. unfold DeleteSession. hold.
  - apply (holds_world (MarkSessionRead owner receive) w); [| done | done]. unfold MarkSessionRead. hold.
  - by apply (holds_world _ w (gi_tag _ _ _)).
  - by apply (holds_world _ w (gi_update_contact _ _ _ _)).
  - destruct Hr as [H1 H2]. by apply (holds_world _ w (gi_apply _ _ _ _ H1 H2)).
  - by apply (holds_world _ w (gi_pass _ _ Hs)).
  - by apply (holds_world _ w (gi_refuse _)).
  - by apply (holds_world _ w (gi_black _ _)).
  - by apply (holds_world _ w (gi_unblack _ _)).
  - by apply (holds_world _ w (gi_black_apply _)).
  - destruct Hr as [H1 H2]. by apply (holds_world _ w (gi_delete_contact _ _ _ H1 H2 Hs)).
  - by apply (holds_world _ w (k_message _ (gi_steps b (senderId i)) i eq_refl)).
  - apply (holds_world (register uuid conn) w); [| done | done]. apply register_holds; [exact _ | done | done | by intros; apply h_update_users].
  - unfold ClientLogout. destruct (Clients w !! uuid); [apply Hun | done].
  - unfold clientWrite. by destruct (Clients w !! uuid) as [[c [| x l]] |].
Qed.

(** C16: Through any requests, the members of a group that is not deleted are
    those who have it among their contacts, each once, the owner with them, and
    it counts them; commands that fail break it only in the handlers that add or
    remove members outside a transaction. The requests that [fits] leaves out
    are the deletion of users, an application of a third kind, and applications
    of and deletions of contacts with the name of a group for a user. *)
Theorem members_have_contacts calmly rs w :
  (calmly = true -> faults w = []) -> (calmly = false -> supported = true) -> Forall (fits calmly) rs -> groups_ok (data w) -> groups_ok (data (serve_all rs w)).
Proof.
  intros Hc Hs. revert w Hc. induction rs as [| r rs IH]; intros w Hc Hr HG; [done |]. inversion Hr; subst.
  destruct (serve_members calmly r w) as [Hc' HG']; [done | done | done | done |]. by apply IH.
Qed.
End Service.

(** ** A run *)

Definition plain : Library :=
  {| supported := true; HashPassword := fun p => p; TrimSpace := fun s => s;
     unmarshal := fun s => if eqs s "" then None else Some (mkRequest MessageText s no_attachment "Umallory" "Mallory" "" "Ubob" "");
     unmarshal_av := fun _ => mkSignal "" "" ""; marshal := fun _ => "" |}.
Definition empty_db : DB := mkDB [] [] [] [] [] [] [].
Definition start (names : list string) : world := mkWorld empty_db ∅ ∅ ∅ (mkCalls ∅ ∅) [] names 100.

Lemma empty_ok : groups_ok empty_db.
Proof. split; try (by intros ? []%not_elem_of_nil); try (by intros ?? []%not_elem_of_nil). constructor. Qed.

(** Alice makes a group, bob enters it and leaves; then carol is invited. *)
Definition group_life : list request :=
  [rRegister "1" "p" "alice"; rRegister "2" "p" "bob"; rRegister "3" "p" "carol"; rCreateGroup "g" "Ualice" "" "" GroupAddModeDirect [];
   rEnterGroupDirectly "Ubob" "Gg"; rLeaveGroup "Ubob" "Gg"; rInviteGroupMembers "Gg" ["Ucarol"; "Ualice"]].
Definition group_names : list string := ["alice"; "t1"; "bob"; "t2"; "carol"; "t3"; "g"; "m"; "s1"; "s2"].

Lemma members_have_contacts_witness :
  groups_ok (data (serve_all (H := plain) group_life (start group_names))) /\
  (gMembers <$> groups (data (serve_all (H := plain) group_life (start group_names)))) = [["Ualice"; "Ucarol"]] /\
  ((fun c => (cUserId c, cStatus c, active (cDeletedAt c))) <$> contacts (data (serve_all (H := plain) group_life (start group_names)))) =
    [("Ualice", ContactNormal, true); ("Ubob", ContactQuit, false); ("Ucarol", ContactNormal, true)].
Proof.
  split; [| by vm_compute]. apply (members_have_contacts (L := plain) true); [done | done | by repeat constructor | apply empty_ok].
Defined.
