(* ===== verification/ChatTheorems.v ===== *)
(** * ChatTheorems
    Who a message is from, who is in which call, and that the lists of sessions
    that are kept are those of the database; what the handlers do not hold. *)
From S2P Require Import Prelude GoStrings ChatModel ChatGroups ChatContacts ChatServer ChatLogic ChatMembers.
Local Open Scope string_scope.
Local Open Scope list_scope.
Local Open Scope Z_scope.

(** ** Who a message is from *)

Definition honest (sender x : string) : Prop := x = sender \/ x = "SYSTEM".
(** From [w0] to [w], clients were only sent what is from [sender] or from the
    service, and only messages from [sender] were stored. *)
Definition from_sender (sender : string) (w0 w : world) : Prop :=
  (forall u, match Clients w !! u with
             | Some c => exists c0 new, Clients w0 !! u = Some c0 /\ Conn c = Conn c0 /\ SendBack c = SendBack c0 ++ new /\ Forall (fun x => honest sender (iSendId x)) new
             | None => Clients w0 !! u = None end) /\
  (forall m, m ∈ messages (data w) -> mSendId m = sender \/ exists m0, m0 ∈ messages (data w0) /\ mUuid m0 = mUuid m /\ mSendId m0 = mSendId m /\ mContent m0 = mContent m).

Definition talk (w : world) := (Clients w, messages (data w)).
#[export] Instance loose_talk : Loose talk.
Proof. by intros w fs dr. Qed.
#[export] Instance sessionless_talk : Sessionless talk.
Proof. by intros w l c. Qed.
#[export] Instance steady_from s w0 : Steady (from_sender s w0).
Proof. by intros w fs dr. Qed.
Lemma talk_holds {R} b s w0 (m : world -> R * world) : leaves talk m -> holds b (from_sender s w0) m.
Proof.
  apply (t_leaves talk b (fun c =>
    (forall u, match c.1 !! u with
             | Some c => exists c0 new, Clients w0 !! u = Some c0 /\ Conn c = Conn c0 /\ SendBack c = SendBack c0 ++ new /\ Forall (fun x => honest s (iSendId x)) new
             | None => Clients w0 !! u = None end) /\
    (forall m, m ∈ c.2 -> mSendId m = s \/ exists m0, m0 ∈ messages (data w0) /\ mUuid m0 = mUuid m /\ mSendId m0 = mSendId m /\ mContent m0 = mContent m))).
Qed.
Lemma from_refl s w : from_sender s w w.
Proof.
  split; [| by eauto 10]. intros u. destruct (Clients w !! u) as [c |] eqn:E; [| done]. exists c, []. by rewrite app_nil_r.
Qed.
Lemma deliver_from s w0 item cs t : honest s (iSendId item) ->
  (forall u, match cs !! u with
             | Some c => exists c0 new, Clients w0 !! u = Some c0 /\ Conn c = Conn c0 /\ SendBack c = SendBack c0 ++ new /\ Forall (fun x => honest s (iSendId x)) new
             | None => Clients w0 !! u = None end) ->
  forall u, match deliver item cs t !! u with
             | Some c => exists c0 new, Clients w0 !! u = Some c0 /\ Conn c = Conn c0 /\ SendBack c = SendBack c0 ++ new /\ Forall (fun x => honest s (iSendId x)) new
             | None => Clients w0 !! u = None end.
Proof.
  intros Hi H u. unfold deliver. destruct (cs !! t) as [c |] eqn:E; [| apply H]. destruct (decide (zlen (SendBack c) < ChannelSize)); [| apply H].
  destruct (decide (t = u)) as [<- | Hne]; [rewrite lookup_insert_eq | rewrite lookup_insert_ne by done; apply H]. specialize (H t). rewrite E in H.
  destruct H as (c0 & new & H1 & H2 & H3 & H4). exists c0, (new ++ [item]). simpl. rewrite H3, app_assoc. repeat split; try done. apply Forall_app. split; [done | by constructor].
Qed.

Lemma talk_cached_user u : leaves talk (UserInfoCache_Get u).
Proof.
  intros w. unfold UserInfoCache_Get. destruct (userCache w !! u); [done |]. destruct (eqs u ""); [done |].
  assert (forall k : UserInfo -> call UserInfo, (forall a, leaves talk (k a)) -> leaves talk (do? a := ActiveUser u in k a)) as H by (intros k Hk; leave; apply Hk).
  apply H. by intros a v.
Qed.
Lemma talk_calls {A} (f : callManager -> callManager * A) : leaves talk (on_calls f).
Proof. by intros w. Qed.
#[export] Hint Resolve talk_cached_user talk_calls : chat.

Lemma from_steps b sender w0 : message_steps b (from_sender sender w0) sender.
Proof.
  split; intros; try solve [apply talk_holds; leave].
  - apply h_command. intros w [H1 H2]. split; [done |]. intros x. simpl. destruct (existsb _ _); simpl; [apply H2 |].
    intros [Hx | ->%list_elem_of_singleton]%elem_of_app; [by apply H2 | by left].
  - unfold markSent. hold. apply h_command. intros w [H1 H2]. split; [done |]. intros x. simpl. intros (y & Hy & [[E ->] | [E ->]])%updated_elem; exact (H2 y Hy).
  - intros w Hc [H1 H2]. split; [done |]. split; [| done]. simpl.
    enough (forall cs, (forall u, match cs !! u with
             | Some c => exists c0 new, Clients w0 !! u = Some c0 /\ Conn c = Conn c0 /\ SendBack c = SendBack c0 ++ new /\ Forall (fun x => honest sender (iSendId x)) new
             | None => Clients w0 !! u = None end) -> forall u, match foldl (deliver item) cs l !! u with
             | Some c => exists c0 new, Clients w0 !! u = Some c0 /\ Conn c = Conn c0 /\ SendBack c = SendBack c0 ++ new /\ Forall (fun x => honest sender (iSendId x)) new
             | None => Clients w0 !! u = None end) as Hl by by apply Hl.
    clear H1. induction l as [| t l IH]; intros cs Hcs; [done |]. simpl. apply IH. by apply deliver_from.
Qed.

(** C15: Whoever a frame claims to be from, what the service stores and sends on
    for it is from the user whose connection it arrived on, or from the service
    itself; whatever commands are lost. *)
Theorem sender_not_spoofed `{L : Library} i w : from_sender (senderId i) w (serve (rMessage i) w).
Proof. apply (k_message _ (from_steps false (senderId i) w) i eq_refl w); [done | apply from_refl]. Qed.

(** ** Calls *)

Definition calls_ok (m : callManager) : Prop :=
  (forall u r, callers m !! u = Some r <-> u ∈ room m r) /\ (forall r s, rooms m !! r = Some s -> s <> ∅).

Lemma room_insert m r s c r' : room (mkCalls (<[r := s]> (rooms m)) c) r' = if decide (r = r') then s else room m r'.
Proof. unfold room. simpl. destruct (decide (r = r')) as [<- |]; [by rewrite lookup_insert_eq | by rewrite lookup_insert_ne]. Qed.
Lemma room_delete m r c r' : room (mkCalls (delete r (rooms m)) c) r' = if decide (r = r') then ∅ else room m r'.
Proof. unfold room. simpl. destruct (decide (r = r')) as [<- |]; [by rewrite lookup_delete_eq | by rewrite lookup_delete_ne]. Qed.

Lemma join_ok r u m : calls_ok m -> calls_ok (Join r u m).1.
Proof.
  intros [H1 H2]. unfold Join. destruct (match callers m !! u with Some _ => _ | None => _ end) eqn:E; [done |]. simpl.
  assert (forall r', u ∈ room m r' -> r' = r) as Hu by (intros r' Hr%H1; rewrite Hr in E; by apply negb_false_iff, eqs_true in E).
  split.
  - intros v r'. rewrite room_insert. simpl. destruct (decide (u = v)) as [<- | Hv].
    + rewrite lookup_insert_eq. destruct (decide (r = r')) as [<- | Hr]; [set_solver |]. split; [congruence |]. by intros <-%Hu.
    + rewrite lookup_insert_ne by done. destruct (decide (r = r')) as [<- | Hr]; [| apply H1]. rewrite H1. set_solver.
  - intros r' s. simpl. rewrite lookup_insert_Some. intros [[<- <-] | [_ Hs]]; [set_solver | by apply (H2 r')].
Qed.
Lemma leave_ok u m : calls_ok m -> calls_ok (Leave u m).1.
Proof.
  intros [H1 H2]. unfold Leave. destruct (callers m !! u) as [r |] eqn:E; [| done]. simpl.
  assert (forall r', u ∈ room m r' -> r' = r) as Hu by (intros r' Hr%H1; congruence).
  assert (forall v r' (M : gset string), M = room m r ∖ {[u]} -> (delete u (callers m)) !! v = Some r' <-> v ∈ if decide (r = r') then M else room m r') as Hrel.
  { intros v r' M ->. destruct (decide (u = v)) as [<- | Hv].
    - rewrite lookup_delete_eq. destruct (decide (r = r')) as [<- | Hr]; [set_solver |]. split; [done |]. intros Hin%Hu. by subst.
    - rewrite lookup_delete_ne, H1 by done. destruct (decide (r = r')) as [<- | Hr]; [set_solver | done]. }
  destruct (decide (room m r ∖ {[u]} = ∅)) as [He | He]; split.
  - intros v r'. rewrite room_delete. simpl. by apply Hrel.
  - intros r' s. simpl. intros [_ Hs]%lookup_delete_Some. by apply (H2 r').
  - intros v r'. rewrite room_insert. simpl. by apply Hrel.
  - intros r' s. simpl. rewrite lookup_insert_Some. intros [[<- <-] | [_ Hs]]; [done | by apply (H2 r')].
Qed.

#[export] Instance loose_Calls : Loose Calls.
Proof. by intros w fs dr. Qed.
#[export] Instance sessionless_Calls : Sessionless Calls.
Proof. by intros w l c. Qed.
Lemma calls_holds {R} b (m : world -> R * world) : leaves Calls m -> holds b (fun w => calls_ok (Calls w)) m.
Proof. apply (t_leaves Calls b calls_ok). Qed.
#[export] Instance steady_Calls : Steady (fun w => calls_ok (Calls w)).
Proof. by intros w fs dr. Qed.
Lemma calls_send item l : leaves Calls (sendRaw item l).
Proof. by intros w. Qed.
#[export] Hint Resolve calls_send : chat.
Lemma calls_push topic l : leaves Calls (PushSystem topic l).
Proof. unfold PushSystem. leave. Qed.
Lemma calls_forget_user o : leaves Calls (UserInfoCache_Delete o).
Proof. by intros w. Qed.
#[export] Hint Resolve calls_push calls_forget_user : chat.
Lemma calls_cached_user u : leaves Calls (UserInfoCache_Get u).
Proof.
  intros w. unfold UserInfoCache_Get. destruct (userCache w !! u); [done |]. destruct (eqs u ""); [done |].
  assert (forall k : UserInfo -> call UserInfo, (forall a, leaves Calls (k a)) -> leaves Calls (do? a := ActiveUser u in k a)) as H by (intros k Hk; leave; apply Hk).
  apply H. by intros a v.
Qed.
Lemma calls_ensure k u c : leaves Calls (ensureContact k u c).
Proof.
  unfold ensureContact. leave. intros w. destruct (leaves_first Calls contacts (of_contact u c) w) as [E F]. destruct (First contacts _ w) as [[x | []] w']; simpl in *; [| | done];
    (match goal with |- Calls (?m w').2 = _ /\ _ => assert (leaves Calls m) as H by leave end; destruct (H w') as [E' F']; split; [by rewrite E' | auto]).
Qed.
Lemma calls_responses l : leaves Calls (toApplyResponses l).
Proof.
  intros w. unfold toApplyResponses. destruct (bool_decide (l = [])); [done |]. destruct (leaves_users_query Calls (aUserId <$> l) w) as [E F]. by destruct (ActiveUsersIn _ w).
Qed.
#[export] Hint Resolve calls_cached_user calls_ensure : chat.
Lemma calls_add g u : leaves Calls (addGroupMember g u).
Proof. unfold addGroupMember, count_members. leave. Qed.
Lemma calls_remove g u : leaves Calls (removeGroupMember g u).
Proof. unfold removeGroupMember, count_members. leave. Qed.
Lemma calls_cleanup u g s : leaves Calls (cleanupGroupMembership u g s).
Proof. unfold cleanupGroupMembership. leave. Qed.
Lemma calls_cascade g : leaves Calls (cascadeGroupRemoval g).
Proof. unfold cascadeGroupRemoval. leave. Qed.
Lemma calls_submit u c k m : leaves Calls (submit_apply u c k m).
Proof. unfold submit_apply, notifyApplyRecipient. leave. match goal with |- leaves _ (match ?e with _ => _ end) => destruct e end; leave. Qed.
#[export] Hint Resolve calls_add calls_remove calls_cleanup calls_cascade calls_submit : chat.
Lemma calls_welcome o g r name t : leaves Calls (fun w =>
    let (owner, w) := ActiveUser o w in
    let (who, pic) := match owner with Ok u => (uNickname u, uAvatar u) | Err _ => ("", "") end in
    Insert messages (Some mUuid) [mkMessage (String "M" r) MessageText name no_attachment o who pic (gUuid g) MessageSent t None ""] w).
Proof.
  intros w. destruct (leaves_user_query Calls o w) as [E F]. destruct (ActiveUser o w) as [[u | e] w']; simpl in *;
    (match goal with |- Calls (Insert messages ?U ?ds w').2 = _ /\ _ => assert (leaves Calls (Insert messages U ds)) as H by leave end; destruct (H w') as [E' F']; split; [by rewrite E' | auto]).
Qed.

Lemma calls_forget_users l : leaves Calls (invalidateUserCaches l).
Proof. unfold invalidateUserCaches. leave. Qed.
Lemma calls_group_contact u g : leaves Calls (ensureGroupContact u g).
Proof. apply calls_ensure. Qed.
Lemma calls_user_contact u g : leaves Calls (ensureUserContact u g).
Proof. apply calls_ensure. Qed.
Lemma calls_not_found {A} msg e : leaves Calls (not_found (A := A) msg e).
Proof. by destruct e. Qed.
Lemma calls_group_fields u f : leaves Calls (UpdateGroupInfo u f).
Proof. unfold UpdateGroupInfo. leave. Qed.
#[export] Hint Resolve calls_forget_users calls_group_contact calls_user_contact calls_not_found calls_group_fields : chat.

Section CallService.
Context `{L : Library}.
Lemma calls_steps b sender : message_steps b (fun w => calls_ok (Calls w)) sender.
Proof.
  split; intros; try solve [apply calls_holds; unfold markSent; leave].
  - intros w Hc Hw. split; [done |]. by apply join_ok.
  - intros w Hc Hw. split; [done |]. by apply leave_ok.
Qed.

Lemma serve_calls r w : calls_ok (Calls w) -> calls_ok (Calls (serve r w)).
Proof.
  intros Hw. assert (forall u c, calls_ok (Calls (unregister marshal u c w))) as Hun.
  { intros u c. destruct (unregister_holds false (fun w => calls_ok (Calls w)) u c w) as [_ H];
      [done | intros; apply calls_holds; leave | intros; apply calls_holds; leave | apply (k_leave _ _ _ (calls_steps false "")) | done | done | exact H]. }
  destruct r; cbn [serve].
  32: { apply (k_message (b := false) _ (calls_steps false (senderId i)) i eq_refl w); done. }
  32: { apply (register_holds false (fun w => calls_ok (Calls w)) uuid conn); [done | intros; apply calls_holds; leave | intros; apply calls_holds; leave | done | done]. }
  32: { apply Hun. }
  32: { unfold ClientLogout. destruct (Clients w !! uuid); [apply Hun | done]. }
  32: { unfold clientWrite. by destruct (Clients w !! uuid) as [[c [| x l]] |]. }
  all: match goal with |- calls_ok (Calls (?m ?v).2) => enough (leaves Calls m) as H by by (destruct (H v) as [-> _]) end.
  all: lazymatch goal with |- leaves _ ?m => let h := head_of m in unfold h end; cbn zeta; leave.
  - apply calls_welcome.
  - destruct addMode; leave.
Qed.

(** C40: Through any requests, messages and connections, whatever commands are
    lost, a user is in the room the call manager says, in no other, and no room
    is empty. *)
Theorem calls_agree rs w : calls_ok (Calls w) -> calls_ok (Calls (serve_all rs w)).
Proof. revert w. induction rs as [| r rs IH]; intros w Hw; [done |]. apply IH. by apply serve_calls. Qed.
End CallService.

(** ** The lists of sessions that are kept *)

(** The lists are those of the database, but for the owners in [O]. *)
Definition lists_but (O : string -> Prop) (w : world) : Prop :=
  NoDup (sUuid <$> sessions (data w)) /\ forall o l, sessionCache w !! o = Some l -> O o \/ l = active_sessions o (sessions (data w)).
Definition lists_ok : world -> Prop := lists_but (fun _ => False).
(** Nothing is kept for those with an active session to [g]. *)
Definition cold (g : string) (w : world) : Prop :=
  forall s, s ∈ sessions (data w) -> sDeletedAt s = None -> sReceiveId s = g -> sessionCache w !! sSendId s = None.

Definition lists (w : world) := (sessions (data w), sessionCache w).
#[export] Instance loose_lists : Loose lists.
Proof. by intros w fs dr. Qed.
#[export] Instance steady_but O : Steady (lists_but O).
Proof. by intros w fs dr. Qed.
#[export] Instance steady_cold g : Steady (cold g).
Proof. by intros w fs dr. Qed.
#[export] Instance steady_ok : Steady lists_ok.
Proof. apply steady_but. Qed.
#[export] Instance steady_and P Q `{HP : !Steady P, HQ : !Steady Q} : Steady (fun w => P w /\ Q w).
Proof. intros w fs dr [H1 H2]. split; [by apply HP | by apply HQ]. Qed.

Lemma lists_leaves {R} b (I : list Session * gmap string (list Session) -> Prop) (m : world -> R * world) : leaves lists m -> holds b (fun w => I (lists w)) m.
Proof. apply (t_leaves lists b). Qed.
Lemma but_leaves {R} b O (m : world -> R * world) : leaves lists m -> holds b (lists_but O) m.
Proof. apply (t_leaves lists b (fun c => NoDup (sUuid <$> c.1) /\ forall o l, c.2 !! o = Some l -> O o \/ l = active_sessions o c.1)). Qed.
Lemma ok_leaves {R} b (m : world -> R * world) : leaves lists m -> holds b lists_ok m.
Proof. apply but_leaves. Qed.

Lemma active_updated o P f l : (forall s, s ∈ l -> P s = true -> sSendId (f s) = sSendId s /\ (sSendId s = o -> f s = s)) -> active_sessions o (updated P f l) = active_sessions o l.
Proof.
  intros H. unfold active_sessions. f_equal. induction l as [| s l IH]; [done |]. rewrite fmap_cons. cbn [List.filter].
  rewrite IH by (intros x Hx; apply H; by right). destruct (P s) eqn:E; [| done]. destruct (H s) as [H1 H2]; [by left | done |]. rewrite H1.
  destruct (decide (sSendId s = o)) as [Ho | Ho]; [by rewrite H2 |]. apply eqs_false in Ho. by rewrite Ho, !andb_false_r.
Qed.
Lemma active_app o l k : (forall s, s ∈ k -> sSendId s <> o) -> active_sessions o (l ++ k) = active_sessions o l.
Proof.
  intros H. unfold active_sessions. f_equal. rewrite List.filter_app.
  assert (List.filter (fun s => active (sDeletedAt s) && eqs (sSendId s) o) k = []) as ->; [| by rewrite app_nil_r].
  induction k as [| s k IH]; [done |]. cbn [List.filter]. assert (eqs (sSendId s) o = false) as -> by (apply eqs_false, H; by left). rewrite andb_false_r. apply IH. intros x Hx. apply H. by right.
Qed.

(** Sessions that change, of owners for whom nothing is kept or who are excepted. *)
Lemma t_update_sessions (I : world -> Prop) `{HI : !Steady I} O P f :
  (forall s, P s = true -> sUuid (f s) = sUuid s /\ sSendId (f s) = sSendId s) ->
  (forall w, I w -> lists_but O w /\ forall s, s ∈ sessions (data w) -> P s = true -> O (sSendId s) \/ sessionCache w !! sSendId s = None) ->
  triple true I (Update sessions P f) (fun r w => r = Ok tt /\ lists_but O w).
Proof.
  intros Hf HP. apply t_command; [done | | done]. intros w Hw. destruct (HP w Hw) as [[Hn Hl] Ho]. split; [done |]. split.
  - simpl. rewrite updated_same; [done |]. intros x Hx. by apply Hf.
  - simpl. intros o l Hc. destruct (Hl o l Hc) as [? | ->]; [by left |]. destruct (decide (Exists (fun s => P s = true /\ sSendId s = o) (sessions (data w)))) as [(s & Hs & E & <-)%list.Exists_exists | Hno].
    + destruct (Ho s Hs E) as [? | Hnone]; [by left | congruence].
    + right. symmetry. apply active_updated. intros s Hs E. split; [by apply Hf |]. intros Hso. destruct Hno. apply list.Exists_exists. eauto.
Qed.
Lemma t_forget O O' o : (forall x, O x -> O' x \/ x = o) -> triple true (lists_but O) (SessionListCache_Delete o) (fun _ => lists_but O').
Proof.
  intros HO w Hc [Hn Hl]. split; [done |]. split; [done |]. simpl. intros x l [Hne Hx]%lookup_delete_Some. destruct (Hl x l Hx) as [H | ?]; [| by right]. destruct (HO x H); [by left | congruence].
Qed.
Lemma t_forget_each O l : triple true (lists_but (fun x => O x \/ x ∈ l)) (each SessionListCache_Delete l) (fun _ => lists_but O).
Proof.
  induction l as [| o l IH]; cbn [each].
  - apply t_ret. intros w [Hn Hl]. split; [done |]. intros x k Hk. destruct (Hl x k Hk) as [[? | []%not_elem_of_nil] | ?]; auto.
  - apply (t_bind _ _ _ (fun _ => lists_but (fun x => O x \/ x ∈ l))); [| intros _; exact IH].
    apply t_forget. intros x [? | [-> | ?]%elem_of_cons]; auto.
Qed.
Lemma forget_each_effect l w : sessionCache (each SessionListCache_Delete l w).2 = foldl (fun c o => delete o c) (sessionCache w) l /\ data (each SessionListCache_Delete l w).2 = data w.
Proof. revert w. induction l as [| o l IH]; intros w; [done |]. exact (IH (w <| sessionCache := delete o (sessionCache w) |>)). Qed.
Lemma forget_each_none (l : list string) (c : gmap string (list Session)) o : o ∈ l \/ c !! o = None -> foldl (fun c o => delete o c) c l !! o = None.
Proof.
  revert c. induction l as [| x l IH]; intros c [H | H]; simpl; [by apply not_elem_of_nil in H | done | |]; apply IH.
  - apply elem_of_cons in H as [-> | H]; [right; by rewrite lookup_delete_eq | by left].
  - right. rewrite lookup_delete_None. by right.
Qed.

Lemma forget_each_some (l : list string) (c : gmap string (list Session)) o x : foldl (fun c o => delete o c) c l !! o = Some x -> c !! o = Some x.
Proof. revert c. induction l as [| y l IH]; intros c H; [done |]. by apply IH, lookup_delete_Some in H as [_ H]. Qed.
Lemma forget_each_calm l w : faults w = [] -> faults (each SessionListCache_Delete l w).2 = [].
Proof. revert w. induction l as [| o l IH]; intros w H; [done |]. by apply IH. Qed.

(** Those with an active session to [g] are forgotten. *)
Lemma t_forget_receiver (O O' : string -> Prop) g :
  triple true (fun w => lists_but O w /\ forall o, O o -> O' o \/ exists s, s ∈ sessions (data w) /\ sDeletedAt s = None /\ sReceiveId s = g /\ sSendId s = o)
    (invalidateSessionCacheByReceiver g) (fun _ w => lists_but O' w /\ cold g w).
Proof.
  intros w Hc [[Hn Hl] HO]. unfold invalidateSessionCacheByReceiver, ignoring, bind, Find, command. specialize (Hc eq_refl) as Hf. rewrite Hf. cbn [fst snd].
  set (found := List.filter _ _). set (v := w <| data := data w |>).
  destruct (forget_each_effect (sSendId <$> found) v) as [E1 E2].
  assert (forall o, (exists s, s ∈ sessions (data w) /\ sDeletedAt s = None /\ sReceiveId s = g /\ sSendId s = o) -> sessionCache (each SessionListCache_Delete (sSendId <$> found) v).2 !! o = None) as Hcold.
  { intros o (s & Hs & H1 & H2 & H3). rewrite E1. apply forget_each_none. left. apply list_elem_of_fmap. exists s. split; [done |]. apply filter_elem. split; [done |].
    apply andb_true_iff. split; [by apply active_true | by apply eqs_true]. }
  split; [intros _; by apply forget_each_calm |]. split; [split |].
  - by rewrite E2.
  - intros o l Ho. rewrite E2. rewrite E1 in Ho. pose proof (forget_each_some _ _ _ _ Ho) as Hw.
    destruct (Hl o l Hw) as [Hex | ?]; [| by right]. destruct (HO o Hex) as [? | Hs]; [by left |]. apply Hcold in Hs. congruence.
  - intros s Hs H1 H2. apply Hcold. rewrite E2 in Hs. by exists s.
Qed.
#[export] Hint Extern 3 (holds _ lists_ok _) => solve [apply ok_leaves; leave] : chat.

Lemma lists_send item l : leaves lists (sendRaw item l).
Proof. by intros w. Qed.
#[export] Hint Resolve lists_send : chat.
Lemma lists_push topic l : leaves lists (PushSystem topic l).
Proof. unfold PushSystem. leave. Qed.
Lemma lists_forget_user o : leaves lists (UserInfoCache_Delete o).
Proof. by intros w. Qed.
Lemma lists_calls {A} (f : callManager -> callManager * A) : leaves lists (on_calls f).
Proof. by intros w. Qed.
#[export] Hint Resolve lists_push lists_forget_user lists_calls : chat.
Lemma lists_cached_user u : leaves lists (UserInfoCache_Get u).
Proof.
  intros w. unfold UserInfoCache_Get. destruct (userCache w !! u); [done |]. destruct (eqs u ""); [done |].
  assert (forall k : UserInfo -> call UserInfo, (forall a, leaves lists (k a)) -> leaves lists (do? a := ActiveUser u in k a)) as H by (intros k Hk; leave; apply Hk).
  apply H. by intros a v.
Qed.
Lemma lists_ensure k u c : leaves lists (ensureContact k u c).
Proof.
  unfold ensureContact. leave. intros w. destruct (leaves_first lists contacts (of_contact u c) w) as [E F]. destruct (First contacts _ w) as [[x | []] w']; simpl in *; [| | done];
    (match goal with |- lists (?m w').2 = _ /\ _ => assert (leaves lists m) as H by leave end; destruct (H w') as [E' F']; split; [by rewrite E' | auto]).
Qed.
#[export] Hint Resolve lists_cached_user lists_ensure : chat.
Lemma lists_add g u : leaves lists (addGroupMember g u).
Proof. unfold addGroupMember, count_members. leave. Qed.
Lemma lists_remove g u : leaves lists (removeGroupMember g u).
Proof. unfold removeGroupMember, count_members. leave. Qed.
Lemma lists_new_sessions t g found l : leaves lists (new_sessions t g found l).
Proof. induction l as [| m l IH]; simpl; [leave |]. destruct (latest_of m found); leave. Qed.
Lemma lists_group_contact u g : leaves lists (ensureGroupContact u g).
Proof. apply lists_ensure. Qed.
Lemma lists_user_contact u g : leaves lists (ensureUserContact u g).
Proof. apply lists_ensure. Qed.
Lemma lists_submit u c k m : leaves lists (submit_apply u c k m).
Proof. unfold submit_apply, notifyApplyRecipient. leave. match goal with |- leaves _ (match ?e with _ => _ end) => destruct e end; leave. Qed.
Lemma lists_not_found {A} msg e : leaves lists (not_found (A := A) msg e).
Proof. by destruct e. Qed.
#[export] Hint Resolve lists_add lists_remove lists_new_sessions lists_group_contact lists_user_contact lists_submit lists_not_found : chat.

Abbreviation current m := (holds true lists_ok m).

Lemma current_forget o : current (SessionListCache_Delete o).
Proof. apply t_forget. by intros x. Qed.
#[export] Hint Resolve current_forget : chat.
Lemma current_forget_users l : current (invalidateUserCaches l).
Proof. unfold invalidateUserCaches. hold. Qed.
Lemma to_ok O m (P : world -> Prop) : triple true P m (fun (r : result dberr unit) w => r = Ok tt /\ lists_but O w) -> triple true P m (fun r w => match r with Ok _ => lists_but O w | Err _ => False end).
Proof. intros H. eapply t_weaken; [exact H | done |]. by intros r w [-> ?]. Qed.
(** A change to the sessions of one owner, whose list is then forgotten. *)
Lemma current_change o P f :
  (forall s, P s = true -> sUuid (f s) = sUuid s /\ sSendId (f s) = sSendId s /\ sSendId s = o) ->
  triple true lists_ok (Update sessions P f) (fun r w => match r with Ok _ => lists_but (eq o) w | Err _ => False end).
Proof.
  intros H. apply to_ok, t_update_sessions; [exact _ | intros s Hs; by destruct (H s Hs) as (? & ? & ?) |].
  intros w [Hn Hl]. split; [split; [done |]; intros x l Hx; right; by destruct (Hl x l Hx) |]. intros s _ Hs. left. by destruct (H s Hs) as (_ & _ & ->).
Qed.
Lemma but_forget o : triple true (lists_but (eq o)) (SessionListCache_Delete o) (fun _ => lists_ok).
Proof. apply t_forget. intros x <-. by right. Qed.

Lemma of_pair_true a c s : of_pair a c s = true <-> sSendId s = a /\ sReceiveId s = c.
Proof. unfold of_pair. by rewrite andb_true_iff, !eqs_true. Qed.

Lemma current_read o r : current (MarkSessionRead o r).
Proof.
  unfold MarkSessionRead. apply h_if; [hold |]. apply h_attempt; [hold | hold | intros t].
  apply (t_attempt _ _ _ _ (fun _ => lists_but (eq o)) (fun _ _ => False)); [| by intros e w |].
  - apply current_change. by intros s [[E _]%of_pair_true _]%andb_true_iff.
  - intros _. apply (t_after _ _ _ lists_ok); [apply but_forget | by apply t_answer].
Qed.
Lemma current_black u c : current (BlackContact u c).
Proof.
  unfold BlackContact, set_contact. apply h_attempt; [hold | hold | intros t]. apply h_attempt; [hold | hold | intros _]. apply h_attempt; [hold | hold | intros _].
  apply (t_after _ _ _ (lists_but (eq u))).
  - eapply t_weaken; [apply current_change | done | by intros [[] | e] w]. by intros s [[E _]%of_pair_true _]%andb_true_iff.
  - apply (t_after _ _ _ lists_ok); [apply but_forget |]. change (current (run! PushSystem NotifyContact [c] in answer (A := unit) "contact blocked" None 0)). hold.
Qed.
Lemma current_cleanup u g s : current (cleanupGroupMembership u g s).
Proof.
  unfold cleanupGroupMembership. apply h_bind; [hold | intros t]. apply h_bind; [hold | intros _].
  apply (t_bind_ignoring _ _ _ (lists_but (eq u))).
  - eapply t_weaken; [apply current_change | done | by intros [[] | e] w]. by intros x [[E _]%of_pair_true _]%andb_true_iff.
  - apply (t_bind_ignoring _ _ _ (lists_but (eq u))); [apply (but_leaves true (eq u)); leave | apply but_forget].
Qed.

(** ** Sessions that are made or restored *)

Lemma insert_docs_prefix {D} (u : D -> string) ds l : exists k, (insert_docs (Some u) ds l).2 = l ++ k /\ (forall x, x ∈ k -> x ∈ ds) /\ (NoDup (u <$> l) -> NoDup (u <$> l ++ k)).
Proof.
  revert l. induction ds as [| x ds IH]; intros l; simpl.
  - exists []. rewrite app_nil_r. split; [done |]. split; [by intros x ?%not_elem_of_nil | done].
  - destruct (existsb (fun y => bool_decide (u y = u x)) l) eqn:E; simpl.
    + exists []. rewrite app_nil_r. split; [done |]. split; [by intros y ?%not_elem_of_nil | done].
    + destruct (IH (l ++ [x])) as (k & -> & H1 & H2). exists (x :: k). rewrite <- app_assoc in *. split; [done |]. split.
      * intros y [-> | Hy]%elem_of_cons; [by left | right; auto].
      * intros Hn. apply H2. rewrite fmap_app. apply NoDup_app. split; [done |]. split; [| apply NoDup_singleton]. intros y Hy ->%list_elem_of_singleton.
        apply list_elem_of_fmap in Hy as (z & Hz & Hzl). assert (existsb (fun y => bool_decide (u y = u x)) l = true) as H; [| congruence].
        apply existsb_exists. exists z. split; [by apply list_elem_of_In | by apply bool_decide_eq_true].
Qed.
Lemma t_insert_sessions O ds : triple true (lists_but O) (Insert sessions (Some sUuid) ds) (fun _ w => lists_but (fun o => O o \/ o ∈ sSendId <$> ds) w).
Proof.
  apply t_command; [exact _ | | done]. intros w [Hn Hl]. simpl. destruct (insert_docs_prefix sUuid ds (sessions (data w))) as (k & Ek & H1 & H2).
  unfold lists_but. simpl. rewrite Ek. split; [by apply H2 |]. intros o l Ho. destruct (Hl o l Ho) as [? | ->]; [by left; left |].
  destruct (decide (o ∈ sSendId <$> ds)) as [? | Hno]; [by left; right |]. right. symmetry. apply active_app. intros s Hs <-. apply Hno. apply list_elem_of_fmap_2. auto.
Qed.
Lemma t_insert_session s : triple true lists_ok (Insert sessions (Some sUuid) [s]) (fun r w => match r with Ok _ => lists_but (eq (sSendId s)) w | Err _ => lists_ok w end).
Proof.
  intros w Hc Hw. destruct (t_insert_sessions _ [s] w Hc Hw) as [Hc' [Hn Hl]]. split; [done |]. revert Hn Hl. unfold Insert, command. rewrite (Hc eq_refl). cbn [fst snd].
  destruct (insert_one sUuid s (sessions (data w))) as [E | [E _]]; rewrite E; intros Hn Hl.
  - unfold lists_ok, lists_but, set. simpl. destruct w as [[] ? ? ? ? ? ? ?]. simpl in *. rewrite E. exact Hw.
  - split; [exact Hn |]. intros o l Ho. destruct (Hl o l Ho) as [[[] | H] | ->]; [left | by right]. by apply list_elem_of_singleton in H.
Qed.

Lemma current_new a c : current (createSession a c).
Proof.
  unfold createSession. apply h_attempt; [hold | hold | intros r]. apply h_attempt; [hold | hold | intros t]. apply h_attempt; [hold | hold | intros p]. cbn zeta.
  apply (t_attempt _ _ _ _ (fun _ => lists_but (eq a)) (fun _ => lists_ok)); [apply t_insert_session | by intros e; apply t_answer |].
  intros _. apply (t_after _ _ _ lists_ok); [apply but_forget | by apply t_answer].
Qed.
#[export] Hint Resolve current_new : chat.
Lemma current_open a c : current (OpenSession a c).
Proof. unfold OpenSession. hold. Qed.

Lemma one_uuid l x y : NoDup (sUuid <$> l) -> x ∈ l -> y ∈ l -> sUuid x = sUuid y -> x = y.
Proof.
  intros Hn [i Hi]%list_elem_of_lookup [j Hj]%list_elem_of_lookup E. enough (i = j) as -> by congruence.
  eapply (NoDup_lookup (sUuid <$> l)); [done | |]; rewrite list_lookup_fmap; [by rewrite Hi | by rewrite Hj, E].
Qed.
(** Sessions that were found are restored. *)
Lemma t_restore found (I := fun w => lists_ok w /\ forall s, s ∈ found -> s ∈ sessions (data w)) :
  triple true I (Update sessions (fun s => isin (sUuid s) (sUuid <$> found)) (fun s => s <| sDeletedAt := None |>)) (fun _ => lists_but (fun o => o ∈ sSendId <$> found)).
Proof.
  assert (Steady I) as HI by (by intros w fs dr).
  enough (triple true I (Update sessions (fun s => isin (sUuid s) (sUuid <$> found)) (fun s => s <| sDeletedAt := None |>)) (fun r w => r = Ok tt /\ lists_but (fun o => o ∈ sSendId <$> found) w)) as H
    by (eapply t_weaken; [exact H | done | by intros r w []]).
  apply (t_update_sessions I); [by intros s | ]. intros w [[Hn Hl] Hf]. split; [split; [done |]; intros o l Ho; right; by destruct (Hl o l Ho) |].
  intros s Hs (r & Er & Hr)%isin_true%list_elem_of_fmap. left. rewrite (one_uuid _ s r Hn Hs (Hf r Hr) Er). by apply list_elem_of_fmap_2.
Qed.

Lemma current_peer a c : current (ensurePeerSession a c).
Proof.
  intros w Hc Hw. unfold ensurePeerSession. destruct (h_first (I := lists_ok) sessions (of_pair a c) w Hc Hw) as [Hc' [Hw' Hs]].
  destruct (First sessions (of_pair a c) w) as [[s | []] w']; cbn [fst snd] in *.
  - destruct (Hs s eq_refl) as [Hin [E _]%of_pair_true]. destruct (active (sDeletedAt s)); [done |].
    assert (triple true (fun w => lists_ok w /\ forall x, x ∈ [s] -> x ∈ sessions (data w))
      (ignoring (do? _ := Update sessions (fun x => eqs (sUuid x) (sUuid s)) (fun x => x <| sDeletedAt := None |>) in SessionListCache_Delete a)) (fun _ => lists_ok)) as H.
    { apply t_ignoring. apply (t_bind_ok _ _ _ (lists_but (eq a))); [| apply but_forget].
      assert (Steady (fun w => lists_ok w /\ forall x, x ∈ [s] -> x ∈ sessions (data w))) as Hst by (by intros v fs dr).
      apply (t_update_sessions _); [by intros x |]. intros v [[Hn Hl] Hf]. split; [split; [done |]; intros o l Ho; right; by destruct (Hl o l Ho) |].
      intros x Hx Ex%eqs_true. left. rewrite (one_uuid _ x s Hn Hx) by (done || apply Hf; by left). done. }
    apply H; [done |]. split; [done |]. by intros x ->%list_elem_of_singleton.
  - apply (current_new a c w' Hc' Hw').
  - done.
Qed.
#[export] Hint Resolve current_peer : chat.
Lemma current_touch_direct a c : current (touchDirectSessions a c).
Proof. unfold touchDirectSessions. hold. Qed.

Lemma to_restore_found found l s : s ∈ to_restore found l -> s ∈ found.
Proof.
  unfold to_restore. intros (m & _ & H)%list_elem_of_omap. destruct (latest_of m found) as [x |] eqn:E; [| done]. destruct (active (sDeletedAt x)); [done |]. injection H as <-.
  apply find_elem in E as [E _]. apply list_elem_of_In, in_rev, list_elem_of_In. done.
Qed.
Lemma current_touch_group g : current (touchGroupSessions g).
Proof.
  unfold touchGroupSessions. apply h_if; [apply h_ret |]. apply t_ignoring.
  apply (t_bind _ _ _ (fun found w => lists_ok w /\ forall s, s ∈ found -> s ∈ sessions (data w))).
  { eapply t_weaken; [apply (h_find (I := lists_ok)) | done |]. intros [found | e] w [Hw Hf]; [| done]. split; [done |]. intros s Hs. by apply (Hf found eq_refl). }
  intros found. set (I := fun w => lists_ok w /\ forall s, s ∈ found -> s ∈ sessions (data w)).
  apply (t_bind _ _ _ (fun _ => I)); [by apply t_now | intros t].
  apply (t_bind _ _ _ (fun _ => I)).
  { eapply t_weaken; [| done |].
    - apply (lists_leaves true (fun c => (NoDup (sUuid <$> c.1) /\ forall o l, c.2 !! o = Some l -> False \/ l = active_sessions o c.1) /\ forall s, s ∈ found -> s ∈ c.1)). apply lists_new_sessions.
    - intros [k | e] w Hw; [exact Hw | exact (proj1 Hw)]. }
  intros created. cbn zeta. set (restored := to_restore found (gMembers g)).
  assert (forall s, s ∈ restored -> s ∈ found) as Hr by apply to_restore_found.
  apply (t_bind _ _ _ (fun _ => lists_but (fun o => o ∈ sSendId <$> restored))).
  { destruct (bool_decide_reflect (restored = [])) as [-> |].
    - apply t_ret. intros w [[Hn Hl] _]. split; [done |]. intros o l Ho. right. by destruct (Hl o l Ho).
    - apply t_ignoring. eapply t_weaken; [apply t_restore | | done]. intros w [Hw Hf]. split; [done | auto]. }
  intros _. apply (t_bind _ _ _ (fun _ => lists_but (fun o => False \/ o ∈ sSendId <$> restored ++ created))).
  { destruct (bool_decide_reflect (created = [])) as [-> |].
    - apply t_ret. rewrite app_nil_r. intros w [Hn Hl]. split; [done |]. intros o l Ho. destruct (Hl o l Ho); auto.
    - apply t_ignoring. eapply t_weaken; [apply t_insert_sessions | done |]. intros r w [Hn Hl]. split; [done |]. intros o l Ho. rewrite fmap_app, elem_of_app. destruct (Hl o l Ho); auto. }
  intros _. apply (t_forget_each (fun _ => False)).
Qed.
#[export] Hint Resolve current_touch_direct current_touch_group : chat.

(** ** Sessions that go *)

Lemma cold_update g P f : (forall s, P s = true -> sDeletedAt (f s) <> None) -> holds true (cold g) (Update sessions P f).
Proof.
  intros Hf. apply h_command. intros w Hw. intros s. simpl. intros (x & Hx & [[E ->] | [E ->]])%updated_elem H1 H2; [by destruct (Hf x E) | by apply Hw].
Qed.
Lemma ok_drop (I : world -> Prop) `{HI : !Steady I} P f :
  (forall s, P s = true -> sUuid (f s) = sUuid s /\ sSendId (f s) = sSendId s) ->
  (forall w, I w -> lists_ok w /\ forall s, s ∈ sessions (data w) -> P s = true -> sessionCache w !! sSendId s = None) -> triple true I (Update sessions P f) (fun _ => lists_ok).
Proof.
  intros H1 H2. eapply t_weaken; [apply (t_update_sessions I (fun _ => False) P f H1) | done | by intros r w []].
  intros w Hw. destruct (H2 w Hw) as [Hok Hc]. split; [done |]. intros s Hs E. right. by apply Hc.
Qed.
Lemma drop_to_cold g t : triple true (fun w => lists_ok w /\ cold g w) (drop_sessions_to g t) (fun _ => lists_ok).
Proof.
  apply (ok_drop _); [by intros s |]. intros w [Hw Hcold]. split; [done |]. intros s Hs [E1%eqs_true E2%active_true]%andb_true_iff. by apply Hcold.
Qed.
Lemma current_invalidate g : triple true lists_ok (invalidateSessionCacheByReceiver g) (fun _ w => lists_ok w /\ cold g w).
Proof. eapply t_weaken; [apply (t_forget_receiver (fun _ => False) (fun _ => False)) | intros w Hw; split; [exact Hw | done] | done]. Qed.
Lemma current_cascade g : current (cascadeGroupRemoval g).
Proof.
  unfold cascadeGroupRemoval. apply h_bind; [hold | intros t]. apply (t_bind _ _ _ (fun _ w => lists_ok w /\ cold g w)).
  { eapply t_weaken; [apply current_invalidate | done |]. by intros [|] w []. }
  intros _. apply (t_bind _ _ _ (fun _ => lists_ok)).
  { eapply t_weaken; [apply drop_to_cold | done |]. by intros [|] w. }
  intros _. change (current (do? _ := Update contacts (fun c => eqs (cContactId c) g && active (cDeletedAt c)) (fun c => c <| cDeletedAt := Some t |>) in
    Update applies (fun a => eqs (aContactId a) g && active (aDeletedAt a)) (fun a => a <| aDeletedAt := Some t |>))). hold.
Qed.
#[export] Hint Resolve current_cascade current_cleanup current_forget_users : chat.

#[export] Instance steady_sessions l : Steady (fun w => sessions (data w) = l).
Proof. by intros w fs dr. Qed.
Lemma current_sync u n a : current (sync_sessions u n a).
Proof.
  unfold sync_sessions. apply h_if; [apply h_ret |]. intros w0 Hc0 Hw0. revert w0 Hc0 Hw0.
  enough (forall l0, triple true (fun w => lists_ok w /\ sessions (data w) = l0) (do? _ := ignoring (Update sessions (fun s => eqs (sReceiveId s) u && active (sDeletedAt s))
      (fun s => s <| sReceiveName := or_else n (sReceiveName s) |> <| sAvatar := or_else a (sAvatar s) |>)) in invalidateSessionCacheByReceiver u) (fun _ => lists_ok)) as H.
  { intros w Hc Hw. by apply (H (sessions (data w))). }
  intros l0. set (O := fun o => exists s, s ∈ l0 /\ sDeletedAt s = None /\ sReceiveId s = u /\ sSendId s = o).
  set (P := fun s => eqs (sReceiveId s) u && active (sDeletedAt s)). set (f := fun s => s <| sReceiveName := or_else n (sReceiveName s) |> <| sAvatar := or_else a (sAvatar s) |>).
  apply (t_bind_ignoring _ _ _ (fun w => lists_but O w /\ sessions (data w) = updated P f l0)).
  - intros w Hc [Hw E].
    assert (triple true (fun w => lists_ok w /\ sessions (data w) = l0) (Update sessions P f) (fun r w => r = Ok tt /\ lists_but O w)) as H1.
    { apply (t_update_sessions _); [by intros s |]. intros v [[Hn Hl] Ev]. split; [split; [done |]; intros o l Ho; right; by destruct (Hl o l Ho) |].
      intros s Hs [E1%eqs_true E2%active_true]%andb_true_iff. left. rewrite Ev in Hs. by exists s. }
    assert (triple true (fun w => sessions (data w) = l0) (Update sessions P f) (fun _ w => sessions (data w) = updated P f l0)) as H2.
    { apply t_command; [by intros v fs dr | | done]. intros v <-. done. }
    destruct (H1 w Hc (conj Hw E)) as [Hc1 [_ H3]], (H2 w Hc E) as [_ H4]. done.
  - eapply t_weaken; [apply (t_forget_receiver O (fun _ => False)) | | by intros r w []].
    intros w [Hw E]. split; [done |]. intros o (s & Hs & H1 & H2 & H3). right. rewrite E. exists (f s). split; [| done]. apply updated_elem. exists s. split; [done |]. left. split; [| done].
    apply andb_true_iff. split; [by apply eqs_true | by apply active_true].
Qed.
#[export] Hint Resolve current_sync : chat.

(** Nothing is kept for the users in [l]. *)
Definition unlisted (l : list string) (w : world) : Prop := forall u, u ∈ l -> sessionCache w !! u = None.
#[export] Instance steady_unlisted l : Steady (unlisted l).
Proof. by intros w fs dr. Qed.
Lemma unlisted_invalidate l g : holds true (unlisted l) (invalidateSessionCacheByReceiver g).
Proof.
  unfold invalidateSessionCacheByReceiver. apply h_ignoring, h_bind; [by apply h_query | intros found]. intros w Hc Hw. split; [intros _; apply forget_each_calm; auto |].
  intros u Hu. destruct (forget_each_effect (sSendId <$> found) w) as [-> _]. apply forget_each_none. right. by apply Hw.
Qed.
Lemma unlist l : triple true lists_ok (invalidateUserCaches l) (fun _ w => lists_ok w /\ unlisted l w).
Proof.
  assert (forall k w, faults w = [] -> (forall u, u ∈ l -> u ∈ k \/ sessionCache w !! u = None) -> unlisted l (invalidateUserCaches k w).2) as H.
  { induction k as [| x k IH]; intros w Hf Hk; [intros u Hu; by destruct (Hk u Hu) as [?%not_elem_of_nil | ?] |].
    apply (IH (w <| userCache := delete x (userCache w) |> <| sessionCache := delete x (sessionCache w) |>)); [done |]. intros u Hu.
    destruct (Hk u Hu) as [[-> | ?]%elem_of_cons | ?]; [right; simpl; by rewrite lookup_delete_eq | by left | right; simpl; rewrite lookup_delete_None; by right]. }
  intros w Hc Hw. destruct (current_forget_users l w Hc Hw) as [Hc' Hw']. split; [done |]. split; [done |]. apply H; [auto | by left].
Qed.
Lemma drop_user l u t : u ∈ l -> holds true (fun w => lists_ok w /\ unlisted l w)
  (do? _ := invalidateSessionCacheByReceiver u in do? _ := ignoring (drop_sessions_of u t) in ignoring (drop_sessions_to u t)).
Proof.
  intros Hu. apply (t_bind _ _ _ (fun _ w => (lists_ok w /\ cold u w) /\ unlisted l w)).
  { intros w Hc [H1 H2]. destruct (current_invalidate u w Hc H1) as [Hc' H3], (unlisted_invalidate l u w Hc H2) as [_ H4]. split; [done |]. exact (conj H3 H4). }
  assert (forall P f, holds true (unlisted l) (Update sessions P f)) as Hun by (by intros P f; apply h_command).
  intros _. apply (t_bind_ignoring _ _ _ (fun w => (lists_ok w /\ cold u w) /\ unlisted l w)).
  - intros w Hc [[H1 H2] H3]. 
    assert (triple true (fun w => lists_ok w /\ unlisted l w) (drop_sessions_of u t) (fun _ => lists_ok)) as Hd.
    { apply (ok_drop _); [by intros s |]. intros v [Hv Hl]. split; [done |]. intros s Hs [E%eqs_true _]%andb_true_iff. rewrite E. by apply Hl. }
    destruct (Hd w Hc (conj H1 H3)) as [Hc' H4]. split; [done |]. split; [split; [done |] | by apply (Hun _ _ w Hc H3)].
    eapply (cold_update u); [| done | done]. by intros s.
  - apply t_ignoring. intros w Hc [H1 H3]. destruct (drop_to_cold u t w Hc H1) as [Hc' H4]. split; [done |]. split; [done |]. by apply (Hun _ _ w Hc H3).
Qed.
Lemma unlisted_leaves {R} l (m : world -> R * world) : leaves lists m -> holds true (fun w => lists_ok w /\ unlisted l w) m.
Proof.
  intros H. apply holds_both; [by apply ok_leaves |]. apply (t_leaves lists true (fun c => forall u, u ∈ l -> c.2 !! u = None)). done.
Qed.

Lemma current_disable l : current (DisableUsers l).
Proof.
  unfold DisableUsers. apply h_attempt; [hold | hold | intros _]. apply (t_after _ _ _ (fun w => lists_ok w /\ unlisted l w)); [apply unlist |].
  apply (t_weaken (fun w => lists_ok w /\ unlisted l w) _ _ (fun _ w => lists_ok w /\ unlisted l w)); [| done | by intros r w []].
  change (holds true (fun w => lists_ok w /\ unlisted l w) (db! t := now else system_error in
    run! each (fun u => do? _ := invalidateSessionCacheByReceiver u in do? _ := ignoring (drop_sessions_of u t) in ignoring (drop_sessions_to u t)) l in answer (A := unit) "users disabled" None 0)).
  apply h_attempt; [apply h_now | intros e; apply h_answer | intros t]. apply h_after; [| apply h_answer]. apply h_each. intros u Hu. by apply drop_user.
Qed.
Lemma current_delete_users l : current (DeleteUsers l).
Proof.
  unfold DeleteUsers. apply h_attempt; [hold | hold | intros t]. apply h_attempt; [hold | hold | intros _]. apply (t_after _ _ _ (fun w => lists_ok w /\ unlisted l w)); [apply unlist |].
  apply (t_weaken (fun w => lists_ok w /\ unlisted l w) _ _ (fun _ w => lists_ok w /\ unlisted l w)); [| done | by intros r w []].
  match goal with |- triple _ _ ?m _ => change (holds true (fun w => lists_ok w /\ unlisted l w) m) end.
  apply h_after; [| apply h_answer]. apply h_each. intros u Hu.
  match goal with |- holds _ _ (do? _ := _ in do? _ := _ in do? _ := _ in ?k) =>
    apply (h_ext _ (do? _ := (do? _ := invalidateSessionCacheByReceiver u in do? _ := ignoring (drop_sessions_of u t) in ignoring (drop_sessions_to u t)) in k)) end.
  { intros w. unfold bind, ignoring. by destruct (invalidateSessionCacheByReceiver u w) as [[|] v]. }
  apply h_bind; [by apply drop_user | intros _]. apply unlisted_leaves. leave.
Qed.

(** ** The handlers and the lists *)

Lemma lists_tx s fn : leaves lists fn -> leaves lists (WithTransaction s fn).
Proof.
  intros H. apply leaves_transaction; [exact _ | | done]. intros w w' E. unfold lists in *. simpl. congruence.
Qed.
(** A function that does not fail when no command does. *)
Definition certain (m : call unit) : Prop := forall w, faults w = [] -> (m w).1 = Ok tt /\ faults (m w).2 = [].
Lemma certain_bind m k : certain m -> certain k -> certain (bind m (fun _ => k)).
Proof. intros H1 H2 w Hw. unfold bind. destruct (H1 w Hw) as [E F]. destruct (m w) as [r v]; simpl in *. subst r. by apply H2. Qed.
Lemma certain_now (k : Z -> call unit) : (forall t, certain (k t)) -> certain (bind now k).
Proof. intros H w Hw. by apply H. Qed.
Lemma certain_update {D} (coll : DB -> list D) `{!Setter coll} P f : certain (Update coll P f).
Proof. intros w Hw. unfold Update, command. by rewrite Hw. Qed.
Lemma certain_invalidate g : certain (invalidateSessionCacheByReceiver g).
Proof. intros w Hw. split; [done |]. destruct (unlisted_invalidate [] g w) as [H _]; [by intros _ | by intros u ?%not_elem_of_nil | by apply H]. Qed.
Lemma current_transaction s fn : current fn -> certain fn -> current (WithTransaction s fn).
Proof.
  intros H1 H2 w Hc Hw. destruct (H1 w Hc Hw) as [Hc' H], (H2 w (Hc eq_refl)) as [E F]. unfold WithTransaction. destruct s; simpl; destruct (fn w) as [r w']; simpl in *; [| done].
  subst r. by rewrite F.
Qed.
Ltac sure := repeat first [apply certain_now; intros ? | apply certain_bind | apply certain_update | apply certain_invalidate].

Lemma current_dismiss s g : current (DismissGroup s g).
Proof.
  unfold DismissGroup. apply h_attempt; [hold | hold | intros x]. apply h_attempt; [| hold | hold]. apply current_transaction; [hold |]. unfold cascadeGroupRemoval, drop_sessions_to. sure.
Qed.
Lemma current_delete_contact s u c : current (DeleteContact s u c).
Proof.
  unfold DeleteContact. 
  set (both := fun o => o = u \/ o = c).
  assert (forall a b t, a = u \/ a = c -> holds true (lists_but both) (drop_session a b t)) as Hdrop.
  { intros a b t Ha. enough (triple true (lists_but both) (drop_session a b t) (fun r w => r = Ok tt /\ lists_but both w)) as H by (eapply t_weaken; [exact H | done | by intros r w []]).
    apply (t_update_sessions _); [by intros x |]. intros w Hw. split; [done |]. intros x Hx [[E _]%of_pair_true _]%andb_true_iff. left. by rewrite E. }
  set (fn := do? t := now in _). assert (certain fn) as Hsure by (unfold fn, drop_contact, drop_session, drop_apply; sure).
  assert (holds true (lists_but both) fn) as Hfn.
  { unfold fn. repeat (apply h_bind; [first [apply h_now | apply Hdrop; auto | apply but_leaves; leave] | intros ?]). apply but_leaves. leave. }
  assert (triple true lists_ok (WithTransaction s fn) (fun r w => match r with Ok _ => lists_but both w | Err _ => False end)) as Htx.
  { intros w Hc [Hn Hl]. destruct (Hfn w Hc) as [Hc' H]; [split; [done |]; intros o l Ho; right; by destruct (Hl o l Ho) |].
    destruct (Hsure w (Hc eq_refl)) as [E F]. unfold WithTransaction. destruct s; simpl; destruct (fn w) as [r w']; simpl in *; subst r; [by rewrite F | done]. }
  apply (t_attempt _ _ _ _ (fun _ => lists_but both) (fun _ _ => False)); [exact Htx | by intros e w | intros _].
  apply (t_after _ _ _ (lists_but (eq c))); [apply t_forget; intros o [-> | ->]; auto |]. apply (t_after _ _ _ lists_ok); [apply but_forget |].
  change (current (run! PushSystem NotifyContact [c] in run! PushSystem NotifySession [c] in answer (A := unit) "deleted" None 0)). hold.
Qed.
Lemma current_status l st : current (SetGroupsStatus l st).
Proof.
  unfold SetGroupsStatus. apply h_attempt; [hold | hold | intros t]. apply h_attempt; [hold | hold | intros _]. apply h_after; [| hold]. apply h_if; [| hold].
  apply h_each_anyway. intros u _. apply (t_bind _ _ _ (fun _ w => lists_ok w /\ cold u w)).
  - eapply t_weaken; [apply current_invalidate | done |]. by intros [|] w [].
  - intros _. apply drop_to_cold.
Qed.
Lemma current_create s n o a t m l : current (CreateGroup s n o a t m l).
Proof.
  unfold CreateGroup. apply h_if; [hold |]. apply h_attempt; [hold | hold | intros found]. apply h_attempt; [hold | hold | intros r]. apply h_attempt; [hold | hold | intros tm].
  cbn zeta. apply h_attempt; [apply ok_leaves, lists_tx; unfold insert_member_contact; leave | hold | intros _]. apply h_attempt; [hold | hold | intros r2]. hold.
  apply ok_leaves. intros w. destruct (leaves_first lists users (fun u => active (uDeletedAt u) && eqs (uUuid u) o) w) as [E F]. fold (ActiveUser o) in *. destruct (ActiveUser o w) as [[u | e] w']; simpl in *;
    (match goal with |- lists (Insert messages ?U ?ds w').2 = _ /\ _ => assert (leaves lists (Insert messages U ds)) as H by leave end; destruct (H w') as [E' F']; split; [by rewrite E' | auto]).
Qed.
Lemma current_pass s a : current (PassContactApply s a).
Proof. unfold PassContactApply. hold. apply ok_leaves, lists_tx. unfold set_apply. leave. Qed.
Lemma current_group_fields u f : current (UpdateGroupInfo u f).
Proof. unfold UpdateGroupInfo. hold. Qed.
#[export] Hint Resolve current_group_fields : chat.

Lemma current_lists kind o : current (session_list kind o).
Proof.
  assert (current (query_sessions o)) as Hq by (unfold query_sessions; hold).
  assert (current (loadSessions o)) as Hload.
  { intros w Hc Hw. unfold loadSessions, SessionListCache_Get. destruct (sessionCache w !! o); [done |]. destruct (eqs o ""); [by apply Hq |].
    unfold query_sessions, bind, Find, command. rewrite (Hc eq_refl). simpl. split; [done |]. destruct Hw as [Hn Hl]. split; [done |]. simpl. intros x l.
    rewrite lookup_insert_Some. intros [[<- <-] | [_ Hx]]; [by right | by apply Hl]. }
  assert (forall s, leaves lists (enrichSession o s)) as He.
  { intros s w. unfold enrichSession. destruct (leaves_find lists messages (fun m => visible m && in_conversation o s m) w) as [E F]. destruct (Find messages _ w) as [latest w']; simpl in *.
    destruct (leaves_find lists messages (fun m => visible m && is_unread o s m) w') as [E' F']. destruct (Find messages (fun m => visible m && is_unread o s m) w') as [[l | e] w'']; simpl in *; (split; [congruence | auto]). }
  assert (forall l, leaves lists (enrich_all o l)) as Hall by (intros l; induction l as [| s l IH]; simpl; leave; apply He).
  unfold session_list. hold.
Qed.

Lemma current_steps sender : message_steps true lists_ok sender.
Proof. split; intros; try solve [hold]; unfold markSent; hold. Qed.

(** A session is deleted on behalf of its owner. *)
Definition owns (w : world) (r : request) : Prop :=
  match r with rDeleteSession o i => forall s, s ∈ sessions (data w) -> sUuid s = i -> sSendId s = o | _ => True end.
Fixpoint all_own `{Library} (w : world) (rs : list request) : Prop :=
  match rs with [] => True | r :: rs => owns w r /\ all_own (serve r w) rs end.

Section Lists.
Context `{L : Library}.

Lemma lists_steps : (forall x l, current (sendRaw x l)) /\ (forall P f, current (Update users P f)) /\ forall u, current (on_calls (Leave u)).
Proof. split; [| split]; hold. Qed.
Lemma serve_lists r w : owns w r -> calm true w -> lists_ok w -> calm true (serve r w) /\ lists_ok (serve r w).
Proof.
  intros Ho Hc Hw. destruct lists_steps as (Hs & Hu & Hl).
  assert (forall u c, calm true (unregister marshal u c w) /\ lists_ok (unregister marshal u c w)) as Hun.
  { intros u c. apply unregister_holds; try done; exact _. }
  destruct r; cbn [serve].
  21: { destruct Hw as [Hn Hl']. assert (triple true (fun w => lists_ok w /\ forall s, s ∈ sessions (data w) -> sUuid s = session -> sSendId s = owner) (DeleteSession owner session) (fun _ => lists_ok)) as H; [| by apply H].
    unfold DeleteSession. apply (t_attempt _ _ _ _ (fun _ w => lists_ok w /\ forall s, s ∈ sessions (data w) -> sUuid s = session -> sSendId s = owner) (fun _ _ => False)); [by apply t_now | by intros e v | intros t].
    apply (t_attempt _ _ _ _ (fun _ => lists_but (eq owner)) (fun _ _ => False)); [| by intros e v | intros _; apply (t_after _ _ _ lists_ok); [apply but_forget | by apply t_answer]].
    assert (Steady (fun w => lists_ok w /\ forall s, s ∈ sessions (data w) -> sUuid s = session -> sSendId s = owner)) as Hst by (by intros v fs dr).
    apply to_ok, (t_update_sessions _); [by intros s |]. intros v [[Hn' Hv] Hown]. split; [split; [done |]; intros o l Hol; right; by destruct (Hv o l Hol) |].
    intros s Hin E%eqs_true. left. symmetry. by apply Hown. }
  31: { by apply (k_message _ (current_steps (senderId i)) i eq_refl w). }
  31: { apply (register_holds true lists_ok uuid conn); try done; exact _. }
  31: { apply Hun. }
  31: { unfold ClientLogout. destruct (Clients w !! uuid); [apply Hun | done]. }
  31: { unfold clientWrite. by destruct (Clients w !! uuid) as [[c [| x l]] |]. }
  all: match goal with |- calm true (?m ?v).2 /\ _ => enough (current m) as H by by apply (H v) end.
  all: try solve [first [simple apply current_disable | simple apply current_delete_users | simple apply current_create | simple apply current_leave | simple apply current_dismiss | simple apply current_remove
    | simple apply current_status | simple apply current_open | simple apply current_lists | simple apply current_read | simple apply current_pass | simple apply current_black | simple apply current_delete_contact]].
  all: try solve [apply current_lists].
  all: lazymatch goal with |- holds _ _ ?m => let h := head_of m in unfold h end; cbn zeta; hold.
  destruct addMode; hold.
Qed.

(** As long as no command fails, sessions are deleted on behalf of their owner,
    and requests are served one after the other, the list of sessions a user is
    shown is, through any requests, the list of his sessions that are not
    deleted, the latest first. Requests that interleave can leave an old list
    behind, see [removal_races_with_reading]. *)
Theorem session_lists_are_current rs w o :
  faults w = [] -> lists_ok w -> all_own w rs ->
  (loadSessions o (serve_all rs w)).1 = Ok (active_sessions o (sessions (data (serve_all rs w)))).
Proof.
  intros Hf Hw Ho. assert (calm true w) as Hc by (intros _; exact Hf). clear Hf. revert w Hc Hw Ho. induction rs as [| r rs IH]; intros w Hc Hw Ho.
  - simpl. unfold loadSessions, SessionListCache_Get. destruct Hw as [_ Hl]. destruct (sessionCache w !! o) eqn:E; [by destruct (Hl o _ E) as [[] | ->] |].
    assert (forall v, data v = data w -> faults v = [] -> (query_sessions o v).1 = Ok (active_sessions o (sessions (data w)))) as Hq.
    { intros v Hd Hf. unfold query_sessions, bind, Find, command. by rewrite Hf, <- Hd. }
    destruct (eqs o ""); [by apply Hq; [| apply Hc] |]. unfold bind. specialize (Hq w eq_refl (Hc eq_refl)). destruct (query_sessions o w) as [[l | e] v]; simpl in *; [done | congruence].
  - destruct Ho as [H1 H2]. destruct (serve_lists r w H1 Hc Hw) as [Hc' Hw']. by apply (IH (serve r w)).
Qed.
End Lists.

(** A database of two friends, with one session each. *)
Definition user (uuid name : string) : UserInfo := mkUser uuid name "" "" "" 0 None None None 0 UserStatusNormal.
Definition friend (a c : string) : UserContact := mkContact a c ContactTypeUser ContactNormal "" "" 0 0 None.
Definition friends_db : DB :=
  mkDB [user "Ualice" "alice"; user "Ubob" "bob"] [] [friend "Ualice" "Ubob"; friend "Ubob" "Ualice"] []
       [mkSession "S1" "Ualice" "Ubob" "bob" "" None 1 None; mkSession "S2" "Ubob" "Ualice" "alice" "" None 2 None] [] [].
Definition friends : world := mkWorld friends_db ∅ ∅ {["Ualice" := mkClient 1 []; "Ubob" := mkClient 2 []]} (mkCalls ∅ ∅) [] ["m1"; "m2"; "m3"] 100.

Lemma friends_lists : lists_ok friends.
Proof. split; [by vm_compute; repeat constructor; set_solver | intros o l; simpl; by rewrite lookup_empty]. Qed.

(** Bob writes in Mallory's name, and Alice sees his name. *)
Lemma spoofing_fails : let w := serve (H := plain) (rMessage (mkInbound "Ualice" "hello")) friends in
  ((fun c => (iSendId <$> SendBack c)) <$> Clients w !! "Ubob") = Some ["Ualice"] /\ (mSendName <$> messages (data w)) = ["alice"].
Proof. by vm_compute. Qed.

(** A list is read, changed by a deletion, and read again. *)
Definition lists_life : list request := [rGetUserSessionList "Ualice"; rMessage (mkInbound "Ualice" "hello"); rDeleteSession "Ualice" "S1"; rGetUserSessionList "Ualice"; rDisableUsers ["Ualice"]].
Lemma session_lists_are_current_witness :
  (loadSessions "Ubob" (serve_all (H := plain) lists_life friends)).1 = Ok (active_sessions "Ubob" (sessions (data (serve_all (H := plain) lists_life friends)))) /\
  (sUuid <$> active_sessions "Ubob" (sessions (data (serve_all (H := plain) (take 4 lists_life) friends)))) = ["S2"] /\
  active_sessions "Ubob" (sessions (data (serve_all (H := plain) lists_life friends))) = [].
Proof.
  split; [| by vm_compute]. apply (session_lists_are_current (L := plain)); [done | apply friends_lists |].
  split; [done |]. split; [done |]. split; [| done]. vm_compute. intros s [-> | [-> | []%not_elem_of_nil]%elem_of_cons]%elem_of_cons; [done | discriminate].
Defined.

(** Calls by the text of the signal. *)
Definition calling (kind roomId to : string) : Library :=
  {| supported := true; HashPassword := fun p => p; TrimSpace := fun s => s;
     unmarshal := fun s => Some (mkRequest MessageAudioOrVideo "" no_attachment "" "" "" to s);
     unmarshal_av := fun s => mkSignal "PROXY" kind roomId; marshal := fun _ => "" |}.
Definition called : world := serve (H := calling "receive_call" "" "Ualice") (rMessage (mkInbound "Ubob" ""))
  (serve (H := calling "start_call" "" "Ubob") (rMessage (mkInbound "Ualice" "")) friends).
Lemma no_calls : calls_ok (mkCalls ∅ ∅).
Proof. split; [intros u r | intros r s]; simpl; [| by rewrite lookup_empty]. rewrite lookup_empty. unfold room. simpl. rewrite lookup_empty. simpl. set_solver. Qed.
Lemma calls_agree_witness :
  calls_ok (Calls (serve_all (H := calling "leave_call" "" "Ubob") [rMessage (mkInbound "Ualice" ""); rDisconnect "Ubob" 2] friends)) /\
  Members (Calls called) "P:Ualice:Ubob" = ["Ualice"; "Ubob"].
Proof. split; [apply (calls_agree (L := calling "leave_call" "" "Ubob")), no_calls | by vm_compute]. Defined.

(** ** What the handlers do not hold *)

(** [cascadeGroupRemoval] drops the cached lists before the sessions are deleted:
    a user who reads his list in between puts the old one back, and goes on
    seeing the session of a group that is gone. *)
Lemma removal_races_with_reading :
  let w := serve_all (H := plain) (take 4 group_life ++ [rOpenSession "Ualice" "Gg"]) (start group_names) in
  let w := (invalidateSessionCacheByReceiver "Gg" w).2 in
  let w := serve (H := plain) (rGetGroupSessionList "Ualice") w in
  let w := (drop_sessions_to "Gg" 1000 w).2 in
  (match (loadSessions "Ualice" w).1 with Ok l => sReceiveId <$> l | Err _ => [] end, active_sessions "Ualice" (sessions (data w))) = (["Gg"], []).
Proof. by vm_compute. Qed.

(** Who is blocked lifts the block himself. *)
Lemma blocked_user_unblocks : let w := serve (H := plain) (rBlackContact "Ualice" "Ubob") friends in
  rMsg (CheckOpenSessionAllowed "Ubob" "Ualice" w).1 = "blocked by the other user" /\
  rMsg (CheckOpenSessionAllowed "Ubob" "Ualice" (serve (H := plain) (rCancelBlackContact "Ubob" "Ualice") w)).1 = "allowed".
Proof. by vm_compute. Qed.
(** Of two users who block each other the first's block is lost. *)
Lemma second_block_replaces_first :
  (cStatus <$> contacts (data (serve_all (H := plain) [rBlackContact "Ualice" "Ubob"; rBlackContact "Ubob" "Ualice"] friends))) = [ContactBeBlack; ContactBlack] /\
  (cStatus <$> contacts (data (serve_all (H := plain) [rBlackContact "Ualice" "Ubob"; rBlackContact "Ubob" "Ualice"; rCancelBlackContact "Ubob" "Ualice"] friends))) = [ContactNormal; ContactNormal].
Proof. by vm_compute. Qed.
(** A block does not stop messages. *)
Lemma blocked_user_still_writes : let w := serve_all (H := plain) [rBlackContact "Ubob" "Ualice"; rMessage (mkInbound "Ualice" "hello")] friends in
  ((fun c => iContent <$> SendBack c) <$> Clients w !! "Ubob") = Some ["hello"] /\ ((fun s => active (sDeletedAt s)) <$> sessions (data w)) = [true; true].
Proof. by vm_compute. Qed.
(** A user who is deleted stays a member of his groups. *)
Lemma deleted_user_stays_member : let w := serve_all (H := plain) (group_life ++ [rDeleteUsers ["Ucarol"]]) (start group_names) in
  (gMembers <$> groups (data w)) = [["Ualice"; "Ucarol"]] /\ (cUserId <$> List.filter (fun c => active (cDeletedAt c)) (contacts (data w))) = ["Ualice"].
Proof. by vm_compute. Qed.
(** A command lost in the middle of an entry: the user is a member without the
    group among his contacts, and cannot enter again. *)
Lemma half_an_entry : let w := serve_all (H := plain) (take 4 group_life) (start group_names) in
  let w := serve (H := plain) (rEnterGroupDirectly "Ubob" "Gg") (w <| faults := [Fine; Fine; Fine; Lost] |>) in
  (gMembers <$> groups (data w)) = [["Ualice"; "Ubob"]] /\ (cUserId <$> contacts (data w)) = ["Ualice"] /\ rMsg (EnterGroupDirectly "Ubob" "Gg" w).1 = "already a group member".
Proof. by vm_compute. Qed.
(** An application of a kind there is none of passes for one to a group when it
    is made and for one to a user when it is granted. *)
Lemma third_kind_of_application : let w := serve_all (H := plain) (take 4 group_life ++ [rApplyContact "Ubob" "Gg" 2 ""]) (start ["alice"; "t1"; "bob"; "t2"; "carol"; "t3"; "g"; "m"; "s1"; "a"]) in
  let w := serve (H := plain) (rPassContactApply "Aa") w in
  (gMembers <$> groups (data w)) = [["Ualice"]] /\ ((fun c => (cUserId c, cContactId c)) <$> contacts (data w)) = [("Ualice", "Gg"); ("Ubob", "Gg"); ("Gg", "Ubob")].
Proof. by vm_compute. Qed.
(** A session that is deleted, opened again and written to is there twice. *)
Lemma session_twice : let w := serve_all (H := plain) [rDeleteSession "Ualice" "S1"; rOpenSession "Ualice" "Ubob"; rMessage (mkInbound "Ualice" "hello")] friends in
  (sUuid <$> active_sessions "Ualice" (sessions (data w))) = ["Sm1"; "S1"].
Proof. by vm_compute. Qed.
(** A session deleted on behalf of another stays in its owner's list. *)
Lemma deleted_session_is_shown : let w := serve_all (H := plain) [rGetUserSessionList "Ualice"; rDeleteSession "Ubob" "S1"] friends in
  ((loadSessions "Ualice" w).1, active_sessions "Ualice" (sessions (data w))) = (Ok [mkSession "S1" "Ualice" "Ubob" "bob" "" None 1 None], []).
Proof. by vm_compute. Qed.
(** A message for a user who is not connected counts as sent when its sender is. *)
Lemma echo_counts_as_delivery : let w := serve_all (H := plain) [rDisconnect "Ubob" 2; rMessage (mkInbound "Ualice" "hello")] friends in
  (Clients w !! "Ubob", mStatus <$> messages (data w)) = (None, [MessageSent]).
Proof. by vm_compute. Qed.
(** Anybody ends the call of two others. *)
Lemma stranger_ends_call : Members (Calls called) "P:Ualice:Ubob" = ["Ualice"; "Ubob"] /\
  Members (Calls (serve (H := calling "reject_call" "P:Ualice:Ubob" "Ualice") (rMessage (mkInbound "Umallory" "")) called)) "P:Ualice:Ubob" = [].
Proof. by vm_compute. Qed.
(** A call that waits in the queue while its caller leaves keeps him busy. *)
Lemma late_call_keeps_busy : let w := serve (H := calling "start_call" "" "Ubob") (rMessage (mkInbound "Ualice" "")) (serve (H := plain) (rDisconnect "Ualice" 1) friends) in
  (online w "Ualice", IsBusy (Calls w) "Ualice") = (false, true).
Proof. by vm_compute. Qed.

(** ** Unread messages *)

(** Once it is read a conversation has no unread messages, if none is of the future. *)
Lemma read_clears_unread o r w s : faults w = [] -> o <> "" -> r <> "" -> Forall (fun m => mCreatedAt m <= clock w) (messages (data w)) ->
  let w' := (MarkSessionRead o r w).2 in
  s ∈ sessions (data w') -> of_pair o r s = true -> active (sDeletedAt s) = true -> unreadCnt <$> match (enrichSession o s w').1 with Ok m => Some m | Err _ => None end = Some 0.
Proof.
  intros Hf Ho Hr Hm. unfold MarkSessionRead. apply eqs_false in Ho, Hr. rewrite Ho, Hr. unfold attempt, after, now, Update, command. simpl. rewrite Hf. simpl.
  intros (x & Hx & [[E ->] | [E ->]])%updated_elem Hp Ha; [| by rewrite Hp, Ha in E].
  unfold enrichSession, Find, command. simpl. rewrite Hf. simpl. rewrite Hf. simpl. do 2 f_equal. apply zlen_0.
  match goal with |- List.filter ?f ?l = [] => assert (forall m, m ∈ l -> f m = false) as H end.
  { intros m Hin. apply andb_false_iff. right. apply andb_false_iff. right. apply bool_decide_eq_false. rewrite Forall_forall in Hm. specialize (Hm m Hin). simpl. lia. }
  induction (messages (data w)) as [| m l IH]; [done |]. cbn [List.filter]. rewrite H by (by left). apply IH; [by inversion Hm | intros y Hy; apply H; by right].
Qed.
