(* ===== verification/OrmQuery.v ===== *)
(** * OrmQuery
    The query builder of [swifty_orm]: conditions, the filter they become, the
    pipeline of a grouped aggregation, and the command each execution method
    sends ([query.go], [filter.go], [query_exec.go], [query_aggregate.go],
    [query_group.go]). The driver and the database are the class [Mongo]. *)
From S2P Require Import Prelude GoStrings.
Local Open Scope string_scope.
Local Open Scope list_scope.
Local Open Scope Z_scope.

(** ** Values of type [any] *)

Inductive value :=
  | vNil | vBool (b : bool) | vInt (n : Z) | vString (s : string) | vRegex (pattern opts : string)
  | vList (l : list value) | vPair (low high : value)                                  (* a slice or an array, and [[2]any] *)
  | vDoc (fields : list (string * value))                                              (* [bson.M], [map[string]any] *)
  | vD (fields : list (string * value)) | vElem (key : string) (v : value)             (* [bson.D], [bson.E] *)
  | vStruct (id : Z) | vPtr (to : option value) | vOther (id : Z).

(** A map by its entries, no key twice; their order never matters. *)
Fixpoint get {A} (k : string) (m : list (string * A)) : option A :=
  match m with
  | [] => None
  | (k', v) :: m => if bool_decide (k = k') then Some v else get k m
  end.
Fixpoint put {A} (k : string) (v : A) (m : list (string * A)) : list (string * A) :=
  match m with
  | [] => [(k, v)]
  | (k', v') :: m => if bool_decide (k = k') then (k, v) :: m else (k', v') :: put k v m
  end.
Definition has {A} (k : string) (m : list (string * A)) : bool := match get k m with Some _ => true | None => false end.

(** ** [strings] *)

Section Trim.
Context (two : ascii -> ascii -> bool) (three : ascii -> ascii -> ascii -> bool).
Fixpoint trim (s : string) : string :=
  match s with
  | String a s1 =>
      if space1 a then trim s1 else
      match s1 with
      | String b s2 =>
          if two a b then trim s2 else
          match s2 with String c s3 => if three a b c then trim s3 else s | EmptyString => s end
      | EmptyString => s
      end
  | EmptyString => s
  end.
End Trim.
Definition rev_string (s : string) : string := String.string_of_list_ascii (rev (String.list_ascii_of_string s)).
(** [strings.TrimSpace]: the white space of Unicode, by its bytes. *)
Definition TrimSpace (s : string) : string :=
  rev_string (trim (fun b a => space2 a b) (fun c b a => space3 a b c) (rev_string (trim space2 space3 s))).
Definition blank (s : string) : bool := bool_decide (TrimSpace s = "").

Definition lower (a : ascii) : ascii := let x := byte_at a in if ((65 <=? x) && (x <=? 90))%N then Ascii.ascii_of_N (x + 32) else a.
Section Lower.
Context (two : ascii -> ascii -> option ascii).
Fixpoint lower_with (s : string) : string :=
  match s with
  | String a s1 =>
      match s1 with
      | String b s2 =>
          match two a b with
          | Some l => String l (lower_with s2)
          | None =>
              match s2 with
              | String c s3 => if ((byte_at a =? 226) && (byte_at b =? 132) && (byte_at c =? 170))%N then String "k" (lower_with s3) else String (lower a) (lower_with s1)
              | EmptyString => String (lower a) (lower_with s1)
              end
          end
      | EmptyString => String (lower a) EmptyString
      end
  | EmptyString => s
  end.
End Lower.
(** [strings.ToLower], and [strings.EqualFold] with small letters: of the letters
    outside ASCII only those that become ASCII are changed. *)
Definition ToLower : string -> string := lower_with (fun a b => if ((byte_at a =? 196) && (byte_at b =? 176))%N then Some "i"%char else None).
Definition EqualFold (s small : string) : bool :=
  bool_decide (lower_with (fun a b => if ((byte_at a =? 197) && (byte_at b =? 191))%N then Some "s"%char else None) s = small).

(** [strings.ReplaceAll] of a byte, [regexp.QuoteMeta]. *)
Fixpoint ReplaceAll (s : string) (old : ascii) (new : string) : string :=
  match s with
  | EmptyString => EmptyString
  | String a s => if decide (a = old) then String.append new (ReplaceAll s old new) else String a (ReplaceAll s old new)
  end.
Definition meta (a : ascii) : bool := bool_decide (a ∈ String.list_ascii_of_string "\.+*?()|[]{}^$").
Fixpoint QuoteMeta (s : string) : string :=
  match s with
  | EmptyString => EmptyString
  | String a s => if meta a then String "\" (String a (QuoteMeta s)) else String a (QuoteMeta s)
  end.

(** ** [filter.go]: the arguments of [Where] *)

Record condition := mkCondition { field : string; op : string; cvalue : value }.

Inductive error := BadWhere | BadOperator | BadBetween | BadPattern | BadGroupField | BadAggField | BadAlias | CollectionRequired | GroupingPending | NoDocument.

Definition opAliases (s : string) : option string :=
  get s [("=", "="); ("==", "="); ("!=", "$ne"); ("<>", "$ne"); (">", "$gt"); (">=", "$gte"); ("<", "$lt"); ("<=", "$lte");
         ("in", "$in"); ("not in", "$nin"); ("nin", "$nin"); ("like", "like"); ("ilike", "ilike"); ("between", "between"); ("not between", "notBetween")].

Definition toBetweenPair (v : value) : result error value :=
  match v with
  | vPair _ _ => Ok v
  | vList [a; b] => Ok (vPair a b)
  | vD [(j, a); (k, b)] => Ok (vPair (vElem j a) (vElem k b))
  | _ => Err BadBetween
  end.

Definition normalizeOp (rawOp : string) (v : value) : result error (string * value) :=
  match opAliases (ToLower (TrimSpace rawOp)) with
  | None => if HasPrefix rawOp "$" then Ok (rawOp, v) else Err BadOperator
  | Some o =>
      if bool_decide (o = "between" \/ o = "notBetween") then
        match toBetweenPair v with Ok ends => Ok (o, ends) | Err e => Err e end
      else if bool_decide (o = "like" \/ o = "ilike") then
        match v with vString _ => Ok (o, v) | _ => Err BadPattern end
      else Ok (o, v)
  end.

Fixpoint insert_key (k : string) (l : list string) : list string :=
  match l with
  | [] => [k]
  | x :: l => if String.leb k x then k :: x :: l else x :: insert_key k l
  end.
(** [sort.Strings] of the keys. *)
Definition sorted_keys (doc : list (string * value)) : list string := foldr insert_key [] doc.*1.

Definition parseWhereMap (arg : value) : result error (list condition) :=
  match arg with
  | vDoc doc =>
      Ok ((fun k => match default vNil (get k doc) with
                    | vNil => mkCondition k "null" vNil
                    | v => mkCondition k "=" v
                    end) <$> sorted_keys doc)
  | _ => Err BadWhere
  end.

Definition parseWhere (args : list value) : result error (list condition) :=
  match args with
  | [arg] => parseWhereMap arg
  | [vString f; v] =>
      if blank f then Err BadWhere else
      match v with vNil => Ok [mkCondition f "null" vNil] | _ => Ok [mkCondition f "=" v] end
  | [vString f; vString rawOp; v] =>
      if blank f then Err BadWhere else
      match normalizeOp rawOp v with Ok (o, v) => Ok [mkCondition f o v] | Err e => Err e end
  | _ => Err BadWhere
  end.

Definition likeToRegex (pattern : string) : string :=
  let quoted := ReplaceAll (QuoteMeta pattern) "%" ".*" in
  let quoted := ReplaceAll quoted "_" "." in
  String.append "^" (String.append quoted "$").

(** ** [query.go], and the columns of [query_group.go] *)

Record aggSpec := mkAggSpec { alias : string; aggOp : string; aggField : string }.
Record Query := mkQuery {
  collection : bool; conditions : list condition; orGroups : list (list condition); sort : list (string * Z); limit : Z; skip : Z;
  fields : list string; groupFields : list string; havingConds : list condition; aggSpecs : list aggSpec; err : option error
}.
#[export] Instance eta_query : Eta Query := fun q =>
  mkQuery (collection q) (conditions q) (orGroups q) (sort q) (limit q) (skip q) (fields q) (groupFields q) (havingConds q) (aggSpecs q) (err q).

(** [Engine.Collection] of a name, or of the empty one. *)
Definition Collection (bound : bool) : Query := mkQuery bound [] [] [] 0 0 [] [] [] [] None.

Definition setErr (e : error) (q : Query) : Query := match err q with None => q <| err := Some e |> | Some _ => q end.
Definition and_where (c : condition) (q : Query) : Query := q <| conditions := conditions q ++ [c] |>.
Definition or_where (c : condition) (q : Query) : Query := q <| orGroups := orGroups q ++ [[c]] |>.

Definition Where (args : list value) (q : Query) : Query :=
  match parseWhere args with Err e => setErr e q | Ok cs => q <| conditions := conditions q ++ cs |> end.
Definition WhereNot (f : string) (v : value) : Query -> Query := and_where (mkCondition f "$ne" v).
Definition WhereIn (f : string) (vs : value) : Query -> Query := and_where (mkCondition f "$in" vs).
Definition WhereNotIn (f : string) (vs : value) : Query -> Query := and_where (mkCondition f "$nin" vs).
Definition WhereNull (f : string) : Query -> Query := and_where (mkCondition f "null" vNil).
Definition WhereNotNull (f : string) : Query -> Query := and_where (mkCondition f "notNull" vNil).
Definition WhereBetween (f : string) (low high : value) : Query -> Query := and_where (mkCondition f "between" (vPair low high)).
Definition WhereNotBetween (f : string) (low high : value) : Query -> Query := and_where (mkCondition f "notBetween" (vPair low high)).
Definition WhereLike (f pattern : string) : Query -> Query := and_where (mkCondition f "like" (vString pattern)).
Definition WhereILike (f pattern : string) : Query -> Query := and_where (mkCondition f "ilike" (vString pattern)).
Definition OrWhere (args : list value) (q : Query) : Query :=
  match parseWhere args with
  | Err e => setErr e q
  | Ok [] => q
  | Ok cs => q <| orGroups := orGroups q ++ [cs] |>
  end.
Definition OrWhereNot (f : string) (v : value) : Query -> Query := or_where (mkCondition f "$ne" v).
Definition OrWhereIn (f : string) (vs : value) : Query -> Query := or_where (mkCondition f "$in" vs).
Definition OrWhereNotIn (f : string) (vs : value) : Query -> Query := or_where (mkCondition f "$nin" vs).
Definition OrWhereNull (f : string) : Query -> Query := or_where (mkCondition f "null" vNil).
Definition OrWhereNotNull (f : string) : Query -> Query := or_where (mkCondition f "notNull" vNil).
Definition OrWhereBetween (f : string) (low high : value) : Query -> Query := or_where (mkCondition f "between" (vPair low high)).

Definition OrderBy (f : string) (direction : list string) (q : Query) : Query :=
  let dir := match direction with d :: _ => if EqualFold (TrimSpace d) "desc" then -1 else 1 | [] => 1 end in
  q <| sort := sort q ++ [(f, dir)] |>.
Definition Limit (n : Z) (q : Query) : Query := q <| limit := n |>.
Definition Offset (n : Z) (q : Query) : Query := q <| skip := n |>.
Definition Select (fs : list string) (q : Query) : Query := q <| fields := fs |>.

Definition GroupBy (fs : list string) (q : Query) : Query :=
  if existsb blank fs then setErr BadGroupField q else q <| groupFields := groupFields q ++ fs |>.
Definition Having (args : list value) (q : Query) : Query :=
  match parseWhere args with Err e => setErr e q | Ok cs => q <| havingConds := havingConds q ++ cs |> end.
Definition contains_dot (s : string) : bool := bool_decide ("."%char ∈ String.list_ascii_of_string s).
Definition addAggSpec (a o f : string) (q : Query) : Query :=
  if blank a then setErr BadAlias q else
  if bool_decide (a = "_id") then setErr BadAlias q else
  if HasPrefix a "$" || contains_dot a then setErr BadAlias q else
  q <| aggSpecs := aggSpecs q ++ [mkAggSpec a o f] |>.
Definition addFieldAggSpec (a o f : string) (q : Query) : Query := if blank f then setErr BadAggField q else addAggSpec a o f q.
Definition CountAs (a : string) : Query -> Query := addAggSpec a "$sum" "".
Definition SumAs (f a : string) : Query -> Query := addFieldAggSpec a "$sum" f.
Definition AvgAs (f a : string) : Query -> Query := addFieldAggSpec a "$avg" f.
Definition MinAs (f a : string) : Query -> Query := addFieldAggSpec a "$min" f.
Definition MaxAs (f a : string) : Query -> Query := addFieldAggSpec a "$max" f.

(** ** [filter.go]: the filter *)

Definition assertion_failed : string := "interface conversion".

(** The filter so far, the fields that hold operators, and the clauses for [$and]. *)
Record building := mkBuilding { filter : list (string * value); opFields : list string; andClauses : list value }.
#[export] Instance eta_building : Eta building := fun b => mkBuilding (filter b) (opFields b) (andClauses b).

Definition clause (f : string) (v : value) (b : building) : building := b <| andClauses := andClauses b ++ [vDoc [(f, v)]] |>.

Definition setEquality (f : string) (v : value) (b : building) : outcome building :=
  match get f (filter b) with
  | None => Ret (b <| filter := put f v (filter b) |>)
  | Some existing =>
      if bool_decide (f ∈ opFields b) then
        match existing with
        | vDoc m => if has "$eq" m then Ret (clause f v b) else Ret (b <| filter := put f (vDoc (put "$eq" v m)) (filter b) |>)
        | _ => Panic assertion_failed
        end
      else Ret (clause f v b)
  end.

Definition setOp (f o : string) (v : value) (b : building) : outcome building :=
  match get f (filter b) with
  | None => Ret (b <| filter := put f (vDoc [(o, v)]) (filter b) |> <| opFields := f :: opFields b |>)
  | Some existing =>
      if bool_decide (f ∈ opFields b) then
        match existing with
        | vDoc m => if has o m then Ret (clause f (vDoc [(o, v)]) b) else Ret (b <| filter := put f (vDoc (put o v m)) (filter b) |>)
        | _ => Panic assertion_failed
        end
      else Ret (clause f (vDoc [(o, v)]) b)
  end.

Definition add_condition (c : condition) (b : building) : outcome building :=
  if bool_decide (op c = "=") then setEquality (field c) (cvalue c) b else
  if bool_decide (op c = "null") then setEquality (field c) vNil b else
  if bool_decide (op c = "notNull") then setOp (field c) "$ne" vNil b else
  if bool_decide (op c = "between") then
    match cvalue c with vPair low high => let! b := setOp (field c) "$gte" low b in setOp (field c) "$lte" high b | _ => Panic assertion_failed end else
  if bool_decide (op c = "notBetween") then
    match cvalue c with vPair low high => setOp (field c) "$not" (vDoc [("$gte", low); ("$lte", high)]) b | _ => Panic assertion_failed end else
  if bool_decide (op c = "like") then
    match cvalue c with vString s => setOp (field c) "$regex" (vRegex (likeToRegex s) "") b | _ => Panic assertion_failed end else
  if bool_decide (op c = "ilike") then
    match cvalue c with vString s => setOp (field c) "$regex" (vRegex (likeToRegex s) "i") b | _ => Panic assertion_failed end else
  setOp (field c) (op c) (cvalue c) b.

Fixpoint add_conditions (cs : list condition) (b : building) : outcome building :=
  match cs with
  | [] => Ret b
  | c :: cs => let! b := add_condition c b in add_conditions cs b
  end.

Definition buildConditionFilter (cs : list condition) : outcome value :=
  let! b := add_conditions cs (mkBuilding [] [] []) in
  Ret (vDoc (if bool_decide (andClauses b = []) then filter b else put "$and" (vList (andClauses b)) (filter b))).

Fixpoint or_clauses (groups : list (list condition)) : outcome (list value) :=
  match groups with
  | [] => Ret []
  | [] :: groups => or_clauses groups
  | g :: groups => let! f := buildConditionFilter g in let! fs := or_clauses groups in Ret (f :: fs)
  end.

Definition buildFilter (q : Query) : outcome value :=
  let! base := buildConditionFilter (conditions q) in
  if bool_decide (length (orGroups q) = O) then Ret base else
  let! groups := or_clauses (orGroups q) in
  match (if bool_decide (length (conditions q) = O) then [] else [base]) ++ groups with
  | [] => Ret base
  | [f] => Ret f
  | fs => Ret (vDoc [("$or", vList fs)])
  end.

Definition buildProjection (q : Query) : option value :=
  match fields q with
  | [] => None
  | fs => Some (vDoc (foldl (fun proj f => if HasPrefix f "-" then put (TrimPrefix f "-") (vInt 0) proj else put f (vInt 1) proj) [] fs))
  end.

(** ** [query_group.go]: the pipeline *)

Inductive group_error := NoGroup | SelectWithGroup | DuplicateKey | AliasIsKey | DuplicateAlias | UnknownHaving | UnknownSort.

Definition groupKeyName (f : string) : string := ReplaceAll f "." "_".

Fixpoint group_keys (fs : list string) (keys : list string) : result group_error (list string) :=
  match fs with
  | [] => Ok keys
  | f :: fs => let key := groupKeyName f in if bool_decide (key ∈ keys) then Err DuplicateKey else group_keys fs (keys ++ [key])
  end.
Fixpoint result_columns (keys : list string) (specs : list aggSpec) (cols : list string) : result group_error (list string) :=
  match specs with
  | [] => Ok cols
  | s :: specs =>
      if bool_decide (alias s ∈ keys) then Err AliasIsKey else
      if bool_decide (alias s ∈ cols) then Err DuplicateAlias else result_columns keys specs (cols ++ [alias s])
  end.

Definition columns (q : Query) : result group_error (list string) :=
  if bool_decide (groupFields q = []) then Err NoGroup else
  if negb (bool_decide (fields q = [])) then Err SelectWithGroup else
  match group_keys (groupFields q) [] with
  | Err e => Err e
  | Ok keys =>
      match result_columns keys (aggSpecs q) keys with
      | Err e => Err e
      | Ok cols =>
          if negb (forallb (fun c => bool_decide (field c ∈ cols)) (havingConds q)) then Err UnknownHaving else
          if negb (forallb (fun e => bool_decide (e.1 ∈ cols)) (sort q)) then Err UnknownSort else Ok cols
      end
  end.

Definition stage (name : string) (v : value) : value := vDoc [(name, v)].
Definition match_stage (f : value) : list value := match f with vDoc [] => [] | _ => [stage "$match" f] end.
Definition sort_stage (s : list (string * Z)) : value := vD ((fun e => (e.1, vInt e.2)) <$> s).
Definition group_id (q : Query) : value :=
  match groupFields q with
  | [f] => vString (String "$" f)
  | fs => vDoc (foldl (fun m f => put (groupKeyName f) (vString (String "$" f)) m) [] fs)
  end.
Definition accumulator (s : aggSpec) : value :=
  if bool_decide (aggField s = "") then vDoc [("$sum", vInt 1)] else vDoc [(aggOp s, vString (String "$" (aggField s)))].
Definition group_doc (q : Query) : value := vDoc (foldl (fun m s => put (alias s) (accumulator s) m) [("_id", group_id q)] (aggSpecs q)).
Definition project_keys (q : Query) : list (string * value) :=
  match groupFields q with
  | [f] => put (groupKeyName f) (vString "$_id") [("_id", vInt 0)]
  | fs => foldl (fun m f => put (groupKeyName f) (vString (String.append "$_id." (groupKeyName f))) m) [("_id", vInt 0)] fs
  end.
Definition project_doc (q : Query) : value := vDoc (foldl (fun m s => put (alias s) (vInt 1) m) (project_keys q) (aggSpecs q)).

Definition buildGroupPipeline (q : Query) : outcome (result group_error (list value)) :=
  match columns q with
  | Err e => Ret (Err e)
  | Ok _ =>
      let! before := buildFilter q in
      let! having := buildConditionFilter (havingConds q) in
      Ret (Ok (match_stage before ++ [stage "$group" (group_doc q); stage "$project" (project_doc q)] ++ match_stage having ++
        (if bool_decide (sort q = []) then [] else [stage "$sort" (sort_stage (sort q))]) ++
        (if decide (0 < skip q) then [stage "$skip" (vInt (skip q))] else []) ++
        (if decide (0 < limit q) then [stage "$limit" (vInt (limit q))] else [])))
  end.

(** ** [query_exec.go], [query_aggregate.go]: the command a method sends *)

Inductive command :=
  | InsertOne (doc : value) | InsertMany (docs : list value)
  | FindOne (f : value) (by_ : option value) (skip : option Z) (proj : option value)
  | FindMany (f : value) (by_ : option value) (limit skip : option Z) (proj : option value)
  | UpdateMany (f update : value) (upsert : bool) | DeleteMany (f : value) | CountDocuments (f : value) | DistinctValues (name : string) (f : value)
  | RunPipeline (stages : list value).

Definition preflightBase (q : Query) : option error :=
  match err q with Some e => Some e | None => if collection q then None else Some CollectionRequired end.
Definition preflight (q : Query) : option error :=
  match preflightBase q with
  | Some e => Some e
  | None => if bool_decide (groupFields q = [] /\ havingConds q = [] /\ aggSpecs q = []) then None else Some GroupingPending
  end.
Definition sending (q : Query) (send : value -> command) : outcome (result error command) :=
  match preflight q with
  | Some e => Ret (Err e)
  | None => let! f := buildFilter q in Ret (Ok (send f))
  end.

Definition set_sort (q : Query) : option value := if bool_decide (sort q = []) then None else Some (sort_stage (sort q)).
Definition positive (n : Z) : option Z := if decide (0 < n) then Some n else None.

Definition First (q : Query) : outcome (result error command) := sending q (fun f => FindOne f (set_sort q) (positive (skip q)) (buildProjection q)).
Definition Find (q : Query) : outcome (result error command) := sending q (fun f => FindMany f (set_sort q) (positive (limit q)) (positive (skip q)) (buildProjection q)).

Definition hasOperatorKey (doc : list (string * value)) : bool := existsb (fun kv => HasPrefix kv.1 "$") doc.
Fixpoint is_struct (v : value) : bool :=
  match v with vStruct _ | vRegex _ _ | vElem _ _ => true | vPtr (Some v) => is_struct v | _ => false end.
Definition normalizeUpdate (update : value) : value :=
  match update with
  | vDoc doc | vD doc => if hasOperatorKey doc then update else vDoc [("$set", update)]
  | _ => if is_struct update then vDoc [("$set", update)] else update
  end.
Definition Update (update : value) (q : Query) : outcome (result error command) := sending q (fun f => UpdateMany f (normalizeUpdate update) false).
Definition Upsert (update : value) (q : Query) : outcome (result error command) := sending q (fun f => UpdateMany f (normalizeUpdate update) true).
Definition Increment (f : string) (amount : list Z) : Query -> outcome (result error command) := Update (vDoc [("$inc", vDoc [(f, vInt (List.hd 1 amount))])]).
Definition Decrement (f : string) (amount : list Z) : Query -> outcome (result error command) := Update (vDoc [("$inc", vDoc [(f, vInt (i64 (- List.hd 1 amount)))])]).
Definition Delete (q : Query) : outcome (result error command) := sending q DeleteMany.
Definition Count (q : Query) : outcome (result error command) := sending q CountDocuments.
Definition Distinct (f : string) (q : Query) : outcome (result error command) := sending q (DistinctValues f).

Definition expandInsertDocs (docs : list value) : list value :=
  match docs with
  | [vList l] => l
  | [vPair a b] => [a; b]
  | _ => docs
  end.
Definition Insert (docs : list value) (q : Query) : outcome (result error command) :=
  Ret (match preflight q with
       | Some e => Err e
       | None => match expandInsertDocs docs with [] => Err NoDocument | [d] => Ok (InsertOne d) | ds => Ok (InsertMany ds) end
       end).

(** [aggregate], for [Sum], [Avg], [Min] and [Max]. *)
Definition aggregate (accumulator : value) (q : Query) : outcome (result error command) :=
  sending q (fun f => RunPipeline [stage "$match" f; stage "$group" (vDoc [("_id", vNil); ("result", accumulator)])]).
Definition Sum (f : string) : Query -> outcome (result error command) := aggregate (vDoc [("$sum", vString (String "$" f))]).
Definition Avg (f : string) : Query -> outcome (result error command) := aggregate (vDoc [("$avg", vString (String "$" f))]).
Definition Min (f : string) : Query -> outcome (result error command) := aggregate (vDoc [("$min", vString (String "$" f))]).
Definition Max (f : string) : Query -> outcome (result error command) := aggregate (vDoc [("$max", vString (String "$" f))]).

Definition Aggregate (q : Query) : outcome (result (error + group_error) command) :=
  match preflightBase q with
  | Some e => Ret (Err (inl e))
  | None => let! p := buildGroupPipeline q in Ret (match p with Ok stages => Ok (RunPipeline stages) | Err e => Err (inr e) end)
  end.
