(* ===== verification/OrmTheorems.v ===== *)
(** * OrmTheorems
    What a chain of calls of the query builder says is what the filter it becomes
    matches, for any database with the documented meaning of filters; LIKE
    patterns; which aggregations are accepted and what their rows hold. *)
From S2P Require Import Prelude GoStrings OrmQuery.
Local Open Scope string_scope.
Local Open Scope list_scope.
Local Open Scope Z_scope.

(** ** LIKE *)

Definition chars : string -> list ascii := String.list_ascii_of_string.

(** Characters, with or without regard to case, in ASCII. *)
Definition same (ci : bool) (a b : ascii) : bool := if ci then bool_decide (lower a = lower b) else bool_decide (a = b).

(** SQL's LIKE, and ILIKE if [ci], on characters of one byte. *)
Fixpoint like (ci : bool) (p : list ascii) : list ascii -> bool :=
  match p with
  | [] => fun s => bool_decide (s = [])
  | c :: p =>
      if bool_decide (c = "%"%char) then
        fix any s := like ci p s || match s with [] => false | _ :: s => any s end
      else fun s => match s with [] => false | a :: s => (bool_decide (c = "_"%char) || same ci a c) && like ci p s end
  end.

(** The regular expressions that come out of it, read as PCRE reads them: a
    backslash takes the next character as it is, a dot takes no newline, the
    dollar also stands before a last newline. *)
Inductive item := iChar (a : ascii) | iAny | iAnyStar.
Definition newline : ascii := "010"%char.
Fixpoint items (r : list ascii) : option (list item) :=
  match r with
  | [] => None
  | c :: r =>
      if bool_decide (c = "\"%char) then match r with a :: r => cons (iChar a) <$> items r | [] => None end else
      if bool_decide (c = "."%char) then
        match r with
        | a :: r' => if bool_decide (a = "*"%char) then cons iAnyStar <$> items r' else cons iAny <$> items r
        | [] => None
        end else
      if bool_decide (c = "$"%char) then match r with [] => Some [] | _ => None end else
      if meta c then None else cons (iChar c) <$> items r
  end.
Fixpoint takes (ci : bool) (its : list item) : list ascii -> bool :=
  match its with
  | [] => fun s => bool_decide (s = [] \/ s = [newline])
  | iChar c :: its => fun s => match s with [] => false | a :: s => same ci a c && takes ci its s end
  | iAny :: its => fun s => match s with [] => false | a :: s => negb (bool_decide (a = newline)) && takes ci its s end
  | iAnyStar :: its => fix any s := takes ci its s || match s with [] => false | a :: s => negb (bool_decide (a = newline)) && any s end
  end.
Definition regex_items (r : string) : option (list item) :=
  match chars r with "^"%char :: r => items r | _ => None end.
Definition item_ascii (i : item) : Prop := match i with iChar a => (byte_at a < 128)%N | _ => True end.

(** The texts and patterns these definitions are about: characters of one byte,
    and no line ends. *)
Definition ascii_text (p : string) : Prop := Forall (fun a => byte_at a < 128)%N (chars p).
Definition line_text (s : list ascii) : Prop := Forall (fun a => a <> newline /\ (byte_at a < 128)%N) s.

Definition like_item (c : ascii) : item := if bool_decide (c = "%"%char) then iAnyStar else if bool_decide (c = "_"%char) then iAny else iChar c.
Definition like_text (c : ascii) : list ascii :=
  if bool_decide (c = "%"%char) then ["."; "*"]%char else if bool_decide (c = "_"%char) then ["."%char] else if meta c then ["\"%char; c] else [c].

Lemma chars_append a b : String.list_ascii_of_string (String.append a b) = String.list_ascii_of_string a ++ String.list_ascii_of_string b.
Proof. induction a as [| x a IH]; [done |]. rewrite append_cons. simpl. by rewrite IH. Qed.
Lemma ReplaceAll_append a b o n : ReplaceAll (String.append a b) o n = String.append (ReplaceAll a o n) (ReplaceAll b o n).
Proof. induction a as [| x a IH]; [done |]. rewrite append_cons. simpl. rewrite IH. destruct (decide (x = o)); [by rewrite string_app_assoc | by rewrite append_cons]. Qed.

Lemma like_text_spec p : String.list_ascii_of_string (likeToRegex p) = "^"%char :: concat (like_text <$> String.list_ascii_of_string p) ++ ["$"%char].
Proof.
  unfold likeToRegex. rewrite chars_append. simpl. f_equal. rewrite chars_append. f_equal.
  induction p as [| c p IH]; [done |]. change (String.list_ascii_of_string (String c p)) with (c :: String.list_ascii_of_string p).
  rewrite fmap_cons. cbn [concat]. rewrite <- IH. clear IH. unfold like_text. cbn [QuoteMeta].
  destruct (decide (c = "%"%char)) as [-> | H1]; [done |]. rewrite bool_decide_false by done.
  destruct (decide (c = "_"%char)) as [-> | H2]; [done |]. rewrite bool_decide_false by done.
  destruct (meta c); repeat (cbn [ReplaceAll]; rewrite decide_False by done); done.
Qed.

Lemma after_any p : exists a r, concat (like_text <$> p) ++ ["$"%char] = a :: r /\ a <> "*"%char.
Proof.
  destruct p as [| c p]; [by exists "$"%char, [] |]. rewrite fmap_cons. cbn [concat]. unfold like_text at 1. repeat case_bool_decide; try by (eexists _, _).
  destruct (meta c) eqn:Em; eexists _, _; (split; [done |]); [done |]. by intros ->.
Qed.
Lemma items_like p : items (concat (like_text <$> p) ++ ["$"%char]) = Some (like_item <$> p).
Proof.
  induction p as [| c p IH]; [done |]. rewrite !fmap_cons. cbn [concat]. rewrite <- app_assoc. unfold like_text at 1, like_item at 1.
  destruct (decide (c = "%"%char)) as [-> | H1]; [simpl; by rewrite IH |]. rewrite !(bool_decide_false (c = "%"%char)) by done.
  destruct (decide (c = "_"%char)) as [-> | H2].
  - destruct (after_any p) as (a & r & E & Ha). rewrite E in IH |- *. simpl. rewrite bool_decide_false by done. by simpl in *; rewrite IH.
  - rewrite !(bool_decide_false (c = "_"%char)) by done. destruct (meta c) eqn:Em; cbn [app items]; [by rewrite IH |].
    rewrite Em, !bool_decide_false, IH; [done | by intros -> ..].
Qed.
Lemma takes_like ci p s : newline ∉ s -> takes ci (like_item <$> p) s = like ci p s.
Proof.
  revert s. induction p as [| c p IH]; intros s Hs.
  - simpl. apply bool_decide_ext. split; [intros [-> | ->]; [done |] | by left]. destruct Hs. by left.
  - rewrite fmap_cons. unfold like_item at 1. simpl. destruct (decide (c = "%"%char)) as [-> | H1]; [simpl | rewrite !(bool_decide_false (c = "%"%char)) by done].
    + induction s as [| a s IHs]; [by rewrite IH |]. apply not_elem_of_cons in Hs as [Ha Hs]. rewrite IH by by apply not_elem_of_cons.
      f_equal. rewrite bool_decide_false by done. by apply IHs.
    + destruct s as [| a s]; [by case_bool_decide |]. apply not_elem_of_cons in Hs as [Ha Hs].
      case_bool_decide; simpl; rewrite IH by done; [rewrite bool_decide_false by done |]; done.
Qed.

Lemma regex_like_items p : regex_items (likeToRegex p) = Some (like_item <$> chars p).
Proof. unfold regex_items, chars. by rewrite like_text_spec, items_like. Qed.
Lemma like_items_ascii p : ascii_text p -> Forall item_ascii (like_item <$> chars p).
Proof. intros Hp. apply Forall_fmap. eapply Forall_impl; [exact Hp |]. intros a Ha. unfold like_item. simpl. by repeat case_bool_decide. Qed.
Lemma line_text_newline s : line_text s -> newline ∉ s.
Proof. unfold line_text. rewrite Forall_forall. intros Hs Hn. by destruct (Hs _ Hn). Qed.

(** On more lines the regular expression is not the pattern: a percent sign stops
    at the end of a line, and the end of a pattern skips a newline. *)
Lemma like_stops_at_newline : let s := ["a"; newline; "b"]%char in let e := ["a"; newline]%char in let regex p s := (fun its => takes false its s) <$> regex_items (likeToRegex p) in
  (regex "a%" s, like false ["a"; "%"]%char s) = (Some false, true) /\ (regex "a" e, like false ["a"%char] e) = (Some true, false).
Proof. by vm_compute. Qed.

(** ** What MongoDB does with a filter *)

(** Whether a document matches a filter, whether a field of it stands in the
    relation of an operator to an operand, the texts a field holds (one, none, or
    those of an array), and which operators mean the same whatever stands beside
    them ([$regex] beside [$options] is one that does not). *)
Class Mongo := {
  Document : Type;
  matches : Document -> value -> bool;
  holds : Document -> string -> string -> value -> bool;
  texts : Document -> string -> list (list ascii);
  alone : string -> bool
}.

Definition plain (f : string) : Prop := HasPrefix f "$" = false.
(** A value that is compared as it is, not read as operators or as a pattern. *)
Fixpoint literal (v : value) : bool :=
  match v with
  | vRegex _ _ => false
  | vDoc fs | vD fs => negb (hasOperatorKey fs)
  | vPtr (Some v) => literal v
  | _ => true
  end.

Class MongoLaws `{Mongo} := {
  alone_known : Forall (fun o => alone o = true) ["$eq"; "$ne"; "$gt"; "$gte"; "$lt"; "$lte"; "$in"; "$nin"; "$not"; "$regex"];
  matches_every d fs : NoDup fs.*1 -> matches d (vDoc fs) = forallb (fun kv => matches d (vDoc [kv])) fs;
  matches_and d l : l <> [] -> matches d (vDoc [("$and", vList l)]) = forallb (matches d) l;
  matches_or d l : l <> [] -> matches d (vDoc [("$or", vList l)]) = existsb (matches d) l;
  matches_operators d f os : plain f -> os <> [] -> NoDup os.*1 -> Forall (fun o => alone o.1 = true) os ->
    matches d (vDoc [(f, vDoc os)]) = forallb (fun o => holds d f o.1 o.2) os;
  matches_literal d f v : plain f -> literal v = true -> matches d (vDoc [(f, v)]) = holds d f "$eq" v;
  holds_regex d f (ci : bool) r its : regex_items r = Some its -> Forall item_ascii its -> Forall (Forall (fun a => byte_at a < 128)%N) (texts d f) ->
    holds d f "$regex" (vRegex r (if ci then "i" else "")) = existsb (takes ci its) (texts d f)
}.

(** ** Maps as entries *)

Lemma get_none {A} k (m : list (string * A)) : get k m = None <-> k ∉ m.*1.
Proof.
  induction m as [| [k' v] m IH]; simpl; [split; [by intros _ []%not_elem_of_nil | done] |].
  destruct (decide (k = k')) as [<- | Hne]; [rewrite bool_decide_true by done; split; [done | intros H; destruct H; left] |].
  rewrite bool_decide_false by done. rewrite IH, not_elem_of_cons. tauto.
Qed.
Lemma put_none {A} k (v : A) m : get k m = None -> put k v m = m ++ [(k, v)].
Proof.
  induction m as [| [k' v'] m IH]; simpl; [done |]. destruct (bool_decide (k = k')); [done |]. intros H. by rewrite IH.
Qed.
Lemma put_some {A} k (v : A) m old : get k m = Some old -> exists a b, m = a ++ (k, old) :: b /\ put k v m = a ++ (k, v) :: b.
Proof.
  induction m as [| [k' v'] m IH]; simpl; [done |]. destruct (decide (k = k')) as [<- | Hne].
  - rewrite bool_decide_true by done. intros [= ->]. by exists [], m.
  - rewrite bool_decide_false by done. intros (a & b & -> & ->)%IH. by exists ((k', v') :: a), b.
Qed.
Lemma put_keys {A} k (v : A) m : NoDup m.*1 -> NoDup (put k v m).*1.
Proof.
  intros H. destruct (get k m) as [old |] eqn:E.
  - destruct (put_some k v m old E) as (a & b & -> & ->). by rewrite fmap_app in *.
  - rewrite put_none by done. rewrite fmap_app. apply NoDup_app. split; [done |]. apply get_none in E. split; [| apply NoDup_singleton].
    intros x Hx ->%list_elem_of_singleton. done.
Qed.
Lemma get_elem {A} k (v : A) m : NoDup m.*1 -> (k, v) ∈ m -> get k m = Some v.
Proof.
  induction m as [| [k' v'] m IH]; simpl; [by intros _ []%not_elem_of_nil |]. rewrite NoDup_cons. intros [Hk Hm] [[= -> ->] | H]%elem_of_cons.
  - by rewrite bool_decide_true.
  - rewrite bool_decide_false; [by apply IH |]. intros ->. apply Hk. apply list_elem_of_fmap. by exists (k', v).
Qed.
Lemma has_false {A} k (m : list (string * A)) : has k m = false -> get k m = None.
Proof. unfold has. by destruct (get k m). Qed.

Lemma forallb_fmap {A B} (P : B -> bool) (f : A -> B) l : forallb P (f <$> l) = forallb (fun a => P (f a)) l.
Proof. induction l as [| a l IH]; [done |]. simpl. by f_equal. Qed.
Lemma forallb_same {A} (P Q : A -> bool) l : (forall a, a ∈ l -> P a = Q a) -> forallb P l = forallb Q l.
Proof. induction l as [| a l IH]; simpl; [done |]. intros H. rewrite H by left. rewrite IH; [done |]. intros b Hb. apply H. by right. Qed.
Lemma forallb_perm {A} (P : A -> bool) l l' : l ≡ₚ l' -> forallb P l = forallb P l'.
Proof. induction 1; simpl; [done | by rewrite IHPermutation | by rewrite !andb_assoc, (andb_comm (P y)) | congruence]. Qed.

(** Tests of closed names are decided by computation. *)
Ltac decide_names :=
  repeat match goal with
  | |- context [bool_decide ?P] => let r := eval vm_compute in (bool_decide P) in lazymatch r with true => idtac | false => idtac end; change (bool_decide P) with r; cbv iota
  | H : context [bool_decide ?P] |- _ => let r := eval vm_compute in (bool_decide P) in lazymatch r with true => idtac | false => idtac end; change (bool_decide P) with r in H; cbv iota in H
  end.
Ltac name_cases n :=
  repeat match goal with
  | |- context [bool_decide (n = ?s)] => destruct (decide (n = s)) as [-> | ?]; [decide_names | rewrite !(bool_decide_false (n = s)) in * by done]
  end.

(** ** Conditions *)

Section Meaning.
Context `{L : MongoLaws}.

Lemma known o : bool_decide (o ∈ ["$eq"; "$ne"; "$gt"; "$gte"; "$lt"; "$lte"; "$in"; "$nin"; "$not"; "$regex"]) = true -> alone o = true.
Proof. pose proof alone_known as Hk. rewrite Forall_forall in Hk. rewrite bool_decide_eq_true. apply Hk. Qed.

(** What a database does with the pattern of a LIKE is LIKE. *)
Lemma regex_is_like d f (ci : bool) p : ascii_text p -> Forall line_text (texts d f) ->
  holds d f "$regex" (vRegex (likeToRegex p) (if ci then "i" else "")) = existsb (like ci (chars p)) (texts d f).
Proof.
  intros Hp Ht. rewrite (holds_regex d f ci _ _ (regex_like_items p) (like_items_ascii p Hp)).
  - induction Ht as [| s l Hs _ IH]; [done |]. simpl. by rewrite IH, takes_like by by apply line_text_newline.
  - eapply Forall_impl; [exact Ht |]. intros s Hs. eapply Forall_impl; [exact Hs |]. by intros a [].
Qed.

(** What a condition says of a document. *)
Definition condition_holds (d : Document) (c : condition) : bool :=
  if bool_decide (op c = "=") then holds d (field c) "$eq" (cvalue c) else
  if bool_decide (op c = "null") then holds d (field c) "$eq" vNil else
  if bool_decide (op c = "notNull") then holds d (field c) "$ne" vNil else
  if bool_decide (op c = "between") then
    match cvalue c with vPair low high => holds d (field c) "$gte" low && holds d (field c) "$lte" high | _ => false end else
  if bool_decide (op c = "notBetween") then
    match cvalue c with vPair low high => holds d (field c) "$not" (vDoc [("$gte", low); ("$lte", high)]) | _ => false end else
  if bool_decide (op c = "like") then
    match cvalue c with vString s => holds d (field c) "$regex" (vRegex (likeToRegex s) "") | _ => false end else
  if bool_decide (op c = "ilike") then
    match cvalue c with vString s => holds d (field c) "$regex" (vRegex (likeToRegex s) "i") | _ => false end else
  holds d (field c) (op c) (cvalue c).

(** A condition as the builder makes it, on a field that is one. *)
Definition condition_ok (c : condition) : Prop :=
  plain (field c) /\
  if bool_decide (op c = "=") then literal (cvalue c) = true else
  if bool_decide (op c = "null") then True else if bool_decide (op c = "notNull") then True else
  if bool_decide (op c = "between") then exists a b, cvalue c = vPair a b else
  if bool_decide (op c = "notBetween") then exists a b, cvalue c = vPair a b else
  if bool_decide (op c = "like") then exists s, cvalue c = vString s else
  if bool_decide (op c = "ilike") then exists s, cvalue c = vString s else alone (op c) = true.

Definition entry_ok (ops : list string) (e : string * value) : Prop :=
  plain e.1 /\ if bool_decide (e.1 ∈ ops) then exists os, e.2 = vDoc os /\ os <> [] /\ NoDup os.*1 /\ Forall (fun o => alone o.1 = true) os else literal e.2 = true.
Definition building_ok (b : building) : Prop := NoDup (filter b).*1 /\ Forall (entry_ok (opFields b)) (filter b) /\ opFields b ⊆ (filter b).*1.
Definition said (d : Document) (b : building) : bool := forallb (fun kv => matches d (vDoc [kv])) (filter b) && forallb (matches d) (andClauses b).

Lemma one_operator d f o v : plain f -> alone o = true -> matches d (vDoc [(f, vDoc [(o, v)])]) = holds d f o v.
Proof. intros Hf Ho. rewrite matches_operators; [simpl; apply andb_true_r | done | done | apply NoDup_singleton | by constructor]. Qed.

Lemma said_clause d f v b : said d (clause f v b) = said d b && matches d (vDoc [(f, v)]).
Proof. unfold said, clause. simpl. rewrite forallb_app. simpl. by rewrite andb_true_r, andb_assoc. Qed.
Lemma said_new d f v b ops : get f (filter b) = None ->
  said d (mkBuilding (put f v (filter b)) ops (andClauses b)) = said d b && matches d (vDoc [(f, v)]).
Proof.
  intros E. unfold said. simpl. rewrite put_none by done. rewrite forallb_app. simpl. rewrite andb_true_r, <- !andb_assoc. f_equal. apply andb_comm.
Qed.

Lemma ok_new f v b ops : building_ok b -> get f (filter b) = None -> (forall g, g <> f -> g ∈ ops <-> g ∈ opFields b) -> entry_ok ops (f, v) ->
  building_ok (mkBuilding (put f v (filter b)) ops (andClauses b)).
Proof.
  intros (H1 & H2 & H3) E Ho Hv. split; simpl; [by apply put_keys |]. rewrite put_none by done. split.
  2:{ intros g Hg. rewrite fmap_app, elem_of_app. destruct (decide (g = f)) as [-> | Hne]; [right; by left | left; by apply H3, Ho]. }
  apply Forall_app. split; [| by constructor]. clear H3.
  rewrite Forall_forall in H2 |- *. intros [g w] Hg. destruct (H2 _ Hg) as [H3 H4]. split; [done |]. simpl in *.
  assert (g <> f) as Hne by (intros ->; apply get_none in E; apply E, list_elem_of_fmap; by exists (f, w)).
  by rewrite (bool_decide_ext (g ∈ ops) (g ∈ opFields b)) by by apply Ho.
Qed.

(** An operator is put beside those that the field has. *)
Lemma merge_operator f o v b m : building_ok b -> get f (filter b) = Some (vDoc m) -> f ∈ opFields b -> has o m = false -> alone o = true ->
  let b' := b <| filter := put f (vDoc (put o v m)) (filter b) |> in building_ok b' /\ forall d, said d b' = said d b && holds d f o v.
Proof.
  intros (H1 & H2 & H6) E Hf Ho Ha. destruct (put_some f (vDoc (put o v m)) _ _ E) as (a & c & Hb & Hp).
  assert (entry_ok (opFields b) (f, vDoc m)) as [Hpl He] by (rewrite Forall_forall in H2; apply H2; rewrite Hb; set_solver).
  simpl in He. rewrite bool_decide_true in He by done. destruct He as (os & [= <-] & Hne & Hnd & Hal). apply has_false in Ho.
  assert (Forall (fun o => alone o.1 = true) (put o v m)) as Hal' by (rewrite put_none by done; apply Forall_app; split; [done | by constructor]).
  split.
  - split; simpl; [by apply put_keys |]. rewrite Hp. rewrite Hb in H2, H6. split; [| by rewrite fmap_app in *]. apply Forall_app in H2 as [H2 H3]. apply Forall_cons in H3 as [_ H3].
    apply Forall_app. split; [done |]. constructor; [| done]. split; [done |]. simpl. rewrite bool_decide_true by done. exists (put o v m).
    split; [done |]. split; [by rewrite put_none; [destruct m |] | by auto using put_keys].
  - intros d. unfold said. simpl. rewrite Hp, Hb, !forallb_app. simpl. rewrite (matches_operators d f m), (matches_operators d f (put o v m)); try done;
      [| by rewrite put_none; [destruct m |] | by apply put_keys].
    rewrite put_none by done. rewrite forallb_app. simpl. rewrite andb_true_r.
    destruct (forallb _ a), (forallb _ m), (holds d f o v), (forallb _ c), (forallb (matches d) (andClauses b)); done.
Qed.

Lemma setOp_spec f o v b : building_ok b -> plain f -> alone o = true ->
  exists b', setOp f o v b = Ret b' /\ building_ok b' /\ forall d, said d b' = said d b && holds d f o v.
Proof.
  intros Hb Hf Ho. pose proof (fun d => one_operator d f o v Hf Ho) as H1. unfold setOp. destruct (get f (filter b)) as [x |] eqn:E.
  - assert (building_ok (clause f (vDoc [(o, v)]) b) /\ forall d, said d (clause f (vDoc [(o, v)]) b) = said d b && holds d f o v) as Hc by (split; [done | intros d; by rewrite said_clause, H1]).
    destruct (decide (f ∈ opFields b)) as [Hi | Hi]; [rewrite bool_decide_true by done | rewrite bool_decide_false by done; by eexists].
    assert (entry_ok (opFields b) (f, x)) as [_ He].
    { destruct Hb as (_ & Hb & _). rewrite Forall_forall in Hb. apply Hb. destruct (put_some f x _ _ E) as (a & c & -> & _). set_solver. }
    simpl in He. rewrite bool_decide_true in He by done. destruct He as (os & -> & _). destruct (has o os) eqn:Eh; [by eexists |].
    eexists. split; [done |]. by apply merge_operator.
  - eexists. split; [done |]. split.
    + apply (ok_new f (vDoc [(o, v)]) b (f :: opFields b)); try done; [intros g Hg; set_solver |]. split; [done |]. simpl. rewrite bool_decide_true by set_solver.
      exists [(o, v)]. split; [done |]. split; [done |]. split; [apply NoDup_singleton | by constructor].
    + intros d. rewrite <- H1. by apply (said_new d f (vDoc [(o, v)]) b (f :: opFields b)).
Qed.

Lemma setEquality_spec f v b : building_ok b -> plain f -> literal v = true ->
  exists b', setEquality f v b = Ret b' /\ building_ok b' /\ forall d, said d b' = said d b && holds d f "$eq" v.
Proof.
  intros Hb Hf Hv. pose proof (fun d => matches_literal d f v Hf Hv) as H1. unfold setEquality. destruct (get f (filter b)) as [x |] eqn:E.
  - assert (building_ok (clause f v b) /\ forall d, said d (clause f v b) = said d b && holds d f "$eq" v) as Hc by (split; [done | intros d; by rewrite said_clause, H1]).
    destruct (decide (f ∈ opFields b)) as [Hi | Hi]; [rewrite bool_decide_true by done | rewrite bool_decide_false by done; by eexists].
    assert (entry_ok (opFields b) (f, x)) as [_ He].
    { destruct Hb as (_ & Hb & _). rewrite Forall_forall in Hb. apply Hb. destruct (put_some f x _ _ E) as (a & c & -> & _). set_solver. }
    simpl in He. rewrite bool_decide_true in He by done. destruct He as (os & -> & _). destruct (has "$eq" os) eqn:Eh; [by eexists |].
    eexists. split; [done |]. apply merge_operator; try done. by apply known.
  - eexists. split; [done |]. split; [| intros d; rewrite <- H1; by apply (said_new d f v b (opFields b))].
    apply (ok_new f v b (opFields b)); try done. split; [done |]. simpl. rewrite bool_decide_false; [done |].
    destruct Hb as (_ & _ & Hb). intros Hi%Hb. by apply get_none in E.
Qed.

Lemma add_condition_spec c b : building_ok b -> condition_ok c ->
  exists b', add_condition c b = Ret b' /\ building_ok b' /\ forall d, said d b' = said d b && condition_holds d c.
Proof.
  intros Hb [Hf Hc]. unfold add_condition, condition_holds.
  repeat case_bool_decide; try (by apply setEquality_spec);
    try (destruct Hc as (low & high & Ev); rewrite Ev); try (destruct Hc as [pattern Ev]; rewrite Ev);
    try (apply setOp_spec; [done | done | first [done | by apply known]]).
  destruct (setOp_spec (field c) "$gte" low b Hb Hf) as (b1 & -> & Hok1 & E1); [by apply known |]. simpl.
  destruct (setOp_spec (field c) "$lte" high b1 Hok1 Hf) as (b2 & -> & Hok2 & E2); [by apply known |].
  exists b2. split; [done |]. split; [done |]. intros d. by rewrite E2, E1, andb_assoc.
Qed.

Lemma add_conditions_spec cs b : building_ok b -> Forall condition_ok cs ->
  exists b', add_conditions cs b = Ret b' /\ building_ok b' /\ forall d, said d b' = said d b && forallb (condition_holds d) cs.
Proof.
  intros Hb Hc. revert b Hb. induction Hc as [| c cs Hc _ IH]; intros b Hb; simpl; [exists b; split; [done |]; split; [done |]; intros d; by rewrite andb_true_r |].
  destruct (add_condition_spec c b Hb Hc) as (b1 & -> & H1 & E1). simpl. destruct (IH b1 H1) as (b2 & -> & H2 & E2).
  exists b2. split; [done |]. split; [done |]. intros d. by rewrite E2, E1, andb_assoc.
Qed.

(** The filter of conditions says what the conditions say. *)
Lemma buildConditionFilter_spec cs : Forall condition_ok cs ->
  exists f, buildConditionFilter cs = Ret f /\ forall d, matches d f = forallb (condition_holds d) cs.
Proof.
  intros Hc. unfold buildConditionFilter.
  assert (building_ok (mkBuilding [] [] [])) as H0 by (split; [constructor | split; [constructor | done]]).
  destruct (add_conditions_spec cs _ H0 Hc) as (b & -> & (H1 & H2 & _) & Hs). simpl. eexists. split; [done |]. intros d.
  specialize (Hs d). unfold said in Hs. simpl in Hs. rewrite <- Hs. case_bool_decide as Ea.
  - rewrite Ea, matches_every by done. simpl. by rewrite andb_true_r.
  - assert (get "$and" (filter b) = None) as Hg.
    { apply get_none. intros ([k v] & E & Hk)%list_elem_of_fmap. rewrite Forall_forall in H2. destruct (H2 _ Hk) as [Hp _]. by rewrite <- E in Hp. }
    rewrite matches_every by by apply put_keys. rewrite put_none by done. rewrite forallb_app. simpl. by rewrite matches_and, andb_true_r.
Qed.

(** ** Chains of calls *)

(** The calls that add conditions, those that start with [Or] apart. *)
Inductive link :=
  | byWhere (args : list value) | byNot (f : string) (v : value) | byIn (f : string) (vs : value) | byNotIn (f : string) (vs : value)
  | byNull (f : string) | byNotNull (f : string) | byBetween (f : string) (low high : value) | byNotBetween (f : string) (low high : value)
  | byLike (f pattern : string) | byILike (f pattern : string).

Definition and_call (l : link) : Query -> Query :=
  match l with
  | byWhere args => Where args
  | byNot f v => WhereNot f v
  | byIn f vs => WhereIn f vs
  | byNotIn f vs => WhereNotIn f vs
  | byNull f => WhereNull f
  | byNotNull f => WhereNotNull f
  | byBetween f a b => WhereBetween f a b
  | byNotBetween f a b => WhereNotBetween f a b
  | byLike f p => WhereLike f p
  | byILike f p => WhereILike f p
  end.
(** Four of them have no counterpart with [Or]. *)
Definition or_call (l : link) : option (Query -> Query) :=
  match l with
  | byWhere args => Some (OrWhere args)
  | byNot f v => Some (OrWhereNot f v)
  | byIn f vs => Some (OrWhereIn f vs)
  | byNotIn f vs => Some (OrWhereNotIn f vs)
  | byNull f => Some (OrWhereNull f)
  | byNotNull f => Some (OrWhereNotNull f)
  | byBetween f a b => Some (OrWhereBetween f a b)
  | byNotBetween _ _ _ | byLike _ _ | byILike _ _ => None
  end.
Definition chain_call (c : bool * link) : Query -> Query := if c.1 then default (fun q => q) (or_call c.2) else and_call c.2.
Definition chain (cs : list (bool * link)) : Query := foldl (fun q c => chain_call c q) (Collection true) cs.

(** The conditions of a call. *)
Definition link_conditions (l : link) : result error (list condition) :=
  match l with
  | byWhere args => parseWhere args
  | byNot f v => Ok [mkCondition f "$ne" v]
  | byIn f vs => Ok [mkCondition f "$in" vs]
  | byNotIn f vs => Ok [mkCondition f "$nin" vs]
  | byNull f => Ok [mkCondition f "null" vNil]
  | byNotNull f => Ok [mkCondition f "notNull" vNil]
  | byBetween f a b => Ok [mkCondition f "between" (vPair a b)]
  | byNotBetween f a b => Ok [mkCondition f "notBetween" (vPair a b)]
  | byLike f p => Ok [mkCondition f "like" (vString p)]
  | byILike f p => Ok [mkCondition f "ilike" (vString p)]
  end.

(** What the calls are documented to say of a document. *)
Definition compares (d : Document) (f name : string) (v : value) : bool :=
  let name' := ToLower (TrimSpace name) in
  if bool_decide (name' = "between") then
    match toBetweenPair v with Ok (vPair low high) => holds d f "$gte" low && holds d f "$lte" high | _ => false end else
  if bool_decide (name' = "not between") then
    match toBetweenPair v with Ok (vPair low high) => holds d f "$not" (vDoc [("$gte", low); ("$lte", high)]) | _ => false end else
  if bool_decide (name' = "like") then match v with vString p => existsb (like false (chars p)) (texts d f) | _ => false end else
  if bool_decide (name' = "ilike") then match v with vString p => existsb (like true (chars p)) (texts d f) | _ => false end else
  holds d f (default name (get name' [("=", "$eq"); ("==", "$eq"); ("!=", "$ne"); ("<>", "$ne"); (">", "$gt"); (">=", "$gte"); ("<", "$lt"); ("<=", "$lte");
                                     ("in", "$in"); ("not in", "$nin"); ("nin", "$nin")])) v.

Definition says (d : Document) (l : link) : bool :=
  match l with
  | byWhere [vDoc doc] => forallb (fun kv => holds d kv.1 "$eq" kv.2) doc
  | byWhere [vString f; v] => holds d f "$eq" v
  | byWhere [vString f; vString name; v] => compares d f name v
  | byWhere _ => false
  | byNot f v => holds d f "$ne" v
  | byIn f vs => holds d f "$in" vs
  | byNotIn f vs => holds d f "$nin" vs
  | byNull f => holds d f "$eq" vNil
  | byNotNull f => holds d f "$ne" vNil
  | byBetween f low high => holds d f "$gte" low && holds d f "$lte" high
  | byNotBetween f low high => holds d f "$not" (vDoc [("$gte", low); ("$lte", high)])
  | byLike f p => existsb (like false (chars p)) (texts d f)
  | byILike f p => existsb (like true (chars p)) (texts d f)
  end.

Definition is_like (name : string) : Prop := ToLower (TrimSpace name) = "like" \/ ToLower (TrimSpace name) = "ilike".

(** Fields that are none of MongoDB's own, values that are not read as operators,
    operators passed through that stand alone, patterns in ASCII. *)
Definition sound (l : link) : Prop :=
  match l with
  | byWhere [vDoc doc] => NoDup doc.*1 /\ Forall (fun kv => plain kv.1 /\ literal kv.2 = true) doc
  | byWhere [vString f; v] => plain f /\ literal v = true
  | byWhere [vString f; vString name; v] =>
      plain f /\ match opAliases (ToLower (TrimSpace name)) with Some o => o = "=" -> literal v = true | None => alone name = true end
      /\ (is_like name -> match v with vString p => ascii_text p | _ => True end)
  | byWhere _ => True
  | byNot f _ | byIn f _ | byNotIn f _ | byNull f | byNotNull f | byBetween f _ _ | byNotBetween f _ _ => plain f
  | byLike f p | byILike f p => plain f /\ ascii_text p
  end.
(** The document holds texts of one line, in ASCII, where the call looks for a pattern. *)
Definition readable (d : Document) (l : link) : Prop :=
  match l with
  | byWhere [vString f; vString name; _] => is_like name -> Forall line_text (texts d f)
  | byLike f _ | byILike f _ => Forall line_text (texts d f)
  | _ => True
  end.
Definition empty_where (l : link) : bool := match l with byWhere [vDoc []] => true | _ => false end.

Lemma insert_key_perm k l : insert_key k l ≡ₚ k :: l.
Proof. induction l as [| x l IH]; simpl; [done |]. destruct (String.leb k x); [done |]. rewrite IH. apply perm_swap. Qed.
Lemma sorted_keys_perm doc : sorted_keys doc ≡ₚ doc.*1.
Proof. unfold sorted_keys. induction doc.*1 as [| k l IH]; simpl; [done |]. by rewrite insert_key_perm, IH. Qed.

Lemma parseWhereMap_spec doc : NoDup doc.*1 -> Forall (fun kv => plain kv.1 /\ literal kv.2 = true) doc ->
  exists cs, parseWhereMap (vDoc doc) = Ok cs /\ Forall condition_ok cs /\ (forall d, forallb (condition_holds d) cs = forallb (fun kv => holds d kv.1 "$eq" kv.2) doc) /\
    (cs = [] <-> doc = []).
Proof.
  intros Hn Hd. eexists. split; [done |]. split.
  - apply Forall_fmap, Forall_forall. intros k Hk. rewrite sorted_keys_perm in Hk. apply list_elem_of_fmap in Hk as ([k' v] & -> & Hk). simpl.
    rewrite Forall_forall in Hd. destruct (Hd _ Hk) as [H1 H2]. rewrite (get_elem _ _ _ Hn Hk). by destruct v.
  - split.
    + intros d. rewrite forallb_fmap.
      transitivity (forallb (fun k => holds d k "$eq" (default vNil (get k doc))) (sorted_keys doc));
        [apply forallb_same; intros k _; unfold condition_holds; simpl; by destruct (default vNil (get k doc)) |].
      rewrite (forallb_perm _ _ _ (sorted_keys_perm doc)), forallb_fmap. apply forallb_same. intros [k v] Hk. simpl. by rewrite (get_elem _ _ _ Hn Hk).
    + split; [| by intros ->]. intros E%fmap_nil_inv. apply (fmap_nil_inv fst). apply Permutation_nil_r. by rewrite <- sorted_keys_perm, E.
Qed.

Lemma between_pair v ends : toBetweenPair v = Ok ends -> exists a b, ends = vPair a b.
Proof.
  destruct v as [| | | | | [| a [| b [|]]] | | | [| [j a] [| [k b] [|]]] | | | |]; simpl; try done; intros [= <-]; eauto.
Qed.
Lemma prefix_not s o : HasPrefix s "$" = true -> HasPrefix o "$" = false -> s <> o.
Proof. congruence. Qed.

Lemma normalizeOp_spec f name v o w : plain f -> match opAliases (ToLower (TrimSpace name)) with Some o => o = "=" -> literal v = true | None => alone name = true end ->
  (is_like name -> match v with vString p => ascii_text p | _ => True end) ->
  normalizeOp name v = Ok (o, w) -> condition_ok (mkCondition f o w) /\ forall d, (is_like name -> Forall line_text (texts d f)) -> condition_holds d (mkCondition f o w) = compares d f name v.
Proof.
  intros Hf Hs. unfold normalizeOp, compares, is_like. set (n := ToLower (TrimSpace name)) in *. clearbody n. unfold opAliases in *. simpl in *.
  name_cases n; try (intros _ [= <- <-]; unfold condition_ok, condition_holds; simpl; decide_names; by auto using known).
  - intros Hp. destruct v as [| | | p | | | | | | | | |]; try done. intros [= <- <-]. unfold condition_ok, condition_holds. simpl. decide_names.
    split; [eauto |]. intros d Hd. apply (regex_is_like d f false); auto.
  - intros Hp. destruct v as [| | | p | | | | | | | | |]; try done. intros [= <- <-]. unfold condition_ok, condition_holds. simpl. decide_names.
    split; [eauto |]. intros d Hd. apply (regex_is_like d f true); auto.
  - intros _. destruct (toBetweenPair v) as [ends |] eqn:E; [| done]. destruct (between_pair v ends E) as (a & b & ->). intros [= <- <-].
    unfold condition_ok, condition_holds. simpl. decide_names. eauto.
  - intros _. destruct (toBetweenPair v) as [ends |] eqn:E; [| done]. destruct (between_pair v ends E) as (a & b & ->). intros [= <- <-].
    unfold condition_ok, condition_holds. simpl. decide_names. eauto.
  - intros _. destruct (HasPrefix name "$") eqn:Ep; [| done]. intros [= <- <-]. unfold condition_ok, condition_holds. simpl.
    rewrite !bool_decide_false by by apply prefix_not. done.
Qed.

Lemma parseWhere_spec args cs : sound (byWhere args) -> parseWhere args = Ok cs ->
  Forall condition_ok cs /\ (forall d, readable d (byWhere args) -> forallb (condition_holds d) cs = says d (byWhere args)) /\ (cs = [] <-> empty_where (byWhere args) = true).
Proof.
  destruct args as [| x [| y [| z [|]]]]; try done.
  - intros Hs Hp. destruct x as [| | | | | | | doc | | | | |]; try done. destruct Hs as [Hn Hd]. destruct (parseWhereMap_spec doc Hn Hd) as (cs' & E & H1 & H2 & H3).
    change (parseWhere [vDoc doc]) with (parseWhereMap (vDoc doc)) in Hp. rewrite E in Hp. injection Hp as <-. split; [done |]. split; [intros d _; apply H2 |]. rewrite H3. by destruct doc.
  - destruct x as [| | | f | | | | | | | | |]; try done. intros Hs Hp. assert (plain f /\ literal y = true) as [Hf Hv] by by destruct y.
    assert (cs = [mkCondition f (match y with vNil => "null" | _ => "=" end) y]) as -> by (unfold parseWhere in Hp; destruct (blank f); destruct y; simpl in Hp; congruence).
    split; [constructor; [split; [done | by destruct y] | done] |]. split; [| done]. intros d _. by destruct y; simpl; rewrite andb_true_r.
  - destruct x as [| | | f | | | | | | | | |]; try done. destruct y as [| | | name | | | | | | | | |]; try done. intros (Hf & Hs & Hp). simpl. destruct (blank f); [done |].
    destruct (normalizeOp name z) as [[o w] |] eqn:E; [| done]. intros [= <-]. destruct (normalizeOp_spec f name z o w Hf Hs Hp E) as [H1 H2].
    split; [by constructor |]. split; [| done]. intros d Hd. simpl. by rewrite H2, andb_true_r.
  - by destruct x as [| | | f | | | | | | | | |]; try done; destruct y.
Qed.

Lemma call_spec l cs : sound l -> link_conditions l = Ok cs ->
  Forall condition_ok cs /\ (forall d, readable d l -> forallb (condition_holds d) cs = says d l) /\ (cs = [] <-> empty_where l = true).
Proof.
  intros Hs Hp. destruct l as [| | | | | | | | f p | f p]; [by apply parseWhere_spec | ..];
    [.. | destruct Hs as [Hs Hasc] | destruct Hs as [Hs Hasc]]; simpl in Hp; injection Hp as <-; (split; [constructor; [split; [exact Hs | unfold op; decide_names; eauto using known] | constructor] |]);
    (split; [| done]); intros d Hd; unfold condition_holds; simpl; decide_names; rewrite ?andb_true_r; try done;
    [by apply (regex_is_like d f false) | by apply (regex_is_like d f true)].
Qed.

(** ** The filter of a chain *)

Lemma and_call_conditions l q :
  and_call l q = match link_conditions l with Err e => setErr e q | Ok cs => q <| conditions := conditions q ++ cs |> end.
Proof. by destruct l. Qed.
Lemma or_call_conditions l g q : or_call l = Some g ->
  g q = match link_conditions l with Err e => setErr e q | Ok [] => q | Ok cs => q <| orGroups := orGroups q ++ [cs] |> end.
Proof. by destruct l; intros [= <-]. Qed.

Definition sound_call (c : bool * link) : Prop := sound c.2 /\ (c.1 = true -> or_call c.2 <> None).
Definition calls (b : bool) (cs : list (bool * link)) : list link := (List.filter (fun c => Bool.eqb c.1 b && negb (empty_where c.2)) cs).*2.

Lemma calls_snoc b cs c : calls b (cs ++ [c]) = calls b cs ++ (if Bool.eqb c.1 b && negb (empty_where c.2) then [c.2] else []).
Proof. unfold calls. rewrite List.filter_app. simpl. destruct (_ && _); [by rewrite fmap_app | by rewrite !app_nil_r]. Qed.

Record chain_ok (cs : list (bool * link)) (q : Query) : Prop := {
  ok_ands : Forall condition_ok (conditions q);
  ok_ors : Forall (fun g => Forall condition_ok g /\ g <> []) (orGroups q);
  said_ands d : Forall (fun c => readable d c.2) cs -> forallb (condition_holds d) (conditions q) = forallb (says d) (calls false cs);
  no_ands : conditions q = [] <-> calls false cs = [];
  said_ors d : Forall (fun c => readable d c.2) cs -> existsb (forallb (condition_holds d)) (orGroups q) = existsb (says d) (calls true cs);
  no_ors : orGroups q = [] <-> calls true cs = []
}.
Lemma setErr_some e q : err (setErr e q) <> None.
Proof. unfold setErr. by destruct (err q) eqn:E; simpl; [rewrite E |]. Qed.

Lemma readable_snoc d (cs : list (bool * link)) c : Forall (fun c => readable d c.2) (cs ++ [c]) -> Forall (fun c => readable d c.2) cs /\ readable d c.2.
Proof. by intros [H1 [H2 _]%Forall_cons]%Forall_app. Qed.

Lemma chain_ok_call cs q c : chain_ok cs q -> sound_call c -> err (chain_call c q) = None -> chain_ok (cs ++ [c]) (chain_call c q).
Proof.
  intros [H1 H2 H3 H4 H5 H6] [Hs Ho]. destruct c as [b l]. unfold chain_call. simpl in *. destruct b.
  - destruct (or_call l) as [g |] eqn:Eg; [| by destruct Ho]. simpl. rewrite (or_call_conditions l g q Eg).
    destruct (link_conditions l) as [xs |] eqn:El; [| by intros []%setErr_some]. destruct (call_spec l xs Hs El) as (Hok & Hsays & Hempty).
    assert (calls false (cs ++ [(true, l)]) = calls false cs) as Ea by by rewrite calls_snoc, app_nil_r.
    destruct xs as [| x xs].
    + intros _. assert (calls true (cs ++ [(true, l)]) = calls true cs) as Eo by (rewrite calls_snoc; simpl; by rewrite (proj1 Hempty eq_refl), app_nil_r).
      split; rewrite ?Ea, ?Eo; try done; intros d [Hd _]%readable_snoc; auto.
    + intros _. assert (calls true (cs ++ [(true, l)]) = calls true cs ++ [l]) as Eo.
      { rewrite calls_snoc. simpl. destruct (empty_where l); [by discriminate (proj2 Hempty eq_refl) | done]. }
      split; rewrite ?Ea, ?Eo; simpl; try done.
      * apply Forall_app. split; [done |]. constructor; [by split | constructor].
      * intros d [Hd _]%readable_snoc. auto.
      * intros d [Hd Hl]%readable_snoc. rewrite !existsb_app. rewrite H5 by done. simpl. f_equal. by rewrite <- Hsays.
      * split; by intros []%app_eq_nil.
  - rewrite and_call_conditions. destruct (link_conditions l) as [xs |] eqn:El; [| by intros []%setErr_some]. intros _.
    destruct (call_spec l xs Hs El) as (Hok & Hsays & Hempty).
    assert (calls true (cs ++ [(false, l)]) = calls true cs) as Ea by by rewrite calls_snoc, app_nil_r.
    split; rewrite ?Ea; simpl; try done.
    + by apply Forall_app.
    + intros d [Hd Hl]%readable_snoc. rewrite calls_snoc, !forallb_app, H3, Hsays by done. simpl.
      destruct (empty_where l); simpl; [| by rewrite andb_true_r]. rewrite <- Hsays by done. by rewrite (proj2 Hempty eq_refl).
    + rewrite calls_snoc. simpl. destruct (empty_where l); simpl.
      * rewrite (proj2 Hempty eq_refl). by rewrite !app_nil_r.
      * split; intros [_ Hx]%app_eq_nil; [by discriminate (proj1 Hempty Hx) | done].
    + intros d [Hd _]%readable_snoc. auto.
Qed.

Lemma call_err c q : err (chain_call c q) = None -> err q = None.
Proof.
  assert (forall e, err (setErr e q) = None -> err q = None) as H1 by by intros e []%setErr_some.
  destruct c as [[] l]; unfold chain_call; simpl.
  - destruct (or_call l) as [g |] eqn:E; [| done]. simpl. rewrite (or_call_conditions l g q E). destruct (link_conditions l) as [[] |]; simpl; eauto.
  - rewrite and_call_conditions. destruct (link_conditions l); simpl; eauto.
Qed.

Lemma chain_is_ok cs : Forall sound_call cs -> err (chain cs) = None -> chain_ok cs (chain cs).
Proof.
  unfold chain. induction cs as [| c cs IH] using rev_ind; [by repeat constructor |].
  intros [Hcs Hc]%Forall_app. apply Forall_cons in Hc as [Hc _]. rewrite foldl_app. simpl. intros He. apply chain_ok_call; [| done | done].
  apply IH; [done |]. by eapply call_err.
Qed.

Lemma or_clauses_spec gs : Forall (fun g => Forall condition_ok g /\ g <> []) gs ->
  exists fs, or_clauses gs = Ret fs /\ length fs = length gs /\ forall d, existsb (matches d) fs = existsb (forallb (condition_holds d)) gs.
Proof.
  induction 1 as [| g gs [Hg Hne] _ IH]; [by exists [] |]. destruct IH as (fs & E & Hl & Hs). destruct (buildConditionFilter_spec g Hg) as (f & Ef & Hf).
  exists (f :: fs). split; [| split; [simpl; by rewrite Hl | intros d; simpl; by rewrite Hf, Hs]].
  destruct g as [| c g]; [done |]. cbn [or_clauses]. by rewrite Ef, E.
Qed.

(** C17: a chain of calls that reports no error becomes, without a panic, a filter
    that matches exactly the documents the calls say: all of the calls of the
    [Where] kind, or one of the calls of the [Or] kind, and all documents only
    when no call said anything. LIKE and ILIKE say what SQL's do. It holds for
    fields that do not begin with a dollar, values for equality that are neither
    documents of operators nor regular expressions, operators passed through
    whose meaning does not depend on those beside them, patterns in ASCII, and
    documents whose fields hold one line of ASCII where a pattern is looked for. *)
Theorem filter_means_conditions cs :
  Forall sound_call cs -> err (chain cs) = None ->
  exists f, buildFilter (chain cs) = Ret f /\ forall d, Forall (fun c => readable d c.2) cs ->
    matches d f = match calls true cs with
                  | [] => forallb (says d) (calls false cs)
                  | ors => negb (bool_decide (length (calls false cs) = O)) && forallb (says d) (calls false cs) || existsb (says d) ors
                  end.
Proof.
  intros Hcs He. destruct (chain_is_ok cs Hcs He) as [H1 H2 H3 H4 H5 H6]. generalize dependent (chain cs). intros q _ H1 H2 H3 H4 H5 H6.
  destruct (buildConditionFilter_spec _ H1) as (base & Eb & Hb). destruct (or_clauses_spec _ H2) as (fs & Ef & Hl & Hf).
  unfold buildFilter. rewrite Eb. cbn [obind]. rewrite Ef. case_bool_decide as Eo.
  - apply nil_length_inv, H6 in Eo as ->. exists base. split; [done |]. intros d Hd. by rewrite Hb, <- H3.
  - assert (calls true cs <> []) as Ho by (intros Ho%H6; by rewrite Ho in Eo). destruct (calls true cs) as [| o os]; [done |]. cbn [obind].
    assert (bool_decide (length (conditions q) = O) = bool_decide (length (calls false cs) = O)) as ->.
    { apply bool_decide_ext. rewrite !length_zero_iff_nil. done. }
    assert (forall d, Forall (fun c => readable d c.2) cs -> existsb (matches d) ((if bool_decide (length (calls false cs) = O) then [] else [base]) ++ fs) =
      negb (bool_decide (length (calls false cs) = O)) && forallb (says d) (calls false cs) || existsb (says d) (o :: os)) as Hm.
    { intros d Hd. rewrite existsb_app, Hf, H5 by done. f_equal. case_bool_decide; simpl; [done |]. rewrite Hb, <- H3 by done. by rewrite orb_false_r. }
    destruct (_ ++ fs) as [| f [| f' fs']] eqn:Ec.
    + exfalso. apply app_eq_nil in Ec as [_ ->]. simpl in Hl. by destruct (orGroups q).
    + exists f. split; [done |]. intros d Hd. rewrite <- Hm by done. simpl. by rewrite orb_false_r.
    + eexists. split; [done |]. intros d Hd. rewrite <- Hm by done. by apply matches_or.
Qed.
End Meaning.

(** ** Grouped aggregation *)

Lemma group_keys_spec fs ks keys : group_keys fs ks = Ok keys <-> keys = ks ++ (groupKeyName <$> fs) /\ NoDup (groupKeyName <$> fs) /\ (forall f, f ∈ fs -> groupKeyName f ∉ ks).
Proof.
  revert ks. induction fs as [| f fs IH]; intros ks; simpl.
  - rewrite app_nil_r. split; [intros [= ->] | by intros (-> & _)]. split; [done |]. split; [constructor |]. by intros f []%not_elem_of_nil.
  - case_bool_decide as E.
    + split; [done |]. intros (_ & _ & Hn). destruct (Hn f); [by left | done].
    + rewrite IH, NoDup_cons, <- app_assoc. split; intros (-> & H1 & H2).
      * split; [done |]. split; [split; [| done] |].
        -- intros (g & Eg & Hg)%list_elem_of_fmap. destruct (H2 g Hg). rewrite Eg. set_solver.
        -- intros g [-> | Hg]%elem_of_cons; [done |]. intros Hk. destruct (H2 g Hg). set_solver.
      * split; [done |]. split; [tauto |]. intros g Hg. rewrite elem_of_app, list_elem_of_singleton. intros [Hk | Hk]; [destruct (H2 g); [by right | done] |].
        destruct H1 as [H1 _]. apply H1. rewrite <- Hk. apply list_elem_of_fmap. eauto.
Qed.
Lemma result_columns_spec keys specs cols out : keys ⊆ cols ->
  result_columns keys specs cols = Ok out <-> out = cols ++ (alias <$> specs) /\ NoDup (alias <$> specs) /\ (forall s, s ∈ specs -> alias s ∉ cols).
Proof.
  revert cols. induction specs as [| s specs IH]; intros cols Hk; simpl.
  - rewrite app_nil_r. split; [intros [= ->] | by intros (-> & _)]. split; [done |]. split; [constructor |]. by intros f []%not_elem_of_nil.
  - case_bool_decide as E1; [split; [done |]; intros (_ & _ & Hn); destruct (Hn s); [by left | by apply Hk] |].
    case_bool_decide as E2; [split; [done |]; intros (_ & _ & Hn); destruct (Hn s); [by left | done] |].
    rewrite IH by set_solver. rewrite NoDup_cons, <- app_assoc. split; intros (-> & H1 & H2).
    + split; [done |]. split; [split; [| done] |].
      * intros (g & Eg & Hg)%list_elem_of_fmap. destruct (H2 g Hg). rewrite Eg. set_solver.
      * intros g [-> | Hg]%elem_of_cons; [done |]. intros Hx. destruct (H2 g Hg). set_solver.
    + split; [done |]. split; [tauto |]. intros g Hg. rewrite elem_of_app, list_elem_of_singleton. intros [Hx | Hx]; [destruct (H2 g); [by right | done] |].
      destruct H1 as [H1 _]. apply H1. rewrite <- Hx. apply list_elem_of_fmap. eauto.
Qed.

(** An aggregation is accepted exactly when it has group keys and no projection,
    its columns, the flattened keys and the aliases, are all different, and
    [Having] and [OrderBy] name columns. *)
Theorem aggregation_rules q cols :
  columns q = Ok cols <->
  groupFields q <> [] /\ fields q = [] /\ cols = (groupKeyName <$> groupFields q) ++ (alias <$> aggSpecs q) /\ NoDup cols /\
  (forall c, c ∈ havingConds q -> field c ∈ cols) /\ (forall e, e ∈ sort q -> e.1 ∈ cols).
Proof.
  unfold columns. case_bool_decide as E1; [by split; [| intros []] |].
  destruct (bool_decide (fields q = [])) eqn:E2; simpl; [apply bool_decide_eq_true in E2 | apply bool_decide_eq_false in E2; by split; [| intros (_ & E & _)]].
  assert (forall keys, group_keys (groupFields q) [] = Ok keys <-> keys = groupKeyName <$> groupFields q /\ NoDup (groupKeyName <$> groupFields q)) as Hg.
  { intros keys. rewrite group_keys_spec. simpl. split; [tauto |]. intros [-> H]. split; [done |]. split; [done |]. intros f _ []%not_elem_of_nil. }
  assert (forall out, result_columns (groupKeyName <$> groupFields q) (aggSpecs q) (groupKeyName <$> groupFields q) = Ok out <->
    out = (groupKeyName <$> groupFields q) ++ (alias <$> aggSpecs q) /\ NoDup (alias <$> aggSpecs q) /\ (forall s, s ∈ aggSpecs q -> alias s ∉ groupKeyName <$> groupFields q)) as Hc
    by by intros out; apply result_columns_spec.
  assert (forall s, s ∈ alias <$> aggSpecs q <-> exists a, s = alias a /\ a ∈ aggSpecs q) as Ha by (intros s; apply list_elem_of_fmap).
  split.
  - destruct (group_keys _ _) as [keys |]; [| done]. destruct (proj1 (Hg _) eq_refl) as [-> Hn].
    destruct (result_columns _ _ _) as [out |]; [| done]. destruct (proj1 (Hc _) eq_refl) as (-> & Hs & Hd).
    destruct (forallb _ (havingConds q)) eqn:Eh; [| done]. destruct (forallb _ (sort q)) eqn:Es; [| done]. simpl. intros [= <-].
    rewrite forallb_forall in Eh, Es. do 3 (split; [done |]). split; [| split].
    + apply NoDup_app. split; [done |]. split; [| done]. intros x Hx (a & -> & H)%Ha. by apply (Hd a).
    + intros c Hx. eapply bool_decide_eq_true, Eh. by apply list_elem_of_In.
    + intros e Hx. eapply bool_decide_eq_true, Es. by apply list_elem_of_In.
  - intros (_ & _ & -> & (Hn & Hd & Hs)%NoDup_app & Hh & Ho). rewrite (proj2 (Hg _) (conj eq_refl Hn)).
    rewrite (proj2 (Hc _)) by (split; [done |]; split; [done |]; intros s H1 H2; apply (Hd _ H2), Ha; eauto).
    rewrite (proj2 (forallb_forall _ (havingConds q))), (proj2 (forallb_forall _ (sort q))); [done | |]; intros x Hx%list_elem_of_In; apply bool_decide_eq_true; auto.
Qed.

Lemma get_put {A} k (v : A) m k' : get k' (put k v m) = if bool_decide (k' = k) then Some v else get k' m.
Proof.
  induction m as [| [j w] m IH]; simpl; [done |]. destruct (decide (k = j)) as [-> | Hne].
  - rewrite (bool_decide_true (j = j)) by done. simpl. by case_bool_decide.
  - rewrite (bool_decide_false (k = j)) by done. simpl. rewrite IH. repeat case_bool_decide; congruence.
Qed.
(** A column that is put once keeps what was put, the others what they had. *)
Lemma get_put_all {A B} (name : A -> string) (val : A -> B) l m k : NoDup (name <$> l) ->
  get k (foldl (fun m a => put (name a) (val a) m) m l) = match List.find (fun a => bool_decide (name a = k)) l with Some a => Some (val a) | None => get k m end.
Proof.
  revert m. induction l as [| a l IH]; intros m; [done |]. rewrite fmap_cons, NoDup_cons. intros [Ha Hl]. simpl. rewrite (IH _ Hl), get_put.
  destruct (List.find _ l) as [b |] eqn:E.
  - case_bool_decide as Ek; [| done]. apply find_some in E as [Hb E]. apply bool_decide_eq_true in E. destruct Ha. rewrite Ek, <- E. apply list_elem_of_fmap_2. by apply list_elem_of_In.
  - case_bool_decide as Ek; [by rewrite bool_decide_true | by rewrite bool_decide_false].
Qed.
Lemma find_named {A} (name : A -> string) l a : NoDup (name <$> l) -> a ∈ l -> List.find (fun b => bool_decide (name b = name a)) l = Some a.
Proof.
  induction l as [| b l IH]; [by intros _ []%not_elem_of_nil |]. rewrite fmap_cons, NoDup_cons. intros [Hb Hl] [-> | Ha]%elem_of_cons; simpl; [by rewrite bool_decide_true |].
  rewrite bool_decide_false; [by apply IH |]. intros E. apply Hb. rewrite E. by apply list_elem_of_fmap_2.
Qed.
Lemma find_no_name {A} (name : A -> string) l k : k ∉ name <$> l -> List.find (fun b => bool_decide (name b = k)) l = None.
Proof.
  intros H. destruct (List.find _ l) as [b |] eqn:E; [| done]. apply find_some in E as [Hb E]. apply bool_decide_eq_true in E as <-. destruct H. apply list_elem_of_fmap_2. by apply list_elem_of_In.
Qed.

(** Of an accepted aggregation every column is in the rows: each alias is
    accumulated and kept, each group key is taken from the id of its group. *)
Theorem aggregation_columns q cols : columns q = Ok cols -> (forall s, s ∈ aggSpecs q -> alias s <> "_id") ->
  (forall s, s ∈ aggSpecs q -> exists g p, group_doc q = vDoc g /\ project_doc q = vDoc p /\ get (alias s) g = Some (accumulator s) /\ get (alias s) p = Some (vInt 1)) /\
  (forall f, f ∈ groupFields q -> exists p, project_doc q = vDoc p /\
    get (groupKeyName f) p = Some (vString (if bool_decide (length (groupFields q) = 1)%nat then "$_id" else String.append "$_id." (groupKeyName f)))) /\
  (exists g, group_doc q = vDoc g /\ get "_id" g = Some (group_id q)).
Proof.
  rewrite aggregation_rules. intros (_ & _ & -> & (Hk & Hd & Hs)%NoDup_app & _) Hid. unfold group_doc, project_doc. split; [| split].
  - intros s H. eexists _, _. split; [done |]. split; [done |]. rewrite !(get_put_all alias) by done. by rewrite (find_named alias).
  - intros f H. eexists. split; [done |]. rewrite (get_put_all alias) by done. rewrite find_no_name.
    + unfold project_keys. destruct (groupFields q) as [| g [| g' gs]] eqn:Eg; [by apply not_elem_of_nil in H | |].
      * apply list_elem_of_singleton in H as ->. by rewrite get_put, bool_decide_true.
      * rewrite (get_put_all groupKeyName) by done. by rewrite (find_named groupKeyName).
    + apply Hd. by apply list_elem_of_fmap_2.
  - eexists. split; [done |]. rewrite (get_put_all alias) by done. rewrite find_no_name; [done |]. intros (s & E & H)%list_elem_of_fmap. by apply (Hid s).
Qed.

(** ** Errors *)

(** The first error of a chain is what an execution method returns; nothing is sent. *)
Lemma first_error_is_returned q e send : err q = Some e -> sending q send = Ret (Err e).
Proof. intros E. unfold sending, preflight, preflightBase. by rewrite E. Qed.
Lemma error_stays c q e : err q = Some e -> err (chain_call c q) = Some e.
Proof.
  intros E. assert (forall e', err (setErr e' q) = Some e) as H1 by (intros e'; unfold setErr; by rewrite E).
  destruct c as [[] l]; unfold chain_call; simpl.
  - destruct (or_call l) as [g |] eqn:Eg; [| done]. simpl. rewrite (or_call_conditions l g q Eg). by destruct (link_conditions l) as [[] |].
  - rewrite and_call_conditions. by destruct (link_conditions l).
Qed.

(** ** A database *)

Definition scalar_eqb (a b : value) : bool :=
  match a, b with
  | vNil, vNil => true
  | vBool a, vBool b => Bool.eqb a b
  | vInt a, vInt b => bool_decide (a = b)
  | vString a, vString b => bool_decide (a = b)
  | _, _ => false
  end.
Definition int_rel (r : Z -> Z -> bool) (a b : value) : bool := match a, b with vInt a, vInt b => r a b | _, _ => false end.
Fixpoint compare_with (o : string) (v a : value) : bool :=
  if bool_decide (o = "$eq") then scalar_eqb a v else if bool_decide (o = "$ne") then negb (scalar_eqb a v) else
  if bool_decide (o = "$gt") then int_rel (fun a b => b <? a) a v else if bool_decide (o = "$gte") then int_rel (fun a b => b <=? a) a v else
  if bool_decide (o = "$lt") then int_rel (fun a b => a <? b) a v else if bool_decide (o = "$lte") then int_rel (fun a b => a <=? b) a v else
  if bool_decide (o = "$not") then match v with vDoc os => negb (forallb (fun kv => compare_with kv.1 kv.2 a) os) | _ => false end else
  if bool_decide (o = "$regex") then
    match v, a with
    | vRegex r opts, vString s => match regex_items r with Some its => takes (bool_decide (opts = "i")) its (chars s) | None => false end
    | _, _ => false
    end
  else match v with vList l => Bool.eqb (bool_decide (o = "$in")) (existsb (fun x => scalar_eqb a x) l) | _ => false end.
Definition document_holds (d : list (string * value)) (f o : string) (v : value) : bool := compare_with o v (default vNil (get f d)).
Fixpoint document_matches (d : list (string * value)) (f : value) : bool :=
  match f with
  | vDoc fs =>
      forallb (fun kv =>
        if bool_decide (kv.1 = "$and") then match kv.2 with vList l => forallb (document_matches d) l | _ => false end else
        if bool_decide (kv.1 = "$or") then match kv.2 with vList l => existsb (document_matches d) l | _ => false end else
        match kv.2 with
        | vDoc os => if hasOperatorKey os then forallb (fun o => document_holds d kv.1 o.1 o.2) os else document_holds d kv.1 "$eq" (vDoc os)
        | v => document_holds d kv.1 "$eq" v
        end) fs
  | _ => false
  end.
#[export] Instance small_mongo : Mongo :=
  {| Document := list (string * value); matches := document_matches; holds := document_holds;
     texts := fun d f => match default vNil (get f d) with vString s => [chars s] | _ => [] end;
     alone := fun o => bool_decide (o ∈ ["$eq"; "$ne"; "$gt"; "$gte"; "$lt"; "$lte"; "$in"; "$nin"; "$not"; "$regex"]) |}.
#[export] Instance small_laws : MongoLaws.
Proof.
  split.
  - by vm_compute; repeat constructor.
  - intros d fs _. simpl. apply forallb_same. intros kv _. by rewrite andb_true_r.
  - intros d l _. simpl. by rewrite andb_true_r.
  - intros d l _. simpl. by rewrite andb_true_r.
  - intros d f os Hf Hne _ Ho. unfold plain in Hf. simpl. rewrite !bool_decide_false by (intros ->; done). rewrite andb_true_r.
    destruct os as [| [o v] os]; [done |]. apply Forall_cons in Ho as [Ho _]. simpl in Ho.
    assert (HasPrefix o "$" = true) as Hp by (apply bool_decide_eq_true in Ho; repeat (apply elem_of_cons in Ho as [-> | Ho]; [done |]); by apply not_elem_of_nil in Ho).
    unfold hasOperatorKey. simpl. by rewrite Hp.
  - intros d f v Hf Hv. unfold plain in Hf. simpl. rewrite !bool_decide_false by (intros ->; done). rewrite andb_true_r. destruct v as [| | | | | | | doc | | | | |]; try done.
    simpl in Hv. by destruct (hasOperatorKey doc).
  - intros d f ci r its Hr _ _. simpl. unfold document_holds. set (v := default vNil (get f d)). clearbody v. simpl.
    destruct v as [| | | s | | | | | | | | |]; try done. rewrite Hr. simpl. rewrite orb_false_r. by destruct ci.
Qed.

Definition adults_or_named : list (bool * link) :=
  [(false, byWhere [vString "age"; vString ">="; vInt 18]); (false, byWhere [vString "age"; vString " Between"; vList [vInt 10; vInt 30]]);
   (false, byNull "deleted_at"); (true, byWhere [vString "name"; vString "ILIKE"; vString "t%m"]); (true, byWhere [vDoc [("name", vString "Tom"); ("city", vNil)]])].
Lemma filter_means_conditions_witness :
  (exists f, buildFilter (chain adults_or_named) = Ret f /\ forall d : list (string * value), Forall (fun c => readable d c.2) adults_or_named ->
    document_matches d f = negb (bool_decide (length (calls false adults_or_named) = O)) && forallb (says d) (calls false adults_or_named) || existsb (says d) (calls true adults_or_named)) /\
  match buildFilter (chain adults_or_named) with
  | Ret f => (document_matches [("age", vInt 20)] f, document_matches [("age", vInt 40)] f, document_matches [("age", vInt 9); ("name", vString "Tom")] f,
               document_matches [("age", vInt 9); ("name", vString "Atom")] f) = (true, false, true, false)
  | Panic _ => False
  end.
Proof.
  split; [| by vm_compute]. apply (filter_means_conditions (H := small_mongo) (L := small_laws) adults_or_named); [| by vm_compute].
  repeat constructor; try done; try (by vm_compute); set_solver.
Defined.

(** ** What the filter does not say *)

(** A condition on [$and] is overwritten by the clauses for repeated conditions. *)
Lemma condition_on_and_is_lost :
  buildFilter (chain [(false, byWhere [vString "$and"; vList [vDoc [("age", vInt 1)]]]); (false, byWhere [vString "a"; vInt 1]); (false, byWhere [vString "a"; vInt 2])]) =
  Ret (vDoc [("$and", vList [vDoc [("a", vInt 2)]]); ("a", vInt 1)]).
Proof. by vm_compute. Qed.
(** A document of operators given for a value is read as operators, or compared as
    it is when the field has an operator before. *)
Lemma operators_as_value : let more := vDoc [("$gt", vInt 1)] in
  buildFilter (chain [(false, byWhere [vString "a"; more]); (false, byWhere [vString "a"; vString "<"; vInt 9])]) =
    Ret (vDoc [("a", more); ("$and", vList [vDoc [("a", vDoc [("$lt", vInt 9)])]])]) /\
  buildFilter (chain [(false, byWhere [vString "a"; vString "<"; vInt 9]); (false, byWhere [vString "a"; more])]) =
    Ret (vDoc [("a", vDoc [("$lt", vInt 9); ("$eq", more)])]).
Proof. by vm_compute. Qed.
